(* ===== verification/_CoqProject ===== *)
-Q . S2P
Prelude.v
BTree.v
ControlPlane.v
ProtocolWire.v
ProtocolOption.v
ProtocolTransmission.v
Server.v
ExtentMap.v
Wal.v
WalLocal.v
WalRecovery.v
WalInterface.v
Overlay.v
Geometry.v
Admission.v
Export.v
Catalog.v
Tree.v
Storage.v
ReadCache.v
ReadCacheCorrect.v
ReadView.v
TreeReaders.v
ReadViewCorrect.v
Publication.v
TreePaths.v
Compaction.v
CompactionPlan.v
CompactionCorrect.v
Engine.v
EngineCorrect.v
Memory.v
SimpleDurable.v
SimplePlan.v
SimpleCorrect.v
Runtime.v
Registry.v
Connection.v
Client.v
Config.v
S3.v
Factory.v
Process.v
Doctor.v
Cli.v
