(* ===== verification/Prelude.v ===== *)
(** * Verification of nbd-server

    nbd-server serves block devices over the Network Block Device protocol.  A
    connection negotiates an export with the option messages and then sends
    transmission requests; an export admits requests in an order that respects
    their conflicts and hands them to a storage engine.  The WAL-durable engine
    appends writes to a local write-ahead log, indexes them in an overlay of byte
    extents, and moves them in the background to an immutable tree of 32 MiB
    chunks, whose records and whose current root (the export head) live in a
    SQLite catalog.  Reads combine the overlay with the committed tree.

    ** Files, the parts they model and what they show

    - [Prelude]: results that may panic, the state monad of [&mut self] methods,
      machine integers, byte codings, UTF-8, slices, and the tactics of the
      development ([inv_ok], [case_bool], [decide_cmp], [dlia], [by_compute]).
    - [BTree]: the part of [BTreeMap] the code uses, as a sorted association list,
      with the laws of [range], [insert] and [remove].
    - [ControlPlane]: [nbd-control-plane-core/src] [export.rs], [tree.rs],
      [tree_format.rs], [error.rs]: identifiers, export heads, descriptors and
      records with the checks of their constructors.
    - [Catalog]: [nbd-control-plane-sqlite/src] and [prisma/migrations]: the tables with
      their constraints and every catalog operation as statements and
      transactions.  Integrity holds after any operations with any failing
      statements, a failed operation leaves no trace, a publication is an atomic
      compare-and-swap, and creating and cloning do what they promise.
    - [ProtocolWire], [ProtocolOption], [ProtocolTransmission]: [nbd-protocol/src]: the
      encoders and parsers.  Parsers are exact inverses of encoders on admissible
      messages and total on all byte strings.
    - [Server]: [nbd-server/src] [error.rs] and [range.rs].
    - [ExtentMap]: [engines/wal_durable/extent_map.rs]: the bounded search is a
      filter; inserting and removing change the contents exactly where they say.
      The value type and the split closure are section variables, and [splits_ok] is
      the law of the closure, which the overlay proves of its own.
    - [Wal]: [wal/mod.rs], [wal/codec.rs], [wal/replay.rs]: the frames of the log.  A
      record survives its encoding, a torn frame is recognised, and decoding is
      safe on any bytes.  The checksum is a parameter of the codec; [crc32c] is the
      concrete function the witnesses use.
    - [WalLocal]: [wal/local.rs]: opening, scanning, repairing, appending with
      rotation, replaying and pruning over a file system.
    - [WalRecovery]: the invariant of the log and the theorems about [WalLocal]: an
      append extends the log, a crash inside an append loses nothing, replay and
      prune are exact; and two runs where the code does not keep what its design
      promises.
    - [Overlay]: [engines/wal_durable/overlay.rs]: a last-writer-wins index of the
      log records, its read slices and the retirement of compacted records.
    - [Geometry]: [engines/tree/geometry.rs]: levels, spans, paths and the cutting of
      byte ranges in chunks.
    - [Admission]: [export/admission.rs]: the admission controller with its waiters
      and permits as a step relation: safety, no lost wakeups, flush barriers,
      and progress: every waiter is sent its permit once the running operations finish.
    - [Tree]: [engines/tree/read.rs] and [engines/tree/edit.rs]: blocks, the record factory and
      the lazy metadata reader, which is written against the class [TreeRecordStore]
      ([service.rs]).  It is sound with any store, exact with any store that obeys
      [TreeRecordStoreLaws], and the SQLite catalog of [Catalog] is an instance of both.
    - [Storage]: [storage/mod.rs] and [storage/local.rs]: the class [BlobStore] with its laws, and the
      local directory as an instance, whose calls may fail.  The laws fix a read only where the blob has the bytes, which
      is all that S3 promises; the tree readers ask for whole chunks of blobs that are whole chunks.
    - [ReadCache], [ReadCacheCorrect]: [engines/wal_durable/read_cache.rs]: the cache with its merged
      objects and recency list, its invariant, what inserting and trimming do to each byte, and
      eviction.
    - [ReadView], [TreeReaders], [ReadViewCorrect]: [engines/wal_durable/read_view.rs]: overlay, cache and
      committed root behind one lock.  Readers of committed bytes are the class [TreeReader] with its laws,
      and the copy-on-write reader obeys them.  A read is three critical sections that interleave with
      writes and root advances; it is linearizable, and the view refines a byte array.
    - [Publication], [TreePaths]: what a publisher of tree records promises ([TreePublisher], proved of the
      SQLite catalog), and paths in a tree whose rows have a batch of new records on top.
    - [Compaction], [CompactionPlan], [CompactionCorrect]:
      [engines/wal_durable/compaction.rs]: from a snapshot of the overlay to a published tree.
      The planned tree shares what it does not
      replace, its bytes are the old ones with the records on top, and installing it is invisible.
    - [WalInterface]: the trait [ExportWal] as a class with laws, and the local log as its instance.
    - [Export]: [export/request.rs], [export/engine.rs]: requests and the engine interface.
    - [Engine], [EngineCorrect]: [engines/wal_durable/mod.rs] and [admission.rs]: the engine over any log,
      record store and blob store that obey their laws refines a byte array across compactions,
      restarts and crashes.
    - [Memory]: [engines/memory.rs]: the memory engine, and its unsafe shared storage under [Admission].
    - [SimpleDurable], [SimplePlan], [SimpleCorrect]: [engines/simple_durable]: the engine whose chunks are mutable
      blobs.  The commit planner adds leaves to a tree in place; the engine refines a byte array whose
      failed writes may leave bytes old or new, and its writes are admitted on whole chunks.
    - [Runtime]: [export/runtime.rs], [export/completion.rs]: the serial and the concurrent runtime over any
      engine, with their queue slots, jobs, worker and calls of [close].  The engine is closed once and after the
      last job, closing does not hang unless a serial worker has panicked (or a serial submission is aborted, which is no step of the model), jobs respect [Admission], and the queue
      depth bounds them.  The permit of an admitted request is released once, whether or not its payload is moved out.
    - [Registry]: [registry/mod.rs], [registry/active.rs]: opening and closing exports from many connections, as the steps of one
      connection ([rg_call]) and its loss in the middle of a call ([rg_quit]).  An
      export has one runtime and one owner at a time.
    - [Connection]: [connection/]: handshake, negotiation, the request reader, the reply writer and the tasks of the
      transmission phase.  A connection closes what it opens, the reader takes apart the input as the client encoded
      it, and every reply answers one request, which no other reply answers.
    - [Client]: [nbd-us-client/src]: the client library against [Connection]: connecting and each request make the
      round trip.
    - [Config]: [nbd-config/src] and [nbd-control-plane/src/catalog_url.rs]: the configuration with its defaults and the
      files it is kept in.  A configuration is generated once and read back; a start that fails changes no file, except that a failed write may
      leave a part of the configuration.
    - [S3]: [storage/s3.rs]: the blob store on S3.  The client library is the class [S3Sdk], its documented behaviour are the laws
      [S3SdkLaws], and an in-memory service keeps them.  Accepted key prefixes are well formed, the store creates a blob at most
      once and reads back what it stored, and it is an instance of [BlobStore] with its laws.
    - [Factory]: [registry/factory.rs], [create_runtime] of [registry/mod.rs], [ConfiguredBlobStore] of [storage/mod.rs] and
      [open_export] of [wal/local.rs]: opening an export by name, with the engine its descriptor names over the configured stores.  What was stored
      before is there again, and a WAL-durable export is a byte array from its creation in the catalog on, on local blobs and on S3.
    - [Process]: [server.rs] and [open_catalog] of [nbd-control-plane/src/lib.rs]: the start of the server, and its accept loop as a step relation
      over connection tasks and the [Registry].  A shutdown joins every connection, leaves no export open, and can always finish.
    - [Doctor]: [diagnostics.rs], [doctor_catalog], [doctor_path] and the [doctor] modules of [nbd-server] and [nbdcli], over the files, paths and
      databases that the command-line tools see; what comes from other libraries and the environment is the class [ToolEnv].
    - [Cli]: [nbdcli/src] and the commands of [nbd-server] ([main.rs], [cli.rs], [output.rs], [logging.rs]).  The diagnoses change nothing and agree with
      what [nbdcli list] and a start of the server then do, but for the S3 settings, which the doctor does not check; and a catalog command does what its exit code says.

    ** Conventions

    A Rust [Result] is an [outcome] with a third case [Panic] for a failed [expect], a slice
    out of range or an exhausted fuel, which the theorems exclude.  A method on [&mut self]
    is a function in the monad [M], whose final state is kept on errors.  [u64], [u32],
    [u16] and [usize] (64 bits) are integers [Z]; the plain operators wrap around as in a
    release build, where [debug_assert] is not run, and [checked_*] returns an option.
    [format!] messages are kept as their templates, the opaque [source] of an error is
    dropped, logging is not modelled, and a region under a lock is one step.  Code outside
    the repository is a parameter or an explicit model: the checksum, the UUID and the
    clock are arguments, the file system is a map from names to bytes with a list of faults
    that says how many bytes of a write arrive, and the database is a set of tables with a
    list of faults, one per statement.  What the code draws at random (blob keys,
    node identifiers) is a stream given as an argument; the iteration order of a hash map whose
    order reaches the result is the order of the model's map.

    ** Fuel

    The scan of a segment has its length as fuel, since each record has a header; the growth
    of the tree levels has thirteen rounds, since the capacity grows by 32 and fits 64 bits;
    cutting a range has three rounds more than the chunks it fills; a promotion has one
    round per waiter and one to stop; the growth of a cache component has one round per source,
    eviction one per object, an insertion one per cache block it meets, the loops over options, replies and requests one per byte of input, a committed read and the
    merge of a slice, and the loops of the simple durable engine, two more than the chunks they fill.  In each case a theorem shows that the fuel
    suffices.

    ** Concurrency

    A region under a lock is one step.  Where tasks interleave, the interleaving is explicit: the admission
    controller is a step relation, a read of the view is three steps with other events in between, a compaction
    overlaps with the events of the view, the copies of the memory engine are single bytes, and the tasks of a
    runtime, of the registry, of a connection and of the server are step relations, which allow every order that the code allows.  The
    operations of [Engine] and [SimpleDurable] run without interruption; the theorems about the view and the
    compaction say why their interleavings do not show.

    ** Not modelled, and why

    The names and macros of log events ([observability.rs]) and the log lines themselves, which no result depends on; the parsing of command-line
    arguments, which a library derives from the types that are modelled; the helpers of the integration tests
    ([nbd-test-support]).  Timers, sockets, task spawning, and the libraries for TOML, JSON, SQLite connections, S3 and log
    filters are parameters of the parts that use them.  The wait for an interrupt between the start of the server and its shutdown has no
    definition of its own: the shutdown signal may come at any step of [Process]. *)

From Stdlib Require Import Strings.Byte.
From stdpp Require Export prelude gmap strings list sorting.
From Stdlib Require Export ZArith Lia.

#[global] Open Scope Z_scope.

Declare Scope rust_scope.
Delimit Scope rust_scope with rust.
#[global] Open Scope rust_scope.

(** ** Outcomes: [Result<T, E>] plus the possibility of a panic *)

Inductive outcome (E A : Type) : Type :=
| Ok (a : A)
| Err (e : E)
| Panic.
Arguments Ok {E A} a.
Arguments Err {E A} e.
Arguments Panic {E A}.

Definition obind {E A B} (m : outcome E A) (f : A → outcome E B) : outcome E B :=
  match m with
  | Ok a => f a
  | Err e => Err e
  | Panic => Panic
  end.

(** [let? x := m in k] is Rust's [let x = m?; k]. *)
Notation "'let?' x ':=' m 'in' k" := (obind m (λ x, k))
  (at level 10, x pattern, m at level 100, k at level 200) : rust_scope.

Definition map_err {E F A} (f : E → F) (m : outcome E A) : outcome F A :=
  match m with
  | Ok a => Ok a
  | Err e => Err (f e)
  | Panic => Panic
  end.

Definition omapo {E A B} (f : A → B) (m : outcome E A) : outcome E B :=
  match m with
  | Ok a => Ok (f a)
  | Err e => Err e
  | Panic => Panic
  end.

(** [Option::ok_or]. *)
Definition ok_or {E A} (o : option A) (e : E) : outcome E A :=
  match o with Some a => Ok a | None => Err e end.

(** [Option::expect] and slice indexing: [None] is a panic. *)
Definition or_panic {E A} (o : option A) : outcome E A :=
  match o with Some a => Ok a | None => Panic end.

(** [iter.map(f).collect::<Result<Vec<_>>>()]: stops at the first failure. *)
Fixpoint try_map {E A B} (f : A → outcome E B) (l : list A) : outcome E (list B) :=
  match l with
  | [] => Ok []
  | x :: l => let? y := f x in let? ys := try_map f l in Ok (y :: ys)
  end.

Definition is_ok {E A} (m : outcome E A) : bool :=
  match m with Ok _ => true | _ => false end.

(** ** State-and-outcome monad: a [&mut self] method returning [Result]

    The final state is kept on the error path too: a Rust method that fails
    half way leaves the object as it is at that point. *)

Definition M (S E A : Type) : Type := S → outcome E A * S.

Definition mret {S E A} (a : A) : M S E A := λ s, (Ok a, s).
Definition mfail {S E A} (e : E) : M S E A := λ s, (Err e, s).
Definition mlift {S E A} (o : outcome E A) : M S E A := λ s, (o, s).
Definition mget {S E} : M S E S := λ s, (Ok s, s).
Definition mput {S E} (s' : S) : M S E unit := λ _, (Ok tt, s').
Definition mmodify {S E} (f : S → S) : M S E unit := λ s, (Ok tt, f s).

Definition mseq {S E A B} (m : M S E A) (f : A → M S E B) : M S E B :=
  λ s, match m s with
       | (Ok a, s') => f a s'
       | (Err e, s') => (Err e, s')
       | (Panic, s') => (Panic, s')
       end.

Notation "'let!' x ':=' m 'in' k" := (mseq m (λ x, k))
  (at level 10, x pattern, m at level 100, k at level 200) : rust_scope.

(** A method on a field of a larger object. *)
Definition zoom {S T E A} (get : S → T) (set : T → S → S) (m : M T E A) : M S E A :=
  λ s, let '(o, t) := m (get s) in (o, set t s).

(** [match m { Ok(a) => .., Err(e) => .. }]. *)
Definition mtry {S E F A} (m : M S E A) : M S F (E + A) :=
  λ s, match m s with
       | (Ok a, s') => (Ok (inr a), s')
       | (Err e, s') => (Ok (inl e), s')
       | (Panic, s') => (Panic, s')
       end.

(** [m.map_err(f)]. *)
Definition mmap_err {S E F A} (f : E → F) (m : M S E A) : M S F A :=
  λ s, let '(o, s') := m s in (map_err f o, s').

(** [for x in l { f(x)? }]. *)
Fixpoint mfor {S E A} (l : list A) (f : A → M S E unit) : M S E unit :=
  match l with
  | [] => mret tt
  | x :: l => let! _ := f x in mfor l f
  end.

Section outcome_lemmas.
Context {E : Type}.

Lemma obind_ok {A B} (m : outcome E A) (f : A → outcome E B) b :
  obind m f = Ok b ↔ ∃ a, m = Ok a ∧ f a = Ok b.
Proof. destruct m; naive_solver. Qed.

Lemma ok_or_ok {A} (o : option A) (e : E) a : ok_or o e = Ok a ↔ o = Some a.
Proof. destruct o; naive_solver. Qed.

Lemma or_panic_ok {A} (o : option A) a : or_panic (E:=E) o = Ok a ↔ o = Some a.
Proof. destruct o; naive_solver. Qed.

Lemma mseq_ok {S A B} (m : M S E A) (f : A → M S E B) s a s' :
  m s = (Ok a, s') → mseq m f s = f a s'.
Proof. intros H. unfold mseq. by rewrite H. Qed.

Lemma mseq_inv {S A B} (m : M S E A) (f : A → M S E B) s b s' :
  mseq m f s = (Ok b, s') → ∃ a s1, m s = (Ok a, s1) ∧ f a s1 = (Ok b, s').
Proof. unfold mseq. destruct (m s) as [[| |] ?]; naive_solver. Qed.

Lemma mlift_inv {S A} (o : outcome E A) (s : S) a s' :
  mlift o s = (Ok a, s') → o = Ok a ∧ s' = s.
Proof. by intros [= -> ->]. Qed.

Lemma try_map_ok {A B} (f : A → outcome E B) (g : A → B) l :
  (∀ x, x ∈ l → f x = Ok (g x)) → try_map f l = Ok (g <$> l).
Proof.
  induction l as [|x l IH]; intros Hf; [done|]; cbn.
  rewrite Hf by set_solver. cbn. rewrite IH by set_solver. done.
Qed.

Lemma try_map_inv {A B} (f : A → outcome E B) l ys :
  try_map f l = Ok ys → Forall2 (λ x y, f x = Ok y) l ys.
Proof.
  revert ys. induction l as [|x l IH]; intros ys; cbn; [naive_solver|].
  rewrite obind_ok. intros (y & Hy & H). apply obind_ok in H as (ys' & Hys & [= <-]).
  constructor; eauto.
Qed.
End outcome_lemmas.

(** ** Machine integers

    [u16], [u32], [u64] and [usize] values are [Z] in range; [usize] has 64
    bits.  [checked_*] returns an option, [saturating_*] clamps, and the plain
    operators wrap around, which is what they do in a release build. *)

Definition u16_max : Z := 65535.
Definition u32_max : Z := 4294967295.
Definition u64_max : Z := 18446744073709551615.

Definition is_u16 (x : Z) : Prop := 0 ≤ x ≤ u16_max.
Definition is_u32 (x : Z) : Prop := 0 ≤ x ≤ u32_max.
Definition is_u64 (x : Z) : Prop := 0 ≤ x ≤ u64_max.

#[export] Instance is_u16_dec x : Decision (is_u16 x).
Proof. unfold is_u16. apply _. Defined.
#[export] Instance is_u32_dec x : Decision (is_u32 x).
Proof. unfold is_u32. apply _. Defined.
#[export] Instance is_u64_dec x : Decision (is_u64 x).
Proof. unfold is_u64. apply _. Defined.

Definition wrap64 (x : Z) : Z := x mod (u64_max + 1).

Definition u64_add (a b : Z) : Z := wrap64 (a + b).
Definition u64_sub (a b : Z) : Z := wrap64 (a - b).
Definition u64_mul (a b : Z) : Z := wrap64 (a * b).

Definition u64_checked_add (a b : Z) : option Z :=
  if a + b <=? u64_max then Some (a + b) else None.
Definition u64_checked_sub (a b : Z) : option Z :=
  if b <=? a then Some (a - b) else None.
Definition u64_checked_mul (a b : Z) : option Z :=
  if a * b <=? u64_max then Some (a * b) else None.
Definition u64_saturating_add (a b : Z) : Z := Z.min (a + b) u64_max.
Definition u64_saturating_sub (a b : Z) : Z := Z.max (a - b) 0.

Definition u16_checked_add (a b : Z) : option Z :=
  if a + b <=? u16_max then Some (a + b) else None.

(** [u16::try_from], [u32::try_from], [usize::try_from]. *)
Definition u16_try_from (x : Z) : option Z := if x <=? u16_max then Some x else None.
Definition u32_try_from (x : Z) : option Z := if x <=? u32_max then Some x else None.
Definition usize_try_from (x : Z) : option Z := if x <=? u64_max then Some x else None.

(** [x as u32]. *)
Definition as_u32 (x : Z) : Z := x mod (u32_max + 1).

(** [v.len()] as an integer. *)
Definition zlen {A} (l : list A) : Z := Z.of_nat (length l).

Section int_lemmas.
Lemma wrap64_id x : is_u64 x → wrap64 x = x.
Proof. unfold is_u64, wrap64, u64_max. intros. apply Z.mod_small. lia. Qed.

Lemma as_u32_id x : is_u32 x → as_u32 x = x.
Proof. unfold is_u32, as_u32, u32_max. intros. apply Z.mod_small. lia. Qed.

Lemma u64_add_id a b : 0 ≤ a + b ≤ u64_max → u64_add a b = a + b.
Proof. intros. by apply wrap64_id. Qed.

Lemma u64_sub_id a b : 0 ≤ a - b ≤ u64_max → u64_sub a b = a - b.
Proof. intros. by apply wrap64_id. Qed.

Lemma u64_mul_id a b : 0 ≤ a * b ≤ u64_max → u64_mul a b = a * b.
Proof. intros. by apply wrap64_id. Qed.

Lemma u64_checked_add_Some a b c :
  u64_checked_add a b = Some c ↔ a + b ≤ u64_max ∧ c = a + b.
Proof. unfold u64_checked_add. destruct (Z.leb_spec (a + b) u64_max); naive_solver lia. Qed.

Lemma u64_checked_add_None a b : u64_checked_add a b = None ↔ u64_max < a + b.
Proof. unfold u64_checked_add. destruct (Z.leb_spec (a + b) u64_max); naive_solver lia. Qed.

Lemma u64_checked_mul_Some a b c :
  u64_checked_mul a b = Some c ↔ a * b ≤ u64_max ∧ c = a * b.
Proof. unfold u64_checked_mul. destruct (Z.leb_spec (a * b) u64_max); naive_solver lia. Qed.

Lemma u64_checked_sub_Some a b c :
  u64_checked_sub a b = Some c ↔ b ≤ a ∧ c = a - b.
Proof. unfold u64_checked_sub. destruct (Z.leb_spec b a); naive_solver lia. Qed.

Lemma u32_try_from_Some x y : u32_try_from x = Some y ↔ x ≤ u32_max ∧ y = x.
Proof. unfold u32_try_from. destruct (Z.leb_spec x u32_max); naive_solver lia. Qed.

Lemma u16_try_from_Some x y : u16_try_from x = Some y ↔ x ≤ u16_max ∧ y = x.
Proof. unfold u16_try_from. destruct (Z.leb_spec x u16_max); naive_solver lia. Qed.

Lemma usize_try_from_Some x y : usize_try_from x = Some y ↔ x ≤ u64_max ∧ y = x.
Proof. unfold usize_try_from. destruct (Z.leb_spec x u64_max); naive_solver lia. Qed.

Lemma usize_try_from_id x : x ≤ u64_max → usize_try_from x = Some x.
Proof. intros. by apply usize_try_from_Some. Qed.

Lemma u64_checked_add_id a b : a + b ≤ u64_max → u64_checked_add a b = Some (a + b).
Proof. intros. by apply u64_checked_add_Some. Qed.

Lemma zlen_nonneg {A} (l : list A) : 0 ≤ zlen l.
Proof. unfold zlen. lia. Qed.

Lemma zlen_app {A} (l k : list A) : zlen (l ++ k) = zlen l + zlen k.
Proof. unfold zlen. rewrite length_app. lia. Qed.

Lemma zlen_nil {A} (l : list A) : zlen l = 0 → l = [].
Proof. destruct l; [done|]. unfold zlen. cbn. lia. Qed.
End int_lemmas.

(** ** Bytes and their little- and big-endian codings *)

Abbreviation byte := Init.Byte.byte (only parsing).
Abbreviation x00 := Init.Byte.x00 (only parsing).

#[export] Instance byte_eq_decision : EqDecision byte := Byte.byte_eq_dec.

Definition byte_val (b : byte) : Z := Z.of_N (Byte.to_N b).
Definition byte_of (z : Z) : byte :=
  match Byte.of_N (Z.to_N (z mod 256)) with Some b => b | None => x00 end.

(** [to_le_bytes] / [from_le_bytes] of an [n]-byte integer, and the big-endian
    pair [to_be_bytes] / [from_be_bytes]. *)
Fixpoint le_bytes (n : nat) (z : Z) : list byte :=
  match n with
  | O => []
  | S n => byte_of z :: le_bytes n (z / 256)
  end.

Fixpoint le_value (l : list byte) : Z :=
  match l with
  | [] => 0
  | b :: l => byte_val b + 256 * le_value l
  end.

Definition be_bytes (n : nat) (z : Z) : list byte := rev (le_bytes n z).
Definition be_value (l : list byte) : Z := le_value (rev l).

Section byte_lemmas.
Lemma byte_val_range b : 0 ≤ byte_val b < 256.
Proof. unfold byte_val. pose proof (Byte.to_N_bounded b). lia. Qed.

Lemma byte_val_of z : byte_val (byte_of z) = z mod 256.
Proof.
  unfold byte_of, byte_val. pose proof (Z.mod_pos_bound z 256 ltac:(lia)) as Hr.
  destruct (Byte.of_N _) as [b|] eqn:H.
  - apply Byte.to_of_N in H. rewrite H. lia.
  - apply Byte.of_N_None_iff in H. lia.
Qed.

Lemma byte_of_val b : byte_of (byte_val b) = b.
Proof.
  unfold byte_of, byte_val. pose proof (Byte.to_N_bounded b).
  rewrite Z.mod_small by lia. rewrite N2Z.id, Byte.of_to_N. done.
Qed.

Lemma length_le_bytes n z : length (le_bytes n z) = n.
Proof. revert z. induction n; intros; cbn; auto. Qed.

Lemma length_be_bytes n z : length (be_bytes n z) = n.
Proof. unfold be_bytes. by rewrite length_rev, length_le_bytes. Qed.

Lemma le_value_bytes n z : 0 ≤ z → le_value (le_bytes n z) = z mod 256 ^ Z.of_nat n.
Proof.
  revert z. induction n as [|n IH]; intros z Hz; [by rewrite Z.mod_1_r|].
  cbn [le_bytes le_value]. rewrite byte_val_of, IH by (apply Z.div_pos; lia).
  rewrite Nat2Z.inj_succ, Z.pow_succ_r, Z.rem_mul_r by lia. lia.
Qed.

Lemma le_value_bound l : 0 ≤ le_value l < 256 ^ Z.of_nat (length l).
Proof.
  induction l as [|b l IH]; [cbn; lia|]. cbn [le_value length].
  pose proof (byte_val_range b). rewrite Nat2Z.inj_succ, Z.pow_succ_r by lia. lia.
Qed.

Lemma le_bytes_value l : le_bytes (length l) (le_value l) = l.
Proof.
  induction l as [|b l IH]; [done|]. cbn [length le_bytes le_value].
  pose proof (byte_val_range b).
  replace ((byte_val b + 256 * le_value l) / 256) with (le_value l).
  2: { rewrite Z.mul_comm, Z.div_add, Z.div_small by lia. lia. }
  rewrite IH. f_equal. rewrite <-(byte_of_val b) at 2. unfold byte_of.
  rewrite Z.mul_comm, Z.mod_add by lia. done.
Qed.

Lemma be_value_bytes n z : 0 ≤ z → be_value (be_bytes n z) = z mod 256 ^ Z.of_nat n.
Proof. unfold be_value, be_bytes. rewrite rev_involutive. apply le_value_bytes. Qed.

Lemma be_value_bound l : 0 ≤ be_value l < 256 ^ Z.of_nat (length l).
Proof. unfold be_value. pose proof (le_value_bound (rev l)). by rewrite length_rev in *. Qed.

Lemma be_bytes_value l : be_bytes (length l) (be_value l) = l.
Proof.
  unfold be_bytes, be_value. rewrite <-(length_rev l), le_bytes_value.
  apply rev_involutive.
Qed.

Lemma le_value_small n z : 0 ≤ z < 256 ^ Z.of_nat n → le_value (le_bytes n z) = z.
Proof. intros. rewrite le_value_bytes, Z.mod_small; lia. Qed.

Lemma be_value_small n z : 0 ≤ z < 256 ^ Z.of_nat n → be_value (be_bytes n z) = z.
Proof. intros. rewrite be_value_bytes, Z.mod_small; lia. Qed.
End byte_lemmas.

(** ** [str::from_utf8]

    The well-formed byte sequences of the Unicode standard, which is what the
    standard library accepts. *)

Definition in_range (lo hi : Z) (b : byte) : bool := (lo <=? byte_val b) && (byte_val b <=? hi).
Definition is_cont : byte → bool := in_range 0x80 0xBF.

Fixpoint utf8_valid (l : list byte) : bool :=
  match l with
  | [] => true
  | b0 :: l0 =>
      if in_range 0 0x7F b0 then utf8_valid l0
      else match l0 with
      | [] => false
      | b1 :: l1 =>
          if in_range 0xC2 0xDF b0 then is_cont b1 && utf8_valid l1
          else match l1 with
          | [] => false
          | b2 :: l2 =>
              if in_range 0xE0 0xE0 b0 then in_range 0xA0 0xBF b1 && is_cont b2 && utf8_valid l2
              else if in_range 0xE1 0xEC b0 || in_range 0xEE 0xEF b0 then
                is_cont b1 && is_cont b2 && utf8_valid l2
              else if in_range 0xED 0xED b0 then in_range 0x80 0x9F b1 && is_cont b2 && utf8_valid l2
              else match l2 with
              | [] => false
              | b3 :: l3 =>
                  if in_range 0xF0 0xF0 b0 then
                    in_range 0x90 0xBF b1 && is_cont b2 && is_cont b3 && utf8_valid l3
                  else if in_range 0xF1 0xF3 b0 then
                    is_cont b1 && is_cont b2 && is_cont b3 && utf8_valid l3
                  else if in_range 0xF4 0xF4 b0 then
                    in_range 0x80 0x8F b1 && is_cont b2 && is_cont b3 && utf8_valid l3
                  else false
              end
          end
      end
  end.

(** ** Slices

    [slice l a b] is [&l[a..b]] and [splice l a src] is
    [l[a..a + src.len()].copy_from_slice(src)]; [None] is the panic. *)

Definition slice {A} (l : list A) (a b : Z) : option (list A) :=
  if (0 <=? a) && (a <=? b) && (b <=? zlen l)
  then Some (take (Z.to_nat (b - a)) (drop (Z.to_nat a) l)) else None.

Definition splice {A} (l : list A) (a : Z) (src : list A) : option (list A) :=
  if (0 <=? a) && (a + zlen src <=? zlen l)
  then Some (take (Z.to_nat a) l ++ src ++ drop (Z.to_nat (a + zlen src)) l) else None.

(** [l[i]] at an integer index. *)
Definition zget {A} (l : list A) (i : Z) : option A :=
  if 0 <=? i then l !! Z.to_nat i else None.

(** [vec![0; n]]. *)
Definition zeros (n : Z) : list byte := replicate (Z.to_nat n) x00.

Section slice_lemmas.
Context {A : Type}.
Implicit Types l : list A.

Lemma slice_Some l a b r :
  slice l a b = Some r ↔
  0 ≤ a ≤ b ∧ b ≤ zlen l ∧ r = take (Z.to_nat (b - a)) (drop (Z.to_nat a) l).
Proof.
  unfold slice.
  destruct (Z.leb_spec 0 a), (Z.leb_spec a b), (Z.leb_spec b (zlen l)); cbn; naive_solver lia.
Qed.

Lemma slice_length l a b r : slice l a b = Some r → zlen r = b - a.
Proof.
  rewrite slice_Some. intros (? & ? & ->). unfold zlen in *.
  rewrite length_take, length_drop. lia.
Qed.

Lemma slice_get l a b r i :
  slice l a b = Some r → 0 ≤ i < b - a → zget r i = zget l (a + i).
Proof.
  rewrite slice_Some. intros (? & ? & ->) ?. unfold zget.
  destruct (Z.leb_spec 0 i), (Z.leb_spec 0 (a + i)); try lia.
  rewrite lookup_take_lt, lookup_drop by lia. f_equal. lia.
Qed.

Lemma slice_exists l a b : 0 ≤ a ≤ b → b ≤ zlen l → ∃ r, slice l a b = Some r.
Proof. intros. eexists. apply slice_Some. eauto. Qed.

Lemma slice_all l : slice l 0 (zlen l) = Some l.
Proof.
  apply slice_Some. pose proof (zlen_nonneg l). split_and!; try lia.
  rewrite drop_0, take_ge; [done|]. unfold zlen. lia.
Qed.

Lemma splice_Some l a src r :
  splice l a src = Some r ↔
  0 ≤ a ∧ a + zlen src ≤ zlen l ∧
  r = take (Z.to_nat a) l ++ src ++ drop (Z.to_nat (a + zlen src)) l.
Proof.
  unfold splice.
  destruct (Z.leb_spec 0 a), (Z.leb_spec (a + zlen src) (zlen l)); cbn; naive_solver lia.
Qed.

Lemma splice_length l a src r : splice l a src = Some r → zlen r = zlen l.
Proof.
  rewrite splice_Some. intros (? & ? & ->). unfold zlen in *.
  rewrite !length_app, length_take, length_drop. lia.
Qed.

Lemma splice_get l a src r i :
  splice l a src = Some r →
  zget r i = if (a <=? i) && (i <? a + zlen src) then zget src (i - a) else zget l i.
Proof.
  rewrite splice_Some. intros (? & ? & ->). unfold zget, zlen in *.
  destruct (Z.leb_spec 0 i).
  2: { destruct (Z.leb_spec a i); [lia|done]. }
  destruct (Z.leb_spec a i); cbn.
  - rewrite lookup_app_r by (rewrite length_take; lia). rewrite length_take.
    destruct (Z.ltb_spec i (a + Z.of_nat (length src))).
    + rewrite lookup_app_l by lia. destruct (Z.leb_spec 0 (i - a)); [|lia].
      f_equal. lia.
    + rewrite lookup_app_r by lia. rewrite lookup_drop. f_equal. lia.
  - rewrite lookup_app_l by (rewrite length_take; lia). by rewrite lookup_take_lt by lia.
Qed.

Lemma splice_exists l a src : 0 ≤ a → a + zlen src ≤ zlen l → ∃ r, splice l a src = Some r.
Proof. intros. eexists. apply splice_Some. eauto. Qed.

Lemma zget_Some_range l i x : zget l i = Some x → 0 ≤ i < zlen l.
Proof.
  unfold zget, zlen. destruct (Z.leb_spec 0 i); [|done].
  intros ?%lookup_lt_Some. lia.
Qed.

Lemma zget_is_Some l i : 0 ≤ i < zlen l → is_Some (zget l i).
Proof.
  unfold zget, zlen. intros. destruct (Z.leb_spec 0 i); [|lia].
  apply lookup_lt_is_Some. lia.
Qed.

Lemma zget_ext l k :
  zlen l = zlen k → (∀ i, 0 ≤ i < zlen l → zget l i = zget k i) → l = k.
Proof.
  intros Hlen H. apply list_eq. intros i. unfold zlen in *.
  destruct (decide (i < length l)%nat) as [?|?].
  - specialize (H (Z.of_nat i)). unfold zget in H.
    destruct (Z.leb_spec 0 (Z.of_nat i)); [|lia]. rewrite Nat2Z.id in H. apply H. lia.
  - rewrite !lookup_ge_None_2 by lia. done.
Qed.

Lemma zget_app_l l k i : i < zlen l → zget (l ++ k) i = zget l i.
Proof.
  unfold zget, zlen. intros. destruct (Z.leb_spec 0 i); [|done].
  by rewrite lookup_app_l by lia.
Qed.

Lemma zget_app_r l k i : zlen l ≤ i → zget (l ++ k) i = zget k (i - zlen l).
Proof.
  unfold zget, zlen. intros. destruct (Z.leb_spec 0 i), (Z.leb_spec 0 (i - Z.of_nat (length l)));
    try lia. rewrite lookup_app_r by lia. f_equal. lia.
Qed.

Lemma slice_app_l l k a b : b ≤ zlen l → slice (l ++ k) a b = slice l a b.
Proof.
  intros. unfold slice. rewrite zlen_app. pose proof (zlen_nonneg k).
  destruct (Z.leb_spec 0 a), (Z.leb_spec a b); cbn; try done.
  destruct (Z.leb_spec b (zlen l + zlen k)), (Z.leb_spec b (zlen l)); cbn; try lia; try done.
  f_equal. unfold zlen in *. rewrite drop_app_le by lia.
  rewrite take_app_le; [done|]. rewrite length_drop. lia.
Qed.

Lemma slice_app_r l k a b :
  zlen l ≤ a → slice (l ++ k) a b = slice k (a - zlen l) (b - zlen l).
Proof.
  intros. unfold slice. rewrite zlen_app. pose proof (zlen_nonneg l).
  destruct (Z.leb_spec 0 a), (Z.leb_spec 0 (a - zlen l)); try lia.
  destruct (Z.leb_spec a b), (Z.leb_spec (a - zlen l) (b - zlen l)); try lia; cbn; [|done].
  destruct (Z.leb_spec b (zlen l + zlen k)), (Z.leb_spec (b - zlen l) (zlen k)); try lia; cbn;
    [|done].
  f_equal. unfold zlen in *. rewrite drop_app_ge by lia. f_equal; [lia|]. f_equal. lia.
Qed.

Lemma slice_full l a b : a = 0 → b = zlen l → slice l a b = Some l.
Proof. intros -> ->. apply slice_all. Qed.
End slice_lemmas.

Lemma zeros_length n : 0 ≤ n → zlen (zeros n) = n.
Proof. intros. unfold zlen, zeros. rewrite length_replicate. lia. Qed.

Lemma zeros_get n i : 0 ≤ i < n → zget (zeros n) i = Some x00.
Proof.
  intros. unfold zget, zeros. destruct (Z.leb_spec 0 i); [|lia].
  apply lookup_replicate_2. lia.
Qed.

Section filter_lemmas.
Context {A : Type} (P : A → Prop) `{!∀ x, Decision (P x)}.

Lemma filter_none (l : list A) : (∀ x, x ∈ l → ¬ P x) → filter P l = [].
Proof.
  induction l as [|x l IH]; intros Hl; [done|].
  rewrite filter_cons_False by (apply Hl; set_solver). apply IH. set_solver.
Qed.

Lemma filter_every (l : list A) : (∀ x, x ∈ l → P x) → filter P l = l.
Proof.
  induction l as [|x l IH]; intros Hl; [done|].
  rewrite filter_cons_True by (apply Hl; set_solver). f_equal. apply IH. set_solver.
Qed.
End filter_lemmas.

Lemma filter_ext_in {A} (P Q : A → Prop) `{!∀ x, Decision (P x), !∀ x, Decision (Q x)} (l : list A) :
  (∀ x, x ∈ l → P x ↔ Q x) → filter P l = filter Q l.
Proof.
  induction l as [|x l IH]; intros Hl; [done|]. pose proof (Hl x ltac:(set_solver)) as Hx.
  rewrite !filter_cons. rewrite IH by set_solver. destruct (decide (P x)), (decide (Q x)); naive_solver.
Qed.

(** A [collect] whose every step succeeds. *)
Lemma try_map_ext {E A B} (f g : A → outcome E B) (l : list A) :
  (∀ x, x ∈ l → f x = g x) → try_map f l = try_map g l.
Proof.
  induction l as [|x l IH]; intros Hfg; [done|]. cbn [try_map]. rewrite Hfg by set_solver.
  rewrite IH by (intros; apply Hfg; set_solver). done.
Qed.

Lemma try_map_total {E A B} (f : A → outcome E B) (l : list A) :
  (∀ x, x ∈ l → ∃ y, f x = Ok y) →
  ∃ ys, try_map f l = Ok ys ∧ ∀ y, y ∈ ys ↔ ∃ x, x ∈ l ∧ f x = Ok y.
Proof.
  induction l as [|x l IH]; intros Hf.
  { exists []. split; [done|]. set_solver. }
  destruct (Hf x ltac:(set_solver)) as [y Hy]. destruct IH as (ys & Hys & Hin); [set_solver|].
  exists (y :: ys). cbn. rewrite Hy. cbn. rewrite Hys. split; [done|]. intros z.
  rewrite elem_of_cons, Hin. setoid_rewrite elem_of_cons. split.
  - intros [->|(x' & ? & ?)]; eauto.
  - intros (x' & [->|?] & ?); [left; congruence|eauto].
Qed.

Section sublist_lemmas.
Context {A : Type}.

Lemma sublist_map {B} (f : A → B) (l k : list A) : sublist l k → sublist (f <$> l) (f <$> k).
Proof. induction 1; cbn; by constructor. Qed.

Lemma StronglySorted_sublist (R : relation A) l k :
  sublist l k → StronglySorted R k → StronglySorted R l.
Proof.
  induction 1 as [|x l k Hlk IH|x l k Hlk IH]; intros Hs; [done| |].
  - apply StronglySorted_inv in Hs as [Hs Hx]. constructor; [auto|].
    rewrite Forall_forall in *. intros y Hy. apply Hx. by eapply elem_of_sublist.
  - apply StronglySorted_inv in Hs as [Hs _]. auto.
Qed.
End sublist_lemmas.

(** ** Proof automation *)

Create HintDb nbd.
Create Rewrite HintDb nbd.
#[export] Hint Resolve zlen_nonneg byte_val_range le_value_bound be_value_bound : nbd.
#[export] Hint Rewrite @zlen_app length_le_bytes length_be_bytes : nbd.

(** Splits every hypothesis that says a sequence of [?] steps succeeded. *)
Ltac inv_ok :=
  repeat match goal with
  | H : obind _ _ = Ok _ |- _ =>
      let x := fresh "x" in let Hx := fresh "Hx" in
      apply obind_ok in H as (x & Hx & H)
  | H : ok_or _ _ = Ok _ |- _ => apply ok_or_ok in H
  | H : or_panic _ = Ok _ |- _ => apply or_panic_ok in H
  | H : Ok _ = Ok _ |- _ => injection H as H
  | H : Err _ = Ok _ |- _ => discriminate H
  | H : Panic = Ok _ |- _ => discriminate H
  end; subst.

(** Boolean comparisons as propositions, in every hypothesis and the goal. *)
Ltac case_bool :=
  repeat match goal with
  | H : context [Z.leb ?a ?b] |- _ => destruct (Z.leb_spec a b)
  | H : context [Z.ltb ?a ?b] |- _ => destruct (Z.ltb_spec a b)
  | H : context [Z.eqb ?a ?b] |- _ => destruct (Z.eqb_spec a b)
  | |- context [Z.leb ?a ?b] => destruct (Z.leb_spec a b)
  | |- context [Z.ltb ?a ?b] => destruct (Z.ltb_spec a b)
  | |- context [Z.eqb ?a ?b] => destruct (Z.eqb_spec a b)
  end; cbn [andb orb negb] in *.

(** Decides one comparison of the goal by arithmetic. *)
Ltac decide_cmp :=
  repeat match goal with
  | |- context [Z.leb ?a ?b] =>
      first [rewrite (proj2 (Z.leb_le a b)) by lia | rewrite (proj2 (Z.leb_gt a b)) by lia]
  | |- context [Z.ltb ?a ?b] =>
      first [rewrite (proj2 (Z.ltb_lt a b)) by lia | rewrite (proj2 (Z.ltb_ge a b)) by lia]
  | |- context [Z.eqb ?a ?b] =>
      first [rewrite (proj2 (Z.eqb_eq a b)) by lia | rewrite (proj2 (Z.eqb_neq a b)) by lia]
  end; cbn [andb orb negb].

(** Evaluates comparisons of constants in the goal. *)
Ltac eval_cmp :=
  repeat match goal with
  | |- context [Z.eqb ?a ?b] =>
      let v := eval vm_compute in (Z.eqb a b) in
      lazymatch v with true => idtac | false => idtac end;
      change (Z.eqb a b) with v; cbn [andb orb negb]; cbn iota
  end.

(** [lia] with the defining equations of [/] and [mod]. *)
Ltac dlia := Z.to_euclidean_division_equations; lia.

(** Closes a goal about constants by evaluating it. *)
Ltac by_compute := vm_compute; repeat split; congruence.

(** ** Counting the values of a map *)

Definition b2n (b : bool) : nat := if b then 1 else 0.

Section map_count.
Context {A : Type} (f : A → bool).
Implicit Types (m : gmap nat A) (x old : A).

Definition map_count m : nat := size (filter (λ kv, f kv.2 = true) m).

Lemma map_count_empty : map_count ∅ = 0%nat.
Proof. unfold map_count. by rewrite map_filter_empty, map_size_empty. Qed.

Lemma map_count_fresh m i x : m !! i = None → map_count (<[i := x]> m) = (map_count m + b2n (f x))%nat.
Proof.
  intros Hi. unfold map_count. destruct (f x) eqn:Hx.
  - rewrite map_filter_insert_True by done. rewrite map_size_insert_None; [cbn; lia|]. rewrite map_lookup_filter_None. by left.
  - rewrite map_filter_insert_False by (cbn; by rewrite Hx). rewrite delete_id by done. cbn. lia.
Qed.

Lemma map_count_delete m i old : m !! i = Some old → map_count m = (map_count (delete i m) + b2n (f old))%nat.
Proof.
  intros Hi. rewrite <-(insert_delete_id m i old Hi) at 1. apply map_count_fresh. apply lookup_delete_eq.
Qed.

Lemma map_count_update m i old x :
  m !! i = Some old → (map_count (<[i := x]> m) + b2n (f old) = map_count m + b2n (f x))%nat.
Proof.
  intros Hi. rewrite <-insert_delete_eq, (map_count_fresh (delete i m)) by apply lookup_delete_eq.
  rewrite (map_count_delete m i old Hi). lia.
Qed.

Lemma map_count_zero m i x : map_count m = 0%nat → m !! i = Some x → f x = false.
Proof. intros H0 Hi. pose proof (map_count_delete m i x Hi). destruct (f x); [cbn in *; lia|done]. Qed.

Lemma map_count_pos m i x : m !! i = Some x → f x = true → (1 ≤ map_count m)%nat.
Proof. intros Hi Hx. rewrite (map_count_delete m i x Hi), Hx. cbn. lia. Qed.

Lemma map_count_le m (g : A → bool) :
  (∀ i x, m !! i = Some x → f x = true → g x = true) → (map_count m ≤ size (filter (λ kv, g kv.2 = true) m))%nat.
Proof.
  intros H. unfold map_count. apply map_subseteq_size, map_filter_strong_subseteq_ext. intros i x. naive_solver.
Qed.
End map_count.
