(* ===== verification/BTree.v ===== *)
(** * Ordered maps

    [std::collections::BTreeMap<u64, V>] as a list of bindings in strictly
    increasing key order, which is the order its iterators follow.  The file
    has the operations the server uses ([get], [insert], [remove],
    [range(..=k).next_back()], [range(k..)], [values_mut]) and the lemmas that
    let a client reason by lookups. *)

From S2P Require Import Prelude.

Abbreviation btree V := (list (Z * V)).

Section ops.
Context {V : Type}.
Implicit Types (m : btree V) (k : Z) (v : V).

Fixpoint bt_get (k : Z) (m : btree V) : option V :=
  match m with
  | [] => None
  | (k', v) :: m => if k =? k' then Some v else bt_get k m
  end.

(** Inserts or replaces, keeping the order. *)
Fixpoint bt_insert (k : Z) (v : V) (m : btree V) : btree V :=
  match m with
  | [] => [(k, v)]
  | (k', v') :: m' =>
      if k <? k' then (k, v) :: m
      else if k =? k' then (k, v) :: m'
      else (k', v') :: bt_insert k v m'
  end.

Definition bt_remove (k : Z) (m : btree V) : btree V :=
  filter (λ p, p.1 ≠ k) m.

(** [range(..=k).next_back()]: the last binding with key at most [k]. *)
Definition bt_last_le (k : Z) (m : btree V) : option (Z * V) :=
  last (filter (λ p, p.1 ≤ k) m).

(** [range(k..)]: the bindings with key at least [k], in order. *)
Definition bt_from (k : Z) (m : btree V) : btree V :=
  filter (λ p, k ≤ p.1) m.

(** [values_mut] with an update of every value. *)
Definition bt_map (f : V → V) (m : btree V) : btree V :=
  (λ p, (p.1, f p.2)) <$> m.

Definition bt_update (f : V → V) (k : Z) (m : btree V) : btree V :=
  match bt_get k m with Some v => bt_insert k (f v) m | None => m end.

(** The order invariant. *)
Definition bt_sorted (m : btree V) : Prop := StronglySorted Z.lt m.*1.
End ops.

Section lemmas.
Context {V : Type}.
Implicit Types (m : btree V) (k : Z) (v : V) (p : Z * V).

Lemma bt_sorted_nil : bt_sorted (@nil (Z * V)).
Proof. constructor. Qed.

Lemma bt_sorted_cons k v m :
  bt_sorted ((k, v) :: m) ↔ (∀ p, p ∈ m → k < p.1) ∧ bt_sorted m.
Proof.
  unfold bt_sorted. cbn. split.
  - intros [Hs Hf]%StronglySorted_inv. split; [|done]. intros p Hp.
    rewrite Forall_forall in Hf. apply Hf. apply list_elem_of_fmap. eauto.
  - intros [Hf Hs]. constructor; [done|]. apply Forall_forall.
    intros k' (p & -> & Hp)%list_elem_of_fmap. eauto.
Qed.

Lemma bt_sorted_NoDup m : bt_sorted m → NoDup m.*1.
Proof.
  unfold bt_sorted. induction 1 as [|k l Hs IH Hf]; constructor; [|done].
  rewrite Forall_forall in Hf. intros Hin. specialize (Hf k Hin). lia.
Qed.

Lemma bt_get_elem m k v : bt_sorted m → bt_get k m = Some v ↔ (k, v) ∈ m.
Proof.
  induction m as [|[k' v'] m IH]; cbn; [set_solver|].
  rewrite bt_sorted_cons. intros [Hlt Hs]. specialize (IH Hs).
  destruct (Z.eqb_spec k k') as [->|Hne].
  - split; [naive_solver set_solver|]. rewrite elem_of_cons.
    intros [[= ->]|Hin]; [done|]. specialize (Hlt _ Hin). cbn in Hlt. lia.
  - rewrite IH, elem_of_cons. naive_solver.
Qed.

Lemma bt_key_inj m p q : bt_sorted m → p ∈ m → q ∈ m → p.1 = q.1 → p = q.
Proof.
  intros Hs Hp Hq He. destruct p as [k v], q as [k' v']. cbn in He. subst k'.
  apply bt_get_elem in Hp; [|done]. apply bt_get_elem in Hq; [|done]. congruence.
Qed.

Lemma bt_get_None m k : bt_get k m = None ↔ ∀ p, p ∈ m → p.1 ≠ k.
Proof.
  induction m as [|[k' v'] m IH]; cbn; [set_solver|].
  destruct (Z.eqb_spec k k') as [->|Hne].
  - split; [done|]. intros H. exfalso. apply (H (k', v')); set_solver.
  - rewrite IH. split; [|set_solver]. intros H p. rewrite elem_of_cons. naive_solver.
Qed.

Lemma bt_insert_elem m k v p :
  bt_sorted m → p ∈ bt_insert k v m ↔ p = (k, v) ∨ (p ∈ m ∧ p.1 ≠ k).
Proof.
  induction m as [|[k' v'] m IH]; cbn; [set_solver|].
  rewrite bt_sorted_cons. intros [Hlt Hs]. specialize (IH Hs).
  destruct (Z.ltb_spec k k') as [Hk|Hk].
  - rewrite !elem_of_cons. split; [|naive_solver].
    intros [->|[->|Hin]]; [naive_solver|cbn; right; split; [naive_solver|lia]|].
    specialize (Hlt _ Hin). right. split; [naive_solver|lia].
  - destruct (Z.eqb_spec k k') as [->|Hne].
    + rewrite !elem_of_cons. split; [|naive_solver].
      intros [->|Hin]; [naive_solver|]. specialize (Hlt _ Hin). right. split; [naive_solver|lia].
    + rewrite !elem_of_cons, IH. split; [|naive_solver].
      intros [->|[->|[??]]]; cbn; naive_solver lia.
Qed.

Lemma bt_insert_sorted m k v : bt_sorted m → bt_sorted (bt_insert k v m).
Proof.
  induction m as [|[k' v'] m IH]; cbn.
  { intros _. apply bt_sorted_cons. split; [set_solver|constructor]. }
  rewrite bt_sorted_cons. intros [Hlt Hs].
  destruct (Z.ltb_spec k k') as [Hk|Hk].
  - rewrite !bt_sorted_cons. split_and!; try done. intros p.
    rewrite elem_of_cons. intros [->|Hin]; [done|]. specialize (Hlt _ Hin). lia.
  - destruct (Z.eqb_spec k k') as [->|Hne]; [by rewrite bt_sorted_cons|].
    rewrite bt_sorted_cons. split; [|auto]. intros p.
    rewrite bt_insert_elem by done. intros [->|[Hin _]]; [cbn; lia|]. by apply Hlt.
Qed.

Lemma bt_sorted_filter m (P : Z * V → Prop) `{!∀ p, Decision (P p)} :
  bt_sorted m → bt_sorted (filter P m).
Proof.
  induction m as [|[k v] m IH]; [done|]. rewrite bt_sorted_cons. intros [Hlt Hs].
  rewrite filter_cons. case_decide; [|auto]. rewrite bt_sorted_cons. split; [|auto].
  intros p Hp%list_elem_of_filter. apply Hlt. naive_solver.
Qed.

Lemma bt_remove_elem m k p : p ∈ bt_remove k m ↔ p ∈ m ∧ p.1 ≠ k.
Proof. unfold bt_remove. rewrite list_elem_of_filter. naive_solver. Qed.

Lemma bt_remove_sorted m k : bt_sorted m → bt_sorted (bt_remove k m).
Proof. apply bt_sorted_filter. Qed.

Lemma bt_from_elem m k p : p ∈ bt_from k m ↔ p ∈ m ∧ k ≤ p.1.
Proof. unfold bt_from. rewrite list_elem_of_filter. naive_solver. Qed.

Lemma bt_last_le_Some m k p :
  bt_sorted m → bt_last_le k m = Some p →
  p ∈ m ∧ p.1 ≤ k ∧ ∀ q, q ∈ m → q.1 ≤ k → q.1 ≤ p.1.
Proof.
  intros Hs. unfold bt_last_le.
  assert (Hs' : bt_sorted (filter (λ p, p.1 ≤ k) m)) by by apply bt_sorted_filter.
  intros Hlast. apply last_Some in Hlast as [l Hl].
  assert (Hp : p ∈ filter (λ p, p.1 ≤ k) m) by (rewrite Hl; set_solver).
  apply list_elem_of_filter in Hp as [Hle Hin]. split_and!; try done.
  intros q Hq Hqk.
  assert (Hq' : q ∈ filter (λ p, p.1 ≤ k) m) by (apply list_elem_of_filter; done).
  rewrite Hl in *. clear Hl. induction l as [|[k' v'] l IH]; cbn in *; [set_solver|].
  apply bt_sorted_cons in Hs' as [Hlt Hs']. apply elem_of_cons in Hq' as [->|Hq'].
  - cbn. specialize (Hlt p ltac:(set_solver)). lia.
  - by apply IH.
Qed.

Lemma bt_last_le_None m k : bt_last_le k m = None → ∀ q, q ∈ m → k < q.1.
Proof.
  unfold bt_last_le. intros Hl%last_None q Hq.
  destruct (decide (q.1 ≤ k)) as [Hle|]; [|lia].
  assert (q ∈ filter (λ p, p.1 ≤ k) m) as Hin by (apply list_elem_of_filter; done).
  rewrite Hl in Hin. set_solver.
Qed.

(** The first binding of [range(k..)] has the least key that is at least [k]. *)
Lemma bt_from_first m k p l :
  bt_sorted m → bt_from k m = p :: l → ∀ q, q ∈ m → k ≤ q.1 → p.1 ≤ q.1.
Proof.
  intros Hs Hf q Hq Hk.
  assert (bt_sorted (bt_from k m)) as Hs' by by apply bt_sorted_filter.
  assert (q ∈ bt_from k m) as Hin by (apply bt_from_elem; done).
  rewrite Hf in *. destruct p as [k' v']. apply bt_sorted_cons in Hs' as [Hlt _].
  apply elem_of_cons in Hin as [->|Hin]; [done|]. specialize (Hlt q Hin). cbn. lia.
Qed.

(** Two ordered maps with the same bindings are equal. *)
Lemma bt_ext m1 m2 :
  bt_sorted m1 → bt_sorted m2 → (∀ p, p ∈ m1 ↔ p ∈ m2) → m1 = m2.
Proof.
  revert m2. induction m1 as [|[k v] m1 IH]; intros m2 H1 H2 Heq.
  - destruct m2 as [|p m2]; [done|]. destruct (Heq p) as [_ H]. set_solver.
  - destruct m2 as [|[k' v'] m2]; [destruct (Heq (k, v)) as [H _]; set_solver|].
    apply bt_sorted_cons in H1 as [Hlt1 H1], H2 as [Hlt2 H2].
    assert ((k, v) = (k', v')) as [= -> ->].
    { destruct (Heq (k, v)) as [Ha _], (Heq (k', v')) as [_ Hb].
      apply elem_of_cons in Ha as [?|Ha]; [done| |left; done].
      apply elem_of_cons in Hb as [?|Hb]; [done| |left; done].
      specialize (Hlt2 _ Ha). specialize (Hlt1 _ Hb). cbn in *. lia. }
    f_equal. apply IH; try done. intros p. specialize (Heq p).
    rewrite !elem_of_cons in Heq. split; intros Hp.
    + destruct Heq as [[->|?] _]; [naive_solver| |done]. specialize (Hlt1 _ Hp). cbn in *. lia.
    + destruct Heq as [_ [->|?]]; [naive_solver| |done]. specialize (Hlt2 _ Hp). cbn in *. lia.
Qed.

Lemma bt_map_elem (f : V → V) m k v :
  (k, v) ∈ bt_map f m ↔ ∃ v0, (k, v0) ∈ m ∧ v = f v0.
Proof.
  unfold bt_map. rewrite list_elem_of_fmap. split.
  - intros ([k0 v0] & [= -> ->] & Hin). eauto.
  - intros (v0 & Hin & ->). exists (k, v0). done.
Qed.

Lemma bt_map_sorted (f : V → V) m : bt_sorted m → bt_sorted (bt_map f m).
Proof.
  unfold bt_sorted, bt_map. intros Hs. rewrite <-list_fmap_compose. cbn. done.
Qed.

Lemma bt_get_map (f : V → V) m k : bt_get k (bt_map f m) = f <$> bt_get k m.
Proof.
  induction m as [|[k' v'] m IH]; cbn; [done|]. destruct (Z.eqb_spec k k'); [done|apply IH].
Qed.

Lemma bt_get_insert m k v k' :
  bt_sorted m → bt_get k' (bt_insert k v m) = if k' =? k then Some v else bt_get k' m.
Proof.
  intros Hs. pose proof (bt_insert_sorted m k v Hs) as Hs'.
  destruct (Z.eqb_spec k' k) as [->|Hne].
  - apply bt_get_elem; [done|]. apply bt_insert_elem; naive_solver.
  - destruct (bt_get k' m) as [w|] eqn:Hw.
    + apply bt_get_elem; [done|]. apply bt_insert_elem; [done|].
      apply bt_get_elem in Hw; naive_solver.
    + apply bt_get_None. intros p Hp. apply bt_insert_elem in Hp; [|done].
      destruct Hp as [->|[Hp _]]; [cbn; congruence|].
      by eapply bt_get_None in Hw.
Qed.

Lemma bt_get_remove m k k' :
  bt_sorted m → bt_get k' (bt_remove k m) = if k' =? k then None else bt_get k' m.
Proof.
  intros Hs. pose proof (bt_remove_sorted m k Hs) as Hs'.
  destruct (Z.eqb_spec k' k) as [->|Hne].
  - apply bt_get_None. intros p Hp%bt_remove_elem. naive_solver.
  - destruct (bt_get k' m) as [w|] eqn:Hw.
    + apply bt_get_elem; [done|]. apply bt_remove_elem.
      apply bt_get_elem in Hw; naive_solver.
    + apply bt_get_None. intros p [Hp _]%bt_remove_elem. by eapply bt_get_None in Hw.
Qed.
(** An update maps the one value it finds. *)
Lemma bt_update_fmap (f : V → V) k m :
  bt_sorted m → bt_update f k m = (λ p, if p.1 =? k then (p.1, f p.2) else p) <$> m.
Proof.
  unfold bt_update. induction m as [|[k' v'] m IH]; [done|]. rewrite bt_sorted_cons.
  intros [Hlt Hs]. cbn. destruct (Z.eqb_spec k k') as [->|Hne]; cbn.
  - rewrite Z.eqb_refl, Z.ltb_irrefl. f_equal. rewrite <-(list_fmap_id m) at 1.
    apply list_fmap_ext. intros i p Hp%list_elem_of_lookup_2. specialize (Hlt p Hp).
    by rewrite (proj2 (Z.eqb_neq _ _)) by lia.
  - rewrite (proj2 (Z.eqb_neq k' k)) by congruence. rewrite <-IH by done.
    destruct (bt_get k m) as [v|] eqn:Hg; [|done]. cbn.
    apply bt_get_elem in Hg; [|done]. specialize (Hlt _ Hg). cbn in Hlt.
    by rewrite (proj2 (Z.ltb_ge k k')) by lia.
Qed.
End lemmas.

#[export] Hint Resolve bt_sorted_nil bt_insert_sorted bt_remove_sorted bt_map_sorted : nbd.

Lemma bt_get_filter {V} (m : btree V) (P : Z * V → Prop) `{!∀ p, Decision (P p)} k v :
  bt_sorted m → bt_get k (filter P m) = Some v ↔ bt_get k m = Some v ∧ P (k, v).
Proof.
  intros Hs. rewrite !bt_get_elem by (done || by apply bt_sorted_filter).
  rewrite list_elem_of_filter. tauto.
Qed.
