(* ===== verification/ControlPlane.v ===== *)
(** * Control-plane domain types

    The storage-neutral catalog types of [nbd-control-plane-core]: identifiers
    and their validation, export heads and descriptors, tree records, and the
    textual names the catalog stores for its enumerations.  A [String] is a
    Rocq [string] of the same bytes; the newtypes around [String] and [u64] are
    abbreviations, and their constructors are the [*_new] functions. *)

From S2P Require Import Prelude.
From Stdlib Require Import Ascii.

#[local] Open Scope string_scope.
#[local] Open Scope list_scope.
#[local] Open Scope Z_scope.

(** ** Errors (error.rs) *)

(** The [source] of a [Database] error is an opaque trait object that no code
    inspects; it is not kept.  A [String] built by [format!] is kept as its
    format string. *)
Inductive CatalogError : Type :=
| InvalidCatalogUrl (url reason : string)
| UnsupportedCatalogProvider (url reason : string)
| InvalidExportName (name reason : string)
| InvalidField (field reason : string)
| ExportAlreadyExists (name : string)
| ExportNotFound (name : string)
| ExportDeleted (name : string)
| InvalidExportState (state : string)
| InvalidExportEngineKind (engine_kind : string)
| Database (message : string).

Abbreviation CatalogResult A := (outcome CatalogError A) (only parsing).

(** The [#[error(...)]] display strings. *)
Definition CatalogError_display (e : CatalogError) : string :=
  match e with
  | InvalidCatalogUrl url reason => "invalid catalog URL `" +:+ url +:+ "`: " +:+ reason
  | UnsupportedCatalogProvider url reason =>
      "unsupported catalog provider for `" +:+ url +:+ "`: " +:+ reason
  | InvalidExportName name reason => "invalid export name `" +:+ name +:+ "`: " +:+ reason
  | InvalidField field reason => "invalid " +:+ field +:+ ": " +:+ reason
  | ExportAlreadyExists name => "export `" +:+ name +:+ "` already exists"
  | ExportNotFound name => "export `" +:+ name +:+ "` not found"
  | ExportDeleted name => "export `" +:+ name +:+ "` is deleted"
  | InvalidExportState state => "invalid export state `" +:+ state +:+ "`"
  | InvalidExportEngineKind kind => "invalid export engine kind `" +:+ kind +:+ "`"
  | Database message => message
  end.

(** ** Identifiers *)

Abbreviation ExportId := string (only parsing).
Abbreviation ExportName := string (only parsing).
Abbreviation NodeId := string (only parsing).
Abbreviation BlobKey := string (only parsing).
Abbreviation Timestamp := string (only parsing).
Abbreviation WalSeq := Z (only parsing).
Abbreviation ChunkIndex := Z (only parsing).

Definition WalSeq_zero : WalSeq := 0.

Definition TREE_CHUNK_BYTES : Z := 32 * 1024 * 1024.
Definition SIMPLE_CHUNK_BYTES : Z := TREE_CHUNK_BYTES.

(** [str::contains(char)] for an ASCII character. *)
Fixpoint str_contains (c : ascii) (s : string) : bool :=
  match s with
  | EmptyString => false
  | String c' s => bool_decide (c = c') || str_contains c s
  end.

Definition str_is_empty (s : string) : bool :=
  match s with EmptyString => true | _ => false end.

Definition nul : ascii := Ascii false false false false false false false false.

Definition non_empty_string (field value : string) : CatalogResult string :=
  if str_is_empty value then Err (InvalidField field "value must not be empty")
  else if str_contains nul value then Err (InvalidField field "value must not contain NUL bytes")
  else Ok value.

Definition validate_non_zero (field : string) (value : Z) : CatalogResult unit :=
  if value =? 0 then Err (InvalidField field "value must be greater than zero") else Ok tt.

Definition ExportId_new (id : string) : CatalogResult ExportId := non_empty_string "export id" id.

Definition ExportName_new (name : string) : CatalogResult ExportName :=
  if str_is_empty name then Err (InvalidExportName name "name must not be empty")
  else if str_contains nul name then Err (InvalidExportName name "name must not contain NUL bytes")
  else Ok name.

Definition NodeId_new (id : string) : CatalogResult NodeId := non_empty_string "node id" id.
Definition Timestamp_new (t : string) : CatalogResult Timestamp := non_empty_string "timestamp" t.

Definition BlobKey_new (key : string) : CatalogResult BlobKey :=
  if str_is_empty key then Err (InvalidField "blob_key" "value must not be empty")
  else if bool_decide (key = ".") || bool_decide (key = "..") then
    Err (InvalidField "blob_key" "value must not be a relative path component")
  else if str_contains nul key then
    Err (InvalidField "blob_key" "value must not contain NUL bytes")
  else if str_contains "/" key || str_contains "\" key then
    Err (InvalidField "blob_key" "value must be one path component")
  else Ok key.

(** ** Enumerations and their catalog names *)

Inductive ExportState : Type := Active | Deleted.
Inductive ExportEngineKind : Type := Memory | SimpleDurable | WalDurable.
Inductive ExportLayoutKind : Type := MemoryEmpty | SimpleMutableTree | CowImmutableTree.
Inductive TreeFormat : Type := Bounded32V1.
Inductive TreeNodeKind : Type := Internal | Leaf.
Inductive TreeStorageKind : Type := MutableBlob | ImmutableBlob.

#[export] Instance ExportState_eq_dec : EqDecision ExportState.
Proof. solve_decision. Defined.
#[export] Instance ExportEngineKind_eq_dec : EqDecision ExportEngineKind.
Proof. solve_decision. Defined.
#[export] Instance ExportLayoutKind_eq_dec : EqDecision ExportLayoutKind.
Proof. solve_decision. Defined.
#[export] Instance TreeFormat_eq_dec : EqDecision TreeFormat.
Proof. solve_decision. Defined.
#[export] Instance TreeNodeKind_eq_dec : EqDecision TreeNodeKind.
Proof. solve_decision. Defined.
#[export] Instance TreeStorageKind_eq_dec : EqDecision TreeStorageKind.
Proof. solve_decision. Defined.

Definition TreeFormat_default : TreeFormat := Bounded32V1.

Definition ExportState_display (s : ExportState) : string :=
  match s with Active => "active" | Deleted => "deleted" end.

Definition ExportState_from_str (s : string) : CatalogResult ExportState :=
  if bool_decide (s = "active") then Ok Active
  else if bool_decide (s = "deleted") then Ok Deleted
  else Err (InvalidExportState s).

Definition ExportEngineKind_display (k : ExportEngineKind) : string :=
  match k with Memory => "memory" | SimpleDurable => "simple_durable" | WalDurable => "wal_durable" end.

Definition ExportEngineKind_from_str (s : string) : CatalogResult ExportEngineKind :=
  if bool_decide (s = "memory") then Ok Memory
  else if bool_decide (s = "simple_durable") then Ok SimpleDurable
  else if bool_decide (s = "wal_durable") then Ok WalDurable
  else Err (InvalidExportEngineKind s).

Definition ExportLayoutKind_display (k : ExportLayoutKind) : string :=
  match k with
  | MemoryEmpty => "memory_empty"
  | SimpleMutableTree => "simple_mutable_tree"
  | CowImmutableTree => "cow_immutable_tree"
  end.

Definition ExportLayoutKind_from_str (s : string) : CatalogResult ExportLayoutKind :=
  if bool_decide (s = "memory_empty") then Ok MemoryEmpty
  else if bool_decide (s = "simple_mutable_tree") then Ok SimpleMutableTree
  else if bool_decide (s = "cow_immutable_tree") then Ok CowImmutableTree
  else Err (InvalidField "layout_kind" ("invalid export layout kind `" +:+ s +:+ "`")).

Definition TreeFormat_display (f : TreeFormat) : string :=
  match f with Bounded32V1 => "bounded_32_v1" end.

Definition TreeFormat_from_str (s : string) : CatalogResult TreeFormat :=
  if bool_decide (s = "bounded_32_v1") then Ok Bounded32V1
  else Err (InvalidField "tree_format" ("invalid tree format `" +:+ s +:+ "`")).

Definition TreeNodeKind_display (k : TreeNodeKind) : string :=
  match k with Internal => "internal" | Leaf => "leaf" end.

Definition TreeNodeKind_from_str (s : string) : CatalogResult TreeNodeKind :=
  if bool_decide (s = "internal") then Ok Internal
  else if bool_decide (s = "leaf") then Ok Leaf
  else Err (InvalidField "kind" ("invalid tree node kind `" +:+ s +:+ "`")).

Definition TreeStorageKind_display (k : TreeStorageKind) : string :=
  match k with MutableBlob => "mutable_blob" | ImmutableBlob => "immutable_blob" end.

Definition TreeStorageKind_from_str (s : string) : CatalogResult TreeStorageKind :=
  if bool_decide (s = "mutable_blob") then Ok MutableBlob
  else if bool_decide (s = "immutable_blob") then Ok ImmutableBlob
  else Err (InvalidField "storage_kind" ("invalid tree storage kind `" +:+ s +:+ "`")).

(** ** Export heads *)

Record MemoryExportHead := mkMemoryHead { mh_size_bytes : Z }.
Record SimpleMutableTreeHead := mkSimpleHead {
  sh_size_bytes : Z;
  sh_root_node_id : option NodeId;
  sh_tree_format : TreeFormat;
}.
Record CowImmutableTreeHead := mkCowHead {
  ch_size_bytes : Z;
  ch_root_node_id : option NodeId;
  ch_base_wal_seq : WalSeq;
  ch_tree_format : TreeFormat;
}.

Inductive ExportHead : Type :=
| HeadMemoryEmpty (head : MemoryExportHead)
| HeadSimpleMutableTree (head : SimpleMutableTreeHead)
| HeadCowImmutableTree (head : CowImmutableTreeHead).

#[export] Instance MemoryExportHead_eq_dec : EqDecision MemoryExportHead.
Proof. solve_decision. Defined.
#[export] Instance SimpleMutableTreeHead_eq_dec : EqDecision SimpleMutableTreeHead.
Proof. solve_decision. Defined.
#[export] Instance CowImmutableTreeHead_eq_dec : EqDecision CowImmutableTreeHead.
Proof. solve_decision. Defined.
#[export] Instance ExportHead_eq_dec : EqDecision ExportHead.
Proof. solve_decision. Defined.

Definition memory_empty_with_base (size_bytes : Z) (root_node_id : option NodeId)
    (base_wal_seq : WalSeq) : CatalogResult ExportHead :=
  let? _ := validate_non_zero "size_bytes" size_bytes in
  match root_node_id with
  | Some _ => Err (InvalidField "root_node_id" "memory_empty export heads must not have a root node")
  | None =>
      if negb (base_wal_seq =? WalSeq_zero) then
        Err (InvalidField "base_wal_seq"
               "memory_empty export heads must not carry WAL sequence state")
      else Ok (HeadMemoryEmpty (mkMemoryHead size_bytes))
  end.

Definition simple_mutable_tree_with_root_base_and_format (size_bytes : Z)
    (root_node_id : option NodeId) (base_wal_seq : WalSeq) (tree_format : TreeFormat)
    : CatalogResult ExportHead :=
  let? _ := validate_non_zero "size_bytes" size_bytes in
  if negb (base_wal_seq =? WalSeq_zero) then
    Err (InvalidField "base_wal_seq"
           "simple_mutable_tree export heads must not carry WAL sequence state")
  else Ok (HeadSimpleMutableTree (mkSimpleHead size_bytes root_node_id tree_format)).

Definition cow_immutable_tree_with_root_and_format (size_bytes : Z)
    (root_node_id : option NodeId) (base_wal_seq : WalSeq) (tree_format : TreeFormat)
    : CatalogResult ExportHead :=
  let? _ := validate_non_zero "size_bytes" size_bytes in
  Ok (HeadCowImmutableTree (mkCowHead size_bytes root_node_id base_wal_seq tree_format)).

Definition new_with_tree_format (layout_kind : ExportLayoutKind) (root_node_id : option NodeId)
    (size_bytes : Z) (base_wal_seq : WalSeq) (tree_format : option TreeFormat)
    : CatalogResult ExportHead :=
  match layout_kind with
  | MemoryEmpty =>
      match tree_format with
      | Some _ =>
          Err (InvalidField "tree_format" "memory_empty export heads must not carry a tree format")
      | None => memory_empty_with_base size_bytes root_node_id base_wal_seq
      end
  | SimpleMutableTree =>
      simple_mutable_tree_with_root_base_and_format size_bytes root_node_id base_wal_seq
        (default TreeFormat_default tree_format)
  | CowImmutableTree =>
      cow_immutable_tree_with_root_and_format size_bytes root_node_id base_wal_seq
        (default TreeFormat_default tree_format)
  end.

Definition ExportHead_new (layout_kind : ExportLayoutKind) (root_node_id : option NodeId)
    (size_bytes : Z) (base_wal_seq : WalSeq) : CatalogResult ExportHead :=
  new_with_tree_format layout_kind root_node_id size_bytes base_wal_seq None.

Definition memory_empty (size_bytes : Z) : CatalogResult ExportHead :=
  memory_empty_with_base size_bytes None WalSeq_zero.

Definition simple_mutable_tree_with_root (size_bytes : Z) (root : option NodeId)
    : CatalogResult ExportHead :=
  simple_mutable_tree_with_root_base_and_format size_bytes root WalSeq_zero TreeFormat_default.

Definition simple_mutable_tree (size_bytes : Z) : CatalogResult ExportHead :=
  simple_mutable_tree_with_root size_bytes None.

Definition cow_immutable_tree_with_root (size_bytes : Z) (root : option NodeId)
    (base_wal_seq : WalSeq) : CatalogResult ExportHead :=
  cow_immutable_tree_with_root_and_format size_bytes root base_wal_seq TreeFormat_default.

Definition cow_immutable_tree (size_bytes : Z) : CatalogResult ExportHead :=
  cow_immutable_tree_with_root size_bytes None WalSeq_zero.

Definition layout_kind (h : ExportHead) : ExportLayoutKind :=
  match h with
  | HeadMemoryEmpty _ => MemoryEmpty
  | HeadSimpleMutableTree _ => SimpleMutableTree
  | HeadCowImmutableTree _ => CowImmutableTree
  end.

Definition root_node_id (h : ExportHead) : option NodeId :=
  match h with
  | HeadMemoryEmpty _ => None
  | HeadSimpleMutableTree head => sh_root_node_id head
  | HeadCowImmutableTree head => ch_root_node_id head
  end.

Definition size_bytes (h : ExportHead) : Z :=
  match h with
  | HeadMemoryEmpty head => mh_size_bytes head
  | HeadSimpleMutableTree head => sh_size_bytes head
  | HeadCowImmutableTree head => ch_size_bytes head
  end.

Definition base_wal_seq (h : ExportHead) : WalSeq :=
  match h with
  | HeadMemoryEmpty _ | HeadSimpleMutableTree _ => WalSeq_zero
  | HeadCowImmutableTree head => ch_base_wal_seq head
  end.

Definition tree_format (h : ExportHead) : option TreeFormat :=
  match h with
  | HeadMemoryEmpty _ => None
  | HeadSimpleMutableTree head => Some (sh_tree_format head)
  | HeadCowImmutableTree head => Some (ch_tree_format head)
  end.

(** ** Descriptors, records and requests *)

Record ExportDescriptor := mkDescriptor {
  d_id : ExportId;
  d_name : ExportName;
  d_block_size : Z;
  d_engine_kind : ExportEngineKind;
  d_state : ExportState;
  d_created_at : Timestamp;
  d_updated_at : Timestamp;
  d_deleted_at : option Timestamp;
}.

Record ActiveExportDescriptor := mkActiveDescriptor { descriptor : ExportDescriptor }.

Record ExportRecord := mkRecord {
  r_id : ExportId;
  r_name : ExportName;
  r_block_size : Z;
  r_engine_kind : ExportEngineKind;
  r_state : ExportState;
  r_head : ExportHead;
  r_created_at : Timestamp;
  r_updated_at : Timestamp;
  r_deleted_at : option Timestamp;
}.

Definition ExportRecord_new id name block_size engine_kind state head created updated deleted
    : CatalogResult ExportRecord :=
  let? _ := validate_non_zero "block_size" block_size in
  Ok (mkRecord id name block_size engine_kind state head created updated deleted).

Definition ExportDescriptor_new id name block_size engine_kind state created updated deleted
    : CatalogResult ExportDescriptor :=
  let? _ := validate_non_zero "block_size" block_size in
  Ok (mkDescriptor id name block_size engine_kind state created updated deleted).

Definition ActiveExportDescriptor_new (d : ExportDescriptor) : CatalogResult ActiveExportDescriptor :=
  if bool_decide (d_state d ≠ Active) then Err (ExportDeleted (d_name d))
  else Ok (mkActiveDescriptor d).

Definition into_record (d : ExportDescriptor) (head : ExportHead) : CatalogResult ExportRecord :=
  ExportRecord_new (d_id d) (d_name d) (d_block_size d) (d_engine_kind d) (d_state d) head
    (d_created_at d) (d_updated_at d) (d_deleted_at d).

Record CreateExport := mkCreateExport {
  ce_name : ExportName; ce_size_bytes : Z; ce_block_size : Z; ce_engine_kind : ExportEngineKind }.

Definition CreateExport_new name size block kind : CatalogResult CreateExport :=
  let? _ := validate_non_zero "size_bytes" size in
  let? _ := validate_non_zero "block_size" block in
  Ok (mkCreateExport name size block kind).

Record CloneExport := mkCloneExport { cl_source : ExportName; cl_destination : ExportName }.

Definition CloneExport_new (source destination : ExportName) : CatalogResult CloneExport :=
  if bool_decide (source = destination) then
    Err (InvalidField "destination" "clone destination must differ from source")
  else Ok (mkCloneExport source destination).

(** ** Tree records *)

Record TreeNodeRecord := mkTreeNode {
  tn_id : NodeId;
  tn_layout_kind : ExportLayoutKind;
  tn_owner_export_id : option ExportId;
  tn_kind : TreeNodeKind;
  tn_level : Z;
  tn_span_start_bytes : Z;
  tn_span_len_bytes : Z;
}.

Record TreeEdgeRecord := mkTreeEdge {
  te_parent_node_id : NodeId;
  te_slot : Z;
  te_child_node_id : NodeId;
}.

Record TreeLeafRefRecord := mkTreeLeafRef {
  tl_node_id : NodeId;
  tl_storage_kind : TreeStorageKind;
  tl_storage_key : BlobKey;
  tl_len_bytes : Z;
}.

Record TreeRecordBatch := mkTreeBatch {
  tb_nodes : list TreeNodeRecord;
  tb_edges : list TreeEdgeRecord;
  tb_leaf_refs : list TreeLeafRefRecord;
}.

Definition TreeRecordBatch_default : TreeRecordBatch := mkTreeBatch [] [] [].

Record TreeEdgeLookup := mkEdgeLookup { el_parent_node_id : NodeId; el_slots : list Z }.

Record PublishTreeUpdate := mkPublish {
  pu_export_id : ExportId;
  pu_expected_head : ExportHead;
  pu_next_head : ExportHead;
  pu_records : TreeRecordBatch;
}.

Inductive PublishTreeUpdateOutcome : Type :=
| Published (record : ExportRecord)
| StaleHead (record : ExportRecord).

(** [CowChunkRef] and [SimpleChunkRef] have the same fields. *)
Record CowChunkRef := mkCowChunk { cc_chunk_index : ChunkIndex; cc_blob_key : BlobKey; cc_len_bytes : Z }.
Record SimpleChunkRef := mkSimpleChunk { sc_chunk_index : ChunkIndex; sc_blob_key : BlobKey; sc_len_bytes : Z }.

Definition CowChunkRef_new (i : ChunkIndex) (key : BlobKey) (len_bytes : Z) : CatalogResult CowChunkRef :=
  if negb (len_bytes =? TREE_CHUNK_BYTES) then
    Err (InvalidField "len_bytes" "cow chunks must be exactly {TREE_CHUNK_BYTES} bytes")
  else Ok (mkCowChunk i key len_bytes).

Definition SimpleChunkRef_new (i : ChunkIndex) (key : BlobKey) (len_bytes : Z) : CatalogResult SimpleChunkRef :=
  if negb (len_bytes =? SIMPLE_CHUNK_BYTES) then
    Err (InvalidField "len_bytes" "simple chunks must be exactly {SIMPLE_CHUNK_BYTES} bytes")
  else Ok (mkSimpleChunk i key len_bytes).

(** ** Properties *)

(** A head the public constructors can build: a non-zero size. *)
Definition head_valid (h : ExportHead) : Prop := size_bytes h ≠ 0.

Lemma validate_non_zero_ok f v : v ≠ 0 → validate_non_zero f v = Ok tt.
Proof. intros. unfold validate_non_zero. destruct (Z.eqb_spec v 0); done. Qed.

Lemma head_rebuild h :
  head_valid h →
  new_with_tree_format (layout_kind h) (root_node_id h) (size_bytes h) (base_wal_seq h)
    (tree_format h) = Ok h.
Proof.
  intros Hv. destruct h as [[]|[]|[]]; unfold head_valid in Hv; cbn in *.
  all: unfold memory_empty_with_base, simple_mutable_tree_with_root_base_and_format,
    cow_immutable_tree_with_root_and_format; by rewrite validate_non_zero_ok.
Qed.

Lemma new_with_tree_format_valid lk root sz base tf h :
  new_with_tree_format lk root sz base tf = Ok h →
  head_valid h ∧ layout_kind h = lk ∧ root_node_id h = root ∧ size_bytes h = sz ∧
  base_wal_seq h = base.
Proof.
  destruct lk; cbn; [destruct tf; [done|]|..];
    unfold memory_empty_with_base, simple_mutable_tree_with_root_base_and_format,
      cow_immutable_tree_with_root_and_format, validate_non_zero, head_valid;
    destruct (Z.eqb_spec sz 0); cbn; try done.
  - destruct root; [done|]. destruct (Z.eqb_spec base WalSeq_zero); cbn; naive_solver.
  - destruct (Z.eqb_spec base WalSeq_zero); cbn; naive_solver.
  - naive_solver.
Qed.

Lemma ExportLayoutKind_from_display k : ExportLayoutKind_from_str (ExportLayoutKind_display k) = Ok k.
Proof. by destruct k. Qed.

Lemma TreeFormat_from_display f : TreeFormat_from_str (TreeFormat_display f) = Ok f.
Proof. by destruct f. Qed.
