(* ===== verification/ProtocolWire.v ===== *)
(** * NBD wire primitives

    The constants, the error type, the big-endian cursor and the handshake
    messages of [nbd-protocol] ([constants.rs], [error.rs], [wire.rs],
    [handshake.rs]). *)

From S2P Require Import Prelude.

#[local] Open Scope string_scope.
#[local] Open Scope list_scope.
#[local] Open Scope Z_scope.

(** ** Constants (constants.rs) *)

Definition INIT_PASSWD : Z := 0x4e42444d41474943.
Definition IHAVEOPT_MAGIC : Z := 0x49484156454f5054.
Definition OPTION_REPLY_MAGIC : Z := 0x0003e889045565a9.

Definition NBD_REQUEST_MAGIC : Z := 0x25609513.
Definition NBD_SIMPLE_REPLY_MAGIC : Z := 0x67446698.

Definition NBD_FLAG_FIXED_NEWSTYLE : Z := Z.shiftl 1 0.
Definition NBD_FLAG_NO_ZEROES : Z := Z.shiftl 1 1.
Definition NBD_FLAG_C_FIXED_NEWSTYLE : Z := Z.shiftl 1 0.
Definition NBD_FLAG_C_NO_ZEROES : Z := Z.shiftl 1 1.
Definition NBD_FLAG_HAS_FLAGS : Z := Z.shiftl 1 0.
Definition NBD_FLAG_SEND_FLUSH : Z := Z.shiftl 1 2.

Definition NBD_OPT_ABORT : Z := 2.
Definition NBD_OPT_GO : Z := 7.

Definition NBD_REP_ACK : Z := 1.
Definition NBD_REP_INFO : Z := 3.
Definition NBD_REP_ERR_UNSUP : Z := Z.shiftl 1 31 + 1.
Definition NBD_REP_ERR_POLICY : Z := Z.shiftl 1 31 + 2.
Definition NBD_REP_ERR_UNKNOWN : Z := Z.shiftl 1 31 + 6.

Definition NBD_INFO_EXPORT : Z := 0.
Definition NBD_INFO_BLOCK_SIZE : Z := 3.

Definition MAX_STRING_BYTES : Z := 4096.

Definition NBD_CMD_READ : Z := 0.
Definition NBD_CMD_WRITE : Z := 1.
Definition NBD_CMD_DISC : Z := 2.
Definition NBD_CMD_FLUSH : Z := 3.

Definition NBD_EINVAL : Z := 22.
Definition NBD_EOVERFLOW : Z := 75.

(** ** Errors (error.rs) *)

Inductive ProtocolError : Type :=
| UnexpectedEof (needed remaining : Z)
| TrailingBytes (remaining : Z)
| MissingClientFlag (flag : string)
| UnsupportedClientFlags (raw unsupported : Z)
| InvalidMagic (context : string) (expected actual : Z)
| InvalidUtf8 (field : string)
| InvalidString (field reason : string)
| LengthTooLarge (field : string) (len max : Z)
| UnsupportedCommandFlags (raw : Z)
| UnsupportedCommand (command : Z)
| InvalidRequest (command reason : string)
| InvalidReply (reply reason : string)
| LengthOverflow (offset length : Z).

Abbreviation ProtoResult A := (outcome ProtocolError A) (only parsing).

(** ** The cursor (wire.rs) *)

Record WireReader := mkReader { wr_input : list byte; wr_offset : Z }.

(** A method of [&mut WireReader]. *)
Abbreviation Reader A := (M WireReader ProtocolError A) (only parsing).

Definition WireReader_new (input : list byte) : WireReader := mkReader input 0.

Definition remaining (r : WireReader) : Z :=
  u64_saturating_sub (zlen (wr_input r)) (wr_offset r).

Definition read_bytes (len : Z) : Reader (list byte) :=
  let! r := mget in
  if remaining r <? len then mfail (UnexpectedEof len (remaining r))
  else
    let start := wr_offset r in
    let offset := u64_add (wr_offset r) len in
    let! _ := mput (mkReader (wr_input r) offset) in
    mlift (or_panic (slice (wr_input r) start offset)).

(** [read_array::<N>] followed by [from_be_bytes]. *)
Definition read_be (n : nat) : Reader Z :=
  let! bytes := read_bytes (Z.of_nat n) in mret (be_value bytes).

Definition read_u16 : Reader Z := read_be 2.
Definition read_u32 : Reader Z := read_be 4.
Definition read_u64 : Reader Z := read_be 8.

Definition write_u16 (out : list byte) (value : Z) : list byte := out ++ be_bytes 2 value.
Definition write_u32 (out : list byte) (value : Z) : list byte := out ++ be_bytes 4 value.
Definition write_u64 (out : list byte) (value : Z) : list byte := out ++ be_bytes 8 value.

(** [if reader.remaining() != 0 { return Err(TrailingBytes) }]. *)
Definition require_no_trailing : Reader unit :=
  let! r := mget in
  if negb (remaining r =? 0) then mfail (TrailingBytes (remaining r)) else mret tt.

(** [WireReader::new(input)] followed by [m]; the reader is dropped at the end. *)
Definition run_reader {A} (m : Reader A) (input : list byte) : ProtoResult A :=
  (m (WireReader_new input)).1.

(** ** Handshake (handshake.rs) *)

Definition SERVER_HANDSHAKE_FLAGS : Z := Z.lor NBD_FLAG_FIXED_NEWSTYLE NBD_FLAG_NO_ZEROES.
Definition SUPPORTED_CLIENT_FLAGS : Z := Z.lor NBD_FLAG_C_FIXED_NEWSTYLE NBD_FLAG_C_NO_ZEROES.

Record ClientFlags := mkClientFlags { cf_raw : Z }.

Definition no_zeroes (f : ClientFlags) : bool :=
  negb (Z.land (cf_raw f) NBD_FLAG_C_NO_ZEROES =? 0).

Definition encode_server_handshake : list byte :=
  let out := [] in
  let out := write_u64 out INIT_PASSWD in
  let out := write_u64 out IHAVEOPT_MAGIC in
  write_u16 out SERVER_HANDSHAKE_FLAGS.

Definition encode_client_flags (no_zeroes : bool) : list byte :=
  let raw := NBD_FLAG_C_FIXED_NEWSTYLE in
  let raw := if no_zeroes then Z.lor raw NBD_FLAG_C_NO_ZEROES else raw in
  be_bytes 4 raw.

(** [!flags] on [u32]. *)
Definition u32_not (x : Z) : Z := Z.lxor x u32_max.

Definition decode_client_flags (input : list byte) : ProtoResult ClientFlags :=
  run_reader (
    let! raw := read_u32 in
    let! _ := require_no_trailing in
    if Z.land raw NBD_FLAG_C_FIXED_NEWSTYLE =? 0 then
      mfail (MissingClientFlag "NBD_FLAG_C_FIXED_NEWSTYLE")
    else
      let unsupported := Z.land raw (u32_not SUPPORTED_CLIENT_FLAGS) in
      if negb (unsupported =? 0) then mfail (UnsupportedClientFlags raw unsupported)
      else mret (mkClientFlags raw)) input.

(** ** Cursor lemmas

    Reading is described on the bytes still to come: [ahead r] is what the
    cursor has not consumed. *)

Definition reader_ok (r : WireReader) : Prop :=
  0 ≤ wr_offset r ≤ zlen (wr_input r) ∧ zlen (wr_input r) ≤ u64_max.

Definition ahead (r : WireReader) : list byte := drop (Z.to_nat (wr_offset r)) (wr_input r).

(** The cursor after consuming [n] bytes. *)
Definition advance (n : Z) (r : WireReader) : WireReader := mkReader (wr_input r) (wr_offset r + n).

Section cursor.
Implicit Types r : WireReader.

Lemma reader_new_ok input : zlen input ≤ u64_max → reader_ok (WireReader_new input).
Proof. intros. unfold reader_ok. cbn. pose proof (zlen_nonneg input). lia. Qed.

Lemma remaining_ahead r : reader_ok r → remaining r = zlen (ahead r).
Proof.
  intros [? ?]. unfold remaining, u64_saturating_sub, ahead, zlen in *.
  rewrite length_drop. lia.
Qed.

Lemma ahead_advance r n : reader_ok r → 0 ≤ n → ahead (advance n r) = drop (Z.to_nat n) (ahead r).
Proof.
  intros [? ?] ?. unfold ahead, advance. cbn. rewrite drop_drop. f_equal. lia.
Qed.

Lemma advance_ok r n : reader_ok r → 0 ≤ n ≤ zlen (ahead r) → reader_ok (advance n r).
Proof.
  intros Hr Hn. pose proof (remaining_ahead r Hr) as Hrem. destruct Hr as [? ?].
  unfold remaining, u64_saturating_sub in Hrem. unfold reader_ok, advance. cbn. lia.
Qed.

(** Every branch of [read_bytes]: it fails exactly when too few bytes are
    ahead, leaves the cursor alone then, and never panics. *)
Lemma read_bytes_spec r n :
  reader_ok r → 0 ≤ n →
  read_bytes n r =
    if zlen (ahead r) <? n then (Err (UnexpectedEof n (zlen (ahead r))), r)
    else (Ok (take (Z.to_nat n) (ahead r)), advance n r).
Proof.
  intros Hr Hn. unfold read_bytes, mseq, mget. rewrite remaining_ahead by done.
  destruct (Z.ltb_spec (zlen (ahead r)) n) as [Hlt|Hge]; [done|].
  pose proof (remaining_ahead r Hr) as Hrem. destruct Hr as [? ?].
  unfold remaining, u64_saturating_sub in Hrem.
  rewrite u64_add_id by lia. unfold mput, mlift.
  assert (slice (wr_input r) (wr_offset r) (wr_offset r + n) =
          Some (take (Z.to_nat n) (ahead r))) as ->; [|done].
  apply slice_Some. split_and!; try lia. unfold ahead. do 2 f_equal. lia.
Qed.

Lemma read_be_spec r n :
  reader_ok r →
  read_be n r =
    if zlen (ahead r) <? Z.of_nat n
    then (Err (UnexpectedEof (Z.of_nat n) (zlen (ahead r))), r)
    else (Ok (be_value (take n (ahead r))), advance (Z.of_nat n) r).
Proof.
  intros Hr. unfold read_be, mseq. rewrite read_bytes_spec by (done || lia).
  destruct (_ <? _); [done|]. by rewrite Nat2Z.id.
Qed.

Lemma require_no_trailing_spec r :
  reader_ok r →
  require_no_trailing r =
    if zlen (ahead r) =? 0 then (Ok tt, r) else (Err (TrailingBytes (zlen (ahead r))), r).
Proof.
  intros Hr. unfold require_no_trailing, mseq, mget. rewrite remaining_ahead by done.
  destruct (_ =? _); done.
Qed.

(** Reading back what an encoder wrote. *)
Lemma read_bytes_app r bs rest :
  reader_ok r → ahead r = bs ++ rest →
  read_bytes (zlen bs) r = (Ok bs, advance (zlen bs) r) ∧
  reader_ok (advance (zlen bs) r) ∧ ahead (advance (zlen bs) r) = rest.
Proof.
  intros Hr Ha. pose proof (zlen_nonneg bs). pose proof (zlen_nonneg rest).
  assert (Z.to_nat (zlen bs) = length bs) as Hn by (unfold zlen; lia). split_and!.
  - rewrite read_bytes_spec, Ha, zlen_app by done. destruct (Z.ltb_spec (zlen bs + zlen rest) (zlen bs));
      [lia|]. by rewrite Hn, take_app_length.
  - apply advance_ok; [done|]. rewrite Ha, zlen_app. lia.
  - rewrite ahead_advance, Ha, Hn, drop_app_length by done. done.
Qed.

Lemma read_be_app r n z rest :
  reader_ok r → ahead r = be_bytes n z ++ rest → 0 ≤ z < 256 ^ Z.of_nat n →
  read_be n r = (Ok z, advance (Z.of_nat n) r) ∧
  reader_ok (advance (Z.of_nat n) r) ∧ ahead (advance (Z.of_nat n) r) = rest.
Proof.
  intros Hr Ha Hz. assert (zlen (be_bytes n z) = Z.of_nat n) as Hl
    by (unfold zlen; by rewrite length_be_bytes).
  destruct (read_bytes_app r (be_bytes n z) rest) as (H1 & H2 & H3); [done..|].
  rewrite Hl in *. split_and!; try done.
  unfold read_be, mseq. rewrite H1. unfold mret. by rewrite be_value_small.
Qed.

(** A successful read determines the bytes that were ahead. *)
Lemma read_bytes_inv r n bs r' :
  reader_ok r → 0 ≤ n → read_bytes n r = (Ok bs, r') →
  zlen bs = n ∧ ahead r = bs ++ ahead r' ∧ reader_ok r'.
Proof.
  intros Hr Hn. rewrite read_bytes_spec by done.
  destruct (Z.ltb_spec (zlen (ahead r)) n); [done|]. intros [= <- <-]. split_and!.
  - unfold zlen in *. rewrite length_take. lia.
  - by rewrite ahead_advance, take_drop by done.
  - by apply advance_ok.
Qed.

Lemma read_be_inv r n z r' :
  reader_ok r → read_be n r = (Ok z, r') →
  0 ≤ z < 256 ^ Z.of_nat n ∧ ahead r = be_bytes n z ++ ahead r' ∧ reader_ok r'.
Proof.
  intros Hr (bs & r1 & H1 & H2)%mseq_inv. injection H2 as <- <-.
  apply read_bytes_inv in H1 as (Hl & Ha & Hr1); [|done|lia].
  pose proof (be_value_bound bs) as Hb. unfold zlen in Hl. assert (length bs = n) as <- by lia.
  split_and!; try done; try lia. by rewrite be_bytes_value.
Qed.

Lemma require_no_trailing_inv r x r' :
  reader_ok r → require_no_trailing r = (Ok x, r') → ahead r = [].
Proof.
  intros Hr. rewrite require_no_trailing_spec by done.
  destruct (Z.eqb_spec (zlen (ahead r)) 0) as [H|]; [|done]. intros _. by apply zlen_nil.
Qed.

Lemma require_no_trailing_ok r :
  reader_ok r → ahead r = [] → require_no_trailing r = (Ok tt, r).
Proof. intros Hr Ha. by rewrite require_no_trailing_spec, Ha by done. Qed.
End cursor.

(** A reader that never panics from a good cursor, and leaves a good cursor. *)
Definition reader_total {A} (m : Reader A) : Prop :=
  ∀ r, reader_ok r → (m r).1 ≠ Panic ∧ reader_ok (m r).2.

Section total.
Lemma total_mret {A} (a : A) : reader_total (mret a).
Proof. intros r Hr. by split. Qed.

Lemma total_mfail {A} e : reader_total (A:=A) (mfail e).
Proof. intros r Hr. by split. Qed.

Lemma total_mlift {A} (o : ProtoResult A) : o ≠ Panic → reader_total (mlift o).
Proof. intros Ho r Hr. by split. Qed.

Lemma total_mseq {A B} (m : Reader A) (f : A → Reader B) :
  reader_total m → (∀ a, reader_total (f a)) → reader_total (mseq m f).
Proof.
  intros Hm Hf r Hr. unfold mseq. destruct (Hm r Hr) as [Hp Ho].
  destruct (m r) as [[a|e|] r']; cbn in *; [by apply Hf|done|done].
Qed.

Lemma total_read_bytes n : 0 ≤ n → reader_total (read_bytes n).
Proof.
  intros Hn r Hr. rewrite read_bytes_spec by done.
  destruct (Z.ltb_spec (zlen (ahead r)) n); cbn; split; try done. by apply advance_ok.
Qed.

Lemma total_read_be n : reader_total (read_be n).
Proof. apply total_mseq; [apply total_read_bytes; lia|]. intros. apply total_mret. Qed.

Lemma total_require_no_trailing : reader_total require_no_trailing.
Proof.
  intros r Hr. rewrite require_no_trailing_spec by done. destruct (_ =? _); by split.
Qed.

Lemma total_if {A} (b : bool) (m1 m2 : Reader A) :
  reader_total m1 → reader_total m2 → reader_total (if b then m1 else m2).
Proof. by destruct b. Qed.

Lemma run_reader_no_panic {A} (m : Reader A) input :
  zlen input ≤ u64_max → reader_total m → run_reader m input ≠ Panic.
Proof. intros Hl Hm. by destruct (Hm _ (reader_new_ok input Hl)). Qed.
End total.

#[export] Hint Resolve total_mret total_mfail total_read_be total_require_no_trailing : nbd.

(** Walks a reader whose steps are total whatever they read. *)
Ltac reader_total :=
  repeat first
    [ apply total_read_be | apply total_require_no_trailing | apply total_mret
    | apply total_mfail | apply total_if | apply total_mseq; [|intros ?] ].

(** ** Codec specifications

    [decodes m bs rest a]: with [bs ++ rest] ahead, [m] consumes [bs] and returns
    [a].  [determines m P]: when [m] returns [a], what it consumed and what is
    left satisfy [P a]. Both compose along [let!]. *)

Definition decodes {A} (m : Reader A) (bs rest : list byte) (a : A) : Prop :=
  ∀ r, reader_ok r → ahead r = bs ++ rest →
  ∃ r', m r = (Ok a, r') ∧ reader_ok r' ∧ ahead r' = rest.

Definition determines {A} (m : Reader A) (P : A → list byte → list byte → Prop) : Prop :=
  ∀ r a r', reader_ok r → m r = (Ok a, r') →
  reader_ok r' ∧ ∃ bs, ahead r = bs ++ ahead r' ∧ P a bs (ahead r').

Section codec.
Lemma decodes_mret {A} (a : A) rest : decodes (mret a) [] rest a.
Proof. intros r Hr Ha. exists r. done. Qed.

Lemma decodes_mseq {A B} (m : Reader A) (f : A → Reader B) b1 b2 rest a b :
  decodes m b1 (b2 ++ rest) a → decodes (f a) b2 rest b →
  decodes (mseq m f) (b1 ++ b2) rest b.
Proof.
  intros Hm Hf r Hr Ha. rewrite <-app_assoc in Ha.
  destruct (Hm r Hr Ha) as (r1 & H1 & Hr1 & Ha1).
  destruct (Hf r1 Hr1 Ha1) as (r2 & H2 & Hr2 & Ha2).
  exists r2. by rewrite (mseq_ok _ _ _ _ _ H1).
Qed.

(** A last step that consumes nothing. *)
Lemma decodes_mseq_nil {A B} (m : Reader A) (f : A → Reader B) bs rest a b :
  decodes m bs rest a → decodes (f a) [] rest b → decodes (mseq m f) bs rest b.
Proof. intros Hm Hf. rewrite <-(app_nil_r bs). by eapply decodes_mseq. Qed.

Lemma decodes_read_be n z rest :
  0 ≤ z < 256 ^ Z.of_nat n → decodes (read_be n) (be_bytes n z) rest z.
Proof.
  intros Hz r Hr Ha. eexists. by apply (read_be_app r n z rest).
Qed.

Lemma decodes_read_bytes n bs rest : n = zlen bs → decodes (read_bytes n) bs rest bs.
Proof. intros -> r Hr Ha. eexists. by apply read_bytes_app. Qed.

Lemma decodes_no_trailing : decodes require_no_trailing [] [] tt.
Proof. intros r Hr Ha. exists r. by rewrite require_no_trailing_ok. Qed.

Lemma run_decodes {A} (m : Reader A) bs a :
  zlen bs ≤ u64_max → decodes m bs [] a → run_reader m bs = Ok a.
Proof.
  intros Hl Hm. destruct (Hm (WireReader_new bs)) as (r' & H & _).
  - by apply reader_new_ok.
  - unfold ahead. cbn. by rewrite app_nil_r.
  - unfold run_reader. by rewrite H.
Qed.

Lemma determines_weaken {A} (m : Reader A) (P Q : A → list byte → list byte → Prop) :
  determines m P → (∀ a bs rest, P a bs rest → Q a bs rest) → determines m Q.
Proof.
  intros Hm HPQ r a r' Hr H. destruct (Hm r a r' Hr H) as (? & bs & ? & ?). eauto.
Qed.

Lemma determines_mret {A} (a : A) : determines (mret a) (λ x bs _, x = a ∧ bs = []).
Proof. intros r x r' Hr [= <- <-]. split; [done|]. by exists []. Qed.

Lemma determines_mfail {A} e P : determines (A:=A) (mfail e) P.
Proof. by intros r x r' Hr [=]. Qed.

Lemma determines_mlift {A} (o : ProtoResult A) :
  determines (mlift o) (λ x bs _, o = Ok x ∧ bs = []).
Proof. intros r x r' Hr [= -> <-]. split; [done|]. by exists []. Qed.

Lemma determines_mseq {A B} (m : Reader A) (f : A → Reader B) P Q :
  determines m P → (∀ a, determines (f a) (Q a)) →
  determines (mseq m f) (λ b bs rest,
    ∃ a b1 b2, bs = b1 ++ b2 ∧ P a b1 (b2 ++ rest) ∧ Q a b b2 rest).
Proof.
  intros Hm Hf r b r' Hr (a & r1 & H1 & H2)%mseq_inv.
  destruct (Hm r a r1 Hr H1) as (Hr1 & b1 & Ha1 & HP).
  destruct (Hf a r1 b r' Hr1 H2) as (Hr2 & b2 & Ha2 & HQ). split; [done|].
  exists (b1 ++ b2). rewrite Ha1, Ha2, app_assoc. split; [done|].
  exists a, b1, b2. rewrite Ha2 in HP. done.
Qed.

Lemma determines_if {A} (b : bool) (m1 m2 : Reader A) P Q :
  determines m1 P → determines m2 Q →
  determines (if b then m1 else m2)
    (λ a bs rest, if b then P a bs rest else Q a bs rest).
Proof. by destruct b. Qed.

Lemma determines_read_be n :
  determines (read_be n) (λ z bs _, 0 ≤ z < 256 ^ Z.of_nat n ∧ bs = be_bytes n z).
Proof.
  intros r z r' Hr H. destruct (read_be_inv r n z r' Hr H) as (? & ? & ?).
  split; [done|]. eauto.
Qed.

Lemma determines_read_bytes n :
  0 ≤ n → determines (read_bytes n) (λ x bs _, bs = x ∧ zlen x = n).
Proof.
  intros Hn r x r' Hr H. destruct (read_bytes_inv r n x r' Hr Hn H) as (? & ? & ?).
  split; [done|]. eauto.
Qed.

Lemma determines_no_trailing :
  determines require_no_trailing (λ _ bs rest, bs = [] ∧ rest = []).
Proof.
  intros r x r' Hr H. pose proof (require_no_trailing_inv r x r' Hr H) as Ha.
  rewrite require_no_trailing_ok in H by done. injection H as _ <-.
  split; [done|]. exists []. by rewrite Ha.
Qed.

(** What a run of a reader on a whole message establishes. *)
Lemma run_determines {A} (m : Reader A) P input a :
  zlen input ≤ u64_max → determines m P → run_reader m input = Ok a →
  ∃ bs rest, input = bs ++ rest ∧ P a bs rest.
Proof.
  intros Hl Hm. unfold run_reader. destruct (m _) as [o r'] eqn:H. cbn. intros ->.
  destruct (Hm _ _ _ (reader_new_ok input Hl) H) as (_ & bs & Ha & HP). eauto.
Qed.
End codec.

(** Totality when the rest relies on what the first step establishes. *)
Lemma total_mseq_post {A B} (m : Reader A) (f : A → Reader B) P :
  reader_total m → determines m P → (∀ a bs rest, P a bs rest → reader_total (f a)) →
  reader_total (mseq m f).
Proof.
  intros Ht Hm Hf r Hr. unfold mseq. destruct (Ht r Hr) as [Hp Ho]. specialize (Hm r).
  destruct (m r) as [[a|e|] r']; cbn in *; [|done..].
  destruct (Hm a r' Hr eq_refl) as (? & bs & ? & HP). by eapply Hf.
Qed.

Lemma run_reader_inv {A} (m : Reader A) input a :
  zlen input ≤ u64_max → run_reader m input = Ok a →
  ∃ r r', reader_ok r ∧ ahead r = input ∧ m r = (Ok a, r').
Proof.
  intros Hl. unfold run_reader. destruct (m _) as [o r'] eqn:H. cbn. intros ->.
  exists (WireReader_new input), r'. split; [by apply reader_new_ok|]. done.
Qed.

(** A message that must end here. *)
Lemma finish_inv {A} (a b : A) (r r' : WireReader) :
  reader_ok r → (let! _ := require_no_trailing in mret a) r = (Ok b, r') → ahead r = [] ∧ b = a.
Proof.
  intros Hr (x & r1 & H1 & [= <- <-])%mseq_inv. split; [|done].
  by eapply require_no_trailing_inv.
Qed.

Lemma determines_mseq' {A B} (m : Reader A) (f : A → Reader B) P Q R :
  determines m P → (∀ a, determines (f a) (Q a)) →
  (∀ a b b1 b2 rest, P a b1 (b2 ++ rest) → Q a b b2 rest → R b (b1 ++ b2) rest) →
  determines (mseq m f) R.
Proof.
  intros Hm Hf HR. eapply determines_weaken; [by eapply determines_mseq|].
  intros b bs rest (a & b1 & b2 & -> & HP & HQ). eauto.
Qed.

(** Walks a reader in [determines], leaving the postcondition to be inferred. *)
Ltac determine :=
  repeat first
    [ apply determines_read_be
    | apply determines_no_trailing
    | eapply determines_mseq; [|intros ?]
    | apply determines_mret
    | apply (determines_mfail _ (λ _ _ _, False))
    | apply determines_mlift
    | apply determines_if ].

(** The flags word of a client is accepted exactly when it has the mandatory
    bit and no unknown bit. *)
Lemma decode_client_flags_spec raw :
  0 ≤ raw ≤ u32_max →
  decode_client_flags (be_bytes 4 raw) =
    if negb (Z.testbit raw 0) then Err (MissingClientFlag "NBD_FLAG_C_FIXED_NEWSTYLE")
    else if 4 <=? raw then
      Err (UnsupportedClientFlags raw (Z.land raw (u32_not SUPPORTED_CLIENT_FLAGS)))
    else Ok (mkClientFlags raw).
Proof.
  intros Hraw. unfold decode_client_flags, run_reader, u32_max in *.
  destruct (read_be_app (WireReader_new (be_bytes 4 raw)) 4 raw []) as (H1 & H2 & H3).
  { apply reader_new_ok. unfold zlen. rewrite length_be_bytes. done. }
  { unfold ahead. cbn [wr_offset wr_input WireReader_new]. by rewrite app_nil_r. }
  { cbn. lia. }
  unfold read_u32. erewrite mseq_ok by exact H1.
  erewrite mseq_ok by (by apply require_no_trailing_ok).
  assert (Z.land raw NBD_FLAG_C_FIXED_NEWSTYLE = Z.b2z (Z.testbit raw 0)) as ->.
  { change NBD_FLAG_C_FIXED_NEWSTYLE with (Z.ones 1). rewrite Z.land_ones by lia.
    by rewrite Z.bit0_mod. }
  destruct (Z.testbit raw 0); [|done]. cbn [negb Z.b2z].
  change (1 =? 0) with false. cbn iota.
  assert (Z.land raw (u32_not SUPPORTED_CLIENT_FLAGS) = raw / 4 * 4) as ->.
  { change (u32_not SUPPORTED_CLIENT_FLAGS) with (Z.ldiff (Z.ones 32) (Z.ones 2)).
    rewrite Z.ldiff_land, Z.land_assoc, <-Z.ldiff_land, Z.land_ones, Z.mod_small by lia.
    rewrite Z.ldiff_ones_r, Z.shiftl_mul_pow2, Z.shiftr_div_pow2 by lia. done. }
  case_bool; first [done | exfalso; dlia].
Qed.
