(* ===== verification/ProtocolOption.v ===== *)
(** * Option negotiation messages

    The fixed-newstyle option requests and replies of [nbd-protocol/option.rs]:
    encoders, parsers, and the theorems that they are inverse to each other. *)

From S2P Require Import Prelude ProtocolWire.
From Stdlib Require Import String.

#[local] Open Scope string_scope.
#[local] Open Scope list_scope.
#[local] Open Scope Z_scope.

(** ** Data *)

Definition OPTION_REQUEST_HEADER_BYTES : Z := 16.
Definition OPTION_REPLY_HEADER_BYTES : Z := 20.
Definition MAX_OPTION_PAYLOAD_BYTES : Z := 64 * 1024.

Record GoRequest := mkGo { go_export_name : string; go_info_requests : list Z }.

Inductive OptionRequest : Type :=
| OptGo (request : GoRequest)
| OptAbort (payload : list byte)
| OptUnknown (code : Z) (payload : list byte).

Record OptionRequestHeader := mkOptReqHeader { orq_option : Z; orq_payload_len : Z }.
Record OptionReplyHeader := mkOptRepHeader { orp_option : Z; orp_reply_type : Z; orp_payload_len : Z }.

Inductive OptionReply : Type :=
| RepInfoExport (option export_size_bytes transmission_flags : Z)
| RepAck (option : Z)
| RepError (option reply_type : Z) (message : list byte)
| RepOther (option reply_type : Z) (payload : list byte).

Definition OptionRequest_code (r : OptionRequest) : Z :=
  match r with
  | OptGo _ => NBD_OPT_GO
  | OptAbort _ => NBD_OPT_ABORT
  | OptUnknown code _ => code
  end.

(** ** Encoders *)

Definition bounded_payload_len (field : string) (payload_len : Z) : ProtoResult Z :=
  if MAX_OPTION_PAYLOAD_BYTES <? payload_len then
    Err (LengthTooLarge field payload_len MAX_OPTION_PAYLOAD_BYTES)
  else Ok payload_len.

Definition encode_option_request (option : Z) (payload : list byte) : ProtoResult (list byte) :=
  let? payload_len := ok_or (u32_try_from (zlen payload))
    (LengthTooLarge "option request payload" (zlen payload) u32_max) in
  let? _ := bounded_payload_len "option request payload" payload_len in
  let out := write_u64 [] IHAVEOPT_MAGIC in
  let out := write_u32 out option in
  let out := write_u32 out payload_len in
  Ok (out ++ payload).

(** [for info in info_requests { write_u16(&mut payload, *info) }]. *)
Definition write_u16s (out : list byte) (infos : list Z) : list byte :=
  foldl write_u16 out infos.

Definition encode_go_request (export_name : string) (info_requests : list Z)
    : ProtoResult (list byte) :=
  let name := list_byte_of_string export_name in
  if MAX_STRING_BYTES <? zlen name then
    Err (LengthTooLarge "export name" (zlen name) MAX_STRING_BYTES)
  else if bool_decide (x00 ∈ name) then Err (InvalidString "export name" "contains NUL byte")
  else
    let? info_count := ok_or (u16_try_from (zlen info_requests))
      (LengthTooLarge "info request count" (zlen info_requests) u16_max) in
    let payload := write_u32 [] (as_u32 (zlen name)) in
    let payload := payload ++ name in
    let payload := write_u16 payload info_count in
    let payload := write_u16s payload info_requests in
    encode_option_request NBD_OPT_GO payload.

Definition encode_abort_request (payload : list byte) : ProtoResult (list byte) :=
  encode_option_request NBD_OPT_ABORT payload.

Definition encode_option_reply (option reply_type : Z) (payload : list byte)
    : ProtoResult (list byte) :=
  let? payload_len := ok_or (u32_try_from (zlen payload))
    (LengthTooLarge "option reply payload" (zlen payload) u32_max) in
  let? _ := bounded_payload_len "option reply payload" payload_len in
  let out := write_u64 [] OPTION_REPLY_MAGIC in
  let out := write_u32 out option in
  let out := write_u32 out reply_type in
  let out := write_u32 out payload_len in
  Ok (out ++ payload).

Definition encode_export_info_reply (option export_size_bytes transmission_flags : Z)
    : ProtoResult (list byte) :=
  let payload := write_u16 [] NBD_INFO_EXPORT in
  let payload := write_u64 payload export_size_bytes in
  let payload := write_u16 payload transmission_flags in
  encode_option_reply option NBD_REP_INFO payload.

Definition encode_ack_reply (option : Z) : ProtoResult (list byte) :=
  encode_option_reply option NBD_REP_ACK [].

Definition encode_unsupported_option_reply (option : Z) (message : list byte) :=
  encode_option_reply option NBD_REP_ERR_UNSUP message.
Definition encode_policy_option_reply (option : Z) (message : list byte) :=
  encode_option_reply option NBD_REP_ERR_POLICY message.
Definition encode_unknown_export_reply (option : Z) (message : list byte) :=
  encode_option_reply option NBD_REP_ERR_UNKNOWN message.

(** ** Parsers *)

Definition parse_option_request_header (input : list byte) : ProtoResult OptionRequestHeader :=
  run_reader (
    let! magic := read_u64 in
    if negb (magic =? IHAVEOPT_MAGIC) then
      mfail (InvalidMagic "option request" IHAVEOPT_MAGIC magic)
    else
      let! option := read_u32 in
      let! payload_len := read_u32 in
      let! _ := require_no_trailing in
      mret (mkOptReqHeader option payload_len)) input.

Definition parse_option_reply_header (input : list byte) : ProtoResult OptionReplyHeader :=
  run_reader (
    let! magic := read_u64 in
    if negb (magic =? OPTION_REPLY_MAGIC) then
      mfail (InvalidMagic "option reply" OPTION_REPLY_MAGIC magic)
    else
      let! option := read_u32 in
      let! reply_type := read_u32 in
      let! payload_len := read_u32 in
      let! _ := require_no_trailing in
      mret (mkOptRepHeader option reply_type payload_len)) input.

Definition request_bounded_payload_len (h : OptionRequestHeader) : ProtoResult Z :=
  bounded_payload_len "option request payload" (orq_payload_len h).
Definition reply_bounded_payload_len (h : OptionReplyHeader) : ProtoResult Z :=
  bounded_payload_len "option reply payload" (orp_payload_len h).

(** [for _ in 0..info_count { info_requests.push(reader.read_u16()?) }]. *)
Fixpoint read_u16s (count : nat) : Reader (list Z) :=
  match count with
  | O => mret []
  | S n => let! x := read_u16 in let! xs := read_u16s n in mret (x :: xs)
  end.

Definition parse_go_payload (payload : list byte) : ProtoResult GoRequest :=
  run_reader (
    let! name_len := read_u32 in
    if MAX_STRING_BYTES <? name_len then
      mfail (LengthTooLarge "export name" name_len MAX_STRING_BYTES)
    else
      let! name := read_bytes name_len in
      if bool_decide (x00 ∈ name) then mfail (InvalidString "export name" "contains NUL byte")
      else if negb (utf8_valid name) then mfail (InvalidUtf8 "export name")
      else
        let! info_count := read_u16 in
        let! info_requests := read_u16s (Z.to_nat info_count) in
        let! _ := require_no_trailing in
        mret (mkGo (string_of_list_byte name) info_requests)) payload.

Definition parse_option_request (input : list byte) : ProtoResult OptionRequest :=
  run_reader (
    let! header_bytes := read_bytes OPTION_REQUEST_HEADER_BYTES in
    let! header := mlift (parse_option_request_header header_bytes) in
    let code := orq_option header in
    let! len := mlift (request_bounded_payload_len header) in
    let! payload := read_bytes len in
    let! _ := require_no_trailing in
    if code =? NBD_OPT_GO then
      let! go := mlift (parse_go_payload payload) in mret (OptGo go)
    else if code =? NBD_OPT_ABORT then mret (OptAbort payload)
    else mret (OptUnknown code payload)) input.

Definition is_error_reply (reply_type : Z) : bool :=
  negb (Z.land reply_type (Z.shiftl 1 31) =? 0).

Definition parse_info_reply (option : Z) (payload : list byte) : ProtoResult OptionReply :=
  run_reader (
    let! info_type := read_u16 in
    if info_type =? NBD_INFO_EXPORT then
      let! export_size_bytes := read_u64 in
      let! transmission_flags := read_u16 in
      let! _ := require_no_trailing in
      mret (RepInfoExport option export_size_bytes transmission_flags)
    else mret (RepOther option NBD_REP_INFO payload)) payload.

Definition parse_option_reply (input : list byte) : ProtoResult OptionReply :=
  run_reader (
    let! header_bytes := read_bytes OPTION_REPLY_HEADER_BYTES in
    let! header := mlift (parse_option_reply_header header_bytes) in
    let! len := mlift (reply_bounded_payload_len header) in
    let! payload := read_bytes len in
    let! _ := require_no_trailing in
    if orp_reply_type header =? NBD_REP_INFO then
      mlift (parse_info_reply (orp_option header) payload)
    else if orp_reply_type header =? NBD_REP_ACK then
      match payload with
      | [] => mret (RepAck (orp_option header))
      | _ => mfail (InvalidReply "NBD_REP_ACK" "payload must be empty")
      end
    else if is_error_reply (orp_reply_type header) then
      mret (RepError (orp_option header) (orp_reply_type header) payload)
    else mret (RepOther (orp_option header) (orp_reply_type header) payload)) input.

(** ** Exactness of the option parsers *)

(** The client-side encoder of each kind of option request. *)
Definition encode_option (q : OptionRequest) : ProtoResult (list byte) :=
  match q with
  | OptGo go => encode_go_request (go_export_name go) (go_info_requests go)
  | OptAbort payload => encode_abort_request payload
  | OptUnknown code payload => encode_option_request code payload
  end.

(** The fields fit their Rust types: a [String] is valid UTF-8, and the codes of
    the other variants are not [Unknown]. *)
Definition option_typed (q : OptionRequest) : Prop :=
  match q with
  | OptGo go =>
      utf8_valid (list_byte_of_string (go_export_name go)) = true ∧
      Forall is_u16 (go_info_requests go)
  | OptAbort _ => True
  | OptUnknown code _ => is_u32 code ∧ code ≠ NBD_OPT_GO ∧ code ≠ NBD_OPT_ABORT
  end.

(** The encoder of each kind of option reply. *)
Definition encode_reply (r : OptionReply) : ProtoResult (list byte) :=
  match r with
  | RepInfoExport option size flags => encode_export_info_reply option size flags
  | RepAck option => encode_ack_reply option
  | RepError option reply_type message => encode_option_reply option reply_type message
  | RepOther option reply_type payload => encode_option_reply option reply_type payload
  end.

Definition reply_typed (r : OptionReply) : Prop :=
  match r with
  | RepInfoExport option size flags => is_u32 option ∧ is_u64 size ∧ is_u16 flags
  | RepAck option => is_u32 option
  | RepError option reply_type _ => is_u32 option ∧ is_u32 reply_type ∧ is_error_reply reply_type = true
  | RepOther option reply_type payload =>
      is_u32 option ∧ is_u32 reply_type ∧ is_error_reply reply_type = false ∧
      reply_type ≠ NBD_REP_ACK ∧
      (reply_type = NBD_REP_INFO →
       ∃ info rest, payload = be_bytes 2 info ++ rest ∧ is_u16 info ∧ info ≠ NBD_INFO_EXPORT)
  end.

Section options.
Implicit Types (payload : list byte).

(** *** The header *)

Definition option_request_bytes (option len : Z) : list byte :=
  be_bytes 8 IHAVEOPT_MAGIC ++ be_bytes 4 option ++ be_bytes 4 len ++ [].

Definition option_reply_bytes (option reply_type len : Z) : list byte :=
  be_bytes 8 OPTION_REPLY_MAGIC ++ be_bytes 4 option ++ be_bytes 4 reply_type ++
  be_bytes 4 len ++ [].

Lemma option_request_bytes_length o n : zlen (option_request_bytes o n) = OPTION_REQUEST_HEADER_BYTES.
Proof. unfold zlen, option_request_bytes. by rewrite !length_app, !length_be_bytes. Qed.

Lemma option_reply_bytes_length o t n : zlen (option_reply_bytes o t n) = OPTION_REPLY_HEADER_BYTES.
Proof. unfold zlen, option_reply_bytes. by rewrite !length_app, !length_be_bytes. Qed.

Lemma encode_option_request_ok option payload out :
  encode_option_request option payload = Ok out ↔
  zlen payload ≤ MAX_OPTION_PAYLOAD_BYTES ∧
  out = option_request_bytes option (zlen payload) ++ payload.
Proof.
  unfold encode_option_request, bounded_payload_len, u32_try_from, option_request_bytes,
    write_u32, write_u64, MAX_OPTION_PAYLOAD_BYTES, u32_max. cbn [app].
  case_bool; cbn [ok_or obind]; case_bool; cbn [obind app]; rewrite <-?app_assoc; split;
    solve [intros [=]; done | intros [= <-]; split; [lia|done]
          | intros [H1 H2]; first [by rewrite H2|exfalso; lia]].
Qed.

Lemma encode_option_reply_ok option reply_type payload out :
  encode_option_reply option reply_type payload = Ok out ↔
  zlen payload ≤ MAX_OPTION_PAYLOAD_BYTES ∧
  out = option_reply_bytes option reply_type (zlen payload) ++ payload.
Proof.
  unfold encode_option_reply, bounded_payload_len, u32_try_from, option_reply_bytes,
    write_u32, write_u64, MAX_OPTION_PAYLOAD_BYTES, u32_max. cbn [app].
  case_bool; cbn [ok_or obind]; case_bool; cbn [obind app]; rewrite <-?app_assoc; split;
    solve [intros [=]; done | intros [= <-]; split; [lia|done]
          | intros [H1 H2]; first [by rewrite H2|exfalso; lia]].
Qed.

Lemma bounded_payload_len_ok f n m :
  bounded_payload_len f n = Ok m ↔ n ≤ MAX_OPTION_PAYLOAD_BYTES ∧ m = n.
Proof. unfold bounded_payload_len. case_bool; naive_solver lia. Qed.

Lemma parse_option_request_header_accepts o n :
  is_u32 o → is_u32 n →
  parse_option_request_header (option_request_bytes o n) = Ok (mkOptReqHeader o n).
Proof.
  unfold is_u32, u32_max. intros Ho Hn. apply run_decodes; [by rewrite option_request_bytes_length|].
  eapply decodes_mseq; [apply decodes_read_be; by_compute|]. rewrite Z.eqb_refl. cbn [negb].
  do 2 (eapply decodes_mseq; [apply decodes_read_be; cbn; lia|]).
  eapply (decodes_mseq _ _ [] []); [apply decodes_no_trailing|apply decodes_mret].
Qed.

Lemma parse_option_request_header_sound input h :
  zlen input ≤ u64_max → parse_option_request_header input = Ok h →
  is_u32 (orq_option h) ∧ is_u32 (orq_payload_len h) ∧
  input = option_request_bytes (orq_option h) (orq_payload_len h).
Proof.
  intros Hl H. eapply run_determines in H as (bs & rest & -> & H);
    [|done|unfold read_u32, read_u64; determine].
  destruct H as (m & ? & ? & -> & [Hm ->] & H).
  destruct (Z.eqb_spec m IHAVEOPT_MAGIC) as [->|]; cbn [negb] in H; [|done].
  destruct H as (o & ? & ? & -> & [Ho ->] & n & ? & ? & -> & [Hn ->] & [] & ? & ? & -> &
    [-> Hr] & -> & ->). cbn in Hr. subst rest. cbn [orq_option orq_payload_len].
  unfold is_u32, u32_max. cbn in Ho, Hn. split_and!; try lia. by rewrite app_nil_r.
Qed.

Lemma parse_option_reply_header_accepts o t n :
  is_u32 o → is_u32 t → is_u32 n →
  parse_option_reply_header (option_reply_bytes o t n) = Ok (mkOptRepHeader o t n).
Proof.
  unfold is_u32, u32_max. intros Ho Ht Hn. apply run_decodes; [by rewrite option_reply_bytes_length|].
  eapply decodes_mseq; [apply decodes_read_be; by_compute|]. rewrite Z.eqb_refl. cbn [negb].
  do 3 (eapply decodes_mseq; [apply decodes_read_be; cbn; lia|]).
  eapply (decodes_mseq _ _ [] []); [apply decodes_no_trailing|apply decodes_mret].
Qed.

Lemma parse_option_reply_header_sound input h :
  zlen input ≤ u64_max → parse_option_reply_header input = Ok h →
  is_u32 (orp_option h) ∧ is_u32 (orp_reply_type h) ∧ is_u32 (orp_payload_len h) ∧
  input = option_reply_bytes (orp_option h) (orp_reply_type h) (orp_payload_len h).
Proof.
  intros Hl H. eapply run_determines in H as (bs & rest & -> & H);
    [|done|unfold read_u32, read_u64; determine].
  destruct H as (m & ? & ? & -> & [Hm ->] & H).
  destruct (Z.eqb_spec m OPTION_REPLY_MAGIC) as [->|]; cbn [negb] in H; [|done].
  destruct H as (o & ? & ? & -> & [Ho ->] & t & ? & ? & -> & [Ht ->] & n & ? & ? & -> & [Hn ->] &
    [] & ? & ? & -> & [-> Hr] & -> & ->). cbn in Hr. subst rest.
  cbn [orp_option orp_reply_type orp_payload_len].
  unfold is_u32, u32_max. cbn in Ho, Ht, Hn. split_and!; try lia. by rewrite app_nil_r.
Qed.

(** *** The [NBD_OPT_GO] payload *)

Definition go_payload (name : list byte) (infos : list Z) : list byte :=
  be_bytes 4 (zlen name) ++ name ++ be_bytes 2 (zlen infos) ++ (infos ≫= be_bytes 2) ++ [].

Lemma write_u16s_app out infos : write_u16s out infos = out ++ (infos ≫= be_bytes 2).
Proof.
  revert out. induction infos as [|x infos IH]; intros out; cbn; [by rewrite app_nil_r|].
  unfold write_u16s in IH. rewrite IH. unfold write_u16. by rewrite <-app_assoc.
Qed.

Lemma read_u16s_decodes infos rest :
  Forall is_u16 infos → decodes (read_u16s (List.length infos)) (infos ≫= be_bytes 2) rest infos.
Proof.
  induction 1 as [|x infos Hx Hf IH]; [apply decodes_mret|]. cbn [List.length read_u16s].
  change (mbind _ _) with (be_bytes 2 x ++ (infos ≫= be_bytes 2)).
  eapply decodes_mseq; [apply decodes_read_be; unfold is_u16, u16_max in Hx; cbn; lia|].
  eapply decodes_mseq_nil; [apply IH|apply decodes_mret].
Qed.

Lemma read_u16s_determines n :
  determines (read_u16s n)
    (λ xs bs _, List.length xs = n ∧ Forall is_u16 xs ∧ bs = xs ≫= be_bytes 2).
Proof.
  induction n as [|n IH]; cbn [read_u16s].
  - eapply determines_weaken; [apply determines_mret|]. intros a bs rest [-> ->]. by split_and!.
  - eapply determines_mseq'; [apply determines_read_be| |].
    { intros x. eapply determines_mseq; [apply IH|intros xs; apply determines_mret]. }
    intros x b b1 b2 rest [Hx ->] (xs & ? & ? & -> & (Hl & Hf & ->) & -> & ->).
    cbn. split_and!; [by f_equal| |by rewrite app_nil_r].
    constructor; [|done]. unfold is_u16, u16_max. cbn in Hx. lia.
Qed.

Lemma encode_go_request_ok name infos out :
  encode_go_request name infos = Ok out ↔
  zlen (list_byte_of_string name) ≤ MAX_STRING_BYTES ∧ (x00 ∉ list_byte_of_string name) ∧
  zlen infos ≤ u16_max ∧
  encode_option_request NBD_OPT_GO (go_payload (list_byte_of_string name) infos) = Ok out.
Proof.
  unfold encode_go_request. set (bs := list_byte_of_string name).
  destruct (Z.ltb_spec MAX_STRING_BYTES (zlen bs)) as [Hn|Hn]; [naive_solver lia|].
  case_bool_decide as Hz; [naive_solver|]. unfold u16_try_from.
  destruct (Z.leb_spec (zlen infos) u16_max) as [Hi|Hi]; cbn [ok_or obind];
    [|split; [done|intros (_ & _ & Hi' & _); lia]].
  assert (write_u16s (write_u16 (write_u32 [] (as_u32 (zlen bs)) ++ bs) (zlen infos)) infos
          = go_payload bs infos) as ->; [|naive_solver].
  rewrite write_u16s_app, as_u32_id.
  - unfold go_payload, write_u16, write_u32. cbn [app]. by rewrite app_nil_r, <-!app_assoc.
  - pose proof (zlen_nonneg bs). unfold is_u32, u32_max, MAX_STRING_BYTES in *. lia.
Qed.

Lemma parse_go_payload_accepts name infos :
  zlen name ≤ MAX_STRING_BYTES → x00 ∉ name → utf8_valid name = true →
  zlen infos ≤ u16_max → Forall is_u16 infos →
  zlen (go_payload name infos) ≤ u64_max →
  parse_go_payload (go_payload name infos) = Ok (mkGo (string_of_list_byte name) infos).
Proof.
  intros Hn Hz Hu Hi Hf Hl. pose proof (zlen_nonneg name). pose proof (zlen_nonneg infos).
  apply run_decodes; [done|]. unfold MAX_STRING_BYTES, u16_max in *.
  eapply decodes_mseq; [apply decodes_read_be; cbn; lia|].
  destruct (Z.ltb_spec 4096 (zlen name)); [lia|].
  eapply decodes_mseq; [by apply decodes_read_bytes|].
  rewrite bool_decide_false by done. rewrite Hu. cbn [negb].
  eapply decodes_mseq; [apply decodes_read_be; cbn; lia|].
  eapply decodes_mseq.
  { assert (Z.to_nat (zlen infos) = List.length infos) as -> by (unfold zlen; lia).
    by apply read_u16s_decodes. }
  eapply (decodes_mseq _ _ [] []); [apply decodes_no_trailing|apply decodes_mret].
Qed.

Lemma parse_go_payload_sound payload go :
  zlen payload ≤ u64_max → parse_go_payload payload = Ok go →
  let name := list_byte_of_string (go_export_name go) in
  zlen name ≤ MAX_STRING_BYTES ∧ (x00 ∉ name) ∧ utf8_valid name = true ∧
  zlen (go_info_requests go) ≤ u16_max ∧ Forall is_u16 (go_info_requests go) ∧
  payload = go_payload name (go_info_requests go).
Proof.
  intros Hl (r & r' & Hr & <- & H)%run_reader_inv; [|done].
  apply mseq_inv in H as (n & r1 & H1 & H).
  apply read_be_inv in H1 as (Hn & -> & Hr1); [|done].
  destruct (Z.ltb_spec MAX_STRING_BYTES n) as [|Hmax]; [done|].
  apply mseq_inv in H as (name & r2 & H2 & H).
  apply read_bytes_inv in H2 as (<- & -> & Hr2); [|done|lia].
  case_bool_decide as Hz; [done|]. destruct (utf8_valid name) eqn:Hu; [|done]. cbn [negb] in H.
  apply mseq_inv in H as (c & r3 & H3 & H). apply read_be_inv in H3 as (Hc & -> & Hr3); [|done].
  apply mseq_inv in H as (xs & r4 & H4 & H).
  apply read_u16s_determines in H4 as (Hr4 & ? & -> & Hlen & Hf & ->); [|done].
  apply finish_inv in H as [-> ->]; [|done]. cbn [go_export_name go_info_requests].
  rewrite list_byte_of_string_of_list_byte. cbn in Hc.
  assert (zlen xs = c) as <- by (unfold zlen; lia). unfold u16_max.
  split_and!; try done. lia.
Qed.
End options.

Section option_theorems.
(** The part of [parse_option_request] before the payload is interpreted. *)
Lemma parse_option_request_framing input q :
  zlen input ≤ u64_max → parse_option_request input = Ok q →
  ∃ code payload,
    is_u32 code ∧ zlen payload ≤ MAX_OPTION_PAYLOAD_BYTES ∧
    input = option_request_bytes code (zlen payload) ++ payload ∧
    (if code =? NBD_OPT_GO then ∃ go, parse_go_payload payload = Ok go ∧ q = OptGo go
     else if code =? NBD_OPT_ABORT then q = OptAbort payload else q = OptUnknown code payload).
Proof.
  intros Hl (r & r' & Hr & <- & H)%run_reader_inv; [|done].
  apply mseq_inv in H as (hb & r1 & H1 & (h & ? & [Hh ->]%mlift_inv & H)%mseq_inv).
  apply read_bytes_inv in H1 as (Hlen & -> & Hr1); [|done|done].
  apply parse_option_request_header_sound in Hh as (Ho & Hn & ->); [|by rewrite Hlen].
  apply mseq_inv in H as (n & ? & [Hb ->]%mlift_inv & (p & r2 & H2 & H)%mseq_inv).
  apply bounded_payload_len_ok in Hb as [Hmax ->].
  apply read_bytes_inv in H2 as (Hp & -> & Hr2); [|done|apply Hn]. rewrite <-Hp in *.
  apply mseq_inv in H as ([] & r3 & H3 & H).
  pose proof (require_no_trailing_inv _ _ _ Hr2 H3) as ->. rewrite app_nil_r.
  exists (orq_option h), p. split_and!; try done.
  destruct (_ =? NBD_OPT_GO).
  - apply mseq_inv in H as (go & ? & [Hgo ->]%mlift_inv & [= <- <-]). eauto.
  - destruct (_ =? NBD_OPT_ABORT); by injection H as <- <-.
Qed.

Lemma parse_option_request_framed code payload q :
  is_u32 code → zlen payload ≤ MAX_OPTION_PAYLOAD_BYTES →
  (if code =? NBD_OPT_GO then ∃ go, parse_go_payload payload = Ok go ∧ q = OptGo go
   else if code =? NBD_OPT_ABORT then q = OptAbort payload else q = OptUnknown code payload) →
  parse_option_request (option_request_bytes code (zlen payload) ++ payload) = Ok q.
Proof.
  intros Hc Hn Hq. pose proof (zlen_nonneg payload). apply run_decodes.
  { rewrite zlen_app, option_request_bytes_length.
    unfold OPTION_REQUEST_HEADER_BYTES, MAX_OPTION_PAYLOAD_BYTES, u64_max in *. lia. }
  eapply decodes_mseq; [apply decodes_read_bytes; by rewrite option_request_bytes_length|].
  eapply (decodes_mseq _ _ [] _ _ (mkOptReqHeader code (zlen payload))).
  { rewrite parse_option_request_header_accepts; [apply decodes_mret|done|].
    unfold is_u32, MAX_OPTION_PAYLOAD_BYTES, u32_max in *. lia. }
  eapply (decodes_mseq _ _ [] _ _ (zlen payload)).
  { unfold request_bounded_payload_len. cbn [orq_payload_len].
    rewrite (proj2 (bounded_payload_len_ok _ _ (zlen payload))) by done. apply decodes_mret. }
  eapply decodes_mseq_nil; [by apply decodes_read_bytes|].
  eapply (decodes_mseq _ _ [] []); [apply decodes_no_trailing|]. cbn [orq_option].
  destruct (code =? NBD_OPT_GO).
  - destruct Hq as (go & -> & ->). apply decodes_mret.
  - destruct (code =? NBD_OPT_ABORT); subst q; apply decodes_mret.
Qed.

Lemma parse_option_request_accepts input q :
  option_typed q → encode_option q = Ok input → parse_option_request input = Ok q.
Proof.
  intros Ht He. destruct q as [go|p|code p]; cbn [encode_option] in He.
  + apply encode_go_request_ok in He as (Hn & Hz & Hi & [Hp ->]%encode_option_request_ok).
    destruct Ht as [Hu Hf]. apply parse_option_request_framed; [by_compute|done|].
    rewrite Z.eqb_refl. exists go. split; [|done]. rewrite parse_go_payload_accepts; try done.
    * destruct go. cbn [go_export_name go_info_requests].
      by rewrite string_of_list_byte_of_string.
    * unfold MAX_OPTION_PAYLOAD_BYTES, u64_max in *. lia.
  + apply encode_option_request_ok in He as [Hp ->].
    by apply parse_option_request_framed; [by_compute|done|].
  + apply encode_option_request_ok in He as [Hp ->]. destruct Ht as (Hc & Hgo & Hab).
    apply parse_option_request_framed; [done..|].
    by rewrite (proj2 (Z.eqb_neq _ _) Hgo), (proj2 (Z.eqb_neq _ _) Hab).
Qed.
End option_theorems.

(** C30: the option-request parser is exact: a byte string is accepted as option
    [q] if and only if [q] is well typed and the byte string is what the client
    library encodes for [q].  In particular an accepted [NBD_OPT_GO] has an
    export name of at most 4096 bytes of valid UTF-8 without NUL, the count of
    information requests it announces, and no trailing byte. *)
Theorem parse_option_request_exact input q :
  zlen input ≤ u64_max →
  parse_option_request input = Ok q ↔ option_typed q ∧ encode_option q = Ok input.
Proof.
  intros Hl. split.
  - intros (code & p & Hc & Hp & -> & Hq)%parse_option_request_framing; [|done].
    destruct (Z.eqb_spec code NBD_OPT_GO) as [->|Hgo].
    + destruct Hq as (go & Hgo & ->). apply parse_go_payload_sound in Hgo as
        (Hn & Hz & Hu & Hi & Hf & ->).
      * split; [done|]. apply encode_go_request_ok. split_and!; try done.
        by apply encode_option_request_ok.
      * unfold MAX_OPTION_PAYLOAD_BYTES, u64_max in *. lia.
    + destruct (Z.eqb_spec code NBD_OPT_ABORT) as [->|Hab]; subst q.
      all: split; [done|]; by apply encode_option_request_ok.
  - intros [Ht He]. by apply parse_option_request_accepts.
Qed.

(** The option request of the witness: [NBD_OPT_GO] for the export [vm] with one
    information request. *)
Definition sample_go : OptionRequest := OptGo (mkGo "vm" [NBD_INFO_BLOCK_SIZE]).

Lemma parse_option_request_exact_witness :
  ∃ input, encode_option sample_go = Ok input ∧ parse_option_request input = Ok sample_go.
Proof.
  eexists. split; [vm_compute; reflexivity|].
  apply parse_option_request_exact; [by_compute|]. split; [|vm_compute; reflexivity].
  split; [reflexivity|]. constructor; [by_compute|constructor].
Defined.

Section reply_theorems.
Lemma encode_export_info_reply_eq option size flags :
  encode_export_info_reply option size flags =
  encode_option_reply option NBD_REP_INFO
    (be_bytes 2 NBD_INFO_EXPORT ++ be_bytes 8 size ++ be_bytes 2 flags ++ []).
Proof.
  unfold encode_export_info_reply, write_u16, write_u64. cbn [app].
  by rewrite app_nil_r, <-!app_assoc.
Qed.

Lemma parse_info_reply_sound option payload r :
  zlen payload ≤ u64_max → is_u32 option → parse_info_reply option payload = Ok r →
  reply_typed r ∧ ∀ out, encode_option_reply option NBD_REP_INFO payload = Ok out →
  encode_reply r = Ok out.
Proof.
  intros Hl Ho (c & c' & Hc & <- & H)%run_reader_inv; [|done].
  apply mseq_inv in H as (k & r1 & H1 & H). apply read_be_inv in H1 as (Hk & Ha & Hr1); [|done].
  destruct (Z.eqb_spec k NBD_INFO_EXPORT) as [->|Hne].
  - rewrite Ha. apply mseq_inv in H as (s & r2 & H2 & (f & r3 & H3 & H)%mseq_inv).
    apply read_be_inv in H2 as (Hs & -> & Hr2); [|done].
    apply read_be_inv in H3 as (Hf & -> & Hr3); [|done].
    apply finish_inv in H as [-> ->]; [|done]. cbn [reply_typed encode_reply].
    rewrite encode_export_info_reply_eq. unfold is_u64, is_u16, u64_max, u16_max.
    cbn in Hs, Hf. split; [|done]. split_and!; [apply Ho..|lia|lia|lia|lia].
  - injection H as <- <-. split; [|intros out Hout; exact Hout]. split_and!; try done; try by_compute. intros _.
    exists k, (ahead r1). split_and!; try done; unfold is_u16, u16_max; cbn in Hk; lia.
Qed.

Lemma parse_option_reply_sound input r :
  zlen input ≤ u64_max → parse_option_reply input = Ok r →
  reply_typed r ∧ encode_reply r = Ok input.
Proof.
  intros Hl (c & c' & Hr & <- & H)%run_reader_inv; [|done].
  apply mseq_inv in H as (hb & r1 & H1 & (h & ? & [Hh ->]%mlift_inv & H)%mseq_inv).
  apply read_bytes_inv in H1 as (Hlen & -> & Hr1); [|done|done].
  apply parse_option_reply_header_sound in Hh as (Ho & Ht & Hn & ->); [|by rewrite Hlen].
  apply mseq_inv in H as (n & ? & [Hb ->]%mlift_inv & (p & r2 & H2 & H)%mseq_inv).
  apply bounded_payload_len_ok in Hb as [Hmax ->].
  apply read_bytes_inv in H2 as (Hp & -> & Hr2); [|done|apply Hn]. rewrite <-Hp in *.
  apply mseq_inv in H as ([] & r3 & H3 & H).
  pose proof (require_no_trailing_inv _ _ _ Hr2 H3) as ->. rewrite app_nil_r.
  assert (encode_option_reply (orp_option h) (orp_reply_type h) p =
          Ok (option_reply_bytes (orp_option h) (orp_reply_type h) (zlen p) ++ p)) as Henc
    by by apply encode_option_reply_ok.
  destruct (Z.eqb_spec (orp_reply_type h) NBD_REP_INFO) as [Hi|Hi].
  { apply mlift_inv in H as [H ->]. rewrite Hi in Henc |- *.
    apply parse_info_reply_sound in H as [? ?]; [by auto| |done].
    unfold MAX_OPTION_PAYLOAD_BYTES, u64_max in *. lia. }
  destruct (Z.eqb_spec (orp_reply_type h) NBD_REP_ACK) as [Ha|Ha].
  { rewrite Ha in Henc |- *. destruct p; [|done]. injection H as <- <-. done. }
  destruct (is_error_reply (orp_reply_type h)) eqn:He; injection H as <- <-; by split.
Qed.

Lemma parse_info_reply_other option payload info rest :
  is_u16 info → info ≠ NBD_INFO_EXPORT → zlen payload ≤ u64_max →
  payload = be_bytes 2 info ++ rest →
  parse_info_reply option payload = Ok (RepOther option NBD_REP_INFO payload).
Proof.
  intros Hi Hne Hl Hp. unfold parse_info_reply, run_reader.
  destruct (read_be_app (WireReader_new payload) 2 info rest) as (H & _).
  - by apply reader_new_ok.
  - done.
  - unfold is_u16, u16_max in Hi. cbn. lia.
  - rewrite (mseq_ok _ _ _ _ _ H). by rewrite (proj2 (Z.eqb_neq _ _) Hne).
Qed.

Lemma parse_info_reply_export option size flags :
  is_u64 size → is_u16 flags →
  parse_info_reply option (be_bytes 2 NBD_INFO_EXPORT ++ be_bytes 8 size ++ be_bytes 2 flags ++ [])
  = Ok (RepInfoExport option size flags).
Proof.
  unfold is_u64, is_u16, u64_max, u16_max. intros Hs Hf. apply run_decodes.
  { unfold zlen. by rewrite !length_app, !length_be_bytes. }
  eapply decodes_mseq; [apply decodes_read_be; by_compute|]. rewrite Z.eqb_refl.
  do 2 (eapply decodes_mseq; [apply decodes_read_be; cbn; lia|]).
  eapply (decodes_mseq _ _ [] []); [apply decodes_no_trailing|apply decodes_mret].
Qed.

(** Parsing a framed reply comes down to interpreting its payload. *)
Lemma parse_option_reply_framed option t payload r :
  is_u32 option → is_u32 t → zlen payload ≤ MAX_OPTION_PAYLOAD_BYTES →
  (if t =? NBD_REP_INFO then parse_info_reply option payload = Ok r
   else if t =? NBD_REP_ACK then payload = [] ∧ r = RepAck option
   else r = if is_error_reply t then RepError option t payload else RepOther option t payload) →
  parse_option_reply (option_reply_bytes option t (zlen payload) ++ payload) = Ok r.
Proof.
  intros Ho Ht Hn Hr. pose proof (zlen_nonneg payload). apply run_decodes.
  { rewrite zlen_app, option_reply_bytes_length.
    unfold OPTION_REPLY_HEADER_BYTES, MAX_OPTION_PAYLOAD_BYTES, u64_max in *. lia. }
  eapply decodes_mseq; [apply decodes_read_bytes; by rewrite option_reply_bytes_length|].
  eapply (decodes_mseq _ _ [] _ _ (mkOptRepHeader option t (zlen payload))).
  { rewrite parse_option_reply_header_accepts; [apply decodes_mret|done|done|].
    unfold is_u32, MAX_OPTION_PAYLOAD_BYTES, u32_max in *. lia. }
  eapply (decodes_mseq _ _ [] _ _ (zlen payload)).
  { unfold reply_bounded_payload_len. cbn [orp_payload_len].
    rewrite (proj2 (bounded_payload_len_ok _ _ (zlen payload))) by done. apply decodes_mret. }
  eapply decodes_mseq_nil; [by apply decodes_read_bytes|].
  eapply (decodes_mseq _ _ [] []); [apply decodes_no_trailing|]. cbn [orp_option orp_reply_type].
  destruct (t =? NBD_REP_INFO); [rewrite Hr; apply decodes_mret|].
  destruct (t =? NBD_REP_ACK); [destruct Hr as [-> ->]; apply decodes_mret|].
  destruct (is_error_reply t); subst r; apply decodes_mret.
Qed.
End reply_theorems.

(** The option-reply parser is exact: a byte string is accepted as reply [r]
    if and only if [r] is well typed and the byte string is the server's
    encoding of [r].  So the export size and flags the server announces are
    what the client reads. *)
Theorem parse_option_reply_exact input r :
  zlen input ≤ u64_max →
  parse_option_reply input = Ok r ↔ reply_typed r ∧ encode_reply r = Ok input.
Proof.
  intros Hl. split; [by apply parse_option_reply_sound|]. intros [Ht He].
  destruct r as [o s f|o|o t m|o t p]; cbn [encode_reply] in He.
  - rewrite encode_export_info_reply_eq in He. apply encode_option_reply_ok in He as [Hp ->].
    destruct Ht as (Ho & Hs & Hf). apply parse_option_reply_framed; [done|by_compute|done|].
    rewrite Z.eqb_refl. by apply parse_info_reply_export.
  - apply encode_option_reply_ok in He as [Hp ->].
    by apply parse_option_reply_framed; [done|by_compute|done|].
  - apply encode_option_reply_ok in He as [Hp ->]. destruct Ht as (Ho & Ht & Herr).
    apply parse_option_reply_framed; try done. rewrite Herr.
    destruct (Z.eqb_spec t NBD_REP_INFO) as [->|]; [by exfalso|].
    by destruct (Z.eqb_spec t NBD_REP_ACK) as [->|].
  - apply encode_option_reply_ok in He as [Hp ->]. destruct Ht as (Ho & Ht & Herr & Hack & Hinfo).
    apply parse_option_reply_framed; try done. rewrite Herr.
    destruct (Z.eqb_spec t NBD_REP_INFO) as [->|].
    + destruct Hinfo as (info & rest & Heq & Hi & Hne); [done|].
      eapply parse_info_reply_other; try done.
      unfold MAX_OPTION_PAYLOAD_BYTES, u64_max in *. lia.
    + by destruct (Z.eqb_spec t NBD_REP_ACK) as [->|].
Qed.

Lemma parse_option_reply_exact_witness :
  ∃ input, encode_export_info_reply NBD_OPT_GO 1048576 5 = Ok input ∧
           parse_option_reply input = Ok (RepInfoExport NBD_OPT_GO 1048576 5).
Proof.
  eexists. split; [vm_compute; reflexivity|].
  apply parse_option_reply_exact; [by_compute|]. by_compute.
Defined.
