(* ===== verification/ProtocolTransmission.v ===== *)
(** * Transmission messages

    The request and simple-reply messages of [nbd-protocol/transmission.rs]:
    header validation, encoders and parsers.  The theorems say that the parser
    accepts exactly the byte strings the encoders produce. *)

From S2P Require Import Prelude ProtocolWire.

#[local] Open Scope string_scope.
#[local] Open Scope list_scope.
#[local] Open Scope Z_scope.

Definition REQUEST_HEADER_BYTES : Z := 28.
Definition SIMPLE_REPLY_BYTES : Z := 16.
Definition MAX_IO_BYTES : Z := 64 * 1024 * 1024.

Record RequestHeader := mkHeader {
  rh_flags : Z;
  rh_command : Z;
  rh_cookie : Z;
  rh_offset : Z;
  rh_length : Z;
}.

Inductive TransmissionRequest : Type :=
| TReqRead (cookie offset length : Z)
| TReqWrite (cookie offset : Z) (data : list byte)
| TReqFlush (cookie : Z)
| TReqDisconnect (cookie : Z).

Definition TransmissionRequest_cookie (q : TransmissionRequest) : Z :=
  match q with
  | TReqRead cookie _ _ | TReqWrite cookie _ _ | TReqFlush cookie | TReqDisconnect cookie => cookie
  end.

Record SimpleReply := mkSimpleReply { sr_cookie : Z; sr_error : Z }.
Definition is_success (r : SimpleReply) : bool := sr_error r =? 0.
Record ReadReply := mkReadReply { rr_cookie : Z; rr_error : Z; rr_data : list byte }.

(** ** Validation *)

Definition validate_common_header (h : RequestHeader) : ProtoResult unit :=
  if negb (rh_flags h =? 0) then Err (UnsupportedCommandFlags (rh_flags h)) else Ok tt.

Definition validate_nonzero_len (command : string) (length : Z) : ProtoResult unit :=
  if length =? 0 then Err (InvalidRequest command "zero length is unsupported") else Ok tt.

Definition validate_effect_range (offset length : Z) : ProtoResult unit :=
  let? _ := ok_or (u64_checked_add offset length) (LengthOverflow offset length) in Ok tt.

Definition validate_io_len (field : string) (length max_io_bytes : Z) : ProtoResult unit :=
  if max_io_bytes <? length then Err (LengthTooLarge field length max_io_bytes) else Ok tt.

Definition validate_no_range (command : string) (offset length : Z) : ProtoResult unit :=
  if negb (offset =? 0) || negb (length =? 0) then
    Err (InvalidRequest command "offset and length must be zero")
  else Ok tt.

(** [RequestHeader::payload_len]. *)
Definition payload_len (h : RequestHeader) (max_io_bytes : Z) : ProtoResult Z :=
  let? _ := validate_common_header h in
  if rh_command h =? NBD_CMD_READ then
    let? _ := validate_nonzero_len "NBD_CMD_READ" (rh_length h) in
    let? _ := validate_effect_range (rh_offset h) (rh_length h) in
    let? _ := validate_io_len "read length" (rh_length h) max_io_bytes in
    Ok 0
  else if rh_command h =? NBD_CMD_WRITE then
    let? _ := validate_nonzero_len "NBD_CMD_WRITE" (rh_length h) in
    let? _ := validate_effect_range (rh_offset h) (rh_length h) in
    let? _ := validate_io_len "write payload" (rh_length h) max_io_bytes in
    Ok (rh_length h)
  else if rh_command h =? NBD_CMD_FLUSH then
    let? _ := validate_no_range "NBD_CMD_FLUSH" (rh_offset h) (rh_length h) in
    Ok 0
  else if rh_command h =? NBD_CMD_DISC then
    let? _ := validate_no_range "NBD_CMD_DISC" (rh_offset h) (rh_length h) in
    Ok 0
  else Err (UnsupportedCommand (rh_command h)).

(** ** Encoders *)

Definition encode_request_header (h : RequestHeader) : list byte :=
  let out := write_u32 [] NBD_REQUEST_MAGIC in
  let out := write_u16 out (rh_flags h) in
  let out := write_u16 out (rh_command h) in
  let out := write_u64 out (rh_cookie h) in
  let out := write_u64 out (rh_offset h) in
  write_u32 out (rh_length h).

Definition encode_read_request (cookie offset length : Z) : ProtoResult (list byte) :=
  let header := mkHeader 0 NBD_CMD_READ cookie offset length in
  let? _ := payload_len header MAX_IO_BYTES in
  Ok (encode_request_header header).

Definition encode_write_request (cookie offset : Z) (data : list byte) : ProtoResult (list byte) :=
  let? length := ok_or (u32_try_from (zlen data))
    (LengthTooLarge "write payload" (zlen data) u32_max) in
  let header := mkHeader 0 NBD_CMD_WRITE cookie offset length in
  let? _ := payload_len header MAX_IO_BYTES in
  let out := encode_request_header header in
  Ok (out ++ data).

Definition encode_zero_range_request (cookie command : Z) : ProtoResult (list byte) :=
  let header := mkHeader 0 command cookie 0 0 in
  let? _ := payload_len header MAX_IO_BYTES in
  Ok (encode_request_header header).

Definition encode_flush_request (cookie : Z) := encode_zero_range_request cookie NBD_CMD_FLUSH.
Definition encode_disconnect_request (cookie : Z) := encode_zero_range_request cookie NBD_CMD_DISC.

Definition encode_simple_reply (cookie error : Z) : list byte :=
  let out := write_u32 [] NBD_SIMPLE_REPLY_MAGIC in
  let out := write_u32 out error in
  write_u64 out cookie.

Definition encode_success_reply (cookie : Z) : list byte := encode_simple_reply cookie 0.

Definition encode_read_reply (cookie : Z) (data : list byte) : list byte :=
  encode_success_reply cookie ++ data.

(** ** Parsers *)

Definition parse_header : Reader RequestHeader :=
  let! magic := read_u32 in
  if negb (magic =? NBD_REQUEST_MAGIC) then
    mfail (InvalidMagic "transmission request" NBD_REQUEST_MAGIC magic)
  else
    let! flags := read_u16 in
    let! command := read_u16 in
    let! cookie := read_u64 in
    let! offset := read_u64 in
    let! length := read_u32 in
    mret (mkHeader flags command cookie offset length).

Definition require_no_payload : Reader unit := require_no_trailing.

Definition parse_request (input : list byte) (max_io_bytes : Z) : ProtoResult TransmissionRequest :=
  run_reader (
    let! header := parse_header in
    let! len := mlift (payload_len header max_io_bytes) in
    if rh_command header =? NBD_CMD_READ then
      let! _ := require_no_payload in
      mret (TReqRead (rh_cookie header) (rh_offset header) (rh_length header))
    else if rh_command header =? NBD_CMD_WRITE then
      let! data := read_bytes len in
      let! _ := require_no_trailing in
      mret (TReqWrite (rh_cookie header) (rh_offset header) data)
    else if rh_command header =? NBD_CMD_FLUSH then
      let! _ := require_no_payload in
      mret (TReqFlush (rh_cookie header))
    else if rh_command header =? NBD_CMD_DISC then
      let! _ := require_no_payload in
      mret (TReqDisconnect (rh_cookie header))
    else mfail (UnsupportedCommand (rh_command header))) input.

Definition parse_request_header (input : list byte) : ProtoResult RequestHeader :=
  run_reader (
    let! header := parse_header in
    let! _ := require_no_payload in
    mret header) input.

Definition parse_simple_reply (input : list byte) : ProtoResult SimpleReply :=
  run_reader (
    let! magic := read_u32 in
    if negb (magic =? NBD_SIMPLE_REPLY_MAGIC) then
      mfail (InvalidMagic "simple reply" NBD_SIMPLE_REPLY_MAGIC magic)
    else
      let! error := read_u32 in
      let! cookie := read_u64 in
      let! _ := require_no_trailing in
      mret (mkSimpleReply cookie error)) input.

Definition parse_read_reply (input : list byte) (expected_len : Z) : ProtoResult ReadReply :=
  run_reader (
    let! reply_bytes := read_bytes SIMPLE_REPLY_BYTES in
    let! reply := mlift (parse_simple_reply reply_bytes) in
    let data_len := if is_success reply then expected_len else 0 in
    let! data := read_bytes data_len in
    let! _ := require_no_trailing in
    mret (mkReadReply (sr_cookie reply) (sr_error reply) data)) input.

(** ** Exactness of the request parser *)

(** The header a request is sent with, and the bytes after it. *)
Definition request_header (q : TransmissionRequest) : RequestHeader :=
  match q with
  | TReqRead cookie offset length => mkHeader 0 NBD_CMD_READ cookie offset length
  | TReqWrite cookie offset data => mkHeader 0 NBD_CMD_WRITE cookie offset (zlen data)
  | TReqFlush cookie => mkHeader 0 NBD_CMD_FLUSH cookie 0 0
  | TReqDisconnect cookie => mkHeader 0 NBD_CMD_DISC cookie 0 0
  end.

Definition request_payload (q : TransmissionRequest) : list byte :=
  match q with TReqWrite _ _ data => data | _ => [] end.

(** The client-side encoder of each kind of request. *)
Definition encode_request (q : TransmissionRequest) : ProtoResult (list byte) :=
  match q with
  | TReqRead cookie offset length => encode_read_request cookie offset length
  | TReqWrite cookie offset data => encode_write_request cookie offset data
  | TReqFlush cookie => encode_flush_request cookie
  | TReqDisconnect cookie => encode_disconnect_request cookie
  end.

(** The fields fit their Rust types. *)
Definition header_typed (h : RequestHeader) : Prop :=
  is_u16 (rh_flags h) ∧ is_u16 (rh_command h) ∧ is_u64 (rh_cookie h) ∧
  is_u64 (rh_offset h) ∧ is_u32 (rh_length h).

Definition request_typed (q : TransmissionRequest) : Prop := header_typed (request_header q).

#[export] Instance header_typed_dec h : Decision (header_typed h).
Proof. unfold header_typed. apply _. Defined.

(** What a request may ask of the server: [offset + length] does not overflow
    and the length is neither zero nor above the limit. *)
Definition request_admissible (q : TransmissionRequest) (max_io_bytes : Z) : Prop :=
  match q with
  | TReqRead _ offset length =>
      length ≠ 0 ∧ offset + length ≤ u64_max ∧ length ≤ max_io_bytes
  | TReqWrite _ offset data =>
      zlen data ≠ 0 ∧ offset + zlen data ≤ u64_max ∧ zlen data ≤ max_io_bytes
  | TReqFlush _ | TReqDisconnect _ => True
  end.

#[export] Instance request_admissible_dec q max : Decision (request_admissible q max).
Proof. destruct q; cbn; apply _. Defined.

Section requests.
Implicit Types (h : RequestHeader) (q : TransmissionRequest).

Lemma validate_common_header_ok h : validate_common_header h = Ok tt ↔ rh_flags h = 0.
Proof. unfold validate_common_header. case_bool; naive_solver. Qed.

Lemma validate_nonzero_len_ok c n : validate_nonzero_len c n = Ok tt ↔ n ≠ 0.
Proof. unfold validate_nonzero_len. case_bool; naive_solver. Qed.

Lemma validate_effect_range_ok o n : validate_effect_range o n = Ok tt ↔ o + n ≤ u64_max.
Proof. unfold validate_effect_range, u64_checked_add. case_bool; naive_solver lia. Qed.

Lemma validate_io_len_ok f n max : validate_io_len f n max = Ok tt ↔ n ≤ max.
Proof. unfold validate_io_len. case_bool; naive_solver lia. Qed.

Lemma validate_no_range_ok c o n : validate_no_range c o n = Ok tt ↔ o = 0 ∧ n = 0.
Proof. unfold validate_no_range. case_bool; naive_solver lia. Qed.

(** The checks [payload_len] makes of a request with an effect range. *)
Lemma range_checks_ok c f o n max (m k : Z) :
  obind (validate_nonzero_len c n) (λ _, obind (validate_effect_range o n)
    (λ _, obind (validate_io_len f n max) (λ _, Ok m))) = Ok k ↔
  (n ≠ 0 ∧ o + n ≤ u64_max ∧ n ≤ max) ∧ m = k.
Proof.
  destruct (validate_nonzero_len c n) as [[]|e|] eqn:Hn; cbn;
    [apply validate_nonzero_len_ok in Hn|rewrite <-(validate_nonzero_len_ok c), Hn; naive_solver..].
  destruct (validate_effect_range o n) as [[]|e|] eqn:Ho; cbn;
    [apply validate_effect_range_ok in Ho|rewrite <-validate_effect_range_ok, Ho; naive_solver..].
  destruct (validate_io_len f n max) as [[]|e|] eqn:Hm; cbn;
    [apply validate_io_len_ok in Hm|rewrite <-(validate_io_len_ok f n max), Hm; naive_solver..].
  naive_solver.
Qed.

(** [payload_len] accepts the header of a request exactly when the request
    is admissible, and then counts its payload. *)
Lemma payload_len_request q max :
  request_admissible q max ↔
  payload_len (request_header q) max = Ok (zlen (request_payload q)).
Proof.
  destruct q as [c o n|c o d|c|c]; [| |done..].
  - change (payload_len _ _) with
      (obind (validate_nonzero_len "NBD_CMD_READ" n) (λ _, obind (validate_effect_range o n)
        (λ _, obind (validate_io_len "read length" n max) (λ _, Ok 0)))).
    rewrite range_checks_ok. cbn. naive_solver.
  - change (payload_len _ _) with
      (obind (validate_nonzero_len "NBD_CMD_WRITE" (zlen d))
        (λ _, obind (validate_effect_range o (zlen d))
        (λ _, obind (validate_io_len "write payload" (zlen d) max) (λ _, Ok (zlen d))))).
    rewrite range_checks_ok. cbn. naive_solver.
Qed.

Lemma payload_len_not_panic h max : payload_len h max ≠ Panic.
Proof.
  unfold payload_len, validate_common_header, validate_nonzero_len, validate_effect_range,
    validate_io_len, validate_no_range, u64_checked_add. case_bool; cbn; congruence.
Qed.

Lemma payload_len_nonneg h max n :
  header_typed h → payload_len h max = Ok n → 0 ≤ n.
Proof.
  intros (_ & _ & _ & _ & [Hl _]). unfold payload_len. intros H. inv_ok.
  case_bool; inv_ok; lia.
Qed.

(** A header that [payload_len] accepts is the header of a request. *)
Lemma payload_len_cases h max n :
  payload_len h max = Ok n →
  (rh_command h = NBD_CMD_READ ∧
     h = request_header (TReqRead (rh_cookie h) (rh_offset h) (rh_length h))) ∨
  (rh_command h = NBD_CMD_WRITE ∧ n = rh_length h ∧
     h = mkHeader 0 NBD_CMD_WRITE (rh_cookie h) (rh_offset h) (rh_length h)) ∨
  (rh_command h = NBD_CMD_FLUSH ∧ h = request_header (TReqFlush (rh_cookie h))) ∨
  (rh_command h = NBD_CMD_DISC ∧ h = request_header (TReqDisconnect (rh_cookie h))).
Proof.
  unfold payload_len. intros H. inv_ok. destruct x.
  apply validate_common_header_ok in Hx. destruct h as [f c k o l]. cbn in *. subst f.
  destruct (Z.eqb_spec c NBD_CMD_READ); [left; by subst|].
  destruct (Z.eqb_spec c NBD_CMD_WRITE); [inv_ok; right; left; done|].
  destruct (Z.eqb_spec c NBD_CMD_FLUSH).
  { inv_ok. destruct x. apply validate_no_range_ok in Hx as [-> ->]. naive_solver. }
  destruct (Z.eqb_spec c NBD_CMD_DISC); [|done].
  inv_ok. destruct x. apply validate_no_range_ok in Hx as [-> ->]. naive_solver.
Qed.

Lemma encode_request_header_app h :
  encode_request_header h =
    be_bytes 4 NBD_REQUEST_MAGIC ++ be_bytes 2 (rh_flags h) ++ be_bytes 2 (rh_command h) ++
    be_bytes 8 (rh_cookie h) ++ be_bytes 8 (rh_offset h) ++ be_bytes 4 (rh_length h) ++ [].
Proof.
  unfold encode_request_header, write_u16, write_u32, write_u64. cbn [app].
  by rewrite app_nil_r, <-!app_assoc.
Qed.

Lemma encode_request_header_length h : zlen (encode_request_header h) = REQUEST_HEADER_BYTES.
Proof.
  unfold zlen. rewrite encode_request_header_app, !length_app, !length_be_bytes. done.
Qed.

Lemma parse_header_decodes h rest :
  header_typed h → decodes parse_header (encode_request_header h) rest h.
Proof.
  intros (Hf & Hc & Hk & Ho & Hl). rewrite encode_request_header_app.
  unfold is_u16, is_u32, is_u64, u16_max, u32_max, u64_max in *.
  eapply decodes_mseq; [apply decodes_read_be; vm_compute; split; congruence|].
  rewrite Z.eqb_refl. cbn [negb].
  do 5 (eapply decodes_mseq; [apply decodes_read_be; cbn; lia|]).
  destruct h; apply decodes_mret.
Qed.

Lemma parse_header_determines :
  determines parse_header (λ h bs _, header_typed h ∧ bs = encode_request_header h).
Proof.
  eapply determines_weaken; [unfold parse_header, read_u16, read_u32, read_u64; determine|].
  intros h bs rest (m & b1 & b2 & -> & [Hm ->] & H). cbv beta in H.
  destruct (Z.eqb_spec m NBD_REQUEST_MAGIC) as [->|]; cbn [negb] in H; [|done].
  destruct H as (f & ? & ? & -> & [Hf ->] & c & ? & ? & -> & [Hc ->] & k & ? & ? & -> & [Hk ->] &
    o & ? & ? & -> & [Ho ->] & l & ? & ? & -> & [Hl ->] & -> & ->).
  split; [|by rewrite encode_request_header_app].
  unfold header_typed, is_u16, is_u32, is_u64, u16_max, u32_max, u64_max. cbn in *. lia.
Qed.

Lemma payload_len_request_inv q max n :
  payload_len (request_header q) max = Ok n → n = zlen (request_payload q).
Proof.
  intros H. pose proof H as H'. apply payload_len_cases in H'. destruct q; cbn in H'.
  - unfold payload_len in H. cbn -[validate_nonzero_len validate_effect_range
      validate_io_len] in H. by inv_ok.
  - destruct H' as [[? _]|[(_ & -> & _)|[[? _]|[? _]]]]; done.
  - unfold payload_len in H. by injection H.
  - unfold payload_len in H. by injection H.
Qed.

(** Every encoder validates the header, then writes it and the payload. *)
Lemma encode_request_eq q :
  zlen (request_payload q) ≤ u32_max →
  encode_request q =
    obind (payload_len (request_header q) MAX_IO_BYTES)
      (λ _, Ok (encode_request_header (request_header q) ++ request_payload q)).
Proof.
  intros Hl. destruct q; cbn [encode_request request_payload]; rewrite ?app_nil_r; try done.
  unfold encode_write_request, u32_try_from. cbn in Hl. by decide_cmp.
Qed.

Lemma encode_request_ok q out :
  encode_request q = Ok out ↔
  request_admissible q MAX_IO_BYTES ∧
  out = encode_request_header (request_header q) ++ request_payload q.
Proof.
  destruct (decide (zlen (request_payload q) ≤ u32_max)) as [Hl|Hl].
  - rewrite payload_len_request, encode_request_eq, obind_ok by done. split.
    + intros (n & Hn & [= <-]). rewrite Hn. by rewrite (payload_len_request_inv _ _ _ Hn).
    + intros [Hn ->]. eauto.
  - destruct q as [c o n|c o d|c|c]; cbn [request_payload] in Hl; try by destruct Hl.
    cbn [encode_request]. unfold encode_write_request, u32_try_from.
    destruct (Z.leb_spec (zlen d) u32_max); [done|]. split; [done|].
    unfold MAX_IO_BYTES, u32_max in *. intros ((_ & _ & Hx) & _). lia.
Qed.

Lemma request_payload_typed q : request_typed q → zlen (request_payload q) ≤ u32_max.
Proof. destruct q; cbn; try (intros; done). intros (_ & _ & _ & _ & [_ H]). done. Qed.

Lemma parse_request_accepts q max :
  request_typed q → request_admissible q max →
  parse_request (encode_request_header (request_header q) ++ request_payload q) max = Ok q.
Proof.
  intros Ht Ha. apply run_decodes.
  { rewrite zlen_app, encode_request_header_length.
    apply request_payload_typed in Ht. unfold REQUEST_HEADER_BYTES, u32_max, u64_max in *. lia. }
  eapply decodes_mseq; [by apply parse_header_decodes|].
  eapply (decodes_mseq _ _ [] _ _ (zlen (request_payload q))).
  { apply payload_len_request in Ha. rewrite Ha. apply decodes_mret. }
  destruct q as [c o n|c o d|c|c]; cbn [request_header rh_command request_payload]; eval_cmp.
  2: eapply decodes_mseq_nil; [by apply decodes_read_bytes|].
  all: eapply (decodes_mseq _ _ [] []); [apply decodes_no_trailing|apply decodes_mret].
Qed.

Lemma parse_request_sound input max q :
  zlen input ≤ u64_max → parse_request input max = Ok q →
  request_typed q ∧ request_admissible q max ∧
  input = encode_request_header (request_header q) ++ request_payload q.
Proof.
  intros Hl (r & r' & Hr & <- & H)%run_reader_inv; [|done].
  apply mseq_inv in H as (h & r1 & H1 & (n & ? & [Hn ->]%mlift_inv & H)%mseq_inv).
  apply parse_header_determines in H1 as (Hr1 & bs & -> & Ht & ->); [|done].
  pose proof Hn as [(Hc & Hh)|[(Hc & -> & Hh)|[(Hc & Hh)|(Hc & Hh)]]]%payload_len_cases;
    rewrite Hc in H; revert H; eval_cmp; intros H.
  1,3,4: apply finish_inv in H as [-> ->]; [|done]; rewrite Hh in Ht, Hn |- * at 1;
    split_and!; [done| |by rewrite Hh at 1];
    apply payload_len_request; by rewrite <-(payload_len_request_inv _ _ _ Hn).
  apply mseq_inv in H as (d & r2 & H2 & H).
  apply read_bytes_inv in H2 as (Hd & -> & Hr2); [|done|apply Ht].
  apply finish_inv in H as [-> ->]; [|done]. rewrite app_nil_r. rewrite <-Hd in *.
  unfold request_typed. cbn [request_header request_payload]. rewrite <-Hh.
  split_and!; [done| |done].
  apply (payload_len_request (TReqWrite _ _ d)). cbn [request_header request_payload].
  by rewrite <-Hh.
Qed.

Lemma parse_header_total : reader_total parse_header.
Proof.
  unfold parse_header, read_u16, read_u32, read_u64. reader_total.
Qed.
End requests.

(** ** Theorems *)

(** C29: the request parser is exact.  A byte string is accepted as request [q]
    if and only if the fields of [q] fit their types, its effect range is not
    empty, does not overflow and respects the configured limit, and the byte
    string is the encoding the client library produces for [q].  So every
    accepted message is canonical and every encoded message is accepted. *)
Theorem parse_request_exact input max q :
  zlen input ≤ u64_max → max ≤ MAX_IO_BYTES →
  parse_request input max = Ok q ↔
  request_typed q ∧ request_admissible q max ∧ encode_request q = Ok input.
Proof.
  intros Hl Hmax. rewrite encode_request_ok. split.
  - intros H. apply parse_request_sound in H as (Ht & Ha & ->); [|done].
    split_and!; try done. destruct q; cbn in *; lia.
  - intros (Ht & Ha & _ & ->). by apply parse_request_accepts.
Qed.

Lemma parse_request_exact_witness :
  parse_request (encode_request_header (mkHeader 0 NBD_CMD_WRITE 7 4096 2) ++ [x00; x00]) MAX_IO_BYTES
  = Ok (TReqWrite 7 4096 [x00; x00]).
Proof.
  apply (parse_request_exact _ MAX_IO_BYTES (TReqWrite 7 4096 [x00; x00]));
    [vm_compute; congruence | vm_compute; congruence | split_and!].
  - apply (bool_decide_unpack _). vm_compute. exact I.
  - apply (bool_decide_unpack _). vm_compute. exact I.
  - vm_compute. reflexivity.
Defined.

(** The request parser is total: no byte string of any shape makes it
    panic, whatever the limit. *)
Theorem parse_request_no_panic input max :
  zlen input ≤ u64_max → parse_request input max ≠ Panic.
Proof.
  intros Hl. apply run_reader_no_panic; [done|].
  eapply total_mseq_post; [apply parse_header_total|apply parse_header_determines|].
  intros h bs rest [Ht _].
  eapply total_mseq_post; [apply total_mlift, payload_len_not_panic|apply determines_mlift|].
  intros n bs' rest' [Hn _]. apply payload_len_nonneg in Hn; [|done].
  unfold require_no_payload. repeat apply total_if; try by reader_total.
  apply total_mseq; [by apply total_read_bytes|]. intros d. by reader_total.
Qed.

Lemma parse_request_no_panic_witness : parse_request [x00] MAX_IO_BYTES ≠ Panic.
Proof. apply parse_request_no_panic. vm_compute. congruence. Defined.

Section replies.
Lemma encode_simple_reply_app cookie error :
  encode_simple_reply cookie error =
    be_bytes 4 NBD_SIMPLE_REPLY_MAGIC ++ be_bytes 4 error ++ be_bytes 8 cookie ++ [].
Proof.
  unfold encode_simple_reply, write_u32, write_u64. cbn [app].
  by rewrite app_nil_r, <-!app_assoc.
Qed.

Lemma encode_simple_reply_length cookie error :
  zlen (encode_simple_reply cookie error) = SIMPLE_REPLY_BYTES.
Proof.
  unfold zlen. by rewrite encode_simple_reply_app, !length_app, !length_be_bytes.
Qed.

Lemma parse_simple_reply_accepts cookie error :
  is_u64 cookie → is_u32 error →
  parse_simple_reply (encode_simple_reply cookie error) = Ok (mkSimpleReply cookie error).
Proof.
  intros Hc He. unfold is_u64, is_u32, u64_max, u32_max in *. apply run_decodes.
  { by rewrite encode_simple_reply_length. }
  rewrite encode_simple_reply_app.
  eapply decodes_mseq; [apply decodes_read_be; vm_compute; split; congruence|].
  rewrite Z.eqb_refl. cbn [negb].
  do 2 (eapply decodes_mseq; [apply decodes_read_be; cbn; lia|]).
  eapply (decodes_mseq _ _ [] []); [apply decodes_no_trailing|apply decodes_mret].
Qed.

Lemma parse_simple_reply_sound input r :
  zlen input ≤ u64_max → parse_simple_reply input = Ok r →
  is_u64 (sr_cookie r) ∧ is_u32 (sr_error r) ∧
  input = encode_simple_reply (sr_cookie r) (sr_error r).
Proof.
  intros Hl H. eapply run_determines in H as (bs & rest & -> & H);
    [|done|unfold read_u32, read_u64; determine].
  destruct H as (m & ? & ? & -> & [Hm ->] & H).
  destruct (Z.eqb_spec m NBD_SIMPLE_REPLY_MAGIC) as [->|]; cbn [negb] in H; [|done].
  destruct H as (e & ? & ? & -> & [He ->] & c & ? & ? & -> & [Hc ->] & [] & ? & ? & -> &
    [-> Hr] & -> & ->). cbn in Hr. subst rest. cbn [sr_cookie sr_error].
  unfold is_u64, is_u32, u64_max, u32_max. cbn in Hc, He.
  split_and!; try lia. by rewrite encode_simple_reply_app, app_nil_r.
Qed.
End replies.

(** The reply a client parses is the reply the server encoded.  For a read
    of [expected_len] bytes, an accepted reply is either a success carrying
    exactly that many bytes after the 16-byte header, or an error reply that
    carries none; and each such message is accepted. *)
Theorem parse_read_reply_exact input expected_len r :
  zlen input ≤ u64_max → 0 ≤ expected_len →
  parse_read_reply input expected_len = Ok r ↔
  is_u64 (rr_cookie r) ∧ is_u32 (rr_error r) ∧
  zlen (rr_data r) = (if rr_error r =? 0 then expected_len else 0) ∧
  input = encode_simple_reply (rr_cookie r) (rr_error r) ++ rr_data r.
Proof.
  intros Hl He. split.
  - intros (c & c' & Hc & <- & H)%run_reader_inv; [|done].
    apply mseq_inv in H as (bs & r1 & H1 & (s & ? & [Hs ->]%mlift_inv & H)%mseq_inv).
    apply read_bytes_inv in H1 as (Hlen & Ha & Hr1); [|done|done].
    apply parse_simple_reply_sound in Hs as (Hk & Herr & ->); [|by rewrite Hlen].
    apply mseq_inv in H as (d & r2 & H2 & H).
    apply read_bytes_inv in H2 as (Hd & Ha2 & Hr2); [|done|by destruct (is_success s)].
    apply finish_inv in H as [Ha3 ->]; [|done]. cbn. rewrite Ha, Ha2, Ha3, app_nil_r. done.
  - intros (Hk & Herr & Hd & ->). destruct r as [k e d].
    cbn [rr_cookie rr_error rr_data] in *. apply run_decodes; [done|].
    eapply decodes_mseq; [apply decodes_read_bytes; by rewrite encode_simple_reply_length|].
    eapply (decodes_mseq _ _ [] _ _ (mkSimpleReply k e)).
    { unfold mlift. rewrite parse_simple_reply_accepts by done. apply decodes_mret. }
    eapply decodes_mseq_nil; [by apply decodes_read_bytes|].
    eapply (decodes_mseq _ _ [] []); [apply decodes_no_trailing|apply decodes_mret].
Qed.

Lemma parse_read_reply_exact_witness :
  parse_read_reply (encode_read_reply 9 [x00; x00; x00]) 3 = Ok (mkReadReply 9 0 [x00; x00; x00]).
Proof.
  apply (parse_read_reply_exact _ 3); [by_compute | lia | by_compute].
Defined.
