(* ===== verification/Server.v ===== *)
(** * Server-wide types

    The error type ([nbd-server/src/error.rs]) and the byte ranges
    ([nbd-server/src/range.rs]) that every part of the server shares. *)

From S2P Require Import Prelude ControlPlane ProtocolWire.

#[local] Open Scope string_scope.
#[local] Open Scope list_scope.
#[local] Open Scope Z_scope.

(** ** Errors (error.rs)

    The [source] of an [Io] error is an opaque [std::io::Error]; only its
    display is kept, in [message]. *)

Inductive ServerError : Type :=
| ExportTooLarge (name : ExportName) (size_bytes max_size_bytes : Z)
| ExportBusy (name : ExportName)
| ExportOwnerMismatch (name : ExportName)
| OutOfBounds (operation : string) (offset length size_bytes : Z)
| LockPoisoned (resource : string)
| RuntimeClosed (resource : string)
| BlobAlreadyExists (context : string) (key : BlobKey)
| SIo (context message : string)
| SProtocol (source : ProtocolError)
| SCatalog (message : string) (source : option CatalogError)
| SWal (context message : string).

Abbreviation SResult A := (outcome ServerError A) (only parsing).

(** [ServerError::io] applied to an error that displays as [message]. *)
Definition ServerError_io (context message : string) : ServerError := SIo context message.
Definition ServerError_catalog (source : CatalogError) : ServerError :=
  SCatalog (CatalogError_display source) (Some source).
Definition ServerError_wal (context message : string) : ServerError := SWal context message.

Inductive RequestFailureLogLevel : Type := LogDebug | LogWarn.

Definition request_failure_log_level (e : ServerError) : RequestFailureLogLevel :=
  match e with
  | OutOfBounds _ _ _ _ | SProtocol _ => LogDebug
  | ExportTooLarge _ _ _ | ExportBusy _ | ExportOwnerMismatch _ | LockPoisoned _
  | RuntimeClosed _ | BlobAlreadyExists _ _ | SIo _ _ | SCatalog _ _ | SWal _ _ => LogWarn
  end.

(** ** Byte ranges (range.rs) *)

Record ByteRange := mkRange { br_start : Z; br_len : Z }.

#[export] Instance ByteRange_eq_dec : EqDecision ByteRange.
Proof. solve_decision. Defined.

Definition br_is_empty (r : ByteRange) : bool := br_len r =? 0.
Definition checked_end (r : ByteRange) : option Z := u64_checked_add (br_start r) (br_len r).
Definition br_end (r : ByteRange) : Z := u64_saturating_add (br_start r) (br_len r).
Definition overlaps (a b : ByteRange) : bool :=
  (br_start a <? br_end b) && (br_start b <? br_end a).

(** A range whose fields fit [u64] and [u32] and whose end does not overflow. *)
Definition range_ok (r : ByteRange) : Prop :=
  0 ≤ br_start r ∧ is_u32 (br_len r) ∧ br_start r + br_len r ≤ u64_max.

#[export] Instance range_ok_dec r : Decision (range_ok r).
Proof. unfold range_ok. apply _. Defined.

(** The bytes a range names. *)
Definition in_byte_range (r : ByteRange) (x : Z) : Prop := br_start r ≤ x < br_start r + br_len r.

Section ranges.
Implicit Types a b r : ByteRange.

Lemma br_end_ok r : range_ok r → br_end r = br_start r + br_len r.
Proof. intros (? & ? & ?). unfold br_end, u64_saturating_add. lia. Qed.

Lemma checked_end_ok r : range_ok r → checked_end r = Some (br_start r + br_len r).
Proof. intros (? & ? & ?). by apply u64_checked_add_Some. Qed.

Lemma overlaps_sym a b : overlaps a b = overlaps b a.
Proof. unfold overlaps. apply andb_comm. Qed.

(** For non-empty ranges, [overlaps] is having a byte in common. *)
Lemma overlaps_spec a b :
  range_ok a → range_ok b → br_len a ≠ 0 → br_len b ≠ 0 →
  overlaps a b = true ↔ ∃ x, in_byte_range a x ∧ in_byte_range b x.
Proof.
  intros Ha Hb Hna Hnb. unfold overlaps, in_byte_range. rewrite !br_end_ok by done.
  rewrite andb_true_iff, !Z.ltb_lt. unfold range_ok, is_u32 in *. split.
  - intros. exists (Z.max (br_start a) (br_start b)). lia.
  - intros (x & ? & ?). lia.
Qed.

Lemma overlaps_false a b :
  range_ok a → range_ok b →
  overlaps a b = false →
  ∀ x, in_byte_range a x → in_byte_range b x → False.
Proof.
  intros Ha Hb. unfold overlaps, in_byte_range. rewrite !br_end_ok by done.
  rewrite andb_false_iff, !Z.ltb_ge. unfold range_ok, is_u32 in *. lia.
Qed.
End ranges.
