(* ===== verification/ExtentMap.v ===== *)
(** * Extent maps

    The interval map of [engines/wal_durable/extent_map.rs]: disjoint half-open
    extents keyed by their start in a [BTreeMap].  The overlay and the read
    cache are built on it.  The map is generic in its value type; a client
    gives the function that re-bases a value when an extent is cut. *)

From S2P Require Import Prelude BTree ControlPlane Server.

#[local] Open Scope string_scope.
#[local] Open Scope list_scope.
#[local] Open Scope Z_scope.

Record Extent (V : Type) := mkExtent { ext_end : Z; ext_value : V }.
Arguments mkExtent {V}. Arguments ext_end {V}. Arguments ext_value {V}.

(** [ExtentEntry] and [ExtentRef], which differ only in ownership. *)
Record ExtentEntry (V : Type) := mkEntry { ee_start : Z; ee_end : Z; ee_value : V }.
Arguments mkEntry {V}. Arguments ee_start {V}. Arguments ee_end {V}. Arguments ee_value {V}.

Definition invalid_extent (message : string) : ServerError := ServerError_wal "extent map" message.

Definition validate_extent (start end_ : Z) : SResult unit :=
  if end_ <=? start then Err (invalid_extent "extent start {start} must be before end {end}")
  else Ok tt.

Section operations.
Context {V : Type}.
Implicit Types (m : btree (Extent V)) (x : Extent V) (refs : list (ExtentEntry V)).

Definition ExtentEntry_new (start end_ : Z) (value : V) : SResult (ExtentEntry V) :=
  let? _ := validate_extent start end_ in Ok (mkEntry start end_ value).

Definition extent_ref (start : Z) x : ExtentEntry V := mkEntry start (ext_end x) (ext_value x).

Definition em_new : btree (Extent V) := [].
Definition em_len m : Z := zlen m.
Definition em_is_empty m : bool := match m with [] => true | _ => false end.
Definition em_iter m : list (ExtentEntry V) := (λ p, extent_ref p.1 p.2) <$> m.
Definition em_get m (start : Z) : option (ExtentEntry V) := extent_ref start <$> bt_get start m.

(** The loop of [overlapping] over [range(start..)]. *)
Fixpoint overlapping_loop (end_ : Z) refs (rest : btree (Extent V)) : list (ExtentEntry V) :=
  match rest with
  | [] => refs
  | (extent_start, x) :: rest =>
      if end_ <=? extent_start then refs
      else if match last refs with Some existing => ee_start existing =? extent_start | None => false end
      then overlapping_loop end_ refs rest
      else overlapping_loop end_ (refs ++ [extent_ref extent_start x]) rest
  end.

Definition overlapping m (start end_ : Z) : SResult (list (ExtentEntry V)) :=
  if start =? end_ then Ok []
  else
    let? _ := validate_extent start end_ in
    let refs :=
      match bt_last_le start m with
      | Some (extent_start, x) => if start <? ext_end x then [extent_ref extent_start x] else []
      | None => []
      end in
    Ok (overlapping_loop end_ refs (bt_from start m)).

Definition ensure_no_overlap m (start end_ : Z) : SResult unit :=
  let? _ :=
    match bt_last_le start m with
    | Some (previous_start, previous) =>
        if start <? ext_end previous
        then Err (invalid_extent "new extent [{start}, {end}) overlaps existing [{previous_start}, {})")
        else Ok tt
    | None => Ok tt
    end in
  match bt_from start m with
  | (next_start, next) :: _ =>
      if next_start <? end_
      then Err (invalid_extent "new extent [{start}, {end}) overlaps existing [{next_start}, {})")
      else Ok tt
  | [] => Ok tt
  end.

(** The loop of [validate], with the end of the extent before. *)
Fixpoint validate_loop (previous_end : option Z) m : SResult unit :=
  match m with
  | [] => Ok tt
  | (start, x) :: m =>
      let? _ := validate_extent start (ext_end x) in
      let? _ :=
        match previous_end with
        | Some end_ =>
            if start <? end_ then Err (invalid_extent "extent map contains overlapping entries")
            else Ok tt
        | None => Ok tt
        end in
      validate_loop (Some (ext_end x)) m
  end.

Definition em_validate m : SResult unit := validate_loop None m.

Abbreviation EM A := (M (btree (Extent V)) ServerError A) (only parsing).

Definition insert_exact (start end_ : Z) (value : V) : EM unit :=
  let! _ := mlift (validate_extent start end_) in
  let! m := mget in
  let! _ := mlift (ensure_no_overlap m start end_) in
  mmodify (bt_insert start (mkExtent end_ value)).

(** The loop of [remove_overlapping] over the collected keys. *)
Fixpoint remove_keys (keys : list Z) : EM (list (ExtentEntry V)) :=
  match keys with
  | [] => mret []
  | key :: keys =>
      let! m := mget in
      let! x := mlift (ok_or (bt_get key m)
                  (invalid_extent "overlapping extent at {key} disappeared")) in
      let! _ := mput (bt_remove key m) in
      let! entry := mlift (ExtentEntry_new key (ext_end x) (ext_value x)) in
      let! removed := remove_keys keys in
      mret (entry :: removed)
  end.

Definition remove_overlapping (start end_ : Z) : EM (list (ExtentEntry V)) :=
  let! m := mget in
  let! refs := mlift (overlapping m start end_) in
  remove_keys (ee_start <$> refs).

Definition reinsert_tail (start end_ : Z) (split_value : V → Z → V) (extent : ExtentEntry V)
    : EM unit :=
  let! _ :=
    if ee_start extent <? start
    then insert_exact (ee_start extent) start (split_value (ee_value extent) 0) else mret tt in
  if end_ <? ee_end extent then
    let! delta := mlift (ok_or (u64_checked_sub end_ (ee_start extent))
                    (invalid_extent "right tail starts before removed extent start")) in
    insert_exact end_ (ee_end extent) (split_value (ee_value extent) delta)
  else mret tt.

Definition reinsert_tails (start end_ : Z) (removed : list (ExtentEntry V))
    (split_value : V → Z → V) : EM unit :=
  mfor removed (reinsert_tail start end_ split_value).

Definition insert_overwrite_with_split (start end_ : Z) (value : V) (split_value : V → Z → V)
    : EM (list (ExtentEntry V)) :=
  let! _ := mlift (validate_extent start end_) in
  let! removed := remove_overlapping start end_ in
  let! _ := reinsert_tails start end_ removed split_value in
  let! _ := insert_exact start end_ value in
  mret removed.

Definition remove_range_with_split (start end_ : Z) (split_value : V → Z → V)
    : EM (list (ExtentEntry V)) :=
  if start =? end_ then mret []
  else
    let! _ := mlift (validate_extent start end_) in
    let! removed := remove_overlapping start end_ in
    let! _ := reinsert_tails start end_ removed split_value in
    mret removed.
End operations.

(** ** Well-formed maps *)

Section theory.
Context {V : Type}.
Implicit Types (m : btree (Extent V)) (x : Extent V) (p q : Z * Extent V).

(** Sorted by start, no empty extent, no two extents with a byte in common. *)
Definition em_wf m : Prop :=
  bt_sorted m ∧
  (∀ p, p ∈ m → p.1 < ext_end p.2) ∧
  (∀ p q, p ∈ m → q ∈ m → p.1 < q.1 → ext_end p.2 ≤ q.1).

(** The extent of [p] meets [start, end_). *)
Definition meets (start end_ : Z) p : Prop := p.1 < end_ ∧ start < ext_end p.2.

#[global] Instance meets_dec start end_ p : Decision (meets start end_ p).
Proof. unfold meets. apply _. Defined.

Lemma em_wf_nil : em_wf (@nil (Z * Extent V)).
Proof. split; [apply bt_sorted_nil|]. set_solver. Qed.

Lemma em_wf_filter m (P : Z * Extent V → Prop) `{!∀ p, Decision (P p)} :
  em_wf m → em_wf (filter P m).
Proof.
  intros (Hs & Hne & Hd). split; [by apply bt_sorted_filter|]. split.
  - intros p Hp%list_elem_of_filter. naive_solver.
  - intros p q Hp%list_elem_of_filter Hq%list_elem_of_filter. naive_solver.
Qed.

Lemma em_wf_disjoint m p q :
  em_wf m → p ∈ m → q ∈ m → p.1 ≠ q.1 → ext_end p.2 ≤ q.1 ∨ ext_end q.2 ≤ p.1.
Proof.
  intros (Hs & Hne & Hd) Hp Hq Hpq.
  destruct (Z.lt_total p.1 q.1) as [Hl|[He|Hl]]; [left; by apply Hd|done|right; by apply Hd].
Qed.

Lemma em_wf_insert m start end_ (value : V) :
  em_wf m → start < end_ → (∀ p, p ∈ m → ¬ meets start end_ p) →
  em_wf (bt_insert start (mkExtent end_ value) m).
Proof.
  intros (Hs & Hne & Hd) Hlt Hno. split; [by apply bt_insert_sorted|]. unfold meets in Hno. split.
  - intros p [->|[Hp _]]%bt_insert_elem; [done|auto|done].
  - intros p q [->|[Hp _]]%bt_insert_elem [->|[Hq _]]%bt_insert_elem; try done; cbn.
    + lia.
    + specialize (Hno q Hq). specialize (Hne q Hq). lia.
    + specialize (Hno p Hp). lia.
    + by apply Hd.
Qed.

Lemma validate_extent_ok start end_ : validate_extent start end_ = Ok tt ↔ start < end_.
Proof. unfold validate_extent. case_bool; naive_solver lia. Qed.

Lemma validate_loop_ok prev m :
  bt_sorted m →
  validate_loop prev m = Ok tt ↔
  em_wf m ∧ (∀ p e, p ∈ m → prev = Some e → e ≤ p.1).
Proof.
  revert prev. induction m as [|[s x] m IH]; intros prev.
  { intros _. cbn. split; [intros _|done]. split; [apply em_wf_nil|set_solver]. }
  rewrite bt_sorted_cons. intros [Hlt Hs]. cbn [validate_loop]. split.
  - intros H. inv_ok. destruct x0, x1. apply validate_extent_ok in Hx.
    apply IH in H as [(_ & Hne & Hd) Hp]; [|done]. split; [split; [by apply bt_sorted_cons|]|].
    + split; [intros p [->|Hin]%elem_of_cons; cbn; auto|].
      intros p q [->|Hin]%elem_of_cons [->|Hin']%elem_of_cons; cbn; eauto; try lia.
      specialize (Hlt p Hin). cbn. lia.
    + intros p e Hin ->. destruct (Z.ltb_spec s e); [done|].
      apply elem_of_cons in Hin as [->|Hin]; [cbn; lia|]. specialize (Hlt p Hin). lia.
  - intros [(_ & Hne & Hd) Hp].
    rewrite (proj2 (validate_extent_ok _ _)); [|apply (Hne (s, x)); set_solver]. cbn [obind].
    assert (match prev with
            | Some e => if s <? e then Err (invalid_extent "extent map contains overlapping entries")
                        else Ok tt
            | None => Ok tt
            end = Ok tt) as ->.
    { destruct prev as [e|]; [|done]. destruct (Z.ltb_spec s e); [|done].
      specialize (Hp (s, x) e ltac:(set_solver) eq_refl). cbn in Hp. lia. }
    cbn [obind]. apply IH; [done|]. split; [split; [done|split; intros; [apply Hne|apply Hd]; set_solver]|].
    intros p e Hin [= <-]. apply (Hd (s, x) p); [set_solver|set_solver|by apply Hlt].
Qed.

Lemma em_iter_app m1 m2 : em_iter (m1 ++ m2) = em_iter m1 ++ em_iter m2.
Proof. apply fmap_app. Qed.

(** [overlapping_loop] pushes the extents of [rest] that start before the end. *)
Lemma overlapping_loop_spec end_ (r0 rest : btree (Extent V)) :
  bt_sorted rest → (∀ p q, p ∈ r0 → q ∈ rest → p.1 < q.1) →
  overlapping_loop end_ (em_iter r0) rest = em_iter (r0 ++ filter (λ p, p.1 < end_) rest).
Proof.
  revert r0. induction rest as [|[s x] rest IH]; intros r0 Hs Hlt; cbn [overlapping_loop].
  { cbn. by rewrite app_nil_r. }
  apply bt_sorted_cons in Hs as [Hhd Hs].
  destruct (Z.leb_spec end_ s) as [Hle|Hgt].
  { assert (filter (λ p, p.1 < end_) ((s, x) :: rest) = []) as ->; [|by rewrite app_nil_r].
    apply filter_none. intros p [->|Hp]%elem_of_cons; cbn; [lia|].
    specialize (Hhd p Hp). lia. }
  assert (match last (em_iter r0) with
          | Some existing => ee_start existing =? s | None => false end = false) as ->.
  { unfold em_iter. rewrite fmap_last. destruct (last r0) as [p|] eqn:Hl; cbn; [|done].
    apply last_Some in Hl as [l ->]. specialize (Hlt p (s, x)). cbn in Hlt.
    apply Z.eqb_neq. set_solver by lia. }
  rewrite filter_cons_True by (cbn; lia).
  change [extent_ref s x] with (em_iter [(s, x)]). rewrite <-em_iter_app.
  rewrite (IH (r0 ++ [(s, x)])), <-app_assoc; [done|done|].
  intros p q [Hp|Hp]%elem_of_app Hq; [apply Hlt; set_solver|].
  apply list_elem_of_singleton in Hp as ->. by apply Hhd.
Qed.

(** The candidate before the query and the extents from its start on, put
    together, are all the extents that meet it. *)
Lemma overlapping_ext m start end_ (r0 : btree (Extent V)) :
  em_wf m → start < end_ →
  bt_sorted (r0 ++ filter (λ p, p.1 < end_) (bt_from start m)) →
  (∀ p, p ∈ r0 ↔ p ∈ m ∧ p.1 < start ∧ start < ext_end p.2) →
  r0 ++ filter (λ p, p.1 < end_) (bt_from start m) = filter (meets start end_) m.
Proof.
  intros (Hs & Hne & Hd) Hlt Hsr Hr0. apply bt_ext; [done|by apply bt_sorted_filter|]. intros p.
  rewrite elem_of_app, !list_elem_of_filter, bt_from_elem, Hr0. unfold meets. split.
  - intros [(Hp & ? & ?)|(? & Hp & ?)]; specialize (Hne p Hp); naive_solver lia.
  - intros ((He & Hk) & Hp). destruct (Z.lt_ge_cases p.1 start); [left; auto|right; auto].
Qed.

(** Only the last extent at or before [start] can reach over it. *)
Lemma last_le_covering m start s0 x0 p :
  em_wf m → bt_last_le start m = Some (s0, x0) →
  p ∈ m ∧ p.1 < start ∧ start < ext_end p.2 ↔ p = (s0, x0) ∧ s0 < start ∧ start < ext_end x0.
Proof.
  intros Hwf Hlast. pose proof Hwf as (Hs & Hne & Hd).
  apply bt_last_le_Some in Hlast as (Hin0 & Hle0 & Hmax); [|done]. cbn in Hle0, Hmax. split.
  - intros (Hp & Hk & He). destruct (Z.eq_dec p.1 s0) as [Heq|Hneq].
    + assert (p = (s0, x0)) as -> by by eapply bt_key_inj. done.
    + exfalso. pose proof (Hmax p Hp). specialize (Hne _ Hin0).
      destruct (em_wf_disjoint m p (s0, x0) Hwf Hp Hin0 Hneq) as [Hc|Hc]; cbn in *; lia.
  - intros (-> & ? & ?). done.
Qed.

(** The [continue] of the loop: the candidate is also the first extent of
    [range(start..)]. *)
Lemma overlapping_loop_dup m start end_ x0 :
  bt_sorted m → (start, x0) ∈ m → start < end_ →
  overlapping_loop end_ [extent_ref start x0] (bt_from start m) =
  em_iter (filter (λ p, p.1 < end_) (bt_from start m)).
Proof.
  intros Hs Hin0 Hlt.
  assert (bt_sorted (bt_from start m)) as Hsf by by apply bt_sorted_filter.
  assert ((start, x0) ∈ bt_from start m) as Hin by by apply bt_from_elem.
  destruct (bt_from start m) as [|[k y] rest] eqn:Hfrom; [set_solver|].
  assert ((k, y) = (start, x0)) as [= -> ->].
  { assert ((k, y) ∈ bt_from start m) as [Hky Hk']%bt_from_elem by (rewrite Hfrom; set_solver).
    pose proof (bt_from_first m start _ _ Hs Hfrom (start, x0) Hin0 ltac:(cbn; lia)) as Hk. cbn in *.
    apply (bt_key_inj m); [done|done|done|]. cbn. lia. }
  apply bt_sorted_cons in Hsf as [Hhd Hsr].
  cbn [overlapping_loop last extent_ref ee_start]. destruct (Z.leb_spec end_ start); [lia|].
  rewrite Z.eqb_refl. change [extent_ref start x0] with (em_iter [(start, x0)]).
  rewrite overlapping_loop_spec; [|done|set_solver].
  rewrite filter_cons_True by (cbn; lia). done.
Qed.

(** [overlapping] against its specification: the extents that meet the query,
    in order. *)
Lemma overlapping_eq m start end_ :
  em_wf m → start < end_ →
  overlapping m start end_ = Ok (em_iter (filter (meets start end_) m)).
Proof.
  intros Hwf Hlt. pose proof Hwf as (Hs & Hne & Hd). unfold overlapping.
  rewrite (proj2 (Z.eqb_neq _ _)) by lia.
  rewrite (proj2 (validate_extent_ok _ _)) by done. cbn [obind]. f_equal.
  assert (bt_sorted (bt_from start m)) as Hsf by by apply bt_sorted_filter.
  assert ((∀ p, ¬ (p ∈ m ∧ p.1 < start ∧ start < ext_end p.2)) →
    overlapping_loop end_ [] (bt_from start m) = em_iter (filter (meets start end_) m)) as Hnone.
  { intros Hno. change (@nil (ExtentEntry V)) with (em_iter (@nil (Z * Extent V))).
    rewrite overlapping_loop_spec; [|done|set_solver].
    rewrite overlapping_ext; [done..|by apply bt_sorted_filter|set_solver]. }
  destruct (bt_last_le start m) as [[s0 x0]|] eqn:Hlast.
  2: { apply Hnone. intros p (Hp & ? & _). pose proof (bt_last_le_None _ _ Hlast p Hp). lia. }
  pose proof (λ p, last_le_covering m start s0 x0 p Hwf Hlast) as Hcov.
  apply bt_last_le_Some in Hlast as (Hin0 & Hle0 & Hmax); [|done]. cbn in Hle0.
  destruct (Z.ltb_spec start (ext_end x0)) as [He|He];
    [|apply Hnone; intros p; rewrite Hcov; lia].
  destruct (Z.eq_dec s0 start) as [->|Hneq].
  - rewrite overlapping_loop_dup by done.
    rewrite <-(overlapping_ext m start end_ []); try done.
    + by apply bt_sorted_filter.
    + intros p. rewrite Hcov. split; [set_solver|lia].
  - change [extent_ref s0 x0] with (em_iter [(s0, x0)]).
    rewrite overlapping_loop_spec; [|done|].
    2: { intros p q Hp%list_elem_of_singleton [_ Hq]%bt_from_elem. subst p. cbn. lia. }
    rewrite overlapping_ext; try done.
    + apply bt_sorted_cons. split; [|by apply bt_sorted_filter].
      intros p [_ [_ Hp]%bt_from_elem]%list_elem_of_filter. lia.
    + intros p. rewrite Hcov, list_elem_of_singleton. split; [intros ->; split_and!; [done|lia|lia]|].
      by intros [-> _].
Qed.

(** *** Insertion without overlap *)

Lemma ensure_no_overlap_ok m start end_ :
  em_wf m → start < end_ →
  ensure_no_overlap m start end_ = Ok tt ↔ ∀ p, p ∈ m → ¬ meets start end_ p.
Proof.
  intros Hwf Hlt. pose proof Hwf as (Hs & Hne & Hd). unfold ensure_no_overlap, meets. split.
  - intros H p Hp [Hk He]. inv_ok. destruct (Z.le_gt_cases start p.1) as [Hge|Hlt'].
    + assert (p ∈ bt_from start m) as Hpf by by apply bt_from_elem.
      destruct (bt_from start m) as [|[k y] rest] eqn:Hfrom; [set_solver|].
      pose proof (bt_from_first m start _ _ Hs Hfrom p Hp Hge). cbn in *.
      destruct (Z.ltb_spec k end_); [done|lia].
    + destruct (bt_last_le start m) as [[s0 x0]|] eqn:Hlast.
      * destruct (proj1 (last_le_covering m start s0 x0 p Hwf Hlast)) as (-> & ? & ?); [done|].
        destruct (Z.ltb_spec start (ext_end x0)); [done|lia].
      * pose proof (bt_last_le_None _ _ Hlast p Hp). lia.
  - intros Hno.
    assert (∀ q, q ∈ m → q.1 ≤ start → ext_end q.2 ≤ start) as Hpre.
    { intros q Hq Hk. specialize (Hno q Hq). lia. }
    destruct (bt_last_le start m) as [[s0 x0]|] eqn:Hlast; cbn [obind].
    + apply bt_last_le_Some in Hlast as (Hin & Hle & _); [|done]. specialize (Hpre _ Hin Hle).
      cbn in Hpre. destruct (Z.ltb_spec start (ext_end x0)); [lia|]. cbn [obind].
      destruct (bt_from start m) as [|[k y] rest] eqn:Hfrom; [done|].
      assert ((k, y) ∈ bt_from start m) as [Hy Hky]%bt_from_elem by (rewrite Hfrom; set_solver).
      specialize (Hno _ Hy). specialize (Hne _ Hy). cbn in *. destruct (Z.ltb_spec k end_); [lia|done].
    + destruct (bt_from start m) as [|[k y] rest] eqn:Hfrom; [done|].
      assert ((k, y) ∈ bt_from start m) as [Hy Hky]%bt_from_elem by (rewrite Hfrom; set_solver).
      specialize (Hno _ Hy). specialize (Hne _ Hy). cbn in *. destruct (Z.ltb_spec k end_); [lia|done].
Qed.

Lemma insert_exact_ok m start end_ (value : V) :
  em_wf m → start < end_ → (∀ p, p ∈ m → ¬ meets start end_ p) →
  insert_exact start end_ value m = (Ok tt, bt_insert start (mkExtent end_ value) m).
Proof.
  intros Hwf Hlt Hno. unfold insert_exact.
  erewrite mseq_ok by (unfold mlift; rewrite (proj2 (validate_extent_ok _ _)) by done; done).
  erewrite mseq_ok by done.
  erewrite mseq_ok by (unfold mlift; rewrite (proj2 (ensure_no_overlap_ok _ _ _ Hwf Hlt)) by done; done).
  done.
Qed.

(** *** Removal of the overlapping extents *)

Lemma remove_keys_spec (r : btree (Extent V)) m :
  em_wf m → NoDup r.*1 → (∀ p, p ∈ r → p ∈ m) →
  remove_keys r.*1 m = (Ok (em_iter r), filter (λ p, p.1 ∉ r.*1) m).
Proof.
  revert m. induction r as [|[k x] r IH]; intros m Hwf Hnd Hin.
  { cbn. unfold mret. f_equal. symmetry. apply filter_every. set_solver. }
  cbn [fmap list_fmap] in *. apply NoDup_cons in Hnd as [Hk Hnd].
  assert ((k, x) ∈ m) as Hx by set_solver. pose proof Hwf as (Hs & Hne & Hd).
  cbn [remove_keys fst]. erewrite mseq_ok by done.
  erewrite mseq_ok by (unfold mlift; rewrite (proj2 (bt_get_elem m k x Hs) Hx); done).
  erewrite mseq_ok by done. specialize (Hne _ Hx). cbn in Hne.
  erewrite mseq_ok by (unfold mlift, ExtentEntry_new;
    rewrite (proj2 (validate_extent_ok _ _)) by done; done).
  erewrite mseq_ok.
  2: { apply IH; [by apply em_wf_filter|done|]. intros [k' x'] Hp. apply bt_remove_elem.
    split; [set_solver|]. cbn. intros ->. apply Hk. apply list_elem_of_fmap. by exists (k, x'). }
  unfold mret. f_equal. unfold bt_remove. rewrite list_filter_filter.
  apply list_filter_iff. set_solver.
Qed.

(** The elements of [em_iter m], with their keys. *)
Lemma em_iter_elem m e : e ∈ em_iter m ↔ ∃ s x, (s, x) ∈ m ∧ e = extent_ref s x.
Proof.
  unfold em_iter. rewrite list_elem_of_fmap. split.
  - intros ([s x] & -> & Hin). eauto.
  - intros (s & x & Hin & ->). exists (s, x). done.
Qed.

Lemma em_iter_starts m : ee_start <$> em_iter m = m.*1.
Proof. unfold em_iter. rewrite <-list_fmap_compose. done. Qed.

Lemma remove_overlapping_spec m start end_ :
  em_wf m → start < end_ →
  remove_overlapping start end_ m =
    (Ok (em_iter (filter (meets start end_) m)), filter (λ p, ¬ meets start end_ p) m).
Proof.
  intros Hwf Hlt. pose proof Hwf as (Hs & Hne & Hd). unfold remove_overlapping.
  erewrite mseq_ok by done. erewrite mseq_ok by (unfold mlift; rewrite overlapping_eq by done; done).
  rewrite em_iter_starts.
  rewrite remove_keys_spec; [|done|by apply bt_sorted_NoDup, bt_sorted_filter|].
  2: { by intros p [_ Hp]%list_elem_of_filter. }
  f_equal. apply bt_ext; [by apply bt_sorted_filter..|]. intros p.
  rewrite !list_elem_of_filter. split; intros [Hp Hin]; (split; [|done]).
  - intros Hmeet. apply Hp, list_elem_of_fmap. exists p. split; [done|].
    by apply list_elem_of_filter.
  - intros (q & Heq & [Hq Hqin]%list_elem_of_filter)%list_elem_of_fmap.
    apply Hp. by rewrite (bt_key_inj m p q).
Qed.

(** *** Reinsertion of the cut ends *)

Context (split_value : V → Z → V).

(** What is left of an extent when [start, end_) is cut out of it. *)
Definition tails (start end_ : Z) p : list (Z * Extent V) :=
  (if p.1 <? start then [(p.1, mkExtent start (split_value (ext_value p.2) 0))] else []) ++
  (if end_ <? ext_end p.2
   then [(end_, mkExtent (ext_end p.2) (split_value (ext_value p.2) (end_ - p.1)))] else []).

Lemma tails_elem start end_ p q :
  q ∈ tails start end_ p ↔
  (p.1 < start ∧ q = (p.1, mkExtent start (split_value (ext_value p.2) 0))) ∨
  (end_ < ext_end p.2 ∧
   q = (end_, mkExtent (ext_end p.2) (split_value (ext_value p.2) (end_ - p.1)))).
Proof.
  unfold tails. case_bool; cbn [app]; rewrite ?list_elem_of_singleton, ?elem_of_cons; set_solver by lia.
Qed.

Lemma reinsert_tail_spec start end_ m p :
  em_wf m → start < end_ → meets start end_ p → p.1 < ext_end p.2 →
  (∀ q, q ∈ m → ¬ meets p.1 (ext_end p.2) q) →
  ∃ m', reinsert_tail start end_ split_value (extent_ref p.1 p.2) m = (Ok tt, m') ∧ em_wf m' ∧
    ∀ q, q ∈ m' ↔ q ∈ m ∨ q ∈ tails start end_ p.
Proof.
  intros Hwf Hlt [Hk He] Hne Hno. setoid_rewrite tails_elem. unfold reinsert_tail.
  cbn [extent_ref ee_start ee_end ee_value].
  (* the left end *)
  assert (∃ m1, (if p.1 <? start
                 then insert_exact p.1 start (split_value (ext_value p.2) 0) else mret tt) m
                = (Ok tt, m1) ∧ em_wf m1 ∧
    ∀ q, q ∈ m1 ↔ q ∈ m ∨ (p.1 < start ∧ q = (p.1, mkExtent start (split_value (ext_value p.2) 0))))
    as (m1 & H1 & Hwf1 & Hin1).
  { destruct (Z.ltb_spec p.1 start) as [Hlt1|Hge].
    - assert (∀ q, q ∈ m → ¬ meets p.1 start q) as Hno'.
      { intros q Hq [? ?]. apply (Hno q Hq). split; lia. }
      eexists. split; [by apply insert_exact_ok|]. split; [by apply em_wf_insert|].
      intros q. rewrite bt_insert_elem by apply Hwf.
      split; [naive_solver|]. intros [Hq|[_ ->]]; [|by left]. right. split; [done|].
      intros Heq. apply (Hno q Hq). pose proof Hwf as (_ & Hne' & _). specialize (Hne' q Hq).
      split; lia.
    - exists m. split; [done|]. split; [done|]. intros q. split; [auto|]. intros [?|[? _]]; [done|lia]. }
  rewrite (mseq_ok _ _ _ _ _ H1). destruct (Z.ltb_spec end_ (ext_end p.2)) as [Hlt2|Hge2].
  2: { exists m1. split; [done|]. split; [done|]. intros q. rewrite Hin1. naive_solver lia. }
  unfold u64_checked_sub. rewrite (proj2 (Z.leb_le p.1 end_)) by lia.
  erewrite mseq_ok by done.
  assert (∀ q, q ∈ m1 → ¬ meets end_ (ext_end p.2) q) as Hno1.
  { intros q [Hq|[Hl ->]]%Hin1 [? ?]; cbn in *; [|lia]. apply (Hno q Hq). split; lia. }
  eexists. split; [by apply insert_exact_ok|]. split; [by apply em_wf_insert|].
  intros q. rewrite bt_insert_elem, Hin1 by apply Hwf1.
  split; [naive_solver|]. intros [Hq|[[Hl ->]|[_ ->]]]; [right|right|by left].
  - split; [by left|]. intros Heq. apply (Hno q Hq). pose proof Hwf as (_ & Hne' & _).
    specialize (Hne' q Hq). split; lia.
  - split; [by right|]. cbn. lia.
Qed.

Lemma reinsert_tails_spec start end_ (removed m : btree (Extent V)) :
  em_wf removed → em_wf m → start < end_ →
  (∀ p, p ∈ removed → meets start end_ p) →
  (∀ p q, p ∈ removed → q ∈ m → ¬ meets p.1 (ext_end p.2) q) →
  ∃ m', reinsert_tails start end_ (em_iter removed) split_value m = (Ok tt, m') ∧ em_wf m' ∧
    ∀ q, q ∈ m' ↔ q ∈ m ∨ ∃ p, p ∈ removed ∧ q ∈ tails start end_ p.
Proof.
  intros Hwr Hwf Hlt. revert m Hwf. induction removed as [|p removed IH]; intros m Hwf Hmeet Hno.
  { exists m. split; [done|]. split; [done|]. set_solver. }
  pose proof Hwr as (Hsr & Hner & Hdr).
  assert (em_wf removed) as Hwr'.
  { destruct p as [k x]. apply bt_sorted_cons in Hsr as [_ Hsr]. split; [done|]. set_solver. }
  destruct (reinsert_tail_spec start end_ m p) as (m1 & H1 & Hwf1 & Hin1); try done.
  { apply Hmeet. set_solver. } { apply Hner. set_solver. } { intros q. apply Hno. set_solver. }
  destruct (IH Hwr' m1) as (m2 & H2 & Hwf2 & Hin2); [done|set_solver| |].
  { intros p' q Hp' [Hq|Hq]%Hin1; [apply Hno; set_solver|].
    assert (p.1 < p'.1) as Hlt'.
    { destruct p as [k x]. apply bt_sorted_cons in Hsr as [Hhd _]. by apply Hhd. }
    assert (ext_end p.2 ≤ p'.1) as Hend by (apply Hdr; set_solver).
    destruct (Hmeet p ltac:(set_solver)). unfold meets.
    apply tails_elem in Hq as [[? ->]|[? ->]]; cbn; lia. }
  exists m2. split; [|split; [done|]].
  - unfold reinsert_tails. cbn [em_iter fmap list_fmap mfor]. by rewrite (mseq_ok _ _ _ _ _ H1).
  - intros q. rewrite Hin2, Hin1. set_solver.
Qed.
End theory.

(** ** What a map says of each byte *)

(** The extent over position [i]. *)
Definition em_find {V} (m : btree (Extent V)) (i : Z) : option (Z * Extent V) :=
  match bt_last_le i m with
  | Some (s, x) => if i <? ext_end x then Some (s, x) else None
  | None => None
  end.

(** The contents at [i], for a value that is a view of positions counted from
    the start of its extent. *)
Definition contents {V A} (view : V → Z → A) (m : btree (Extent V)) (i : Z) : option A :=
  (λ p, view (ext_value p.2) (i - p.1)) <$> em_find m i.

Section contents.
Context {V A : Type}.
Implicit Types (m : btree (Extent V)) (p q : Z * Extent V).

Lemma em_find_Some m i p :
  em_wf m → em_find m i = Some p ↔ p ∈ m ∧ p.1 ≤ i < ext_end p.2.
Proof.
  intros Hwf. pose proof Hwf as (Hs & Hne & Hd). unfold em_find. split.
  - destruct (bt_last_le i m) as [[s x]|] eqn:Hlast; [|done].
    apply bt_last_le_Some in Hlast as (Hin & Hle & _); [|done]. cbn in Hle.
    destruct (Z.ltb_spec i (ext_end x)); [|done]. intros [= <-]. cbn. auto with lia.
  - intros (Hp & Hk & He). destruct (bt_last_le i m) as [[s x]|] eqn:Hlast.
    + apply bt_last_le_Some in Hlast as (Hin & Hle & Hmax); [|done]. cbn in Hle.
      specialize (Hmax p Hp Hk). cbn in Hmax. destruct (Z.eq_dec p.1 s) as [Heq|Hneq].
      * assert (p = (s, x)) as -> by by apply (bt_key_inj m).
        cbn in *. by rewrite (proj2 (Z.ltb_lt _ _)).
      * specialize (Hd p (s, x) Hp Hin ltac:(cbn; lia)). cbn in Hd. lia.
    + pose proof (bt_last_le_None _ _ Hlast p Hp). lia.
Qed.

Lemma em_find_None m i :
  em_wf m → em_find m i = None ↔ ∀ p, p ∈ m → ¬ (p.1 ≤ i < ext_end p.2).
Proof.
  intros Hwf. split.
  - intros Hn p Hp Hi. assert (em_find m i = Some p) by by apply em_find_Some. congruence.
  - intros Hno. destruct (em_find m i) as [p|] eqn:Hp; [|done].
    apply em_find_Some in Hp as [Hp Hi]; [|done]. by destruct (Hno p Hp).
Qed.

Context (view : V → Z → A) (split_value : V → Z → V).

(** Re-basing a value of the map moves its view. *)
Definition splits_ok m : Prop :=
  ∀ p d k, p ∈ m → 0 ≤ d < ext_end p.2 - p.1 →
  view (split_value (ext_value p.2) d) k = view (ext_value p.2) (d + k).

(** Two maps where the second has, over [i], a re-based piece of the extent
    the first has there. *)
Lemma contents_piece m m' i p d e :
  splits_ok m → em_wf m → em_wf m' → p ∈ m → p.1 ≤ i < ext_end p.2 → 0 ≤ d → p.1 + d ≤ i < e →
  (p.1 + d, mkExtent e (split_value (ext_value p.2) d)) ∈ m' →
  contents view m' i = contents view m i.
Proof.
  intros Hvs Hwf Hwf' Hp Hi Hd Hi' Hin. unfold contents.
  rewrite (proj2 (em_find_Some m i p Hwf)) by done.
  rewrite (proj2 (em_find_Some m' i _ Hwf') (conj Hin Hi')). cbn.
  f_equal. rewrite Hvs by (done || lia). f_equal. lia.
Qed.

(** Cutting [start, end_) out of a map, and optionally putting [new] there. *)
Definition cut_insert (start end_ : Z) (new : option V) m : btree (Extent V) → Prop := λ m',
  em_wf m' ∧ ∀ q, q ∈ m' ↔
    (∃ v, new = Some v ∧ q = (start, mkExtent end_ v)) ∨
    (q ∈ m ∧ ¬ meets start end_ q) ∨
    (∃ p, p ∈ m ∧ meets start end_ p ∧ q ∈ tails split_value start end_ p).

Lemma cut_insert_contents start end_ new m m' i :
  splits_ok m → em_wf m → start < end_ → cut_insert start end_ new m m' →
  contents view m' i =
    if (start <=? i) && (i <? end_) then (λ v, view v (i - start)) <$> new else contents view m i.
Proof.
  intros Hvs Hwf Hlt [Hwf' Hin]. destruct ((start <=? i) && (i <? end_)) eqn:Hr.
  - assert (start ≤ i < end_) as Hi by (case_bool; lia). unfold contents.
    destruct new as [v|]; cbn.
    + rewrite (proj2 (em_find_Some m' i (start, mkExtent end_ v) Hwf')); [done|].
      split; [|done]. apply Hin. naive_solver.
    + rewrite (proj2 (em_find_None m' i Hwf')); [done|].
      intros q [(v & [=] & _)|[[_ Hq]|(p & _ & [??] & Hq)]]%Hin; unfold meets in *; [lia|].
      apply tails_elem in Hq as [[? ->]|[? ->]]; cbn; lia.
  - assert (i < start ∨ end_ ≤ i) as Hi by (revert Hr; case_bool; intros; first [lia|done]).
    clear Hr. destruct (em_find m i) as [p|] eqn:Hp.
    + pose proof Hp as [Hpm Hpi]%em_find_Some; [|done].
      destruct (decide (meets start end_ p)) as [Hmeet|Hno].
      2: { unfold contents. rewrite Hp, (proj2 (em_find_Some m' i p Hwf')); [done|].
        split; [|done]. apply Hin. auto. }
      destruct Hi as [Hi|Hi].
      * eapply (contents_piece m m' i p 0 start); try done; [lia|]. apply Hin. right. right.
        exists p. rewrite tails_elem, Z.add_0_r. split_and!; try done. left. split; [lia|done].
      * destruct Hmeet as [Hm1 Hm2].
        eapply (contents_piece m m' i p (end_ - p.1) (ext_end p.2)); try done; [lia|lia|].
        apply Hin. right. right. exists p. rewrite tails_elem. split_and!; try done. right.
        replace (p.1 + (end_ - p.1)) with end_ by lia. split; [lia|done].
    + unfold contents. rewrite Hp, (proj2 (em_find_None m' i Hwf')); [done|].
      pose proof (proj1 (em_find_None m i Hwf) Hp) as Hno.
      intros q [(v & _ & ->)|[[Hq _]|(p & Hpm & [??] & Hq)]]%Hin Hqi; cbn in *; [lia|by eapply Hno|].
      apply (Hno p Hpm). apply tails_elem in Hq as [[? ->]|[? ->]]; cbn in *; lia.
Qed.

(** Running the two removing steps on a well-formed map. *)
Lemma cut_spec start end_ m :
  em_wf m → start < end_ →
  ∃ m', (let! removed := remove_overlapping start end_ in
         let! _ := reinsert_tails start end_ removed split_value in
         mret removed) m
        = (Ok (em_iter (filter (meets start end_) m)), m') ∧
    cut_insert start end_ None m m'.
Proof.
  clear view. intros Hwf Hlt.
  rewrite (mseq_ok _ _ _ _ _ (remove_overlapping_spec m start end_ Hwf Hlt)).
  destruct (reinsert_tails_spec split_value start end_ (filter (meets start end_) m)
    (filter (λ p, ¬ meets start end_ p) m)) as (m' & H & Hwf' & Hin); try by apply em_wf_filter.
  - done.
  - by intros p [Hp _]%list_elem_of_filter.
  - intros p q [Hp Hpm]%list_elem_of_filter [Hq Hqm]%list_elem_of_filter [Hm1 Hm2].
    assert (p.1 ≠ q.1) as Hne.
    { intros Heq. by rewrite (bt_key_inj m p q (proj1 Hwf) Hpm Hqm Heq) in Hp. }
    destruct (em_wf_disjoint m p q Hwf Hpm Hqm Hne); lia.
  - exists m'. rewrite (mseq_ok _ _ _ _ _ H). split; [done|]. split; [done|].
    intros q. rewrite Hin, list_elem_of_filter. setoid_rewrite list_elem_of_filter.
    split; [naive_solver|]. intros [(v & [=] & _)|?]. naive_solver.
Qed.

Lemma insert_overwrite_with_split_spec m start end_ value :
  em_wf m → start < end_ →
  ∃ m', insert_overwrite_with_split start end_ value split_value m
        = (Ok (em_iter (filter (meets start end_) m)), m') ∧
    cut_insert start end_ (Some value) m m'.
Proof.
  clear view. intros Hwf Hlt. destruct (cut_spec start end_ m Hwf Hlt) as (m1 & H1 & Hwf1 & Hin1).
  apply mseq_inv in H1 as (removed & m2 & H2 & H3).
  apply mseq_inv in H3 as ([] & m3 & H3 & [= <- <-]).
  unfold insert_overwrite_with_split.
  erewrite mseq_ok by (unfold mlift; rewrite (proj2 (validate_extent_ok _ _)) by done; done).
  rewrite (mseq_ok _ _ _ _ _ H2), (mseq_ok _ _ _ _ _ H3).
  assert (∀ q, q ∈ m3 → ¬ meets start end_ q) as Hno.
  { intros q [(v & [=] & _)|[[_ Hq]|(p & _ & _ & Hq)]]%Hin1; [done|].
    apply tails_elem in Hq as [[? ->]|[? ->]]; unfold meets; cbn; lia. }
  eexists. erewrite mseq_ok by by apply insert_exact_ok. split; [done|].
  split; [by apply em_wf_insert|]. intros q. rewrite bt_insert_elem by apply Hwf1. rewrite Hin1.
  split; [naive_solver|]. intros [(v & [= <-] & ->)|Hq]; [by left|]. right.
  assert (q ∈ m3) as Hq3 by (apply Hin1; naive_solver). split; [naive_solver|].
  intros Heq. apply (Hno q Hq3). pose proof Hwf1 as (_ & Hne1 & _). specialize (Hne1 q Hq3).
  unfold meets. lia.
Qed.

Lemma remove_range_with_split_spec m start end_ :
  em_wf m → start < end_ →
  ∃ m', remove_range_with_split start end_ split_value m
        = (Ok (em_iter (filter (meets start end_) m)), m') ∧
    cut_insert start end_ None m m'.
Proof.
  clear view. intros Hwf Hlt. destruct (cut_spec start end_ m Hwf Hlt) as (m1 & H1 & Hc).
  exists m1. split; [|done]. unfold remove_range_with_split. rewrite (proj2 (Z.eqb_neq _ _)) by lia.
  erewrite mseq_ok by (unfold mlift; rewrite (proj2 (validate_extent_ok _ _)) by done; done). done.
Qed.
End contents.

(** ** Theorems *)

(** A re-basing that moves every view can be used on any map. *)
Lemma splits_ok_all {V A} (view : V → Z → A) split_value (m : btree (Extent V)) :
  (∀ v d k, view (split_value v d) k = view v (d + k)) → splits_ok view split_value m.
Proof. intros H p d k _ _. apply H. Qed.

(** Values of the examples: a buffer named by a string and the offset into it
    at which the extent begins, as in the unit tests of the source. *)
Definition payload_view (v : string * Z) (k : Z) : string * Z := (v.1, v.2 + k).
Definition payload_split (v : string * Z) (delta : Z) : string * Z := (v.1, v.2 + delta).

Definition sample_map : btree (Extent (string * Z)) :=
  [(0, mkExtent 8 ("A", 0)); (12, mkExtent 16 ("B", 0))].

Lemma sample_map_wf : em_wf sample_map.
Proof.
  apply (validate_loop_ok None); [|reflexivity]. apply bt_sorted_cons. split.
  - intros p ->%list_elem_of_singleton. done.
  - apply bt_sorted_cons. split; [set_solver|apply bt_sorted_nil].
Qed.

Section extent_map_theorems.
Context {V A : Type} (view : V → Z → A) (split_value : V → Z → V).
Implicit Types m : btree (Extent V).

(** [overlapping] finds the extents that meet a query, all of them and in
    order.  Its search (the last extent at or before the start, then a scan
    that stops at the end and skips a duplicate) returns what filtering the
    whole map by interval intersection returns. *)
Theorem overlapping_refines_filter m start end_ :
  em_wf m → start < end_ →
  overlapping m start end_ = Ok (em_iter (filter (λ p, p.1 < end_ ∧ start < ext_end p.2) m)).
Proof. intros Hwf Hlt. rewrite overlapping_eq by done. done. Qed.

(** [insert_overwrite_with_split] never fails on a non-empty range of a
    well-formed map; the map stays well formed (so the [debug_assert] on
    [validate] holds), the new value is what every position of the range then
    sees, and every other position sees exactly what it saw before. *)
Theorem insert_overwrite_contents m start end_ value :
  splits_ok view split_value m → em_wf m → start < end_ →
  ∃ removed m',
    insert_overwrite_with_split start end_ value split_value m = (Ok removed, m') ∧
    em_wf m' ∧ em_validate m' = Ok tt ∧
    ∀ i, contents view m' i =
      if (start <=? i) && (i <? end_) then Some (view value (i - start)) else contents view m i.
Proof.
  intros Hvs Hwf Hlt.
  destruct (insert_overwrite_with_split_spec split_value m start end_ value Hwf Hlt)
    as (m' & H & Hc). eexists _, m'. split; [exact H|]. pose proof Hc as [Hwf' _].
  split; [done|]. split.
  - apply validate_loop_ok; [apply Hwf'|done].
  - intros i. by rewrite (cut_insert_contents view split_value _ _ _ _ _ _ Hvs Hwf Hlt Hc).
Qed.

(** [remove_range_with_split] never fails on a non-empty range of a
    well-formed map, keeps it well formed, leaves no position of the range
    mapped, changes no other position, and returns exactly the extents that
    met the range. *)
Theorem remove_range_contents m start end_ :
  splits_ok view split_value m → em_wf m → start < end_ →
  ∃ m',
    remove_range_with_split start end_ split_value m
      = (Ok (em_iter (filter (meets start end_) m)), m') ∧
    em_wf m' ∧
    ∀ i, contents view m' i =
      if (start <=? i) && (i <? end_) then None else contents view m i.
Proof.
  intros Hvs Hwf Hlt.
  destruct (remove_range_with_split_spec split_value m start end_ Hwf Hlt) as (m' & H & Hc).
  exists m'. split; [exact H|]. split; [apply Hc|].
  intros i. by rewrite (cut_insert_contents view split_value _ _ _ _ _ _ Hvs Hwf Hlt Hc).
Qed.

(** [insert_exact] succeeds exactly when the new extent is not empty and
    meets no extent of the map; a refused insertion leaves the map as it was. *)
Theorem insert_exact_iff m start end_ value :
  em_wf m →
  match insert_exact start end_ value m with
  | (Ok _, m') =>
      start < end_ ∧ (∀ p, p ∈ m → ¬ meets start end_ p) ∧
      em_wf m' ∧ m' = bt_insert start (mkExtent end_ value) m
  | (Err _, m') => m' = m ∧ (end_ ≤ start ∨ ∃ p, p ∈ m ∧ meets start end_ p)
  | (Panic, _) => False
  end.
Proof.
  intros Hwf. destruct (Z.le_gt_cases end_ start) as [Hle|Hlt].
  { unfold insert_exact, mseq, mlift, validate_extent. rewrite (proj2 (Z.leb_le _ _)) by done. auto. }
  destruct (decide (Forall (λ p, ¬ meets start end_ p) m)) as [Hno|Hyes].
  - rewrite Forall_forall in Hno. rewrite insert_exact_ok by done. split_and!; try done.
    by apply em_wf_insert.
  - assert (ensure_no_overlap m start end_ ≠ Ok tt) as Hne.
    { intros H. apply Hyes, Forall_forall. by apply ensure_no_overlap_ok. }
    assert (ensure_no_overlap m start end_ ≠ Panic) as Hnp.
    { unfold ensure_no_overlap. destruct (bt_last_le start m) as [[??]|], (bt_from start m) as [|[??]?];
        cbn; case_bool; cbn; congruence. }
    unfold insert_exact, mseq, mlift, mget, validate_extent.
    rewrite (proj2 (Z.leb_gt _ _)) by done.
    destruct (ensure_no_overlap m start end_) as [[]|e|]; try done. split; [done|]. right.
    apply not_Forall_Exists in Hyes; [|apply _]. apply Exists_exists in Hyes as (p & Hp & Hm).
    exists p. split; [done|]. by destruct (decide (meets start end_ p)).
Qed.
End extent_map_theorems.

Lemma overlapping_refines_filter_witness :
  overlapping sample_map 6 14 = Ok (em_iter sample_map).
Proof. apply (overlapping_refines_filter sample_map 6 14 sample_map_wf). lia. Defined.

Lemma insert_overwrite_contents_witness :
  ∃ removed m',
    insert_overwrite_with_split 4 6 ("C", 0) payload_split sample_map = (Ok removed, m') ∧
    contents payload_view m' 7 = Some ("A", 7).
Proof.
  destruct (insert_overwrite_contents payload_view payload_split sample_map 4 6 ("C", 0))
    as (removed & m' & H & _ & _ & Hc).
  - apply splits_ok_all. intros v d k. unfold payload_view, payload_split. cbn. f_equal. lia.
  - apply sample_map_wf.
  - lia.
  - exists removed, m'. split; [exact H|]. rewrite Hc. reflexivity.
Defined.

Lemma remove_range_contents_witness :
  ∃ removed m',
    remove_range_with_split 2 13 payload_split sample_map = (Ok removed, m') ∧
    contents payload_view m' 5 = None ∧ contents payload_view m' 15 = Some ("B", 3).
Proof.
  destruct (remove_range_contents payload_view payload_split sample_map 2 13) as (m' & H & _ & Hc).
  - apply splits_ok_all. intros v d k. unfold payload_view, payload_split. cbn. f_equal. lia.
  - apply sample_map_wf.
  - lia.
  - exists (em_iter (filter (meets 2 13) sample_map)), m'. rewrite !Hc. done.
Defined.

Lemma insert_exact_iff_witness :
  ∃ e m', insert_exact 7 10 ("C", 0) sample_map = (Err e, m') ∧ m' = sample_map.
Proof.
  pose proof (insert_exact_iff sample_map 7 10 ("C", 0) sample_map_wf) as H.
  destruct (insert_exact 7 10 ("C", 0) sample_map) as [[u|e|] m'] eqn:Hi.
  - vm_compute in Hi. discriminate Hi.
  - exists e, m'. split; [reflexivity|exact (proj1 H)].
  - destruct H.
Defined.
