(* ===== verification/Wal.v ===== *)
(** * Write-ahead-log records

    The record types of [wal/mod.rs], the frame format of [wal/codec.rs] and the
    ordered replay of [wal/replay.rs].  The CRC-32C of the [crc] crate is the
    parameter [crc]: a digest fed in pieces is the checksum of the pieces put
    together, and its result is a [u32]. *)

From S2P Require Import Prelude ControlPlane Server.
From Stdlib Require Import Strings.Byte.

#[local] Open Scope string_scope.
#[local] Open Scope list_scope.
#[local] Open Scope Z_scope.

(** ** Requests, records and bounds (mod.rs) *)

Record WalRequest := mkWalRequest { req_range : ByteRange; req_data : list byte }.

Record WalRecord := mkWalRecord {
  rec_seq : Z;
  rec_range : ByteRange;
  rec_data : list byte;
}.

Record WalBounds := mkWalBounds { pruned_through : Z; last_durable : Z }.

Record WalPruneResult := mkWalPruneResult {
  wpr_requested_through : Z;
  wpr_pruned_through : Z;
  wpr_removed_segments : Z;
}.

#[export] Instance WalRecord_eq_dec : EqDecision WalRecord.
Proof. solve_decision. Defined.

Definition WalRequest_new (range : ByteRange) (data : list byte) : SResult WalRequest :=
  match data with
  | [] => Err (ServerError_wal "create WAL request" "write payload must not be empty")
  | _ =>
      if negb (zlen data =? br_len range) then
        Err (ServerError_wal "create WAL request"
               "payload length {} does not match range length {}")
      else Ok (mkWalRequest range data)
  end.

Definition WalRecord_from_request (seq : Z) (request : WalRequest) : SResult WalRecord :=
  if seq =? 0 then Err (ServerError_wal "create WAL record" "record sequence must be nonzero")
  else Ok (mkWalRecord seq (req_range request) (req_data request)).

Definition WalRecord_new (seq : Z) (range : ByteRange) (data : list byte) : SResult WalRecord :=
  let? request := WalRequest_new range data in WalRecord_from_request seq request.

Definition WalBounds_new (pruned last : Z) : SResult WalBounds :=
  if last <? pruned then
    Err (ServerError_wal "create WAL bounds" "pruned_through {} is greater than last_durable {}")
  else Ok (mkWalBounds pruned last).

Definition WalBounds_empty : WalBounds := mkWalBounds 0 0.

(** ** Replay (replay.rs) *)

Fixpoint replay_ordered (previous : Z) (records : list WalRecord) : bool :=
  match records with
  | [] => true
  | r :: records => if rec_seq r <=? previous then false else replay_ordered (rec_seq r) records
  end.

(** [WalReplay] holds the records still to be yielded. *)
Definition WalReplay_from_records (records : list WalRecord) : SResult (list WalRecord) :=
  if replay_ordered 0 records then Ok records
  else Err (ServerError_wal "create WAL replay" "records must be strictly ordered by sequence").

Definition WalReplay_next_record (replay : list WalRecord) : option WalRecord * list WalRecord :=
  match replay with
  | [] => (None, [])
  | r :: replay => (Some r, replay)
  end.

(** ** Codec (codec.rs) *)

Definition SEGMENT_MAGIC : list byte :=
  ["N"%byte; "B"%byte; "D"%byte; "W"%byte; "A"%byte; "L"%byte; "S"%byte; "G"%byte].
Definition RECORD_MAGIC : list byte :=
  ["N"%byte; "B"%byte; "D"%byte; "W"%byte; "A"%byte; "L"%byte; "R"%byte; "C"%byte].
Definition WAL_FORMAT_VERSION : Z := 1.
Definition SEGMENT_HEADER_LEN : Z := 24.
Definition RECORD_KIND_WRITE : Z := 1.
Definition RECORD_HEADER_LEN : Z := 40.
Definition RECORD_CRC_OFFSET : Z := 36.

Inductive RecordDecodeErrorKind : Type :=
| PartialHeader
| PartialPayload
| ChecksumMismatch (next_offset : Z)
| Corrupt.

Record RecordDecodeError := mkDecodeError { rde_kind : RecordDecodeErrorKind; rde_error : ServerError }.

Definition partial_header : RecordDecodeError :=
  mkDecodeError PartialHeader
    (ServerError_wal "read WAL record" "segment {} has partial record header").
Definition partial_payload : RecordDecodeError :=
  mkDecodeError PartialPayload
    (ServerError_wal "read WAL record" "segment {} has partial record payload").
Definition checksum_mismatch (next_offset : Z) : RecordDecodeError :=
  mkDecodeError (ChecksumMismatch next_offset)
    (ServerError_wal "read WAL record" "segment {} record checksum mismatch").
Definition corrupt (error : ServerError) : RecordDecodeError := mkDecodeError Corrupt error.

Definition repair_offset (e : RecordDecodeError) (data_len offset : Z) : option Z :=
  match rde_kind e with
  | PartialHeader | PartialPayload => Some offset
  | ChecksumMismatch next_offset => if next_offset =? data_len then Some offset else None
  | Corrupt => None
  end.

(** [u16_at], [u32_at] and [u64_at]: the little-endian integer of [n] bytes at
    [offset]; indexing past the end panics. *)
Definition uint_at {E} (n : Z) (data : list byte) (offset : Z) : outcome E Z :=
  omapo le_value (or_panic (slice data offset (offset + n))).

Section codec.
Context (crc : list byte → Z).

(** The segment header without its checksum. *)
Definition segment_header_prefix (first_seq : Z) : list byte :=
  SEGMENT_MAGIC ++ le_bytes 2 WAL_FORMAT_VERSION ++ le_bytes 2 SEGMENT_HEADER_LEN ++
  le_bytes 8 first_seq.

Definition encode_segment_header (first_seq : Z) : list byte :=
  let header := segment_header_prefix first_seq in
  let checksum := crc header in
  header ++ le_bytes 4 checksum.

Definition decode_segment_header (data : list byte) : SResult Z :=
  if zlen data <? SEGMENT_HEADER_LEN then
    Err (ServerError_wal "read WAL segment header" "segment {} is shorter than header")
  else
    let? magic := or_panic (slice data 0 8) in
    if negb (bool_decide (magic = SEGMENT_MAGIC)) then
      Err (ServerError_wal "read WAL segment header" "segment {} has invalid magic")
    else
      let? version := uint_at 2 data 8 in
      if negb (version =? WAL_FORMAT_VERSION) then
        Err (ServerError_wal "read WAL segment header" "segment {} has unsupported version {}")
      else
        let? header_len := uint_at 2 data 10 in
        if negb (header_len =? SEGMENT_HEADER_LEN) then
          Err (ServerError_wal "read WAL segment header" "segment {} has invalid header length {}")
        else
          let? expected := uint_at 4 data 20 in
          let? covered := or_panic (slice data 0 20) in
          if negb (expected =? crc covered) then
            Err (ServerError_wal "read WAL segment header" "segment {} header checksum mismatch")
          else uint_at 8 data 12.

(** The record header without its checksum. *)
Definition record_header_prefix (r : WalRecord) : list byte :=
  RECORD_MAGIC ++ le_bytes 2 WAL_FORMAT_VERSION ++ le_bytes 2 RECORD_HEADER_LEN ++
  le_bytes 2 RECORD_KIND_WRITE ++ le_bytes 2 0 ++ le_bytes 8 (rec_seq r) ++
  le_bytes 8 (br_start (rec_range r)) ++ le_bytes 4 (as_u32 (zlen (rec_data r))).

Definition encode_record (r : WalRecord) : SResult (list byte) :=
  let header := record_header_prefix r in
  let checksum := crc (header ++ rec_data r) in
  let header := header ++ le_bytes 4 checksum in
  Ok (header ++ rec_data r).

Definition decode_record_at (data : list byte) (offset : Z)
    : outcome RecordDecodeError (WalRecord * Z) :=
  if u64_sub (zlen data) offset <? RECORD_HEADER_LEN then Err partial_header
  else
    let? header := or_panic (slice data offset (offset + RECORD_HEADER_LEN)) in
    let? magic := or_panic (slice header 0 8) in
    if negb (bool_decide (magic = RECORD_MAGIC)) then
      Err (corrupt (ServerError_wal "read WAL record" "segment {} has invalid record magic"))
    else
      let? version := uint_at 2 header 8 in
      if negb (version =? WAL_FORMAT_VERSION) then
        Err (corrupt (ServerError_wal "read WAL record" "segment {} has unsupported record version {}"))
      else
        let? header_len := uint_at 2 header 10 in
        if negb (header_len =? RECORD_HEADER_LEN) then
          Err (corrupt (ServerError_wal "read WAL record"
                          "segment {} has invalid record header length {}"))
        else
          let? record_kind := uint_at 2 header 12 in
          if negb (record_kind =? RECORD_KIND_WRITE) then
            Err (corrupt (ServerError_wal "read WAL record" "segment {} has unsupported record kind {}"))
          else
            let? seq := uint_at 8 header 16 in
            let? start := uint_at 8 header 24 in
            let? data_len := uint_at 4 header 32 in
            let? next_offset :=
              ok_or (u64_checked_add offset RECORD_HEADER_LEN ≫= λ v, u64_checked_add v data_len)
                (corrupt (ServerError_wal "read WAL record" "record length overflow")) in
            if zlen data <? next_offset then Err partial_payload
            else
              let? payload := or_panic (slice data (u64_add offset RECORD_HEADER_LEN) next_offset) in
              let? covered := or_panic (slice header 0 RECORD_CRC_OFFSET) in
              let? expected := uint_at 4 header RECORD_CRC_OFFSET in
              if negb (expected =? crc (covered ++ payload)) then Err (checksum_mismatch next_offset)
              else
                let? record := map_err corrupt (WalRecord_new seq (mkRange start data_len) payload) in
                Ok (record, next_offset).
End codec.

(** ** Records and frames *)

(** A record as [WalRecord::new] builds it from typed fields. *)
Definition record_wf (r : WalRecord) : Prop :=
  is_u64 (rec_seq r) ∧ rec_seq r ≠ 0 ∧ is_u64 (br_start (rec_range r)) ∧
  is_u32 (br_len (rec_range r)) ∧ rec_data r ≠ [] ∧ zlen (rec_data r) = br_len (rec_range r).

#[export] Instance record_wf_dec r : Decision (record_wf r).
Proof. unfold record_wf. apply _. Defined.

(** The bytes of a frame, once encoding has succeeded. *)
Definition frame (crc : list byte → Z) (r : WalRecord) : list byte :=
  record_header_prefix r ++ le_bytes 4 (crc (record_header_prefix r ++ rec_data r)) ++ rec_data r.

Lemma WalRecord_new_ok seq range data r :
  WalRecord_new seq range data = Ok r ↔
  seq ≠ 0 ∧ data ≠ [] ∧ zlen data = br_len range ∧ r = mkWalRecord seq range data.
Proof.
  unfold WalRecord_new, WalRequest_new, WalRecord_from_request.
  destruct data as [|b data]; [naive_solver|]. remember (b :: data) as d.
  assert (d ≠ []) by (subst; done). clear Heqd.
  destruct (Z.eqb_spec (zlen d) (br_len range)); cbn; [|naive_solver].
  destruct (Z.eqb_spec seq 0); naive_solver.
Qed.

Lemma replay_ordered_spec prev records :
  replay_ordered prev records = true ↔ StronglySorted Z.lt (prev :: (rec_seq <$> records)).
Proof.
  revert prev. induction records as [|r records IH]; intros prev; cbn [replay_ordered fmap list_fmap].
  - split; [|done]. intros _. constructor; constructor.
  - destruct (Z.leb_spec (rec_seq r) prev) as [Hle|Hlt].
    + split; [done|]. intros [_ Hf]%StronglySorted_inv. apply Forall_cons in Hf as [? _]. lia.
    + rewrite IH. split.
      * intros Hs. constructor; [done|]. apply StronglySorted_inv in Hs as [_ Hf].
        constructor; [done|]. eapply Forall_impl; [exact Hf|]. cbn. intros. lia.
      * by intros [Hs _]%StronglySorted_inv.
Qed.

(** *** Fields of a header of known layout *)

(** Names the elements of a list of known length. *)
Tactic Notation "explode" integer(n) ident(l) :=
  do n (destruct l as [|? l]; [discriminate|]); destruct l; [|discriminate].

Lemma record_layout (v hl k fl s st ln c : list byte) :
  length v = 2%nat → length hl = 2%nat → length k = 2%nat → length fl = 2%nat →
  length s = 8%nat → length st = 8%nat → length ln = 4%nat → length c = 4%nat →
  let h := (RECORD_MAGIC ++ v ++ hl ++ k ++ fl ++ s ++ st ++ ln) ++ c in
  zlen h = 40 ∧ slice h 0 8 = Some RECORD_MAGIC ∧ slice h 8 10 = Some v ∧ slice h 10 12 = Some hl ∧
  slice h 12 14 = Some k ∧ slice h 16 24 = Some s ∧ slice h 24 32 = Some st ∧
  slice h 32 36 = Some ln ∧ slice h 36 40 = Some c ∧
  slice h 0 36 = Some (RECORD_MAGIC ++ v ++ hl ++ k ++ fl ++ s ++ st ++ ln).
Proof.
  intros Hv Hhl Hk Hfl Hs Hst Hln Hc.
  explode 2 v. explode 2 hl. explode 2 k. explode 2 fl. explode 8 s. explode 8 st.
  explode 4 ln. explode 4 c.
  split_and!; reflexivity.
Qed.

Lemma segment_layout (v hl s c tail : list byte) :
  length v = 2%nat → length hl = 2%nat → length s = 8%nat → length c = 4%nat →
  let h := (SEGMENT_MAGIC ++ v ++ hl ++ s) ++ c ++ tail in
  24 ≤ zlen h ∧ slice h 0 8 = Some SEGMENT_MAGIC ∧ slice h 8 10 = Some v ∧ slice h 10 12 = Some hl ∧
  slice h 12 20 = Some s ∧ slice h 20 24 = Some c ∧
  slice h 0 20 = Some (SEGMENT_MAGIC ++ v ++ hl ++ s).
Proof.
  intros Hv Hhl Hs Hc. cbv zeta. rewrite app_assoc.
  assert (zlen ((SEGMENT_MAGIC ++ v ++ hl ++ s) ++ c) = 24) as Hlen.
  { unfold zlen. rewrite !length_app, Hv, Hhl, Hs, Hc. done. }
  split; [rewrite zlen_app; pose proof (zlen_nonneg tail); lia|].
  rewrite !(slice_app_l _ tail) by lia. clear Hlen.
  explode 2 v. explode 2 hl. explode 8 s. explode 4 c. split_and!; reflexivity.
Qed.

Section frames.
Context (crc : list byte → Z) (crc_u32 : ∀ bs, is_u32 (crc bs)).
Implicit Types r : WalRecord.

Lemma encode_record_ok r : encode_record crc r = Ok (frame crc r).
Proof. unfold encode_record, frame. by rewrite <-app_assoc. Qed.

Lemma record_header_prefix_length r : length (record_header_prefix r) = 36%nat.
Proof. unfold record_header_prefix. rewrite !length_app, !length_le_bytes. done. Qed.

Lemma frame_length r : zlen (frame crc r) = RECORD_HEADER_LEN + zlen (rec_data r).
Proof.
  unfold frame, zlen, RECORD_HEADER_LEN.
  rewrite !length_app, record_header_prefix_length, length_le_bytes. lia.
Qed.

Lemma slice_mid {A} (pre mid post : list A) :
  slice (pre ++ mid ++ post) (zlen pre) (zlen pre + zlen mid) = Some mid.
Proof.
  rewrite slice_app_r by lia. rewrite slice_app_l by lia. apply slice_full; lia.
Qed.

Lemma le_value_u32 n : is_u32 n → le_value (le_bytes 4 n) = n.
Proof. unfold is_u32, u32_max. intros. apply le_value_small. cbn. lia. Qed.

Lemma le_value_u64 n : is_u64 n → le_value (le_bytes 8 n) = n.
Proof. unfold is_u64, u64_max. intros. apply le_value_small. cbn. lia. Qed.

Lemma record_data_u32 r : record_wf r → is_u32 (zlen (rec_data r)).
Proof. intros (_ & _ & _ & Hl & _ & ->). done. Qed.

(** The fields of the header of [r], where the decoder looks for them. *)
Lemma record_header_slices r (c : list byte) :
  length c = 4%nat →
  let h := record_header_prefix r ++ c in
  zlen h = 40 ∧ slice h 0 8 = Some RECORD_MAGIC ∧
  slice h 8 10 = Some (le_bytes 2 WAL_FORMAT_VERSION) ∧
  slice h 10 12 = Some (le_bytes 2 RECORD_HEADER_LEN) ∧
  slice h 12 14 = Some (le_bytes 2 RECORD_KIND_WRITE) ∧
  slice h 16 24 = Some (le_bytes 8 (rec_seq r)) ∧
  slice h 24 32 = Some (le_bytes 8 (br_start (rec_range r))) ∧
  slice h 32 36 = Some (le_bytes 4 (as_u32 (zlen (rec_data r)))) ∧
  slice h 36 40 = Some c ∧ slice h 0 36 = Some (record_header_prefix r).
Proof. intros Hc. apply record_layout; try apply length_le_bytes. done. Qed.

(** Decoding what starts with a complete header of [r]: only the presence
    and the checksum of the payload are left to check. *)
Lemma decode_record_at_header r pre post :
  record_wf r →
  let header := record_header_prefix r ++ le_bytes 4 (crc (record_header_prefix r ++ rec_data r)) in
  let data := pre ++ header ++ post in
  zlen data + zlen (rec_data r) ≤ u64_max →
  decode_record_at crc data (zlen pre) =
    if zlen post <? zlen (rec_data r) then Err partial_payload
    else if negb (bool_decide (crc (record_header_prefix r ++ take (length (rec_data r)) post)
                               = crc (record_header_prefix r ++ rec_data r)))
    then Err (checksum_mismatch (zlen pre + RECORD_HEADER_LEN + zlen (rec_data r)))
    else Ok (mkWalRecord (rec_seq r) (rec_range r) (take (length (rec_data r)) post),
             zlen pre + RECORD_HEADER_LEN + zlen (rec_data r)).
Proof.
  intros Hwf header data Hlen. pose proof Hwf as (Hseq & Hs0 & Hst & Hbl & Hne & Hdl).
  pose proof (record_data_u32 r Hwf) as Hdu.
  destruct (record_header_slices r (le_bytes 4 (crc (record_header_prefix r ++ rec_data r))))
    as (Hl & H0 & H8 & H10 & H12 & H16 & H24 & H32 & H36 & Hcov); [apply length_le_bytes|].
  fold header in Hl, H0, H8, H10, H12, H16, H24, H32, H36, Hcov.
  assert (zlen data = zlen pre + 40 + zlen post) as Hdata.
  { unfold data. rewrite !zlen_app, Hl. lia. }
  pose proof (zlen_nonneg pre). pose proof (zlen_nonneg post). pose proof (zlen_nonneg (rec_data r)).
  unfold decode_record_at, RECORD_HEADER_LEN, RECORD_CRC_OFFSET in *. rewrite u64_sub_id by lia.
  rewrite (proj2 (Z.ltb_ge _ _)) by lia.
  assert (slice data (zlen pre) (zlen pre + 40) = Some header) as ->.
  { unfold data. rewrite <-Hl. apply slice_mid. }
  cbn [or_panic obind]. rewrite H0. cbn [or_panic obind]. rewrite bool_decide_true by done.
  unfold uint_at. change (8 + 2) with 10. change (10 + 2) with 12. change (12 + 2) with 14.
  change (16 + 8) with 24. change (24 + 8) with 32. change (32 + 4) with 36. change (36 + 4) with 40.
  rewrite H8, H10, H12, H16, H24, H32, H36, Hcov. cbn [or_panic omapo obind].
  rewrite as_u32_id by done. rewrite !le_value_u64, !le_value_u32 by done.
  rewrite !(le_value_small 2) by by_compute.
  rewrite !Z.eqb_refl. cbn [negb].
  unfold u64_checked_add. rewrite (proj2 (Z.leb_le (zlen pre + 40) u64_max)) by lia. cbn [mbind option_bind].
  rewrite (proj2 (Z.leb_le _ _)) by lia. cbn [ok_or obind].
  destruct (Z.ltb_spec (zlen post) (zlen (rec_data r))) as [Hp|Hp].
  { by rewrite (proj2 (Z.ltb_lt _ _)) by lia. }
  rewrite (proj2 (Z.ltb_ge _ _)) by lia. rewrite u64_add_id by lia.
  assert (slice data (zlen pre + 40) (zlen pre + 40 + zlen (rec_data r))
          = Some (take (length (rec_data r)) post)) as ->.
  { apply slice_Some. split_and!; [lia|lia|lia|]. unfold data. rewrite app_assoc.
    rewrite drop_app_length' by (rewrite length_app; unfold zlen in *; lia).
    f_equal. unfold zlen. lia. }
  cbn [or_panic obind].
  destruct (Z.eqb_spec (crc (record_header_prefix r ++ rec_data r))
    (crc (record_header_prefix r ++ take (length (rec_data r)) post))) as [He|He]; cbn [negb].
  - rewrite bool_decide_true by done. cbn [negb].
    assert (zlen (take (length (rec_data r)) post) = zlen (rec_data r)) as Htl.
    { unfold zlen in *. rewrite length_take. lia. }
    rewrite (proj2 (WalRecord_new_ok _ _ _ (mkWalRecord (rec_seq r)
      (mkRange (br_start (rec_range r)) (zlen (rec_data r))) (take (length (rec_data r)) post)))).
    + cbn. do 3 f_equal. rewrite Hdl. by destruct (rec_range r).
    + split_and!; try done. intros Ht. rewrite Ht in Htl. unfold zlen in Htl. cbn in Htl.
      apply Hne. apply length_zero_iff_nil. lia.
  - rewrite bool_decide_false by congruence. done.
Qed.

Lemma decode_record_at_frame r pre post :
  record_wf r → zlen (pre ++ frame crc r ++ post) + zlen (rec_data r) ≤ u64_max →
  decode_record_at crc (pre ++ frame crc r ++ post) (zlen pre)
  = Ok (r, zlen pre + zlen (frame crc r)).
Proof.
  intros Hwf. rewrite frame_length. unfold frame. rewrite <-!app_assoc.
  rewrite (app_assoc _ (le_bytes 4 _)). intros Hlen.
  rewrite decode_record_at_header by done. pose proof (zlen_nonneg post).
  rewrite zlen_app. rewrite (proj2 (Z.ltb_ge _ _)) by lia.
  rewrite take_app_length, bool_decide_true by done. cbn [negb].
  do 2 f_equal; [by destruct r|lia].
Qed.

(** A frame cut short anywhere, at the end of the data. *)
Lemma decode_record_at_torn r pre cut :
  record_wf r → cut `prefix_of` frame crc r → zlen cut < zlen (frame crc r) →
  zlen pre + zlen (frame crc r) + zlen (rec_data r) ≤ u64_max →
  decode_record_at crc (pre ++ cut) (zlen pre) = Err partial_header ∨
  decode_record_at crc (pre ++ cut) (zlen pre) = Err partial_payload.
Proof.
  intros Hwf Hpre Hlt Hlen. rewrite frame_length in *. unfold RECORD_HEADER_LEN in *.
  pose proof (zlen_nonneg cut). pose proof (zlen_nonneg pre). pose proof (zlen_nonneg (rec_data r)).
  destruct (Z.lt_ge_cases (zlen cut) 40) as [Hs|Hge].
  { left. unfold decode_record_at, RECORD_HEADER_LEN. rewrite zlen_app, u64_sub_id by lia.
    by rewrite (proj2 (Z.ltb_lt _ _)) by lia. }
  right. unfold frame in Hpre. rewrite app_assoc in Hpre.
  set (header := record_header_prefix r ++ le_bytes 4 _) in Hpre.
  assert (length header = 40%nat) as Hh.
  { unfold header. by rewrite length_app, record_header_prefix_length, length_le_bytes. }
  destruct Hpre as [rest Hrest]. assert (40 ≤ length cut)%nat by (unfold zlen in Hge; lia).
  assert (cut = header ++ drop 40 cut) as Hcut.
  { rewrite <-(take_drop 40 cut) at 1. f_equal. apply (f_equal (take 40)) in Hrest.
    rewrite (take_app_le header), (take_app_le cut), (take_ge header) in Hrest by lia. done. }
  rewrite Hcut. unfold header. rewrite decode_record_at_header; [|done|].
  - rewrite (proj2 (Z.ltb_lt _ _)); [done|]. unfold zlen in *. rewrite length_drop. lia.
  - fold header. rewrite <-Hcut, zlen_app. lia.
Qed.

Lemma decode_segment_header_ok seq tail :
  is_u64 seq → decode_segment_header crc (encode_segment_header crc seq ++ tail) = Ok seq.
Proof.
  intros Hs. unfold encode_segment_header, segment_header_prefix. rewrite <-(app_assoc _ _ tail).
  destruct (segment_layout (le_bytes 2 WAL_FORMAT_VERSION) (le_bytes 2 SEGMENT_HEADER_LEN)
    (le_bytes 8 seq) (le_bytes 4 (crc (segment_header_prefix seq))) tail)
    as (Hl & H0 & H8 & H10 & H12 & H20 & Hcov); try apply length_le_bytes.
  fold (segment_header_prefix seq) in *. set (data := _ ++ _ ++ tail) in *.
  unfold decode_segment_header, SEGMENT_HEADER_LEN, uint_at in *.
  rewrite (proj2 (Z.ltb_ge _ _)) by lia. rewrite H0. cbn [or_panic obind].
  rewrite bool_decide_true by done. cbn [negb].
  change (8 + 2) with 10. change (10 + 2) with 12. change (20 + 4) with 24. change (12 + 8) with 20.
  rewrite H8, H10, H12, H20, Hcov. cbn [or_panic omapo obind].
  rewrite le_value_u32, le_value_u64 by done. rewrite !(le_value_small 2) by by_compute.
  by rewrite !Z.eqb_refl.
Qed.

Lemma segment_header_length seq : zlen (encode_segment_header crc seq) = SEGMENT_HEADER_LEN.
Proof.
  unfold encode_segment_header, segment_header_prefix, zlen.
  by rewrite !length_app, !length_le_bytes.
Qed.

Lemma uint_at_ok {E} n data off :
  0 ≤ off → off + n ≤ zlen data → 0 ≤ n →
  ∃ v, uint_at (E:=E) n data off = Ok v ∧ 0 ≤ v < 256 ^ n.
Proof.
  intros. destruct (slice_exists data off (off + n)) as [bs Hbs]; [lia..|].
  exists (le_value bs). unfold uint_at. rewrite Hbs. split; [done|].
  pose proof (le_value_bound bs). apply slice_length in Hbs. unfold zlen in Hbs.
  replace n with (Z.of_nat (length bs)) by lia. done.
Qed.

(** Whatever the bytes, decoding inside the data does not panic; a record it
    returns is well formed, and the offset it returns is past the frame and
    within the data. *)
Lemma decode_record_at_total data off :
  0 ≤ off ≤ zlen data → zlen data ≤ u64_max →
  match decode_record_at crc data off with
  | Ok (r, next) => record_wf r ∧ next = off + RECORD_HEADER_LEN + zlen (rec_data r) ∧ next ≤ zlen data
  | Err _ => True
  | Panic => False
  end.
Proof.
  intros Hoff Hlen. unfold decode_record_at, RECORD_HEADER_LEN, RECORD_CRC_OFFSET.
  rewrite u64_sub_id by lia. destruct (Z.ltb_spec (zlen data - off) 40) as [|Hge]; [done|].
  destruct (slice_exists data off (off + 40)) as [h Hh]; [lia..|]. rewrite Hh. cbn [or_panic obind].
  apply slice_length in Hh. destruct (slice_exists h 0 8) as [mg ->]; [lia..|]. cbn [or_panic obind].
  destruct (bool_decide _); [|done]. cbn [negb].
  destruct (uint_at_ok (E:=RecordDecodeError) 2 h 8) as (v & -> & _); [lia..|]. cbn [obind].
  destruct (_ =? _); [|done]. cbn [negb].
  destruct (uint_at_ok (E:=RecordDecodeError) 2 h 10) as (hl & -> & _); [lia..|]. cbn [obind].
  destruct (_ =? _); [|done]. cbn [negb].
  destruct (uint_at_ok (E:=RecordDecodeError) 2 h 12) as (k & -> & _); [lia..|]. cbn [obind].
  destruct (_ =? _); [|done]. cbn [negb].
  destruct (uint_at_ok (E:=RecordDecodeError) 8 h 16) as (s & -> & Hs); [lia..|]. cbn [obind].
  destruct (uint_at_ok (E:=RecordDecodeError) 8 h 24) as (st & -> & Hst); [lia..|]. cbn [obind].
  destruct (uint_at_ok (E:=RecordDecodeError) 4 h 32) as (ln & -> & Hln); [lia..|]. cbn [obind].
  destruct (u64_checked_add off 40 ≫= _) as [next|] eqn:Hn; [|done]. cbn [ok_or obind].
  apply bind_Some in Hn as (n1 & [_ ->]%u64_checked_add_Some & [_ ->]%u64_checked_add_Some).
  destruct (Z.ltb_spec (zlen data) (off + 40 + ln)) as [|Hfit]; [done|]. rewrite u64_add_id by lia.
  destruct (slice_exists data (off + 40) (off + 40 + ln)) as [p Hp]; [lia..|].
  rewrite Hp. cbn [or_panic obind]. apply slice_length in Hp.
  destruct (slice_exists h 0 36) as [cv ->]; [lia..|]. cbn [or_panic obind].
  destruct (uint_at_ok (E:=RecordDecodeError) 4 h 36) as (c & -> & _); [lia..|]. cbn [obind].
  destruct (_ =? _); [|done]. cbn [negb].
  destruct (WalRecord_new s (mkRange st ln) p) as [r|e|] eqn:Hr; cbn [map_err obind]; [|done|].
  - apply WalRecord_new_ok in Hr as (Hs0 & Hne & Hl & ->). cbn in Hl.
    unfold record_wf, is_u64, is_u32, u64_max, u32_max. cbn [rec_seq rec_range rec_data br_start br_len].
    cbn in Hs, Hst, Hln. split_and!; try lia; done.
  - revert Hr. unfold WalRecord_new, WalRequest_new, WalRecord_from_request.
    destruct p; cbn; repeat case_match; cbn; repeat case_match; try discriminate; done.
Qed.
End frames.

(** ** A checksum for the examples

    CRC-32C (polynomial [0x1EDC6F41], reflected), one bit at a time. *)

Definition crc32c_bit (x : Z) : Z :=
  if Z.odd x then Z.lxor (Z.shiftr x 1) 0x82F63B78 else Z.shiftr x 1.
Definition crc32c_step (acc : Z) (b : byte) : Z :=
  Nat.iter 8 crc32c_bit (Z.lxor acc (byte_val b)).
Definition crc32c (bs : list byte) : Z := as_u32 (Z.lxor (foldl crc32c_step u32_max bs) u32_max).

Lemma crc32c_u32 bs : is_u32 (crc32c bs).
Proof.
  unfold crc32c, as_u32, is_u32, u32_max.
  pose proof (Z.mod_pos_bound (Z.lxor (foldl crc32c_step 4294967295 bs) 4294967295) (4294967295 + 1)).
  lia.
Qed.

(** The check value of the algorithm. *)
Example crc32c_check :
  crc32c ["1"%byte; "2"%byte; "3"%byte; "4"%byte; "5"%byte; "6"%byte; "7"%byte; "8"%byte; "9"%byte]
  = 0xE3069283.
Proof. vm_compute. reflexivity. Qed.

Definition sample_record (seq : Z) : WalRecord :=
  mkWalRecord seq (mkRange 4096 3) ["o"%byte; "n"%byte; "e"%byte].

(** ** Theorems *)

(** A WAL record survives its encoding.  Wherever its frame lies in a
    segment, decoding at the start of the frame returns the record and the
    offset just past the frame, whatever the bytes before and after. *)
Theorem wal_record_roundtrip crc r pre post :
  (∀ bs, is_u32 (crc bs)) → record_wf r →
  zlen (pre ++ frame crc r ++ post) + zlen (rec_data r) ≤ u64_max →
  encode_record crc r = Ok (frame crc r) ∧
  decode_record_at crc (pre ++ frame crc r ++ post) (zlen pre)
  = Ok (r, zlen pre + zlen (frame crc r)).
Proof. intros Hc Hwf Hl. split; [apply encode_record_ok|by apply decode_record_at_frame]. Qed.

Lemma wal_record_roundtrip_witness :
  decode_record_at crc32c ([x00] ++ frame crc32c (sample_record 7) ++ [x00; x00]) 1
  = Ok (sample_record 7, 44).
Proof.
  apply (wal_record_roundtrip crc32c (sample_record 7) [x00] [x00; x00]);
    [apply crc32c_u32 | by_compute | by_compute].
Defined.

(** A write of a frame that was cut short anywhere is recognised as a torn
    tail: decoding fails with an error whose repair offset is the start of the
    frame, so a scan of the newest segment drops exactly the torn bytes. *)
Theorem torn_frame_repairable crc r pre cut :
  (∀ bs, is_u32 (crc bs)) → record_wf r →
  cut `prefix_of` frame crc r → zlen cut < zlen (frame crc r) →
  zlen pre + zlen (frame crc r) + zlen (rec_data r) ≤ u64_max →
  ∃ e, decode_record_at crc (pre ++ cut) (zlen pre) = Err e ∧
       repair_offset e (zlen (pre ++ cut)) (zlen pre) = Some (zlen pre).
Proof.
  intros Hc Hwf Hp Hlt Hl.
  destruct (decode_record_at_torn crc Hc r pre cut Hwf Hp Hlt Hl) as [H|H]; eexists; by split.
Qed.

Lemma torn_frame_repairable_witness :
  ∃ e, decode_record_at crc32c ([x00] ++ take 41 (frame crc32c (sample_record 7))) 1 = Err e ∧
       repair_offset e 42 1 = Some 1.
Proof.
  apply (torn_frame_repairable crc32c (sample_record 7) [x00]);
    [apply crc32c_u32 | by_compute | | by_compute | by_compute].
  exists (drop 41 (frame crc32c (sample_record 7))). vm_compute. reflexivity.
Defined.

(** Decoding is safe on any bytes: inside a segment it never panics, and
    a record it accepts has a non-zero sequence, a non-empty payload of the
    length its range says, and ends within the segment. *)
Theorem decode_record_safe crc data off :
  0 ≤ off ≤ zlen data → zlen data ≤ u64_max →
  match decode_record_at crc data off with
  | Ok (r, next) => record_wf r ∧ next = off + RECORD_HEADER_LEN + zlen (rec_data r) ∧ next ≤ zlen data
  | Err _ => True
  | Panic => False
  end.
Proof. apply decode_record_at_total. Qed.

Lemma decode_record_safe_witness :
  decode_record_at crc32c (zeros 64) 10 ≠ Panic.
Proof.
  pose proof (decode_record_safe crc32c (zeros 64) 10) as H.
  intros Hp. rewrite Hp in H. apply H; by_compute.
Defined.

(** A replay is created exactly from records whose sequences are non-zero
    and strictly increasing, and then yields each of them once, in order. *)
Theorem replay_strictly_ordered records :
  match WalReplay_from_records records with
  | Ok replay => StronglySorted Z.lt (0 :: (rec_seq <$> records)) ∧ replay = records
  | Err _ => ¬ StronglySorted Z.lt (0 :: (rec_seq <$> records))
  | Panic => False
  end.
Proof.
  unfold WalReplay_from_records.
  destruct (replay_ordered 0 records) eqn:H; [by apply replay_ordered_spec in H|].
  rewrite <-replay_ordered_spec, H. done.
Qed.
