(* ===== verification/WalLocal.v ===== *)
(** * The local write-ahead log

    [wal/local.rs]: a directory of segment files, one log per export.  The file
    system is a map from file names to contents together with the list of
    faults it will inject: every call that can fail consumes one decision, and
    a failing write may have written any prefix.  Fuel of the scan loop is the
    length of the segment; each iteration consumes at least a record header. *)

From S2P Require Import Prelude ControlPlane Server Wal.
From Stdlib Require Import Strings.Byte Strings.Ascii Strings.String.

#[local] Open Scope string_scope.
#[local] Open Scope list_scope.
#[local] Open Scope Z_scope.

Definition LOCAL_WAL_SEGMENT_TARGET_BYTES : Z := 128 * 1024 * 1024.
Definition WAL_SEGMENT_EXTENSION : string := "wal".

(** ** Numbers in file names *)

Definition digit_ascii (d : Z) : ascii := ascii_of_nat (48 + Z.to_nat d).

(** The decimal digits of [z], least significant first, in [n] places. *)
Fixpoint dec_digits (n : nat) (z : Z) : list Z :=
  match n with
  | O => []
  | S n => z mod 10 :: dec_digits n (z / 10)
  end.

(** The number of decimal digits of a [u64]. *)
Fixpoint dec_width (fuel : nat) (z : Z) : nat :=
  match fuel with
  | O => 1%nat
  | S fuel => if z <? 10 then 1%nat else S (dec_width fuel (z / 10))
  end.

Definition string_of_digits (ds : list Z) : string :=
  string_of_list_ascii (digit_ascii <$> rev ds).

(** [format!("{:016}", z)]. *)
Definition format_016 (z : Z) : string :=
  string_of_digits (dec_digits (Nat.max 16 (dec_width 20 z)) z).

Definition digit_value (c : ascii) : option Z :=
  let n := Z.of_nat (nat_of_ascii c) in
  if (48 <=? n) && (n <=? 57) then Some (n - 48) else None.

Fixpoint parse_digits (acc : Z) (cs : list ascii) : option Z :=
  match cs with
  | [] => Some acc
  | c :: cs =>
      match digit_value c with
      | Some d =>
          match u64_checked_mul acc 10 with
          | Some acc10 =>
              match u64_checked_add acc10 d with
              | Some acc => parse_digits acc cs
              | None => None
              end
          | None => None
          end
      | None => None
      end
  end.

(** [str::parse::<u64>]: an optional plus sign, then at least one digit. *)
Definition parse_u64 (s : string) : option Z :=
  match list_ascii_of_string s with
  | [] => None
  | ["+"%char] => None
  | "+"%char :: cs => parse_digits 0 cs
  | cs => parse_digits 0 cs
  end.

(** ** Paths inside the log directory

    A path is the file name in the directory.  [split_extension] is
    [Path::file_stem] with [Path::extension]: the last dot separates them,
    unless it is the first character. *)

Fixpoint split_last_dot (cs : list ascii) : option (list ascii * list ascii) :=
  match cs with
  | [] => None
  | c :: cs =>
      match split_last_dot cs with
      | Some (stem, ext) => Some (c :: stem, ext)
      | None => if Ascii.eqb c "."%char then Some ([], cs) else None
      end
  end.

Definition split_extension (name : string) : string * option string :=
  match split_last_dot (list_ascii_of_string name) with
  | Some ((_ :: _) as stem, ext) => (string_of_list_ascii stem, Some (string_of_list_ascii ext))
  | _ => (name, None)
  end.

Definition segment_path (first_seq : Z) : string := format_016 first_seq +:+ ".wal".

Definition parse_segment_file_name (name : string) : SResult Z :=
  let stem := (split_extension name).1 in
  if negb (utf8_valid (list_byte_of_string stem)) then
    Err (ServerError_wal "parse WAL segment name" "segment path {} has no UTF-8 file stem")
  else
    let? seq := ok_or (parse_u64 stem)
      (ServerError_wal "parse WAL segment name" "segment path {} has invalid sequence: {source}") in
    if seq =? 0 then
      Err (ServerError_wal "parse WAL segment name" "segment path {} starts at sequence zero")
    else Ok seq.

Definition next_seq_after (seq : Z) : SResult Z :=
  ok_or (u64_checked_add seq 1) (ServerError_wal "assign WAL sequence" "WAL sequence overflow").

Definition previous_seq_before (seq : Z) : SResult Z :=
  ok_or (u64_checked_sub seq 1) (ServerError_wal "read WAL segment" "segment starts at sequence zero").

Definition hex_digit (d : Z) : ascii :=
  if d <? 10 then ascii_of_nat (48 + Z.to_nat d) else ascii_of_nat (87 + Z.to_nat d).

Fixpoint hex_encode (bytes : list byte) : list ascii :=
  match bytes with
  | [] => []
  | b :: bytes =>
      hex_digit (Z.shiftr (byte_val b) 4) :: hex_digit (Z.land (byte_val b) 0x0f) :: hex_encode bytes
  end.

(** A name [s] with [root.join(s).parent() == Some(root)]: one normal component. *)
Definition single_component (s : string) : bool :=
  negb (bool_decide (s ∈ [""; "."; ".."])) &&
  negb (bool_decide ("/"%char ∈ list_ascii_of_string s)).

(** The directory of an export, as its name under the root. *)
Definition export_wal_dir (export_id : ExportId) : SResult string :=
  let encoded := string_of_list_ascii (hex_encode (list_byte_of_string export_id)) in
  if negb (single_component encoded) then
    Err (ServerError_wal "resolve WAL directory" "export id `{export_id}` escaped WAL root")
  else Ok encoded.

(** ** The file system *)

Inductive fault : Type :=
| Pass
| Fail (written : nat).  (** the bytes a failing write has written *)

Record Fs := mkFs { fs_files : gmap string (list byte); fs_faults : list fault }.

Abbreviation FS A := (M Fs ServerError A) (only parsing).

(** The decision for the next call; with none left, calls succeed. *)
Definition next_fault : FS fault := λ fs,
  match fs_faults fs with
  | [] => (Ok Pass, fs)
  | f :: faults => (Ok f, mkFs (fs_files fs) faults)
  end.

Definition io_error {A} (context : string) : FS A := mfail (ServerError_io context "io error").

(** A call with no effect on the files: creating the directory, syncing. *)
Definition io_call (context : string) : FS unit :=
  let! f := next_fault in
  match f with Pass => mret tt | Fail _ => io_error context end.

Definition set_file (name : string) (data : list byte) : FS unit :=
  mmodify (λ fs, mkFs (<[name := data]> (fs_files fs)) (fs_faults fs)).

(** A call on an existing file. *)
Definition open_existing (context name : string) : FS (list byte) :=
  let! _ := io_call context in
  let! fs := mget in
  match fs_files fs !! name with
  | Some data => mret data
  | None => io_error context
  end.

Definition create_new (context name : string) : FS unit :=
  let! _ := io_call context in
  let! fs := mget in
  match fs_files fs !! name with
  | Some _ => io_error context
  | None => set_file name []
  end.

(** [write_all] at the end of an open file. *)
Definition write_all (context name : string) (bytes : list byte) : FS unit :=
  let! f := next_fault in
  let! fs := mget in
  let old := default [] (fs_files fs !! name) in
  match f with
  | Pass => set_file name (old ++ bytes)
  | Fail written => let! _ := set_file name (old ++ take written bytes) in io_error context
  end.

Definition set_len (context name : string) (n : Z) : FS unit :=
  let! _ := io_call context in
  let! fs := mget in
  let old := default [] (fs_files fs !! name) in
  set_file name (take (Z.to_nat n) (old ++ zeros (n - zlen old))).

Definition remove_file (context name : string) : FS unit :=
  let! _ := io_call context in
  let! fs := mget in
  match fs_files fs !! name with
  | Some _ => mmodify (λ fs, mkFs (delete name (fs_files fs)) (fs_faults fs))
  | None => io_error context
  end.

Definition sync_directory : FS unit := io_call "sync WAL directory".

(** ** Scanning the directory *)

Record SegmentScan := mkScan {
  ss_first_seq : Z;
  ss_path : string;
  ss_len_bytes : Z;
  ss_records : list WalRecord;
}.

Record ActiveSegment := mkActive { as_path : string; as_len_bytes : Z }.
Record LocalWalState := mkWalState { ws_bounds : WalBounds; ws_active : option ActiveSegment }.

(** The [next_entry] loop of [scan_segments]; the end of the listing is one more
    call. *)
Fixpoint collect_entries (names : list string) : FS (list (Z * string)) :=
  match names with
  | [] => let! _ := io_call "read WAL directory entry" in mret []
  | name :: names =>
      let! _ := io_call "read WAL directory entry" in
      if negb (bool_decide ((split_extension name).2 = Some WAL_SEGMENT_EXTENSION))
      then collect_entries names
      else
        let! first_seq := mlift (parse_segment_file_name name) in
        let! entries := collect_entries names in
        mret ((first_seq, name) :: entries)
  end.

(** [entries.sort_by_key(|(first_seq, _)| *first_seq)], a stable sort. *)
Fixpoint insert_by_key (e : Z * string) (l : list (Z * string)) : list (Z * string) :=
  match l with
  | [] => [e]
  | e' :: l' => if e.1 <=? e'.1 then e :: l else e' :: insert_by_key e l'
  end.
Definition sort_by_key (l : list (Z * string)) : list (Z * string) := foldr insert_by_key [] l.

Definition truncate_segment_tail (name : string) (offset : Z) : FS unit :=
  let! _ := open_existing "open WAL segment for tail repair" name in
  let! _ := set_len "truncate WAL segment tail" name offset in
  io_call "sync WAL segment after tail repair".

Section local_wal.
Context (crc : list byte → Z).

(** The [while offset < data.len()] loop of [scan_segment]: the records from
    [offset] on and the length of the segment after a repair. *)
Fixpoint scan_records (name : string) (data : list byte) (is_newest : bool) (fuel : nat)
    (offset expected_seq : Z) : FS (list WalRecord * Z) :=
  if negb (offset <? zlen data) then mret ([], zlen data)
  else
    match fuel with
    | O => mlift Panic
    | S fuel =>
        match decode_record_at crc data offset with
        | Panic => mlift Panic
        | Err error =>
            if is_newest && bool_decide (is_Some (repair_offset error (zlen data) offset)) then
              let! _ := truncate_segment_tail name offset in
              mret ([], offset)
            else mfail (rde_error error)
        | Ok (record, next_offset) =>
            if negb (rec_seq record =? expected_seq) then
              mfail (ServerError_wal "scan WAL segment"
                       "record sequence {} does not match expected {}")
            else
              let! expected_seq := mlift (next_seq_after (rec_seq record)) in
              let! rest := scan_records name data is_newest fuel next_offset expected_seq in
              mret (record :: rest.1, rest.2)
        end
    end.

Definition scan_segment (name : string) (expected_first_seq : Z) (is_newest : bool)
    : FS SegmentScan :=
  let! data := open_existing "read WAL segment" name in
  let! first_seq := mlift (decode_segment_header crc data) in
  if negb (first_seq =? expected_first_seq) then
    mfail (ServerError_wal "scan WAL segment"
             "segment header first_seq {} does not match expected {}")
  else
    let! scanned := scan_records name data is_newest (List.length data) SEGMENT_HEADER_LEN first_seq in
    mret (mkScan first_seq name scanned.2 scanned.1).

(** The loop of [scan_segments] over the sorted entries. *)
Fixpoint scan_entries (entries : list (Z * string)) (expected_seq : Z) : FS (list SegmentScan) :=
  match entries with
  | [] => mret []
  | (first_seq, name) :: rest =>
      if negb (first_seq =? expected_seq) then
        mfail (ServerError_wal "scan WAL" "segment {} starts at {}, expected {}")
      else
        let! scan := scan_segment name expected_seq (match rest with [] => true | _ => false end) in
        let! expected_seq :=
          match last (ss_records scan) with
          | Some record => mlift (next_seq_after (rec_seq record))
          | None => mret (ss_first_seq scan)
          end in
        let! scans := scan_entries rest expected_seq in
        mret (scan :: scans)
  end.

Definition scan_segments : FS (list SegmentScan) :=
  let! _ := io_call "read WAL directory" in
  let! fs := mget in
  let! entries := collect_entries (map_to_list (fs_files fs)).*1 in
  let entries := sort_by_key entries in
  let expected_seq := match entries with (first_seq, _) :: _ => first_seq | [] => 1 end in
  scan_entries entries expected_seq.

Definition max_seq (scan : SegmentScan) : SResult Z :=
  match last (ss_records scan) with
  | Some record => Ok (rec_seq record)
  | None => previous_seq_before (ss_first_seq scan)
  end.

(** One step of the loop of [scan_wal_dir]. *)
Definition scan_state_step (acc : Z * option ActiveSegment) (scan : SegmentScan)
    : Z * option ActiveSegment :=
  (match last (ss_records scan) with Some record => rec_seq record | None => acc.1 end,
   Some (mkActive (ss_path scan) (ss_len_bytes scan))).

Definition scan_wal_dir : FS LocalWalState :=
  let! scans := scan_segments in
  let! pruned :=
    match scans with
    | scan :: _ => mlift (previous_seq_before (ss_first_seq scan))
    | [] => mret 0
    end in
  let '(last, active) := foldl scan_state_step (pruned, None) scans in
  let! bounds := mlift (WalBounds_new pruned last) in
  mret (mkWalState bounds active).

(** ** The open log *)

(** [LocalExportWal] with its directory; the lock on [state] makes each
    operation below one step. *)
Record World := mkWorld { w_fs : Fs; w_state : LocalWalState }.

Abbreviation W A := (M World ServerError A) (only parsing).

Definition fs_op {A} (m : FS A) : W A := zoom w_fs (λ fs w, mkWorld fs (w_state w)) m.
Definition get_state : W LocalWalState := let! w := mget in mret (w_state w).
Definition put_state (st : LocalWalState) : W unit := mmodify (λ w, mkWorld (w_fs w) st).

(** [LocalExportWal::open]. *)
Definition wal_open : FS LocalWalState :=
  let! _ := io_call "create WAL directory" in
  let! _ := sync_directory in
  scan_wal_dir.

Definition write_new_segment (name : string) (first_seq : Z) : FS unit :=
  let! _ := create_new "create WAL segment" name in
  let! _ := write_all "write WAL segment header" name (encode_segment_header crc first_seq) in
  io_call "sync WAL segment header".

Definition sync_and_reload_wal_state : W unit :=
  let! _ := fs_op sync_directory in
  let! st := fs_op scan_wal_dir in
  put_state st.

Definition ensure_active_segment (segment_target_bytes : Z) : W unit :=
  let! st := get_state in
  let! next_seq := mlift (next_seq_after (last_durable (ws_bounds st))) in
  let should_create :=
    match ws_active st with
    | None => true
    | Some active => segment_target_bytes <=? as_len_bytes active
    end in
  if negb should_create then mret tt
  else
    let path := segment_path next_seq in
    let! _ := fs_op (write_new_segment path next_seq) in
    let! _ := fs_op sync_directory in
    put_state (mkWalState (ws_bounds st) (Some (mkActive path SEGMENT_HEADER_LEN))).

Definition wal_append (segment_target_bytes : Z) (request : WalRequest) : W WalRecord :=
  let! _ := ensure_active_segment segment_target_bytes in
  let! st := get_state in
  let! seq := mlift (next_seq_after (last_durable (ws_bounds st))) in
  let! record := mlift (WalRecord_from_request seq request) in
  let! frame := mlift (encode_record crc record) in
  let! active := mlift (or_panic (ws_active st)) in
  let! _ := fs_op (open_existing "open WAL segment for append" (as_path active)) in
  let! _ := fs_op (write_all "write WAL record" (as_path active) frame) in
  let! _ := fs_op (io_call "sync WAL segment") in
  let! _ := put_state (mkWalState
    (mkWalBounds (pruned_through (ws_bounds st)) seq)
    (Some (mkActive (as_path active) (u64_add (as_len_bytes active) (zlen frame))))) in
  mret record.

Definition validate_replay_range (bounds : WalBounds) (after through : Z) : SResult unit :=
  if through <? after then
    Err (ServerError_wal "replay WAL" "through sequence {through} is less than after sequence {after}")
  else if after <? pruned_through bounds then
    Err (ServerError_wal "replay WAL" "requested checkpoint {} is older than pruned WAL prefix {}")
  else if last_durable bounds <? through then
    Err (ServerError_wal "replay WAL" "through sequence {} is greater than last durable {}")
  else Ok tt.

Definition load_records : FS (list WalRecord) :=
  let! scans := scan_segments in mret (scans ≫= ss_records).

Definition replay_range (after through : Z) : W (list WalRecord) :=
  let! st := get_state in
  let! _ := mlift (validate_replay_range (ws_bounds st) after through) in
  let! records := fs_op load_records in
  mlift (WalReplay_from_records
    (filter (λ r, after < rec_seq r ∧ rec_seq r ≤ through) records)).

Definition replay_after (after : Z) : W (list WalRecord) :=
  let! st := get_state in replay_range after (last_durable (ws_bounds st)).

(** The loop of [prune_through] over the scans other than the active one:
    the number of removed segments. *)
Fixpoint prune_inactive (seq : Z) (active_path : option string) (removed : Z)
    (scans : list SegmentScan) : W Z :=
  match scans with
  | [] => mret removed
  | scan :: scans =>
      if bool_decide (Some (ss_path scan) = active_path)
      then prune_inactive seq active_path removed scans
      else
        let! max := mlift (max_seq scan) in
        if max <=? seq then
          λ w, match fs_op (remove_file "remove WAL segment" (ss_path scan)) w with
               | (Ok _, w) => prune_inactive seq active_path (removed + 1) scans w
               | (Err source, w) =>
                   (let! _ := if 0 <? removed then sync_and_reload_wal_state else mret tt in
                    mfail source) w
               | (Panic, w) => (Panic, w)
               end
        else prune_inactive seq active_path removed scans
  end.

(** The part of [prune_through] that replaces a fully pruned active segment:
    whether it did. *)
Definition prune_active (seq : Z) (active_path : option string) (scans : list SegmentScan)
    : W bool :=
  match list_find (λ scan, Some (ss_path scan) = active_path) scans with
  | None => mret false
  | Some (_, active_scan) =>
      let! replace :=
        match ss_records active_scan with
        | [] => mret false
        | _ => let! max := mlift (max_seq active_scan) in mret (max <=? seq)
        end in
      if (replace : bool) then
        let! st := get_state in
        let! next_seq := mlift (next_seq_after (last_durable (ws_bounds st))) in
        let new_path := segment_path next_seq in
        let! _ := fs_op (write_new_segment new_path next_seq) in
        let! _ := fs_op sync_directory in
        let! _ := put_state (mkWalState (ws_bounds st) (Some (mkActive new_path SEGMENT_HEADER_LEN))) in
        λ w, match fs_op (remove_file "remove active WAL segment" (ss_path active_scan)) w with
             | (Ok _, w) => (Ok true, w)
             | (Err source, w) => (let! _ := sync_and_reload_wal_state in mfail source) w
             | (Panic, w) => (Panic, w)
             end
      else mret false
  end.

Definition prune_through (seq : Z) : W WalPruneResult :=
  let! st := get_state in
  if last_durable (ws_bounds st) <? seq then
    mfail (ServerError_wal "prune WAL" "requested prune sequence {} is greater than last durable {}")
  else
    let! scans := fs_op scan_segments in
    let active_path := as_path <$> ws_active st in
    let! removed := prune_inactive seq active_path 0 scans in
    let! replaced := prune_active seq active_path scans in
    let removed := if replaced then removed + 1 else removed in
    let! _ := if 0 <? removed then sync_and_reload_wal_state else mret tt in
    let! st := get_state in
    mret (mkWalPruneResult seq (pruned_through (ws_bounds st)) removed).
End local_wal.

(** ** Directories of different exports *)

Lemma hex_digit_inj a b : 0 ≤ a < 16 → 0 ≤ b < 16 → hex_digit a = hex_digit b → a = b.
Proof.
  intros Ha Hb He. unfold hex_digit in He.
  apply (f_equal nat_of_ascii) in He. revert He.
  destruct (Z.ltb_spec a 10), (Z.ltb_spec b 10); rewrite !nat_ascii_embedding by lia; lia.
Qed.

Lemma hex_encode_inj l k : hex_encode l = hex_encode k → l = k.
Proof.
  revert k. induction l as [|b l IH]; intros [|c k]; cbn [hex_encode]; try done.
  intros [= Hhi Hlo He]. pose proof (byte_val_range b). pose proof (byte_val_range c).
  rewrite !Z.shiftr_div_pow2 in Hhi by lia.
  change 15 with (Z.ones 4) in Hlo. rewrite !Z.land_ones in Hlo by lia.
  change (2 ^ 4) with 16 in *.
  apply hex_digit_inj in Hhi; [|dlia|dlia]. apply hex_digit_inj in Hlo; [|dlia|dlia].
  f_equal; [|by apply IH].
  rewrite <-(byte_of_val b), <-(byte_of_val c). f_equal. dlia.
Qed.

Lemma hex_digit_not_slash d : 0 ≤ d < 16 → hex_digit d ≠ "/"%char ∧ hex_digit d ≠ "."%char.
Proof.
  intros Hd. unfold hex_digit. split; intros He; apply (f_equal nat_of_ascii) in He;
    change (nat_of_ascii "/"%char) with 47%nat in He; change (nat_of_ascii "."%char) with 46%nat in He;
    destruct (Z.ltb_spec d 10); rewrite nat_ascii_embedding in He by lia; lia.
Qed.

Lemma hex_encode_chars l : Forall (λ c, c ≠ "/"%char ∧ c ≠ "."%char) (hex_encode l).
Proof.
  induction l as [|b l IH]; [constructor|]. cbn [hex_encode]. pose proof (byte_val_range b).
  repeat constructor; try done; apply hex_digit_not_slash.
  all: rewrite ?Z.shiftr_div_pow2 by lia; change 15 with (Z.ones 4); rewrite ?Z.land_ones by lia.
  all: change (2 ^ 4) with 16; dlia.
Qed.

(** Exports do not share log directories.  Every non-empty export id has a
    directory directly under the log root, and different ids have different
    directories. *)
Theorem export_wal_dir_injective a b :
  a ≠ "" →
  ∃ d, export_wal_dir a = Ok d ∧ single_component d = true ∧ (export_wal_dir b = Ok d → b = a).
Proof.
  intros Ha. unfold export_wal_dir.
  set (enc x := string_of_list_ascii (hex_encode (list_byte_of_string x))).
  assert (single_component (enc a) = true) as Hs.
  { unfold single_component, enc. rewrite list_ascii_of_string_of_list_ascii.
    pose proof (hex_encode_chars (list_byte_of_string a)) as Hc. rewrite Forall_forall in Hc.
    rewrite !bool_decide_false; [done| |].
    - intros Hin. by destruct (Hc _ Hin).
    - intros Hin. assert (∀ s, string_of_list_ascii (hex_encode (list_byte_of_string a)) = s →
        hex_encode (list_byte_of_string a) = list_ascii_of_string s) as Hback.
      { intros s <-. by rewrite list_ascii_of_string_of_list_ascii. }
      apply elem_of_cons in Hin as [He%Hback|Hin].
      { destruct a as [|c a]; [done|]. discriminate He. }
      apply elem_of_cons in Hin as [He%Hback|Hin]; [|apply elem_of_cons in Hin as [He%Hback|Hin]].
      + rewrite He in Hc. destruct (Hc "."%char); [set_solver|done].
      + rewrite He in Hc. destruct (Hc "."%char); [set_solver|done].
      + set_solver. }
  exists (enc a). fold (enc a). rewrite Hs. split_and!; try done.
  fold (enc b). destruct (single_component (enc b)); [|done]. cbn [negb]. intros [= He].
  apply (f_equal list_ascii_of_string) in He. unfold enc in He.
  rewrite !list_ascii_of_string_of_list_ascii in He. apply hex_encode_inj in He.
  apply (f_equal string_of_list_byte) in He. by rewrite !string_of_list_byte_of_string in He.
Qed.

Lemma export_wal_dir_injective_witness : export_wal_dir "vm" = Ok "766d".
Proof.
  destruct (export_wal_dir_injective "vm" "vm" ltac:(discriminate)) as (d & Hd & _ & _).
  rewrite Hd. revert Hd. vm_compute. intros [= <-]. reflexivity.
Defined.
