(* ===== verification/WalRecovery.v ===== *)
(** * Correctness of the local write-ahead log

    The abstract log is a pruned prefix and the list of records after it.  A
    directory represents it by a chain of segments; scanning recovers the
    records from the directory, also after a crash in the middle of an append,
    and every operation keeps the representation. *)

From S2P Require Import Prelude ControlPlane Server Wal WalLocal.
From Stdlib Require Import Strings.Byte Strings.Ascii Strings.String.

#[local] Open Scope string_scope.
#[local] Open Scope list_scope.
#[local] Open Scope Z_scope.

(** ** File names *)

Section names.
Lemma length_dec_digits n z : List.length (dec_digits n z) = n.
Proof. revert z. induction n; intros; cbn; auto. Qed.

Lemma dec_digits_range n z : Forall (λ d, 0 ≤ d < 10) (dec_digits n z).
Proof.
  revert z. induction n; intros; cbn; constructor; [apply Z.mod_pos_bound; lia|auto].
Qed.

Lemma dec_width_bound fuel z : 0 ≤ z < 10 ^ Z.of_nat (S fuel) → z < 10 ^ Z.of_nat (dec_width fuel z).
Proof.
  revert z. induction fuel as [|fuel IH]; intros z Hz; [exact (proj2 Hz)|].
  cbn [dec_width]. destruct (Z.ltb_spec z 10); [change (10 ^ Z.of_nat 1) with 10; lia|].
  rewrite Nat2Z.inj_succ, Z.pow_succ_r by lia. rewrite Nat2Z.inj_succ, Z.pow_succ_r in Hz by lia.
  assert (z / 10 < 10 ^ Z.of_nat (dec_width fuel (z / 10))) by (apply IH; split; dlia). dlia.
Qed.

Lemma digit_value_ascii d : 0 ≤ d < 10 → digit_value (digit_ascii d) = Some d.
Proof.
  intros. unfold digit_value, digit_ascii. rewrite nat_ascii_embedding by lia.
  decide_cmp. f_equal. lia.
Qed.

(** Reading digits most significant first rebuilds the number. *)
Lemma parse_digits_rev n z acc :
  0 ≤ z → 0 ≤ acc → acc * 10 ^ Z.of_nat n + z mod 10 ^ Z.of_nat n ≤ u64_max →
  parse_digits acc (digit_ascii <$> rev (dec_digits n z)) =
    Some (acc * 10 ^ Z.of_nat n + z mod 10 ^ Z.of_nat n).
Proof.
  assert (∀ ds1 ds2 acc', parse_digits acc' (ds1 ++ ds2) =
    match parse_digits acc' ds1 with Some a => parse_digits a ds2 | None => None end) as Happ.
  { induction ds1 as [|c ds1 IH]; intros ds2 acc'; cbn; [done|].
    destruct (digit_value c), (u64_checked_mul acc' 10); cbn; try done.
    destruct (u64_checked_add _ _); auto. }
  revert z acc. induction n as [|n IH]; intros z acc Hz Hacc Hle.
  { cbn. f_equal. rewrite Z.mod_1_r. lia. }
  cbn [dec_digits rev]. rewrite fmap_app, Happ.
  rewrite Nat2Z.inj_succ, Z.pow_succ_r in * by lia.
  rewrite Z.rem_mul_r in * by lia. set (p := 10 ^ Z.of_nat n) in *.
  assert (0 < p) by (apply Z.pow_pos_nonneg; lia).
  pose proof (Z.mod_pos_bound z 10 ltac:(lia)). pose proof (Z.mod_pos_bound (z / 10) p ltac:(lia)).
  rewrite IH by (dlia || lia || nia).
  cbn. rewrite digit_value_ascii by lia.
  rewrite (proj2 (u64_checked_mul_Some _ _ _)) by (split; [|reflexivity]; nia).
  rewrite (proj2 (u64_checked_add_Some _ _ _)) by (split; [|reflexivity]; nia).
  f_equal. lia.
Qed.

Lemma format_016_parse z : is_u64 z → parse_u64 (format_016 z) = Some z.
Proof.
  intros Hz. unfold is_u64, u64_max in Hz. unfold parse_u64, format_016, string_of_digits.
  rewrite list_ascii_of_string_of_list_ascii.
  set (n := Nat.max 16 (dec_width 20 z)).
  assert (z < 10 ^ Z.of_nat n) as Hn.
  { eapply Z.lt_le_trans; [apply (dec_width_bound 20); cbn; lia|].
    apply Z.pow_le_mono_r; [lia|]. unfold n. lia. }
  assert (n = S (n - 1))%nat as Hpos by (unfold n; lia).
  assert (parse_digits 0 (digit_ascii <$> rev (dec_digits n z)) = Some z) as Hparse.
  { rewrite parse_digits_rev; [|lia|lia|]; rewrite Z.mod_small by lia; [f_equal; lia|].
    unfold u64_max. lia. }
  destruct (digit_ascii <$> rev (dec_digits n z)) as [|c cs] eqn:Hcs.
  { apply (f_equal (@List.length ascii)) in Hcs.
    rewrite length_fmap, length_rev, length_dec_digits in Hcs. cbn in Hcs. lia. }
  assert (c ≠ "+"%char) as Hc.
  { intros ->. cbn in Hparse. discriminate. }
  destruct c as [[] [] [] [] [] [] [] []]; try done.
Qed.

Lemma split_last_dot_wal ds :
  Forall (λ c, c ≠ "."%char) ds →
  split_last_dot (ds ++ ["."; "w"; "a"; "l"]%char) = Some (ds, ["w"; "a"; "l"]%char).
Proof. induction 1 as [|c ds Hc Hds IH]; [done|]. cbn. by rewrite IH. Qed.

Lemma digit_not_dot d : 0 ≤ d < 10 → digit_ascii d ≠ "."%char.
Proof.
  intros Hd He. apply digit_value_ascii in Hd. rewrite He in Hd. discriminate.
Qed.

Lemma list_ascii_of_string_app cs s :
  list_ascii_of_string (string_of_list_ascii cs +:+ s) = cs ++ list_ascii_of_string s.
Proof.
  induction cs as [|c cs IH]; [done|]. change (string_of_list_ascii (c :: cs) +:+ s)
    with (String c (string_of_list_ascii cs +:+ s)). cbn [list_ascii_of_string]. by rewrite IH.
Qed.

Lemma split_segment_path z :
  is_u64 z → split_extension (segment_path z) = (format_016 z, Some WAL_SEGMENT_EXTENSION).
Proof.
  intros Hz. unfold split_extension, segment_path, format_016, string_of_digits.
  set (n := Nat.max 16 (dec_width 20 z)).
  rewrite list_ascii_of_string_app. cbn [list_ascii_of_string]. rewrite split_last_dot_wal.
  - destruct (digit_ascii <$> rev (dec_digits n z)) as [|c cs] eqn:Hcs; [|done].
    apply (f_equal (@List.length ascii)) in Hcs.
    rewrite length_fmap, length_rev, length_dec_digits in Hcs. cbn in Hcs. lia.
  - apply Forall_fmap. apply Forall_rev.
    eapply Forall_impl; [apply dec_digits_range|]. intros d. apply digit_not_dot.
Qed.

Lemma utf8_valid_ascii l : Forall (λ b, in_range 0 0x7F b = true) l → utf8_valid l = true.
Proof. induction 1 as [|b l Hb Hl IH]; [done|]. cbn [utf8_valid]. by rewrite Hb. Qed.

Lemma digit_is_ascii d : 0 ≤ d < 10 → in_range 0 0x7F (byte_of_ascii (digit_ascii d)) = true.
Proof.
  intros Hd. assert (d ∈ [0; 1; 2; 3; 4; 5; 6; 7; 8; 9]) as Hin.
  { rewrite !elem_of_cons. lia. }
  repeat (apply elem_of_cons in Hin as [->|Hin]; [vm_compute; reflexivity|]).
  by apply not_elem_of_nil in Hin.
Qed.

Lemma format_016_utf8 z : utf8_valid (list_byte_of_string (format_016 z)) = true.
Proof.
  apply utf8_valid_ascii. unfold list_byte_of_string, format_016, string_of_digits.
  rewrite list_ascii_of_string_of_list_ascii.
  change (List.map byte_of_ascii ?l) with (byte_of_ascii <$> l).
  apply Forall_fmap, Forall_fmap, Forall_rev.
  eapply Forall_impl; [apply dec_digits_range|]. intros d. apply digit_is_ascii.
Qed.

(** The name given to a segment is read back as its first sequence. *)
Lemma parse_segment_path z :
  is_u64 z → z ≠ 0 → parse_segment_file_name (segment_path z) = Ok z.
Proof.
  intros Hz Hnz. unfold parse_segment_file_name. rewrite split_segment_path by done. cbn [fst].
  rewrite format_016_utf8. cbn [negb]. rewrite format_016_parse by done. cbn [ok_or obind].
  by rewrite (proj2 (Z.eqb_neq _ _) Hnz).
Qed.

Lemma segment_path_inj a b : is_u64 a → is_u64 b → segment_path a = segment_path b → a = b.
Proof.
  intros Ha Hb He. apply (f_equal (λ s, parse_u64 (split_extension s).1)) in He.
  rewrite !split_segment_path in He by done. cbn in He. rewrite !format_016_parse in He by done.
  congruence.
Qed.
End names.

(** ** A file system without faults *)

Section no_faults.
Implicit Types (files : gmap string (list byte)).

Lemma io_call_ok ctx files : io_call ctx (mkFs files []) = (Ok tt, mkFs files []).
Proof. done. Qed.

Lemma open_existing_ok ctx name files data :
  files !! name = Some data → open_existing ctx name (mkFs files []) = (Ok data, mkFs files []).
Proof. intros H. unfold open_existing, mseq, io_call, mseq, next_fault, mret, mget. cbn. by rewrite H. Qed.

Lemma create_new_ok ctx name files :
  files !! name = None → create_new ctx name (mkFs files []) = (Ok tt, mkFs (<[name := []]> files) []).
Proof. intros H. unfold create_new, mseq, io_call, mseq, next_fault, mret, mget. cbn. by rewrite H. Qed.

Lemma write_all_ok ctx name bytes files old :
  files !! name = Some old →
  write_all ctx name bytes (mkFs files []) = (Ok tt, mkFs (<[name := old ++ bytes]> files) []).
Proof. intros H. unfold write_all, mseq, next_fault, mget, set_file, mmodify. cbn. by rewrite H. Qed.

Lemma set_len_ok ctx name n files old :
  files !! name = Some old → 0 ≤ n ≤ zlen old →
  set_len ctx name n (mkFs files []) = (Ok tt, mkFs (<[name := take (Z.to_nat n) old]> files) []).
Proof.
  intros H Hn. unfold set_len, mseq, io_call, mseq, next_fault, mret, mget, set_file, mmodify. cbn.
  rewrite H. cbn. do 3 f_equal. rewrite take_app_le; [done|]. unfold zlen in Hn. lia.
Qed.

Lemma remove_file_ok ctx name files :
  is_Some (files !! name) →
  remove_file ctx name (mkFs files []) = (Ok tt, mkFs (delete name files) []).
Proof.
  intros [data H]. unfold remove_file, mseq, io_call, mseq, next_fault, mret, mget, mmodify. cbn.
  by rewrite H.
Qed.
End no_faults.

(** ** Segments and the directory they make *)

Section recovery.
Context (crc : list byte → Z) (crc_u32 : ∀ bs, is_u32 (crc bs)).
Implicit Types (rs : list WalRecord) (files : gmap string (list byte)).

(** A segment: its first sequence and its records. *)
Abbreviation segment := (Z * list WalRecord)%type (only parsing).

Definition frames rs : list byte := rs ≫= frame crc.
Definition seg_bytes (s : segment) : list byte := encode_segment_header crc s.1 ++ frames s.2.
Definition seg_entry (s : segment) : string * list byte := (segment_path s.1, seg_bytes s).
Definition seg_files (segs : list segment) : gmap string (list byte) := list_to_map (seg_entry <$> segs).

(** Well-formed records numbered from [n]. *)
Fixpoint seqs_from (n : Z) rs : Prop :=
  match rs with
  | [] => True
  | r :: rs => rec_seq r = n ∧ record_wf r ∧ seqs_from (n + 1) rs
  end.

(** A chain of segments whose records are numbered from [next]; only the last
    one may be empty. *)
Fixpoint segs_from (next : Z) (segs : list segment) : Prop :=
  match segs with
  | [] => True
  | s :: rest =>
      s.1 = next ∧ seqs_from next s.2 ∧ (rest ≠ [] → s.2 ≠ []) ∧ segs_from (next + zlen s.2) rest
  end.

Definition seg_records (segs : list segment) : list WalRecord := segs ≫= snd.

(** Files well below the largest offset, so that offsets do not overflow. *)
Definition segs_small (segs : list segment) : Prop :=
  Forall (λ s, zlen (seg_bytes s) + 3 * u32_max ≤ u64_max) segs.

(** What a crash can leave of a frame that was being written. *)
Definition torn (cut : list byte) : Prop :=
  ∃ r, record_wf r ∧ cut `prefix_of` frame crc r ∧ zlen cut < zlen (frame crc r).

Lemma zlen_cons {A} (x : A) l : zlen (x :: l) = zlen l + 1.
Proof. unfold zlen. cbn. lia. Qed.

Lemma frames_cons r rs : frames (r :: rs) = frame crc r ++ frames rs.
Proof. done. Qed.

Lemma frames_app rs rs' : frames (rs ++ rs') = frames rs ++ frames rs'.
Proof. unfold frames. apply bind_app. Qed.

Lemma record_data_bound r : record_wf r → zlen (rec_data r) ≤ u32_max.
Proof. intros Hwf. apply record_data_u32 in Hwf as [_ ?]. done. Qed.

(** At a torn tail the scan of the newest segment truncates the file. *)
Lemma scan_records_torn name pre cut n fuel files :
  torn cut → cut ≠ [] → zlen (pre ++ cut) + 3 * u32_max ≤ u64_max → (0 < fuel)%nat →
  files !! name = Some (pre ++ cut) →
  scan_records crc name (pre ++ cut) true fuel (zlen pre) n (mkFs files [])
  = (Ok ([], zlen pre), mkFs (<[name := pre]> files) []).
Proof.
  intros (r & Hwf & Hpre & Hlt) Hne Hsmall Hfuel Hfile.
  pose proof (zlen_nonneg pre). pose proof (record_data_bound r Hwf).
  assert (0 < zlen cut) as Hpos.
  { destruct cut; [done|]. rewrite zlen_cons. pose proof (zlen_nonneg cut). lia. }
  destruct fuel as [|fuel]; [lia|]. cbn [scan_records]. rewrite zlen_app in *.
  rewrite (proj2 (Z.ltb_lt _ _)) by lia. cbn [negb].
  assert (zlen pre + zlen (frame crc r) + zlen (rec_data r) ≤ u64_max) as Hfit.
  { rewrite frame_length. unfold RECORD_HEADER_LEN, u32_max, u64_max in *. lia. }
  assert (truncate_segment_tail name (zlen pre) (mkFs files []) = (Ok tt, mkFs (<[name := pre]> files) []))
    as Htrunc.
  { unfold truncate_segment_tail. rewrite (mseq_ok _ _ _ _ _ (open_existing_ok _ _ _ _ Hfile)).
    erewrite mseq_ok; [apply io_call_ok|].
    erewrite set_len_ok by (done || rewrite zlen_app; lia).
    do 3 f_equal. unfold zlen. rewrite Nat2Z.id, take_app_length. done. }
  destruct (decode_record_at_torn crc crc_u32 r pre cut Hwf Hpre Hlt Hfit) as [->| ->];
    cbn [repair_offset rde_kind partial_header partial_payload andb];
    rewrite bool_decide_true by (eexists; done); by rewrite (mseq_ok _ _ _ _ _ Htrunc).
Qed.

Lemma scan_records_end name newest data n fuel files :
  scan_records crc name data newest fuel (zlen data) n (mkFs files [])
  = (Ok ([], zlen data), mkFs files []).
Proof. destruct fuel; cbn [scan_records]; by rewrite (proj2 (Z.ltb_ge _ _)) by lia. Qed.

(** The records of a segment are found in order; a torn tail is cut off. *)
Lemma scan_records_spec name newest rs pre cut n fuel files :
  seqs_from n rs → 0 ≤ n → n + zlen rs ≤ u64_max →
  cut = [] ∨ (newest = true ∧ torn cut) →
  zlen (pre ++ frames rs ++ cut) + 3 * u32_max ≤ u64_max →
  (List.length (frames rs ++ cut) ≤ fuel)%nat →
  files !! name = Some (pre ++ frames rs ++ cut) →
  scan_records crc name (pre ++ frames rs ++ cut) newest fuel (zlen pre) n (mkFs files [])
  = (Ok (rs, zlen (pre ++ frames rs)), mkFs (<[name := pre ++ frames rs]> files) []).
Proof.
  revert pre n fuel. induction rs as [|r rs IH]; intros pre n fuel Hseq Hn Hmax Hcut Hsmall Hfuel Hfile.
  { change (frames []) with (@nil byte) in *. cbn [app] in *. rewrite app_nil_r.
    destruct (decide (cut = [])) as [->|Hne].
    { rewrite app_nil_r in *. rewrite scan_records_end, insert_id; done. }
    destruct Hcut as [->|[-> Htorn]]; [done|]. apply scan_records_torn; try done.
    destruct cut; [done|]. cbn in Hfuel. lia. }
  cbn [seqs_from] in Hseq. destruct Hseq as (<- & Hwf & Hseq).
  rewrite frames_cons in *. rewrite zlen_cons in Hmax. pose proof (zlen_nonneg rs).
  assert (0 < zlen (frame crc r)) as Hpos.
  { rewrite frame_length. pose proof (zlen_nonneg (rec_data r)). unfold RECORD_HEADER_LEN. lia. }
  rewrite <-!app_assoc in *. set (tail := frames rs ++ cut) in *.
  pose proof (zlen_nonneg pre). pose proof (zlen_nonneg tail).
  destruct fuel as [|fuel]; [rewrite length_app in Hfuel; unfold zlen in Hpos; lia|].
  cbn [scan_records]. rewrite (proj2 (Z.ltb_lt _ _)) by (rewrite !zlen_app; lia). cbn [negb].
  pose proof (record_data_bound r Hwf).
  rewrite decode_record_at_frame; [|done..|unfold u32_max in *; lia].
  rewrite Z.eqb_refl. cbn [negb]. unfold next_seq_after.
  rewrite (proj2 (u64_checked_add_Some _ _ _)) by (split; [lia|reflexivity]).
  cbn [ok_or]. erewrite mseq_ok by done.
  specialize (IH (pre ++ frame crc r) (rec_seq r + 1) fuel).
  rewrite <-!app_assoc in IH. fold tail in IH. rewrite <-zlen_app.
  erewrite mseq_ok; [|apply IH]; try done; try lia.
  rewrite length_app in Hfuel. unfold zlen in Hpos. lia.
Qed.

Lemma scan_segment_spec (s : segment) newest cut files :
  seqs_from s.1 s.2 → 0 < s.1 → s.1 + zlen s.2 ≤ u64_max →
  cut = [] ∨ (newest = true ∧ torn cut) →
  zlen (seg_bytes s ++ cut) + 3 * u32_max ≤ u64_max →
  files !! segment_path s.1 = Some (seg_bytes s ++ cut) →
  scan_segment crc (segment_path s.1) s.1 newest (mkFs files [])
  = (Ok (mkScan s.1 (segment_path s.1) (zlen (seg_bytes s)) s.2),
     mkFs (<[segment_path s.1 := seg_bytes s]> files) []).
Proof.
  intros Hseq Hpos Hmax Hcut Hsmall Hfile. unfold scan_segment.
  rewrite (mseq_ok _ _ _ _ _ (open_existing_ok _ _ _ _ Hfile)).
  pose proof (zlen_nonneg s.2).
  assert (is_u64 s.1) by (unfold is_u64; lia).
  assert (seg_bytes s ++ cut = encode_segment_header crc s.1 ++ frames s.2 ++ cut) as Heq.
  { unfold seg_bytes. by rewrite <-app_assoc. }
  rewrite Heq in *. erewrite mseq_ok by (unfold mlift; by rewrite decode_segment_header_ok).
  rewrite Z.eqb_refl. cbn [negb]. rewrite <-(segment_header_length crc s.1).
  erewrite mseq_ok; [|apply scan_records_spec; try done; try lia].
  - done.
  - rewrite (length_app (encode_segment_header crc s.1)). lia.
Qed.

(** *** The whole directory *)

(** The files hold the segments, the last one followed by [cut]. *)
Fixpoint laid files (segs : list segment) (cut : list byte) : Prop :=
  match segs with
  | [] => True
  | [s] => files !! segment_path s.1 = Some (seg_bytes s ++ cut)
  | s :: rest => files !! segment_path s.1 = Some (seg_bytes s) ∧ laid files rest cut
  end.

Definition scan_of (s : segment) : SegmentScan :=
  mkScan s.1 (segment_path s.1) (zlen (seg_bytes s)) s.2.

(** The files once the tail of the last segment is repaired. *)
Definition repaired files (segs : list segment) : gmap string (list byte) :=
  match last segs with
  | Some s => <[segment_path s.1 := seg_bytes s]> files
  | None => files
  end.

Lemma seqs_from_last n rs r :
  seqs_from n rs → last rs = Some r → rec_seq r = n + zlen rs - 1.
Proof.
  revert n. induction rs as [|r' rs IH]; intros n Hseq Hl; [done|].
  destruct Hseq as (Hr & _ & Hseq). rewrite zlen_cons. destruct rs as [|r2 rs].
  - injection Hl as ->. unfold zlen. cbn. lia.
  - rewrite (IH (n + 1)); [lia|done|done].
Qed.

Lemma seg_records_cons (s : segment) segs : seg_records (s :: segs) = s.2 ++ seg_records segs.
Proof. done. Qed.

Lemma scan_entries_spec segs next cut files :
  segs_from next segs → 0 < next → next + zlen (seg_records segs) ≤ u64_max →
  cut = [] ∨ torn cut →
  Forall (λ s, zlen (seg_bytes s ++ cut) + 3 * u32_max ≤ u64_max) segs →
  laid files segs cut →
  scan_entries crc ((λ s, (s.1, segment_path s.1)) <$> segs) next (mkFs files [])
  = (Ok (scan_of <$> segs), mkFs (repaired files segs) []).
Proof.
  revert next. induction segs as [|s rest IH]; intros next Hsegs Hpos Hmax Hcut Hsmall Hlaid; [done|].
  destruct Hsegs as (<- & Hseq & Hne & Hrest). apply Forall_cons in Hsmall as [Hs Hsmall].
  rewrite seg_records_cons, zlen_app in Hmax.
  pose proof (zlen_nonneg s.2). pose proof (zlen_nonneg (seg_records rest)).
  cbn [fmap list_fmap scan_entries]. rewrite Z.eqb_refl. cbn [negb].
  destruct rest as [|s2 rest].
  - erewrite mseq_ok; [|apply (scan_segment_spec s true cut); [done|lia|lia|naive_solver|done|done]].
    cbn [fmap list_fmap ss_records scan_entries]. unfold repaired. cbn [last].
    destruct (last s.2) as [r|] eqn:Hl; [|done].
    rewrite (seqs_from_last _ _ _ Hseq Hl). unfold next_seq_after.
    rewrite (proj2 (u64_checked_add_Some _ _ _)) by (split; [lia|reflexivity]). done.
  - destruct Hlaid as [Hfile Hlaid].
    erewrite mseq_ok.
    2: { apply (scan_segment_spec s false []); [done|lia|lia|by left| |by rewrite app_nil_r].
      rewrite app_nil_r. rewrite zlen_app in Hs. pose proof (zlen_nonneg cut). lia. }
    rewrite insert_id by done. cbn [ss_records]. destruct (last s.2) as [r|] eqn:Hl.
    2: { apply last_None in Hl. by destruct (Hne ltac:(done)). }
    rewrite (seqs_from_last _ _ _ Hseq Hl). unfold next_seq_after.
    rewrite (proj2 (u64_checked_add_Some _ _ _)) by (split; [lia|reflexivity]). cbn [ok_or].
    erewrite mseq_ok by done.
    replace (s.1 + zlen s.2 - 1 + 1) with (s.1 + zlen s.2) by lia.
    erewrite mseq_ok; [|apply IH; [done|lia|lia|done|done|done]]. done.
Qed.

(** *** Listing and sorting *)

Definition named (n : Z) : Z * string := (n, segment_path n).

Lemma collect_entries_ok ns files :
  Forall (λ n, is_u64 n ∧ n ≠ 0) ns →
  collect_entries (segment_path <$> ns) (mkFs files []) = (Ok (named <$> ns), mkFs files []).
Proof.
  induction 1 as [|n ns [Hn Hnz] Hns IH]; [done|]. cbn [fmap list_fmap collect_entries].
  erewrite mseq_ok by done. rewrite split_segment_path by done. cbn [snd].
  rewrite bool_decide_true by done. cbn [negb].
  erewrite mseq_ok by (unfold mlift; by rewrite parse_segment_path).
  by erewrite mseq_ok by exact IH.
Qed.

Fixpoint zinsert (n : Z) (l : list Z) : list Z :=
  match l with
  | [] => [n]
  | n' :: l' => if n <=? n' then n :: l else n' :: zinsert n l'
  end.

Lemma insert_by_key_named n l : insert_by_key (named n) (named <$> l) = named <$> zinsert n l.
Proof.
  induction l as [|n' l IH]; [done|]. cbn [fmap list_fmap insert_by_key zinsert].
  change ((named n).1) with n. change ((named n').1) with n'.
  destruct (n <=? n'); [done|]. cbn. by rewrite IH.
Qed.

Lemma sort_by_key_named l : sort_by_key (named <$> l) = named <$> foldr zinsert [] l.
Proof.
  unfold sort_by_key. induction l as [|n l IH]; [done|].
  cbn [fmap list_fmap foldr]. by rewrite IH, insert_by_key_named.
Qed.

Lemma zinsert_perm n l : zinsert n l ≡ₚ n :: l.
Proof.
  induction l as [|n' l IH]; [done|]. cbn. destruct (n <=? n'); [done|].
  rewrite IH. by apply Permutation_swap.
Qed.

Lemma zinsert_sorted n l : StronglySorted Z.le l → StronglySorted Z.le (zinsert n l).
Proof.
  induction 1 as [|n' l Hs IH Hf]; cbn; [by repeat constructor|].
  destruct (Z.leb_spec n n').
  - constructor; [by constructor|]. constructor; [done|].
    eapply Forall_impl; [exact Hf|]. cbn. intros. lia.
  - constructor; [done|]. rewrite Forall_forall in *. intros x.
    rewrite zinsert_perm. intros [->|Hx]%elem_of_cons; [lia|auto].
Qed.

Lemma sort_by_key_perm l ks :
  l ≡ₚ ks → StronglySorted Z.lt ks → sort_by_key (named <$> l) = named <$> ks.
Proof.
  intros Hp Hs. rewrite sort_by_key_named. f_equal.
  assert (foldr zinsert [] l ≡ₚ l ∧ StronglySorted Z.le (foldr zinsert [] l)) as [Hp' Hs'].
  { clear. induction l as [|n l [IH1 IH2]]; cbn; [split; constructor|].
    split; [by rewrite zinsert_perm, IH1|by apply zinsert_sorted]. }
  eapply (StronglySorted_unique Z.le); [done| |by rewrite Hp'].
  clear -Hs. induction Hs as [|n l Hs IH Hf]; constructor; [done|].
  eapply Forall_impl; [exact Hf|]. cbn. intros. lia.
Qed.

Lemma segs_from_sorted next segs :
  segs_from next segs →
  StronglySorted Z.lt segs.*1 ∧ Forall (λ n, next ≤ n) segs.*1.
Proof.
  revert next. induction segs as [|s segs IH]; intros next; cbn; [intros; split; constructor|].
  intros (Hs & Hseq & Hne & Hrest). destruct (IH _ Hrest) as [Hss Hf]. subst next.
  pose proof (zlen_nonneg s.2). split; constructor; try done.
  - destruct segs as [|s' segs]; [constructor|]. assert (s.2 ≠ []) as Hn by by apply Hne.
    eapply Forall_impl; [exact Hf|]. cbn. intros n Hle. destruct (s.2); [done|].
    rewrite zlen_cons in Hle. pose proof (zlen_nonneg l). lia.
  - eapply Forall_impl; [exact Hf|]. cbn. intros. lia.
Qed.

Lemma segs_from_bound next segs :
  segs_from next segs → Forall (λ n, n ≤ next + zlen (seg_records segs)) segs.*1.
Proof.
  revert next. induction segs as [|s segs IH]; intros next; cbn [segs_from fmap list_fmap]; [constructor|].
  intros (Hs & Hseq & Hne & Hrest). rewrite seg_records_cons, zlen_app.
  pose proof (zlen_nonneg s.2). pose proof (zlen_nonneg (seg_records segs)).
  constructor; [lia|]. eapply Forall_impl; [by apply IH|]. cbn. intros. lia.
Qed.

(** The directory holds these segments and nothing else. *)
Definition dir_repr files (segs : list segment) (cut : list byte) : Prop :=
  laid files segs cut ∧
  ∀ name, is_Some (files !! name) ↔ name ∈ segment_path <$> segs.*1.

Lemma dir_names_perm files segs cut :
  dir_repr files segs cut → NoDup (segment_path <$> segs.*1) →
  (map_to_list files).*1 ≡ₚ segment_path <$> segs.*1.
Proof.
  intros [_ Hdom] Hnd. apply NoDup_Permutation; [apply NoDup_fst_map_to_list|done|].
  intros name. rewrite <-Hdom, list_elem_of_fmap. split.
  - intros ([k v] & -> & Hin%elem_of_map_to_list). cbn. eauto.
  - intros [v Hv]. exists (name, v). split; [done|]. by apply elem_of_map_to_list.
Qed.

(** Directories of this size can be scanned. *)
Definition scannable (next : Z) (segs : list segment) (cut : list byte) : Prop :=
  segs_from next segs ∧ 0 < next ∧ next + zlen (seg_records segs) ≤ u64_max ∧
  (cut = [] ∨ torn cut) ∧ Forall (λ s, zlen (seg_bytes s ++ cut) + 3 * u32_max ≤ u64_max) segs.

Lemma scannable_keys next segs cut :
  scannable next segs cut →
  StronglySorted Z.lt segs.*1 ∧ Forall (λ n, is_u64 n ∧ n ≠ 0) segs.*1 ∧
  NoDup (segment_path <$> segs.*1).
Proof.
  intros (Hsegs & Hpos & Hmax & _ & _). destruct (segs_from_sorted _ _ Hsegs) as [Hss Hlo].
  pose proof (segs_from_bound _ _ Hsegs) as Hhi.
  assert (Forall (λ n, is_u64 n ∧ n ≠ 0) segs.*1) as Hall.
  { rewrite Forall_forall in *. intros n Hn. specialize (Hlo n Hn). specialize (Hhi n Hn).
    cbn in *. unfold is_u64. lia. }
  split_and!; try done.
  apply (NoDup_fmap_2_strong segment_path).
  - intros a b Ha Hb. rewrite Forall_forall in Hall. apply segment_path_inj; by apply Hall.
  - clear -Hss. induction Hss as [|n l Hs IH Hf]; constructor; [|done].
    rewrite Forall_forall in Hf. intros Hin. specialize (Hf n Hin). lia.
Qed.

Lemma scan_segments_spec next segs cut files :
  scannable next segs cut → dir_repr files segs cut →
  scan_segments crc (mkFs files []) = (Ok (scan_of <$> segs), mkFs (repaired files segs) []).
Proof.
  intros Hscan Hdir. destruct (scannable_keys _ _ _ Hscan) as (Hss & Hall & Hnd).
  pose proof (dir_names_perm _ _ _ Hdir Hnd) as Hperm. destruct Hdir as [Hlaid _].
  destruct Hscan as (Hsegs & Hpos & Hmax & Hcut & Hsmall).
  apply Permutation_map_inv in Hperm as (l & Hl & Hp).
  change (map segment_path l) with (segment_path <$> l) in Hl.
  unfold scan_segments. erewrite mseq_ok by done. erewrite mseq_ok by done. cbn [fs_files].
  rewrite Hl. erewrite mseq_ok; [|apply collect_entries_ok].
  2: { rewrite Forall_forall in *. intros n Hn. apply Hall. by rewrite Hp. }
  rewrite (sort_by_key_perm l segs.*1) by done.
  assert (named <$> segs.*1 = (λ s, (s.1, segment_path s.1)) <$> segs) as ->.
  { by rewrite <-list_fmap_compose. }
  destruct segs as [|s segs]; [done|]. assert (s.1 = next) as Hs by apply Hsegs.
  cbn [fmap list_fmap]. rewrite Hs.
  pose proof (scan_entries_spec (s :: segs) next cut files Hsegs Hpos Hmax Hcut Hsmall Hlaid) as H.
  cbn [fmap list_fmap] in H. by rewrite Hs in H.
Qed.

(** The state an open log has when its directory holds these segments. *)
Definition state_of (next : Z) (segs : list segment) : LocalWalState :=
  mkWalState (mkWalBounds (next - 1) (next - 1 + zlen (seg_records segs)))
    ((λ s, mkActive (segment_path s.1) (zlen (seg_bytes s))) <$> last segs).

Lemma scan_state_fold next segs acc :
  segs_from next segs →
  foldl scan_state_step (next - 1, acc) (scan_of <$> segs) =
    (next - 1 + zlen (seg_records segs),
     match last segs with
     | Some s => Some (mkActive (segment_path s.1) (zlen (seg_bytes s)))
     | None => acc
     end).
Proof.
  revert next acc. induction segs as [|s segs IH]; intros next acc Hsegs.
  { cbn. f_equal. unfold zlen. cbn. lia. }
  destruct Hsegs as (Hs & Hseq & Hne & Hrest). cbn [fmap list_fmap foldl].
  assert (scan_state_step (next - 1, acc) (scan_of s)
    = (next + zlen s.2 - 1, Some (mkActive (segment_path s.1) (zlen (seg_bytes s))))) as ->.
  { unfold scan_state_step. cbn [scan_of ss_records ss_path ss_len_bytes fst]. f_equal.
    destruct (last s.2) as [r|] eqn:Hl; [by rewrite (seqs_from_last _ _ _ Hseq Hl)|].
    apply last_None in Hl. rewrite Hl. unfold zlen. cbn. lia. }
  rewrite IH by done. rewrite seg_records_cons, zlen_app. f_equal; [lia|].
  rewrite (last_cons s). by destruct (last segs).
Qed.

Lemma scan_wal_dir_spec next segs cut files :
  scannable next segs cut → dir_repr files segs cut →
  scan_wal_dir crc (mkFs files []) =
    (Ok (state_of (if bool_decide (segs = []) then 1 else next) segs), mkFs (repaired files segs) []).
Proof.
  intros Hscan Hdir. unfold scan_wal_dir.
  rewrite (mseq_ok _ _ _ _ _ (scan_segments_spec _ _ _ _ Hscan Hdir)).
  destruct Hscan as (Hsegs & Hpos & Hmax & _). pose proof (zlen_nonneg (seg_records segs)).
  destruct segs as [|s segs]; [done|]. rewrite bool_decide_false by done.
  assert (s.1 = next) as Hs by apply Hsegs. cbn [fmap list_fmap]. change (ss_first_seq (scan_of s)) with s.1.
  rewrite Hs. unfold previous_seq_before. erewrite mseq_ok.
  2: { unfold mlift. rewrite (proj2 (u64_checked_sub_Some _ _ _)) by (split; [lia|reflexivity]). done. }
  change (scan_of s :: ?l) with (scan_of <$> (s :: segs)).
  pose proof (scan_state_fold next (s :: segs) None Hsegs) as Hfold.
  rewrite Hfold. unfold WalBounds_new. rewrite (proj2 (Z.ltb_ge _ _)) by lia.
  erewrite mseq_ok by done. done.
Qed.

(** ** The invariant of an open log

    The log holds the segments [segs], its records are numbered from [next],
    and no fault is pending. *)
Definition wal_inv (w : World) (next : Z) (segs : list segment) : Prop :=
  fs_faults (w_fs w) = [] ∧ dir_repr (fs_files (w_fs w)) segs [] ∧ scannable next segs [] ∧
  w_state w = state_of next segs ∧ (segs = [] → next = 1).

Lemma laid_Forall files segs :
  laid files segs [] ↔ Forall (λ s, files !! segment_path s.1 = Some (seg_bytes s)) segs.
Proof.
  induction segs as [|s [|s2 segs] IH]; [done| |].
  - cbn. rewrite app_nil_r, Forall_cons, Forall_nil. naive_solver.
  - rewrite Forall_cons, <-IH. done.
Qed.

Lemma segs_from_snoc next segs (s : segment) :
  segs_from next (segs ++ [s]) ↔
  segs_from next segs ∧ Forall (λ s, s.2 ≠ []) segs ∧
  s.1 = next + zlen (seg_records segs) ∧ seqs_from s.1 s.2.
Proof.
  revert next. induction segs as [|s0 segs IH]; intros next; cbn [app segs_from].
  - change (zlen (seg_records [])) with 0. rewrite Z.add_0_r, Forall_nil. naive_solver.
  - rewrite IH, Forall_cons, seg_records_cons, zlen_app, Z.add_assoc. split.
    + intros (Hs & Hseq & Hne & Hf & Hall & Hlast).
      assert (s0.2 ≠ []) by (apply Hne; by destruct segs). naive_solver.
    + naive_solver.
Qed.

Lemma seg_records_snoc segs (s : segment) : seg_records (segs ++ [s]) = seg_records segs ++ s.2.
Proof. unfold seg_records. rewrite bind_app. cbn. by rewrite app_nil_r. Qed.

Lemma seqs_from_snoc n rs r :
  seqs_from n (rs ++ [r]) ↔ seqs_from n rs ∧ rec_seq r = n + zlen rs ∧ record_wf r.
Proof.
  revert n. induction rs as [|r' rs IH]; intros n; cbn [app seqs_from].
  - change (zlen []) with 0. rewrite Z.add_0_r. naive_solver.
  - rewrite IH, zlen_cons. split.
    + intros (? & ? & ? & -> & ?). split_and!; try done. lia.
    + intros ((? & ? & ?) & -> & ?). split_and!; try done. lia.
Qed.

(** Replacing the last segment of the directory. *)
Lemma dir_repr_replace_last files init (s s' : segment) :
  dir_repr files (init ++ [s]) [] → s'.1 = s.1 → NoDup (segment_path <$> (init ++ [s]).*1) →
  dir_repr (<[segment_path s.1 := seg_bytes s']> files) (init ++ [s']) [].
Proof.
  clear crc_u32. intros [Hlaid Hdom] Hs Hnd. rewrite laid_Forall in Hlaid. apply Forall_app in Hlaid as [Hinit Hl].
  apply Forall_cons in Hl as [Hl _]. rewrite !fmap_app in *. apply NoDup_app in Hnd as (_ & Hd & _).
  split.
  - rewrite laid_Forall. apply Forall_app. split.
    + rewrite Forall_forall in *. intros s0 Hs0. rewrite lookup_insert_ne; [by apply Hinit|].
      intros Heq. apply (Hd (segment_path s0.1)).
      * apply list_elem_of_fmap. exists s0.1. split; [done|]. apply list_elem_of_fmap. eauto.
      * cbn. rewrite Heq. set_solver.
    + apply Forall_singleton. by rewrite Hs, lookup_insert_eq.
  - intros name. rewrite !fmap_app. cbn [fmap list_fmap] in *. rewrite Hs. rewrite <-Hdom.
    destruct (decide (name = segment_path s.1)) as [->|Hne].
    + rewrite lookup_insert_eq, Hl. split; intros; eauto.
    + by rewrite lookup_insert_ne by done.
Qed.

(** Adding a segment under a new name. *)
Lemma dir_repr_snoc files segs (s : segment) :
  dir_repr files segs [] → files !! segment_path s.1 = None →
  dir_repr (<[segment_path s.1 := seg_bytes s]> files) (segs ++ [s]) [].
Proof.
  intros [Hlaid Hdom] Hnone. rewrite laid_Forall in Hlaid. split.
  - rewrite laid_Forall. apply Forall_app. split.
    + eapply Forall_impl; [exact Hlaid|]. cbn. intros s0 H0. rewrite lookup_insert_ne; [done|]. congruence.
    + apply Forall_singleton. by rewrite lookup_insert_eq.
  - intros name. rewrite !fmap_app, elem_of_app, <-Hdom. cbn. rewrite list_elem_of_singleton.
    destruct (decide (name = segment_path s.1)) as [->|Hne].
    + rewrite lookup_insert_eq. split; eauto.
    + rewrite lookup_insert_ne by done. naive_solver.
Qed.

Lemma write_new_segment_ok first files :
  files !! segment_path first = None →
  write_new_segment crc (segment_path first) first (mkFs files [])
  = (Ok tt, mkFs (<[segment_path first := seg_bytes (first, [])]> files) []).
Proof.
  intros Hnone. unfold write_new_segment.
  rewrite (mseq_ok _ _ _ _ _ (create_new_ok _ _ _ Hnone)).
  erewrite mseq_ok; [|by apply write_all_ok; rewrite lookup_insert_eq].
  rewrite io_call_ok, insert_insert_eq. unfold seg_bytes. cbn [app fst snd].
  change (frames []) with (@nil byte). by rewrite app_nil_r.
Qed.

Lemma fs_op_ok {A} (m : M Fs ServerError A) fs st a fs' :
  m fs = (Ok a, fs') → fs_op m (mkWorld fs st) = (Ok a, mkWorld fs' st).
Proof. intros H. unfold fs_op, zoom. cbn. by rewrite H. Qed.

Lemma wal_inv_world w next segs :
  wal_inv w next segs → w = mkWorld (mkFs (fs_files (w_fs w)) []) (state_of next segs).
Proof. intros (Hf & _ & _ & Hst & _). destruct w as [[files faults] st]. cbn in *. by subst. Qed.

(** A chain whose last segment has records has no file for the next one. *)
Lemma next_path_fresh files next segs :
  dir_repr files segs [] → scannable next segs [] → Forall (λ s, s.2 ≠ []) segs →
  next + zlen (seg_records segs) ≤ u64_max →
  files !! segment_path (next + zlen (seg_records segs)) = None.
Proof.
  intros [_ Hdom] Hscan Hne Hmax. apply eq_None_not_Some. rewrite Hdom.
  destruct (scannable_keys _ _ _ Hscan) as (_ & Hall & _). destruct Hscan as (Hsegs & Hpos & _).
  intros (n & He & Hn)%list_elem_of_fmap.
  assert (n < next + zlen (seg_records segs)) as Hlt.
  { clear -Hsegs Hne Hn. revert next Hsegs. induction segs as [|s segs IH]; intros next Hsegs; [set_solver|].
    destruct Hsegs as (Hs & _ & _ & Hrest). apply Forall_cons in Hne as [Hs2 Hne].
    rewrite seg_records_cons, zlen_app. pose proof (zlen_nonneg (seg_records segs)).
    assert (0 < zlen s.2).
    { destruct s as [f [|r rs]]; cbn in *; [done|]. rewrite zlen_cons. pose proof (zlen_nonneg rs). lia. }
    cbn [fmap list_fmap] in Hn. apply elem_of_cons in Hn as [->|Hn]; [lia|].
    specialize (IH Hne Hn _ Hrest). lia. }
  rewrite Forall_forall in Hall. apply segment_path_inj in He; [lia| |by apply Hall].
  pose proof (zlen_nonneg (seg_records segs)). unfold is_u64. lia.
Qed.

Lemma state_active_snoc next init (s : segment) :
  ws_active (state_of next (init ++ [s])) = Some (mkActive (segment_path s.1) (zlen (seg_bytes s))).
Proof. unfold state_of. cbn. by rewrite last_snoc. Qed.

(** An empty segment is as long as its header. *)
Lemma seg_bytes_empty_len (s : segment) : s.2 = [] → zlen (seg_bytes s) = SEGMENT_HEADER_LEN.
Proof.
  intros Hs. unfold seg_bytes. rewrite Hs. change (frames []) with (@nil byte).
  by rewrite app_nil_r, segment_header_length.
Qed.

Lemma state_of_snoc_empty next segs first :
  first = next + zlen (seg_records segs) →
  mkWalState (ws_bounds (state_of next segs)) (Some (mkActive (segment_path first) SEGMENT_HEADER_LEN))
  = state_of next (segs ++ [(first, [])]).
Proof.
  intros ->. unfold state_of. rewrite seg_records_snoc, last_snoc. cbn [fmap option_fmap option_map].
  rewrite seg_bytes_empty_len by done. cbn [fst snd ws_bounds]. by rewrite app_nil_r.
Qed.

Lemma scannable_snoc_empty next segs :
  scannable next segs [] → Forall (λ s, s.2 ≠ []) segs →
  scannable next (segs ++ [(next + zlen (seg_records segs), [])]) [].
Proof.
  intros (Hsegs & Hpos & Hmax & Hcut & Hsmall) Hne. split_and!; try done.
  - by apply segs_from_snoc.
  - by rewrite seg_records_snoc, app_nil_r.
  - apply Forall_app. split; [done|]. apply Forall_singleton. rewrite app_nil_r.
    rewrite seg_bytes_empty_len by done. by_compute.
Qed.

(** Creating the next segment keeps the invariant and the records. *)
Lemma new_segment_inv w next segs :
  wal_inv w next segs → Forall (λ s, s.2 ≠ []) segs →
  let first := next + zlen (seg_records segs) in
  ∃ files', write_new_segment crc (segment_path first) first (w_fs w) = (Ok tt, mkFs files' []) ∧
    wal_inv (mkWorld (mkFs files' []) (state_of next (segs ++ [(first, [])]))) next (segs ++ [(first, [])]).
Proof.
  intros Hinv Hne first. pose proof Hinv as (Hf & Hdir & Hscan & Hst & Hfresh).
  pose proof Hscan as (Hsegs & Hpos & Hmax & _).
  assert (fs_files (w_fs w) !! segment_path first = None) as Hnone by (by apply next_path_fresh).
  exists (<[segment_path first := seg_bytes (first, [])]> (fs_files (w_fs w))). split.
  - destruct (w_fs w) as [files faults]. cbn in Hf. subst faults. by apply write_new_segment_ok.
  - split_and!; cbn; try done.
    + by apply (dir_repr_snoc _ _ (first, [])).
    + by apply scannable_snoc_empty.
    + by destruct segs.
Qed.

Lemma ensure_active_segment_spec target w next segs :
  wal_inv w next segs → SEGMENT_HEADER_LEN < target →
  next + zlen (seg_records segs) ≤ u64_max →
  ∃ w' init s, ensure_active_segment crc target w = (Ok tt, w') ∧
    wal_inv w' next (init ++ [s]) ∧ seg_records (init ++ [s]) = seg_records segs ∧
    (init ++ [s] = segs ∨ init = segs ∧ s.2 = []).
Proof.
  intros Hinv Htarget Hmax. pose proof Hinv as (Hf & Hdir & Hscan & Hst & Hfresh).
  unfold ensure_active_segment, get_state. rewrite (wal_inv_world _ _ _ Hinv).
  erewrite mseq_ok by done. cbn [w_state]. unfold next_seq_after. cbn [state_of ws_bounds last_durable].
  erewrite mseq_ok.
  2: { unfold mlift. rewrite (proj2 (u64_checked_add_Some _ _ _)) by (split; [lia|reflexivity]). done. }
  replace (next - 1 + zlen (seg_records segs) + 1) with (next + zlen (seg_records segs)) by lia.
  cbn [ws_active]. set (first := next + zlen (seg_records segs)) in *.
  assert (∀ should, should = true → Forall (λ s, s.2 ≠ []) segs →
    ∃ w' init s, (if negb should then mret tt else
      let path := segment_path first in
      let! _ := fs_op (write_new_segment crc path first) in
      let! _ := fs_op sync_directory in
      put_state (mkWalState (ws_bounds (state_of next segs)) (Some (mkActive path SEGMENT_HEADER_LEN))))
      (mkWorld (mkFs (fs_files (w_fs w)) []) (state_of next segs)) = (Ok tt, w') ∧
    wal_inv w' next (init ++ [s]) ∧ seg_records (init ++ [s]) = seg_records segs ∧
    (init ++ [s] = segs ∨ init = segs ∧ s.2 = [])) as Hcreate.
  { intros should -> Hne. destruct (new_segment_inv w next segs Hinv Hne) as (files' & Hw & Hinv').
    rewrite (wal_inv_world _ _ _ Hinv) in Hw. cbn [w_fs fs_files] in Hw.
    eexists _, segs, (first, []). split; [|split; [exact Hinv'|]].
    - cbn [negb]. cbv zeta. rewrite (mseq_ok _ _ _ _ _ (fs_op_ok _ _ _ _ _ Hw)).
      erewrite mseq_ok by done. unfold put_state, mmodify. by rewrite (state_of_snoc_empty next segs first).
    - rewrite seg_records_snoc. cbn. rewrite app_nil_r. auto. }
  change (ws_active (state_of next segs))
    with ((λ s : segment, mkActive (segment_path s.1) (zlen (seg_bytes s))) <$> last segs).
  destruct (last segs) as [s|] eqn:Hlast; cbn [fmap option_fmap option_map as_len_bytes].
  - apply last_Some in Hlast as [init ->].
    destruct (Z.leb_spec target (zlen (seg_bytes s))) as [Hle|Hgt].
    + apply Hcreate; [done|]. apply Forall_app.
      destruct (proj1 (segs_from_snoc _ _ _) (proj1 Hscan)) as (_ & Hall & _). split; [done|].
      apply Forall_singleton. intros Hs. apply seg_bytes_empty_len in Hs. lia.
    + eexists _, init, s. split; [done|]. split; [|auto]. by rewrite <-(wal_inv_world _ _ _ Hinv).
  - apply Hcreate; [done|]. apply last_None in Hlast. by subst segs.
Qed.

(** *** Appending *)

Definition request_wf (q : WalRequest) : Prop :=
  range_ok (req_range q) ∧ req_data q ≠ [] ∧ zlen (req_data q) = br_len (req_range q).

(** Every segment has room for the frame of the request. *)
Definition room (segs : list segment) (q : WalRequest) : Prop :=
  Forall (λ s, zlen (seg_bytes s) + RECORD_HEADER_LEN + zlen (req_data q) + 3 * u32_max ≤ u64_max) segs.

Lemma seg_bytes_snoc first rs r : seg_bytes (first, rs ++ [r]) = seg_bytes (first, rs) ++ frame crc r.
Proof.
  unfold seg_bytes. cbn [fst snd]. rewrite frames_app, <-app_assoc. do 2 f_equal.
  unfold frames. cbn. by rewrite app_nil_r.
Qed.

Lemma scannable_append next init first rs r :
  scannable next (init ++ [(first, rs)]) [] → rec_seq r = first + zlen rs → record_wf r →
  next + zlen (seg_records (init ++ [(first, rs)])) + 1 ≤ u64_max →
  zlen (seg_bytes (first, rs)) + zlen (frame crc r) + 3 * u32_max ≤ u64_max →
  scannable next (init ++ [(first, rs ++ [r])]) [].
Proof.
  intros (Hsegs & Hpos & Hmax & Hcut & Hsmall) Hseq Hwf Hmax' Hroom.
  apply segs_from_snoc in Hsegs as (Hsegs & Hne & Hfirst & Hrs). cbn [fst snd] in *.
  split_and!; try done.
  - apply segs_from_snoc. split_and!; try done. cbn. by apply seqs_from_snoc.
  - rewrite seg_records_snoc in *. cbn [snd] in *. rewrite !zlen_app in *.
    unfold zlen at 3. cbn. lia.
  - apply Forall_app in Hsmall as [Hinit _]. apply Forall_app. split; [done|].
    apply Forall_singleton. rewrite app_nil_r, seg_bytes_snoc, zlen_app. lia.
Qed.

(** The run of [append] once the active segment is [(first, rs)]. *)
Lemma append_run target q w files next init first rs r :
  ensure_active_segment crc target w
    = (Ok tt, mkWorld (mkFs files []) (state_of next (init ++ [(first, rs)]))) →
  files !! segment_path first = Some (seg_bytes (first, rs)) →
  r = mkWalRecord (next + zlen (seg_records (init ++ [(first, rs)]))) (req_range q) (req_data q) →
  0 < next → next + zlen (seg_records (init ++ [(first, rs)])) ≤ u64_max →
  zlen (seg_bytes (first, rs)) + zlen (frame crc r) + 3 * u32_max ≤ u64_max →
  wal_append crc target q w =
    (Ok r, mkWorld (mkFs (<[segment_path first := seg_bytes (first, rs ++ [r])]> files) [])
             (state_of next (init ++ [(first, rs ++ [r])]))).
Proof.
  intros Hens Hfile Hr Hpos Hmax Hsroom.
  pose proof (zlen_nonneg (seg_records (init ++ [(first, rs)]))).
  unfold wal_append. rewrite (mseq_ok _ _ _ _ _ Hens).
  unfold get_state. erewrite mseq_ok by done. cbn [w_state].
  cbn [state_of ws_bounds last_durable pruned_through]. unfold next_seq_after.
  erewrite mseq_ok.
  2: { unfold mlift. rewrite (proj2 (u64_checked_add_Some _ _ _)) by (split; [lia|reflexivity]). done. }
  replace (next - 1 + zlen (seg_records (init ++ [(first, rs)])) + 1) with (next + zlen (seg_records (init ++ [(first, rs)]))) by lia.
  unfold WalRecord_from_request. erewrite mseq_ok.
  2: { unfold mlift. by rewrite (proj2 (Z.eqb_neq _ _)) by lia. }
  rewrite <-Hr. erewrite mseq_ok by (unfold mlift; by rewrite encode_record_ok).
  rewrite state_active_snoc. cbn [or_panic].
  erewrite mseq_ok by done. cbn [as_path as_len_bytes fst].
  erewrite mseq_ok; [|apply fs_op_ok; by apply open_existing_ok].
  erewrite mseq_ok; [|apply fs_op_ok; by apply write_all_ok].
  erewrite mseq_ok by done. erewrite mseq_ok by done. unfold mret. f_equal.
  rewrite seg_bytes_snoc. f_equal. unfold state_of. rewrite last_snoc. cbn [fmap option_fmap option_map].
  rewrite seg_bytes_snoc, zlen_app. cbn [fst].
  rewrite u64_add_id by (pose proof (zlen_nonneg (seg_bytes (first, rs)));
    pose proof (zlen_nonneg (frame crc r)); unfold u32_max in *; lia).
  do 2 f_equal. rewrite !seg_records_snoc in *. cbn [snd] in *.
  rewrite app_assoc, (zlen_app _ [r]). change (zlen [r]) with 1. lia.
Qed.

Lemma wal_append_spec target q w next segs :
  wal_inv w next segs → SEGMENT_HEADER_LEN < target → request_wf q → room segs q →
  next + zlen (seg_records segs) + 1 ≤ u64_max →
  ∃ w' segs', let r := mkWalRecord (next + zlen (seg_records segs)) (req_range q) (req_data q) in
    wal_append crc target q w = (Ok r, w') ∧ wal_inv w' next segs' ∧
    seg_records segs' = seg_records segs ++ [r].
Proof.
  clear crc_u32. intros Hinv Htarget (Hrange & Hdne & Hdl) Hroom Hmax.
  destruct (ensure_active_segment_spec target w next segs) as (w1 & init & s & Hens & Hinv1 & Hrec & Hcase);
    [done|done|lia|].
  pose proof (wal_inv_world _ _ _ Hinv1) as Hw1. pose proof Hinv1 as (_ & Hdir & Hscan & _ & _).
  set (files := fs_files (w_fs w1)) in *. set (r := mkWalRecord _ _ _).
  pose proof Hscan as (Hsegs & Hpos & _). pose proof (zlen_nonneg (seg_records segs)).
  assert (record_wf r) as Hwf.
  { destruct Hrange as (? & [? ?] & ?). unfold record_wf, is_u64. cbn.
    split_and!; try done; lia. }
  assert (rec_seq r = s.1 + zlen s.2) as Hseq.
  { apply segs_from_snoc in Hsegs as (_ & _ & Hs & _). rewrite seg_records_snoc in Hrec.
    cbn. rewrite <-Hrec, zlen_app. lia. }
  assert (zlen (seg_bytes s) + zlen (frame crc r) + 3 * u32_max ≤ u64_max) as Hsroom.
  { rewrite frame_length. change (rec_data r) with (req_data q). destruct Hcase as [<-|[-> Hs]].
    - apply Forall_app in Hroom as [_ Hr]. apply Forall_cons in Hr as [Hr _]. lia.
    - rewrite seg_bytes_empty_len by done. rewrite Hdl. destruct Hrange as (_ & [_ Hl] & _).
      unfold RECORD_HEADER_LEN, SEGMENT_HEADER_LEN, u32_max, u64_max in *. lia. }
  assert (files !! segment_path s.1 = Some (seg_bytes s)) as Hfile.
  { destruct Hdir as [Hlaid _]. rewrite laid_Forall in Hlaid. apply Forall_app in Hlaid as [_ Hl].
    by apply Forall_cons in Hl as [Hl _]. }
  destruct s as [first rs]. cbn [fst snd] in *.
  eexists (mkWorld (mkFs (<[segment_path first := seg_bytes (first, rs ++ [r])]> files) [])
    (state_of next (init ++ [(first, rs ++ [r])]))), (init ++ [(first, rs ++ [r])]).
  cbv zeta. split_and!.
  - apply (append_run target q w files next init first rs r); try done; [by rewrite <-Hw1|..];
      rewrite Hrec; try done; lia.
  - split_and!; cbn [w_fs fs_faults fs_files w_state]; try done.
    + apply (dir_repr_replace_last files init (first, rs)); [done|done|].
      by destruct (scannable_keys _ _ _ Hscan) as (_ & _ & ?).
    + apply scannable_append; try done. by rewrite Hrec.
    + by destruct init.
  - rewrite !seg_records_snoc in *. cbn [snd] in *. by rewrite app_assoc, Hrec.
Qed.

(** *** Opening *)

Lemma path_elem (s : segment) segs : s ∈ segs → segment_path s.1 ∈ segment_path <$> segs.*1.
Proof. intros Hs. apply list_elem_of_fmap_2, (list_elem_of_fmap_2 fst), Hs. Qed.

Lemma repaired_dir files segs cut :
  dir_repr files segs cut → NoDup (segment_path <$> segs.*1) →
  dir_repr (repaired files segs) segs [].
Proof.
  intros [Hlaid Hdom] Hnd. split.
  - clear Hdom. induction segs as [|s [|s2 segs] IH]; [done| |].
    + unfold repaired. cbn. by rewrite lookup_insert_eq, app_nil_r.
    + destruct Hlaid as [Hfile Hlaid]. cbn [fmap list_fmap] in *. apply NoDup_cons in Hnd as [Hs Hnd].
      specialize (IH Hlaid Hnd). unfold repaired in *. rewrite (last_cons s).
      destruct (last (s2 :: segs)) as [sl|] eqn:Hl.
      * split; [|exact IH]. rewrite lookup_insert_ne; [done|]. intros Heq. apply Hs. rewrite <-Heq.
        apply (path_elem sl (s2 :: segs)). apply last_Some in Hl as [l ->]. set_solver.
      * by apply last_None in Hl.
  - intros name. rewrite <-Hdom. unfold repaired. destruct (last segs) as [s|] eqn:Hl; [|done].
    destruct (decide (name = segment_path s.1)) as [->|Hne].
    + rewrite lookup_insert_eq. split; [|eauto]. intros _. apply Hdom, path_elem.
      apply last_Some in Hl as [l ->]. set_solver.
    + by rewrite lookup_insert_ne by done.
Qed.

Lemma repaired_id files segs : dir_repr files segs [] → repaired files segs = files.
Proof.
  intros [Hlaid _]. unfold repaired. destruct (last segs) as [s|] eqn:Hl; [|done].
  apply insert_id. apply last_Some in Hl as [l ->]. rewrite laid_Forall in Hlaid.
  apply Forall_app in Hlaid as [_ H]. by apply Forall_cons in H as [H _].
Qed.

Lemma wal_open_spec next segs cut files :
  scannable next segs cut → dir_repr files segs cut → (segs = [] → next = 1) →
  wal_open crc (mkFs files []) = (Ok (state_of next segs), mkFs (repaired files segs) []) ∧
  wal_inv (mkWorld (mkFs (repaired files segs) []) (state_of next segs)) next segs.
Proof.
  intros Hscan Hdir Hfresh. split.
  - unfold wal_open. erewrite mseq_ok by done. erewrite mseq_ok by done.
    rewrite (scan_wal_dir_spec next segs cut files) by done.
    case_bool_decide as Hs; [|done]. by rewrite (Hfresh Hs).
  - split; [done|]. split; [|split; [|done]].
    + eapply repaired_dir; [done|]. by destruct (scannable_keys _ _ _ Hscan) as (_ & _ & ?).
    + destruct Hscan as (Hsegs & Hpos & Hmax & _ & Hsmall).
      split; [done|]. split; [done|]. split; [done|]. split; [by left|].
      eapply Forall_impl; [exact Hsmall|]. intros s. cbv beta. rewrite !zlen_app.
      pose proof (zlen_nonneg cut). change (zlen []) with 0. lia.
Qed.

(** *** Replaying *)

Lemma seqs_from_app n rs rs' :
  seqs_from n (rs ++ rs') ↔ seqs_from n rs ∧ seqs_from (n + zlen rs) rs'.
Proof.
  revert n. induction rs as [|r rs IH]; intros n; cbn [app seqs_from].
  - change (zlen []) with 0. rewrite Z.add_0_r. naive_solver.
  - rewrite IH, zlen_cons. replace (n + 1 + zlen rs) with (n + (zlen rs + 1)) by lia. naive_solver.
Qed.

Lemma segs_from_seqs next segs : segs_from next segs → seqs_from next (seg_records segs).
Proof.
  revert next. induction segs as [|s segs IH]; intros next; [done|].
  intros (Hs & Hseq & _ & Hrest). rewrite seg_records_cons, seqs_from_app. auto.
Qed.

Lemma seqs_from_elem n rs r : seqs_from n rs → r ∈ rs → n ≤ rec_seq r < n + zlen rs ∧ record_wf r.
Proof.
  revert n. induction rs as [|r' rs IH]; intros n; [set_solver|]. cbn [seqs_from].
  intros (Hr & Hwf & Hseq). rewrite zlen_cons. pose proof (zlen_nonneg rs).
  intros [->|Hin]%elem_of_cons; [split; [lia|done]|]. destruct (IH _ Hseq Hin). split; [lia|done].
Qed.

Lemma seqs_from_ordered n rs (P : WalRecord → Prop) `{!∀ r, Decision (P r)} :
  0 < n → seqs_from n rs → WalReplay_from_records (filter P rs) = Ok (filter P rs).
Proof.
  intros Hn Hseq. unfold WalReplay_from_records.
  assert (∀ prev m, prev < m → seqs_from m rs → replay_ordered prev (filter P rs) = true) as Hord.
  { clear. induction rs as [|r rs IH]; intros prev m Hlt Hseq; [done|].
    destruct Hseq as (Hr & _ & Hseq). rewrite filter_cons. case_decide; cbn [replay_ordered].
    - rewrite (proj2 (Z.leb_gt _ _)) by lia. apply (IH _ (m + 1)); [lia|done].
    - apply (IH _ (m + 1)); [lia|done]. }
  by rewrite (Hord 0 n Hn Hseq).
Qed.

Lemma replay_range_spec w next segs after through :
  wal_inv w next segs →
  next - 1 ≤ after → after ≤ through → through ≤ next - 1 + zlen (seg_records segs) →
  replay_range crc after through w =
    (Ok (filter (λ r, after < rec_seq r ∧ rec_seq r ≤ through) (seg_records segs)), w).
Proof.
  intros Hinv Ha Hat Ht. pose proof Hinv as (_ & Hdir & Hscan & _ & _).
  pose proof (wal_inv_world _ _ _ Hinv) as Hw. rewrite Hw.
  unfold replay_range, get_state. erewrite mseq_ok by done. cbn [w_state].
  unfold validate_replay_range. cbn [state_of ws_bounds pruned_through last_durable].
  rewrite !(proj2 (Z.ltb_ge _ _)) by lia. erewrite mseq_ok by done.
  erewrite mseq_ok.
  2: { apply fs_op_ok. unfold load_records.
    erewrite mseq_ok by (by eapply scan_segments_spec). unfold mret. reflexivity. }
  rewrite repaired_id by done.
  assert ((scan_of <$> segs) ≫= ss_records = seg_records segs) as ->.
  { clear. unfold seg_records. induction segs as [|s segs IH]; [done|]. cbn. by rewrite IH. }
  destruct Hscan as (Hsegs & Hpos & _).
  unfold mlift. rewrite (seqs_from_ordered next); [done|done|by apply segs_from_seqs].
Qed.

(** *** Pruning *)

Definition seg_max (s : segment) : Z := s.1 + zlen s.2 - 1.

Lemma max_seq_scan s :
  seqs_from s.1 s.2 → 0 < s.1 → max_seq (scan_of s) = Ok (seg_max s).
Proof.
  intros Hseq Hpos. unfold max_seq, seg_max. cbn [scan_of ss_records ss_first_seq].
  destruct (last s.2) as [r|] eqn:Hl; [by rewrite (seqs_from_last _ _ _ Hseq Hl)|].
  apply last_None in Hl. rewrite Hl. unfold previous_seq_before.
  rewrite (proj2 (u64_checked_sub_Some _ _ _)) by (split; [lia|reflexivity]). cbn.
  f_equal. change (zlen []) with 0. lia.
Qed.

(** The files without those of [l]. *)
Definition without files (l : list segment) : gmap string (list byte) :=
  foldr (λ s m, delete (segment_path s.1) m) files l.

Lemma without_lookup files l name :
  without files l !! name = if bool_decide (name ∈ segment_path <$> l.*1) then None else files !! name.
Proof.
  induction l as [|s l IH]; cbn [without foldr fmap list_fmap].
  { by rewrite bool_decide_false by set_solver. }
  destruct (decide (name = segment_path s.1)) as [->|Hne].
  - rewrite lookup_delete_eq, bool_decide_true by set_solver. done.
  - rewrite lookup_delete_ne by done. unfold without in IH. rewrite IH.
    apply (f_equal (λ b : bool, if b then _ else _)), bool_decide_ext. set_solver.
Qed.

Lemma without_delete files s l :
  without (delete (segment_path s.1) files) l = without files (s :: l).
Proof.
  apply map_eq. intros name. rewrite !without_lookup. cbn [fmap list_fmap].
  destruct (decide (name = segment_path s.1)) as [->|Hne].
  - rewrite lookup_delete_eq, (bool_decide_true (_ ∈ _ :: _)) by set_solver. by case_bool_decide.
  - rewrite lookup_delete_ne by done.
    apply (f_equal (λ b : bool, if b then _ else _)), bool_decide_ext. set_solver.
Qed.

(** The removal loop deletes the segments before the active one whose records
    are all at or below the requested sequence. *)
Lemma prune_inactive_spec seq (sa : segment) l files st k :
  Forall (λ s, seqs_from s.1 s.2 ∧ 0 < s.1 ∧ is_Some (files !! segment_path s.1) ∧
               segment_path s.1 ≠ segment_path sa.1) l →
  NoDup (segment_path <$> l.*1) →
  prune_inactive crc seq (Some (segment_path sa.1)) k (scan_of <$> (l ++ [sa]))
    (mkWorld (mkFs files []) st) =
    (Ok (k + zlen (filter (λ s, seg_max s ≤ seq) l)),
     mkWorld (mkFs (without files (filter (λ s, seg_max s ≤ seq) l)) []) st).
Proof.
  revert files k. induction l as [|s l IH]; intros files k Hall Hnd.
  { cbn [app fmap list_fmap prune_inactive scan_of ss_path]. rewrite bool_decide_true by done.
    cbn. change (zlen []) with 0. by rewrite Z.add_0_r. }
  apply Forall_cons in Hall as [(Hseq & Hpos & Hfile & Hna) Hall].
  cbn [fmap list_fmap] in Hnd. apply NoDup_cons in Hnd as [Hs Hnd].
  cbn [app fmap list_fmap prune_inactive]. change (ss_path (scan_of s)) with (segment_path s.1).
  rewrite bool_decide_false by congruence.
  erewrite mseq_ok by (unfold mlift; by rewrite max_seq_scan).
  rewrite filter_cons. destruct (Z.leb_spec (seg_max s) seq) as [Hle|Hgt].
  - rewrite decide_True by done.
    erewrite fs_op_ok by (by apply remove_file_ok). cbv beta iota.
    rewrite IH; [|..|done].
    + rewrite zlen_cons, without_delete. do 2 f_equal. lia.
    + rewrite Forall_forall in *. intros s' Hs'. destruct (Hall s' Hs') as (? & ? & ? & ?).
      split_and!; try done. rewrite lookup_delete_ne; [done|]. intros Heq. apply Hs. rewrite Heq.
      by apply path_elem.
  - rewrite decide_False by lia. by apply IH.
Qed.

(** In a chain the removed segments come first. *)
Lemma prune_split next init (s : segment) seq :
  segs_from next (init ++ [s]) →
  ∃ gone kept, init = gone ++ kept ∧
    filter (λ s, seg_max s ≤ seq) init = gone ∧ Forall (λ s, seq < seg_max s) kept ∧
    Forall (λ s, seg_max s ≤ seq) gone ∧
    segs_from (next + zlen (seg_records gone)) (kept ++ [s]).
Proof.
  revert next. induction init as [|s0 init IH]; intros next Hsegs.
  { exists [], []. split_and!; try done. change (zlen (seg_records [])) with 0. by rewrite Z.add_0_r. }
  pose proof Hsegs as (Hs & Hseq & Hne & Hrest). cbn [app] in *.
  destruct (IH _ Hrest) as (gone & kept & -> & Hf & Hk & Hg & Hsegs').
  destruct (decide (seg_max s0 ≤ seq)) as [Hle|Hgt].
  - exists (s0 :: gone), kept. rewrite filter_cons_True, Hf by done. split_and!; try done.
    + by constructor.
    + rewrite seg_records_cons, zlen_app, Z.add_assoc. done.
  - assert (gone = []) as ->.
    { destruct gone as [|g gone]; [done|]. apply Forall_cons in Hg as [Hg _]. exfalso.
      cbn [app] in Hrest. destruct Hrest as (Hgn & _ & Hgne & _).
      assert (g.2 ≠ []) as Hg2 by (apply Hgne; by destruct gone, kept).
      unfold seg_max in *. destruct (g.2) as [|r rs]; [done|]. rewrite zlen_cons in Hg.
      pose proof (zlen_nonneg rs). lia. }
    exists [], (s0 :: kept). cbn [app] in *. rewrite filter_cons_False by lia.
    split_and!; try done; [constructor; [lia|done]|].
    change (zlen (seg_records [])) with 0. by rewrite Z.add_0_r.
Qed.

Lemma dir_repr_without files gone kept :
  dir_repr files (gone ++ kept) [] → NoDup (segment_path <$> (gone ++ kept).*1) →
  dir_repr (without files gone) kept [].
Proof.
  intros [Hlaid Hdom] Hnd. rewrite laid_Forall in Hlaid. apply Forall_app in Hlaid as [_ Hlaid].
  rewrite !fmap_app in Hnd. apply NoDup_app in Hnd as (_ & Hd & _). split.
  - rewrite laid_Forall. rewrite Forall_forall in *. intros s Hs.
    rewrite without_lookup, bool_decide_false; [by apply Hlaid|]. intros Hg.
    apply (Hd _ Hg). by apply path_elem.
  - intros name. rewrite without_lookup. case_bool_decide as Hg.
    + split; [by intros [? [=]]|]. intros Hk. by destruct (Hd _ Hg).
    + rewrite Hdom, !fmap_app, elem_of_app. naive_solver.
Qed.

Lemma find_active init (s : segment) :
  NoDup (segment_path <$> (init ++ [s]).*1) →
  ∃ i, list_find (λ scan, Some (ss_path scan) = Some (segment_path s.1)) (scan_of <$> (init ++ [s]))
       = Some (i, scan_of s).
Proof.
  intros Hnd. exists (List.length init). apply list_find_Some.
  rewrite fmap_app. cbn [fmap list_fmap]. split_and!.
  - rewrite lookup_app_r by (by rewrite length_fmap).
    by rewrite length_fmap, Nat.sub_diag.
  - done.
  - intros j y Hj Hlt. rewrite lookup_app_l in Hj by (rewrite length_fmap; lia).
    apply list_lookup_fmap_Some in Hj as (s' & -> & Hs'). cbn. intros [= Heq].
    rewrite !fmap_app in Hnd. apply NoDup_app in Hnd as (_ & Hd & _).
    apply (Hd (segment_path s'.1)); [apply path_elem; by eapply list_elem_of_lookup_2|].
    rewrite Heq. cbn. set_solver.
Qed.

(** The test of [prune_through] on the active segment. *)
Lemma replace_test seq (s : segment) (w : World) :
  s.2 ≠ [] → seqs_from s.1 s.2 → 0 < s.1 →
  (match s.2 with
   | [] => mret false
   | _ => let! max := mlift (max_seq (scan_of s)) in mret (max <=? seq)
   end) w = (Ok (seg_max s <=? seq), w).
Proof.
  intros Hne Hseq Hpos. rewrite (max_seq_scan s) by done. by destruct (s.2).
Qed.

(** A non-empty active segment with no record above [seq] is replaced by an
    empty one, and removed. *)
Lemma prune_active_replace seq next (s : segment) segs files :
  s.2 ≠ [] → seg_max s ≤ seq → seqs_from s.1 s.2 → 0 < s.1 → NoDup (segment_path <$> segs.*1) →
  (∃ init, segs = init ++ [s]) →
  let first := next + zlen (seg_records segs) in
  0 < next → first ≤ u64_max → files !! segment_path first = None →
  dir_repr files [s] [] →
  ∃ files', prune_active crc seq (Some (segment_path s.1)) (scan_of <$> segs)
      (mkWorld (mkFs files []) (state_of next segs))
    = (Ok true, mkWorld (mkFs files' [])
        (mkWalState (ws_bounds (state_of next segs)) (Some (mkActive (segment_path first) SEGMENT_HEADER_LEN)))) ∧
    dir_repr files' [(first, [])] [].
Proof.
  intros Hne Hle Hseq Hpos Hnd [init ->] first Hnext Hmax Hnone Hdir.
  destruct (find_active init s Hnd) as [i Hfind]. pose proof (zlen_nonneg (seg_records (init ++ [s]))).
  exists (delete (segment_path s.1) (<[segment_path first := seg_bytes (first, [])]> files)). split.
  - unfold prune_active. rewrite Hfind. change (ss_records (scan_of s)) with s.2.
    rewrite (mseq_ok _ _ _ _ _ (replace_test seq s _ Hne Hseq Hpos)).
    rewrite (proj2 (Z.leb_le _ _)) by done. unfold get_state. erewrite mseq_ok by done. cbn [w_state state_of ws_bounds last_durable].
    unfold next_seq_after. erewrite mseq_ok.
    2: { unfold mlift. rewrite (proj2 (u64_checked_add_Some _ _ _)) by (split; [lia|reflexivity]). done. }
    replace (next - 1 + zlen (seg_records (init ++ [s])) + 1) with first by (unfold first; lia).
    erewrite mseq_ok; [|apply fs_op_ok; by apply write_new_segment_ok].
    erewrite mseq_ok by done. erewrite mseq_ok by done.
    erewrite fs_op_ok; [done|]. apply remove_file_ok. rewrite lookup_insert_ne.
    + destruct Hdir as [_ Hdom]. apply Hdom. set_solver.
    + intros Heq. destruct Hdir as [_ Hdom]. cbn in Heq. rewrite Heq in Hnone.
      destruct (proj2 (Hdom (segment_path s.1)) ltac:(set_solver)) as [? ?]. congruence.
  - destruct Hdir as [Hlaid Hdom].
    assert (segment_path first ≠ segment_path s.1) as Hneq.
    { intros Heq. rewrite Heq in Hnone.
      destruct (proj2 (Hdom (segment_path s.1)) ltac:(set_solver)) as [? ?]. congruence. }
    split.
    + cbn [laid fst]. by rewrite app_nil_r, lookup_delete_ne, lookup_insert_eq.
    + intros name. cbn [fmap list_fmap fst]. rewrite list_elem_of_singleton.
      destruct (decide (name = segment_path s.1)) as [->|Hn].
      { rewrite lookup_delete_eq. split; [by intros [? [=]]|]. intros Heq. by rewrite Heq in Hneq. }
      rewrite lookup_delete_ne by done. destruct (decide (name = segment_path first)) as [->|Hn'].
      { rewrite lookup_insert_eq. split; eauto. }
      rewrite lookup_insert_ne by done. rewrite Hdom. cbn [fmap list_fmap].
      rewrite list_elem_of_singleton. naive_solver.
Qed.

Lemma prune_active_keep seq (s : segment) init :
  s.2 = [] ∨ seq < seg_max s → seqs_from s.1 s.2 → 0 < s.1 →
  NoDup (segment_path <$> (init ++ [s]).*1) →
  ∀ w, prune_active crc seq (Some (segment_path s.1)) (scan_of <$> (init ++ [s])) w = (Ok false, w).
Proof.
  intros Hcase Hseq Hpos Hnd w. destruct (find_active init s Hnd) as [i Hfind].
  unfold prune_active. rewrite Hfind. change (ss_records (scan_of s)) with s.2.
  destruct (decide (s.2 = [])) as [->|Hne]; [done|]. destruct Hcase as [?|Hlt]; [done|].
  rewrite (mseq_ok _ _ _ _ _ (replace_test seq s _ Hne Hseq Hpos)).
  by rewrite (proj2 (Z.leb_gt _ _)).
Qed.

Lemma sync_and_reload_spec next segs files st :
  scannable next segs [] → dir_repr files segs [] → segs ≠ [] →
  sync_and_reload_wal_state crc (mkWorld (mkFs files []) st)
  = (Ok tt, mkWorld (mkFs files []) (state_of next segs)).
Proof.
  intros Hscan Hdir Hne. unfold sync_and_reload_wal_state. erewrite mseq_ok by done.
  erewrite mseq_ok; [|apply fs_op_ok; by eapply scan_wal_dir_spec].
  rewrite bool_decide_false by done. unfold put_state, mmodify. cbn. by rewrite repaired_id.
Qed.

Lemma scannable_drop next gone kept :
  scannable next (gone ++ kept) [] →
  segs_from (next + zlen (seg_records gone)) kept →
  scannable (next + zlen (seg_records gone)) kept [].
Proof.
  intros (Hsegs & Hpos & Hmax & Hcut & Hsmall) Hk.
  pose proof (zlen_nonneg (seg_records gone)). apply Forall_app in Hsmall as [_ Hsmall].
  unfold seg_records in Hmax. rewrite bind_app, zlen_app in Hmax.
  fold (seg_records gone) in Hmax. fold (seg_records kept) in Hmax.
  split; [done|]. split; [lia|]. split; [lia|]. done.
Qed.

(** Facts about every segment of a chain. *)
Lemma segs_from_Forall next segs :
  segs_from next segs → Forall (λ s, seqs_from s.1 s.2 ∧ next ≤ s.1 ∧ seg_max s < next + zlen (seg_records segs)) segs.
Proof.
  revert next. induction segs as [|s segs IH]; intros next; [constructor|].
  intros (Hs & Hseq & _ & Hrest). rewrite seg_records_cons, zlen_app. pose proof (zlen_nonneg s.2).
  pose proof (zlen_nonneg (seg_records segs)).
  constructor; [rewrite Hs; unfold seg_max; split_and!; [done|lia|lia]|].
  eapply Forall_impl; [by apply IH|]. cbn. intros s' (? & ? & ?). split_and!; [done|lia|lia].
Qed.

Lemma gone_records next gone seq :
  segs_from next gone → Forall (λ s, seg_max s ≤ seq) gone →
  Forall (λ r, rec_seq r ≤ seq) (seg_records gone).
Proof.
  intros Hsegs%segs_from_Forall Hg. rewrite Forall_forall in Hsegs, Hg. apply Forall_forall. intros r.
  unfold seg_records. rewrite list_elem_of_bind. intros (s & Hr & Hs).
  destruct (Hsegs s Hs) as (Hseq & _). destruct (seqs_from_elem _ _ _ Hseq Hr).
  specialize (Hg s Hs). unfold seg_max in Hg. cbn in *. lia.
Qed.

Lemma segs_from_prefix next gone kept : segs_from next (gone ++ kept) → segs_from next gone.
Proof.
  revert next. induction gone as [|s gone IH]; intros next; [done|]. cbn [app segs_from].
  intros (? & ? & Hne & ?). split_and!; try done; [|by apply IH].
  intros Hg. apply Hne. by destruct gone.
Qed.

(** What the removal loop leaves of a chain whose prefix [gone] it removed. *)
Lemma prune_left seq next files gone kept (s : segment) :
  dir_repr files (gone ++ kept ++ [s]) [] → scannable next (gone ++ kept ++ [s]) [] →
  segs_from (next + zlen (seg_records gone)) (kept ++ [s]) →
  Forall (λ s, seg_max s ≤ seq) gone →
  dir_repr (without files gone) (kept ++ [s]) [] ∧
  scannable (next + zlen (seg_records gone)) (kept ++ [s]) [] ∧
  Forall (λ r, rec_seq r ≤ seq) (seg_records gone) ∧
  seg_records (gone ++ kept ++ [s]) = seg_records gone ++ seg_records (kept ++ [s]).
Proof.
  intros Hdir Hscan Hsegs' Hg. destruct (scannable_keys _ _ _ Hscan) as (_ & _ & Hnd).
  split; [by apply dir_repr_without|]. split; [by apply scannable_drop|]. split.
  - eapply gone_records; [|done]. eapply segs_from_prefix, (proj1 Hscan).
  - unfold seg_records. by rewrite bind_app.
Qed.

(** The last part of [prune_through], after the removal loop. *)
Definition prune_finish (seq : Z) (active : string) (segs : list segment) (removed : Z)
    : M World ServerError WalPruneResult :=
  let! replaced := prune_active crc seq (Some active) (scan_of <$> segs) in
  let removed := if replaced then removed + 1 else removed in
  let! _ := if 0 <? removed then sync_and_reload_wal_state crc else mret tt in
  let! st := get_state in
  mret (mkWalPruneResult seq (pruned_through (ws_bounds st)) removed).

Lemma prune_finish_keep seq next files gone kept (s : segment) :
  let segs := gone ++ kept ++ [s] in
  dir_repr files segs [] → scannable next segs [] →
  segs_from (next + zlen (seg_records gone)) (kept ++ [s]) → Forall (λ s, seg_max s ≤ seq) gone →
  s.2 = [] ∨ seq < seg_max s → seqs_from s.1 s.2 → 0 < s.1 →
  let next' := next + zlen (seg_records gone) in
  let w' := mkWorld (mkFs (without files gone) []) (state_of next' (kept ++ [s])) in
  prune_finish seq (segment_path s.1) segs (zlen gone)
    (mkWorld (mkFs (without files gone) []) (state_of next segs))
  = (Ok (mkWalPruneResult seq (next' - 1) (zlen gone)), w') ∧ wal_inv w' next' (kept ++ [s]).
Proof.
  intros segs Hdir Hscan Hsegs' Hg Hkeep Hsseq Hspos next' w'.
  destruct (scannable_keys _ _ _ Hscan) as (_ & _ & Hnd).
  destruct (prune_left seq next files gone kept s) as (Hdir' & Hscan' & _); try done.
  split; [|split_and!; try done; by destruct kept].
  unfold prune_finish, segs in *. rewrite (app_assoc gone) in *.
  erewrite mseq_ok by (by apply prune_active_keep).
  destruct (decide (gone = [])) as [->|Hne].
  - change (0 <? zlen []) with false. cbn iota. erewrite mseq_ok by done. erewrite mseq_ok by done.
    unfold mret, w', next'. change (zlen (seg_records [])) with 0. by rewrite Z.add_0_r.
  - assert (0 < zlen gone).
    { destruct gone as [|g gone']; [done|]. rewrite zlen_cons. pose proof (zlen_nonneg gone'). lia. }
    rewrite (proj2 (Z.ltb_lt _ _)) by done.
    erewrite mseq_ok; [|eapply sync_and_reload_spec; try done; by destruct kept].
    erewrite mseq_ok by done. reflexivity.
Qed.

Lemma prune_finish_replace seq next files gone (s : segment) :
  let segs := gone ++ [s] in
  dir_repr files segs [] → scannable next segs [] →
  segs_from (next + zlen (seg_records gone)) [s] → Forall (λ s, seg_max s ≤ seq) gone →
  s.2 ≠ [] → seg_max s ≤ seq → seqs_from s.1 s.2 → 0 < s.1 →
  let next' := next + zlen (seg_records segs) in
  ∃ files', let w' := mkWorld (mkFs files' []) (state_of next' [(next', [])]) in
    prune_finish seq (segment_path s.1) segs (zlen gone)
      (mkWorld (mkFs (without files gone) []) (state_of next segs))
    = (Ok (mkWalPruneResult seq (next' - 1) (zlen gone + 1)), w') ∧ wal_inv w' next' [(next', [])].
Proof.
  intros segs Hdir Hscan Hsegs' Hg Hsne Hsle Hsseq Hspos next'.
  pose proof Hscan as (Hsegs & Hpos & Hmax & _).
  destruct (scannable_keys _ _ _ Hscan) as (_ & _ & Hnd).
  destruct (prune_left seq next files gone [] s) as (Hdir' & Hscan' & _); try done.
  assert (Forall (λ s, s.2 ≠ []) segs) as Hallne.
  { apply Forall_app. split; [by apply segs_from_snoc in Hsegs as (_ & ? & _)|by constructor]. }
  destruct (prune_active_replace seq next s segs (without files gone)) as (files' & Hrun & Hdir'');
    [done|done|done|done|done|by exists gone|done|done| |done|].
  { rewrite without_lookup. case_bool_decide; [done|]. by apply next_path_fresh. }
  pose proof (zlen_nonneg gone). pose proof (zlen_nonneg (seg_records segs)).
  fold next' in Hrun, Hdir'', Hmax.
  assert (scannable next' [(next', [])] []) as Hscan''.
  { pose proof (scannable_snoc_empty next' []) as Hs0. change (zlen (seg_records [])) with 0 in Hs0.
    rewrite Z.add_0_r in Hs0. apply Hs0; [|constructor]. split; [done|]. split; [unfold next'; lia|].
    split; [change (zlen (seg_records [])) with 0; lia|]. split; [by left|constructor]. }
  exists files'. split; [|by split_and!].
  unfold prune_finish. erewrite mseq_ok by exact Hrun. rewrite (proj2 (Z.ltb_lt _ _)) by lia.
  erewrite mseq_ok; [|by eapply sync_and_reload_spec]. erewrite mseq_ok by done. reflexivity.
Qed.

(** [prune_through] up to the removal loop. *)
Lemma prune_through_loop seq next files gone kept (s : segment) :
  let segs := gone ++ kept ++ [s] in
  dir_repr files segs [] → scannable next segs [] →
  seq ≤ next - 1 + zlen (seg_records segs) →
  filter (λ s, seg_max s ≤ seq) (gone ++ kept) = gone →
  prune_through crc seq (mkWorld (mkFs files []) (state_of next segs)) =
  prune_finish seq (segment_path s.1) segs (zlen gone)
    (mkWorld (mkFs (without files gone) []) (state_of next segs)).
Proof.
  intros segs Hdir Hscan Hseq Hf. destruct (scannable_keys _ _ _ Hscan) as (_ & _ & Hnd).
  unfold prune_through, get_state. erewrite mseq_ok by done. cbn [w_state].
  change (last_durable (ws_bounds (state_of next segs))) with (next - 1 + zlen (seg_records segs)).
  rewrite (proj2 (Z.ltb_ge _ _)) by lia.
  erewrite mseq_ok; [|apply fs_op_ok; by eapply scan_segments_spec]. rewrite repaired_id by done.
  unfold segs in *. rewrite (app_assoc gone) in *. rewrite state_active_snoc.
  cbn [fmap option_fmap option_map as_path].
  pose proof (segs_from_Forall _ _ (proj1 Hscan)) as Hall. rewrite Forall_forall in Hall.
  pose proof (proj1 (proj2 Hscan)) as Hpos.
  rewrite (fmap_app _ (gone ++ kept)), (fmap_app _ ((gone ++ kept).*1)) in Hnd.
  apply NoDup_app in Hnd as (Hnd' & Hd & _).
  erewrite mseq_ok; [|apply prune_inactive_spec; [|done]].
  2: { apply Forall_forall. intros s0 Hs0. destruct (Hall s0 ltac:(set_solver)) as (? & ? & _).
    split_and!; [done|lia|apply Hdir, path_elem; set_solver|]. intros Heq.
    apply (Hd (segment_path s0.1)); [by apply path_elem|]. rewrite Heq. cbn. set_solver. }
  rewrite Hf, Z.add_0_l. reflexivity.
Qed.

Lemma wal_prune_spec seq w next segs :
  wal_inv w next segs → seq ≤ next - 1 + zlen (seg_records segs) →
  ∃ w' next' segs' removed dropped,
    prune_through crc seq w = (Ok (mkWalPruneResult seq (next' - 1) removed), w') ∧
    wal_inv w' next' segs' ∧ next' = next + zlen dropped ∧
    seg_records segs = dropped ++ seg_records segs' ∧ Forall (λ r, rec_seq r ≤ seq) dropped.
Proof.
  intros Hinv Hseq. pose proof Hinv as (_ & Hdir & Hscan & _ & _).
  pose proof (wal_inv_world _ _ _ Hinv) as Hw. set (files := fs_files (w_fs w)) in *.
  destruct (last segs) as [s|] eqn:Hlast.
  2: { apply last_None in Hlast as ->. change (zlen (seg_records [])) with 0 in Hseq.
    eexists w, next, [], 0, []. change (zlen []) with 0. rewrite Z.add_0_r.
    split; [|split_and!; done]. rewrite Hw. unfold prune_through, get_state. erewrite mseq_ok by done.
    cbn [w_state]. change (last_durable (ws_bounds (state_of next []))) with (next - 1 + 0).
    rewrite (proj2 (Z.ltb_ge _ _)) by lia.
    erewrite mseq_ok; [|apply fs_op_ok; by eapply scan_segments_spec]. reflexivity. }
  apply last_Some in Hlast as [init ->]. pose proof Hscan as (Hsegs & Hpos & _).
  destruct (prune_split _ _ _ seq Hsegs) as (gone & kept & -> & Hf & Hk & Hg & Hsegs').
  rewrite <-app_assoc in *.
  destruct (prune_left seq next files gone kept s) as (_ & _ & Hdropped & Hrec); try done.
  assert (seqs_from s.1 s.2 ∧ 0 < s.1) as [Hsseq Hspos].
  { apply segs_from_Forall in Hsegs. rewrite Forall_forall in Hsegs.
    destruct (Hsegs s ltac:(set_solver)) as (? & ? & _). split; [done|lia]. }
  rewrite Hw, (prune_through_loop seq next files gone kept s) by done.
  destruct (decide (s.2 = [] ∨ seq < seg_max s)) as [Hkeep|Hrepl].
  - destruct (prune_finish_keep seq next files gone kept s) as [Hrun Hinv']; try done.
    eexists _, _, (kept ++ [s]), _, (seg_records gone). split; [exact Hrun|]. by split_and!.
  - assert (s.2 ≠ [] ∧ seg_max s ≤ seq) as [Hsne Hsle] by (split; [naive_solver|lia]).
    assert (kept = []) as ->.
    { destruct kept as [|k kept]; [done|]. apply Forall_cons in Hk as [Hk _]. exfalso.
      apply (segs_from_snoc _ (k :: kept)) in Hsegs' as (Hk' & _ & Hs1 & _).
      apply segs_from_Forall, Forall_cons in Hk' as [(_ & _ & Hk') _]. unfold seg_max in Hsle.
      destruct (s.2) as [|r rs]; [done|]. rewrite zlen_cons in Hsle. pose proof (zlen_nonneg rs). lia. }
    cbn [app] in *.
    destruct (prune_finish_replace seq next files gone s) as (files' & Hrun & Hinv'); try done.
    eexists _, _, [(next + zlen (seg_records (gone ++ [s])), [])], _, (seg_records (gone ++ [s])).
    split; [exact Hrun|]. split; [exact Hinv'|]. split; [done|]. split.
    + change (seg_records [(_, [])]) with (@nil WalRecord). by rewrite app_nil_r.
    + eapply gone_records; [exact Hsegs|]. apply Forall_app. split; [done|by constructor].
Qed.

(** The directory after a write to the last segment was cut short. *)
Lemma last_file files init (s : segment) :
  dir_repr files (init ++ [s]) [] → files !! segment_path s.1 = Some (seg_bytes s).
Proof.
  intros [Hlaid _]. rewrite laid_Forall in Hlaid. apply Forall_app in Hlaid as [_ H].
  by apply Forall_cons in H as [H _].
Qed.

Lemma crashed_dir files init (s : segment) cut :
  dir_repr files (init ++ [s]) [] → NoDup (segment_path <$> (init ++ [s]).*1) →
  dir_repr (<[segment_path s.1 := seg_bytes s ++ cut]> files) (init ++ [s]) cut.
Proof.
  intros Hdir Hnd. pose proof (last_file _ _ _ Hdir) as Hlast. destruct Hdir as [Hlaid Hdom]. split.
  - rewrite laid_Forall in Hlaid. apply Forall_app in Hlaid as [Hinit _].
    rewrite (fmap_app _ init), (fmap_app _ (init.*1)) in Hnd. apply NoDup_app in Hnd as (_ & Hd & _).
    clear Hdom Hlast. induction init as [|s0 init IH]; cbn [app laid].
    { by rewrite lookup_insert_eq. }
    apply Forall_cons in Hinit as [H0 Hinit].
    assert (laid (<[segment_path s.1 := seg_bytes s ++ cut]> files) (init ++ [s]) cut) as IH'.
    { apply IH; [done|]. intros x Hx. apply Hd. set_solver. }
    assert (segment_path s0.1 ≠ segment_path s.1) as Hne.
    { intros Heq. apply (Hd (segment_path s0.1)); [set_solver|]. rewrite Heq. cbn. set_solver. }
    destruct (init ++ [s]) eqn:Happ; [by destruct init|]. split; [|done].
    by rewrite lookup_insert_ne.
  - intros name. rewrite <-Hdom. destruct (decide (name = segment_path s.1)) as [->|Hne].
    + rewrite lookup_insert_eq, Hlast. split; eauto.
    + by rewrite lookup_insert_ne.
Qed.
End recovery.

(** ** Theorems *)

(** A log of one segment, for the examples. *)
Definition single_world (rs : list WalRecord) : World :=
  mkWorld (mkFs {[ segment_path 1 := seg_bytes crc32c (1, rs) ]} []) (state_of crc32c 1 [(1, rs)]).

Lemma single_world_inv rs :
  seqs_from 1 rs → zlen rs ≤ 1000 → zlen (seg_bytes crc32c (1, rs)) ≤ 1000000 →
  wal_inv crc32c (single_world rs) 1 [(1, rs)].
Proof.
  intros Hseq Hn Hlen. split; [done|]. split; [|split; [|done]].
  - split.
    + cbn [laid fst single_world w_fs fs_files]. by rewrite app_nil_r, lookup_singleton_eq.
    + intros name. cbn [fmap list_fmap fst w_fs fs_files single_world]. rewrite list_elem_of_singleton.
      rewrite lookup_singleton_is_Some. naive_solver.
  - split; [done|]. split; [lia|]. unfold u64_max, u32_max.
    split; [change (seg_records [(1, rs)]) with (rs ++ []); rewrite app_nil_r; lia|]. split; [by left|].
    constructor; [|constructor]. rewrite app_nil_r. lia.
Qed.

Definition sample_request : WalRequest := mkWalRequest (mkRange 4096 3) (rec_data (sample_record 1)).

(** An append is durable and ordered.  On a log that satisfies its
    invariant, a well-formed request is assigned the next sequence number, its
    record is added at the end of the log and nothing else changes, in a new
    segment when the active one has reached its target size; the files and the
    in-memory state again satisfy the invariant. *)
Theorem append_extends_log crc target q w next segs :
  wal_inv crc w next segs → SEGMENT_HEADER_LEN < target →
  request_wf q → room crc segs q → next + zlen (seg_records segs) + 1 ≤ u64_max →
  ∃ w' segs', let r := mkWalRecord (next + zlen (seg_records segs)) (req_range q) (req_data q) in
    wal_append crc target q w = (Ok r, w') ∧ wal_inv crc w' next segs' ∧
    seg_records segs' = seg_records segs ++ [r].
Proof. apply wal_append_spec. Qed.

Lemma append_extends_log_witness :
  ∃ w' segs', wal_append crc32c 60 sample_request (single_world [sample_record 1])
                = (Ok (sample_record 2), w') ∧
              wal_inv crc32c w' 1 segs' ∧ seg_records segs' = [sample_record 1; sample_record 2].
Proof.
  apply (append_extends_log crc32c 60 sample_request (single_world [sample_record 1]) 1
           [(1, [sample_record 1])]); [| by_compute | by_compute | | by_compute].
  - apply single_world_inv; by_compute.
  - constructor; [by_compute|constructor].
Defined.

(** C5: a crash in the middle of an append loses nothing that was acknowledged.
    When the newest segment ends in any strict prefix of a frame that was being
    written, opening the log repairs the file and recovers exactly the state,
    the bounds and the files of the log before that append. *)
Theorem crash_recovery crc w next init s cut :
  (∀ bs, is_u32 (crc bs)) → wal_inv crc w next (init ++ [s]) → torn crc cut →
  Forall (λ s, zlen (seg_bytes crc s ++ cut) + 3 * u32_max ≤ u64_max) (init ++ [s]) →
  wal_open crc (mkFs (<[segment_path s.1 := seg_bytes crc s ++ cut]> (fs_files (w_fs w))) [])
  = (Ok (w_state w), w_fs w).
Proof.
  intros Hc Hinv Htorn Hsmall. pose proof Hinv as (Hf & Hdir & Hscan & Hst & _).
  set (files := fs_files (w_fs w)) in *. destruct Hscan as (Hsegs & Hpos & Hmax & Hcut & Hsm).
  assert (scannable crc next (init ++ [s]) cut) as Hscan' by (split_and!; auto).
  destruct (scannable_keys _ _ _ _ Hscan') as (_ & _ & Hnd).
  destruct (wal_open_spec crc Hc next (init ++ [s]) cut (<[segment_path s.1 := seg_bytes crc s ++ cut]> files))
    as [Hopen _]; [done| |by destruct init|].
  - by apply crashed_dir.
  - rewrite Hopen, Hst. f_equal. unfold repaired. rewrite last_snoc, insert_insert_eq.
    rewrite insert_id; [|by eapply last_file].
    destruct w as [[files0 faults] st]. cbn in *. by subst.
Qed.

(** Replaying returns exactly the durable records in the requested window,
    in order: for [pruned_through <= after <= through <= last_durable] the
    replay has the records with [after < seq <= through], and reading leaves
    the log as it is. *)
Theorem replay_range_exact crc w next segs after through :
  (∀ bs, is_u32 (crc bs)) → wal_inv crc w next segs →
  next - 1 ≤ after → after ≤ through → through ≤ next - 1 + zlen (seg_records segs) →
  replay_range crc after through w =
    (Ok (filter (λ r, after < rec_seq r ∧ rec_seq r ≤ through) (seg_records segs)), w).
Proof. intros Hc. by apply replay_range_spec. Qed.

Lemma replay_range_exact_witness :
  replay_range crc32c 0 1 (single_world [sample_record 1; sample_record 2])
  = (Ok [sample_record 1], single_world [sample_record 1; sample_record 2]).
Proof.
  apply (replay_range_exact crc32c _ 1 [(1, [sample_record 1; sample_record 2])] 0 1);
    [apply crc32c_u32 | | lia | lia | by_compute].
  apply single_world_inv; by_compute.
Defined.

(** Pruning is safe.  [prune_through seq] succeeds for every [seq] up to the
    last durable sequence, keeps the invariant, and drops only a prefix of the
    log in which every record has a sequence of at most [seq]: records above
    [seq] are all still there, and the last durable sequence does not move. *)
Theorem prune_drops_only_prefix crc seq w next segs :
  (∀ bs, is_u32 (crc bs)) → wal_inv crc w next segs → seq ≤ next - 1 + zlen (seg_records segs) →
  ∃ w' next' segs' removed dropped,
    prune_through crc seq w = (Ok (mkWalPruneResult seq (next' - 1) removed), w') ∧
    wal_inv crc w' next' segs' ∧
    seg_records segs = dropped ++ seg_records segs' ∧ Forall (λ r, rec_seq r ≤ seq) dropped ∧
    last_durable (ws_bounds (w_state w')) = last_durable (ws_bounds (w_state w)).
Proof.
  intros Hc Hinv Hseq.
  destruct (wal_prune_spec crc Hc seq w next segs Hinv Hseq)
    as (w' & next' & segs' & removed & dropped & Hrun & Hinv' & Hnext & Hrec & Hd).
  exists w', next', segs', removed, dropped. split_and!; try done.
  destruct Hinv as (_ & _ & _ & -> & _), Hinv' as (_ & _ & _ & -> & _). cbn.
  rewrite Hrec, zlen_app. lia.
Qed.

Lemma prune_drops_only_prefix_witness :
  ∃ res w', prune_through crc32c 1 (single_world [sample_record 1]) = (Ok res, w') ∧
            last_durable (ws_bounds (w_state w')) = 1.
Proof.
  destruct (prune_drops_only_prefix crc32c 1 (single_world [sample_record 1]) 1 [(1, [sample_record 1])])
    as (w' & next' & segs' & removed & dropped & Hrun & _ & _ & _ & Hlast);
    [apply crc32c_u32 | apply single_world_inv; by_compute | by_compute |].
  eexists _, w'. split; [exact Hrun|exact Hlast].
Defined.

Lemma crash_recovery_witness :
  wal_open crc32c
    (mkFs {[ segment_path 1 := seg_bytes crc32c (1, [sample_record 1]) ++ take 30 (frame crc32c (sample_record 2)) ]} [])
  = (Ok (w_state (single_world [sample_record 1])), w_fs (single_world [sample_record 1])).
Proof.
  pose proof (crash_recovery crc32c (single_world [sample_record 1]) 1 [] (1, [sample_record 1])
    (take 30 (frame crc32c (sample_record 2))) crc32c_u32) as H.
  cbn [w_fs fs_files single_world fst] in H. rewrite insert_singleton_eq in H. apply H.
  - apply single_world_inv; by_compute.
  - exists (sample_record 2). split; [by_compute|]. split; [|by_compute].
    exists (drop 30 (frame crc32c (sample_record 2))). by rewrite take_drop.
  - constructor; [by_compute|constructor].
Defined.

(** *** Failed appends

    The frame of a failed write is left in the file, and the next append is
    written after it. *)

Definition big_request : WalRequest := mkWalRequest (mkRange 0 100) (zeros 100).

(** The log with record 1, about to see a write that fails after 40 bytes. *)
Definition faulty_world : World :=
  mkWorld (mkFs (fs_files (w_fs (single_world [sample_record 1]))) [Pass; Fail 40])
    (w_state (single_world [sample_record 1])).

(** C39: an acknowledged record can be lost after a failed append.  When the
    write of a record fails after its header has reached the file, [append]
    returns the error but leaves the partial frame; the next append is
    acknowledged with sequence 2, and a later open takes the two frames for one
    torn record, truncates the segment and reports sequence 1 as the last
    durable one. *)
Theorem failed_append_loses_acknowledged :
  ∃ e w1 w2 st fs,
    wal_append crc32c LOCAL_WAL_SEGMENT_TARGET_BYTES big_request faulty_world = (Err e, w1) ∧
    wal_append crc32c LOCAL_WAL_SEGMENT_TARGET_BYTES sample_request w1 = (Ok (sample_record 2), w2) ∧
    last_durable (ws_bounds (w_state w2)) = 2 ∧
    wal_open crc32c (w_fs w2) = (Ok st, fs) ∧ last_durable (ws_bounds st) = 1.
Proof.
  set (run1 := wal_append crc32c LOCAL_WAL_SEGMENT_TARGET_BYTES big_request faulty_world).
  set (run2 := wal_append crc32c LOCAL_WAL_SEGMENT_TARGET_BYTES sample_request run1.2).
  exists (ServerError_io "write WAL record" "io error"), run1.2, run2.2,
    (w_state (single_world [sample_record 1])), (wal_open crc32c (w_fs run2.2)).2.
  split_and!; vm_compute; reflexivity.
Qed.

(** The directory after a crash between creating a segment and writing its
    header. *)
Definition headerless_fs : Fs :=
  mkFs {[ segment_path 1 := seg_bytes crc32c (1, [sample_record 1]); segment_path 2 := [] ]} [].

(** A crash while a new segment is being created makes the log unopenable:
    a newest segment whose header is incomplete is an error, not a torn tail
    that is repaired. *)
Theorem torn_segment_header_not_repaired :
  ∃ e, (wal_open crc32c headerless_fs).1 = Err e.
Proof.
  exists (ServerError_wal "read WAL segment header" "segment {} is shorter than header").
  vm_compute. reflexivity.
Qed.
