(* ===== verification/WalInterface.v ===== *)
(** * The interface of a write-ahead log

    [wal/mod.rs], trait [ExportWal]: what the WAL-durable engine uses of a log, the laws it relies on,
    and the proof that the local log keeps them. *)

From S2P Require Import Prelude ControlPlane Server Wal WalLocal WalRecovery.

#[local] Open Scope string_scope.
#[local] Open Scope list_scope.
#[local] Open Scope Z_scope.

Class ExportWal (W : Type) : Type := {
  log_append : WalRequest → M W ServerError WalRecord;
  log_bounds : M W ServerError WalBounds;
  log_replay_after : WalSeq → M W ServerError (list WalRecord);
  log_replay_range : WalSeq → WalSeq → M W ServerError (list WalRecord);
  log_prune_through : WalSeq → M W ServerError WalPruneResult;
}.

(** The laws: a log holds records numbered from the one after [pruned]; appends add to its end, replay
    reads it, pruning drops a prefix of records at or before the given sequence. *)
Class ExportWalLaws (W : Type) `{!ExportWal W} : Type := {
  log_holds : W → Z → list WalRecord → Prop;
  log_room : W → WalRequest → Prop;
  law_log_seqs w pruned records :
    log_holds w pruned records → 0 ≤ pruned ∧ seqs_from (pruned + 1) records;
  law_log_append w pruned records q :
    log_holds w pruned records → request_wf q → log_room w q → pruned + zlen records + 2 ≤ u64_max →
    let r := mkWalRecord (pruned + zlen records + 1) (req_range q) (req_data q) in
    ∃ w', log_append q w = (Ok r, w') ∧ log_holds w' pruned (records ++ [r]);
  law_log_bounds w pruned records :
    log_holds w pruned records → log_bounds w = (Ok (mkWalBounds pruned (pruned + zlen records)), w);
  law_log_replay_after w pruned records after :
    log_holds w pruned records → pruned ≤ after ≤ pruned + zlen records →
    log_replay_after after w = (Ok (filter (λ r, after < rec_seq r) records), w);
  law_log_prune w pruned records seq :
    log_holds w pruned records → seq ≤ pruned + zlen records →
    ∃ w' result dropped kept, log_prune_through seq w = (Ok result, w') ∧ records = dropped ++ kept ∧
      Forall (λ r, rec_seq r ≤ seq) dropped ∧ log_holds w' (pruned + zlen dropped) kept;
}.

(** ** The local log *)

Section local.
Context (crc : list byte → Z) (target : Z).

(** [LocalExportWal::bounds]. *)
Definition wal_bounds : M World ServerError WalBounds := let! st := get_state in mret (ws_bounds st).

Definition local_wal : ExportWal World := {|
  log_append := wal_append crc target;
  log_bounds := wal_bounds;
  log_replay_after := replay_after crc;
  log_replay_range := replay_range crc;
  log_prune_through := prune_through crc;
|}.

(** The records of the open log that [w] is. *)
Definition local_holds (w : World) (pruned : Z) (records : list WalRecord) : Prop :=
  ∃ segs, wal_inv crc w (pruned + 1) segs ∧ seg_records segs = records.

Definition local_room (w : World) (q : WalRequest) : Prop :=
  ∀ next segs, wal_inv crc w next segs → room crc segs q.

Lemma seqs_from_bound n rs r : seqs_from n rs → r ∈ rs → n ≤ rec_seq r < n + zlen rs.
Proof.
  revert n. induction rs as [|r' rs IH]; intros n Hs Hin; [by apply not_elem_of_nil in Hin|].
  destruct Hs as (Hn & _ & Hs). rewrite zlen_cons. pose proof (zlen_nonneg rs).
  apply elem_of_cons in Hin as [->|Hin]; [lia|]. specialize (IH (n + 1) Hs Hin). lia.
Qed.

Lemma segs_from_records next segs : segs_from next segs → seqs_from next (seg_records segs).
Proof.
  revert next. induction segs as [|s segs IH]; intros next Hs; [done|]. destruct Hs as (_ & Hseq & _ & Hs).
  rewrite seg_records_cons. specialize (IH _ Hs). clear Hs. revert next Hseq IH.
  generalize s.2. intros rs. induction rs as [|r rs IHr]; intros next Hseq IH; cbn.
  - by rewrite Z.add_0_r in IH.
  - destruct Hseq as (? & ? & ?). split; [done|]. split; [done|]. apply IHr; [done|].
    rewrite zlen_cons in IH. by replace (next + 1 + zlen rs) with (next + (zlen rs + 1)) by lia.
Qed.

Lemma local_wal_laws :
  (∀ bs, is_u32 (crc bs)) → SEGMENT_HEADER_LEN < target → @ExportWalLaws World local_wal.
Proof.
  intros Hcrc Htarget. refine {| log_holds := local_holds; log_room := local_room |}.
  - intros w pruned records (segs & Hinv & <-). destruct Hinv as (_ & _ & (Hs & Hpos & _) & _).
    split; [lia|]. by apply segs_from_records.
  - intros w pruned records q (segs & Hinv & <-) Hq Hroom Hu r.
    destruct (wal_append_spec crc target q w (pruned + 1) segs Hinv Htarget Hq (Hroom _ _ Hinv) ltac:(lia))
      as (w' & segs' & Hrun & Hinv' & Hrec).
    exists w'. assert (r = mkWalRecord (pruned + 1 + zlen (seg_records segs)) (req_range q) (req_data q)) as -> by (unfold r; f_equal; lia).
    split; [done|]. by exists segs'.
  - intros w pruned records (segs & Hinv & <-). destruct Hinv as (_ & _ & _ & Hst & _).
    destruct w as [fs st]. cbn in *. subst st. unfold wal_bounds, state_of. cbn.
    replace (pruned + 1 - 1) with pruned by lia. done.
  - intros w pruned records after (segs & Hinv & <-) Hafter.
    assert (last_durable (ws_bounds (w_state w)) = pruned + zlen (seg_records segs)) as Hlast.
    { destruct Hinv as (_ & _ & _ & -> & _). cbn. lia. }
    cbn [log_replay_after local_wal]. unfold replay_after. erewrite mseq_ok by reflexivity. rewrite Hlast.
    rewrite (replay_range_spec crc Hcrc w (pruned + 1) segs after (pruned + zlen (seg_records segs)) Hinv) by lia.
    do 2 f_equal. destruct Hinv as (_ & _ & (Hs & _) & _). apply filter_ext_in. intros r Hin.
    pose proof (seqs_from_bound _ _ _ (segs_from_records _ _ Hs) Hin). split; lia.
  - intros w pruned records seq (segs & Hinv & <-) Hseq.
    destruct (wal_prune_spec crc Hcrc seq w (pruned + 1) segs Hinv ltac:(lia))
      as (w' & next' & segs' & removed & dropped & Hrun & Hinv' & Hnext & Hrec & Hd).
    eexists w', _, dropped, (seg_records segs'). split; [exact Hrun|]. split; [done|]. split; [done|].
    exists segs'. split; [|done]. by replace (pruned + zlen dropped + 1) with next' by lia.
Defined.
End local.
