(* ===== verification/Overlay.v ===== *)
(** * The write overlay

    [engines/wal_durable/overlay.rs]: the bytes that are in the write-ahead log
    and not yet in the committed tree, as an extent map into the log records.
    The theorems say that it is a last-writer-wins log index. *)

From S2P Require Import Prelude BTree ControlPlane Server ExtentMap Wal.

#[local] Open Scope string_scope.
#[local] Open Scope list_scope.
#[local] Open Scope Z_scope.

(** [read_view::range_end]. *)
Definition range_end (range : ByteRange) : Z := u64_saturating_add (br_start range) (br_len range).

Record OverlayExtent := mkOverlay { ox_seq : Z; ox_record : WalRecord; ox_offset : Z }.

Record OverlayReadSlice := mkSlice {
  sl_start : Z;
  sl_end : Z;
  sl_record : WalRecord;
  sl_offset : Z;
}.

Record RetiredOverlayExtent := mkRetired {
  re_start : Z;
  re_end : Z;
  re_seq : Z;
  re_record : WalRecord;
  re_offset : Z;
}.

Abbreviation OverlayExtentMap := (btree (Extent OverlayExtent)) (only parsing).
Abbreviation OM A := (M OverlayExtentMap ServerError A) (only parsing).

Definition OverlayExtentMap_new : OverlayExtentMap := em_new.

(** [OverlayExtent::split_at]. *)
Definition split_at (x : OverlayExtent) (delta : Z) : OverlayExtent :=
  mkOverlay (ox_seq x) (ox_record x) (u64_add (ox_offset x) delta).

Definition insert_record (record : WalRecord) : OM unit :=
  let range := rec_range record in
  let start := br_start range in
  let end_ := range_end range in
  let! _ := insert_overwrite_with_split start end_ (mkOverlay (rec_seq record) record 0) split_at in
  mret tt.

Definition overlay_is_empty (m : OverlayExtentMap) : bool := em_is_empty m.

(** The closure of [read_slices]. *)
Definition read_slice (read_start read_end : Z) (extent : ExtentEntry OverlayExtent)
    : SResult OverlayReadSlice :=
  let start := Z.max read_start (ee_start extent) in
  let end_ := Z.min read_end (ee_end extent) in
  let? record_offset :=
    ok_or (u64_checked_add (ox_offset (ee_value extent)) (u64_sub start (ee_start extent)))
      (ServerError_wal "read overlay extent" "record offset overflowed") in
  Ok (mkSlice start end_ (ox_record (ee_value extent)) record_offset).

Definition read_slices (m : OverlayExtentMap) (range : ByteRange) : SResult (list OverlayReadSlice) :=
  let read_start := br_start range in
  let read_end := range_end range in
  let? extents := overlapping m read_start read_end in
  try_map (read_slice read_start read_end) extents.

Definition all_slices (m : OverlayExtentMap) : list OverlayReadSlice :=
  (λ e, mkSlice (ee_start e) (ee_end e) (ox_record (ee_value e)) (ox_offset (ee_value e))) <$> em_iter m.

(** The key order of [sort_by_key(|extent| (extent.seq, extent.start))]. *)
Definition retired_le (a b : RetiredOverlayExtent) : bool :=
  (re_seq a <? re_seq b) || ((re_seq a =? re_seq b) && (re_start a <=? re_start b)).

Fixpoint insert_retired (e : RetiredOverlayExtent) (l : list RetiredOverlayExtent)
    : list RetiredOverlayExtent :=
  match l with
  | [] => [e]
  | e' :: l' => if retired_le e e' then e :: l else e' :: insert_retired e l'
  end.

Definition retire (e : ExtentEntry OverlayExtent) : RetiredOverlayExtent :=
  mkRetired (ee_start e) (ee_end e) (ox_seq (ee_value e)) (ox_record (ee_value e)) (ox_offset (ee_value e)).

Definition visible_through (m : OverlayExtentMap) (seq : Z) : list RetiredOverlayExtent :=
  let retired := retire <$> filter (λ e, ox_seq (ee_value e) ≤ seq) (em_iter m) in
  foldr insert_retired [] retired.

Definition remove_retired (retired : list RetiredOverlayExtent) : OM unit :=
  mfor retired (λ e, let! _ := remove_range_with_split (re_start e) (re_end e) split_at in mret tt).

(** ** Invariant

    An extent lies inside the range of its record, at the offset it says. *)

Definition record_ok (r : WalRecord) : Prop := record_wf r ∧ range_ok (rec_range r).

#[export] Instance record_ok_dec r : Decision (record_ok r).
Proof. unfold record_ok. apply _. Defined.

Definition overlay_extent_ok (p : Z * Extent OverlayExtent) : Prop :=
  let x := ext_value p.2 in
  record_ok (ox_record x) ∧ ox_seq x = rec_seq (ox_record x) ∧ 0 ≤ ox_offset x ∧
  p.1 = br_start (rec_range (ox_record x)) + ox_offset x ∧
  ext_end p.2 ≤ br_start (rec_range (ox_record x)) + br_len (rec_range (ox_record x)).

Definition overlay_inv (m : OverlayExtentMap) : Prop := em_wf m ∧ ∀ p, p ∈ m → overlay_extent_ok p.

(** What the overlay says of a byte: the record that wrote it and the byte. *)
Definition overlay_view (x : OverlayExtent) (k : Z) : WalRecord * option byte :=
  (ox_record x, zget (rec_data (ox_record x)) (ox_offset x + k)).

(** ** Abstract overlay: the records in the order they were applied *)

(** The byte a record writes at [i]. *)
Definition record_byte (r : WalRecord) (i : Z) : option byte := zget (rec_data r) (i - br_start (rec_range r)).

#[export] Instance in_byte_range_dec r x : Decision (in_byte_range r x).
Proof. unfold in_byte_range. apply _. Defined.

(** The last of the records that wrote position [i]. *)
Fixpoint last_writer (rs : list WalRecord) (i : Z) : option WalRecord :=
  match rs with
  | [] => None
  | r :: rs =>
      match last_writer rs i with
      | Some w => Some w
      | None => if bool_decide (in_byte_range (rec_range r) i) then Some r else None
      end
  end.

Section overlay.
Implicit Types (m : OverlayExtentMap) (r : WalRecord).

Lemma range_end_ok range : range_ok range → range_end range = br_start range + br_len range.
Proof. intros (? & ? & ?). unfold range_end, u64_saturating_add. lia. Qed.

Lemma record_ok_len r : record_ok r → 0 < br_len (rec_range r) ∧ zlen (rec_data r) = br_len (rec_range r).
Proof.
  intros [(_ & _ & _ & _ & Hne & Hl) _]. split; [|done]. rewrite <-Hl.
  destruct (rec_data r); [done|]. unfold zlen. cbn. lia.
Qed.

(** The offset of an extent stays far from overflow. *)
Lemma overlay_offset_bound p d :
  overlay_extent_ok p → 0 ≤ d < ext_end p.2 - p.1 → 0 ≤ ox_offset (ext_value p.2) + d ≤ u32_max.
Proof.
  intros ([_ (_ & [_ Hl] & _)] & _ & Hoff & Hs & He) Hd. lia.
Qed.

Lemma overlay_splits_ok m : overlay_inv m → splits_ok overlay_view split_at m.
Proof.
  intros [_ Hok] p d k Hp Hd. pose proof (overlay_offset_bound p d (Hok p Hp) Hd).
  unfold overlay_view, split_at. cbn. rewrite u64_add_id by (unfold u32_max, u64_max in *; lia).
  do 2 f_equal. lia.
Qed.

(** Cutting a range out and inserting a good extent keeps the extents good. *)
Lemma cut_insert_overlay_inv start end_ new m m' :
  overlay_inv m → start < end_ → cut_insert split_at start end_ new m m' →
  (∀ v, new = Some v → overlay_extent_ok (start, mkExtent end_ v)) → overlay_inv m'.
Proof.
  intros [Hwf Hok] Hlt [Hwf' Hin] Hnew. split; [done|]. intros q Hq.
  apply Hin in Hq as [(v & Hv & ->)|[[Hq _]|(p & Hp & [Hm1 Hm2] & Hq)]]; [by apply Hnew|by apply Hok|].
  pose proof (Hok p Hp) as Hpok. pose proof Hpok as ((Hw & Hr) & Hs & Ho & Hst & He).
  pose proof Hwf as (_ & Hne & _). specialize (Hne p Hp).
  apply tails_elem in Hq as [[Hl ->]|[Hl ->]]; unfold overlay_extent_ok; cbn -[record_ok].
  - rewrite u64_add_id.
    + split_and!; try done; lia.
    + pose proof (overlay_offset_bound p 0 Hpok). unfold u32_max, u64_max in *. lia.
  - rewrite u64_add_id.
    + split_and!; try done; lia.
    + pose proof (overlay_offset_bound p (end_ - p.1) Hpok). unfold u32_max, u64_max in *. lia.
Qed.

Lemma insert_record_spec r m :
  overlay_inv m → record_ok r →
  ∃ m', insert_record r m = (Ok tt, m') ∧ overlay_inv m' ∧
    ∀ i, contents overlay_view m' i =
      if bool_decide (in_byte_range (rec_range r) i) then Some (r, record_byte r i)
      else contents overlay_view m i.
Proof.
  intros Hinv Hr. pose proof (record_ok_len r Hr) as [Hpos Hlen]. pose proof Hr as [Hwf Hrange].
  unfold insert_record. rewrite range_end_ok by done. cbv zeta.
  set (start := br_start (rec_range r)) in *. set (end_ := start + br_len (rec_range r)) in *.
  assert (start < end_) as Hlt by (unfold end_; lia).
  destruct (insert_overwrite_with_split_spec split_at m start end_
    (mkOverlay (rec_seq r) r 0) (proj1 Hinv) Hlt) as (m' & Hrun & Hcut).
  exists m'. rewrite (mseq_ok _ _ _ _ _ Hrun). split; [done|]. split.
  - eapply cut_insert_overlay_inv; [done|done|done|]. intros v [= <-].
    unfold overlay_extent_ok. cbn -[record_ok]. split_and!; try done; unfold end_; lia.
  - intros i. rewrite (cut_insert_contents overlay_view split_at start end_ (Some (mkOverlay (rec_seq r) r 0)) m m' i);
      [|by apply overlay_splits_ok|apply Hinv|done|done].
    case_bool_decide as Hi; unfold in_byte_range in Hi; fold start in Hi.
    + rewrite (proj2 (Z.leb_le start i)), (proj2 (Z.ltb_lt i end_)) by (unfold end_; lia). done.
    + destruct (Z.leb_spec start i), (Z.ltb_spec i end_); cbn; try done. unfold end_ in *. lia.
Qed.

(** Applying records one after the other. *)
Lemma insert_records_spec rs m :
  overlay_inv m → Forall record_ok rs →
  ∃ m', mfor rs insert_record m = (Ok tt, m') ∧ overlay_inv m' ∧
    ∀ i, contents overlay_view m' i =
      match last_writer rs i with
      | Some w => Some (w, record_byte w i)
      | None => contents overlay_view m i
      end.
Proof.
  intros Hinv Hrs. revert m Hinv. induction Hrs as [|r rs Hr Hrs IH]; intros m Hinv; [by exists m|].
  destruct (insert_record_spec r m Hinv Hr) as (m1 & H1 & Hinv1 & Hc1).
  destruct (IH m1 Hinv1) as (m2 & H2 & Hinv2 & Hc2).
  exists m2. cbn [mfor]. rewrite (mseq_ok _ _ _ _ _ H1). split; [done|]. split; [done|].
  intros i. rewrite Hc2. cbn [last_writer]. destruct (last_writer rs i); [done|].
  rewrite Hc1. by case_bool_decide.
Qed.

(** *** Reading slices *)

Lemma read_slice_ok m p read_start read_end :
  overlay_inv m → p ∈ m → meets read_start read_end p →
  read_slice read_start read_end (extent_ref p.1 p.2) =
    Ok (mkSlice (Z.max read_start p.1) (Z.min read_end (ext_end p.2)) (ox_record (ext_value p.2))
          (ox_offset (ext_value p.2) + (Z.max read_start p.1 - p.1))).
Proof.
  intros [Hwf Hok] Hp [Hm1 Hm2]. pose proof Hwf as (_ & Hne & _). specialize (Hne p Hp).
  pose proof (Hok p Hp) as Hpok. unfold read_slice. cbn [extent_ref ee_start ee_end ee_value].
  pose proof (overlay_offset_bound p (Z.max read_start p.1 - p.1) Hpok ltac:(lia)) as Hb.
  pose proof Hpok as ((_ & (Hr1 & [_ Hr2] & Hr3)) & _ & Ho & Hs & He).
  unfold u32_max, u64_max in *. rewrite u64_sub_id by (unfold u64_max; lia).
  rewrite (proj2 (u64_checked_add_Some _ _ _)) by (split; [unfold u64_max; lia|reflexivity]). done.
Qed.

Definition slice_of (read_start read_end : Z) (p : Z * Extent OverlayExtent) : OverlayReadSlice :=
  mkSlice (Z.max read_start p.1) (Z.min read_end (ext_end p.2)) (ox_record (ext_value p.2))
    (ox_offset (ext_value p.2) + (Z.max read_start p.1 - p.1)).

Lemma read_slices_eq m range :
  overlay_inv m → range_ok range → br_len range ≠ 0 →
  read_slices m range =
    Ok (slice_of (br_start range) (br_start range + br_len range) <$>
        filter (meets (br_start range) (br_start range + br_len range)) m).
Proof.
  intros Hinv Hr Hne. pose proof Hr as (? & [? ?] & ?). unfold read_slices.
  rewrite range_end_ok by done. rewrite overlapping_eq by (apply Hinv || lia). cbn [obind].
  unfold em_iter. set (l := filter _ m).
  assert (∀ p, p ∈ l → p ∈ m ∧ meets (br_start range) (br_start range + br_len range) p) as Hl.
  { intros p [? ?]%list_elem_of_filter. done. }
  clearbody l. induction l as [|p l IH]; [done|]. cbn [fmap list_fmap try_map].
  destruct (Hl p ltac:(set_solver)) as [Hp Hm]. rewrite (read_slice_ok m p) by done. cbn [obind].
  rewrite IH by (intros q Hq; apply Hl; set_solver). done.
Qed.

(** *** Retiring *)

Lemma remove_retired_spec l m :
  overlay_inv m → Forall (λ e, re_start e < re_end e) l →
  ∃ m', remove_retired l m = (Ok tt, m') ∧ overlay_inv m' ∧
    ∀ i, contents overlay_view m' i =
      if bool_decide (Exists (λ e, re_start e ≤ i < re_end e) l) then None
      else contents overlay_view m i.
Proof.
  intros Hinv Hl. revert m Hinv. induction Hl as [|e l He Hl IH]; intros m Hinv.
  { exists m. split; [done|]. split; [done|]. intros i. rewrite bool_decide_false; [done|].
    by intros ?%Exists_nil. }
  destruct (remove_range_with_split_spec split_at m (re_start e) (re_end e) (proj1 Hinv) He)
    as (m1 & H1 & Hcut).
  assert (overlay_inv m1) as Hinv1 by (eapply cut_insert_overlay_inv; [done|done|done|intros v [=]]).
  destruct (IH m1 Hinv1) as (m2 & H2 & Hinv2 & Hc2). exists m2. split; [|split; [done|]].
  - unfold remove_retired. cbn [mfor]. erewrite mseq_ok; [exact H2|].
    by rewrite (mseq_ok _ _ _ _ _ H1).
  - intros i. rewrite Hc2.
    rewrite (cut_insert_contents overlay_view split_at (re_start e) (re_end e) None m m1 i);
      [|by apply overlay_splits_ok|apply Hinv|done|done].
    rewrite (bool_decide_ext (Exists _ (e :: l))
      (re_start e ≤ i < re_end e ∨ Exists (λ e, re_start e ≤ i < re_end e) l)) by apply Exists_cons.
    destruct (Z.leb_spec (re_start e) i), (Z.ltb_spec i (re_end e)); cbn;
      repeat case_bool_decide; try done; naive_solver lia.
Qed.

Lemma insert_retired_perm e l : insert_retired e l ≡ₚ e :: l.
Proof.
  induction l as [|e' l IH]; cbn; [done|]. destruct (retired_le e e'); [done|].
  rewrite IH. apply Permutation_swap.
Qed.

Lemma visible_through_perm m seq :
  visible_through m seq ≡ₚ retire <$> filter (λ e, ox_seq (ee_value e) ≤ seq) (em_iter m).
Proof.
  unfold visible_through. generalize (retire <$> filter (λ e, ox_seq (ee_value e) ≤ seq) (em_iter m)).
  intros l. induction l as [|e l IH]; cbn; [done|]. by rewrite insert_retired_perm, IH.
Qed.

Lemma visible_through_elem m seq e :
  e ∈ visible_through m seq ↔
  ∃ p, p ∈ m ∧ ox_seq (ext_value p.2) ≤ seq ∧ e = retire (extent_ref p.1 p.2).
Proof.
  rewrite visible_through_perm, list_elem_of_fmap. setoid_rewrite list_elem_of_filter.
  setoid_rewrite em_iter_elem. split.
  - intros (x & -> & Hs & s & y & Hin & ->). exists (s, y). done.
  - intros ([s y] & Hin & Hs & ->). exists (extent_ref s y). split; [done|]. split; [done|]. eauto.
Qed.
(** Removing what is visible through [seq] leaves what was written after it. *)
Lemma remove_visible_spec m seq :
  overlay_inv m →
  ∃ m', remove_retired (visible_through m seq) m = (Ok tt, m') ∧ overlay_inv m' ∧
    ∀ i, contents overlay_view m' i =
      match contents overlay_view m i with
      | Some (r, b) => if rec_seq r <=? seq then None else Some (r, b)
      | None => None
      end.
Proof.
  intros Hinv. pose proof Hinv as [Hwf Hok]. pose proof Hwf as (_ & Hne & _).
  destruct (remove_retired_spec (visible_through m seq) m Hinv) as (m' & Hrun & Hinv' & Hc).
  { apply Forall_forall. intros e (p & Hp & _ & ->)%visible_through_elem. cbn. by apply Hne. }
  exists m'. split; [done|]. split; [done|]. intros i. rewrite Hc. unfold contents.
  destruct (em_find m i) as [p|] eqn:Hf; cbn.
  - apply em_find_Some in Hf as [Hp Hpi]; [|done]. destruct (Hok p Hp) as (_ & Hseq & _).
    rewrite <-Hseq. destruct (Z.leb_spec (ox_seq (ext_value p.2)) seq) as [Hle|Hgt].
    + rewrite bool_decide_true; [done|]. apply Exists_exists.
      exists (retire (extent_ref p.1 p.2)). split; [|done]. apply visible_through_elem. eauto.
    + rewrite bool_decide_false; [done|]. intros (e & He & Hie)%Exists_exists.
      apply visible_through_elem in He as (q & Hq & Hqs & ->). cbn in Hie.
      assert (em_find m i = Some q) as Hfq by by apply em_find_Some.
      assert (em_find m i = Some p) as Hfp by by apply em_find_Some.
      rewrite Hfq in Hfp. injection Hfp as ->. lia.
  - by case_bool_decide.
Qed.
End overlay.

(** ** Theorems *)

Definition sample_write (seq start : Z) (data : list byte) : WalRecord :=
  mkWalRecord seq (mkRange start (zlen data)) data.

(** C24: the overlay is a last-writer-wins index of the log.  Applying any list
    of valid records to an empty overlay succeeds, keeps its invariant, and then
    every byte position is mapped exactly to the last of the records that wrote
    it and to the byte that record wrote there. *)
Theorem overlay_last_writer_wins rs :
  Forall record_ok rs →
  ∃ m, mfor rs insert_record OverlayExtentMap_new = (Ok tt, m) ∧ overlay_inv m ∧
    ∀ i, contents overlay_view m i = (λ w, (w, record_byte w i)) <$> last_writer rs i.
Proof.
  intros Hrs. destruct (insert_records_spec rs OverlayExtentMap_new) as (m & Hrun & Hinv & Hc).
  - split; [apply em_wf_nil|]. set_solver.
  - done.
  - exists m. split; [done|]. split; [done|]. intros i. rewrite Hc. by destruct (last_writer rs i).
Qed.

Lemma overlay_last_writer_wins_witness :
  let a := sample_write 1 0 (zeros 8) in
  let b := sample_write 2 4 (zeros 2) in
  ∃ m, mfor [a; b] insert_record OverlayExtentMap_new = (Ok tt, m) ∧
       contents overlay_view m 5 = Some (b, Some x00) ∧ contents overlay_view m 7 = Some (a, Some x00).
Proof.
  intros a b. destruct (overlay_last_writer_wins [a; b]) as (m & Hrun & _ & Hc).
  - repeat constructor; by_compute.
  - exists m. split; [exact Hrun|]. rewrite !Hc. split; reflexivity.
Defined.

(** The slices of a read are exactly the overlay's view of the range.  For a
    non-empty range inside the address space [read_slices] succeeds; a position
    of the range is covered by a slice if and only if the overlay maps it, and
    the slice then names the same record and byte. *)
Theorem read_slices_exact m range :
  overlay_inv m → range_ok range → br_len range ≠ 0 →
  ∃ slices, read_slices m range = Ok slices ∧
    (∀ sl, sl ∈ slices → br_start range ≤ sl_start sl < sl_end sl ∧
                         sl_end sl ≤ br_start range + br_len range) ∧
    ∀ i, in_byte_range range i →
      match contents overlay_view m i with
      | Some (r, b) => ∃ sl, sl ∈ slices ∧ sl_start sl ≤ i < sl_end sl ∧ sl_record sl = r ∧
                             zget (rec_data r) (sl_offset sl + (i - sl_start sl)) = b
      | None => ∀ sl, sl ∈ slices → ¬ (sl_start sl ≤ i < sl_end sl)
      end.
Proof.
  intros Hinv Hr Hne. pose proof Hr as (? & [? ?] & ?). pose proof Hinv as [Hwf _].
  eexists. split; [by apply read_slices_eq|].
  set (start := br_start range) in *. set (end_ := start + br_len range) in *. split.
  - intros sl (p & -> & [[Hm1 Hm2] Hp]%list_elem_of_filter)%list_elem_of_fmap.
    pose proof Hwf as (_ & Hn & _). specialize (Hn p Hp). cbn. unfold end_ in *. lia.
  - intros i Hi. unfold in_byte_range in Hi. fold start in Hi. fold end_ in Hi.
    unfold contents. destruct (em_find m i) as [p|] eqn:Hf; cbn.
    + apply em_find_Some in Hf as [Hp Hpi]; [|done]. exists (slice_of start end_ p). split.
      * apply list_elem_of_fmap. exists p. split; [done|]. apply list_elem_of_filter.
        split; [|done]. split; lia.
      * cbn. split_and!; try lia; [done|]. f_equal. lia.
    + pose proof (proj1 (em_find_None m i Hwf) Hf) as Hno.
      intros sl (p & -> & [_ Hp]%list_elem_of_filter)%list_elem_of_fmap. cbn.
      specialize (Hno p Hp). lia.
Qed.

Lemma read_slices_exact_witness :
  ∃ slices, read_slices OverlayExtentMap_new (mkRange 0 4096) = Ok slices.
Proof.
  destruct (read_slices_exact OverlayExtentMap_new (mkRange 0 4096)) as (slices & H & _).
  - split; [apply em_wf_nil|]. intros p Hp. by apply not_elem_of_nil in Hp.
  - by_compute.
  - discriminate.
  - exists slices. exact H.
Defined.

(** Retiring the records a compaction has made durable removes exactly
    them.  After [remove_retired (visible_through seq)] a position is mapped if
    and only if it was mapped to a record above [seq], and then to the same
    record and byte. *)
Theorem retire_removes_exactly m seq :
  overlay_inv m →
  ∃ m', remove_retired (visible_through m seq) m = (Ok tt, m') ∧ overlay_inv m' ∧
    ∀ i, contents overlay_view m' i =
      match contents overlay_view m i with
      | Some (r, b) => if rec_seq r <=? seq then None else Some (r, b)
      | None => None
      end.
Proof. apply remove_visible_spec. Qed.

(** The overlay after one write. *)
Definition one_write : btree (Extent OverlayExtent) :=
  (insert_record (sample_write 1 0 (zeros 8)) OverlayExtentMap_new).2.

Lemma one_write_inv : overlay_inv one_write.
Proof.
  destruct (insert_record_spec (sample_write 1 0 (zeros 8)) OverlayExtentMap_new) as (m & Hrun & Hinv & _).
  - split; [apply em_wf_nil|]. set_solver.
  - by_compute.
  - unfold one_write. by rewrite Hrun.
Qed.

Lemma retire_removes_exactly_witness :
  ∃ m', remove_retired (visible_through one_write 1) one_write = (Ok tt, m') ∧
        contents overlay_view m' 5 = None.
Proof.
  destruct (retire_removes_exactly one_write 1 one_write_inv) as (m' & H & _ & Hc).
  exists m'. split; [exact H|]. rewrite Hc. reflexivity.
Defined.
