(* ===== verification/Geometry.v ===== *)
(** * The bounded tree geometry

    [engines/tree/geometry.rs]: how an export of [size_bytes] bytes is cut in
    chunks of 32 MiB that hang below a tree of fanout 32.  The theorems say that
    the tree is the smallest one that covers the export, that the path to a
    chunk leads to that chunk's span, and that a byte range is cut in exactly the
    chunks it touches. *)

From S2P Require Import Prelude ControlPlane Server.

#[local] Open Scope string_scope.
#[local] Open Scope list_scope.
#[local] Open Scope Z_scope.

Record TreeGeometry := mkGeometry {
  geo_format : TreeFormat;
  geo_fanout : Z;
  geo_chunk_bytes : Z;
  geo_size_bytes : Z;
  geo_root_level : Z;
}.

Record TreePath := mkTreePath { tp_chunk_index : ChunkIndex; tp_slots : list Z }.

Record TreeNodeSpan := mkSpan { span_level : Z; span_start : Z; span_len : Z }.

Record TreeChunkRange := mkChunkRange {
  tc_chunk_index : ChunkIndex;
  tc_chunk_offset : Z;
  tc_range : ByteRange;
}.

Definition invalid_tree (message : string) : ServerError := SCatalog message None.

(** The [while] loop of [TreeGeometry::new]; the capacity grows by the fanout
    and fits [u64], so thirteen rounds are more than it can make. *)
Fixpoint grow_levels (fuel : nat) (fanout chunk_count capacity_chunks root_level : Z)
    : SResult Z :=
  match fuel with
  | O => Panic
  | S fuel =>
      if capacity_chunks <? chunk_count then
        let? capacity_chunks :=
          ok_or (u64_checked_mul capacity_chunks fanout) (invalid_tree "tree capacity overflows") in
        let? root_level :=
          ok_or (u16_checked_add root_level 1) (invalid_tree "tree level overflows") in
        grow_levels fuel fanout chunk_count capacity_chunks root_level
      else Ok root_level
  end.

Definition TreeGeometry_new (format : TreeFormat) (size_bytes : Z) : SResult TreeGeometry :=
  if size_bytes =? 0 then Err (invalid_tree "tree size must be non-zero")
  else
    let '(fanout, chunk_bytes) := match format with Bounded32V1 => (32, TREE_CHUNK_BYTES) end in
    let? padded :=
      ok_or (u64_checked_add size_bytes (chunk_bytes - 1))
        (invalid_tree "tree size overflows chunk count") in
    let chunk_count := padded / chunk_bytes in
    let? root_level := grow_levels 13 fanout chunk_count fanout 1 in
    Ok (mkGeometry format fanout chunk_bytes size_bytes root_level).

Definition root_span (g : TreeGeometry) : TreeNodeSpan :=
  mkSpan (geo_root_level g) 0 (geo_size_bytes g).

(** The [for] loop of [chunks_per_node]. *)
Fixpoint chunks_rounds (rounds : nat) (fanout chunks : Z) : SResult Z :=
  match rounds with
  | O => Ok chunks
  | S rounds =>
      let? chunks :=
        ok_or (u64_checked_mul chunks fanout) (invalid_tree "node chunk capacity overflows") in
      chunks_rounds rounds fanout chunks
  end.

Definition chunks_per_node (g : TreeGeometry) (level : Z) : SResult Z :=
  chunks_rounds (Z.to_nat level) (geo_fanout g) 1.

Definition full_span_len (g : TreeGeometry) (level : Z) : SResult Z :=
  let? chunks := chunks_per_node g level in
  ok_or (u64_checked_mul (geo_chunk_bytes g) chunks) (invalid_tree "node span length overflows").

Definition node_span (g : TreeGeometry) (level start_bytes : Z) : SResult TreeNodeSpan :=
  if geo_root_level g <? level then Err (invalid_tree "node level {level} exceeds root level {}")
  else if geo_size_bytes g <=? start_bytes then
    Err (invalid_tree "node starts at {start_bytes}, beyond tree size {}")
  else
    let? full_len := full_span_len g level in
    let remaining := u64_sub (geo_size_bytes g) start_bytes in
    Ok (mkSpan level start_bytes (Z.min full_len remaining)).

Definition child_span (g : TreeGeometry) (parent : TreeNodeSpan) (slot : Z) : SResult TreeNodeSpan :=
  if span_level parent =? 0 then Err (invalid_tree "leaf nodes do not have children")
  else if geo_fanout g <=? slot then Err (invalid_tree "child slot {slot} exceeds fanout {}")
  else
    let child_level := span_level parent - 1 in
    let? child_full_len := full_span_len g child_level in
    let? offset :=
      ok_or (u64_checked_mul slot child_full_len) (invalid_tree "child span offset overflows") in
    let? child_start :=
      ok_or (u64_checked_add (span_start parent) offset)
        (invalid_tree "child span start overflows") in
    node_span g child_level child_start.

Definition validate_chunk_index (g : TreeGeometry) (chunk_index : ChunkIndex) : SResult unit :=
  let? start :=
    ok_or (u64_checked_mul chunk_index (geo_chunk_bytes g))
      (invalid_tree "chunk byte offset overflows") in
  if geo_size_bytes g <=? start then
    Err (invalid_tree "chunk {chunk_index} starts beyond tree size {}")
  else Ok tt.

(** One round of the loop of [path_for_chunk]. *)
Definition path_slot (g : TreeGeometry) (chunk_index : ChunkIndex) (child_level : nat) : SResult Z :=
  let? divisor := chunks_per_node g (Z.of_nat child_level) in
  let slot := (chunk_index / divisor) mod geo_fanout g in
  ok_or (u16_try_from slot) (invalid_tree "path slot does not fit in u16").

Definition path_for_chunk (g : TreeGeometry) (chunk_index : ChunkIndex) : SResult TreePath :=
  let? _ := validate_chunk_index g chunk_index in
  let? slots := try_map (path_slot g chunk_index) (rev (seq 0 (Z.to_nat (geo_root_level g)))) in
  Ok (mkTreePath chunk_index slots).

(** The [while] loop of [chunks_for_range], which adds at least one chunk per
    round except perhaps the first and the last. *)
Fixpoint chunks_loop (fuel : nat) (g : TreeGeometry) (range : ByteRange) (copied : Z)
    : SResult (list TreeChunkRange) :=
  match fuel with
  | O => Panic
  | S fuel =>
      if copied <? br_len range then
        let current_offset := u64_add (br_start range) copied in
        let chunk_index := current_offset / geo_chunk_bytes g in
        let chunk_offset := current_offset mod geo_chunk_bytes g in
        let chunk_available := u64_sub (geo_chunk_bytes g) chunk_offset in
        let copy_len := Z.min chunk_available (u64_sub (br_len range) copied) in
        let? copy_len :=
          ok_or (u32_try_from copy_len) (invalid_tree "chunk range length does not fit u32") in
        let? chunks := chunks_loop fuel g range (u64_add copied copy_len) in
        Ok (mkChunkRange chunk_index chunk_offset (mkRange current_offset copy_len) :: chunks)
      else Ok []
  end.

Definition chunks_for_range (g : TreeGeometry) (range : ByteRange) : SResult (list TreeChunkRange) :=
  let? end_ := ok_or (checked_end range) (invalid_tree "range end overflows") in
  if geo_size_bytes g <? end_ then
    Err (OutOfBounds "tree range" (br_start range) (br_len range) (geo_size_bytes g))
  else if br_is_empty range then Ok []
  else chunks_loop (Z.to_nat (br_len range / geo_chunk_bytes g) + 3) g range 0.

(** ** What a geometry is *)

(** The bytes below a node of a level, were the export large enough. *)
Definition level_bytes (level : Z) : Z := TREE_CHUNK_BYTES * 32 ^ level.

(** A geometry that [TreeGeometry::new] builds: the smallest tree of at least
    one level that covers the export. *)
Definition geometry_ok (g : TreeGeometry) : Prop :=
  geo_fanout g = 32 ∧ geo_chunk_bytes g = TREE_CHUNK_BYTES ∧
  0 < geo_size_bytes g ≤ u64_max ∧ 1 ≤ geo_root_level g ≤ 8 ∧
  geo_size_bytes g ≤ level_bytes (geo_root_level g) ∧
  (geo_root_level g = 1 ∨ level_bytes (geo_root_level g - 1) < geo_size_bytes g).

(** The [k]-th node of a level, cut at the end of the export. *)
Definition nth_span (g : TreeGeometry) (level k : Z) : TreeNodeSpan :=
  mkSpan level (k * level_bytes level)
    (Z.min (level_bytes level) (geo_size_bytes g - k * level_bytes level)).

(** The descent that a reader makes along the slots of a path. *)
Fixpoint descend (g : TreeGeometry) (span : TreeNodeSpan) (slots : list Z) : SResult TreeNodeSpan :=
  match slots with
  | [] => Ok span
  | slot :: slots => let? span := child_span g span slot in descend g span slots
  end.

Section geometry_lemmas.
Implicit Types g : TreeGeometry.

Lemma chunk_bytes_value : TREE_CHUNK_BYTES = 33554432.
Proof. done. Qed.

Lemma pow32_pos l : 0 ≤ l → 0 < 32 ^ l.
Proof. intros. by apply Z.pow_pos_nonneg. Qed.

Lemma level_bytes_0 : level_bytes 0 = TREE_CHUNK_BYTES.
Proof. done. Qed.

Lemma level_bytes_succ l : 0 ≤ l → level_bytes (l + 1) = 32 * level_bytes l.
Proof. intros. unfold level_bytes. rewrite Z.pow_add_r by lia. lia. Qed.

Lemma level_bytes_pos l : 0 ≤ l → 0 < level_bytes l.
Proof. intros Hl. unfold level_bytes. rewrite chunk_bytes_value. pose proof (pow32_pos l Hl). lia. Qed.

Lemma level_bytes_mono l m : 0 ≤ l ≤ m → level_bytes l ≤ level_bytes m.
Proof.
  intros. unfold level_bytes. rewrite chunk_bytes_value.
  pose proof (Z.pow_le_mono_r 32 l m). lia.
Qed.

Lemma grow_levels_ok fuel cc l :
  1 ≤ l ≤ 8 → 9 - l ≤ Z.of_nat fuel → cc ≤ 2 ^ 39 → (l = 1 ∨ 32 ^ (l - 1) < cc) →
  ∃ L, grow_levels fuel 32 cc (32 ^ l) l = Ok L ∧ 1 ≤ L ≤ 8 ∧ cc ≤ 32 ^ L ∧
       (L = 1 ∨ 32 ^ (L - 1) < cc).
Proof.
  revert l. induction fuel as [|fuel IH]; intros l Hl Hfuel Hcc Hmin; [lia|]. cbn [grow_levels].
  destruct (Z.ltb_spec (32 ^ l) cc) as [Hlt|Hge]; [|by exists l].
  assert (l ≤ 7).
  { destruct (decide (l ≤ 7)); [done|]. replace l with 8 in Hlt by lia. cbn in Hlt, Hcc. lia. }
  assert (Hpow : 32 ^ l * 32 = 32 ^ (l + 1)) by (rewrite Z.pow_add_r; lia).
  assert (32 ^ (l + 1) ≤ 32 ^ 8) as Hle by (apply Z.pow_le_mono_r; lia). cbn in Hle.
  rewrite (proj2 (u64_checked_mul_Some _ _ (32 ^ (l + 1)))) by (unfold u64_max; lia).
  cbn [ok_or obind]. unfold u16_checked_add, u16_max. decide_cmp. cbn [ok_or obind].
  apply IH; [lia..|]. right. by replace (l + 1 - 1) with l by lia.
Qed.

Lemma chunks_rounds_ok n c :
  0 ≤ c → c * 32 ^ Z.of_nat n ≤ u64_max → chunks_rounds n 32 c = Ok (c * 32 ^ Z.of_nat n).
Proof.
  revert c. induction n as [|n IH]; intros c Hc Hmax; cbn [chunks_rounds].
  { f_equal. cbn. lia. }
  rewrite Nat2Z.inj_succ, Z.pow_succ_r in * by lia.
  pose proof (pow32_pos (Z.of_nat n) ltac:(lia)).
  rewrite (proj2 (u64_checked_mul_Some _ _ (c * 32))) by nia. cbn [ok_or obind].
  rewrite IH by nia. f_equal. lia.
Qed.

Lemma chunks_per_node_ok g l :
  geometry_ok g → 0 ≤ l ≤ 8 → chunks_per_node g l = Ok (32 ^ l).
Proof.
  intros (Hf & _) Hl. unfold chunks_per_node. rewrite Hf.
  assert (32 ^ l ≤ 32 ^ 8) as Hle by (apply Z.pow_le_mono_r; lia). cbn in Hle.
  rewrite chunks_rounds_ok; rewrite ?Z2Nat.id by lia; [f_equal; lia|lia|unfold u64_max; lia].
Qed.

(** Below the root no span overflows. *)
Lemma full_span_len_ok g l :
  geometry_ok g → 0 ≤ l < geo_root_level g → full_span_len g l = Ok (level_bytes l).
Proof.
  intros Hg Hl. pose proof Hg as (_ & Hc & _ & Hlev & _). unfold full_span_len.
  rewrite chunks_per_node_ok by (done || lia). cbn [obind]. rewrite Hc.
  assert (32 ^ l ≤ 32 ^ 7) as Hle by (apply Z.pow_le_mono_r; lia). cbn in Hle.
  rewrite (proj2 (u64_checked_mul_Some _ _ (level_bytes l))); [done|].
  unfold level_bytes. rewrite chunk_bytes_value. unfold u64_max. lia.
Qed.

Lemma root_span_nth g : geometry_ok g → root_span g = nth_span g (geo_root_level g) 0.
Proof. intros (_ & _ & _ & _ & ? & _). unfold root_span, nth_span. f_equal. lia. Qed.

Lemma child_span_nth g l k slot :
  geometry_ok g → 0 ≤ l < geo_root_level g → 0 ≤ k → 0 ≤ slot < 32 →
  (32 * k + slot) * level_bytes l < geo_size_bytes g →
  child_span g (nth_span g (l + 1) k) slot = Ok (nth_span g l (32 * k + slot)).
Proof.
  intros Hg Hl Hk Hslot Hlt. pose proof Hg as (Hf & Hc & Hsz & Hlev & _).
  pose proof (level_bytes_pos l ltac:(lia)). pose proof (level_bytes_succ l ltac:(lia)) as Hs.
  unfold child_span, nth_span. cbn [span_level span_start]. rewrite Hf. decide_cmp.
  replace (l + 1 - 1) with l by lia. rewrite full_span_len_ok by done. cbn [obind].
  rewrite (proj2 (u64_checked_mul_Some _ _ (slot * level_bytes l))) by nia. cbn [ok_or obind].
  rewrite (proj2 (u64_checked_add_Some _ _ ((32 * k + slot) * level_bytes l))) by (rewrite Hs; nia).
  cbn [ok_or obind]. unfold node_span. decide_cmp. rewrite full_span_len_ok by done. cbn [obind].
  rewrite u64_sub_id by nia. done.
Qed.

Lemma div_step i l :
  0 ≤ i → 0 ≤ l → 32 * (i / 32 ^ (l + 1)) + (i / 32 ^ l) mod 32 = i / 32 ^ l.
Proof.
  intros Hi Hl. pose proof (pow32_pos l Hl). rewrite Z.pow_add_r by lia. change (32 ^ 1) with 32.
  rewrite <-Z.div_div by lia. pose proof (Z.div_mod (i / 32 ^ l) 32 ltac:(lia)). lia.
Qed.

Lemma path_slot_ok g i l :
  geometry_ok g → Z.of_nat l ≤ 8 → path_slot g i l = Ok ((i / 32 ^ Z.of_nat l) mod 32).
Proof.
  intros Hg Hl. unfold path_slot. rewrite chunks_per_node_ok by (done || lia). cbn [obind].
  pose proof Hg as (-> & _). pose proof (Z.mod_pos_bound (i / 32 ^ Z.of_nat l) 32 ltac:(lia)).
  rewrite (proj2 (u16_try_from_Some _ ((i / 32 ^ Z.of_nat l) mod 32))); [done|].
  unfold u16_max. lia.
Qed.

Lemma descend_path g i n :
  geometry_ok g → 0 ≤ i → i * TREE_CHUNK_BYTES < geo_size_bytes g →
  Z.of_nat n ≤ geo_root_level g →
  descend g (nth_span g (Z.of_nat n) (i / 32 ^ Z.of_nat n))
    ((λ l, (i / 32 ^ Z.of_nat l) mod 32) <$> rev (seq 0 n)) = Ok (nth_span g 0 i).
Proof.
  intros Hg Hi Hlt. induction n as [|n IH]; intros Hn.
  { cbn. by rewrite Z.div_1_r. }
  rewrite seq_S, rev_app_distr, Nat2Z.inj_succ. cbn [rev app fmap list_fmap descend].
  rewrite Nat.add_0_l. replace (Z.succ (Z.of_nat n)) with (Z.of_nat n + 1) in * by lia.
  pose proof (div_step i (Z.of_nat n) Hi ltac:(lia)) as Hdiv.
  pose proof (Z.mod_pos_bound (i / 32 ^ Z.of_nat n) 32 ltac:(lia)).
  pose proof (pow32_pos (Z.of_nat n) ltac:(lia)).
  rewrite child_span_nth; [rewrite Hdiv; apply IH; lia|done|lia| |lia|].
  - apply Z.div_pos; [done|]. apply pow32_pos. lia.
  - rewrite Hdiv. unfold level_bytes.
    pose proof (Z.mul_div_le i (32 ^ Z.of_nat n) ltac:(lia)).
    rewrite chunk_bytes_value in *. nia.
Qed.

Lemma new_geometry format size :
  is_u64 size →
  match TreeGeometry_new format size with
  | Ok g => geometry_ok g ∧ geo_size_bytes g = size ∧ geo_format g = format
  | Err _ => size = 0 ∨ u64_max < size + (TREE_CHUNK_BYTES - 1)
  | Panic => False
  end.
Proof.
  intros [Hpos Hmax]. unfold TreeGeometry_new.
  destruct (Z.eqb_spec size 0); [by left|]. destruct format.
  destruct (u64_checked_add _ _) as [p|] eqn:Hadd; cbn [ok_or obind].
  2: { right. by apply u64_checked_add_None. }
  apply u64_checked_add_Some in Hadd as [Hle ->]. rewrite chunk_bytes_value in *.
  unfold u64_max in Hle, Hmax.
  destruct (grow_levels_ok 13 ((size + (33554432 - 1)) / 33554432) 1) as (L & HL & ? & Hcov & Hmin);
    [lia|lia|dlia|by left|].
  change (32 ^ 1) with 32 in HL. rewrite HL. cbn [obind].
  split; [|done]. unfold geometry_ok, level_bytes, u64_max. cbn -[Z.pow].
  rewrite chunk_bytes_value. split_and!; [done..|lia|lia|lia|lia| |].
  - dlia.
  - destruct Hmin as [->|Hmin]; [by left|right]. dlia.
Qed.

Lemma new_geometry_inv format size g :
  is_u64 size → TreeGeometry_new format size = Ok g →
  geometry_ok g ∧ geo_size_bytes g = size ∧ geo_format g = format.
Proof. intros Hs H. pose proof (new_geometry format size Hs) as Hn. by rewrite H in Hn. Qed.

(** The slots of the path to a chunk: its digits to the base 32, the highest first. *)
Definition chunk_slots (g : TreeGeometry) (i : ChunkIndex) : list Z :=
  (λ l, (i / 32 ^ Z.of_nat l) mod 32) <$> rev (seq 0 (Z.to_nat (geo_root_level g))).

Lemma chunk_slots_length g i : length (chunk_slots g i) = Z.to_nat (geo_root_level g).
Proof. unfold chunk_slots. by rewrite length_fmap, length_rev, length_seq. Qed.

Lemma chunk_slots_range g i : Forall (λ slot, 0 ≤ slot < 32) (chunk_slots g i).
Proof. apply Forall_fmap, Forall_true. intros l. cbn. apply Z.mod_pos_bound. lia. Qed.

Lemma path_for_chunk_ok g i :
  geometry_ok g → 0 ≤ i → i * TREE_CHUNK_BYTES < geo_size_bytes g →
  path_for_chunk g i = Ok (mkTreePath i (chunk_slots g i)).
Proof.
  intros Hg Hi Hlt. pose proof Hg as (_ & Hc & Hsz & Hlev & _).
  unfold path_for_chunk, validate_chunk_index. rewrite Hc.
  rewrite (proj2 (u64_checked_mul_Some _ _ (i * TREE_CHUNK_BYTES))) by lia.
  cbn [ok_or obind]. decide_cmp. cbn [obind].
  erewrite try_map_ok; [done|]. intros l Hl. apply path_slot_ok; [done|].
  rewrite list_elem_of_In, <-in_rev, <-list_elem_of_In, elem_of_seq in Hl. lia.
Qed.

Lemma descend_root g i :
  geometry_ok g → 0 ≤ i → i * TREE_CHUNK_BYTES < geo_size_bytes g →
  descend g (root_span g) (chunk_slots g i) = Ok (nth_span g 0 i).
Proof.
  intros Hg Hi Hlt. pose proof Hg as (_ & _ & _ & Hlev & Hcov & _).
  pose proof (descend_path g i (Z.to_nat (geo_root_level g)) Hg Hi) as Hd.
  rewrite Z2Nat.id, Z.div_small in Hd by
    (try lia; unfold level_bytes in Hcov; rewrite chunk_bytes_value in *; lia).
  unfold chunk_slots. rewrite root_span_nth by done. apply Hd; lia.
Qed.

Lemma path_for_chunk_err g i :
  geometry_ok g → geo_size_bytes g ≤ i * TREE_CHUNK_BYTES → ∃ e, path_for_chunk g i = Err e.
Proof.
  intros (_ & Hc & _) Hge. unfold path_for_chunk, validate_chunk_index. rewrite Hc.
  destruct (u64_checked_mul _ _) as [s|] eqn:Hs; cbn [ok_or obind]; [|eauto].
  apply u64_checked_mul_Some in Hs as [_ ->]. decide_cmp. cbn [obind]. eauto.
Qed.

(** A piece lies inside one chunk, at the offset it says, between two positions. *)
Definition piece_ok (from to : Z) (c : TreeChunkRange) : Prop :=
  0 < br_len (tc_range c) ∧ 0 ≤ tc_chunk_offset c ∧
  tc_chunk_offset c + br_len (tc_range c) ≤ TREE_CHUNK_BYTES ∧
  br_start (tc_range c) = tc_chunk_index c * TREE_CHUNK_BYTES + tc_chunk_offset c ∧
  from ≤ br_start (tc_range c) ∧ br_start (tc_range c) + br_len (tc_range c) ≤ to.

Lemma piece_ok_from from from' to c : from ≤ from' → piece_ok from' to c → piece_ok from to c.
Proof. unfold piece_ok. lia. Qed.

Lemma chunks_loop_ok g range fuel copied :
  geometry_ok g → range_ok range → 0 ≤ copied ≤ br_len range →
  let cur := br_start range + copied in
  let to := br_start range + br_len range in
  1 ≤ Z.of_nat fuel →
  (copied < br_len range →
   (to - 1) / TREE_CHUNK_BYTES - cur / TREE_CHUNK_BYTES + 1 < Z.of_nat fuel) →
  ∃ l, chunks_loop fuel g range copied = Ok l ∧ Forall (piece_ok cur to) l ∧
    (∀ x, cur ≤ x < to → ∃ c, c ∈ l ∧ in_byte_range (tc_range c) x) ∧
    (copied < br_len range →
     tc_chunk_index <$> l =
       seqZ (cur / TREE_CHUNK_BYTES) ((to - 1) / TREE_CHUNK_BYTES - cur / TREE_CHUNK_BYTES + 1)).
Proof.
  intros Hg Hr. pose proof Hg as (_ & Hc & _). destruct Hr as (Hs & [_ Hlen] & Hend).
  unfold u32_max, u64_max in Hlen, Hend.
  revert copied. induction fuel as [|fuel IH]; intros copied Hcop cur to Hpos Hfuel; [lia|].
  cbn [chunks_loop]. rewrite Hc. destruct (Z.ltb_spec copied (br_len range)) as [Hlt|Hge].
  2: { exists []. split_and!; [done|constructor|lia|lia]. }
  pose proof chunk_bytes_value as HC.
  rewrite (u64_add_id (br_start range)) by (unfold u64_max; lia). fold cur.
  set (off := cur mod TREE_CHUNK_BYTES).
  assert (0 ≤ off < TREE_CHUNK_BYTES) as Hoff by (apply Z.mod_pos_bound; done).
  assert (cur = cur / TREE_CHUNK_BYTES * TREE_CHUNK_BYTES + off) as Hcur
    by (rewrite Z.mul_comm; apply Z.div_mod; done).
  clearbody off. set (n := Z.min (TREE_CHUNK_BYTES - off) (br_len range - copied)).
  rewrite !u64_sub_id by (unfold u64_max; lia). fold n.
  rewrite (proj2 (u32_try_from_Some n n)) by (unfold u32_max; lia). cbn [ok_or obind].
  rewrite u64_add_id by (unfold u64_max; lia).
  destruct (IH (copied + n)) as (l & Hl & Hpieces & Hcover & Hidx);
    [lia| | |].
  { specialize (Hfuel Hlt). subst n cur to. rewrite HC in *. dlia. }
  { intros Hlt'. specialize (Hfuel Hlt). fold to.
    replace (br_start range + (copied + n)) with ((cur / TREE_CHUNK_BYTES + 1) * TREE_CHUNK_BYTES) by lia.
    rewrite Z.div_mul by done. lia. }
  rewrite Hl. cbn [obind]. eexists. split; [done|]. fold to in Hpieces, Hcover, Hidx. split_and!.
  - constructor.
    + unfold piece_ok. cbn. lia.
    + eapply Forall_impl; [exact Hpieces|]. intros c. apply piece_ok_from. lia.
  - intros x Hx. destruct (decide (x < cur + n)) as [?|?].
    + eexists. split; [left|]. unfold in_byte_range. cbn. lia.
    + destruct (Hcover x ltac:(lia)) as (c & ? & ?). exists c. split; [by right|done].
  - intros _. cbn [fmap list_fmap tc_chunk_index]. destruct (decide (copied + n < br_len range)).
    + assert ((br_start range + (copied + n)) / TREE_CHUNK_BYTES = Z.succ (cur / TREE_CHUNK_BYTES)) as Hnext.
      { symmetry. apply (Z.div_unique _ _ _ 0); [lia|lia]. }
      rewrite seqZ_cons by (rewrite HC in *; subst to; dlia).
      rewrite Hidx, Hnext by done. f_equal. f_equal. lia.
    + assert ((to - 1) / TREE_CHUNK_BYTES = cur / TREE_CHUNK_BYTES) as Hlast.
      { symmetry. apply (Z.div_unique _ _ _ (off + n - 1)); lia. }
      rewrite Hlast, Z.sub_diag, seqZ_cons by lia. cbn.
      destruct l as [|c l]; [done|]. exfalso.
      apply Forall_cons_1 in Hpieces as [(? & ? & ? & ? & ? & ?) _]. lia.
Qed.
End geometry_lemmas.

(** ** Claims *)

(** [TreeGeometry::new] accepts exactly the sizes that are not zero and whose chunk count
    does not overflow; the tree it builds covers the export with between one and eight levels
    and no smaller tree does. *)
Theorem geometry_new_exact format size :
  is_u64 size →
  match TreeGeometry_new format size with
  | Ok g =>
      geo_format g = format ∧ geo_size_bytes g = size ∧ 1 ≤ geo_root_level g ≤ 8 ∧
      0 < size ≤ u64_max - (TREE_CHUNK_BYTES - 1) ∧
      size ≤ TREE_CHUNK_BYTES * 32 ^ geo_root_level g ∧
      ∀ level, 1 ≤ level < geo_root_level g → TREE_CHUNK_BYTES * 32 ^ level < size
  | Err _ => size = 0 ∨ u64_max < size + (TREE_CHUNK_BYTES - 1)
  | Panic => False
  end.
Proof.
  intros Hs. pose proof (new_geometry format size Hs) as Hn.
  destruct (TreeGeometry_new format size) as [g| |] eqn:Heq; [|done|done].
  destruct Hn as ((_ & _ & ? & Hlev & Hcov & Hmin) & Hsz & ?). rewrite Hsz in *.
  split_and!; [done|done|lia|lia|lia| |done|].
  - revert Heq. unfold TreeGeometry_new. destruct format. case_match; [done|]. intros Hnew. inv_ok.
    apply u64_checked_add_Some in Hx. rewrite chunk_bytes_value in *. lia.
  - intros l Hl. destruct Hmin as [?|Hmin]; [lia|].
    pose proof (level_bytes_mono l (geo_root_level g - 1)). unfold level_bytes in *. lia.
Qed.

Lemma geometry_new_exact_witness :
  is_u64 (1024 * 1024 * 1024 * 1024) ∧
  ∀ g, TreeGeometry_new Bounded32V1 (1024 * 1024 * 1024 * 1024) = Ok g →
    geo_root_level g = 3 ∧ 1 ≤ geo_root_level g ≤ 8.
Proof.
  assert (Hs : is_u64 (1024 * 1024 * 1024 * 1024)) by by_compute.
  split; [exact Hs|]. intros g Hg.
  pose proof (geometry_new_exact Bounded32V1 _ Hs) as H. rewrite Hg in H.
  vm_compute in Hg. injection Hg as <-. split; [done|apply H].
Defined.

(** The path to a chunk that starts inside the export has one slot per level, and going
    down from the root along its slots ends at the leaf that spans exactly the bytes of that
    chunk, without any overflow; a chunk that starts beyond the export has no path. *)
Theorem path_reaches_chunk format size g i :
  is_u64 size → is_u64 i → TreeGeometry_new format size = Ok g →
  if i * TREE_CHUNK_BYTES <? size then
    ∃ slots,
      path_for_chunk g i = Ok (mkTreePath i slots) ∧
      zlen slots = geo_root_level g ∧
      Forall (λ slot, 0 ≤ slot < geo_fanout g) slots ∧
      descend g (root_span g) slots =
        Ok (mkSpan 0 (i * TREE_CHUNK_BYTES) (Z.min TREE_CHUNK_BYTES (size - i * TREE_CHUNK_BYTES)))
  else ∃ e, path_for_chunk g i = Err e.
Proof.
  intros Hs [Hi _] Hnew. destruct (new_geometry_inv _ _ _ Hs Hnew) as (Hg & <- & _).
  destruct (Z.ltb_spec (i * TREE_CHUNK_BYTES) (geo_size_bytes g)).
  2: by apply path_for_chunk_err.
  pose proof Hg as (Hf & Hc & Hsz & Hlev & Hcov & _).
  eexists. split_and!; [by apply path_for_chunk_ok| | |].
  - unfold zlen. rewrite chunk_slots_length. lia.
  - rewrite Hf. apply chunk_slots_range.
  - by rewrite descend_root.
Qed.

Lemma path_reaches_chunk_witness :
  ∃ g slots,
    TreeGeometry_new Bounded32V1 (1024 * 1024 * 1024 * 1024) = Ok g ∧
    path_for_chunk g 32767 = Ok (mkTreePath 32767 slots) ∧ slots = [31; 31; 31].
Proof.
  destruct (TreeGeometry_new Bounded32V1 (1024 * 1024 * 1024 * 1024)) as [g| |] eqn:Hg;
    [|by vm_compute in Hg|by vm_compute in Hg].
  assert (Hs : is_u64 (1024 * 1024 * 1024 * 1024)) by by_compute.
  assert (Hi : is_u64 32767) by by_compute.
  destruct (path_reaches_chunk Bounded32V1 _ g 32767 Hs Hi Hg) as (slots & Hp & _).
  exists g, slots. split; [done|]. split; [exact Hp|].
  vm_compute in Hg. injection Hg as <-. vm_compute in Hp. by injection Hp as <-.
Defined.


(** [chunks_for_range] fails exactly on ranges that overflow or leave the export; otherwise it
    terminates with one piece for each chunk the range touches, in order, each piece inside its
    chunk at the offset it names, and the pieces together are the bytes of the range. *)
Theorem chunks_for_range_exact format size g range :
  is_u64 size → 0 ≤ br_start range → is_u32 (br_len range) →
  TreeGeometry_new format size = Ok g →
  if size <? br_start range + br_len range then ∃ e, chunks_for_range g range = Err e
  else ∃ pieces,
    chunks_for_range g range = Ok pieces ∧
    (tc_chunk_index <$> pieces =
       if br_len range =? 0 then []
       else let first := br_start range / TREE_CHUNK_BYTES in
            let last := (br_start range + br_len range - 1) / TREE_CHUNK_BYTES in
            seqZ first (last - first + 1)) ∧
    Forall (λ c,
      0 < br_len (tc_range c) ∧ 0 ≤ tc_chunk_offset c ∧
      tc_chunk_offset c + br_len (tc_range c) ≤ TREE_CHUNK_BYTES ∧
      br_start (tc_range c) = tc_chunk_index c * TREE_CHUNK_BYTES + tc_chunk_offset c) pieces ∧
    ∀ x, in_byte_range range x ↔ ∃ c, c ∈ pieces ∧ in_byte_range (tc_range c) x.
Proof.
  intros Hs H0 Hlen Hnew. destruct (new_geometry_inv _ _ _ Hs Hnew) as (Hg & Hsz & _).
  pose proof Hg as (_ & Hc & _). unfold chunks_for_range. rewrite Hsz.
  destruct (Z.ltb_spec size (br_start range + br_len range)) as [Hout|Hin].
  { destruct (checked_end range) as [e|] eqn:He; cbn [ok_or obind]; [|eauto].
    apply u64_checked_add_Some in He as [_ ->]. decide_cmp. eauto. }
  assert (range_ok range) as Hr by (destruct Hs; split; [done|split; [done|lia]]).
  rewrite checked_end_ok by done. cbn [ok_or obind]. decide_cmp. unfold br_is_empty.
  destruct (Z.eqb_spec (br_len range) 0) as [Hz|Hnz].
  { exists []. split; [done|]. split; [done|]. split; [done|]. intros x. split; [|set_solver].
    unfold in_byte_range. lia. }
  destruct Hlen as [Hlen0 _].
  destruct (chunks_loop_ok g range (Z.to_nat (br_len range / geo_chunk_bytes g) + 3) 0)
    as (l & Hl & Hp & Hcov & Hidx); [done|done|lia|lia| |].
  { intros _. rewrite Hc, chunk_bytes_value, Z.add_0_r. dlia. }
  exists l. rewrite Z.add_0_r in *. split; [done|]. split; [apply Hidx; lia|]. split.
  - eapply Forall_impl; [exact Hp|]. unfold piece_ok. naive_solver.
  - intros x. split; [apply Hcov|]. intros (c & Hin' & Hx). rewrite Forall_forall in Hp.
    specialize (Hp c Hin') as (_ & _ & _ & _ & ? & ?). unfold in_byte_range in *. lia.
Qed.

Lemma chunks_for_range_exact_witness :
  ∃ g pieces,
    TreeGeometry_new Bounded32V1 (TREE_CHUNK_BYTES * 4) = Ok g ∧
    chunks_for_range g (mkRange (TREE_CHUNK_BYTES - 4) 12) = Ok pieces ∧
    (tc_chunk_index <$> pieces) = [0; 1].
Proof.
  assert (Hs : is_u64 (TREE_CHUNK_BYTES * 4)) by by_compute.
  assert (Hr : 0 ≤ br_start (mkRange (TREE_CHUNK_BYTES - 4) 12)) by by_compute.
  assert (Hl : is_u32 (br_len (mkRange (TREE_CHUNK_BYTES - 4) 12))) by by_compute.
  destruct (TreeGeometry_new Bounded32V1 (TREE_CHUNK_BYTES * 4)) as [g| |] eqn:Hg;
    [|by vm_compute in Hg|by vm_compute in Hg].
  destruct (chunks_for_range_exact Bounded32V1 _ g _ Hs Hr Hl Hg) as (pieces & Hp & Hi & _).
  exists g, pieces. split; [done|]. split; [exact Hp|]. rewrite Hi. by vm_compute.
Defined.
