(* ===== verification/Admission.v ===== *)
(** * Admission of requests to an export

    [export/admission.rs]: the controller that lets a request start only when it
    conflicts with no running request and overtakes no waiting request it
    conflicts with.  Every method holds the controller's mutex, so a method is
    one step.  A waiter owns the receiving end of a oneshot channel; dropping that
    end does not take the mutex, so it may happen at any time, also between the
    [is_closed] and the [send] of one promotion: an [Env] says which receivers are
    gone at each of the two points. *)

From S2P Require Import Prelude ControlPlane Server.

#[local] Open Scope string_scope.
#[local] Open Scope list_scope.
#[local] Open Scope Z_scope.

Inductive AdmissionOp : Type :=
| ARead (range : ByteRange)
| AWrite (range : ByteRange)
| AFlush.

#[export] Instance AdmissionOp_eq_dec : EqDecision AdmissionOp.
Proof. solve_decision. Defined.

Definition op_kind (op : AdmissionOp) : string :=
  match op with ARead _ => "read" | AWrite _ => "write" | AFlush => "flush" end.

Definition op_range (op : AdmissionOp) : option ByteRange :=
  match op with ARead range | AWrite range => Some range | AFlush => None end.

Definition conflicts (a b : AdmissionOp) : bool :=
  match a, b with
  | AFlush, _ | _, AFlush => true
  | ARead _, ARead _ => false
  | ARead lhs, AWrite rhs
  | AWrite lhs, ARead rhs
  | AWrite lhs, AWrite rhs => overlaps lhs rhs
  end.

Record WaitingAdmission := mkWaiting { wa_ticket : Z; wa_op : AdmissionOp }.
Record ActiveAdmission := mkActive { ac_ticket : Z; ac_op : AdmissionOp }.

Record AdmissionState := mkAdmission {
  as_extent_bytes : Z;
  as_next_ticket : Z;
  as_waiting : list WaitingAdmission;
  as_active : list ActiveAdmission;
}.

(** The mutex: a panic while it is held poisons it. *)
Record AdmissionInner := mkInner { ai_poisoned : bool; ai_state : AdmissionState }.

Definition AdmissionInner_new (extent_bytes : Z) : AdmissionInner :=
  mkInner false (mkAdmission extent_bytes 0 [] []).

(** [AdmissionState::validate]. *)
Definition validate (st : AdmissionState) (op : AdmissionOp) : SResult unit :=
  match op_range op with
  | None => Ok tt
  | Some range =>
      let error := OutOfBounds (op_kind op) (br_start range) (br_len range) (as_extent_bytes st) in
      let? end_ := ok_or (checked_end range) error in
      if as_extent_bytes st <? end_ then Err error else Ok tt
  end.

Definition next_ticket (st : AdmissionState) : Z * AdmissionState :=
  (as_next_ticket st,
   mkAdmission (as_extent_bytes st) (u64_add (as_next_ticket st) 1) (as_waiting st) (as_active st)).

Definition with_waiting (waiting : list WaitingAdmission) (st : AdmissionState) : AdmissionState :=
  mkAdmission (as_extent_bytes st) (as_next_ticket st) waiting (as_active st).
Definition with_active (active : list ActiveAdmission) (st : AdmissionState) : AdmissionState :=
  mkAdmission (as_extent_bytes st) (as_next_ticket st) (as_waiting st) active.

(** [VecDeque::remove(index)]. *)
Definition remove_at {A} (index : nat) (l : list A) : option (A * list A) :=
  match l !! index with
  | Some x => Some (x, take index l ++ drop (S index) l)
  | None => None
  end.

Definition is_admissible (st : AdmissionState) (index : nat) : SResult bool :=
  let? w := or_panic (as_waiting st !! index) in
  let op := wa_op w in
  let conflicts_active := existsb (λ active, conflicts (ac_op active) op) (as_active st) in
  let conflicts_earlier_waiter :=
    existsb (λ waiting, conflicts (wa_op waiting) op) (take index (as_waiting st)) in
  Ok (negb conflicts_active && negb conflicts_earlier_waiter).

(** Which receivers are found dropped by [is_closed], and by [send]. *)
Record Env := mkEnv { env_closed : Z → bool; env_send_fails : Z → bool }.

(** [retain(|active| active.ticket != ticket)]. *)
Definition retain_active (ticket : Z) (l : list ActiveAdmission) : list ActiveAdmission :=
  filter (λ a, ac_ticket a ≠ ticket) l.
Definition retain_waiting (ticket : Z) (l : list WaitingAdmission) : list WaitingAdmission :=
  filter (λ w, wa_ticket w ≠ ticket) l.

(** The [while] loop of [promote_with_inner], with the tickets whose permits were
    sent.  A failed [send] disarms the permit it gets back, so that dropping it
    releases nothing. *)
Fixpoint promote_loop (fuel : nat) (env : Env) (index : nat) (sent : list Z) (st : AdmissionState)
    : SResult (AdmissionState * list Z) :=
  match fuel with
  | O => Panic
  | S fuel =>
      if decide (index < length (as_waiting st))%nat then
        let? admissible := is_admissible st index in
        if negb admissible then promote_loop fuel env (S index) sent st
        else
          let? (waiting, rest) := or_panic (remove_at index (as_waiting st)) in
          let st := with_waiting rest st in
          if env_closed env (wa_ticket waiting) then promote_loop fuel env index sent st
          else
            let st :=
              with_active (as_active st ++ [mkActive (wa_ticket waiting) (wa_op waiting)]) st in
            if env_send_fails env (wa_ticket waiting) then
              promote_loop fuel env index sent
                (with_active (retain_active (wa_ticket waiting) (as_active st)) st)
            else promote_loop fuel env index (sent ++ [wa_ticket waiting]) st
      else Ok (st, sent)
  end.

(** Each round advances the index or removes a waiter. *)
Definition promote (env : Env) (st : AdmissionState) : SResult (AdmissionState * list Z) :=
  promote_loop (S (length (as_waiting st))) env 0 [] st.

(** A method body under the lock. *)
Definition locked {A} (body : AdmissionState → SResult (A * AdmissionState)) (inner : AdmissionInner)
    : SResult A * AdmissionInner :=
  if ai_poisoned inner then (Err (LockPoisoned "export admission"), inner)
  else match body (ai_state inner) with
       | Ok (a, st) => (Ok a, mkInner false st)
       | Err e => (Err e, inner)
       | Panic => (Panic, mkInner true (ai_state inner))
       end.

(** [ExportAdmissionCtl::register]: the ticket of the new waiter, and the permits sent. *)
Definition register (env : Env) (op : AdmissionOp) (inner : AdmissionInner)
    : SResult (Z * list Z) * AdmissionInner :=
  locked (λ st,
    let? _ := validate st op in
    let '(ticket, st) := next_ticket st in
    let st := with_waiting (as_waiting st ++ [mkWaiting ticket op]) st in
    let? (st, sent) := promote env st in
    Ok ((ticket, sent), st)) inner.

(** [AdmissionInner::cancel] and [AdmissionInner::release] do nothing on a
    poisoned lock. *)
Definition cancel (env : Env) (ticket : Z) (inner : AdmissionInner)
    : SResult (list Z) * AdmissionInner :=
  if ai_poisoned inner then (Ok [], inner)
  else locked (λ st,
    let? (st, sent) := promote env (with_waiting (retain_waiting ticket (as_waiting st)) st) in
    Ok (sent, st)) inner.

Definition release (env : Env) (ticket : Z) (inner : AdmissionInner)
    : SResult (list Z) * AdmissionInner :=
  if ai_poisoned inner then (Ok [], inner)
  else locked (λ st,
    let? (st, sent) := promote env (with_active (retain_active ticket (as_active st)) st) in
    Ok (sent, st)) inner.

(** ** The controller and the handles it gives out

    [w_mailbox]: permits in a channel whose receiver lives; [w_held]: permits
    owned by a task (after [wait], or by the task that drops a channel); [w_closed]:
    receivers that are gone. *)

Record AdmissionWorld := mkAdmissionWorld {
  w_inner : AdmissionInner;
  w_mailbox : gset Z;
  w_held : gset Z;
  w_closed : gset Z;
}.

Definition world_env (w : AdmissionWorld) (racing : gset Z) : Env :=
  mkEnv (λ t, bool_decide (t ∈ w_closed w)) (λ t, bool_decide (t ∈ w_closed w ∪ racing)).

Definition post (w : AdmissionWorld) (inner : AdmissionInner) (sent : list Z) (racing : gset Z) : AdmissionWorld :=
  mkAdmissionWorld inner (w_mailbox w ∪ list_to_set sent) (w_held w) (w_closed w ∪ racing).

(** One step of the tasks that share a controller.  A waiter is cancelled and its
    receiver dropped when its [AdmissionWaiter] or the future of [wait] is dropped, in
    either order; a permit leaves the channel when [wait] returns it or when the
    receiver is dropped, and is released when it is dropped.  The ticket counter is
    a [u64], and a run makes fewer than 2^64 registrations. *)
Inductive adm_step : AdmissionWorld → AdmissionWorld → Prop :=
| step_register w racing op res inner :
    as_next_ticket (ai_state (w_inner w)) < u64_max →
    register (world_env w racing) op (w_inner w) = (res, inner) →
    adm_step w (post w inner (match res with Ok (_, sent) => sent | _ => [] end) racing)
| step_cancel w racing ticket res inner :
    cancel (world_env w racing) ticket (w_inner w) = (res, inner) →
    adm_step w (post w inner (match res with Ok sent => sent | _ => [] end) racing)
| step_wait w ticket :
    ticket ∈ w_mailbox w →
    adm_step w (mkAdmissionWorld (w_inner w) (w_mailbox w ∖ {[ticket]}) (w_held w ∪ {[ticket]}) (w_closed w))
| step_drop_receiver w ticket :
    adm_step w
      (mkAdmissionWorld (w_inner w) (w_mailbox w ∖ {[ticket]})
         (w_held w ∪ (w_mailbox w ∩ {[ticket]})) (w_closed w ∪ {[ticket]}))
| step_release w racing ticket res inner :
    ticket ∈ w_held w →
    release (world_env w racing) ticket (w_inner w) = (res, inner) →
    adm_step w
      (post (mkAdmissionWorld (w_inner w) (w_mailbox w) (w_held w ∖ {[ticket]}) (w_closed w)) inner
         (match res with Ok sent => sent | _ => [] end) racing).

Definition AdmissionWorld_new (extent_bytes : Z) : AdmissionWorld :=
  mkAdmissionWorld (AdmissionInner_new extent_bytes) ∅ ∅ ∅.

Definition adm_reachable (extent_bytes : Z) : AdmissionWorld → Prop :=
  rtc adm_step (AdmissionWorld_new extent_bytes).

(** ** The promotion loop as one pass over the queue *)

Definition blocked (active : list ActiveAdmission) (earlier : list WaitingAdmission)
    (op : AdmissionOp) : bool :=
  existsb (λ a, conflicts (ac_op a) op) active || existsb (λ w, conflicts (wa_op w) op) earlier.

Fixpoint promote_pass (env : Env) (active : list ActiveAdmission) (kept waiting : list WaitingAdmission)
    : list ActiveAdmission * list WaitingAdmission * list Z :=
  match waiting with
  | [] => (active, kept, [])
  | w :: waiting =>
      if blocked active kept (wa_op w) then promote_pass env active (kept ++ [w]) waiting
      else if env_closed env (wa_ticket w) || env_send_fails env (wa_ticket w)
      then promote_pass env active kept waiting
      else
        let '(active, kept, sent) :=
          promote_pass env (active ++ [mkActive (wa_ticket w) (wa_op w)]) kept waiting in
        (active, kept, wa_ticket w :: sent)
  end.

Abbreviation tickets st :=
  ((ac_ticket <$> as_active st) ++ (wa_ticket <$> as_waiting st)) (only parsing).

Section promotion.
Implicit Types st : AdmissionState.

Lemma conflicts_sym a b : conflicts a b = conflicts b a.
Proof. destruct a, b; cbn; try done; apply overlaps_sym. Qed.

Lemma retain_active_last ticket l x :
  ac_ticket x = ticket → ticket ∉ (ac_ticket <$> l) → retain_active ticket (l ++ [x]) = l.
Proof.
  intros Hx Hl. unfold retain_active. rewrite filter_app, (filter_none _ [x]), app_nil_r.
  - apply filter_every. intros a Ha Heq. apply Hl. rewrite <-Heq. by apply list_elem_of_fmap_2.
  - intros y ->%list_elem_of_singleton. naive_solver.
Qed.

Lemma remove_at_middle {A} (kept rest : list A) x :
  remove_at (length kept) (kept ++ x :: rest) = Some (x, kept ++ rest).
Proof.
  unfold remove_at. rewrite list_lookup_middle by done. rewrite take_app_length.
  rewrite drop_app_ge by lia. by replace (S (length kept) - length kept)%nat with 1%nat by lia.
Qed.

Lemma is_admissible_middle st kept rest w :
  as_waiting st = kept ++ w :: rest →
  is_admissible st (length kept) = Ok (negb (blocked (as_active st) kept (wa_op w))).
Proof.
  intros Hw. unfold is_admissible. rewrite Hw, list_lookup_middle by done. cbn [or_panic obind].
  rewrite take_app_length. unfold blocked. by rewrite negb_orb.
Qed.

(** The index loop with its removals is the single pass, and never panics. *)
Lemma promote_loop_pass env rest : ∀ fuel kept sent st,
  (length rest < fuel)%nat → as_waiting st = kept ++ rest → NoDup (tickets st) →
  promote_loop fuel env (length kept) sent st =
    let '(a, k, s) := promote_pass env (as_active st) kept rest in
    Ok (mkAdmission (as_extent_bytes st) (as_next_ticket st) k a, sent ++ s).
Proof.
  induction rest as [|w rest IH]; intros fuel kept sent st Hfuel Hw Hnd;
    (destruct fuel as [|fuel]; [cbn in Hfuel; lia|]); cbn [promote_loop promote_pass].
  { rewrite app_nil_r in Hw. rewrite decide_False by (rewrite Hw; lia). rewrite app_nil_r.
    subst kept. by destruct st. }
  cbn in Hfuel. rewrite decide_True by (rewrite Hw, length_app; cbn; lia).
  rewrite (is_admissible_middle st kept rest w Hw). cbn [obind]. rewrite negb_involutive.
  destruct (blocked _ _ _).
  { rewrite <-(IH fuel (kept ++ [w]) sent st); [|lia|by rewrite <-app_assoc|done].
    f_equal. rewrite length_app. cbn. lia. }
  rewrite Hw, remove_at_middle. cbn [or_panic obind].
  rewrite Hw, fmap_app, fmap_cons in Hnd.
  assert (wa_ticket w ∉ (ac_ticket <$> as_active st)) as Hfresh.
  { apply NoDup_app in Hnd as (_ & Hd & _). intros Ha. apply (Hd _ Ha). set_solver. }
  assert (Hrest : NoDup ((ac_ticket <$> as_active st) ++ (wa_ticket <$> kept ++ rest))).
  { eapply sublist_NoDup; [exact Hnd|]. rewrite fmap_app.
    apply sublist_app; [done|]. apply sublist_app; [done|]. by constructor. }
  destruct (env_closed env (wa_ticket w)); cbn [orb]; [by rewrite IH by (done || lia)|].
  cbn [as_active with_waiting with_active].
  rewrite retain_active_last by done.
  destruct (env_send_fails env (wa_ticket w)); [by rewrite IH by (done || lia)|].
  rewrite IH; [|lia|done|].
  - cbn [as_active as_waiting as_extent_bytes as_next_ticket with_waiting with_active].
    destruct (promote_pass _ _ _ _) as [[a k] s]. by rewrite <-app_assoc.
  - cbn [as_active as_waiting with_waiting with_active]. rewrite !fmap_app. cbn.
    eapply NoDup_Permutation_proper; [|exact Hnd]. solve_Permutation.
Qed.
End promotion.

(** ** The invariant *)

(** No two running operations conflict. *)
Definition conflict_free (active : list ActiveAdmission) : Prop :=
  ∀ a b, a ∈ active → b ∈ active → ac_ticket a ≠ ac_ticket b →
         conflicts (ac_op a) (ac_op b) = false.

(** No running operation has overtaken a waiting one it conflicts with. *)
Definition no_overtaking (active : list ActiveAdmission) (waiting : list WaitingAdmission) : Prop :=
  ∀ w a, w ∈ waiting → a ∈ active → wa_ticket w < ac_ticket a →
         conflicts (wa_op w) (ac_op a) = false.

(** Every waiter has a reason to wait. *)
Definition all_blocked (active : list ActiveAdmission) (waiting : list WaitingAdmission) : Prop :=
  ∀ i w, waiting !! i = Some w → blocked active (take i waiting) (wa_op w) = true.

(** What every step keeps, also between the change of a queue and the promotion. *)
Record queue_ok (next : Z) (active : list ActiveAdmission) (waiting : list WaitingAdmission) : Prop := {
  q_free : conflict_free active;
  q_order : no_overtaking active waiting;
  q_nodup : NoDup ((ac_ticket <$> active) ++ (wa_ticket <$> waiting));
  q_sorted : StronglySorted Z.lt (wa_ticket <$> waiting);
  q_bound : ∀ t, t ∈ (ac_ticket <$> active) ++ (wa_ticket <$> waiting) → 0 ≤ t < next;
}.

Section invariant.
Implicit Types active : list ActiveAdmission.
Implicit Types waiting kept : list WaitingAdmission.

Lemma blocked_mono active active' earlier op :
  active ⊆ active' → blocked active earlier op = true → blocked active' earlier op = true.
Proof.
  intros Hsub. unfold blocked. rewrite !orb_true_iff, !existsb_exists.
  intros [(a & Ha & ?)|?]; [left|by right]. exists a. rewrite <-list_elem_of_In in *. auto.
Qed.

Lemma not_blocked active earlier op :
  blocked active earlier op = false →
  (∀ a, a ∈ active → conflicts (ac_op a) op = false) ∧
  (∀ w, w ∈ earlier → conflicts (wa_op w) op = false).
Proof.
  unfold blocked. rewrite orb_false_iff, <-!not_true_iff_false, !existsb_exists. intros [Ha Hw].
  split; intros x Hx; apply not_true_iff_false; intros Hc; [apply Ha|apply Hw];
    exists x; by rewrite <-list_elem_of_In.
Qed.

Lemma queue_ok_sublist next active active' waiting waiting' :
  sublist active' active → sublist waiting' waiting →
  queue_ok next active waiting → queue_ok next active' waiting'.
Proof.
  intros Ha Hw [Hf Ho Hn Hs Hb].
  pose proof (sublist_map ac_ticket _ _ Ha) as Hat.
  pose proof (sublist_map wa_ticket _ _ Hw) as Hwt.
  split.
  - intros a b Hina Hinb. apply Hf; by eapply elem_of_sublist.
  - intros w a Hinw Hina. apply Ho; by eapply elem_of_sublist.
  - eapply sublist_NoDup; [exact Hn|]. by apply sublist_app.
  - by eapply StronglySorted_sublist.
  - intros t Ht. apply Hb. eapply elem_of_sublist; [exact Ht|]. by apply sublist_app.
Qed.

Lemma grant_ok next active kept waiting w :
  queue_ok next active (kept ++ w :: waiting) → blocked active kept (wa_op w) = false →
  queue_ok next (active ++ [mkActive (wa_ticket w) (wa_op w)]) (kept ++ waiting).
Proof.
  intros [Hf Ho Hn Hs Hb] [Hna Hnk]%not_blocked.
  assert (Hsub : sublist (kept ++ waiting) (kept ++ w :: waiting))
    by (apply sublist_app; [done|by constructor]).
  split.
  - intros a b [Ha| ->%list_elem_of_singleton]%elem_of_app
      [Hb'| ->%list_elem_of_singleton]%elem_of_app Hne; cbn in *; [by apply Hf|by apply Hna| |done].
    rewrite conflicts_sym. by apply Hna.
  - intros v a Hv [Ha| ->%list_elem_of_singleton]%elem_of_app Hlt; cbn in *.
    + apply Ho; [by eapply elem_of_sublist|done|done].
    + apply Hnk. apply elem_of_app in Hv as [?|Hv]; [done|]. exfalso.
      rewrite fmap_app, fmap_cons in Hs. apply StronglySorted_app_1_r in Hs.
      apply StronglySorted_inv in Hs as [_ Hs]. rewrite Forall_forall in Hs.
      specialize (Hs (wa_ticket v) (list_elem_of_fmap_2 _ _ _ Hv)). lia.
  - rewrite !fmap_app in *. cbn in *. eapply NoDup_Permutation_proper; [|exact Hn]. solve_Permutation.
  - eapply StronglySorted_sublist; [|exact Hs]. by apply sublist_map.
  - intros t Ht. apply Hb. rewrite !fmap_app in *. cbn in *. set_solver.
Qed.

Lemma all_blocked_snoc active kept w :
  all_blocked active kept → blocked active kept (wa_op w) = true → all_blocked active (kept ++ [w]).
Proof.
  intros Hall Hw i v Hi. apply lookup_app_Some in Hi as [Hi|[Hge Hi]].
  - rewrite take_app_le by (apply lookup_lt_Some in Hi; lia). by apply Hall.
  - apply list_lookup_singleton_Some in Hi as [Hi <-].
    replace i with (length kept) by lia. by rewrite take_app_length.
Qed.

(** What one pass promises: the invariant, no waiter left that could start, and the
    permits sent are those of the newly running operations. *)
Lemma promote_pass_ok env next waiting : ∀ active kept,
  queue_ok next active (kept ++ waiting) → all_blocked active kept →
  let '(active', kept', sent) := promote_pass env active kept waiting in
  queue_ok next active' kept' ∧ all_blocked active' kept' ∧
  (ac_ticket <$> active') = (ac_ticket <$> active) ++ sent ∧
  (length kept' + length sent ≤ length (kept ++ waiting))%nat.
Proof.
  induction waiting as [|w waiting IH]; intros active kept Hq Hall; cbn [promote_pass].
  { rewrite !app_nil_r in *. cbn. split_and!; [done..|lia]. }
  destruct (blocked active kept (wa_op w)) eqn:Hbl.
  { specialize (IH active (kept ++ [w])). rewrite <-app_assoc in IH.
    apply IH; [done|by apply all_blocked_snoc]. }
  assert (Hsub : sublist (kept ++ waiting) (kept ++ w :: waiting))
    by (apply sublist_app; [done|by constructor]).
  destruct (_ || _).
  { specialize (IH active kept (queue_ok_sublist _ _ _ _ _ (reflexivity _) Hsub Hq) Hall).
    destruct (promote_pass _ _ _ _) as [[a k] s]. destruct IH as (? & ? & ? & ?).
    split_and!; [done..|]. apply sublist_length in Hsub. lia. }
  specialize (IH (active ++ [mkActive (wa_ticket w) (wa_op w)]) kept (grant_ok _ _ _ _ _ Hq Hbl)).
  destruct (promote_pass _ _ _ _) as [[a k] s].
  destruct IH as (? & ? & Ht & ?).
  { intros i v Hi. eapply blocked_mono; [|by apply Hall]. set_solver. }
  split_and!; [done|done|by rewrite Ht, fmap_app, <-app_assoc|].
  rewrite length_app in *. cbn. lia.
Qed.
End invariant.

(** The controller is sound, and each running operation has exactly one live permit. *)
Record world_ok (w : AdmissionWorld) : Prop := {
  wo_lock : ai_poisoned (w_inner w) = false;
  wo_next : 0 ≤ as_next_ticket (ai_state (w_inner w)) ≤ u64_max;
  wo_queue : queue_ok (as_next_ticket (ai_state (w_inner w)))
               (as_active (ai_state (w_inner w))) (as_waiting (ai_state (w_inner w)));
  wo_blocked : all_blocked (as_active (ai_state (w_inner w))) (as_waiting (ai_state (w_inner w)));
  wo_permits : list_to_set (ac_ticket <$> as_active (ai_state (w_inner w))) = w_mailbox w ∪ w_held w;
  wo_disjoint : w_mailbox w ## w_held w;
}.

Section steps.
Implicit Types st : AdmissionState.

Lemma promote_ok env st :
  queue_ok (as_next_ticket st) (as_active st) (as_waiting st) →
  ∃ active waiting sent,
    promote env st = Ok (mkAdmission (as_extent_bytes st) (as_next_ticket st) waiting active, sent) ∧
    queue_ok (as_next_ticket st) active waiting ∧ all_blocked active waiting ∧
    (ac_ticket <$> active) = (ac_ticket <$> as_active st) ++ sent ∧
    (length waiting + length sent ≤ length (as_waiting st))%nat.
Proof.
  intros Hq. unfold promote.
  rewrite (promote_loop_pass env (as_waiting st) _ [] [] st) by (done || lia || apply Hq).
  pose proof (promote_pass_ok env (as_next_ticket st) (as_waiting st) (as_active st) [] Hq) as H.
  destruct (promote_pass _ _ _ _) as [[a k] s]. exists a, k, s.
  split; [done|]. apply H. intros i w Hi. by rewrite lookup_nil in Hi.
Qed.

Lemma enqueue_ok next active waiting op :
  0 ≤ next → queue_ok next active waiting →
  queue_ok (next + 1) active (waiting ++ [mkWaiting next op]).
Proof.
  intros H0 [Hf Ho Hn Hs Hb]. rewrite <-Forall_forall in Hb. apply Forall_app in Hb as [Hba Hbw].
  rewrite Forall_forall in Hba, Hbw. split.
  - done.
  - intros w a [Hw| ->%list_elem_of_singleton]%elem_of_app Ha Hlt; [by apply Ho|]. cbn in Hlt.
    specialize (Hba (ac_ticket a) (list_elem_of_fmap_2 _ _ _ Ha)). lia.
  - rewrite fmap_app, app_assoc. apply NoDup_app. split; [done|]. split; [|apply NoDup_singleton].
    intros t Ht ->%list_elem_of_singleton. apply elem_of_app in Ht as [Ht|Ht];
      [specialize (Hba _ Ht)|specialize (Hbw _ Ht)]; cbn in *; lia.
  - rewrite fmap_app. apply StronglySorted_app. split_and!; [|done|by repeat constructor].
    intros x y Hx ->%list_elem_of_singleton. cbn. by apply Hbw.
  - intros t. rewrite fmap_app, !elem_of_app. cbn. rewrite list_elem_of_singleton.
    intros [Ht|[Ht| ->]]; [specialize (Hba _ Ht)|specialize (Hbw _ Ht)|]; lia.
Qed.

Lemma validate_cases st op :
  validate st op = Ok tt ∨ ∃ e, validate st op = Err e.
Proof.
  unfold validate. destruct (op_range op) as [r|]; [|by left].
  destruct (checked_end r) as [e|]; cbn; [|eauto]. case_match; eauto.
Qed.

Lemma register_rejects env op st e :
  validate st op = Err e → register env op (mkInner false st) = (Err e, mkInner false st).
Proof. intros Hv. unfold register, locked. cbn [ai_poisoned ai_state]. by rewrite Hv. Qed.

Lemma register_accepts env op st :
  0 ≤ as_next_ticket st < u64_max → queue_ok (as_next_ticket st) (as_active st) (as_waiting st) →
  validate st op = Ok tt →
  ∃ active waiting sent,
    register env op (mkInner false st) =
      (Ok (as_next_ticket st, sent),
       mkInner false (mkAdmission (as_extent_bytes st) (as_next_ticket st + 1) waiting active)) ∧
    queue_ok (as_next_ticket st + 1) active waiting ∧ all_blocked active waiting ∧
    (ac_ticket <$> active) = (ac_ticket <$> as_active st) ++ sent.
Proof.
  intros Hn Hq Hv. unfold register, locked. cbn [ai_poisoned ai_state]. rewrite Hv. cbn [obind].
  unfold next_ticket, with_waiting. rewrite u64_add_id by lia.
  cbn [as_extent_bytes as_next_ticket as_waiting as_active].
  destruct (promote_ok env (mkAdmission (as_extent_bytes st) (as_next_ticket st + 1)
    (as_waiting st ++ [mkWaiting (as_next_ticket st) op]) (as_active st)))
    as (a & k & s & Hp & ? & ? & ? & _); [by apply enqueue_ok; [lia|]|].
  rewrite Hp. cbn [obind]. by exists a, k, s.
Qed.

Lemma cancel_ok env ticket st :
  queue_ok (as_next_ticket st) (as_active st) (as_waiting st) →
  ∃ active waiting sent,
    cancel env ticket (mkInner false st) =
      (Ok sent, mkInner false (mkAdmission (as_extent_bytes st) (as_next_ticket st) waiting active)) ∧
    queue_ok (as_next_ticket st) active waiting ∧ all_blocked active waiting ∧
    (ac_ticket <$> active) = (ac_ticket <$> as_active st) ++ sent.
Proof.
  intros Hq. unfold cancel, locked. cbn [ai_poisoned ai_state].
  destruct (promote_ok env (with_waiting (retain_waiting ticket (as_waiting st)) st))
    as (a & k & s & Hp & ? & ? & ? & _).
  { eapply queue_ok_sublist; [done| |exact Hq]. apply sublist_filter. }
  rewrite Hp. cbn [obind]. by exists a, k, s.
Qed.

Lemma release_ok env ticket st :
  queue_ok (as_next_ticket st) (as_active st) (as_waiting st) →
  ∃ active waiting sent,
    release env ticket (mkInner false st) =
      (Ok sent, mkInner false (mkAdmission (as_extent_bytes st) (as_next_ticket st) waiting active)) ∧
    queue_ok (as_next_ticket st) active waiting ∧ all_blocked active waiting ∧
    (ac_ticket <$> active) = (ac_ticket <$> retain_active ticket (as_active st)) ++ sent ∧
    (length waiting + length sent ≤ length (as_waiting st))%nat.
Proof.
  intros Hq. unfold release, locked. cbn [ai_poisoned ai_state].
  destruct (promote_ok env (with_active (retain_active ticket (as_active st)) st))
    as (a & k & s & Hp & ? & ? & ? & ?).
  { eapply queue_ok_sublist; [|done|exact Hq]. apply sublist_filter. }
  rewrite Hp. cbn [obind]. by exists a, k, s.
Qed.

Lemma retain_active_tickets ticket l t :
  t ∈ (ac_ticket <$> retain_active ticket l) ↔ t ∈ (ac_ticket <$> l) ∧ t ≠ ticket.
Proof.
  unfold retain_active. rewrite !list_elem_of_fmap. setoid_rewrite list_elem_of_filter. naive_solver.
Qed.

(** New permits belong to operations that were not running. *)
Lemma sent_fresh next active waiting (old sent : list Z) :
  queue_ok next active waiting → (ac_ticket <$> active) = old ++ sent →
  (list_to_set old : gset Z) ## list_to_set sent.
Proof.
  intros Hq Heq. pose proof (q_nodup _ _ _ Hq) as Hn. rewrite Heq in Hn.
  apply NoDup_app in Hn as [Hn _]. apply NoDup_app in Hn as (_ & Hd & _). set_solver.
Qed.

Lemma post_ok mb held closed active waiting sent st inner :
  world_ok (mkAdmissionWorld (mkInner false st) mb held closed) →
  queue_ok (as_next_ticket (ai_state inner)) active waiting → all_blocked active waiting →
  ai_poisoned inner = false → 0 ≤ as_next_ticket (ai_state inner) ≤ u64_max →
  as_active (ai_state inner) = active → as_waiting (ai_state inner) = waiting →
  (ac_ticket <$> active) = (ac_ticket <$> as_active st) ++ sent → ∀ closed',
  world_ok (mkAdmissionWorld inner (mb ∪ list_to_set sent) held closed').
Proof.
  intros Hw Hq Hb Hp Hn <- <- Ht closed'. pose proof (sent_fresh _ _ _ _ _ Hq Ht) as Hfresh.
  destruct Hw as [_ _ _ _ Hperm Hdis]; cbn in *.
  split; cbn; [done|done|done|done| |].
  - rewrite Ht, list_to_set_app_L, Hperm. set_solver.
  - set_solver.
Qed.

Lemma world_new_ok extent_bytes : world_ok (AdmissionWorld_new extent_bytes).
Proof.
  split; cbn; [done|by_compute| | |set_solver|set_solver].
  - split; [by intros ??? %elem_of_nil|by intros ???? %elem_of_nil|constructor|constructor|set_solver].
  - intros i w Hi. by rewrite lookup_nil in Hi.
Qed.

Lemma world_ok_step w w' : adm_step w w' → world_ok w → world_ok w'.
Proof.
  intros Hstep Hw. pose proof (wo_lock _ Hw) as Hl. pose proof (wo_queue _ Hw) as Hq.
  pose proof (wo_next _ Hw) as Hn.
  destruct Hstep as [w racing op res inner Hlt H|w racing t res inner H|w t Ht|w t
    |w racing t res inner Ht H];
    destruct w as [[p st] mb held closed]; cbn in Hl, Hq, Hn; subst p; cbn [w_inner] in *.
  - destruct (validate_cases st op) as [Hv|[e Hv]].
    2: { rewrite (register_rejects _ _ _ _ Hv) in H. injection H as <- <-.
      eapply (post_ok _ _ _ _ _ [] st); [exact Hw|exact Hq|apply Hw|done|exact Hn|done|done|].
      by rewrite app_nil_r. }
    destruct (register_accepts (world_env (mkAdmissionWorld (mkInner false st) mb held closed) racing) op st)
      as (a & k & s & He & ? & ? & ?); [cbn in Hlt; lia|done|done|].
    rewrite He in H. injection H as <- <-. cbn in Hlt.
    by eapply post_ok; [exact Hw|..]; cbn; [done|done|done|lia| | |].
  - destruct (cancel_ok (world_env (mkAdmissionWorld (mkInner false st) mb held closed) racing) t st Hq)
      as (a & k & s & He & ? & ? & ?). rewrite He in H; injection H as <- <-.
    by eapply post_ok; [exact Hw|..].
  - destruct Hw as [_ _ _ ? Hp Hd]; cbn in *. split; cbn; [done..| |set_solver].
    rewrite Hp. apply set_eq. intros x. destruct (decide (x = t)); set_solver.
  - destruct Hw as [_ _ _ ? Hp Hd]; cbn in *. split; cbn; [done..| |set_solver].
    rewrite Hp. apply set_eq. intros x. destruct (decide (x = t)); set_solver.
  - destruct (release_ok (world_env (mkAdmissionWorld (mkInner false st) mb held closed) racing) t st Hq)
      as (a & k & s & He & Hq' & ? & Heq & _). rewrite He in H; injection H as <- <-.
    pose proof (sent_fresh _ _ _ _ _ Hq' Heq) as Hfresh.
    destruct Hw as [_ _ _ _ Hp Hd]; cbn in *.
    assert (list_to_set (ac_ticket <$> retain_active t (as_active st)) = mb ∪ held ∖ {[t]}) as Hset.
    { apply set_eq. intros x. rewrite elem_of_list_to_set, retain_active_tickets.
      rewrite <-(elem_of_list_to_set (C := gset Z)), Hp. set_solver. }
    rewrite Hset in Hfresh. split; cbn; [done|done|done|done| |set_solver].
    rewrite Heq, list_to_set_app_L, Hset. set_solver.
Qed.

Lemma rtc_world_ok w w' : rtc adm_step w w' → world_ok w → world_ok w'.
Proof. induction 1; eauto using world_ok_step. Qed.

Lemma reachable_ok extent_bytes w : adm_reachable extent_bytes w → world_ok w.
Proof. intros H. eapply rtc_world_ok; [exact H|apply world_new_ok]. Qed.
End steps.

(** ** The operations in the controller

    Operations enter with their registration and only move or leave afterwards. *)

Definition entries (st : AdmissionState) : list (Z * AdmissionOp) :=
  ((λ a, (ac_ticket a, ac_op a)) <$> as_active st) ++ ((λ w, (wa_ticket w, wa_op w)) <$> as_waiting st).

Section entries.
Implicit Types st : AdmissionState.

Lemma remove_at_Some {A} index (l : list A) x rest :
  remove_at index l = Some (x, rest) → x ∈ l ∧ rest ⊆ l.
Proof.
  unfold remove_at. destruct (l !! index) as [y|] eqn:Hi; [|done]. intros [= -> <-].
  split; [by eapply list_elem_of_lookup_2|]. intros z [Hz|Hz]%elem_of_app.
  - by eapply elem_of_take in Hz as (? & ?%list_elem_of_lookup_2 & _).
  - rewrite <-(take_drop (S index) l). apply elem_of_app. by right.
Qed.

Lemma promote_loop_entries fuel env : ∀ index sent st st' sent',
  promote_loop fuel env index sent st = Ok (st', sent') →
  entries st' ⊆ entries st ∧ as_next_ticket st' = as_next_ticket st ∧ as_extent_bytes st' = as_extent_bytes st.
Proof.
  induction fuel as [|fuel IH]; intros index sent st st' sent'; cbn [promote_loop]; [done|].
  destruct (decide _); [|by intros [= -> _]]. intros H. inv_ok. destruct (negb _); [by eapply IH|].
  apply obind_ok in H as ([w rest] & Hr%or_panic_ok & H). apply remove_at_Some in Hr as [Hw Hrest].
  assert (Hmove : ∀ active, active ⊆ as_active st ++ [mkActive (wa_ticket w) (wa_op w)] →
    entries (with_active active (with_waiting rest st)) ⊆ entries st).
  { intros active Hact p. unfold entries. rewrite !elem_of_app, !list_elem_of_fmap. cbn.
    intros [(a & -> & Ha)|(v & -> & Hv)].
    - apply Hact, elem_of_app in Ha as [Ha| ->%list_elem_of_singleton]; [left; eauto|right; exists w; eauto].
    - right. exists v. auto. }
  case_match; [|case_match]; apply IH in H as (Hsub & ? & ?); (split; [|done]); (etrans; [exact Hsub|]).
  - etrans; [|apply (Hmove (as_active st))]; [done|]. intros y Hy. apply elem_of_app. by left.
  - apply (Hmove (retain_active (wa_ticket w) _)). intros y Hy. by eapply list_elem_of_filter in Hy as [_ ?].
  - by apply Hmove.
Qed.

Lemma promote_entries env st st' sent :
  promote env st = Ok (st', sent) →
  entries st' ⊆ entries st ∧ as_next_ticket st' = as_next_ticket st ∧ as_extent_bytes st' = as_extent_bytes st.
Proof. apply promote_loop_entries. Qed.

Lemma register_entries env op inner ticket sent inner' :
  register env op inner = (Ok (ticket, sent), inner') →
  ticket = as_next_ticket (ai_state inner) ∧
  entries (ai_state inner') ⊆ entries (ai_state inner) ++ [(ticket, op)].
Proof.
  unfold register, locked. destruct (ai_poisoned inner); [done|].
  destruct (validate _ _); cbn [obind]; [|done|done]. unfold next_ticket.
  match goal with |- context [promote env ?st] => destruct (promote env st) as [[st' s]| |] eqn:Hp end; [|done|done].
  intros [= <- <- <-]. split; [done|]. apply promote_entries in Hp as (Hsub & _). cbn [ai_state].
  etrans; [exact Hsub|]. unfold entries. cbn. rewrite fmap_app. cbn. by rewrite app_assoc.
Qed.

(** Steps that register nothing only lose operations. *)
Lemma adm_step_entries w w' :
  adm_step w w' → world_ok w → as_next_ticket (ai_state (w_inner w')) = as_next_ticket (ai_state (w_inner w)) →
  entries (ai_state (w_inner w')) ⊆ entries (ai_state (w_inner w)).
Proof.
  intros Hstep Hw Hnext. pose proof (wo_next _ Hw) as Hn.
  assert (Hlocked : ∀ {A} env (f : AdmissionState → AdmissionState) (g : list Z → A) (res : SResult A) inner inner',
    (∀ st, entries (f st) ⊆ entries st) →
    locked (λ st, let? (st, sent) := promote env (f st) in Ok (g sent, st)) inner = (res, inner') →
    entries (ai_state inner') ⊆ entries (ai_state inner)).
  { intros A env f g res inner inner' Hf. unfold locked. destruct (ai_poisoned inner); [by intros [= _ <-]|].
    destruct (promote env _) as [[st' s]| |] eqn:Hp; cbn [obind]; intros [= _ <-]; [|done|done].
    cbn. apply promote_entries in Hp as (Hsub & _). by etrans. }
  destruct Hstep as [w racing op res inner Hlt H|w racing t res inner H|w t Ht|w t|w racing t res inner Ht H];
    cbn [w_inner post] in *; [| | done | done |].
  - destruct w as [[p st] mb held closed]. pose proof (wo_lock _ Hw) as Hl. cbn in Hl. subst p.
    destruct (validate_cases st op) as [Hv|[err Hv]].
    + exfalso. destruct (register_accepts (world_env (mkAdmissionWorld (mkInner false st) mb held closed) racing) op st)
        as (a & k & s & He & _); [cbn in *; lia|apply Hw|done|].
      cbn [w_inner] in H. rewrite He in H. injection H as <- <-. cbn in Hnext. lia.
    + cbn [w_inner] in H. rewrite (register_rejects _ _ _ _ Hv) in H. by injection H as <- <-.
  - unfold cancel in H. destruct (ai_poisoned _); [by injection H as <- <-|].
    eapply Hlocked in H; [done|]. intros st p. unfold entries. rewrite !elem_of_app, !list_elem_of_fmap. cbn.
    intros [?|(v & -> & Hv)]; [by left|]. right. exists v. split; [done|]. by eapply list_elem_of_filter in Hv as [_ ?].
  - unfold release in H. destruct (ai_poisoned _); [by injection H as <- <-|].
    eapply Hlocked in H; [done|]. intros st p. unfold entries. rewrite !elem_of_app, !list_elem_of_fmap. cbn.
    intros [(v & -> & Hv)|?]; [|by right]. left. exists v. split; [done|]. by eapply list_elem_of_filter in Hv as [_ ?].
Qed.

(** A held permit belongs to a running operation. *)
Lemma held_running w ticket :
  world_ok w → ticket ∈ w_held w → ∃ op, mkActive ticket op ∈ as_active (ai_state (w_inner w)) ∧
    (ticket, op) ∈ entries (ai_state (w_inner w)).
Proof.
  intros Hw Hin. assert (ticket ∈ w_mailbox w ∪ w_held w) as Ht by set_solver.
  rewrite <-(wo_permits _ Hw), elem_of_list_to_set, list_elem_of_fmap in Ht.
  destruct Ht as ([t op] & -> & Ha). exists op. split; [done|]. unfold entries. rewrite elem_of_app, list_elem_of_fmap.
  left. by exists (mkActive t op).
Qed.

Lemma entry_ticket w ticket op :
  world_ok w → (ticket, op) ∈ entries (ai_state (w_inner w)) → 0 ≤ ticket < as_next_ticket (ai_state (w_inner w)).
Proof.
  intros Hw Hin. apply (q_bound _ _ _ (wo_queue _ Hw)). unfold entries in Hin.
  rewrite elem_of_app, !list_elem_of_fmap in Hin. rewrite elem_of_app, !list_elem_of_fmap.
  destruct Hin as [(a & Heq & ?)|(a & Heq & ?)]; injection Heq as -> _; [left|right]; eauto.
Qed.
End entries.

(** The oldest running operation takes its permit out of its channel, if it is still there, and finishes; [racing] are the receivers that are
    dropped meanwhile.  The permits that are sent then. *)
Definition finish_oldest (racing : gset Z) (w : AdmissionWorld) : AdmissionWorld * list Z :=
  match as_active (ai_state (w_inner w)) with
  | [] => (w, [])
  | a :: _ =>
      let '(res, inner) := release (world_env w racing) (ac_ticket a) (w_inner w) in
      let sent := match res with Ok sent => sent | _ => [] end in
      (post (mkAdmissionWorld (w_inner w) (w_mailbox w ∖ {[ac_ticket a]}) (w_held w ∖ {[ac_ticket a]}) (w_closed w)) inner sent racing, sent)
  end.

(** Running operations finish one after the other, and nothing new comes. *)
Fixpoint finish_running (racing : list (gset Z)) (w : AdmissionWorld) : AdmissionWorld * list Z :=
  match racing with
  | [] => (w, [])
  | r :: racing =>
      let '(w, sent) := finish_oldest r w in
      let '(w, granted) := finish_running racing w in
      (w, sent ++ granted)
  end.

Section progress.
Lemma blocked_running active waiting :
  all_blocked active waiting → waiting ≠ [] → active ≠ [].
Proof.
  intros Hall Hne ->. destruct waiting as [|w waiting]; [done|].
  by specialize (Hall 0%nat w eq_refl).
Qed.

Lemma retain_head next a active waiting :
  queue_ok next (a :: active) waiting → retain_active (ac_ticket a) (a :: active) = active.
Proof.
  intros Hq. pose proof (q_nodup _ _ _ Hq) as Hn. apply NoDup_app in Hn as [Hn _].
  cbn in Hn. apply NoDup_cons in Hn as [Hn _].
  unfold retain_active. rewrite filter_cons_False by naive_solver. apply filter_every.
  intros b Hb Heq. apply Hn. rewrite <-Heq. by apply list_elem_of_fmap_2.
Qed.

(** A waiter that a pass meets is kept, gets its permit, or has no receiver. *)
Lemma promote_pass_fate env waiting : ∀ active kept,
  let '(_, kept', sent) := promote_pass env active kept waiting in
  (∀ t, t ∈ (wa_ticket <$> kept ++ waiting) →
    t ∈ (wa_ticket <$> kept') ∨ t ∈ sent ∨ env_closed env t || env_send_fails env t = true) ∧
  sent ⊆ (wa_ticket <$> waiting) ∧ kept' ⊆ kept ++ waiting.
Proof.
  induction waiting as [|w waiting IH]; intros active kept; cbn [promote_pass].
  { rewrite app_nil_r. split_and!; [by left|set_solver|done]. }
  destruct (blocked active kept (wa_op w)).
  { specialize (IH active (kept ++ [w])). destruct (promote_pass _ _ _ _) as [[a k] s]. rewrite <-app_assoc in IH. cbn in IH |- *.
    destruct IH as (? & ? & ?). split_and!; [done|set_solver|done]. }
  destruct (env_closed env (wa_ticket w) || env_send_fails env (wa_ticket w)) eqn:He.
  - specialize (IH active kept). destruct (promote_pass _ _ _ _) as [[a k] s]. destruct IH as (Hf & ? & ?). split_and!; [|set_solver|set_solver].
    intros t. rewrite fmap_app, fmap_cons, elem_of_app, elem_of_cons. intros [?|[->|?]]; [|by right; right|]; apply Hf; set_solver.
  - specialize (IH (active ++ [mkActive (wa_ticket w) (wa_op w)]) kept). destruct (promote_pass _ _ _ _) as [[a k] s].
    destruct IH as (Hf & ? & ?). split_and!; [|set_solver|set_solver].
    intros t. rewrite fmap_app, fmap_cons, elem_of_app, elem_of_cons. intros [?|[->|?]]; [|set_solver|]; destruct (Hf t); set_solver.
Qed.

Lemma release_fate env ticket st sent inner :
  queue_ok (as_next_ticket st) (as_active st) (as_waiting st) → release env ticket (mkInner false st) = (Ok sent, inner) →
  (∀ t, t ∈ (wa_ticket <$> as_waiting st) →
    t ∈ (wa_ticket <$> as_waiting (ai_state inner)) ∨ t ∈ sent ∨ env_closed env t || env_send_fails env t = true) ∧
  sent ⊆ (wa_ticket <$> as_waiting st) ∧ as_waiting (ai_state inner) ⊆ as_waiting st.
Proof.
  intros Hq. unfold release, locked. cbn [ai_poisoned ai_state]. unfold promote.
  set (st1 := with_active (retain_active ticket (as_active st)) st).
  rewrite (promote_loop_pass env (as_waiting st1) _ [] [] st1); [|cbn; lia|done|].
  2: { eapply sublist_NoDup; [apply Hq|]. cbn. apply sublist_app; [|done]. apply sublist_map, sublist_filter. }
  pose proof (promote_pass_fate env (as_waiting st1) (as_active st1) []) as Hf.
  destruct (promote_pass _ _ _ _) as [[a k] s]. cbn. by intros [= <- <-].
Qed.

Lemma take_put (held : gset Z) ticket : (held ∪ {[ticket]}) ∖ {[ticket]} = held ∖ {[ticket]}.
Proof. set_solver. Qed.

(** One operation finishes. *)
Lemma finish_oldest_ok racing w :
  world_ok w →
  let st := ai_state (w_inner w) in
  let '(w', sent) := finish_oldest racing w in
  let st' := ai_state (w_inner w') in
  rtc adm_step w w' ∧ world_ok w' ∧ w_closed w ⊆ w_closed w' ∧
  (length (as_active st') + length (as_waiting st') ≤ Nat.pred (length (as_active st) + length (as_waiting st)))%nat ∧
  (∀ t, t ∈ (wa_ticket <$> as_waiting st) → t ∈ (wa_ticket <$> as_waiting st') ∨ t ∈ sent ∨ t ∈ w_closed w') ∧
  sent ⊆ (wa_ticket <$> as_waiting st) ∧ (wa_ticket <$> as_waiting st') ⊆ (wa_ticket <$> as_waiting st) ∧
  NoDup sent ∧ ∀ t, t ∈ sent → t ∉ (wa_ticket <$> as_waiting st').
Proof.
  intros Hw st. subst st. unfold finish_oldest. destruct (as_active (ai_state (w_inner w))) as [|a active] eqn:Ha.
  { split_and!; [done|done|done| |set_solver|set_solver|done|constructor|set_solver].
    destruct (as_waiting (ai_state (w_inner w))) eqn:Hwt; [by rewrite Ha|].
    pose proof (wo_blocked _ Hw) as Hb. rewrite Ha, Hwt in Hb. by destruct (blocked_running _ _ Hb). }
  assert (Hlive : ac_ticket a ∈ w_mailbox w ∪ w_held w) by (rewrite <-(wo_permits _ Hw), Ha; set_solver).
  pose proof (wo_lock _ Hw) as Hl. pose proof (wo_queue _ Hw) as Hq.
  destruct (release (world_env w racing) (ac_ticket a) (w_inner w)) as [res inner] eqn:Hrel.
  assert (Hsteps : rtc adm_step w (post (mkAdmissionWorld (w_inner w) (w_mailbox w ∖ {[ac_ticket a]}) (w_held w ∖ {[ac_ticket a]}) (w_closed w)) inner
    (match res with Ok sent => sent | _ => [] end) racing)).
  { destruct (decide (ac_ticket a ∈ w_mailbox w)) as [Hm|Hm].
    - eapply rtc_l; [by apply (step_wait w (ac_ticket a))|]. eapply rtc_l; [|apply rtc_refl].
      rewrite <-(take_put (w_held w) (ac_ticket a)).
      eapply (step_release (mkAdmissionWorld (w_inner w) _ _ (w_closed w))); [cbn; set_solver|exact Hrel].
    - eapply rtc_l; [|apply rtc_refl]. rewrite (difference_disjoint_L (w_mailbox w) {[ac_ticket a]}) by (by apply disjoint_singleton_r).
      by eapply step_release; [clear -Hm Hlive; set_solver|]. }
  split; [exact Hsteps|]. split; [by eapply rtc_world_ok|]. split; [cbn; set_solver|].
  destruct w as [[p st] mb held closed]. cbn in Hl, Hq, Ha. subst p. cbn [w_inner] in Hrel.
  destruct (release_ok (world_env (mkAdmissionWorld (mkInner false st) mb held closed) racing) (ac_ticket a) st Hq)
    as (act & wait & sent & Hrel' & Hq' & _ & Ht & Hlen). rewrite Hrel in Hrel'. injection Hrel' as -> ->.
  destruct (release_fate _ _ _ _ _ Hq Hrel) as (Hf & Hs & Hk). cbn -[release] in *. rewrite Ha in Hq, Ht. rewrite (retain_head _ _ _ _ Hq) in Ht.
  pose proof (q_nodup _ _ _ Hq') as Hnd. rewrite Ht in Hnd. apply NoDup_app in Hnd as (Hn1 & Hn2 & _). apply NoDup_app in Hn1 as (_ & _ & Hn1).
  split_and!; [|..|exact Hs| |exact Hn1|].
  - apply (f_equal length) in Ht. rewrite length_app, !length_fmap in Ht. lia.
  - intros t [?|[?|Hc]]%Hf; [by left|by right; left|]. right. right. apply orb_true_iff in Hc as [Hc|Hc]; apply bool_decide_eq_true in Hc; set_solver.
  - intros t (v & -> & Hv)%list_elem_of_fmap. apply list_elem_of_fmap_2. by apply Hk.
  - intros t Hin. apply Hn2. set_solver.
Qed.

Lemma finish_running_ok racing : ∀ w,
  world_ok w →
  let st := ai_state (w_inner w) in
  (length (as_active st) + length (as_waiting st) ≤ length racing)%nat →
  let '(w', granted) := finish_running racing w in
  let st' := ai_state (w_inner w') in
  rtc adm_step w w' ∧ world_ok w' ∧ as_active st' = [] ∧ as_waiting st' = [] ∧ w_closed w ⊆ w_closed w' ∧
  NoDup granted ∧ granted ⊆ (wa_ticket <$> as_waiting st) ∧
  ∀ t, t ∈ (wa_ticket <$> as_waiting st) → t ∈ granted ∨ t ∈ w_closed w'.
Proof.
  induction racing as [|r racing IH]; intros w Hw st Hn; subst st; cbn [finish_running].
  { destruct (as_active _), (as_waiting _); cbn in Hn; try lia. split_and!; [done..|constructor|set_solver|set_solver]. }
  pose proof (finish_oldest_ok r w Hw) as H1. destruct (finish_oldest r w) as [w1 sent].
  destruct H1 as (Hs1 & Hw1 & Hc1 & Hlen & Hf & Hsub & Hk & Hnd & Hd).
  specialize (IH w1 Hw1). destruct (finish_running racing w1) as [w2 granted]. cbn in Hn.
  destruct IH as (Hs2 & Hw2 & Ha & Hwt & Hc2 & Hnd2 & Hsub2 & Hf2); [lia|].
  split_and!; [by etrans|done|done|done|by etrans| |set_solver|].
  - apply NoDup_app. split_and!; [done|set_solver|done].
  - intros t Hin. destruct (Hf t Hin) as [Hin1|[?|?]]; [destruct (Hf2 t Hin1)|..]; set_solver.
Qed.

Lemma register_world w racing op :
  as_next_ticket (ai_state (w_inner w)) < u64_max →
  adm_step w
    (post w (register (world_env w racing) op (w_inner w)).2
       (match (register (world_env w racing) op (w_inner w)).1 with Ok (_, sent) => sent | _ => [] end)
       racing).
Proof. intros. destruct (register _ _ _) as [res inner] eqn:Hreg. by eapply step_register. Qed.
End progress.

(** A write that runs and a read of the same bytes that waits for it. *)
Definition registered (w : AdmissionWorld) (op : AdmissionOp) : AdmissionWorld :=
  post w (register (world_env w ∅) op (w_inner w)).2
    (match (register (world_env w ∅) op (w_inner w)).1 with Ok (_, sent) => sent | _ => [] end) ∅.
Definition busy_world : AdmissionWorld :=
  registered (registered (AdmissionWorld_new 100) (AWrite (mkRange 0 10))) (ARead (mkRange 5 10)).

Lemma busy_world_reachable : adm_reachable 100 busy_world.
Proof.
  eapply rtc_l; [apply (register_world _ ∅ (AWrite (mkRange 0 10))); vm_compute; done|].
  eapply rtc_l; [|apply rtc_refl].
  apply (register_world (registered (AdmissionWorld_new 100) (AWrite (mkRange 0 10))) ∅ (ARead (mkRange 5 10))).
  vm_compute. done.
Qed.

(** ** Claims *)

(** C11: in every state that registrations, cancellations, dropped receivers, grants and
    releases can reach, in any order, no two running operations conflict, no running operation
    has overtaken a waiting one it conflicts with, and the tickets of the running operations
    are exactly those of the live permits, each held once. *)
Theorem admission_safe extent_bytes w :
  adm_reachable extent_bytes w →
  let st := ai_state (w_inner w) in
  conflict_free (as_active st) ∧ no_overtaking (as_active st) (as_waiting st) ∧
  NoDup (ac_ticket <$> as_active st) ∧ w_mailbox w ## w_held w ∧
  ∀ ticket, ticket ∈ w_mailbox w ∪ w_held w ↔ ticket ∈ (ac_ticket <$> as_active st).
Proof.
  intros Hw%reachable_ok st. destruct (wo_queue _ Hw) as [Hf Ho Hn _ _].
  apply NoDup_app in Hn as [Hn _]. split_and!; [done|done|done|apply Hw|].
  intros t. rewrite <-(wo_permits _ Hw). apply elem_of_list_to_set.
Qed.

Lemma admission_safe_witness :
  adm_reachable 100 busy_world ∧ conflict_free (as_active (ai_state (w_inner busy_world))).
Proof.
  split; [exact busy_world_reachable|]. apply (admission_safe 100 busy_world busy_world_reachable).
Defined.

(** C12: no wakeup is lost and the lock is never poisoned: in every reachable state each waiting
    operation conflicts with a running one or with one that waits before it, so nothing waits
    while nothing runs. *)
Theorem admission_no_lost_wakeup extent_bytes w :
  adm_reachable extent_bytes w →
  let st := ai_state (w_inner w) in
  ai_poisoned (w_inner w) = false ∧
  (∀ i v, as_waiting st !! i = Some v →
     (∃ a, a ∈ as_active st ∧ conflicts (ac_op a) (wa_op v) = true) ∨
     (∃ j u, (j < i)%nat ∧ as_waiting st !! j = Some u ∧ conflicts (wa_op u) (wa_op v) = true)) ∧
  (as_waiting st ≠ [] → as_active st ≠ []).
Proof.
  intros Hw%reachable_ok st. pose proof (wo_blocked _ Hw) as Hb.
  split; [apply Hw|]. split; [|by apply blocked_running].
  intros i v Hi. specialize (Hb i v Hi). unfold blocked in Hb.
  rewrite orb_true_iff, !existsb_exists in Hb. destruct Hb as [(a & Ha & ?)|(u & Hu & ?)].
  - left. exists a. by rewrite list_elem_of_In.
  - right. rewrite <-list_elem_of_In in Hu. apply list_elem_of_lookup in Hu as (j & Hj).
    apply lookup_take_Some in Hj as [Hj ?]. by exists j, u.
Qed.

Lemma admission_no_lost_wakeup_witness :
  adm_reachable 100 busy_world ∧
  length (as_waiting (ai_state (w_inner busy_world))) = 1%nat ∧
  as_active (ai_state (w_inner busy_world)) ≠ [].
Proof.
  split; [exact busy_world_reachable|]. split; [by vm_compute|].
  apply (admission_no_lost_wakeup 100 busy_world busy_world_reachable). by vm_compute.
Defined.

(** A running flush is a barrier: it runs alone, and every waiting operation was
    registered after it. *)
Theorem flush_is_barrier extent_bytes w flush :
  adm_reachable extent_bytes w →
  flush ∈ as_active (ai_state (w_inner w)) → ac_op flush = AFlush →
  as_active (ai_state (w_inner w)) = [flush] ∧
  ∀ v, v ∈ as_waiting (ai_state (w_inner w)) → ac_ticket flush < wa_ticket v.
Proof.
  intros Hw%reachable_ok Hin Hop. destruct (wo_queue _ Hw) as [Hf Ho Hn _ _].
  apply NoDup_app in Hn as (Hn & Hd & _).
  assert (Hone : ∀ a, a ∈ as_active (ai_state (w_inner w)) → ac_ticket a = ac_ticket flush).
  { intros a Ha. destruct (decide (ac_ticket a = ac_ticket flush)) as [|Hne]; [done|].
    specialize (Hf flush a Hin Ha (not_eq_sym Hne)). by rewrite Hop in Hf. }
  split.
  - apply list_elem_of_split in Hin as (l & k & Heq). rewrite Heq in *.
    destruct l as [|a l], k as [|b k]; [done| | |]; exfalso;
      [pose proof (Hone b) as Hb|pose proof (Hone a) as Hb|pose proof (Hone a) as Hb];
      specialize (Hb ltac:(set_solver)); cbn in Hn; rewrite ?fmap_app in Hn; cbn in Hn;
      apply NoDup_cons in Hn as [Hn _]; apply Hn; rewrite <-?Hb; rewrite ?Hb; set_solver.
  - intros v Hv. destruct (Z.lt_trichotomy (ac_ticket flush) (wa_ticket v)) as [|[Heq|Hlt]]; [done| |].
    + exfalso. apply (Hd (ac_ticket flush)); [by apply list_elem_of_fmap_2|].
      rewrite Heq. by apply list_elem_of_fmap_2.
    + specialize (Ho v flush Hv Hin Hlt). rewrite Hop in Ho. by destruct (wa_op v).
Qed.

Lemma flush_is_barrier_witness :
  let w := registered (registered (AdmissionWorld_new 100) AFlush) (ARead (mkRange 5 10)) in
  adm_reachable 100 w ∧ as_active (ai_state (w_inner w)) = [mkActive 0 AFlush].
Proof.
  intros w. assert (H : adm_reachable 100 w).
  { eapply rtc_l; [apply (register_world _ ∅ AFlush); vm_compute; done|].
    eapply rtc_l; [|apply rtc_refl].
    apply (register_world (registered (AdmissionWorld_new 100) AFlush) ∅ (ARead (mkRange 5 10))).
    vm_compute. done. }
  split; [exact H|].
  apply (flush_is_barrier 100 w (mkActive 0 AFlush) H); [|reflexivity].
  replace (as_active (ai_state (w_inner w))) with [mkActive 0 AFlush] by (vm_compute; reflexivity).
  apply list_elem_of_singleton. reflexivity.
Defined.

(** C35: every waiting operation gets its turn.  In every reachable state, when nothing new comes and the running operations finish one
    after the other, the oldest first, then after at most as many releases as there are running and waiting operations the controller is empty
    and no permit is left in a channel or in a task.  On the way, whatever receivers are dropped, every operation that waited
    was sent its permit, and only once, unless its own receiver was dropped; permits go to operations that waited and to no others. *)
Theorem admission_drains extent_bytes w racing :
  adm_reachable extent_bytes w →
  let st := ai_state (w_inner w) in
  (length (as_active st) + length (as_waiting st) ≤ length racing)%nat →
  let '(w', granted) := finish_running racing w in
  let st' := ai_state (w_inner w') in
  rtc adm_step w w' ∧ ai_poisoned (w_inner w') = false ∧ as_active st' = [] ∧ as_waiting st' = [] ∧
  w_mailbox w' = ∅ ∧ w_held w' = ∅ ∧
  NoDup granted ∧ (∀ t, t ∈ granted → t ∈ (wa_ticket <$> as_waiting st)) ∧
  ∀ t, t ∈ (wa_ticket <$> as_waiting st) → t ∈ granted ∨ t ∈ w_closed w'.
Proof.
  intros Hw%reachable_ok st Hn. pose proof (finish_running_ok racing w Hw Hn) as H. destruct (finish_running racing w) as [w' granted].
  destruct H as (Hs & Hw' & Ha & Hwt & _ & Hnd & Hsub & Hf). pose proof (wo_permits _ Hw') as Hp. rewrite Ha in Hp. cbn in Hp.
  split_and!; [done|apply Hw'|done|done|set_solver|set_solver|done|done|done].
Qed.

(** The read of the sample gets its permit when the write finishes. *)
Lemma admission_drains_witness :
  adm_reachable 100 busy_world ∧
  (as_active (ai_state (w_inner busy_world)) = [mkActive 0 (AWrite (mkRange 0 10))] ∧
   1 ∈ (wa_ticket <$> as_waiting (ai_state (w_inner busy_world)))) ∧ 1 ∈ (finish_running [∅; ∅] busy_world).2.
Proof.
  split; [exact busy_world_reachable|]. split; [split; [vm_compute; reflexivity|]|].
  - change (as_waiting (ai_state (w_inner busy_world))) with [mkWaiting 1 (ARead (mkRange 5 10))]. apply list_elem_of_singleton. reflexivity.
  - pose proof (admission_drains 100 busy_world [∅; ∅] busy_world_reachable) as H. cbv zeta in H.
    change (as_waiting (ai_state (w_inner busy_world))) with [mkWaiting 1 (ARead (mkRange 5 10))] in H.
    destruct (finish_running [∅; ∅] busy_world) as [w' granted] eqn:Hrun.
    destruct H as (_ & _ & _ & _ & _ & _ & _ & _ & H); [vm_compute; lia|].
    destruct (H 1) as [?|Hc]; [apply list_elem_of_singleton; reflexivity|assumption|].
    assert (Hw : w_closed w' = ∅). { change w' with ((w', granted).1). rewrite <-Hrun. vm_compute. reflexivity. }
    rewrite Hw in Hc. apply elem_of_empty in Hc. destruct Hc.
Defined.

(** [register] on a controller in a reachable state refuses exactly the reads and writes that
    leave the export, with [OutOfBounds] and without any change; it accepts every other
    operation, flushes included, under the next ticket. *)
Theorem register_exact extent_bytes w env op :
  adm_reachable extent_bytes w →
  as_next_ticket (ai_state (w_inner w)) < u64_max →
  as_extent_bytes (ai_state (w_inner w)) ≤ u64_max →
  let st := ai_state (w_inner w) in
  let rejected :=
    match op_range op with
    | Some range => as_extent_bytes st <? br_start range + br_len range
    | None => false
    end in
  let '(res, inner) := register env op (w_inner w) in
  if rejected then
    inner = w_inner w ∧
    ∃ range, op_range op = Some range ∧
      res = Err (OutOfBounds (op_kind op) (br_start range) (br_len range) (as_extent_bytes st))
  else
    (∃ sent, res = Ok (as_next_ticket st, sent)) ∧
    as_next_ticket (ai_state inner) = as_next_ticket st + 1.
Proof.
  intros Hw%reachable_ok Hlt Hext st rejected.
  pose proof (wo_lock _ Hw) as Hl. pose proof (wo_queue _ Hw) as Hq. pose proof (wo_next _ Hw) as Hn.
  subst st rejected. destruct (w_inner w) as [p st]. cbn in Hl, Hq, Hn, Hlt, Hext |- *. subst p.
  pose proof (register_rejects env op st) as Hrej.
  pose proof (register_accepts env op st (conj (proj1 Hn) Hlt) Hq) as Hacc.
  unfold validate in Hrej, Hacc. destruct (op_range op) as [r|].
  2: { destruct (Hacc eq_refl) as (a & k & s & -> & _). eauto. }
  destruct (checked_end r) as [e|] eqn:He; cbn [ok_or obind] in Hrej, Hacc.
  - apply u64_checked_add_Some in He as [_ ->]. destruct (_ <? _).
    + rewrite (Hrej _ eq_refl). eauto.
    + destruct (Hacc eq_refl) as (a & k & s & -> & _). eauto.
  - apply u64_checked_add_None in He. decide_cmp. rewrite (Hrej _ eq_refl). eauto.
Qed.

Lemma register_exact_witness :
  adm_reachable 100 busy_world ∧
  ∃ r, (register (world_env busy_world ∅) (ARead (mkRange 95 10)) (w_inner busy_world)).1 = Err r.
Proof.
  split; [exact busy_world_reachable|].
  pose proof (register_exact 100 busy_world (world_env busy_world ∅) (ARead (mkRange 95 10))
    busy_world_reachable) as H.
  specialize (H ltac:(vm_compute; reflexivity) ltac:(vm_compute; congruence)).
  destruct (register _ _ _) as [res inner]. cbn -[busy_world] in H.
  replace (as_extent_bytes (ai_state (w_inner busy_world)) <? 105) with true in H
    by (vm_compute; reflexivity).
  destruct H as (_ & r & _ & ->). eexists. reflexivity.
Defined.
