(* ===== verification/Export.v ===== *)
(** * Export requests and the engine interface

    [export/request.rs] and [export/engine.rs]: what a connection asks of an export, and what an engine
    offers a runtime.  An engine is a record of operations on its own state. *)

From S2P Require Import Prelude ControlPlane Server Admission.

#[local] Open Scope string_scope.
#[local] Open Scope list_scope.
#[local] Open Scope Z_scope.

Inductive ExportRequest : Type :=
| ReqRead (offset len : Z)
| ReqWrite (offset : Z) (data : list byte)
| ReqFlush.

Inductive ExportReply : Type := ReplyRead (data : list byte) | ReplyDone.

#[export] Instance ExportRequest_eq_dec : EqDecision ExportRequest.
Proof. solve_decision. Defined.
#[export] Instance ExportReply_eq_dec : EqDecision ExportReply.
Proof. solve_decision. Defined.

Definition command_name (request : ExportRequest) : string :=
  match request with ReqRead _ _ => "read" | ReqWrite _ _ => "write" | ReqFlush => "flush" end.

(** [RequestSequenceGenerator]: the state is the next sequence. *)
Definition RequestSequenceGenerator_new : Z := 1.
Definition RequestSequenceGenerator_next (next : Z) : Z * Z := (next, u64_add next 1).

(** A request as its Rust type has it. *)
Definition request_typed (request : ExportRequest) : Prop :=
  match request with
  | ReqRead offset len => is_u64 offset ∧ is_u32 len
  | ReqWrite offset data => is_u64 offset
  | ReqFlush => True
  end.

(** ** Engines *)

(** The traits [ExportAdmissionPolicy] and [ExportEngine], over the state of the engine. *)
Record ExportEngine (St : Type) := mkExportEngine {
  operation_for : ExportRequest → SResult AdmissionOp;
  execute_admitted : ExportRequest → M St ServerError ExportReply;
  engine_close : M St ServerError unit;
}.
Arguments operation_for {St} _ _.
Arguments execute_admitted {St} _ _.
Arguments engine_close {St} _.

(** ** The array of bytes an engine stands for *)

(** The array after a write. *)
Definition written_over (a : Z → byte) (offset : Z) (data : list byte) (i : Z) : byte :=
  if bool_decide (offset ≤ i < offset + zlen data) then default x00 (zget data (i - offset)) else a i.
