(* ===== verification/Catalog.v ===== *)
(** * The SQLite export catalog

    [nbd-control-plane-sqlite]: the exports, their heads and their tree records as
    rows of five tables.  The tables, their keys and their constraints are those of
    [prisma/migrations]; a statement may also fail for a reason of the database, which
    a list of faults decides, one per statement.  Transactions are serial, and one that is
    not committed leaves no trace.  The UUID and the clock are arguments. *)

From stdpp Require Import pretty.
From S2P Require Import Prelude ControlPlane.

#[local] Open Scope string_scope.
#[local] Open Scope list_scope.
#[local] Open Scope Z_scope.

(** ** Tables *)

Record ExportRow := mkExportRow {
  er_name : string;
  er_engine_kind : string;
  er_block_size : Z;
  er_state : string;
  er_created_at : string;
  er_updated_at : string;
  er_deleted_at : option string;
}.

Record HeadRow := mkHeadRow {
  hr_layout_kind : string;
  hr_root_node_id : option string;
  hr_tree_format : option string;
  hr_size_bytes : Z;
  hr_base_wal_seq : Z;
  hr_updated_at : string;
}.

Record NodeRow := mkNodeRow {
  nr_layout_kind : string;
  nr_owner_export_id : option string;
  nr_kind : string;
  nr_level : Z;
  nr_span_start_bytes : Z;
  nr_span_len_bytes : Z;
  nr_created_at : string;
}.

Record LeafRow := mkLeafRow {
  lr_storage_kind : string;
  lr_storage_key : string;
  lr_len_bytes : Z;
  lr_created_at : string;
}.

(** Each table by its primary key. *)
Record Tables := mkTables {
  t_exports : gmap string ExportRow;
  t_heads : gmap string HeadRow;
  t_nodes : gmap string NodeRow;
  t_edges : gmap (string * Z) string;
  t_leaf_refs : gmap string LeafRow;
}.

Definition with_exports f (t : Tables) :=
  mkTables (f (t_exports t)) (t_heads t) (t_nodes t) (t_edges t) (t_leaf_refs t).
Definition with_heads f (t : Tables) :=
  mkTables (t_exports t) (f (t_heads t)) (t_nodes t) (t_edges t) (t_leaf_refs t).
Definition with_nodes f (t : Tables) :=
  mkTables (t_exports t) (t_heads t) (f (t_nodes t)) (t_edges t) (t_leaf_refs t).
Definition with_edges f (t : Tables) :=
  mkTables (t_exports t) (t_heads t) (t_nodes t) (f (t_edges t)) (t_leaf_refs t).
Definition with_leaf_refs f (t : Tables) :=
  mkTables (t_exports t) (t_heads t) (t_nodes t) (t_edges t) (f (t_leaf_refs t)).

(** ** Constraints of the schema *)

Definition string_in (s : string) (l : list string) : bool := bool_decide (s ∈ l).

Definition export_check (r : ExportRow) : bool :=
  string_in (er_engine_kind r) ["memory"; "simple_durable"; "wal_durable"] &&
  string_in (er_state r) ["active"; "deleted"] && (0 <? er_block_size r).

Definition head_check (r : HeadRow) : bool :=
  string_in (hr_layout_kind r) ["memory_empty"; "simple_mutable_tree"; "cow_immutable_tree"] &&
  (0 <? hr_size_bytes r) && (0 <=? hr_base_wal_seq r) &&
  match hr_tree_format r with
  | None => bool_decide (hr_layout_kind r = "memory_empty")
  | Some f =>
      string_in (hr_layout_kind r) ["simple_mutable_tree"; "cow_immutable_tree"] &&
      string_in f ["bounded_32_v1"]
  end.

Definition node_check (r : NodeRow) : bool :=
  string_in (nr_layout_kind r) ["simple_mutable_tree"; "cow_immutable_tree"] &&
  string_in (nr_kind r) ["internal"; "leaf"] &&
  (0 <=? nr_level r) && (0 <=? nr_span_start_bytes r) && (0 <? nr_span_len_bytes r).

Definition leaf_check (r : LeafRow) : bool :=
  string_in (lr_storage_kind r) ["mutable_blob"; "immutable_blob"] &&
  negb (str_is_empty (lr_storage_key r)) && (0 <? lr_len_bytes r).

Definition has_key {K A} `{Countable K} (k : K) (m : gmap K A) : bool := bool_decide (is_Some (m !! k)).
Definition null_or_key {A} (k : option string) (m : gmap string A) : bool :=
  match k with None => true | Some k => has_key k m end.

(** ** Statements and transactions *)

Record SqliteDb := mkDatabase { db_tables : Tables; db_faults : list bool }.

Inductive SqlError : Type := UniqueViolation | ConstraintViolation | DatabaseFault.

Abbreviation SQL E A := (M SqliteDb E A) (only parsing).

Definition map_sqlx_error (e : SqlError) : CatalogError :=
  Database (match e with
            | UniqueViolation => "database error: unique constraint failed"
            | ConstraintViolation => "database error: constraint failed"
            | DatabaseFault => "database error"
            end).

Definition is_unique_violation (e : SqlError) : bool :=
  match e with UniqueViolation => true | _ => false end.

Definition sql_map_err {E F A} (f : E → F) (m : SQL E A) : SQL F A :=
  λ db, let '(o, db) := m db in (map_err f o, db).

(** Every statement first meets the next fault. *)
Definition statement {A} (run : Tables → outcome SqlError (A * Tables)) : SQL SqlError A :=
  λ db, match db_faults db with
        | true :: faults => (Err DatabaseFault, mkDatabase (db_tables db) faults)
        | faults =>
            match run (db_tables db) with
            | Ok (a, t) => (Ok a, mkDatabase t (tail faults))
            | Err e => (Err e, mkDatabase (db_tables db) (tail faults))
            | Panic => (Panic, db)
            end
        end.

Definition query {A} (f : Tables → A) : SQL CatalogError A :=
  sql_map_err map_sqlx_error (statement (λ t, Ok (f t, t))).

Inductive tx_end (A : Type) : Type := Commit (a : A) | Rollback (a : A).
Arguments Commit {A} a.
Arguments Rollback {A} a.

(** [pool.begin()], the body, and [commit] or [rollback]; a transaction that is dropped after an
    error is rolled back. *)
Definition transaction {A} (body : SQL CatalogError (tx_end A)) : SQL CatalogError A :=
  λ db0,
    let undo db := mkDatabase (db_tables db0) (db_faults db) in
    match query (λ _, tt) db0 with
    | (Ok _, db) =>
        match body db with
        | (Ok (Commit a), db) =>
            match query (λ _, tt) db with
            | (Ok _, db) => (Ok a, db)
            | (Err e, db) => (Err e, undo db)
            | (Panic, db) => (Panic, undo db)
            end
        | (Ok (Rollback a), db) =>
            match query (λ _, tt) db with
            | (Ok _, db) => (Ok a, undo db)
            | (Err e, db) => (Err e, undo db)
            | (Panic, db) => (Panic, undo db)
            end
        | (Err e, db) => (Err e, undo db)
        | (Panic, db) => (Panic, undo db)
        end
    | (Err e, db) => (Err e, db)
    | (Panic, db) => (Panic, db)
    end.

(** ** Inserts *)

Definition insert_export (id : string) (r : ExportRow) (t : Tables) : outcome SqlError (unit * Tables) :=
  if negb (export_check r) then Err ConstraintViolation
  else if has_key id (t_exports t)
          || existsb (λ p, bool_decide (er_name p.2 = er_name r)) (map_to_list (t_exports t))
  then Err UniqueViolation
  else Ok (tt, with_exports (insert id r) t).

Definition insert_head (id : string) (r : HeadRow) (t : Tables) : outcome SqlError (unit * Tables) :=
  if negb (head_check r) then Err ConstraintViolation
  else if has_key id (t_heads t) then Err UniqueViolation
  else if negb (has_key id (t_exports t) && null_or_key (hr_root_node_id r) (t_nodes t))
  then Err ConstraintViolation
  else Ok (tt, with_heads (insert id r) t).

Definition insert_node (id : string) (r : NodeRow) (t : Tables) : outcome SqlError (unit * Tables) :=
  if negb (node_check r) then Err ConstraintViolation
  else if has_key id (t_nodes t) then Err UniqueViolation
  else if negb (null_or_key (nr_owner_export_id r) (t_exports t)) then Err ConstraintViolation
  else Ok (tt, with_nodes (insert id r) t).

Definition insert_edge (parent : string) (slot : Z) (child : string) (t : Tables)
    : outcome SqlError (unit * Tables) :=
  if negb (0 <=? slot) then Err ConstraintViolation
  else if has_key (parent, slot) (t_edges t) then Err UniqueViolation
  else if negb (has_key parent (t_nodes t) && has_key child (t_nodes t)) then Err ConstraintViolation
  else Ok (tt, with_edges (insert (parent, slot) child) t).

Definition insert_leaf_ref (id : string) (r : LeafRow) (t : Tables) : outcome SqlError (unit * Tables) :=
  if negb (leaf_check r) then Err ConstraintViolation
  else if has_key id (t_leaf_refs t) then Err UniqueViolation
  else if negb (has_key id (t_nodes t)) then Err ConstraintViolation
  else Ok (tt, with_leaf_refs (insert id r) t).

(** ** Integers of the database *)

Definition i64_max : Z := 9223372036854775807.

Definition u64_to_i64 (field : string) (value : Z) : CatalogResult Z :=
  if value <=? i64_max then Ok value
  else Err (InvalidField field "value {value} does not fit in SQLite INTEGER").

Definition i64_to_u64 (field : string) (value : Z) : CatalogResult Z :=
  if 0 <=? value then Ok value else Err (InvalidField field "database value {value} is negative").

Definition i64_to_u16 (field : string) (value : Z) : CatalogResult Z :=
  if (0 <=? value) && (value <=? u16_max) then Ok value
  else Err (InvalidField field "database value {value} does not fit in u16").

(** ** Rows to records *)

Definition opt_parse {A B} (parse : A → CatalogResult B) (o : option A) : CatalogResult (option B) :=
  match o with Some a => omapo Some (parse a) | None => Ok None end.

Definition row_to_export_descriptor (id : string) (r : ExportRow) : CatalogResult ExportDescriptor :=
  let? id := ExportId_new id in
  let? name := ExportName_new (er_name r) in
  let? block_size := i64_to_u64 "block_size" (er_block_size r) in
  let? engine_kind := ExportEngineKind_from_str (er_engine_kind r) in
  let? state := ExportState_from_str (er_state r) in
  let? created_at := Timestamp_new (er_created_at r) in
  let? updated_at := Timestamp_new (er_updated_at r) in
  let? deleted_at := opt_parse Timestamp_new (er_deleted_at r) in
  ExportDescriptor_new id name block_size engine_kind state created_at updated_at deleted_at.

Definition row_to_export_head (r : HeadRow) : CatalogResult ExportHead :=
  let? kind := ExportLayoutKind_from_str (hr_layout_kind r) in
  let? format :=
    match kind with
    | MemoryEmpty => Ok None
    | SimpleMutableTree | CowImmutableTree =>
        let? f := ok_or (hr_tree_format r)
                    (InvalidField "tree_format" "tree-backed export head missing format") in
        omapo Some (TreeFormat_from_str f)
    end in
  let? root := opt_parse NodeId_new (hr_root_node_id r) in
  let? size := i64_to_u64 "size_bytes" (hr_size_bytes r) in
  let? base := i64_to_u64 "base_wal_seq" (hr_base_wal_seq r) in
  new_with_tree_format kind root size base format.

Definition row_to_export_record (id : string) (row : ExportRow * HeadRow) : CatalogResult ExportRecord :=
  let? descriptor := row_to_export_descriptor id row.1 in
  let? head := row_to_export_head row.2 in
  into_record descriptor head.

Definition row_to_node (id : string) (r : NodeRow) : CatalogResult TreeNodeRecord :=
  let? id := NodeId_new id in
  let? layout := ExportLayoutKind_from_str (nr_layout_kind r) in
  let? owner := opt_parse ExportId_new (nr_owner_export_id r) in
  let? kind := TreeNodeKind_from_str (nr_kind r) in
  let? level := i64_to_u16 "level" (nr_level r) in
  let? start := i64_to_u64 "span_start_bytes" (nr_span_start_bytes r) in
  let? len := i64_to_u64 "span_len_bytes" (nr_span_len_bytes r) in
  Ok (mkTreeNode id layout owner kind level start len).

Definition row_to_edge (parent : string) (slot : Z) (child : string) : CatalogResult TreeEdgeRecord :=
  let? parent := NodeId_new parent in
  let? slot := i64_to_u16 "slot" slot in
  let? child := NodeId_new child in
  Ok (mkTreeEdge parent slot child).

Definition row_to_leaf_ref (id : string) (r : LeafRow) : CatalogResult TreeLeafRefRecord :=
  let? id := NodeId_new id in
  let? kind := TreeStorageKind_from_str (lr_storage_kind r) in
  let? key := BlobKey_new (lr_storage_key r) in
  let? len := i64_to_u64 "len_bytes" (lr_len_bytes r) in
  Ok (mkTreeLeafRef id kind key len).

(** ** Queries *)

(** [exports JOIN export_heads], by export id and by name. *)
Definition join_by_id (id : string) (t : Tables) : option (string * (ExportRow * HeadRow)) :=
  e ← t_exports t !! id; h ← t_heads t !! id; Some (id, (e, h)).

Definition exports_named (name : string) (t : Tables) : list (string * ExportRow) :=
  filter (λ p, er_name p.2 = name) (map_to_list (t_exports t)).

Definition join_by_name (name : string) (t : Tables) : option (string * (ExportRow * HeadRow)) :=
  head (omap (λ p, join_by_id p.1 t) (exports_named name t)).

Definition record_of (not_found : CatalogError) (row : option (string * (ExportRow * HeadRow)))
    : CatalogResult ExportRecord :=
  match row with
  | Some (id, row) => row_to_export_record id row
  | None => Err not_found
  end.

(** [fetch_by_name] and [fetch_export_record_by_name_in_tx]. *)
Definition fetch_by_name (name : ExportName) : SQL CatalogError ExportRecord :=
  let! row := query (join_by_name name) in
  mlift (record_of (ExportNotFound name) row).

(** [fetch_export_record_by_id] and [fetch_export_record_by_id_in_tx]. *)
Definition fetch_export_record_by_id (id : ExportId) : SQL CatalogError ExportRecord :=
  let! row := query (join_by_id id) in
  mlift (record_of (Database "export `{export_id}` not found") row).

Definition fetch_descriptor_by_name (name : ExportName) : SQL CatalogError ExportDescriptor :=
  let! row := query (λ t, head (exports_named name t)) in
  mlift match row with
        | Some (id, row) => row_to_export_descriptor id row
        | None => Err (ExportNotFound name)
        end.

(** [as_micros] of the system clock; [None] is a clock before the epoch. *)
Definition current_timestamp (clock : option N) : CatalogResult Timestamp :=
  match clock with
  | Some micros => Timestamp_new ("unix_us:" +:+ pretty micros)
  | None => Err (Database "system clock before UNIX epoch: {error}")
  end.

Definition name_taken (name : ExportName) (e : SqlError) : CatalogError :=
  if is_unique_violation e then ExportAlreadyExists name else map_sqlx_error e.

(** The head columns, as [create_export] and [publish_tree_update] bind them. *)
Definition head_row (h : ExportHead) (size base : Z) (now : Timestamp) : HeadRow :=
  mkHeadRow (ExportLayoutKind_display (layout_kind h)) (root_node_id h)
    (TreeFormat_display <$> tree_format h) size base now.

(** ** [ExportCatalog] *)

Definition create_export (uuid : string) (clock : option N) (request : CreateExport)
    : SQL CatalogError ExportRecord :=
  let! export_id := mlift (ExportId_new uuid) in
  let! now := mlift (current_timestamp clock) in
  let! size := mlift (u64_to_i64 "size_bytes" (ce_size_bytes request)) in
  let! block := mlift (u64_to_i64 "block_size" (ce_block_size request)) in
  let! head := mlift
    match ce_engine_kind request with
    | Memory => memory_empty (ce_size_bytes request)
    | SimpleDurable => simple_mutable_tree (ce_size_bytes request)
    | WalDurable => cow_immutable_tree (ce_size_bytes request)
    end in
  let! _ := transaction (
    let! _ := sql_map_err (name_taken (ce_name request))
      (statement (insert_export export_id
        (mkExportRow (ce_name request) (ExportEngineKind_display (ce_engine_kind request)) block
           "active" now now None))) in
    let! base := mlift (u64_to_i64 "base_wal_seq" (base_wal_seq head)) in
    let! _ := sql_map_err map_sqlx_error
      (statement (insert_head export_id (head_row head size base now))) in
    mret (Commit tt)) in
  mlift (ExportRecord_new export_id (ce_name request) (ce_block_size request)
           (ce_engine_kind request) Active head now now None).

Definition clone_export (uuid : string) (clock : option N) (request : CloneExport)
    : SQL CatalogError (ExportRecord * ExportRecord) :=
  let! destination_id := mlift (ExportId_new uuid) in
  let! now := mlift (current_timestamp clock) in
  transaction (
    let! source := fetch_by_name (cl_source request) in
    if bool_decide (r_state source = Deleted) then mfail (ExportDeleted (cl_source request))
    else if bool_decide (r_engine_kind source ≠ WalDurable) then
      mfail (InvalidField "source" "clone requires a wal_durable source")
    else if bool_decide (layout_kind (r_head source) ≠ CowImmutableTree) then
      mfail (InvalidField "source" "clone requires a cow_immutable_tree source head")
    else
      let! source_root := mlift (ok_or (root_node_id (r_head source))
        (InvalidField "source" "source committed snapshot is empty")) in
      let! block := mlift (u64_to_i64 "block_size" (r_block_size source)) in
      let! _ := sql_map_err (name_taken (cl_destination request))
        (statement (insert_export destination_id
          (mkExportRow (cl_destination request) "wal_durable" block "active" now now None))) in
      let! format := mlift (ok_or (tree_format (r_head source))
        (InvalidField "tree_format" "clone source missing tree format")) in
      let! size := mlift (u64_to_i64 "size_bytes" (size_bytes (r_head source))) in
      let! _ := sql_map_err map_sqlx_error
        (statement (insert_head destination_id
          (mkHeadRow "cow_immutable_tree" (Some source_root) (Some (TreeFormat_display format))
             size 0 now))) in
      let! destination := fetch_export_record_by_id destination_id in
      mret (Commit (source, destination))).

(** [UPDATE exports SET state = 'deleted' ... WHERE id = ? AND state = 'active']: the number of
    rows it changes. *)
Definition update_deleted (id : string) (now : Timestamp) (t : Tables) : outcome SqlError (Z * Tables) :=
  match t_exports t !! id with
  | Some r =>
      if bool_decide (er_state r = "active") then
        Ok (1, with_exports (insert id
          (mkExportRow (er_name r) (er_engine_kind r) (er_block_size r) "deleted"
             (er_created_at r) now (Some now))) t)
      else Ok (0, t)
  | None => Ok (0, t)
  end.

Definition delete_export (clock : option N) (name : ExportName) : SQL CatalogError unit :=
  let! meta := fetch_by_name name in
  if bool_decide (r_state meta = Deleted) then mfail (ExportDeleted name)
  else
    let! now := mlift (current_timestamp clock) in
    let! rows := sql_map_err map_sqlx_error (statement (update_deleted (r_id meta) now)) in
    if rows =? 1 then mret tt else mfail (ExportDeleted name).

Definition load_export (name : ExportName) : SQL CatalogError ExportRecord :=
  let! meta := fetch_by_name name in
  if bool_decide (r_state meta = Deleted) then mfail (ExportDeleted name) else mret meta.

Definition load_export_descriptor (name : ExportName) : SQL CatalogError ActiveExportDescriptor :=
  let! descriptor := fetch_descriptor_by_name name in
  mlift (ActiveExportDescriptor_new descriptor).

Definition load_export_head (export_id : ExportId) : SQL CatalogError ExportHead :=
  let! row := query (λ t, t_heads t !! export_id) in
  let! row := mlift (ok_or row (Database "export head `{export_id}` not found")) in
  mlift (row_to_export_head row).

Definition inspect_export (name : ExportName) : SQL CatalogError ExportRecord := fetch_by_name name.

(** [ORDER BY e.name ASC], in the byte order of the names. *)
Fixpoint insert_by_name (r : string * (ExportRow * HeadRow)) (l : list (string * (ExportRow * HeadRow)))
    : list (string * (ExportRow * HeadRow)) :=
  match l with
  | [] => [r]
  | r' :: l' =>
      if String.leb (er_name r.2.1) (er_name r'.2.1) then r :: l else r' :: insert_by_name r l'
  end.

Definition list_exports (include_deleted : bool) : SQL CatalogError (list ExportRecord) :=
  let! rows := query (λ t,
    foldr insert_by_name []
      (filter (λ r, include_deleted || negb (bool_decide (er_state r.2.1 = "deleted")))
         (omap (λ p, join_by_id p.1 t) (map_to_list (t_exports t))))) in
  mlift (try_map (λ r, row_to_export_record r.1 r.2) rows).

(** ** [TreeRecordStore] *)

Definition load_node (node_id : NodeId) : SQL CatalogError (option TreeNodeRecord) :=
  let! row := query (λ t, t_nodes t !! node_id) in
  mlift (opt_parse (row_to_node node_id) row).

Fixpoint load_nodes (node_ids : list NodeId) : SQL CatalogError (list TreeNodeRecord) :=
  match node_ids with
  | [] => mret []
  | node_id :: node_ids =>
      let! record := load_node node_id in
      let! records := load_nodes node_ids in
      mret (option_list record ++ records)
  end.

Fixpoint load_slots (parent : NodeId) (slots : list Z) : SQL CatalogError (list TreeEdgeRecord) :=
  match slots with
  | [] => mret []
  | slot :: slots =>
      let! row := query (λ t, t_edges t !! (parent, slot)) in
      let! record := mlift (opt_parse (row_to_edge parent slot) row) in
      let! records := load_slots parent slots in
      mret (option_list record ++ records)
  end.

Fixpoint load_child_edges (lookups : list TreeEdgeLookup) : SQL CatalogError (list TreeEdgeRecord) :=
  match lookups with
  | [] => mret []
  | lookup :: lookups =>
      let! edges := load_slots (el_parent_node_id lookup) (el_slots lookup) in
      let! records := load_child_edges lookups in
      mret (edges ++ records)
  end.

Fixpoint load_leaf_refs (node_ids : list NodeId) : SQL CatalogError (list TreeLeafRefRecord) :=
  match node_ids with
  | [] => mret []
  | node_id :: node_ids =>
      let! row := query (λ t, t_leaf_refs t !! node_id) in
      let! record := mlift (opt_parse (row_to_leaf_ref node_id) row) in
      let! records := load_leaf_refs node_ids in
      mret (option_list record ++ records)
  end.

Definition insert_node_record (now : Timestamp) (node : TreeNodeRecord) : SQL CatalogError unit :=
  let! start := mlift (u64_to_i64 "span_start_bytes" (tn_span_start_bytes node)) in
  let! len := mlift (u64_to_i64 "span_len_bytes" (tn_span_len_bytes node)) in
  sql_map_err map_sqlx_error (statement (insert_node (tn_id node)
    (mkNodeRow (ExportLayoutKind_display (tn_layout_kind node)) (tn_owner_export_id node)
       (TreeNodeKind_display (tn_kind node)) (tn_level node) start len now))).

Definition insert_edge_record (edge : TreeEdgeRecord) : SQL CatalogError unit :=
  sql_map_err map_sqlx_error
    (statement (insert_edge (te_parent_node_id edge) (te_slot edge) (te_child_node_id edge))).

Definition insert_leaf_record (now : Timestamp) (leaf : TreeLeafRefRecord) : SQL CatalogError unit :=
  let! len := mlift (u64_to_i64 "len_bytes" (tl_len_bytes leaf)) in
  sql_map_err map_sqlx_error (statement (insert_leaf_ref (tl_node_id leaf)
    (mkLeafRow (TreeStorageKind_display (tl_storage_kind leaf)) (tl_storage_key leaf) len now))).

Definition insert_tree_records (records : TreeRecordBatch) (now : Timestamp) : SQL CatalogError unit :=
  let! _ := mfor (tb_nodes records) (insert_node_record now) in
  let! _ := mfor (tb_edges records) insert_edge_record in
  mfor (tb_leaf_refs records) (insert_leaf_record now).

(** The conditional [UPDATE export_heads]: the number of rows it changes. *)
Definition update_head (id : string) (next expected : HeadRow) (t : Tables)
    : outcome SqlError (Z * Tables) :=
  match t_heads t !! id with
  | Some r =>
      if bool_decide (hr_layout_kind r = hr_layout_kind expected) &&
         bool_decide (hr_root_node_id r = hr_root_node_id expected) &&
         bool_decide (hr_tree_format r = hr_tree_format expected) &&
         (hr_size_bytes r =? hr_size_bytes expected) &&
         (hr_base_wal_seq r =? hr_base_wal_seq expected)
      then if head_check next && null_or_key (hr_root_node_id next) (t_nodes t)
           then Ok (1, with_heads (insert id next) t)
           else Err ConstraintViolation
      else Ok (0, t)
  | None => Ok (0, t)
  end.

Definition touch_export (id : string) (now : Timestamp) (t : Tables) : outcome SqlError (unit * Tables) :=
  Ok (tt, with_exports (alter (λ r,
    mkExportRow (er_name r) (er_engine_kind r) (er_block_size r) (er_state r)
      (er_created_at r) now (er_deleted_at r)) id) t).

(** The outcome inside the transaction; [None] is the rollback after an update of no row. *)
Definition publish_in_tx (now : Timestamp) (request : PublishTreeUpdate)
    : SQL CatalogError (tx_end (option PublishTreeUpdateOutcome)) :=
  let! current := fetch_export_record_by_id (pu_export_id request) in
  if bool_decide (r_state current = Deleted) then mfail (ExportDeleted (r_name current))
  else if bool_decide (r_head current ≠ pu_expected_head request) then
    mret (Commit (Some (StaleHead current)))
  else
    let! _ := insert_tree_records (pu_records request) now in
    let! next_size := mlift (u64_to_i64 "size_bytes" (size_bytes (pu_next_head request))) in
    let! next_base := mlift (u64_to_i64 "base_wal_seq" (base_wal_seq (pu_next_head request))) in
    let! expected_size := mlift (u64_to_i64 "size_bytes" (size_bytes (pu_expected_head request))) in
    let! expected_base := mlift (u64_to_i64 "base_wal_seq" (base_wal_seq (pu_expected_head request))) in
    let! rows := sql_map_err map_sqlx_error (statement (update_head (pu_export_id request)
      (head_row (pu_next_head request) next_size next_base now)
      (head_row (pu_expected_head request) expected_size expected_base now))) in
    if rows =? 0 then mret (Rollback None)
    else
      let! _ := sql_map_err map_sqlx_error (statement (touch_export (pu_export_id request) now)) in
      let! record := fetch_export_record_by_id (pu_export_id request) in
      mret (Commit (Some (Published record))).

Definition publish_tree_update (clock : option N) (request : PublishTreeUpdate)
    : SQL CatalogError PublishTreeUpdateOutcome :=
  let! now := mlift (current_timestamp clock) in
  let! outcome := transaction (publish_in_tx now request) in
  match outcome with
  | Some outcome => mret outcome
  | None =>
      let! current := fetch_export_record_by_id (pu_export_id request) in
      mret (StaleHead current)
  end.

(** ** What the constraints give *)

Definition head_of (t : Tables) (id : string) : CatalogResult ExportHead :=
  match t_heads t !! id with
  | Some r => row_to_export_head r
  | None => Err (Database "export head `{export_id}` not found")
  end.

(** The schema: row constraints, unique names, and foreign keys. *)
Record schema_ok (t : Tables) : Prop := {
  so_exports : ∀ id r, t_exports t !! id = Some r → export_check r = true;
  so_names : ∀ i j r s, t_exports t !! i = Some r → t_exports t !! j = Some s →
               er_name r = er_name s → i = j;
  so_heads : ∀ id r, t_heads t !! id = Some r →
               head_check r = true ∧ null_or_key (hr_root_node_id r) (t_nodes t) = true;
  so_nodes : ∀ id r, t_nodes t !! id = Some r →
               node_check r = true ∧ null_or_key (nr_owner_export_id r) (t_exports t) = true;
  so_edges : ∀ key child, t_edges t !! key = Some child →
               0 ≤ key.2 ∧ is_Some (t_nodes t !! key.1) ∧ is_Some (t_nodes t !! child);
  so_leaf_refs : ∀ id r, t_leaf_refs t !! id = Some r →
               leaf_check r = true ∧ is_Some (t_nodes t !! id);
}.

(** Between operations each export has its head row, and each head row its export. *)
Definition paired (t : Tables) : Prop :=
  ∀ id, is_Some (t_exports t !! id) ↔ is_Some (t_heads t !! id).

Definition tables_ok (t : Tables) : Prop := schema_ok t ∧ paired t.

Definition Tables_empty : Tables := mkTables ∅ ∅ ∅ ∅ ∅.

Section sql.
Lemma statement_inv {A} (run : Tables → outcome SqlError (A * Tables)) db a db' :
  statement run db = (Ok a, db') → run (db_tables db) = Ok (a, db_tables db').
Proof.
  unfold statement. destruct (db_faults db) as [|[] fs]; [| done |];
    destruct (run _) as [[x t]| |]; naive_solver.
Qed.

Lemma statement_err {A} (run : Tables → outcome SqlError (A * Tables)) db o db' :
  statement run db = (o, db') → is_ok o = false → db_tables db' = db_tables db.
Proof.
  unfold statement. destruct (db_faults db) as [|[] fs];
    repeat case_match; intros; simplify_eq; done.
Qed.

Lemma sql_map_err_inv {E F A} (f : E → F) (m : SQL E A) db a db' :
  sql_map_err f m db = (Ok a, db') → m db = (Ok a, db').
Proof. unfold sql_map_err. destruct (m db) as [[] ?]; naive_solver. Qed.

Lemma query_tables {A} (f : Tables → A) db o db' :
  query f db = (o, db') → db_tables db' = db_tables db.
Proof.
  unfold query, sql_map_err, statement. destruct (db_faults db) as [|[] fs]; naive_solver.
Qed.

Lemma query_inv {A} (f : Tables → A) db a db' :
  query f db = (Ok a, db') → a = f (db_tables db) ∧ db_tables db' = db_tables db.
Proof.
  intros H. split; [|by eapply query_tables].
  apply sql_map_err_inv, statement_inv in H. naive_solver.
Qed.

Lemma transaction_inv {A} (body : SQL CatalogError (tx_end A)) db a db' :
  transaction body db = (Ok a, db') →
  ∃ db1 db2, db_tables db1 = db_tables db ∧
    ((body db1 = (Ok (Commit a), db2) ∧ db_tables db' = db_tables db2) ∨
     (body db1 = (Ok (Rollback a), db2) ∧ db_tables db' = db_tables db)).
Proof.
  unfold transaction. destruct (query _ db) as [[u| |] db1] eqn:Hq; [|done..].
  apply query_tables in Hq. destruct (body db1) as [[[x|x]| |] db2] eqn:Hb; [| |done..].
  - destruct (query _ db2) as [[v| |] db3] eqn:Hc; intros [= <- <-].
    apply query_tables in Hc. exists db1, db2. naive_solver.
  - destruct (query _ db2) as [[v| |] db3] eqn:Hc; intros [= <- <-].
    exists db1, db2. naive_solver.
Qed.

Lemma transaction_err {A} (body : SQL CatalogError (tx_end A)) db o db' :
  transaction body db = (o, db') → is_ok o = false → db_tables db' = db_tables db.
Proof.
  unfold transaction. destruct (query _ db) as [[u| |] db1] eqn:Hq; apply query_tables in Hq.
  2,3: naive_solver.
  destruct (body db1) as [[[x|x]| |] db2]; try destruct (query _ db2) as [[v| |] db3];
    intros; simplify_eq; done.
Qed.
End sql.

(** Splits every hypothesis that says a sequence of statements succeeded. *)
Ltac inv_sql :=
  repeat match goal with
  | H : mseq _ _ _ = (Ok _, _) |- _ =>
      let a := fresh "a" in let db := fresh "db" in let Ha := fresh "Ha" in
      apply mseq_inv in H as (a & db & Ha & H)
  | H : mlift _ _ = (Ok _, _) |- _ => apply mlift_inv in H as [H ->]
  | H : sql_map_err _ _ _ = (Ok _, _) |- _ => apply sql_map_err_inv, statement_inv in H
  | H : query _ _ = (Ok _, _) |- _ => apply query_inv in H as [-> H]
  | H : mret _ _ = (Ok _, _) |- _ => injection H as H; simplify_eq
  | H : mfail _ _ = (Ok _, _) |- _ => discriminate H
  end.

Section rows.
Lemma i64_to_u64_inv f v x : i64_to_u64 f v = Ok x → x = v.
Proof. unfold i64_to_u64. case_match; naive_solver. Qed.

Lemma u64_to_i64_inv f v x : u64_to_i64 f v = Ok x → x = v.
Proof. unfold u64_to_i64. case_match; naive_solver. Qed.

Lemma non_empty_string_inv f s x : non_empty_string f s = Ok x → x = s.
Proof. unfold non_empty_string. repeat case_match; naive_solver. Qed.

Lemma opt_node_inv o x : opt_parse NodeId_new o = Ok x → x = o.
Proof.
  destruct o as [s|]; cbn; [|naive_solver].
  destruct (NodeId_new s) eqn:H; [|done..]. apply non_empty_string_inv in H. naive_solver.
Qed.

Lemma layout_from_str_inv s k : ExportLayoutKind_from_str s = Ok k → s = ExportLayoutKind_display k.
Proof. unfold ExportLayoutKind_from_str. repeat case_bool_decide; naive_solver. Qed.

Lemma format_from_str_inv s k : TreeFormat_from_str s = Ok k → s = TreeFormat_display k.
Proof. unfold TreeFormat_from_str. repeat case_bool_decide; naive_solver. Qed.

Lemma omap_format s x :
  omapo Some (TreeFormat_from_str s) = Ok x → ∃ f, x = Some f ∧ s = TreeFormat_display f.
Proof.
  destruct (TreeFormat_from_str s) as [f| |] eqn:H; [|done..]. intros [= <-].
  apply format_from_str_inv in H. eauto.
Qed.

(** The columns of a head row that parses are those of the head. *)
Lemma row_head_exact r h :
  head_check r = true → row_to_export_head r = Ok h →
  r = head_row h (size_bytes h) (base_wal_seq h) (hr_updated_at r).
Proof.
  intros Hc H. unfold row_to_export_head in H. inv_ok.
  apply layout_from_str_inv in Hx. apply opt_node_inv in Hx1. apply i64_to_u64_inv in Hx2, Hx3.
  subst. pose proof (new_with_tree_format_valid _ _ _ _ _ _ H) as (_ & Hl & Hr & Hs & Hb).
  destruct r as [rk rr rf rs rb ru]. cbn in *. subst rk. unfold head_row. rewrite Hl, Hr, Hs, Hb.
  f_equal. destruct x; cbn in *.
  - unfold head_check in Hc. cbn in Hc. injection Hx0 as <-. destruct rf as [f|]; [|].
    + rewrite !andb_true_iff in Hc. destruct Hc as [_ [Hc _]]. by vm_compute in Hc.
    + by destruct h.
  - inv_ok. by apply omap_format in Hx0 as (tf & -> & ->); destruct tf, h as [|[? ? []]|].
  - inv_ok. by apply omap_format in Hx0 as (tf & -> & ->); destruct tf, h as [| |[? ? ? []]].
Qed.

(** A head is determined by its columns. *)
Lemma head_row_inj h h' s b now s' b' now' :
  head_row h s b now = head_row h' s' b' now' → s = size_bytes h → s' = size_bytes h' →
  b = base_wal_seq h → b' = base_wal_seq h' → h = h'.
Proof.
  unfold head_row. intros [= Hl Hr Hf -> -> ->] Hs Hs' Hb Hb'.
  destruct h as [[]|[sz rt tf]|[sz rt bs tf]], h' as [[]|[sz' rt' tf']|[sz' rt' bs' tf']]; cbn in *;
    try done; try destruct tf, tf'; congruence.
Qed.
End rows.

Section constraints.
Lemma has_key_true {K A} `{Countable K} (k : K) (m : gmap K A) :
  has_key k m = true ↔ is_Some (m !! k).
Proof. unfold has_key. apply bool_decide_eq_true. Qed.

Lemma has_key_false {K A} `{Countable K} (k : K) (m : gmap K A) :
  has_key k m = false ↔ m !! k = None.
Proof. unfold has_key. rewrite bool_decide_eq_false, eq_None_not_Some. done. Qed.

Lemma is_Some_insert {K A} `{Countable K} (m : gmap K A) i j x :
  is_Some (m !! i) → is_Some (<[j:=x]> m !! i).
Proof. intros. destruct (decide (i = j)) as [->|]; simplify_map_eq; eauto. Qed.

Lemma null_or_key_insert {A} (m : gmap string A) k j x :
  null_or_key k m = true → null_or_key k (<[j:=x]> m) = true.
Proof. destruct k as [k|]; [|done]. cbn. rewrite !has_key_true. apply is_Some_insert. Qed.

(** Replacing an export row by one with the same name. *)
Lemma schema_ok_exports t id r :
  schema_ok t → export_check r = true →
  (∀ i s, t_exports t !! i = Some s → er_name s = er_name r → i = id) →
  schema_ok (with_exports (insert id r) t).
Proof.
  intros [He Hn Hh Hnd Hed Hl] Hr Hu. split; cbn.
  - intros i s Hi. apply lookup_insert_Some in Hi as [[-> <-]|[_ Hi]]; eauto.
  - intros i j a b Hi Hj Heq.
    apply lookup_insert_Some in Hi as [[-> <-]|[? Hi]];
      apply lookup_insert_Some in Hj as [[-> <-]|[? Hj]]; [done| | |by eauto].
    + symmetry. by eapply Hu.
    + by eapply Hu.
  - done.
  - intros i s Hi. destruct (Hnd i s Hi). split; [done|]. by apply null_or_key_insert.
  - done.
  - done.
Qed.

Lemma insert_export_inv t id r u t' :
  insert_export id r t = Ok (u, t') →
  t' = with_exports (insert id r) t ∧ t_exports t !! id = None ∧ export_check r = true ∧
  ∀ i s, t_exports t !! i = Some s → er_name s ≠ er_name r.
Proof.
  unfold insert_export. destruct (export_check r) eqn:Hc; cbn; [|done].
  destruct (has_key id (t_exports t)) eqn:Hk; cbn; [done|].
  destruct (existsb _ _) eqn:Hex; [done|]. intros [= <- <-].
  apply has_key_false in Hk. split_and!; [done..|]. intros i s Hi Heq.
  apply not_true_iff_false in Hex. apply Hex, existsb_exists. exists (i, s).
  split; [by apply list_elem_of_In, elem_of_map_to_list|]. by apply bool_decide_eq_true.
Qed.

Lemma insert_head_inv t id r u t' :
  insert_head id r t = Ok (u, t') →
  t' = with_heads (insert id r) t ∧ t_heads t !! id = None ∧ head_check r = true ∧
  is_Some (t_exports t !! id) ∧ null_or_key (hr_root_node_id r) (t_nodes t) = true.
Proof.
  unfold insert_head. destruct (head_check r) eqn:Hc; cbn; [|done].
  destruct (has_key id (t_heads t)) eqn:Hk; cbn; [done|]. apply has_key_false in Hk.
  destruct (has_key id (t_exports t)) eqn:He; cbn; [|done]. apply has_key_true in He.
  destruct (null_or_key _ _); cbn; [|done]. naive_solver.
Qed.

Lemma schema_ok_heads t id r :
  schema_ok t → head_check r = true → null_or_key (hr_root_node_id r) (t_nodes t) = true →
  schema_ok (with_heads (insert id r) t).
Proof.
  intros [He Hn Hh Hnd Hed Hl] Hr Hroot. split; cbn; [done|done| |done..].
  intros i s Hi. apply lookup_insert_Some in Hi as [[-> <-]|[_ Hi]]; eauto.
Qed.

(** Inserting tree rows adds rows and changes no row. *)
Definition tree_grows (t t' : Tables) : Prop :=
  t_exports t' = t_exports t ∧ t_heads t' = t_heads t ∧
  t_nodes t ⊆ t_nodes t' ∧ t_edges t ⊆ t_edges t' ∧ t_leaf_refs t ⊆ t_leaf_refs t'.

#[export] Instance tree_grows_preorder : PreOrder tree_grows.
Proof.
  split; [by intros t; unfold tree_grows|].
  intros a b c (? & ? & ? & ? & ?) (? & ? & ? & ? & ?). unfold tree_grows.
  split_and!; [congruence..|by etrans|by etrans|by etrans].
Qed.

Lemma insert_node_ok t id r u t' :
  schema_ok t → insert_node id r t = Ok (u, t') → schema_ok t' ∧ tree_grows t t'.
Proof.
  intros [He Hn Hh Hnd Hed Hl]. unfold insert_node. destruct (node_check r) eqn:Hc; cbn; [|done].
  destruct (has_key id (t_nodes t)) eqn:Hk; [done|]. apply has_key_false in Hk.
  destruct (null_or_key _ _) eqn:Ho; cbn; [|done]. intros [= <- <-].
  split; [|by split_and!; cbn; [..|apply insert_subseteq| |]]. split; cbn; [done|done| | | |].
  - intros i s Hi. destruct (Hh i s Hi). split; [done|]. by apply null_or_key_insert.
  - intros i s Hi. apply lookup_insert_Some in Hi as [[-> <-]|[_ Hi]]; eauto.
  - intros k c Hk'. destruct (Hed k c Hk') as (? & ? & ?).
    split_and!; [done|by apply is_Some_insert|by apply is_Some_insert].
  - intros i s Hi. destruct (Hl i s Hi). split; [done|]. by apply is_Some_insert.
Qed.

Lemma insert_edge_ok t parent slot child u t' :
  schema_ok t → insert_edge parent slot child t = Ok (u, t') → schema_ok t' ∧ tree_grows t t'.
Proof.
  intros [He Hn Hh Hnd Hed Hl]. unfold insert_edge. destruct (Z.leb_spec 0 slot); cbn; [|done].
  destruct (has_key (parent, slot) (t_edges t)) eqn:Hk; [done|]. apply has_key_false in Hk.
  destruct (has_key parent _) eqn:Hp; cbn; [|done]. destruct (has_key child _) eqn:Hch; cbn; [|done].
  apply has_key_true in Hp, Hch. intros [= <- <-].
  split; [|by split_and!; cbn; [..|apply insert_subseteq|]]. split; cbn; [done..| |done].
  intros k c Hi. apply lookup_insert_Some in Hi as [[<- <-]|[_ Hi]]; eauto.
Qed.

Lemma insert_leaf_ref_ok t id r u t' :
  schema_ok t → insert_leaf_ref id r t = Ok (u, t') → schema_ok t' ∧ tree_grows t t'.
Proof.
  intros [He Hn Hh Hnd Hed Hl]. unfold insert_leaf_ref. destruct (leaf_check r) eqn:Hc; cbn; [|done].
  destruct (has_key id (t_leaf_refs t)) eqn:Hk; [done|]. apply has_key_false in Hk.
  destruct (has_key id (t_nodes t)) eqn:Ho; cbn; [|done]. apply has_key_true in Ho. intros [= <- <-].
  split; [|by split_and!; cbn; [..|apply insert_subseteq]]. split; cbn; [done..|].
  intros i s Hi. apply lookup_insert_Some in Hi as [[-> <-]|[_ Hi]]; eauto.
Qed.
End constraints.

Section publication.
Lemma mfor_grows {A} (f : A → SQL CatalogError unit) l :
  (∀ x db u db', schema_ok (db_tables db) → f x db = (Ok u, db') →
     schema_ok (db_tables db') ∧ tree_grows (db_tables db) (db_tables db')) →
  ∀ db u db', schema_ok (db_tables db) → mfor l f db = (Ok u, db') →
    schema_ok (db_tables db') ∧ tree_grows (db_tables db) (db_tables db').
Proof.
  intros Hf. induction l as [|x l IH]; intros db u db' Hs H; cbn in H; inv_sql; [done|].
  destruct (Hf _ _ _ _ Hs Ha) as [Hs' Hg]. destruct (IH _ _ _ Hs' H) as [Hs'' Hg'].
  split; [done|]. by etrans.
Qed.

Lemma insert_tree_records_ok records now db u db' :
  schema_ok (db_tables db) → insert_tree_records records now db = (Ok u, db') →
  schema_ok (db_tables db') ∧ tree_grows (db_tables db) (db_tables db').
Proof.
  intros Hs H. unfold insert_tree_records in H. inv_sql.
  eapply mfor_grows in Ha as [Hs1 Hg1]; [|intros ? ? ? ? ? Hi; unfold insert_node_record in Hi;
    inv_sql; by eapply insert_node_ok|done].
  eapply mfor_grows in Ha0 as [Hs2 Hg2]; [|intros ? ? ? ? ? Hi; unfold insert_edge_record in Hi;
    inv_sql; by eapply insert_edge_ok|done].
  eapply mfor_grows in H as [Hs3 Hg3]; [|intros ? ? ? ? ? Hi; unfold insert_leaf_record in Hi;
    inv_sql; by eapply insert_leaf_ref_ok|done].
  split; [done|]. etrans; [exact Hg1|]. by etrans.
Qed.

Lemma row_to_record_head id row rec :
  row_to_export_record id row = Ok rec → row_to_export_head row.2 = Ok (r_head rec).
Proof.
  unfold row_to_export_record, into_record, ExportRecord_new. intros H. inv_ok. done.
Qed.

Lemma fetch_by_id_inv id db rec db' :
  fetch_export_record_by_id id db = (Ok rec, db') →
  db_tables db' = db_tables db ∧ ∃ e h,
    t_exports (db_tables db) !! id = Some e ∧ t_heads (db_tables db) !! id = Some h ∧
    row_to_export_record id (e, h) = Ok rec ∧ row_to_export_head h = Ok (r_head rec).
Proof.
  unfold fetch_export_record_by_id. intros H. inv_sql. split; [done|].
  unfold record_of, join_by_id in H.
  destruct (t_exports (db_tables db) !! id) as [e|]; cbn in H; [|done].
  destruct (t_heads (db_tables db) !! id) as [h|]; cbn in H; [|done].
  exists e, h. split_and!; [done..|]. by apply row_to_record_head in H.
Qed.

Lemma update_head_same t id r h now size base next rows t' :
  t_heads t !! id = Some r → head_check r = true → row_to_export_head r = Ok h →
  size = size_bytes h → base = base_wal_seq h →
  update_head id next (head_row h size base now) t = Ok (rows, t') →
  rows = 1 ∧ t' = with_heads (insert id next) t ∧ head_check next = true ∧
  null_or_key (hr_root_node_id next) (t_nodes t) = true.
Proof.
  intros Hr Hc Hh -> -> H. unfold update_head in H. rewrite Hr in H.
  rewrite (row_head_exact r h Hc Hh) in H. cbn in H.
  rewrite !bool_decide_true, !Z.eqb_refl in H by done. cbn in H.
  destruct (head_check next), (null_or_key _ _); naive_solver.
Qed.

Lemma schema_ok_touch t id now u t' :
  schema_ok t → touch_export id now t = Ok (u, t') →
  schema_ok t' ∧ t_heads t' = t_heads t ∧ t_nodes t' = t_nodes t ∧ t_edges t' = t_edges t ∧
  t_leaf_refs t' = t_leaf_refs t ∧ (∀ i, is_Some (t_exports t' !! i) ↔ is_Some (t_exports t !! i)).
Proof.
  intros Hs [= <- <-]. split_and!; [|done..|].
  - destruct (t_exports t !! id) as [r|] eqn:Hr.
    + replace (with_exports _ t) with (with_exports (insert id
        (mkExportRow (er_name r) (er_engine_kind r) (er_block_size r) (er_state r)
           (er_created_at r) now (er_deleted_at r))) t).
      * apply schema_ok_exports; [done| |].
        -- pose proof (so_exports _ Hs _ _ Hr) as Hc. unfold export_check in *. by destruct r.
        -- intros i s Hi Heq. by eapply (so_names _ Hs).
      * unfold with_exports. f_equal. apply map_eq. intros i. symmetry.
        destruct (decide (i = id)) as [->|].
        -- by rewrite lookup_alter_eq, Hr, lookup_insert_eq.
        -- by rewrite lookup_alter_ne, lookup_insert_ne.
    + replace (with_exports _ t) with t; [done|]. destruct t as [te]. unfold with_exports. cbn in *.
      f_equal. apply map_eq. intros i. destruct (decide (i = id)) as [->|].
      * by rewrite lookup_alter_eq, Hr.
      * by rewrite lookup_alter_ne.
  - intros i. apply lookup_alter_is_Some.
Qed.
End publication.

(** What a publication may change: the head of its export, that export's time stamp, and new tree rows. *)
Definition published (id : string) (t t' : Tables) : Prop :=
  t_nodes t ⊆ t_nodes t' ∧ t_edges t ⊆ t_edges t' ∧ t_leaf_refs t ⊆ t_leaf_refs t' ∧
  ∀ other, other ≠ id → t_heads t' !! other = t_heads t !! other ∧
                        t_exports t' !! other = t_exports t !! other.

Definition is_active (t : Tables) (id : string) : Prop :=
  ∃ e, t_exports t !! id = Some e ∧ er_state e = "active".

Section publish.
Lemma record_active id e h rec :
  row_to_export_record id (e, h) = Ok rec → r_state rec ≠ Deleted → er_state e = "active".
Proof.
  unfold row_to_export_record, into_record, ExportRecord_new, row_to_export_descriptor,
    ExportDescriptor_new. intros H. inv_ok. cbn.
  unfold ExportState_from_str in *. repeat case_bool_decide; naive_solver.
Qed.

Lemma touch_other id now t u t' other :
  touch_export id now t = Ok (u, t') → other ≠ id → t_exports t' !! other = t_exports t !! other.
Proof. intros [= <- <-] ?. cbn. by rewrite lookup_alter_ne. Qed.

Lemma publish_in_tx_inv now request db x db' :
  tables_ok (db_tables db) → publish_in_tx now request db = (Ok x, db') →
  let id := pu_export_id request in
  (∃ current, x = Commit (Some (StaleHead current)) ∧ db_tables db' = db_tables db ∧
     r_head current ≠ pu_expected_head request ∧ head_of (db_tables db) id = Ok (r_head current)) ∨
  (∃ record, x = Commit (Some (Published record)) ∧ is_active (db_tables db) id ∧
     head_of (db_tables db) id = Ok (pu_expected_head request) ∧
     head_of (db_tables db') id = Ok (pu_next_head request) ∧
     r_head record = pu_next_head request ∧
     tables_ok (db_tables db') ∧ published id (db_tables db) (db_tables db')).
Proof.
  intros [Hs Hp] H id. unfold publish_in_tx in H. inv_sql.
  apply fetch_by_id_inv in Ha as (Ht0 & e & r & He & Hr & Hrec & Hh).
  case_bool_decide as Hdel; [done|]. case_bool_decide as Hhead.
  { inv_sql. left. exists a. unfold head_of. subst id. by rewrite Hr. }
  right. inv_sql.
  apply u64_to_i64_inv in Ha0, Ha1, Ha2, Ha3. subst a1 a2 a3 a4.
  rewrite <-Ht0 in Hs. destruct (insert_tree_records_ok _ _ _ _ _ Hs Ha) as [Hs1 Hg].
  pose proof Hg as (Hge & Hgh & Hgn & Hgd & Hgl). rewrite Ht0 in *.
  assert (Hr1 : t_heads (db_tables db1) !! pu_export_id request = Some r) by congruence.
  destruct (update_head_same _ _ _ _ _ _ _ _ _ _ Hr1 (proj1 (so_heads _ Hs1 _ _ Hr1))
    (eq_trans Hh (f_equal Ok Hhead)) eq_refl eq_refl Ha4) as (-> & Ht2 & Hcheck & Hroot).
  cbn in H. inv_sql.
  assert (Hs2 : schema_ok (db_tables db6)) by (rewrite Ht2; by apply schema_ok_heads).
  destruct (schema_ok_touch _ _ _ _ _ Hs2 Ha0) as (Hs3 & Hth & Htn & Hte & Htl & Htx).
  apply fetch_by_id_inv in Ha1 as (Ht4 & e' & r' & He' & Hr' & Hrec' & Hh'). fold id in Hr, Hr', He.
  assert (r' = head_row (pu_next_head request) (size_bytes (pu_next_head request))
    (base_wal_seq (pu_next_head request)) now) as ->.
  { rewrite Hth, Ht2 in Hr'. cbn in Hr'. rewrite lookup_insert_eq in Hr'. congruence. }
  assert (r_head a2 = pu_next_head request) as Hnext.
  { eapply head_row_inj; [symmetry; by apply row_head_exact|done..]. }
  assert (Hheads : t_heads (db_tables db2) = <[id:=head_row (pu_next_head request)
    (size_bytes (pu_next_head request)) (base_wal_seq (pu_next_head request)) now]>
    (t_heads (db_tables db))) by (rewrite Hth, Ht2, <-Hgh; done).
  assert (Hex : t_exports (db_tables db6) = t_exports (db_tables db)) by (rewrite Ht2; done).
  exists a2. rewrite Ht4. unfold head_of. rewrite Hr, Hr', Hh', Hh, Hhead, Hnext. rewrite Ht2 in Htn, Hte, Htl.
  split_and!; [done| |done|done|done| |].
  - exists e. split; [done|]. by eapply record_active.
  - split; [done|]. intros i. rewrite Htx, Hex, (Hp i), Hheads.
    destruct (decide (i = id)) as [->|]; [rewrite lookup_insert_eq, Hr; split; eauto|].
    by rewrite lookup_insert_ne.
  - unfold published. rewrite Htn, Hte, Htl. split_and!; [done..|]. intros other Hne.
    split; [by rewrite Hheads, lookup_insert_ne|].
    rewrite (touch_other _ _ _ _ _ _ Ha0 Hne). by rewrite Hex.
Qed.
End publish.

(** The rows that [create_export] inserts, and the head it starts with. *)
Definition created_export (request : CreateExport) (now : Timestamp) : ExportRow :=
  mkExportRow (ce_name request) (ExportEngineKind_display (ce_engine_kind request))
    (ce_block_size request) "active" now now None.
Definition created_head (request : CreateExport) : CatalogResult ExportHead :=
  match ce_engine_kind request with
  | Memory => memory_empty (ce_size_bytes request)
  | SimpleDurable => simple_mutable_tree (ce_size_bytes request)
  | WalDurable => cow_immutable_tree (ce_size_bytes request)
  end.

Section operations.
Lemma current_timestamp_inv clock now :
  current_timestamp clock = Ok now → Timestamp_new now = Ok now.
Proof.
  unfold current_timestamp, Timestamp_new. destruct clock; [|done]. intros H.
  by rewrite (non_empty_string_inv _ _ _ H) at 1.
Qed.

Lemma created_head_fields request head :
  created_head request = Ok head → size_bytes head = ce_size_bytes request ∧ ce_size_bytes request ≠ 0.
Proof.
  unfold created_head, memory_empty, simple_mutable_tree, cow_immutable_tree,
    simple_mutable_tree_with_root, cow_immutable_tree_with_root,
    memory_empty_with_base, simple_mutable_tree_with_root_base_and_format,
    cow_immutable_tree_with_root_and_format, validate_non_zero.
  destruct (ce_engine_kind request), (Z.eqb_spec (ce_size_bytes request) 0); naive_solver.
Qed.

Lemma create_inv uuid clock request db rec db' :
  create_export uuid clock request db = (Ok rec, db') →
  ∃ now head t,
    ExportId_new uuid = Ok uuid ∧ current_timestamp clock = Ok now ∧
    created_head request = Ok head ∧ ce_block_size request ≠ 0 ∧
    rec = mkRecord uuid (ce_name request) (ce_block_size request) (ce_engine_kind request)
            Active head now now None ∧
    insert_export uuid (created_export request now) (db_tables db) = Ok (tt, t) ∧
    insert_head uuid (head_row head (size_bytes head) (base_wal_seq head) now) t =
      Ok (tt, db_tables db').
Proof.
  intros H. unfold create_export in H. fold (created_head request) in H. inv_sql.
  apply transaction_inv in Ha4 as (db1 & db2 & Ht1 & [[Hb Ht]|[Hb _]]); inv_sql.
  pose proof (non_empty_string_inv _ _ _ Ha) as ->.
  apply u64_to_i64_inv in Ha1, Ha2, Ha5. subst.
  unfold ExportRecord_new in H. inv_ok. destruct (created_head_fields _ _ Ha3) as [Hsz _].
  unfold validate_non_zero in Hx. destruct (Z.eqb_spec (ce_block_size request) 0); [done|].
  destruct a5, a7. exists a0, a3, (db_tables db0). rewrite Ht, Hsz, <-Ht1. by split_and!.
Qed.

(** ** Failed operations leave no trace *)

Lemma mseq_err {A B} (m : SQL CatalogError A) (f : A → SQL CatalogError B) db o db' :
  mseq m f db = (o, db') → is_ok o = false →
  (∃ o', m db = (o', db') ∧ is_ok o' = false) ∨
  ∃ a db1, m db = (Ok a, db1) ∧ f a db1 = (o, db').
Proof.
  unfold mseq. destruct (m db) as [[a| |] db1]; intros H Ho; [right; eauto|left..];
    injection H as <- <-; eauto.
Qed.

Lemma lift_err {A B} (o : CatalogResult A) (f : A → SQL CatalogError B) db r db' :
  mseq (mlift o) f db = (r, db') → is_ok r = false →
  db_tables db' = db_tables db ∨ ∃ a, o = Ok a ∧ f a db = (r, db').
Proof. unfold mseq, mlift. destruct o; intros H Hr; [right; eauto|left..]; by simplify_eq. Qed.

Lemma fetch_by_name_tables name db o db' :
  fetch_by_name name db = (o, db') → db_tables db' = db_tables db.
Proof.
  unfold fetch_by_name, mseq. destruct (query _ db) as [[a| |] db1] eqn:Hq;
    apply query_tables in Hq; unfold mlift; intros; by simplify_eq.
Qed.

Lemma create_error uuid clock request db o db' :
  create_export uuid clock request db = (o, db') → is_ok o = false → db_tables db' = db_tables db.
Proof.
  intros H Ho. unfold create_export in H.
  do 5 (apply lift_err in H as [?|(? & ? & H)]; [done| |done]).
  apply mseq_err in H as [(o' & H & Ho')|([] & db1 & Htx & H)]; [by eapply transaction_err| |done].
  exfalso. apply transaction_inv in Htx as (dba & dbb & _ & [[Hb _]|[Hb _]]); inv_sql.
  unfold ExportRecord_new, validate_non_zero, mlift in H.
  apply insert_export_inv in Ha as (_ & _ & Hc & _). unfold export_check in Hc. cbn in Hc.
  apply andb_true_iff in Hc as [_ Hc%Z.ltb_lt].
  match goal with Hu : u64_to_i64 _ _ = Ok x2 |- _ => apply u64_to_i64_inv in Hu; subst end.
  destruct (Z.eqb_spec (ce_block_size request) 0); [lia|]. cbn in H. by simplify_eq.
Qed.

Lemma clone_error uuid clock request db o db' :
  clone_export uuid clock request db = (o, db') → is_ok o = false → db_tables db' = db_tables db.
Proof.
  intros H Ho. unfold clone_export in H.
  do 2 (apply lift_err in H as [?|(? & ? & H)]; [done| |done]). by eapply transaction_err.
Qed.

Lemma delete_error clock name db o db' :
  delete_export clock name db = (o, db') → is_ok o = false → db_tables db' = db_tables db.
Proof.
  intros H Ho. unfold delete_export in H.
  apply mseq_err in H as [(o' & H & _)|(meta & db1 & Hm & H)]; [by eapply fetch_by_name_tables| |done].
  apply fetch_by_name_tables in Hm. rewrite <-Hm. case_bool_decide; [by injection H as <- <-|].
  apply lift_err in H as [?|(now & _ & H)]; [done| |done].
  apply mseq_err in H as [(o' & H & Ho')|(rows & db2 & Hs & H)]; [| |done].
  - unfold sql_map_err in H. destruct (statement _ _) as [r db2] eqn:Hs. injection H as <- <-.
    eapply statement_err; [exact Hs|]. by destruct r.
  - inv_sql. unfold update_deleted in Hs. destruct (Z.eqb_spec rows 1); [by injection H as <- <-|].
    injection H as <- <-. repeat case_match; congruence.
Qed.

Lemma publish_none clock request db db' :
  tables_ok (db_tables db) →
  transaction (publish_in_tx clock request) db = (Ok None, db') → False.
Proof.
  intros Hok H. apply transaction_inv in H as (db1 & db2 & Ht & [[Hb _]|[Hb _]]);
    rewrite <-Ht in Hok; destruct (publish_in_tx_inv _ _ _ _ _ Hok Hb) as [(? & ? & _)|(? & ? & _)]; done.
Qed.

Lemma publish_error clock request db o db' :
  tables_ok (db_tables db) →
  publish_tree_update clock request db = (o, db') → is_ok o = false → db_tables db' = db_tables db.
Proof.
  intros Hok H Ho. unfold publish_tree_update in H.
  apply lift_err in H as [?|(now & _ & H)]; [done| |done].
  apply mseq_err in H as [(o' & H & Ho')|([out|] & db1 & Htx & H)]; [by eapply transaction_err| | |done].
  - by injection H as <- <-.
  - by apply publish_none in Htx.
Qed.
End operations.

(** The operations that change the catalog, in any order and with any faults. *)
Inductive CatalogOp : Type :=
| OpCreate (uuid : string) (clock : option N) (request : CreateExport)
| OpClone (uuid : string) (clock : option N) (request : CloneExport)
| OpDelete (clock : option N) (name : ExportName)
| OpPublish (clock : option N) (request : PublishTreeUpdate).

(** What an operation returns, up to its value, and the database after it. *)
Definition run_op (op : CatalogOp) (db : SqliteDb) : bool * SqliteDb :=
  match op with
  | OpCreate uuid clock request =>
      let '(o, db) := create_export uuid clock request db in (is_ok o, db)
  | OpClone uuid clock request =>
      let '(o, db) := clone_export uuid clock request db in (is_ok o, db)
  | OpDelete clock name => let '(o, db) := delete_export clock name db in (is_ok o, db)
  | OpPublish clock request => let '(o, db) := publish_tree_update clock request db in (is_ok o, db)
  end.

Definition run_ops (ops : list CatalogOp) (db : SqliteDb) : SqliteDb :=
  foldl (λ db op, (run_op op db).2) db ops.

Section integrity.
Lemma add_export_ok t id er hr u u' t1 t2 :
  tables_ok t → insert_export id er t = Ok (u, t1) → insert_head id hr t1 = Ok (u', t2) →
  tables_ok t2 ∧
  t2 = mkTables (<[id:=er]> (t_exports t)) (<[id:=hr]> (t_heads t)) (t_nodes t) (t_edges t) (t_leaf_refs t) ∧
  t_exports t !! id = None ∧ ∀ i s, t_exports t !! i = Some s → er_name s ≠ er_name er.
Proof.
  intros [Hs Hp] He Hh. apply insert_export_inv in He as (-> & Hfresh & Hce & Hnames).
  apply insert_head_inv in Hh as (-> & _ & Hch & _ & Hroot). cbn in Hroot. split_and!; [|done..].
  split.
  - apply schema_ok_heads; [|done|done]. apply schema_ok_exports; [done|done|].
    intros i s Hi Heq. by destruct (Hnames i s Hi).
  - intros i. cbn. destruct (decide (i = id)) as [->|].
    + rewrite !lookup_insert_eq. split; eauto.
    + rewrite !lookup_insert_ne by done. apply Hp.
Qed.

Lemma fetch_by_name_inv name db rec db' :
  fetch_by_name name db = (Ok rec, db') →
  db_tables db' = db_tables db ∧ ∃ id e h,
    t_exports (db_tables db) !! id = Some e ∧ t_heads (db_tables db) !! id = Some h ∧
    er_name e = name ∧ row_to_export_record id (e, h) = Ok rec.
Proof.
  unfold fetch_by_name. intros H. inv_sql. split; [done|]. unfold record_of, join_by_name in H.
  destruct (head _) as [[id [e h]]|] eqn:Hh; [|done]. exists id, e, h.
  apply head_Some_elem_of, list_elem_of_omap in Hh as ([i r] & Hin & Hj).
  apply list_elem_of_filter in Hin as [Hn Hin%elem_of_map_to_list]. cbn in *.
  unfold join_by_id in Hj. destruct (t_exports (db_tables db) !! i) as [e'|] eqn:He; [|done].
  destruct (t_heads (db_tables db) !! i) as [h'|] eqn:Hh'; [|done]. cbn in Hj. by simplify_eq.
Qed.

Lemma clone_inv uuid clock request db source destination db' :
  clone_export uuid clock request db = (Ok (source, destination), db') →
  ∃ now t sid e h root f block,
    t_exports (db_tables db) !! sid = Some e ∧ t_heads (db_tables db) !! sid = Some h ∧
    er_name e = cl_source request ∧ row_to_export_record sid (e, h) = Ok source ∧
    r_state source ≠ Deleted ∧ r_engine_kind source = WalDurable ∧
    root_node_id (r_head source) = Some root ∧ tree_format (r_head source) = Some f ∧
    insert_export uuid (mkExportRow (cl_destination request) "wal_durable" block "active" now now None)
      (db_tables db) = Ok (tt, t) ∧
    insert_head uuid (mkHeadRow "cow_immutable_tree" (Some root) (Some (TreeFormat_display f))
      (size_bytes (r_head source)) 0 now) t = Ok (tt, db_tables db') ∧
    head_of (db_tables db') uuid = Ok (r_head destination).
Proof.
  intros H. unfold clone_export in H. inv_sql. pose proof (non_empty_string_inv _ _ _ Ha) as ->.
  apply transaction_inv in H as (db1 & db2 & Ht1 & [[Hb Ht]|[Hb _]]); inv_sql.
  - apply fetch_by_name_inv in Ha1 as (Ht3 & sid & e & h & He & Hh & Hn & Hrec).
    repeat case_bool_decide; try done. inv_sql. inv_ok.
    apply fetch_by_id_inv in Ha7 as (Ht8 & e' & h' & _ & Hh' & _ & Hdst).
    apply u64_to_i64_inv in Ha5. subst a5. destruct a3, a6.
    assert (Hd : db_tables db8 = db_tables db') by congruence.
    rewrite Hd in *. rewrite Ht3 in Ha3. rewrite Ht1 in *.
    exists a0, (db_tables db5), sid, e, h, a1, a4, a2. unfold head_of. rewrite Hh'. by split_and!.
  - repeat case_bool_decide; try done. inv_sql.
Qed.

Lemma delete_inv clock name db u db' :
  delete_export clock name db = (Ok u, db') →
  ∃ id e now, t_exports (db_tables db) !! id = Some e ∧ er_name e = name ∧ er_state e = "active" ∧
    db_tables db' = with_exports (insert id
      (mkExportRow (er_name e) (er_engine_kind e) (er_block_size e) "deleted"
         (er_created_at e) now (Some now))) (db_tables db).
Proof.
  intros H. unfold delete_export in H. inv_sql.
  apply fetch_by_name_inv in Ha as (Ht & id & e & h & He & Hh & Hn & Hrec).
  case_bool_decide as Hd; [done|]. inv_sql. case_match eqn:Hr; [|done]. apply Z.eqb_eq in Hr. inv_sql.
  assert (r_id a = id) as Hid.
  { unfold row_to_export_record, row_to_export_descriptor, into_record, ExportDescriptor_new,
      ExportRecord_new in Hrec. inv_ok. cbn. by match goal with Hi : ExportId_new _ = Ok _ |- _ => apply non_empty_string_inv in Hi end. }
  unfold update_deleted in Ha0. rewrite Hid, Ht, He in Ha0. case_bool_decide; [|done].
  injection Ha0 as Ha0. exists id, e, a0. by rewrite <-Ha0.
Qed.

Lemma op_integrity op db :
  tables_ok (db_tables db) →
  tables_ok (db_tables (run_op op db).2) ∧
  ((run_op op db).1 = false → db_tables (run_op op db).2 = db_tables db).
Proof.
  intros Hok. destruct op as [uuid clock request|uuid clock request|clock name|clock request];
    cbn [run_op].
  - destruct (create_export uuid clock request db) as [o db'] eqn:H; cbn [fst snd].
    destruct (is_ok o) eqn:Ho.
    2: { rewrite (create_error _ _ _ _ _ _ H Ho). by split. }
    split; [|done]. destruct o; [|done..].
    apply create_inv in H as (now & head & t & _ & _ & _ & _ & _ & He & Hh).
    by eapply add_export_ok.
  - destruct (clone_export uuid clock request db) as [o db'] eqn:H; cbn [fst snd].
    destruct (is_ok o) eqn:Ho.
    2: { rewrite (clone_error _ _ _ _ _ _ H Ho). by split. }
    split; [|done]. destruct o as [[src dst]| |]; [|done..].
    apply clone_inv in H as (? & ? & ? & ? & ? & ? & ? & ? & _ & _ & _ & _ & _ & _ & _ & _ & He & Hh & _).
    by eapply add_export_ok.
  - destruct (delete_export clock name db) as [o db'] eqn:H; cbn [fst snd].
    destruct (is_ok o) eqn:Ho.
    2: { rewrite (delete_error _ _ _ _ _ H Ho). by split. }
    split; [|done]. destruct o; [|done..].
    apply delete_inv in H as (id & e & now & He & _ & _ & ->). destruct Hok as [Hs Hp]. split.
    + apply schema_ok_exports; [done| |].
      * pose proof (so_exports _ Hs _ _ He) as Hc. unfold export_check in *. cbn.
        rewrite !andb_true_iff in *. naive_solver.
      * intros i s Hi Heq. by eapply (so_names _ Hs).
    + intros i. cbn. rewrite <-(Hp i). destruct (decide (i = id)) as [->|].
      * rewrite lookup_insert_eq, He. split; eauto.
      * by rewrite lookup_insert_ne.
  - destruct (publish_tree_update clock request db) as [o db'] eqn:H; cbn [fst snd].
    destruct (is_ok o) eqn:Ho.
    2: { rewrite (publish_error _ _ _ _ _ Hok H Ho). by split. }
    split; [|done]. destruct o; [|done..].
    unfold publish_tree_update in H. inv_sql.
    destruct a1 as [out|]; [|by apply publish_none in Ha0]. inv_sql.
    apply transaction_inv in Ha0 as (db1 & db2 & Ht & [[Hb Ht']|[Hb Ht']]);
      rewrite <-Ht in Hok; destruct (publish_in_tx_inv _ _ _ _ _ Hok Hb)
        as [(? & ? & Heq & _)|(? & ? & _ & _ & _ & _ & Hok' & _)]; congruence.
Qed.
End integrity.

Section lookup.
Lemma export_check_block r : export_check r = true → 0 < er_block_size r.
Proof. unfold export_check. rewrite !andb_true_iff, Z.ltb_lt. naive_solver. Qed.

Lemma head_check_size r : head_check r = true → 0 < hr_size_bytes r.
Proof. unfold head_check. rewrite !andb_true_iff, Z.ltb_lt. naive_solver. Qed.

Lemma head_row_parses h now :
  head_valid h → 0 ≤ size_bytes h → 0 ≤ base_wal_seq h →
  opt_parse NodeId_new (root_node_id h) = Ok (root_node_id h) →
  row_to_export_head (head_row h (size_bytes h) (base_wal_seq h) now) = Ok h.
Proof.
  intros Hv Hs Hb Hr. unfold row_to_export_head, head_row.
  cbn [hr_layout_kind hr_root_node_id hr_tree_format hr_size_bytes hr_base_wal_seq].
  rewrite ExportLayoutKind_from_display. cbn [obind]. unfold i64_to_u64.
  rewrite Hr. decide_cmp. pose proof (head_rebuild h Hv) as Hh.
  destruct h as [[]|[? ? []]|[? ? ? []]]; cbn in *; exact Hh.
Qed.

Lemma created_head_ok request head :
  created_head request = Ok head → head_valid head ∧ root_node_id head = None ∧ base_wal_seq head = 0.
Proof.
  intros H. destruct (created_head_fields _ _ H) as [Hs Hz]. revert H. unfold head_valid. rewrite Hs.
  unfold created_head, memory_empty, simple_mutable_tree, cow_immutable_tree,
    simple_mutable_tree_with_root, cow_immutable_tree_with_root,
    memory_empty_with_base, simple_mutable_tree_with_root_base_and_format,
    cow_immutable_tree_with_root_and_format.
  rewrite validate_non_zero_ok by done. cbn [obind].
  destruct (ce_engine_kind request); intros [= <-]; done.
Qed.

Lemma engine_from_display k : ExportEngineKind_from_str (ExportEngineKind_display k) = Ok k.
Proof. by destruct k. Qed.

Lemma exports_named_insert t id r hs ns es ls :
  t_exports t !! id = None → (∀ i s, t_exports t !! i = Some s → er_name s ≠ er_name r) →
  exports_named (er_name r) (mkTables (<[id:=r]> (t_exports t)) hs ns es ls) = [(id, r)].
Proof.
  intros Hfresh Hn. apply Permutation_singleton_r. unfold exports_named. cbn [t_exports].
  rewrite map_to_list_insert by done. rewrite filter_cons_True by done.
  rewrite (filter_none _ (map_to_list (t_exports t))); [done|].
  intros [i s] Hin%elem_of_map_to_list. by apply (Hn i).
Qed.

Lemma created_row_parses uuid request head now :
  ExportId_new uuid = Ok uuid → ExportName_new (ce_name request) = Ok (ce_name request) →
  Timestamp_new now = Ok now → created_head request = Ok head →
  0 < ce_block_size request → 0 < size_bytes head →
  row_to_export_record uuid
    (created_export request now, head_row head (size_bytes head) (base_wal_seq head) now) =
  Ok (mkRecord uuid (ce_name request) (ce_block_size request) (ce_engine_kind request)
        Active head now now None).
Proof.
  intros Hid Hname Hnow Hhead Hblock Hsize. destruct (created_head_ok _ _ Hhead) as (Hv & Hr & Hb).
  unfold row_to_export_record, row_to_export_descriptor, created_export.
  cbn [fst snd er_name er_block_size er_engine_kind er_state er_created_at er_updated_at er_deleted_at].
  rewrite Hid. cbn [obind]. rewrite Hname. cbn [obind]. unfold i64_to_u64 at 1. decide_cmp. cbn [obind].
  rewrite engine_from_display. cbn [obind ExportState_from_str bool_decide]. rewrite !Hnow.
  cbn [obind opt_parse]. unfold ExportState_from_str. rewrite bool_decide_true by done. cbn [obind].
  unfold ExportDescriptor_new. rewrite validate_non_zero_ok by lia. cbn [obind].
  rewrite head_row_parses; [|done|lia|lia|by rewrite Hr].
  cbn [obind]. unfold into_record, ExportRecord_new.
  by rewrite validate_non_zero_ok by (cbn; lia).
Qed.
End lookup.

Lemma tables_empty_ok : tables_ok Tables_empty.
Proof.
  split; [split; cbn; intros *; rewrite ?lookup_empty; done|].
  intros id. cbn. by rewrite !lookup_empty, !is_Some_alt.
Qed.

Lemma run_ops_ok ops db : tables_ok (db_tables db) → tables_ok (db_tables (run_ops ops db)).
Proof.
  revert db. induction ops as [|op ops IH]; intros db Hok; [done|]. apply (IH (run_op op db).2).
  by apply op_integrity.
Qed.

(** A publication, by what it answers. *)
Lemma publish_cases clock request db res db' :
  tables_ok (db_tables db) → publish_tree_update clock request db = (res, db') →
  let id := pu_export_id request in
  match res with
  | Ok (Published record) =>
      is_active (db_tables db) id ∧
      head_of (db_tables db) id = Ok (pu_expected_head request) ∧
      head_of (db_tables db') id = Ok (pu_next_head request) ∧
      r_head record = pu_next_head request ∧ published id (db_tables db) (db_tables db')
  | Ok (StaleHead current) =>
      db_tables db' = db_tables db ∧ r_head current ≠ pu_expected_head request ∧
      head_of (db_tables db) id = Ok (r_head current)
  | Err _ | Panic => db_tables db' = db_tables db
  end.
Proof.
  intros Hok H id. destruct (is_ok res) eqn:Hres.
  2: { rewrite (publish_error _ _ _ _ _ Hok H Hres). by destruct res. }
  destruct res as [out| |]; [|done..]. unfold publish_tree_update in H. inv_sql.
  destruct a0 as [o|]; [|by apply publish_none in Ha0]. inv_sql.
  apply transaction_inv in Ha0 as (db1 & db2 & Ht & [[Hb Ht']|[Hb Ht']]); rewrite <-Ht in Hok;
    destruct (publish_in_tx_inv _ _ _ _ _ Hok Hb) as [(cur & Hx & Heq & ? & ?)|
      (rec & Hx & ? & ? & ? & ? & _ & ?)]; simplify_eq.
  - split_and!; [congruence|done|by rewrite <-Ht].
  - rewrite Ht', <-Ht. by split_and!.
Qed.

(** ** Claims *)

(** C31: whatever operations run on an empty catalog, in whatever order and whichever of their
    statements fail, the tables satisfy the schema (row checks, unique names, foreign keys) and
    every export has exactly one head row. *)
Theorem catalog_integrity ops faults :
  tables_ok (db_tables (run_ops ops (mkDatabase Tables_empty faults))).
Proof. apply run_ops_ok, tables_empty_ok. Qed.

(** C32: an operation that fails, for whatever reason and at whichever statement, leaves every
    table as it was. *)
Theorem failed_operation_no_trace ops faults op db' :
  let db := run_ops ops (mkDatabase Tables_empty faults) in
  run_op op db = (false, db') → db_tables db' = db_tables db.
Proof.
  intros db H. pose proof (run_ops_ok ops (mkDatabase Tables_empty faults) tables_empty_ok) as Hok.
  pose proof (op_integrity op db Hok) as [_ He]. rewrite H in He. by apply He.
Qed.

(** A catalog with one log-structured export. *)
Definition sample_request : CreateExport := mkCreateExport "disk" 4096 512 WalDurable.
Definition sample_ops : list CatalogOp := [OpCreate "id-1" (Some 1%N) sample_request].

Lemma failed_operation_no_trace_witness :
  let db := run_ops sample_ops (mkDatabase Tables_empty [false; false; false; false; false; false; true]) in
  ∃ db', run_op (OpCreate "id-2" (Some 2%N) (mkCreateExport "other" 4096 512 Memory)) db = (false, db') ∧
         db_tables db' = db_tables db.
Proof.
  intros db.
  destruct (run_op (OpCreate "id-2" (Some 2%N) (mkCreateExport "other" 4096 512 Memory)) db)
    as [b db'] eqn:Hrun.
  assert (Hb : b = false).
  { change b with ((b, db').1). rewrite <-Hrun. vm_compute. reflexivity. }
  subst b. exists db'. split; [reflexivity|].
  apply (failed_operation_no_trace sample_ops [false; false; false; false; false; false; true]
    (OpCreate "id-2" (Some 2%N) (mkCreateExport "other" 4096 512 Memory)) db' Hrun).
Defined.

(** C23: publishing a tree update is an atomic compare-and-swap of the export head.  It answers
    [Published] only if the export is active and its head is the expected one, and then the head
    is the next one, the record returned carries it, no tree row is changed or removed and no
    other export is touched; it answers [StaleHead] only with the present head, which is not the
    expected one, and without any change; and an error changes nothing. *)
Theorem publish_compare_and_swap clock request db res db' :
  tables_ok (db_tables db) → publish_tree_update clock request db = (res, db') →
  let id := pu_export_id request in
  match res with
  | Ok (Published record) =>
      is_active (db_tables db) id ∧
      head_of (db_tables db) id = Ok (pu_expected_head request) ∧
      head_of (db_tables db') id = Ok (pu_next_head request) ∧
      r_head record = pu_next_head request ∧ published id (db_tables db) (db_tables db')
  | Ok (StaleHead current) =>
      db_tables db' = db_tables db ∧ r_head current ≠ pu_expected_head request ∧
      head_of (db_tables db) id = Ok (r_head current)
  | Err _ | Panic => db_tables db' = db_tables db
  end.
Proof.
  apply publish_cases.
Qed.

Definition sample_db : SqliteDb := run_ops sample_ops (mkDatabase Tables_empty []).
Definition sample_head : ExportHead := HeadCowImmutableTree (mkCowHead 4096 None 0 Bounded32V1).
Definition sample_next : ExportHead := HeadCowImmutableTree (mkCowHead 4096 (Some "root") 7 Bounded32V1).
Definition sample_publish : PublishTreeUpdate :=
  mkPublish "id-1" sample_head sample_next
    (mkTreeBatch [mkTreeNode "root" CowImmutableTree None Internal 1 0 4096] [] []).

Lemma publish_compare_and_swap_witness :
  tables_ok (db_tables sample_db) ∧
  ∃ record db',
    publish_tree_update (Some 5%N) sample_publish sample_db = (Ok (Published record), db') ∧
    head_of (db_tables db') "id-1" = Ok sample_next.
Proof.
  assert (Hok : tables_ok (db_tables sample_db)) by (apply run_ops_ok, tables_empty_ok).
  split; [exact Hok|].
  destruct (publish_tree_update (Some 5%N) sample_publish sample_db) as [res db'] eqn:Hp.
  assert (Hres : match res with Ok (Published _) => true | _ => false end = true).
  { change res with ((res, db').1). rewrite <-Hp. vm_compute. reflexivity. }
  pose proof (publish_compare_and_swap _ _ _ _ _ Hok Hp) as H.
  destruct res as [[record|]| |]; try discriminate Hres.
  exists record, db'. split; [reflexivity|apply H].
Defined.

(** No update is lost: of two publications of an export that expect the same head, when the
    first one was published and moved the head, the second one is never published. *)
Theorem publish_no_lost_update clock1 clock2 first second db record db1 :
  tables_ok (db_tables db) →
  pu_export_id first = pu_export_id second → pu_expected_head first = pu_expected_head second →
  pu_next_head first ≠ pu_expected_head first →
  publish_tree_update clock1 first db = (Ok (Published record), db1) →
  ∀ record' db2, publish_tree_update clock2 second db1 ≠ (Ok (Published record'), db2).
Proof.
  intros Hok Hid Hexp Hne H1 record' db2 H2.
  pose proof (op_integrity (OpPublish clock1 first) db Hok) as [Hok1 _].
  cbn [run_op] in Hok1. rewrite H1 in Hok1. cbn in Hok1.
  destruct (publish_cases _ _ _ _ _ Hok H1) as (_ & _ & Hnext & _).
  destruct (publish_cases _ _ _ _ _ Hok1 H2) as (_ & Hcur & _). congruence.
Qed.

Lemma publish_no_lost_update_witness :
  ∃ record db1,
    publish_tree_update (Some 5%N) sample_publish sample_db = (Ok (Published record), db1) ∧
    ∀ record' db2, publish_tree_update (Some 6%N) sample_publish db1 ≠ (Ok (Published record'), db2).
Proof.
  assert (Hok : tables_ok (db_tables sample_db)) by (apply run_ops_ok, tables_empty_ok).
  destruct (publish_tree_update (Some 5%N) sample_publish sample_db) as [res db1] eqn:Hp.
  assert (Hres : match res with Ok (Published _) => true | _ => false end = true).
  { change res with ((res, db1).1). rewrite <-Hp. vm_compute. reflexivity. }
  destruct res as [[record|]| |]; try discriminate Hres. exists record, db1. split; [reflexivity|].
  apply (publish_no_lost_update (Some 5%N) (Some 6%N) sample_publish sample_publish sample_db record db1
    Hok eq_refl eq_refl); [discriminate|exact Hp].
Defined.

(** A created export can be loaded.  A [create_export] that succeeds had a name no export of
    the catalog had, deleted ones included, and afterwards [load_export] of that name returns the
    very record that was answered. *)
Theorem create_then_load uuid clock request db record db' :
  tables_ok (db_tables db) → ExportName_new (ce_name request) = Ok (ce_name request) →
  create_export uuid clock request db = (Ok record, db') →
  (∀ id e, t_exports (db_tables db) !! id = Some e → er_name e ≠ ce_name request) ∧
  let fresh := mkDatabase (db_tables db') [] in
  load_export (ce_name request) fresh = (Ok record, fresh).
Proof.
  intros Hok Hname H. apply create_inv in H as (now & head & t & Hid & Hclk & Hhead & Hblk & -> & He & Hh).
  pose proof (proj1 (proj2 (proj2 (insert_export_inv _ _ _ _ _ He)))) as Hce.
  pose proof (proj1 (proj2 (proj2 (insert_head_inv _ _ _ _ _ Hh)))) as Hch.
  destruct (add_export_ok _ _ _ _ _ _ _ _ Hok He Hh) as (_ & Ht & Hfresh & Hnames).
  split; [exact Hnames|]. rewrite Ht. unfold load_export, fetch_by_name, query, sql_map_err, statement, mseq.
  cbn [db_faults db_tables tail map_err]. unfold join_by_name.
  pose proof (exports_named_insert _ _ _ (<[uuid:=head_row head (size_bytes head) (base_wal_seq head) now]>
    (t_heads (db_tables db))) (t_nodes (db_tables db)) (t_edges (db_tables db))
    (t_leaf_refs (db_tables db)) Hfresh Hnames) as Hlist.
  change (er_name (created_export request now)) with (ce_name request) in Hlist. rewrite Hlist. unfold join_by_id. cbn [omap list_omap fst t_exports t_heads].
  rewrite !lookup_insert_eq. cbn -[row_to_export_record created_export head_row]. unfold mlift.
  apply export_check_block in Hce. apply head_check_size in Hch. cbn in Hce, Hch.
  rewrite created_row_parses; [done|done|done|by eapply current_timestamp_inv|done|lia|lia].
Qed.

Lemma create_then_load_witness :
  ∃ record db',
    create_export "id-1" (Some 1%N) sample_request (mkDatabase Tables_empty []) = (Ok record, db') ∧
    load_export "disk" (mkDatabase (db_tables db') []) = (Ok record, mkDatabase (db_tables db') []).
Proof.
  destruct (create_export "id-1" (Some 1%N) sample_request (mkDatabase Tables_empty [])) as [res db'] eqn:Hc.
  assert (Hres : is_ok res = true).
  { change res with ((res, db').1). rewrite <-Hc. vm_compute. reflexivity. }
  destruct res as [record| |]; try discriminate Hres. exists record, db'. split; [reflexivity|].
  apply (create_then_load "id-1" (Some 1%N) sample_request (mkDatabase Tables_empty []) record db'
    tables_empty_ok eq_refl Hc).
Defined.

(** A clone shares the committed snapshot of its source: it has the same root, size and format
    and an empty log of its own, its id is new, no tree row is copied or changed, and the source
    and every other export stay as they are. *)
Theorem clone_shares_snapshot uuid clock request db source destination db' :
  tables_ok (db_tables db) →
  clone_export uuid clock request db = (Ok (source, destination), db') →
  root_node_id (r_head destination) = root_node_id (r_head source) ∧
  root_node_id (r_head source) ≠ None ∧
  size_bytes (r_head destination) = size_bytes (r_head source) ∧
  tree_format (r_head destination) = tree_format (r_head source) ∧
  base_wal_seq (r_head destination) = WalSeq_zero ∧
  t_exports (db_tables db) !! uuid = None ∧
  t_nodes (db_tables db') = t_nodes (db_tables db) ∧ t_edges (db_tables db') = t_edges (db_tables db) ∧
  t_leaf_refs (db_tables db') = t_leaf_refs (db_tables db) ∧
  ∀ other, other ≠ uuid →
    t_heads (db_tables db') !! other = t_heads (db_tables db) !! other ∧
    t_exports (db_tables db') !! other = t_exports (db_tables db) !! other.
Proof.
  intros Hok H. apply clone_inv in H as (now & t & sid & e & h & root & f & block & _ & _ & _ & _ & _ & _ &
    Hroot & Hf & He & Hh & Hdst).
  pose proof (proj1 (proj2 (proj2 (insert_head_inv _ _ _ _ _ Hh)))) as Hch.
  destruct (add_export_ok _ _ _ _ _ _ _ _ Hok He Hh) as (_ & Ht & Hfresh & _). rewrite Ht in *.
  unfold head_of in Hdst. cbn [t_heads] in Hdst. rewrite lookup_insert_eq in Hdst.
  pose proof (row_head_exact _ _ Hch Hdst) as Hrow. unfold head_row in Hrow. cbn in Hrow.
  injection Hrow as Hl Hr Hfd Hs Hb.
  rewrite Hroot, Hf, <-Hr, <-Hs, <-Hb. split_and!; [done..| |done|done|done|done|done|].
  - destruct (tree_format (r_head destination)) as [f'|]; [|done]. by destruct f, f'.
  - intros other Hne. cbn. by rewrite !lookup_insert_ne.
Qed.

Lemma clone_shares_snapshot_witness :
  let db := run_ops [OpPublish (Some 5%N) sample_publish] sample_db in
  ∃ source destination db',
    clone_export "id-2" (Some 9%N) (mkCloneExport "disk" "copy") db = (Ok (source, destination), db') ∧
    root_node_id (r_head destination) = root_node_id (r_head source).
Proof.
  intros db.
  assert (Hok : tables_ok (db_tables db)) by (apply run_ops_ok, run_ops_ok, tables_empty_ok).
  destruct (clone_export "id-2" (Some 9%N) (mkCloneExport "disk" "copy") db) as [res db'] eqn:Hc.
  assert (Hres : is_ok res = true).
  { change res with ((res, db').1). rewrite <-Hc. vm_compute. reflexivity. }
  destruct res as [[source destination]| |]; try discriminate Hres.
  exists source, destination, db'. split; [reflexivity|].
  apply (clone_shares_snapshot "id-2" (Some 9%N) (mkCloneExport "disk" "copy") db source destination db' Hok Hc).
Defined.
