(* ===== verification/Tree.v ===== *)
(** * Tree records: factory, blocks and the lazy metadata reader

    [engines/tree/edit.rs] and [engines/tree/read.rs].  The reader is written against the
    [TreeRecordStore] interface of [service.rs]; its soundness holds for every store, its
    completeness for every store that obeys the laws of the interface, and the SQLite
    catalog is an instance of both. *)

From S2P Require Import Prelude ControlPlane ProtocolWire Server Geometry Catalog.

#[local] Open Scope string_scope.
#[local] Open Scope list_scope.
#[local] Open Scope Z_scope.

(** ** Blocks *)

Inductive BlockPart : Type :=
| BlockData (range : ByteRange) (bytes : list byte)
| BlockZero (range : ByteRange).

Record Block := mkBlock { b_range : ByteRange; b_parts : list BlockPart }.

Definition part_range (part : BlockPart) : ByteRange :=
  match part with BlockData range _ | BlockZero range => range end.

Definition invalid_block (message : string) : ServerError := SIo "block read" message.

Definition checked_range_end (range : ByteRange) : SResult Z :=
  ok_or (u64_checked_add (br_start range) (br_len range)) (invalid_block "range end overflowed").

(** The loop of [validate_block_parts]: the position where the next part must start. *)
Fixpoint validate_parts_loop (read_end expected_start : Z) (parts : list BlockPart) : SResult Z :=
  match parts with
  | [] => Ok expected_start
  | part :: parts =>
      let range := part_range part in
      if negb (br_start range =? expected_start) then
        Err (invalid_block "part starts at {}, expected {}")
      else
        let? _ :=
          match part with
          | BlockData range bytes =>
              if negb (zlen bytes =? br_len range) then
                Err (invalid_block "data part has {} bytes for {} byte range")
              else Ok tt
          | BlockZero _ => Ok tt
          end in
        let? expected_start := checked_range_end range in
        if read_end <? expected_start then Err (invalid_block "parts exceed read range")
        else validate_parts_loop read_end expected_start parts
  end.

Definition validate_block_parts (range : ByteRange) (parts : list BlockPart) : SResult unit :=
  let? read_end := checked_range_end range in
  let? expected_start := validate_parts_loop read_end (br_start range) parts in
  if negb (expected_start =? read_end) then Err (invalid_block "parts end at {}, expected {}")
  else Ok tt.

Definition Block_new (range : ByteRange) (parts : list BlockPart) : SResult Block :=
  let? _ := validate_block_parts range parts in Ok (mkBlock range parts).

(** The loop of [materialize]; [Vec::resize] with a larger length appends zeros. *)
Fixpoint materialize_loop (data : list byte) (parts : list BlockPart) : SResult (list byte) :=
  match parts with
  | [] => Ok data
  | BlockData _ bytes :: parts => materialize_loop (data ++ bytes) parts
  | BlockZero range :: parts =>
      let? part_len := ok_or (usize_try_from (br_len range))
                         (invalid_block "zero range length does not fit usize") in
      materialize_loop (data ++ zeros part_len) parts
  end.

Definition materialize (b : Block) : SResult (list byte) :=
  let? _ := ok_or (usize_try_from (br_len (b_range b)))
              (invalid_block "read range length does not fit usize") in
  materialize_loop [] (b_parts b).

(** ** Record factory *)

Record TreeRecordFactory := mkFactory {
  fa_geometry : TreeGeometry;
  fa_layout_kind : ExportLayoutKind;
  fa_owner_export_id : option ExportId;
}.

Definition node_record (f : TreeRecordFactory) (kind : TreeNodeKind) (id : NodeId) (span : TreeNodeSpan)
    : TreeNodeRecord :=
  mkTreeNode id (fa_layout_kind f) (fa_owner_export_id f) kind
    (span_level span) (span_start span) (span_len span).

Definition internal_node (f : TreeRecordFactory) (id : NodeId) (span : TreeNodeSpan) : TreeNodeRecord :=
  node_record f Internal id span.
Definition leaf_node (f : TreeRecordFactory) (id : NodeId) (span : TreeNodeSpan) : TreeNodeRecord :=
  node_record f Leaf id span.
Definition root_node (f : TreeRecordFactory) (id : NodeId) : TreeNodeRecord :=
  internal_node f id (root_span (fa_geometry f)).
Definition child_edge (f : TreeRecordFactory) (parent : NodeId) (slot : Z) (child : NodeId)
    : TreeEdgeRecord := mkTreeEdge parent slot child.
Definition leaf_ref (f : TreeRecordFactory) (id : NodeId) (kind : TreeStorageKind) (key : BlobKey)
    : TreeLeafRefRecord := mkTreeLeafRef id kind key (geo_chunk_bytes (fa_geometry f)).

(** ** The store interface (service.rs) *)

Class TreeRecordStore (S : Type) : Type := {
  store_load_node : NodeId → M S CatalogError (option TreeNodeRecord);
  store_load_child_edges : list TreeEdgeLookup → M S CatalogError (list TreeEdgeRecord);
  store_load_leaf_refs : list NodeId → M S CatalogError (list TreeLeafRefRecord);
}.

(** What a store shows, whether its records fit together, and whether it answers every call. *)
Class TreeView (S : Type) : Type := {
  store_valid : S → Prop;
  store_ready : S → Prop;
  see_node : S → NodeId → CatalogResult (option TreeNodeRecord);
  see_edge : S → NodeId → Z → CatalogResult (option TreeEdgeRecord);
  see_leaf_ref : S → NodeId → CatalogResult (option TreeLeafRefRecord);
  see_head : S → ExportId → CatalogResult ExportHead;
}.

Section answers.
Context {S : Type} `{!TreeView S}.

Record same_view (s s' : S) : Prop := {
  sv_valid : store_valid s → store_valid s';
  sv_ready : store_ready s → store_ready s';
  sv_node : ∀ id, see_node s' id = see_node s id;
  sv_edge : ∀ parent slot, see_edge s' parent slot = see_edge s parent slot;
  sv_leaf_ref : ∀ id, see_leaf_ref s' id = see_leaf_ref s id;
  sv_head : ∀ id, see_head s' id = see_head s id;
}.

(** The call shows [o] and changes nothing that is shown, or the store is not ready and it fails. *)
Definition answers {E A} (m : M S E A) (s : S) (o : outcome E A) : Prop :=
  ∃ o' s', m s = (o', s') ∧ same_view s s' ∧ (o' = o ∨ (¬ store_ready s ∧ ∃ e, o' = Err e)).

(** The call shows [o] on every store that shows what [s] shows. *)
Definition shows {E A} (s : S) (m : M S E A) (o : outcome E A) : Prop :=
  ∀ s', same_view s s' → answers m s' o.
End answers.

(** What a store promises a reader: it shows a fixed set of records, and reading changes nothing. *)
Class TreeRecordStoreLaws (S : Type) `{TreeRecordStore S} `{TreeView S} : Type := {
  law_load_node s id : answers (store_load_node id) s (see_node s id);
  law_load_edges s parent slots :
    answers (store_load_child_edges [mkEdgeLookup parent slots]) s
      (omapo (λ l, concat (option_list <$> l)) (try_map (see_edge s parent) slots));
  law_load_leaf_ref s id : answers (store_load_leaf_refs [id]) s (omapo option_list (see_leaf_ref s id));
}.

(** ** The lazy reader *)

Record LoadedTreeLeaf := mkLeaf {
  ll_chunk_index : ChunkIndex;
  ll_node : TreeNodeRecord;
  ll_leaf_ref : TreeLeafRefRecord;
}.

Record LazyTreeMetadataReader := mkReader {
  rd_geometry : TreeGeometry;
  rd_layout_kind : ExportLayoutKind;
  rd_root_node_id : option NodeId;
}.

Section reader.
Context {S : Type} `{!TreeRecordStore S}.
Implicit Types rd : LazyTreeMetadataReader.

Definition store_call {A} (m : M S CatalogError A) : M S ServerError A :=
  λ s, let '(o, s) := m s in (map_err ServerError_catalog o, s).

Definition load_required_node (id : NodeId) : M S ServerError TreeNodeRecord :=
  let! node := store_call (store_load_node id) in
  mlift (ok_or node (invalid_tree "tree node `{node_id}` is missing")).

Definition load_child_edge (parent : NodeId) (slot : Z) : M S ServerError (option TreeEdgeRecord) :=
  let! edges := store_call (store_load_child_edges [mkEdgeLookup parent [slot]]) in
  if 1 <? zlen edges then
    mfail (invalid_tree "tree node `{parent_node_id}` returned duplicate edge for slot {slot}")
  else
    match head edges with
    | Some edge =>
        if bool_decide (te_parent_node_id edge ≠ parent) || negb (te_slot edge =? slot) then
          mfail (invalid_tree "tree edge for `{parent_node_id}` slot {slot} returned mismatched row")
        else mret (Some edge)
    | None => mret None
    end.

Definition load_required_leaf_ref (id : NodeId) : M S ServerError TreeLeafRefRecord :=
  let! leaf_refs := store_call (store_load_leaf_refs [id]) in
  if negb (zlen leaf_refs =? 1) then mfail (invalid_tree "leaf node `{node_id}` has {} leaf refs")
  else
    let! leaf_ref := mlift (or_panic (head leaf_refs)) in
    if bool_decide (tl_node_id leaf_ref ≠ id) then
      mfail (invalid_tree "leaf ref for `{node_id}` returned mismatched row")
    else mret leaf_ref.

Definition validate_node rd (node : TreeNodeRecord) (span : TreeNodeSpan) (kind : TreeNodeKind)
    : SResult unit :=
  if bool_decide (tn_layout_kind node ≠ rd_layout_kind rd) then
    Err (invalid_tree "tree node `{}` has layout {}, expected {}")
  else if bool_decide (tn_kind node ≠ kind) then
    Err (invalid_tree "tree node `{}` has kind {}, expected {}")
  else if negb (tn_level node =? span_level span) || negb (tn_span_start_bytes node =? span_start span)
          || negb (tn_span_len_bytes node =? span_len span) then
    Err (invalid_tree "tree node `{}` span does not match bounded geometry")
  else Ok tt.

Definition expected_kind (span : TreeNodeSpan) : TreeNodeKind :=
  if span_level span =? 0 then Leaf else Internal.

(** The loop of [load_leaf]: the node at the end of the path, or [None] at a missing edge. *)
Fixpoint walk_path rd (span : TreeNodeSpan) (current : TreeNodeRecord) (slots : list Z)
    : M S ServerError (option TreeNodeRecord) :=
  match slots with
  | [] => mret (Some current)
  | slot :: slots =>
      let! edge := load_child_edge (tn_id current) slot in
      match edge with
      | None => mret None
      | Some edge =>
          let! span := mlift (child_span (rd_geometry rd) span slot) in
          let! current := load_required_node (te_child_node_id edge) in
          let! _ := mlift (validate_node rd current span (expected_kind span)) in
          walk_path rd span current slots
      end
  end.

Definition load_leaf rd (chunk_index : ChunkIndex) : M S ServerError (option LoadedTreeLeaf) :=
  match rd_root_node_id rd with
  | None => mret None
  | Some root =>
      let! path := mlift (path_for_chunk (rd_geometry rd) chunk_index) in
      let span := root_span (rd_geometry rd) in
      let! current := load_required_node root in
      let! _ := mlift (validate_node rd current span Internal) in
      let! found := walk_path rd span current (tp_slots path) in
      match found with
      | None => mret None
      | Some node =>
          let! leaf_ref := load_required_leaf_ref (tn_id node) in
          mret (Some (mkLeaf chunk_index node leaf_ref))
      end
  end.

Fixpoint load_leaves rd (chunks : list TreeChunkRange) : M S ServerError (list LoadedTreeLeaf) :=
  match chunks with
  | [] => mret []
  | chunk :: chunks =>
      let! leaf := load_leaf rd (tc_chunk_index chunk) in
      let! leaves := load_leaves rd chunks in
      mret (option_list leaf ++ leaves)
  end.

Definition load_leaves_for_range rd (range : ByteRange) : M S ServerError (list LoadedTreeLeaf) :=
  let! chunks := mlift (chunks_for_range (rd_geometry rd) range) in
  load_leaves rd chunks.
End reader.

#[export] Instance sqlite_store : TreeRecordStore SqliteDb := {
  store_load_node := load_node;
  store_load_child_edges := load_child_edges;
  store_load_leaf_refs := load_leaf_refs;
}.

(** ** What a block holds *)

Definition part_ok (part : BlockPart) : Prop :=
  0 ≤ br_start (part_range part) ∧ is_u32 (br_len (part_range part)).

(** The byte that the parts give to a position. *)
Fixpoint block_byte (parts : list BlockPart) (x : Z) : option byte :=
  match parts with
  | [] => None
  | part :: parts =>
      let range := part_range part in
      if (br_start range <=? x) && (x <? br_start range + br_len range) then
        match part with
        | BlockData _ bytes => zget bytes (x - br_start range)
        | BlockZero _ => Some x00
        end
      else block_byte parts x
  end.

(** The bytes that one part contributes. *)
Definition part_bytes (part : BlockPart) : list byte :=
  match part with BlockData _ bytes => bytes | BlockZero range => zeros (br_len range) end.

Section blocks.
Lemma materialize_step data part parts :
  part_ok part →
  materialize_loop data (part :: parts) = materialize_loop (data ++ part_bytes part) parts.
Proof.
  intros [_ [? Hl]]. destruct part as [r bs|r]; [done|]. cbn [materialize_loop part_bytes].
  cbn in Hl. rewrite (proj2 (usize_try_from_Some (br_len r) (br_len r))); [done|].
  unfold u32_max, u64_max in *. lia.
Qed.

Lemma part_bytes_get part x :
  part_ok part → zlen (part_bytes part) = br_len (part_range part) →
  in_byte_range (part_range part) x →
  zget (part_bytes part) (x - br_start (part_range part)) = block_byte [part] x.
Proof.
  intros _ Hlen Hx. unfold in_byte_range in Hx. cbn [block_byte]. decide_cmp.
  destruct part as [r bs|r]; [done|]. cbn in *. by rewrite zeros_get by lia.
Qed.

Lemma validate_parts_spec read_end parts : ∀ expected stop,
  Forall part_ok parts → validate_parts_loop read_end expected parts = Ok stop →
  ∃ rest, (∀ data, materialize_loop data parts = Ok (data ++ rest)) ∧
    zlen rest = stop - expected ∧
    ∀ i, 0 ≤ i < zlen rest → zget rest i = block_byte parts (expected + i).
Proof.
  induction parts as [|part parts IH]; intros expected stop Hok H.
  { cbn in H. injection H as <-. exists []. split; [intros; cbn; by rewrite app_nil_r|].
    unfold zlen. cbn. split; [lia|]. lia. }
  apply Forall_cons in Hok as [Hp Hok]. cbn [validate_parts_loop] in H.
  destruct (Z.eqb_spec (br_start (part_range part)) expected) as [<-|]; cbn [negb] in H; [|done].
  assert (Hlen : zlen (part_bytes part) = br_len (part_range part) ∧
    validate_parts_loop read_end (br_start (part_range part) + br_len (part_range part)) parts = Ok stop).
  { unfold checked_range_end in H. inv_ok. apply u64_checked_add_Some in Hx0 as [_ ->].
    destruct (_ <? _); [done|]. split; [|done]. destruct Hp as [_ [? _]].
    destruct part as [r bs|r]; cbn in *; [|by apply zeros_length].
    destruct (Z.eqb_spec (zlen bs) (br_len r)); [done|]. done. }
  destruct Hlen as [Hlen Hrest]. destruct (IH _ _ Hok Hrest) as (rest & Hm & Hl & Hget).
  exists (part_bytes part ++ rest). split_and!.
  - intros data. by rewrite materialize_step, Hm, app_assoc.
  - rewrite zlen_app. lia.
  - intros i Hi. rewrite zlen_app in Hi. destruct (Z.lt_ge_cases i (zlen (part_bytes part))).
    + rewrite zget_app_l by done.
      pose proof (part_bytes_get part (br_start (part_range part) + i) Hp Hlen) as Hb.
      unfold in_byte_range in Hb. replace (br_start (part_range part) + i - br_start (part_range part))
        with i in Hb by lia.
      rewrite Hb by lia. cbn [block_byte]. decide_cmp. done.
    + rewrite zget_app_r by lia. rewrite Hget by lia. cbn [block_byte].
      destruct Hp as [_ [? _]]. decide_cmp. f_equal. lia.
Qed.
End blocks.

(** A block that [Block::new] accepts materializes to the bytes of its range. *)
Lemma materialize_bytes range parts b :
  range_ok range → Forall part_ok parts → Block_new range parts = Ok b →
  ∃ data, materialize b = Ok data ∧ zlen data = br_len range ∧
    ∀ i, 0 ≤ i < br_len range →
      zget data i = block_byte parts (br_start range + i) ∧ is_Some (zget data i).
Proof.
  intros Hr Hp H. unfold Block_new in H. inv_ok. unfold validate_block_parts in Hx. inv_ok.
  unfold checked_range_end in Hx0. inv_ok. apply u64_checked_add_Some in Hx0 as [_ ->].
  destruct (Z.eqb_spec x1 (br_start range + br_len range)) as [Heq|]; [|done]. rewrite Heq in Hx1.
  destruct (validate_parts_spec _ _ _ _ Hp Hx1) as (data & Hm & Hl & Hget).
  assert (zlen data = br_len range) as Hlen by lia.
  exists data. unfold materialize. cbn [b_range b_parts]. destruct Hr as (? & [? ?] & ?).
  rewrite (proj2 (usize_try_from_Some (br_len range) (br_len range))) by (unfold u32_max, u64_max in *; lia).
  split; [apply Hm|]. split; [exact Hlen|]. intros i Hi. split; [apply Hget; lia|].
  apply zget_is_Some. lia.
Qed.

(** ** What the reader finds *)

(** A node record that the reader accepts for a span. *)
Definition node_matches (layout : ExportLayoutKind) (kind : TreeNodeKind) (span : TreeNodeSpan)
    (node : TreeNodeRecord) : Prop :=
  tn_layout_kind node = layout ∧ tn_kind node = kind ∧ tn_level node = span_level span ∧
  tn_span_start_bytes node = span_start span ∧ tn_span_len_bytes node = span_len span.

Section reader_lemmas.
Context {S : Type} `{!TreeRecordStore S}.
Implicit Types rd : LazyTreeMetadataReader.

Lemma validate_node_ok rd node span kind :
  validate_node rd node span kind = Ok tt ↔ node_matches (rd_layout_kind rd) kind span node.
Proof.
  unfold validate_node, node_matches. repeat case_bool_decide; try naive_solver.
  destruct (Z.eqb_spec (tn_level node) (span_level span)),
    (Z.eqb_spec (tn_span_start_bytes node) (span_start span)),
    (Z.eqb_spec (tn_span_len_bytes node) (span_len span)); cbn; naive_solver.
Qed.

Lemma validate_node_inv rd node span kind u :
  validate_node rd node span kind = Ok u → node_matches (rd_layout_kind rd) kind span node.
Proof. destruct u. apply validate_node_ok. Qed.

(** Whatever the store answers, a node at the end of the path spans what the path leads to. *)
Lemma walk_path_sound rd slots : ∀ span current s node s',
  node_matches (rd_layout_kind rd) (expected_kind span) span current →
  walk_path rd span current slots s = (Ok (Some node), s') →
  ∃ span', descend (rd_geometry rd) span slots = Ok span' ∧
    node_matches (rd_layout_kind rd) (expected_kind span') span' node.
Proof.
  induction slots as [|slot slots IH]; intros span current s node s' Hm H; cbn [walk_path descend] in *.
  { injection H as -> ->. eauto. }
  apply mseq_inv in H as ([edge|] & s1 & He & H); [|discriminate H].
  apply mseq_inv in H as (span1 & s2 & [Hc ->]%mlift_inv & H).
  apply mseq_inv in H as (child & s3 & Hn & H).
  apply mseq_inv in H as (u & s4 & [Hv ->]%mlift_inv & H).
  rewrite Hc. cbn [obind]. eapply IH; [|exact H]. by eapply validate_node_inv.
Qed.

Lemma load_required_leaf_ref_sound id s leaf s' :
  load_required_leaf_ref id s = (Ok leaf, s') → tl_node_id leaf = id.
Proof.
  unfold load_required_leaf_ref. intros H. apply mseq_inv in H as (refs & s1 & _ & H).
  destruct (negb _); [discriminate H|]. apply mseq_inv in H as (r & s2 & [_ ->]%mlift_inv & H).
  case_bool_decide as Hid; [discriminate H|]. injection H as <- <-. done.
Qed.
End reader_lemmas.

(** ** Calls that answer *)

Section answer_lemmas.
Context {S : Type} `{!TreeView S} {E : Type}.

#[export] Instance same_view_preorder : PreOrder (@same_view S _).
Proof. split; [by intros s|]. intros s1 s2 s3 [] []. split; [auto|auto|congruence..]. Qed.

Lemma answers_lift {A} (o : outcome E A) s : answers (mlift o) s o.
Proof. exists o, s. split; [done|]. split; [done|by left]. Qed.

Lemma answers_ret {A} (a : A) s : answers (E := E) (mret a) s (Ok a).
Proof. apply (answers_lift (Ok a)). Qed.

Lemma answers_bind {A B} (m : M S E A) (f : A → M S E B) s a o :
  answers m s (Ok a) → (∀ s', same_view s s' → answers (f a) s' o) → answers (mseq m f) s o.
Proof.
  intros (o' & s' & Hm & Hv & Ho) Hf. unfold answers, mseq. rewrite Hm.
  destruct Ho as [->|[Hn [e ->]]]; [|exists (Err e), s'; eauto 6].
  destruct (Hf s' Hv) as (o2 & s2 & -> & Hv2 & Ho2). exists o2, s2. split; [done|]. split; [by etrans|].
  destruct Ho2 as [->|[Hn ?]]; [by left|]. right. split; [|done]. intros Hr. by apply Hn, (sv_ready _ _ Hv).
Qed.

Lemma answers_call {A} (m : M S CatalogError A) s o :
  answers m s o → answers (store_call m) s (map_err ServerError_catalog o).
Proof.
  intros (o' & s' & Hm & Hv & Ho). exists (map_err ServerError_catalog o'), s'. unfold store_call. rewrite Hm.
  split; [done|]. split; [done|]. destruct Ho as [->|[Hn [e ->]]]; [by left|right]. eauto.
Qed.

Lemma shows_lift {A} (o : outcome E A) s : shows s (mlift o) o.
Proof. intros s' _. apply answers_lift. Qed.

Lemma shows_ret {A} (a : A) s : shows (E := E) s (mret a) (Ok a).
Proof. intros s' _. apply answers_ret. Qed.

Lemma shows_bind {A B} (m : M S E A) (f : A → M S E B) s a o :
  shows s m (Ok a) → shows s (f a) o → shows s (mseq m f) o.
Proof. intros Hm Hf s' Hv. eapply answers_bind; [by apply Hm|]. intros s2 Hv2. apply Hf. by etrans. Qed.

Lemma shows_call {A} (m : M S CatalogError A) s o :
  shows s m o → shows s (store_call m) (map_err ServerError_catalog o).
Proof. intros Hm s' Hv. by apply answers_call, Hm. Qed.

Lemma shows_ready {A} (m : M S E A) s o :
  shows s m o → store_ready s → ∃ s', m s = (o, s') ∧ same_view s s'.
Proof.
  intros Hm Hr. destruct (Hm s ltac:(done)) as (o' & s' & Hrun & Hv & [->|[Hn _]]); [eauto|by destruct Hn].
Qed.
End answer_lemmas.

(** ** Stored trees *)

Section stored.
Context {S : Type} `{!TreeRecordStore S} `{!TreeView S} `{!TreeRecordStoreLaws S}.
Implicit Types rd : LazyTreeMetadataReader.

(** The records below a node are what the geometry asks for, [n] levels down. *)
Fixpoint subtree_ok rd (s : S) (n : nat) (span : TreeNodeSpan) (id : NodeId) : Prop :=
  ∃ node, see_node s id = Ok (Some node) ∧ tn_id node = id ∧
    node_matches (rd_layout_kind rd) (expected_kind span) span node ∧
    match n with
    | O => ∃ leaf, see_leaf_ref s id = Ok (Some leaf) ∧ tl_node_id leaf = id
    | Datatypes.S n =>
        ∀ slot, see_edge s id slot = Ok None ∨
          ∃ child, see_edge s id slot = Ok (Some (mkTreeEdge id slot child)) ∧
            ∀ span', child_span (rd_geometry rd) span slot = Ok span' → subtree_ok rd s n span' child
    end.

(** Following the edges of a path. *)
Fixpoint find_node (s : S) (id : NodeId) (slots : list Z) : option NodeId :=
  match slots with
  | [] => Some id
  | slot :: slots =>
      match see_edge s id slot with
      | Ok (Some edge) => find_node s (te_child_node_id edge) slots
      | _ => None
      end
  end.

Lemma subtree_ok_view rd s s' n : ∀ span id,
  same_view s s' → subtree_ok rd s n span id → subtree_ok rd s' n span id.
Proof.
  induction n as [|n IH]; intros span id Hv (node & Hn & Hid & Hm & Hrest); exists node;
    (split; [by rewrite (sv_node _ _ Hv)|]); (split; [done|]); (split; [done|]).
  - by setoid_rewrite (sv_leaf_ref _ _ Hv).
  - intros slot. rewrite (sv_edge _ _ Hv). destruct (Hrest slot) as [?|(child & ? & ?)]; [by left|right].
    exists child. split; [done|]. intros. apply IH; auto.
Qed.

Lemma find_node_view s s' slots : ∀ id, same_view s s' → find_node s' id slots = find_node s id slots.
Proof.
  induction slots as [|slot slots IH]; intros id Hv; [done|]. cbn. rewrite (sv_edge _ _ Hv).
  destruct (see_edge s id slot) as [[e|]| |]; [by apply IH|done..].
Qed.

Lemma subtree_ok_node rd s n span id :
  subtree_ok rd s n span id → ∃ node, see_node s id = Ok (Some node) ∧ tn_id node = id ∧
    node_matches (rd_layout_kind rd) (expected_kind span) span node.
Proof. destruct n; intros (node & ? & ? & ? & _); eauto. Qed.

(** The three loads, on every store with the same view. *)
Lemma load_node_shows s id : shows s (store_load_node id) (see_node s id).
Proof. intros s' Hv. rewrite <-(sv_node _ _ Hv). apply law_load_node. Qed.

Lemma load_edges_shows s parent slots :
  shows s (store_load_child_edges [mkEdgeLookup parent slots])
    (omapo (λ l, concat (option_list <$> l)) (try_map (see_edge s parent) slots)).
Proof.
  intros s' Hv. rewrite (try_map_ext (see_edge s parent) (see_edge s' parent)) by (intros; by rewrite (sv_edge _ _ Hv)).
  apply law_load_edges.
Qed.

Lemma load_leaf_ref_shows s id : shows s (store_load_leaf_refs [id]) (omapo option_list (see_leaf_ref s id)).
Proof. intros s' Hv. rewrite <-(sv_leaf_ref _ _ Hv). apply law_load_leaf_ref. Qed.

Lemma load_required_node_see s id node :
  see_node s id = Ok (Some node) → shows s (load_required_node id) (Ok node).
Proof.
  intros Hn. pose proof (shows_call _ _ _ (load_node_shows s id)) as Ha. rewrite Hn in Ha.
  eapply shows_bind; [exact Ha|]. apply (shows_lift (Ok node)).
Qed.

Lemma load_child_edge_see s parent slot o :
  see_edge s parent slot = Ok o →
  (∀ edge, o = Some edge → te_parent_node_id edge = parent ∧ te_slot edge = slot) →
  shows s (load_child_edge parent slot) (Ok o).
Proof.
  intros He Hm. pose proof (shows_call _ _ _ (load_edges_shows s parent [slot])) as Ha.
  cbn in Ha. rewrite He in Ha. cbn in Ha. rewrite app_nil_r in Ha.
  eapply shows_bind; [exact Ha|]. destruct o as [edge|]; cbn; [|apply shows_ret].
  destruct (Hm edge eq_refl) as [-> ->]. rewrite bool_decide_false, Z.eqb_refl by naive_solver. apply shows_ret.
Qed.

Lemma load_required_leaf_ref_see s id leaf :
  see_leaf_ref s id = Ok (Some leaf) → tl_node_id leaf = id →
  shows s (load_required_leaf_ref id) (Ok leaf).
Proof.
  intros Hl Hid. pose proof (shows_call _ _ _ (load_leaf_ref_shows s id)) as Ha. rewrite Hl in Ha. cbn in Ha.
  eapply shows_bind; [exact Ha|]. cbn. eapply shows_bind; [apply (shows_lift (Ok leaf))|].
  rewrite Hid. rewrite bool_decide_false by naive_solver. apply shows_ret.
Qed.

(** On a stored tree the walk follows the edges and fails nowhere. *)
Lemma walk_path_complete rd s slots : ∀ span id node span',
  subtree_ok rd s (length slots) span id → see_node s id = Ok (Some node) →
  descend (rd_geometry rd) span slots = Ok span' →
  match find_node s id slots with
  | None => shows s (walk_path rd span node slots) (Ok None)
  | Some found =>
      subtree_ok rd s 0 span' found ∧
      ∃ node', see_node s found = Ok (Some node') ∧ tn_id node' = found ∧
               shows s (walk_path rd span node slots) (Ok (Some node'))
  end.
Proof.
  induction slots as [|slot slots IH]; intros span id node span' Hsub Hnode Hd.
  { cbn in Hd. injection Hd as <-. cbn [find_node walk_path]. split; [done|].
    destruct Hsub as (node' & Hn & Hid & _). exists node'. rewrite Hnode in Hn. injection Hn as ->.
    split; [done|]. split; [done|]. apply shows_ret. }
  cbn [length subtree_ok] in Hsub. destruct Hsub as (node' & Hn & Hid & _ & Hedges).
  rewrite Hnode in Hn. injection Hn as <-. cbn [find_node walk_path descend] in *.
  apply obind_ok in Hd as (span1 & Hc & Hd).
  destruct (Hedges slot) as [Hnone|(child & He & Hsub)].
  { rewrite Hnone, Hid. eapply shows_bind; [by apply load_child_edge_see|]. apply shows_ret. }
  rewrite He. cbn [te_child_node_id]. rewrite Hid. specialize (Hsub _ Hc).
  destruct (subtree_ok_node _ _ _ _ _ Hsub) as (cnode & Hcn & Hcid & Hcm).
  assert (∀ o, shows s (walk_path rd span1 cnode slots) o → shows s (let! edge := load_child_edge id slot in
      match edge with
      | None => mret None
      | Some edge =>
          let! span := mlift (child_span (rd_geometry rd) span slot) in
          let! current := load_required_node (te_child_node_id edge) in
          let! _ := mlift (validate_node rd current span (expected_kind span)) in
          walk_path rd span current slots
      end) o) as Hstep.
  { intros o Hw. eapply shows_bind; [apply load_child_edge_see; [exact He|by intros ? [= <-]]|]. cbn.
    rewrite Hc. eapply shows_bind; [apply (shows_lift (Ok span1))|].
    eapply shows_bind; [apply load_required_node_see; exact Hcn|].
    rewrite (proj2 (validate_node_ok _ _ _ _) Hcm). eapply shows_bind; [apply (shows_lift (Ok tt))|exact Hw]. }
  specialize (IH span1 child cnode span' Hsub Hcn Hd). destruct (find_node s child slots) as [found|].
  - destruct IH as (Hsub0 & node' & Hn' & Hid' & Hw). eauto 10.
  - by apply Hstep.
Qed.

(** The leaf that [load_leaf] finds. *)
Lemma load_leaf_shows g layout root i s :
  geometry_ok g → 0 ≤ i → i * TREE_CHUNK_BYTES < geo_size_bytes g →
  let rd := mkReader g layout (Some root) in
  subtree_ok rd s (Z.to_nat (geo_root_level g)) (root_span g) root →
  match find_node s root (chunk_slots g i) with
  | None => shows s (load_leaf rd i) (Ok None)
  | Some id =>
      ∃ node leaf, see_node s id = Ok (Some node) ∧ see_leaf_ref s id = Ok (Some leaf) ∧
        shows s (load_leaf rd i) (Ok (Some (mkLeaf i node leaf)))
  end.
Proof.
  intros Hg Hi Hin rd Hsub.
  destruct (subtree_ok_node _ _ _ _ _ Hsub) as (node & Hn & Hid & Hm). pose proof Hg as (_ & _ & _ & Hlev & _).
  assert (expected_kind (root_span g) = Internal) as Hk by (unfold expected_kind; cbn; by decide_cmp).
  rewrite Hk in Hm. rewrite <-(chunk_slots_length g i) in Hsub.
  assert (∀ o, shows s
    (let! found := walk_path rd (root_span g) node (chunk_slots g i) in
     match found with
     | None => mret None
     | Some node => let! leaf_ref := load_required_leaf_ref (tn_id node) in
                    mret (Some (mkLeaf i node leaf_ref))
     end) o → shows s (load_leaf rd i) o) as Hpre.
  { intros o Hrest. unfold load_leaf. cbn [rd rd_root_node_id rd_geometry].
    rewrite path_for_chunk_ok by done. eapply shows_bind; [apply shows_lift|]. cbn [tp_slots].
    eapply shows_bind; [by apply load_required_node_see|].
    rewrite (proj2 (validate_node_ok rd node (root_span g) Internal)) by exact Hm.
    eapply shows_bind; [apply (shows_lift (Ok tt))|exact Hrest]. }
  pose proof (walk_path_complete rd s (chunk_slots g i) _ root node _ Hsub Hn (descend_root g i Hg Hi Hin)) as Hw.
  destruct (find_node s root (chunk_slots g i)) as [id|].
  - destruct Hw as ((node0 & Hn0 & _ & _ & lr & Hlr & Hlid) & node' & Hn' & Hid' & Hw).
    exists node', lr. split; [done|]. split; [done|]. apply Hpre. eapply shows_bind; [exact Hw|]. cbn. rewrite Hid'.
    eapply shows_bind; [by apply (load_required_leaf_ref_see s id lr)|]. apply shows_ret.
  - apply Hpre. eapply shows_bind; [exact Hw|]. apply shows_ret.
Qed.
End stored.

(** The SQLite catalog: what its tables show, while no statement is due to fail. *)
#[export] Instance sqlite_view : TreeView SqliteDb := {
  store_valid db := tables_ok (db_tables db);
  store_ready db := db_faults db = [];
  see_node db id := opt_parse (row_to_node id) (t_nodes (db_tables db) !! id);
  see_edge db parent slot := opt_parse (row_to_edge parent slot) (t_edges (db_tables db) !! (parent, slot));
  see_leaf_ref db id := opt_parse (row_to_leaf_ref id) (t_leaf_refs (db_tables db) !! id);
  see_head db id := head_of (db_tables db) id;
}.

Lemma same_view_tables (db db' : SqliteDb) :
  db_tables db' = db_tables db → (db_faults db = [] → db_faults db' = []) → same_view db db'.
Proof. intros Ht Hf. split; [by cbn; rewrite Ht|done|..]; intros; cbn; by rewrite Ht. Qed.

Lemma query_answers {A} (f : Tables → A) db : answers (query f) db (Ok (f (db_tables db))).
Proof.
  destruct db as [t [|[|] faults]]; cbn.
  - exists (Ok (f t)), (mkDatabase t []). split; [done|]. split; [done|by left].
  - eexists _, (mkDatabase t faults). split; [done|]. split; [by apply same_view_tables|]. right. split; [done|]. by eexists.
  - exists (Ok (f t)), (mkDatabase t faults). split; [done|]. split; [by apply same_view_tables|by left].
Qed.

(** A query whose row is parsed. *)
Lemma query_parse_answers {A B} (f : Tables → option A) (parse : A → CatalogResult B) db :
  answers (let! row := query f in mlift (opt_parse parse row)) db (opt_parse parse (f (db_tables db))).
Proof. eapply answers_bind; [apply query_answers|]. intros db' _. apply answers_lift. Qed.

Lemma answers_err {A B} (m : SQL CatalogError A) (f : A → SQL CatalogError B) db o :
  answers m db o → (∀ a, o ≠ Ok a) →
  answers (mseq m f) db (match o with Ok _ => Panic | Err e => Err e | Panic => Panic end).
Proof.
  intros (o' & db' & Hm & Hv & Ho) Hno. unfold answers, mseq. rewrite Hm.
  destruct Ho as [->|[Hn [e ->]]]; [|exists (Err e), db'; eauto 6].
  destruct o as [a|e|]; [by destruct (Hno a)|exists (Err e), db'|exists Panic, db']; auto.
Qed.

Lemma load_slots_answers parent slots : ∀ db,
  answers (load_slots parent slots) db
    (omapo (λ l, concat (option_list <$> l)) (try_map (see_edge db parent) slots)).
Proof.
  induction slots as [|slot slots IH]; intros db; cbn [load_slots try_map]; [apply answers_ret|].
  eapply answers_bind; [apply query_answers|]. intros db1 Hv1. cbv beta.
  change (opt_parse (row_to_edge parent slot) (t_edges (db_tables db) !! (parent, slot))) with (see_edge db parent slot).
  destruct (see_edge db parent slot) as [edge|e|] eqn:He; cbn [obind].
  - eapply answers_bind; [apply answers_lift|]. intros db2 Hv2. specialize (IH db2).
    assert (try_map (see_edge db2 parent) slots = try_map (see_edge db parent) slots) as Heq.
    { apply try_map_ext. intros x _. by rewrite (sv_edge _ _ Hv2), (sv_edge _ _ Hv1). }
    rewrite Heq in IH. destruct (try_map (see_edge db parent) slots) as [es|e|] eqn:Hes; cbn [obind omapo] in *.
    + eapply answers_bind; [exact IH|]. intros db3 _. apply answers_ret.
    + by apply (answers_err _ _ _ _ IH).
    + by apply (answers_err _ _ _ _ IH).
  - apply (answers_err _ _ _ (Err e)); [apply answers_lift|done].
  - apply (answers_err _ _ _ Panic); [apply answers_lift|done].
Qed.

#[export] Instance sqlite_store_laws : TreeRecordStoreLaws SqliteDb.
Proof.
  split.
  - intros db id. apply query_parse_answers.
  - intros db parent slots. pose proof (load_slots_answers parent slots db) as Hl. cbn [store_load_child_edges sqlite_store load_child_edges el_parent_node_id el_slots].
    destruct (try_map (see_edge db parent) slots) as [es|e|]; cbn [omapo] in *.
    + eapply answers_bind; [exact Hl|]. intros db1 _. eapply answers_bind; [apply answers_ret|]. intros db2 _.
      rewrite app_nil_r. apply answers_ret.
    + by apply (answers_err _ _ _ _ Hl).
    + by apply (answers_err _ _ _ _ Hl).
  - intros db id. cbn [store_load_leaf_refs sqlite_store load_leaf_refs]. eapply answers_bind; [apply query_answers|].
    intros db1 Hv1. cbv beta.
    change (opt_parse (row_to_leaf_ref id) (t_leaf_refs (db_tables db) !! id)) with (see_leaf_ref db id).
    destruct (see_leaf_ref db id) as [leaf|e|]; cbn [omapo].
    + eapply answers_bind; [apply answers_lift|]. intros db2 _. eapply answers_bind; [apply answers_ret|]. intros db3 _.
      rewrite app_nil_r. apply answers_ret.
    + apply (answers_err _ _ _ (Err e)); [apply answers_lift|done].
    + apply (answers_err _ _ _ Panic); [apply answers_lift|done].
Qed.

(** ** Claims *)

(** A block that [Block::new] accepts materializes to exactly the bytes of its range: as many as
    the range is long, each one the byte of the data part that covers its position, or zero where
    a zero part does; the parts leave no gap and do not overlap. *)
Theorem materialize_exact range parts b :
  range_ok range → Forall part_ok parts → Block_new range parts = Ok b →
  ∃ data, materialize b = Ok data ∧ zlen data = br_len range ∧
    ∀ i, 0 ≤ i < br_len range →
      zget data i = block_byte parts (br_start range + i) ∧ is_Some (zget data i).
Proof. apply materialize_bytes. Qed.

Lemma materialize_exact_witness :
  let range := mkRange 4 3 in
  let parts := [BlockZero (mkRange 4 1); BlockData (mkRange 5 2) (le_bytes 2 258)] in
  ∃ data, materialize (mkBlock range parts) = Ok data ∧ zlen data = 3 ∧
          zget data 1 = block_byte parts 5.
Proof.
  intros range parts. assert (Hr : range_ok range) by (by_compute).
  assert (Hp : Forall part_ok parts) by (repeat constructor; by_compute).
  destruct (materialize_exact range parts (mkBlock range parts) Hr Hp eq_refl) as (data & Hm & Hl & Hg).
  exists data. split; [exact Hm|]. split; [exact Hl|]. apply (Hg 1). cbn. lia.
Defined.

(** The metadata reader is safe with any store, whatever rows it returns: a leaf that [load_leaf]
    accepts for a chunk is a leaf node of the right layout that spans exactly the bytes of that
    chunk, and its leaf reference belongs to that node. *)
Theorem load_leaf_sound {S : Type} `{!TreeRecordStore S} format size g layout root i s leaf s' :
  is_u64 size → is_u64 i → TreeGeometry_new format size = Ok g →
  load_leaf (mkReader g layout root) i s = (Ok (Some leaf), s') →
  ll_chunk_index leaf = i ∧
  i * TREE_CHUNK_BYTES < size ∧
  tn_layout_kind (ll_node leaf) = layout ∧ tn_kind (ll_node leaf) = Leaf ∧
  tn_level (ll_node leaf) = 0 ∧ tn_span_start_bytes (ll_node leaf) = i * TREE_CHUNK_BYTES ∧
  tn_span_len_bytes (ll_node leaf) = Z.min TREE_CHUNK_BYTES (size - i * TREE_CHUNK_BYTES) ∧
  tl_node_id (ll_leaf_ref leaf) = tn_id (ll_node leaf).
Proof.
  intros Hs [Hi _] Hnew H. destruct (new_geometry_inv _ _ _ Hs Hnew) as (Hg & <- & _).
  unfold load_leaf in H. cbn [rd_root_node_id rd_geometry] in H. destruct root as [root|]; [|discriminate H].
  apply mseq_inv in H as (path & s1 & [Hpath ->]%mlift_inv & H).
  apply mseq_inv in H as (node & s2 & _ & H).
  apply mseq_inv in H as (u & s3 & [Hv ->]%mlift_inv & H).
  apply mseq_inv in H as ([found|] & s4 & Hw & H); [|discriminate H].
  apply mseq_inv in H as (lr & s5 & Hlr & H). injection H as <- <-. cbn.
  apply load_required_leaf_ref_sound in Hlr.
  destruct (Z.lt_ge_cases (i * TREE_CHUNK_BYTES) (geo_size_bytes g)) as [Hin|Hout].
  2: { destruct (path_for_chunk_err g i Hg Hout) as [e He]. congruence. }
  rewrite (path_for_chunk_ok g i Hg Hi Hin) in Hpath. injection Hpath as <-. cbn [tp_slots] in Hw.
  apply validate_node_inv in Hv.
  apply walk_path_sound in Hw as (span' & Hd & Hm).
  2: { unfold expected_kind. cbn. pose proof Hg as (_ & _ & _ & ? & _). by decide_cmp. }
  cbn [rd_geometry] in Hd. rewrite (descend_root g i Hg Hi Hin) in Hd. injection Hd as <-.
  destruct Hm as (? & ? & ? & ? & ?). cbn in *. rewrite level_bytes_0 in *. by split_and!.
Qed.

(** A catalog with an export of one chunk, and its tree as the factory makes it. *)
Definition one_chunk_geometry : TreeGeometry := mkGeometry Bounded32V1 32 TREE_CHUNK_BYTES 4096 1.
Definition one_chunk_factory : TreeRecordFactory := mkFactory one_chunk_geometry CowImmutableTree None.
Definition one_chunk_batch : TreeRecordBatch :=
  mkTreeBatch
    [root_node one_chunk_factory "root"; leaf_node one_chunk_factory "leaf" (mkSpan 0 0 4096)]
    [child_edge one_chunk_factory "root" 0 "leaf"]
    [leaf_ref one_chunk_factory "leaf" ImmutableBlob "blob"].
Definition one_chunk_db : SqliteDb :=
  run_ops [OpCreate "id-1" (Some 1%N) (mkCreateExport "disk" 4096 512 WalDurable);
           OpPublish (Some 2%N) (mkPublish "id-1"
             (HeadCowImmutableTree (mkCowHead 4096 None 0 Bounded32V1))
             (HeadCowImmutableTree (mkCowHead 4096 (Some "root") 3 Bounded32V1)) one_chunk_batch)]
    (mkDatabase Tables_empty []).
Definition one_chunk_reader : LazyTreeMetadataReader :=
  mkReader one_chunk_geometry CowImmutableTree (Some "root").

Lemma load_leaf_sound_witness :
  ∃ leaf s', load_leaf one_chunk_reader 0 one_chunk_db = (Ok (Some leaf), s') ∧
             tn_span_len_bytes (ll_node leaf) = 4096.
Proof.
  assert (Hs : is_u64 4096) by by_compute. assert (Hi : is_u64 0) by by_compute.
  destruct (load_leaf one_chunk_reader 0 one_chunk_db) as [res s'] eqn:Hl.
  assert (Hres : match res with Ok (Some _) => true | _ => false end = true).
  { change res with ((res, s').1). rewrite <-Hl. vm_compute. reflexivity. }
  destruct res as [[leaf|]| |]; try discriminate Hres.
  destruct (load_leaf_sound Bounded32V1 4096 one_chunk_geometry CowImmutableTree (Some "root") 0
    one_chunk_db leaf s' Hs Hi eq_refl Hl) as (_ & _ & _ & _ & _ & _ & Hlen & _).
  exists leaf, s'. split; [reflexivity|]. rewrite Hlen. reflexivity.
Defined.

(** On a store that obeys the laws of its interface and holds a tree that fits the geometry,
    [load_leaf] of a store that answers returns the leaf node and the leaf reference at the end of the
    path of the chunk, and [None] exactly when an edge of the path is missing; with a store that
    may fail it returns that or an error.  What the store shows is left as it was. *)
Theorem load_leaf_exact {S : Type} `{!TreeRecordStore S} `{!TreeView S} `{!TreeRecordStoreLaws S}
    format size g layout root i s :
  is_u64 size → is_u64 i → i * TREE_CHUNK_BYTES < size → TreeGeometry_new format size = Ok g →
  let rd := mkReader g layout (Some root) in
  subtree_ok rd s (Z.to_nat (geo_root_level g)) (root_span g) root →
  ∃ slots, path_for_chunk g i = Ok (mkTreePath i slots) ∧
    match find_node s root slots with
    | None => shows s (load_leaf rd i) (Ok None)
    | Some id =>
        ∃ node leaf, see_node s id = Ok (Some node) ∧ see_leaf_ref s id = Ok (Some leaf) ∧
          shows s (load_leaf rd i) (Ok (Some (mkLeaf i node leaf)))
    end.
Proof.
  intros Hs [Hi _] Hin Hnew rd Hsub. destruct (new_geometry_inv _ _ _ Hs Hnew) as (Hg & <- & _).
  exists (chunk_slots g i). split; [by apply path_for_chunk_ok|]. by apply load_leaf_shows.
Qed.

Lemma one_chunk_subtree : subtree_ok one_chunk_reader one_chunk_db 1 (root_span one_chunk_geometry) "root".
Proof.
  cbn [subtree_ok]. exists (root_node one_chunk_factory "root").
  split; [by vm_compute|]. split; [done|]. split; [by vm_compute|].
  intros slot. destruct (decide (slot = 0)) as [->|Hne].
  - right. exists "leaf". split; [by vm_compute|]. intros span' Hspan. vm_compute in Hspan.
    injection Hspan as <-. exists (leaf_node one_chunk_factory "leaf" (mkSpan 0 0 4096)).
    split; [by vm_compute|]. split; [done|]. split; [by vm_compute|].
    exists (leaf_ref one_chunk_factory "leaf" ImmutableBlob "blob"). split; by vm_compute.
  - left. cbn [see_edge sqlite_view].
    assert (t_edges (db_tables one_chunk_db) = {[("root", 0) := "leaf"]}) as -> by (vm_compute; reflexivity).
    rewrite lookup_singleton_ne by congruence. done.
Qed.

Lemma load_leaf_exact_witness :
  ∃ node leaf s', load_leaf one_chunk_reader 0 one_chunk_db = (Ok (Some (mkLeaf 0 node leaf)), s') ∧
    same_view one_chunk_db s'.
Proof.
  assert (Hs : is_u64 4096) by by_compute. assert (Hi : is_u64 0) by by_compute.
  assert (Hin : 0 * TREE_CHUNK_BYTES < 4096) by (vm_compute; reflexivity).
  destruct (load_leaf_exact Bounded32V1 4096 one_chunk_geometry CowImmutableTree "root" 0 one_chunk_db
    Hs Hi Hin eq_refl one_chunk_subtree) as (slots & Hp & H).
  vm_compute in Hp. injection Hp as <-.
  destruct (find_node one_chunk_db "root" [0]) as [id|] eqn:Hf; [|vm_compute in Hf; discriminate Hf].
  destruct H as (node & leaf & _ & _ & H). exists node, leaf. apply (shows_ready _ _ _ H). vm_compute. reflexivity.
Defined.
