(* ===== verification/Storage.v ===== *)
(** * Blob storage

    [storage/mod.rs] and [storage/local.rs]: the store interface, its laws, and the store that
    keeps one file per blob in a directory.  The laws say that a blob never changes once it can
    be read and that a failing operation damages no other blob; the readers and the compactor
    are proved against them, and the local store is an instance.

    The directory is the file system of [WalLocal] with its list of faults.  A random key is an
    argument.  The store on S3 is in [S3]. *)

From S2P Require Import Prelude ControlPlane Server Wal WalLocal.
From Stdlib Require Import Strings.Ascii Strings.String.

#[local] Open Scope string_scope.
#[local] Open Scope list_scope.
#[local] Open Scope Z_scope.

(** ** The interface (mod.rs) *)

Class BlobStore (B : Type) : Type := {
  get_blob : BlobKey → Z → Z → M B ServerError (list byte);
  put_blob : BlobKey → list byte → M B ServerError unit;
}.

(** [overwrite_blob] with the random key of its temporary file. *)
Class MutableBlobStore (B : Type) : Type := {
  overwrite_blob : BlobKey → BlobKey → list byte → M B ServerError unit;
}.

Definition blob_already_exists (context : string) (key : BlobKey) : ServerError :=
  BlobAlreadyExists context key.

Definition is_blob_already_exists (e : ServerError) : bool :=
  match e with BlobAlreadyExists _ _ => true | _ => false end.

(** The loop of [put_random_blob] over the random keys still to try. *)
Fixpoint put_random_loop {B} `{!BlobStore B} (keys : list BlobKey) (data : list byte)
    : M B ServerError BlobKey :=
  match keys with
  | [] => mfail (SIo "put random blob" "failed to allocate unique blob key")
  | key :: keys => λ s,
      match put_blob key data s with
      | (Ok _, s) => (Ok key, s)
      | (Err e, s) => if is_blob_already_exists e then put_random_loop keys data s else (Err e, s)
      | (Panic, s) => (Panic, s)
      end
  end.

(** [random n] is the key the [n]-th call of [BlobKey::random] returns. *)
Definition put_random_blob {B} `{!BlobStore B} (random : nat → BlobKey) (data : list byte)
    : M B ServerError BlobKey :=
  put_random_loop (random <$> seq 0 16) data.

(** ** The laws *)

Class BlobStoreLaws (B : Type) `{!BlobStore B} : Type := {
  blobs : B → gmap BlobKey (list byte);
  (** Reading changes no blob; what is read of a blob that is long enough is its slice. *)
  law_get_blob s key offset len :
    0 ≤ offset → 0 ≤ len →
    match get_blob key offset len s with
    | (Ok data, s') =>
        blobs s' = blobs s ∧
        ∀ blob, blobs s !! key = Some blob → offset + len ≤ zlen blob → slice blob offset (offset + len) = Some data
    | (Err _, s') => blobs s' = blobs s
    | (Panic, _) => False
    end;
  (** Creating a blob leaves every other one as it was. *)
  law_put_blob s key data :
    match put_blob key data s with
    | (Ok _, s') => blobs s !! key = None ∧ blobs s' = <[key := data]> (blobs s)
    | (Err _, s') => ∀ k, k ≠ key → blobs s' !! k = blobs s !! k
    | (Panic, _) => False
    end;
  (** A store that is ready answers, for the keys it can hold. *)
  blob_ready : B → Prop;
  key_ok : BlobKey → bool;
  law_get_ready s key offset len blob data :
    blob_ready s → key_ok key = true → blobs s !! key = Some blob → slice blob offset (offset + len) = Some data →
    0 ≤ len → offset + len ≤ u64_max → ∃ s', get_blob key offset len s = (Ok data, s') ∧ blob_ready s';
  law_put_ready s key data :
    blob_ready s → key_ok key = true → blobs s !! key = None →
    ∃ s', put_blob key data s = (Ok tt, s') ∧ blob_ready s';
}.

(** Replacing a blob: old or new bytes, and no other blob but the temporary one changes. *)
Class MutableBlobStoreLaws (B : Type) `{!BlobStore B} `{!BlobStoreLaws B} `{!MutableBlobStore B} : Type := {
  temp_key : BlobKey → BlobKey;
  law_overwrite_blob s random key data :
    key ≠ temp_key random →
    match overwrite_blob random key data s with
    | (Ok _, s') => blobs s' !! key = Some data
    | (Err _, s') => blobs s' !! key = blobs s !! key ∨ blobs s' !! key = Some data
    | (Panic, _) => False
    end ∧
    ∀ k, k ≠ key → k ≠ temp_key random → blobs (overwrite_blob random key data s).2 !! k = blobs s !! k;
}.

(** ** The local store (local.rs) *)

(** [io::Error] by the one kind the code looks at. *)
Inductive IoError : Type := IoAlreadyExists | IoOther.

Abbreviation IO A := (M Fs IoError A) (only parsing).

Definition io_step : IO unit := λ fs,
  match next_fault fs with
  | (Ok Pass, fs) => (Ok tt, fs)
  | (_, fs) => (Err IoOther, fs)
  end.

Definition io_set (name : string) (data : list byte) : IO unit :=
  mmodify (λ fs, mkFs (<[name := data]> (fs_files fs)) (fs_faults fs)).

(** [map_err(|source| ServerError::io(context, source))]. *)
Definition io_context {A} (context : string) (m : IO A) : M Fs ServerError A := λ fs,
  let '(o, fs) := m fs in
  (map_err (λ e, ServerError_io context
    (match e with IoAlreadyExists => "already exists" | IoOther => "io error" end)) o, fs).

(** [file.write_all]: a failing call has written a prefix. *)
Definition io_write_all (name : string) (data : list byte) : IO unit := λ fs,
  match next_fault fs with
  | (Ok Pass, fs) => io_set name data fs
  | (Ok (Fail written), fs) => let '(_, fs) := io_set name (take written data) fs in (Err IoOther, fs)
  | (_, fs) => (Err IoOther, fs)
  end.

Definition io_create_new (name : string) : IO unit :=
  let! _ := io_step in
  let! fs := mget in
  match fs_files fs !! name with
  | Some _ => mfail IoAlreadyExists
  | None => io_set name []
  end.

Definition write_new_file (name : string) (data : list byte) : IO unit :=
  let! _ := io_create_new name in
  let! _ := io_write_all name data in
  io_step.

Definition io_remove_file (name : string) : IO unit :=
  let! _ := io_step in
  let! fs := mget in
  match fs_files fs !! name with
  | Some _ => mmodify (λ fs, mkFs (delete name (fs_files fs)) (fs_faults fs))
  | None => mfail IoOther
  end.

Definition io_rename (from to : string) : IO unit :=
  let! _ := io_step in
  let! fs := mget in
  match fs_files fs !! from with
  | Some data => mmodify (λ fs, mkFs (<[to := data]> (delete from (fs_files fs))) (fs_faults fs))
  | None => mfail IoOther
  end.

(** [let _ = m;]: the result is dropped. *)
Definition io_ignore {A} (m : IO A) : M Fs ServerError unit := λ fs,
  let '(o, fs) := m fs in
  match o with Panic => (Panic, fs) | _ => (Ok tt, fs) end.

(** The file of a blob, as its name in the root directory. *)
Definition blob_path (key : BlobKey) : SResult string :=
  if negb (single_component key) then
    Err (SIo "resolve blob path" "blob key `{key}` escaped blob root")
  else Ok key.

Definition ensure_root_dir : M Fs ServerError unit := io_context "create blob directory" io_step.

(** Opening and syncing the directory; a platform that rejects the sync counts as success. *)
Definition sync_blob_directory : M Fs ServerError unit := io_context "sync blob directory" io_step.

Definition local_put_blob (key : BlobKey) (data : list byte) : M Fs ServerError unit :=
  let! _ := ensure_root_dir in
  let! path := mlift (blob_path key) in
  λ fs,
    match write_new_file path data fs with
    | (Ok _, fs) => sync_blob_directory fs
    | (Err IoAlreadyExists, fs) => (Err (blob_already_exists "put blob" key), fs)
    | (Err IoOther, fs) =>
        (let! _ := io_ignore (io_remove_file path) in
         mfail (ServerError_io "put blob" "io error")) fs
    | (Panic, fs) => (Panic, fs)
    end.

Definition local_get_blob (key : BlobKey) (offset len : Z) : M Fs ServerError (list byte) :=
  let! len := mlift (ok_or (usize_try_from len) (SIo "get blob" "length {len} does not fit in memory")) in
  let! path := mlift (blob_path key) in
  let! file := open_existing "open blob for get" path in
  let! _ := io_context "seek blob" io_step in
  let! _ := io_context "read blob" io_step in
  (** [read_exact] past the end of the file is an error. *)
  mlift (ok_or (slice file offset (offset + len)) (ServerError_io "read blob" "unexpected end of file")).

Definition local_overwrite_blob (random key : BlobKey) (data : list byte) : M Fs ServerError unit :=
  let! _ := ensure_root_dir in
  let! path := mlift (blob_path key) in
  let! _ := open_existing "stat blob before overwrite" path in
  let! temp_key := mlift (map_err ServerError_catalog (BlobKey_new (".tmp-" +:+ random))) in
  let! temp_path := mlift (blob_path temp_key) in
  let! _ := io_context "write replacement blob" (write_new_file temp_path data) in
  λ fs,
    match io_rename temp_path path fs with
    | (Ok _, fs) => sync_blob_directory fs
    | (Err _, fs) =>
        (let! _ := io_ignore (io_remove_file temp_path) in
         mfail (ServerError_io "rename replacement blob" "io error")) fs
    | (Panic, fs) => (Panic, fs)
    end.

#[export] Instance local_blob_store : BlobStore Fs := {
  get_blob := local_get_blob;
  put_blob := local_put_blob;
}.

#[export] Instance local_mutable_blob_store : MutableBlobStore Fs := {
  overwrite_blob := local_overwrite_blob;
}.

(** ** Facts about the calls *)

Section io.
Implicit Types (fs : Fs).

(** A call without effect on the files. *)
Lemma io_step_files fs : ∃ o fs', io_step fs = (o, fs') ∧ fs_files fs' = fs_files fs ∧ o ≠ Panic.
Proof.
  unfold io_step, next_fault. destruct fs as [files [|[|n] faults]]; cbn; eauto.
Qed.

(** After [write_new_file] every other file is as it was; it succeeds on a new name only, with the
    data, and says that the name exists only when it does. *)
Lemma write_new_file_spec name data fs :
  match write_new_file name data fs with
  | (Ok _, fs') => fs_files fs !! name = None ∧ fs_files fs' = <[name := data]> (fs_files fs)
  | (Err IoAlreadyExists, fs') => fs_files fs' = fs_files fs ∧ is_Some (fs_files fs !! name)
  | (Err IoOther, fs') => ∀ k, k ≠ name → fs_files fs' !! k = fs_files fs !! k
  | (Panic, _) => False
  end.
Proof.
  destruct fs as [files faults]. unfold write_new_file, io_create_new, io_write_all, io_step, io_set, next_fault,
    mseq, mget, mfail, mmodify. cbn.
  destruct faults as [|[|n] faults]; cbn; [| |done];
    (destruct (files !! name) as [old|] eqn:Hn; cbn; [by eauto|]);
    [|destruct faults as [|[|n] [|[|m] faults]]; cbn];
    rewrite ?insert_insert_eq; try (split; [done|]; done);
    intros k Hk; rewrite ?lookup_insert_ne by done; done.
Qed.

Lemma io_remove_file_spec name fs :
  ∃ o fs', io_remove_file name fs = (o, fs') ∧ o ≠ Panic ∧ ∀ k, k ≠ name → fs_files fs' !! k = fs_files fs !! k.
Proof.
  destruct fs as [files faults]. unfold io_remove_file, io_step, next_fault, mseq, mget, mfail, mmodify. cbn.
  destruct faults as [|[|n] faults]; cbn; [| |by eauto].
  all: destruct (files !! name); cbn; eexists _, _; (split; [reflexivity|]); (split; [done|]);
    intros k Hk; cbn; rewrite ?lookup_delete_ne by done; done.
Qed.

Lemma io_context_step context fs :
  ∃ o fs', io_context context io_step fs = (o, fs') ∧ fs_files fs' = fs_files fs ∧ o ≠ Panic.
Proof.
  destruct (io_step_files fs) as (o & fs' & H & Hf & Hp). unfold io_context. rewrite H.
  eexists _, fs'. split; [reflexivity|]. split; [done|]. by destruct o.
Qed.

Lemma open_existing_spec context name fs :
  match open_existing context name fs with
  | (Ok data, fs') => fs_files fs' = fs_files fs ∧ fs_files fs !! name = Some data
  | (Err _, fs') => fs_files fs' = fs_files fs
  | (Panic, _) => False
  end.
Proof.
  destruct fs as [files faults]. unfold open_existing, io_call, io_error, next_fault, mseq, mget, mfail, mret. cbn.
  destruct faults as [|[|n] faults]; cbn; [| |done]; destruct (files !! name) eqn:Hn; cbn; done.
Qed.
End io.

(** The local store obeys the laws. *)
#[export, refine] Instance local_blob_store_laws : BlobStoreLaws Fs := {
  blobs := fs_files;
  blob_ready fs := fs_faults fs = [];
  key_ok := single_component;
}.
Proof.
  - intros s key offset len Ho Hl. unfold get_blob, local_blob_store, local_get_blob, mseq, mlift.
    destruct (usize_try_from len) as [len'|] eqn:Hu; cbn; [|done].
    apply usize_try_from_Some in Hu as [_ ->]. unfold blob_path. destruct (single_component key); cbn; [|done].
    pose proof (open_existing_spec "open blob for get" key s) as Hop.
    destruct (open_existing "open blob for get" key s) as [[file|e|] s1]; [|done|done].
    destruct Hop as [Hf1 Hk]. destruct (io_context_step "seek blob" s1) as (o2 & s2 & -> & Hf2 & Hp2).
    destruct o2 as [u|e|]; [|congruence|done].
    destruct (io_context_step "read blob" s2) as (o3 & s3 & -> & Hf3 & Hp3).
    destruct o3 as [v|e|]; [|congruence|done].
    destruct (slice file offset (offset + len)) as [data|] eqn:Hs; cbn; [|congruence].
    split; [congruence|]. intros blob Hb _. congruence.
  - intros s key data. unfold put_blob, local_blob_store, local_put_blob, ensure_root_dir, mseq, mlift.
    destruct (io_context_step "create blob directory" s) as (o1 & s1 & -> & Hf1 & Hp1).
    destruct o1 as [u|e|]; [|intros k _; by rewrite Hf1|done].
    unfold blob_path. destruct (single_component key); cbn; [|intros k _; by rewrite Hf1].
    pose proof (write_new_file_spec key data s1) as Hw. rewrite Hf1 in Hw.
    destruct (write_new_file key data s1) as [[v|[|]|] s2].
    + destruct Hw as [Hnone Hf2]. unfold sync_blob_directory.
      destruct (io_context_step "sync blob directory" s2) as (o3 & s3 & -> & Hf3 & Hp3).
      destruct o3 as [w|e|]; [|intros k Hk; rewrite Hf3, Hf2, lookup_insert_ne by done; done|done].
      split; [done|]. congruence.
    + intros k _. by rewrite (proj1 Hw).
    + unfold io_ignore. destruct (io_remove_file_spec key s2) as (o3 & s3 & -> & Hp3 & Hf3).
      destruct o3; try done; intros k Hk; by rewrite Hf3, Hw.
    + done.
  - intros [files faults] key offset len blob data Hr Hk Hb Hsl Hl Hu. cbn in Hr, Hb. subst faults. pose proof Hsl as ([Ho _] & _)%slice_Some.
    exists (mkFs files []). split; [|done]. cbn [get_blob local_blob_store]. unfold local_get_blob, blob_path, io_context, open_existing, io_call,
      io_step, next_fault, mseq, mlift, mget, mret. rewrite usize_try_from_id by lia. cbn. rewrite Hk. cbn. rewrite Hb. cbn. by rewrite Hsl.
  - intros [files faults] key data Hr Hk Hn. cbn in Hr, Hn. subst faults. eexists. cbn [put_blob local_blob_store].
    unfold local_put_blob, blob_path, ensure_root_dir, sync_blob_directory, write_new_file, io_create_new,
      io_write_all, io_context, open_existing, io_call, io_step, io_set, next_fault, mseq, mlift, mget, mret, mmodify.
    cbn. rewrite Hk. cbn. rewrite Hn. cbn. done.
Defined.

(** A blob put under a random key: the key is one of the random ones, the blob can be read, and
    no blob under another key has changed, whether or not the call succeeds. *)
Lemma put_random_loop_spec {B} `{!BlobStore B} `{!BlobStoreLaws B} keys data (s : B) :
  match put_random_loop keys data s with
  | (Ok key, s') => key ∈ keys ∧ blobs s' !! key = Some data ∧ ∀ k, k ∉ keys → blobs s' !! k = blobs s !! k
  | (Err _, s') => ∀ k, k ∉ keys → blobs s' !! k = blobs s !! k
  | (Panic, _) => False
  end.
Proof.
  revert s. induction keys as [|key keys IH]; intros s; cbn [put_random_loop]; [done|].
  pose proof (law_put_blob s key data) as Hp. destruct (put_blob key data s) as [[u|e|] s1]; [| |done].
  - destruct Hp as [_ ->]. split; [set_solver|]. rewrite lookup_insert_eq. split; [done|].
    intros k Hk. rewrite lookup_insert_ne by set_solver. done.
  - destruct (is_blob_already_exists e); [|intros k Hk; apply Hp; set_solver].
    specialize (IH s1). destruct (put_random_loop keys data s1) as [[k'|e'|] s2]; [| |done].
    + destruct IH as (? & ? & Hk). split; [set_solver|]. split; [done|]. intros k Hk'.
      rewrite Hk by set_solver. apply Hp. set_solver.
    + intros k Hk'. rewrite IH by set_solver. apply Hp. set_solver.
Qed.

Lemma put_random_blob_spec {B} `{!BlobStore B} `{!BlobStoreLaws B} random data (s : B) :
  match put_random_blob random data s with
  | (Ok key, s') => (∃ n, key = random n) ∧ blobs s' !! key = Some data ∧
                    ∀ k, (∀ n, k ≠ random n) → blobs s' !! k = blobs s !! k
  | (Err _, s') => ∀ k, (∀ n, k ≠ random n) → blobs s' !! k = blobs s !! k
  | (Panic, _) => False
  end.
Proof.
  unfold put_random_blob. pose proof (put_random_loop_spec (random <$> seq 0 16) data s) as H.
  assert (∀ k, (∀ n, k ≠ random n) → k ∉ random <$> seq 0 16) as Hk.
  { intros k Hk (n & -> & _)%list_elem_of_fmap. by apply (Hk n). }
  destruct (put_random_loop _ data s) as [[key|e|] s']; [| |done].
  - destruct H as ((n & -> & _)%list_elem_of_fmap & ? & Hs). split; [by exists n|]. split; [done|]. auto.
  - auto.
Qed.

Lemma put_random_ready {B} `{!BlobStore B} `{!BlobStoreLaws B} random data (s : B) :
  blob_ready s → key_ok (random O) = true → blobs s !! random O = None →
  ∃ s', put_random_blob random data s = (Ok (random O), s') ∧ blob_ready s'.
Proof.
  intros Hr Hk Hn. destruct (law_put_ready s (random O) data Hr Hk Hn) as (s' & Hput & Hr'). exists s'. split; [|done].
  unfold put_random_blob. cbn. by rewrite Hput.
Qed.

Lemma BlobKey_new_cases key : BlobKey_new key = Ok key ∨ ∃ e, BlobKey_new key = Err e.
Proof.
  unfold BlobKey_new. repeat match goal with |- context [if ?b then _ else _] => destruct b end; eauto.
Qed.

(** ** Theorems *)

(** A blob reads back as it was put: on a directory that does not fail, after [put_blob] of a
    new key every range inside the blob is read as the bytes put there, and a range past its end
    is refused. *)
Theorem blob_put_get key data files offset len :
  single_component key = true → files !! key = None → 0 ≤ offset → 0 ≤ len ≤ u64_max →
  ∃ fs, local_put_blob key data (mkFs files []) = (Ok tt, fs) ∧
    local_get_blob key offset len fs =
      (match slice data offset (offset + len) with
       | Some bytes => Ok bytes
       | None => Err (ServerError_io "read blob" "unexpected end of file")
       end, fs).
Proof.
  intros Hk Hnone Ho Hl. exists (mkFs (<[key := data]> files) []).
  unfold local_put_blob, local_get_blob, blob_path, ensure_root_dir, sync_blob_directory, write_new_file, io_create_new,
    io_write_all, io_context, open_existing, io_call, io_step, io_set, next_fault, mseq, mlift, mget, mret, mmodify.
  cbn. rewrite Hk. cbn. rewrite Hnone. cbn. rewrite insert_insert_eq. split; [done|].
  rewrite usize_try_from_id by lia. cbn. rewrite lookup_insert_eq. cbn.
  by destruct (slice data offset (offset + len)).
Qed.

Lemma blob_put_get_witness :
  ∃ fs, local_put_blob "chunk" (le_bytes 4 258) (mkFs ∅ []) = (Ok tt, fs) ∧
        local_get_blob "chunk" 1 2 fs = (Ok (le_bytes 2 1), fs).
Proof.
  destruct (blob_put_get "chunk" (le_bytes 4 258) ∅ 1 2) as (fs & H1 & H2).
  - reflexivity.
  - reflexivity.
  - lia.
  - by_compute.
  - exists fs. split; [exact H1|]. rewrite H2. reflexivity.
Defined.

Definition overwrite_post (temp key : string) (data : list byte) (fs : Fs)
    (r : outcome ServerError unit * Fs) : Prop :=
  match r with
  | (Ok _, fs') => is_Some (fs_files fs !! key) ∧ fs_files fs' !! key = Some data
  | (Err _, fs') => fs_files fs' !! key = fs_files fs !! key ∨
                    (is_Some (fs_files fs !! key) ∧ fs_files fs' !! key = Some data)
  | (Panic, _) => False
  end ∧
  ∀ k, k ≠ key → k ≠ temp → fs_files r.2 !! k = fs_files fs !! k.

Lemma overwrite_post_same temp key data fs fs' e :
  fs_files fs' = fs_files fs → overwrite_post temp key data fs (Err e, fs').
Proof. intros Hf. split; cbn; rewrite Hf; auto. Qed.

Lemma local_overwrite_blob_post random key data fs :
  key ≠ ".tmp-" +:+ random →
  overwrite_post (".tmp-" +:+ random) key data fs (local_overwrite_blob random key data fs).
Proof.
  intros Hne. unfold local_overwrite_blob, ensure_root_dir.
  destruct (io_context_step "create blob directory" fs) as (o1 & s1 & H1 & Hf1 & Hp1).
  unfold mseq at 1. rewrite H1. destruct o1 as [u|e|]; [|by apply overwrite_post_same|done].
  unfold mseq at 1, mlift at 1. unfold blob_path at 1.
  destruct (single_component key); cbn [negb]; [|by apply overwrite_post_same].
  unfold mseq at 1. pose proof (open_existing_spec "stat blob before overwrite" key s1) as Hop.
  destruct (open_existing "stat blob before overwrite" key s1) as [[old|e|] s2]; [|apply overwrite_post_same; congruence|done].
  destruct Hop as [Hf2 Hold]. rewrite Hf1 in Hf2, Hold. unfold mseq at 1, mlift at 1.
  destruct (BlobKey_new_cases (".tmp-" +:+ random)) as [->|[e ->]]; cbn [map_err]; [|by apply overwrite_post_same].
  unfold mseq at 1, mlift at 1. unfold blob_path at 1.
  destruct (single_component (".tmp-" +:+ random)); cbn [negb]; [|by apply overwrite_post_same].
  set (temp := ".tmp-" +:+ random) in *. unfold mseq at 1, io_context at 1.
  pose proof (write_new_file_spec temp data s2) as Hw. rewrite Hf2 in Hw.
  destruct (write_new_file temp data s2) as [[v|[|]|] s3]; cbn [map_err].
  - destruct Hw as [Hnone Hf3]. unfold io_rename, mseq, mget, mmodify, mfail.
    destruct (io_step_files s3) as (o4 & s4 & -> & Hf4 & Hp4). destruct o4 as [w|e|]; [| |done].
    + rewrite Hf4, Hf3, lookup_insert_eq. unfold sync_blob_directory.
      destruct (io_context_step "sync blob directory" (mkFs (<[key:=data]> (delete temp (fs_files s4))) (fs_faults s4)))
        as (o5 & s5 & -> & Hf5 & Hp5). cbn in Hf5. rewrite Hf4, Hf3 in Hf5.
      assert (∀ k, k ≠ temp → fs_files s5 !! k = <[key := data]> (fs_files fs) !! k) as Hk.
      { intros k Hk. rewrite Hf5. destruct (decide (k = key)) as [->|?]; [by rewrite !lookup_insert_eq|].
        rewrite !lookup_insert_ne, lookup_delete_ne, lookup_insert_ne by done. done. }
      split.
      * destruct o5 as [x|e|]; [| |done]; unfold overwrite_post; rewrite Hk, lookup_insert_eq by done; eauto.
      * cbn [snd]. intros k Hk1 Hk2. rewrite Hk, lookup_insert_ne by done. done.
    + unfold io_ignore. destruct (io_remove_file_spec temp s4) as (o5 & s5 & -> & Hp5 & Hf5).
      rewrite Hf4, Hf3 in Hf5.
      assert (∀ k, k ≠ temp → fs_files s5 !! k = fs_files fs !! k) as Hk.
      { intros k Hk. rewrite Hf5, lookup_insert_ne by done. done. }
      destruct o5; try done; (split; [left; by apply Hk|]; cbn; auto).
  - apply overwrite_post_same. apply Hw.
  - split; [left; by apply Hw|]. cbn. auto.
  - done.
Qed.

#[export, refine] Instance local_mutable_blob_store_laws : MutableBlobStoreLaws Fs := {
  temp_key random := ".tmp-" +:+ random;
}.
Proof.
  intros s random key data Hne. destruct (local_overwrite_blob_post random key data s Hne) as [H Hk].
  split; [|exact Hk]. cbn [overwrite_blob local_mutable_blob_store blobs local_blob_store_laws].
  destruct (local_overwrite_blob random key data s) as [[?|?|] ?]; [apply H|destruct H as [?|[_ ?]]; auto|done].
Defined.

(** Replacing a blob is atomic.  Whatever calls of the file system fail, after
    [overwrite_blob] the blob has its old bytes or the new ones, never a mixture or none; it has
    the new ones when the call succeeds, and no other blob changes, the temporary file apart. *)
Theorem overwrite_blob_atomic random key data fs :
  key ≠ ".tmp-" +:+ random →
  match local_overwrite_blob random key data fs with
  | (Ok _, fs') => is_Some (fs_files fs !! key) ∧ fs_files fs' !! key = Some data
  | (Err _, fs') => fs_files fs' !! key = fs_files fs !! key ∨
                    (is_Some (fs_files fs !! key) ∧ fs_files fs' !! key = Some data)
  | (Panic, _) => False
  end ∧
  ∀ k, k ≠ key → k ≠ ".tmp-" +:+ random →
    fs_files (local_overwrite_blob random key data fs).2 !! k = fs_files fs !! k.
Proof. apply local_overwrite_blob_post. Qed.

Lemma overwrite_blob_atomic_witness :
  let fs := mkFs {[ "chunk" := zeros 4 ]} [Pass; Pass; Pass; Fail 1] in
  fs_files (local_overwrite_blob "r" "chunk" (zeros 8) fs).2 !! "chunk" = Some (zeros 4).
Proof.
  intros fs. destruct (overwrite_blob_atomic "r" "chunk" (zeros 8) fs) as [H _].
  - discriminate.
  - destruct (local_overwrite_blob "r" "chunk" (zeros 8) fs) as [[u|e|] fs'] eqn:Hr.
    + vm_compute in Hr. discriminate Hr.
    + destruct H as [H|[_ H]]; [exact H|]. cbn [snd] in *. rewrite H. exfalso.
      assert (Hd : fs_files (local_overwrite_blob "r" "chunk" (zeros 8) fs).2 !! "chunk" = Some (zeros 4))
        by (vm_compute; reflexivity).
      rewrite Hr in Hd. cbn [snd] in Hd. rewrite Hd in H. discriminate H.
    + destruct H.
Defined.

(** A [put_blob] that cannot open its file deletes a blob it did not create: when the open fails
    with an error other than [AlreadyExists] the error path removes the file under the key, and
    a blob stored there earlier is gone. *)
Theorem put_blob_failed_open_deletes key old data :
  single_component key = true →
  ∃ e fs, local_put_blob key data (mkFs {[ key := old ]} [Pass; Fail 0; Pass]) = (Err e, fs) ∧
    fs_files fs !! key = None.
Proof.
  intros Hk. unfold local_put_blob, blob_path, mseq, mlift. cbn. rewrite Hk. cbn.
  unfold io_ignore, io_remove_file, mseq, mget. cbn. rewrite lookup_singleton_eq. cbn.
  eexists _, _. split; [reflexivity|]. cbn. apply lookup_delete_eq.
Qed.

Lemma put_blob_failed_open_deletes_witness :
  ∃ e fs, local_put_blob "chunk" [] (mkFs {[ "chunk" := zeros 4 ]} [Pass; Fail 0; Pass]) = (Err e, fs) ∧
    fs_files fs !! "chunk" = None.
Proof. apply (put_blob_failed_open_deletes "chunk" (zeros 4) []). reflexivity. Defined.
