(* ===== verification/ReadCache.v ===== *)
(** * The read cache

    [engines/wal_durable/read_cache.rs]: a byte cache of committed data.  Extents of the
    export point into cache objects; an insertion merges the extents it touches inside one
    cache block into a single object, and a least-recently-used list of objects says what
    is evicted when the charged bytes exceed the budget. *)

From S2P Require Import Prelude BTree ControlPlane Server ExtentMap Wal Overlay.

#[local] Open Scope string_scope.
#[local] Open Scope list_scope.
#[local] Open Scope Z_scope.

Definition CACHE_BLOCK_BYTES : Z := 2 * 1024 * 1024.

Inductive CacheInsertPlacement : Type := Hot | Cold.

(** [CacheObjectId] is the integer inside. *)

Inductive CachePayload : Type :=
| PayloadBytes (bytes : list byte)
| PayloadWalRecord (record : WalRecord).

Record CacheExtent := mkCacheExtent { cx_object_id : Z; cx_object_offset : Z }.

(** [extent_starts] is a [BTreeSet]: a tree with no values. *)
Record CacheObject := mkCacheObject {
  co_logical_start : Z;
  co_len : Z;
  co_payload : CachePayload;
  co_extent_starts : btree unit;
  co_charged_bytes : Z;
}.

Record CacheReadSlice := mkCacheSlice {
  crs_start : Z;
  crs_end : Z;
  crs_object_id : Z;
  crs_object_offset : Z;
  crs_payload : CachePayload;
}.

Record ExistingSource := mkSource {
  es_start : Z;
  es_end : Z;
  es_object_id : Z;
  es_object_offset : Z;
  es_payload : CachePayload;
}.

Record ReadCache := mkCache {
  rc_extents : btree (Extent CacheExtent);
  rc_objects : btree CacheObject;
  rc_lru : list Z;
  rc_max_bytes : Z;
  rc_charged_bytes : Z;
  rc_next_object_id : Z;
}.

Definition with_extents (m : btree (Extent CacheExtent)) (c : ReadCache) : ReadCache :=
  mkCache m (rc_objects c) (rc_lru c) (rc_max_bytes c) (rc_charged_bytes c) (rc_next_object_id c).
Definition with_objects (m : btree CacheObject) (c : ReadCache) : ReadCache :=
  mkCache (rc_extents c) m (rc_lru c) (rc_max_bytes c) (rc_charged_bytes c) (rc_next_object_id c).
Definition with_lru (l : list Z) (c : ReadCache) : ReadCache :=
  mkCache (rc_extents c) (rc_objects c) l (rc_max_bytes c) (rc_charged_bytes c) (rc_next_object_id c).
Definition with_charged (n : Z) (c : ReadCache) : ReadCache :=
  mkCache (rc_extents c) (rc_objects c) (rc_lru c) (rc_max_bytes c) n (rc_next_object_id c).
Definition with_next_id (n : Z) (c : ReadCache) : ReadCache :=
  mkCache (rc_extents c) (rc_objects c) (rc_lru c) (rc_max_bytes c) (rc_charged_bytes c) n.

Abbreviation CM A := (M ReadCache ServerError A) (only parsing).

Definition cache_error (message : string) : ServerError := ServerError_wal "read cache" message.

(** ** Cache blocks *)

Definition cache_block_start (offset : Z) : Z :=
  u64_mul (offset / CACHE_BLOCK_BYTES) CACHE_BLOCK_BYTES.

Definition cache_block_end (offset : Z) : SResult Z :=
  ok_or (u64_checked_add (cache_block_start offset) CACHE_BLOCK_BYTES)
    (cache_error "cache block end overflowed").

Definition same_cache_block (start end_ : Z) : bool :=
  (start <? end_) && (cache_block_start start =? cache_block_start (u64_sub end_ 1)).

(** ** Payloads *)

Definition payload_data (p : CachePayload) : list byte :=
  match p with
  | PayloadBytes bytes => bytes
  | PayloadWalRecord record => rec_data record
  end.

Definition payload_charged_bytes (p : CachePayload) : Z :=
  match p with
  | PayloadBytes bytes => zlen bytes
  | PayloadWalRecord record => zlen (rec_data record)
  end.

(** [payload.copy_to(offset, len, &mut data[dst_start..])]: the bytes of [data] after it. *)
Definition payload_copy_to (p : CachePayload) (offset len : Z) (data : list byte) (dst_start : Z)
    : SResult (list byte) :=
  let? _ := or_panic (slice data dst_start (zlen data)) in
  let? offset := ok_or (usize_try_from offset) (cache_error "payload offset does not fit usize") in
  let? len := ok_or (usize_try_from len) (cache_error "payload length does not fit usize") in
  let? src :=
    match p with
    | PayloadBytes bytes => or_panic (slice bytes offset (u64_add offset len))
    | PayloadWalRecord record => or_panic (slice (rec_data record) offset (u64_add offset len))
    end in
  or_panic (splice data dst_start src).

(** [CacheReadSlice::copy_to]. *)
Definition cache_slice_copy_to (sl : CacheReadSlice) (read_range : ByteRange) (data : list byte)
    : SResult (list byte) :=
  let start := Z.max (br_start read_range) (crs_start sl) in
  let end_ := Z.min (range_end read_range) (crs_end sl) in
  if end_ <=? start then Ok data
  else
    let? dst_start := ok_or (usize_try_from (u64_sub start (br_start read_range)))
                        (cache_error "destination offset does not fit usize") in
    let? src_start := ok_or (u64_checked_add (crs_object_offset sl) (u64_sub start (crs_start sl)))
                        (cache_error "source offset overflowed") in
    payload_copy_to (crs_payload sl) src_start (u64_sub end_ start) data dst_start.

(** [CacheExtent::split_at]. *)
Definition cache_split_at (x : CacheExtent) (delta : Z) : CacheExtent :=
  mkCacheExtent (cx_object_id x) (u64_add (cx_object_offset x) delta).

(** ** The least-recently-used list: the hottest object first *)

Definition lru_new : list Z := [].
Definition lru_push_front (id : Z) (order : list Z) : list Z := id :: order.
Definition lru_push_back (id : Z) (order : list Z) : list Z := order ++ [id].

Definition lru_insert_at (position : nat) (id : Z) (order : list Z) : list Z :=
  let position := Nat.min position (length order) in
  take position order ++ id :: drop position order.

Definition lru_position (id : Z) (order : list Z) : option nat := fst <$> list_find (eq id) order.

Definition lru_remove (id : Z) (order : list Z) : option nat * list Z :=
  match lru_position id order with
  | None => (None, order)
  | Some position => (Some position, delete position order)
  end.

Definition lru_promote (id : Z) (order : list Z) : list Z :=
  match lru_remove id order with
  | (Some _, order) => lru_push_front id order
  | (None, order) => order
  end.

Definition lru_tail (order : list Z) : option Z := last order.

Definition option_nat_max (a b : option nat) : option nat :=
  match a, b with
  | Some a, Some b => Some (Nat.max a b)
  | Some a, None => Some a
  | None, b => b
  end.

Definition lru_coldest_position (ids order : list Z) : option nat :=
  foldr option_nat_max None ((λ id, lru_position id order) <$> ids).

Definition lru_place (placement : CacheInsertPlacement) (id : Z) (order : list Z) : list Z :=
  match placement with
  | Hot => lru_push_front id order
  | Cold => lru_push_back id order
  end.

(** ** Merging *)

(** One pass of the loop of [connected_sources]: the flags after it, the component and
    whether anything changed. *)
Fixpoint connect_pass (sources : list ExistingSource) (selected : list bool)
    (component_start component_end : Z) (changed : bool) : list bool * Z * Z * bool :=
  match sources, selected with
  | source :: sources, sel :: selected =>
      if sel then
        let '(flags, cs, ce, ch) := connect_pass sources selected component_start component_end changed in
        (true :: flags, cs, ce, ch)
      else if (es_start source <=? component_end) && (component_start <=? es_end source) then
        let '(flags, cs, ce, ch) :=
          connect_pass sources selected (Z.min component_start (es_start source))
            (Z.max component_end (es_end source)) true in
        (true :: flags, cs, ce, ch)
      else
        let '(flags, cs, ce, ch) := connect_pass sources selected component_start component_end changed in
        (false :: flags, cs, ce, ch)
  | _, _ => ([], component_start, component_end, changed)
  end.

(** The loop, with one round per source and one to see that nothing changed. *)
Fixpoint connect_loop (fuel : nat) (sources : list ExistingSource) (selected : list bool)
    (component_start component_end : Z) : list bool :=
  match fuel with
  | O => selected
  | S fuel =>
      let '(selected, component_start, component_end, changed) :=
        connect_pass sources selected component_start component_end false in
      if changed then connect_loop fuel sources selected component_start component_end
      else selected
  end.

Definition select_flagged {A} (l : list A) (flags : list bool) : list A :=
  omap (λ p, if p.2 : bool then Some p.1 else None) (zip l flags).

Definition connected_sources (start end_ : Z) (sources : list ExistingSource) : list ExistingSource :=
  let selected :=
    connect_loop (S (length sources)) sources (replicate (length sources) false) start end_ in
  select_flagged sources selected.

Definition copy_source (component_start source_start source_end object_offset : Z)
    (payload : CachePayload) (merged : list byte) : SResult (list byte) :=
  let? dst_start := ok_or (usize_try_from (u64_sub source_start component_start))
                      (cache_error "merge destination does not fit usize") in
  payload_copy_to payload object_offset (u64_sub source_end source_start) merged dst_start.

(** [merged[dst_start..dst_start + len].copy_from_slice(&bytes[src_start..src_start + len])]. *)
Definition copy_range (component_start source_start source_end source_offset : Z)
    (bytes merged : list byte) : SResult (list byte) :=
  let? dst_start := ok_or (usize_try_from (u64_sub source_start component_start))
                      (cache_error "merge destination does not fit usize") in
  let? src_start := ok_or (usize_try_from source_offset)
                      (cache_error "merge source does not fit usize") in
  let? len := ok_or (usize_try_from (u64_sub source_end source_start))
                (cache_error "merge length does not fit usize") in
  let? _ := or_panic (slice merged dst_start (u64_add dst_start len)) in
  let? src := or_panic (slice bytes src_start (u64_add src_start len)) in
  or_panic (splice merged dst_start src).

Definition copy_bytes_source (component_start source_start source_end source_offset : Z)
    (bytes merged : list byte) : SResult (list byte) :=
  copy_range component_start source_start source_end source_offset bytes merged.

Definition copy_wal_source (component_start source_start source_end record_offset : Z)
    (record : WalRecord) (merged : list byte) : SResult (list byte) :=
  copy_range component_start source_start source_end record_offset (rec_data record) merged.

(** The stable [sort_by_key] on the start of a span. *)
Fixpoint insert_span (s : Z * Z) (l : list (Z * Z)) : list (Z * Z) :=
  match l with
  | [] => [s]
  | s' :: l' => if s.1 <=? s'.1 then s :: l else s' :: insert_span s l'
  end.

Definition sort_spans (l : list (Z * Z)) : list (Z * Z) := foldr insert_span [] l.

Fixpoint coverage_loop (covered : Z) (spans : list (Z * Z)) : SResult Z :=
  match spans with
  | [] => Ok covered
  | (span_start, span_end) :: spans =>
      if span_end <=? covered then coverage_loop covered spans
      else if covered <? span_start then
        Err (cache_error "merge sources leave uncovered gap [{covered}, {span_start})")
      else coverage_loop (Z.max covered span_end) spans
  end.

Definition validate_coverage (start end_ : Z) (spans : list (Z * Z)) : SResult unit :=
  let? covered := coverage_loop start (sort_spans spans) in
  if negb (covered =? end_) then Err (cache_error "merge sources end at {covered}, expected {end}")
  else Ok tt.

(** [for source in existing { copy_source(..)?; coverage.push(..) }]. *)
Fixpoint copy_sources (component_start : Z) (existing : list ExistingSource) (merged : list byte)
    : SResult (list byte) :=
  match existing with
  | [] => Ok merged
  | source :: existing =>
      let? merged := copy_source component_start (es_start source) (es_end source)
                       (es_object_offset source) (es_payload source) merged in
      copy_sources component_start existing merged
  end.

Definition source_spans (existing : list ExistingSource) : list (Z * Z) :=
  (λ source, (es_start source, es_end source)) <$> existing.

Definition materialize_merged_bytes (component_start component_end new_start new_end : Z)
    (new_bytes : list byte) (existing : list ExistingSource) : SResult (list byte) :=
  let? len := ok_or (usize_try_from (u64_sub component_end component_start))
                (cache_error "merged cache object too large") in
  let? merged := copy_sources component_start existing (zeros len) in
  let? merged := copy_bytes_source component_start new_start new_end 0 new_bytes merged in
  let coverage := source_spans existing ++ [(new_start, new_end)] in
  let? _ := validate_coverage component_start component_end coverage in
  Ok merged.

Definition materialize_merged_wal_bytes (component_start component_end new_start new_end
    record_offset : Z) (record : WalRecord) (existing : list ExistingSource) : SResult (list byte) :=
  let? len := ok_or (usize_try_from (u64_sub component_end component_start))
                (cache_error "merged cache object too large") in
  let? merged := copy_sources component_start existing (zeros len) in
  let? merged := copy_wal_source component_start new_start new_end record_offset record merged in
  let coverage := source_spans existing ++ [(new_start, new_end)] in
  let? _ := validate_coverage component_start component_end coverage in
  Ok merged.

(** ** The cache *)

Definition ReadCache_new (max_bytes : Z) : ReadCache := mkCache em_new [] lru_new max_bytes 0 1.

(** The closure of [read_slices]. *)
Definition cache_read_slice (objects : btree CacheObject) (start end_ : Z)
    (extent : ExtentEntry CacheExtent) : SResult CacheReadSlice :=
  let slice_start := Z.max start (ee_start extent) in
  let slice_end := Z.min end_ (ee_end extent) in
  let? object := ok_or (bt_get (cx_object_id (ee_value extent)) objects)
                   (cache_error "cache extent references missing object") in
  let? object_offset :=
    ok_or (u64_checked_add (cx_object_offset (ee_value extent)) (u64_sub slice_start (ee_start extent)))
      (cache_error "object offset overflowed") in
  Ok (mkCacheSlice slice_start slice_end (cx_object_id (ee_value extent)) object_offset
        (co_payload object)).

Definition cache_read_slices (c : ReadCache) (range : ByteRange) : SResult (list CacheReadSlice) :=
  let start := br_start range in
  let end_ := range_end range in
  let? extents := overlapping (rc_extents c) start end_ in
  try_map (cache_read_slice (rc_objects c) start end_) extents.

(** The closure of [existing_sources_for_window]. *)
Definition existing_source (objects : btree CacheObject) (extent : ExtentEntry CacheExtent)
    : SResult ExistingSource :=
  let? object := ok_or (bt_get (cx_object_id (ee_value extent)) objects)
                   (cache_error "cache extent references missing object") in
  Ok (mkSource (ee_start extent) (ee_end extent) (cx_object_id (ee_value extent))
        (cx_object_offset (ee_value extent)) (co_payload object)).

Definition existing_sources_for_window (c : ReadCache) (start : Z) : SResult (list ExistingSource) :=
  let window_start := cache_block_start start in
  let? window_end := ok_or (u64_checked_add window_start CACHE_BLOCK_BYTES)
                       (cache_error "cache block end overflowed") in
  let? extents := overlapping (rc_extents c) window_start window_end in
  try_map (existing_source (rc_objects c)) extents.

Definition insert_object (start end_ : Z) (payload : CachePayload) (placement : CacheInsertPlacement)
    : CM Z := λ c,
  let id := rc_next_object_id c in
  let c := with_next_id (u64_add id 1) c in
  let charged_bytes := payload_charged_bytes payload in
  let c := with_charged (u64_add (rc_charged_bytes c) charged_bytes) c in
  let c := with_objects
             (bt_insert id (mkCacheObject start (u64_sub end_ start) payload [] charged_bytes)
                (rc_objects c)) c in
  (Ok id, with_lru (lru_place placement id (rc_lru c)) c).

Definition remove_object (id : Z) (c : ReadCache) : ReadCache :=
  let c :=
    match bt_get id (rc_objects c) with
    | Some object =>
        with_charged (u64_sub (rc_charged_bytes c) (co_charged_bytes object))
          (with_objects (bt_remove id (rc_objects c)) c)
    | None => c
    end in
  with_lru (lru_remove id (rc_lru c)).2 c.

Definition clear_starts (o : CacheObject) : CacheObject :=
  mkCacheObject (co_logical_start o) (co_len o) (co_payload o) [] (co_charged_bytes o).
Definition add_start (start : Z) (o : CacheObject) : CacheObject :=
  mkCacheObject (co_logical_start o) (co_len o) (co_payload o)
    (bt_insert start tt (co_extent_starts o)) (co_charged_bytes o).

(** The two loops that recompute [extent_starts]. *)
Definition rebuild_backrefs (c : ReadCache) : btree CacheObject :=
  foldl (λ objects extent, bt_update (add_start (ee_start extent)) (cx_object_id (ee_value extent)) objects)
    (bt_map clear_starts (rc_objects c)) (em_iter (rc_extents c)).

Definition rebuild_backrefs_and_gc_with_inherited_lru (inherited_id : Z)
    (inherited_position : option nat) (placement : CacheInsertPlacement) (c : ReadCache) : ReadCache :=
  let c := with_objects (rebuild_backrefs c) c in
  let empty_objects :=
    (filter (λ p : Z * CacheObject, co_extent_starts p.2 = []) (rc_objects c)).*1 in
  let c := foldl (λ c id, remove_object id c) c empty_objects in
  match bt_get inherited_id (rc_objects c) with
  | Some _ =>
      let order := (lru_remove inherited_id (rc_lru c)).2 in
      match inherited_position with
      | Some position => with_lru (lru_insert_at position inherited_id order) c
      | None => with_lru (lru_place placement inherited_id order) c
      end
  | None => c
  end.

Definition rebuild_backrefs_and_gc : ReadCache → ReadCache :=
  rebuild_backrefs_and_gc_with_inherited_lru 0 None Hot.

(** A method of the extent map. *)
Definition on_extents {A} (m : M (btree (Extent CacheExtent)) ServerError A) : CM A :=
  zoom rc_extents with_extents m.

Definition component_start_of (start : Z) (connected : list ExistingSource) : Z :=
  foldr Z.min start (es_start <$> connected).
Definition component_end_of (end_ : Z) (connected : list ExistingSource) : Z :=
  foldr Z.max end_ (es_end <$> connected).

(** The part [insert_window_bytes] and [insert_window_wal_record] share: the component is cut
    out of the extents and replaced by one extent over a new object. *)
Definition install_component (component_start component_end : Z) (payload : CachePayload)
    (lru_position : option nat) (placement : CacheInsertPlacement) : CM unit :=
  let! _ := on_extents (remove_range_with_split component_start component_end cache_split_at) in
  let! object_id := insert_object component_start component_end payload placement in
  let! _ := on_extents (insert_exact component_start component_end (mkCacheExtent object_id 0)) in
  mmodify (rebuild_backrefs_and_gc_with_inherited_lru object_id lru_position placement).

Definition insert_window_bytes (start end_ : Z) (bytes : list byte)
    (placement : CacheInsertPlacement) : CM unit :=
  let! c := mget in
  let! sources := mlift (existing_sources_for_window c start) in
  let connected := connected_sources start end_ sources in
  let component_start := component_start_of start connected in
  let component_end := component_end_of end_ connected in
  let lru_position := lru_coldest_position (es_object_id <$> connected) (rc_lru c) in
  let! payload :=
    mlift (if match connected with [] => true | _ => false end
              && (component_start =? start) && (component_end =? end_)
           then Ok (PayloadBytes bytes)
           else let? merged := materialize_merged_bytes component_start component_end start end_
                                 bytes connected in
                Ok (PayloadBytes merged)) in
  install_component component_start component_end payload lru_position placement.

Definition insert_window_wal_record (start end_ : Z) (record : WalRecord) (record_offset : Z)
    (placement : CacheInsertPlacement) : CM unit :=
  let! c := mget in
  let! sources := mlift (existing_sources_for_window c start) in
  let connected := connected_sources start end_ sources in
  let component_start := component_start_of start connected in
  let component_end := component_end_of end_ connected in
  let lru_position := lru_coldest_position (es_object_id <$> connected) (rc_lru c) in
  let keep_wal_record :=
    match connected with [] => true | _ => false end
    && (record_offset =? 0)
    && (u64_sub end_ start =? zlen (rec_data record))
    && (zlen (rec_data record) <=? CACHE_BLOCK_BYTES) in
  let! payload :=
    mlift (if keep_wal_record then Ok (PayloadWalRecord record)
           else let? merged := materialize_merged_wal_bytes component_start component_end start end_
                                 record_offset record connected in
                Ok (PayloadBytes merged)) in
  install_component component_start component_end payload lru_position placement.

(** ** Eviction *)

(** The loop over the starts of an object. *)
Definition evict_extent (start : Z) : CM unit :=
  let! c := mget in
  match em_get (rc_extents c) start with
  | Some extent =>
      let! _ := on_extents (remove_range_with_split (ee_start extent) (ee_end extent) cache_split_at) in
      mret tt
  | None => mret tt
  end.

Definition evict_object (id : Z) : CM unit :=
  let! c := mget in
  match bt_get id (rc_objects c) with
  | None => mmodify (λ c, with_lru (lru_remove id (rc_lru c)).2 c)
  | Some object =>
      let! _ := mfor (co_extent_starts object).*1 evict_extent in
      mmodify (remove_object id)
  end.

(** Each round drops an object from the list, so its length bounds the rounds. *)
Fixpoint evict_loop (fuel : nat) : CM unit :=
  let! c := mget in
  if rc_max_bytes c <? rc_charged_bytes c then
    match lru_tail (rc_lru c) with
    | None => mret tt
    | Some id =>
        match fuel with
        | O => λ c, (Panic, c)
        | S fuel => let! _ := evict_object id in evict_loop fuel
        end
    end
  else mret tt.

Definition evict_to_budget : CM unit := λ c, evict_loop (length (rc_lru c)) c.

(** ** Public operations *)

(** The loop of [insert_bytes] and of [insert_wal_record_slice] over the cache blocks the range
    meets; [insert_window start end_] is the body after the bounds of a window are known. *)
Fixpoint window_loop (fuel : nat) (insert_window : Z → Z → CM unit) (start range_end_ : Z) : CM unit :=
  if start <? range_end_ then
    match fuel with
    | O => λ c, (Panic, c)
    | S fuel =>
        let! window_end := mlift (cache_block_end start) in
        let end_ := Z.min range_end_ window_end in
        let! _ := insert_window start end_ in
        window_loop fuel insert_window end_ range_end_
    end
  else mret tt.

(** A range of [len] bytes meets at most [len / CACHE_BLOCK_BYTES + 2] blocks. *)
Definition window_fuel (range : ByteRange) : nat := Z.to_nat (br_len range / CACHE_BLOCK_BYTES + 2).

Definition insert_bytes (range : ByteRange) (bytes : list byte) (placement : CacheInsertPlacement)
    : CM unit :=
  if negb (zlen bytes =? br_len range) then
    mfail (ServerError_wal "insert read cache bytes"
             "payload length {} does not match range length {}")
  else if br_is_empty range then mret tt
  else
    let range_start := br_start range in
    let! _ := window_loop (window_fuel range) (λ start end_,
      let! bytes_start := mlift (ok_or (usize_try_from (u64_sub start range_start))
        (ServerError_wal "insert read cache bytes" "slice start does not fit usize")) in
      let! slice_len := mlift (ok_or (usize_try_from (u64_sub end_ start))
        (ServerError_wal "insert read cache bytes" "slice length does not fit usize")) in
      let! bytes_end := mlift (ok_or (u64_checked_add bytes_start slice_len)
        (ServerError_wal "insert read cache bytes" "slice overflowed")) in
      let! window := mlift (or_panic (slice bytes bytes_start bytes_end)) in
      insert_window_bytes start end_ window placement) range_start (range_end range) in
    evict_to_budget.

Definition insert_wal_record_slice (range : ByteRange) (record : WalRecord) (record_offset : Z)
    (placement : CacheInsertPlacement) : CM unit :=
  match u64_checked_add record_offset (br_len range) with
  | None => mfail (ServerError_wal "insert read cache WAL record" "record offset overflowed")
  | Some record_end =>
      if zlen (rec_data record) <? record_end then
        mfail (ServerError_wal "insert read cache WAL record" "retired WAL slice exceeds record payload")
      else if br_is_empty range then mret tt
      else
        let range_start := br_start range in
        let! _ := window_loop (window_fuel range) (λ start end_,
          let! slice_offset := mlift (ok_or (u64_checked_add record_offset (u64_sub start range_start))
            (ServerError_wal "insert read cache WAL record" "record offset overflowed")) in
          insert_window_wal_record start end_ record slice_offset placement)
          range_start (range_end range) in
        evict_to_budget
  end.

Definition trim_range (range : ByteRange) : CM unit :=
  if br_is_empty range then mret tt
  else
    let! _ := on_extents (remove_range_with_split (br_start range) (range_end range) cache_split_at) in
    mmodify rebuild_backrefs_and_gc.

Definition promote_hit (c : ReadCache) (id : Z) : ReadCache :=
  match bt_get id (rc_objects c) with
  | Some _ => with_lru (lru_promote id (rc_lru c)) c
  | None => c
  end.

Definition promote_hits (hits : list Z) (c : ReadCache) : ReadCache := foldl promote_hit c hits.

(** ** Facts about the parts *)

(** *** The least-recently-used list *)

Section lru.
Implicit Types (order : list Z) (id : Z).

Lemma lru_remove_cons id x order :
  (lru_remove id (x :: order)).2 = if decide (id = x) then order else x :: (lru_remove id order).2.
Proof.
  unfold lru_remove, lru_position. cbn [list_find]. destruct (decide (id = x)) as [->|Hne]; cbn; [done|].
  destruct (list_find (eq id) order) as [[i y]|]; done.
Qed.

Lemma lru_remove_filter id order : NoDup order → (lru_remove id order).2 = filter (λ x, x ≠ id) order.
Proof.
  induction 1 as [|x order Hx Hnd IH]; [done|]. rewrite lru_remove_cons.
  destruct (decide (id = x)) as [->|Hne].
  - rewrite filter_cons_False by naive_solver. symmetry. apply filter_every. intros y Hy ->. done.
  - rewrite filter_cons_True by congruence. by rewrite IH.
Qed.

Lemma lru_place_perm placement id order : lru_place placement id order ≡ₚ id :: order.
Proof. destruct placement; cbn; [done|]. unfold lru_push_back. by rewrite Permutation_app_comm. Qed.

Lemma lru_insert_at_perm position id order : lru_insert_at position id order ≡ₚ id :: order.
Proof.
  unfold lru_insert_at. rewrite <-Permutation_middle. by rewrite take_drop.
Qed.

Lemma lru_promote_perm id order : NoDup order → id ∈ order → lru_promote id order ≡ₚ order.
Proof.
  unfold lru_promote, lru_remove, lru_position. intros Hnd Hin.
  destruct (list_find (eq id) order) as [[i y]|] eqn:Hf; cbn.
  - apply list_find_Some in Hf as (Hy & <- & _). unfold lru_push_front.
    by rewrite <-delete_Permutation.
  - apply list_find_None in Hf. rewrite Forall_forall in Hf. by destruct (Hf id Hin).
Qed.
End lru.

(** *** Cache blocks *)

Lemma CACHE_BLOCK_pos : 0 < CACHE_BLOCK_BYTES.
Proof. unfold CACHE_BLOCK_BYTES. lia. Qed.

Lemma cache_block_start_eq offset :
  is_u64 offset → cache_block_start offset = offset / CACHE_BLOCK_BYTES * CACHE_BLOCK_BYTES.
Proof.
  intros Ho. unfold cache_block_start. apply u64_mul_id. unfold is_u64, CACHE_BLOCK_BYTES in *. dlia.
Qed.

(** [start, end_) lies in the block [b] and the block in the address space. *)
Definition in_block (b start end_ : Z) : Prop :=
  0 ≤ b ∧ b * CACHE_BLOCK_BYTES ≤ start ∧ end_ ≤ (b + 1) * CACHE_BLOCK_BYTES ∧
  (b + 1) * CACHE_BLOCK_BYTES ≤ u64_max.

Lemma in_block_start b start end_ :
  in_block b start end_ → start < end_ → cache_block_start start = b * CACHE_BLOCK_BYTES.
Proof.
  intros (Hb & Hs & He & Hu) Hlt. rewrite cache_block_start_eq by (unfold is_u64, CACHE_BLOCK_BYTES in *; lia).
  f_equal. unfold CACHE_BLOCK_BYTES in *. dlia.
Qed.

Lemma cache_block_end_eq b start end_ :
  in_block b start end_ → start < end_ → cache_block_end start = Ok ((b + 1) * CACHE_BLOCK_BYTES).
Proof.
  intros Hb Hlt. unfold cache_block_end. rewrite (in_block_start b start end_) by done.
  destruct Hb as (? & ? & ? & ?).
  rewrite u64_checked_add_id by lia. cbn. f_equal. lia.
Qed.

(** *** Payloads *)

Lemma payload_charged_eq p : payload_charged_bytes p = zlen (payload_data p).
Proof. by destruct p. Qed.

(** Copying from a payload succeeds inside its bounds and splices the bytes. *)
Lemma payload_copy_to_ok p offset len data dst :
  0 ≤ offset → 0 ≤ len → offset + len ≤ zlen (payload_data p) → zlen (payload_data p) ≤ u64_max →
  0 ≤ dst → dst + len ≤ zlen data →
  ∃ data', payload_copy_to p offset len data dst = Ok data' ∧ zlen data' = zlen data ∧
    ∀ i, zget data' i = if (dst <=? i) && (i <? dst + len)
                        then zget (payload_data p) (offset + (i - dst)) else zget data i.
Proof.
  intros Ho Hl Hsrc Hu Hd Hdst. unfold payload_copy_to.
  destruct (slice_exists data dst (zlen data)) as [r ->]; [lia|done|]. cbn [or_panic obind].
  rewrite !usize_try_from_id by lia. cbn [ok_or obind].
  rewrite u64_add_id by lia.
  destruct (slice_exists (payload_data p) offset (offset + len)) as [src Hs]; [lia|done|].
  pose proof (slice_length _ _ _ _ Hs) as Hsl.
  assert (match p with
          | PayloadBytes bytes => or_panic (E:=ServerError) (slice bytes offset (offset + len))
          | PayloadWalRecord record => or_panic (slice (rec_data record) offset (offset + len))
          end = Ok src) as ->.
  { destruct p; cbn in *; by rewrite Hs. }
  cbn [obind]. destruct (splice_exists data dst src) as [data' Hsp]; [done|lia|].
  exists data'. rewrite Hsp. split; [done|]. split; [by eapply splice_length|].
  intros i. rewrite (splice_get _ _ _ _ i Hsp). replace (zlen src) with len by lia.
  destruct (Z.leb_spec dst i), (Z.ltb_spec i (dst + len)); cbn; try done.
  rewrite (slice_get _ _ _ _ (i - dst) Hs) by lia. done.
Qed.

(** *** Connected sources *)

(** Closed intervals that have a point in common, the test of the loop. *)
Definition touches (s t : Z * Z) : Prop := s.1 ≤ t.2 ∧ t.1 ≤ s.2.

#[export] Instance touches_dec s t : Decision (touches s t).
Proof. unfold touches. apply _. Defined.

Definition span (s : ExistingSource) : Z * Z := (es_start s, es_end s).

(** The reference: the sources joined to [start, end_] by a chain of touching intervals. *)
Inductive linked (start end_ : Z) (sources : list ExistingSource) : ExistingSource → Prop :=
| linked_new s : s ∈ sources → touches (span s) (start, end_) → linked start end_ sources s
| linked_step s t :
    linked start end_ sources s → t ∈ sources → touches (span t) (span s) → linked start end_ sources t.

Section connected.
Context (start end_ : Z) (Hse : start < end_).
Implicit Types (L sources : list ExistingSource) (flags : list bool).

(** [cs, ce) is the hull of the new range and of the sources [L], without a gap. *)
Record hull L (cs ce : Z) : Prop := {
  hull_new : cs ≤ start ∧ end_ ≤ ce;
  hull_all : ∀ s, s ∈ L → cs ≤ es_start s < es_end s ∧ es_end s ≤ ce;
  hull_start : cs = start ∨ ∃ s, s ∈ L ∧ es_start s = cs;
  hull_end : ce = end_ ∨ ∃ s, s ∈ L ∧ es_end s = ce;
  hull_cover : ∀ x, cs ≤ x < ce → start ≤ x < end_ ∨ ∃ s, s ∈ L ∧ es_start s ≤ x < es_end s;
}.

Lemma hull_nil : hull [] start end_.
Proof. split; try lia; [set_solver|auto..]. Qed.

Lemma hull_add L L' s cs ce :
  hull L cs ce → es_start s < es_end s → touches (span s) (cs, ce) →
  (∀ t, t ∈ L' ↔ t = s ∨ t ∈ L) →
  hull L' (Z.min cs (es_start s)) (Z.max ce (es_end s)).
Proof.
  intros [Hn Ha Hs He Hc] Hne [Ht1 Ht2] HL. cbn in Ht1, Ht2. split.
  - lia.
  - intros t [->|Ht]%HL; [lia|]. specialize (Ha t Ht). lia.
  - destruct (Z.le_gt_cases cs (es_start s)).
    + rewrite Z.min_l by lia. destruct Hs as [|(t & Ht & ?)]; [auto|]. right. exists t. set_solver.
    + right. exists s. rewrite HL. split; [by left|lia].
  - destruct (Z.le_gt_cases (es_end s) ce).
    + rewrite Z.max_l by lia. destruct He as [|(t & Ht & ?)]; [auto|]. right. exists t. set_solver.
    + right. exists s. rewrite HL. split; [by left|lia].
  - intros x Hx. destruct (decide (es_start s ≤ x < es_end s)) as [Hin|Hout].
    + right. exists s. set_solver.
    + destruct (Hc x) as [?|(t & Ht & ?)]; [lia|auto|]. right. exists t. set_solver.
Qed.

(** A source that touches the hull touches the new range or a source of it. *)
Lemma hull_touch L s cs ce :
  hull L cs ce → es_start s < es_end s → touches (span s) (cs, ce) →
  touches (span s) (start, end_) ∨ ∃ t, t ∈ L ∧ touches (span s) (span t).
Proof.
  intros [Hn Ha Hs He Hc] Hne [Ht1 Ht2]. unfold touches, span in *. cbn in *.
  destruct (decide (es_start s = ce)) as [Heq|?].
  { destruct He as [He|(t & Ht & He)]; [left; lia|]. right. exists t. specialize (Ha t Ht).
    split; [done|]. lia. }
  destruct (Hc (Z.max (es_start s) cs)) as [?|(t & Ht & ?)]; [lia|left; lia|].
  right. exists t. split; [done|]. lia.
Qed.

Definition flags_for sources flags : Prop := length flags = length sources.

Definition unselected flags : nat := length (filter (λ b, b = false) flags).

Lemma unselected_cons (b : bool) flags :
  unselected (b :: flags) = ((if b then 0 else 1) + unselected flags)%nat.
Proof. by destruct b. Qed.

Lemma select_flagged_cons (s : ExistingSource) (b : bool) sources flags :
  select_flagged (s :: sources) (b :: flags) =
  (if b then [s] else []) ++ select_flagged sources flags.
Proof. unfold select_flagged. cbn. by destruct b. Qed.

(** One pass: it keeps the hull, only adds sources linked to it, and says whether it did. *)
Lemma connect_pass_spec sources flags L cs ce ch :
  flags_for sources flags → Forall (λ s, es_start s < es_end s) sources →
  hull (L ++ select_flagged sources flags) cs ce →
  let '(flags', cs', ce', ch') := connect_pass sources flags cs ce ch in
  flags_for sources flags' ∧ hull (L ++ select_flagged sources flags') cs' ce' ∧
  (∀ (P : ExistingSource → Prop),
     (∀ s, s ∈ L ++ select_flagged sources flags → P s) →
     (∀ s, s ∈ sources → touches (span s) (start, end_) → P s) →
     (∀ s t, P t → s ∈ sources → touches (span s) (span t) → P s) →
     ∀ s, s ∈ select_flagged sources flags' → P s) ∧
  (unselected flags' ≤ unselected flags)%nat ∧
  (ch' = true → ch = true ∨ (unselected flags' < unselected flags)%nat) ∧
  (ch' = false → ch = false ∧ flags' = flags ∧ cs' = cs ∧ ce' = ce ∧
     ∀ s, s ∈ sources → touches (span s) (cs, ce) → s ∈ select_flagged sources flags).
Proof.
  revert flags L cs ce ch. induction sources as [|s sources IH]; intros [|b flags] L cs ce ch Hf Hne Hh;
    try done; cbn [connect_pass].
  { repeat (split; [solve [auto|set_solver]|]). set_solver. }
  injection Hf as Hf. apply Forall_cons in Hne as [Hs Hne]. destruct b.
  - rewrite select_flagged_cons in Hh. cbn [app] in Hh.
    specialize (IH flags (L ++ [s]) cs ce ch Hf Hne). rewrite <-app_assoc in IH. specialize (IH Hh).
    destruct (connect_pass sources flags cs ce ch) as [[[flags' cs'] ce'] ch'].
    destruct IH as (Hf' & Hh' & HP & Hle & Ht & Hfa). rewrite <-app_assoc in Hh'.
    rewrite !select_flagged_cons. cbn [app]. split_and!.
    + unfold flags_for in *. cbn. by rewrite Hf'.
    + done.
    + intros P HL Hn Hst x [->|Hx]%elem_of_cons; [apply HL; set_solver|].
      apply HP; [|set_solver..|done]. intros y Hy. apply HL. set_solver.
    + done.
    + done.
    + intros Hch. destruct (Hfa Hch) as (? & -> & -> & -> & Hcl). split_and!; try done.
      intros t [->|Ht']%elem_of_cons Htt; set_solver.
  - rewrite select_flagged_cons in Hh. cbn [app] in Hh.
    destruct ((es_start s <=? ce) && (cs <=? es_end s)) eqn:Htest.
    + assert (touches (span s) (cs, ce)) as Htouch by (unfold touches, span; cbn; case_bool; lia).
      specialize (IH flags (L ++ [s]) (Z.min cs (es_start s)) (Z.max ce (es_end s)) true Hf Hne).
      assert (hull ((L ++ [s]) ++ select_flagged sources flags) (Z.min cs (es_start s)) (Z.max ce (es_end s)))
        as Hh2 by (eapply hull_add; [done|done|done|set_solver]).
      specialize (IH Hh2).
      destruct (connect_pass sources flags _ _ true) as [[[flags' cs'] ce'] ch'].
      destruct IH as (Hf' & Hh' & HP & Hle & Ht & Hfa). rewrite <-app_assoc in Hh'.
      rewrite !select_flagged_cons. cbn [app]. split_and!.
      * unfold flags_for in *. cbn. by rewrite Hf'.
      * done.
      * intros P HL Hn Hst.
        assert (P s) as HPs.
        { destruct (hull_touch _ _ _ _ Hh Hs Htouch) as [?|(t & Ht' & ?)]; [set_solver|].
          eapply Hst; [by apply HL|set_solver|done]. }
        intros x [->|Hx]%elem_of_cons; [done|]. apply HP; [|set_solver..|done].
        intros y Hy. rewrite !elem_of_app in Hy. destruct Hy as [[Hy| ->%list_elem_of_singleton]|Hy]; set_solver.
      * rewrite !unselected_cons. lia.
      * intros _. right. rewrite !unselected_cons. lia.
      * intros Hch. by destruct (Hfa Hch) as [? _].
    + specialize (IH flags L cs ce ch Hf Hne Hh).
      destruct (connect_pass sources flags cs ce ch) as [[[flags' cs'] ce'] ch'].
      destruct IH as (Hf' & Hh' & HP & Hle & Ht & Hfa).
      rewrite !select_flagged_cons. cbn [app]. split_and!.
      * unfold flags_for in *. cbn. by rewrite Hf'.
      * done.
      * intros P HL Hn Hst. apply HP; set_solver.
      * rewrite !unselected_cons. lia.
      * intros Hch. destruct (Ht Hch); [by left|]. right.
        rewrite !unselected_cons. lia.
      * intros Hch. destruct (Hfa Hch) as (? & -> & -> & -> & Hcl). split_and!; try done.
        intros t [->|Ht']%elem_of_cons Htt; [|by apply Hcl].
        exfalso. unfold touches, span in Htt. cbn in Htt. case_bool; try done; lia.
Qed.
Lemma connect_loop_spec fuel sources flags cs ce :
  flags_for sources flags → Forall (λ s, es_start s < es_end s) sources →
  hull (select_flagged sources flags) cs ce → (unselected flags < fuel)%nat →
  (∀ s, s ∈ select_flagged sources flags → linked start end_ sources s) →
  ∃ cs' ce',
    let L := select_flagged sources (connect_loop fuel sources flags cs ce) in
    hull L cs' ce' ∧ (∀ s, s ∈ sources → touches (span s) (cs', ce') → s ∈ L) ∧
    (∀ s, s ∈ L → linked start end_ sources s).
Proof.
  revert flags cs ce. induction fuel as [|fuel IH]; intros flags cs ce Hf Hne Hh Hfuel Hl; [lia|].
  cbn [connect_loop]. pose proof (connect_pass_spec sources flags [] cs ce false Hf Hne Hh) as Hp.
  destruct (connect_pass sources flags cs ce false) as [[[flags' cs'] ce'] ch'].
  destruct Hp as (Hf' & Hh' & HP & Hle & Ht & Hfa). cbn [app] in *.
  assert (∀ s, s ∈ select_flagged sources flags' → linked start end_ sources s) as Hl'.
  { apply HP; [done|by constructor 1|by intros s t; econstructor 2]. }
  destruct ch'.
  - destruct (Ht eq_refl) as [|Hlt]; [done|]. apply IH; [done..|lia|done].
  - destruct (Hfa eq_refl) as (_ & -> & -> & -> & Hcl). exists cs, ce. done.
Qed.

Lemma select_flagged_none sources :
  select_flagged sources (replicate (length sources) false) = [].
Proof. induction sources as [|s sources IH]; [done|]. cbn [length replicate]. by rewrite select_flagged_cons. Qed.

Lemma select_flagged_sublist sources flags : sublist (select_flagged sources flags) sources.
Proof.
  revert flags. induction sources as [|s sources IH]; intros [|b flags]; try apply sublist_nil_l.
  rewrite select_flagged_cons. destruct b; cbn [app]; constructor; apply IH.
Qed.

Lemma unselected_replicate n : unselected (replicate n false) = n.
Proof. induction n as [|n IH]; [done|]. cbn [replicate]. rewrite unselected_cons. lia. Qed.

Lemma connected_sources_spec sources :
  Forall (λ s, es_start s < es_end s) sources →
  let L := connected_sources start end_ sources in
  ∃ cs ce, hull L cs ce ∧ (∀ s, s ∈ sources → touches (span s) (cs, ce) → s ∈ L) ∧
    (∀ s, s ∈ L → linked start end_ sources s) ∧ sublist L sources.
Proof.
  intros Hne. unfold connected_sources.
  destruct (connect_loop_spec (S (length sources)) sources (replicate (length sources) false) start end_)
    as (cs & ce & Hh & Hc & Hl).
  - apply length_replicate.
  - done.
  - rewrite select_flagged_none. apply hull_nil.
  - rewrite unselected_replicate. lia.
  - rewrite select_flagged_none. set_solver.
  - exists cs, ce. split_and!; try done. apply select_flagged_sublist.
Qed.

Lemma foldr_min_spec l x :
  (foldr Z.min x l ≤ x ∧ ∀ y, y ∈ l → foldr Z.min x l ≤ y) ∧ (foldr Z.min x l = x ∨ foldr Z.min x l ∈ l).
Proof.
  induction l as [|z l [[Hx Hl] Hm]]; cbn; [split; [split; [lia|set_solver]|by left]|]. split; [split|].
  - lia.
  - intros y [->|Hy]%elem_of_cons; [lia|]. specialize (Hl y Hy). lia.
  - destruct (Z.min_spec z (foldr Z.min x l)) as [[_ ->]|[_ ->]]; [right; set_solver|].
    destruct Hm; [by left|right; set_solver].
Qed.

Lemma foldr_max_spec l x :
  (x ≤ foldr Z.max x l ∧ ∀ y, y ∈ l → y ≤ foldr Z.max x l) ∧ (foldr Z.max x l = x ∨ foldr Z.max x l ∈ l).
Proof.
  induction l as [|z l [[Hx Hl] Hm]]; cbn; [split; [split; [lia|set_solver]|by left]|]. split; [split|].
  - lia.
  - intros y [->|Hy]%elem_of_cons; [lia|]. specialize (Hl y Hy). lia.
  - destruct (Z.max_spec z (foldr Z.max x l)) as [[_ ->]|[_ ->]]; [|right; set_solver].
    destruct Hm; [by left|right; set_solver].
Qed.

(** The hull has the component bounds the callers compute. *)
Lemma hull_component L cs ce :
  hull L cs ce → component_start_of start L = cs ∧ component_end_of end_ L = ce.
Proof.
  intros [Hn Ha Hs He _]. unfold component_start_of, component_end_of.
  destruct (foldr_min_spec (es_start <$> L) start) as [[Hm1 Hm2] Hm3].
  destruct (foldr_max_spec (es_end <$> L) end_) as [[Hx1 Hx2] Hx3]. split.
  - apply Z.le_antisymm.
    + destruct Hs as [->|(s & Hs & <-)]; [done|]. apply Hm2. apply list_elem_of_fmap. eauto.
    + destruct Hm3 as [->|(s & -> & Hin)%list_elem_of_fmap]; [lia|]. specialize (Ha s Hin). lia.
  - apply Z.le_antisymm.
    + destruct Hx3 as [->|(s & -> & Hin)%list_elem_of_fmap]; [lia|]. specialize (Ha s Hin). lia.
    + destruct He as [->|(s & Hs' & <-)]; [done|]. apply Hx2. apply list_elem_of_fmap. eauto.
Qed.
End connected.

(** *** Coverage *)

Lemma insert_span_elem s l t : t ∈ insert_span s l ↔ t = s ∨ t ∈ l.
Proof. induction l as [|s' l IH]; cbn; [set_solver|]. destruct (s.1 <=? s'.1); set_solver. Qed.

Lemma insert_span_sorted s l :
  StronglySorted (λ a b, a.1 ≤ b.1) l → StronglySorted (λ a b, a.1 ≤ b.1) (insert_span s l).
Proof.
  induction 1 as [|s' l Hs IH Hall]; cbn; [repeat constructor|].
  rewrite Forall_forall in Hall. destruct (Z.leb_spec s.1 s'.1).
  - constructor; [constructor; [done|by apply Forall_forall]|]. apply Forall_cons. split; [done|].
    apply Forall_forall. intros t Ht. specialize (Hall t Ht). lia.
  - constructor; [done|]. apply Forall_forall. intros t [->|Ht]%insert_span_elem; [lia|by apply Hall].
Qed.

Lemma sort_spans_elem l t : t ∈ sort_spans l ↔ t ∈ l.
Proof. unfold sort_spans. induction l as [|s l IH]; cbn; [done|]. rewrite insert_span_elem, IH. set_solver. Qed.

Lemma sort_spans_sorted l : StronglySorted (λ a b, a.1 ≤ b.1) (sort_spans l).
Proof. unfold sort_spans. induction l as [|s l IH]; cbn; [constructor|by apply insert_span_sorted]. Qed.

Lemma coverage_loop_ok covered e spans :
  StronglySorted (λ a b, a.1 ≤ b.1) spans → covered ≤ e →
  (∀ t, t ∈ spans → t.2 ≤ e) →
  (∀ x, covered ≤ x < e → ∃ t, t ∈ spans ∧ t.1 ≤ x < t.2) →
  coverage_loop covered spans = Ok e.
Proof.
  intros Hs. revert covered. induction Hs as [|[s t] spans Hs IH Hall]; intros covered Hle He Hc.
  { cbn. destruct (Z.eq_dec covered e) as [->|?]; [done|].
    destruct (Hc covered) as (t & Ht & _); [lia|]. by apply not_elem_of_nil in Ht. }
  cbn [coverage_loop]. destruct (Z.leb_spec t covered) as [Hlt|Hgt].
  - apply IH; [done|set_solver|]. intros x Hx. destruct (Hc x Hx) as (u & [->|Hu]%elem_of_cons & Hux).
    + cbn in Hux. lia.
    + eauto.
  - specialize (He (s, t)) as Het. cbn in Het. specialize (Het ltac:(set_solver)).
    destruct (Z.ltb_spec covered s) as [Hcs|Hcs].
    + exfalso. destruct (Hc covered) as (u & [->|Hu]%elem_of_cons & Hux); [lia|cbn in Hux; lia|].
      rewrite Forall_forall in Hall. specialize (Hall u Hu). cbn in Hall. lia.
    + rewrite Z.max_r by lia. apply IH; [lia|set_solver|].
      intros x Hx. destruct (Hc x) as (u & [->|Hu]%elem_of_cons & Hux); [lia|cbn in Hux; lia|]. eauto.
Qed.

Lemma validate_coverage_ok start end_ spans :
  start ≤ end_ → (∀ t, t ∈ spans → t.2 ≤ end_) →
  (∀ x, start ≤ x < end_ → ∃ t, t ∈ spans ∧ t.1 ≤ x < t.2) →
  validate_coverage start end_ spans = Ok tt.
Proof.
  intros Hle He Hc. unfold validate_coverage.
  rewrite (coverage_loop_ok start end_); [by cbn [obind]; rewrite Z.eqb_refl|apply sort_spans_sorted|done|..].
  - intros t. rewrite sort_spans_elem. apply He.
  - intros x Hx. destruct (Hc x Hx) as (t & Ht & ?). exists t. by rewrite sort_spans_elem.
Qed.

(** *** Materializing a component *)

Section materialize.
Context (f : Z → option byte).

(** The source holds the bytes that [f] says. *)
Definition source_ok (s : ExistingSource) : Prop :=
  0 ≤ es_start s < es_end s ∧ es_end s ≤ u64_max ∧ 0 ≤ es_object_offset s ∧
  es_object_offset s + (es_end s - es_start s) ≤ zlen (payload_data (es_payload s)) ∧
  zlen (payload_data (es_payload s)) ≤ u64_max ∧
  ∀ x, es_start s ≤ x < es_end s →
    zget (payload_data (es_payload s)) (es_object_offset s + (x - es_start s)) = f x.

Lemma copy_sources_ok cs ce L merged :
  0 ≤ cs → ce ≤ u64_max → zlen merged = ce - cs →
  (∀ s, s ∈ L → source_ok s ∧ cs ≤ es_start s ∧ es_end s ≤ ce) →
  ∃ merged', copy_sources cs L merged = Ok merged' ∧ zlen merged' = ce - cs ∧
    ∀ x, cs ≤ x < ce →
      zget merged' (x - cs) =
        if bool_decide (Exists (λ s, es_start s ≤ x < es_end s) L) then f x else zget merged (x - cs).
Proof.
  intros Hcs Hce. revert merged. induction L as [|s L IH]; intros merged Hlen HL.
  { exists merged. split; [done|]. split; [done|]. intros x Hx. rewrite bool_decide_false; [done|].
    by intros ?%Exists_nil. }
  destruct (HL s ltac:(set_solver)) as [(H1 & H2 & H3 & H4 & H5 & H6) [H7 H8]].
  cbn [copy_sources]. unfold copy_source. rewrite !u64_sub_id by lia.
  rewrite usize_try_from_id by lia. cbn [ok_or obind].
  destruct (payload_copy_to_ok (es_payload s) (es_object_offset s) (es_end s - es_start s) merged
    (es_start s - cs)) as (m1 & Hm1 & Hl1 & Hg1); [lia..|].
  rewrite Hm1. cbn [obind].
  destruct (IH m1) as (m2 & Hm2 & Hl2 & Hg2);
    [lia|intros t Ht; apply HL; by right|].
  exists m2. split; [done|]. split; [done|]. intros x Hx. rewrite Hg2 by done.
  rewrite (bool_decide_ext (Exists _ (s :: L)) (es_start s ≤ x < es_end s ∨ Exists (λ s, es_start s ≤ x < es_end s) L))
    by apply Exists_cons.
  case_bool_decide as Hin; [by rewrite bool_decide_true by auto|]. rewrite Hg1.
  destruct (decide (es_start s ≤ x < es_end s)) as [Hxs|Hxs].
  - rewrite bool_decide_true by auto. decide_cmp. rewrite <-H6 by done. f_equal. lia.
  - rewrite bool_decide_false by naive_solver.
    destruct (Z.leb_spec (es_start s - cs) (x - cs)), (Z.ltb_spec (x - cs) (es_start s - cs + (es_end s - es_start s)));
      cbn; try done. lia.
Qed.

Lemma copy_range_ok cs ce start end_ offset bytes merged :
  0 ≤ cs ≤ start → start < end_ → end_ ≤ ce → ce ≤ u64_max → zlen merged = ce - cs →
  0 ≤ offset → offset + (end_ - start) ≤ zlen bytes → zlen bytes ≤ u64_max →
  ∃ merged', copy_range cs start end_ offset bytes merged = Ok merged' ∧ zlen merged' = ce - cs ∧
    ∀ x, cs ≤ x < ce →
      zget merged' (x - cs) =
        if (start <=? x) && (x <? end_) then zget bytes (offset + (x - start)) else zget merged (x - cs).
Proof.
  intros H1 H2 H3 H4 Hlen H5 H6 H7. unfold copy_range. rewrite !u64_sub_id by lia.
  rewrite !usize_try_from_id by lia. cbn [ok_or obind]. rewrite !u64_add_id by lia.
  destruct (slice_exists merged (start - cs) (start - cs + (end_ - start))) as [r ->]; [lia..|].
  destruct (slice_exists bytes offset (offset + (end_ - start))) as [src Hsrc]; [lia..|].
  rewrite Hsrc. cbn [or_panic obind]. pose proof (slice_length _ _ _ _ Hsrc) as Hl.
  destruct (splice_exists merged (start - cs) src) as [m' Hm']; [lia..|].
  exists m'. rewrite Hm'. split; [done|]. split; [by rewrite (splice_length _ _ _ _ Hm')|].
  intros x Hx. rewrite (splice_get _ _ _ _ (x - cs) Hm'). rewrite Hl.
  destruct (Z.leb_spec start x), (Z.ltb_spec x end_); cbn; try lia; decide_cmp; try done.
  rewrite (slice_get _ _ _ _ (x - cs - (start - cs)) Hsrc) by lia. f_equal. lia.
Qed.

(** What both materializations do, with the bytes copied last given by [bytes] at [offset]. *)
Definition merge_bytes (cs ce start end_ offset : Z) (bytes : list byte) (existing : list ExistingSource)
    : SResult (list byte) :=
  let? len := ok_or (usize_try_from (u64_sub ce cs)) (cache_error "merged cache object too large") in
  let? merged := copy_sources cs existing (zeros len) in
  let? merged := copy_range cs start end_ offset bytes merged in
  let coverage := source_spans existing ++ [(start, end_)] in
  let? _ := validate_coverage cs ce coverage in
  Ok merged.

Lemma materialize_ok cs ce start end_ offset bytes L :
  start < end_ → 0 ≤ cs → ce ≤ u64_max → hull start end_ L cs ce → (∀ s, s ∈ L → source_ok s) →
  0 ≤ offset → offset + (end_ - start) ≤ zlen bytes → zlen bytes ≤ u64_max →
  ∃ merged, merge_bytes cs ce start end_ offset bytes L = Ok merged ∧ zlen merged = ce - cs ∧
    ∀ x, cs ≤ x < ce →
      zget merged (x - cs) =
        if (start <=? x) && (x <? end_) then zget bytes (offset + (x - start)) else f x.
Proof.
  intros Hse Hcs Hce [Hn Ha Hs He Hc] HL Ho1 Ho2 Ho3. unfold merge_bytes.
  rewrite u64_sub_id by lia. rewrite usize_try_from_id by lia. cbn [ok_or obind].
  destruct (copy_sources_ok cs ce L (zeros (ce - cs)) Hcs Hce) as (m1 & -> & Hl1 & Hg1).
  { rewrite zeros_length; lia. }
  { intros s Hs'. specialize (Ha s Hs'). split; [by apply HL|lia]. }
  cbn [obind]. destruct (copy_range_ok cs ce start end_ offset bytes m1) as (m2 & -> & Hl2 & Hg2); [lia..|].
  cbn [obind]. rewrite validate_coverage_ok; [|lia|..].
  - exists m2. split; [done|]. split; [done|]. intros x Hx. rewrite Hg2 by done.
    destruct ((start <=? x) && (x <? end_)) eqn:Hnew; [done|]. rewrite Hg1 by done.
    rewrite bool_decide_true; [done|]. apply Exists_exists. apply andb_false_iff in Hnew.
    destruct (Hc x Hx) as [?|(s & ? & ?)]; [|eauto]. rewrite Z.leb_gt, Z.ltb_ge in Hnew. lia.
  - intros t [Ht| ->%list_elem_of_singleton]%elem_of_app; [|cbn; lia].
    apply list_elem_of_fmap in Ht as (s & -> & Hs'). apply Ha in Hs'. cbn. lia.
  - intros x Hx. destruct (Hc x Hx) as [?|(s & Hs' & ?)].
    + exists (start, end_). split; [set_solver|done].
    + exists (es_start s, es_end s). split; [|done]. apply elem_of_app. left.
      apply list_elem_of_fmap. eauto.
Qed.
End materialize.

(** ** Theorem *)

(** C28: [connected_sources] is the reference definition of a component.  For a non-empty new
    range and non-empty sources it returns, in order, exactly the sources that a chain of
    touching intervals joins to the new range. *)
Theorem connected_sources_linked start end_ sources :
  start < end_ → Forall (λ s, es_start s < es_end s) sources →
  sublist (connected_sources start end_ sources) sources ∧
  ∀ t, t ∈ connected_sources start end_ sources ↔ linked start end_ sources t.
Proof.
  intros Hlt Hne. destruct (connected_sources_spec start end_ Hlt sources Hne) as (cs & ce & Hh & Hc & Hl & Hs).
  split; [done|]. intros t. split; [apply Hl|]. pose proof Hh as [Hn Ha _ _ _].
  rewrite Forall_forall in Hne. induction 1 as [s Hin [H1 H2]|s t _ IH Hin [H1 H2]]; cbn in *.
  - apply Hc; [done|]. unfold touches, span. cbn. specialize (Hne s Hin). lia.
  - apply Hc; [done|]. specialize (Ha s IH). specialize (Hne t Hin). unfold touches, span. cbn. lia.
Qed.

Lemma connected_sources_linked_witness :
  let source start end_ := mkSource start end_ 1 0 (PayloadBytes []) in
  linked 10 20 [source 0 4; source 4 10; source 20 30; source 31 40] (source 0 4) ∧
  ¬ linked 10 20 [source 0 4; source 4 10; source 20 30; source 31 40] (source 31 40).
Proof.
  intros source.
  destruct (connected_sources_linked 10 20 [source 0 4; source 4 10; source 20 30; source 31 40]) as [_ H].
  - reflexivity.
  - repeat constructor.
  - split.
    + apply H. vm_compute. constructor.
    + rewrite <-H. vm_compute. intros Hin.
      repeat (apply elem_of_cons in Hin as [Hin|Hin]; [discriminate Hin|]). by apply not_elem_of_nil in Hin.
Defined.
