(* ===== verification/ReadCacheCorrect.v ===== *)
(** * Correctness of the read cache

    The invariant of [ReadCache] and the theorems about its operations: inserted bytes are
    the bytes then cached, eviction keeps the hottest objects that fit the budget, trimming
    and reading are exact, and no operation panics or leaves the cache in a bad state. *)

From S2P Require Import Prelude BTree ControlPlane Server ExtentMap Wal Overlay ReadCache.

#[local] Open Scope string_scope.
#[local] Open Scope list_scope.
#[local] Open Scope Z_scope.

(** ** Invariant *)

Definition charged_sum (objects : btree CacheObject) : Z :=
  foldr (λ p acc, co_charged_bytes p.2 + acc) 0 objects.

Record object_ok (next : Z) (p : Z * CacheObject) : Prop := {
  ob_id : 0 < p.1 < next;
  ob_len : 0 < co_len p.2;
  ob_payload : zlen (payload_data (co_payload p.2)) = co_len p.2;
  ob_charged : co_charged_bytes p.2 = co_len p.2;
  ob_block : ∃ b, in_block b (co_logical_start p.2) (co_logical_start p.2 + co_len p.2);
}.

(** An extent lies inside its object, at the offset it says. *)
Definition cache_extent_ok (objects : btree CacheObject) (p : Z * Extent CacheExtent) : Prop :=
  ∃ o, bt_get (cx_object_id (ext_value p.2)) objects = Some o ∧ 0 ≤ cx_object_offset (ext_value p.2) ∧
    p.1 = co_logical_start o + cx_object_offset (ext_value p.2) ∧
    ext_end p.2 ≤ co_logical_start o + co_len o.

(** What holds between the steps of an operation. *)
Record cache_core (c : ReadCache) : Prop := {
  core_wf : em_wf (rc_extents c);
  core_sorted : bt_sorted (rc_objects c);
  core_extents : ∀ p, p ∈ rc_extents c → cache_extent_ok (rc_objects c) p;
  core_objects : ∀ p, p ∈ rc_objects c → object_ok (rc_next_object_id c) p;
  core_nodup : NoDup (rc_lru c);
  core_lru : ∀ id, id ∈ rc_lru c ↔ id ∈ (rc_objects c).*1;
  core_charged : rc_charged_bytes c = charged_sum (rc_objects c);
  core_fits : rc_charged_bytes c ≤ u64_max;
  core_next : 0 < rc_next_object_id c ≤ u64_max;
}.

(** The starts recorded in an object are those of its extents. *)
Definition backrefs_ok (extents : btree (Extent CacheExtent)) (p : Z * CacheObject) : Prop :=
  bt_sorted (co_extent_starts p.2) ∧
  ∀ s, s ∈ (co_extent_starts p.2).*1 ↔ ∃ x, (s, x) ∈ extents ∧ cx_object_id (ext_value x) = p.1.

(** The invariant of the cache between operations. *)
Record cache_inv (c : ReadCache) : Prop := {
  inv_core : cache_core c;
  inv_backrefs : ∀ p, p ∈ rc_objects c → backrefs_ok (rc_extents c) p ∧ co_extent_starts p.2 ≠ [];
}.

(** Where a position is kept, and the byte there. *)
Definition location (x : CacheExtent) (k : Z) : Z * Z := (cx_object_id x, cx_object_offset x + k).

Definition object_byte (objects : btree CacheObject) (l : Z * Z) : option byte :=
  match bt_get l.1 objects with
  | Some o => zget (payload_data (co_payload o)) l.2
  | None => None
  end.

Definition cached (c : ReadCache) (i : Z) : option byte :=
  match contents location (rc_extents c) i with
  | Some l => object_byte (rc_objects c) l
  | None => None
  end.

(** *** Objects, charges and the list *)

Section store.
Implicit Types (m : btree CacheObject) (c : ReadCache) (id : Z).

Record store_ok (c : ReadCache) : Prop := {
  st_sorted : bt_sorted (rc_objects c);
  st_nodup : NoDup (rc_lru c);
  st_lru : ∀ id, id ∈ rc_lru c ↔ id ∈ (rc_objects c).*1;
  st_charged : rc_charged_bytes c = charged_sum (rc_objects c);
  st_fits : rc_charged_bytes c ≤ u64_max;
  st_nonneg : ∀ p, p ∈ rc_objects c → 0 ≤ co_charged_bytes p.2;
}.

Lemma core_store c : cache_core c → store_ok c.
Proof.
  intros [? ? ? Hob ? ? ? ?]. split; try done. intros p Hp. destruct (Hob p Hp). lia.
Qed.

Lemma charged_sum_cons p m : charged_sum (p :: m) = co_charged_bytes p.2 + charged_sum m.
Proof. done. Qed.

Lemma charged_sum_filter m (P : Z * CacheObject → Prop) `{!∀ p, Decision (P p)} :
  (∀ p, p ∈ m → 0 ≤ co_charged_bytes p.2) → 0 ≤ charged_sum (filter P m) ≤ charged_sum m.
Proof.
  induction m as [|p m IH]; intros Hm; [done|].
  pose proof (Hm p ltac:(set_solver)). specialize (IH ltac:(set_solver)).
  destruct (decide (P p)); [rewrite filter_cons_True by done|rewrite filter_cons_False by done];
    rewrite ?charged_sum_cons; lia.
Qed.

Lemma charged_sum_remove m id o :
  bt_sorted m → bt_get id m = Some o → charged_sum (bt_remove id m) = charged_sum m - co_charged_bytes o.
Proof.
  unfold bt_remove. induction m as [|[k v] m IH]; [done|]. rewrite bt_sorted_cons. intros [Hlt Hs].
  cbn [bt_get]. destruct (Z.eqb_spec id k) as [->|Hne].
  - intros [= ->]. rewrite filter_cons_False by naive_solver. rewrite charged_sum_cons, filter_every; [cbn; lia|].
    intros p Hp. specialize (Hlt p Hp). lia.
  - intros Hg. rewrite filter_cons_True by (cbn; congruence).
    rewrite !charged_sum_cons, IH by done. lia.
Qed.

Lemma charged_sum_insert m id o :
  bt_get id m = None → charged_sum (bt_insert id o m) = co_charged_bytes o + charged_sum m.
Proof.
  induction m as [|[k v] m IH]; [done|]. cbn [bt_get bt_insert].
  destruct (Z.eqb_spec id k) as [->|Hne]; [done|]. intros Hg.
  destruct (id <? k); [done|]. rewrite !charged_sum_cons, IH by done. lia.
Qed.

Lemma bt_remove_absent m id : bt_get id m = None → bt_remove id m = m.
Proof. intros Hn. apply filter_every. by apply bt_get_None. Qed.

Lemma remove_object_eq id c :
  store_ok c →
  remove_object id c =
    mkCache (rc_extents c) (bt_remove id (rc_objects c)) (filter (λ x, x ≠ id) (rc_lru c))
      (rc_max_bytes c) (charged_sum (bt_remove id (rc_objects c))) (rc_next_object_id c).
Proof.
  intros [Hs Hnd Hl Hc Hf Hnn]. unfold remove_object. destruct (bt_get id (rc_objects c)) as [o|] eqn:Hg.
  - unfold with_lru, with_charged, with_objects. cbn. rewrite lru_remove_filter by done.
    rewrite (charged_sum_remove _ id o) by done. rewrite u64_sub_id; [by rewrite Hc|].
    pose proof (charged_sum_remove _ id o Hs Hg) as Hr.
    pose proof (charged_sum_filter (rc_objects c) (λ p, p.1 ≠ id) Hnn) as Hle. unfold bt_remove in Hr.
    rewrite Hr in Hle. apply bt_get_elem in Hg; [|done]. specialize (Hnn _ Hg). cbn in Hnn. lia.
  - rewrite bt_remove_absent by done. unfold with_lru. rewrite lru_remove_filter by done. by rewrite Hc.
Qed.

Lemma remove_object_store id c : store_ok c → store_ok (remove_object id c).
Proof.
  intros Hst. rewrite remove_object_eq by done. destruct Hst as [Hs Hnd Hl Hc Hf Hnn]. split; cbn.
  - by apply bt_remove_sorted.
  - by apply NoDup_filter.
  - intros x. rewrite list_elem_of_filter, Hl, !list_elem_of_fmap. setoid_rewrite bt_remove_elem. naive_solver.
  - done.
  - pose proof (charged_sum_filter (rc_objects c) (λ p, p.1 ≠ id) Hnn). unfold bt_remove. lia.
  - intros p [Hp _]%bt_remove_elem. by apply Hnn.
Qed.

Lemma remove_objects_eq ids c :
  store_ok c →
  foldl (λ c id, remove_object id c) c ids =
    mkCache (rc_extents c) (filter (λ p, p.1 ∉ ids) (rc_objects c)) (filter (λ x, x ∉ ids) (rc_lru c))
      (rc_max_bytes c) (charged_sum (filter (λ p, p.1 ∉ ids) (rc_objects c))) (rc_next_object_id c).
Proof.
  revert c. induction ids as [|id ids IH]; intros c Hst; cbn [foldl].
  { pose proof Hst as [_ _ _ Hc _ _]. rewrite !filter_every by set_solver. rewrite <-Hc. by destruct c. }
  rewrite IH by by apply remove_object_store. rewrite remove_object_eq by done. cbn. unfold bt_remove.
  rewrite !list_filter_filter.
  assert (∀ A (g : A → Z) (l : list A),
    filter (λ x, (g x ∉ ids) ∧ g x ≠ id) l = filter (λ x, g x ∉ (id :: ids)) l) as Heq.
  { intros A g l. apply list_filter_iff. intros x. rewrite not_elem_of_cons. tauto. }
  rewrite (Heq _ fst), (Heq _ (λ x, x)). done.
Qed.
End store.

(** *** Rebuilding the back references *)

Section rebuild.
Implicit Types (m : btree CacheObject) (c : ReadCache) (es : list (ExtentEntry CacheExtent)).

Definition set_starts (starts : btree unit) (o : CacheObject) : CacheObject :=
  mkCacheObject (co_logical_start o) (co_len o) (co_payload o) starts (co_charged_bytes o).

(** The starts of the extents of the object [id], added to [starts]. *)
Definition collect_starts (id : Z) es (starts : btree unit) : btree unit :=
  foldl (λ acc e, if id =? cx_object_id (ee_value e) then bt_insert (ee_start e) tt acc else acc) starts es.

Lemma fold_update_starts es m :
  bt_sorted m →
  foldl (λ objects e, bt_update (add_start (ee_start e)) (cx_object_id (ee_value e)) objects) m es =
  (λ p, (p.1, set_starts (collect_starts p.1 es (co_extent_starts p.2)) p.2)) <$> m.
Proof.
  revert m. induction es as [|e es IH]; intros m Hs; cbn [foldl].
  { rewrite <-(list_fmap_id m) at 1. apply list_fmap_ext. intros i [k []] _. done. }
  rewrite bt_update_fmap by done. rewrite IH.
  - rewrite <-list_fmap_compose. apply list_fmap_ext. intros i [k o] _. cbn.
    unfold collect_starts. cbn. by destruct (k =? cx_object_id (ee_value e)).
  - unfold bt_sorted. rewrite <-list_fmap_compose. rewrite (list_fmap_ext _ fst); [done|].
    intros i [k o] _. cbn. by destruct (k =? cx_object_id (ee_value e)).
Qed.

Lemma collect_starts_spec id es starts :
  bt_sorted starts →
  bt_sorted (collect_starts id es starts) ∧
  ∀ s, s ∈ (collect_starts id es starts).*1 ↔
    s ∈ starts.*1 ∨ ∃ e, e ∈ es ∧ ee_start e = s ∧ cx_object_id (ee_value e) = id.
Proof.
  revert starts. induction es as [|e es IH]; intros starts Hs; cbn [collect_starts foldl]; [set_solver|].
  fold (collect_starts id es).
  destruct (Z.eqb_spec id (cx_object_id (ee_value e))) as [Heq|Hne].
  - destruct (IH (bt_insert (ee_start e) tt starts)) as [Hso Hin]; [by apply bt_insert_sorted|].
    split; [done|]. intros s. unfold collect_starts in Hin. rewrite Hin, !list_elem_of_fmap.
    setoid_rewrite (bt_insert_elem starts (ee_start e) tt _ Hs). split.
    + intros [([k []] & -> & [Hk|[Hk _]])|(e' & He' & ?)].
      * right. exists e. split; [by left|]. by injection Hk as ->.
      * left. eauto.
      * right. exists e'. split; [by right|done].
    + intros [([k []] & -> & Hk)|(e' & [->|He']%elem_of_cons & <- & Hid)].
      * left. destruct (decide (k = ee_start e)) as [->|?]; [exists (ee_start e, tt); auto|].
        exists (k, tt). split; [done|]. right. done.
      * left. exists (ee_start e, tt). auto.
      * right. eauto.
  - destruct (IH starts Hs) as [Hso Hin]. split; [done|]. intros s. unfold collect_starts in Hin.
    rewrite Hin. set_solver.
Qed.

(** The objects after the rebuilding loops. *)
Lemma rebuild_backrefs_eq c :
  bt_sorted (rc_objects c) →
  rebuild_backrefs c =
    (λ p, (p.1, set_starts (collect_starts p.1 (em_iter (rc_extents c)) []) p.2)) <$> rc_objects c.
Proof.
  intros Hs. unfold rebuild_backrefs. rewrite fold_update_starts by by apply bt_map_sorted.
  unfold bt_map. rewrite <-list_fmap_compose. done.
Qed.

(** Same objects, up to their starts. *)
Definition same_objects (m m' : btree CacheObject) : Prop :=
  ∀ id, set_starts [] <$> bt_get id m' = set_starts [] <$> bt_get id m.

Lemma rebuild_backrefs_spec c :
  bt_sorted (rc_objects c) →
  let m := rebuild_backrefs c in
  m.*1 = (rc_objects c).*1 ∧ bt_sorted m ∧ charged_sum m = charged_sum (rc_objects c) ∧
  same_objects (rc_objects c) m ∧
  (∀ p, p ∈ m → ∃ o, (p.1, o) ∈ rc_objects c ∧ p.2 = set_starts (co_extent_starts p.2) o) ∧
  ∀ p, p ∈ m → backrefs_ok (rc_extents c) p.
Proof.
  intros Hs m. unfold m. rewrite rebuild_backrefs_eq by done. clear m. split_and!.
  - rewrite <-list_fmap_compose. done.
  - unfold bt_sorted. rewrite <-list_fmap_compose. done.
  - induction (rc_objects c) as [|[k v] l IH]; [done|]. apply bt_sorted_cons in Hs as [_ Hs].
    rewrite fmap_cons, !charged_sum_cons, IH by done. done.
  - intros id. induction (rc_objects c) as [|[k o] l IH]; cbn; [done|].
    apply bt_sorted_cons in Hs as [_ Hs]. destruct (id =? k); [done|by apply IH].
  - intros p ([k o] & -> & Hp)%list_elem_of_fmap. exists o. done.
  - intros p ([k o] & -> & Hp)%list_elem_of_fmap. cbn.
    destruct (collect_starts_spec k (em_iter (rc_extents c)) [] bt_sorted_nil) as [Hso Hin].
    split; [done|]. cbn. intros s. rewrite Hin. setoid_rewrite em_iter_elem. split.
    + intros [?%not_elem_of_nil|(e & (s' & x & Hx & ->) & Hst & Hid)]; [done|]. cbn in *. subst s'. eauto.
    + intros (x & Hx & Hid). right. exists (extent_ref s x). eauto 6.
Qed.
End rebuild.

(** *** Garbage collection *)

Section gc.
Implicit Types (m : btree CacheObject) (c : ReadCache).

(** Extents and bytes depend on the objects they name, and not on the recorded starts. *)
Lemma cache_extent_ok_same m m' p :
  set_starts [] <$> bt_get (cx_object_id (ext_value p.2)) m' =
  set_starts [] <$> bt_get (cx_object_id (ext_value p.2)) m →
  cache_extent_ok m p → cache_extent_ok m' p.
Proof.
  intros Heq (o & Hg & Ho). rewrite Hg in Heq. cbn in Heq.
  destruct (bt_get _ m') as [o'|] eqn:Hg'; [|done]. cbn in Heq. injection Heq as Hl Hn _ _.
  exists o'. rewrite Hl, Hn. done.
Qed.

Lemma object_byte_same m m' (l : Z * Z) :
  set_starts [] <$> bt_get l.1 m' = set_starts [] <$> bt_get l.1 m →
  object_byte m' l = object_byte m l.
Proof.
  unfold object_byte. destruct (bt_get l.1 m) as [o|], (bt_get l.1 m') as [o'|]; cbn; try done.
  intros [= _ _ -> _]. done.
Qed.

(** Two caches with the same extents, whose objects agree on those the extents name. *)
Lemma cached_same c c' :
  em_wf (rc_extents c) → rc_extents c' = rc_extents c →
  (∀ p, p ∈ rc_extents c →
     set_starts [] <$> bt_get (cx_object_id (ext_value p.2)) (rc_objects c') =
     set_starts [] <$> bt_get (cx_object_id (ext_value p.2)) (rc_objects c)) →
  ∀ i, cached c' i = cached c i.
Proof.
  intros Hwf He Ho i. unfold cached, contents. rewrite He.
  destruct (em_find (rc_extents c) i) as [p|] eqn:Hf; cbn; [|done].
  apply em_find_Some in Hf as [Hp _]; [|done]. apply object_byte_same. by apply Ho.
Qed.

(** The objects without extents, and what is left when they are gone. *)
Lemma sweep_eq m :
  bt_sorted m →
  filter (λ p : Z * CacheObject, p.1 ∉ (filter (λ p, co_extent_starts p.2 = []) m).*1) m =
  filter (λ p : Z * CacheObject, co_extent_starts p.2 ≠ []) m.
Proof.
  intros Hs. apply bt_ext; [by apply bt_sorted_filter..|]. intros p. rewrite !list_elem_of_filter.
  split; intros [Hp Hin]; (split; [|done]).
  - intros He. apply Hp, list_elem_of_fmap. exists p. split; [done|]. by apply list_elem_of_filter.
  - intros (q & Hq & [He Hqin]%list_elem_of_filter)%list_elem_of_fmap.
    assert (p = q) as -> by by eapply bt_key_inj. done.
Qed.

(** Placing the inherited object only permutes the list. *)
Lemma inherit_perm iid position placement (order : list Z) :
  NoDup order → iid ∈ order →
  match position with
  | Some position => lru_insert_at position iid (lru_remove iid order).2
  | None => lru_place placement iid (lru_remove iid order).2
  end ≡ₚ order.
Proof.
  intros Hnd Hin.
  assert (iid :: (lru_remove iid order).2 ≡ₚ order) as Hp.
  { rewrite lru_remove_filter by done. apply NoDup_Permutation; [|done|].
    - constructor; [|by apply NoDup_filter]. rewrite list_elem_of_filter. naive_solver.
    - intros x. rewrite elem_of_cons, list_elem_of_filter. destruct (decide (x = iid)); naive_solver. }
  destruct position; [rewrite lru_insert_at_perm|rewrite lru_place_perm]; done.
Qed.

Lemma with_lru_core l c : cache_core c → l ≡ₚ rc_lru c → cache_core (with_lru l c).
Proof.
  intros [? ? ? ? ? Hl ? ? ?] Hp. split; cbn; try done; [by rewrite Hp|]. intros id. by rewrite Hp.
Qed.

Lemma with_lru_inv l c : cache_inv c → l ≡ₚ rc_lru c → cache_inv (with_lru l c).
Proof. intros [Hc Hb] Hp. split; [by apply with_lru_core|done]. Qed.

(** The rebuilt and swept cache. *)
Definition swept c : ReadCache :=
  let m := filter (λ p : Z * CacheObject, co_extent_starts p.2 ≠ []) (rebuild_backrefs c) in
  mkCache (rc_extents c) m (filter (λ x, x ∈ m.*1) (rc_lru c)) (rc_max_bytes c) (charged_sum m)
    (rc_next_object_id c).

Lemma sweep_step c :
  cache_core c →
  let c1 := with_objects (rebuild_backrefs c) c in
  foldl (λ c id, remove_object id c) c1
    (filter (λ p : Z * CacheObject, co_extent_starts p.2 = []) (rc_objects c1)).*1 = swept c.
Proof.
  intros Hcore c1. pose proof Hcore as [Hwf Hs Hx Ho Hnd Hl Hch Hfit Hnx].
  destruct (rebuild_backrefs_spec c Hs) as (Hk & Hs1 & Hsum & _ & Hob & _).
  rewrite remove_objects_eq.
  2: { split; subst c1; cbn [rc_objects rc_lru rc_charged_bytes with_objects];
       [done|done|intros id; by rewrite Hk|by rewrite Hsum|done|]. intros p Hp.
       destruct (Hob p Hp) as (o & Hino & ->). destruct (Ho _ Hino). cbn in *. lia. }
  subst c1. cbn [rc_extents rc_objects rc_lru rc_max_bytes rc_next_object_id with_objects].
  rewrite sweep_eq by done. unfold swept. f_equal.
  apply filter_ext_in. intros id Hid%Hl.
  rewrite <-Hk in Hid. apply list_elem_of_fmap in Hid as ([k o] & -> & Hin). cbn.
  rewrite !list_elem_of_fmap. setoid_rewrite list_elem_of_filter. split.
  - intros Hne. exists (k, o). split; [done|]. split; [|done]. intros He. apply Hne. exists (k, o). done.
  - intros (q & Hq & Hne & Hqin) (q' & Hq' & He & Hqin'). cbn in *.
    assert (q = q') as -> by (eapply bt_key_inj; eauto; congruence). done.
Qed.

Lemma swept_inv c :
  cache_core c →
  cache_inv (swept c) ∧ rc_charged_bytes (swept c) ≤ rc_charged_bytes c ∧
  ∀ i, cached (swept c) i = cached c i.
Proof.
  intros Hcore. pose proof Hcore as [Hwf Hs Hx Ho Hnd Hl Hch Hfit Hnx].
  destruct (rebuild_backrefs_spec c Hs) as (Hk & Hs1 & Hsum & Hsame & Hob & Hbr).
  set (m1 := rebuild_backrefs c) in *.
  set (m2 := filter (λ p : Z * CacheObject, co_extent_starts p.2 ≠ []) m1).
  assert (bt_sorted m2) as Hs2 by by apply bt_sorted_filter.
  assert (∀ p, p ∈ rc_extents c →
    set_starts [] <$> bt_get (cx_object_id (ext_value p.2)) m2 =
    set_starts [] <$> bt_get (cx_object_id (ext_value p.2)) (rc_objects c)) as Hget.
  { intros [s x] Hp. cbn. destruct (Hx _ Hp) as (o & Hg & _). cbn in Hg. specialize (Hsame (cx_object_id (ext_value x))).
    rewrite <-Hsame. destruct (bt_get (cx_object_id (ext_value x)) m1) as [o1|] eqn:Hg1;
      [|rewrite Hg in Hsame; done].
    assert (bt_get (cx_object_id (ext_value x)) m2 = Some o1) as ->; [|done].
    apply bt_get_filter; [done|]. split; [done|]. cbn. intros He.
    apply bt_get_elem in Hg1; [|done]. destruct (Hbr _ Hg1) as [_ Hst]. cbn in Hst. rewrite He in Hst.
    eapply not_elem_of_nil. apply Hst. eauto. }
  assert (∀ p, p ∈ rc_objects c → 0 ≤ co_charged_bytes p.2) as Hnn by (intros p Hp; destruct (Ho p Hp); lia).
  assert (∀ p, p ∈ m1 → 0 ≤ co_charged_bytes p.2) as Hnn1.
  { intros p Hp. destruct (Hob p Hp) as (o & Hino & ->). by specialize (Hnn _ Hino). }
  pose proof (charged_sum_filter m1 (λ p, co_extent_starts p.2 ≠ []) Hnn1) as Hle.
  split; [split; [split|]|split]; cbn -[m1]; fold m1; fold m2; try done.
  - intros p Hp. eapply cache_extent_ok_same; [by apply Hget|by apply Hx].
  - intros p [_ Hp]%list_elem_of_filter. destruct (Hob p Hp) as (o & Hino & He).
    destruct (Ho _ Hino) as [? ? ? ? ?]. destruct p as [k o1]. cbn in He. rewrite He. by split.
  - by apply NoDup_filter.
  - intros id. rewrite list_elem_of_filter, Hl, <-Hk. split; [naive_solver|]. intros Hid. split; [done|].
    apply list_elem_of_fmap in Hid as (p & -> & [_ Hp]%list_elem_of_filter). apply list_elem_of_fmap. eauto.
  - fold m2 in Hle. lia.
  - intros p [Hne Hp]%list_elem_of_filter. split; [by apply Hbr|done].
  - fold m2 in Hle. lia.
  - apply cached_same; [done|done|]. apply Hget.
Qed.

Lemma gc_spec iid position placement c :
  cache_core c →
  let c' := rebuild_backrefs_and_gc_with_inherited_lru iid position placement c in
  cache_inv c' ∧ rc_max_bytes c' = rc_max_bytes c ∧ rc_next_object_id c' = rc_next_object_id c ∧
  rc_charged_bytes c' ≤ rc_charged_bytes c ∧ ∀ i, cached c' i = cached c i.
Proof.
  intros Hcore c'. unfold c', rebuild_backrefs_and_gc_with_inherited_lru.
  rewrite (sweep_step c Hcore). destruct (swept_inv c Hcore) as (Hinv & Hle & Hb).
  destruct (bt_get iid (rc_objects (swept c))) as [o|] eqn:Hg; [|by split].
  assert (iid ∈ rc_lru (swept c)) as Hin.
  { apply (core_lru _ (inv_core _ Hinv)), list_elem_of_fmap. exists (iid, o). split; [done|].
    apply bt_get_elem; [|done]. apply Hinv. }
  pose proof (inherit_perm iid position placement _ (core_nodup _ (inv_core _ Hinv)) Hin) as Hp.
  destruct position as [n|]; (split; [by apply with_lru_inv|done]).
Qed.
End gc.

(** *** The steps of an operation *)

Section steps.
Implicit Types (c : ReadCache).

Lemma object_block_bound next p :
  object_ok next p →
  0 ≤ co_logical_start p.2 ∧ co_logical_start p.2 + co_len p.2 ≤ u64_max ∧ co_len p.2 ≤ CACHE_BLOCK_BYTES.
Proof. intros [_ Hl _ _ (b & H1 & H2 & H3 & H4)]. pose proof CACHE_BLOCK_pos. nia. Qed.

(** The object of an extent. *)
Lemma extent_object c p :
  cache_core c → p ∈ rc_extents c →
  ∃ o, (cx_object_id (ext_value p.2), o) ∈ rc_objects c ∧
       bt_get (cx_object_id (ext_value p.2)) (rc_objects c) = Some o ∧
       object_ok (rc_next_object_id c) (cx_object_id (ext_value p.2), o) ∧
       0 ≤ cx_object_offset (ext_value p.2) ∧
       p.1 = co_logical_start o + cx_object_offset (ext_value p.2) ∧
       ext_end p.2 ≤ co_logical_start o + co_len o.
Proof.
  intros Hc Hp. destruct (core_extents _ Hc p Hp) as (o & Hg & ?). exists o.
  pose proof Hg as Hin. apply bt_get_elem in Hin; [|apply Hc]. split; [done|]. split; [done|].
  split; [by apply (core_objects _ Hc)|done].
Qed.

Lemma cache_splits_ok c : cache_core c → splits_ok location cache_split_at (rc_extents c).
Proof.
  intros Hc p d k Hp Hd. destruct (extent_object c p Hc Hp) as (o & _ & _ & Hok & Ho & Hs & He).
  pose proof (object_block_bound _ _ Hok) as (? & ? & ?). cbn in *.
  unfold location, cache_split_at. cbn. rewrite u64_add_id by lia. f_equal. lia.
Qed.

(** Cutting a range out of the extents: the bytes outside stay. *)
Lemma cut_core c start end_ m' :
  cache_core c → start < end_ → cut_insert cache_split_at start end_ None (rc_extents c) m' →
  cache_core (with_extents m' c) ∧
  ∀ i, cached (with_extents m' c) i = if (start <=? i) && (i <? end_) then None else cached c i.
Proof.
  intros Hc Hlt Hcut. split.
  - pose proof Hc as [Hwf Hs Hx Ho Hnd Hl Hch Hfit Hnx]. pose proof Hcut as [Hwf' Hin].
    split; cbn; try done. intros q Hq.
    apply Hin in Hq as [(v & [=] & _)|[[Hq _]|(p & Hp & [Hm1 Hm2] & Hq)]]; [by apply Hx|].
    destruct (extent_object c p Hc Hp) as (o & _ & Hg & Hok & Hoff & Hst & He).
    pose proof (object_block_bound _ _ Hok) as (? & ? & ?). cbn in *.
    pose proof Hwf as (_ & Hne & _). specialize (Hne p Hp). exists o.
    apply tails_elem in Hq as [[Hl' ->]|[Hl' ->]]; cbn; (rewrite u64_add_id by lia);
      (split; [done|]); lia.
  - intros i. unfold cached. cbn.
    rewrite (cut_insert_contents location cache_split_at start end_ None (rc_extents c) m' i);
      [|by apply cache_splits_ok|apply Hc|done|done].
    by destruct ((start <=? i) && (i <? end_)).
Qed.

Lemma remove_extents_spec c start end_ :
  cache_core c → start < end_ →
  ∃ removed m', on_extents (remove_range_with_split start end_ cache_split_at) c
                  = (Ok removed, with_extents m' c) ∧
    cut_insert cache_split_at start end_ None (rc_extents c) m' ∧
    cache_core (with_extents m' c) ∧
    ∀ i, cached (with_extents m' c) i = if (start <=? i) && (i <? end_) then None else cached c i.
Proof.
  intros Hc Hlt.
  destruct (remove_range_with_split_spec cache_split_at (rc_extents c) start end_ (core_wf _ Hc) Hlt)
    as (m' & Hrun & Hcut).
  eexists _, m'. unfold on_extents, zoom. rewrite Hrun. split; [done|]. split; [done|]. by apply cut_core.
Qed.

Lemma core_fresh c : cache_core c → bt_get (rc_next_object_id c) (rc_objects c) = None.
Proof.
  intros Hc. apply bt_get_None. intros p Hp Heq. destruct (core_objects _ Hc p Hp) as [Hid _ _ _ _]. lia.
Qed.

(** The charge has room for [bytes] more and the identifiers for [ids] more. *)
Definition room (bytes ids : Z) c : Prop :=
  rc_charged_bytes c + bytes ≤ u64_max ∧ rc_next_object_id c + ids ≤ u64_max.

(** A new object: nothing refers to it yet. *)
Lemma insert_object_spec c start end_ payload placement b :
  cache_core c → room CACHE_BLOCK_BYTES 1 c → start < end_ → in_block b start end_ →
  zlen (payload_data payload) = end_ - start →
  let id := rc_next_object_id c in
  let o := mkCacheObject start (end_ - start) payload [] (end_ - start) in
  ∃ c', insert_object start end_ payload placement c = (Ok id, c') ∧ cache_core c' ∧
    rc_extents c' = rc_extents c ∧ rc_objects c' = bt_insert id o (rc_objects c) ∧
    rc_max_bytes c' = rc_max_bytes c ∧ rc_next_object_id c' = id + 1 ∧
    rc_charged_bytes c' = rc_charged_bytes c + (end_ - start) ∧
    ∀ i, cached c' i = cached c i.
Proof.
  intros Hc [Hroom1 Hroom2] Hlt Hb Hlen id o. pose proof Hc as [Hwf Hs Hx Ho Hnd Hl Hch Hfit Hnx].
  pose proof (core_fresh c Hc) as Hfresh. pose proof CACHE_BLOCK_pos.
  assert (end_ - start ≤ CACHE_BLOCK_BYTES) as Hsz by (unfold in_block in Hb; nia).
  assert (0 ≤ start ∧ end_ ≤ u64_max) as [? ?] by (unfold in_block in Hb; nia).
  assert (0 ≤ rc_charged_bytes c) as Hc0.
  { pose proof (st_nonneg _ (core_store c Hc)) as Hnn. pose proof (charged_sum_filter _ (λ _, True) Hnn). lia. }
  unfold insert_object. fold id. rewrite payload_charged_eq, Hlen.
  unfold with_lru, with_objects, with_charged, with_next_id. cbn [rc_extents rc_objects rc_lru rc_max_bytes
    rc_charged_bytes rc_next_object_id]. rewrite !u64_sub_id by lia.
  rewrite !u64_add_id by (unfold CACHE_BLOCK_BYTES in *; lia). fold o.
  eexists. split; [reflexivity|].
  assert (∀ p, p ∈ rc_extents c →
    set_starts [] <$> bt_get (cx_object_id (ext_value p.2)) (bt_insert id o (rc_objects c)) =
    set_starts [] <$> bt_get (cx_object_id (ext_value p.2)) (rc_objects c)) as Hget.
  { intros p Hp. rewrite bt_get_insert by done. destruct (Z.eqb_spec (cx_object_id (ext_value p.2)) id) as [He|]; [|done].
    destruct (Hx p Hp) as (o' & Hg & _). rewrite He in Hg. unfold id in Hg. congruence. }
  split; [split; cbn [rc_extents rc_objects rc_lru rc_max_bytes rc_charged_bytes rc_next_object_id]|split_and!; try done].
  - done.
  - by apply bt_insert_sorted.
  - intros p Hp. eapply cache_extent_ok_same; [by apply Hget|by apply Hx].
  - intros p [->|[Hp _]]%bt_insert_elem; [| |done].
    + split; cbn; try lia. exists b. replace (start + (end_ - start)) with end_ by lia. done.
    + destruct (Ho p Hp). split; try done. unfold id. lia.
  - rewrite lru_place_perm. constructor; [|done]. rewrite Hl. intros (p & Hp1 & Hp)%list_elem_of_fmap.
    destruct (Ho p Hp) as [Hid _ _ _ _]. unfold id in *. lia.
  - intros x. rewrite lru_place_perm, elem_of_cons, Hl, !list_elem_of_fmap.
    setoid_rewrite (bt_insert_elem _ id o _ Hs). split.
    + intros [->|(p & -> & Hp)]; [exists (id, o); auto|]. exists p. split; [done|]. right. split; [done|].
      destruct (Ho p Hp) as [Hid _ _ _ _]. unfold id. lia.
    + intros (p & -> & [->|[Hp _]]); [by left|right; eauto].
  - rewrite charged_sum_insert by done. rewrite Hch. cbn. lia.
  - lia.
  - unfold CACHE_BLOCK_BYTES in *. lia.
  - apply cached_same; [done|done|]. apply Hget.
Qed.
(** The new extent over a new object. *)
Lemma insert_extent_spec c start end_ id o :
  cache_core c → start < end_ → (∀ p, p ∈ rc_extents c → ¬ meets start end_ p) →
  bt_get id (rc_objects c) = Some o → co_logical_start o = start → co_len o = end_ - start →
  ∃ c', on_extents (insert_exact start end_ (mkCacheExtent id 0)) c = (Ok tt, c') ∧ cache_core c' ∧
    rc_max_bytes c' = rc_max_bytes c ∧ rc_next_object_id c' = rc_next_object_id c ∧
    rc_charged_bytes c' = rc_charged_bytes c ∧
    ∀ i, cached c' i = if (start <=? i) && (i <? end_)
                       then zget (payload_data (co_payload o)) (i - start) else cached c i.
Proof.
  intros Hc Hlt Hno Hg Hst Hlen. pose proof Hc as [Hwf Hs Hx Ho Hnd Hl Hch Hfit Hnx].
  unfold on_extents, zoom. rewrite insert_exact_ok by done. eexists. split; [reflexivity|].
  set (v := mkCacheExtent id 0). pose proof (em_wf_insert _ start end_ v Hwf Hlt Hno) as Hwf'.
  split; [split; cbn; try done|split_and!; try done].
  - intros p [->|[Hp _]]%bt_insert_elem; [|by apply Hx|apply Hs || apply Hwf].
    exists o. cbn. split; [done|]. lia.
  - intros i. unfold cached. cbn.
    rewrite (cut_insert_contents location cache_split_at start end_ (Some v) (rc_extents c) _ i);
      [|by apply cache_splits_ok|done|done|].
    + destruct ((start <=? i) && (i <? end_)); [|done]. cbn. unfold object_byte. cbn. by rewrite Hg.
    + split; [done|]. intros q. rewrite bt_insert_elem by apply Hwf. split.
      * intros [->|[Hq Hne]]; [left; eauto|right; left; auto].
      * intros [(v' & [= <-] & ->)|[[Hq _]|(p & Hp & Hm & _)]]; [by left| |by destruct (Hno p Hp)].
        right. split; [done|]. intros He. apply (Hno q Hq). destruct Hwf as (_ & Hne & _).
        specialize (Hne q Hq). unfold meets. lia.
Qed.

Lemma install_component_spec c cs ce payload position placement b :
  cache_core c → room CACHE_BLOCK_BYTES 1 c → cs < ce → in_block b cs ce →
  zlen (payload_data payload) = ce - cs →
  ∃ c', install_component cs ce payload position placement c = (Ok tt, c') ∧ cache_inv c' ∧
    rc_max_bytes c' = rc_max_bytes c ∧ rc_next_object_id c' = rc_next_object_id c + 1 ∧
    rc_charged_bytes c' ≤ rc_charged_bytes c + CACHE_BLOCK_BYTES ∧
    ∀ i, cached c' i = if (cs <=? i) && (i <? ce)
                       then zget (payload_data payload) (i - cs) else cached c i.
Proof.
  intros Hc Hroom Hlt Hb Hlen. unfold install_component.
  destruct (remove_extents_spec c cs ce Hc Hlt) as (removed & m1 & Hrun1 & Hcut & Hc1 & Hb1).
  rewrite (mseq_ok _ _ _ _ _ Hrun1).
  destruct (insert_object_spec (with_extents m1 c) cs ce payload placement b Hc1 Hroom Hlt Hb Hlen)
    as (c2 & Hrun2 & Hc2 & He2 & Ho2 & Hm2 & Hn2 & Hch2 & Hb2).
  rewrite (mseq_ok _ _ _ _ _ Hrun2). cbn [rc_next_object_id with_extents] in *.
  destruct (insert_extent_spec c2 cs ce (rc_next_object_id c)
    (mkCacheObject cs (ce - cs) payload [] (ce - cs))) as (c3 & Hrun3 & Hc3 & Hm3 & Hn3 & Hch3 & Hb3); try done.
  { rewrite He2. cbn. destruct Hcut as [_ Hin]. intros p Hp [? ?].
    apply Hin in Hp as [(v & [=] & _)|[[_ Hp]|(q & Hq & _ & Hp)]]; [by apply Hp|].
    apply tails_elem in Hp as [[? ->]|[? ->]]; cbn in *; lia. }
  { rewrite Ho2. rewrite bt_get_insert by apply Hc1. by rewrite Z.eqb_refl. }
  rewrite (mseq_ok _ _ _ _ _ Hrun3).
  destruct (gc_spec (rc_next_object_id c) position placement c3 Hc3) as (Hinv & Hm4 & Hn4 & Hch4 & Hb4).
  unfold mmodify. eexists. split; [reflexivity|]. split; [done|].
  split; [by rewrite Hm4, Hm3, Hm2|]. split; [by rewrite Hn4, Hn3, Hn2|]. split.
  - rewrite Hch3, Hch2 in Hch4. cbn in Hch4. unfold in_block in Hb. lia.
  - intros i. rewrite Hb4, Hb3, Hb2, Hb1. by destruct ((cs <=? i) && (i <? ce)).
Qed.

(** *** Inserting in one block *)

(** The sources of a block are its extents, with the bytes the cache holds. *)
Lemma existing_sources_spec c b start end_ :
  cache_core c → start < end_ → in_block b start end_ →
  ∃ sources, existing_sources_for_window c start = Ok sources ∧
    (∀ s, s ∈ sources → source_ok (cached c) s ∧ in_block b (es_start s) (es_end s)) ∧
    (∀ p, p ∈ rc_extents c → ∀ i, in_block b i (i + 1) → p.1 ≤ i < ext_end p.2 →
       ∃ s, s ∈ sources ∧ es_start s = p.1 ∧ es_end s = ext_end p.2).
Proof.
  intros Hc Hlt Hb. pose proof Hc as [Hwf _ _ _ _ _ _ _ _].
  unfold existing_sources_for_window. rewrite (in_block_start b start end_) by done.
  pose proof CACHE_BLOCK_pos. pose proof Hb as (Hb1 & Hb2 & Hb3 & Hb4).
  rewrite u64_checked_add_id by lia. cbn [ok_or obind]. rewrite overlapping_eq by (done || lia).
  cbn [obind]. destruct (try_map_total (existing_source (rc_objects c))
    (em_iter (filter (meets (b * CACHE_BLOCK_BYTES) (b * CACHE_BLOCK_BYTES + CACHE_BLOCK_BYTES)) (rc_extents c))))
    as (sources & -> & Hin).
  { intros e (s & x & [_ Hp]%list_elem_of_filter & ->)%em_iter_elem.
    destruct (extent_object c (s, x) Hc Hp) as (o & _ & Hg & _). cbn in Hg.
    unfold existing_source. cbn. rewrite Hg. cbn. eauto. }
  exists sources. split; [done|]. setoid_rewrite Hin. split.
  - intros s (e & (es & x & [[Hm1 Hm2] Hp]%list_elem_of_filter & ->)%em_iter_elem & Hs).
    destruct (extent_object c (es, x) Hc Hp) as (o & _ & Hg & Hok & Hoff & Hst & He).
    pose proof (object_block_bound _ _ Hok) as (? & ? & ?). destruct Hok as [_ Hlen Hpay _ (b' & Hb')].
    pose proof Hwf as (_ & Hne & _). specialize (Hne _ Hp). cbn in *.
    unfold existing_source in Hs. cbn in Hs. rewrite Hg in Hs. injection Hs as <-.
    assert (b' = b) as -> by (unfold in_block in Hb'; nia). split.
    + split_and!; cbn; try lia. intros i Hi. unfold cached, contents.
      rewrite (proj2 (em_find_Some _ i (es, x) Hwf)) by done. cbn. unfold object_byte. cbn. by rewrite Hg.
    + unfold in_block in *. cbn. lia.
  - intros [s x] Hp i Hi Hpi. destruct (extent_object c (s, x) Hc Hp) as (o & _ & Hg & _). cbn in *.
    eexists. split; [|split; cycle 1].
    + exists (extent_ref s x). split; [|unfold existing_source; cbn; rewrite Hg; reflexivity].
      apply em_iter_elem. exists s, x. split; [|done]. apply list_elem_of_filter. split; [|done].
      unfold meets, in_block in *. cbn. lia.
    + done.
    + done.
Qed.
End steps.

(** *** Inserting a window *)

Section windows.
Implicit Types (c : ReadCache).

(** The cache after [bytes] (from [offset] on) were put at [start, end_). *)
Definition updated c (start end_ offset : Z) (bytes : list byte) (i : Z) : option byte :=
  if (start <=? i) && (i <? end_) then zget bytes (offset + (i - start)) else cached c i.

Definition window_post c (f : Z → option byte) (r : outcome ServerError unit * ReadCache) : Prop :=
  ∃ c', r = (Ok tt, c') ∧ cache_inv c' ∧ rc_max_bytes c' = rc_max_bytes c ∧
    rc_next_object_id c' = rc_next_object_id c + 1 ∧
    rc_charged_bytes c' ≤ rc_charged_bytes c + CACHE_BLOCK_BYTES ∧
    ∀ i, cached c' i = f i.

(** The component of a window. *)
Lemma component_spec c b start end_ :
  cache_core c → start < end_ → in_block b start end_ →
  ∃ sources, existing_sources_for_window c start = Ok sources ∧
    let L := connected_sources start end_ sources in
    let cs := component_start_of start L in
    let ce := component_end_of end_ L in
    hull start end_ L cs ce ∧ in_block b cs ce ∧ cs < ce ∧ (∀ s, s ∈ L → source_ok (cached c) s).
Proof.
  intros Hc Hlt Hb. destruct (existing_sources_spec c b start end_ Hc Hlt Hb) as (sources & Hs & Hok & _).
  exists sources. split; [done|]. intros L cs ce.
  destruct (connected_sources_spec start end_ Hlt sources) as (cs' & ce' & Hh & _ & _ & Hsub).
  { apply Forall_forall. intros s Hin. destruct (Hok s Hin) as [(? & _) _]. lia. }
  fold L in Hh, Hsub. destruct (hull_component start end_ Hlt L cs' ce' Hh) as [Hcs Hce].
  fold cs in Hcs. fold ce in Hce. subst cs' ce'. split; [done|].
  assert (∀ s, s ∈ L → s ∈ sources) as HL by (intros s Hin; by eapply elem_of_sublist).
  pose proof Hh as [Hn Ha Hst Hen _]. pose proof Hb as (? & ? & ? & ?).
  split; [unfold in_block; split_and!|split]; try done.
  - destruct Hst as [->|(s & Hin & <-)]; [done|]. by destruct (Hok s (HL s Hin)) as [_ (? & ? & ?)].
  - destruct Hen as [->|(s & Hin & <-)]; [done|]. by destruct (Hok s (HL s Hin)) as [_ (? & ? & ? & ?)].
  - lia.
  - intros s Hin. by apply Hok, HL.
Qed.

(** Installing a payload that holds the new bytes and the old ones of the component. *)
Lemma install_window c b start end_ offset bytes L cs ce payload position placement :
  cache_core c → room CACHE_BLOCK_BYTES 1 c → hull start end_ L cs ce → in_block b cs ce → cs < ce →
  zlen (payload_data payload) = ce - cs →
  (∀ x, cs ≤ x < ce → zget (payload_data payload) (x - cs) = updated c start end_ offset bytes x) →
  window_post c (updated c start end_ offset bytes) (install_component cs ce payload position placement c).
Proof.
  intros Hc Hroom [Hn _ _ _ _] Hb Hlt Hlen Hbytes.
  destruct (install_component_spec c cs ce payload position placement b) as (c' & Hrun & Hinv & Hm & Hnx & Hch & Hbs);
    try done.
  exists c'. split_and!; try done. intros i. rewrite Hbs.
  destruct ((cs <=? i) && (i <? ce)) eqn:Hi.
  - apply Hbytes. apply andb_true_iff in Hi. rewrite Z.leb_le, Z.ltb_lt in Hi. lia.
  - apply andb_false_iff in Hi. rewrite Z.leb_gt, Z.ltb_ge in Hi. unfold updated.
    destruct (Z.leb_spec start i), (Z.ltb_spec i end_); cbn; try done. lia.
Qed.

Lemma hull_nil_inv start end_ cs ce : hull start end_ [] cs ce → cs = start ∧ ce = end_.
Proof.
  intros [_ _ [->|(s & ?%not_elem_of_nil & _)] [->|(t & ?%not_elem_of_nil & _)] _]; done.
Qed.

Lemma insert_window_bytes_spec c b start end_ bytes placement :
  cache_core c → room CACHE_BLOCK_BYTES 1 c → start < end_ → in_block b start end_ →
  zlen bytes = end_ - start →
  window_post c (updated c start end_ 0 bytes) (insert_window_bytes start end_ bytes placement c).
Proof.
  intros Hc Hroom Hlt Hb Hlen. unfold insert_window_bytes. erewrite mseq_ok by done.
  destruct (component_spec c b start end_ Hc Hlt Hb) as (sources & Hs & Hh & Hcb & Hcl & Hok).
  erewrite mseq_ok by (unfold mlift; by rewrite Hs). cbv zeta.
  set (L := connected_sources start end_ sources) in *. set (cs := component_start_of start L) in *.
  set (ce := component_end_of end_ L) in *. pose proof Hcb as (? & ? & ? & ?). pose proof (hull_new _ _ _ _ _ Hh).
  pose proof CACHE_BLOCK_pos. destruct (match L with [] => true | _ => false end && (cs =? start) && (ce =? end_)) eqn:Hd.
  - erewrite mseq_ok by done. eapply install_window; try done.
    + destruct L; [|done]. apply hull_nil_inv in Hh as [-> ->]. done.
    + destruct L; [|done]. apply hull_nil_inv in Hh as [-> ->]. intros x Hx. unfold updated. decide_cmp. done.
  - destruct (materialize_ok (cached c) cs ce start end_ 0 bytes L) as (merged & Hmat & Hml & Hmg); try done; try nia.
    change (materialize_merged_bytes cs ce start end_ bytes L)
      with (merge_bytes cs ce start end_ 0 bytes L).
    erewrite mseq_ok by (unfold mlift; rewrite Hmat; reflexivity).
    eapply install_window; try done.
Qed.

Lemma insert_window_wal_record_spec c b start end_ record offset placement :
  cache_core c → room CACHE_BLOCK_BYTES 1 c → start < end_ → in_block b start end_ →
  0 ≤ offset → offset + (end_ - start) ≤ zlen (rec_data record) → zlen (rec_data record) ≤ u64_max →
  window_post c (updated c start end_ offset (rec_data record))
    (insert_window_wal_record start end_ record offset placement c).
Proof.
  intros Hc Hroom Hlt Hb Ho1 Ho2 Ho3. unfold insert_window_wal_record. erewrite mseq_ok by done.
  destruct (component_spec c b start end_ Hc Hlt Hb) as (sources & Hs & Hh & Hcb & Hcl & Hok).
  erewrite mseq_ok by (unfold mlift; by rewrite Hs). cbv zeta.
  set (L := connected_sources start end_ sources) in *. set (cs := component_start_of start L) in *.
  set (ce := component_end_of end_ L) in *. pose proof Hcb as (? & ? & ? & ?). pose proof Hb as (? & ? & ? & ?).
  pose proof CACHE_BLOCK_pos.
  destruct (_ && _ && _ && _) eqn:Hd.
  - erewrite mseq_ok by done. destruct L; [|done]. apply hull_nil_inv in Hh as Hcse.
    rewrite u64_sub_id in Hd by nia. cbn [andb] in Hd.
    apply andb_true_iff in Hd as [[Hd1 Hd2]%andb_true_iff _].
    apply Z.eqb_eq in Hd1, Hd2. destruct Hcse as [Hcs Hce]. eapply install_window; try done.
    intros x Hx. cbn [payload_data]. unfold updated. decide_cmp. f_equal. lia.
  - destruct (materialize_ok (cached c) cs ce start end_ offset (rec_data record) L)
      as (merged & Hmat & Hml & Hmg); try done; try nia.
    change (materialize_merged_wal_bytes cs ce start end_ offset record L)
      with (merge_bytes cs ce start end_ offset (rec_data record) L).
    erewrite mseq_ok by (unfold mlift; rewrite Hmat; reflexivity).
    eapply install_window; try done.
Qed.

(** *** The loop over the blocks of a range *)

(** The number of blocks [start, re) meets. *)
Definition windows (start re : Z) : Z := (re - 1) / CACHE_BLOCK_BYTES - start / CACHE_BLOCK_BYTES + 1.

Lemma windows_next start re :
  0 ≤ start → (start / CACHE_BLOCK_BYTES + 1) * CACHE_BLOCK_BYTES < re →
  windows ((start / CACHE_BLOCK_BYTES + 1) * CACHE_BLOCK_BYTES) re = windows start re - 1.
Proof. intros. unfold windows. rewrite Z.div_mul by (unfold CACHE_BLOCK_BYTES; lia). lia. Qed.

Lemma windows_pos start re : start < re → 1 ≤ windows start re.
Proof. intros. unfold windows, CACHE_BLOCK_BYTES. dlia. Qed.

(** The blocks of [start, re) end inside the address space. *)
Definition blocks_fit (re : Z) : Prop := ((re - 1) / CACHE_BLOCK_BYTES + 1) * CACHE_BLOCK_BYTES ≤ u64_max.

Lemma first_window start re :
  0 ≤ start < re → blocks_fit re →
  let b := start / CACHE_BLOCK_BYTES in
  let e := Z.min re ((b + 1) * CACHE_BLOCK_BYTES) in
  in_block b start e ∧ start < e ∧ cache_block_end start = Ok ((b + 1) * CACHE_BLOCK_BYTES).
Proof.
  intros Hs Hf b e. assert (in_block b start e ∧ start < e) as [Hb He].
  { pose proof (Z.div_le_mono start (re - 1) CACHE_BLOCK_BYTES CACHE_BLOCK_pos ltac:(lia)).
    unfold in_block, blocks_fit in *. pose proof (Z.mul_div_le start _ CACHE_BLOCK_pos).
    pose proof (Z.mul_succ_div_gt start _ CACHE_BLOCK_pos).
    pose proof (Z.div_pos start CACHE_BLOCK_BYTES ltac:(lia) CACHE_BLOCK_pos). subst b e.
    unfold CACHE_BLOCK_BYTES in *. lia. }
  split_and!; try done. by eapply cache_block_end_eq.
Qed.

(** [body] puts the bytes of its window where [g] says. *)
Lemma window_loop_spec fuel body g lo re start c :
  (∀ c b s e, cache_inv c → room CACHE_BLOCK_BYTES 1 c → lo ≤ s < e → e ≤ re → in_block b s e →
     window_post c (λ i, if (s <=? i) && (i <? e) then g i else cached c i) (body s e c)) →
  cache_inv c → 0 ≤ lo ≤ start → start < re → blocks_fit re →
  room (windows start re * CACHE_BLOCK_BYTES) (windows start re) c → windows start re ≤ Z.of_nat fuel →
  ∃ c', window_loop fuel body start re c = (Ok tt, c') ∧ cache_inv c' ∧ rc_max_bytes c' = rc_max_bytes c ∧
    rc_next_object_id c' = rc_next_object_id c + windows start re ∧
    rc_charged_bytes c' ≤ rc_charged_bytes c + windows start re * CACHE_BLOCK_BYTES ∧
    ∀ i, cached c' i = if (start <=? i) && (i <? re) then g i else cached c i.
Proof.
  intros Hbody. revert start c. induction fuel as [|fuel IH]; intros start c Hinv Hlo Hlt Hf Hroom Hfuel;
    pose proof (windows_pos start re Hlt) as Hw; [lia|].
  destruct (first_window start re) as (Hb & He & Hend); [lia|done|].
  set (b := start / CACHE_BLOCK_BYTES) in *. set (e := Z.min re ((b + 1) * CACHE_BLOCK_BYTES)) in *.
  pose proof CACHE_BLOCK_pos as HB. cbn [window_loop]. rewrite (proj2 (Z.ltb_lt start re)) by done.
  erewrite mseq_ok by (unfold mlift; by rewrite Hend). cbv zeta. fold e.
  destruct (Hbody c b start e) as (c1 & Hrun & Hinv1 & Hm1 & Hn1 & Hch1 & Hb1);
    [done|unfold room in *; nia|lia|lia|done|].
  rewrite (mseq_ok _ _ _ _ _ Hrun). destruct (Z.le_gt_cases re e) as [Hlast|Hmore].
  - assert (e = re) as Heq by lia. exists c1. split_and!; try done.
    + destruct fuel; cbn [window_loop]; by rewrite (proj2 (Z.ltb_ge e re)) by lia.
    + rewrite Hn1. f_equal. unfold windows, b, e, CACHE_BLOCK_BYTES in *. dlia.
    + nia.
    + intros i. rewrite Hb1, Heq. done.
  - assert (e = (b + 1) * CACHE_BLOCK_BYTES) as Heq by lia.
    assert (windows e re = windows start re - 1) as Hwe by (rewrite Heq; apply windows_next; lia).
    destruct (IH e c1) as (c2 & Hrun2 & Hinv2 & Hm2 & Hn2 & Hch2 & Hb2);
      [done|lia|lia|done|unfold room in *; rewrite Hwe; nia|lia|].
    exists c2. rewrite Hrun2. rewrite Hwe in *. split_and!; try done; [congruence|lia|nia|].
    intros i. rewrite Hb2, Hb1.
    destruct (Z.leb_spec e i), (Z.ltb_spec i re), (Z.leb_spec start i), (Z.ltb_spec i e); cbn; try done; lia.
Qed.
End windows.

(** *** Eviction *)

Section evict.
Implicit Types (c : ReadCache).

(** Removing the exact range of an extent removes that extent. *)
Lemma cut_exact (m m' : btree (Extent CacheExtent)) s x :
  em_wf m → (s, x) ∈ m → cut_insert cache_split_at s (ext_end x) None m m' →
  m' = filter (λ p, p.1 ≠ s) m.
Proof.
  intros Hwf Hin [Hwf' Hcut]. pose proof Hwf as (Hs & Hne & _).
  apply bt_ext; [apply Hwf'|by apply bt_sorted_filter|]. intros q.
  rewrite Hcut, list_elem_of_filter. specialize (Hne _ Hin) as Hx. cbn in Hx.
  assert (∀ p, p ∈ m → p.1 ≠ s → ¬ meets s (ext_end x) p) as Hdis.
  { intros p Hp Hps [? ?]. destruct (em_wf_disjoint m p (s, x) Hwf Hp Hin Hps); cbn in *; lia. }
  split.
  - intros [(v & [=] & _)|[[Hq Hm]|(p & Hp & Hm & Hq)]].
    + split; [|done]. intros He. apply Hm. specialize (Hne q Hq). unfold meets. lia.
    + destruct (Z.eq_dec p.1 s) as [He|He]; [|by destruct (Hdis p Hp He)].
      assert (p = (s, x)) as -> by by eapply bt_key_inj.
      apply tails_elem in Hq as [[Hl _]|[Hl _]]; cbn in Hl; lia.
  - intros [Hq Hqm]. right. left. split; [done|]. by apply Hdis.
Qed.

Lemma evict_extent_eq c s x :
  em_wf (rc_extents c) → (s, x) ∈ rc_extents c →
  evict_extent s c = (Ok tt, with_extents (filter (λ p, p.1 ≠ s) (rc_extents c)) c).
Proof.
  intros Hwf Hin. unfold evict_extent. erewrite mseq_ok by done. unfold em_get.
  rewrite (proj2 (bt_get_elem _ s x (proj1 Hwf)) Hin). cbn [fmap option_fmap option_map extent_ref ee_start ee_end].
  assert (s < ext_end x) as Hlt by exact (proj1 (proj2 Hwf) _ Hin).
  destruct (remove_range_with_split_spec cache_split_at (rc_extents c) s (ext_end x) Hwf Hlt)
    as (m' & Hrun & Hcut).
  rewrite (cut_exact _ _ _ _ Hwf Hin Hcut) in Hrun.
  erewrite mseq_ok by (unfold on_extents, zoom; by rewrite Hrun). done.
Qed.

Lemma evict_extents_eq starts c :
  em_wf (rc_extents c) → NoDup starts → (∀ s, s ∈ starts → ∃ x, (s, x) ∈ rc_extents c) →
  mfor starts evict_extent c =
    (Ok tt, with_extents (filter (λ p, p.1 ∉ starts) (rc_extents c)) c).
Proof.
  revert c. induction starts as [|s starts IH]; intros c Hwf Hnd Hin.
  { cbn. unfold mret. rewrite filter_every by set_solver. by destruct c. }
  apply NoDup_cons in Hnd as [Hs Hnd]. destruct (Hin s ltac:(set_solver)) as [x Hx].
  cbn [mfor]. rewrite (mseq_ok _ _ _ _ _ (evict_extent_eq c s x Hwf Hx)).
  rewrite IH; cbn.
  - unfold with_extents. cbn. rewrite list_filter_filter. do 2 f_equal. apply list_filter_iff.
    intros p. rewrite not_elem_of_cons. tauto.
  - by apply em_wf_filter.
  - done.
  - intros t Ht. destruct (Hin t ltac:(set_solver)) as [y Hy]. exists y. apply list_elem_of_filter.
    split; [|done]. cbn. intros ->. done.
Qed.

(** The cache without the object [id]. *)
Definition without_object (id : Z) c : ReadCache :=
  mkCache (filter (λ p, cx_object_id (ext_value p.2) ≠ id) (rc_extents c)) (bt_remove id (rc_objects c))
    (filter (λ x, x ≠ id) (rc_lru c)) (rc_max_bytes c) (charged_sum (bt_remove id (rc_objects c)))
    (rc_next_object_id c).

Lemma evict_object_eq id c :
  cache_inv c → id ∈ rc_lru c → evict_object id c = (Ok tt, without_object id c).
Proof.
  intros [Hc Hbr] Hid. pose proof Hc as [Hwf Hs Hx Ho Hnd Hl Hch Hfit Hnx].
  apply Hl, list_elem_of_fmap in Hid as ([id' o] & -> & Hin). cbn [fst]. rename id' into id.
  destruct (Hbr _ Hin) as [[Hso Hst] Hne]. cbn [fst snd] in *.
  unfold evict_object. erewrite mseq_ok by done. rewrite (proj2 (bt_get_elem _ id o Hs) Hin).
  rewrite (mseq_ok _ _ _ _ _ (evict_extents_eq (co_extent_starts o).*1 c Hwf (bt_sorted_NoDup _ Hso)
    (λ s Hs', let '(ex_intro _ x (conj Hx _)) := proj1 (Hst s) Hs' in ex_intro _ x Hx))).
  unfold mmodify. rewrite remove_object_eq.
  2: { destruct (core_store c Hc). by split. }
  cbn. unfold without_object. do 2 f_equal. apply filter_ext_in. intros [s x] Hp. cbn. rewrite Hst. split.
  - intros Hno He. apply Hno. eauto.
  - intros Hne' (y & Hy & He). assert ((s, x) = (s, y)) as [= ->] by (apply (bt_key_inj (rc_extents c)); try done; apply Hwf). done.
Qed.

Lemma without_object_inv id c : cache_inv c → cache_inv (without_object id c).
Proof.
  intros [Hc Hbr]. pose proof Hc as [Hwf Hs Hx Ho Hnd Hl Hch Hfit Hnx].
  pose proof (st_nonneg _ (core_store c Hc)) as Hnn.
  pose proof (charged_sum_filter (rc_objects c) (λ p, p.1 ≠ id) Hnn) as Hle.
  split; [split; cbn|cbn].
  - by apply em_wf_filter.
  - by apply bt_remove_sorted.
  - intros p [Hne Hp]%list_elem_of_filter. eapply cache_extent_ok_same; [|by apply Hx].
    rewrite bt_get_remove by done. by rewrite (proj2 (Z.eqb_neq _ _)) by done.
  - intros p [Hp _]%bt_remove_elem. by apply Ho.
  - by apply NoDup_filter.
  - intros x. rewrite list_elem_of_filter, Hl, !list_elem_of_fmap. setoid_rewrite bt_remove_elem. naive_solver.
  - done.
  - unfold bt_remove. lia.
  - done.
  - intros p [Hp Hne]%bt_remove_elem. destruct (Hbr p Hp) as [[Hso Hst] Hn]. split; [|done].
    split; [done|]. intros s. rewrite Hst. setoid_rewrite list_elem_of_filter. cbn. naive_solver.
Qed.

Lemma without_object_contents id c i :
  em_wf (rc_extents c) →
  contents location (rc_extents (without_object id c)) i =
    match contents location (rc_extents c) i with
    | Some l => if l.1 =? id then None else Some l
    | None => None
    end.
Proof.
  intros Hwf. unfold contents. cbn.
  assert (em_wf (filter (λ p, cx_object_id (ext_value p.2) ≠ id) (rc_extents c))) as Hwf' by by apply em_wf_filter.
  destruct (em_find (rc_extents c) i) as [p|] eqn:Hf; cbn.
  - apply em_find_Some in Hf as [Hp Hi]; [|done].
    destruct (Z.eqb_spec (cx_object_id (ext_value p.2)) id) as [He|Hne].
    + rewrite (proj2 (em_find_None _ i Hwf')); [done|]. intros q [Hq1 Hq2]%list_elem_of_filter Hqi.
      assert (em_find (rc_extents c) i = Some q) as Hfq by by apply em_find_Some.
      rewrite (proj2 (em_find_Some _ i p Hwf)) in Hfq by done. injection Hfq as <-. done.
    + by rewrite (proj2 (em_find_Some _ i p Hwf')) by (split; [by apply list_elem_of_filter|done]).
  - rewrite (proj2 (em_find_None _ i Hwf')); [done|]. intros q [_ Hq]%list_elem_of_filter.
    by apply (proj1 (em_find_None _ i Hwf) Hf).
Qed.

(** *** What a list of objects charges *)

Definition charge_of (objects : btree CacheObject) (ids : list Z) : Z :=
  foldr (λ id acc, match bt_get id objects with Some o => co_charged_bytes o | None => 0 end + acc) 0 ids.

Lemma charge_of_perm objects ids ids' : ids ≡ₚ ids' → charge_of objects ids = charge_of objects ids'.
Proof. unfold charge_of. induction 1; cbn; lia. Qed.

Lemma charge_of_keys objects : bt_sorted objects → charge_of objects objects.*1 = charged_sum objects.
Proof.
  intros Hs. assert (∀ l, (∀ p, p ∈ l → p ∈ objects) → charge_of objects l.*1 = charged_sum l) as H; [|by apply H].
  induction l as [|[k o] l IH]; intros Hl; [done|]. rewrite charged_sum_cons. cbn.
  rewrite (proj2 (bt_get_elem _ k o Hs)) by set_solver. unfold charge_of in IH. rewrite IH by set_solver. lia.
Qed.

Lemma charge_of_lru c : cache_core c → rc_charged_bytes c = charge_of (rc_objects c) (rc_lru c).
Proof.
  intros [_ Hs _ _ Hnd Hl -> _ _]. rewrite <-charge_of_keys by done. apply charge_of_perm.
  apply NoDup_Permutation; [by apply bt_sorted_NoDup|done|]. intros x. by rewrite Hl.
Qed.

(** The cache cut down to the objects of [ids]. *)
Record kept c (ids : list Z) (c' : ReadCache) : Prop := {
  kept_inv : cache_inv c';
  kept_lru : rc_lru c' = ids;
  kept_max : rc_max_bytes c' = rc_max_bytes c;
  kept_next : rc_next_object_id c' = rc_next_object_id c;
  kept_objects : ∀ id, id ∈ ids → bt_get id (rc_objects c') = bt_get id (rc_objects c);
  kept_contents : ∀ i, contents location (rc_extents c') i =
    match contents location (rc_extents c) i with
    | Some l => if bool_decide (l.1 ∈ ids) then Some l else None
    | None => None
    end;
}.

Lemma kept_cached c ids c' i :
  kept c ids c' →
  cached c' i =
    match contents location (rc_extents c) i with
    | Some l => if bool_decide (l.1 ∈ ids) then cached c i else None
    | None => None
    end.
Proof.
  intros [_ _ _ _ Ho Hc]. unfold cached. rewrite Hc.
  destruct (contents location (rc_extents c) i) as [l|]; [|done]. case_bool_decide as Hl; [|done].
  unfold object_byte. by rewrite Ho.
Qed.

Lemma kept_le c ids c' i : kept c ids c' → cached c' i = None ∨ cached c' i = cached c i.
Proof.
  intros Hk. rewrite (kept_cached c ids c' i Hk). destruct (contents _ _ i); [|by left].
  case_bool_decide; auto.
Qed.

Lemma kept_refl c : cache_inv c → kept c (rc_lru c) c.
Proof.
  intros Hinv. split; try done. intros i. destruct (contents location (rc_extents c) i) as [l|] eqn:Hl; [|done].
  rewrite bool_decide_true; [done|]. pose proof (inv_core _ Hinv) as Hc. unfold contents in Hl.
  destruct (em_find (rc_extents c) i) as [p|] eqn:Hf; [|done]. injection Hl as <-. cbn.
  apply em_find_Some in Hf as [Hp _]; [|apply Hc].
  destruct (extent_object c p Hc Hp) as (o & Hin & _). apply (core_lru _ Hc), list_elem_of_fmap.
  by exists (cx_object_id (ext_value p.2), o).
Qed.

Lemma kept_evict c ids id c' :
  NoDup (ids ++ [id]) → kept c (ids ++ [id]) c' →
  evict_object id c' = (Ok tt, without_object id c') ∧ kept c ids (without_object id c').
Proof.
  intros Hnd [Hinv Hl Hm Hn Ho Hc]. apply NoDup_app in Hnd as (_ & Hnin & _).
  split; [apply evict_object_eq; [done|rewrite Hl; set_solver]|]. split; try done.
  - by apply without_object_inv.
  - cbn. rewrite Hl. rewrite filter_app. rewrite filter_every by (intros x Hx ->; set_solver).
    rewrite filter_cons_False by naive_solver. apply app_nil_r.
  - intros x Hx. cbn. rewrite bt_get_remove by apply Hinv.
    rewrite (proj2 (Z.eqb_neq _ _)) by (intros ->; set_solver). apply Ho. set_solver.
  - intros i. rewrite without_object_contents by apply Hinv. rewrite Hc.
    destruct (contents location (rc_extents c) i) as [l|]; [|done].
    destruct (decide (l.1 ∈ ids ++ [id])) as [Hin|Hout].
    + rewrite bool_decide_true by done. destruct (Z.eqb_spec l.1 id) as [->|Hne].
      * rewrite bool_decide_false by set_solver. done.
      * rewrite bool_decide_true by set_solver. done.
    + rewrite !bool_decide_false by set_solver. done.
Qed.

Lemma charge_of_kept c ids c' :
  kept c ids c' → rc_charged_bytes c' = charge_of (rc_objects c) ids.
Proof.
  intros [Hinv Hl _ _ Ho _]. rewrite (charge_of_lru c') by apply Hinv. rewrite Hl. clear Hl.
  unfold charge_of. induction ids as [|id ids IH]; cbn; [done|]. rewrite Ho by set_solver.
  rewrite IH; [done|]. set_solver.
Qed.

(** The eviction loop stops at the longest hot prefix that fits the budget. *)
Lemma evict_loop_spec fuel c ids c1 :
  cache_inv c → 0 ≤ rc_max_bytes c → ids `prefix_of` rc_lru c → kept c ids c1 →
  (∀ k, k `prefix_of` rc_lru c → (length ids < length k)%nat → rc_max_bytes c < charge_of (rc_objects c) k) →
  (length ids ≤ fuel)%nat →
  ∃ ids' c', evict_loop fuel c1 = (Ok tt, c') ∧ kept c ids' c' ∧ ids' `prefix_of` rc_lru c ∧
    rc_charged_bytes c' ≤ rc_max_bytes c ∧
    ∀ k, k `prefix_of` rc_lru c → (length ids' < length k)%nat → rc_max_bytes c < charge_of (rc_objects c) k.
Proof.
  intros Hinv Hmax. revert ids c1. induction fuel as [|fuel IH]; intros ids c1 Hpre Hk Hlong Hfuel.
  all: cbn [evict_loop]; erewrite mseq_ok by done; rewrite (kept_max _ _ _ Hk).
  all: destruct (Z.ltb_spec (rc_max_bytes c) (rc_charged_bytes c1)) as [Hover|Hfit];
    [|exists ids, c1; done].
  all: unfold lru_tail; rewrite (kept_lru _ _ _ Hk).
  all: pose proof (charge_of_kept _ _ _ Hk) as Hch.
  all: destruct (last ids) as [id|] eqn:Hlast;
    [|apply last_None in Hlast; subst ids; cbn in Hch; lia].
  all: apply last_Some in Hlast as [ids0 ->].
  - rewrite length_app in Hfuel. cbn in Hfuel. lia.
  - assert (NoDup (ids0 ++ [id])) as Hnd.
    { rewrite <-(kept_lru _ _ _ Hk). apply (core_nodup _ (inv_core _ (kept_inv _ _ _ Hk))). }
    destruct (kept_evict c ids0 id c1 Hnd Hk) as [Hrun Hk']. rewrite (mseq_ok _ _ _ _ _ Hrun).
    apply (IH ids0); try done.
    + etrans; [|done]. by apply prefix_app_r.
    + intros k Hkp Hlen. destruct (decide (length k = length (ids0 ++ [id]))) as [Heq|Hne].
      * assert (k = ids0 ++ [id]) as ->; [|lia].
        destruct Hkp as [l1 H1], Hpre as [l2 H2]. rewrite H1 in H2.
        by apply app_inj_1 in H2 as [-> _].
      * apply Hlong; [done|]. rewrite length_app in *. cbn in *. lia.
    + rewrite length_app in Hfuel. cbn in Hfuel. lia.
Qed.

Lemma evict_to_budget_spec c :
  cache_inv c → 0 ≤ rc_max_bytes c →
  ∃ ids c', evict_to_budget c = (Ok tt, c') ∧ kept c ids c' ∧ ids `prefix_of` rc_lru c ∧
    rc_charged_bytes c' ≤ rc_max_bytes c ∧
    ∀ k, k `prefix_of` rc_lru c → (length ids < length k)%nat → rc_max_bytes c < charge_of (rc_objects c) k.
Proof.
  intros Hinv Hmax. unfold evict_to_budget. apply (evict_loop_spec _ c (rc_lru c)); try done.
  - by apply kept_refl.
  - intros k [l ->]. rewrite length_app. lia.
Qed.

(** Nothing is evicted when the charge fits. *)
Lemma evict_to_budget_idle c : rc_charged_bytes c ≤ rc_max_bytes c → evict_to_budget c = (Ok tt, c).
Proof.
  intros Hle. unfold evict_to_budget. destruct (length (rc_lru c)); cbn [evict_loop]; erewrite mseq_ok by done;
    by rewrite (proj2 (Z.ltb_ge _ _)) by done.
Qed.
End evict.

(** *** The public operations *)

Section operations_spec.
Implicit Types (c : ReadCache) (range : ByteRange).

(** Between operations the cache also respects its budget. *)
Record cache_ready c : Prop := {
  ready_inv : cache_inv c;
  ready_max : 0 ≤ rc_max_bytes c;
  ready_budget : rc_charged_bytes c ≤ rc_max_bytes c;
}.

(** The range can be cached: its blocks are in the address space and the counters of the cache
    are far from overflow. *)
Definition cacheable range c : Prop :=
  range_ok range ∧ blocks_fit (br_start range + br_len range) ∧
  room (br_len range + 2 * CACHE_BLOCK_BYTES) (br_len range) c.

(** [f] is what the cache holds afterwards, less what is evicted; nothing is when it fits. *)
Definition insert_post c range (f : Z → option byte) (r : outcome ServerError unit * ReadCache) : Prop :=
  ∃ c', r = (Ok tt, c') ∧ cache_ready c' ∧ rc_max_bytes c' = rc_max_bytes c ∧
    rc_next_object_id c ≤ rc_next_object_id c' ≤ rc_next_object_id c + br_len range ∧
    (∀ i, cached c' i = None ∨ cached c' i = f i) ∧
    (rc_charged_bytes c + br_len range + 2 * CACHE_BLOCK_BYTES ≤ rc_max_bytes c → ∀ i, cached c' i = f i).

Lemma windows_bound start len :
  0 ≤ start → 0 < len →
  windows start (start + len) * CACHE_BLOCK_BYTES ≤ len + 2 * CACHE_BLOCK_BYTES ∧
  windows start (start + len) ≤ len / CACHE_BLOCK_BYTES + 2 ∧ windows start (start + len) ≤ len.
Proof. intros. unfold windows, CACHE_BLOCK_BYTES. dlia. Qed.

(** Inserting in every block of the range and then evicting. *)
Lemma insert_range_spec c range body g :
  cache_ready c → cacheable range c → br_len range ≠ 0 →
  let re := br_start range + br_len range in
  (∀ c b s e, cache_inv c → room CACHE_BLOCK_BYTES 1 c → br_start range ≤ s < e → e ≤ re → in_block b s e →
     window_post c (λ i, if (s <=? i) && (i <? e) then g i else cached c i) (body s e c)) →
  insert_post c range (λ i, if (br_start range <=? i) && (i <? re) then g i else cached c i)
    ((let! _ := window_loop (window_fuel range) body (br_start range) (range_end range) in
      evict_to_budget) c).
Proof.
  intros [Hinv Hmax Hbud] (Hr & Hf & Hroom) Hne re Hbody. rewrite range_end_ok by done. fold re.
  pose proof Hr as (? & [? ?] & ?). destruct (windows_bound (br_start range) (br_len range)) as (Hw1 & Hw2 & Hw3); [lia..|].
  fold re in Hw1, Hw2, Hw3. pose proof CACHE_BLOCK_pos.
  pose proof (windows_pos (br_start range) re ltac:(lia)) as Hwp.
  assert (0 ≤ br_len range / CACHE_BLOCK_BYTES) by (apply Z.div_pos; lia).
  destruct (window_loop_spec (window_fuel range) body g (br_start range) re (br_start range) c)
    as (c1 & Hrun & Hinv1 & Hm1 & Hn1 & Hch1 & Hb1);
    [done|done|lia|unfold re; lia|done|unfold room in *; lia|unfold window_fuel; lia|].
  rewrite (mseq_ok _ _ _ _ _ Hrun).
  destruct (evict_to_budget_spec c1 Hinv1) as (ids & c2 & Hrun2 & Hk & _ & Hle & _); [lia|].
  exists c2. split; [done|]. pose proof (kept_max _ _ _ Hk). pose proof (kept_next _ _ _ Hk). split_and!.
  - split; [apply Hk|lia|lia].
  - congruence.
  - lia.
  - lia.
  - intros i. destruct (kept_le _ _ _ i Hk) as [->| ->]; [by left|]. right. apply Hb1.
  - intros Hfit i. rewrite evict_to_budget_idle in Hrun2 by lia. injection Hrun2 as <-. apply Hb1.
Qed.

Lemma insert_post_idle c range f :
  cache_ready c → range_ok range → (∀ i, f i = cached c i) → insert_post c range f (Ok tt, c).
Proof.
  intros Hc (? & [? ?] & ?) Hf. exists c. pose proof CACHE_BLOCK_pos.
  split; [done|]. split; [done|]. split; [done|]. split; [lia|].
  split; [intros i; right; by rewrite Hf|]. intros _ i. by rewrite Hf.
Qed.

Lemma insert_post_ext c range f g r :
  (∀ i, f i = g i) → insert_post c range f r → insert_post c range g r.
Proof.
  intros Hfg (c' & ? & ? & ? & ? & Hb1 & Hb2). exists c'. split; [done|]. split; [done|]. split; [done|].
  split; [done|]. split.
  - intros i. rewrite <-Hfg. apply Hb1.
  - intros Hle i. rewrite <-Hfg. by apply Hb2.
Qed.

Lemma window_post_ext c f g r : (∀ i, f i = g i) → window_post c f r → window_post c g r.
Proof.
  intros Hfg (c' & ? & ? & ? & ? & ? & Hb). exists c'. split_and!; try done. intros i. by rewrite <-Hfg.
Qed.

Lemma insert_bytes_spec c range bytes placement :
  cache_ready c → cacheable range c → zlen bytes = br_len range →
  insert_post c range
    (λ i, if bool_decide (in_byte_range range i) then zget bytes (i - br_start range) else cached c i)
    (insert_bytes range bytes placement c).
Proof.
  intros Hc Hca Hlen. pose proof Hca as (Hr & _ & _). pose proof Hr as (? & [? ?] & ?).
  unfold insert_bytes. rewrite Hlen, Z.eqb_refl. cbn [negb]. unfold br_is_empty.
  destruct (Z.eqb_spec (br_len range) 0) as [Hz|Hz].
  { apply insert_post_idle; [done|done|]. intros i. rewrite bool_decide_false; [done|]. unfold in_byte_range. lia. }
  cbv zeta. eapply insert_post_ext; [|apply (insert_range_spec c range _ (λ i, zget bytes (i - br_start range)) Hc Hca Hz)].
  - intros i. cbn. unfold in_byte_range.
    destruct (Z.leb_spec (br_start range) i), (Z.ltb_spec i (br_start range + br_len range)); cbn;
      case_bool_decide; try done; lia.
  - intros c1 b s e Hinv Hroom Hs He Hb. pose proof Hb as (? & ? & ? & ?). pose proof CACHE_BLOCK_pos.
    rewrite !u64_sub_id by lia. rewrite !usize_try_from_id by lia.
    erewrite mseq_ok by done. erewrite mseq_ok by done.
    erewrite mseq_ok by (unfold mlift; rewrite u64_checked_add_id by lia; reflexivity).
    destruct (slice_exists bytes (s - br_start range) (s - br_start range + (e - s))) as [w Hw]; [lia..|].
    erewrite mseq_ok by (unfold mlift; rewrite Hw; reflexivity).
    eapply window_post_ext; [|apply (insert_window_bytes_spec c1 b s e w placement); try done;
      [apply Hinv|lia|rewrite (slice_length _ _ _ _ Hw); lia]].
    intros i. unfold updated. destruct (Z.leb_spec s i), (Z.ltb_spec i e); cbn [andb]; try done.
    rewrite Z.add_0_l, (slice_get _ _ _ _ (i - s) Hw) by lia. f_equal. lia.
Qed.

Lemma insert_wal_record_slice_spec c range record offset placement :
  cache_ready c → cacheable range c → 0 ≤ offset → offset + br_len range ≤ zlen (rec_data record) →
  zlen (rec_data record) ≤ u64_max →
  insert_post c range
    (λ i, if bool_decide (in_byte_range range i) then zget (rec_data record) (offset + (i - br_start range))
          else cached c i)
    (insert_wal_record_slice range record offset placement c).
Proof.
  intros Hc Hca Ho1 Ho2 Ho3. pose proof Hca as (Hr & _ & _). pose proof Hr as (? & [? ?] & ?).
  unfold insert_wal_record_slice. rewrite u64_checked_add_id by lia.
  rewrite (proj2 (Z.ltb_ge _ _)) by lia. unfold br_is_empty.
  destruct (Z.eqb_spec (br_len range) 0) as [Hz|Hz].
  { apply insert_post_idle; [done|done|]. intros i. rewrite bool_decide_false; [done|]. unfold in_byte_range. lia. }
  cbv zeta. eapply insert_post_ext;
    [|apply (insert_range_spec c range _ (λ i, zget (rec_data record) (offset + (i - br_start range))) Hc Hca Hz)].
  - intros i. cbn. unfold in_byte_range.
    destruct (Z.leb_spec (br_start range) i), (Z.ltb_spec i (br_start range + br_len range)); cbn;
      case_bool_decide; try done; lia.
  - intros c1 b s e Hinv Hroom Hs He Hb. pose proof Hb as (? & ? & ? & ?). pose proof CACHE_BLOCK_pos.
    rewrite !u64_sub_id by lia.
    erewrite mseq_ok by (unfold mlift; rewrite u64_checked_add_id by lia; reflexivity).
    eapply window_post_ext; [|apply (insert_window_wal_record_spec c1 b s e record _ placement); try done;
      [apply Hinv|lia|lia|lia]].
    intros i. unfold updated. destruct (Z.leb_spec s i), (Z.ltb_spec i e); cbn; try done. f_equal. lia.
Qed.

Lemma trim_range_spec c range :
  cache_ready c → range_ok range →
  ∃ c', trim_range range c = (Ok tt, c') ∧ cache_ready c' ∧ rc_max_bytes c' = rc_max_bytes c ∧
    rc_next_object_id c' = rc_next_object_id c ∧
    ∀ i, cached c' i = if bool_decide (in_byte_range range i) then None else cached c i.
Proof.
  intros Hc Hr. pose proof Hr as (? & [? ?] & ?). pose proof Hc as [Hinv Hmax Hbud].
  unfold trim_range, br_is_empty. destruct (Z.eqb_spec (br_len range) 0) as [Hz|Hz].
  { exists c. split_and!; try done. intros i. rewrite bool_decide_false; [done|]. unfold in_byte_range. lia. }
  rewrite range_end_ok by done.
  destruct (remove_extents_spec c (br_start range) (br_start range + br_len range) (inv_core _ Hinv))
    as (removed & m1 & Hrun & _ & Hc1 & Hb1); [lia|].
  rewrite (mseq_ok _ _ _ _ _ Hrun). unfold mmodify, rebuild_backrefs_and_gc.
  destruct (gc_spec 0 None Hot _ Hc1) as (Hinv2 & Hm2 & Hn2 & Hch2 & Hb2).
  eexists. split; [reflexivity|]. cbn [with_extents rc_max_bytes rc_next_object_id rc_charged_bytes] in *.
  split_and!; try done.
  - split; [done|lia|lia].
  - intros i. rewrite Hb2, Hb1. unfold in_byte_range.
    destruct (Z.leb_spec (br_start range) i), (Z.ltb_spec i (br_start range + br_len range)); cbn;
      case_bool_decide; try done; lia.
Qed.

Lemma promote_hits_spec hits c :
  cache_inv c →
  let c' := promote_hits hits c in
  cache_inv c' ∧ rc_extents c' = rc_extents c ∧ rc_objects c' = rc_objects c ∧
  rc_max_bytes c' = rc_max_bytes c ∧ rc_charged_bytes c' = rc_charged_bytes c ∧
  rc_next_object_id c' = rc_next_object_id c ∧ rc_lru c' ≡ₚ rc_lru c.
Proof.
  unfold promote_hits. revert c. induction hits as [|id hits IH]; intros c Hinv; cbn [foldl]; [done|].
  assert (cache_inv (promote_hit c id) ∧ rc_lru (promote_hit c id) ≡ₚ rc_lru c) as [Hinv1 Hl1].
  { unfold promote_hit. destruct (bt_get id (rc_objects c)) as [o|] eqn:Hg; [|done].
    assert (lru_promote id (rc_lru c) ≡ₚ rc_lru c) as Hp.
    { apply lru_promote_perm; [apply Hinv|]. apply (core_lru _ (inv_core _ Hinv)), list_elem_of_fmap.
      exists (id, o). split; [done|]. apply bt_get_elem; [apply Hinv|done]. }
    split; [by apply with_lru_inv|done]. }
  destruct (IH _ Hinv1) as (? & He & Ho & Hm & Hch & Hn & Hl).
  assert (rc_extents (promote_hit c id) = rc_extents c ∧ rc_objects (promote_hit c id) = rc_objects c ∧
    rc_max_bytes (promote_hit c id) = rc_max_bytes c ∧ rc_charged_bytes (promote_hit c id) = rc_charged_bytes c ∧
    rc_next_object_id (promote_hit c id) = rc_next_object_id c) as (? & ? & ? & ? & ?).
  { unfold promote_hit. by destruct (bt_get id (rc_objects c)). }
  rewrite Hl, Hl1. split; [done|]. split_and!; by etrans.
Qed.

(** *** Reading *)

(** A slice inside the range whose bytes are those of [f]. *)
Definition cache_slice_ok (f : Z → option byte) range (sl : CacheReadSlice) : Prop :=
  br_start range ≤ crs_start sl < crs_end sl ∧ crs_end sl ≤ br_start range + br_len range ∧
  0 ≤ crs_object_offset sl ∧
  crs_object_offset sl + (crs_end sl - crs_start sl) ≤ zlen (payload_data (crs_payload sl)) ∧
  zlen (payload_data (crs_payload sl)) ≤ u64_max ∧
  ∀ i, crs_start sl ≤ i < crs_end sl →
    zget (payload_data (crs_payload sl)) (crs_object_offset sl + (i - crs_start sl)) = f i ∧ is_Some (f i).

Lemma cache_read_slices_spec c range :
  cache_core c → range_ok range → br_len range ≠ 0 →
  ∃ slices, cache_read_slices c range = Ok slices ∧
    (∀ sl, sl ∈ slices → cache_slice_ok (cached c) range sl) ∧
    ∀ i, in_byte_range range i →
      is_Some (cached c i) ↔ ∃ sl, sl ∈ slices ∧ crs_start sl ≤ i < crs_end sl.
Proof.
  intros Hc Hr Hne. pose proof Hr as (? & [? ?] & ?). pose proof Hc as [Hwf _ _ _ _ _ _ _ _].
  unfold cache_read_slices. rewrite range_end_ok by done. rewrite overlapping_eq by (done || lia). cbn [obind].
  set (start := br_start range) in *. set (end_ := start + br_len range) in *.
  assert (∀ p, p ∈ rc_extents c → meets start end_ p → ∃ sl,
    cache_read_slice (rc_objects c) start end_ (extent_ref p.1 p.2) = Ok sl ∧
    crs_start sl = Z.max start p.1 ∧ crs_end sl = Z.min end_ (ext_end p.2) ∧
    cache_slice_ok (cached c) range sl) as Hslice.
  { intros [s x] Hp [Hm1 Hm2]. destruct (extent_object c (s, x) Hc Hp) as (o & _ & Hg & Hok & Hoff & Hst & He).
    pose proof (object_block_bound _ _ Hok) as (? & ? & ?). destruct Hok as [_ Hlen Hpay _ _].
    pose proof Hwf as (_ & Hn & _). specialize (Hn _ Hp). cbn in *.
    unfold cache_read_slice. cbn [extent_ref ee_start ee_end ee_value fst snd]. rewrite Hg. cbn [ok_or obind].
    rewrite u64_sub_id by lia. rewrite u64_checked_add_id by lia. cbn [ok_or obind].
    eexists. split; [reflexivity|]. split; [done|]. split; [done|].
    unfold cache_slice_ok. cbn. fold start end_. split_and!; try lia. intros i Hi.
    assert (cached c i = zget (payload_data (co_payload o)) (cx_object_offset (ext_value x) + (i - s))) as Hci.
    { unfold cached, contents. rewrite (proj2 (em_find_Some _ i (s, x) Hwf)) by (cbn; split; [done|lia]). cbn.
      unfold object_byte. cbn. by rewrite Hg. }
    rewrite Hci. split; [f_equal; lia|]. apply zget_is_Some. lia. }
  destruct (try_map_total (cache_read_slice (rc_objects c) start end_)
    (em_iter (filter (meets start end_) (rc_extents c)))) as (slices & -> & Hin).
  { intros e (s & x & [Hm Hp]%list_elem_of_filter & ->)%em_iter_elem.
    destruct (Hslice _ Hp Hm) as (sl & Hsl & _). cbn in Hsl. eauto. }
  exists slices. split; [done|].
  assert (∀ sl, sl ∈ slices → cache_slice_ok (cached c) range sl) as Hall.
  { intros sl (e & (s & x & [Hm Hp]%list_elem_of_filter & ->)%em_iter_elem & He)%Hin.
    destruct (Hslice _ Hp Hm) as (sl' & Hsl & _ & _ & Hok). cbn in Hsl. rewrite He in Hsl. by injection Hsl as ->. }
  split; [done|]. intros i Hi. unfold in_byte_range in Hi. fold start in Hi. fold end_ in Hi. split.
  - intros [v Hv]. unfold cached, contents in Hv. destruct (em_find (rc_extents c) i) as [p|] eqn:Hf; [|done].
    apply em_find_Some in Hf as [Hp Hpi]; [|done].
    assert (meets start end_ p) as Hm by (unfold meets; lia).
    destruct (Hslice p Hp Hm) as (sl & Hsl & Hs1 & Hs2 & _). exists sl. split; [|lia].
    apply Hin. exists (extent_ref p.1 p.2). split; [|done]. apply em_iter_elem. exists p.1, p.2.
    split; [|done]. apply list_elem_of_filter. by destruct p.
  - intros (sl & Hsl & Hsi). destruct (Hall sl Hsl) as (_ & _ & _ & _ & _ & Hb). by apply Hb.
Qed.

(** Copying a slice of the cache into the buffer of a read of [read_range]. *)
Lemma cache_slice_copy_spec f range sl read_range data :
  cache_slice_ok f range sl → range_ok range → range_ok read_range → zlen data = br_len read_range →
  ∃ data', cache_slice_copy_to sl read_range data = Ok data' ∧ zlen data' = br_len read_range ∧
    ∀ i, in_byte_range read_range i →
      zget data' (i - br_start read_range) =
        if (crs_start sl <=? i) && (i <? crs_end sl) then f i else zget data (i - br_start read_range).
Proof.
  intros (H1 & H2 & H3 & H4 & H5 & H6) Hr Hrr Hlen. pose proof Hr as (? & [? ?] & ?).
  pose proof Hrr as (? & [? ?] & ?). unfold cache_slice_copy_to, in_byte_range. rewrite range_end_ok by done.
  set (start := br_start read_range) in *. set (end_ := start + br_len read_range) in *.
  destruct (Z.leb_spec (Z.min end_ (crs_end sl)) (Z.max start (crs_start sl))) as [Hle|Hgt].
  { exists data. split_and!; try done. intros i Hi.
    destruct (Z.leb_spec (crs_start sl) i), (Z.ltb_spec i (crs_end sl)); cbn; try done. lia. }
  rewrite !u64_sub_id by lia. rewrite usize_try_from_id by lia. cbn [ok_or obind].
  rewrite u64_checked_add_id by lia. cbn [ok_or obind].
  destruct (payload_copy_to_ok (crs_payload sl)
    (crs_object_offset sl + (Z.max start (crs_start sl) - crs_start sl))
    (Z.min end_ (crs_end sl) - Z.max start (crs_start sl)) data (Z.max start (crs_start sl) - start))
    as (data' & Hrun & Hl' & Hg); [lia..|].
  exists data'. split; [done|]. split; [lia|]. intros i Hi. rewrite Hg.
  destruct (Z.leb_spec (crs_start sl) i), (Z.ltb_spec i (crs_end sl)); cbn.
  1: rewrite (proj2 (Z.leb_le _ _)), (proj2 (Z.ltb_lt _ _)) by lia; cbn; rewrite <-(proj1 (H6 i ltac:(lia)));
     f_equal; lia.
  all: destruct (Z.leb_spec (Z.max start (crs_start sl) - start) (i - start)),
    (Z.ltb_spec (i - start) (Z.max start (crs_start sl) - start + (Z.min end_ (crs_end sl) - Z.max start (crs_start sl))));
    cbn; try done; lia.
Qed.
End operations_spec.

(** ** Theorems *)

Inductive CacheOp : Type :=
| OpInsertBytes (range : ByteRange) (bytes : list byte) (placement : CacheInsertPlacement)
| OpInsertWal (range : ByteRange) (record : WalRecord) (offset : Z) (placement : CacheInsertPlacement)
| OpTrim (range : ByteRange)
| OpPromote (hits : list Z).

Definition run_cache_op (op : CacheOp) : CM unit :=
  match op with
  | OpInsertBytes range bytes placement => insert_bytes range bytes placement
  | OpInsertWal range record offset placement => insert_wal_record_slice range record offset placement
  | OpTrim range => trim_range range
  | OpPromote hits => mmodify (promote_hits hits)
  end.

(** The arguments fit the machine; lengths and offsets may still be wrong. *)
Definition cache_op_ok (op : CacheOp) (c : ReadCache) : Prop :=
  match op with
  | OpInsertBytes range _ _ => cacheable range c
  | OpInsertWal range record offset _ =>
      cacheable range c ∧ 0 ≤ offset ∧ zlen (rec_data record) ≤ u64_max
  | OpTrim range => range_ok range
  | OpPromote _ => True
  end.

(** The empty cache. *)
Lemma ReadCache_new_ready max_bytes : 0 ≤ max_bytes → cache_ready (ReadCache_new max_bytes).
Proof.
  intros Hm. split; [split; [split; cbn|]|done|done].
  - apply em_wf_nil.
  - apply bt_sorted_nil.
  - intros p Hp. by apply not_elem_of_nil in Hp.
  - intros p Hp. by apply not_elem_of_nil in Hp.
  - constructor.
  - done.
  - done.
  - unfold u64_max. lia.
  - unfold u64_max. lia.
  - intros p Hp. by apply not_elem_of_nil in Hp.
Qed.

(** C26: every operation keeps the invariant of the cache (extents disjoint and inside live
    objects of one block, back references exact, the charge the sum of the objects, the list a
    permutation of them, the budget respected) or refuses its arguments and changes nothing;
    no operation panics. *)
Theorem cache_op_safe op c :
  cache_ready c → cache_op_ok op c →
  match run_cache_op op c with
  | (Ok _, c') => cache_ready c' ∧ rc_max_bytes c' = rc_max_bytes c
  | (Err _, c') => c' = c
  | (Panic, _) => False
  end.
Proof.
  intros Hc Hop. destruct op as [range bytes placement|range record offset placement|range|hits]; cbn in *.
  - destruct (Z.eq_dec (zlen bytes) (br_len range)) as [Hl|Hl].
    + destruct (insert_bytes_spec c range bytes placement Hc Hop Hl) as (c' & -> & ? & ? & _). done.
    + unfold insert_bytes. by rewrite (proj2 (Z.eqb_neq _ _)) by done.
  - destruct Hop as (Hca & Ho & Hu). destruct (Z.le_gt_cases (offset + br_len range) (zlen (rec_data record))) as [Hle|Hgt].
    + destruct (insert_wal_record_slice_spec c range record offset placement Hc Hca Ho Hle Hu) as (c' & -> & ? & ? & _). done.
    + unfold insert_wal_record_slice. destruct (u64_checked_add offset (br_len range)) as [e|] eqn:He; [|done].
      apply u64_checked_add_Some in He as [_ ->]. by rewrite (proj2 (Z.ltb_lt _ _)) by lia.
  - destruct (trim_range_spec c range Hc Hop) as (c' & -> & ? & ? & _). done.
  - destruct (promote_hits_spec hits c (ready_inv _ Hc)) as (? & _ & _ & Hm & Hch & _). split; [|done].
    destruct Hc. split; [done|lia|lia].
Qed.

Lemma cacheable_sample : cacheable (mkRange 4096 8) (ReadCache_new 1024).
Proof. by_compute. Qed.

Lemma cache_op_safe_witness :
  cache_ready (run_cache_op (OpInsertBytes (mkRange 4096 8) (zeros 8) Hot) (ReadCache_new 1024)).2.
Proof.
  pose proof (cache_op_safe (OpInsertBytes (mkRange 4096 8) (zeros 8) Hot) (ReadCache_new 1024)
    (ReadCache_new_ready 1024 ltac:(lia)) cacheable_sample) as H.
  destruct (run_cache_op _ (ReadCache_new 1024)) as [[u|e|] c'] eqn:Hr.
  - exact (proj1 H).
  - vm_compute in Hr. discriminate Hr.
  - destruct H.
Defined.

(** A byte inserted in the cache is the byte the cache then has there.  [insert_bytes] of a
    buffer of the length of the range succeeds; afterwards a position is either not cached or
    cached with the new byte inside the range and with the old one outside, and nothing is lost
    when the budget has room for the blocks the range meets. *)
Theorem cache_insert_bytes_exact c range bytes placement :
  cache_ready c → cacheable range c → zlen bytes = br_len range →
  ∃ c', insert_bytes range bytes placement c = (Ok tt, c') ∧ cache_ready c' ∧
    let expected i :=
      if bool_decide (in_byte_range range i) then zget bytes (i - br_start range) else cached c i in
    (∀ i, cached c' i = None ∨ cached c' i = expected i) ∧
    (rc_charged_bytes c + br_len range + 2 * CACHE_BLOCK_BYTES ≤ rc_max_bytes c →
     ∀ i, cached c' i = expected i).
Proof.
  intros Hc Hca Hl. destruct (insert_bytes_spec c range bytes placement Hc Hca Hl)
    as (c' & Hrun & Hr & _ & _ & H1 & H2). eauto.
Qed.

Lemma cache_insert_bytes_exact_witness :
  ∃ c', insert_bytes (mkRange 4096 8) (zeros 8) Hot (ReadCache_new (8 * CACHE_BLOCK_BYTES)) = (Ok tt, c') ∧
        cached c' 4100 = Some x00 ∧ cached c' 4104 = None.
Proof.
  destruct (cache_insert_bytes_exact (ReadCache_new (8 * CACHE_BLOCK_BYTES)) (mkRange 4096 8) (zeros 8) Hot)
    as (c' & Hrun & _ & _ & H).
  - apply ReadCache_new_ready. by_compute.
  - by_compute.
  - reflexivity.
  - exists c'. split; [exact Hrun|]. rewrite !H by by_compute. split; reflexivity.
Defined.

(** The same for the slices of log records a compaction retires into the cache, whether the
    record itself is kept or its bytes are merged with the neighbours. *)
Theorem cache_insert_wal_exact c range record offset placement :
  cache_ready c → cacheable range c → 0 ≤ offset → offset + br_len range ≤ zlen (rec_data record) →
  zlen (rec_data record) ≤ u64_max →
  ∃ c', insert_wal_record_slice range record offset placement c = (Ok tt, c') ∧ cache_ready c' ∧
    let expected i :=
      if bool_decide (in_byte_range range i) then zget (rec_data record) (offset + (i - br_start range))
      else cached c i in
    (∀ i, cached c' i = None ∨ cached c' i = expected i) ∧
    (rc_charged_bytes c + br_len range + 2 * CACHE_BLOCK_BYTES ≤ rc_max_bytes c →
     ∀ i, cached c' i = expected i).
Proof.
  intros Hc Hca H1 H2 H3. destruct (insert_wal_record_slice_spec c range record offset placement Hc Hca H1 H2 H3)
    as (c' & Hrun & Hr & _ & _ & Hb1 & Hb2). eauto.
Qed.

Lemma cache_insert_wal_exact_witness :
  let record := sample_write 1 4096 (zeros 16) in
  ∃ c', insert_wal_record_slice (mkRange 4100 8) record 4 Cold (ReadCache_new (8 * CACHE_BLOCK_BYTES)) = (Ok tt, c') ∧
        cached c' 4107 = Some x00 ∧ cached c' 4108 = None.
Proof.
  intros record.
  destruct (cache_insert_wal_exact (ReadCache_new (8 * CACHE_BLOCK_BYTES)) (mkRange 4100 8) record 4 Cold)
    as (c' & Hrun & _ & _ & H).
  - apply ReadCache_new_ready. by_compute.
  - by_compute.
  - by_compute.
  - by_compute.
  - by_compute.
  - exists c'. split; [exact Hrun|]. rewrite !H by by_compute. split; reflexivity.
Defined.

(** C27: eviction is least-recently-used and no more than needed.  [evict_to_budget] ends with the
    longest prefix of the list, hottest first, whose objects fit the budget; the bytes of those
    objects stay cached and all others are gone. *)
Theorem evict_keeps_hottest c :
  cache_inv c → 0 ≤ rc_max_bytes c →
  ∃ c', evict_to_budget c = (Ok tt, c') ∧ cache_inv c' ∧ rc_charged_bytes c' ≤ rc_max_bytes c ∧
    rc_lru c' `prefix_of` rc_lru c ∧
    (∀ k, k `prefix_of` rc_lru c → (length (rc_lru c') < length k)%nat →
       rc_max_bytes c < charge_of (rc_objects c) k) ∧
    ∀ i, cached c' i =
      match contents location (rc_extents c) i with
      | Some l => if bool_decide (l.1 ∈ rc_lru c') then cached c i else None
      | None => None
      end.
Proof.
  intros Hinv Hmax. destruct (evict_to_budget_spec c Hinv Hmax) as (ids & c' & Hrun & Hk & Hpre & Hle & Hlong).
  exists c'. pose proof (kept_lru _ _ _ Hk) as Hl. subst ids. split_and!; try done; [apply Hk|].
  intros i. by apply kept_cached.
Qed.

(** A cache of two objects whose budget holds one. *)
Definition two_objects : ReadCache :=
  let c := (insert_bytes (mkRange 0 8) (zeros 8) Hot (ReadCache_new 1024)).2 in
  let c := (insert_bytes (mkRange 64 8) (zeros 8) Hot c).2 in
  mkCache (rc_extents c) (rc_objects c) (rc_lru c) 8 (rc_charged_bytes c) (rc_next_object_id c).

Lemma two_objects_inv : cache_inv two_objects.
Proof.
  destruct (insert_bytes_spec (ReadCache_new 1024) (mkRange 0 8) (zeros 8) Hot) as (c1 & H1 & Hr1 & _).
  { by apply ReadCache_new_ready. }
  { by_compute. }
  { done. }
  destruct (insert_bytes_spec c1 (mkRange 64 8) (zeros 8) Hot) as (c2 & H2 & Hr2 & _).
  { done. }
  { vm_compute in H1. injection H1 as <-. by_compute. }
  { done. }
  unfold two_objects. rewrite H1. cbn [snd]. rewrite H2. cbn [snd].
  destruct (ready_inv _ Hr2) as [[? ? ? ? ? ? ? ? ?] Hb]. by split.
Qed.

Lemma evict_keeps_hottest_witness :
  ∃ c', evict_to_budget two_objects = (Ok tt, c') ∧ cached c' 65 = Some x00 ∧ cached c' 1 = None.
Proof.
  destruct (evict_keeps_hottest two_objects two_objects_inv) as (c' & Hrun & _ & _ & _ & _ & Hc).
  - by_compute.
  - exists c'. split; [exact Hrun|]. rewrite !Hc. vm_compute in Hrun. injection Hrun as <-. split; reflexivity.
Defined.

(** Trimming a range forgets exactly its bytes. *)
Theorem cache_trim_exact c range :
  cache_ready c → range_ok range →
  ∃ c', trim_range range c = (Ok tt, c') ∧ cache_ready c' ∧
    ∀ i, cached c' i = if bool_decide (in_byte_range range i) then None else cached c i.
Proof.
  intros Hc Hr. destruct (trim_range_spec c range Hc Hr) as (c' & Hrun & ? & _ & _ & Hb). eauto.
Qed.

Lemma cache_trim_exact_witness :
  ∃ c', trim_range (mkRange 0 4096) (ReadCache_new 1024) = (Ok tt, c') ∧ cached c' 0 = None.
Proof.
  destruct (cache_trim_exact (ReadCache_new 1024) (mkRange 0 4096)) as (c' & Hrun & _ & Hc).
  - apply ReadCache_new_ready. lia.
  - by_compute.
  - exists c'. split; [exact Hrun|]. rewrite Hc. reflexivity.
Defined.
