(* ===== verification/ReadView.v ===== *)
(** * The read view of an open export

    [engines/wal_durable/read_view.rs]: the committed root of an export, the overlay of the log
    records above it and the read cache, with the tree readers that fetch committed bytes.  The
    view is written against the [TreeReader] interface of [engines/tree/read.rs].

    A read takes the lock of the view twice: it plans under the first ([read_begin]), fetches from the
    plan without any lock ([read_fetch]) and fills the cache under the second ([read_finish]). *)

From S2P Require Import Prelude BTree ControlPlane Server ExtentMap Wal Overlay ReadCache Geometry Catalog Tree Storage.

#[local] Open Scope string_scope.
#[local] Open Scope list_scope.
#[local] Open Scope Z_scope.

Definition DEFAULT_READ_CACHE_BYTES : Z := 1024 * 1024 * 1024.

(** ** Roots *)

Inductive RootBacking : Type :=
| BackingZero (root_node_id : option NodeId) (base_wal_seq : WalSeq) (size_bytes : Z)
| BackingCowHead (root_node_id : option NodeId) (base_wal_seq : WalSeq) (size_bytes : Z)
    (tree_format : TreeFormat).

(** [RootSnapshot] holds its backing and nothing else. *)
Record RootSnapshot := mkRoot { rs_backing : RootBacking }.

#[export] Instance RootBacking_eq_dec : EqDecision RootBacking.
Proof. solve_decision. Defined.
#[export] Instance RootSnapshot_eq_dec : EqDecision RootSnapshot.
Proof. solve_decision. Defined.

Definition RootSnapshot_from_meta (meta : ExportRecord) : RootSnapshot :=
  mkRoot (BackingZero (root_node_id (r_head meta)) (base_wal_seq (r_head meta)) (size_bytes (r_head meta))).

Definition RootSnapshot_from_head (head : ExportHead) : SResult RootSnapshot :=
  if bool_decide (layout_kind head ≠ CowImmutableTree) then
    Err (SCatalog "WAL root requires cow_immutable_tree head, got {}" None)
  else
    let? format := ok_or (tree_format head) (SCatalog "WAL root head is missing tree format" None) in
    Ok (mkRoot (BackingCowHead (root_node_id head) (base_wal_seq head) (size_bytes head) format)).

Definition rs_root_node_id (r : RootSnapshot) : option NodeId :=
  match rs_backing r with BackingZero id _ _ | BackingCowHead id _ _ _ => id end.
Definition rs_base_wal_seq (r : RootSnapshot) : WalSeq :=
  match rs_backing r with BackingZero _ seq _ | BackingCowHead _ seq _ _ => seq end.
Definition rs_size_bytes (r : RootSnapshot) : Z :=
  match rs_backing r with BackingZero _ _ size | BackingCowHead _ _ size _ => size end.
Definition is_zero_backed (r : RootSnapshot) : bool :=
  match rs_backing r with BackingZero _ _ _ => true | BackingCowHead _ _ _ _ => false end.
Definition rs_tree_format (r : RootSnapshot) : option TreeFormat :=
  match rs_backing r with BackingZero _ _ _ => None | BackingCowHead _ _ _ format => Some format end.

Definition to_export_head (r : RootSnapshot) : SResult ExportHead :=
  map_err ServerError_catalog
    (new_with_tree_format CowImmutableTree (rs_root_node_id r) (rs_size_bytes r) (rs_base_wal_seq r)
       (rs_tree_format r)).

(** ** Ranges *)

Definition validate_request_range (operation : string) (offset length size_bytes : Z) : SResult unit :=
  let? end_ := ok_or (u64_checked_add offset length) (OutOfBounds operation offset length size_bytes) in
  if size_bytes <? end_ then Err (OutOfBounds operation offset length size_bytes) else Ok tt.

Definition validate_range (operation : string) (range : ByteRange) (size_bytes : Z) : SResult unit :=
  validate_request_range operation (br_start range) (br_len range) size_bytes.

Definition byte_range_from_bounds (start end_ : Z) : SResult ByteRange :=
  let? len := ok_or (u64_checked_sub end_ start)
                (ServerError_wal "build byte range" "range end before start") in
  let? len := ok_or (u32_try_from len)
                (ServerError_wal "build byte range" "range length does not fit u32") in
  Ok (mkRange start len).

(** The loop of [gaps_in_range] over the sorted spans: the gaps and the cursor at its end. *)
Fixpoint gaps_loop (start end_ cursor : Z) (spans : list (Z * Z)) : SResult (list ByteRange * Z) :=
  match spans with
  | [] => Ok ([], cursor)
  | (span_start, span_end) :: spans =>
      let span_start := Z.max span_start start in
      let span_end := Z.min span_end end_ in
      if span_end <=? cursor then gaps_loop start end_ cursor spans
      else
        let? gap := if cursor <? span_start
                    then let? gap := byte_range_from_bounds cursor span_start in Ok [gap]
                    else Ok [] in
        let cursor := Z.max cursor span_end in
        if cursor =? end_ then Ok (gap, cursor)
        else
          let? (gaps, cursor) := gaps_loop start end_ cursor spans in
          Ok (gap ++ gaps, cursor)
  end.

Definition gaps_in_range (range : ByteRange) (spans : list (Z * Z)) : SResult (list ByteRange) :=
  let start := br_start range in
  let end_ := range_end range in
  let? (gaps, cursor) := gaps_loop start end_ start (sort_spans spans) in
  if cursor <? end_ then
    let? gap := byte_range_from_bounds cursor end_ in Ok (gaps ++ [gap])
  else Ok gaps.

(** ** The view *)

Record ExportReadViewState := mkView {
  vs_root : RootSnapshot;
  vs_last_applied_seq : WalSeq;
  vs_wal_debt_bytes : Z;
  vs_overlay : btree (Extent OverlayExtent);
  vs_cache : ReadCache;
}.

Record ReadViewCompactionSnapshot := mkSnapshot {
  sn_root : RootSnapshot;
  sn_target_wal_seq : WalSeq;
  sn_wal_debt_bytes : Z;
  sn_overlay : btree (Extent OverlayExtent);
}.

Definition with_root (r : RootSnapshot) (v : ExportReadViewState) : ExportReadViewState :=
  mkView r (vs_last_applied_seq v) (vs_wal_debt_bytes v) (vs_overlay v) (vs_cache v).
Definition with_last_applied (seq : WalSeq) (v : ExportReadViewState) : ExportReadViewState :=
  mkView (vs_root v) seq (vs_wal_debt_bytes v) (vs_overlay v) (vs_cache v).
Definition with_debt (n : Z) (v : ExportReadViewState) : ExportReadViewState :=
  mkView (vs_root v) (vs_last_applied_seq v) n (vs_overlay v) (vs_cache v).
Definition with_overlay (m : btree (Extent OverlayExtent)) (v : ExportReadViewState) : ExportReadViewState :=
  mkView (vs_root v) (vs_last_applied_seq v) (vs_wal_debt_bytes v) m (vs_cache v).
Definition with_cache (c : ReadCache) (v : ExportReadViewState) : ExportReadViewState :=
  mkView (vs_root v) (vs_last_applied_seq v) (vs_wal_debt_bytes v) (vs_overlay v) c.

Abbreviation VM A := (M ExportReadViewState ServerError A) (only parsing).

Definition on_overlay {A} (m : M (btree (Extent OverlayExtent)) ServerError A) : VM A :=
  zoom vs_overlay with_overlay m.
Definition on_cache {A} (m : M ReadCache ServerError A) : VM A := zoom vs_cache with_cache m.

Definition new_with_cache_budget (root : RootSnapshot) (cache_bytes : Z) : ExportReadViewState :=
  mkView root (rs_base_wal_seq root) 0 OverlayExtentMap_new (ReadCache_new cache_bytes).

Definition ExportReadView_new (root : RootSnapshot) : ExportReadViewState :=
  new_with_cache_budget root DEFAULT_READ_CACHE_BYTES.

Definition view_export_head (v : ExportReadViewState) : SResult ExportHead := to_export_head (vs_root v).

Definition capture_compaction_snapshot (v : ExportReadViewState) : option ReadViewCompactionSnapshot :=
  if (vs_last_applied_seq v <=? rs_base_wal_seq (vs_root v)) || overlay_is_empty (vs_overlay v) then None
  else Some (mkSnapshot (vs_root v) (vs_last_applied_seq v) (vs_wal_debt_bytes v) (vs_overlay v)).

(** *** Reading *)

(** What a read takes out of the view under the read lock. *)
Record ReadPlan := mkPlan {
  rp_root : RootSnapshot;
  rp_overlay_slices : list OverlayReadSlice;
  rp_cache_slices : list CacheReadSlice;
  rp_tree_misses : list ByteRange;
}.

Definition read_begin (range : ByteRange) (v : ExportReadViewState) : SResult ReadPlan :=
  let? _ := validate_range "read" range (rs_size_bytes (vs_root v)) in
  let? overlay_slices := read_slices (vs_overlay v) range in
  let overlay_spans := (λ sl, (sl_start sl, sl_end sl)) <$> overlay_slices in
  let? cache_ranges := gaps_in_range range overlay_spans in
  let? cache_slices := try_map (cache_read_slices (vs_cache v)) cache_ranges in
  let cache_slices := concat cache_slices in
  let covered_spans := overlay_spans ++ ((λ sl, (crs_start sl, crs_end sl)) <$> cache_slices) in
  let? tree_misses := gaps_in_range range covered_spans in
  Ok (mkPlan (vs_root v) overlay_slices cache_slices tree_misses).

(** [for x in l { copy(x, &mut data)? }]. *)
Fixpoint copy_each {A} (copy : A → list byte → SResult (list byte)) (l : list A) (data : list byte)
    : SResult (list byte) :=
  match l with
  | [] => Ok data
  | x :: l => let? data := copy x data in copy_each copy l data
  end.

Definition copy_tree_block (read_range : ByteRange) (block : Block) (data : list byte)
    : SResult (list byte) :=
  let block_range := b_range block in
  if (range_end read_range <? range_end block_range) || (br_start block_range <? br_start read_range) then
    Err (ServerError_wal "read committed backing"
           "tree reader returned range {:?} outside requested range {:?}")
  else
    let? materialized := Tree.materialize block in
    if negb (zlen materialized =? br_len block_range) then
      Err (ServerError_wal "read committed backing" "backing returned {} bytes for {} byte range")
    else
      let? dst_start := ok_or (usize_try_from (u64_sub (br_start block_range) (br_start read_range)))
                          (ServerError_wal "read committed backing" "read range offset does not fit usize") in
      or_panic (splice data dst_start materialized).

Definition overlay_record (read_range : ByteRange) (overlay : OverlayReadSlice) (data : list byte)
    : SResult (list byte) :=
  let start := Z.max (br_start read_range) (sl_start overlay) in
  let end_ := Z.min (range_end read_range) (sl_end overlay) in
  if end_ <=? start then Ok data
  else
    let? dst_start := ok_or (usize_try_from (u64_sub start (br_start read_range)))
                        (ServerError_wal "overlay WAL record" "read range offset does not fit usize") in
    let? src_start := ok_or (usize_try_from (u64_add (sl_offset overlay) (u64_sub start (sl_start overlay))))
                        (ServerError_wal "overlay WAL record" "record range offset does not fit usize") in
    let? len := ok_or (usize_try_from (u64_sub end_ start))
                  (ServerError_wal "overlay WAL record" "overlap does not fit usize") in
    let? _ := or_panic (slice data dst_start (u64_add dst_start len)) in
    let? src := or_panic (slice (rec_data (sl_record overlay)) src_start (u64_add src_start len)) in
    or_panic (splice data dst_start src).

(** The closure of [insert_tree_block_fills] for one hole of a data part. *)
Definition fill_hole (range : ByteRange) (bytes : list byte) (hole : ByteRange) : VM unit :=
  let! bytes_start := mlift (ok_or (usize_try_from (u64_sub (br_start hole) (br_start range)))
    (ServerError_wal "insert tree cache fill" "slice start does not fit usize")) in
  let! len := mlift (ok_or (usize_try_from (br_len hole))
    (ServerError_wal "insert tree cache fill" "slice length does not fit usize")) in
  let! bytes_end := mlift (ok_or (u64_checked_add bytes_start len)
    (ServerError_wal "insert tree cache fill" "slice overflowed")) in
  let! window := mlift (or_panic (slice bytes bytes_start bytes_end)) in
  on_cache (insert_bytes hole window Hot).

Definition fill_part (part : BlockPart) : VM unit :=
  match part with
  | BlockZero _ => mret tt
  | BlockData range bytes =>
      let! v := mget in
      let! overlay_slices := mlift (read_slices (vs_overlay v) range) in
      let! cache_slices := mlift (cache_read_slices (vs_cache v) range) in
      let covered_spans := ((λ sl, (sl_start sl, sl_end sl)) <$> overlay_slices) ++
                           ((λ sl, (crs_start sl, crs_end sl)) <$> cache_slices) in
      let! holes := mlift (gaps_in_range range covered_spans) in
      mfor holes (fill_hole range bytes)
  end.

Definition insert_tree_block_fills (block : Block) : VM unit := mfor (b_parts block) fill_part.

(** The end of a read, under the write lock. *)
Definition read_finish (plan : ReadPlan) (tree_fills : list Block) : VM unit :=
  match rp_cache_slices plan, tree_fills with
  | [], [] => mret tt
  | _, _ =>
      let cache_hits := crs_object_id <$> rp_cache_slices plan in
      let! _ := mmodify (λ v, with_cache (promote_hits cache_hits (vs_cache v)) v) in
      let! v := mget in
      if bool_decide (vs_root v = rp_root plan) then mfor tree_fills insert_tree_block_fills
      else mret tt
  end.

(** ** Tree readers ([TreeReader] of engines/tree/read.rs) *)

Class TreeReader (R W : Type) : Type := {
  read_committed : R → ByteRange → M W ServerError Block;
}.

Section fetch.
Context {W : Type} `{!TreeReader RootSnapshot W}.

(** The loop over the tree misses. *)
Fixpoint fetch_misses (root : RootSnapshot) (range : ByteRange) (misses : list ByteRange) (data : list byte)
    : M W ServerError (list byte * list Block) :=
  match misses with
  | [] => mret (data, [])
  | miss :: misses =>
      let! block := read_committed root miss in
      if bool_decide (b_range block ≠ miss) then
        mfail (ServerError_wal "read committed backing"
                 "tree reader returned range {:?} for requested range {:?}")
      else
        let! data := mlift (copy_tree_block range block data) in
        let! (data, fills) := fetch_misses root range misses data in
        mret (data, block :: fills)
  end.

(** The part of a read that holds no lock. *)
Definition read_fetch (range : ByteRange) (plan : ReadPlan) : M W ServerError (list byte * list Block) :=
  let! data := mlift (copy_each (λ sl data, cache_slice_copy_to sl range data) (rp_cache_slices plan)
                        (zeros (br_len range))) in
  let! (data, tree_fills) := fetch_misses (rp_root plan) range (rp_tree_misses plan) data in
  let! data := mlift (copy_each (overlay_record range) (rp_overlay_slices plan) data) in
  mret (data, tree_fills).

Definition set_fst {A B} (a : A) (p : A * B) : A * B := (a, p.2).
Definition set_snd {A B} (b : B) (p : A * B) : A * B := (p.1, b).

(** [ExportReadView::read] when nothing else runs between its three phases. *)
Definition view_read (range : ByteRange) : M (ExportReadViewState * W) ServerError (list byte) :=
  let! s := mget in
  let! plan := mlift (read_begin range s.1) in
  let! (data, tree_fills) := zoom snd set_snd (read_fetch range plan) in
  let! _ := zoom fst set_fst (read_finish plan tree_fills) in
  mret data.
End fetch.

(** *** Applying records and advancing the root *)

Definition apply_wal_record (record : WalRecord) : VM unit :=
  let! v := mget in
  let! _ := mlift (validate_range "write" (rec_range record) (rs_size_bytes (vs_root v))) in
  if rec_seq record <=? rs_base_wal_seq (vs_root v) then
    mfail (ServerError_wal "apply WAL record" "record sequence {} is at or before checkpoint {}")
  else
    let! expected_seq := mlift (ok_or (u64_checked_add (vs_last_applied_seq v) 1)
      (ServerError_wal "apply WAL record" "WAL sequence overflowed")) in
    if negb (rec_seq record =? expected_seq) then
      mfail (ServerError_wal "apply WAL record" "expected WAL sequence {expected_seq}, got {}")
    else
      let debt_bytes := zlen (rec_data record) in
      let! _ := on_overlay (insert_record record) in
      let! _ := on_cache (trim_range (rec_range record)) in
      let! _ := mmodify (with_last_applied expected_seq) in
      let! v := mget in
      let! debt := mlift (ok_or (u64_checked_add (vs_wal_debt_bytes v) debt_bytes)
        (ServerError_wal "apply WAL record" "WAL debt bytes overflowed")) in
      mmodify (with_debt debt).

(** The loop that moves the retired extents to the cache. *)
Definition retire_to_cache (e : RetiredOverlayExtent) : VM unit :=
  let! range := mlift (byte_range_from_bounds (re_start e) (re_end e)) in
  on_cache (insert_wal_record_slice range (re_record e) (re_offset e) Cold).

(** The steps both kinds of advance share. *)
Definition retire_through (checkpoint : WalSeq) : VM unit :=
  let! v := mget in
  let retired := visible_through (vs_overlay v) checkpoint in
  let! _ := mfor retired retire_to_cache in
  on_overlay (remove_retired retired).

Definition advance_root (new_root : RootSnapshot) : VM unit :=
  let! v := mget in
  if negb (rs_size_bytes new_root =? rs_size_bytes (vs_root v)) then
    mfail (ServerError_wal "advance read-view root" "new root size {} does not match current size {}")
  else
    let current_checkpoint := rs_base_wal_seq (vs_root v) in
    let new_checkpoint := rs_base_wal_seq new_root in
    if new_checkpoint <? current_checkpoint then
      mfail (ServerError_wal "advance read-view root" "new checkpoint {} is before current checkpoint {}")
    else if new_checkpoint =? current_checkpoint then mret tt
    else if vs_last_applied_seq v <? new_checkpoint then
      mfail (ServerError_wal "advance read-view root"
               "new checkpoint {} is beyond last applied WAL sequence {}")
    else
      let! _ := retire_through new_checkpoint in
      let! _ := mmodify (with_root new_root) in
      mmodify (λ v, if new_checkpoint =? vs_last_applied_seq v then with_debt 0 v else v).

Definition advance_after_compaction (new_root : RootSnapshot) (snapshot : ReadViewCompactionSnapshot)
    : VM unit :=
  let context := "advance read-view root after compaction" in
  let! v := mget in
  if negb (rs_size_bytes new_root =? rs_size_bytes (vs_root v)) then
    mfail (ServerError_wal context "new root size {} does not match current size {}")
  else
    let current_checkpoint := rs_base_wal_seq (vs_root v) in
    let snapshot_base := rs_base_wal_seq (sn_root snapshot) in
    let snapshot_target := sn_target_wal_seq snapshot in
    if snapshot_target <=? current_checkpoint then mret tt
    else if negb (current_checkpoint =? snapshot_base) then
      mfail (ServerError_wal context "current checkpoint {} does not match snapshot base {}")
    else
      let new_checkpoint := rs_base_wal_seq new_root in
      if new_checkpoint <? snapshot_target then
        mfail (ServerError_wal context "new checkpoint {} is before snapshot target {}")
      else if snapshot_target <? new_checkpoint then
        mfail (ServerError_wal context "new checkpoint {} is after snapshot target {}")
      else if vs_last_applied_seq v <? new_checkpoint then
        mfail (ServerError_wal context "new checkpoint {} is beyond last applied WAL sequence {}")
      else if vs_wal_debt_bytes v <? sn_wal_debt_bytes snapshot then
        mfail (ServerError_wal context "snapshot WAL debt {} exceeds live WAL debt {}")
      else
        let! _ := retire_through new_checkpoint in
        let! _ := mmodify (with_root new_root) in
        let! _ := mmodify (λ v, with_debt (u64_sub (vs_wal_debt_bytes v) (sn_wal_debt_bytes snapshot)) v) in
        mmodify (λ v, if new_checkpoint =? vs_last_applied_seq v then with_debt 0 v else v).

(** ** The two readers *)

(** [ZeroTreeReader] reads from nothing. *)
Definition zero_read_committed (root : RootSnapshot) (range : ByteRange) : M unit ServerError Block :=
  let! _ := mlift (validate_range "read" range (rs_size_bytes root)) in
  if negb (is_zero_backed root) then
    mfail (SCatalog "zero backing reader requires a zero-backed root" None)
  else
    let parts := if br_is_empty range then [] else [BlockZero range] in
    mlift (Block_new range parts).

#[export] Instance ZeroTreeReader : TreeReader RootSnapshot unit := {
  read_committed := zero_read_committed;
}.

Section cow.
Context {S B : Type} `{!TreeRecordStore S} `{!BlobStore B}.

Definition cow_load_leaf (root : RootSnapshot) (chunk_index : ChunkIndex)
    : M S ServerError (option LoadedTreeLeaf) :=
  match rs_tree_format root with
  | None => mret None
  | Some format =>
      let! geometry := mlift (TreeGeometry_new format (rs_size_bytes root)) in
      load_leaf (mkReader geometry CowImmutableTree (rs_root_node_id root)) chunk_index
  end.

(** The part that one round of the loop of [read_committed] reads. *)
Definition cow_part (root : RootSnapshot) (chunk_index chunk_offset : Z) (part_range : ByteRange)
    : M (S * B) ServerError BlockPart :=
  let! leaf := zoom fst set_fst (cow_load_leaf root chunk_index) in
  match leaf with
  | Some leaf =>
      if bool_decide (tl_storage_kind (ll_leaf_ref leaf) ≠ ImmutableBlob) then
        mfail (SCatalog "COW tree chunk {chunk_index} has storage kind {}" None)
      else
        let! chunk_data := zoom snd set_snd
          (get_blob (tl_storage_key (ll_leaf_ref leaf)) chunk_offset (br_len part_range)) in
        mret (BlockData part_range chunk_data)
  | None => mret (BlockZero part_range)
  end.

(** The loop of [read_committed]: the parts from [copied] on.  Each round fills its chunk or the
    range, so a range has at most two rounds more than the chunks it fills. *)
Fixpoint cow_read_parts (fuel : nat) (root : RootSnapshot) (range : ByteRange) (copied : Z)
    : M (S * B) ServerError (list BlockPart) :=
  if copied <? br_len range then
    match fuel with
    | O => λ s, (Panic, s)
    | Datatypes.S fuel =>
        let current_offset := u64_add (br_start range) copied in
        let chunk_index := current_offset / TREE_CHUNK_BYTES in
        let chunk_offset := current_offset mod TREE_CHUNK_BYTES in
        let chunk_available := TREE_CHUNK_BYTES - chunk_offset in
        let copy_len := as_u32 (Z.min chunk_available (br_len range - copied)) in
        let! part := cow_part root chunk_index chunk_offset (mkRange current_offset copy_len) in
        let! parts := cow_read_parts fuel root range (copied + copy_len) in
        mret (part :: parts)
    end
  else mret [].

Definition chunk_fuel (range : ByteRange) : nat := Z.to_nat (br_len range / TREE_CHUNK_BYTES + 2).

Definition cow_read_committed (root : RootSnapshot) (range : ByteRange) : M (S * B) ServerError Block :=
  let! _ := mlift (validate_range "read" range (rs_size_bytes root)) in
  if is_zero_backed root then mfail (SCatalog "COW backing reader requires a COW root" None)
  else
    let! parts := cow_read_parts (chunk_fuel range) root range 0 in
    mlift (Block_new range parts).

#[export] Instance CowTreeReader : TreeReader RootSnapshot (S * B) := {
  read_committed := cow_read_committed;
}.
End cow.
