(* ===== verification/TreeReaders.v ===== *)
(** * The laws of the tree readers

    What the read view relies on of [TreeReader] (engines/tree/read.rs), and the proofs that the
    zero reader and the copy-on-write reader of [read_view.rs] keep it, the latter over any record
    store and any blob store that keep the laws of their own interfaces. *)

From S2P Require Import Prelude BTree ControlPlane Server ExtentMap Wal WalLocal Overlay ReadCache ReadCacheCorrect Geometry Catalog Tree Storage ReadView.

#[local] Open Scope string_scope.
#[local] Open Scope list_scope.
#[local] Open Scope Z_scope.

(** ** The laws of a tree reader *)

(** A block that its constructor accepts. *)
Definition block_ok (b : Block) : Prop :=
  Forall part_ok (b_parts b) ∧ Block_new (b_range b) (b_parts b) = Ok b.

(** [committed root] are the bytes of a root: immutable, and read as they are or not at all. *)
Class TreeReaderLaws (W : Type) `{!TreeReader RootSnapshot W} (committed : RootSnapshot → Z → byte) : Type := {
  holds : W → RootSnapshot → Prop;
  unchanged : W → W → Prop;
  #[export] unchanged_preorder :: PreOrder unchanged;
  law_unchanged w w' root : unchanged w w' → holds w root → holds w' root;
  law_read_committed w root range :
    holds w root → range_ok range → br_len range ≠ 0 → br_start range + br_len range ≤ rs_size_bytes root →
    match read_committed root range w with
    | (Ok b, w') =>
        b_range b = range ∧ block_ok b ∧
        (∀ x, in_byte_range range x → block_byte (b_parts b) x = Some (committed root x)) ∧
        unchanged w w'
    | (Err _, w') => unchanged w w'
    | (Panic, _) => False
    end;
}.

(** ** The parts of a block *)

Definition part_well_formed (part : BlockPart) : Prop :=
  0 ≤ br_start (part_range part) ∧ is_u32 (br_len (part_range part)) ∧
  zlen (part_bytes part) = br_len (part_range part).

(** One more part in front of valid ones. *)
Lemma validate_parts_cons read_end part parts start stop :
  part_well_formed part → br_start (part_range part) = start →
  start + br_len (part_range part) ≤ read_end → read_end ≤ u64_max →
  validate_parts_loop read_end (start + br_len (part_range part)) parts = Ok stop →
  validate_parts_loop read_end start (part :: parts) = Ok stop.
Proof.
  intros (Hp & [Hl _] & Hb) <- Hle Hu Hrest. cbn [validate_parts_loop]. rewrite Z.eqb_refl. cbn [negb].
  assert ((match part with
           | BlockData range bytes =>
               if negb (zlen bytes =? br_len range) then Err (invalid_block "data part has {} bytes for {} byte range")
               else Ok tt
           | BlockZero _ => Ok tt
           end : SResult unit) = Ok tt) as ->.
  { destruct part; [|done]. cbn in Hb. rewrite Hb. by rewrite Z.eqb_refl. }
  cbn [obind]. unfold checked_range_end. rewrite u64_checked_add_id by lia. cbn [ok_or obind].
  by rewrite (proj2 (Z.ltb_ge _ _)) by lia.
Qed.

(** The part gives the bytes of [a]. *)
Definition part_shows (a : Z → byte) (part : BlockPart) : Prop :=
  ∀ x, in_byte_range (part_range part) x → block_byte [part] x = Some (a x).

(** The parts are valid from [lo] to [hi] and give the bytes of [a]. *)
Definition parts_show (a : Z → byte) (lo hi : Z) (parts : list BlockPart) : Prop :=
  Forall part_ok parts ∧ validate_parts_loop hi lo parts = Ok hi ∧
  ∀ x, lo ≤ x < hi → block_byte parts x = Some (a x).

Lemma parts_show_cons a hi part parts :
  part_well_formed part → part_shows a part → hi ≤ u64_max →
  br_start (part_range part) + br_len (part_range part) ≤ hi →
  parts_show a (br_start (part_range part) + br_len (part_range part)) hi parts →
  parts_show a (br_start (part_range part)) hi (part :: parts).
Proof.
  intros Hwf Hpc Hu Hle (Hp & Hv & Hb). pose proof Hwf as (Hp1 & [Hp2 Hp3] & _). split; [|split].
  - constructor; [split; [done|by split]|done].
  - by apply validate_parts_cons.
  - intros x Hx. destruct (decide (in_byte_range (part_range part) x)) as [Hin|Hin].
    + rewrite <-(Hpc x Hin). unfold in_byte_range in Hin. cbn [block_byte].
      rewrite (proj2 (Z.leb_le _ _)), (proj2 (Z.ltb_lt _ _)) by lia. done.
    + unfold in_byte_range in Hin. cbn [block_byte]. rewrite (proj2 (Z.ltb_ge _ _)), andb_false_r by lia.
      apply Hb. lia.
Qed.

Lemma Block_new_ok range parts :
  range_ok range →
  validate_parts_loop (br_start range + br_len range) (br_start range) parts = Ok (br_start range + br_len range) →
  Block_new range parts = Ok (mkBlock range parts).
Proof.
  intros (? & [? ?] & ?) Hv. unfold Block_new, validate_block_parts, checked_range_end.
  rewrite u64_checked_add_id by lia. cbn [ok_or obind]. rewrite Hv. cbn [obind]. by rewrite Z.eqb_refl.
Qed.

(** ** The zero reader *)

Definition zero_committed (root : RootSnapshot) (x : Z) : byte := x00.

#[export] Instance ZeroTreeReader_laws : TreeReaderLaws unit zero_committed.
Proof.
  refine {| holds (_ : unit) root := is_zero_backed root = true; unchanged (_ _ : unit) := True |}; [done|].
  intros w root range Hz Hr Hne Hsz. pose proof Hr as (? & [? ?] & ?). cbn [read_committed ZeroTreeReader].
  unfold zero_read_committed, mseq, mlift, validate_range, validate_request_range.
  rewrite u64_checked_add_id by lia. cbn [ok_or obind]. rewrite (proj2 (Z.ltb_ge _ _)) by lia.
  rewrite Hz. cbn [negb]. unfold br_is_empty. rewrite (proj2 (Z.eqb_neq _ _)) by done.
  assert (Forall part_ok [BlockZero range]) as Hp by (repeat constructor; cbn; lia).
  assert (Block_new range [BlockZero range] = Ok (mkBlock range [BlockZero range])) as Hnew.
  { apply Block_new_ok; [done|]. apply validate_parts_cons; cbn; try lia; [|done].
    split; [done|]. split; [done|]. apply zeros_length. cbn. lia. }
  rewrite Hnew. split; [done|]. split; [done|]. split; [|done]. intros x Hx. unfold in_byte_range in Hx.
  cbn [b_parts block_byte part_range]. rewrite (proj2 (Z.leb_le _ _)), (proj2 (Z.ltb_lt _ _)) by lia. done.
Defined.

(** ** The copy-on-write reader *)

Section cow.
Context {S B : Type} `{!TreeRecordStore S} `{!TreeView S} `{!TreeRecordStoreLaws S}.
Context `{!BlobStore B} `{!BlobStoreLaws B}.
Context (committed : RootSnapshot → Z → byte).
Implicit Types (w : S * B) (root : RootSnapshot).

(** The position is in the chunk and in the export. *)
Definition in_chunk root (chunk i : Z) : Prop :=
  0 ≤ i < rs_size_bytes root ∧ i / TREE_CHUNK_BYTES = chunk.

(** The leaf node at the end of the path of a chunk. *)
Definition chunk_leaf (s : S) (g : TreeGeometry) root (chunk : Z) : option NodeId :=
  id ← rs_root_node_id root; find_node s id (chunk_slots g chunk).

(** The leaf reference of a node leads to a whole chunk with the bytes of the export. *)
Definition leaf_holds w root (chunk : Z) (id : NodeId) : Prop :=
  ∃ leaf blob, see_leaf_ref w.1 id = Ok (Some leaf) ∧ tl_storage_kind leaf = ImmutableBlob ∧
    blobs w.2 !! tl_storage_key leaf = Some blob ∧ zlen blob = TREE_CHUNK_BYTES ∧
    ∀ i, in_chunk root chunk i → zget blob (i mod TREE_CHUNK_BYTES) = Some (committed root i).

(** The records are a tree of the geometry whose leaves lead to the bytes. *)
Record tree_holds w root (g : TreeGeometry) : Prop := {
  th_stored : ∀ id, rs_root_node_id root = Some id →
    subtree_ok (mkReader g CowImmutableTree (Some id)) w.1 (Z.to_nat (geo_root_level g)) (root_span g) id;
  th_chunks : ∀ chunk, 0 ≤ chunk → chunk * TREE_CHUNK_BYTES < rs_size_bytes root →
    match chunk_leaf w.1 g root chunk with
    | None => ∀ i, in_chunk root chunk i → committed root i = x00
    | Some id => leaf_holds w root chunk id
    end;
}.

Definition cow_holds w root : Prop :=
  is_u64 (rs_size_bytes root) ∧
  match rs_tree_format root with
  | None => ∀ i, 0 ≤ i < rs_size_bytes root → committed root i = x00
  | Some format => ∃ g, TreeGeometry_new format (rs_size_bytes root) = Ok g ∧ tree_holds w root g
  end.

(** Reads keep what holds: they change neither what the records show nor a blob. *)
Definition same_world w w' : Prop := same_view w.1 w'.1 ∧ blobs w'.2 = blobs w.2.

#[export] Instance same_world_preorder : PreOrder same_world.
Proof.
  split; [by intros w|]. intros w1 w2 w3 [Ha1 Ha2] [Hb1 Hb2]. split; [by etrans|congruence].
Qed.

Lemma cow_holds_same w w' root : same_world w w' → cow_holds w root → cow_holds w' root.
Proof.
  intros [Hv Hb] [Hu Hw]. split; [done|]. destruct (rs_tree_format root) as [format|]; [|done].
  destruct Hw as (g & Hg & [Hst Hch]). exists g. split; [done|]. split.
  - intros id Hid. apply (subtree_ok_view _ w.1); [done|]. by apply Hst.
  - intros chunk Hc1 Hc2. specialize (Hch chunk Hc1 Hc2). unfold chunk_leaf, leaf_holds in *.
    assert ((rs_root_node_id root ≫= λ id, find_node w'.1 id (chunk_slots g chunk)) =
            (rs_root_node_id root ≫= λ id, find_node w.1 id (chunk_slots g chunk))) as ->.
    { destruct (rs_root_node_id root) as [id|]; [|done]. cbn. by apply find_node_view. }
    destruct (_ ≫= _) as [id|]; [|done]. by rewrite (sv_leaf_ref _ _ Hv), Hb.
Qed.

(** What [cow_load_leaf] shows for a chunk. *)
Lemma cow_load_leaf_shows w root chunk :
  cow_holds w root → 0 ≤ chunk → chunk * TREE_CHUNK_BYTES < rs_size_bytes root →
  ∃ o, shows w.1 (cow_load_leaf root chunk) (Ok o) ∧
    match o with
    | None => ∀ i, in_chunk root chunk i → committed root i = x00
    | Some leaf => tl_storage_kind (ll_leaf_ref leaf) = ImmutableBlob ∧
        ∃ blob, blobs w.2 !! tl_storage_key (ll_leaf_ref leaf) = Some blob ∧ zlen blob = TREE_CHUNK_BYTES ∧
          ∀ i, in_chunk root chunk i → zget blob (i mod TREE_CHUNK_BYTES) = Some (committed root i)
    end.
Proof.
  intros [Hu Hw] Hc1 Hc2. unfold cow_load_leaf. destruct (rs_tree_format root) as [format|].
  2: { exists None. split; [apply shows_ret|]. intros i [Hi _]. by apply Hw. }
  destruct Hw as (g & Hg & [Hst Hch]). destruct (new_geometry_inv _ _ _ Hu Hg) as (Hok & Hsz & _).
  specialize (Hch chunk Hc1 Hc2). rewrite Hg. unfold chunk_leaf in Hch.
  destruct (rs_root_node_id root) as [id|]; cbn [mbind option_bind] in Hch.
  2: { exists None. split; [|done]. eapply shows_bind; [apply shows_lift|]. apply shows_ret. }
  pose proof (load_leaf_shows g CowImmutableTree id chunk w.1 Hok Hc1 ltac:(by rewrite Hsz) (Hst id eq_refl)) as Hll.
  destruct (find_node w.1 id (chunk_slots g chunk)) as [leaf_id|].
  - destruct Hch as (leaf & blob & Hleaf & Hk & Hb & Hfull & Hby). destruct Hll as (node & leaf' & Hn & Hl' & Hs).
    rewrite Hleaf in Hl'. injection Hl' as <-. exists (Some (mkLeaf chunk node leaf)). split; [|by eauto 10].
    eapply shows_bind; [apply shows_lift|exact Hs].
  - exists None. split; [|done]. eapply shows_bind; [apply shows_lift|exact Hll].
Qed.

(** The bytes of the part that one round of the loop reads. *)
Abbreviation part_committed root part := (part_shows (committed root) part) (only parsing).

Lemma cow_part_spec w root p :
  cow_holds w root → 0 ≤ br_start p → 0 < br_len p → is_u32 (br_len p) →
  br_start p mod TREE_CHUNK_BYTES + br_len p ≤ TREE_CHUNK_BYTES →
  br_start p + br_len p ≤ rs_size_bytes root →
  match cow_part root (br_start p / TREE_CHUNK_BYTES) (br_start p mod TREE_CHUNK_BYTES) p w with
  | (Ok part, w') => part_range part = p ∧ part_well_formed part ∧ part_committed root part ∧ same_world w w'
  | (Err _, w') => same_world w w'
  | (Panic, _) => False
  end.
Proof.
  intros Hw Hs Hl Hu Hc Hsz. pose proof chunk_bytes_value as HC.
  pose proof (Z.div_mod (br_start p) TREE_CHUNK_BYTES ltac:(lia)) as Hdm.
  pose proof (Z.mod_pos_bound (br_start p) TREE_CHUNK_BYTES ltac:(lia)) as Hmb.
  set (chunk := br_start p / TREE_CHUNK_BYTES) in *. set (offset := br_start p mod TREE_CHUNK_BYTES) in *.
  assert (∀ x, in_byte_range p x → x / TREE_CHUNK_BYTES = chunk ∧ x mod TREE_CHUNK_BYTES = offset + (x - br_start p)) as Hx.
  { intros x Hx. unfold in_byte_range in Hx.
    pose proof (Z.div_mod x TREE_CHUNK_BYTES ltac:(lia)). pose proof (Z.mod_pos_bound x TREE_CHUNK_BYTES ltac:(lia)). nia. }
  assert (∀ x, in_byte_range p x → in_chunk root chunk x) as Hic.
  { intros x Hin. split; [|by apply Hx]. unfold in_byte_range in Hin. lia. }
  destruct (cow_load_leaf_shows w root chunk Hw ltac:(apply Z.div_pos; lia) ltac:(nia)) as (o & Hshow & Hspec).
  destruct (Hshow w.1 ltac:(done)) as (o' & s' & Hrun & Hv & Ho).
  unfold cow_part, zoom, mseq. rewrite Hrun. destruct Ho as [->|[_ [e ->]]]; [|by split].
  destruct o as [leaf|].
  - destruct Hspec as (Hk & blob & Hb & Hfull & Hby). rewrite bool_decide_false by (by intros []). cbn [set_fst snd].
    pose proof (law_get_blob w.2 (tl_storage_key (ll_leaf_ref leaf)) offset (br_len p) ltac:(lia) ltac:(lia)) as Hg.
    destruct (get_blob _ _ _ w.2) as [[data| |] b']; [|by split|done]. destruct Hg as [Hbl Hsl].
    specialize (Hsl blob Hb ltac:(lia)). split; [done|]. split; [|split; [|by split]].
    + split; [done|]. split; [done|]. cbn. rewrite (slice_length _ _ _ _ Hsl). lia.
    + intros x Hin. cbn [part_range] in Hin. pose proof Hin as Hin'. unfold in_byte_range in Hin'. cbn [block_byte part_range].
      rewrite (proj2 (Z.leb_le _ _)), (proj2 (Z.ltb_lt _ _)) by lia. cbn [andb].
      rewrite (slice_get _ _ _ _ _ Hsl) by lia. destruct (Hx x Hin) as [Hx1 <-]. by apply Hby, Hic.
  - split; [done|]. split; [|split; [|by split]].
    + split; [done|]. split; [done|]. apply zeros_length. cbn. lia.
    + intros x Hin. cbn [part_range] in Hin. pose proof Hin as Hin'. unfold in_byte_range in Hin'. cbn [block_byte part_range].
      rewrite (proj2 (Z.leb_le _ _)), (proj2 (Z.ltb_lt _ _)) by lia. cbn [andb]. by rewrite Hspec by (by apply Hic).
Qed.

Abbreviation parts_of root lo hi parts := (parts_show (committed root) lo hi parts) (only parsing).

Lemma cow_read_parts_spec fuel root range copied w :
  cow_holds w root → range_ok range → br_start range + br_len range ≤ rs_size_bytes root →
  0 ≤ copied ≤ br_len range →
  (copied < br_len range →
   (br_start range + br_len range - 1) / TREE_CHUNK_BYTES - (br_start range + copied) / TREE_CHUNK_BYTES
     < Z.of_nat fuel) →
  match cow_read_parts fuel root range copied w with
  | (Ok parts, w') =>
      parts_of root (br_start range + copied) (br_start range + br_len range) parts ∧ same_world w w'
  | (Err _, w') => same_world w w'
  | (Panic, _) => False
  end.
Proof.
  intros Hw Hr Hsz. pose proof Hr as (? & [? ?] & ?). pose proof chunk_bytes_value as HC.
  revert copied w Hw. induction fuel as [|fuel IH]; intros copied w Hw Hc Hf; cbn [cow_read_parts];
    (destruct (Z.ltb_spec copied (br_len range)) as [Hlt|Hge];
     [|replace copied with (br_len range) by lia; split; [|by split]; split; [constructor|]; split; [done|lia]]).
  { specialize (Hf Hlt). pose proof (Z.div_le_mono (br_start range + copied) (br_start range + br_len range - 1) TREE_CHUNK_BYTES ltac:(lia) ltac:(lia)). lia. }
  specialize (Hf Hlt). rewrite u64_add_id by lia. set (p := br_start range + copied) in *.
  pose proof (Z.div_mod p TREE_CHUNK_BYTES ltac:(lia)) as Hdm.
  pose proof (Z.mod_pos_bound p TREE_CHUNK_BYTES ltac:(lia)) as Hmb.
  rewrite as_u32_id by (unfold is_u32, u32_max; lia).
  set (n := Z.min (TREE_CHUNK_BYTES - p mod TREE_CHUNK_BYTES) (br_len range - copied)) in *.
  assert (0 < n ≤ br_len range - copied ∧ p mod TREE_CHUNK_BYTES + n ≤ TREE_CHUNK_BYTES) as [Hn Hnc] by lia.
  pose proof (cow_part_spec w root (mkRange p n) Hw ltac:(cbn; lia) ltac:(cbn; lia)
    ltac:(unfold is_u32, u32_max; cbn; lia) ltac:(cbn; lia) ltac:(cbn; lia)) as Hpart. cbn [br_start br_len] in Hpart.
  unfold mseq at 1. destruct (cow_part root _ _ _ w) as [[part| |] w1]; [|done|done].
  destruct Hpart as (Hpr & Hwf & Hpc & Hsame).
  assert (copied + n < br_len range →
    (br_start range + br_len range - 1) / TREE_CHUNK_BYTES - (br_start range + (copied + n)) / TREE_CHUNK_BYTES
      < Z.of_nat fuel) as Hf'.
  { intros Hlt2. assert (p + n = (p / TREE_CHUNK_BYTES + 1) * TREE_CHUNK_BYTES) as Hpn by lia.
    replace (br_start range + (copied + n)) with (p + n) by lia. rewrite Hpn, Z.div_mul by lia. lia. }
  specialize (IH (copied + n) w1 (cow_holds_same _ _ _ Hsame Hw) ltac:(lia) Hf'). unfold mseq.
  destruct (cow_read_parts fuel root range (copied + n) w1) as [[parts|e|] w2]; [| |done].
  - destruct IH as [Hparts Hs2]. split; [|by etrans].
    pose proof (parts_show_cons _ (br_start range + br_len range) part parts Hwf Hpc) as Hpc'.
    rewrite Hpr in Hpc'. cbn [br_start br_len] in Hpc'. apply Hpc'; [lia|lia|].
    by replace (p + n) with (br_start range + (copied + n)) by lia.
  - by etrans.
Qed.

(** The fuel of [cow_read_committed] is enough. *)
Lemma chunk_fuel_enough range :
  range_ok range → 0 < br_len range →
  (br_start range + br_len range - 1) / TREE_CHUNK_BYTES - (br_start range + 0) / TREE_CHUNK_BYTES
    < Z.of_nat (chunk_fuel range).
Proof.
  intros (? & [? ?] & ?) Hl. pose proof chunk_bytes_value as HC. unfold chunk_fuel. rewrite Z.add_0_r.
  set (s := br_start range) in *. set (n := br_len range) in *.
  pose proof (Z.div_mod (s + n - 1) TREE_CHUNK_BYTES ltac:(lia)). pose proof (Z.mod_pos_bound (s + n - 1) TREE_CHUNK_BYTES ltac:(lia)).
  pose proof (Z.div_mod s TREE_CHUNK_BYTES ltac:(lia)). pose proof (Z.mod_pos_bound s TREE_CHUNK_BYTES ltac:(lia)).
  pose proof (Z.div_mod n TREE_CHUNK_BYTES ltac:(lia)). pose proof (Z.mod_pos_bound n TREE_CHUNK_BYTES ltac:(lia)).
  rewrite Z2Nat.id by (pose proof (Z.div_pos n TREE_CHUNK_BYTES ltac:(lia) ltac:(lia)); lia). nia.
Qed.

#[export] Instance CowTreeReader_laws : TreeReaderLaws (S * B) committed.
Proof.
  refine {| holds := cow_holds; unchanged := same_world |}; [intros ?????; by eapply cow_holds_same|]. intros w root range Hw Hr Hne Hsz. pose proof Hr as (? & [? ?] & ?).
  cbn [read_committed CowTreeReader]. unfold cow_read_committed. erewrite mseq_ok.
  2: { unfold mlift, validate_range, validate_request_range. rewrite u64_checked_add_id by lia. cbn [ok_or obind].
       rewrite (proj2 (Z.ltb_ge _ _)) by lia. reflexivity. }
  destruct (is_zero_backed root); [by cbn|].
  pose proof (cow_read_parts_spec (chunk_fuel range) root range 0 w Hw Hr Hsz ltac:(lia)
    ltac:(intros; apply chunk_fuel_enough; [done|lia])) as Hparts.
  unfold mseq. destruct (cow_read_parts _ _ _ _ w) as [[parts|e|] w']; [|done|done].
  destruct Hparts as [(Hp & Hv & Hb) Hs]. rewrite Z.add_0_r in *. unfold mlift.
  rewrite (Block_new_ok range parts Hr Hv). split; [done|]. split; [|split].
  - split; [done|]. by apply Block_new_ok.
  - intros x Hx. unfold in_byte_range in Hx. by apply Hb.
  - done.
Defined.
End cow.

(** ** Properties *)

(** The copy-on-write reader returns the committed bytes.  Over any record store and any blob
    store that keep their laws, when every chunk of the root either has no leaf and is zero or has an
    immutable blob with its bytes, a read that succeeds gives a valid block whose bytes are the committed
    ones; a read that fails reports an error, and no read changes a record or a blob.  The loop over
    the chunks always ends. *)
Theorem cow_reader_exact {S B : Type} `{!TreeRecordStore S} `{!TreeView S} `{!TreeRecordStoreLaws S}
    `{!BlobStore B} `{!BlobStoreLaws B} committed (w : S * B) root range :
  cow_holds committed w root → range_ok range → br_len range ≠ 0 →
  br_start range + br_len range ≤ rs_size_bytes root →
  match cow_read_committed root range w with
  | (Ok b, w') =>
      ∃ data, Tree.materialize b = Ok data ∧ zlen data = br_len range ∧
        (∀ i, 0 ≤ i < br_len range → zget data i = Some (committed root (br_start range + i))) ∧
        cow_holds committed w' root
  | (Err _, w') => cow_holds committed w' root
  | (Panic, _) => False
  end.
Proof.
  intros Hw Hr Hne Hsz. pose proof (law_read_committed (committed := committed) w root range Hw Hr Hne Hsz) as H.
  cbn [read_committed CowTreeReader] in H.
  destruct (cow_read_committed root range w) as [[b|e|] w']; [|by apply (cow_holds_same _ w)|done].
  destruct H as (Hbr & [Hp Hnew] & Hby & Hh). rewrite Hbr in Hnew.
  destruct (materialize_bytes range (b_parts b) b Hr Hp Hnew) as (data & Hm & Hl & Hget).
  exists data. split; [done|]. split; [done|]. split; [|by apply (cow_holds_same _ w)]. intros i Hi.
  destruct (Hget i Hi) as [-> _]. apply Hby. unfold in_byte_range. lia.
Qed.

(** An export of one chunk, and the file of its blob. *)
Definition one_chunk_root : RootSnapshot := mkRoot (BackingCowHead (Some "root") 3 4096 Bounded32V1).
Definition one_chunk_world (blob : list byte) : SqliteDb * Fs := (one_chunk_db, mkFs {[ "blob" := blob ]} []).
Definition one_chunk_blob : list byte := replicate (Z.to_nat TREE_CHUNK_BYTES) Byte.x01.

Lemma one_chunk_blob_spec : zlen one_chunk_blob = TREE_CHUNK_BYTES ∧ ∀ i, 0 ≤ i < 4096 → zget one_chunk_blob i = Some Byte.x01.
Proof.
  pose proof chunk_bytes_value as HC. unfold one_chunk_blob, zlen. rewrite length_replicate. split; [lia|]. intros i Hi.
  unfold zget. rewrite (proj2 (Z.leb_le _ _)) by lia. apply lookup_replicate. split; [done|lia].
Qed.
#[global] Opaque one_chunk_blob.

Lemma one_chunk_holds : cow_holds (λ _ _, Byte.x01) (one_chunk_world one_chunk_blob) one_chunk_root.
Proof.
  destruct one_chunk_blob_spec as [Hfull Hbytes].
  split; [by_compute|]. exists one_chunk_geometry. split; [reflexivity|]. split.
  { intros id [= <-]. exact one_chunk_subtree. }
  intros chunk Hp1 Hp2. pose proof chunk_bytes_value as HC. cbn [rs_size_bytes one_chunk_root rs_backing] in Hp2.
  assert (chunk = 0) as -> by nia.
  assert (chunk_leaf one_chunk_db one_chunk_geometry one_chunk_root 0 = Some "leaf") as Hleaf by by vm_compute.
  cbn [one_chunk_world fst]. rewrite Hleaf.
  exists (leaf_ref one_chunk_factory "leaf" ImmutableBlob "blob"), one_chunk_blob.
  split; [by vm_compute|]. split; [done|]. split; [apply lookup_singleton_eq|]. split; [exact Hfull|]. intros i [Hi _].
  cbn [rs_size_bytes one_chunk_root rs_backing] in Hi. rewrite Z.mod_small by lia. by apply Hbytes.
Qed.

(** The read of the chunk, for any blob that is long enough. *)
Lemma one_chunk_read blob part :
  slice blob 4000 4096 = Some part → zlen part = 96 →
  ∃ b, cow_read_committed one_chunk_root (mkRange 4000 96) (one_chunk_world blob) = (Ok b, one_chunk_world blob).
Proof.
  intros Hs Hlen. set (leaf := mkLeaf 0 (leaf_node one_chunk_factory "leaf" (mkSpan 0 0 4096)) (leaf_ref one_chunk_factory "leaf" ImmutableBlob "blob")).
  assert (Hl : cow_load_leaf one_chunk_root 0 one_chunk_db = (Ok (Some leaf), one_chunk_db)) by by vm_compute.
  assert (Hg : get_blob "blob" 4000 96 (mkFs {[ "blob" := blob ]} []) = (Ok part, mkFs {[ "blob" := blob ]} [])).
  { cbn [get_blob local_blob_store]. unfold local_get_blob. rewrite (mseq_ok _ _ _ 96 (mkFs {[ "blob" := blob ]} [])) by reflexivity.
    rewrite (mseq_ok _ _ _ "blob" (mkFs {[ "blob" := blob ]} [])) by reflexivity.
    rewrite (mseq_ok _ _ _ blob (mkFs {[ "blob" := blob ]} [])) by reflexivity.
    rewrite (mseq_ok _ _ _ tt (mkFs {[ "blob" := blob ]} [])) by reflexivity.
    rewrite (mseq_ok _ _ _ tt (mkFs {[ "blob" := blob ]} [])) by reflexivity.
    change (4000 + 96) with 4096. by rewrite Hs. }
  assert (Hp : cow_part one_chunk_root 0 4000 (mkRange 4000 96) (one_chunk_world blob) =
    (Ok (BlockData (mkRange 4000 96) part), one_chunk_world blob)).
  { unfold cow_part, zoom, mseq. cbn [one_chunk_world fst snd set_fst set_snd]. rewrite Hl. rewrite bool_decide_false by (by intros []).
    change (tl_storage_key _) with "blob". cbn [br_len snd set_fst one_chunk_world]. by rewrite Hg. }
  assert (Hps : cow_read_parts 2 one_chunk_root (mkRange 4000 96) 0 (one_chunk_world blob) =
    (Ok [BlockData (mkRange 4000 96) part], one_chunk_world blob)).
  { cbn [cow_read_parts br_len br_start]. change (0 <? 96) with true. cbn iota.
    change (u64_add 4000 0) with 4000. change (4000 / TREE_CHUNK_BYTES) with 0. change (4000 mod TREE_CHUNK_BYTES) with 4000.
    change (as_u32 (Z.min (TREE_CHUNK_BYTES - 4000) (96 - 0))) with 96. rewrite (mseq_ok _ _ _ _ _ Hp). reflexivity. }
  unfold cow_read_committed. rewrite (mseq_ok _ _ _ tt (one_chunk_world blob)) by reflexivity.
  change (is_zero_backed one_chunk_root) with false. change (chunk_fuel (mkRange 4000 96)) with 2%nat. cbn iota.
  rewrite (mseq_ok _ _ _ _ _ Hps). unfold mlift, Block_new, validate_block_parts. cbn [validate_parts_loop]. rewrite Hlen.
  eexists. reflexivity.
Qed.

Lemma cow_reader_exact_witness :
  ∃ b data, cow_read_committed one_chunk_root (mkRange 4000 96) (one_chunk_world one_chunk_blob) = (Ok b, one_chunk_world one_chunk_blob) ∧
    Tree.materialize b = Ok data ∧ zget data 95 = Some Byte.x01.
Proof.
  pose proof (cow_reader_exact (λ _ _, Byte.x01) (one_chunk_world one_chunk_blob) one_chunk_root (mkRange 4000 96) one_chunk_holds
    ltac:(by_compute) ltac:(done) ltac:(by_compute)) as H.
  destruct (slice_exists one_chunk_blob 4000 4096) as [part Hpart]; [lia|rewrite (proj1 one_chunk_blob_spec), chunk_bytes_value; lia|].
  destruct (one_chunk_read _ _ Hpart (slice_length _ _ _ _ Hpart)) as [b Hb]. rewrite Hb in H.
  destruct H as (data & Hm & _ & Hget & _). exists b, data. split; [exact Hb|]. split; [exact Hm|]. apply Hget.
  by_compute.
Defined.
