(* ===== verification/ReadViewCorrect.v ===== *)
(** * Correctness of the read view

    The view shows, at every byte, the last log record above the committed root that wrote it,
    and the committed byte elsewhere.  Reads return those bytes whatever runs between their phases,
    applying a record changes exactly the bytes it writes, and advancing the root or filling the cache
    changes none; a step relation puts them together as a refinement of a byte array. *)

From S2P Require Import Prelude BTree ControlPlane Server ExtentMap Wal Overlay ReadCache ReadCacheCorrect.
From S2P Require Import Geometry Catalog Tree Storage ReadView TreeReaders.

#[local] Open Scope string_scope.
#[local] Open Scope list_scope.
#[local] Open Scope Z_scope.

(** ** Gaps *)

Definition in_span (t : Z * Z) (x : Z) : Prop := t.1 ≤ x < t.2.

#[export] Instance in_span_dec t x : Decision (in_span t x).
Proof. unfold in_span. apply _. Defined.

Definition total_len (rs : list ByteRange) : Z := foldr (λ r acc, br_len r + acc) 0 rs.

Section gaps.
Implicit Types (spans : list (Z * Z)) (r : ByteRange).

Lemma byte_range_from_bounds_ok start end_ :
  start ≤ end_ → end_ - start ≤ u32_max → byte_range_from_bounds start end_ = Ok (mkRange start (end_ - start)).
Proof.
  intros Hle Hu. unfold byte_range_from_bounds.
  rewrite (proj2 (u64_checked_sub_Some _ _ _) (conj Hle eq_refl)). cbn [ok_or obind].
  by rewrite (proj2 (u32_try_from_Some _ _) (conj Hu eq_refl)).
Qed.

Lemma total_len_app (rs rs' : list ByteRange) : total_len (rs ++ rs') = total_len rs + total_len rs'.
Proof. unfold total_len. induction rs as [|r rs IH]; cbn in *; lia. Qed.

(** A gap inside [lo, hi). *)
Definition gap_in (lo hi : Z) r : Prop := lo ≤ br_start r ∧ 0 < br_len r ∧ br_start r + br_len r ≤ hi.

Definition covered spans (x : Z) : Prop := ∃ t, t ∈ spans ∧ in_span t x.

(** What [gaps] are of the positions [lo, hi) that no span covers. *)
Definition gaps_of spans (lo hi : Z) (gaps : list ByteRange) : Prop :=
  (∀ g, g ∈ gaps → gap_in lo hi g) ∧ total_len gaps ≤ hi - lo ∧
  ∀ x, lo ≤ x < hi → (∃ g, g ∈ gaps ∧ in_byte_range g x) ↔ ¬ covered spans x.

Lemma gaps_of_weaken spans spans' lo hi gaps :
  (∀ x, lo ≤ x < hi → covered spans x ↔ covered spans' x) → gaps_of spans lo hi gaps → gaps_of spans' lo hi gaps.
Proof. intros Hc (H1 & H2 & H3). split; [done|]. split; [done|]. intros x Hx. rewrite <-Hc by done. auto. Qed.

Lemma gaps_of_nil spans lo : gaps_of spans lo lo [].
Proof. split; [set_solver|]. split; [cbn; lia|]. lia. Qed.

Lemma gaps_of_app spans lo mid hi g1 g2 :
  lo ≤ mid ≤ hi → gaps_of spans lo mid g1 → gaps_of spans mid hi g2 → gaps_of spans lo hi (g1 ++ g2).
Proof.
  intros Hm (Ha1 & Hb1 & Hc1) (Ha2 & Hb2 & Hc2). unfold gap_in, in_byte_range in *. split_and!.
  - intros g [Hg|Hg]%elem_of_app; [specialize (Ha1 g Hg)|specialize (Ha2 g Hg)]; unfold gap_in; lia.
  - rewrite total_len_app. lia.
  - intros x Hx. setoid_rewrite elem_of_app. destruct (Z.lt_ge_cases x mid).
    + rewrite <-Hc1 by lia. split; [|intros (g & ? & ?); eauto]. intros (g & [Hg|Hg] & Hgx); [eauto|].
      exfalso. specialize (Ha2 g Hg). unfold in_byte_range in Hgx. lia.
    + rewrite <-Hc2 by lia. split; [|intros (g & ? & ?); eauto]. intros (g & [Hg|Hg] & Hgx); [|eauto].
      exfalso. specialize (Ha1 g Hg). unfold in_byte_range in Hgx. lia.
Qed.

(** One gap where nothing is covered, and none where everything is. *)
Lemma gaps_of_one spans lo hi :
  lo < hi → (∀ x, lo ≤ x < hi → ¬ covered spans x) → gaps_of spans lo hi [mkRange lo (hi - lo)].
Proof.
  intros Hlt Hno. split_and!.
  - intros g ->%list_elem_of_singleton. unfold gap_in. cbn. lia.
  - cbn. lia.
  - intros x Hx. split; [by intros _; apply Hno|]. intros _. exists (mkRange lo (hi - lo)).
    split; [set_solver|]. unfold in_byte_range. cbn. lia.
Qed.

Lemma gaps_of_none spans lo hi :
  lo ≤ hi → (∀ x, lo ≤ x < hi → covered spans x) → gaps_of spans lo hi [].
Proof. intros Hle Hc. split; [set_solver|]. split; [cbn; lia|]. intros x Hx. split; [set_solver|]. intros Hn. by destruct (Hn (Hc x Hx)). Qed.

Lemma covered_cons t spans x : covered (t :: spans) x ↔ in_span t x ∨ covered spans x.
Proof.
  unfold covered. setoid_rewrite elem_of_cons. split.
  - intros (u & [->|?] & ?); eauto.
  - intros [?|(u & ? & ?)]; eauto.
Qed.

Lemma gaps_loop_spec start end_ cursor spans :
  StronglySorted (λ a b, a.1 ≤ b.1) spans → (∀ t, t ∈ spans → t.1 < t.2 ∧ t.1 ≤ end_) →
  start ≤ cursor ≤ end_ → end_ - start ≤ u32_max →
  ∃ gaps cursor', gaps_loop start end_ cursor spans = Ok (gaps, cursor') ∧ cursor ≤ cursor' ≤ end_ ∧
    gaps_of spans cursor cursor' gaps ∧ ∀ x, cursor' ≤ x < end_ → ¬ covered spans x.
Proof.
  intros Hs. revert cursor. induction Hs as [|[s t] spans Hs IH Hall]; intros cursor Hne Hc Hu.
  { exists [], cursor. split; [done|]. split; [lia|]. split; [apply gaps_of_nil|]. intros x _ (u & Hu' & _).
    by apply not_elem_of_nil in Hu'. }
  pose proof (Hne (s, t) ltac:(set_solver)) as [Hst Hse]. cbn in Hst, Hse. rewrite Forall_forall in Hall.
  assert (∀ x, covered spans x → s ≤ x) as Hge.
  { intros x (u & Hu' & Hx). specialize (Hall u Hu'). unfold in_span in Hx. cbn in Hall. lia. }
  assert (∀ u, u ∈ spans → u.1 < u.2 ∧ u.1 ≤ end_) as Hne' by (intros u Hu'; apply Hne; by right).
  cbn [gaps_loop]. destruct (Z.leb_spec (Z.min t end_) cursor) as [Hskip|Htake].
  { destruct (IH cursor Hne' Hc Hu) as (gaps & cursor' & -> & Hc' & Hg & Hrest).
    exists gaps, cursor'. split; [done|]. split; [done|].
    assert (∀ x, cursor ≤ x < end_ → covered ((s, t) :: spans) x ↔ covered spans x) as Heq.
    { intros x Hx. rewrite covered_cons. unfold in_span. cbn. split; [|auto]. intros [?|?]; [lia|done]. }
    split; [|intros x Hx; rewrite Heq by lia; by apply Hrest].
    eapply gaps_of_weaken; [|exact Hg]. intros x Hx. symmetry. apply Heq. lia. }
  set (g := if cursor <? Z.max s start then [mkRange cursor (Z.max s start - cursor)] else []).
  assert ((if cursor <? Z.max s start then let? gap := byte_range_from_bounds cursor (Z.max s start) in Ok [gap]
           else Ok []) = Ok g) as ->.
  { unfold g. destruct (Z.ltb_spec cursor (Z.max s start)); [|done]. by rewrite byte_range_from_bounds_ok by lia. }
  cbn [obind]. set (c1 := Z.max cursor (Z.min t end_)).
  assert (gaps_of ((s, t) :: spans) cursor c1 g) as Hg.
  { set (mid := Z.max cursor (Z.max s start)).
    replace g with (g ++ []) by apply app_nil_r. apply (gaps_of_app _ cursor mid c1); [unfold mid, c1; lia| |].
    - unfold g, mid. destruct (Z.ltb_spec cursor (Z.max s start)).
      + replace (Z.max cursor (Z.max s start)) with (Z.max s start) by lia. apply gaps_of_one; [done|].
        intros x Hx. rewrite covered_cons. unfold in_span. cbn. intros [?|?%Hge]; lia.
      + replace (Z.max cursor (Z.max s start)) with cursor by lia. apply gaps_of_nil.
    - apply gaps_of_none; [unfold mid, c1; lia|]. intros x Hx. apply covered_cons. left. unfold in_span. cbn.
      unfold mid, c1 in Hx. lia. }
  destruct (Z.eqb_spec c1 end_) as [Heq|Hneq].
  { exists g, c1. split; [done|]. split; [unfold c1; lia|]. split; [done|]. lia. }
  destruct (IH c1 Hne') as (gaps & cursor' & -> & Hc' & Hg' & Hrest); [unfold c1; lia|done|].
  cbn [obind]. exists (g ++ gaps), cursor'. split; [done|]. split; [unfold c1 in *; lia|].
  assert (∀ x, c1 ≤ x < end_ → covered ((s, t) :: spans) x ↔ covered spans x) as Heq.
  { intros x Hx. rewrite covered_cons. unfold in_span. cbn. split; [|auto]. intros [?|?]; [unfold c1 in *; lia|done]. }
  split; [|intros x Hx; rewrite Heq by lia; by apply Hrest].
  apply (gaps_of_app _ cursor c1 cursor'); [unfold c1 in *; lia|done|].
  eapply gaps_of_weaken; [|exact Hg']. intros x Hx. symmetry. apply Heq. lia.
Qed.

Lemma gaps_in_range_spec range spans :
  range_ok range → (∀ t, t ∈ spans → t.1 < t.2 ∧ t.1 ≤ br_start range + br_len range) →
  ∃ gaps, gaps_in_range range spans = Ok gaps ∧
    gaps_of spans (br_start range) (br_start range + br_len range) gaps.
Proof.
  intros Hr Hne. pose proof Hr as (? & [? ?] & ?). unfold gaps_in_range. rewrite range_end_ok by done. cbv zeta.
  set (start := br_start range) in *. set (end_ := start + br_len range) in *.
  assert (∀ x, covered (sort_spans spans) x ↔ covered spans x) as Hcov.
  { intros x. unfold covered. by setoid_rewrite sort_spans_elem. }
  destruct (gaps_loop_spec start end_ start (sort_spans spans)) as (gaps & cursor & -> & Hc & Hg & Hrest).
  { apply sort_spans_sorted. }
  { intros t. rewrite sort_spans_elem. apply Hne. }
  { unfold end_. lia. }
  { unfold end_. lia. }
  cbn [obind]. destruct (Z.ltb_spec cursor end_) as [Hlt|Hge].
  - rewrite byte_range_from_bounds_ok by (unfold end_ in *; lia). cbn [obind].
    exists (gaps ++ [mkRange cursor (end_ - cursor)]). split; [done|].
    apply (gaps_of_weaken (sort_spans spans)); [done|]. apply (gaps_of_app _ start cursor end_); [lia|done|].
    apply gaps_of_one; [done|]. intros x Hx. by apply Hrest.
  - exists gaps. split; [done|]. replace end_ with cursor by lia. by apply (gaps_of_weaken (sort_spans spans)).
Qed.

Lemma gap_range_ok range g :
  range_ok range → gap_in (br_start range) (br_start range + br_len range) g → range_ok g ∧ br_len g ≠ 0.
Proof. intros (? & [? ?] & ?) (? & ? & ?). unfold range_ok, is_u32. lia. Qed.
End gaps.

(** ** The invariant of the view *)

(** The byte of a record in the overlay. *)
Definition overlay_byte (m : btree (Extent OverlayExtent)) (i : Z) : option byte :=
  match contents overlay_view m i with Some (_, b) => b | None => None end.

(** The budget and the identifiers of the cache are far from overflow. *)
Definition cache_room (size : Z) (c : ReadCache) : Prop :=
  rc_max_bytes c + u32_max + 2 * CACHE_BLOCK_BYTES ≤ u64_max ∧ rc_next_object_id c + size ≤ u64_max.

Record overlay_for (size base last : Z) (m : btree (Extent OverlayExtent)) : Prop := {
  of_inv : overlay_inv m;
  of_mapped : ∀ i r ob, contents overlay_view m i = Some (r, ob) → 0 ≤ i < size ∧ base < rec_seq r ≤ last;
}.

Section view.
Context (committed : RootSnapshot → Z → byte).
Implicit Types (v : ExportReadViewState) (range : ByteRange).

(** A cached byte is a committed byte that no record has overwritten. *)
Definition coherent (root : RootSnapshot) (m : btree (Extent OverlayExtent)) (i : Z) (b : byte) : Prop :=
  0 ≤ i < rs_size_bytes root ∧ contents overlay_view m i = None ∧ b = committed root i.

Definition cache_all (P : Z → byte → Prop) (c : ReadCache) : Prop := ∀ i b, cached c i = Some b → P i b.

Record view_inv v : Prop := {
  vi_size : 0 < rs_size_bytes (vs_root v) ∧ blocks_fit (rs_size_bytes (vs_root v));
  vi_overlay : overlay_for (rs_size_bytes (vs_root v)) (rs_base_wal_seq (vs_root v)) (vs_last_applied_seq v)
                 (vs_overlay v);
  vi_seqs : 0 ≤ rs_base_wal_seq (vs_root v) ≤ vs_last_applied_seq v;
  vi_cache : cache_ready (vs_cache v);
  vi_coherent : cache_all (coherent (vs_root v) (vs_overlay v)) (vs_cache v);
  vi_debt : 0 ≤ vs_wal_debt_bytes v ≤ u64_max;
}.

(** What the view shows at a byte. *)
Definition visible v (i : Z) : byte :=
  match overlay_byte (vs_overlay v) i with Some b => b | None => committed (vs_root v) i end.

Lemma size_u64 v : view_inv v → 0 < rs_size_bytes (vs_root v) ≤ u64_max.
Proof.
  intros [[Hs Hf] _ _ _ _ _]. unfold blocks_fit in Hf. split; [done|].
  pose proof (Z.mul_succ_div_gt (rs_size_bytes (vs_root v) - 1) _ CACHE_BLOCK_pos). lia.
Qed.

Lemma overlay_contents_byte m i r ob :
  overlay_inv m → contents overlay_view m i = Some (r, ob) → is_Some ob.
Proof.
  intros [Hwf Hok] Hc. unfold contents in Hc. destruct (em_find m i) as [p|] eqn:Hf; [|done].
  injection Hc as <- <-. apply em_find_Some in Hf as [Hp Hi]; [|done].
  destruct (Hok p Hp) as (Hr & _ & Ho & Hs & He). destruct (record_ok_len _ Hr) as [_ Hl].
  apply zget_is_Some. lia.
Qed.

Lemma overlay_byte_None m i :
  overlay_inv m → overlay_byte m i = None ↔ contents overlay_view m i = None.
Proof.
  intros Hinv. unfold overlay_byte. destruct (contents overlay_view m i) as [[r ob]|] eqn:Hc; [|done].
  destruct (overlay_contents_byte m i r ob Hinv Hc) as [b ->]. done.
Qed.

(** *** Copying into the buffer of a read *)

(** A copy that gives the positions of [cov] the bytes of [g]. *)
Definition copies range (g : Z → option byte) {A} (cov : A → Z → Prop) `{!∀ x i, Decision (cov x i)}
    (copy : A → list byte → SResult (list byte)) (x : A) : Prop :=
  ∀ data, zlen data = br_len range →
  ∃ data', copy x data = Ok data' ∧ zlen data' = br_len range ∧
    ∀ i, in_byte_range range i →
      zget data' (i - br_start range) = if bool_decide (cov x i) then g i else zget data (i - br_start range).

Lemma copy_each_spec range g {A} (cov : A → Z → Prop) `{!∀ x i, Decision (cov x i)} copy (l : list A) data :
  (∀ x, x ∈ l → copies range g cov copy x) → zlen data = br_len range →
  ∃ data', copy_each copy l data = Ok data' ∧ zlen data' = br_len range ∧
    ∀ i, in_byte_range range i →
      zget data' (i - br_start range) =
        if bool_decide (Exists (λ x, cov x i) l) then g i else zget data (i - br_start range).
Proof.
  revert data. induction l as [|x l IH]; intros data Hl Hlen.
  { exists data. split; [done|]. split; [done|]. intros i Hi. rewrite bool_decide_false; [done|].
    by intros ?%Exists_nil. }
  destruct (Hl x ltac:(set_solver) data Hlen) as (d1 & H1 & Hl1 & Hg1).
  destruct (IH d1) as (d2 & H2 & Hl2 & Hg2); [intros y Hy; apply Hl; by right|done|].
  exists d2. cbn [copy_each]. rewrite H1. cbn [obind]. split; [done|]. split; [done|].
  intros i Hi. rewrite Hg2 by done.
  rewrite (bool_decide_ext (Exists _ (x :: l)) (cov x i ∨ Exists (λ x, cov x i) l)) by apply Exists_cons.
  case_bool_decide; [by rewrite bool_decide_true by auto|]. rewrite Hg1 by done.
  case_bool_decide; [by rewrite bool_decide_true by auto|]. by rewrite bool_decide_false by naive_solver.
Qed.

Definition cslice_cov (sl : CacheReadSlice) (i : Z) : Prop := crs_start sl ≤ i < crs_end sl.
Definition oslice_cov (sl : OverlayReadSlice) (i : Z) : Prop := sl_start sl ≤ i < sl_end sl.

#[export] Instance cslice_cov_dec sl i : Decision (cslice_cov sl i).
Proof. unfold cslice_cov. apply _. Defined.
#[export] Instance oslice_cov_dec sl i : Decision (oslice_cov sl i).
Proof. unfold oslice_cov. apply _. Defined.

Lemma cache_slice_copies range g f sl :
  range_ok range → range_ok g → cache_slice_ok f g sl →
  copies range f cslice_cov (λ sl data, cache_slice_copy_to sl range data) sl.
Proof.
  intros Hr Hg Hsl data Hlen. destruct (cache_slice_copy_spec f g sl range data Hsl Hg Hr Hlen)
    as (data' & Hrun & Hl & Hget).
  exists data'. split; [done|]. split; [done|]. intros i Hi. rewrite Hget by done. unfold cslice_cov.
  destruct (Z.leb_spec (crs_start sl) i), (Z.ltb_spec i (crs_end sl)); cbn; case_bool_decide; try done; lia.
Qed.

(** A slice of the overlay inside the range whose bytes are those of [f]. *)
Definition overlay_slice_ok range (f : Z → option byte) (sl : OverlayReadSlice) : Prop :=
  br_start range ≤ sl_start sl < sl_end sl ∧ sl_end sl ≤ br_start range + br_len range ∧
  0 ≤ sl_offset sl ∧ sl_offset sl + (sl_end sl - sl_start sl) ≤ zlen (rec_data (sl_record sl)) ∧
  zlen (rec_data (sl_record sl)) ≤ u32_max ∧
  ∀ i, sl_start sl ≤ i < sl_end sl → zget (rec_data (sl_record sl)) (sl_offset sl + (i - sl_start sl)) = f i.

Lemma overlay_slice_copies range f sl :
  range_ok range → overlay_slice_ok range f sl → copies range f oslice_cov (overlay_record range) sl.
Proof.
  intros Hr (H1 & H2 & H3 & H4 & H5 & H6) data Hlen. pose proof Hr as (? & [? ?] & ?).
  unfold overlay_record. rewrite range_end_ok by done. unfold u32_max, u64_max in *.
  rewrite (Z.max_r (br_start range)), (Z.min_r _ (sl_end sl)) by lia.
  rewrite (proj2 (Z.leb_gt _ _)) by lia.
  rewrite !u64_sub_id by (unfold u64_max; lia). rewrite Z.sub_diag, !u64_add_id by (unfold u64_max; lia).
  rewrite !usize_try_from_id by (unfold u64_max; lia). cbn [ok_or obind].
  rewrite !u64_add_id by (unfold u64_max; lia).
  destruct (slice_exists data (sl_start sl - br_start range) (sl_start sl - br_start range + (sl_end sl - sl_start sl)))
    as [r ->]; [lia..|].
  destruct (slice_exists (rec_data (sl_record sl)) (sl_offset sl + 0) (sl_offset sl + 0 + (sl_end sl - sl_start sl)))
    as [src Hsrc]; [lia..|].
  rewrite Hsrc. cbn [or_panic obind]. pose proof (slice_length _ _ _ _ Hsrc) as Hsl.
  destruct (splice_exists data (sl_start sl - br_start range) src) as [data' Hd]; [lia..|].
  exists data'. rewrite Hd. split; [done|]. split; [by rewrite (splice_length _ _ _ _ Hd)|].
  intros i Hi. rewrite (splice_get _ _ _ _ _ Hd), Hsl. unfold oslice_cov, in_byte_range in *.
  case_bool_decide.
  - decide_cmp. rewrite (slice_get _ _ _ _ (i - br_start range - (sl_start sl - br_start range)) Hsrc) by lia.
    rewrite <-H6 by done. f_equal. lia.
  - destruct (Z.leb_spec (sl_start sl - br_start range) (i - br_start range)),
      (Z.ltb_spec (i - br_start range) (sl_start sl - br_start range + (sl_offset sl + 0 + (sl_end sl - sl_start sl) - (sl_offset sl + 0))));
      cbn; try done. lia.
Qed.

(** A block of committed bytes. *)
Definition committed_block (root : RootSnapshot) (b : Block) : Prop :=
  range_ok (b_range b) ∧ br_len (b_range b) ≠ 0 ∧ block_ok b ∧
  ∀ x, in_byte_range (b_range b) x →
    block_byte (b_parts b) x = Some (committed root x) ∧ 0 ≤ x < rs_size_bytes root.

Lemma tree_block_copies range root b :
  range_ok range → committed_block root b → gap_in (br_start range) (br_start range + br_len range) (b_range b) →
  copies range (λ i, Some (committed root i)) (λ b i, in_byte_range (b_range b) i) (copy_tree_block range) b.
Proof.
  intros Hr (Hbr & Hbne & [Hp Hnew] & Hby) (Hg1 & Hg2 & Hg3) data Hlen. pose proof Hr as (? & [? ?] & ?).
  pose proof Hbr as (? & [? ?] & ?).
  destruct (materialize_bytes (b_range b) (b_parts b) b Hbr Hp Hnew) as (bytes & Hm & Hl & Hget).
  unfold copy_tree_block. rewrite !range_end_ok by done.
  rewrite (proj2 (Z.ltb_ge _ _)), (proj2 (Z.ltb_ge _ _)) by lia. cbn [orb]. rewrite Hm. cbn [obind].
  rewrite Hl, Z.eqb_refl. cbn [negb]. unfold u32_max, u64_max in *.
  rewrite u64_sub_id by (unfold u64_max; lia). rewrite usize_try_from_id by (unfold u64_max; lia). cbn [ok_or obind].
  destruct (splice_exists data (br_start (b_range b) - br_start range) bytes) as [data' Hd]; [lia..|].
  exists data'. rewrite Hd. split; [done|]. split; [by rewrite (splice_length _ _ _ _ Hd)|].
  intros i Hi. rewrite (splice_get _ _ _ _ _ Hd), Hl. unfold in_byte_range in *. case_bool_decide.
  - decide_cmp. rewrite (proj1 (Hget (i - br_start range - (br_start (b_range b) - br_start range)) ltac:(lia))).
    rewrite <-(proj1 (Hby i ltac:(lia))). f_equal. lia.
  - destruct (Z.leb_spec (br_start (b_range b) - br_start range) (i - br_start range)),
      (Z.ltb_spec (i - br_start range) (br_start (b_range b) - br_start range + br_len (b_range b))); cbn; try done. lia.
Qed.

(** *** The plan of a read *)

Lemma overlay_slices_ok m range :
  overlay_inv m → range_ok range →
  ∃ slices, read_slices m range = Ok slices ∧
    (∀ sl, sl ∈ slices → overlay_slice_ok range (overlay_byte m) sl) ∧
    ∀ i, in_byte_range range i → is_Some (overlay_byte m i) ↔ ∃ sl, sl ∈ slices ∧ oslice_cov sl i.
Proof.
  intros Hinv Hr. pose proof Hr as (? & [? ?] & ?). pose proof Hinv as [Hwf Hok].
  destruct (Z.eq_dec (br_len range) 0) as [Hz|Hz].
  { exists []. split; [|split; [set_solver|]].
    - unfold read_slices, overlapping. rewrite range_end_ok by done. rewrite Hz, Z.add_0_r, Z.eqb_refl. done.
    - intros i Hi. unfold in_byte_range in Hi. lia. }
  eexists. split; [by apply read_slices_eq|]. set (start := br_start range) in *.
  set (end_ := start + br_len range) in *. split.
  - intros sl (p & -> & [[Hm1 Hm2] Hp]%list_elem_of_filter)%list_elem_of_fmap.
    pose proof Hwf as (_ & Hn & _). specialize (Hn p Hp).
    destruct (Hok p Hp) as (Hrec & _ & Ho & Hs & He). destruct (record_ok_len _ Hrec) as [_ Hl].
    destruct Hrec as [_ (_ & [_ Hu] & _)]. unfold overlay_slice_ok. cbn. fold start end_.
    split_and!; try lia. intros i Hi. unfold overlay_byte, contents.
    rewrite (proj2 (em_find_Some m i p Hwf)) by (split; [done|lia]). cbn. f_equal. lia.
  - intros i Hi. unfold in_byte_range in Hi. fold start in Hi. fold end_ in Hi. split.
    + intros Hsome. destruct (em_find m i) as [p|] eqn:Hf.
      2: { unfold overlay_byte, contents in Hsome. rewrite Hf in Hsome. by destruct Hsome. }
      apply em_find_Some in Hf as [Hp Hpi]; [|done]. exists (slice_of start end_ p). split.
      * apply list_elem_of_fmap. exists p. split; [done|]. apply list_elem_of_filter. split; [|done]. split; lia.
      * unfold oslice_cov. cbn. lia.
    + intros (sl & (p & -> & [[Hm1 Hm2] Hp]%list_elem_of_filter)%list_elem_of_fmap & Hcov).
      unfold oslice_cov in Hcov. cbn in Hcov. unfold overlay_byte.
      destruct (contents overlay_view m i) as [[r ob]|] eqn:Hc.
      * by apply (overlay_contents_byte m i r ob Hinv).
      * unfold contents in Hc. rewrite (proj2 (em_find_Some m i p Hwf)) in Hc by (split; [done|lia]). done.
Qed.

Record plan_ok (root : RootSnapshot) (ob cb : Z → option byte) range (plan : ReadPlan) : Prop := {
  po_root : rp_root plan = root;
  po_overlay : ∀ sl, sl ∈ rp_overlay_slices plan → overlay_slice_ok range ob sl;
  po_overlay_cov : ∀ i, in_byte_range range i →
    is_Some (ob i) ↔ ∃ sl, sl ∈ rp_overlay_slices plan ∧ oslice_cov sl i;
  po_cache : ∀ sl, sl ∈ rp_cache_slices plan → ∃ g, range_ok g ∧ cache_slice_ok cb g sl;
  po_misses : ∀ m, m ∈ rp_tree_misses plan → gap_in (br_start range) (br_start range + br_len range) m;
  po_cover : ∀ i, in_byte_range range i → ob i = None →
    (∃ sl, sl ∈ rp_cache_slices plan ∧ cslice_cov sl i) ∨ ∃ m, m ∈ rp_tree_misses plan ∧ in_byte_range m i;
  po_total : total_len (rp_tree_misses plan) ≤ br_len range;
}.

(** The slices of the cache in a list of gaps. *)
Lemma cache_gap_slices c range gaps :
  cache_core c → range_ok range → (∀ g, g ∈ gaps → gap_in (br_start range) (br_start range + br_len range) g) →
  ∃ slices, try_map (cache_read_slices c) gaps = Ok slices ∧
    (∀ sl, sl ∈ concat slices → ∃ g, g ∈ gaps ∧ range_ok g ∧ cache_slice_ok (cached c) g sl).
Proof.
  intros Hc Hr Hg. destruct (try_map_total (cache_read_slices c) gaps) as (slices & Hrun & Hin).
  { intros g Hin. destruct (gap_range_ok range g Hr (Hg g Hin)) as [? ?].
    destruct (cache_read_slices_spec c g Hc) as (sl & ? & _); eauto. }
  exists slices. split; [done|]. intros sl Hsl.
  apply list_elem_of_In, in_concat in Hsl as (l & Hl%list_elem_of_In & Hsl%list_elem_of_In).
  apply Hin in Hl as (g & Hgin & Hrun'). destruct (gap_range_ok range g Hr (Hg g Hgin)) as [? ?].
  destruct (cache_read_slices_spec c g Hc) as (l' & Hrun2 & Hok & _); [done|done|].
  rewrite Hrun2 in Hrun'. injection Hrun' as ->. eauto.
Qed.

Lemma read_begin_spec range v :
  view_inv v → range_ok range → br_start range + br_len range ≤ rs_size_bytes (vs_root v) →
  ∃ plan, read_begin range v = Ok plan ∧
    plan_ok (vs_root v) (overlay_byte (vs_overlay v)) (cached (vs_cache v)) range plan.
Proof.
  intros Hv Hr Hsz. pose proof Hv as [_ [Hov _] _ [Hci _ _] _ _]. pose proof Hr as (? & [? ?] & ?).
  unfold read_begin, validate_range, validate_request_range.
  rewrite u64_checked_add_id by lia. cbn [ok_or obind]. rewrite (proj2 (Z.ltb_ge _ _)) by lia. cbn [obind].
  destruct (overlay_slices_ok (vs_overlay v) range Hov Hr) as (os & -> & Hos & Hoc). cbn [obind].
  set (ospans := (λ sl, (sl_start sl, sl_end sl)) <$> os).
  assert (∀ t, t ∈ ospans → t.1 < t.2 ∧ t.1 ≤ br_start range + br_len range) as Hosp.
  { intros t (sl & -> & Hsl)%list_elem_of_fmap. destruct (Hos sl Hsl) as (? & ? & _). cbn. lia. }
  destruct (gaps_in_range_spec range ospans Hr Hosp) as (gaps & -> & Hg1 & _ & Hg3). cbn [obind].
  destruct (cache_gap_slices (vs_cache v) range gaps (inv_core _ Hci) Hr Hg1) as (csl & -> & Hcs). cbn [obind].
  set (cs := concat csl) in *. set (cspans := (λ sl, (crs_start sl, crs_end sl)) <$> cs).
  assert (∀ t, t ∈ ospans ++ cspans → t.1 < t.2 ∧ t.1 ≤ br_start range + br_len range) as Hsp.
  { intros t [Ht|Ht]%elem_of_app; [by apply Hosp|]. apply list_elem_of_fmap in Ht as (sl & -> & Hsl).
    destruct (Hcs sl Hsl) as (g & Hgin & _ & (? & ? & _)). destruct (Hg1 g Hgin) as (? & ? & ?). cbn. lia. }
  destruct (gaps_in_range_spec range (ospans ++ cspans) Hr Hsp) as (misses & -> & Hm1 & Hm2 & Hm3). cbn [obind].
  eexists. split; [reflexivity|]. split; cbn; try done.
  - intros sl Hsl. destruct (Hcs sl Hsl) as (g & _ & ? & ?). eauto.
  - intros i Hi Hob. destruct (decide (Exists (λ sl, cslice_cov sl i) cs)) as [(sl & ? & ?)%Exists_exists|Hno];
      [left; eauto|]. right. apply Hm3; [done|]. intros (t & [Ht|Ht]%elem_of_app & Hti).
    + apply list_elem_of_fmap in Ht as (sl & -> & Hsl).
      assert (is_Some (overlay_byte (vs_overlay v) i)) as Hs by (apply Hoc; [done|]; eauto).
      rewrite Hob in Hs. by destruct Hs.
    + apply list_elem_of_fmap in Ht as (sl & -> & Hsl). apply Hno, Exists_exists. eauto.
  - change (total_len misses ≤ br_len range). lia.
Qed.

(** *** Fetching *)

Section fetching.
Context {W : Type} `{!TreeReader RootSnapshot W} `{!TreeReaderLaws W committed}.

Lemma fetch_misses_spec root range misses data (w : W) :
  holds w root → range_ok range → br_start range + br_len range ≤ rs_size_bytes root →
  (∀ m, m ∈ misses → gap_in (br_start range) (br_start range + br_len range) m) →
  zlen data = br_len range →
  match fetch_misses root range misses data w with
  | (Ok (data', fills), w') =>
      zlen data' = br_len range ∧ (∀ b, b ∈ fills → committed_block root b) ∧
      total_len (b_range <$> fills) = total_len misses ∧
      (∀ i, in_byte_range range i →
        zget data' (i - br_start range) =
          if bool_decide (Exists (λ m, in_byte_range m i) misses) then Some (committed root i)
          else zget data (i - br_start range)) ∧
      unchanged w w'
  | (Err _, w') => unchanged w w'
  | (Panic, _) => False
  end.
Proof.
  intros Hh Hr Hsz. revert data w Hh. induction misses as [|m misses IH]; intros data w Hh Hm Hlen.
  { cbn [fetch_misses]. unfold mret. split; [done|]. split; [set_solver|]. split; [done|]. split; [|done].
    intros i Hi. rewrite bool_decide_false; [done|]. by intros ?%Exists_nil. }
  pose proof (Hm m ltac:(set_solver)) as Hgm. destruct (gap_range_ok range m Hr Hgm) as [Hmr Hmne].
  pose proof Hgm as (Hg1 & Hg2 & Hg3). pose proof Hr as (? & ? & ?).
  cbn [fetch_misses]. unfold mseq at 1.
  pose proof (law_read_committed w root m Hh Hmr Hmne ltac:(lia)) as Hlaw.
  destruct (read_committed root m w) as [[b|e|] w1]; [|done|done].
  destruct Hlaw as (Hbr & Hbok & Hby & Hhold). rewrite bool_decide_false by naive_solver.
  assert (committed_block root b) as Hcb.
  { rewrite <-Hbr in *. split; [done|]. split; [done|]. split; [done|]. intros x Hx. split; [by apply Hby|].
    unfold in_byte_range in Hx. lia. }
  rewrite <-Hbr in Hgm.
  destruct (tree_block_copies range root b Hr Hcb Hgm data Hlen) as (d1 & Hd1 & Hl1 & Hg).
  erewrite mseq_ok by (unfold mlift; rewrite Hd1; reflexivity).
  assert (∀ x, x ∈ misses → gap_in (br_start range) (br_start range + br_len range) x) as Hm' by set_solver.
  specialize (IH d1 w1 (law_unchanged _ _ _ Hhold Hh) Hm' Hl1). unfold mseq.
  destruct (fetch_misses root range misses d1 w1) as [[[d2 fills]|e|] w2]; [|by etrans|done].
  destruct IH as (Hl2 & Hf2 & Ht2 & Hd2 & Hh2). cbn. split; [done|]. split.
  { intros b' [->|Hb']%elem_of_cons; auto. }
  split; [unfold total_len in *; cbn; rewrite Hbr, Ht2; done|]. split; [|by etrans]. intros i Hi. rewrite Hd2 by done.
  rewrite (bool_decide_ext (Exists _ (m :: misses)) (in_byte_range m i ∨ Exists (λ m, in_byte_range m i) misses))
    by apply Exists_cons.
  case_bool_decide; [by rewrite bool_decide_true by auto|]. rewrite Hg, Hbr by done.
  case_bool_decide; [by rewrite bool_decide_true by auto|]. by rewrite bool_decide_false by naive_solver.
Qed.

(** A fetch needs the plan only: its data are the bytes the view showed when the plan was made. *)
Lemma read_fetch_spec v range plan (w : W) :
  view_inv v → range_ok range → br_start range + br_len range ≤ rs_size_bytes (vs_root v) →
  plan_ok (vs_root v) (overlay_byte (vs_overlay v)) (cached (vs_cache v)) range plan → holds w (vs_root v) →
  match read_fetch range plan w with
  | (Ok (data, fills), w') =>
      zlen data = br_len range ∧
      (∀ i, in_byte_range range i → zget data (i - br_start range) = Some (visible v i)) ∧
      (∀ b, b ∈ fills → committed_block (vs_root v) b) ∧
      total_len (b_range <$> fills) = total_len (rp_tree_misses plan) ∧
      unchanged w w'
  | (Err _, w') => unchanged w w'
  | (Panic, _) => False
  end.
Proof.
  intros Hv Hr Hsz [Hroot Hov Hovc Hca Hmi Hcov] Hh. pose proof Hr as (? & [? ?] & ?).
  pose proof Hv as [_ [Hoinv _] _ _ Hcoh _].
  set (root := vs_root v) in *.
  destruct (copy_each_spec range (λ i, Some (committed root i)) cslice_cov
    (λ sl data, cache_slice_copy_to sl range data) (rp_cache_slices plan) (zeros (br_len range)))
    as (d1 & Hd1 & Hl1 & Hg1).
  { intros sl Hsl. destruct (Hca sl Hsl) as (g & Hg & Hok).
    apply (cache_slice_copies range g (λ i, Some (committed root i)) sl Hr Hg).
    destruct Hok as (? & ? & ? & ? & ? & Hb). do 5 (split; [done|]). intros i Hi.
    destruct (Hb i Hi) as [Hbi [b Hc]]. destruct (Hcoh i b Hc) as (_ & _ & ->). split; [congruence|done]. }
  { rewrite zeros_length; lia. }
  unfold read_fetch. erewrite mseq_ok by (unfold mlift; rewrite Hd1; reflexivity).
  unfold mseq at 1. rewrite Hroot.
  pose proof (fetch_misses_spec root range (rp_tree_misses plan) d1 w Hh Hr Hsz Hmi Hl1) as Hf.
  destruct (fetch_misses root range (rp_tree_misses plan) d1 w) as [[[d2 fills]|e|] w2]; [|done|done].
  destruct Hf as (Hl2 & Hfills & Htot & Hg2 & Hhold).
  destruct (copy_each_spec range (overlay_byte (vs_overlay v)) oslice_cov (overlay_record range)
    (rp_overlay_slices plan) d2) as (d3 & Hd3 & Hl3 & Hg3).
  { intros sl Hsl. apply overlay_slice_copies; [done|by apply Hov]. }
  { done. }
  erewrite mseq_ok by (unfold mlift; rewrite Hd3; reflexivity). cbn.
  split; [done|]. split; [|done]. intros i Hi. rewrite Hg3 by done. unfold visible.
  case_bool_decide as He.
  - apply Exists_exists in He as (sl & Hsl & Hc).
    destruct (proj2 (Hovc i Hi)) as [b Hb]; [eauto|]. by rewrite Hb.
  - assert (overlay_byte (vs_overlay v) i = None) as Hnone.
    { destruct (overlay_byte (vs_overlay v) i) as [b|] eqn:Hb; [|done].
      destruct (proj1 (Hovc i Hi)) as (sl & ? & ?); [by eexists|]. destruct He. apply Exists_exists. eauto. }
    rewrite Hnone, Hg2 by done. case_bool_decide as Hm; [done|]. rewrite Hg1 by done.
    rewrite bool_decide_true; [done|].
    destruct (Hcov i Hi Hnone) as [(sl & ? & ?)|(m & ? & ?)]; [apply Exists_exists; eauto|].
    destruct Hm. apply Exists_exists. eauto.
Qed.
End fetching.

(** *** Filling the cache *)

Lemma blocks_fit_mono a b : 0 < a ≤ b → blocks_fit b → blocks_fit a.
Proof.
  intros Hab. unfold blocks_fit. pose proof (Z.div_le_mono (a - 1) (b - 1) _ CACHE_BLOCK_pos ltac:(lia)).
  pose proof CACHE_BLOCK_pos. nia.
Qed.

Lemma cacheable_in_room size n c range :
  cache_ready c → cache_room n c → blocks_fit size → range_ok range → br_len range ≠ 0 → br_len range ≤ n →
  br_start range + br_len range ≤ size → cacheable range c.
Proof.
  intros [_ _ Hb] [Hm Hn] Hf Hr Hne Hle Hsz. pose proof Hr as (? & [? ?] & ?). split; [done|]. split.
  - apply (blocks_fit_mono _ size); [lia|done].
  - unfold room. lia.
Qed.

(** Inserting bytes that satisfy [P] keeps every cached byte in [P]. *)
Lemma insert_post_all P c range f r n :
  insert_post c range f r → cache_all P c → cache_room n c → (∀ i b, f i = Some b → P i b) →
  ∃ c', r = (Ok tt, c') ∧ cache_ready c' ∧ cache_all P c' ∧ cache_room (n - br_len range) c'.
Proof.
  intros (c' & -> & Hready & Hmax & [_ Hnext] & Hc & _) HP [Hm Hn] Hf. exists c'. split; [done|]. split; [done|].
  split; [|unfold cache_room; lia]. intros i b Hb. destruct (Hc i) as [Hi|Hi]; rewrite Hb in Hi; [done|].
  by apply Hf.
Qed.

(** The data of a part of a committed block. *)
Record part_data_ok (root : RootSnapshot) range (bytes : list byte) : Prop := {
  pd_range : range_ok range;
  pd_len : zlen bytes = br_len range;
  pd_size : br_start range + br_len range ≤ rs_size_bytes root;
  pd_bytes : ∀ x, in_byte_range range x → zget bytes (x - br_start range) = Some (committed root x);
}.

Lemma with_cache_inv v c :
  view_inv v → cache_ready c → cache_all (coherent (vs_root v) (vs_overlay v)) c → view_inv (with_cache c v).
Proof. intros [? ? ? _ _ ?] Hr Hc. by split. Qed.

Lemma visible_with_cache v c i : visible (with_cache c v) i = visible v i.
Proof. done. Qed.

Lemma fill_hole_spec v range bytes hole n :
  view_inv v → cache_room n (vs_cache v) → part_data_ok (vs_root v) range bytes →
  gap_in (br_start range) (br_start range + br_len range) hole → br_len hole ≤ n →
  (∀ x, in_byte_range hole x → contents overlay_view (vs_overlay v) x = None) →
  ∃ c', fill_hole range bytes hole v = (Ok tt, with_cache c' v) ∧ view_inv (with_cache c' v) ∧
    cache_room (n - br_len hole) c'.
Proof.
  intros Hv Hroom [Hr Hl Hsz Hby] Hg Hn Hno. destruct (gap_range_ok range hole Hr Hg) as [Hhr Hhne].
  pose proof Hr as (? & [? ?] & ?). pose proof Hg as (? & ? & ?). unfold u32_max in *.
  assert (u64_max = 18446744073709551615) as Hu by done.
  unfold fill_hole. rewrite u64_sub_id by lia.
  erewrite mseq_ok by (unfold mlift; rewrite usize_try_from_id by lia; reflexivity).
  erewrite mseq_ok by (unfold mlift; rewrite usize_try_from_id by lia; reflexivity).
  erewrite mseq_ok by (unfold mlift; rewrite u64_checked_add_id by lia; reflexivity).
  destruct (slice_exists bytes (br_start hole - br_start range) (br_start hole - br_start range + br_len hole))
    as [w Hw]; [lia..|].
  erewrite mseq_ok by (unfold mlift; rewrite Hw; reflexivity).
  pose proof Hv as [[_ Hbf] _ _ Hready Hcoh _].
  assert (zlen w = br_len hole) as Hwl by (rewrite (slice_length _ _ _ _ Hw); lia).
  pose proof (cacheable_in_room (rs_size_bytes (vs_root v)) n _ hole Hready Hroom Hbf Hhr Hhne Hn ltac:(lia)) as Hca.
  pose proof (insert_bytes_spec (vs_cache v) hole w Hot Hready Hca Hwl) as Hpost.
  destruct (insert_post_all (coherent (vs_root v) (vs_overlay v)) _ _ _ _ n Hpost Hcoh Hroom)
    as (c' & Hrun & Hready' & Hall & Hroom').
  { intros i b. case_bool_decide as Hi; [|apply Hcoh]. unfold in_byte_range in Hi.
    rewrite (slice_get _ _ _ _ (i - br_start hole) Hw) by lia.
    replace (br_start hole - br_start range + (i - br_start hole)) with (i - br_start range) by lia.
    rewrite Hby by (unfold in_byte_range; lia). intros [= <-]. split; [lia|]. split; [by apply Hno|done]. }
  exists c'. unfold on_cache, zoom. rewrite Hrun. split; [done|]. split; [by apply with_cache_inv|done].
Qed.

Lemma total_len_cons r (rs : list ByteRange) : total_len (r :: rs) = br_len r + total_len rs.
Proof. done. Qed.

Lemma total_len_nonneg (rs : list ByteRange) : (∀ r, r ∈ rs → 0 < br_len r) → 0 ≤ total_len rs.
Proof.
  induction rs as [|r rs IH]; intros Hpos; [done|]. rewrite total_len_cons.
  specialize (Hpos r ltac:(by left)) as Hr. specialize (IH ltac:(intros; apply Hpos; by right)). lia.
Qed.

Lemma fill_holes_spec range bytes holes v n :
  view_inv v → cache_room n (vs_cache v) → part_data_ok (vs_root v) range bytes →
  (∀ h, h ∈ holes → gap_in (br_start range) (br_start range + br_len range) h) → total_len holes ≤ n →
  (∀ h x, h ∈ holes → in_byte_range h x → contents overlay_view (vs_overlay v) x = None) →
  ∃ c', mfor holes (fill_hole range bytes) v = (Ok tt, with_cache c' v) ∧ view_inv (with_cache c' v) ∧
    cache_room (n - total_len holes) c'.
Proof.
  intros Hv Hroom Hp Hg. revert v n Hv Hroom Hp. induction holes as [|h holes IH]; intros v n Hv Hroom Hp Hn Hno.
  { exists (vs_cache v). cbn. rewrite Z.sub_0_r. split; [by destruct v|]. by destruct v. }
  assert (∀ h', h' ∈ holes → 0 < br_len h') as Hpos.
  { intros h' Hh'. destruct (Hg h' ltac:(by right)) as (_ & ? & _). done. }
  pose proof (total_len_nonneg holes Hpos) as Htp.
  rewrite total_len_cons in *.
  destruct (fill_hole_spec v range bytes h n Hv Hroom Hp (Hg h ltac:(by left)) ltac:(lia)
    (λ x, Hno h x ltac:(by left))) as (c1 & Hrun & Hv1 & Hroom1).
  destruct (IH ltac:(intros h' Hh'; apply Hg; by right) (with_cache c1 v) (n - br_len h) Hv1 Hroom1 Hp)
    as (c2 & Hrun2 & Hv2 & Hroom2); [lia|intros h' x Hh'; apply Hno; by right|].
  exists c2. cbn [mfor]. rewrite (mseq_ok _ _ _ _ _ Hrun). split; [done|]. split; [done|].
  replace (n - (br_len h + total_len holes)) with (n - br_len h - total_len holes) by lia. done.
Qed.

Lemma fill_part_spec part v n :
  view_inv v → cache_room n (vs_cache v) → part_ok part → br_len (part_range part) ≤ n →
  (∀ range bytes, part = BlockData range bytes → part_data_ok (vs_root v) range bytes) →
  ∃ c', fill_part part v = (Ok tt, with_cache c' v) ∧ view_inv (with_cache c' v) ∧
    cache_room (n - br_len (part_range part)) c'.
Proof.
  intros Hv Hroom [_ [Hpl _]] Hn Hpart. destruct part as [range bytes|range]; cbn [part_range] in *.
  2: { exists (vs_cache v). cbn. split; [by destruct v|]. split; [by destruct v|].
       destruct Hroom. unfold cache_room. lia. }
  specialize (Hpart range bytes eq_refl) as Hp. pose proof Hp as [Hr Hl Hsz Hby].
  pose proof Hv as [_ [Hov _] _ [Hci _ _] _ _]. unfold fill_part. erewrite mseq_ok by done.
  destruct (overlay_slices_ok (vs_overlay v) range Hov Hr) as (os & Hos & Hok & Hoc).
  erewrite mseq_ok by (unfold mlift; rewrite Hos; reflexivity).
  assert (∃ cs, cache_read_slices (vs_cache v) range = Ok cs ∧
    ∀ sl, sl ∈ cs → cache_slice_ok (cached (vs_cache v)) range sl) as (cs & Hcs & Hcok).
  { destruct (Z.eq_dec (br_len range) 0) as [Hz|Hz].
    - exists []. split; [|set_solver]. unfold cache_read_slices, overlapping.
      rewrite range_end_ok, Hz, Z.add_0_r, Z.eqb_refl by done. done.
    - destruct (cache_read_slices_spec (vs_cache v) range (inv_core _ Hci) Hr Hz) as (cs & ? & ? & _). eauto. }
  erewrite mseq_ok by (unfold mlift; rewrite Hcs; reflexivity). cbv zeta.
  set (spans := _ ++ _).
  destruct (gaps_in_range_spec range spans Hr) as (holes & Hh & Hg1 & Hg2 & Hg3).
  { intros t [Ht|Ht]%elem_of_app; apply list_elem_of_fmap in Ht as (sl & -> & Hsl); cbn.
    - destruct (Hok sl Hsl) as (? & ? & _). lia.
    - destruct (Hcok sl Hsl) as (? & ? & _). lia. }
  erewrite mseq_ok by (unfold mlift; rewrite Hh; reflexivity).
  destruct (fill_holes_spec range bytes holes v n Hv Hroom Hp Hg1) as (c' & Hrun & Hv' & Hroom'); [lia| |].
  - intros h x Hhin Hx. destruct (Hg1 h Hhin) as (? & ? & ?).
    assert (in_byte_range range x) as Hxr by (unfold in_byte_range in *; lia).
    apply overlay_byte_None; [done|]. destruct (overlay_byte (vs_overlay v) x) as [b|] eqn:Hb; [|done]. exfalso.
    apply (proj1 (Hg3 x Hxr)); [eauto|]. destruct (proj1 (Hoc x Hxr)) as (sl & Hsl & Hc); [by eexists|].
    exists (sl_start sl, sl_end sl). split; [|done]. apply elem_of_app. left. apply list_elem_of_fmap. eauto.
  - exists c'. split; [done|]. split; [done|]. destruct Hroom' as [? ?]. unfold cache_room. lia.
Qed.

(** The parts of a valid block follow each other, and each gives the block its bytes. *)
Lemma validate_parts_parts read_end parts : ∀ expected stop,
  Forall part_ok parts → validate_parts_loop read_end expected parts = Ok stop →
  total_len (part_range <$> parts) = stop - expected ∧
  ∀ part, part ∈ parts →
    expected ≤ br_start (part_range part) ∧ br_start (part_range part) + br_len (part_range part) ≤ stop ∧
    zlen (part_bytes part) = br_len (part_range part) ∧
    ∀ x, in_byte_range (part_range part) x → block_byte parts x = block_byte [part] x.
Proof.
  induction parts as [|part parts IH]; intros expected stop Hok Hv.
  { cbn in Hv. injection Hv as <-. split; [cbn; lia|set_solver]. }
  apply Forall_cons in Hok as [Hp Hok]. cbn [validate_parts_loop] in Hv.
  destruct (Z.eqb_spec (br_start (part_range part)) expected) as [<-|]; cbn [negb] in Hv; [|done].
  assert (zlen (part_bytes part) = br_len (part_range part) ∧
    validate_parts_loop read_end (br_start (part_range part) + br_len (part_range part)) parts = Ok stop) as [Hl Hrest].
  { unfold checked_range_end in Hv. inv_ok. apply u64_checked_add_Some in Hx0 as [_ ->].
    destruct (_ <? _); [done|]. split; [|done]. destruct Hp as [_ [? _]].
    destruct part as [r bs|r]; cbn in *; [|by apply zeros_length].
    destruct (Z.eqb_spec (zlen bs) (br_len r)); [done|]. done. }
  destruct (IH _ _ Hok Hrest) as [Ht Hparts]. destruct Hp as [_ [Hpl _]]. rewrite fmap_cons, total_len_cons.
  assert (0 ≤ total_len (part_range <$> parts)) as Htn.
  { clear -Hok. induction Hok as [|q parts [_ [Hq _]] _ IH]; [done|]. rewrite fmap_cons, total_len_cons. lia. }
  split; [lia|]. intros q [->|Hq]%elem_of_cons.
  - split_and!; try lia. intros x Hx. unfold in_byte_range in Hx. cbn [block_byte]. by decide_cmp.
  - destruct (Hparts q Hq) as (? & ? & ? & Hb). split_and!; try done; [lia|]. intros x Hx. rewrite <-Hb by done.
    unfold in_byte_range in Hx. cbn [block_byte]. by decide_cmp.
Qed.

Lemma committed_block_parts root b :
  committed_block root b →
  Forall part_ok (b_parts b) ∧ total_len (part_range <$> b_parts b) = br_len (b_range b) ∧
  ∀ range bytes, BlockData range bytes ∈ b_parts b → part_data_ok root range bytes.
Proof.
  intros (Hr & Hne & [Hp Hnew] & Hby). pose proof Hr as (? & [? ?] & ?). split; [done|].
  assert (∃ e, validate_parts_loop e (br_start (b_range b)) (b_parts b) = Ok (br_start (b_range b) + br_len (b_range b)))
    as [e Hloop].
  { unfold Block_new, validate_block_parts, checked_range_end in Hnew. rewrite u64_checked_add_id in Hnew by lia.
    cbn [ok_or obind] in Hnew. exists (br_start (b_range b) + br_len (b_range b)).
    destruct (validate_parts_loop _ _ _) as [stop| |]; cbn [obind] in Hnew; [|done|done].
    destruct (Z.eqb_spec stop (br_start (b_range b) + br_len (b_range b))) as [Heq|]; [by rewrite Heq|done]. }
  destruct (validate_parts_parts _ _ _ _ Hp Hloop) as [Ht Hparts]. split; [lia|]. intros range bytes Hin.
  destruct (Hparts _ Hin) as (Hp1 & Hp2 & Hp3 & Hp4). cbn in Hp1, Hp2, Hp3, Hp4.
  rewrite Forall_forall in Hp. destruct (Hp _ Hin) as [Hs [Hl Hu]]. cbn in Hs, Hl, Hu. split.
  - unfold range_ok, is_u32. lia.
  - done.
  - destruct (Hby (br_start (b_range b) + br_len (b_range b) - 1)) as [_ ?]; [unfold in_byte_range; lia|]. lia.
  - intros x Hx. unfold in_byte_range in Hx. destruct (Hby x) as [Hb _]; [unfold in_byte_range; lia|].
    rewrite <-Hb, (Hp4 x) by (unfold in_byte_range; lia). by decide_cmp.
Qed.

Lemma fill_parts_spec parts v n :
  view_inv v → cache_room n (vs_cache v) → Forall part_ok parts → total_len (part_range <$> parts) ≤ n →
  (∀ range bytes, BlockData range bytes ∈ parts → part_data_ok (vs_root v) range bytes) →
  ∃ c', mfor parts fill_part v = (Ok tt, with_cache c' v) ∧ view_inv (with_cache c' v) ∧
    cache_room (n - total_len (part_range <$> parts)) c'.
Proof.
  intros Hv Hroom Hok. revert v n Hv Hroom. induction Hok as [|part parts Hp Hok IH]; intros v n Hv Hroom Hn Hd.
  { exists (vs_cache v). cbn. rewrite Z.sub_0_r. split; [by destruct v|]. by destruct v. }
  rewrite fmap_cons, total_len_cons in *. pose proof Hp as [_ [Hpl _]].
  assert (0 ≤ total_len (part_range <$> parts)) as Htn.
  { clear -Hok. induction Hok as [|q parts [_ [Hq _]] _ IH]; [done|]. rewrite fmap_cons, total_len_cons. lia. }
  destruct (fill_part_spec part v n Hv Hroom Hp ltac:(lia)) as (c1 & Hrun & Hv1 & Hroom1).
  { intros range bytes ->. apply Hd. by left. }
  destruct (IH (with_cache c1 v) _ Hv1 Hroom1) as (c2 & Hrun2 & Hv2 & Hroom2); [lia|intros range bytes Hin; apply Hd; by right|].
  exists c2. cbn [mfor]. rewrite (mseq_ok _ _ _ _ _ Hrun). split; [done|]. split; [done|].
  replace (n - (br_len (part_range part) + total_len (part_range <$> parts)))
    with (n - br_len (part_range part) - total_len (part_range <$> parts)) by lia. done.
Qed.

Lemma fill_blocks_spec fills v n :
  view_inv v → cache_room n (vs_cache v) → (∀ b, b ∈ fills → committed_block (vs_root v) b) →
  total_len (b_range <$> fills) ≤ n →
  ∃ c', mfor fills insert_tree_block_fills v = (Ok tt, with_cache c' v) ∧ view_inv (with_cache c' v).
Proof.
  revert v n. induction fills as [|b fills IH]; intros v n Hv Hroom Hb Hn.
  { exists (vs_cache v). cbn. split; [by destruct v|]. by destruct v. }
  rewrite fmap_cons, total_len_cons in Hn. specialize (Hb b ltac:(by left)) as Hcb.
  assert (0 ≤ total_len (b_range <$> fills)) as Htn.
  { apply total_len_nonneg. intros r (b' & -> & Hb')%list_elem_of_fmap.
    destruct (Hb b' ltac:(by right)) as ((_ & [? _] & _) & ? & _). lia. }
  destruct (committed_block_parts _ _ Hcb) as (Hp & Ht & Hd).
  destruct (fill_parts_spec (b_parts b) v n Hv Hroom Hp ltac:(lia) Hd) as (c1 & Hrun & Hv1 & Hroom1).
  destruct (IH (with_cache c1 v) _ Hv1 Hroom1) as (c2 & Hrun2 & Hv2); [intros b' Hb'; apply Hb; by right|lia|].
  exists c2. cbn [mfor]. unfold insert_tree_block_fills at 1. rewrite (mseq_ok _ _ _ _ _ Hrun). done.
Qed.

(** The end of a read changes the cache only, and keeps it coherent, at any later state of the view
    whose root may have moved on. *)
Lemma read_finish_spec plan fills v n :
  view_inv v → cache_room n (vs_cache v) → (∀ b, b ∈ fills → committed_block (rp_root plan) b) →
  total_len (b_range <$> fills) ≤ n →
  ∃ c', read_finish plan fills v = (Ok tt, with_cache c' v) ∧ view_inv (with_cache c' v).
Proof.
  intros Hv Hroom Hb Hn. unfold read_finish.
  assert (∃ c', (let! _ := mmodify (λ v, with_cache (promote_hits (crs_object_id <$> rp_cache_slices plan) (vs_cache v)) v) in
    let! v := mget in
    if bool_decide (vs_root v = rp_root plan) then mfor fills insert_tree_block_fills else mret tt) v
    = (Ok tt, with_cache c' v) ∧ view_inv (with_cache c' v)) as Hmain.
  { erewrite mseq_ok by done. erewrite mseq_ok by done. set (hits := crs_object_id <$> rp_cache_slices plan).
    pose proof Hv as [_ _ _ [Hci Hmx Hbu] Hcoh _].
    destruct (promote_hits_spec hits (vs_cache v) Hci) as (Hci' & He & Ho & Hm & Hch & Hnx & _).
    set (c1 := promote_hits hits (vs_cache v)) in *.
    assert (view_inv (with_cache c1 v)) as Hv1.
    { apply with_cache_inv; [done|split; [done|lia|lia]|]. intros i b Hib. apply Hcoh. unfold cached in *.
      by rewrite He, Ho in Hib. }
    assert (cache_room n c1) as Hroom1 by (unfold cache_room in *; lia).
    case_bool_decide as Hroot.
    - cbn in Hroot. rewrite <-Hroot in Hb.
      destruct (fill_blocks_spec fills (with_cache c1 v) n Hv1 Hroom1 Hb Hn) as (c2 & Hrun & Hv2).
      exists c2. split; [exact Hrun|exact Hv2].
    - exists c1. done. }
  destruct (rp_cache_slices plan) as [|sl sls] eqn:Hsl; [|exact Hmain].
  destruct fills as [|b fills]; [|exact Hmain]. exists (vs_cache v). split; [by destruct v|by destruct v].
Qed.

(** *** Applying a record *)

Lemma apply_wal_record_spec record v :
  view_inv v → record_ok record →
  br_start (rec_range record) + br_len (rec_range record) ≤ rs_size_bytes (vs_root v) →
  rec_seq record = vs_last_applied_seq v + 1 → rec_seq record ≤ u64_max →
  vs_wal_debt_bytes v + zlen (rec_data record) ≤ u64_max →
  ∃ v', apply_wal_record record v = (Ok tt, v') ∧ view_inv v' ∧
    vs_root v' = vs_root v ∧ vs_last_applied_seq v' = rec_seq record ∧
    vs_wal_debt_bytes v' = vs_wal_debt_bytes v + zlen (rec_data record) ∧
    rc_max_bytes (vs_cache v') = rc_max_bytes (vs_cache v) ∧
    rc_next_object_id (vs_cache v') = rc_next_object_id (vs_cache v) ∧
    (∀ i, contents overlay_view (vs_overlay v') i =
      if bool_decide (in_byte_range (rec_range record) i) then Some (record, record_byte record i)
      else contents overlay_view (vs_overlay v) i) ∧
    ∀ i, visible v' i =
      if bool_decide (in_byte_range (rec_range record) i) then default x00 (record_byte record i) else visible v i.
Proof.
  intros Hv Hrec Hsz Hseq Hsu Hdebt. pose proof Hv as [Hsize [Hov Hmap] Hseqs Hready Hcoh Hd].
  pose proof Hrec as [_ Hr]. pose proof Hr as (? & [? ?] & ?).
  destruct (record_ok_len record Hrec) as [Hpos Hlen].
  unfold apply_wal_record. erewrite mseq_ok by done.
  erewrite mseq_ok.
  2: { unfold mlift, validate_range, validate_request_range. rewrite u64_checked_add_id by lia. cbn [ok_or obind].
       rewrite (proj2 (Z.ltb_ge _ _)) by lia. reflexivity. }
  rewrite (proj2 (Z.leb_gt _ _)) by lia.
  erewrite mseq_ok by (unfold mlift; rewrite u64_checked_add_id by lia; reflexivity).
  rewrite Hseq, Z.eqb_refl. cbn [negb].
  destruct (insert_record_spec record (vs_overlay v) Hov Hrec) as (m' & Hrun1 & Hov' & Hc').
  erewrite mseq_ok by (unfold on_overlay, zoom; rewrite Hrun1; reflexivity).
  destruct (trim_range_spec (vs_cache v) (rec_range record) Hready Hr) as (c' & Hrun2 & Hready' & Hmx' & Hnx' & Hb').
  erewrite mseq_ok by (unfold on_cache, zoom; cbn [vs_cache with_overlay]; rewrite Hrun2; reflexivity).
  erewrite mseq_ok by done. erewrite mseq_ok by done. cbn [vs_wal_debt_bytes with_last_applied with_cache with_overlay].
  erewrite mseq_ok by (unfold mlift; rewrite u64_checked_add_id by lia; reflexivity).
  eexists. split; [reflexivity|]. split.
  - split; cbn; try done.
    + split; [done|]. intros i r ob. rewrite Hc'. case_bool_decide as Hi.
      * intros [= <- <-]. unfold in_byte_range in Hi. lia.
      * intros Hm. specialize (Hmap i r ob Hm). lia.
    + lia.
    + intros i b. rewrite Hb'. case_bool_decide as Hi; [done|]. intros Hcb. destruct (Hcoh i b Hcb) as (? & ? & ?).
      split; [done|]. split; [|done]. rewrite Hc'. by rewrite bool_decide_false.
    + lia.
  - split; [done|]. split; [done|]. split; [done|]. split; [done|]. split; [done|]. split; [exact Hc'|].
    intros i. unfold visible, overlay_byte. cbn. rewrite Hc'. case_bool_decide as Hi; [|done].
    unfold record_byte. unfold in_byte_range in Hi.
    destruct (zget_is_Some (rec_data record) (i - br_start (rec_range record))) as [b ->]; [lia|done].
Qed.

(** *** Advancing the root *)

Definition retired_total (es : list RetiredOverlayExtent) : Z := foldr (λ e acc, re_end e - re_start e + acc) 0 es.

Lemma retired_total_cons e es : retired_total (e :: es) = re_end e - re_start e + retired_total es.
Proof. done. Qed.

Lemma retired_total_perm es es' : es ≡ₚ es' → retired_total es = retired_total es'.
Proof. unfold retired_total. induction 1; cbn; lia. Qed.

(** Disjoint extents are together no longer than what they lie in. *)
Lemma retired_total_le (P : ExtentEntry OverlayExtent → Prop) `{!∀ e, Decision (P e)} m lo hi :
  em_wf m → (∀ p, p ∈ m → lo ≤ p.1 ∧ ext_end p.2 ≤ hi) → lo ≤ hi →
  0 ≤ retired_total (retire <$> filter P (em_iter m)) ≤ hi - lo.
Proof.
  revert lo. induction m as [|[s x] m IH]; intros lo (Hs & Hne & Hd) Hb Hlh; [cbn; lia|].
  pose proof Hs as Hs'. apply bt_sorted_cons in Hs' as [Hlt Hs']. destruct (Hb (s, x) ltac:(by left)) as [Hb1 Hb2].
  pose proof (Hne (s, x) ltac:(by left)) as Hsx. cbn in Hb1, Hb2, Hsx.
  assert (em_wf m) as Hwf.
  { split; [done|]. split; [intros p Hp; apply Hne; by right|intros p q Hp Hq; apply Hd; by right]. }
  destruct (IH (ext_end x) Hwf) as [IH1 IH2].
  { intros p Hp. split; [|apply Hb; by right]. apply (Hd (s, x) p); [by left|by right|by apply Hlt]. }
  { lia. }
  change (em_iter ((s, x) :: m)) with (extent_ref s x :: em_iter m).
  destruct (decide (P (extent_ref s x))); [rewrite filter_cons_True by done|rewrite filter_cons_False by done];
    rewrite ?fmap_cons, ?retired_total_cons; cbn [retire extent_ref re_start re_end ee_start ee_end]; lia.
Qed.

Definition retired_ok (size : Z) (Q : Z → byte → Prop) (e : RetiredOverlayExtent) : Prop :=
  0 ≤ re_start e < re_end e ∧ re_end e ≤ size ∧ 0 ≤ re_offset e ∧
  re_offset e + (re_end e - re_start e) ≤ zlen (rec_data (re_record e)) ∧ zlen (rec_data (re_record e)) ≤ u32_max ∧
  ∀ i b, re_start e ≤ i < re_end e →
    zget (rec_data (re_record e)) (re_offset e + (i - re_start e)) = Some b → Q i b.

Lemma retire_loop_spec size Q es v n :
  blocks_fit size → size ≤ u64_max → cache_ready (vs_cache v) → cache_room n (vs_cache v) → cache_all Q (vs_cache v) →
  (∀ e, e ∈ es → retired_ok size Q e) → retired_total es ≤ n →
  ∃ c', mfor es retire_to_cache v = (Ok tt, with_cache c' v) ∧ cache_ready c' ∧ cache_all Q c'.
Proof.
  intros Hbf Hsu. revert v n. induction es as [|e es IH]; intros v n Hready Hroom HQ Hes Hn.
  { exists (vs_cache v). cbn. split; [by destruct v|done]. }
  rewrite retired_total_cons in Hn.
  assert (0 ≤ retired_total es) as Htn.
  { clear -Hes. induction es as [|e' es IH]; [done|]. rewrite retired_total_cons.
    destruct (Hes e' ltac:(right; by left)) as (? & _). specialize (IH ltac:(set_solver)). lia. }
  destruct (Hes e ltac:(by left)) as (H1 & H2 & H3 & H4 & H5 & H6).
  set (range := mkRange (re_start e) (re_end e - re_start e)).
  assert (range_ok range) as Hr by (unfold range_ok, is_u32; cbn; lia).
  assert (cacheable range (vs_cache v)) as Hca.
  { apply (cacheable_in_room size n); cbn; try done; lia. }
  pose proof (insert_wal_record_slice_spec (vs_cache v) range (re_record e) (re_offset e) Cold Hready Hca H3 H4
    ltac:(unfold u32_max, u64_max in *; lia)) as Hpost.
  destruct (insert_post_all Q _ _ _ _ n Hpost HQ Hroom) as (c1 & Hrun & Hready1 & HQ1 & Hroom1).
  { intros i b. case_bool_decide as Hi; [|apply HQ]. unfold in_byte_range in Hi. cbn in *. apply H6. lia. }
  destruct (IH (with_cache c1 v) _ Hready1 Hroom1 HQ1) as (c2 & Hrun2 & Hready2 & HQ2); [set_solver|cbn; lia|].
  exists c2. cbn [mfor]. unfold retire_to_cache at 1.
  erewrite mseq_ok; [split; [exact Hrun2|done]|].
  erewrite mseq_ok by (unfold mlift; rewrite byte_range_from_bounds_ok by lia; reflexivity).
  unfold on_cache, zoom. fold range. by rewrite Hrun.
Qed.

(** What an advance may assume of the new root: it has the bytes of the old one with the records
    through its checkpoint that the overlay still shows.  Where the overlay shows a later record
    the new root may have anything. *)
Definition advance_contract (new_root : RootSnapshot) v : Prop :=
  rs_size_bytes new_root = rs_size_bytes (vs_root v) ∧
  ∀ i, 0 ≤ i < rs_size_bytes (vs_root v) →
    match contents overlay_view (vs_overlay v) i with
    | Some (r, ob) => rec_seq r ≤ rs_base_wal_seq new_root → ob = Some (committed new_root i)
    | None => committed new_root i = committed (vs_root v) i
    end.

Lemma retire_through_spec new_root v :
  view_inv v → cache_room (rs_size_bytes (vs_root v)) (vs_cache v) → advance_contract new_root v →
  rs_base_wal_seq (vs_root v) ≤ rs_base_wal_seq new_root ≤ vs_last_applied_seq v →
  ∃ m' c', retire_through (rs_base_wal_seq new_root) v = (Ok tt, with_overlay m' (with_cache c' v)) ∧
    (∀ debt, 0 ≤ debt ≤ u64_max →
       view_inv (mkView new_root (vs_last_applied_seq v) debt m' c')) ∧
    ∀ debt i, 0 ≤ i < rs_size_bytes (vs_root v) →
      visible (mkView new_root (vs_last_applied_seq v) debt m' c') i = visible v i.
Proof.
  intros Hv Hroom [Hsz Hcon] Hseq. pose proof Hv as [[Hpos Hbf] [Hov Hmap] Hseqs Hready Hcoh Hd].
  pose proof (size_u64 v Hv) as Hsu. pose proof Hov as [Hwf Hok]. pose proof Hwf as (_ & Hne & _).
  set (cp := rs_base_wal_seq new_root) in *. set (size := rs_size_bytes (vs_root v)) in *.
  destruct (remove_visible_spec (vs_overlay v) cp Hov) as (m' & Hrun & Hov' & Hc').
  assert (∀ p, p ∈ vs_overlay v → 0 ≤ p.1 ∧ ext_end p.2 ≤ size) as Hbounds.
  { intros p Hp. specialize (Hne p Hp). unfold contents in Hmap.
    destruct (Hmap p.1 _ _ ltac:(rewrite (proj2 (em_find_Some _ p.1 p Hwf)) by (split; [done|lia]); reflexivity)) as [? _].
    destruct (Hmap (ext_end p.2 - 1) _ _ ltac:(rewrite (proj2 (em_find_Some _ (ext_end p.2 - 1) p Hwf)) by (split; [done|lia]); reflexivity)) as [? _].
    lia. }
  set (Q := coherent new_root m').
  assert (cache_all Q (vs_cache v)) as HQ.
  { intros i b Hb. destruct (Hcoh i b Hb) as (Hi & Hnone & ->). specialize (Hcon i Hi). rewrite Hnone in Hcon.
    split; [by rewrite Hsz|]. split; [|done]. rewrite Hc', Hnone. done. }
  destruct (retire_loop_spec size Q (visible_through (vs_overlay v) cp) v size Hbf ltac:(lia) Hready Hroom HQ)
    as (c' & Hrun2 & Hready' & HQ').
  { intros e (p & Hp & Hle & ->)%visible_through_elem. destruct (Hok p Hp) as (Hrec & Hs & Ho & Hst & He).
    specialize (Hne p Hp). destruct (Hbounds p Hp). destruct (record_ok_len _ Hrec) as [_ Hl].
    destruct Hrec as [_ (_ & [_ Hu] & _)]. unfold retired_ok. cbn. split_and!; try lia. intros i b Hi Hb.
    assert (contents overlay_view (vs_overlay v) i = Some (ox_record (ext_value p.2), Some b)) as Hci.
    { unfold contents. rewrite (proj2 (em_find_Some _ i p Hwf)) by done. cbn. unfold overlay_view. by rewrite Hb. }
    specialize (Hcon i ltac:(lia)). rewrite Hci in Hcon. rewrite <-Hs in Hcon. specialize (Hcon Hle).
    injection Hcon as ->. split; [rewrite Hsz; lia|]. split; [|done]. rewrite Hc', Hci, <-Hs.
    by rewrite (proj2 (Z.leb_le _ _)) by done. }
  { rewrite (retired_total_perm _ _ (visible_through_perm _ _)).
    destruct (retired_total_le (λ e, ox_seq (ee_value e) ≤ cp) (vs_overlay v) 0 size Hwf Hbounds); lia. }
  exists m', c'. split; [|split].
  - unfold retire_through. erewrite mseq_ok by done. rewrite (mseq_ok _ _ _ _ _ Hrun2).
    unfold on_overlay, zoom. cbn [vs_overlay with_cache]. by rewrite Hrun.
  - intros debt Hdebt. split; cbn; try done.
    + by rewrite Hsz.
    + split; [done|]. intros i r ob. rewrite Hc'.
      destruct (contents overlay_view (vs_overlay v) i) as [[r' ob']|] eqn:Hc; [|done].
      destruct (Z.leb_spec (rec_seq r') cp); [done|]. intros [= <- <-]. rewrite Hsz.
      destruct (Hmap i _ _ Hc). split; [done|]. lia.
    + lia.
  - intros debt i Hi. unfold visible, overlay_byte. cbn. rewrite Hc'. specialize (Hcon i Hi).
    destruct (contents overlay_view (vs_overlay v) i) as [[r ob]|] eqn:Hc; [|done].
    destruct (overlay_contents_byte _ _ _ _ Hov Hc) as [b ->].
    destruct (Z.leb_spec (rec_seq r) cp) as [Hle|]; [|done]. specialize (Hcon Hle). by injection Hcon as ->.
Qed.

Lemma advance_root_spec new_root v :
  view_inv v → cache_room (rs_size_bytes (vs_root v)) (vs_cache v) → advance_contract new_root v →
  rs_base_wal_seq (vs_root v) < rs_base_wal_seq new_root ≤ vs_last_applied_seq v →
  ∃ v', advance_root new_root v = (Ok tt, v') ∧ view_inv v' ∧ vs_root v' = new_root ∧
    vs_last_applied_seq v' = vs_last_applied_seq v ∧
    ∀ i, 0 ≤ i < rs_size_bytes (vs_root v) → visible v' i = visible v i.
Proof.
  intros Hv Hroom Hcon Hseq. pose proof (proj1 Hcon) as Hsz. pose proof (vi_debt _ Hv) as Hd.
  destruct (retire_through_spec new_root v Hv Hroom Hcon ltac:(lia)) as (m' & c' & Hrun & Hinv & Hvis).
  unfold advance_root. erewrite mseq_ok by done. rewrite Hsz, Z.eqb_refl. cbn [negb].
  rewrite (proj2 (Z.ltb_ge _ _)), (proj2 (Z.eqb_neq _ _)), (proj2 (Z.ltb_ge _ _)) by lia.
  rewrite (mseq_ok _ _ _ _ _ Hrun). erewrite mseq_ok by done. unfold mmodify.
  eexists. split; [reflexivity|]. cbn [vs_last_applied_seq with_root with_overlay with_cache].
  destruct (Z.eqb_spec (rs_base_wal_seq new_root) (vs_last_applied_seq v)).
  - split; [apply Hinv; unfold u64_max; lia|]. split; [done|]. split; [done|]. intros i Hi. by apply (Hvis 0).
  - split; [by apply Hinv|]. split; [done|]. split; [done|]. intros i Hi. by apply (Hvis (vs_wal_debt_bytes v)).
Qed.

Lemma advance_after_compaction_spec new_root snapshot v :
  view_inv v → cache_room (rs_size_bytes (vs_root v)) (vs_cache v) → advance_contract new_root v →
  rs_base_wal_seq (sn_root snapshot) = rs_base_wal_seq (vs_root v) →
  rs_base_wal_seq new_root = sn_target_wal_seq snapshot →
  rs_base_wal_seq (vs_root v) < sn_target_wal_seq snapshot ≤ vs_last_applied_seq v →
  0 ≤ sn_wal_debt_bytes snapshot ≤ vs_wal_debt_bytes v →
  ∃ v', advance_after_compaction new_root snapshot v = (Ok tt, v') ∧ view_inv v' ∧ vs_root v' = new_root ∧
    vs_last_applied_seq v' = vs_last_applied_seq v ∧
    vs_wal_debt_bytes v' = (if sn_target_wal_seq snapshot =? vs_last_applied_seq v then 0
                            else vs_wal_debt_bytes v - sn_wal_debt_bytes snapshot) ∧
    ∀ i, 0 ≤ i < rs_size_bytes (vs_root v) → visible v' i = visible v i.
Proof.
  intros Hv Hroom Hcon Hbase Hnew Hseq Hdebt. pose proof (proj1 Hcon) as Hsz. pose proof (vi_debt _ Hv) as Hd.
  destruct (retire_through_spec new_root v Hv Hroom Hcon ltac:(lia)) as (m' & c' & Hrun & Hinv & Hvis).
  unfold advance_after_compaction. cbv zeta. erewrite mseq_ok by done. rewrite Hsz, Z.eqb_refl, Hbase, Z.eqb_refl. cbn [negb].
  rewrite Hnew in *. rewrite (proj2 (Z.leb_gt _ _)) by lia. rewrite Z.ltb_irrefl.
  rewrite !(proj2 (Z.ltb_ge _ _)) by lia.
  rewrite (mseq_ok _ _ _ _ _ Hrun). erewrite mseq_ok by done. erewrite mseq_ok by done. unfold mmodify.
  eexists. split; [reflexivity|].
  cbn [vs_last_applied_seq vs_wal_debt_bytes vs_root with_root with_overlay with_cache with_debt].
  rewrite u64_sub_id by lia.
  destruct (Z.eqb_spec (sn_target_wal_seq snapshot) (vs_last_applied_seq v)).
  - split; [apply Hinv; unfold u64_max; lia|]. split; [done|]. split; [done|]. split; [done|].
    intros i Hi. by apply (Hvis 0).
  - split; [apply Hinv; lia|]. split; [done|]. split; [done|]. split; [done|].
    intros i Hi. by apply (Hvis (vs_wal_debt_bytes v - sn_wal_debt_bytes snapshot)).
Qed.

(** *** Executions *)

(** The operations on a view, in the order in which they take its lock.  A read begins and finishes
    in two events; between them anything may happen. *)
Inductive ViewEvent : Type :=
| EvReadBegin (range : ByteRange) (plan : ReadPlan)
| EvReadFinish (plan : ReadPlan) (fills : list Block)
| EvApply (record : WalRecord)
| EvAdvance (new_root : RootSnapshot)
| EvAdvanceCompaction (new_root : RootSnapshot) (snapshot : ReadViewCompactionSnapshot).

(** The event fits the machine and its arguments come from where the engine takes them: fills are
    blocks of the root of the plan, records are valid, and a new root keeps its contract. *)
Definition event_ok (ev : ViewEvent) v : Prop :=
  cache_room (rs_size_bytes (vs_root v)) (vs_cache v) ∧
  match ev with
  | EvReadBegin range _ => range_ok range
  | EvReadFinish plan fills =>
      (∀ b, b ∈ fills → committed_block (rp_root plan) b) ∧
      total_len (b_range <$> fills) ≤ rs_size_bytes (vs_root v)
  | EvApply record => record_ok record
  | EvAdvance new_root => advance_contract new_root v
  | EvAdvanceCompaction new_root snapshot =>
      advance_contract new_root v ∧ 0 ≤ sn_wal_debt_bytes snapshot
  end.

Definition run_event (ev : ViewEvent) : VM unit :=
  match ev with
  | EvReadBegin range plan => mret tt
  | EvReadFinish plan fills => read_finish plan fills
  | EvApply record => apply_wal_record record
  | EvAdvance new_root => advance_root new_root
  | EvAdvanceCompaction new_root snapshot => advance_after_compaction new_root snapshot
  end.

(** The records that took effect. *)
Definition applied (ev : ViewEvent) : list WalRecord :=
  match ev with EvApply record => [record] | _ => [] end.

(** A successful event; a read begins with the plan the view gives it. *)
Inductive view_step v : ViewEvent → ExportReadViewState → Prop :=
| view_step_run ev v' :
    event_ok ev v → run_event ev v = (Ok tt, v') →
    match ev with EvReadBegin range plan => read_begin range v = Ok plan | _ => True end →
    view_step v ev v'.

Inductive view_steps v : list ViewEvent → ExportReadViewState → Prop :=
| view_steps_nil : view_steps v [] v
| view_steps_snoc evs ev v1 v2 :
    view_steps v evs v1 → view_step v1 ev v2 → view_steps v (evs ++ [ev]) v2.

(** The bytes after [records] were written over [a]. *)
Definition overwritten (a : Z → byte) (records : list WalRecord) (i : Z) : byte :=
  match last_writer records i with Some r => default x00 (record_byte r i) | None => a i end.

Lemma last_writer_snoc rs r i :
  last_writer (rs ++ [r]) i =
  if bool_decide (in_byte_range (rec_range r) i) then Some r else last_writer rs i.
Proof.
  induction rs as [|r' rs IH]; cbn; [done|]. rewrite IH. case_bool_decide; [done|]. done.
Qed.

(** The guards of [apply_wal_record]. *)
Lemma apply_wal_record_guards record v v' :
  apply_wal_record record v = (Ok tt, v') → 0 ≤ vs_last_applied_seq v →
  br_start (rec_range record) + br_len (rec_range record) ≤ rs_size_bytes (vs_root v) ∧
  rec_seq record = vs_last_applied_seq v + 1 ∧ rec_seq record ≤ u64_max.
Proof.
  unfold apply_wal_record. intros Hrun Hl. apply mseq_inv in Hrun as (v0 & s0 & [= <- <-] & Hrun).
  apply mseq_inv in Hrun as (u & s1 & [Hval ->]%mlift_inv & Hrun).
  unfold validate_range, validate_request_range in Hval. inv_ok. apply u64_checked_add_Some in Hx as [_ ->].
  destruct (Z.ltb_spec (rs_size_bytes (vs_root v)) (br_start (rec_range record) + br_len (rec_range record))); [done|].
  destruct (rec_seq record <=? _); [done|].
  apply mseq_inv in Hrun as (e & s2 & [He ->]%mlift_inv & Hrun). inv_ok.
  apply u64_checked_add_Some in He as [? ->].
  destruct (Z.eqb_spec (rec_seq record) (vs_last_applied_seq v + 1)); cbn [negb] in Hrun; [|done]. lia.
Qed.

(** The debt of a successful application fits. *)
Lemma apply_wal_record_debt record v v' :
  view_inv v → record_ok record → apply_wal_record record v = (Ok tt, v') →
  vs_wal_debt_bytes v + zlen (rec_data record) ≤ u64_max.
Proof.
  intros Hv Hrec Hrun.
  destruct (apply_wal_record_guards record v v' Hrun ltac:(destruct (vi_seqs _ Hv); lia)) as (Hsz & Hseq & Hu).
  pose proof Hv as [_ [Hov _] Hseqs Hready _ _]. unfold apply_wal_record in Hrun. pose proof Hrec as [_ Hr].
  pose proof Hr as (? & [? ?] & ?).
  erewrite mseq_ok in Hrun by done. erewrite mseq_ok in Hrun.
  2: { unfold mlift, validate_range, validate_request_range. rewrite u64_checked_add_id by lia. cbn [ok_or obind].
       rewrite (proj2 (Z.ltb_ge _ _)) by lia. reflexivity. }
  rewrite (proj2 (Z.leb_gt _ _)) in Hrun by lia.
  erewrite mseq_ok in Hrun by (unfold mlift; rewrite u64_checked_add_id by lia; reflexivity).
  rewrite Hseq, Z.eqb_refl in Hrun. cbn [negb] in Hrun.
  apply mseq_inv in Hrun as (u1 & s1 & Hs1 & Hrun). apply mseq_inv in Hrun as (u2 & s2 & Hs2 & Hrun).
  apply mseq_inv in Hrun as (u3 & s3 & Hs3 & Hrun). apply mseq_inv in Hrun as (v4 & s4 & [= <- <-] & Hrun).
  apply mseq_inv in Hrun as (d & s5 & [Hd ->]%mlift_inv & Hrun). inv_ok.
  apply u64_checked_add_Some in Hd as [Hd _].
  unfold on_overlay, zoom in Hs1. destruct (insert_record record (vs_overlay v)) as [o1 m1]. injection Hs1 as -> <-.
  unfold on_cache, zoom in Hs2. destruct (trim_range (rec_range record) _) as [o2 c2]. injection Hs2 as -> <-.
  unfold mmodify in Hs3. injection Hs3 as _ <-. done.
Qed.

Lemma view_step_spec v ev v' :
  view_inv v → view_step v ev v' →
  view_inv v' ∧ rs_size_bytes (vs_root v') = rs_size_bytes (vs_root v) ∧
  ∀ i, 0 ≤ i < rs_size_bytes (vs_root v) → visible v' i = overwritten (visible v) (applied ev) i.
Proof.
  intros Hv [ev' v1 [Hroom Hok] Hrun _].
  destruct ev' as [range plan|plan fills|record|new_root|new_root snapshot]; cbn [run_event applied] in *.
  - injection Hrun as <-. done.
  - destruct Hok as [Hb Ht]. destruct (read_finish_spec plan fills v _ Hv Hroom Hb Ht) as (c' & Hrun' & Hv').
    rewrite Hrun in Hrun'. injection Hrun' as ->. done.
  - destruct (apply_wal_record_guards record v v1 Hrun ltac:(destruct (vi_seqs _ Hv); lia)) as (Hsz & Hseq & Hu).
    destruct (apply_wal_record_spec record v Hv Hok Hsz Hseq Hu (apply_wal_record_debt record v v1 Hv Hok Hrun))
      as (v2 & Hrun' & Hv2 & Hroot & _ & _ & _ & _ & _ & Hvis).
    rewrite Hrun in Hrun'. injection Hrun' as <-. split; [done|]. split; [by rewrite Hroot|]. intros i Hi.
    rewrite Hvis. unfold overwritten. cbn. by case_bool_decide.
  - pose proof Hrun as Hrun0. unfold advance_root in Hrun. apply mseq_inv in Hrun as (v0 & s0 & [= <- <-] & Hrun).
    rewrite (proj1 Hok), Z.eqb_refl in Hrun. cbn [negb] in Hrun.
    destruct (Z.ltb_spec (rs_base_wal_seq new_root) (rs_base_wal_seq (vs_root v))); [done|].
    destruct (Z.eqb_spec (rs_base_wal_seq new_root) (rs_base_wal_seq (vs_root v))); [by injection Hrun as <-|].
    destruct (Z.ltb_spec (vs_last_applied_seq v) (rs_base_wal_seq new_root)); [done|].
    destruct (advance_root_spec new_root v Hv Hroom Hok ltac:(lia)) as (v2 & Hrun' & Hv2 & Hroot & _ & Hvis).
    rewrite Hrun0 in Hrun'. injection Hrun' as <-. split; [done|]. split; [by rewrite Hroot, (proj1 Hok)|done].
  - destruct Hok as [Hok Hsd]. pose proof Hrun as Hrun0. unfold advance_after_compaction in Hrun. cbv zeta in Hrun.
    apply mseq_inv in Hrun as (v0 & s0 & [= <- <-] & Hrun).
    rewrite (proj1 Hok), Z.eqb_refl in Hrun. cbn [negb] in Hrun.
    destruct (Z.leb_spec (sn_target_wal_seq snapshot) (rs_base_wal_seq (vs_root v))); [by injection Hrun as <-|].
    destruct (Z.eqb_spec (rs_base_wal_seq (vs_root v)) (rs_base_wal_seq (sn_root snapshot))); cbn [negb] in Hrun; [|done].
    destruct (Z.ltb_spec (rs_base_wal_seq new_root) (sn_target_wal_seq snapshot)); [done|].
    destruct (Z.ltb_spec (sn_target_wal_seq snapshot) (rs_base_wal_seq new_root)); [done|].
    destruct (Z.ltb_spec (vs_last_applied_seq v) (rs_base_wal_seq new_root)); [done|].
    destruct (Z.ltb_spec (vs_wal_debt_bytes v) (sn_wal_debt_bytes snapshot)); [done|].
    destruct (advance_after_compaction_spec new_root snapshot v Hv Hroom Hok) as (v2 & Hrun' & Hv2 & Hroot & _ & _ & Hvis);
      try lia.
    rewrite Hrun0 in Hrun'. injection Hrun' as <-. split; [done|]. split; [by rewrite Hroot, (proj1 Hok)|done].
Qed.

Lemma view_steps_spec v evs v' :
  view_inv v → view_steps v evs v' →
  view_inv v' ∧ rs_size_bytes (vs_root v') = rs_size_bytes (vs_root v) ∧
  ∀ i, 0 ≤ i < rs_size_bytes (vs_root v) → visible v' i = overwritten (visible v) (evs ≫= applied) i.
Proof.
  intros Hv. induction 1 as [|evs ev v1 v2 Hsteps [Hv1 [Hsz1 Hvis1]] Hstep]; [done|].
  destruct (view_step_spec v1 ev v2 Hv1 Hstep) as (Hv2 & Hsz2 & Hvis2). split; [done|]. split; [congruence|].
  intros i Hi. rewrite Hvis2 by (by rewrite Hsz1). rewrite bind_app. cbn. rewrite app_nil_r.
  destruct ev; cbn [applied]; rewrite ?app_nil_r; try (unfold overwritten at 1; cbn; by apply Hvis1).
  unfold overwritten. rewrite last_writer_snoc. cbn. case_bool_decide; [done|].
  rewrite Hvis1 by done. done.
Qed.

(** *** Every branch of the operations *)

Lemma apply_wal_record_errors record v :
  0 ≤ vs_last_applied_seq v → range_ok (rec_range record) →
  ¬ (br_start (rec_range record) + br_len (rec_range record) ≤ rs_size_bytes (vs_root v) ∧
     rs_base_wal_seq (vs_root v) < rec_seq record ≤ u64_max ∧ rec_seq record = vs_last_applied_seq v + 1) →
  ∃ e, apply_wal_record record v = (Err e, v).
Proof.
  intros Hl (? & [? ?] & ?) Hno. unfold apply_wal_record. erewrite mseq_ok by done. unfold mlift at 1, mseq at 1.
  unfold validate_range, validate_request_range. rewrite u64_checked_add_id by lia. cbn [ok_or obind].
  destruct (Z.ltb_spec (rs_size_bytes (vs_root v)) (br_start (rec_range record) + br_len (rec_range record)));
    [by eexists|].
  destruct (Z.leb_spec (rec_seq record) (rs_base_wal_seq (vs_root v))); [by eexists|].
  unfold mlift at 1, mseq at 1.
  destruct (u64_checked_add (vs_last_applied_seq v) 1) as [e|] eqn:He; cbn [ok_or]; [|by eexists].
  apply u64_checked_add_Some in He as [? ->].
  destruct (Z.eqb_spec (rec_seq record) (vs_last_applied_seq v + 1)); cbn [negb]; [|by eexists]. lia.
Qed.

(** What an advance may do: succeed without a visible change, or refuse and change nothing. *)
Definition advance_post v (r : SResult unit * ExportReadViewState) : Prop :=
  match r with
  | (Ok _, v') => view_inv v' ∧ vs_last_applied_seq v' = vs_last_applied_seq v ∧
      rs_base_wal_seq (vs_root v) ≤ rs_base_wal_seq (vs_root v') ∧
      ∀ i, 0 ≤ i < rs_size_bytes (vs_root v) → visible v' i = visible v i
  | (Err _, v') => v' = v
  | (Panic, _) => False
  end.

Lemma advance_root_total new_root v :
  view_inv v → cache_room (rs_size_bytes (vs_root v)) (vs_cache v) → advance_contract new_root v →
  advance_post v (advance_root new_root v).
Proof.
  intros Hv Hroom Hcon. unfold advance_root at 1. erewrite mseq_ok by done.
  rewrite (proj1 Hcon), Z.eqb_refl. cbn [negb].
  destruct (Z.ltb_spec (rs_base_wal_seq new_root) (rs_base_wal_seq (vs_root v))); [done|].
  destruct (Z.eqb_spec (rs_base_wal_seq new_root) (rs_base_wal_seq (vs_root v))) as [|Hne]; [by cbn|].
  destruct (Z.ltb_spec (vs_last_applied_seq v) (rs_base_wal_seq new_root)); [done|].
  destruct (advance_root_spec new_root v Hv Hroom Hcon ltac:(lia)) as (v' & Hrun & Hv' & Hroot & Hl & Hvis).
  unfold advance_root in Hrun. erewrite mseq_ok in Hrun by done.
  rewrite (proj1 Hcon), Z.eqb_refl, (proj2 (Z.ltb_ge _ _)), (proj2 (Z.eqb_neq _ _)), (proj2 (Z.ltb_ge _ _)) in Hrun by lia.
  cbn [negb] in Hrun. rewrite Hrun. cbn. rewrite Hroot. split_and!; try done; lia.
Qed.

Lemma advance_after_compaction_total new_root snapshot v :
  view_inv v → cache_room (rs_size_bytes (vs_root v)) (vs_cache v) → advance_contract new_root v →
  0 ≤ sn_wal_debt_bytes snapshot → advance_post v (advance_after_compaction new_root snapshot v).
Proof.
  intros Hv Hroom Hcon Hd. destruct (decide (
    rs_base_wal_seq (sn_root snapshot) = rs_base_wal_seq (vs_root v) ∧
    rs_base_wal_seq new_root = sn_target_wal_seq snapshot ∧
    rs_base_wal_seq (vs_root v) < sn_target_wal_seq snapshot ≤ vs_last_applied_seq v ∧
    sn_wal_debt_bytes snapshot ≤ vs_wal_debt_bytes v)) as [(Hp1 & Hp2 & Hp3 & Hp4)|Hno].
  { destruct (advance_after_compaction_spec new_root snapshot v Hv Hroom Hcon Hp1 Hp2 Hp3 ltac:(lia))
      as (v' & -> & Hv' & Hroot & Hl & _ & Hvis). cbn. rewrite Hroot. split_and!; try done; lia. }
  unfold advance_after_compaction. cbv zeta. erewrite mseq_ok by done. rewrite (proj1 Hcon), Z.eqb_refl. cbn [negb].
  destruct (Z.leb_spec (sn_target_wal_seq snapshot) (rs_base_wal_seq (vs_root v))); [by cbn|].
  destruct (Z.eqb_spec (rs_base_wal_seq (vs_root v)) (rs_base_wal_seq (sn_root snapshot))); cbn [negb]; [|done].
  destruct (Z.ltb_spec (rs_base_wal_seq new_root) (sn_target_wal_seq snapshot)); [done|].
  destruct (Z.ltb_spec (sn_target_wal_seq snapshot) (rs_base_wal_seq new_root)); [done|].
  destruct (Z.ltb_spec (vs_last_applied_seq v) (rs_base_wal_seq new_root)); [done|].
  destruct (Z.ltb_spec (vs_wal_debt_bytes v) (sn_wal_debt_bytes snapshot)); [done|]. exfalso. apply Hno. lia.
Qed.

(** An empty view over a root. *)
Lemma new_view_inv root budget :
  0 < rs_size_bytes root → blocks_fit (rs_size_bytes root) → 0 ≤ rs_base_wal_seq root →
  cache_ready (ReadCache_new budget) → view_inv (new_with_cache_budget root budget).
Proof.
  intros Hs Hf Hb Hc. split; cbn; try done; try (unfold u64_max; lia).
  split; [|by intros i r ob].
  split; [apply em_wf_nil|]. intros p Hp. by apply not_elem_of_nil in Hp.
Qed.

Lemma new_view_visible root budget i : visible (new_with_cache_budget root budget) i = committed root i.
Proof. reflexivity. Qed.
End view.

(** ** Properties *)

(** C6: reads are linearizable.  Let any events bring a view from [v0] to [v1], let a read begin there,
    and let any further events, other reads, writes and root advances included, bring the view to [v2]
    before the read finishes.  Beginning succeeds; the fetch, which holds no lock, either fails with
    an error or returns exactly the bytes of the export when the read began, which are those of [v0]
    with the records applied before it written over them in order; and the fill of the cache
    afterwards succeeds and changes no visible byte. *)
Theorem read_linearizable {W : Type} `{!TreeReader RootSnapshot W} committed `{!TreeReaderLaws W committed}
    v0 before v1 range during v2 (w : W) :
  view_inv committed v0 → view_steps committed v0 before v1 → view_steps committed v1 during v2 →
  range_ok range → br_start range + br_len range ≤ rs_size_bytes (vs_root v0) →
  cache_room (rs_size_bytes (vs_root v2)) (vs_cache v2) → holds w (vs_root v1) →
  ∃ plan, read_begin range v1 = Ok plan ∧
    match read_fetch range plan w with
    | (Ok (data, fills), _) =>
        zlen data = br_len range ∧
        (∀ i, in_byte_range range i →
           zget data (i - br_start range) = Some (overwritten (visible committed v0) (before ≫= applied) i)) ∧
        ∃ c', read_finish plan fills v2 = (Ok tt, with_cache c' v2) ∧ view_inv committed (with_cache c' v2)
    | (Err _, _) => True
    | (Panic, _) => False
    end.
Proof.
  intros Hv0 Hb Hd Hr Hsz Hroom Hw. destruct (view_steps_spec _ _ _ _ Hv0 Hb) as (Hv1 & Hsz1 & Hvis).
  destruct (view_steps_spec _ _ _ _ Hv1 Hd) as (Hv2 & Hsz2 & _). pose proof Hr as (? & [? ?] & ?).
  destruct (read_begin_spec committed range v1 Hv1 Hr ltac:(lia)) as (plan & Hp & Hplan). exists plan. split; [done|].
  pose proof (read_fetch_spec committed v1 range plan w Hv1 Hr ltac:(lia) Hplan Hw) as Hf.
  destruct (read_fetch range plan w) as [[[data fills]|e|] w']; [|done|done].
  destruct Hf as (Hl & Hby & Hfills & Htot & _). split; [done|]. split.
  - intros i Hi. rewrite Hby by done. f_equal. unfold in_byte_range in Hi. apply Hvis. lia.
  - pose proof (po_total _ _ _ _ _ Hplan) as Ht.
    apply (read_finish_spec committed plan fills v2 _ Hv2 Hroom); [|lia]. by rewrite (po_root _ _ _ _ _ Hplan).
Qed.

(** A small export over the zero reader. *)
Definition sample_root : RootSnapshot := mkRoot (BackingZero None 0 65536).
Definition sample_view : ExportReadViewState := ExportReadView_new sample_root.
Definition sample_record : WalRecord := sample_write 1 4096 (le_bytes 4 258).

Lemma sample_view_inv : view_inv zero_committed sample_view.
Proof.
  apply new_view_inv; [by_compute|by_compute|by_compute|]. apply ReadCache_new_ready. by_compute.
Qed.

Lemma sample_record_ok : record_ok sample_record.
Proof. by_compute. Qed.

Lemma sample_step :
  view_steps zero_committed sample_view [EvApply sample_record] (apply_wal_record sample_record sample_view).2.
Proof.
  apply (view_steps_snoc _ _ [] _ sample_view); [constructor|]. constructor; [|by vm_compute|done].
  split; [by_compute|exact sample_record_ok].
Qed.

Lemma read_linearizable_witness :
  ∃ plan, read_begin (mkRange 4095 4) (apply_wal_record sample_record sample_view).2 = Ok plan ∧
    ∃ data fills, read_fetch (W := unit) (mkRange 4095 4) plan tt = (Ok (data, fills), tt) ∧
      zget data 1 = Some (overwritten (visible zero_committed sample_view) [sample_record] 4096).
Proof.
  destruct (read_linearizable zero_committed sample_view [EvApply sample_record] _ (mkRange 4095 4) [] _ tt
    sample_view_inv sample_step (view_steps_nil _ _)) as (plan & Hp & H).
  - by_compute.
  - by_compute.
  - by_compute.
  - reflexivity.
  - exists plan. split; [exact Hp|]. vm_compute in Hp. injection Hp as <-.
    destruct (read_fetch _ _ tt) as [o w'] eqn:Hrun. destruct w'.
    assert (Ho : match o with Ok _ => True | _ => False end).
    { change o with ((o, tt).1). rewrite <-Hrun. vm_compute. exact I. }
    destruct o as [[data fills]|e|]; [|destruct Ho|destruct Ho]. exists data, fills. split; [reflexivity|].
    destruct H as (_ & H & _). apply (H 4096). by_compute.
Defined.

(** C25: the read view refines a byte array.  Through any sequence of reads, writes and root advances the
    invariant of the view holds, the size stays, and the visible bytes are those of the start with
    the applied records written over them in order: only a write changes what a client sees. *)
Theorem view_refines_array committed v evs v' :
  view_inv committed v → view_steps committed v evs v' →
  view_inv committed v' ∧ rs_size_bytes (vs_root v') = rs_size_bytes (vs_root v) ∧
  ∀ i, 0 ≤ i < rs_size_bytes (vs_root v) →
    visible committed v' i = overwritten (visible committed v) (evs ≫= applied) i.
Proof. apply view_steps_spec. Qed.

Lemma view_refines_array_witness :
  visible zero_committed (apply_wal_record sample_record sample_view).2 4097 =
  overwritten (λ _, x00) [sample_record] 4097.
Proof.
  destruct (view_refines_array zero_committed sample_view _ _ sample_view_inv sample_step) as (_ & _ & H).
  rewrite H by by_compute. reflexivity.
Defined.

(** Applying a record is all or nothing.  A record inside the export with the next sequence number
    is written: afterwards exactly its bytes are visible in its range, and nothing else changed.  Any
    other record is refused and the view is as before. *)
Theorem apply_record_exact committed record v :
  view_inv committed v → record_ok record → vs_wal_debt_bytes v + zlen (rec_data record) ≤ u64_max →
  if bool_decide (br_start (rec_range record) + br_len (rec_range record) ≤ rs_size_bytes (vs_root v) ∧
                  rec_seq record = vs_last_applied_seq v + 1 ∧ rec_seq record ≤ u64_max)
  then ∃ v', apply_wal_record record v = (Ok tt, v') ∧ view_inv committed v' ∧
    vs_root v' = vs_root v ∧ vs_last_applied_seq v' = rec_seq record ∧
    vs_wal_debt_bytes v' = vs_wal_debt_bytes v + zlen (rec_data record) ∧
    ∀ i, visible committed v' i =
      if bool_decide (in_byte_range (rec_range record) i) then default x00 (record_byte record i)
      else visible committed v i
  else ∃ e, apply_wal_record record v = (Err e, v).
Proof.
  intros Hv Hrec Hd. pose proof (vi_seqs _ _ Hv) as Hseq. case_bool_decide as Hc.
  - destruct Hc as (Hp1 & Hp2 & Hp3).
    destruct (apply_wal_record_spec committed record v Hv Hrec Hp1 Hp2 Hp3 Hd)
      as (v' & ? & ? & ? & ? & ? & _ & _ & _ & ?). eauto 10.
  - apply apply_wal_record_errors; [lia|by destruct Hrec|]. intros (? & ? & ?). apply Hc. lia.
Qed.

Lemma apply_record_exact_witness :
  ∃ v', apply_wal_record sample_record sample_view = (Ok tt, v') ∧ vs_last_applied_seq v' = 1 ∧
        visible zero_committed v' 4097 = byte_of 1.
Proof.
  pose proof (apply_record_exact zero_committed sample_record sample_view sample_view_inv sample_record_ok) as H.
  destruct H as (v' & Hrun & _ & _ & Hl & _ & Hvis); [by_compute|].
  exists v'. split; [exact Hrun|]. split; [exact Hl|]. rewrite Hvis. reflexivity.
Defined.

(** Advancing the root after a compaction is invisible.  When the new root has the bytes the log
    records up to its checkpoint gave, [advance_after_compaction] either succeeds, keeps the
    invariant and every visible byte while the retired extents move from the overlay to the cache, or
    refuses and leaves the view as it was; it never panics. *)
Theorem advance_preserves_bytes committed new_root snapshot v :
  view_inv committed v → cache_room (rs_size_bytes (vs_root v)) (vs_cache v) →
  advance_contract committed new_root v → 0 ≤ sn_wal_debt_bytes snapshot →
  match advance_after_compaction new_root snapshot v with
  | (Ok _, v') => view_inv committed v' ∧ vs_last_applied_seq v' = vs_last_applied_seq v ∧
      rs_base_wal_seq (vs_root v) ≤ rs_base_wal_seq (vs_root v') ∧
      ∀ i, 0 ≤ i < rs_size_bytes (vs_root v) → visible committed v' i = visible committed v i
  | (Err _, v') => v' = v
  | (Panic, _) => False
  end.
Proof. apply advance_after_compaction_total. Qed.

(** The root after a compaction of the sample record. *)
Definition sample_new_root : RootSnapshot := mkRoot (BackingCowHead (Some "root") 1 65536 Bounded32V1).
Definition sample_committed (root : RootSnapshot) : Z → byte :=
  if rs_base_wal_seq root =? 1 then overwritten (λ _, x00) [sample_record] else λ _, x00.

Lemma sample_applied :
  view_inv sample_committed (apply_wal_record sample_record sample_view).2 ∧
  advance_contract sample_committed sample_new_root (apply_wal_record sample_record sample_view).2.
Proof.
  assert (view_inv sample_committed sample_view) as Hv.
  { apply new_view_inv; [by_compute|by_compute|by_compute|]. apply ReadCache_new_ready. by_compute. }
  destruct (apply_wal_record_spec sample_committed sample_record sample_view Hv sample_record_ok)
    as (v' & Hrun & Hv' & Hroot & _ & _ & _ & _ & Hc & _); try by_compute.
  rewrite Hrun. cbn [snd]. split; [done|]. split; [by rewrite Hroot|]. intros i Hi. rewrite Hc. case_bool_decide as Hin.
  - intros _. unfold sample_committed. cbn [rs_base_wal_seq sample_new_root rs_backing Z.eqb Pos.eqb].
    unfold overwritten. cbn [last_writer]. rewrite bool_decide_true by done. cbn iota. unfold record_byte.
    unfold in_byte_range in Hin.
    destruct (zget_is_Some (rec_data sample_record) (i - br_start (rec_range sample_record))) as [b ->]; [|done].
    assert (zlen (rec_data sample_record) = br_len (rec_range sample_record)) as -> by reflexivity. lia.
  - change (contents overlay_view (vs_overlay sample_view) i) with (@None (WalRecord * option byte)). cbn iota. rewrite Hroot.
    unfold sample_committed. cbn [rs_base_wal_seq sample_new_root sample_view ExportReadView_new new_with_cache_budget vs_root sample_root rs_backing Z.eqb Pos.eqb].
    unfold overwritten. cbn [last_writer]. by rewrite bool_decide_false by done.
Qed.

Lemma advance_preserves_bytes_witness :
  let v := (apply_wal_record sample_record sample_view).2 in
  ∃ snapshot v', capture_compaction_snapshot v = Some snapshot ∧
    advance_after_compaction sample_new_root snapshot v = (Ok tt, v') ∧
    visible sample_committed v' 4097 = visible sample_committed v 4097.
Proof.
  intros v. destruct (capture_compaction_snapshot v) as [snapshot|] eqn:Hs; [|vm_compute in Hs; discriminate Hs].
  destruct sample_applied as [Hv Hcon].
  assert (Hd : 0 ≤ sn_wal_debt_bytes snapshot) by (vm_compute in Hs; injection Hs as <-; by_compute).
  pose proof (advance_preserves_bytes sample_committed sample_new_root snapshot v Hv ltac:(by_compute) Hcon Hd) as H.
  destruct (advance_after_compaction sample_new_root snapshot v) as [o v'] eqn:Hrun.
  assert (Ho : match o with Ok _ => True | _ => False end).
  { change o with ((o, v').1). rewrite <-Hrun. vm_compute in Hs. injection Hs as <-. vm_compute. exact I. }
  destruct o as [[]|e|]; [|destruct Ho|destruct Ho]. exists snapshot, v'. split; [reflexivity|]. split; [exact Hrun|].
  apply H. by_compute.
Defined.
