(* ===== verification/Publication.v ===== *)
(** * Publication of tree records

    The interface through which the compactor and the simple durable engine publish a new tree
    ([TreeRecordStore::publish_tree_update], service.rs), its laws, and the proof that the SQLite
    catalog keeps them with any faults: what is published is shown exactly, what was shown before is
    shown as before, and a publication that is refused or fails changes nothing that is shown. *)

From S2P Require Import Prelude ControlPlane Server Geometry Catalog Tree.

#[local] Open Scope string_scope.
#[local] Open Scope list_scope.
#[local] Open Scope Z_scope.

(** [TreeRecordStore::publish_tree_update]. *)
Class TreePublisher (S : Type) : Type := {
  store_publish : PublishTreeUpdate → M S CatalogError PublishTreeUpdateOutcome;
}.

(** ** The laws *)

(** Records as the types of the source allow them. *)
Definition node_ok (n : TreeNodeRecord) : Prop :=
  NodeId_new (tn_id n) = Ok (tn_id n) ∧ opt_parse ExportId_new (tn_owner_export_id n) = Ok (tn_owner_export_id n) ∧
  0 ≤ tn_level n ≤ u16_max ∧ 0 ≤ tn_span_start_bytes n ∧ 0 ≤ tn_span_len_bytes n.
Definition edge_ok (e : TreeEdgeRecord) : Prop :=
  NodeId_new (te_parent_node_id e) = Ok (te_parent_node_id e) ∧ 0 ≤ te_slot e ≤ u16_max ∧
  NodeId_new (te_child_node_id e) = Ok (te_child_node_id e).
Definition leaf_ref_ok (l : TreeLeafRefRecord) : Prop :=
  NodeId_new (tl_node_id l) = Ok (tl_node_id l) ∧ BlobKey_new (tl_storage_key l) = Ok (tl_storage_key l) ∧
  0 ≤ tl_len_bytes l.
Definition batch_ok (b : TreeRecordBatch) : Prop :=
  (∀ n, n ∈ tb_nodes b → node_ok n) ∧ (∀ e, e ∈ tb_edges b → edge_ok e) ∧ ∀ l, l ∈ tb_leaf_refs b → leaf_ref_ok l.

Definition edge_key (e : TreeEdgeRecord) : NodeId * Z := (te_parent_node_id e, te_slot e).

Section view.
Context {S : Type} `{!TreeView S}.

(** What is shown after a publication. *)
Record published_view (s s' : S) (b : TreeRecordBatch) : Prop := {
  pv_unique : NoDup (tn_id <$> tb_nodes b);
  pv_fresh_node : ∀ n, n ∈ tb_nodes b → see_node s (tn_id n) = Ok None;
  pv_fresh_edge : ∀ n slot, n ∈ tb_nodes b → see_edge s (tn_id n) slot = Ok None;
  pv_node : ∀ n, n ∈ tb_nodes b → see_node s' (tn_id n) = Ok (Some n);
  pv_edge : ∀ e, e ∈ tb_edges b → see_edge s' (te_parent_node_id e) (te_slot e) = Ok (Some e);
  pv_leaf_ref : ∀ l, l ∈ tb_leaf_refs b → see_leaf_ref s' (tl_node_id l) = Ok (Some l);
  pv_old_node : ∀ id, id ∉ tn_id <$> tb_nodes b → see_node s' id = see_node s id;
  pv_old_edge : ∀ parent slot, (parent, slot) ∉ edge_key <$> tb_edges b → see_edge s' parent slot = see_edge s parent slot;
  pv_old_leaf_ref : ∀ id, id ∉ tl_node_id <$> tb_leaf_refs b → see_leaf_ref s' id = see_leaf_ref s id;
}.
End view.

(** The head of the export was the expected one and is the next one. *)
Definition head_swapped {S : Type} `{!TreeView S} (s s' : S) (request : PublishTreeUpdate) : Prop :=
  see_head s (pu_export_id request) = Ok (pu_expected_head request) ∧
  see_head s' (pu_export_id request) = Ok (pu_next_head request) ∧
  ∀ other, other ≠ pu_export_id request → see_head s' other = see_head s other.

Class TreePublisherLaws (S : Type) `{!TreePublisher S} `{!TreeView S} : Prop := {
  law_publish s request :
    store_valid s → batch_ok (pu_records request) →
    match store_publish request s with
    | (Ok (Published record), s') =>
        r_head record = pu_next_head request ∧ store_valid s' ∧ (store_ready s → store_ready s') ∧
        published_view s s' (pu_records request) ∧ head_swapped s s' request
    | (Ok (StaleHead _), s') | (Err _, s') => same_view s s'
    | (Panic, _) => False
    end;
  (** The identifiers of the records that are shown are valid. *)
  law_edge_child s parent slot e :
    see_edge s parent slot = Ok (Some e) →
    te_parent_node_id e = parent ∧ te_slot e = slot ∧ NodeId_new (te_child_node_id e) = Ok (te_child_node_id e);
}.

(** The SQLite catalog, with the clock of the publication. *)
Definition sqlite_publisher (clock : option N) : TreePublisher SqliteDb := {|
  store_publish := publish_tree_update clock;
|}.

(** ** Statements that neither panic nor make the database unready *)

Section tame.
Definition tame {E A} (m : SQL E A) : Prop :=
  ∀ db, (m db).1 ≠ Panic ∧ (db_faults db = [] → db_faults (m db).2 = []).

Lemma obind_no_panic {E A B} (m : outcome E A) (f : A → outcome E B) :
  m ≠ Panic → (∀ a, f a ≠ Panic) → obind m f ≠ Panic.
Proof. destruct m; cbn; auto. Qed.

Lemma tame_lift {E A} (o : outcome E A) : o ≠ Panic → tame (mlift o).
Proof. by intros Ho db. Qed.

Lemma tame_ret {E A} (a : A) : tame (E := E) (mret a).
Proof. by intros db. Qed.

Lemma tame_fail {E A} (e : E) : tame (A := A) (mfail e).
Proof. by intros db. Qed.

Lemma tame_bind {E A B} (m : SQL E A) (f : A → SQL E B) : tame m → (∀ a, tame (f a)) → tame (mseq m f).
Proof.
  intros Hm Hf db. unfold mseq. specialize (Hm db). destruct (m db) as [[a|e|] db1], Hm as [Hp Hm]; [|done|done]. destruct (Hf a db1) as [? ?]. split; auto.
Qed.

Lemma tame_statement {A} (run : Tables → outcome SqlError (A * Tables)) :
  (∀ t, run t ≠ Panic) → tame (statement run).
Proof.
  intros Hrun [t faults]. specialize (Hrun t). unfold statement. cbn.
  destruct faults as [|[|] faults]; cbn; [|done|]; by destruct (run t) as [[a t']|e|].
Qed.

Lemma tame_map_err {E F A} (f : E → F) (m : SQL E A) : tame m → tame (sql_map_err f m).
Proof. intros Hm db. unfold sql_map_err. destruct (Hm db). by destruct (m db) as [[| |] db']. Qed.

Lemma tame_query {A} (f : Tables → A) : tame (query f).
Proof. apply tame_map_err, tame_statement. done. Qed.

Lemma tame_for {E A} (l : list A) (f : A → SQL E unit) : (∀ x, tame (f x)) → tame (mfor l f).
Proof.
  intros Hf. induction l as [|x l IH]; [apply tame_ret|]. cbn [mfor]. apply tame_bind; [done|]. by intros _.
Qed.

Lemma tame_transaction {A} (body : SQL CatalogError (tx_end A)) : tame body → tame (transaction body).
Proof.
  intros Hb db. unfold transaction. pose proof (tame_query (λ _, tt) db) as Hq.
  destruct (query _ db) as [[u|e|] db1], Hq as [Hp Hq]; [|done|done]. specialize (Hb db1).
  destruct (body db1) as [[[a|a]|e|] db2]; [| | |by destruct Hb].
  - pose proof (tame_query (λ _, tt) db2) as Hc. destruct (query _ db2) as [[v|e|] db3], Hb as [_ Hb], Hc as [? Hc]; cbn in *; auto.
  - pose proof (tame_query (λ _, tt) db2) as Hc. destruct (query _ db2) as [[v|e|] db3], Hb as [_ Hb], Hc as [? Hc]; cbn in *; auto.
  - destruct Hb as [_ Hb]. cbn. auto.
Qed.
End tame.

(** A parser of a column or a row never panics. *)
Ltac no_panic :=
  repeat (apply obind_no_panic; [|intros ?]);
  try (unfold NodeId_new, ExportId_new, Timestamp_new, non_empty_string, i64_to_u64, u64_to_i64, i64_to_u16, ok_or, omapo, validate_non_zero;
       repeat case_match; discriminate).

Section rows.
Lemma row_to_export_record_no_panic id row : row_to_export_record id row ≠ Panic.
Proof.
  unfold row_to_export_record. apply obind_no_panic; [|intros d; apply obind_no_panic; [|intros h]].
  - unfold row_to_export_descriptor, ExportName_new, ExportEngineKind_from_str, ExportState_from_str, opt_parse, ExportDescriptor_new.
    no_panic.
  - unfold row_to_export_head, ExportLayoutKind_from_str, opt_parse, TreeFormat_from_str, new_with_tree_format,
      memory_empty_with_base, simple_mutable_tree_with_root_base_and_format, cow_immutable_tree_with_root_and_format.
    no_panic; repeat case_match; no_panic.
  - unfold into_record, ExportRecord_new. no_panic.
Qed.

Lemma fetch_by_id_tame id : tame (fetch_export_record_by_id id).
Proof.
  apply tame_bind; [apply tame_query|]. intros row. apply tame_lift. unfold record_of.
  destruct row as [[i row]|]; [apply row_to_export_record_no_panic|done].
Qed.

Lemma u64_to_i64_no_panic f v : u64_to_i64 f v ≠ Panic.
Proof. unfold u64_to_i64. by case_match. Qed.

Lemma insert_tree_records_tame b now : tame (insert_tree_records b now).
Proof.
  apply tame_bind; [|intros _; apply tame_bind; [|intros _]]; apply tame_for; intros x.
  - repeat (apply tame_bind; [apply tame_lift, u64_to_i64_no_panic|intros ?]).
    apply tame_map_err, tame_statement. intros t. unfold insert_node. by repeat case_match.
  - apply tame_map_err, tame_statement. intros t. unfold insert_edge. by repeat case_match.
  - repeat (apply tame_bind; [apply tame_lift, u64_to_i64_no_panic|intros ?]).
    apply tame_map_err, tame_statement. intros t. unfold insert_leaf_ref. by repeat case_match.
Qed.

Lemma publish_tame clock request : tame (publish_tree_update clock request).
Proof.
  apply tame_bind; [apply tame_lift; unfold current_timestamp; destruct clock; no_panic; done|]. intros now.
  apply tame_bind.
  2: { intros [o|]; [apply tame_ret|]. apply tame_bind; [apply fetch_by_id_tame|]. intros; apply tame_ret. }
  apply tame_transaction. apply tame_bind; [apply fetch_by_id_tame|]. intros cur.
  case_bool_decide; [apply tame_fail|]. case_bool_decide; [apply tame_ret|].
  apply tame_bind; [apply insert_tree_records_tame|]. intros _.
  repeat (apply tame_bind; [apply tame_lift, u64_to_i64_no_panic|intros ?]).
  apply tame_bind; [apply tame_map_err, tame_statement; intros t; unfold update_head; by repeat case_match|]. intros rows.
  case_match; [apply tame_ret|]. apply tame_bind; [by apply tame_map_err, tame_statement|]. intros _.
  apply tame_bind; [apply fetch_by_id_tame|]. intros; apply tame_ret.
Qed.
End rows.

(** ** What a batch leaves in the tables *)

(** [f] inserts one row under a new key of the table [tab] and leaves what [other] shows. *)
Definition inserts {A K V X} `{Countable K} (tab : Tables → gmap K V) (other : Tables → X) (key : A → K)
    (row : A → V) (f : A → SQL CatalogError unit) : Prop :=
  ∀ x db u db', f x db = (Ok u, db') →
    tab (db_tables db) !! key x = None ∧ tab (db_tables db') = <[key x := row x]> (tab (db_tables db)) ∧
    other (db_tables db') = other (db_tables db).

Lemma mfor_inserts {A K V X} `{Countable K} (tab : Tables → gmap K V) (other : Tables → X) (key : A → K)
    (row : A → V) f (l : list A) :
  inserts tab other key row f → ∀ db u db', mfor l f db = (Ok u, db') →
  NoDup (key <$> l) ∧ (∀ x, x ∈ l → tab (db_tables db) !! key x = None ∧ tab (db_tables db') !! key x = Some (row x)) ∧
  (∀ k, k ∉ key <$> l → tab (db_tables db') !! k = tab (db_tables db) !! k) ∧
  other (db_tables db') = other (db_tables db).
Proof.
  intros Hf. induction l as [|x l IH]; intros db u db' Hrun; cbn [mfor] in Hrun.
  { injection Hrun as _ <-. split; [constructor|]. split; [set_solver|done]. }
  apply mseq_inv in Hrun as (v & db1 & Hx & Hrun). destruct (Hf _ _ _ _ Hx) as (Hn & Ht & Ho).
  destruct (IH _ _ _ Hrun) as (Hnd & Hin & Hout & Ho'). rewrite Ht in *.
  assert (key x ∉ key <$> l) as Hxl.
  { intros (y & Hy & Hyl)%list_elem_of_fmap. destruct (Hin y Hyl) as [Hyn _]. rewrite <-Hy, lookup_insert_eq in Hyn. done. }
  split; [by constructor|]. split; [|split; [|congruence]].
  - intros y [->|Hy]%elem_of_cons.
    + split; [done|]. by rewrite Hout, lookup_insert_eq.
    + destruct (Hin y Hy) as [Hyn Hys]. split; [|done]. rewrite lookup_insert_ne in Hyn; [done|].
      intros Heq. apply Hxl, list_elem_of_fmap. eauto.
  - intros k Hk. rewrite fmap_cons, not_elem_of_cons in Hk. destruct Hk as [Hk1 Hk2].
    rewrite Hout, lookup_insert_ne by done. done.
Qed.

Definition node_row (now : Timestamp) (n : TreeNodeRecord) : NodeRow :=
  mkNodeRow (ExportLayoutKind_display (tn_layout_kind n)) (tn_owner_export_id n) (TreeNodeKind_display (tn_kind n))
    (tn_level n) (tn_span_start_bytes n) (tn_span_len_bytes n) now.
Definition leaf_row (now : Timestamp) (l : TreeLeafRefRecord) : LeafRow :=
  mkLeafRow (TreeStorageKind_display (tl_storage_kind l)) (tl_storage_key l) (tl_len_bytes l) now.

Lemma insert_node_record_inserts now :
  inserts t_nodes (λ t, (t_edges t, t_leaf_refs t, t_exports t, t_heads t)) tn_id (node_row now) (insert_node_record now).
Proof.
  intros n db u db' Hrun. unfold insert_node_record in Hrun. inv_sql. apply u64_to_i64_inv in Ha, Ha0. subst.
  unfold insert_node in Hrun. destruct (node_check _); cbn in Hrun; [|done].
  destruct (has_key _ _) eqn:Hk; [done|]. apply has_key_false in Hk. destruct (null_or_key _ _); cbn in Hrun; [|done].
  injection Hrun as _ Ht. rewrite <-Ht. done.
Qed.

Lemma insert_edge_record_inserts :
  inserts t_edges (λ t, (t_nodes t, t_leaf_refs t, t_exports t, t_heads t)) edge_key te_child_node_id insert_edge_record.
Proof.
  intros e db u db' Hrun. unfold insert_edge_record in Hrun. inv_sql.
  unfold insert_edge in Hrun. destruct (0 <=? _); cbn in Hrun; [|done].
  destruct (has_key _ (t_edges _)) eqn:Hk; [done|]. apply has_key_false in Hk.
  destruct (_ && _); cbn in Hrun; [|done]. injection Hrun as _ Ht. rewrite <-Ht. done.
Qed.

Lemma insert_leaf_record_inserts now :
  inserts t_leaf_refs (λ t, (t_nodes t, t_edges t, t_exports t, t_heads t)) tl_node_id (leaf_row now) (insert_leaf_record now).
Proof.
  intros l db u db' Hrun. unfold insert_leaf_record in Hrun. inv_sql. apply u64_to_i64_inv in Ha. subst.
  unfold insert_leaf_ref in Hrun. destruct (leaf_check _); cbn in Hrun; [|done].
  destruct (has_key _ (t_leaf_refs _)) eqn:Hk; [done|]. apply has_key_false in Hk.
  destruct (has_key _ _); cbn in Hrun; [|done]. injection Hrun as _ Ht. rewrite <-Ht. done.
Qed.

(** Rows parse back to the records they were made from. *)
Lemma node_row_parses now n : node_ok n → row_to_node (tn_id n) (node_row now n) = Ok n.
Proof.
  intros (Hid & Hown & Hlev & Hs & Hl). unfold row_to_node, node_row. cbn.
  rewrite Hid. cbn [obind]. rewrite ExportLayoutKind_from_display. cbn [obind]. rewrite Hown. cbn [obind].
  assert (TreeNodeKind_from_str (TreeNodeKind_display (tn_kind n)) = Ok (tn_kind n)) as -> by (by destruct (tn_kind n)).
  cbn [obind]. unfold i64_to_u16, i64_to_u64.
  rewrite (proj2 (Z.leb_le 0 (tn_level n))), (proj2 (Z.leb_le (tn_level n) u16_max)) by lia. cbn [andb obind].
  rewrite !(proj2 (Z.leb_le _ _)) by lia. cbn [obind]. by destruct n.
Qed.

Lemma leaf_row_parses now l : leaf_ref_ok l → row_to_leaf_ref (tl_node_id l) (leaf_row now l) = Ok l.
Proof.
  intros (Hid & Hk & Hl). unfold row_to_leaf_ref, leaf_row. cbn. rewrite Hid. cbn [obind].
  assert (TreeStorageKind_from_str (TreeStorageKind_display (tl_storage_kind l)) = Ok (tl_storage_kind l)) as ->
    by (by destruct (tl_storage_kind l)).
  cbn [obind]. rewrite Hk. cbn [obind]. unfold i64_to_u64. rewrite (proj2 (Z.leb_le _ _)) by lia. by destruct l.
Qed.

Lemma edge_row_parses e : edge_ok e → row_to_edge (te_parent_node_id e) (te_slot e) (te_child_node_id e) = Ok e.
Proof.
  intros (Hp & Hs & Hc). unfold row_to_edge. rewrite Hp. cbn [obind]. unfold i64_to_u16.
  rewrite !(proj2 (Z.leb_le _ _)) by lia. cbn [andb obind]. rewrite Hc. by destruct e.
Qed.

Lemma insert_tree_records_view b now (db : SqliteDb) u (db' : SqliteDb) :
  tables_ok (db_tables db) → batch_ok b → insert_tree_records b now db = (Ok u, db') →
  published_view db db' b ∧ t_heads (db_tables db') = t_heads (db_tables db).
Proof.
  intros [Hsch _] (Hn & He & Hl) Hrun. unfold insert_tree_records in Hrun.
  apply mseq_inv in Hrun as (u1 & db1 & H1 & Hrun). apply mseq_inv in Hrun as (u2 & db2 & H2 & H3).
  apply (mfor_inserts _ _ _ _ _ _ (insert_node_record_inserts now)) in H1 as (Hnd1 & Hin1 & Hout1 & Ho1).
  apply (mfor_inserts _ _ _ _ _ _ insert_edge_record_inserts) in H2 as (Hnd2 & Hin2 & Hout2 & Ho2).
  apply (mfor_inserts _ _ _ _ _ _ (insert_leaf_record_inserts now)) in H3 as (Hnd3 & Hin3 & Hout3 & Ho3).
  injection Ho1 as Ho1e Ho1l Ho1x Ho1h. injection Ho2 as Ho2n Ho2l Ho2x Ho2h. injection Ho3 as Ho3n Ho3e Ho3x Ho3h.
  split; [|congruence]. split.
  - done.
  - intros n Hin. cbn. by rewrite (proj1 (Hin1 n Hin)).
  - intros n slot Hin. cbn. destruct (t_edges (db_tables db) !! (tn_id n, slot)) as [c|] eqn:Hc; [|done].
    destruct (so_edges _ Hsch _ _ Hc) as (_ & [row Hrow] & _). cbn in Hrow. by rewrite (proj1 (Hin1 n Hin)) in Hrow.
  - intros n Hin. cbn. rewrite Ho3n, Ho2n, (proj2 (Hin1 n Hin)). cbn. by rewrite node_row_parses by auto.
  - intros e Hin. cbn. rewrite Ho3e. change (te_parent_node_id e, te_slot e) with (edge_key e).
    rewrite (proj2 (Hin2 e Hin)). cbn. by rewrite edge_row_parses by auto.
  - intros l Hin. cbn. rewrite (proj2 (Hin3 l Hin)). cbn. by rewrite leaf_row_parses by auto.
  - intros id Hid. cbn. by rewrite Ho3n, Ho2n, Hout1.
  - intros p slot Hps. cbn. by rewrite Ho3e, Hout2, Ho1e.
  - intros id Hid. cbn. by rewrite Hout3, Ho2l, Ho1l.
Qed.

(** The view only depends on the tree tables. *)
Lemma published_view_tables (db0 db db1 db' : SqliteDb) b :
  published_view db db1 b → db_tables db = db_tables db0 →
  t_nodes (db_tables db') = t_nodes (db_tables db1) → t_edges (db_tables db') = t_edges (db_tables db1) →
  t_leaf_refs (db_tables db') = t_leaf_refs (db_tables db1) → published_view db0 db' b.
Proof.
  intros [? ? ? H1 H2 H3 H4 H5 H6] Ht Hn He Hl. split; cbn in *; rewrite ?Hn, ?He, ?Hl, <-?Ht; done.
Qed.

Lemma publish_in_tx_view now request (db : SqliteDb) x db' :
  tables_ok (db_tables db) → batch_ok (pu_records request) → publish_in_tx now request db = (Ok x, db') →
  (∃ current, x = Commit (Some (StaleHead current)) ∧ db_tables db' = db_tables db) ∨ x = Rollback None ∨
  ∃ record, x = Commit (Some (Published record)) ∧ r_head record = pu_next_head request ∧
    published_view db db' (pu_records request).
Proof.
  intros Hok Hb Hrun. unfold publish_in_tx in Hrun.
  apply mseq_inv in Hrun as (cur & db0 & Hcur & Hrun).
  apply fetch_by_id_inv in Hcur as (Ht0 & _).
  case_bool_decide; [done|]. case_bool_decide.
  { left. injection Hrun as <- <-. eauto. }
  apply mseq_inv in Hrun as (u & db1 & Hins & Hrun). inv_sql. apply u64_to_i64_inv in Ha, Ha0, Ha1, Ha2. subst.
  destruct (insert_tree_records_view _ _ _ _ _ ltac:(by rewrite Ht0) Hb Hins) as (Hview & Hheads).
  destruct (Z.eqb_spec a3 0) as [->|Hrows]; [injection Hrun as <- <-; by right; left|]. right. right. inv_sql.
  apply fetch_by_id_inv in Ha0 as (Ht4 & e' & r' & He' & Hr' & Hrec' & Hh').
  injection Ha as _ Ht3. rewrite <-Ht3 in *. exists a0. split; [done|].
  unfold update_head in Ha3. destruct (t_heads (db_tables db1) !! pu_export_id request) as [r|]; [|by injection Ha3 as <-].
  destruct (_ && _); [|by injection Ha3 as <-].
  destruct (head_check _) eqn:Hhc; cbn in Ha3; [|done]. destruct (null_or_key _ _); [|done]. injection Ha3 as <- Ht2.
  rewrite <-Ht2 in *. cbn in Hr'. rewrite lookup_insert_eq in Hr'. injection Hr' as <-. split.
  - eapply head_row_inj; [symmetry; by apply row_head_exact|done..].
  - apply (published_view_tables db db0 db1); [done|done|..]; rewrite Ht4; done.
Qed.

#[export] Instance sqlite_publisher_laws clock : @TreePublisherLaws SqliteDb (sqlite_publisher clock) _.
Proof.
  split.
  2: { intros db parent slot e. cbn. destruct (t_edges (db_tables db) !! (parent, slot)) as [child|]; cbn; [|done].
       unfold row_to_edge. intros H. destruct (NodeId_new parent) as [p| |] eqn:Hp; [|done..]. cbn in H.
       destruct (i64_to_u16 _ slot) as [sl| |] eqn:Hsl; [|done..]. cbn in H.
       destruct (NodeId_new child) as [c| |] eqn:Hc; [|done..]. cbn in H. injection H as <-. cbn.
       pose proof (non_empty_string_inv _ _ _ Hp) as ->. pose proof (non_empty_string_inv _ _ _ Hc) as ->.
       unfold i64_to_u16 in Hsl. case_match; [|done]. injection Hsl as <-. done. }
  intros db request Hok Hb. pose proof (proj1 (op_integrity (OpPublish clock request) db Hok)) as Hok'.
  cbn [store_publish sqlite_publisher run_op] in *.
  pose proof (publish_tame clock request db) as [Hnp Hf].
  destruct (publish_tree_update clock request db) as [res db'] eqn:Hrun. cbn in Hnp, Hf, Hok'.
  pose proof (publish_cases clock request db res db' Hok Hrun) as Hswap. cbv zeta in Hswap.
  unfold publish_tree_update in Hrun. unfold mseq at 1, mlift in Hrun.
  destruct (current_timestamp clock) as [now|e|]; [|injection Hrun as <- <-; by apply same_view_tables|injection Hrun as <- <-; done].
  unfold mseq at 1 in Hrun. destruct (transaction (publish_in_tx now request) db) as [o db1] eqn:Htx.
  destruct (is_ok o) eqn:Ho.
  2: { pose proof (transaction_err _ _ _ _ Htx Ho) as Ht. destruct o as [?|e|]; [done| |];
       injection Hrun as <- <-; [by apply same_view_tables|done]. }
  destruct o as [out| |]; [|done..]. apply transaction_inv in Htx as (db2 & db3 & Ht2 & Hcases).
  destruct Hcases as [[Hbody Ht]|[Hbody Ht]]; destruct (publish_in_tx_view _ _ _ _ _ ltac:(by rewrite Ht2) Hb Hbody)
    as [(cur & Hx & Heq)|[Hx|(record & Hx & Hhead & Hview)]]; try done; simplify_eq.
  - injection Hrun as <- <-. apply same_view_tables; [congruence|done].
  - injection Hrun as <- <-. split; [done|]. split; [done|]. split; [done|].
    split; [apply (published_view_tables db db2 db3); [done|done|by rewrite Ht..]|].
    destruct Hswap as (_ & Hold & Hnew & _ & _ & _ & _ & Hother). split; [done|]. split; [done|].
    intros other Hne. cbn. unfold head_of. by rewrite (proj1 (Hother other Hne)).
  - unfold fetch_export_record_by_id, mseq, mlift in Hrun.
    destruct (query (join_by_id (pu_export_id request)) db1) as [[row|e|] db4] eqn:Hq; apply query_tables in Hq.
    + destruct (record_of _ row) as [record|e|]; injection Hrun as <- <-; [| |done]; apply same_view_tables; (congruence || done).
    + injection Hrun as <- <-. apply same_view_tables; (congruence || done).
    + injection Hrun as <- <-. done.
Qed.
