(* ===== verification/TreePaths.v ===== *)
(** * Paths and growth of stored trees

    What the two tree planners share: the nodes along a path of slots, and the rows that a store shows
    after a batch of records was added to it, with the effect of one new node on the tree. *)

From S2P Require Import Prelude ControlPlane Server Geometry Catalog Tree Publication.

#[local] Open Scope string_scope.
#[local] Open Scope list_scope.
#[local] Open Scope Z_scope.

(** ** Paths in a stored tree *)

Section paths.
Context {S : Type} `{!TreeRecordStore S} `{!TreeView S} `{!TreeRecordStoreLaws S}.
Implicit Types (s : S).

(** The child of a node at a slot. *)
Definition child_at s (parent : NodeId) (slot : Z) : option NodeId :=
  match see_edge s parent slot with Ok (Some e) => Some (te_child_node_id e) | _ => None end.

Lemma find_node_cons s id slot slots :
  find_node s id (slot :: slots) = child_at s id slot ≫= λ c, find_node s c slots.
Proof. unfold child_at. cbn. by destruct (see_edge s id slot) as [[e|]| |]. Qed.

Lemma find_node_app s slots1 slots2 : ∀ id,
  find_node s id (slots1 ++ slots2) = find_node s id slots1 ≫= λ c, find_node s c slots2.
Proof.
  induction slots1 as [|slot slots1 IH]; intros id; [done|]. rewrite <-app_comm_cons, !find_node_cons.
  destruct (child_at s id slot); cbn; [apply IH|done].
Qed.

(** The node of the old tree at a path. *)
Definition old_at s (root : option NodeId) (path : list Z) : option NodeId :=
  id ← root; find_node s id path.

Lemma old_at_snoc s root path slot :
  old_at s root (path ++ [slot]) = old_at s root path ≫= λ p, child_at s p slot.
Proof.
  unfold old_at. destruct root as [id|]; [|done]. cbn. rewrite find_node_app. destruct (find_node s id path) as [p|]; [|done].
  cbn [mbind option_bind]. rewrite find_node_cons. by destruct (child_at s p slot).
Qed.

Lemma old_at_app s root path path' :
  old_at s root (path ++ path') = old_at s root path ≫= λ p, find_node s p path'.
Proof. unfold old_at. destruct root as [id|]; [|done]. cbn. apply find_node_app. Qed.

Lemma descend_snoc g span path slot span1 span2 :
  descend g span path = Ok span1 → child_span g span1 slot = Ok span2 → descend g span (path ++ [slot]) = Ok span2.
Proof.
  revert span. induction path as [|x path IH]; intros span Hd Hc; cbn [descend app] in *.
  - injection Hd as ->. rewrite Hc. done.
  - apply obind_ok in Hd as (sp & Hx & Hd). rewrite Hx. cbn [obind]. by apply IH.
Qed.

Lemma descend_app g span path path' span' :
  descend g span (path ++ path') = Ok span' → ∃ mid, descend g span path = Ok mid ∧ descend g mid path' = Ok span'.
Proof.
  revert span. induction path as [|x path IH]; intros span Hd; cbn [descend app] in *; [eauto|].
  apply obind_ok in Hd as (sp & Hx & Hd). rewrite Hx. cbn [obind]. by apply IH.
Qed.

(** Every node of the old tree at a valid path is a well-formed subtree. *)
Lemma subtree_ok_reader rd1 rd2 s n : ∀ span id,
  rd_geometry rd1 = rd_geometry rd2 → rd_layout_kind rd1 = rd_layout_kind rd2 →
  subtree_ok rd1 s n span id → subtree_ok rd2 s n span id.
Proof.
  induction n as [|n IH]; intros span id Hge Hla (node & Hn & Hid & Hm & Hrest); exists node;
    (split; [done|]); (split; [done|]); (split; [by rewrite <-Hla|]); [done|].
  intros slot. destruct (Hrest slot) as [?|(c & ? & Hc)]; [by left|right]. exists c. split; [done|].
  intros span' Hs. apply IH; [done|done|]. apply Hc. by rewrite Hge.
Qed.

Lemma subtree_ok_find rd s path : ∀ n span id span' found,
  subtree_ok rd s (length path + n) span id → descend (rd_geometry rd) span path = Ok span' →
  find_node s id path = Some found → subtree_ok rd s n span' found.
Proof.
  induction path as [|slot path IH]; intros n span id span' found Hsub Hd Hf.
  { cbn in Hd, Hf. by simplify_eq. }
  cbn [length Nat.add subtree_ok] in Hsub. destruct Hsub as (node & _ & _ & _ & Hedges). rewrite find_node_cons in Hf.
  cbn [descend] in Hd. apply obind_ok in Hd as (sp & Hc & Hd). unfold child_at in Hf.
  destruct (Hedges slot) as [He|(child & He & Hsub)]; rewrite He in Hf; cbn in Hf; [done|].
  apply (IH n sp child); auto.
Qed.
End paths.

Lemma child_span_level g span slot span' :
  child_span g span slot = Ok span' → span_level span' = span_level span - 1.
Proof.
  unfold child_span, node_span. intros H. destruct (_ =? _); [done|]. destruct (_ <=? _); [done|]. inv_ok.
  destruct (_ <? _); [done|]. destruct (_ <=? _); [done|]. inv_ok. done.
Qed.

Lemma descend_level g path : ∀ span span',
  descend g span path = Ok span' → span_level span' = span_level span - Z.of_nat (length path).
Proof.
  induction path as [|slot path IH]; intros span span' Hd; cbn [descend length] in *.
  - injection Hd as ->. lia.
  - apply obind_ok in Hd as (sp & Hc & Hd). rewrite (IH _ _ Hd), (child_span_level _ _ _ _ Hc). lia.
Qed.

(** ** Spans are within bounds *)

Section spans.
Context (g : TreeGeometry) (Hg : geometry_ok g).

Definition span_fine (span : TreeNodeSpan) : Prop :=
  0 ≤ span_level span ≤ geo_root_level g ∧ 0 ≤ span_start span ∧ 0 ≤ span_len span.

Lemma child_span_fine span slot span' :
  span_fine span → 0 ≤ slot → child_span g span slot = Ok span' → span_fine span'.
Proof.
  intros (Hl & Hs & _) Hslot Hc. pose proof (child_span_level _ _ _ _ Hc) as Hl'. unfold child_span in Hc.
  destruct (Z.eqb_spec (span_level span) 0); [done|]. destruct (_ <=? slot); [done|].
  rewrite full_span_len_ok in Hc by (done || lia). cbn [obind] in Hc. pose proof (level_bytes_pos (span_level span - 1) ltac:(lia)).
  destruct (u64_checked_mul _ _) as [o|] eqn:Hm; [|done]. cbn [ok_or obind] in Hc. apply u64_checked_mul_Some in Hm as [_ ->].
  destruct (u64_checked_add _ _) as [a|] eqn:Ha; [|done]. cbn [ok_or obind] in Hc. apply u64_checked_add_Some in Ha as [_ ->].
  unfold node_span in Hc. destruct (_ <? _); [done|]. destruct (Z.leb_spec (geo_size_bytes g) (span_start span + slot * level_bytes (span_level span - 1))); [done|].
  rewrite full_span_len_ok in Hc by (done || lia). cbn [obind] in Hc. injection Hc as <-. unfold span_fine. cbn [span_level span_start span_len] in *.
  pose proof Hg as (_ & _ & Hsz & _). rewrite u64_sub_id by lia. lia.
Qed.

Lemma descend_fine path : ∀ span span',
  span_fine span → Forall (λ slot, 0 ≤ slot < 32) path → descend g span path = Ok span' → span_fine span'.
Proof.
  induction path as [|slot path IH]; intros span span' Hf Hpos Hd; cbn [descend] in Hd; [by injection Hd as <-|].
  apply obind_ok in Hd as (sp & Hc & Hd). apply Forall_cons in Hpos as [Hs Hpos].
  apply (IH sp); [|done|done]. apply (child_span_fine span slot); [done|lia|done].
Qed.

Lemma root_descend_fine path span :
  Forall (λ slot, 0 ≤ slot < 32) path → descend g (root_span g) path = Ok span → span_fine span.
Proof.
  intros Hpos Hd. apply (descend_fine path (root_span g)); [|done|done]. pose proof Hg as (_ & _ & ? & ? & _).
  unfold span_fine. cbn. lia.
Qed.
End spans.

(** ** Rows with a batch on top *)

(** What a store shows, as data. *)
Record TreeRows := mkRows {
  rw_node : NodeId → CatalogResult (option TreeNodeRecord);
  rw_edge : NodeId → Z → CatalogResult (option TreeEdgeRecord);
  rw_leaf_ref : NodeId → CatalogResult (option TreeLeafRefRecord);
}.

#[export] Instance rows_view : TreeView TreeRows := {
  store_valid _ := True;
  store_ready _ := True;
  see_node := rw_node;
  see_edge := rw_edge;
  see_leaf_ref := rw_leaf_ref;
  see_head _ id := Err (ExportNotFound id);
}.

(** Two stores that show the same tree, perhaps of different kinds. *)
Record same_rows {S S' : Type} `{!TreeView S} `{!TreeView S'} (s : S) (s' : S') : Prop := {
  sr_node : ∀ id, see_node s' id = see_node s id;
  sr_edge : ∀ parent slot, see_edge s' parent slot = see_edge s parent slot;
  sr_leaf_ref : ∀ id, see_leaf_ref s' id = see_leaf_ref s id;
}.

(** The first record with a key. *)
Definition by_key {A K} `{!EqDecision K} (key : A → K) (k : K) (l : list A) : option A :=
  List.find (λ x, bool_decide (key x = k)) l.
Arguments by_key : simpl never.

Definition with_batch {S : Type} `{!TreeView S} (s : S) (b : TreeRecordBatch) : TreeRows :=
  mkRows
    (λ id, match by_key tn_id id (tb_nodes b) with
           | Some n => Ok (Some n) | None => see_node s id end)
    (λ parent slot, match by_key edge_key (parent, slot) (tb_edges b) with
                    | Some e => Ok (Some e) | None => see_edge s parent slot end)
    (λ id, match by_key tl_node_id id (tb_leaf_refs b) with
           | Some l => Ok (Some l) | None => see_leaf_ref s id end).

Section by_key.
Context {A K : Type} `{!EqDecision K} (key : A → K).

Lemma by_key_Some l k x : by_key key k l = Some x → x ∈ l ∧ key x = k.
Proof. intros [Hin Hk]%find_some. rewrite bool_decide_eq_true in Hk. by rewrite list_elem_of_In. Qed.

Lemma by_key_None l k : by_key key k l = None ↔ k ∉ key <$> l.
Proof.
  unfold by_key. induction l as [|y l IH]; cbn [List.find]; [rewrite fmap_nil; split; [intros _; apply not_elem_of_nil|done]|].
  rewrite fmap_cons, not_elem_of_cons. case_bool_decide; naive_solver.
Qed.

Lemma by_key_snoc l x k :
  by_key key k (l ++ [x]) = match by_key key k l with
                            | Some y => Some y
                            | None => if decide (key x = k) then Some x else None
                            end.
Proof.
  unfold by_key. induction l as [|y l IH]; cbn [app List.find]; [|by case_bool_decide].
  rewrite bool_decide_decide. by destruct (decide (key x = k)).
Qed.
End by_key.

Section rows.
Context {S S' : Type} `{!TreeView S} `{!TreeView S'}.

Lemma subtree_ok_rows rd (s : S) (s' : S') n : ∀ span id,
  same_rows s s' → subtree_ok rd s n span id → subtree_ok rd s' n span id.
Proof.
  induction n as [|n IH]; intros span id Hv (node & Hn & Hid & Hm & Hrest); exists node;
    (split; [by rewrite (sr_node _ _ Hv)|]); (split; [done|]); (split; [done|]).
  - by setoid_rewrite (sr_leaf_ref _ _ Hv).
  - intros slot. rewrite (sr_edge _ _ Hv). destruct (Hrest slot) as [?|(child & ? & ?)]; [by left|right].
    exists child. split; [done|]. intros. apply IH; auto.
Qed.

Lemma find_node_rows (s : S) (s' : S') slots : ∀ id, same_rows s s' → find_node s' id slots = find_node s id slots.
Proof.
  induction slots as [|slot slots IH]; intros id Hv; [done|]. cbn. rewrite (sr_edge _ _ Hv).
  destruct (see_edge s id slot) as [[e|]| |]; [by apply IH|done..].
Qed.

End rows.

(** A store shows what was published to it. *)
Lemma published_rows {S : Type} `{!TreeView S} (s s' : S) b : published_view s s' b → same_rows (with_batch s b) s'.
Proof.
  intros Hv. split; cbn; intros.
  - destruct (by_key _ _ _) as [n|] eqn:Hf.
    + apply by_key_Some in Hf as [Hin <-]. by apply (pv_node _ _ _ Hv).
    + apply by_key_None in Hf. by apply (pv_old_node _ _ _ Hv).
  - destruct (by_key _ _ _) as [e|] eqn:Hf.
    + apply by_key_Some in Hf as [Hin Heq]. injection Heq as <- <-. by apply (pv_edge _ _ _ Hv).
    + apply by_key_None in Hf. by apply (pv_old_edge _ _ _ Hv).
  - destruct (by_key _ _ _) as [l|] eqn:Hf.
    + apply by_key_Some in Hf as [Hin <-]. by apply (pv_leaf_ref _ _ _ Hv).
    + apply by_key_None in Hf. by apply (pv_old_leaf_ref _ _ _ Hv).
Qed.

Lemma published_view_same {S : Type} `{!TreeView S} (s s1 s' : S) b : same_view s s1 → published_view s1 s' b → published_view s s' b.
Proof.
  intros Hv [Hu Hfn Hfe Hn He Hl Hon Hoe Hol]. split; try done.
  - intros n Hin. rewrite <-(sv_node _ _ Hv). by apply Hfn.
  - intros n slot Hin. rewrite <-(sv_edge _ _ Hv). by apply Hfe.
  - intros id Hid. rewrite <-(sv_node _ _ Hv). by apply Hon.
  - intros p slot Hid. rewrite <-(sv_edge _ _ Hv). by apply Hoe.
  - intros id Hid. rewrite <-(sv_leaf_ref _ _ Hv). by apply Hol.
Qed.

(** ** One new node *)

(** [r'] is [r] with the node [c] at a free slot of [parent]; a leaf comes with its reference. *)
Record grows (g : TreeGeometry) (layout : ExportLayoutKind) (parent : NodeId) (slot : Z) (node : TreeNodeRecord)
    (r r' : TreeRows) : Prop := {
  gr_new : rw_node r (tn_id node) = Ok None;
  gr_bare : ∀ slot, rw_edge r (tn_id node) slot = Ok None;
  gr_free : rw_edge r parent slot = Ok None;
  gr_parent : ∃ pnode pspan span, rw_node r parent = Ok (Some pnode) ∧
    tn_level pnode = span_level pspan ∧ tn_span_start_bytes pnode = span_start pspan ∧ tn_span_len_bytes pnode = span_len pspan ∧
    child_span g pspan slot = Ok span ∧ node_matches layout (expected_kind span) span node;
  gr_node : ∀ id, rw_node r' id = if decide (id = tn_id node) then Ok (Some node) else rw_node r id;
  gr_edge : ∀ p sl, rw_edge r' p sl =
    if decide (p = parent ∧ sl = slot) then Ok (Some (mkTreeEdge parent slot (tn_id node))) else rw_edge r p sl;
  gr_leaf : tn_level node = 0 → ∃ leaf, rw_leaf_ref r' (tn_id node) = Ok (Some leaf) ∧ tl_node_id leaf = tn_id node;
  gr_leaf_ref : ∀ id, id ≠ tn_id node → rw_leaf_ref r' id = rw_leaf_ref r id;
}.

Section growth.
Context (rd : LazyTreeMetadataReader) (parent : NodeId) (slot : Z) (node : TreeNodeRecord) (r r' : TreeRows).
Context (Hgrow : grows (rd_geometry rd) (rd_layout_kind rd) parent slot node r r').

Lemma parent_old : parent ≠ tn_id node.
Proof.
  destruct (gr_parent _ _ _ _ _ _ _ Hgrow) as (pnode & _ & _ & Hp & _). intros Heq.
  pose proof (gr_new _ _ _ _ _ _ _ Hgrow) as Hn. by rewrite <-Heq, Hp in Hn.
Qed.

(** The new node is a subtree of its span. *)
Lemma new_subtree_ok n span :
  node_matches (rd_layout_kind rd) (expected_kind span) span node → span_level span = Z.of_nat n →
  subtree_ok rd r' n span (tn_id node).
Proof.
  intros Hm Hlev. assert (rw_node r' (tn_id node) = Ok (Some node)) as Hn.
  { rewrite (gr_node _ _ _ _ _ _ _ Hgrow). by rewrite decide_True. }
  destruct n as [|n]; exists node; (split; [done|]); (split; [done|]); (split; [done|]).
  - apply (gr_leaf _ _ _ _ _ _ _ Hgrow). destruct Hm as (_ & _ & -> & _). lia.
  - intros sl. left. cbn. rewrite (gr_edge _ _ _ _ _ _ _ Hgrow), decide_False; [apply Hgrow|].
    intros [Heq _]. by apply parent_old.
Qed.

Lemma subtree_ok_grow n : ∀ span id,
  span_level span = Z.of_nat n → subtree_ok rd r n span id → subtree_ok rd r' n span id.
Proof.
  induction n as [|n IH]; intros span id Hlev (x & Hx & Hid & Hm & Hrest);
    (assert (id ≠ tn_id node) as Hne by
      (intros ->; pose proof (gr_new _ _ _ _ _ _ _ Hgrow) as Hn; cbn in Hx; by rewrite Hx in Hn));
    exists x; (split; [by cbn; rewrite (gr_node _ _ _ _ _ _ _ Hgrow), decide_False|]); (split; [done|]); (split; [done|]).
  { cbn. by setoid_rewrite (gr_leaf_ref _ _ _ _ _ _ _ Hgrow id Hne). }
  intros sl. cbn. rewrite (gr_edge _ _ _ _ _ _ _ Hgrow). destruct (decide _) as [[-> ->]|Hother].
  - right. exists (tn_id node). split; [done|]. intros span' Hs. apply new_subtree_ok.
    2: { rewrite (child_span_level _ _ _ _ Hs). lia. }
    destruct (gr_parent _ _ _ _ _ _ _ Hgrow) as (pnode & pspan & cspan & Hp & H1 & H2 & H3 & Hc & Hcm).
    cbn in Hx. rewrite Hx in Hp. injection Hp as ->. destruct Hm as (_ & _ & Hm1 & Hm2 & Hm3).
    assert (pspan = span) as -> by (destruct pspan, span; cbn in *; congruence). by rewrite Hc in Hs; injection Hs as ->.
  - destruct (Hrest sl) as [?|(child & He & Hsub)]; [by left|right]. exists child. split; [done|].
    intros span' Hs. apply IH; [|by apply Hsub]. rewrite (child_span_level _ _ _ _ Hs). lia.
Qed.

(** Nodes that a path reached are still reached. *)
Lemma find_node_grow slots : ∀ id found, find_node r id slots = Some found → find_node r' id slots = Some found.
Proof.
  induction slots as [|sl slots IH]; intros id found; cbn [find_node]; [done|]. cbn. rewrite (gr_edge _ _ _ _ _ _ _ Hgrow).
  destruct (decide _) as [[-> ->]|_].
  - by rewrite (gr_free _ _ _ _ _ _ _ Hgrow).
  - destruct (rw_edge r id sl) as [[e|]| |]; [apply IH|done..].
Qed.

(** What is reached only now is the new node, over the new edge. *)
Lemma find_node_new slots : ∀ n span span' id found,
  subtree_ok rd r (length slots + n) span id → descend (rd_geometry rd) span slots = Ok span' →
  find_node r id slots = None → find_node r' id slots = Some found → found = tn_id node ∧ ∃ before, slots = before ++ [slot] ∧ find_node r id before = Some parent.
Proof.
  induction slots as [|sl slots IH]; intros n span span' id found Hsub Hd Hnone Hf; [done|].
  cbn [find_node] in Hnone, Hf. cbn in Hnone, Hf. rewrite (gr_edge _ _ _ _ _ _ _ Hgrow) in Hf.
  cbn [length Nat.add subtree_ok] in Hsub. destruct Hsub as (x & _ & _ & _ & Hedges).
  cbn [descend] in Hd. apply obind_ok in Hd as (sp & Hc & Hd). destruct (decide _) as [[-> ->]|_].
  - destruct slots as [|sl slots]; cbn [find_node te_child_node_id] in Hf.
    + injection Hf as <-. split; [done|]. by exists [].
    + exfalso. cbn in Hf. rewrite (gr_edge _ _ _ _ _ _ _ Hgrow), decide_False, (gr_bare _ _ _ _ _ _ _ Hgrow) in Hf; [done|].
      intros [Heq _]. by apply parent_old.
  - destruct (Hedges sl) as [He|(child & He & Hsub)]; cbn in He; rewrite He in Hnone, Hf; [done|]. cbn in Hnone, Hf.
    destruct (IH n sp span' child found (Hsub _ Hc) Hd Hnone Hf) as (-> & before & -> & Hb). split; [done|].
    exists (sl :: before). split; [done|]. cbn. by rewrite He.
Qed.
End growth.
