(* ===== verification/Compaction.v ===== *)
(** * Compaction

    [engines/wal_durable/compaction.rs]: the overlay of a snapshot is merged into the chunks of the
    committed tree, each changed chunk becomes a new blob, and a new tree that shares every unchanged
    node with the old one is published in place of it.

    The compactor works on a pair of a record store and a blob store through their interfaces.
    Random blob keys and node identifiers are arguments: [keys j n] is the [n]-th key drawn for the
    [j]-th blob, [ids n] the [n]-th generated identifier. *)

From S2P Require Import Prelude BTree ControlPlane Server ExtentMap Wal WalLocal Overlay ReadCache.
From S2P Require Import Geometry Catalog Tree Storage ReadView Publication.

#[local] Open Scope string_scope.
#[local] Open Scope list_scope.
#[local] Open Scope Z_scope.

(** ** Results *)

Inductive CompactionOutcome : Type := OutcomePublished | OutcomeStalePlan | OutcomeNoRecords.

Record CompactionResult := mkCompaction {
  cr_export_id : ExportId;
  cr_base_wal_seq : WalSeq;
  cr_target_wal_seq : WalSeq;
  cr_compacted_records : Z;
  cr_written_leaf_blobs : Z;
  cr_outcome : CompactionOutcome;
  cr_published_root : option RootSnapshot;
}.

Definition catalog_error (message : string) : ServerError := SCatalog message None.

(** ** The publication planner *)

Record CowTreePublishPlanner := mkPlanner {
  pl_geometry : TreeGeometry;
  pl_factory : TreeRecordFactory;
  pl_old_root_node_id : option NodeId;
  pl_new_root_node_id : NodeId;
  pl_copied_parents : gset string;
  pl_new_internal_edges : gmap (string * Z) NodeId;
  pl_pending_edges : gmap (string * Z) NodeId;
  pl_records : TreeRecordBatch;
  pl_drawn : nat;
}.

Definition pl_with_edges (copied : gset string) (internal pending : gmap (string * Z) NodeId)
    (pl : CowTreePublishPlanner) : CowTreePublishPlanner :=
  mkPlanner (pl_geometry pl) (pl_factory pl) (pl_old_root_node_id pl) (pl_new_root_node_id pl)
    copied internal pending (pl_records pl) (pl_drawn pl).

Definition pl_push (nodes : list TreeNodeRecord) (leaf_refs : list TreeLeafRefRecord)
    (pl : CowTreePublishPlanner) : CowTreePublishPlanner :=
  let records := pl_records pl in
  mkPlanner (pl_geometry pl) (pl_factory pl) (pl_old_root_node_id pl) (pl_new_root_node_id pl)
    (pl_copied_parents pl) (pl_new_internal_edges pl) (pl_pending_edges pl)
    (mkTreeBatch (tb_nodes records ++ nodes) (tb_edges records) (tb_leaf_refs records ++ leaf_refs))
    (pl_drawn pl).

Definition pl_set_pending (key : string * Z) (child : NodeId) (pl : CowTreePublishPlanner)
    : CowTreePublishPlanner :=
  pl_with_edges (pl_copied_parents pl) (pl_new_internal_edges pl)
    (<[key := child]> (pl_pending_edges pl)) pl.

Definition pl_set_internal (key : string * Z) (child : NodeId) (pl : CowTreePublishPlanner)
    : CowTreePublishPlanner :=
  pl_with_edges (pl_copied_parents pl) (<[key := child]> (pl_new_internal_edges pl)) (pl_pending_edges pl) pl.

Definition pl_mark_copied (parent : NodeId) (pl : CowTreePublishPlanner) : CowTreePublishPlanner :=
  pl_with_edges ({[parent]} ∪ pl_copied_parents pl) (pl_new_internal_edges pl) (pl_pending_edges pl) pl.

(** [Uuid::new_v4] gives a text; an identifier of the empty text would panic. *)
Definition node_id_of (text : string) : SResult NodeId :=
  match NodeId_new text with Ok id => Ok id | _ => Panic end.

Section planner.
Context {S : Type} `{!TreeRecordStore S} (ids : nat → string).

Definition generated_node_id (pl : CowTreePublishPlanner) : SResult (NodeId * CowTreePublishPlanner) :=
  let? id := node_id_of (ids (pl_drawn pl)) in
  Ok (id, mkPlanner (pl_geometry pl) (pl_factory pl) (pl_old_root_node_id pl) (pl_new_root_node_id pl)
            (pl_copied_parents pl) (pl_new_internal_edges pl) (pl_pending_edges pl) (pl_records pl)
            (Datatypes.S (pl_drawn pl))).

Definition CowTreePublishPlanner_new (geometry : TreeGeometry) (export_id : ExportId)
    (old_root_node_id : option NodeId) : SResult CowTreePublishPlanner :=
  let? new_root_node_id := node_id_of (ids O) in
  let factory := mkFactory geometry CowImmutableTree (Some export_id) in
  Ok (mkPlanner geometry factory old_root_node_id new_root_node_id ∅ ∅ ∅
        (mkTreeBatch [root_node factory new_root_node_id] [] []) 1).

Definition plan_load_required_node (node_id : NodeId) : M S ServerError TreeNodeRecord :=
  let! node := store_call (store_load_node node_id) in
  mlift (ok_or node (catalog_error "tree node `{node_id}` is missing")).

Definition plan_load_child_edge (parent_node_id : NodeId) (slot : Z)
    : M S ServerError (option TreeEdgeRecord) :=
  let! edges := store_call (store_load_child_edges [mkEdgeLookup parent_node_id [slot]]) in
  if 1 <? zlen edges then
    mfail (catalog_error "node `{parent_node_id}` has duplicate edge for slot {slot}")
  else
    match head edges with
    | Some edge =>
        if bool_decide (te_parent_node_id edge ≠ parent_node_id) || negb (te_slot edge =? slot) then
          mfail (catalog_error "node `{parent_node_id}` slot {slot} returned mismatched edge row")
        else mret (Some edge)
    | None => mret None
    end.

Definition validate_existing_node (node : TreeNodeRecord) (layout_kind : ExportLayoutKind)
    (span : TreeNodeSpan) (kind : TreeNodeKind) : SResult unit :=
  if bool_decide (tn_layout_kind node ≠ layout_kind) || bool_decide (tn_kind node ≠ kind)
     || negb (tn_level node =? span_level span) || negb (tn_span_start_bytes node =? span_start span)
     || negb (tn_span_len_bytes node =? span_len span) then
    Err (catalog_error "tree node `{}` does not match COW tree geometry")
  else Ok tt.

(** The loop of [copy_existing_edges_once] over the rows. *)
Fixpoint copy_edges (old_parent_id new_parent_id : NodeId) (edges : list TreeEdgeRecord)
    (pl : CowTreePublishPlanner) : SResult CowTreePublishPlanner :=
  match edges with
  | [] => Ok pl
  | edge :: edges =>
      if bool_decide (te_parent_node_id edge ≠ old_parent_id) then
        Err (catalog_error "node `{old_parent_id}` returned edge for mismatched parent `{}`")
      else if geo_fanout (pl_geometry pl) <=? te_slot edge then
        Err (catalog_error "node `{old_parent_id}` returned edge for invalid slot {}")
      else
        copy_edges old_parent_id new_parent_id edges
          (pl_set_pending (new_parent_id, te_slot edge) (te_child_node_id edge) pl)
  end.

Definition copy_existing_edges_once (old_parent_id : option NodeId) (new_parent_id : NodeId)
    (span : TreeNodeSpan) (pl : CowTreePublishPlanner) : M S ServerError CowTreePublishPlanner :=
  match old_parent_id with
  | None => mret pl
  | Some old_parent_id =>
      if bool_decide (new_parent_id ∈ pl_copied_parents pl) then mret pl
      else
        let pl := pl_mark_copied new_parent_id pl in
        let! old_parent := plan_load_required_node old_parent_id in
        let! _ := mlift (validate_existing_node old_parent CowImmutableTree span Internal) in
        let slots := seqZ 0 (geo_fanout (pl_geometry pl)) in
        let! edges := store_call (store_load_child_edges [mkEdgeLookup old_parent_id slots]) in
        mlift (copy_edges old_parent_id new_parent_id edges pl)
  end.

(** The branch of [plan_chunk] for a new leaf. *)
Definition plan_leaf (chunk : CowChunkRef) (child_span : TreeNodeSpan) (edge_key : string * Z)
    (pl : CowTreePublishPlanner) : SResult CowTreePublishPlanner :=
  let? (child_id, pl) := generated_node_id pl in
  let pl := pl_push [leaf_node (pl_factory pl) child_id child_span]
              [leaf_ref (pl_factory pl) child_id ImmutableBlob (cc_blob_key chunk)] pl in
  Ok (pl_set_pending edge_key child_id pl).

(** The branch of [plan_chunk] for an internal child: the one already planned, or a new one. *)
Definition plan_internal (old_child_id : option NodeId) (child_span : TreeNodeSpan) (edge_key : string * Z)
    (pl : CowTreePublishPlanner) : M S ServerError (NodeId * CowTreePublishPlanner) :=
  match pl_new_internal_edges pl !! edge_key with
  | Some child_id => mret (child_id, pl)
  | None =>
      let! _ :=
        match old_child_id with
        | Some old_child_id =>
            let! old_child := plan_load_required_node old_child_id in
            mlift (validate_existing_node old_child CowImmutableTree child_span Internal)
        | None => mret tt
        end in
      let! (child_id, pl) := mlift (generated_node_id pl) in
      let pl := pl_push [internal_node (pl_factory pl) child_id child_span] [] pl in
      let pl := pl_set_pending edge_key child_id pl in
      mret (child_id, pl_set_internal edge_key child_id pl)
  end.

(** The loop of [plan_chunk] over the slots of the path. *)
Fixpoint plan_path (chunk : CowChunkRef) (slots : list Z) (old_parent_id : option NodeId)
    (new_parent_id : NodeId) (parent_span : TreeNodeSpan) (pl : CowTreePublishPlanner)
    : M S ServerError CowTreePublishPlanner :=
  match slots with
  | [] => mret pl
  | slot :: slots =>
      let! child_span := mlift (child_span (pl_geometry pl) parent_span slot) in
      let! old_child_id :=
        match old_parent_id with
        | Some parent =>
            let! edge := plan_load_child_edge parent slot in
            mret (te_child_node_id <$> edge)
        | None => mret None
        end in
      let edge_key := (new_parent_id, slot) in
      if span_level child_span =? 0 then mlift (plan_leaf chunk child_span edge_key pl)
      else
        let! (child_id, pl) := plan_internal old_child_id child_span edge_key pl in
        let! pl := copy_existing_edges_once old_child_id child_id child_span pl in
        plan_path chunk slots old_child_id child_id child_span pl
  end.

Definition plan_chunk (chunk : CowChunkRef) (pl : CowTreePublishPlanner)
    : M S ServerError CowTreePublishPlanner :=
  let! path := mlift (path_for_chunk (pl_geometry pl) (cc_chunk_index chunk)) in
  let old_parent_id := pl_old_root_node_id pl in
  let new_parent_id := pl_new_root_node_id pl in
  let parent_span := root_span (pl_geometry pl) in
  let! pl := copy_existing_edges_once old_parent_id new_parent_id parent_span pl in
  plan_path chunk (tp_slots path) old_parent_id new_parent_id parent_span pl.

Fixpoint plan_each (chunks : list CowChunkRef) (pl : CowTreePublishPlanner)
    : M S ServerError CowTreePublishPlanner :=
  match chunks with
  | [] => mret pl
  | chunk :: chunks => let! pl := plan_chunk chunk pl in plan_each chunks pl
  end.

(** The rows of the pending edges, in the order of the map. *)
Definition pending_rows (pl : CowTreePublishPlanner) : SResult (list TreeEdgeRecord) :=
  try_map (λ '((parent, slot), child),
    let? parent := map_err ServerError_catalog (NodeId_new parent) in
    Ok (child_edge (pl_factory pl) parent slot child)) (map_to_list (pl_pending_edges pl)).

Definition plan_chunks (chunks : list CowChunkRef) (pl : CowTreePublishPlanner)
    : M S ServerError TreeRecordBatch :=
  let! pl := plan_each chunks pl in
  let! edges := mlift (pending_rows pl) in
  let records := pl_records pl in
  mret (mkTreeBatch (tb_nodes records) (tb_edges records ++ edges) (tb_leaf_refs records)).

Context `{!TreePublisher S}.

Definition publish_lazy_compaction (export_id : ExportId) (root : RootSnapshot)
    (compacted_through : WalSeq) (chunks : list CowChunkRef)
    : M S ServerError (CompactionOutcome * option RootSnapshot) :=
  match chunks with
  | [] => mret (OutcomeNoRecords, None)
  | _ =>
      let! tree_format := mlift (ok_or (rs_tree_format root)
        (catalog_error "COW compaction root is missing tree format")) in
      let! geometry := mlift (TreeGeometry_new tree_format (rs_size_bytes root)) in
      let! planner := mlift (CowTreePublishPlanner_new geometry export_id (rs_root_node_id root)) in
      let! records := plan_chunks chunks planner in
      let! next_head := mlift (map_err ServerError_catalog
        (new_with_tree_format CowImmutableTree (Some (pl_new_root_node_id planner)) (rs_size_bytes root)
           compacted_through (Some tree_format))) in
      let! expected_head := mlift (to_export_head root) in
      let! outcome := store_call (store_publish (mkPublish export_id expected_head next_head records)) in
      match outcome with
      | Published record =>
          let! published := mlift (RootSnapshot_from_head (r_head record)) in
          mret (OutcomePublished, Some published)
      | StaleHead _ => mret (OutcomeStalePlan, None)
      end
  end.
End planner.

(** ** The compactor *)

Definition validate_overlay_slice_range (root : RootSnapshot) (target_wal_seq : WalSeq)
    (slice : OverlayReadSlice) : SResult unit :=
  let seq := rec_seq (sl_record slice) in
  if seq <=? rs_base_wal_seq root then
    Err (ServerError_wal "compact overlay slice" "record sequence {} is at or before checkpoint {}")
  else if target_wal_seq <? seq then
    Err (ServerError_wal "compact overlay slice" "record sequence {} is after compaction target {}")
  else
    let len := Z.max 0 (sl_end slice - sl_start slice) in
    let bounds := OutOfBounds "compact overlay slice" (sl_start slice) len (rs_size_bytes root) in
    let? end_ := ok_or (len ← u64_checked_sub (sl_end slice) (sl_start slice);
                        u64_checked_add (sl_start slice) len) bounds in
    if rs_size_bytes root <? end_ then Err bounds
    else
      let? record_end := ok_or (u64_checked_add (sl_offset slice) len)
        (ServerError_wal "compact overlay slice" "record offset overflowed") in
      if zlen (rec_data (sl_record slice)) <? record_end then
        Err (ServerError_wal "compact overlay slice" "overlay slice extends beyond WAL record payload")
      else Ok tt.

Section compactor.
Context {S B : Type} `{!TreeRecordStore S} `{!TreePublisher S} `{!BlobStore B}.
Implicit Types (root : RootSnapshot) (images : btree (list byte)).

Definition load_committed_chunk root (chunk_index : ChunkIndex) : M (S * B) ServerError (list byte) :=
  match rs_tree_format root with
  | None => mret (zeros TREE_CHUNK_BYTES)
  | Some tree_format =>
      let! geometry := mlift (TreeGeometry_new tree_format (rs_size_bytes root)) in
      let! leaf := zoom fst set_fst
        (load_leaf (mkReader geometry CowImmutableTree (rs_root_node_id root)) chunk_index) in
      match leaf with
      | None => mret (zeros TREE_CHUNK_BYTES)
      | Some leaf =>
          if bool_decide (tl_storage_kind (ll_leaf_ref leaf) ≠ ImmutableBlob) then
            mfail (catalog_error "COW tree chunk {chunk_index} has storage kind {}")
          else zoom snd set_snd (get_blob (tl_storage_key (ll_leaf_ref leaf)) 0 TREE_CHUNK_BYTES)
      end
  end.

(** The chunk, and the images with it. *)
Definition load_or_create_root_chunk root images (chunk_index : ChunkIndex)
    : M (S * B) ServerError (list byte * btree (list byte)) :=
  match bt_get chunk_index images with
  | Some data => mret (data, images)
  | None =>
      let! data := load_committed_chunk root chunk_index in
      mret (data, bt_insert chunk_index data images)
  end.

(** The loop of [apply_overlay_slice_to_chunks].  Each round fills its chunk or ends the slice. *)
Fixpoint apply_slice_loop (fuel : nat) root (slice : OverlayReadSlice) (total_len copied : Z) images
    : M (S * B) ServerError (btree (list byte)) :=
  if copied <? total_len then
    match fuel with
    | O => λ s, (Panic, s)
    | Datatypes.S fuel =>
        let current_offset := u64_add (sl_start slice) copied in
        let chunk_index := current_offset / TREE_CHUNK_BYTES in
        let chunk_offset := current_offset mod TREE_CHUNK_BYTES in
        let chunk_available := TREE_CHUNK_BYTES - chunk_offset in
        let copy_len := Z.min chunk_available (total_len - copied) in
        let! record_offset := mlift (ok_or (usize_try_from (sl_offset slice))
          (ServerError_wal "compact overlay slice" "record offset does not fit usize")) in
        let! src_start := mlift (ok_or (u64_checked_add record_offset copied)
          (ServerError_wal "compact overlay slice" "record offset overflowed")) in
        let! src_end := mlift (ok_or (u64_checked_add src_start copy_len)
          (ServerError_wal "compact overlay slice" "record slice overflowed")) in
        let! (chunk, images) := load_or_create_root_chunk root images chunk_index in
        let! _ := mlift (or_panic (Prelude.slice chunk chunk_offset (chunk_offset + copy_len))) in
        let! src := mlift (or_panic (Prelude.slice (rec_data (sl_record slice)) src_start src_end)) in
        let! chunk := mlift (or_panic (splice chunk chunk_offset src)) in
        apply_slice_loop fuel root slice total_len (copied + copy_len) (bt_insert chunk_index chunk images)
    end
  else mret images.

Definition apply_overlay_slice_to_chunks root images (slice : OverlayReadSlice)
    : M (S * B) ServerError (btree (list byte)) :=
  let! total_len := mlift (ok_or (usize_try_from (u64_sub (sl_end slice) (sl_start slice)))
    (ServerError_wal "compact overlay slice" "slice length does not fit usize")) in
  apply_slice_loop (Z.to_nat (total_len / TREE_CHUNK_BYTES + 2)) root slice total_len 0 images.

(** The loop over the slices: the sequence numbers of the visible records and the images. *)
Fixpoint merge_slices root (target_wal_seq : WalSeq) (slices : list OverlayReadSlice)
    (visible_records : gset Z) images : M (S * B) ServerError (gset Z * btree (list byte)) :=
  match slices with
  | [] => mret (visible_records, images)
  | slice :: slices =>
      let! _ := mlift (validate_overlay_slice_range root target_wal_seq slice) in
      let visible_records := {[rec_seq (sl_record slice)]} ∪ visible_records in
      let! images := apply_overlay_slice_to_chunks root images slice in
      merge_slices root target_wal_seq slices visible_records images
  end.

(** The loop that writes the images as blobs: the chunk references and their number. *)
Fixpoint write_chunks (keys : nat → nat → BlobKey) (j : nat) images (chunks : btree CowChunkRef)
    (written : Z) : M (S * B) ServerError (btree CowChunkRef * Z) :=
  match images with
  | [] => mret (chunks, written)
  | (chunk_index, data) :: images =>
      let! key := zoom snd set_snd (put_random_blob (keys j) data) in
      let! chunk := mlift (map_err ServerError_catalog (CowChunkRef_new chunk_index key TREE_CHUNK_BYTES)) in
      write_chunks keys (Datatypes.S j) images (bt_insert chunk_index chunk chunks) (u64_add written 1)
  end.

Definition compact_snapshot (keys : nat → nat → BlobKey) (ids : nat → string) (export_id : ExportId)
    (snapshot : ReadViewCompactionSnapshot) : M (S * B) ServerError CompactionResult :=
  let root := sn_root snapshot in
  let base_wal_seq := rs_base_wal_seq root in
  let target_wal_seq := sn_target_wal_seq snapshot in
  let no_records := mkCompaction export_id base_wal_seq target_wal_seq 0 0 OutcomeNoRecords None in
  if target_wal_seq <=? base_wal_seq then mret no_records
  else
    let overlay_slices := all_slices (sn_overlay snapshot) in
    match overlay_slices with
    | [] => mret no_records
    | _ =>
        let! (visible_records, chunk_images) := merge_slices root target_wal_seq overlay_slices ∅ [] in
        let! (chunks, written_leaf_blobs) := write_chunks keys O chunk_images [] 0 in
        let! (outcome, published_root) := zoom fst set_fst
          (publish_lazy_compaction ids export_id root target_wal_seq chunks.*2) in
        mret (mkCompaction export_id base_wal_seq target_wal_seq (Z.of_nat (size visible_records))
                written_leaf_blobs outcome published_root)
    end.
End compactor.
