(* ===== verification/CompactionPlan.v ===== *)
(** * Correctness of the publication planner

    The planner of [compaction.rs] builds a tree that differs from the old one in the planned chunks only
    and shares all other nodes with it.  [plan_inv] relates the state of the planner to two ghost
    maps: the path of every new internal node, and the leaf planned for every chunk path. *)

From S2P Require Import Prelude BTree ControlPlane Server ExtentMap Wal Overlay Geometry Catalog Tree Storage.
From S2P Require Import ReadView Publication TreePaths Compaction.

#[local] Open Scope string_scope.
#[local] Open Scope list_scope.
#[local] Open Scope Z_scope.

(** ** The invariant of the planner *)

Section plan.
Context {S : Type} `{!TreeRecordStore S} `{!TreeView S} `{!TreeRecordStoreLaws S} `{!TreePublisher S} `{!TreePublisherLaws S}.
Context (ids : nat → string) (g : TreeGeometry) (export_id : ExportId) (old_root : option NodeId) (s0 : S).
Context (ids_valid : ∀ k, NodeId_new (ids k) = Ok (ids k)) (ids_inj : Inj (=) (=) ids).
Context (Hg : geometry_ok g) (export_valid : ExportId_new export_id = Ok export_id).

Let rd := mkReader g CowImmutableTree old_root.
Let depth := Z.to_nat (geo_root_level g).
Let factory := mkFactory g CowImmutableTree (Some export_id).

Context (stored : ∀ id, old_root = Some id → subtree_ok rd s0 depth (root_span g) id).

Definition span_at (path : list Z) (span : TreeNodeSpan) : Prop := descend g (root_span g) path = Ok span.

(** The child that the planned edges give to a node. *)
Definition planned_child (A : gmap NodeId (list Z)) (D : gmap (list Z) (NodeId * BlobKey)) (pl : CowTreePublishPlanner)
    (p : NodeId) (slot : Z) : option NodeId :=
  pre ← A !! p;
  match pl_new_internal_edges pl !! (p, slot) with
  | Some c => Some c
  | None =>
      match D !! (pre ++ [slot]) with
      | Some (leaf, _) => Some leaf
      | None => if bool_decide (p ∈ pl_copied_parents pl ∧ 0 ≤ slot < 32) then old_at s0 old_root (pre ++ [slot]) else None
      end
  end.

(** [A] has the path of every new internal node, [D] the leaf and the blob of every planned path. *)
Record plan_inv (pl : CowTreePublishPlanner) (A : gmap NodeId (list Z)) (D : gmap (list Z) (NodeId * BlobKey)) : Prop := {
  pi_fields : pl_geometry pl = g ∧ pl_factory pl = factory ∧ pl_old_root_node_id pl = old_root ∧ pl_new_root_node_id pl = ids O;
  pi_root : A !! ids O = Some [];
  pi_inj : ∀ a b p, A !! a = Some p → A !! b = Some p → a = b;
  pi_valid : ∀ a p, A !! a = Some p → (length p < depth)%nat ∧ ∃ span, span_at p span;
  pi_internal : ∀ p slot c, pl_new_internal_edges pl !! (p, slot) = Some c →
    ∃ pre, A !! p = Some pre ∧ A !! c = Some (pre ++ [slot]);
  pi_reached : ∀ c pre slot, A !! c = Some (pre ++ [slot]) →
    ∃ p, A !! p = Some pre ∧ pl_new_internal_edges pl !! (p, slot) = Some c;
  pi_leaf : ∀ path leaf, D !! path = Some leaf →
    length path = depth ∧ (∃ span, span_at path span) ∧ ∃ pre slot p, path = pre ++ [slot] ∧ A !! p = Some pre;
  pi_pending : ∀ p slot, pl_pending_edges pl !! (p, slot) = planned_child A D pl p slot;
  pi_slots : ∀ k c, pl_pending_edges pl !! k = Some c → 0 ≤ k.2 < 32;
  pi_untouched : ∀ p pre, A !! p = Some pre → is_Some (old_at s0 old_root pre) →
    p ∈ pl_copied_parents pl ∨ ∀ slot, pl_new_internal_edges pl !! (p, slot) = None ∧ D !! (pre ++ [slot]) = None;
  pi_copied : ∀ p, p ∈ pl_copied_parents pl → is_Some (A !! p);
}.

(** What the records of the planner are. *)
Record records_inv (pl : CowTreePublishPlanner) (A : gmap NodeId (list Z)) (D : gmap (list Z) (NodeId * BlobKey)) : Prop := {
  ri_ids : tn_id <$> tb_nodes (pl_records pl) = ids <$> seq 0 (pl_drawn pl);
  ri_edges : tb_edges (pl_records pl) = [];
  ri_addr : ∀ a p span, A !! a = Some p → span_at p span → internal_node factory a span ∈ tb_nodes (pl_records pl);
  ri_leaf : ∀ path leaf key span, D !! path = Some (leaf, key) → span_at path span →
    leaf_node factory leaf span ∈ tb_nodes (pl_records pl) ∧
    leaf_ref factory leaf ImmutableBlob key ∈ tb_leaf_refs (pl_records pl);
  ri_nodes_ok : ∀ n, n ∈ tb_nodes (pl_records pl) → node_ok n;
  ri_leaf_refs_ok : ∀ l, l ∈ tb_leaf_refs (pl_records pl) → leaf_ref_ok l;
  ri_leaf_ids : ∀ l, l ∈ tb_leaf_refs (pl_records pl) → tl_node_id l ∈ tn_id <$> tb_nodes (pl_records pl);
}.

(** Identifiers that were drawn. *)
Lemma records_drawn pl A D n : records_inv pl A D → n ∈ tb_nodes (pl_records pl) → ∃ k, (k < pl_drawn pl)%nat ∧ tn_id n = ids k.
Proof.
  intros [Hids _ _ _ _ _ _] Hn. assert (tn_id n ∈ ids <$> seq 0 (pl_drawn pl)) as Hin.
  { rewrite <-Hids. apply list_elem_of_fmap. eauto. }
  apply list_elem_of_fmap in Hin as (k & -> & Hk%elem_of_seq). exists k. split; [lia|done].
Qed.

Lemma addr_drawn pl A D a p : plan_inv pl A D → records_inv pl A D → A !! a = Some p → ∃ k, (k < pl_drawn pl)%nat ∧ a = ids k.
Proof.
  intros Hp Hr Ha. destruct (pi_valid _ _ _ Hp a p Ha) as [_ [span Hs]].
  destruct (records_drawn _ _ _ _ Hr (ri_addr _ _ _ Hr a p span Ha Hs)) as (k & Hk & Hid). eauto.
Qed.

(** The next identifier is no node of the plan. *)
Lemma next_id_fresh pl A D : plan_inv pl A D → records_inv pl A D → A !! ids (pl_drawn pl) = None.
Proof.
  intros Hp Hr. destruct (A !! ids (pl_drawn pl)) as [p|] eqn:Ha; [|done].
  destruct (addr_drawn _ _ _ _ _ Hp Hr Ha) as (k & Hk & Heq). apply ids_inj in Heq. lia.
Qed.

Lemma next_id_no_edges pl A D slot :
  plan_inv pl A D → records_inv pl A D → pl_new_internal_edges pl !! (ids (pl_drawn pl), slot) = None.
Proof.
  intros Hp Hr. destruct (_ !! _) as [c|] eqn:Hc; [|done]. destruct (pi_internal _ _ _ Hp _ _ _ Hc) as (pre & Ha & _).
  by rewrite (next_id_fresh _ _ _ Hp Hr) in Ha.
Qed.

(** The old node at a path of a new node. *)
Lemma old_subtree path span id :
  (length path ≤ depth)%nat → span_at path span → old_at s0 old_root path = Some id →
  subtree_ok rd s0 (depth - length path) span id.
Proof.
  intros Hlen Hs Hold. unfold old_at in Hold. destruct old_root as [root|] eqn:Hr; [|done]. cbn in Hold.
  apply (subtree_ok_find rd s0 path _ (root_span g) root); [|done|done].
  replace (length path + (depth - length path))%nat with depth by lia. by apply stored.
Qed.

(** *** Copying the edges of an old node *)

Lemma see_edges_ok path span id slots :
  (length path < depth)%nat → span_at path span → old_at s0 old_root path = Some id →
  ∃ l, try_map (see_edge s0 id) slots = Ok l ∧
    concat (option_list <$> l) = omap (λ slot, (λ c, mkTreeEdge id slot c) <$> child_at s0 id slot) slots.
Proof.
  intros Hlen Hs Hold. pose proof (old_subtree path span id ltac:(lia) Hs Hold) as Hsub.
  destruct (depth - length path)%nat as [|m] eqn:Hm; [lia|]. destruct Hsub as (node & _ & _ & _ & Hedges).
  induction slots as [|slot slots (l & Hl & Hc)]; [by exists []|]. cbn [try_map]. unfold child_at at 1.
  destruct (Hedges slot) as [He|(c & He & _)]; rewrite He; cbn [obind]; rewrite Hl; cbn [obind]; eexists; (split; [reflexivity|]);
    cbn; rewrite ?He; cbn; rewrite Hc; done.
Qed.

Lemma copy_edges_spec id new slots : ∀ pl,
  pl_geometry pl = g → (∀ slot, slot ∈ slots → 0 ≤ slot < 32) →
  ∃ pending, copy_edges id new (omap (λ slot, (λ c, mkTreeEdge id slot c) <$> child_at s0 id slot) slots) pl =
    Ok (pl_with_edges (pl_copied_parents pl) (pl_new_internal_edges pl) pending pl) ∧
    (∀ p slot, pending !! (p, slot) =
      if bool_decide (p = new ∧ slot ∈ slots ∧ is_Some (child_at s0 id slot)) then child_at s0 id slot
      else pl_pending_edges pl !! (p, slot)).
Proof.
  pose proof Hg as (Hf & _). induction slots as [|slot slots IH]; intros pl Hpg Hlt.
  { exists (pl_pending_edges pl). split; [by destruct pl|]. intros p slot. rewrite bool_decide_false by set_solver. done. }
  cbn [omap list_omap]. destruct (child_at s0 id slot) as [c|] eqn:Hc; cbn [fmap option_fmap option_map].
  - cbn [copy_edges te_parent_node_id te_slot te_child_node_id]. rewrite bool_decide_false by (by intros []).
    rewrite Hpg, Hf. rewrite (proj2 (Z.leb_gt _ _)) by (specialize (Hlt slot); set_solver).
    destruct (IH (pl_set_pending (new, slot) c pl)) as (pending & -> & Hpend); [done|set_solver|].
    exists pending. split; [by destruct pl|]. intros p sl. rewrite Hpend. cbn.
    destruct (decide (p = new ∧ sl = slot)) as [[-> ->]|Hne].
    + rewrite lookup_insert_eq. rewrite (bool_decide_true (new = new ∧ slot ∈ slot :: slots ∧ _)) by (rewrite Hc; split_and!; [done|set_solver|by eexists]).
      rewrite Hc. by case_bool_decide.
    + rewrite lookup_insert_ne by naive_solver.
      assert (bool_decide (p = new ∧ sl ∈ slots ∧ is_Some (child_at s0 id sl)) =
              bool_decide (p = new ∧ sl ∈ slot :: slots ∧ is_Some (child_at s0 id sl))) as ->; [|done].
      apply bool_decide_ext. rewrite elem_of_cons. naive_solver.
  - destruct (IH pl Hpg) as (pending & -> & Hpend); [set_solver|]. exists pending. split; [done|]. intros p sl. rewrite Hpend.
    assert (bool_decide (p = new ∧ sl ∈ slots ∧ is_Some (child_at s0 id sl)) =
            bool_decide (p = new ∧ sl ∈ slot :: slots ∧ is_Some (child_at s0 id sl))) as ->; [|done].
    apply bool_decide_ext. rewrite elem_of_cons. split; [naive_solver|]. intros (-> & [->|?] & [x Hx]); [congruence|by split_and!].
Qed.

Lemma plan_load_required_node_see s id node :
  see_node s id = Ok (Some node) → shows s (plan_load_required_node id) (Ok node).
Proof.
  intros Hn. pose proof (shows_call _ _ _ (load_node_shows s id)) as Ha. rewrite Hn in Ha.
  eapply shows_bind; [exact Ha|]. apply (shows_lift (Ok node)).
Qed.

Lemma validate_existing_ok node span kind :
  node_matches CowImmutableTree kind span node → validate_existing_node node CowImmutableTree span kind = Ok tt.
Proof.
  unfold validate_existing_node. intros (-> & -> & -> & -> & ->). rewrite !bool_decide_false by (by intros []).
  by rewrite !Z.eqb_refl.
Qed.

(** Spans above the leaves are of internal nodes. *)
Lemma span_at_level path span : span_at path span → span_level span = geo_root_level g - Z.of_nat (length path).
Proof. intros Hs. by rewrite (descend_level _ _ _ _ Hs). Qed.

Lemma depth_level : Z.of_nat depth = geo_root_level g.
Proof. unfold depth. pose proof Hg as (_ & _ & _ & ? & _). lia. Qed.

Lemma span_at_internal path span : (length path < depth)%nat → span_at path span → expected_kind span = Internal.
Proof.
  intros Hlen Hs. unfold expected_kind. rewrite (span_at_level _ _ Hs). pose proof depth_level.
  destruct (Z.eqb_spec (geo_root_level g - Z.of_nat (length path)) 0); [lia|done].
Qed.

(** The old node at a path above the leaves is loaded and accepted. *)
Lemma load_old_node path span id :
  (length path < depth)%nat → span_at path span → old_at s0 old_root path = Some id →
  ∃ node, shows s0 (plan_load_required_node id) (Ok node) ∧
    validate_existing_node node CowImmutableTree span Internal = Ok tt.
Proof.
  intros Hlen Hs Hold. pose proof (old_subtree path span id ltac:(lia) Hs Hold) as Hsub.
  destruct (subtree_ok_node _ _ _ _ _ Hsub) as (node & Hn & _ & Hm). exists node. split.
  - by apply plan_load_required_node_see.
  - apply validate_existing_ok. by rewrite (span_at_internal path) in Hm by done.
Qed.

(** Every new node whose path the old tree has got the edges of the old node. *)
Definition all_copied (pl : CowTreePublishPlanner) (A : gmap NodeId (list Z)) : Prop :=
  ∀ p pre, A !! p = Some pre → is_Some (old_at s0 old_root pre) → p ∈ pl_copied_parents pl.

Lemma copy_once_inv pl A D new pre id pending :
  plan_inv pl A D → A !! new = Some pre → old_at s0 old_root pre = Some id → new ∉ pl_copied_parents pl →
  (∀ p slot, pending !! (p, slot) =
    if bool_decide (p = new ∧ slot ∈ seqZ 0 32 ∧ is_Some (child_at s0 id slot)) then child_at s0 id slot
    else pl_pending_edges pl !! (p, slot)) →
  plan_inv (pl_with_edges ({[new]} ∪ pl_copied_parents pl) (pl_new_internal_edges pl) pending pl) A D.
Proof.
  intros [Hf Hr Hi Hva Hint Hre Hle Hpe Hsl Hun Hco] Hnew Hold Hnot Hpend.
  destruct (Hun new pre Hnew ltac:(by eexists)) as [?|Hnone]; [done|].
  split; cbn; try done.
  - intros p slot. rewrite Hpend, Hpe. unfold planned_child. cbn.
    destruct (decide (p = new)) as [->|Hne].
    + rewrite Hnew. cbn. destruct (Hnone slot) as [-> ->]. rewrite old_at_snoc, Hold. cbn.
      rewrite (bool_decide_false (new ∈ pl_copied_parents pl ∧ _)) by naive_solver.
      assert (bool_decide (new ∈ {[new]} ∪ pl_copied_parents pl ∧ 0 ≤ slot < 32) = bool_decide (slot ∈ seqZ 0 32)) as ->.
      { apply bool_decide_ext. rewrite elem_of_seqZ, elem_of_union, elem_of_singleton. naive_solver lia. }
      destruct (child_at s0 id slot) as [c|] eqn:Hc.
      * destruct (decide (slot ∈ seqZ 0 32)); [rewrite !bool_decide_true by (repeat split; (done || by eexists)); done|].
        rewrite !bool_decide_false by naive_solver. done.
      * rewrite bool_decide_false by (intros (_ & _ & [? ?]); done). by case_bool_decide.
    + rewrite bool_decide_false by naive_solver. destruct (A !! p) as [pre'|]; [|done]. cbn.
      destruct (_ !! (p, slot)); [done|]. destruct (D !! _); [done|].
      assert (bool_decide (p ∈ {[new]} ∪ pl_copied_parents pl ∧ 0 ≤ slot < 32) =
              bool_decide (p ∈ pl_copied_parents pl ∧ 0 ≤ slot < 32)) as ->; [|done].
      apply bool_decide_ext. rewrite elem_of_union, elem_of_singleton. naive_solver.
  - intros [p slot] c. rewrite Hpend. case_bool_decide as Hb; [|apply Hsl].
    intros _. destruct Hb as (_ & Hs%elem_of_seqZ & _). cbn. lia.
  - intros p pre' Hp Hs. destruct (Hun p pre' Hp Hs); [left; apply elem_of_union; by right|by right].
  - intros p [->%elem_of_singleton|Hp]%elem_of_union; [by rewrite Hnew|by apply Hco].
Qed.

Lemma copy_once_spec pl A D new pre span :
  plan_inv pl A D → records_inv pl A D → A !! new = Some pre → span_at pre span →
  (∀ p q, p ≠ new → A !! p = Some q → is_Some (old_at s0 old_root q) → p ∈ pl_copied_parents pl) →
  ∃ pl', shows s0 (copy_existing_edges_once (old_at s0 old_root pre) new span pl) (Ok pl') ∧
    plan_inv pl' A D ∧ records_inv pl' A D ∧ all_copied pl' A.
Proof.
  intros Hp Hr Hnew Hs Hall. unfold copy_existing_edges_once.
  destruct (old_at s0 old_root pre) as [id|] eqn:Hold.
  2: { exists pl. split; [apply shows_ret|]. split; [done|]. split; [done|]. intros p q Hq Hsome.
       destruct (decide (p = new)) as [->|]; [|by apply (Hall p q)]. rewrite Hnew in Hq. injection Hq as <-. rewrite Hold in Hsome. by destruct Hsome. }
  case_bool_decide as Hin.
  { exists pl. split; [apply shows_ret|]. split; [done|]. split; [done|]. intros p q Hq Hsome.
    destruct (decide (p = new)) as [->|]; [done|by apply (Hall p q)]. }
  destruct (pi_valid _ _ _ Hp new pre Hnew) as [Hlen _]. pose proof (pi_fields _ _ _ Hp) as (Hpg & Hpf & _).
  destruct (load_old_node pre span id Hlen Hs Hold) as (node & Hload & Hval).
  destruct (see_edges_ok pre span id (seqZ 0 32) Hlen Hs Hold) as (l & Hl & Hc).
  destruct (copy_edges_spec id new (seqZ 0 32) (pl_mark_copied new pl)) as (pending & Hcopy & Hpend); [done| |].
  { intros slot Hslot%elem_of_seqZ. lia. }
  eexists. split.
  - eapply shows_bind; [exact Hload|]. rewrite Hval. eapply shows_bind; [apply shows_lift|].
    cbn [pl_geometry pl_mark_copied pl_with_edges]. rewrite Hpg. pose proof Hg as (-> & _).
    pose proof (shows_call _ _ _ (load_edges_shows s0 id (seqZ 0 32))) as Hle. rewrite Hl in Hle. cbn [omapo map_err] in Hle.
    rewrite Hc in Hle. eapply shows_bind; [exact Hle|]. rewrite Hcopy. apply shows_lift.
  - split; [|split].
    + by apply (copy_once_inv pl A D new pre id).
    + by destruct Hr.
    + intros p q Hq Hsome. cbn. apply elem_of_union. destruct (decide (p = new)) as [->|]; [left; by apply elem_of_singleton|right].
      by apply (Hall p q).
Qed.

Lemma span_at_fine path span : Forall (λ slot, 0 ≤ slot < 32) path → span_at path span → span_fine g span.
Proof. intros. by apply (root_descend_fine g Hg path). Qed.

Lemma new_node_ok kind k span : span_fine g span → node_ok (node_record factory kind (ids k) span).
Proof.
  intros (Hl & Hs & Hn). pose proof Hg as (_ & _ & _ & Hlev & _). split; [apply ids_valid|]. split; [cbn; by rewrite export_valid|].
  cbn. unfold u16_max. lia.
Qed.

(** *** New internal nodes *)

Lemma D_above pl A D path slot leaf :
  plan_inv pl A D → D !! (path ++ [slot]) = Some leaf → ∃ p, A !! p = Some path.
Proof.
  intros Hp HD. destruct (pi_leaf _ _ _ Hp _ _ HD) as (_ & _ & pre & sl & p & Heq & Hap).
  apply app_inj_tail in Heq as [-> ->]. eauto.
Qed.

(** A path without a planned edge to it is the path of no new node. *)
Lemma no_addr pl A D p pre slot c :
  plan_inv pl A D → A !! p = Some pre → pl_new_internal_edges pl !! (p, slot) = None → A !! c ≠ Some (pre ++ [slot]).
Proof.
  intros Hp Hap Hn Hc. destruct (pi_reached _ _ _ Hp _ _ _ Hc) as (p' & Hp' & HN).
  rewrite (pi_inj _ _ _ Hp p' p pre) in HN by done. congruence.
Qed.

Lemma new_internal_inv pl A D p pre slot span :
  let c := ids (pl_drawn pl) in
  let pl' := pl_set_internal (p, slot) c (pl_set_pending (p, slot) c
    (pl_push [internal_node factory c span] [] (mkPlanner (pl_geometry pl) (pl_factory pl) (pl_old_root_node_id pl)
       (pl_new_root_node_id pl) (pl_copied_parents pl) (pl_new_internal_edges pl) (pl_pending_edges pl) (pl_records pl)
       (Datatypes.S (pl_drawn pl))))) in
  plan_inv pl A D → records_inv pl A D → A !! p = Some pre → (is_Some (old_at s0 old_root pre) → p ∈ pl_copied_parents pl) →
  0 ≤ slot < 32 → pl_new_internal_edges pl !! (p, slot) = None → (length pre + 1 < depth)%nat → span_at (pre ++ [slot]) span →
  span_fine g span →
  plan_inv pl' (<[c := pre ++ [slot]]> A) D ∧ records_inv pl' (<[c := pre ++ [slot]]> A) D.
Proof.
  intros c pl' Hp Hr Hap Hcop Hslot HN Hlen Hspan Hfine.
  pose proof (next_id_fresh _ _ _ Hp Hr) as Hfr. fold c in Hfr.
  assert (∀ a q, A !! a = Some q → a ≠ c) as Hne by (intros a q Ha ->; congruence).
  assert (∀ a q, A !! a = Some q → <[c := pre ++ [slot]]> A !! a = Some q) as Hmono.
  { intros a q Ha. rewrite lookup_insert_ne by (by symmetry; apply (Hne a q)). done. }
  assert (∀ sl, D !! ((pre ++ [slot]) ++ [sl]) = None) as HDc.
  { intros sl. destruct (D !! _) as [leaf|] eqn:HD; [|done]. destruct (D_above _ _ _ _ _ _ Hp HD) as (p' & Hp').
    by apply (no_addr _ _ _ _ _ _ p' Hp Hap HN) in Hp'. }
  assert (c ∉ pl_copied_parents pl) as Hcc by (intros [q Hq]%(pi_copied _ _ _ Hp); congruence).
  pose proof Hp as [Hf Hroot Hi Hva Hint Hre Hle Hpe Hsl Hun Hco]. split.
  - split; cbn.
    + done.
    + by apply Hmono.
    + intros a b q. rewrite !lookup_insert_Some. intros [[<- <-]|[_ Ha]] [[<- Hq]|[_ Hb]]; [done| | |by apply (Hi a b q)].
      * by apply (no_addr _ _ _ _ _ _ b Hp Hap HN) in Hb.
      * rewrite <-Hq in Ha. by apply (no_addr _ _ _ _ _ _ a Hp Hap HN) in Ha.
    + intros a q. rewrite lookup_insert_Some. intros [[<- <-]|[_ Ha]]; [|by apply (Hva a)].
      rewrite length_app. cbn. split; [lia|eauto].
    + intros q sl x. rewrite lookup_insert_Some. intros [[[= <- <-] <-]|[_ Hx]].
      * exists pre. split; [by apply Hmono|]. by rewrite lookup_insert_eq.
      * destruct (Hint _ _ _ Hx) as (pre' & ? & ?). exists pre'. split; by apply Hmono.
    + intros x pre' sl. rewrite lookup_insert_Some. intros [[<- Hq]|[_ Hx]].
      * apply app_inj_tail in Hq as [<- <-]. exists p. split; [by apply Hmono|]. by rewrite lookup_insert_eq.
      * destruct (Hre _ _ _ Hx) as (p' & Hp' & HN'). exists p'. split; [by apply Hmono|].
        rewrite lookup_insert_ne; [done|]. intros [= <- <-]. congruence.
    + intros path leaf HD. destruct (Hle _ _ HD) as (? & ? & pre' & sl & p' & ? & ?). split; [done|]. split; [done|].
      exists pre', sl, p'. split; [done|]. by apply Hmono.
    + intros q sl. unfold planned_child. cbn. destruct (decide ((q, sl) = (p, slot))) as [[= -> ->]|Hqs].
      { rewrite lookup_insert_eq, (Hmono _ _ Hap). cbn. by rewrite lookup_insert_eq. }
      rewrite lookup_insert_ne, Hpe by done. unfold planned_child. rewrite (lookup_insert_ne (pl_new_internal_edges pl)) by done.
      destruct (decide (q = c)) as [->|Hqc].
      * rewrite lookup_insert_eq, Hfr. cbn. rewrite (next_id_no_edges _ _ _ _ Hp Hr), HDc.
        rewrite bool_decide_false by naive_solver. done.
      * rewrite lookup_insert_ne by done. done.
    + intros k x. rewrite lookup_insert_Some. intros [[<- _]|[_ Hx]]; [done|by apply (Hsl k x)].
    + intros q pre'. rewrite lookup_insert_Some. intros [[<- <-]|[Hqc Hq]] Hsome.
      * right. intros sl. split; [|apply HDc]. rewrite lookup_insert_ne by (intros [= Hx _]; by apply (Hne p pre)).
        apply (next_id_no_edges _ _ _ _ Hp Hr).
      * destruct (decide (q = p)) as [->|Hqp].
        -- left. apply Hcop. rewrite Hap in Hq. by injection Hq as <-.
        -- destruct (Hun q pre' Hq Hsome) as [?|Hnone]; [by left|right]. intros sl. destruct (Hnone sl). split; [|done].
           rewrite lookup_insert_ne by (intros [=]; done). done.
    + intros q Hq. destruct (Hco q Hq) as [pre' Hq']. exists pre'. by apply Hmono.
  - destruct Hr as [Hids Hed Had Hlf Hnok Hlok Hlids]. split; cbn.
    + change (tn_id <$> (tb_nodes (pl_records pl) ++ [internal_node factory c span]) = ids <$> seq 0 (Datatypes.S (pl_drawn pl))).
      rewrite fmap_app, Hids, seq_S, fmap_app. done.
    + done.
    + intros a q sp Ha Hsp. apply elem_of_app. apply lookup_insert_Some in Ha as [[<- <-]|[_ Ha]]; [right|left; by apply (Had a q)].
      unfold span_at in *. rewrite Hspan in Hsp. injection Hsp as <-. by left.
    + intros path leaf key sp HD Hsp. destruct (Hlf _ _ _ _ HD Hsp) as [? ?]. split; apply elem_of_app; by left.
    + intros n [Hn|Hn]%elem_of_app; [by apply Hnok|]. apply list_elem_of_singleton in Hn as ->. by apply new_node_ok.
    + intros l [Hl|Hl]%elem_of_app; [by apply Hlok|]. by apply not_elem_of_nil in Hl.
    + intros l [Hl|Hl]%elem_of_app; [|by apply not_elem_of_nil in Hl]. rewrite fmap_app. apply elem_of_app. left. by apply Hlids.
Qed.

Lemma plan_internal_spec pl A D p pre slot span :
  plan_inv pl A D → records_inv pl A D → all_copied pl A → A !! p = Some pre → 0 ≤ slot < 32 →
  (length pre + 1 < depth)%nat → span_at (pre ++ [slot]) span → span_fine g span →
  ∃ c pl' A', shows s0 (plan_internal ids (old_at s0 old_root (pre ++ [slot])) span (p, slot) pl) (Ok (c, pl')) ∧
    plan_inv pl' A' D ∧ records_inv pl' A' D ∧ A' !! c = Some (pre ++ [slot]) ∧
    ∀ q q', q ≠ c → A' !! q = Some q' → is_Some (old_at s0 old_root q') → q ∈ pl_copied_parents pl'.
Proof.
  intros Hp Hr Hall Hap Hslot Hlen Hspan Hfine. unfold plan_internal.
  destruct (pl_new_internal_edges pl !! (p, slot)) as [c|] eqn:HN.
  { exists c, pl, A. split; [apply shows_ret|]. split; [done|]. split; [done|].
    destruct (pi_internal _ _ _ Hp _ _ _ HN) as (pre' & Hp' & Hc). rewrite Hap in Hp'. injection Hp' as <-.
    split; [done|]. intros q q' _ Hq Hs. by apply (Hall q q'). }
  set (c := ids (pl_drawn pl)).
  destruct (new_internal_inv pl A D p pre slot span Hp Hr Hap (Hall p pre Hap) Hslot HN Hlen Hspan Hfine) as [Hp' Hr'].
  fold c in Hp', Hr'. eexists c, _, _. split; [|split; [exact Hp'|split; [exact Hr'|split]]].
  - eapply shows_bind with (a := tt).
    + destruct (old_at s0 old_root (pre ++ [slot])) as [id|] eqn:Hold; [|apply shows_ret].
      destruct (load_old_node (pre ++ [slot]) span id ltac:(rewrite length_app; cbn; lia) Hspan Hold) as (node & Hload & Hval).
      eapply shows_bind; [exact Hload|]. rewrite Hval. apply shows_lift.
    + unfold generated_node_id, node_id_of. rewrite ids_valid. cbn [obind].
      eapply shows_bind; [apply shows_lift|]. destruct (pi_fields _ _ _ Hp) as (_ & Hpf & _).
      cbn [pl_factory]. rewrite Hpf. apply shows_ret.
  - by rewrite lookup_insert_eq.
  - intros q q' Hqc Hq Hs. rewrite lookup_insert_ne in Hq by done. cbn. by apply (Hall q q').
Qed.

(** *** New leaves *)

Lemma plan_leaf_spec pl A D p pre slot span chunk :
  plan_inv pl A D → records_inv pl A D → all_copied pl A → A !! p = Some pre → 0 ≤ slot < 32 →
  (length pre + 1 = depth)%nat → span_at (pre ++ [slot]) span → span_fine g span →
  BlobKey_new (cc_blob_key chunk) = Ok (cc_blob_key chunk) →
  ∃ pl' leaf, plan_leaf ids chunk span (p, slot) pl = Ok pl' ∧
    plan_inv pl' A (<[pre ++ [slot] := (leaf, cc_blob_key chunk)]> D) ∧
    records_inv pl' A (<[pre ++ [slot] := (leaf, cc_blob_key chunk)]> D) ∧ all_copied pl' A.
Proof.
  intros Hp Hr Hall Hap Hslot Hlen Hspan Hfine Hkey. pose proof Hp as [Hf Hroot Hi Hva Hint Hre Hle Hpe Hsl Hun Hco].
  set (c := ids (pl_drawn pl)). set (key := cc_blob_key chunk) in *.
  pose proof Hf as (Hpg & Hpf & _).
  assert (pl_new_internal_edges pl !! (p, slot) = None) as HN.
  { destruct (_ !! (p, slot)) as [x|] eqn:Hx; [|done]. destruct (Hint _ _ _ Hx) as (pre' & Hp' & Hc).
    rewrite Hap in Hp'. injection Hp' as <-. destruct (Hva _ _ Hc) as [Hl _]. rewrite length_app in Hl. cbn in Hl. lia. }
  assert (∀ q pre' sl, A !! q = Some pre' → pre' ++ [sl] = pre ++ [slot] → q = p ∧ sl = slot) as Hkeyeq.
  { intros q pre' sl Hq [-> ->]%app_inj_tail. split; [by apply (Hi q p pre)|done]. }
  eexists _, c. split; [|split; [|split]].
  - unfold plan_leaf, generated_node_id, node_id_of. rewrite ids_valid. cbn [obind pl_factory]. rewrite Hpf. reflexivity.
  - split; cbn; try done.
    + by destruct Hf as (? & _ & ? & ?).
    + intros path leaf. rewrite lookup_insert_Some. intros [[<- <-]|[_ HD]]; [|by apply (Hle path leaf)].
      split; [rewrite length_app; cbn; lia|]. split; [eauto|]. by exists pre, slot, p.
    + intros q sl. unfold planned_child. cbn. destruct (decide ((q, sl) = (p, slot))) as [[= -> ->]|Hqs].
      { rewrite lookup_insert_eq, Hap. cbn. rewrite HN, lookup_insert_eq. done. }
      rewrite lookup_insert_ne, Hpe by done. unfold planned_child. destruct (A !! q) as [pre'|] eqn:Hq; [|done]. cbn.
      destruct (_ !! (q, sl)); [done|]. rewrite lookup_insert_ne; [done|]. intros Heq.
      destruct (Hkeyeq q pre' sl Hq (eq_sym Heq)) as [-> ->]. done.
    + intros k x. rewrite lookup_insert_Some. intros [[<- _]|[_ Hx]]; [done|by apply (Hsl k x)].
    + intros q pre' Hq Hs. left. by apply (Hall q pre').
  - destruct Hr as [Hids Hed Had Hlf Hnok Hlok Hlids]. split; cbn.
    + change (tn_id <$> (tb_nodes (pl_records pl) ++ [leaf_node factory c span]) = ids <$> seq 0 (Datatypes.S (pl_drawn pl))).
      rewrite fmap_app, Hids, seq_S, fmap_app. done.
    + done.
    + intros a q sp Ha Hsp. apply elem_of_app. left. by apply (Had a q).
    + intros path leaf k sp. rewrite lookup_insert_Some. intros [[<- [= <- <-]]|[_ HD]] Hsp.
      * unfold span_at in *. rewrite Hspan in Hsp. injection Hsp as <-. split; apply elem_of_app; right; by left.
      * destruct (Hlf _ _ _ _ HD Hsp) as [? ?]. split; apply elem_of_app; by left.
    + intros n [Hn|Hn]%elem_of_app; [by apply Hnok|]. apply list_elem_of_singleton in Hn as ->. by apply new_node_ok.
    + intros l [Hl|Hl]%elem_of_app; [by apply Hlok|]. apply list_elem_of_singleton in Hl as ->.
      split; [apply ids_valid|]. split; [done|]. cbn. pose proof Hg as (_ & -> & _). by rewrite chunk_bytes_value.
    + intros l Hl. rewrite fmap_app. apply elem_of_app. apply elem_of_app in Hl as [Hl|Hl]; [left; by apply Hlids|right].
      apply list_elem_of_singleton in Hl as ->. by left.
  - intros q pre' Hq Hs. cbn. by apply (Hall q pre').
Qed.

(** *** A whole path *)

Lemma plan_load_child_edge_see p slot path span :
  (length path < depth)%nat → span_at path span → old_at s0 old_root path = Some p →
  shows s0 (let! edge := plan_load_child_edge p slot in mret (te_child_node_id <$> edge))
    (Ok (old_at s0 old_root (path ++ [slot]))).
Proof.
  intros Hlen Hs Hold. rewrite old_at_snoc, Hold. cbn [mbind option_bind].
  pose proof (old_subtree path span p ltac:(lia) Hs Hold) as Hsub.
  destruct (depth - length path)%nat as [|m] eqn:Hm; [lia|]. destruct Hsub as (node & _ & _ & _ & Hedges).
  pose proof (shows_call _ _ _ (load_edges_shows s0 p [slot])) as Ha. cbn in Ha.
  unfold child_at. destruct (Hedges slot) as [He|(c & He & _)]; rewrite He in *; cbn in Ha.
  - eapply shows_bind; [eapply shows_bind; [exact Ha|]; cbn; apply (shows_ret None)|]. apply (shows_ret None).
  - eapply shows_bind; [eapply shows_bind; [exact Ha|]; cbn|].
    + rewrite bool_decide_false, Z.eqb_refl by (by intros []). apply (shows_ret (Some _)).
    + cbn. apply (shows_ret (Some _)).
Qed.

Lemma plan_path_spec chunk slots : ∀ pl A D new pre span lspan,
  plan_inv pl A D → records_inv pl A D → all_copied pl A → A !! new = Some pre → span_at pre span →
  slots ≠ [] → (length pre + length slots = depth)%nat → span_at (pre ++ slots) lspan →
  Forall (λ slot, 0 ≤ slot < 32) (pre ++ slots) → BlobKey_new (cc_blob_key chunk) = Ok (cc_blob_key chunk) →
  ∃ pl' A' leaf, shows s0 (plan_path ids chunk slots (old_at s0 old_root pre) new span pl) (Ok pl') ∧
    plan_inv pl' A' (<[pre ++ slots := (leaf, cc_blob_key chunk)]> D) ∧
    records_inv pl' A' (<[pre ++ slots := (leaf, cc_blob_key chunk)]> D) ∧ all_copied pl' A'.
Proof.
  induction slots as [|slot slots IH]; intros pl A D new pre span lspan Hp Hr Hall Hnew Hs Hne Hlen Hls Hpos Hkey; [done|].
  assert (pre ++ slot :: slots = (pre ++ [slot]) ++ slots) as Heq by (by rewrite <-app_assoc).
  rewrite Heq in *. destruct (descend_app _ _ _ _ _ Hls) as (cspan & Hcs & _).
  assert (child_span g span slot = Ok cspan) as Hchild.
  { destruct (descend_app _ _ _ _ _ Hcs) as (sp & Hsp & Hc). unfold span_at in Hs. rewrite Hs in Hsp. injection Hsp as <-.
    cbn [descend] in Hc. by apply obind_ok in Hc as (x & Hx & [= <-]). }
  pose proof Hpos as Hpos0. apply Forall_app in Hpos as [Hpos1 _]. pose proof (span_at_fine _ _ Hpos1 Hcs) as Hfine.
  assert (0 ≤ slot < 32) as Hslot by (apply Forall_app in Hpos1 as [_ H1]; by apply Forall_cons in H1 as [? _]).
  pose proof (span_at_level _ _ Hcs) as Hclev. rewrite length_app in Hclev. cbn [length] in *.
  destruct (pi_fields _ _ _ Hp) as (Hpg & Hpf & _). pose proof depth_level as Hdl.
  assert (shows s0 (match old_at s0 old_root pre with
      | Some parent => let! edge := plan_load_child_edge parent slot in mret (te_child_node_id <$> edge)
      | None => mret None
      end) (Ok (old_at s0 old_root (pre ++ [slot])))) as Hedge.
  { destruct (old_at s0 old_root pre) as [id|] eqn:Hold.
    - apply (plan_load_child_edge_see id slot pre span); [lia|done|done].
    - rewrite old_at_snoc, Hold. apply shows_ret. }
  cbn [plan_path]. rewrite Hpg, Hchild. destruct (Z.eqb_spec (span_level cspan) 0) as [Hz|Hnz].
  - assert (slots = []) as -> by (destruct slots; [done|cbn in Hlen; lia]). rewrite app_nil_r in *.
    destruct (plan_leaf_spec pl A D new pre slot cspan chunk Hp Hr Hall Hnew Hslot ltac:(cbn in Hlen; lia) Hcs Hfine Hkey)
      as (pl' & leaf & Hrun & Hp' & Hr' & Hall').
    exists pl', A, leaf. split; [|done]. eapply shows_bind; [apply shows_lift|]. eapply shows_bind; [exact Hedge|].
    rewrite (proj2 (Z.eqb_eq _ _)) by done. rewrite Hrun. apply shows_lift.
  - assert (slots ≠ []) as Hne' by (intros ->; cbn in Hlen; lia).
    assert (length pre + 1 < depth)%nat as Hlt by (destruct slots; [done|cbn in Hlen; lia]).
    destruct (plan_internal_spec pl A D new pre slot cspan Hp Hr Hall Hnew Hslot Hlt Hcs Hfine)
      as (c & pl1 & A1 & Ha1 & Hp1 & Hr1 & Hc1 & Hall1).
    destruct (copy_once_spec pl1 A1 D c (pre ++ [slot]) cspan Hp1 Hr1 Hc1 Hcs Hall1) as (pl2 & Ha2 & Hp2 & Hr2 & Hall2).
    destruct (IH pl2 A1 D c (pre ++ [slot]) cspan lspan Hp2 Hr2 Hall2 Hc1 Hcs Hne') as (pl3 & A3 & leaf & Ha3 & Hrest);
      [rewrite length_app; cbn; lia|done|done|done|].
    exists pl3, A3, leaf. split; [|done]. eapply shows_bind; [apply shows_lift|]. eapply shows_bind; [exact Hedge|].
    rewrite (proj2 (Z.eqb_neq _ _)) by done. eapply shows_bind; [exact Ha1|]. cbn. eapply shows_bind; [exact Ha2|exact Ha3].
Qed.

(** *** A list of chunks *)

Definition chunk_valid (i : ChunkIndex) : Prop := 0 ≤ i ∧ i * TREE_CHUNK_BYTES < geo_size_bytes g.

Definition chunk_ref_ok (chunk : CowChunkRef) : Prop :=
  chunk_valid (cc_chunk_index chunk) ∧ BlobKey_new (cc_blob_key chunk) = Ok (cc_blob_key chunk).

Lemma plan_chunk_spec chunk pl A D :
  plan_inv pl A D → records_inv pl A D → chunk_ref_ok chunk →
  (∀ p q, p ≠ ids O → A !! p = Some q → is_Some (old_at s0 old_root q) → p ∈ pl_copied_parents pl) →
  ∃ pl' A' leaf, shows s0 (plan_chunk ids chunk pl) (Ok pl') ∧
    plan_inv pl' A' (<[chunk_slots g (cc_chunk_index chunk) := (leaf, cc_blob_key chunk)]> D) ∧
    records_inv pl' A' (<[chunk_slots g (cc_chunk_index chunk) := (leaf, cc_blob_key chunk)]> D) ∧ all_copied pl' A'.
Proof.
  intros Hp Hr [[Hi Hlt] Hkey] Hall. set (i := cc_chunk_index chunk) in *.
  pose proof (pi_fields _ _ _ Hp) as (Hpg & _ & Hpo & Hpn). pose proof (pi_root _ _ _ Hp) as Hroot.
  assert (old_root = old_at s0 old_root []) as Hold by (unfold old_at; by destruct old_root).
  assert (span_at [] (root_span g)) as Hs0 by done.
  destruct (copy_once_spec pl A D (ids O) [] (root_span g) Hp Hr Hroot Hs0 Hall) as (pl1 & Ha1 & Hp1 & Hr1 & Hall1).
  pose proof (chunk_slots_length g i) as Hlen. pose proof Hg as (_ & _ & _ & Hlev & _).
  destruct (plan_path_spec chunk (chunk_slots g i) pl1 A D (ids O) [] (root_span g) (nth_span g 0 i) Hp1 Hr1 Hall1 Hroot Hs0)
    as (pl2 & A2 & leaf & Ha2 & Hrest).
  - intros Hnil. rewrite Hnil in Hlen. cbn in Hlen. lia.
  - exact Hlen.
  - by apply descend_root.
  - apply chunk_slots_range.
  - exact Hkey.
  - exists pl2, A2, leaf. split; [|exact Hrest]. unfold plan_chunk. rewrite Hpg, Hpo, Hpn. fold i.
    rewrite path_for_chunk_ok by done. eapply shows_bind; [apply shows_lift|]. cbn [tp_slots].
    rewrite <-Hold in Ha1, Ha2. eapply shows_bind; [exact Ha1|exact Ha2].
Qed.

Lemma chunk_slots_inj i j : chunk_valid i → chunk_valid j → chunk_slots g i = chunk_slots g j → i = j.
Proof.
  intros [Hi1 Hi2] [Hj1 Hj2] Heq. pose proof (descend_root g i Hg Hi1 Hi2) as Hdi. pose proof (descend_root g j Hg Hj1 Hj2) as Hdj.
  rewrite Heq, Hdj in Hdi. injection Hdi as Hs _. unfold level_bytes in Hs. rewrite chunk_bytes_value in Hs. lia.
Qed.

Lemma plan_each_spec chunks : ∀ pl A D,
  plan_inv pl A D → records_inv pl A D → Forall chunk_ref_ok chunks → NoDup (cc_chunk_index <$> chunks) → chunks ≠ [] →
  (∀ p q, p ≠ ids O → A !! p = Some q → is_Some (old_at s0 old_root q) → p ∈ pl_copied_parents pl) →
  ∃ pl' A' D', shows s0 (plan_each ids chunks pl) (Ok pl') ∧ plan_inv pl' A' D' ∧ records_inv pl' A' D' ∧ all_copied pl' A' ∧
    (∀ c, c ∈ chunks → ∃ leaf, D' !! chunk_slots g (cc_chunk_index c) = Some (leaf, cc_blob_key c)) ∧
    ∀ path, (∀ c, c ∈ chunks → path ≠ chunk_slots g (cc_chunk_index c)) → D' !! path = D !! path.
Proof.
  induction chunks as [|chunk chunks IH]; intros pl A D Hp Hr Hok Hnd Hne Hall; [done|].
  apply Forall_cons in Hok as [Hc Hok]. rewrite fmap_cons in Hnd. apply NoDup_cons in Hnd as [Hnotin Hnd].
  destruct (plan_chunk_spec chunk pl A D Hp Hr Hc Hall) as (pl1 & A1 & leaf & Ha1 & Hp1 & Hr1 & Hall1).
  destruct (decide (chunks = [])) as [->|Hne'].
  { exists pl1, A1, (<[chunk_slots g (cc_chunk_index chunk) := (leaf, cc_blob_key chunk)]> D). cbn [plan_each].
    split; [eapply shows_bind; [exact Ha1|apply shows_ret]|]. split; [done|]. split; [done|]. split; [done|]. split.
    - intros c ->%list_elem_of_singleton. exists leaf. by rewrite lookup_insert_eq.
    - intros path Hpath. rewrite lookup_insert_ne; [done|]. intros Heq. by apply (Hpath chunk ltac:(by left)). }
  destruct (IH pl1 A1 _ Hp1 Hr1 Hok Hnd Hne') as (pl2 & A2 & D2 & Ha2 & Hp2 & Hr2 & Hall2 & Hin & Hout).
  { intros p q _. by apply Hall1. }
  exists pl2, A2, D2. cbn [plan_each]. split; [eapply shows_bind; [exact Ha1|exact Ha2]|]. split; [done|]. split; [done|].
  split; [done|]. split.
  - intros c [->|Hc']%elem_of_cons; [|by apply Hin]. exists leaf. rewrite Hout; [by rewrite lookup_insert_eq|].
    intros c' Hc' Heq. apply Hnotin, list_elem_of_fmap. exists c'. split; [|done].
    rewrite Forall_forall in Hok. by apply chunk_slots_inj in Heq; [|apply Hc|apply (Hok c' Hc')].
  - intros path Hpath. rewrite Hout by (intros; apply Hpath; by right). rewrite lookup_insert_ne; [done|].
    intros Heq. by apply (Hpath chunk ltac:(by left)).
Qed.

Lemma planner_new_spec :
  ∃ pl, CowTreePublishPlanner_new ids g export_id old_root = Ok pl ∧ plan_inv pl {[ids O := []]} ∅ ∧
    records_inv pl {[ids O := []]} ∅.
Proof.
  unfold CowTreePublishPlanner_new, node_id_of. rewrite ids_valid. cbn [obind]. eexists. split; [reflexivity|].
  pose proof Hg as (_ & _ & _ & Hlev & _). split.
  - split; cbn; try done.
    + by rewrite lookup_singleton_eq.
    + by intros a b p [<- <-]%lookup_singleton_Some [<- _]%lookup_singleton_Some.
    + intros a p [<- <-]%lookup_singleton_Some. cbn. split; [unfold depth; lia|by eexists].
    + intros c pre slot [_ Hx]%lookup_singleton_Some. by destruct pre.
    + intros p slot. unfold planned_child. rewrite lookup_empty. cbn. destruct (decide (p = ids O)) as [->|Hne].
      * rewrite lookup_singleton_eq. cbn. rewrite bool_decide_false; [done|]. intros [Hx _]. by apply not_elem_of_empty in Hx.
      * by rewrite lookup_singleton_ne by done.
    + intros p pre _ _. right. intros slot. by rewrite !lookup_empty.
  - split; cbn; try done.
    + intros a p span [<- <-]%lookup_singleton_Some [= <-]. by left.
    + intros n ->%list_elem_of_singleton. apply new_node_ok. unfold span_fine. cbn. pose proof Hg as (_ & _ & ? & _). lia.
    + intros l Hl. by apply not_elem_of_nil in Hl.
    + intros l Hl. by apply not_elem_of_nil in Hl.
Qed.

(** *** The rows of the plan *)

Lemma planned_child_valid pl A D p slot c :
  plan_inv pl A D → records_inv pl A D → planned_child A D pl p slot = Some c → NodeId_new c = Ok c.
Proof.
  intros Hp Hr Hc. unfold planned_child in Hc. destruct (A !! p) as [pre|] eqn:Hap; [|done]. cbn in Hc.
  destruct (_ !! (p, slot)) as [x|] eqn:HN.
  { injection Hc as ->. destruct (pi_internal _ _ _ Hp _ _ _ HN) as (pre' & _ & Hac).
    destruct (addr_drawn _ _ _ _ _ Hp Hr Hac) as (k & _ & ->). apply ids_valid. }
  destruct (D !! (pre ++ [slot])) as [[leaf key]|] eqn:HD.
  { injection Hc as ->. destruct (pi_leaf _ _ _ Hp _ _ HD) as (_ & [span Hs] & _).
    destruct (ri_leaf _ _ _ Hr _ _ _ _ HD Hs) as [Hn _]. destruct (records_drawn _ _ _ _ Hr Hn) as (k & _ & Hk).
    cbn in Hk. rewrite Hk. apply ids_valid. }
  case_bool_decide; [|done]. rewrite old_at_snoc in Hc. destruct (old_at s0 old_root pre) as [id|]; [|done]. cbn in Hc.
  unfold child_at in Hc. destruct (see_edge s0 id slot) as [[e|]| |] eqn:He; [|done..]. injection Hc as <-.
  by destruct (law_edge_child _ _ _ _ He) as (_ & _ & ?).
Qed.

Lemma pending_rows_spec pl A D :
  plan_inv pl A D → records_inv pl A D →
  ∃ rows, pending_rows pl = Ok rows ∧
    ∀ e, e ∈ rows ↔ planned_child A D pl (te_parent_node_id e) (te_slot e) = Some (te_child_node_id e).
Proof.
  intros Hp Hr. unfold pending_rows.
  assert (∀ x, x ∈ map_to_list (pl_pending_edges pl) → NodeId_new x.1.1 = Ok x.1.1) as Hvalid.
  { intros [[p slot] c] Hx%elem_of_map_to_list. cbn. rewrite (pi_pending _ _ _ Hp) in Hx. unfold planned_child in Hx.
    destruct (A !! p) as [pre|] eqn:Hap; [|done]. destruct (addr_drawn _ _ _ _ _ Hp Hr Hap) as (k & _ & ->). apply ids_valid. }
  rewrite (try_map_ok _ (λ x, mkTreeEdge x.1.1 x.1.2 x.2)).
  2: { intros [[p slot] c] Hx. specialize (Hvalid _ Hx). cbn in Hvalid |- *. rewrite Hvalid. done. }
  eexists. split; [reflexivity|]. intros e. rewrite list_elem_of_fmap. split.
  - intros ([[p slot] c] & -> & Hx%elem_of_map_to_list). cbn. by rewrite <-(pi_pending _ _ _ Hp).
  - intros Hc. exists ((te_parent_node_id e, te_slot e), te_child_node_id e). split; [by destruct e|].
    apply elem_of_map_to_list. by rewrite (pi_pending _ _ _ Hp).
Qed.

(** *** Trees in the published store *)

(** New rows hang off new nodes. *)
Definition closed_batch (b : TreeRecordBatch) : Prop :=
  (∀ e, e ∈ tb_edges b → te_parent_node_id e ∈ tn_id <$> tb_nodes b) ∧
  ∀ l, l ∈ tb_leaf_refs b → tl_node_id l ∈ tn_id <$> tb_nodes b.

Lemma published_old_node (s1 s2 : S) b id node :
  published_view s1 s2 b → closed_batch b → see_node s1 id = Ok (Some node) →
  see_node s2 id = Ok (Some node) ∧ (∀ slot, see_edge s2 id slot = see_edge s1 id slot) ∧
  see_leaf_ref s2 id = see_leaf_ref s1 id.
Proof.
  intros Hv [Hce Hcl] Hn. assert (id ∉ tn_id <$> tb_nodes b) as Hnot.
  { intros (n & -> & Hin)%list_elem_of_fmap. rewrite (pv_fresh_node _ _ _ Hv n Hin) in Hn. done. }
  split; [by rewrite (pv_old_node _ _ _ Hv)|]. split.
  - intros slot. apply (pv_old_edge _ _ _ Hv). intros (e & Heq & Hin)%list_elem_of_fmap. injection Heq as -> ->.
    by apply Hnot, Hce.
  - apply (pv_old_leaf_ref _ _ _ Hv). intros (l & -> & Hin)%list_elem_of_fmap. by apply Hnot, Hcl.
Qed.

(** A tree of the old store is as it was. *)
Lemma published_subtree (s1 s2 : S) b rd0 n : ∀ span id,
  published_view s1 s2 b → closed_batch b → subtree_ok rd0 s1 n span id → subtree_ok rd0 s2 n span id.
Proof.
  induction n as [|n IH]; intros span id Hv Hcl (node & Hn & Hid & Hm & Hrest); exists node;
    destruct (published_old_node _ _ _ _ _ Hv Hcl Hn) as (Hn' & He & Hl);
    (split; [done|]); (split; [done|]); (split; [done|]); [by rewrite Hl|].
  intros slot. rewrite He. destruct (Hrest slot) as [?|(c & ? & Hc)]; [by left|right]. exists c. split; [done|].
  intros span' Hs. apply IH; auto.
Qed.

Lemma published_find (s1 s2 : S) b rd0 slots : ∀ span id span',
  published_view s1 s2 b → closed_batch b → subtree_ok rd0 s1 (length slots) span id →
  descend (rd_geometry rd0) span slots = Ok span' → find_node s2 id slots = find_node s1 id slots.
Proof.
  induction slots as [|slot slots IH]; intros span id span' Hv Hcl Hsub Hd; [done|].
  destruct Hsub as (node & Hn & _ & _ & Hedges). destruct (published_old_node _ _ _ _ _ Hv Hcl Hn) as (_ & He & _).
  cbn [find_node]. rewrite He. cbn [descend] in Hd. apply obind_ok in Hd as (sp & Hc & Hd).
  destruct (Hedges slot) as [->|(c & -> & Hsub)]; [done|]. cbn. by apply (IH sp c span'); auto.
Qed.

(** *** The new tree *)

(** New nodes are closed under taking prefixes of their paths. *)
Lemma addr_prefix pl A D path' : ∀ path a,
  plan_inv pl A D → A !! a = Some (path ++ path') → ∃ b, A !! b = Some path.
Proof.
  induction path' as [|x path' IH] using rev_ind; intros path a Hp Ha; [rewrite app_nil_r in Ha; eauto|].
  rewrite app_assoc in Ha. destruct (pi_reached _ _ _ Hp _ _ _ Ha) as (p & Hp' & _). by apply (IH path p).
Qed.

(** No leaf is planned below a slot that has no planned edge. *)
Lemma no_leaf_below pl A D p pre slot rest :
  plan_inv pl A D → A !! p = Some pre → pl_new_internal_edges pl !! (p, slot) = None → D !! (pre ++ [slot]) = None →
  D !! (pre ++ slot :: rest) = None.
Proof.
  intros Hp Hap HN HD. destruct rest as [|x rest] using rev_ind; [done|]. clear IHrest.
  destruct (D !! (pre ++ slot :: rest ++ [x])) as [leaf|] eqn:Hleaf; [|done].
  rewrite app_comm_cons, app_assoc in Hleaf. destruct (D_above _ _ _ _ _ _ Hp Hleaf) as (a & Ha).
  replace (pre ++ slot :: rest) with ((pre ++ [slot]) ++ rest) in Ha by (by rewrite <-app_assoc).
  destruct (addr_prefix _ _ _ _ _ _ Hp Ha) as (b & Hb). by apply (no_addr _ _ _ _ _ _ b Hp Hap HN) in Hb.
Qed.

(** Where nothing is planned, the planned child is the old one. *)
Lemma planned_old pl A D p pre slot :
  plan_inv pl A D → all_copied pl A → A !! p = Some pre → 0 ≤ slot < 32 →
  pl_new_internal_edges pl !! (p, slot) = None → D !! (pre ++ [slot]) = None →
  planned_child A D pl p slot = old_at s0 old_root (pre ++ [slot]).
Proof.
  intros Hp Hall Hap Hslot HN HD. unfold planned_child. rewrite Hap. cbn. rewrite HN, HD. rewrite old_at_snoc.
  destruct (old_at s0 old_root pre) as [id|] eqn:Hold; [|by case_bool_decide].
  by rewrite bool_decide_true by (split; [apply (Hall p pre Hap); by eexists|done]).
Qed.

Section published.
Context (pl : CowTreePublishPlanner) (A : gmap NodeId (list Z)) (D : gmap (list Z) (NodeId * BlobKey)) (s1 : S).
Context (rows : list TreeEdgeRecord).
Let batch := mkTreeBatch (tb_nodes (pl_records pl)) rows (tb_leaf_refs (pl_records pl)).
Context (Hp : plan_inv pl A D) (Hr : records_inv pl A D) (Hall : all_copied pl A).
Context (Hrows : ∀ e, e ∈ rows ↔ planned_child A D pl (te_parent_node_id e) (te_slot e) = Some (te_child_node_id e)).
Context (Hpub : published_view s0 s1 batch).

Lemma addr_node a p : A !! a = Some p → a ∈ tn_id <$> tb_nodes (pl_records pl).
Proof.
  intros Ha. destruct (pi_valid _ _ _ Hp a p Ha) as [_ [span Hs]]. apply list_elem_of_fmap.
  exists (internal_node factory a span). split; [done|]. by apply (ri_addr _ _ _ Hr a p).
Qed.

Lemma plan_closed : closed_batch batch.
Proof.
  split; cbn.
  - intros e He%Hrows. unfold planned_child in He. destruct (A !! te_parent_node_id e) as [pre|] eqn:Ha; [|done]. by apply (addr_node _ pre).
  - apply (ri_leaf_ids _ _ _ Hr).
Qed.

Lemma plan_batch_ok : batch_ok batch.
Proof.
  split; [apply (ri_nodes_ok _ _ _ Hr)|]. split; [|apply (ri_leaf_refs_ok _ _ _ Hr)].
  intros e He%Hrows. pose proof (planned_child_valid _ _ _ _ _ _ Hp Hr He) as Hc.
  pose proof He as Hpend. rewrite <-(pi_pending _ _ _ Hp) in Hpend. pose proof (pi_slots _ _ _ Hp _ _ Hpend) as Hs. cbn in Hs.
  split; [|split; [unfold u16_max; lia|done]].
  unfold planned_child in He. destruct (A !! te_parent_node_id e) as [pre|] eqn:Ha; [|done].
  destruct (addr_drawn _ _ _ _ _ Hp Hr Ha) as (k & _ & ->). apply ids_valid.
Qed.

(** The edges of a new node. *)
Lemma see_new_edge p pre slot :
  A !! p = Some pre → see_edge s1 p slot = Ok (mkTreeEdge p slot <$> planned_child A D pl p slot).
Proof.
  intros Ha. destruct (planned_child A D pl p slot) as [c|] eqn:Hc; cbn.
  - by apply (pv_edge _ _ _ Hpub (mkTreeEdge p slot c)), Hrows.
  - rewrite (pv_old_edge _ _ _ Hpub).
    + pose proof (addr_node p pre Ha) as (n & -> & Hn)%list_elem_of_fmap. by apply (pv_fresh_edge _ _ _ Hpub).
    + intros (e & Heq & He%Hrows)%list_elem_of_fmap. injection Heq as -> ->. congruence.
Qed.

Lemma new_find slots : ∀ p pre lspan,
  A !! p = Some pre → (length pre + length slots = depth)%nat → Forall (λ slot, 0 ≤ slot < 32) slots →
  span_at (pre ++ slots) lspan →
  find_node s1 p slots = match D !! (pre ++ slots) with
                         | Some (leaf, _) => Some leaf
                         | None => old_at s0 old_root (pre ++ slots)
                         end.
Proof.
  induction slots as [|slot slots IH]; intros p pre lspan Ha Hlen Hpos Hls.
  { destruct (pi_valid _ _ _ Hp p pre Ha) as [Hlt _]. cbn in Hlen. lia. }
  apply Forall_cons in Hpos as [Hslot Hpos]. cbn [length] in Hlen.
  assert (pre ++ slot :: slots = (pre ++ [slot]) ++ slots) as Heq by (by rewrite <-app_assoc).
  cbn [find_node]. rewrite (see_new_edge p pre slot Ha).
  destruct (pl_new_internal_edges pl !! (p, slot)) as [c|] eqn:HN.
  { assert (planned_child A D pl p slot = Some c) as -> by (unfold planned_child; rewrite Ha; cbn; by rewrite HN).
    destruct (pi_internal _ _ _ Hp _ _ _ HN) as (pre' & Hp' & Hc). rewrite Ha in Hp'. injection Hp' as <-.
    cbn. rewrite Heq in *. apply (IH c (pre ++ [slot]) lspan Hc); [rewrite length_app; cbn; lia|done|done]. }
  destruct (D !! (pre ++ [slot])) as [[leaf key]|] eqn:HD.
  { assert (planned_child A D pl p slot = Some leaf) as -> by (unfold planned_child; rewrite Ha; cbn; by rewrite HN, HD).
    destruct (pi_leaf _ _ _ Hp _ _ HD) as (Hl & _). rewrite length_app in Hl. cbn in Hl.
    destruct slots; [|cbn in Hlen; lia]. cbn. by rewrite HD. }
  rewrite (planned_old _ _ _ _ _ _ Hp Hall Ha Hslot HN HD), (no_leaf_below _ _ _ _ _ _ _ Hp Ha HN HD).
  rewrite Heq, (old_at_app _ _ (pre ++ [slot]) slots). destruct (old_at s0 old_root (pre ++ [slot])) as [oc|] eqn:Hold; cbn; [|done].
  rewrite Heq in Hls. destruct (descend_app _ _ _ _ _ Hls) as (sp & Hsp & Hd).
  apply (published_find s0 s1 batch rd slots sp oc lspan Hpub plan_closed); [|done].
  pose proof (old_subtree (pre ++ [slot]) sp oc ltac:(rewrite length_app; cbn; lia) Hsp Hold) as Hsub.
  rewrite length_app in Hsub. cbn in Hsub. by replace (depth - (length pre + 1))%nat with (length slots) in Hsub by lia.
Qed.

Lemma new_subtree n : ∀ p pre span,
  A !! p = Some pre → span_at pre span → (length pre + n = depth)%nat → subtree_ok rd s1 n span p.
Proof.
  induction n as [|n IH]; intros p pre span Ha Hs Hlen.
  { destruct (pi_valid _ _ _ Hp p pre Ha) as [Hlt _]. lia. }
  exists (internal_node factory p span).
  split; [apply (pv_node _ _ _ Hpub (internal_node factory p span)); by apply (ri_addr _ _ _ Hr p pre)|]. split; [done|].
  split; [unfold node_matches; rewrite (span_at_internal pre span) by (done || lia); done|].
  intros slot. rewrite (see_new_edge p pre slot Ha). destruct (planned_child A D pl p slot) as [c|] eqn:Hc; cbn; [right|by left].
  exists c. split; [done|]. intros span' Hspan'. pose proof (descend_snoc _ _ _ _ _ _ Hs Hspan') as Hs'.
  unfold planned_child in Hc. rewrite Ha in Hc. cbn in Hc.
  destruct (pl_new_internal_edges pl !! (p, slot)) as [x|] eqn:HN.
  { injection Hc as ->. destruct (pi_internal _ _ _ Hp _ _ _ HN) as (pre' & Hp' & Hac). rewrite Ha in Hp'. injection Hp' as <-.
    apply (IH c (pre ++ [slot])); [done|done|]. rewrite length_app. cbn. lia. }
  destruct (D !! (pre ++ [slot])) as [[leaf key]|] eqn:HD.
  - injection Hc as ->. destruct (pi_leaf _ _ _ Hp _ _ HD) as (Hl & _). rewrite length_app in Hl. cbn in Hl.
    destruct n; [|lia]. destruct (ri_leaf _ _ _ Hr _ _ _ _ HD Hs') as [Hn Hlr].
    exists (leaf_node factory c span'). split; [by apply (pv_node _ _ _ Hpub (leaf_node factory c span'))|]. split; [done|]. split.
    + unfold node_matches, expected_kind. pose proof (span_at_level _ _ Hs') as Hlv. rewrite length_app in Hlv. cbn [length] in Hlv.
      rewrite Hl, depth_level, Z.sub_diag in Hlv. rewrite Hlv. done.
    + exists (leaf_ref factory c ImmutableBlob key). split; [|done]. by apply (pv_leaf_ref _ _ _ Hpub (leaf_ref factory c ImmutableBlob key)).
  - case_bool_decide; [|done].
    pose proof (old_subtree (pre ++ [slot]) span' c ltac:(rewrite length_app; cbn; lia) Hs' Hc) as Hsub.
    rewrite length_app in Hsub. cbn in Hsub. replace (depth - (length pre + 1))%nat with n in Hsub by lia.
    by apply (published_subtree s0 s1 batch rd n span' c Hpub plan_closed).
Qed.
End published.
End plan.

(** ** Publishing a plan *)

(** What was stored before is stored unchanged. *)
Record old_kept {S : Type} `{!TreeView S} (s s' : S) : Prop := {
  ok_tree : ∀ rd n span id, subtree_ok rd s n span id → subtree_ok rd s' n span id;
  ok_find : ∀ rd slots span id span', subtree_ok rd s (length slots) span id →
    descend (rd_geometry rd) span slots = Ok span' → find_node s' id slots = find_node s id slots;
  ok_leaf_ref : ∀ id node, see_node s id = Ok (Some node) → see_leaf_ref s' id = see_leaf_ref s id;
}.

Section publish.
Context {S : Type} `{!TreeRecordStore S} `{!TreeView S} `{!TreeRecordStoreLaws S} `{!TreePublisher S} `{!TreePublisherLaws S}.
Implicit Types (s : S).

Lemma old_kept_view s s' : same_view s s' → old_kept s s'.
Proof.
  intros Hv. split.
  - intros. by apply (subtree_ok_view _ s).
  - intros. by apply find_node_view.
  - intros. by rewrite (sv_leaf_ref _ _ Hv).
Qed.

Lemma old_kept_published s s' b : published_view s s' b → closed_batch b → old_kept s s'.
Proof.
  intros Hv Hc. split.
  - intros rd n span id. by apply (published_subtree s s' b).
  - intros rd slots span id span'. by apply (published_find s s' b rd slots span).
  - intros id node Hn. by apply (published_old_node s s' b id node).
Qed.

(** A plan of [chunks] against a store, and the tree it gives once published. *)
Lemma plan_chunks_spec ids g export_id old_root s chunks :
  (∀ k, NodeId_new (ids k) = Ok (ids k)) → Inj (=) (=) ids → geometry_ok g → ExportId_new export_id = Ok export_id →
  (∀ id, old_root = Some id → subtree_ok (mkReader g CowImmutableTree old_root) s (Z.to_nat (geo_root_level g)) (root_span g) id) →
  Forall (chunk_ref_ok g) chunks → NoDup (cc_chunk_index <$> chunks) → chunks ≠ [] →
  ∃ pl batch, CowTreePublishPlanner_new ids g export_id old_root = Ok pl ∧ pl_new_root_node_id pl = ids O ∧
    shows s (plan_chunks ids chunks pl) (Ok batch) ∧ batch_ok batch ∧ closed_batch batch ∧
    ∀ s', published_view s s' batch →
      subtree_ok (mkReader g CowImmutableTree (Some (ids O))) s' (Z.to_nat (geo_root_level g)) (root_span g) (ids O) ∧
      (∀ c, c ∈ chunks → ∃ leaf, find_node s' (ids O) (chunk_slots g (cc_chunk_index c)) = Some leaf ∧
         see_leaf_ref s' leaf = Ok (Some (mkTreeLeafRef leaf ImmutableBlob (cc_blob_key c) TREE_CHUNK_BYTES))) ∧
      ∀ i, chunk_valid g i → i ∉ cc_chunk_index <$> chunks →
        find_node s' (ids O) (chunk_slots g i) = old_at s old_root (chunk_slots g i).
Proof.
  intros Hids Hinj Hg Hexp Hst Hok Hnd Hne.
  destruct (planner_new_spec ids g export_id old_root s Hids Hg Hexp) as (pl & Hnew & Hp & Hr).
  destruct (plan_each_spec ids g export_id old_root s Hids Hinj Hg Hexp Hst chunks pl _ _ Hp Hr Hok Hnd Hne)
    as (pl' & A & D & Hshow & Hp' & Hr' & Hall & Hin & Hout).
  { intros p q Hpne Hq. apply lookup_singleton_Some in Hq as [<- _]. done. }
  destruct (pending_rows_spec ids g export_id old_root s Hids pl' A D Hp' Hr') as (rows & Hrows & Hrow).
  exists pl, (mkTreeBatch (tb_nodes (pl_records pl')) rows (tb_leaf_refs (pl_records pl'))).
  split; [done|]. split; [by destruct (pi_fields _ _ _ _ _ _ _ _ Hp) as (_ & _ & _ & ?)|]. split.
  { eapply shows_bind; [exact Hshow|]. rewrite Hrows. eapply shows_bind; [apply shows_lift|].
    cbv beta zeta. rewrite (ri_edges _ _ _ _ _ _ Hr'). apply shows_ret. }
  split; [by apply (plan_batch_ok ids g export_id old_root s Hids pl' A D)|].
  split; [by apply (plan_closed ids g export_id old_root s pl' A D)|].
  intros s' Hpub. pose proof (pi_root _ _ _ _ _ _ _ _ Hp') as Hroot.
  assert (∀ i, chunk_valid g i → find_node s' (ids O) (chunk_slots g i) =
    match D !! chunk_slots g i with Some (leaf, _) => Some leaf | None => old_at s old_root (chunk_slots g i) end) as Hfind.
  { intros i [Hi1 Hi2]. apply (new_find ids g export_id old_root s Hst pl' A D s' rows Hp' Hr' Hall Hrow Hpub
      (chunk_slots g i) (ids O) [] (nth_span g 0 i)); [done| |apply chunk_slots_range|by apply descend_root].
    apply chunk_slots_length. }
  rewrite Forall_forall in Hok. split; [|split].
  - apply (subtree_ok_reader (mkReader g CowImmutableTree old_root)); [done|done|].
    by apply (new_subtree ids g export_id old_root s Hg Hst pl' A D s' rows Hp' Hr' Hrow Hpub _ (ids O) []).
  - intros c Hc. destruct (Hin c Hc) as (leaf & HD). destruct (Hok c Hc) as [Hv _].
    exists leaf. rewrite Hfind, HD by done. split; [done|].
    destruct (pi_leaf _ _ _ _ _ _ _ _ Hp' _ _ HD) as (_ & [span Hs] & _).
    destruct (ri_leaf _ _ _ _ _ _ Hr' _ _ _ _ HD Hs) as [_ Hlr].
    pose proof (pv_leaf_ref _ _ _ Hpub _ Hlr) as Hsee. cbn in Hsee. by destruct Hg as (_ & <- & _).
  - intros i Hi Hnot. rewrite Hfind by done. rewrite Hout; [by rewrite lookup_empty|].
    intros c Hc Heq. apply Hnot, list_elem_of_fmap. exists c. split; [|done].
    apply (chunk_slots_inj g Hg); [done|by destruct (Hok c Hc)|done].
Qed.

(** What a publication of [chunks] in place of [root] leaves. *)
Definition replaced ids export_id g root (through : WalSeq) format (chunks : list CowChunkRef) s new_root s' : Prop :=
  new_root = mkRoot (BackingCowHead (Some (ids O)) through (rs_size_bytes root) format) ∧
  (∃ old head, to_export_head root = Ok old ∧ see_head s export_id = Ok old ∧
     to_export_head new_root = Ok head ∧ see_head s' export_id = Ok head) ∧
  store_valid s' ∧ (store_ready s → store_ready s') ∧ old_kept s s' ∧
  subtree_ok (mkReader g CowImmutableTree (Some (ids O))) s' (Z.to_nat (geo_root_level g)) (root_span g) (ids O) ∧
  (∀ c, c ∈ chunks → ∃ leaf, find_node s' (ids O) (chunk_slots g (cc_chunk_index c)) = Some leaf ∧
     see_leaf_ref s' leaf = Ok (Some (mkTreeLeafRef leaf ImmutableBlob (cc_blob_key c) TREE_CHUNK_BYTES))) ∧
  ∀ i, chunk_valid g i → i ∉ cc_chunk_index <$> chunks →
    find_node s' (ids O) (chunk_slots g i) = old_at s (rs_root_node_id root) (chunk_slots g i).

Lemma publish_lazy_spec ids g format export_id root through chunks s :
  (∀ k, NodeId_new (ids k) = Ok (ids k)) → Inj (=) (=) ids → ExportId_new export_id = Ok export_id →
  is_u64 (rs_size_bytes root) → rs_tree_format root = Some format → TreeGeometry_new format (rs_size_bytes root) = Ok g →
  (∀ id, rs_root_node_id root = Some id →
     subtree_ok (mkReader g CowImmutableTree (Some id)) s (Z.to_nat (geo_root_level g)) (root_span g) id) →
  Forall (chunk_ref_ok g) chunks → NoDup (cc_chunk_index <$> chunks) → store_valid s →
  match publish_lazy_compaction ids export_id root through chunks s with
  | (Ok (OutcomePublished, Some new_root), s') => chunks ≠ [] ∧ replaced ids export_id g root through format chunks s new_root s'
  | (Ok (OutcomeStalePlan, None), s') | (Err _, s') => same_view s s'
  | (Ok (OutcomeNoRecords, None), s') => chunks = [] ∧ s' = s
  | _ => False
  end.
Proof.
  intros Hids Hinj Hexp Hu Hf Hg Hst Hok Hnd Hs. destruct chunks as [|c0 chunks0]; [done|]. set (chunks := c0 :: chunks0) in *.
  destruct (new_geometry_inv _ _ _ Hu Hg) as (Hgok & _).
  destruct (plan_chunks_spec ids g export_id (rs_root_node_id root) s chunks Hids Hinj Hgok Hexp)
    as (pl & batch & Hnew & Hroot & Hshow & Hbatch & Hclosed & Htree); [|done|done|done|].
  { intros id Hid. rewrite Hid. by apply Hst. }
  change (publish_lazy_compaction ids export_id root through chunks s) with
    ((let! tree_format := mlift (ok_or (rs_tree_format root) (catalog_error "COW compaction root is missing tree format")) in
      let! geometry := mlift (TreeGeometry_new tree_format (rs_size_bytes root)) in
      let! planner := mlift (CowTreePublishPlanner_new ids geometry export_id (rs_root_node_id root)) in
      let! records := plan_chunks ids chunks planner in
      let! next_head := mlift (map_err ServerError_catalog
        (new_with_tree_format CowImmutableTree (Some (pl_new_root_node_id planner)) (rs_size_bytes root)
           through (Some tree_format))) in
      let! expected_head := mlift (to_export_head root) in
      let! outcome := store_call (store_publish (mkPublish export_id expected_head next_head records)) in
      match outcome with
      | Published record =>
          let! published := mlift (RootSnapshot_from_head (r_head record)) in
          mret (OutcomePublished, Some published)
      | StaleHead _ => mret (OutcomeStalePlan, None)
      end) s).
  rewrite Hf. unfold mseq, mlift, ok_or. rewrite Hg, Hnew, Hroot.
  destruct (Hshow s ltac:(done)) as (o & s1 & -> & Hv & [->|[_ [e ->]]]); [|done].
  destruct (new_with_tree_format _ (Some (ids O)) _ _ _) as [head|e|] eqn:Hhead; [|done|].
  2: { revert Hhead. cbn. unfold cow_immutable_tree_with_root_and_format, validate_non_zero. by repeat case_match. }
  cbn [map_err]. destruct (to_export_head root) as [old|e|] eqn:Hold; [|done|].
  2: { revert Hold. unfold to_export_head. cbn. unfold cow_immutable_tree_with_root_and_format, validate_non_zero. by repeat case_match. }
  pose proof (law_publish s1 (mkPublish export_id old head batch) (sv_valid _ _ Hv Hs) Hbatch) as Hlaw.
  unfold store_call. destruct (store_publish _ s1) as [[[record|?]|e|] s2]; [|by cbn; etrans|by cbn; etrans|done].
  cbn [pu_next_head pu_records] in Hlaw. destruct Hlaw as (Hrec & Hvalid & Hready & Hpub & Hold1 & Hnew1 & _). cbn [pu_export_id pu_expected_head pu_next_head] in *.
  apply (published_view_same s) in Hpub; [|done]. cbn [map_err]. rewrite Hrec.
  assert (head = HeadCowImmutableTree (mkCowHead (rs_size_bytes root) (Some (ids O)) through format)) as ->.
  { revert Hhead. cbn. unfold cow_immutable_tree_with_root_and_format. destruct (validate_non_zero _ _); cbn; congruence. }
  cbn. destruct (Htree s2 Hpub) as (Ht1 & Ht2 & Ht3). split; [done|]. split; [done|]. split.
  { eexists _, _. split; [exact Hold|]. split; [by rewrite <-(sv_head _ _ Hv)|]. split; [|exact Hnew1].
    unfold to_export_head. cbn in Hhead |- *. by rewrite Hhead. }
  split; [done|]. split.
  { intros Hr. by apply Hready, (sv_ready _ _ Hv). }
  split; [by apply (old_kept_published s s2 batch)|]. by split.
Qed.
End publish.

(** ** Properties *)

(** A publication replaces exactly the compacted chunks.  On any record store that keeps its laws,
    when the identifiers drawn are valid and distinct, [publish_lazy_compaction] that publishes gives a
    root with the target as its base and the size and format of the old root, swaps the head of the
    export from the old root to it, and its tree fits the
    geometry, leads from every planned chunk to an immutable blob reference with the key of that
    chunk, and leads from every other chunk to the node the old tree leads to; every tree stored
    before is stored unchanged.  A plan that is stale or fails leaves all that is shown as it was,
    an empty plan publishes nothing, and no plan panics. *)
Theorem publish_replaces_chunks {S : Type} `{!TreeRecordStore S} `{!TreeView S} `{!TreeRecordStoreLaws S}
    `{!TreePublisher S} `{!TreePublisherLaws S} ids g format export_id root through chunks (s : S) :
  (∀ k, NodeId_new (ids k) = Ok (ids k)) → Inj (=) (=) ids → ExportId_new export_id = Ok export_id →
  is_u64 (rs_size_bytes root) → rs_tree_format root = Some format → TreeGeometry_new format (rs_size_bytes root) = Ok g →
  (∀ id, rs_root_node_id root = Some id →
     subtree_ok (mkReader g CowImmutableTree (Some id)) s (Z.to_nat (geo_root_level g)) (root_span g) id) →
  Forall (chunk_ref_ok g) chunks → NoDup (cc_chunk_index <$> chunks) → store_valid s →
  match publish_lazy_compaction ids export_id root through chunks s with
  | (Ok (OutcomePublished, Some new_root), s') => chunks ≠ [] ∧ replaced ids export_id g root through format chunks s new_root s'
  | (Ok (OutcomeStalePlan, None), s') | (Err _, s') => same_view s s'
  | (Ok (OutcomeNoRecords, None), s') => chunks = [] ∧ s' = s
  | _ => False
  end.
Proof. apply publish_lazy_spec. Qed.

(** Identifiers for examples: each is longer than the one before. *)
Fixpoint sample_id (n : nat) : string :=
  match n with O => "n" | Datatypes.S n => "n" +:+ sample_id n end.

Lemma sample_id_valid k : NodeId_new (sample_id k) = Ok (sample_id k).
Proof.
  assert (str_contains nul (sample_id k) = false) as Hn by (by induction k).
  unfold NodeId_new, non_empty_string. rewrite Hn. by destruct k.
Qed.

Lemma sample_id_inj : Inj (=) (=) sample_id.
Proof. intros a. induction a as [|a IH]; intros [|b] [=]; [done|by destruct b|by destruct a|]. f_equal. by apply IH. Qed.

(** The compaction of the only chunk of an export. *)
Lemma publish_replaces_chunks_witness :
  let root := mkRoot (BackingCowHead (Some "root") 3 4096 Bounded32V1) in
  ∃ new_root s',
    publish_lazy_compaction (TreePublisher0 := sqlite_publisher (Some 3%N)) sample_id "id-1" root 7 [mkCowChunk 0 "blob-2" TREE_CHUNK_BYTES] one_chunk_db
      = (Ok (OutcomePublished, Some new_root), s') ∧
    rs_base_wal_seq new_root = 7 ∧ old_kept one_chunk_db s'.
Proof.
  intros root.
  assert (Hu : is_u64 4096) by by_compute.
  pose proof (publish_replaces_chunks (TreePublisher0 := sqlite_publisher (Some 3%N)) sample_id one_chunk_geometry Bounded32V1 "id-1" root 7
    [mkCowChunk 0 "blob-2" TREE_CHUNK_BYTES] one_chunk_db sample_id_valid sample_id_inj eq_refl Hu eq_refl eq_refl) as H.
  destruct (publish_lazy_compaction sample_id "id-1" root 7 _ one_chunk_db) as [o s'] eqn:Hrun.
  assert (Ho : match o with Ok (OutcomePublished, Some r) => rs_base_wal_seq r =? 7 | _ => false end = true).
  { change o with ((o, s').1). rewrite <-Hrun. vm_compute. reflexivity. }
  destruct o as [[[] [new_root|]]|e|]; try discriminate Ho. exists new_root, s'. split; [reflexivity|]. split; [by apply Z.eqb_eq|].
  apply H.
  - intros id [= <-]. exact one_chunk_subtree.
  - constructor; [|constructor]. split; [split; by_compute|reflexivity].
  - apply NoDup_singleton.
  - apply run_ops_ok, tables_empty_ok.
Defined.
