(* ===== verification/CompactionCorrect.v ===== *)
(** * Correctness of compaction

    The compactor of [compaction.rs] end to end: the images it builds are the committed chunks with the
    overlay written over them, the blobs it writes hold the images, and the tree it publishes
    ([CompactionPlan]) leads to those blobs.  The last part ties the compactor to the read view: a
    snapshot of the view is compacted, the view goes on, and installing the new root shows every
    client the bytes it saw before. *)

From S2P Require Import Prelude BTree ControlPlane Server ExtentMap Wal WalLocal Overlay Geometry Catalog Tree Storage.
From S2P Require Import ReadCache ReadCacheCorrect ReadView TreeReaders ReadViewCorrect Publication TreePaths Compaction CompactionPlan.

#[local] Open Scope string_scope.
#[local] Open Scope list_scope.
#[local] Open Scope Z_scope.

(** ** Merging the overlay into images of chunks *)

(** The first [n] bytes of a slice over the bytes [f]. *)
Definition slice_over (sl : OverlayReadSlice) (n : Z) (f : Z → byte) (i : Z) : byte :=
  if bool_decide (sl_start sl ≤ i < sl_start sl + n) then
    default x00 (zget (rec_data (sl_record sl)) (sl_offset sl + (i - sl_start sl)))
  else f i.

Definition slices_over (slices : list OverlayReadSlice) (f : Z → byte) : Z → byte :=
  foldl (λ f sl, slice_over sl (sl_end sl - sl_start sl) f) f slices.

Section merge.
Context {S B : Type} `{!TreeRecordStore S} `{!TreeView S} `{!TreeRecordStoreLaws S}.
Context `{!BlobStore B} `{!BlobStoreLaws B} `{!TreePublisher S}.
Context (committed : RootSnapshot → Z → byte) (root : RootSnapshot) (w0 : S * B).
Hypothesis Hw0 : cow_holds committed w0 root.
Implicit Types (f : Z → byte) (images : btree (list byte)) (w : S * B).

(** The image of a chunk in the bytes [f]. *)
Definition image_of f (chunk : Z) (data : list byte) : Prop :=
  zlen data = TREE_CHUNK_BYTES ∧ ∀ i, in_chunk root chunk i → zget data (i mod TREE_CHUNK_BYTES) = Some (f i).

Record images_ok f images : Prop := {
  im_sorted : bt_sorted images;
  im_chunk : ∀ c data, bt_get c images = Some data → 0 ≤ c ∧ c * TREE_CHUNK_BYTES < rs_size_bytes root ∧ image_of f c data;
  im_rest : ∀ i, 0 ≤ i < rs_size_bytes root → bt_get (i / TREE_CHUNK_BYTES) images = None → f i = committed root i;
}.

Lemma images_ok_ext f f' images :
  (∀ i, 0 ≤ i < rs_size_bytes root → f' i = f i) → images_ok f images → images_ok f' images.
Proof.
  intros Hf [Hs Hc Hr]. split; [done| |].
  - intros c data Hd. destruct (Hc c data Hd) as (? & ? & Hl & Hby). split; [done|]. split; [done|]. split; [done|].
    intros i Hi. rewrite Hf by apply Hi. by apply Hby.
  - intros i Hi Hd. rewrite Hf by done. by apply Hr.
Qed.

Lemma load_committed_chunk_eq chunk w :
  load_committed_chunk root chunk w =
  (let! leaf := zoom fst set_fst (cow_load_leaf root chunk) in
   match leaf with
   | None => mret (zeros TREE_CHUNK_BYTES)
   | Some leaf =>
       if bool_decide (tl_storage_kind (ll_leaf_ref leaf) ≠ ImmutableBlob) then
         mfail (catalog_error "COW tree chunk {chunk_index} has storage kind {}")
       else zoom snd set_snd (get_blob (tl_storage_key (ll_leaf_ref leaf)) 0 TREE_CHUNK_BYTES)
   end) w.
Proof.
  destruct w as [s b]. unfold load_committed_chunk, cow_load_leaf. destruct (rs_tree_format root) as [format|]; [|done].
  unfold mseq, zoom, mlift. by destruct (TreeGeometry_new _ _).
Qed.

Lemma load_committed_chunk_spec chunk w :
  same_world w0 w → 0 ≤ chunk → chunk * TREE_CHUNK_BYTES < rs_size_bytes root →
  match load_committed_chunk root chunk w with
  | (Ok data, w') => image_of (committed root) chunk data ∧ same_world w0 w'
  | (Err _, w') => same_world w0 w'
  | (Panic, _) => False
  end.
Proof.
  intros Hw Hc1 Hc2. pose proof chunk_bytes_value as HC. rewrite load_committed_chunk_eq.
  pose proof (cow_holds_same _ _ _ _ Hw Hw0) as Hh.
  destruct (cow_load_leaf_shows committed w root chunk Hh Hc1 Hc2) as (o & Hshow & Hspec).
  destruct (Hshow w.1 ltac:(done)) as (o' & s' & Hrun & Hv & Ho).
  unfold mseq, zoom. rewrite Hrun. assert (same_world w (s', w.2)) as Hs by (by split).
  destruct Ho as [->|[_ [e ->]]]; [|by etrans].
  destruct o as [leaf|].
  - destruct Hspec as (Hk & blob & Hb & Hfull & Hby). rewrite bool_decide_false by (by intros []). cbn [set_fst snd].
    pose proof (law_get_blob w.2 (tl_storage_key (ll_leaf_ref leaf)) 0 TREE_CHUNK_BYTES ltac:(lia) ltac:(lia)) as Hg.
    destruct (get_blob _ _ _ w.2) as [[data| |] b']; [| |done]; cbn [set_snd fst].
    2: { etrans; [exact Hw|]. by split. }
    destruct Hg as [Hbl Hsl]. specialize (Hsl blob Hb ltac:(lia)). split; [|etrans; [exact Hw|]; by split].
    split; [rewrite (slice_length _ _ _ _ Hsl); lia|]. intros i Hi.
    pose proof (Z.mod_pos_bound i TREE_CHUNK_BYTES ltac:(lia)). rewrite (slice_get _ _ _ _ _ Hsl) by lia.
    rewrite Z.add_0_l. by apply Hby.
  - split; [|by etrans]. split; [rewrite zeros_length; lia|]. intros i Hi. rewrite Hspec by done.
    pose proof (Z.mod_pos_bound i TREE_CHUNK_BYTES ltac:(lia)). by apply zeros_get.
Qed.

Lemma load_or_create_spec f images chunk w :
  same_world w0 w → images_ok f images → 0 ≤ chunk → chunk * TREE_CHUNK_BYTES < rs_size_bytes root →
  match load_or_create_root_chunk root images chunk w with
  | (Ok (data, images'), w') => images_ok f images' ∧ bt_get chunk images' = Some data ∧ image_of f chunk data ∧ same_world w0 w'
  | (Err _, w') => same_world w0 w'
  | (Panic, _) => False
  end.
Proof.
  intros Hw Him Hc1 Hc2. unfold load_or_create_root_chunk. destruct (bt_get chunk images) as [data|] eqn:Hget.
  { split; [done|]. split; [done|]. split; [|done]. by apply (im_chunk f images Him). }
  pose proof (load_committed_chunk_spec chunk w Hw Hc1 Hc2) as Hl. unfold mseq.
  destruct (load_committed_chunk root chunk w) as [[data|e|] w']; [|done|done]. destruct Hl as [[Hlen Hby] Hw'].
  destruct Him as [Hs Hc Hr].
  assert (image_of f chunk data) as Hi.
  { split; [done|]. intros i Hi. rewrite (Hr i) by (apply Hi || by rewrite (proj2 Hi)). by apply Hby. }
  split; [|split; [|by split]].
  - split; [by apply bt_insert_sorted| |].
    + intros c d. rewrite bt_get_insert by done. destruct (Z.eqb_spec c chunk) as [->|]; [|apply Hc]. by intros [= <-].
    + intros i Hin. rewrite bt_get_insert by done. destruct (Z.eqb_spec (i / TREE_CHUNK_BYTES) chunk); [done|]. by apply Hr.
  - by rewrite bt_get_insert, Z.eqb_refl by done.
Qed.

(** A slice that lies in the export and in its record. *)
Definition slice_fits (sl : OverlayReadSlice) : Prop :=
  0 ≤ sl_start sl ≤ sl_end sl ∧ sl_end sl ≤ rs_size_bytes root ∧ 0 ≤ sl_offset sl ∧
  sl_offset sl + (sl_end sl - sl_start sl) ≤ zlen (rec_data (sl_record sl)) ≤ u64_max.

Lemma slice_over_more sl a n f i :
  0 ≤ a → 0 ≤ n →
  slice_over sl (a + n) f i =
    if bool_decide (sl_start sl + a ≤ i < sl_start sl + a + n)
    then default x00 (zget (rec_data (sl_record sl)) (sl_offset sl + (i - sl_start sl))) else slice_over sl a f i.
Proof. intros. unfold slice_over. repeat case_bool_decide; done || lia. Qed.

(** One round: the part of the slice in its chunk is copied into the image of the chunk. *)
Lemma image_step sl a n f data src data' images :
  slice_fits sl → 0 ≤ a → 0 < n → a + n ≤ sl_end sl - sl_start sl →
  let p := sl_start sl + a in
  let chunk := p / TREE_CHUNK_BYTES in
  p mod TREE_CHUNK_BYTES + n ≤ TREE_CHUNK_BYTES →
  images_ok (slice_over sl a f) images → bt_get chunk images = Some data →
  Prelude.slice (rec_data (sl_record sl)) (sl_offset sl + a) (sl_offset sl + a + n) = Some src →
  splice data (p mod TREE_CHUNK_BYTES) src = Some data' →
  images_ok (slice_over sl (a + n) f) (bt_insert chunk data' images).
Proof.
  intros (Hs & He & Ho & Hl) Ha Hn Han p chunk Hpn [Hsort Hc Hr] Hget Hsrc Hsp. pose proof chunk_bytes_value as HC.
  pose proof (Z.div_mod p TREE_CHUNK_BYTES ltac:(lia)) as Hdm. pose proof (Z.mod_pos_bound p TREE_CHUNK_BYTES ltac:(lia)) as Hmb.
  fold chunk in Hdm. destruct (Hc chunk data Hget) as (Hc1 & Hc2 & Hlen & Hby).
  assert (∀ i, i / TREE_CHUNK_BYTES = chunk → i mod TREE_CHUNK_BYTES - p mod TREE_CHUNK_BYTES = i - p) as Hmod.
  { intros i Hi. pose proof (Z.div_mod i TREE_CHUNK_BYTES ltac:(lia)). rewrite Hi in *. lia. }
  assert (∀ i, p ≤ i < p + n → i / TREE_CHUNK_BYTES = chunk) as Hin.
  { intros i Hi. symmetry. apply (Z.div_unique _ _ _ (i - chunk * TREE_CHUNK_BYTES)); lia. }
  pose proof (slice_length _ _ _ _ Hsrc) as Hsl.
  split; [by apply bt_insert_sorted| |].
  - intros c d. rewrite bt_get_insert by done. destruct (Z.eqb_spec c chunk) as [->|Hne].
    + intros [= <-]. split; [done|]. split; [done|]. split; [by rewrite (splice_length _ _ _ _ Hsp)|]. intros i [Hi Hic].
      specialize (Hmod i Hic). rewrite (splice_get _ _ _ _ _ Hsp), slice_over_more by lia. fold p. rewrite Hsl, Hmod.
      case_bool_decide as Hb.
      * rewrite (proj2 (Z.leb_le _ _)), (proj2 (Z.ltb_lt _ _)) by lia. cbn [andb].
        rewrite (slice_get _ _ _ _ _ Hsrc) by lia. replace (sl_offset sl + a + (i - p)) with (sl_offset sl + (i - sl_start sl)) by lia.
        destruct (zget_is_Some (rec_data (sl_record sl)) (sl_offset sl + (i - sl_start sl)) ltac:(lia)) as [b ->]. done.
      * rewrite (Hby i) by done. destruct (Z.leb_spec (p mod TREE_CHUNK_BYTES) (i mod TREE_CHUNK_BYTES)); cbn [andb]; [|done].
        rewrite (proj2 (Z.ltb_ge _ _)) by lia. done.
    + intros Hd. destruct (Hc c d Hd) as (Hp1 & Hp2 & Hp3 & Hp4). split; [done|]. split; [done|]. split; [done|]. intros i Hi.
      rewrite Hp4 by done. f_equal. rewrite slice_over_more by lia. case_bool_decide as Hb; [|done].
      destruct Hi as [_ Hi]. rewrite <-Hi in Hne. by destruct Hne; apply Hin.
  - intros i Hi. rewrite bt_get_insert by done. destruct (Z.eqb_spec (i / TREE_CHUNK_BYTES) chunk) as [|Hne]; [done|]. intros Hd.
    rewrite slice_over_more, bool_decide_false by (lia || by intros ?%Hin). by apply Hr.
Qed.

Lemma apply_slice_loop_spec fuel sl f : ∀ a images w,
  is_u64 (rs_size_bytes root) → slice_fits sl → 0 ≤ a ≤ sl_end sl - sl_start sl →
  (a < sl_end sl - sl_start sl →
   (sl_end sl - 1) / TREE_CHUNK_BYTES - (sl_start sl + a) / TREE_CHUNK_BYTES < Z.of_nat fuel) →
  same_world w0 w → images_ok (slice_over sl a f) images →
  match apply_slice_loop fuel root sl (sl_end sl - sl_start sl) a images w with
  | (Ok images', w') => images_ok (slice_over sl (sl_end sl - sl_start sl) f) images' ∧ same_world w0 w'
  | (Err _, w') => same_world w0 w'
  | (Panic, _) => False
  end.
Proof.
  set (total := sl_end sl - sl_start sl) in *. pose proof chunk_bytes_value as HC.
  induction fuel as [|fuel IH]; intros a images w [_ Hu] Hfit Ha Hfuel Hw Him; cbn [apply_slice_loop];
    pose proof Hfit as (Hs & He & Ho & Hl);
    (destruct (Z.ltb_spec a total) as [Hlt|Hge]; [|by replace total with a by lia]).
  { specialize (Hfuel Hlt). pose proof (Z.div_le_mono (sl_start sl + a) (sl_end sl - 1) TREE_CHUNK_BYTES ltac:(lia) ltac:(lia)). lia. }
  specialize (Hfuel Hlt). rewrite u64_add_id by lia. set (p := sl_start sl + a) in *.
  pose proof (Z.div_mod p TREE_CHUNK_BYTES ltac:(lia)) as Hdm. pose proof (Z.mod_pos_bound p TREE_CHUNK_BYTES ltac:(lia)) as Hmb.
  set (n := Z.min (TREE_CHUNK_BYTES - p mod TREE_CHUNK_BYTES) (total - a)) in *.
  rewrite usize_try_from_id by lia. erewrite mseq_ok by reflexivity.
  rewrite u64_checked_add_id by lia. erewrite mseq_ok by reflexivity.
  rewrite u64_checked_add_id by lia. erewrite mseq_ok by reflexivity.
  pose proof (load_or_create_spec (slice_over sl a f) images (p / TREE_CHUNK_BYTES) w Hw Him
    ltac:(apply Z.div_pos; lia) ltac:(nia)) as Hload.
  unfold mseq at 1. destruct (load_or_create_root_chunk root images _ w) as [[[data images']|e|] w']; [|done|done].
  destruct Hload as (Him' & Hget & [Hlen _] & Hw').
  destruct (slice_exists data (p mod TREE_CHUNK_BYTES) (p mod TREE_CHUNK_BYTES + n) ltac:(lia) ltac:(lia)) as [dst Hdst].
  destruct (slice_exists (rec_data (sl_record sl)) (sl_offset sl + a) (sl_offset sl + a + n) ltac:(lia) ltac:(lia)) as [src Hsrc].
  destruct (splice_exists data (p mod TREE_CHUNK_BYTES) src ltac:(lia)
    ltac:(rewrite (slice_length _ _ _ _ Hsrc); lia)) as [data' Hdata'].
  rewrite Hdst. erewrite mseq_ok by reflexivity. rewrite Hsrc. erewrite mseq_ok by reflexivity.
  rewrite Hdata'. erewrite mseq_ok by reflexivity.
  apply IH; [by split; [lia|]|done|lia| |done|].
  - intros Hlt2. assert (p + n = (p / TREE_CHUNK_BYTES + 1) * TREE_CHUNK_BYTES) as Hpn by lia.
    replace (sl_start sl + (a + n)) with (p + n) by lia. rewrite Hpn, Z.div_mul by lia. lia.
  - apply (image_step sl a n f data src data' images'); fold p; [done|lia|lia|lia|lia|done..].
Qed.

Lemma apply_overlay_slice_spec sl f images w :
  is_u64 (rs_size_bytes root) → slice_fits sl → same_world w0 w → images_ok f images →
  match apply_overlay_slice_to_chunks root images sl w with
  | (Ok images', w') => images_ok (slice_over sl (sl_end sl - sl_start sl) f) images' ∧ same_world w0 w'
  | (Err _, w') => same_world w0 w'
  | (Panic, _) => False
  end.
Proof.
  intros Hu Hfit Hw Him. pose proof Hfit as (Hs & He & Ho & Hl). pose proof chunk_bytes_value as HC. pose proof Hu as [_ Hu'].
  unfold apply_overlay_slice_to_chunks. rewrite u64_sub_id, usize_try_from_id by lia. erewrite mseq_ok by reflexivity.
  apply apply_slice_loop_spec; [done|done|lia| |done|].
  - intros Hlt. rewrite Z.add_0_r. set (n := sl_end sl - sl_start sl) in *.
    rewrite Z2Nat.id by (pose proof (Z.div_pos n TREE_CHUNK_BYTES ltac:(lia) ltac:(lia)); lia).
    pose proof (Z.div_mod (sl_end sl - 1) TREE_CHUNK_BYTES ltac:(lia)). pose proof (Z.mod_pos_bound (sl_end sl - 1) TREE_CHUNK_BYTES ltac:(lia)).
    pose proof (Z.div_mod (sl_start sl) TREE_CHUNK_BYTES ltac:(lia)). pose proof (Z.mod_pos_bound (sl_start sl) TREE_CHUNK_BYTES ltac:(lia)).
    pose proof (Z.div_mod n TREE_CHUNK_BYTES ltac:(lia)). pose proof (Z.mod_pos_bound n TREE_CHUNK_BYTES ltac:(lia)). nia.
  - apply (images_ok_ext f); [|done]. intros i _. unfold slice_over. rewrite bool_decide_false by lia. done.
Qed.

Lemma validate_slice_ok target sl :
  is_u64 (rs_size_bytes root) → slice_fits sl → rs_base_wal_seq root < rec_seq (sl_record sl) ≤ target →
  validate_overlay_slice_range root target sl = Ok tt.
Proof.
  intros [_ Hu] (Hs & He & Ho & Hl) Hseq. unfold validate_overlay_slice_range.
  rewrite (proj2 (Z.leb_gt _ _)), (proj2 (Z.ltb_ge _ _)) by lia. rewrite Z.max_r by lia.
  unfold u64_checked_sub. rewrite (proj2 (Z.leb_le _ _)) by lia. cbn [mbind option_bind].
  rewrite !u64_checked_add_id by lia. cbn [ok_or obind].
  rewrite !(proj2 (Z.ltb_ge _ _)) by lia. done.
Qed.

Lemma merge_slices_spec target slices : ∀ f visible images w,
  is_u64 (rs_size_bytes root) → Forall slice_fits slices →
  (∀ sl, sl ∈ slices → rs_base_wal_seq root < rec_seq (sl_record sl) ≤ target) →
  same_world w0 w → images_ok f images →
  match merge_slices root target slices visible images w with
  | (Ok (visible', images'), w') => images_ok (slices_over slices f) images' ∧ same_world w0 w'
  | (Err _, w') => same_world w0 w'
  | (Panic, _) => False
  end.
Proof.
  induction slices as [|sl slices IH]; intros f visible images w Hu Hfit Hseq Hw Him; [done|].
  apply Forall_cons in Hfit as [Hsl Hfit]. cbn [merge_slices].
  rewrite validate_slice_ok by (done || apply Hseq; by left). erewrite mseq_ok by reflexivity.
  pose proof (apply_overlay_slice_spec sl f images w Hu Hsl Hw Him) as Happ. unfold mseq at 1.
  destruct (apply_overlay_slice_to_chunks root images sl w) as [[images'|e|] w']; [|done|done].
  destruct Happ as [Him' Hw']. apply IH; auto. intros. apply Hseq. by right.
Qed.
End merge.

(** The slices of the whole overlay write exactly its bytes. *)
Section overlay.
Implicit Types (slices : list OverlayReadSlice) (sl : OverlayReadSlice) (f : Z → byte).

Definition slice_byte sl (i : Z) : byte := default x00 (zget (rec_data (sl_record sl)) (sl_offset sl + (i - sl_start sl))).

Lemma slice_over_full sl f i :
  slice_over sl (sl_end sl - sl_start sl) f i = if bool_decide (oslice_cov sl i) then slice_byte sl i else f i.
Proof. unfold slice_over, oslice_cov. repeat case_bool_decide; done || lia. Qed.

Lemma slices_over_none slices i : ∀ f,
  (∀ sl, sl ∈ slices → ¬ oslice_cov sl i) → slices_over slices f i = f i.
Proof.
  induction slices as [|sl slices IH]; intros f Hno; [done|]. unfold slices_over. cbn [foldl]. fold (slices_over slices).
  etrans; [apply IH; intros; apply Hno; by right|]. rewrite slice_over_full, bool_decide_false; [done|]. apply Hno. by left.
Qed.

Lemma slices_over_some slices i b : ∀ f,
  (∀ sl, sl ∈ slices → oslice_cov sl i → slice_byte sl i = b) →
  f i = b ∨ (∃ sl, sl ∈ slices ∧ oslice_cov sl i) → slices_over slices f i = b.
Proof.
  induction slices as [|sl slices IH]; intros f Hb Hor.
  { destruct Hor as [?|(sl & Hsl & _)]; [done|]. by apply elem_of_nil in Hsl. }
  unfold slices_over. cbn [foldl]. fold (slices_over slices). apply IH; [intros; apply Hb; [by right|done]|].
  rewrite slice_over_full. case_bool_decide as Hc; [left; apply Hb; [by left|done]|].
  destruct Hor as [?|(sl' & [->|Hsl]%elem_of_cons & Hcov)]; [by left|done|right; eauto].
Qed.

Lemma all_slices_elem m sl :
  sl ∈ all_slices m ↔ ∃ p, p ∈ m ∧ sl = mkSlice p.1 (ext_end p.2) (ox_record (ext_value p.2)) (ox_offset (ext_value p.2)).
Proof.
  unfold all_slices, em_iter. rewrite <-list_fmap_compose, list_elem_of_fmap. cbn. firstorder.
Qed.

Lemma slices_over_overlay m f i :
  overlay_inv m → slices_over (all_slices m) f i = default (f i) (overlay_byte m i).
Proof.
  intros Hinv. pose proof Hinv as [Hwf Hok]. unfold overlay_byte.
  destruct (contents overlay_view m i) as [[r ob]|] eqn:Hc.
  - destruct (overlay_contents_byte m i r ob Hinv Hc) as [b ->]. cbn.
    unfold contents in Hc. destruct (em_find m i) as [p|] eqn:Hf; [|done]. injection Hc as <- Hb.
    apply slices_over_some.
    + intros sl (q & Hq & ->)%all_slices_elem Hcov.
      assert (em_find m i = Some q) as Hfq by (by apply em_find_Some). rewrite Hf in Hfq. injection Hfq as <-.
      unfold slice_byte. cbn. by rewrite Hb.
    + right. apply em_find_Some in Hf as [Hp Hi]; [|done]. eexists. split; [apply all_slices_elem; eauto|done].
  - apply slices_over_none. intros sl (p & Hp & ->)%all_slices_elem Hcov. unfold contents in Hc.
    assert (em_find m i = Some p) as Hf by (by apply em_find_Some). by rewrite Hf in Hc.
Qed.

Lemma all_slices_fit root base last m :
  is_u64 (rs_size_bytes root) → overlay_for (rs_size_bytes root) base last m →
  Forall (slice_fits root) (all_slices m) ∧ ∀ sl, sl ∈ all_slices m → base < rec_seq (sl_record sl) ≤ last.
Proof.
  intros [_ Hu] [Hinv Hmap]. pose proof Hinv as [Hwf Hok]. pose proof Hwf as (_ & Hne & _).
  assert (∀ p i, p ∈ m → p.1 ≤ i < ext_end p.2 → 0 ≤ i < rs_size_bytes root ∧ base < rec_seq (ox_record (ext_value p.2)) ≤ last) as Hm.
  { intros p i Hp Hi. eapply Hmap. unfold contents. rewrite (proj2 (em_find_Some m i p Hwf)) by done. reflexivity. }
  split.
  - apply Forall_forall. intros sl (p & Hp & ->)%all_slices_elem. specialize (Hne p Hp).
    destruct (Hm p p.1 Hp ltac:(lia)) as [? _]. destruct (Hm p (ext_end p.2 - 1) Hp ltac:(lia)) as [? _].
    destruct (Hok p Hp) as (Hr & _ & Ho & Hs & He). destruct (record_ok_len _ Hr) as [_ Hl].
    destruct Hr as [_ (_ & [_ Hlen] & _)]. unfold slice_fits, u32_max, u64_max in *. cbn. lia.
  - intros sl (p & Hp & ->)%all_slices_elem. specialize (Hne p Hp). by apply (Hm p p.1 Hp ltac:(lia)).
Qed.
End overlay.

(** ** Trees that were stored stay stored *)

Section kept.
Context {S B : Type} `{!TreeRecordStore S} `{!TreeView S} `{!TreeRecordStoreLaws S}.
Context `{!BlobStore B} `{!BlobStoreLaws B} `{!TreePublisher S} `{!TreePublisherLaws S}.
Implicit Types (w : S * B) (root : RootSnapshot).

Definition blobs_kept (b b' : B) : Prop := ∀ k blob, blobs b !! k = Some blob → blobs b' !! k = Some blob.

(** Every committed tree reads as before. *)
Definition trees_kept w w' : Prop := ∀ committed root, cow_holds committed w root → cow_holds committed w' root.

(** The node at the end of the path of a chunk is stored. *)
Lemma chunk_leaf_stored g s id chunk leaf :
  geometry_ok g → 0 ≤ chunk → chunk * TREE_CHUNK_BYTES < geo_size_bytes g →
  subtree_ok (mkReader g CowImmutableTree (Some id)) s (Z.to_nat (geo_root_level g)) (root_span g) id →
  find_node s id (chunk_slots g chunk) = Some leaf → ∃ node, see_node s leaf = Ok (Some node).
Proof.
  intros Hg Hc1 Hc2 Hsub Hf.
  destruct (subtree_ok_find _ _ _ O _ _ _ _ ltac:(by rewrite Nat.add_0_r, chunk_slots_length) (descend_root g chunk Hg Hc1 Hc2) Hf)
    as (node & Hn & _). eauto.
Qed.

Lemma leaf_holds_kept committed w w' root root' chunk leaf node :
  old_kept w.1 w'.1 → blobs_kept w.2 w'.2 → see_node w.1 leaf = Ok (Some node) → rs_size_bytes root' = rs_size_bytes root →
  leaf_holds committed w root chunk leaf →
  leaf_holds (λ _, committed root) w' root' chunk leaf.
Proof.
  intros Hk Hb Hn Hs (ref & blob & Hl & Hkind & Hblob & Hfull & Hby). exists ref, blob.
  split; [by rewrite (ok_leaf_ref _ _ Hk leaf node)|]. split; [done|]. split; [by apply Hb|]. split; [done|].
  intros i [Hi Hc]. apply Hby. split; [by rewrite <-Hs|done].
Qed.

Lemma kept_trees w w' : old_kept w.1 w'.1 → blobs_kept w.2 w'.2 → trees_kept w w'.
Proof.
  intros Hk Hb committed root [Hu Hw]. split; [done|]. destruct (rs_tree_format root) as [format|]; [|done].
  destruct Hw as (g & Hg & [Hst Hch]). exists g. split; [done|]. destruct (new_geometry_inv _ _ _ Hu Hg) as (Hgok & Hsz & _).
  split; [intros id Hid; by apply (ok_tree _ _ Hk), Hst|].
  intros chunk Hc1 Hc2. specialize (Hch chunk Hc1 Hc2). unfold chunk_leaf in *.
  destruct (rs_root_node_id root) as [id|]; [|done]. cbn [mbind option_bind] in *. specialize (Hst id eq_refl).
  rewrite (ok_find _ _ Hk (mkReader g CowImmutableTree (Some id)) (chunk_slots g chunk) (root_span g) id (nth_span g 0 chunk)).
  - destruct (find_node w.1 id (chunk_slots g chunk)) as [leaf|] eqn:Hf; [|done].
    destruct (chunk_leaf_stored g w.1 id chunk leaf Hgok Hc1 ltac:(by rewrite Hsz) Hst Hf) as [node Hn].
    by apply (leaf_holds_kept committed w w' root root chunk leaf node).
  - by rewrite chunk_slots_length.
  - apply descend_root; [done|done|by rewrite Hsz].
Qed.

Lemma same_world_kept w w' : same_world w w' → old_kept w.1 w'.1 ∧ blobs_kept w.2 w'.2.
Proof. intros [Hv Hb]. split; [by apply old_kept_view|]. intros k blob. by rewrite Hb. Qed.

(** ** Writing the images *)

Lemma write_chunks_spec keys images : ∀ j chunks written w,
  (∀ j n, BlobKey_new (keys j n) = Ok (keys j n)) → (∀ j j' n n', keys j n = keys j' n' → j = j') →
  bt_sorted images → bt_sorted chunks →
  match write_chunks (S := S) keys j images chunks written w with
  | (Ok (chunks', _), w') =>
      w'.1 = w.1 ∧ bt_sorted chunks' ∧
      (∀ c, match bt_get c images with
            | Some data => ∃ key, bt_get c chunks' = Some (mkCowChunk c key TREE_CHUNK_BYTES) ∧
                BlobKey_new key = Ok key ∧ blobs w'.2 !! key = Some data
            | None => bt_get c chunks' = bt_get c chunks
            end) ∧
      ∀ k, (∀ j' n, (j ≤ j')%nat → k ≠ keys j' n) → blobs w'.2 !! k = blobs w.2 !! k
  | (Err _, w') => w'.1 = w.1 ∧ ∀ k, (∀ j' n, (j ≤ j')%nat → k ≠ keys j' n) → blobs w'.2 !! k = blobs w.2 !! k
  | (Panic, _) => False
  end.
Proof.
  induction images as [|[c data] images IH]; intros j chunks written w Hkeys Hdist Hs Hsc; cbn [write_chunks]; [done|].
  pose proof Hs as [Hlt Hs']%bt_sorted_cons. unfold mseq at 1, zoom. pose proof (put_random_blob_spec (keys j) data w.2) as Hput.
  assert (∀ k, (∀ j' n, (j ≤ j')%nat → k ≠ keys j' n) → ∀ n, k ≠ keys j n) as Hfresh by (intros k Hk n; by apply Hk).
  destruct (put_random_blob (keys j) data w.2) as [[key|e|] b']; [| |done].
  2: { split; [done|]. intros k Hk. apply Hput. by apply Hfresh. }
  destruct Hput as ((n & ->) & Hget & Hother). unfold mlift at 1, mseq at 1.
  unfold CowChunkRef_new. rewrite Z.eqb_refl. cbn [negb map_err].
  specialize (IH (Datatypes.S j) (bt_insert c (mkCowChunk c (keys j n) TREE_CHUNK_BYTES) chunks) (u64_add written 1) (set_snd b' w)
    Hkeys Hdist Hs' ltac:(by apply bt_insert_sorted)).
  assert (∀ k, (∀ j' n, (j ≤ j')%nat → k ≠ keys j' n) → ∀ j' n, (Datatypes.S j ≤ j')%nat → k ≠ keys j' n) as Hle.
  { intros k Hk j' n' Hj. apply Hk. lia. }
  destruct (write_chunks _ _ images _ _ _) as [[[chunks' written']|e|] w']; [| |done].
  - destruct IH as (Hw1 & Hsort & Hc & Hb). split; [done|]. split; [done|]. split.
    + intros c'. specialize (Hc c'). cbn [bt_get]. destruct (Z.eqb_spec c' c) as [->|Hne].
      * assert (bt_get c images = None) as Hnone by (apply bt_get_None; intros p Hp; specialize (Hlt p Hp); lia).
        rewrite Hnone, bt_get_insert, Z.eqb_refl in Hc by done. exists (keys j n). split; [done|]. split; [done|].
        rewrite Hb; [done|]. intros j' n' Hj Heq. apply Hdist in Heq. lia.
      * destruct (bt_get c' images) as [d|]; [done|]. rewrite Hc, bt_get_insert by done. by rewrite (proj2 (Z.eqb_neq _ _)).
    + intros k Hk. rewrite Hb by (by apply Hle). apply Hother. by apply Hfresh.
  - destruct IH as [Hw1 Hb]. split; [done|]. intros k Hk. rewrite Hb by (by apply Hle). apply Hother. by apply Hfresh.
Qed.

(** The references of the images that were written. *)
Definition chunks_written images (chunks : btree CowChunkRef) (b : B) : Prop :=
  bt_sorted chunks ∧
  ∀ c, match bt_get c images with
       | Some data => ∃ key, bt_get c chunks = Some (mkCowChunk c key TREE_CHUNK_BYTES) ∧
           BlobKey_new key = Ok key ∧ blobs b !! key = Some data
       | None => bt_get c chunks = None
       end.

Lemma chunks_written_elem images chunks b ref :
  chunks_written images chunks b → ref ∈ chunks.*2 →
  ∃ data, bt_get (cc_chunk_index ref) images = Some data ∧ BlobKey_new (cc_blob_key ref) = Ok (cc_blob_key ref) ∧
    blobs b !! cc_blob_key ref = Some data.
Proof.
  intros [Hs Hc] ([c ref'] & -> & Hin)%list_elem_of_fmap. apply bt_get_elem in Hin; [|done]. specialize (Hc c).
  destruct (bt_get c images) as [data|] eqn:Hd; [|congruence]. destruct Hc as (key & Hget & Hkey & Hb).
  rewrite Hin in Hget. injection Hget as ->. cbn. eauto.
Qed.

Lemma chunks_written_index images chunks b :
  chunks_written images chunks b → cc_chunk_index <$> chunks.*2 = chunks.*1.
Proof.
  intros [Hs Hc]. rewrite <-list_fmap_compose. apply list_fmap_ext. intros k [c ref] Hk. cbn.
  apply list_elem_of_lookup_2, bt_get_elem in Hk; [|done]. specialize (Hc c).
  destruct (bt_get c images) as [data|]; [|congruence]. destruct Hc as (key & Hget & _). rewrite Hk in Hget. by injection Hget as ->.
Qed.

(** A tree that leads to the blobs of the images holds their bytes. *)
Lemma published_holds committed committed' root ids export_id g format through chunks images f w s' b' new_root :
  cow_holds committed w root → rs_tree_format root = Some format → TreeGeometry_new format (rs_size_bytes root) = Ok g →
  images_ok committed root f images → chunks_written images chunks b' → blobs_kept w.2 b' →
  replaced ids export_id g root through format chunks.*2 w.1 new_root s' →
  (∀ i, 0 ≤ i < rs_size_bytes root → committed' new_root i = f i) →
  cow_holds committed' (s', b') new_root.
Proof.
  intros [Hu Hw] Hfmt Hg Him Hcw Hb (-> & _ & _ & _ & Hk & Hsub & Hnew & Hold) Hf. set (new_root := mkRoot _) in *.
  rewrite Hfmt in Hw. destruct Hw as (g' & Hg' & [Hst Hch]). rewrite Hg in Hg'. injection Hg' as <-.
  destruct (new_geometry_inv _ _ _ Hu Hg) as (Hgok & Hsz & _).
  split; [done|]. exists g. split; [done|]. split; [by intros id [= <-]|]. intros chunk Hc1 Hc2.
  change (rs_size_bytes new_root) with (rs_size_bytes root) in Hc2. unfold chunk_leaf. cbn [mbind option_bind rs_root_node_id new_root rs_backing fst].
  pose proof (proj2 Hcw chunk) as Hcc. destruct (bt_get chunk images) as [data|] eqn:Hget.
  - destruct Hcc as (key & Hc & Hkey & Hblob). destruct (im_chunk _ _ _ _ Him chunk data Hget) as (_ & _ & Hlen & Hby).
    destruct (Hnew (mkCowChunk chunk key TREE_CHUNK_BYTES)) as (leaf & Hfind & Hsee).
    { apply list_elem_of_fmap. exists (chunk, mkCowChunk chunk key TREE_CHUNK_BYTES). split; [done|]. apply bt_get_elem; [apply Hcw|done]. }
    cbn [cc_chunk_index] in Hfind. rewrite Hfind. exists (mkTreeLeafRef leaf ImmutableBlob key TREE_CHUNK_BYTES), data. split; [done|]. split; [done|]. split; [done|]. split; [done|].
    intros i Hi. rewrite Hf by apply Hi. by apply Hby.
  - rewrite Hold; [|split; [done|by rewrite Hsz]|].
    2: { rewrite (chunks_written_index _ _ _ Hcw). intros ([c ref] & -> & Hin)%list_elem_of_fmap.
         apply bt_get_elem in Hin; [|apply Hcw]. cbn in *. congruence. }
    specialize (Hch chunk Hc1 Hc2). unfold chunk_leaf, old_at in *.
    assert (∀ i, in_chunk root chunk i → committed' new_root i = committed root i) as Heq.
    { intros i [Hi Hic]. rewrite Hf by done. apply (im_rest _ _ _ _ Him); [done|]. by rewrite Hic. }
    destruct (rs_root_node_id root) as [id|]; cbn [mbind option_bind] in *; [|intros i Hi; by rewrite Heq, Hch].
    destruct (find_node w.1 id (chunk_slots g chunk)) as [leaf|] eqn:Hfind; [|intros i Hi; by rewrite Heq, Hch].
    destruct (chunk_leaf_stored g w.1 id chunk leaf Hgok Hc1 ltac:(by rewrite Hsz) (Hst id eq_refl) Hfind) as [node Hn].
    destruct (leaf_holds_kept committed w (s', b') root new_root chunk leaf node Hk Hb Hn eq_refl Hch) as (ref & blob & Hp1 & Hp2 & Hp3 & Hp5 & Hp4).
    exists ref, blob. split; [done|]. split; [done|]. split; [done|]. split; [done|]. intros i Hi. rewrite Heq by done. by apply Hp4.
Qed.

(** ** The compactor *)

(** Identifiers and keys that are drawn at random: valid, distinct, and the keys not in use. *)
Record draws_ok (keys : nat → nat → BlobKey) (ids : nat → string) (b : B) : Prop := {
  dr_ids : ∀ k, NodeId_new (ids k) = Ok (ids k);
  dr_ids_inj : Inj (=) (=) ids;
  dr_keys : ∀ j n, BlobKey_new (keys j n) = Ok (keys j n);
  dr_keys_distinct : ∀ j j' n n', keys j n = keys j' n' → j = j';
  dr_keys_fresh : ∀ j n, blobs b !! keys j n = None;
}.

(** The bytes of a snapshot: its overlay over the committed tree. *)
Definition snapshot_byte (committed : RootSnapshot → Z → byte) (snapshot : ReadViewCompactionSnapshot) (i : Z) : byte :=
  default (committed (sn_root snapshot) i) (overlay_byte (sn_overlay snapshot) i).

(** Blobs under keys that were not drawn are as they were. *)
Definition only_keys (keys : nat → nat → BlobKey) w w' : Prop :=
  ∀ k, (∀ j n, k ≠ keys j n) → blobs w'.2 !! k = blobs w.2 !! k.

(** The head of the export is as it was. *)
Definition head_kept (export_id : ExportId) w w' : Prop := see_head w'.1 export_id = see_head w.1 export_id.

(** The head of the export was [root] and is [new_root]. *)
Definition head_moved (export_id : ExportId) root new_root w w' : Prop :=
  ∃ old head, to_export_head root = Ok old ∧ see_head w.1 export_id = Ok old ∧
    to_export_head new_root = Ok head ∧ see_head w'.1 export_id = Ok head.

Definition compacted committed export_id snapshot w w' (result : CompactionResult) : Prop :=
  match cr_outcome result, cr_published_root result with
  | OutcomePublished, Some new_root =>
      rs_base_wal_seq new_root = sn_target_wal_seq snapshot ∧
      rs_size_bytes new_root = rs_size_bytes (sn_root snapshot) ∧ is_zero_backed new_root = false ∧
      head_moved export_id (sn_root snapshot) new_root w w' ∧
      ∀ committed', (∀ i, 0 ≤ i < rs_size_bytes new_root → committed' new_root i = snapshot_byte committed snapshot i) →
        cow_holds committed' w' new_root
  | OutcomeStalePlan, None | OutcomeNoRecords, None => head_kept export_id w w'
  | _, _ => False
  end.

(** A root without a format cannot be replaced. *)
Lemma publish_without_format ids export_id root through chunks (s : S) :
  rs_tree_format root = None →
  ∃ o, publish_lazy_compaction ids export_id root through chunks s = (o, s) ∧
    match o with Ok (OutcomeNoRecords, None) | Err _ => True | _ => False end.
Proof. intros Hf. destruct chunks as [|c chunks]; [by eexists|]. eexists. unfold publish_lazy_compaction. rewrite Hf. by cbn. Qed.

Lemma compact_publish_spec keys ids export_id committed snapshot w (w1 : S) images f chunks b' :
  let root := sn_root snapshot in
  draws_ok keys ids w.2 → ExportId_new export_id = Ok export_id → store_valid w.1 → cow_holds committed w root →
  images_ok committed root f images → (∀ i, 0 ≤ i < rs_size_bytes root → f i = snapshot_byte committed snapshot i) →
  same_view w.1 w1 → chunks_written images chunks b' → blobs_kept w.2 b' →
  match publish_lazy_compaction ids export_id root (sn_target_wal_seq snapshot) chunks.*2 w1 with
  | (Ok (outcome, published), s') => trees_kept w (s', b') ∧ store_valid s' ∧
      ∀ records written base, compacted committed export_id snapshot w (s', b')
        (mkCompaction export_id base (sn_target_wal_seq snapshot) records written outcome published)
  | (Err _, s') => trees_kept w (s', b') ∧ store_valid s' ∧ head_kept export_id w (s', b')
  | (Panic, _) => False
  end.
Proof.
  intros root [Hids Hinj _ _ _] Hexp Hvalid Hw Him Hf Hv Hcw Hb. pose proof Hw as [Hu Hform].
  assert (∀ s', same_view w1 s' → trees_kept w (s', b') ∧ store_valid s' ∧ head_kept export_id w (s', b')) as Hsame.
  { intros s' Hs. assert (same_view w.1 s') as Hs' by by etrans. split; [|split; [by apply (sv_valid _ _ Hs')|apply (sv_head _ _ Hs')]].
    apply kept_trees; [by apply old_kept_view|done]. }
  destruct (rs_tree_format root) as [format|] eqn:Hfmt.
  2: { destruct (publish_without_format ids export_id root (sn_target_wal_seq snapshot) chunks.*2 w1 Hfmt) as (o & -> & Ho).
       destruct (Hsame w1 ltac:(done)) as (? & ? & ?). destruct o as [[[] []]| |]; done. }
  destruct Hform as (g & Hg & Htree). destruct (new_geometry_inv _ _ _ Hu Hg) as (_ & Hsz & _).
  assert (same_world w (w1, w.2)) as Hw1 by (by split). pose proof (cow_holds_same _ _ _ _ Hw1 Hw) as Hwh.
  pose proof (publish_lazy_spec ids g format export_id root (sn_target_wal_seq snapshot) chunks.*2 w1 Hids Hinj Hexp Hu Hfmt Hg) as Hpub.
  destruct (publish_lazy_compaction _ _ _ _ _ w1) as [[[outcome published]|e|] s'].
  all: specialize (Hpub ltac:(intros id Hid; apply (subtree_ok_view _ w.1); [done|by apply (th_stored _ _ _ _ Htree)])).
  all: specialize (Hpub ltac:(apply Forall_forall; intros ref Hin; destruct (chunks_written_elem _ _ _ _ Hcw Hin) as (d & Hd & Hk & _);
    destruct (im_chunk _ _ _ _ Him _ _ Hd) as (? & ? & _); split; [split; [done|by rewrite Hsz]|done])).
  all: specialize (Hpub ltac:(rewrite (chunks_written_index _ _ _ Hcw); by apply bt_sorted_NoDup, Hcw) (sv_valid _ _ Hv Hvalid)).
  - destruct outcome, published as [new_root|]; try done.
    + destruct Hpub as [_ Hrep]. pose proof Hrep as (Hroot & Hheads & Hvalid' & _ & Hk & _).
      split; [|split; [done|]].
      * intros cm r Hr. apply (kept_trees (w1, w.2) (s', b')); [done|done|]. by apply (cow_holds_same _ w).
      * intros records written base. split; [by rewrite Hroot|]. split; [by rewrite Hroot|]. split; [by rewrite Hroot|]. split; [by destruct Hheads as (old & head & ? & Hh & ? & ?); exists old, head; rewrite (sv_head _ _ Hv) in Hh|]. intros cm Hcm.
        apply (published_holds committed cm root ids export_id g format (sn_target_wal_seq snapshot) chunks images f (w1, w.2)); try done.
        intros i Hi. rewrite Hf by done. apply Hcm. by rewrite Hroot.
    + destruct (Hsame s' Hpub) as (? & ? & ?). by split; [|split].
    + destruct Hpub as [_ ->]. destruct (Hsame w1 ltac:(done)) as (? & ? & ?). by split; [|split].
  - by apply Hsame.
  - done.
Qed.

Lemma compact_snapshot_spec keys ids export_id committed snapshot w :
  let root := sn_root snapshot in
  draws_ok keys ids w.2 → ExportId_new export_id = Ok export_id → store_valid w.1 → cow_holds committed w root →
  overlay_for (rs_size_bytes root) (rs_base_wal_seq root) (sn_target_wal_seq snapshot) (sn_overlay snapshot) →
  match compact_snapshot keys ids export_id snapshot w with
  | (Ok result, w') => trees_kept w w' ∧ store_valid w'.1 ∧ only_keys keys w w' ∧ compacted committed export_id snapshot w w' result
  | (Err _, w') => trees_kept w w' ∧ store_valid w'.1 ∧ only_keys keys w w' ∧ head_kept export_id w w'
  | (Panic, _) => False
  end.
Proof.
  intros root Hdraw Hexp Hvalid Hw Hov. pose proof Hw as [Hu _]. unfold compact_snapshot. fold root.
  assert (∀ w', same_world w w' → trees_kept w w' ∧ store_valid w'.1 ∧ only_keys keys w w' ∧ head_kept export_id w w') as Hsame.
  { intros w' Hs. destruct (same_world_kept w w' Hs) as [Hk Hb]. split; [by apply kept_trees|]. split; [by apply (sv_valid _ _ (proj1 Hs))|]. split; [|apply (sv_head _ _ (proj1 Hs))].
    intros k _. by rewrite (proj2 Hs). }
  destruct (Hsame w ltac:(done)) as (Hp1 & Hp2 & Hp3 & Hp4). destruct (sn_target_wal_seq snapshot <=? rs_base_wal_seq root); [done|].
  destruct (all_slices_fit root _ _ _ Hu Hov) as [Hfit Hseq].
  assert (∀ i, slices_over (all_slices (sn_overlay snapshot)) (committed root) i = snapshot_byte committed snapshot i) as Hover.
  { intros i. apply slices_over_overlay, (of_inv _ _ _ _ Hov). }
  set (slices := all_slices (sn_overlay snapshot)) in *. destruct slices as [|sl0 slices0] eqn:Hsl; [done|].
  rewrite <-Hsl in *. clear sl0 slices0 Hsl.
  pose proof (merge_slices_spec committed root w Hw (sn_target_wal_seq snapshot) slices (committed root) ∅ [] w Hu Hfit Hseq ltac:(done)) as Hm.
  specialize (Hm ltac:(split; [constructor|done|done])). unfold mseq at 1.
  destruct (merge_slices _ _ _ _ _ w) as [[[visible images]|e|] w1]; [|by apply Hsame|done]. destruct Hm as [Him Hw1].
  pose proof (write_chunks_spec keys images O [] 0 w1 (dr_keys _ _ _ Hdraw) (dr_keys_distinct _ _ _ Hdraw)
    (im_sorted _ _ _ _ Him) ltac:(constructor)) as Hwr.
  assert (∀ b', (∀ k, (∀ j' n, (0 ≤ j')%nat → k ≠ keys j' n) → blobs b' !! k = blobs w1.2 !! k) → blobs_kept w.2 b') as Hkept.
  { intros b' Hb k blob Hk. rewrite Hb, (proj2 Hw1); [done|]. intros j n _ ->. by rewrite (dr_keys_fresh _ _ _ Hdraw) in Hk. }
  assert (∀ w', (∀ k, (∀ j' n, (0 ≤ j')%nat → k ≠ keys j' n) → blobs w'.2 !! k = blobs w1.2 !! k) → only_keys keys w w') as Honly.
  { intros w' Hb k Hk. rewrite Hb, (proj2 Hw1); [done|]. intros j n _. apply Hk. }
  unfold mseq at 1. destruct (write_chunks keys _ images _ _ w1) as [[[chunks written]|e|] w2]; [| |done].
  2: { destruct Hwr as [Heq Hb]. split.
       - apply kept_trees; [rewrite Heq; by apply old_kept_view, Hw1|by apply Hkept].
       - unfold head_kept. rewrite Heq. split; [by apply (sv_valid _ _ (proj1 Hw1))|].
         split; [by apply Honly|apply (sv_head _ _ (proj1 Hw1))]. }
  destruct Hwr as (Heq & Hsort & Hc & Hb). unfold mseq, zoom, set_fst.
  pose proof (compact_publish_spec keys ids export_id committed snapshot w w2.1 images
    (slices_over slices (committed root)) chunks w2.2 Hdraw Hexp Hvalid Hw Him) as Hpub.
  specialize (Hpub ltac:(intros i _; apply Hover) ltac:(rewrite Heq; by apply Hw1) ltac:(by split) ltac:(by apply Hkept)).
  fold root in Hpub. destruct (publish_lazy_compaction _ _ _ _ _ w2.1) as [[[outcome published]|e|] s']; [| |done].
  2: { destruct Hpub as (Hq1 & Hq2 & Hq3). split; [done|]. split; [done|]. split; [by apply (Honly w2)|done]. }
  destruct Hpub as (Hq1 & Hq2 & Hq3). split; [done|]. split; [done|]. split; [by apply (Honly w2)|]. apply Hq3.
Qed.
End kept.

(** ** The view while a compaction runs *)

Section view.
Context (committed : RootSnapshot → Z → byte).
Implicit Types (v : ExportReadViewState).

(** Reads and writes, but no new root. *)
Definition keeps_root (ev : ViewEvent) : bool :=
  match ev with EvAdvance _ | EvAdvanceCompaction _ _ => false | _ => true end.

(** The view has gone on from [v0] over the same root. *)
Record later v0 v : Prop := {
  lt_root : vs_root v = vs_root v0;
  lt_seq : vs_last_applied_seq v0 ≤ vs_last_applied_seq v;
  lt_debt : vs_wal_debt_bytes v0 ≤ vs_wal_debt_bytes v;
  lt_contents : ∀ i, contents overlay_view (vs_overlay v) i = contents overlay_view (vs_overlay v0) i ∨
    ∃ r ob, contents overlay_view (vs_overlay v) i = Some (r, ob) ∧ vs_last_applied_seq v0 < rec_seq r;
}.

Lemma later_steps v0 evs v :
  view_inv committed v0 → view_steps committed v0 evs v → Forall (λ ev, keeps_root ev = true) evs → later v0 v.
Proof.
  intros Hv0. induction 1 as [|evs ev v1 v2 Hsteps IH Hstep]; intros Hall.
  { split; [done|lia|lia|by left]. }
  apply Forall_app in Hall as [Hall [Hev _]%Forall_cons]. destruct (IH Hall) as [Hroot Hseq Hdebt Hc].
  destruct (view_steps_spec _ _ _ _ Hv0 Hsteps) as (Hv1 & _). destruct Hstep as [ev v2 [Hroom Hok] Hrun _].
  destruct ev as [range plan|plan fills|record|new_root|new_root sn]; cbn [run_event] in Hrun; try discriminate Hev.
  - injection Hrun as <-. done.
  - destruct Hok as [Hb Ht]. destruct (read_finish_spec committed plan fills v1 _ Hv1 Hroom Hb Ht) as (c' & Hrun' & _).
    rewrite Hrun in Hrun'. injection Hrun' as ->. done.
  - destruct (apply_wal_record_guards record v1 v2 Hrun ltac:(destruct (vi_seqs _ _ Hv1); lia)) as (Hsz & Hs & Hu).
    destruct (apply_wal_record_spec committed record v1 Hv1 Hok Hsz Hs Hu (apply_wal_record_debt committed record v1 v2 Hv1 Hok Hrun))
      as (v3 & Hrun' & Hv3 & Hroot3 & Hseq3 & Hdebt3 & _ & _ & Hc3 & _).
    rewrite Hrun in Hrun'. injection Hrun' as <-. split; [congruence|lia|unfold zlen in *; lia|].
    intros i. rewrite Hc3. case_bool_decide; [|apply Hc]. right. exists record, (record_byte record i). split; [done|]. lia.
Qed.

Lemma capture_inv v snapshot :
  capture_compaction_snapshot v = Some snapshot →
  snapshot = mkSnapshot (vs_root v) (vs_last_applied_seq v) (vs_wal_debt_bytes v) (vs_overlay v) ∧
  rs_base_wal_seq (vs_root v) < vs_last_applied_seq v.
Proof.
  unfold capture_compaction_snapshot. destruct (Z.leb_spec (vs_last_applied_seq v) (rs_base_wal_seq (vs_root v))); [done|].
  cbn. destruct (overlay_is_empty _); [done|]. by intros [= <-].
Qed.

(** The bytes of the roots, with those of a new one. *)
Definition with_root_bytes (new_root : RootSnapshot) (bytes : Z → byte) (root : RootSnapshot) : Z → byte :=
  if bool_decide (root = new_root) then bytes else committed root.

Lemma view_inv_bytes committed' v :
  committed' (vs_root v) = committed (vs_root v) → view_inv committed v → view_inv committed' v.
Proof.
  intros Heq [Hs Ho Hq Hr Hc Hd]. split; [done..| |done]. intros i b Hb. unfold coherent. rewrite Heq. by apply Hc.
Qed.

Lemma later_contract v0 v snapshot new_root :
  view_inv committed v0 → capture_compaction_snapshot v0 = Some snapshot → later v0 v →
  rs_base_wal_seq new_root = sn_target_wal_seq snapshot → rs_size_bytes new_root = rs_size_bytes (vs_root v0) →
  advance_contract (with_root_bytes new_root (snapshot_byte committed snapshot)) new_root v.
Proof.
  intros Hv0 [-> Hlt]%capture_inv [Hroot Hseq _ Hc] Hbase Hsize. cbn in Hbase.
  split; [congruence|]. intros i Hi. unfold with_root_bytes, snapshot_byte. cbn [sn_root sn_overlay]. rewrite Hroot.
  rewrite (bool_decide_true (new_root = new_root)) by done. rewrite bool_decide_false by congruence || (intros Heq; rewrite Heq in *; lia).
  pose proof (of_inv _ _ _ _ (vi_overlay _ _ Hv0)) as Hinv.
  unfold overlay_byte. destruct (Hc i) as [->|(r & ob & -> & Hr)]; [|lia].
  destruct (contents overlay_view (vs_overlay v0) i) as [[r ob]|] eqn:H0; [|done].
  destruct (overlay_contents_byte _ _ _ _ Hinv H0) as [b ->]. done.
Qed.

(** Installing the root of a compaction in the view as it is by then. *)
Lemma install_spec v0 v snapshot new_root :
  view_inv committed v0 → capture_compaction_snapshot v0 = Some snapshot → later v0 v → view_inv committed v →
  cache_room (rs_size_bytes (vs_root v)) (vs_cache v) →
  rs_base_wal_seq new_root = sn_target_wal_seq snapshot → rs_size_bytes new_root = rs_size_bytes (sn_root snapshot) →
  let committed' := with_root_bytes new_root (snapshot_byte committed snapshot) in
  ∃ v', advance_after_compaction new_root snapshot v = (Ok tt, v') ∧ vs_root v' = new_root ∧ view_inv committed' v' ∧
    vs_last_applied_seq v' = vs_last_applied_seq v ∧
    ∀ i, 0 ≤ i < rs_size_bytes (vs_root v0) → visible committed' v' i = visible committed v i.
Proof.
  intros Hv0 Hcap Hlater Hv Hroom Hbase Hsize committed'. pose proof Hlater as [Hroot Hseq Hdebt _].
  pose proof (capture_inv v0 snapshot Hcap) as [Hsnap Hlt].
  pose proof (later_contract v0 v snapshot new_root Hv0 Hcap Hlater Hbase ltac:(by rewrite Hsize, Hsnap)) as Hcon.
  assert (vs_root v ≠ new_root) as Hne by (rewrite Hsnap in Hbase; cbn in Hbase; intros <-; rewrite Hroot in Hbase; lia).
  assert (committed' (vs_root v) = committed (vs_root v)) as Heq by (unfold committed', with_root_bytes; by rewrite bool_decide_false).
  pose proof (view_inv_bytes committed' v Heq Hv) as Hv'. pose proof (vi_debt _ _ Hv0) as Hd0.
  assert (rs_base_wal_seq (sn_root snapshot) = rs_base_wal_seq (vs_root v) ∧ sn_target_wal_seq snapshot = vs_last_applied_seq v0 ∧
    sn_wal_debt_bytes snapshot = vs_wal_debt_bytes v0) as (Hp1 & Hp2 & Hp3) by (rewrite Hsnap, Hroot; done).
  destruct (advance_after_compaction_spec committed' new_root snapshot v Hv' Hroom Hcon Hp1 Hbase)
    as (v' & Hadv & Hinv & Hr & Hl & _ & Hvis); [rewrite Hp2, Hroot; lia|lia|].
  exists v'. split; [done|]. split; [done|]. split; [done|]. split; [done|].
  intros i Hi. rewrite Hvis by (by rewrite Hroot). unfold visible. by rewrite Heq.
Qed.
End view.

(** ** Properties *)

(** C7: compaction is correct, end to end.  Over any record store and blob store that keep their laws,
    compacting a snapshot whose overlay is valid either fails with an error, finds nothing to do or a
    stale head, or publishes a new root; a published root has the target of the snapshot as its base
    and the same size, and its tree and blobs hold, at every byte of the export, the byte of the overlay
    where it has one and the committed byte elsewhere, and the head of the export, which was the root of
    the snapshot, is that root; otherwise the head is as it was.  Whatever the outcome, every tree that was
    stored before still reads the same, blobs are written under the drawn keys only, and compaction
    never panics. *)
Theorem compact_snapshot_correct {S B : Type} `{!TreeRecordStore S} `{!TreeView S} `{!TreeRecordStoreLaws S}
    `{!BlobStore B} `{!BlobStoreLaws B} `{!TreePublisher S} `{!TreePublisherLaws S}
    keys ids export_id committed snapshot (w : S * B) :
  let root := sn_root snapshot in
  draws_ok keys ids w.2 → ExportId_new export_id = Ok export_id → store_valid w.1 → cow_holds committed w root →
  overlay_for (rs_size_bytes root) (rs_base_wal_seq root) (sn_target_wal_seq snapshot) (sn_overlay snapshot) →
  match compact_snapshot keys ids export_id snapshot w with
  | (Ok result, w') => trees_kept w w' ∧ store_valid w'.1 ∧ only_keys keys w w' ∧
      match cr_outcome result, cr_published_root result with
      | OutcomePublished, Some new_root =>
          rs_base_wal_seq new_root = sn_target_wal_seq snapshot ∧
          rs_size_bytes new_root = rs_size_bytes (sn_root snapshot) ∧ is_zero_backed new_root = false ∧
          head_moved export_id (sn_root snapshot) new_root w w' ∧
          ∀ committed', (∀ i, 0 ≤ i < rs_size_bytes new_root → committed' new_root i = snapshot_byte committed snapshot i) →
            cow_holds committed' w' new_root
      | OutcomeStalePlan, None | OutcomeNoRecords, None => head_kept export_id w w'
      | _, _ => False
      end
  | (Err _, w') => trees_kept w w' ∧ store_valid w'.1 ∧ only_keys keys w w' ∧ head_kept export_id w w'
  | (Panic, _) => False
  end.
Proof. apply compact_snapshot_spec. Qed.

(** C8: a compaction is invisible to the clients of the export.  A snapshot of the view is taken and
    compacted while reads and writes go on; when the compaction publishes, installing the new root
    in the view as it is by then succeeds, the new tree and blobs hold the bytes the new root
    stands for, the invariant of the view is kept, and no byte of the export changes. *)
Theorem compaction_invisible {S B : Type} `{!TreeRecordStore S} `{!TreeView S} `{!TreeRecordStoreLaws S}
    `{!BlobStore B} `{!BlobStoreLaws B} `{!TreePublisher S} `{!TreePublisherLaws S}
    keys ids export_id committed snapshot (w w' : S * B) result v0 evs v :
  draws_ok keys ids w.2 → ExportId_new export_id = Ok export_id → store_valid w.1 →
  view_inv committed v0 → cow_holds committed w (vs_root v0) → capture_compaction_snapshot v0 = Some snapshot →
  compact_snapshot keys ids export_id snapshot w = (Ok result, w') → cr_outcome result = OutcomePublished →
  view_steps committed v0 evs v → Forall (λ ev, keeps_root ev = true) evs →
  cache_room (rs_size_bytes (vs_root v)) (vs_cache v) →
  ∃ new_root v', cr_published_root result = Some new_root ∧
    advance_after_compaction new_root snapshot v = (Ok tt, v') ∧ vs_root v' = new_root ∧
    let committed' := with_root_bytes committed new_root (snapshot_byte committed snapshot) in
    cow_holds committed' w' new_root ∧ view_inv committed' v' ∧
    ∀ i, 0 ≤ i < rs_size_bytes (vs_root v0) → visible committed' v' i = visible committed v i.
Proof.
  intros Hdraw Hexp Hvalid Hv0 Hw Hcap Hrun Hout Hsteps Hkeep Hroom.
  pose proof (later_steps committed v0 evs v Hv0 Hsteps Hkeep) as Hlater.
  destruct (view_steps_spec _ _ _ _ Hv0 Hsteps) as (Hv & _). pose proof (capture_inv v0 snapshot Hcap) as [Hsnap _].
  pose proof (compact_snapshot_spec keys ids export_id committed snapshot w Hdraw Hexp Hvalid) as Hc.
  rewrite Hrun in Hc. destruct Hc as (_ & _ & _ & Hc); [by rewrite Hsnap|rewrite Hsnap; apply (vi_overlay _ _ Hv0)|].
  unfold compacted in Hc. rewrite Hout in Hc. destruct (cr_published_root result) as [new_root|]; [|done].
  destruct Hc as (Hbase & Hsize & _ & _ & Hholds).
  destruct (install_spec committed v0 v snapshot new_root Hv0 Hcap Hlater Hv Hroom Hbase Hsize) as (v' & Hadv & Hr & Hinv & _ & Hvis).
  exists new_root, v'. split; [done|]. split; [done|]. split; [done|]. split; [|by split].
  apply Hholds. intros i _. unfold with_root_bytes. by rewrite bool_decide_true.
Qed.

(** A fresh export with one write, and its compaction. *)
Definition fresh_world : SqliteDb * Fs :=
  (run_ops [OpCreate "id-1" (Some 1%N) (mkCreateExport "disk" 4096 512 WalDurable)] (mkDatabase Tables_empty []), mkFs ∅ []).
Definition fresh_view : ExportReadViewState := ExportReadView_new (mkRoot (BackingCowHead None 0 4096 Bounded32V1)).
Definition fresh_write : WalRecord := sample_write 1 100 (le_bytes 4 258).
Definition written_view : ExportReadViewState := (apply_wal_record fresh_write fresh_view).2.
Definition written_snapshot : ReadViewCompactionSnapshot :=
  mkSnapshot (vs_root written_view) 1 4 (vs_overlay written_view).
Definition sample_keys (j n : nat) : BlobKey := sample_id j.

Lemma sample_key_valid j : BlobKey_new (sample_id j) = Ok (sample_id j).
Proof.
  assert (∀ c, str_contains c "n" = false → str_contains c (sample_id j) = false) as Hc.
  { intros c Hne. induction j as [|j IH]; [done|].
    change (str_contains c (String (Ascii.Ascii false true true true false true true false) (sample_id j)) = false).
    cbn in Hne |- *. rewrite orb_false_r in Hne. by rewrite Hne. }
  unfold BlobKey_new. rewrite !Hc by done. by destruct j.
Qed.

Lemma sample_draws : draws_ok sample_keys sample_id fresh_world.2.
Proof.
  split; [apply sample_id_valid|apply sample_id_inj|intros j n; apply sample_key_valid| |done].
  intros j j' n n'. apply sample_id_inj.
Qed.

Lemma fresh_valid : store_valid fresh_world.1.
Proof. apply run_ops_ok, tables_empty_ok. Qed.

Lemma fresh_holds : cow_holds zero_committed fresh_world (vs_root written_view).
Proof.
  split; [by_compute|]. exists one_chunk_geometry. split; [reflexivity|]. split; [done|]. done.
Qed.

Lemma fresh_view_inv : view_inv zero_committed written_view.
Proof.
  assert (view_inv zero_committed fresh_view) as Hv.
  { apply new_view_inv; [by_compute|by_compute|by_compute|]. apply ReadCache_new_ready. by_compute. }
  destruct (apply_wal_record_spec zero_committed fresh_write fresh_view Hv) as (v' & Hrun & Hv' & _); try by_compute.
  unfold written_view. by rewrite Hrun.
Qed.

(** The image of the chunk is kept abstract: it has 32 MiB. *)
Lemma written_merge :
  ∃ data, merge_slices (vs_root written_view) 1 (all_slices (vs_overlay written_view)) ∅ [] fresh_world
    = (Ok ({[1]} ∪ ∅, [(0, data)]), fresh_world).
Proof.
  assert (all_slices (vs_overlay written_view) = [mkSlice 100 104 fresh_write 0]) as -> by by vm_compute.
  cbn [merge_slices]. erewrite mseq_ok by (by vm_compute).
  pose proof chunk_bytes_value as HC.
  assert (zlen (zeros TREE_CHUNK_BYTES) = TREE_CHUNK_BYTES) as Hz by (rewrite zeros_length; lia).
  assert (load_committed_chunk (vs_root written_view) 0 fresh_world = (Ok (zeros TREE_CHUNK_BYTES), fresh_world)) as Hload.
  { unfold load_committed_chunk. change (rs_tree_format (vs_root written_view)) with (Some Bounded32V1).
    change (TreeGeometry_new Bounded32V1 (rs_size_bytes (vs_root written_view))) with (@Ok ServerError _ one_chunk_geometry). reflexivity. }
  destruct (splice_exists (zeros TREE_CHUNK_BYTES) 100 (le_bytes 4 258) ltac:(lia) ltac:(rewrite Hz, HC; by_compute)) as [data Hdata].
  destruct (slice_exists (zeros TREE_CHUNK_BYTES) 100 104 ltac:(lia) ltac:(rewrite Hz; lia)) as [dst Hdst].
  exists data. erewrite mseq_ok; [reflexivity|]. unfold apply_overlay_slice_to_chunks.
  erewrite mseq_ok by reflexivity. cbn [sl_start sl_end]. change (Z.to_nat _) with 2%nat. change (u64_sub 104 100) with 4.
  cbn [apply_slice_loop]. change (0 <? 4) with true. cbv iota. change (u64_add (sl_start _) 0) with 100.
  change (100 / TREE_CHUNK_BYTES) with 0. change (100 mod TREE_CHUNK_BYTES) with 100.
  do 3 (erewrite mseq_ok by reflexivity). unfold load_or_create_root_chunk. cbn [bt_get].
  rewrite (mseq_ok _ _ _ (zeros TREE_CHUNK_BYTES, bt_insert 0 (zeros TREE_CHUNK_BYTES) []) fresh_world).
  2: { by rewrite (mseq_ok _ _ _ _ _ Hload). }
  change ((TREE_CHUNK_BYTES - 100) `min` (4 - 0)) with 4. change (100 + 4) with 104. rewrite Hdst. erewrite mseq_ok by reflexivity.
  erewrite (mseq_ok (mlift (or_panic (Prelude.slice (rec_data _) _ _))) _ _ (le_bytes 4 258)) by (by vm_compute).
  rewrite Hdata. erewrite mseq_ok by reflexivity. reflexivity.
Qed.

Lemma written_compacts :
  ∃ result w', compact_snapshot (TreePublisher0 := sqlite_publisher (Some 3%N)) sample_keys sample_id "id-1" written_snapshot fresh_world
    = (Ok result, w') ∧ cr_outcome result = OutcomePublished.
Proof.
  destruct written_merge as [data Hm].
  unfold compact_snapshot. change (sn_target_wal_seq written_snapshot <=? _) with false. cbv iota zeta.
  change (sn_root written_snapshot) with (vs_root written_view). change (sn_overlay written_snapshot) with (vs_overlay written_view).
  change (sn_target_wal_seq written_snapshot) with 1.
  destruct (all_slices (vs_overlay written_view)) as [|sl slices] eqn:Hsl; [vm_compute in Hsl; discriminate|]. rewrite <-Hsl.
  rewrite <-Hsl in Hm. rewrite (mseq_ok _ _ _ _ _ Hm). clear Hm Hsl sl slices.
  destruct (mseq _ _ fresh_world) as [o w'] eqn:Hrun.
  assert (match o with Ok result => match cr_outcome result with OutcomePublished => true | _ => false end | _ => false end = true) as Ho.
  { change o with ((o, w').1). rewrite <-Hrun. vm_compute. reflexivity. }
  destruct o as [result|e|]; [|done|done]. exists result, w'. split; [done|]. by destruct (cr_outcome result).
Qed.

Lemma compact_snapshot_correct_witness :
  ∃ result w' new_root,
    compact_snapshot (TreePublisher0 := sqlite_publisher (Some 3%N)) sample_keys sample_id "id-1" written_snapshot fresh_world
      = (Ok result, w') ∧
    cr_published_root result = Some new_root ∧ rs_base_wal_seq new_root = 1 ∧
    cow_holds (λ _, snapshot_byte zero_committed written_snapshot) w' new_root.
Proof.
  destruct written_compacts as (result & w' & Hrun & Hout).
  pose proof (compact_snapshot_correct (TreePublisher0 := sqlite_publisher (Some 3%N)) sample_keys sample_id "id-1" zero_committed
    written_snapshot fresh_world sample_draws eq_refl fresh_valid fresh_holds
    (vi_overlay _ _ fresh_view_inv)) as H.
  rewrite Hrun in H. destruct H as (_ & _ & _ & H). rewrite Hout in H.
  destruct (cr_published_root result) as [new_root|] eqn:Hr; [|destruct H]. exists result, w', new_root.
  split; [exact Hrun|]. split; [exact Hr|]. destruct H as (Hb & _ & _ & _ & H). split; [exact Hb|]. apply H. intros i Hi. reflexivity.
Defined.

Lemma compaction_invisible_witness :
  ∃ new_root v', advance_after_compaction new_root written_snapshot written_view = (Ok tt, v') ∧ vs_root v' = new_root ∧
    visible (with_root_bytes zero_committed new_root (snapshot_byte zero_committed written_snapshot)) v' 101 =
    visible zero_committed written_view 101.
Proof.
  destruct written_compacts as (result & w' & Hrun & Hout).
  destruct (compaction_invisible (TreePublisher0 := sqlite_publisher (Some 3%N)) sample_keys sample_id "id-1" zero_committed
    written_snapshot fresh_world w' result written_view [] written_view sample_draws eq_refl fresh_valid
    fresh_view_inv fresh_holds ltac:(by vm_compute) Hrun Hout (view_steps_nil _ _) (Forall_nil_2 _) ltac:(by_compute))
    as (new_root & v' & _ & Hadv & Hr & _ & _ & Hvis).
  exists new_root, v'. split; [exact Hadv|]. split; [exact Hr|]. apply Hvis. by_compute.
Defined.
