(* ===== verification/Engine.v ===== *)
(** * The WAL-durable engine

    [engines/wal_durable/mod.rs] and [engines/wal_durable/admission.rs]: an export whose writes go to a log
    first and then to the read view, and whose log is compacted into a new tree when it grows.

    The state of the engine is the log, the record and blob stores, the read view and the number of
    compactions so far.  The engine reaches the stores through the interfaces of the other files.
    [draw_keys n] and [draw_ids n] are what the [n]-th compaction draws at random.  The operations are
    the bodies of the async functions without interruption: reads that overlap with other operations
    are treated in [ReadViewCorrect], and a compaction that overlaps with reads and writes in
    [CompactionCorrect].  Log output is left out; an error that the code only logs is dropped. *)

From S2P Require Import Prelude BTree ControlPlane Server ExtentMap Wal WalLocal WalInterface Overlay ReadCache.
From S2P Require Import Geometry Admission Export Catalog Tree Storage ReadView Publication Compaction.

#[local] Open Scope string_scope.
#[local] Open Scope list_scope.
#[local] Open Scope Z_scope.

(** ** Policy *)

Record CompactionPolicy := mkPolicy {
  background_wal_debt_threshold_bytes : Z;
  hard_wal_debt_threshold_bytes : Z;
}.

Inductive BackgroundCompactionTick : Type :=
| SkippedBelowSoftThreshold
| SkippedAtHardThreshold
| SkippedBusy
| SkippedNoSnapshot
| TickCompacted (outcome : CompactionOutcome)
| TickFailed.

Definition DEFAULT_BACKGROUND_WAL_DEBT_COMPACTION_THRESHOLD_BYTES : Z := 512 * 1024 * 1024.
Definition DEFAULT_WAL_DEBT_COMPACTION_THRESHOLD_BYTES : Z := 2 * 1024 * 1024 * 1024.

Definition with_hard_threshold (hard : Z) : CompactionPolicy :=
  mkPolicy DEFAULT_BACKGROUND_WAL_DEBT_COMPACTION_THRESHOLD_BYTES hard.

Definition CompactionPolicy_default : CompactionPolicy :=
  with_hard_threshold DEFAULT_WAL_DEBT_COMPACTION_THRESHOLD_BYTES.

Record WalReplaySummary := mkReplaySummary {
  replayed_records : Z;
  replayed_through_wal_seq : WalSeq;
}.

(** The coordinator's fields are handles to the state, besides its names. *)
Record CompactionCoordinator := mkCoordinator {
  co_export_id : ExportId;
  co_export_name : ExportName;
}.

(** The reader of the view: [ExportReadView::zero_filled] or one over the stores. *)
Inductive ViewReader : Type := ReadsZeros | ReadsCowTree.

(** The fields of the engine that do not change. *)
Record WalDurableEngine := mkEngine {
  we_name : ExportName;
  we_size_bytes : Z;
  we_block_size : Z;
  we_compaction : option CompactionCoordinator;
  we_compaction_policy : CompactionPolicy;
  we_reader : ViewReader;
}.

(** ** State *)

Record EngineState (W S B : Type) := mkEngineState {
  es_wal : W;
  es_store : S * B;
  es_view : ExportReadViewState;
  es_compactions : nat;
}.
Arguments mkEngineState {W S B} _ _ _ _.
Arguments es_wal {W S B} _.
Arguments es_store {W S B} _.
Arguments es_view {W S B} _.
Arguments es_compactions {W S B} _.

Section engine.
Context {W S B : Type} `{!ExportWal W} `{!TreeRecordStore S} `{!TreePublisher S} `{!BlobStore B}.
Context (draw_keys : nat → nat → nat → BlobKey) (draw_ids : nat → nat → string).
Abbreviation EM A := (M (EngineState W S B) ServerError A) (only parsing).

Definition on_wal {A} (m : M W ServerError A) : EM A :=
  zoom es_wal (λ w s, mkEngineState w (es_store s) (es_view s) (es_compactions s)) m.
Definition on_store {A} (m : M (S * B) ServerError A) : EM A :=
  zoom es_store (λ w s, mkEngineState (es_wal s) w (es_view s) (es_compactions s)) m.
Definition on_view {A} (m : M ExportReadViewState ServerError A) : EM A :=
  zoom es_view (λ v s, mkEngineState (es_wal s) (es_store s) v (es_compactions s)) m.
Definition on_view_and_store {A} (m : M (ExportReadViewState * (S * B)) ServerError A) : EM A :=
  zoom (λ s, (es_view s, es_store s))
    (λ p s, mkEngineState (es_wal s) p.2 p.1 (es_compactions s)) m.

Definition on_view_alone {A} (m : M (ExportReadViewState * unit) ServerError A) : EM A :=
  zoom (λ s, (es_view s, tt)) (λ p s, mkEngineState (es_wal s) (es_store s) p.1 (es_compactions s)) m.

Definition get_view : EM ExportReadViewState := on_view mget.
Definition next_compaction : EM nat := λ s,
  (Ok (es_compactions s), mkEngineState (es_wal s) (es_store s) (es_view s) (Datatypes.S (es_compactions s))).

(** A call whose error is only logged. *)
Definition best_effort {A} (m : EM A) : EM unit := λ s,
  match m s with
  | (Ok _, s') | (Err _, s') => (Ok tt, s')
  | (Panic, s') => (Panic, s')
  end.

(** ** Compaction *)

Definition prune_published_wal (prune_through : WalSeq) : EM unit :=
  best_effort (on_wal (log_prune_through prune_through)).

Definition advance_after_snapshot_compaction (result : CompactionResult)
    (compaction_snapshot : ReadViewCompactionSnapshot) : EM unit :=
  match cr_outcome result with
  | OutcomePublished =>
      let! root := mlift (ok_or (cr_published_root result)
        (catalog_error "published WAL compaction did not return a root snapshot")) in
      let prune_through := rs_base_wal_seq root in
      let! _ := on_view (advance_after_compaction root compaction_snapshot) in
      prune_published_wal prune_through
  | OutcomeStalePlan | OutcomeNoRecords => mret tt
  end.

Definition compact_snapshot_locked (co : CompactionCoordinator) (snapshot : ReadViewCompactionSnapshot)
    : EM CompactionResult :=
  let! n := next_compaction in
  let! result := on_store (compact_snapshot (draw_keys n) (draw_ids n) (co_export_id co) snapshot) in
  let! _ := advance_after_snapshot_compaction result snapshot in
  mret result.

Definition compact_snapshot_best_effort (co : CompactionCoordinator) (snapshot : ReadViewCompactionSnapshot)
    : EM unit :=
  best_effort (compact_snapshot_locked co snapshot).

Definition compact_close_best_effort (co : CompactionCoordinator) : EM unit :=
  let! v := get_view in
  match capture_compaction_snapshot v with
  | Some snapshot => compact_snapshot_best_effort co snapshot
  | None =>
      match view_export_head v with
      | Ok head => prune_published_wal (base_wal_seq head)
      | Err _ => mret tt
      | Panic => λ s, (Panic, s)
      end
  end.

(** [busy] says that [try_lock] of the compaction lock failed. *)
Definition compact_background_tick (co : CompactionCoordinator) (policy : CompactionPolicy) (busy : bool)
    : EM BackgroundCompactionTick :=
  let! v := get_view in
  if vs_wal_debt_bytes v <? background_wal_debt_threshold_bytes policy then mret SkippedBelowSoftThreshold
  else if hard_wal_debt_threshold_bytes policy <=? vs_wal_debt_bytes v then mret SkippedAtHardThreshold
  else if busy then mret SkippedBusy
  else
    let! v := get_view in
    if vs_wal_debt_bytes v <? background_wal_debt_threshold_bytes policy then mret SkippedBelowSoftThreshold
    else if hard_wal_debt_threshold_bytes policy <=? vs_wal_debt_bytes v then mret SkippedAtHardThreshold
    else
      match capture_compaction_snapshot v with
      | None => mret SkippedNoSnapshot
      | Some snapshot => λ s,
          match compact_snapshot_locked co snapshot s with
          | (Ok result, s') => (Ok (TickCompacted (cr_outcome result)), s')
          | (Err _, s') => (Ok TickFailed, s')
          | (Panic, s') => (Panic, s')
          end
      end.

Definition compact_write_pressure_best_effort (co : CompactionCoordinator) (hard_threshold_bytes : Z) : EM unit :=
  let! v := get_view in
  if vs_wal_debt_bytes v <? hard_threshold_bytes then mret tt
  else
    match capture_compaction_snapshot v with
    | None => mret tt
    | Some snapshot => best_effort (compact_snapshot_locked co snapshot)
    end.

(** ** The background task *)

(** What [select!] wakes for: a change of the shutdown channel, or the interval. *)
Inductive TaskWake : Type := WakeChanged (closed : bool) | WakeTick (busy : bool).

(** The loop of the task, with the value of the shutdown flag at each wake-up. *)
Fixpoint background_loop (co : CompactionCoordinator) (policy : CompactionPolicy)
    (wakes : list (TaskWake * bool)) : EM unit :=
  match wakes with
  | [] => mret tt
  | (WakeChanged closed, shutdown) :: wakes =>
      if closed || shutdown then mret tt else background_loop co policy wakes
  | (WakeTick busy, shutdown) :: wakes =>
      if shutdown then mret tt
      else
        let! _ := compact_background_tick co policy busy in
        background_loop co policy wakes
  end.

(** ** Opening *)

(** The loop of [replay_wal_after]. *)
Fixpoint replay_loop (records : list WalRecord) (summary : WalReplaySummary) : EM WalReplaySummary :=
  match records with
  | [] => mret summary
  | record :: records =>
      let! _ := on_view (apply_wal_record record) in
      replay_loop records (mkReplaySummary (u64_add (replayed_records summary) 1) (rec_seq record))
  end.

Definition replay_wal_after (root : RootSnapshot) : EM WalReplaySummary :=
  let! records := on_wal (log_replay_after (rs_base_wal_seq root)) in
  replay_loop records (mkReplaySummary 0 (rs_base_wal_seq root)).

Definition validate_head_can_open (head : ExportHead) : SResult unit :=
  if bool_decide (layout_kind head ≠ CowImmutableTree) then
    Err (catalog_error "WAL durable export `{}` requires cow_immutable_tree head, got {}")
  else Ok tt.

Definition set_view (v : ExportReadViewState) : EM unit := on_view (mmodify (λ _, v)).

Definition open_with_cow_tree_and_compaction_policy (d : ActiveExportDescriptor) (head : ExportHead)
    (policy : CompactionPolicy) : EM WalDurableEngine :=
  let d := descriptor d in
  if bool_decide (d_engine_kind d ≠ WalDurable) then
    mfail (catalog_error "export `{}` is not a wal_durable export")
  else
    let! _ := mlift (validate_head_can_open head) in
    let! root := mlift (RootSnapshot_from_head head) in
    let! _ := set_view (ExportReadView_new root) in
    let! _ := replay_wal_after root in
    mret (mkEngine (d_name d) (rs_size_bytes root) (d_block_size d) (Some (mkCoordinator (d_id d) (d_name d))) policy ReadsCowTree).

Definition open_with_cow_tree_and_wal_debt_threshold (d : ActiveExportDescriptor) (head : ExportHead)
    (wal_debt_threshold_bytes : Z) : EM WalDurableEngine :=
  open_with_cow_tree_and_compaction_policy d head (with_hard_threshold wal_debt_threshold_bytes).

Definition open_with_cow_tree (d : ActiveExportDescriptor) (head : ExportHead) : EM WalDurableEngine :=
  open_with_cow_tree_and_wal_debt_threshold d head DEFAULT_WAL_DEBT_COMPACTION_THRESHOLD_BYTES.

(** [WalDurableEngine::open]: an export that has never been compacted, over zeros. *)
Definition open_zero_filled (meta : ExportRecord) : EM WalDurableEngine :=
  if bool_decide (layout_kind (r_head meta) ≠ CowImmutableTree) then
    mfail (catalog_error "export `{}` does not have a cow immutable tree head")
  else if bool_decide (root_node_id (r_head meta) ≠ None) then
    mfail (catalog_error "export `{}` has a committed COW root that is not readable yet")
  else
    let root := RootSnapshot_from_meta meta in
    let! _ := set_view (ExportReadView_new root) in
    let! _ := replay_wal_after root in
    mret (mkEngine (r_name meta) (size_bytes (r_head meta)) (r_block_size meta) None CompactionPolicy_default ReadsZeros).

(** ** Requests *)

Section requests.
Context (e : WalDurableEngine).

Definition compact_if_wal_debt_exceeds_threshold : EM unit :=
  let! v := get_view in
  if vs_wal_debt_bytes v <? hard_wal_debt_threshold_bytes (we_compaction_policy e) then mret tt
  else
    match we_compaction e with
    | None => mret tt
    | Some co => compact_write_pressure_best_effort co (hard_wal_debt_threshold_bytes (we_compaction_policy e))
    end.

Definition wal_engine_read (offset len : Z) : EM (list byte) :=
  let range := mkRange offset len in
  let! _ := mlift (validate_range "read" range (we_size_bytes e)) in
  match we_reader e with
  | ReadsZeros => on_view_alone (view_read range)
  | ReadsCowTree => on_view_and_store (view_read range)
  end.

Definition wal_engine_write (offset : Z) (data : list byte) : EM unit :=
  let! _ := mlift (validate_request_range "write" offset (zlen data) (we_size_bytes e)) in
  match data with
  | [] => mret tt
  | _ =>
      let! len := mlift (ok_or (u32_try_from (zlen data)) (OutOfBounds "write" offset (zlen data) (we_size_bytes e))) in
      let range := mkRange offset len in
      let! request := mlift (WalRequest_new range data) in
      let! record := on_wal (log_append request) in
      let! _ := on_view (apply_wal_record record) in
      compact_if_wal_debt_exceeds_threshold
  end.

Definition wal_engine_flush : SResult unit := Ok tt.

Definition wal_engine_execute (request : ExportRequest) : EM ExportReply :=
  match request with
  | ReqRead offset len => let! data := wal_engine_read offset len in mret (ReplyRead data)
  | ReqWrite offset data => let! _ := wal_engine_write offset data in mret ReplyDone
  | ReqFlush => let! _ := mlift wal_engine_flush in mret ReplyDone
  end.

Definition wal_engine_close : EM unit :=
  match we_compaction e with
  | Some co => compact_close_best_effort co
  | None => mret tt
  end.

(** [WalDurableAdmissionPolicy]. *)
Definition wal_operation_for (request : ExportRequest) : SResult AdmissionOp :=
  match request with
  | ReqRead offset len => Ok (ARead (mkRange offset len))
  | ReqWrite offset data =>
      let? len := ok_or (u32_try_from (zlen data)) (OutOfBounds "write" offset (zlen data) (we_size_bytes e)) in
      Ok (AWrite (mkRange offset len))
  | ReqFlush => Ok AFlush
  end.

Definition wal_durable_engine : ExportEngine (EngineState W S B) :=
  mkExportEngine _ wal_operation_for wal_engine_execute wal_engine_close.
End requests.
End engine.
