(* ===== verification/EngineCorrect.v ===== *)
(** * Correctness of the WAL-durable engine

    The engine is a byte array that survives restarts.  [durable] says which array the log, the catalog
    and the blobs stand for: the bytes of the tree of the head with the records after its
    checkpoint written over them.  [serving] adds that the read view shows the same array.  Requests
    and compactions keep [serving]; opening makes [serving] out of [durable]. *)

From S2P Require Import Prelude BTree ControlPlane Server ExtentMap Wal WalLocal WalRecovery WalInterface Overlay Geometry.
From S2P Require Import Admission Export Catalog Tree Storage ReadCache ReadCacheCorrect ReadView TreeReaders ReadViewCorrect.
From S2P Require Import Publication TreePaths Compaction CompactionPlan CompactionCorrect Engine.

#[local] Open Scope string_scope.
#[local] Open Scope list_scope.
#[local] Open Scope Z_scope.

(** ** Records over an array *)

Lemma overwritten_cons a r rs i : overwritten a (r :: rs) i = overwritten (overwritten a [r]) rs i.
Proof. unfold overwritten. cbn. destruct (last_writer rs i); [done|]. by case_bool_decide. Qed.

Lemma overwritten_snoc a rs r i : overwritten a (rs ++ [r]) i = overwritten (overwritten a rs) [r] i.
Proof. unfold overwritten. rewrite last_writer_snoc. cbn. by case_bool_decide. Qed.

Lemma overwritten_ext a b rs i : a i = b i → overwritten a rs i = overwritten b rs i.
Proof. intros H. unfold overwritten. by destruct (last_writer rs i). Qed.

Definition in_export (size : Z) (r : WalRecord) : Prop :=
  record_ok r ∧ br_start (rec_range r) + br_len (rec_range r) ≤ size.

(** The bytes of a list of records. *)
Definition records_bytes (rs : list WalRecord) : Z := foldr (λ r n, zlen (rec_data r) + n) 0 rs.

Lemma records_bytes_nonneg rs : 0 ≤ records_bytes rs.
Proof. induction rs as [|r rs IH]; unfold records_bytes in *; cbn [foldr]; [lia|]. pose proof (zlen_nonneg (rec_data r)). lia. Qed.

Lemma seqs_from_split n rs1 rs2 : seqs_from n (rs1 ++ rs2) → seqs_from (n + zlen rs1) rs2.
Proof.
  revert n. induction rs1 as [|r rs1 IH]; intros n; cbn; [by rewrite Z.add_0_r|].
  intros (_ & _ & H). apply IH in H. rewrite zlen_cons. by replace (n + (zlen rs1 + 1)) with (n + 1 + zlen rs1) by lia.
Qed.

(** The records after a sequence number are numbered from the one after it. *)
Lemma seqs_from_after pruned rs after :
  seqs_from (pruned + 1) rs → pruned ≤ after ≤ pruned + zlen rs →
  seqs_from (after + 1) (filter (λ r, after < rec_seq r) rs) ∧
  after + zlen (filter (λ r, after < rec_seq r) rs) = pruned + zlen rs.
Proof.
  revert pruned. induction rs as [|r rs IH]; intros pruned Hs Ha.
  { change (zlen []) with 0 in *. rewrite filter_nil. change (zlen []) with 0. split; [done|lia]. }
  destruct Hs as (Hr & Hwf & Hs). rewrite zlen_cons in *. rewrite filter_cons.
  destruct (decide (after < rec_seq r)) as [Hlt|Hge].
  - assert (after = pruned) as -> by lia.
    assert (filter (λ r, pruned < rec_seq r) rs = rs) as ->.
    { apply filter_every. intros x Hx. pose proof (seqs_from_bound _ _ _ Hs Hx). lia. }
    cbn. split; [by rewrite Hr|]. rewrite zlen_cons. lia.
  - destruct (IH (pruned + 1) Hs ltac:(lia)) as [Hs' Hl]. split; [done|lia].
Qed.

(** ** Replay *)

Section engine.
Context {W S B : Type} `{!ExportWal W} `{!ExportWalLaws W}.
Context `{!TreeRecordStore S} `{!TreeView S} `{!TreeRecordStoreLaws S} `{!TreePublisher S} `{!TreePublisherLaws S}.
Context `{!BlobStore B} `{!BlobStoreLaws B}.
Implicit Types (s : EngineState W S B) (v : ExportReadViewState).

Definition with_view v s : EngineState W S B := mkEngineState (es_wal s) (es_store s) v (es_compactions s).

Lemma replay_loop_spec committed size rs : ∀ s summary,
  let v := es_view s in
  view_inv committed v → rs_size_bytes (vs_root v) = size → seqs_from (vs_last_applied_seq v + 1) rs →
  (∀ r, r ∈ rs → in_export size r) → vs_last_applied_seq v + zlen rs ≤ u64_max →
  vs_wal_debt_bytes v + records_bytes rs ≤ u64_max →
  ∃ summary' v', replay_loop rs summary s = (Ok summary', with_view v' s) ∧ view_inv committed v' ∧
    vs_root v' = vs_root v ∧ vs_last_applied_seq v' = vs_last_applied_seq v + zlen rs ∧
    ∀ i, visible committed v' i = overwritten (visible committed v) rs i.
Proof.
  induction rs as [|r rs IH]; intros s summary v Hv Hsz Hs Hin Hseq Hdebt.
  { exists summary, v. split; [by destruct s|]. split; [done|]. split; [done|]. change (zlen []) with 0. split; [lia|done]. }
  destruct Hs as (Hr & _ & Hs). destruct (Hin r ltac:(by left)) as [Hok Hend]. cbn [records_bytes foldr] in Hdebt.
  fold (records_bytes rs) in Hdebt. pose proof (records_bytes_nonneg rs). rewrite zlen_cons in Hseq. pose proof (zlen_nonneg rs).
  destruct (apply_wal_record_spec committed r v Hv Hok ltac:(by rewrite Hsz) Hr ltac:(lia) ltac:(lia))
    as (v1 & Hrun & Hv1 & Hroot & Hl & Hd & _ & _ & _ & Hvis).
  cbn [replay_loop]. rewrite (mseq_ok _ _ _ tt (with_view v1 s)).
  2: { unfold on_view, zoom. fold v. by rewrite Hrun. }
  destruct (IH (with_view v1 s) (mkReplaySummary (u64_add (replayed_records summary) 1) (rec_seq r)))
    as (summary' & v' & Hrun' & Hv' & Hroot' & Hl' & Hvis'); cbn [es_view with_view].
  - done.
  - by rewrite Hroot.
  - by rewrite Hl, Hr.
  - intros x Hx. apply Hin. by right.
  - rewrite Hl, Hr. lia.
  - rewrite Hd. lia.
  - exists summary', v'. split; [exact Hrun'|]. split; [done|]. cbn in *. split; [congruence|].
    rewrite zlen_cons. split; [rewrite Hl', Hl, Hr; lia|]. intros i. rewrite Hvis', overwritten_cons. apply overwritten_ext.
    rewrite Hvis. unfold overwritten. cbn. by case_bool_decide.
Qed.

(** ** The array that the engine stands for *)

Section array.
Context (draw_keys : nat → nat → nat → BlobKey) (draw_ids : nat → nat → string) (id : ExportId) (size : Z).

(** What compactions draw at random: valid and distinct. *)
Record supply_ok : Prop := {
  su_ids : ∀ n k, NodeId_new (draw_ids n k) = Ok (draw_ids n k);
  su_ids_inj : ∀ n, Inj (=) (=) (draw_ids n);
  su_keys : ∀ n j k, BlobKey_new (draw_keys n j k) = Ok (draw_keys n j k);
  su_keys_distinct : ∀ n n' j j' k k', draw_keys n j k = draw_keys n' j' k' → n = n' ∧ j = j';
  su_id : ExportId_new id = Ok id;
}.

(** The log, the head and the blobs stand for the array [a]. *)
Record durable committed (pruned : Z) (records : list WalRecord) (root : RootSnapshot) (w : W) (store : S * B)
    (a : Z → byte) : Prop := {
  du_size : 0 < size ∧ blocks_fit size;
  du_log : log_holds w pruned records;
  du_records : ∀ r, r ∈ records → in_export size r;
  du_valid : store_valid store.1;
  du_head : ∃ head, to_export_head root = Ok head ∧ see_head store.1 id = Ok head;
  du_cow : is_zero_backed root = false;
  du_holds : cow_holds committed store root;
  du_root_size : rs_size_bytes root = size;
  du_base : pruned ≤ rs_base_wal_seq root ≤ pruned + zlen records;
  du_bytes : ∀ i, 0 ≤ i < size →
    overwritten (committed root) (filter (λ r, rs_base_wal_seq root < rec_seq r) records) i = a i;
}.

(** The engine also shows [a] to its clients. *)
Record serving committed pruned records root s (a : Z → byte) : Prop := {
  se_durable : durable committed pruned records root (es_wal s) (es_store s) a;
  se_view : view_inv committed (es_view s);
  se_view_size : rs_size_bytes (vs_root (es_view s)) = size;
  se_view_holds : cow_holds committed (es_store s) (vs_root (es_view s));
  se_view_base : rs_base_wal_seq (vs_root (es_view s)) ≤ rs_base_wal_seq root;
  se_last : vs_last_applied_seq (es_view s) = pruned + zlen records;
  se_visible : ∀ i, 0 ≤ i < size → visible committed (es_view s) i = a i;
  se_fresh : ∀ n j k, (es_compactions s ≤ n)%nat → blobs (es_store s).2 !! draw_keys n j k = None;
}.

Definition serves s (a : Z → byte) : Prop := ∃ committed pruned records root, serving committed pruned records root s a.

(** *** Opening *)

Lemma cow_root_of_head root head :
  is_zero_backed root = false → to_export_head root = Ok head → RootSnapshot_from_head head = Ok root ∧ layout_kind head = CowImmutableTree.
Proof.
  intros Hz. unfold to_export_head. destruct root as [[?|id' seq sz format]]; [done|]. cbn.
  unfold cow_immutable_tree_with_root_and_format. destruct (validate_non_zero _ _) as [|e|]; cbn; [|done|done].
  intros [= <-]. done.
Qed.

Lemma open_spec committed pruned records root s a d policy head :
  durable committed pruned records root (es_wal s) (es_store s) a →
  d_engine_kind (descriptor d) = WalDurable → d_id (descriptor d) = id → see_head (es_store s).1 id = Ok head →
  pruned + zlen records ≤ u64_max → records_bytes records ≤ u64_max →
  (∀ n j k, (es_compactions s ≤ n)%nat → blobs (es_store s).2 !! draw_keys n j k = None) →
  ∃ v, open_with_cow_tree_and_compaction_policy d head policy s =
       (Ok (mkEngine (d_name (descriptor d)) size (d_block_size (descriptor d))
              (Some (mkCoordinator id (d_name (descriptor d)))) policy ReadsCowTree), with_view v s) ∧
       vs_root v = root ∧ serving committed pruned records root (with_view v s) a.
Proof.
  intros Hdu Hkind Hid Hhead Hseq Hbytes Hfresh. pose proof Hdu as [[Hpos Hfit] Hlog Hrec Hvalid (h & Hh & Hsee) Hcow Hholds Hsz Hbase Hby].
  rewrite Hsee in Hhead. injection Hhead as <-. destruct (cow_root_of_head root h Hcow Hh) as [Hroot Hlk].
  destruct (law_log_seqs _ _ _ Hlog) as [Hp Hs]. destruct (seqs_from_after pruned records _ Hs Hbase) as [Hs' Hl].
  set (after := filter (λ r, rs_base_wal_seq root < rec_seq r) records) in *.
  set (v0 := ExportReadView_new root).
  assert (view_inv committed v0) as Hv0.
  { apply new_view_inv; [lia|by rewrite Hsz|lia|]. apply ReadCache_new_ready. done. }
  assert (∀ rs, records_bytes (filter (λ r, rs_base_wal_seq root < rec_seq r) rs) ≤ records_bytes rs) as Hle.
  { intros rs. induction rs as [|r rs IH]; [done|]. rewrite filter_cons. pose proof (zlen_nonneg (rec_data r)).
    destruct (decide _); unfold records_bytes in *; cbn [foldr] in *; lia. }
  destruct (replay_loop_spec committed size after (with_view v0 s) (mkReplaySummary 0 (rs_base_wal_seq root)))
    as (summary & v & Hrun & Hv & Hvr & Hlast & Hvis); cbn [es_view with_view].
  - done.
  - done.
  - exact Hs'.
  - intros r [_ Hin]%list_elem_of_filter. auto.
  - change (vs_last_applied_seq v0) with (rs_base_wal_seq root). lia.
  - change (vs_wal_debt_bytes v0) with 0. specialize (Hle records). fold after in Hle. lia.
  - exists v. unfold open_with_cow_tree_and_compaction_policy. rewrite bool_decide_false by (rewrite Hkind; by intros []).
    unfold validate_head_can_open. rewrite bool_decide_false by (rewrite Hlk; by intros []). erewrite mseq_ok by reflexivity.
    rewrite Hroot. erewrite mseq_ok by reflexivity. rewrite (mseq_ok _ _ _ tt (with_view v0 s)) by reflexivity.
    rewrite (mseq_ok _ _ _ summary (with_view v s)).
    2: { unfold replay_wal_after. rewrite (mseq_ok _ _ _ after (with_view v0 s)).
         - exact Hrun.
         - unfold on_wal, zoom. cbn. by rewrite (law_log_replay_after _ _ _ _ Hlog Hbase). }
    rewrite Hsz, Hid. split; [done|]. split; [by rewrite Hvr|]. split; cbn [es_view es_wal es_store es_compactions with_view]; [done|done| | | | | |done].
    + by rewrite Hvr.
    + by rewrite Hvr.
    + rewrite Hvr. cbn. lia.
    + rewrite Hlast. change (vs_last_applied_seq (es_view (with_view v0 s))) with (rs_base_wal_seq root). lia.
    + intros i Hi. rewrite Hvis, <-Hby by done. by apply overwritten_ext.
Qed.

(** *** Compaction *)

Hypothesis supply : supply_ok.

Lemma supply_draws n (b : B) :
  (∀ j k, blobs b !! draw_keys n j k = None) → draws_ok (draw_keys n) (draw_ids n) b.
Proof.
  intros Hf. destruct supply as [Hi Hinj Hk Hd _]. split; [done|done|done| |done].
  intros j j' k k' Heq. by apply Hd in Heq as [_ ?].
Qed.

(** A change of the stores that keeps trees and the head keeps the array. *)
Lemma serving_store committed pruned records root s a store' n :
  serving committed pruned records root s a → trees_kept (es_store s) store' → store_valid store'.1 →
  head_kept id (es_store s) store' → (∀ m j k, (n ≤ m)%nat → blobs store'.2 !! draw_keys m j k = None) →
  serving committed pruned records root (mkEngineState (es_wal s) store' (es_view s) n) a.
Proof.
  intros [[Hsz Hlog Hrec _ (h & Hh & Hsee) Hcow Hholds Hrs Hbase Hby] Hv Hvs Hvh Hvb Hl Hvis _] Hk Hval Hhead Hf.
  split; [|done|done|by apply Hk|done|done|done|done]. split; try done; [|by apply Hk].
  exists h. split; [done|]. cbn. by rewrite Hhead.
Qed.

(** Pruning up to the checkpoint of the head keeps the array. *)
Lemma prune_spec committed pruned records root s a seq :
  serving committed pruned records root s a → seq ≤ rs_base_wal_seq root →
  ∃ s', prune_published_wal seq s = (Ok tt, s') ∧ serves s' a ∧ es_compactions s' = es_compactions s ∧ es_store s' = es_store s.
Proof.
  intros [[Hsz Hlog Hrec Hval Hhead Hcow Hholds Hrs Hbase Hby] Hv Hvs Hvh Hvb Hl Hvis Hf] Hseq.
  destruct (law_log_prune _ _ _ seq Hlog ltac:(lia)) as (w' & result & dropped & kept & Hrun & -> & Hd & Hlog').
  eexists. split; [|split; [exists committed, (pruned + zlen dropped), kept, root|]].
  - unfold prune_published_wal, best_effort, on_wal, zoom. rewrite Hrun. reflexivity.
  - rewrite zlen_app in Hbase, Hl. destruct (law_log_seqs _ _ _ Hlog) as [_ Hs].
    assert (pruned + zlen dropped ≤ rs_base_wal_seq root) as Hle.
    { destruct (decide (dropped = [])) as [->|Hne]; [change (zlen []) with 0 in *; lia|].
      destruct (last dropped) as [r|] eqn:Hlast; [|by apply last_None in Hlast].
      rewrite Forall_forall in Hd. pose proof (last_Some_elem_of _ _ Hlast) as Hin. specialize (Hd r Hin).
      assert (∀ rs, seqs_from (pruned + 1) (dropped ++ rs) → seqs_from (pruned + 1) dropped) as Hpre.
      { generalize (pruned + 1). clear. induction dropped as [|x l IH]; intros n rs; cbn; [done|].
        intros (? & ? & ?). split; [done|]. split; [done|]. by eapply IH. }
      rewrite (seqs_from_last _ _ _ (Hpre _ Hs) Hlast) in Hd. lia. }
    split; cbn; try done.
    + split; try done; [|lia|].
      * intros r Hr. apply Hrec. apply elem_of_app. by right.
      * intros i Hi. rewrite <-Hby by done. rewrite filter_app, (filter_none _ dropped); [done|].
        intros r Hr. rewrite Forall_forall in Hd. specialize (Hd r Hr). lia.
    + lia.
  - done.
Qed.

(** A compaction that published leaves the same array behind. *)
Lemma published_durable committed pruned records root s a snapshot new_root store' :
  serving committed pruned records root s a → capture_compaction_snapshot (es_view s) = Some snapshot →
  rs_base_wal_seq new_root = sn_target_wal_seq snapshot → rs_size_bytes new_root = rs_size_bytes (sn_root snapshot) →
  is_zero_backed new_root = false → head_moved id (sn_root snapshot) new_root (es_store s) store' → store_valid store'.1 →
  (∀ committed', (∀ i, 0 ≤ i < rs_size_bytes new_root → committed' new_root i = snapshot_byte committed snapshot i) →
     cow_holds committed' store' new_root) →
  durable (with_root_bytes committed new_root (snapshot_byte committed snapshot)) pruned records new_root (es_wal s) store' a.
Proof.
  intros [Hdu Hv Hvs Hvh Hvb Hl Hvis Hf] Hcap Hbase Hsize Hcowb Hmoved Hval Hholds.
  destruct (capture_inv _ _ Hcap) as [Hsnap Hlt]. destruct Hdu as [Hsz Hlog Hrec _ _ _ _ _ _ _].
  set (committed' := with_root_bytes committed new_root (snapshot_byte committed snapshot)).
  assert (committed' new_root = snapshot_byte committed snapshot) as Hnew by (unfold committed', with_root_bytes; by rewrite bool_decide_true).
  assert (sn_target_wal_seq snapshot = pruned + zlen records) as Htarget by (rewrite Hsnap; done).
  destruct (law_log_seqs _ _ _ Hlog) as [Hp Hs]. pose proof (zlen_nonneg records).
  split; try done; [| |by rewrite Hsize, Hsnap|lia|].
  - destruct Hmoved as (old & head & _ & _ & ? & ?). by exists head.
  - apply Hholds. intros i _. by rewrite Hnew.
  - intros i Hi. rewrite filter_none; [|intros r Hin; pose proof (seqs_from_bound _ _ _ Hs Hin); lia].
    cbn. rewrite Hnew, <-Hvis by done. rewrite Hsnap. unfold snapshot_byte, visible. cbn. by destruct (overlay_byte _ i).
Qed.

(** What a step may do: the array is served again, and nothing panics. *)
Definition keeps_array {A} a (r : SResult A * EngineState W S B) : Prop :=
  match r with (Ok _, s') | (Err _, s') => serves s' a | (Panic, _) => False end.

Lemma compact_locked_spec s a co snapshot :
  serves s a → cache_room (rs_size_bytes (vs_root (es_view s))) (vs_cache (es_view s)) →
  capture_compaction_snapshot (es_view s) = Some snapshot → co_export_id co = id →
  keeps_array a (compact_snapshot_locked draw_keys draw_ids co snapshot s).
Proof.
  intros (committed & pruned & records & root & Hse) Hroom Hcap Hco.
  pose proof Hse as [Hdu Hv Hvs Hvh Hvb Hl Hvis Hf]. destruct (capture_inv _ _ Hcap) as [Hsnap Hlt].
  set (n := es_compactions s). pose proof (supply_draws n (es_store s).2 ltac:(intros j k; by apply Hf)) as Hdraw.
  pose proof (compact_snapshot_spec (draw_keys n) (draw_ids n) id committed snapshot (es_store s) Hdraw (su_id supply)
    (du_valid _ _ _ _ _ _ _ Hdu)) as Hc. cbv zeta in Hc.
  specialize (Hc ltac:(by rewrite Hsnap) ltac:(rewrite Hsnap; apply (vi_overlay _ _ Hv))).
  assert (∀ store', only_keys (draw_keys n) (es_store s) store' →
    ∀ m j k, (Datatypes.S n ≤ m)%nat → blobs store'.2 !! draw_keys m j k = None) as Hfresh.
  { intros store' Ho m j k Hm. rewrite Ho; [apply Hf; lia|]. intros j' k' Heq.
    apply (su_keys_distinct supply) in Heq as [-> _]. lia. }
  unfold compact_snapshot_locked. rewrite (mseq_ok _ _ _ n (mkEngineState (es_wal s) (es_store s) (es_view s) (Datatypes.S n))) by reflexivity.
  unfold mseq at 1, on_store, zoom. cbn [es_store es_wal es_view es_compactions]. rewrite Hco.
  destruct (compact_snapshot _ _ _ _ (es_store s)) as [[result|e|] store']; [| |done].
  2: { destruct Hc as (Hk & Hval & Ho & Hh). exists committed, pruned, records, root. apply serving_store; auto. }
  destruct Hc as (Hk & Hval & Ho & Hc). specialize (Hfresh _ Ho). unfold compacted in Hc.
  unfold advance_after_snapshot_compaction.
  destruct (cr_outcome result).
  2, 3: destruct (cr_published_root result) as [?|]; [done|]; cbn; exists committed, pruned, records, root; by apply serving_store.
  destruct (cr_published_root result) as [new_root|]; [|done]. destruct Hc as (Hbase & Hsize & Hcowb & Hmoved & Hholds).
  destruct (install_spec committed (es_view s) (es_view s) snapshot new_root Hv Hcap ltac:(split; [done|lia|lia|by left]) Hv Hroom Hbase Hsize)
    as (v' & Hadv & Hr & Hinv & Hl' & Hvis').
  pose proof (published_durable committed pruned records root s a snapshot new_root store' Hse Hcap Hbase Hsize Hcowb Hmoved Hval Hholds) as Hdu'.
  set (committed' := with_root_bytes committed new_root (snapshot_byte committed snapshot)) in *.
  set (s1 := mkEngineState (es_wal s) store' v' (Datatypes.S n)).
  assert (serving committed' pruned records new_root s1 a) as Hse1.
  { split; cbn; try done.
    - by rewrite Hr, (du_root_size _ _ _ _ _ _ _ Hdu').
    - rewrite Hr. apply (du_holds _ _ _ _ _ _ _ Hdu').
    - by rewrite Hr.
    - congruence.
    - intros i Hi. rewrite Hvis' by (by rewrite Hvs). by apply Hvis. }
  destruct (prune_spec committed' pruned records new_root s1 a (rs_base_wal_seq new_root) Hse1 ltac:(done)) as (s2 & Hprune & Hs2 & _).
  erewrite mseq_ok; [exact Hs2|]. erewrite mseq_ok by reflexivity. rewrite (mseq_ok _ _ _ tt s1); [exact Hprune|].
  unfold on_view, zoom. cbn [es_view]. by rewrite Hadv.
Qed.

(** *** The callers of a compaction *)

Definition view_room s : Prop := cache_room (rs_size_bytes (vs_root (es_view s))) (vs_cache (es_view s)).

Lemma best_effort_keeps {A} (m : M (EngineState W S B) ServerError A) s a :
  keeps_array a (m s) → ∃ s', best_effort m s = (Ok tt, s') ∧ serves s' a.
Proof. unfold best_effort. intros Hk. destruct (m s) as [[x|e|] s']; [by exists s'|by exists s'|done]. Qed.

Lemma write_pressure_spec s a co hard :
  serves s a → view_room s → co_export_id co = id →
  ∃ s', compact_write_pressure_best_effort draw_keys draw_ids co hard s = (Ok tt, s') ∧ serves s' a.
Proof.
  intros Hs Hroom Hco. unfold compact_write_pressure_best_effort. rewrite (mseq_ok _ _ _ (es_view s) s) by (by destruct s).
  destruct (_ <? _); [by exists s|]. destruct (capture_compaction_snapshot (es_view s)) as [snapshot|] eqn:Hcap; [|by exists s].
  apply best_effort_keeps. by apply compact_locked_spec.
Qed.

Lemma close_spec s a co :
  serves s a → view_room s → co_export_id co = id →
  ∃ s', compact_close_best_effort draw_keys draw_ids co s = (Ok tt, s') ∧ serves s' a.
Proof.
  intros Hs Hroom Hco. unfold compact_close_best_effort. rewrite (mseq_ok _ _ _ (es_view s) s) by (by destruct s).
  destruct (capture_compaction_snapshot (es_view s)) as [snapshot|] eqn:Hcap.
  { apply best_effort_keeps. by apply compact_locked_spec. }
  destruct (view_export_head (es_view s)) as [head|e|] eqn:Hh; [|by exists s|].
  - destruct Hs as (committed & pruned & records & root & Hse).
    assert (base_wal_seq head = rs_base_wal_seq (vs_root (es_view s))) as ->.
    { unfold view_export_head, to_export_head in Hh. destruct (new_with_tree_format _ _ _ _ _) as [h| |] eqn:Hn; [|done..].
      injection Hh as ->. by apply new_with_tree_format_valid in Hn as (_ & _ & _ & _ & ?). }
    destruct (prune_spec committed pruned records root s a _ Hse (se_view_base _ _ _ _ _ _ Hse)) as (s' & ? & ? & _). eauto.
  - exfalso. revert Hh. unfold view_export_head, to_export_head. cbn. unfold cow_immutable_tree_with_root_and_format, validate_non_zero.
    by repeat case_match.
Qed.

Lemma tick_spec s a co policy busy :
  serves s a → view_room s → co_export_id co = id →
  ∃ tick s', compact_background_tick draw_keys draw_ids co policy busy s = (Ok tick, s') ∧ serves s' a.
Proof.
  intros Hs Hroom Hco. unfold compact_background_tick. rewrite (mseq_ok _ _ _ (es_view s) s) by (by destruct s).
  destruct (_ <? _); [by eexists _, s|]. destruct (_ <=? _); [by eexists _, s|]. destruct busy; [by eexists _, s|].
  rewrite (mseq_ok _ _ _ (es_view s) s) by (by destruct s).
  destruct (_ <? _); [by eexists _, s|]. destruct (_ <=? _); [by eexists _, s|].
  destruct (capture_compaction_snapshot (es_view s)) as [snapshot|] eqn:Hcap; [|by eexists _, s].
  pose proof (compact_locked_spec s a co snapshot Hs Hroom Hcap Hco) as Hc.
  destruct (compact_snapshot_locked _ _ co snapshot s) as [[result|e|] s']; [by eexists _, s'|by eexists _, s'|done].
Qed.

(** *** Requests *)

Lemma serves_ext s a b : (∀ i, 0 ≤ i < size → a i = b i) → serves s a → serves s b.
Proof.
  intros Hab (committed & pruned & records & root & [[? ? ? ? ? ? ? ? ? Hby] ? ? ? ? ? Hvis ?]). exists committed, pruned, records, root.
  split; try done; [split; try done|]; intros i Hi; rewrite <-Hab by done; auto.
Qed.

Lemma engine_read_spec e s a offset len :
  serves s a → view_room s → we_size_bytes e = size → we_reader e = ReadsCowTree → is_u64 offset → is_u32 len →
  match wal_engine_read e offset len s with
  | (Ok data, s') => serves s' a ∧ offset + len ≤ size ∧ zlen data = len ∧
      ∀ i, offset ≤ i < offset + len → zget data (i - offset) = Some (a i)
  | (Err _, s') => serves s' a ∧ (size < offset + len → s' = s)
  | (Panic, _) => False
  end.
Proof.
  intros Hs Hroom Hsz Hrd [Ho Hou] [Hl Hlu]. unfold wal_engine_read, mseq at 1, mlift, validate_range, validate_request_range.
  cbn [br_start br_len]. rewrite Hsz. pose proof Hs as (committed & pruned & records & root & Hse).
  pose proof Hse as [Hdu Hv Hvs Hvh Hvb Hlast Hvis Hf]. pose proof (size_u64 _ _ Hv) as Hsu. rewrite Hvs in Hsu.
  destruct (u64_checked_add offset len) as [end_|] eqn:He; cbn [ok_or obind]; [|done].
  apply u64_checked_add_Some in He as [Heu ->]. destruct (Z.ltb_spec size (offset + len)); [done|].
  assert (range_ok (mkRange offset len)) as Hr by (split; [done|]; split; [done|]; cbn; lia).
  rewrite Hrd. unfold on_view_and_store, zoom, view_read. cbn [es_view es_store].
  destruct (read_begin_spec committed (mkRange offset len) (es_view s) Hv Hr ltac:(cbn; lia)) as (plan & Hplan & Hpok).
  erewrite mseq_ok by reflexivity. cbn [fst]. rewrite Hplan. erewrite mseq_ok by reflexivity.
  pose proof (read_fetch_spec committed (es_view s) (mkRange offset len) plan (es_store s) Hv Hr ltac:(cbn; lia) Hpok Hvh) as Hfetch.
  unfold mseq at 1, zoom. cbn [snd fst].
  assert (∀ store', same_world (es_store s) store' → ∀ v, view_inv committed v → vs_root v = vs_root (es_view s) →
    vs_last_applied_seq v = vs_last_applied_seq (es_view s) → (∀ i, visible committed v i = visible committed (es_view s) i) →
    serves (mkEngineState (es_wal s) store' v (es_compactions s)) a) as Hkeep.
  { intros store' Hsame v Hv' Hvr Hvl Hvv. exists committed, pruned, records, root.
    destruct (same_world_kept _ _ Hsame) as [Hk Hb]. destruct Hsame as [Hsv Hbl].
    pose proof (serving_store committed pruned records root s a store' (es_compactions s) Hse (kept_trees _ _ Hk Hb)
      (sv_valid _ _ Hsv (du_valid _ _ _ _ _ _ _ Hdu)) (sv_head _ _ Hsv id)) as Hse'.
    destruct Hse' as [Hdu' _ _ Hvh' _ _ _ Hf']; [intros; rewrite Hbl; by apply Hf|].
    split; cbn; try (by rewrite ?Hvr, ?Hvl); try done. intros i Hi. rewrite Hvv. by apply Hvis. }
  destruct (read_fetch _ plan (es_store s)) as [[[data fills]|e'|] store']; [| |done].
  2: { split; [by apply Hkeep|lia]. }
  destruct Hfetch as (Hdl & Hdata & Hfills & Htot & Hsame).
  destruct (read_finish_spec committed plan fills (es_view s) _ Hv Hroom) as (c' & Hfin & Hinv').
  { by rewrite (po_root _ _ _ _ _ Hpok). }
  { pose proof (po_total _ _ _ _ _ Hpok) as Ht. cbn in Ht. rewrite Hvs. lia. }
  erewrite mseq_ok by (cbn [fst set_snd]; rewrite Hfin; reflexivity). cbn. split; [by apply Hkeep|]. split; [done|]. split; [done|].
  intros i Hi. specialize (Hdata i ltac:(unfold in_byte_range; cbn; lia)). cbn in Hdata. rewrite Hdata, Hvis by lia. done.
Qed.

(** There is room in the log, in the sequence numbers and in the debt counter for a write. *)
Definition write_room s (offset : Z) (data : list byte) : Prop :=
  log_room (es_wal s) (mkWalRequest (mkRange offset (zlen data)) data) ∧
  vs_last_applied_seq (es_view s) + 2 ≤ u64_max ∧ vs_wal_debt_bytes (es_view s) + zlen data ≤ u64_max.

(** A write that the log and the view have taken. *)
Lemma append_apply_spec s a offset data :
  serves s a → data ≠ [] → 0 ≤ offset → offset + zlen data ≤ size → zlen data ≤ u32_max → write_room s offset data →
  ∃ r s1 s2, on_wal (log_append (mkWalRequest (mkRange offset (zlen data)) data)) s = (Ok r, s1) ∧
    on_view (apply_wal_record r) s1 = (Ok tt, s2) ∧ serves s2 (written_over a offset data) ∧
    (view_room s → view_room s2).
Proof.
  intros (committed & pruned & records & root & Hse) Hne Ho Hend Hlen (Hroom & Hseq & Hdebt).
  pose proof Hse as [[Hsz Hlog Hrec Hval Hhead Hcow Hholds Hrs Hbase Hby] Hv Hvs Hvh Hvb Hl Hvis Hf].
  pose proof (size_u64 _ _ Hv) as Hsu. rewrite Hvs in Hsu. pose proof (zlen_nonneg data) as Hdl. pose proof (zlen_nonneg records) as Hrl.
  destruct (law_log_seqs _ _ _ Hlog) as [Hp _].
  set (q := mkWalRequest (mkRange offset (zlen data)) data) in *.
  assert (request_wf q) as Hq.
  { split; [|by split]. split; [done|]. split; [split; cbn; lia|]. cbn. lia. }
  destruct (law_log_append _ _ _ q Hlog Hq Hroom ltac:(lia)) as (w' & Happ & Hlog'). set (r := mkWalRecord _ _ _) in *.
  assert (record_ok r) as Hrok.
  { destruct Hq as (Hr1 & _ & Hr2). pose proof Hr1 as (? & [? ?] & ?). split; [|done]. unfold record_wf, is_u64, is_u32. cbn in *.
    split_and!; try done; try lia. }
  destruct (apply_wal_record_spec committed r (es_view s) Hv Hrok) as (v' & Happ' & Hv' & Hvr & Hvl & Hvd & Hmax & Hnext & _ & Hvis');
    [by rewrite Hvs|cbn; lia|cbn; lia|done|].
  assert (∀ i, overwritten a [r] i = written_over a offset data i) as Hover.
  { intros i. unfold overwritten, written_over. cbn [last_writer].
    destruct (decide (offset ≤ i < offset + zlen data)); [by rewrite !bool_decide_true by done|by rewrite !bool_decide_false by done]. }
  exists r, (mkEngineState w' (es_store s) (es_view s) (es_compactions s)), (mkEngineState w' (es_store s) v' (es_compactions s)).
  split; [unfold on_wal, zoom; by rewrite Happ|]. split; [unfold on_view, zoom; cbn [es_view]; by rewrite Happ'|]. split.
  - exists committed, pruned, (records ++ [r]), root. split; cbn; try (by rewrite Hvr); try done.
    + split; try done.
      * intros x [Hx| ->%list_elem_of_singleton]%elem_of_app; [auto|]. by split.
      * rewrite zlen_app. change (zlen [r]) with 1. lia.
      * intros i Hi. rewrite filter_app, (filter_every _ [r]).
        2: { intros x ->%list_elem_of_singleton. cbn. lia. }
        rewrite overwritten_snoc, <-Hover. apply overwritten_ext. by apply Hby.
    + rewrite Hvl, zlen_app. change (zlen [r]) with 1. cbn. lia.
    + intros i Hi. rewrite Hvis', <-Hover. unfold overwritten. cbn [last_writer]. case_bool_decide; [done|]. by apply Hvis.
  - unfold view_room. cbn. rewrite Hvr. intros [Hm Hn]. split; [by rewrite Hmax|by rewrite Hnext].
Qed.

Lemma engine_write_spec e s a offset data :
  serves s a → view_room s → we_size_bytes e = size → (∀ co, we_compaction e = Some co → co_export_id co = id) →
  is_u64 offset → zlen data ≤ u64_max → write_room s offset data →
  match wal_engine_write draw_keys draw_ids e offset data s with
  | (Ok _, s') => offset + zlen data ≤ size ∧ serves s' (written_over a offset data)
  | (Err _, s') => s' = s ∧ (size < offset + zlen data ∨ u32_max < zlen data)
  | (Panic, _) => False
  end.
Proof.
  intros Hs Hroom Hsz Hco [Ho Hou] Hdu Hwr. unfold wal_engine_write, mseq at 1, mlift, validate_request_range. rewrite Hsz.
  assert (size ≤ u64_max) as Hsu.
  { destruct Hs as (committed & pruned & records & root & Hse). pose proof (size_u64 _ _ (se_view _ _ _ _ _ _ Hse)) as Hsu.
    rewrite (se_view_size _ _ _ _ _ _ Hse) in Hsu. lia. }
  destruct (u64_checked_add offset (zlen data)) as [end_|] eqn:He; cbn [ok_or obind].
  2: { split; [done|]. left. apply u64_checked_add_None in He. lia. }
  apply u64_checked_add_Some in He as [Heu ->]. destruct (Z.ltb_spec size (offset + zlen data)); [by split; [|left]|].
  destruct data as [|b data0] eqn:Hd.
  { split; [done|]. apply (serves_ext s a); [|done]. intros i Hi. unfold written_over. change (zlen []) with 0.
    rewrite bool_decide_false by lia. done. }
  rewrite <-Hd in *. assert (data ≠ []) as Hne by (by rewrite Hd). clear b data0 Hd.
  unfold u32_try_from. destruct (Z.leb_spec (zlen data) u32_max) as [Hlen|Hlen]; [|by split; [|right]].
  erewrite mseq_ok by reflexivity.
  assert (WalRequest_new (mkRange offset (zlen data)) data = Ok (mkWalRequest (mkRange offset (zlen data)) data)) as Hreq.
  { unfold WalRequest_new. destruct data; [done|]. cbn [br_len]. by rewrite Z.eqb_refl. }
  erewrite mseq_ok by (rewrite Hreq; reflexivity).
  destruct (append_apply_spec s a offset data Hs Hne Ho ltac:(lia) Hlen Hwr) as (r & s1 & s2 & Hrun1 & Hrun2 & Hs2 & Hroom2).
  rewrite (mseq_ok _ _ _ _ _ Hrun1), (mseq_ok _ _ _ _ _ Hrun2). specialize (Hroom2 Hroom).
  unfold compact_if_wal_debt_exceeds_threshold. rewrite (mseq_ok _ _ _ (es_view s2) s2) by (by destruct s2).
  destruct (_ <? _); [by split; [lia|]|]. destruct (we_compaction e) as [co|]; [|by split; [lia|]].
  destruct (write_pressure_spec s2 _ co (hard_wal_debt_threshold_bytes (we_compaction_policy e)) Hs2 Hroom2 (Hco co eq_refl))
    as (s3 & -> & Hs3). by split; [lia|].
Qed.

(** *** Executions with crashes *)

(** What is left of the engine when the process dies: all but the view. *)
Definition survives s (a : Z → byte) : Prop :=
  (∃ committed pruned records root, durable committed pruned records root (es_wal s) (es_store s) a) ∧
  ∀ n j k, (es_compactions s ≤ n)%nat → blobs (es_store s).2 !! draw_keys n j k = None.

Lemma serves_survives s a : serves s a → survives s a.
Proof. intros (committed & pruned & records & root & [Hdu _ _ _ _ _ _ Hf]). split; [eauto 6|done]. Qed.

(** The process dies after the compactor is done and before the view learns of it. *)
Lemma compact_store_survives s a co snapshot :
  serves s a → capture_compaction_snapshot (es_view s) = Some snapshot → co_export_id co = id →
  let n := es_compactions s in
  match on_store (compact_snapshot (draw_keys n) (draw_ids n) (co_export_id co) snapshot)
          (mkEngineState (es_wal s) (es_store s) (es_view s) (Datatypes.S n)) with
  | (Ok _, s') | (Err _, s') => survives s' a
  | (Panic, _) => False
  end.
Proof.
  intros (committed & pruned & records & root & Hse) Hcap Hco n.
  pose proof Hse as [Hdu Hv Hvs Hvh Hvb Hl Hvis Hf]. destruct (capture_inv _ _ Hcap) as [Hsnap Hlt].
  pose proof (supply_draws n (es_store s).2 ltac:(intros j k; by apply Hf)) as Hdraw.
  pose proof (compact_snapshot_spec (draw_keys n) (draw_ids n) id committed snapshot (es_store s) Hdraw (su_id supply)
    (du_valid _ _ _ _ _ _ _ Hdu)) as Hc. cbv zeta in Hc.
  specialize (Hc ltac:(by rewrite Hsnap) ltac:(rewrite Hsnap; apply (vi_overlay _ _ Hv))).
  assert (∀ store', only_keys (draw_keys n) (es_store s) store' →
    ∀ m j k, (Datatypes.S n ≤ m)%nat → blobs store'.2 !! draw_keys m j k = None) as Hfresh.
  { intros store' Ho m j k Hm. rewrite Ho; [apply Hf; lia|]. intros j' k' Heq.
    apply (su_keys_distinct supply) in Heq as [-> _]. lia. }
  unfold on_store, zoom. cbn [es_store]. rewrite Hco.
  destruct (compact_snapshot _ _ _ _ (es_store s)) as [[result|e|] store']; [| |done].
  2: { destruct Hc as (Hk & Hval & Ho & Hh). split; [|by apply Hfresh]. exists committed, pruned, records, root.
       by apply (serving_store _ _ _ _ _ _ _ (Datatypes.S n) Hse Hk Hval Hh (Hfresh _ Ho)). }
  destruct Hc as (Hk & Hval & Ho & Hc). split; [|by apply Hfresh]. unfold compacted in Hc.
  destruct (cr_outcome result), (cr_published_root result) as [new_root|]; try done.
  - destruct Hc as (Hbase & Hsize & Hcowb & Hmoved & Hholds). eexists _, pruned, records, new_root.
    by apply (published_durable committed pruned records root s a snapshot new_root store').
  - exists committed, pruned, records, root. by apply (serving_store _ _ _ _ _ _ _ (Datatypes.S n) Hse Hk Hval Hc (Hfresh _ Ho)).
  - exists committed, pruned, records, root. by apply (serving_store _ _ _ _ _ _ _ (Datatypes.S n) Hse Hk Hval Hc (Hfresh _ Ho)).
Qed.

(** What happens to an engine: requests, ticks of the background task, a close, and restarts: at rest,
    after the log took a write that was not answered, or after a compaction the view has not seen. *)
Inductive EngineInput : Type :=
| InRequest (request : ExportRequest)
| InTick (busy : bool)
| InClose
| InRestart (policy : CompactionPolicy)
| InCrashedWrite (offset : Z) (data : list byte) (policy : CompactionPolicy)
| InCrashedCompaction (policy : CompactionPolicy).

Context (d : ActiveExportDescriptor).

(** A restart: the head is looked up in the catalog, and the engine is opened over the same stores with a new view, which it fills by replay.  The log stays the log of
    the state: that opening the files of the local log gives that log again, after a crash in an append too, is shown in [WalRecovery] and [Factory].
    Appends do not fail here ([law_log_append]); what a failed one can do is in [WalRecovery]. *)
Definition run_restart (policy : CompactionPolicy) (e : WalDurableEngine) s
    : SResult ExportReply * (WalDurableEngine * EngineState W S B) :=
  match see_head (es_store s).1 id with
  | Ok head =>
      match open_with_cow_tree_and_compaction_policy d head policy s with
      | (Ok e', s') => (Ok ReplyDone, (e', s'))
      | (Err err, s') => (Err err, (e, s'))
      | (Panic, s') => (Panic, (e, s'))
      end
  | Err err => (Err (ServerError_catalog err), (e, s))
  | Panic => (Panic, (e, s))
  end.

Definition run_input (input : EngineInput) (e : WalDurableEngine) s
    : SResult ExportReply * (WalDurableEngine * EngineState W S B) :=
  match input with
  | InRequest request =>
      let '(o, s') := wal_engine_execute draw_keys draw_ids e request s in (o, (e, s'))
  | InTick busy =>
      match we_compaction e with
      | Some co =>
          let '(o, s') := compact_background_tick draw_keys draw_ids co (we_compaction_policy e) busy s in
          (omapo (λ _, ReplyDone) o, (e, s'))
      | None => (Ok ReplyDone, (e, s))
      end
  | InClose =>
      let '(o, s') := wal_engine_close draw_keys draw_ids e s in (omapo (λ _, ReplyDone) o, (e, s'))
  | InRestart policy => run_restart policy e s
  | InCrashedWrite offset data policy =>
      match on_wal (log_append (mkWalRequest (mkRange offset (zlen data)) data)) s with
      | (Ok _, s') | (Err _, s') => run_restart policy e s'
      | (Panic, s') => (Panic, (e, s'))
      end
  | InCrashedCompaction policy =>
      match we_compaction e, capture_compaction_snapshot (es_view s) with
      | Some co, Some snapshot =>
          let n := es_compactions s in
          match on_store (compact_snapshot (draw_keys n) (draw_ids n) (co_export_id co) snapshot)
                  (mkEngineState (es_wal s) (es_store s) (es_view s) (Datatypes.S n)) with
          | (Ok _, s') | (Err _, s') => run_restart policy e s'
          | (Panic, s') => (Panic, (e, s'))
          end
      | _, _ => run_restart policy e s
      end
  end.

(** Arguments as their types allow them, and room for what the input does. *)
Definition restart_room s : Prop :=
  ∀ pruned records, log_holds (es_wal s) pruned records →
    pruned + zlen records + 1 ≤ u64_max ∧ ∀ n, n ≤ u32_max → records_bytes records + n ≤ u64_max.

Definition input_fits (input : EngineInput) s : Prop :=
  view_room s ∧
  match input with
  | InRequest (ReqRead offset len) => is_u64 offset ∧ is_u32 len
  | InRequest (ReqWrite offset data) => is_u64 offset ∧ zlen data ≤ u64_max ∧ write_room s offset data
  | InRequest ReqFlush | InTick _ | InClose => True
  | InRestart _ | InCrashedCompaction _ => restart_room s
  | InCrashedWrite offset data _ =>
      restart_room s ∧ write_room s offset data ∧ data ≠ [] ∧ 0 ≤ offset ∧ offset + zlen data ≤ size ∧ zlen data ≤ u32_max
  end.

(** The array after an input, and what its answer must be. *)
Definition array_next (a : Z → byte) (input : EngineInput) (o : SResult ExportReply) : Z → byte :=
  match input, o with
  | InRequest (ReqWrite offset data), Ok _ | InCrashedWrite offset data _, _ => written_over a offset data
  | _, _ => a
  end.

Definition answer_right (a : Z → byte) (input : EngineInput) (o : SResult ExportReply) : Prop :=
  match input, o with
  | _, Panic => False
  | InRequest (ReqRead offset len), Ok reply =>
      offset + len ≤ size ∧ ∃ data, reply = ReplyRead data ∧ zlen data = len ∧
        ∀ i, offset ≤ i < offset + len → zget data (i - offset) = Some (a i)
  | InRequest (ReqRead offset len), Err _ => True
  | InRequest (ReqWrite offset data), Ok reply => offset + zlen data ≤ size ∧ reply = ReplyDone
  | InRequest (ReqWrite offset data), Err _ => size < offset + zlen data ∨ u32_max < zlen data
  | _, _ => o = Ok ReplyDone
  end.

Definition engine_ok (e : WalDurableEngine) : Prop :=
  we_size_bytes e = size ∧ we_reader e = ReadsCowTree ∧ ∀ co, we_compaction e = Some co → co_export_id co = id.

Hypothesis d_kind : d_engine_kind (descriptor d) = WalDurable.
Hypothesis d_is_id : d_id (descriptor d) = id.

Lemma restart_spec s a policy e :
  survives s a →
  (∀ pruned records, log_holds (es_wal s) pruned records → pruned + zlen records ≤ u64_max ∧ records_bytes records ≤ u64_max) →
  ∃ e' s', run_restart policy e s = (Ok ReplyDone, (e', s')) ∧ engine_ok e' ∧ serves s' a.
Proof.
  intros [(committed & pruned & records & root & Hdu) Hf] Hroom. destruct (Hroom _ _ (du_log _ _ _ _ _ _ _ Hdu)) as [Hp Hb].
  destruct (du_head _ _ _ _ _ _ _ Hdu) as (head & _ & Hsee).
  destruct (open_spec committed pruned records root s a d policy head Hdu d_kind d_is_id Hsee Hp Hb Hf) as (v & Hrun & _ & Hse).
  unfold run_restart. rewrite Hsee, Hrun. eexists _, _. split; [done|]. split; [|by exists committed, pruned, records, root].
  split; [done|]. split; [done|]. by intros co [= <-].
Qed.

(** The records of a log are what it replays. *)
Lemma log_holds_unique w pruned records pruned' records' :
  log_holds w pruned records → log_holds w pruned' records' → pruned' = pruned ∧ records' = records.
Proof.
  intros H1 H2. pose proof (law_log_bounds _ _ _ H1) as Hb1. pose proof (law_log_bounds _ _ _ H2) as Hb2.
  rewrite Hb1 in Hb2. injection Hb2 as <- _. split; [done|].
  assert (∀ rs, log_holds w pruned rs → log_replay_after pruned w = (Ok rs, w)) as Hr.
  { intros rs Hrs. pose proof (zlen_nonneg rs). rewrite (law_log_replay_after _ _ _ pruned Hrs) by lia.
    rewrite filter_every; [done|]. intros r Hin. destruct (law_log_seqs _ _ _ Hrs) as [_ Hs].
    pose proof (seqs_from_bound _ _ _ Hs Hin). lia. }
  pose proof (Hr _ H1) as Hr1. rewrite (Hr _ H2) in Hr1. by injection Hr1.
Qed.

Lemma records_bytes_snoc rs r : records_bytes (rs ++ [r]) = records_bytes rs + zlen (rec_data r).
Proof. unfold records_bytes. induction rs as [|x rs IH]; cbn [foldr app]; [lia|]. rewrite IH. lia. Qed.

(** The log took the write and the process died: the write is in the array. *)
Lemma append_survives s a offset data :
  serves s a → data ≠ [] → 0 ≤ offset → offset + zlen data ≤ size → zlen data ≤ u32_max → write_room s offset data → restart_room s →
  ∃ r s', on_wal (log_append (mkWalRequest (mkRange offset (zlen data)) data)) s = (Ok r, s') ∧
    survives s' (written_over a offset data) ∧
    ∀ pruned records, log_holds (es_wal s') pruned records → pruned + zlen records ≤ u64_max ∧ records_bytes records ≤ u64_max.
Proof.
  intros Hs Hne Ho Hend Hlen Hw Hrr.
  destruct (append_apply_spec s a offset data Hs Hne Ho Hend Hlen Hw) as (r & s1 & s2 & Hrun1 & Hrun2 & Hs2 & _).
  exists r, s1. split; [done|].
  assert (es_wal s2 = es_wal s1 ∧ es_store s2 = es_store s1 ∧ es_compactions s2 = es_compactions s1) as (Hp1 & Hp2 & Hp3).
  { unfold on_view, zoom in Hrun2. destruct (apply_wal_record r (es_view s1)) as [o v]. injection Hrun2 as _ <-. done. }
  split.
  { apply serves_survives in Hs2 as [Hd Hf]. rewrite Hp1, Hp2 in Hd. rewrite Hp2, Hp3 in Hf. by split. }
  destruct Hs as (committed & pruned & records & root & Hse).
  pose proof (du_log _ _ _ _ _ _ _ (se_durable _ _ _ _ _ _ Hse)) as Hlog. destruct (Hrr _ _ Hlog) as [Hp Hb].
  specialize (Hb (zlen data) Hlen). destruct Hw as (Hroom & Hseq & _). rewrite (se_last _ _ _ _ _ _ Hse) in Hseq.
  set (q := mkWalRequest (mkRange offset (zlen data)) data) in *. pose proof (zlen_nonneg data).
  assert (request_wf q) as Hq.
  { pose proof (size_u64 _ _ (se_view _ _ _ _ _ _ Hse)) as Hsu. rewrite (se_view_size _ _ _ _ _ _ Hse) in Hsu.
    split; [|by split]. split; [done|]. split; [split; cbn; lia|]. cbn. lia. }
  destruct (law_log_append _ _ _ q Hlog Hq Hroom ltac:(lia)) as (w' & Happ & Hlog').
  unfold on_wal, zoom in Hrun1. rewrite Happ in Hrun1. injection Hrun1 as _ <-. cbn.
  intros pruned' records' Hh. destruct (log_holds_unique _ _ _ _ _ Hlog' Hh) as [-> ->].
  rewrite zlen_app, records_bytes_snoc. change (zlen [_]) with 1. cbn [rec_data req_data q]. lia.
Qed.

Lemma input_spec input e s a :
  engine_ok e → serves s a → input_fits input s →
  ∃ o e' s', run_input input e s = (o, (e', s')) ∧ engine_ok e' ∧ answer_right a input o ∧ serves s' (array_next a input o).
Proof.
  intros (Hsz & Hrd & Hco) Hs [Hroom Hfit]. destruct input as [[offset len|offset data|]|busy| |policy|offset data policy|policy]; cbn [run_input].
  - destruct Hfit as [Ho Hl]. pose proof (engine_read_spec e s a offset len Hs Hroom Hsz Hrd Ho Hl) as Hr.
    unfold wal_engine_execute, mseq. destruct (wal_engine_read e offset len s) as [[data|err|] s']; [| |done].
    + destruct Hr as (Hs' & Hend & Hlen & Hdata). eexists _, e, s'. split; [done|]. split; [done|]. cbn. eauto 6.
    + destruct Hr as [Hs' _]. eexists _, e, s'. split; [done|]. by split; [|split].
  - destruct Hfit as (Ho & Hl & Hw). pose proof (engine_write_spec e s a offset data Hs Hroom Hsz Hco Ho Hl Hw) as Hr.
    unfold wal_engine_execute, mseq. destruct (wal_engine_write _ _ e offset data s) as [[u|err|] s']; [| |done].
    + destruct Hr as [Hend Hs']. eexists _, e, s'. split; [done|]. by split; [|split].
    + destruct Hr as [-> Herr]. eexists _, e, s. split; [done|]. by split; [|split].
  - eexists _, e, s. split; [done|]. by split; [|split].
  - destruct (we_compaction e) as [co|] eqn:Hc; [|eexists _, e, s; split; [done|]; split; [split; [done|split; [done|by rewrite Hc]]|]; by split].
    destruct (tick_spec s a co (we_compaction_policy e) busy Hs Hroom (Hco co eq_refl)) as (tick & s' & -> & Hs').
    eexists _, e, s'. split; [done|]. split; [split; [done|split; [done|by rewrite Hc]]|]. by split.
  - unfold wal_engine_close. destruct (we_compaction e) as [co|] eqn:Hc.
    + destruct (close_spec s a co Hs Hroom (Hco co eq_refl)) as (s' & -> & Hs').
      eexists _, e, s'. split; [done|]. split; [split; [done|split; [done|by rewrite Hc]]|]. by split.
    + eexists _, e, s. split; [done|]. split; [split; [done|split; [done|by rewrite Hc]]|]. by split.
  - destruct (restart_spec s a policy e (serves_survives _ _ Hs)) as (e' & s' & -> & He & Hs'); [|by eexists _, e', s'].
    intros pruned records Hlog. destruct (Hfit _ _ Hlog) as [Hp Hb]. specialize (Hb 0 ltac:(done)). lia.
  - destruct Hfit as (Hrr & Hw & Hne & Ho & Hend & Hlen).
    destruct (append_survives s a offset data Hs Hne Ho Hend Hlen Hw Hrr) as (r & s1 & -> & Hsu & Hroom1).
    destruct (restart_spec s1 _ policy e Hsu Hroom1) as (e' & s' & -> & He & Hs'). by eexists _, e', s'.
  - assert (∀ s1, es_wal s1 = es_wal s → survives s1 a →
      ∃ o e' s', run_restart policy e s1 = (o, (e', s')) ∧ engine_ok e' ∧ answer_right a (InCrashedCompaction policy) o ∧ serves s' a) as Hgo.
    { intros s1 Hw1 Hsu. destruct (restart_spec s1 a policy e Hsu) as (e' & s' & -> & He & Hs'); [|by eexists _, e', s'].
      rewrite Hw1. intros pruned records Hlog. destruct (Hfit _ _ Hlog) as [Hp Hb]. specialize (Hb 0 ltac:(done)). lia. }
    destruct (we_compaction e) as [co|] eqn:Hc; [|by apply Hgo, serves_survives].
    destruct (capture_compaction_snapshot (es_view s)) as [snapshot|] eqn:Hcap; [|by apply Hgo, serves_survives].
    pose proof (compact_store_survives s a co snapshot Hs Hcap (Hco co eq_refl)) as Hsu. cbv zeta in Hsu.
    unfold on_store, zoom in *. cbn [es_store es_wal es_view es_compactions] in *.
    destruct (compact_snapshot _ _ _ _ (es_store s)) as [[result|err|] store']; [by apply Hgo|by apply Hgo|done].
Qed.

(** A run of the engine: inputs with their outcomes. *)
Inductive engine_run e0 s0 : list (EngineInput * SResult ExportReply) → WalDurableEngine → EngineState W S B → Prop :=
| engine_run_nil : engine_run e0 s0 [] e0 s0
| engine_run_snoc trace input o e s e' s' :
    engine_run e0 s0 trace e s → input_fits input s → run_input input e s = (o, (e', s')) →
    engine_run e0 s0 (trace ++ [(input, o)]) e' s'.

(** The array after a trace. *)
Definition array_after (a : Z → byte) (trace : list (EngineInput * SResult ExportReply)) : Z → byte :=
  foldl (λ a step, array_next a step.1 step.2) a trace.

Lemma run_spec e0 s0 a trace e s :
  engine_ok e0 → serves s0 a → engine_run e0 s0 trace e s →
  engine_ok e ∧ serves s (array_after a trace) ∧
  ∀ before input o after, trace = before ++ (input, o) :: after → answer_right (array_after a before) input o.
Proof.
  intros He0 Hs0. induction 1 as [|trace input o e s e' s' Hrun IH Hfit Hstep].
  { split; [done|]. split; [done|]. intros before input o after Heq. by destruct before. }
  destruct IH as (He & Hs & Hans). destruct (input_spec input e s _ He Hs Hfit) as (o1 & e1 & s1 & Hstep1 & He1 & Hright & Hs1).
  rewrite Hstep in Hstep1. injection Hstep1 as <- <- <-. split; [done|]. split.
  { unfold array_after in *. rewrite foldl_app. exact Hs1. }
  intros before input' o' after Heq. destruct after as [|x after _] using rev_ind.
  - apply app_inj_tail in Heq as [<- [= <- <-]]. done.
  - rewrite app_comm_cons, app_assoc in Heq. apply app_inj_tail in Heq as [-> _]. by eapply Hans.
Qed.
End array.
End engine.

(** ** Properties *)

(** C1: the engine is a byte array that survives crashes.  Over any log, record store and blob store
    that keep their laws, let the engine serve an array and go through any sequence of reads, writes,
    flushes, background compactions, closes and restarts, where a restart may also find a write that was
    logged but not answered or a compaction that was published but not installed.  Then every
    read that succeeds returns the bytes of the array of that moment, a write fails only when it does not fit
    the export or its length does not fit 32 bits, and is in the array from its answer on, whatever
    restarts follow; every other step succeeds and leaves the array alone; and nothing panics. *)
Theorem engine_refines_array {W S B : Type} `{!ExportWal W} `{!ExportWalLaws W}
    `{!TreeRecordStore S} `{!TreeView S} `{!TreeRecordStoreLaws S} `{!TreePublisher S} `{!TreePublisherLaws S}
    `{!BlobStore B} `{!BlobStoreLaws B} draw_keys draw_ids id size d e0 (s0 : EngineState W S B) a trace e s :
  supply_ok draw_keys draw_ids id → d_engine_kind (descriptor d) = WalDurable → d_id (descriptor d) = id →
  engine_ok id size e0 → serves draw_keys id size s0 a →
  engine_run draw_keys draw_ids id size d e0 s0 trace e s →
  serves draw_keys id size s (array_after a trace) ∧
  ∀ before input o after, trace = before ++ (input, o) :: after →
    answer_right size (array_after a before) input o.
Proof.
  intros Hsu Hk Hid He Hs Hrun. by destruct (run_spec draw_keys draw_ids id size Hsu d Hk Hid e0 s0 a trace e s He Hs Hrun) as (_ & ? & ?).
Qed.

(** C4: opening recovers what is durable.  When the log, the head in the catalog and the blobs stand
    for an array, opening the export succeeds: it replays exactly the records after the checkpoint of
    the head, changes nothing durable, and the new engine serves that array. *)
Theorem open_recovers {W S B : Type} `{!ExportWal W} `{!ExportWalLaws W}
    `{!TreeRecordStore S} `{!TreeView S} `{!TreeRecordStoreLaws S} `{!TreePublisher S} `{!TreePublisherLaws S}
    `{!BlobStore B} `{!BlobStoreLaws B} draw_keys id size committed pruned records root (s : EngineState W S B) a d policy head :
  durable id size committed pruned records root (es_wal s) (es_store s) a →
  d_engine_kind (descriptor d) = WalDurable → d_id (descriptor d) = id → see_head (es_store s).1 id = Ok head →
  pruned + zlen records ≤ u64_max → records_bytes records ≤ u64_max →
  (∀ n j k, (es_compactions s ≤ n)%nat → blobs (es_store s).2 !! draw_keys n j k = None) →
  ∃ v, open_with_cow_tree_and_compaction_policy d head policy s =
       (Ok (mkEngine (d_name (descriptor d)) size (d_block_size (descriptor d))
              (Some (mkCoordinator id (d_name (descriptor d)))) policy ReadsCowTree), with_view v s) ∧
       vs_root v = root ∧ serves draw_keys id size (with_view v s) a.
Proof.
  intros Hdu Hk Hid Hsee Hp Hb Hf.
  destruct (open_spec draw_keys id size committed pruned records root s a d policy head Hdu Hk Hid Hsee Hp Hb Hf) as (v & Hrun & Hroot & Hse).
  exists v. split; [done|]. split; [done|]. by exists committed, pruned, records, root.
Qed.

(** A fresh export on the local log, the SQLite catalog and the local blobs. *)
#[local] Instance sample_wal : ExportWal World := local_wal crc32c LOCAL_WAL_SEGMENT_TARGET_BYTES.
#[local] Instance sample_wal_laws : ExportWalLaws World :=
  local_wal_laws crc32c LOCAL_WAL_SEGMENT_TARGET_BYTES crc32c_u32 ltac:(by_compute).
#[local] Instance sample_publisher : TreePublisher SqliteDb := sqlite_publisher (Some 3%N).

Definition sample_draw_keys (n j k : nat) : BlobKey := sample_id (encode_nat (n, j)).
Definition sample_draw_ids (n k : nat) : string := sample_id k.
Definition sample_descriptor : ActiveExportDescriptor :=
  mkActiveDescriptor (mkDescriptor "id-1" "disk" 512 WalDurable Active "t" "t" None).
Definition fresh_engine : WalDurableEngine :=
  mkEngine "disk" 4096 512 (Some (mkCoordinator "id-1" "disk")) CompactionPolicy_default ReadsCowTree.
Definition fresh_state : EngineState World SqliteDb Fs :=
  mkEngineState (mkWorld (mkFs ∅ []) (mkWalState (mkWalBounds 0 0) None)) fresh_world fresh_view 0.

Lemma sample_supply : supply_ok sample_draw_keys sample_draw_ids "id-1".
Proof.
  split; [intros n; apply sample_id_valid|intros n; apply sample_id_inj|intros n j k; apply sample_key_valid| |done].
  intros n n' j j' k k' Heq%sample_id_inj%(inj encode_nat). by injection Heq.
Qed.

Lemma fresh_log_holds : log_holds (es_wal fresh_state) 0 [].
Proof.
  exists []. split; [|done]. split; [done|]. split; [|split; [|done]].
  - split; [done|]. intros name. split; [by intros [? ?]|]. intros Hin. by apply not_elem_of_nil in Hin.
  - split; [done|]. split; [done|]. split; [by_compute|]. split; [by left|constructor].
Qed.

Lemma fresh_durable :
  durable "id-1" 4096 zero_committed 0 [] (vs_root fresh_view) (es_wal fresh_state) (es_store fresh_state) (λ _, x00).
Proof.
  split; [split; by_compute|exact fresh_log_holds|intros r Hr; by apply not_elem_of_nil in Hr|exact fresh_valid| |done|exact fresh_holds|done| |].
  - eexists. split; [reflexivity|]. by vm_compute.
  - cbn. change (zlen []) with 0. lia.
  - done.
Qed.

Lemma fresh_serves : serves sample_draw_keys "id-1" 4096 fresh_state (λ _, x00).
Proof.
  exists zero_committed, 0, [], (vs_root fresh_view).
  split; [exact fresh_durable| |done|exact fresh_holds|done|done|done|done].
  apply new_view_inv; [by_compute|by_compute|by_compute|]. apply ReadCache_new_ready. by_compute.
Qed.

(** The log takes a write, the process dies before it answers, and the next one reads the write. *)
Lemma engine_refines_array_witness :
  ∃ trace e s data,
    engine_run sample_draw_keys sample_draw_ids "id-1" 4096 sample_descriptor fresh_engine fresh_state trace e s ∧
    last trace = Some (InRequest (ReqRead 100 4), Ok (ReplyRead data)) ∧
    zget data 1 = Some (written_over (λ _, x00) 100 (le_bytes 4 258) 101).
Proof.
  set (crash := InCrashedWrite 100 (le_bytes 4 258) CompactionPolicy_default).
  set (step1 := run_input sample_draw_keys sample_draw_ids "id-1" sample_descriptor crash fresh_engine fresh_state).
  set (step2 := run_input sample_draw_keys sample_draw_ids "id-1" sample_descriptor (InRequest (ReqRead 100 4)) step1.2.1 step1.2.2).
  assert (Ho : match step2.1 with Ok (ReplyRead _) => True | _ => False end) by (vm_compute; exact I).
  assert (Hpair : ∀ p : SResult ExportReply * (WalDurableEngine * EngineState World SqliteDb Fs), p = (p.1, (p.2.1, p.2.2)))
    by (by intros [? [? ?]]).
  assert (Hrun : engine_run sample_draw_keys sample_draw_ids "id-1" 4096 sample_descriptor fresh_engine fresh_state
    [(crash, step1.1); (InRequest (ReqRead 100 4), step2.1)] step2.2.1 step2.2.2).
  { assert (Hlog : ∀ pruned records, log_holds (es_wal fresh_state) pruned records → pruned = 0 ∧ records = []).
    { intros pruned records Hh. exact (log_holds_unique _ 0 [] pruned records fresh_log_holds Hh). }
    apply (engine_run_snoc _ _ _ _ _ _ _ [(crash, step1.1)] _ _ step1.2.1 step1.2.2).
    - apply (engine_run_snoc _ _ _ _ _ _ _ [] _ _ fresh_engine fresh_state); [constructor| |].
      + split; [by_compute|]. split; [|split; [|by_compute]].
        * intros pruned records [-> ->]%Hlog. split; [by_compute|]. intros n Hn. change (records_bytes []) with 0.
          unfold u64_max, u32_max in *. lia.
        * split; [|by_compute]. intros next segs (_ & [_ Hdom] & _). destruct segs as [|seg segs]; [constructor|].
          exfalso. destruct (proj2 (Hdom (segment_path seg.1))) as [? Hf]; [by left|]. done.
      + exact (Hpair step1).
    - split; [by_compute|]. split; by_compute.
    - exact (Hpair step2). }
  destruct (engine_refines_array sample_draw_keys sample_draw_ids "id-1" 4096 sample_descriptor fresh_engine fresh_state (λ _, x00)
    [(crash, step1.1); (InRequest (ReqRead 100 4), step2.1)] step2.2.1 step2.2.2 sample_supply eq_refl eq_refl) as [_ H]; [split; [done|split; [done|by intros co [= <-]]]|exact fresh_serves|exact Hrun|].
  specialize (H [(crash, step1.1)] _ _ [] eq_refl).
  destruct step2.1 as [reply|e|] eqn:H2; [|destruct Ho|destruct Ho]. destruct reply as [data|]; [|destruct Ho].
  eexists _, _, _, data. split; [exact Hrun|]. split; [reflexivity|].
  destruct H as (_ & data' & Heq & _ & Hdata). injection Heq as <-. apply (Hdata 101). by_compute.
Defined.

(** A log with one record that no compaction has moved yet. *)
Definition logged_request : WalRequest := mkWalRequest (mkRange 100 4) (le_bytes 4 258).
Definition logged_record : WalRecord := mkWalRecord 1 (mkRange 100 4) (le_bytes 4 258).
Definition logged_state : EngineState World SqliteDb Fs :=
  mkEngineState (log_append logged_request (es_wal fresh_state)).2 fresh_world fresh_view 0.

Lemma logged_log_holds : log_holds (es_wal logged_state) 0 [logged_record].
Proof.
  destruct (law_log_append (es_wal fresh_state) 0 [] logged_request fresh_log_holds) as (w' & Hw & Hl); [by_compute| |by_compute|].
  - intros next segs (_ & [_ Hdom] & _). destruct segs as [|seg segs]; [constructor|].
    exfalso. destruct (proj2 (Hdom (segment_path seg.1))) as [? Hf]; [by left|]. done.
  - unfold logged_state. cbn [es_wal]. rewrite Hw. exact Hl.
Qed.

Lemma logged_durable :
  durable "id-1" 4096 zero_committed 0 [logged_record] (vs_root fresh_view) (es_wal logged_state) (es_store logged_state)
    (written_over (λ _, x00) 100 (le_bytes 4 258)).
Proof.
  split; [split; by_compute|exact logged_log_holds| |exact fresh_valid| |done|exact fresh_holds|done| |].
  - intros r ->%list_elem_of_singleton. split; [|by_compute]. by_compute.
  - eexists. split; [reflexivity|]. by vm_compute.
  - cbn. change (zlen [logged_record]) with 1. lia.
  - intros i Hi. change (filter _ _) with [logged_record]. unfold overwritten, written_over. cbn [last_writer].
    change (zlen (le_bytes 4 258)) with 4. unfold in_byte_range. cbn [rec_range logged_record br_start br_len].
    by repeat case_bool_decide; try lia.
Qed.

(** Opening replays the record. *)
Lemma open_recovers_witness :
  ∃ e v, open_with_cow_tree_and_compaction_policy sample_descriptor (HeadCowImmutableTree (mkCowHead 4096 None 0 Bounded32V1))
           CompactionPolicy_default logged_state = (Ok e, with_view v logged_state) ∧
    serves sample_draw_keys "id-1" 4096 (with_view v logged_state) (written_over (λ _, x00) 100 (le_bytes 4 258)).
Proof.
  destruct (open_recovers sample_draw_keys "id-1" 4096 zero_committed 0 [logged_record] (vs_root fresh_view) logged_state
    (written_over (λ _, x00) 100 (le_bytes 4 258)) sample_descriptor CompactionPolicy_default
    (HeadCowImmutableTree (mkCowHead 4096 None 0 Bounded32V1))
    logged_durable eq_refl eq_refl) as (v & Hrun & _ & Hs); [by vm_compute|by_compute|by_compute|done|].
  eexists _, v. split; [exact Hrun|exact Hs].
Defined.
