(* ===== verification/Memory.v ===== *)
(** * The memory engine

    [engines/memory.rs]: an export whose bytes are one boxed slice that all requests share without a lock.
    The storage copies with raw pointers, and what makes that sound is said in its comments: the
    engine checks the bounds of every request, and admission keeps conflicting requests apart.

    The first part is the engine as the code runs one request.  The second part is the whole picture
    of the comments: requests wait in the controller of [Admission], the ones with a permit copy
    their bytes one at a time in any order and in any interleaving, and the theorem is that every
    answer is the one of the engine run alone at the moment of the answer. *)

From S2P Require Import Prelude ControlPlane Server Admission Export.

#[local] Open Scope string_scope.
#[local] Open Scope list_scope.
#[local] Open Scope Z_scope.

(** ** The engine *)

Definition MAX_MEMORY_EXPORT_BYTES : Z := 64 * 1024 * 1024.

(** The fields that do not change; [data] is the state. *)
Record MemoryExportEngine := mkMemoryEngine {
  me_name : ExportName;
  me_size_bytes : Z;
  me_block_size : Z;
}.

Definition MemoryStorage : Type := list byte.

Definition MemoryStorage_new (size_bytes : Z) : MemoryStorage := zeros size_bytes.

(** The copies of the storage.  A pointer outside the slice is undefined behaviour, here a panic. *)
Definition storage_read {E} (start len : Z) (bytes : MemoryStorage) : outcome E (list byte) :=
  if len =? 0 then Ok [] else or_panic (slice bytes start (start + len)).

Definition storage_write {E} (start : Z) (data : list byte) (bytes : MemoryStorage) : outcome E MemoryStorage :=
  if zlen data =? 0 then Ok bytes else or_panic (splice bytes start data).

Definition from_export_head (name : ExportName) (block_size : Z) (head : ExportHead)
    : SResult (MemoryExportEngine * MemoryStorage) :=
  if negb (bool_decide (layout_kind head = MemoryEmpty)) then
    Err (SCatalog "export `{name}` does not have a memory_empty head" None)
  else
    let size := size_bytes head in
    if MAX_MEMORY_EXPORT_BYTES <? size then Err (ExportTooLarge name size MAX_MEMORY_EXPORT_BYTES)
    else Ok (mkMemoryEngine name size block_size, MemoryStorage_new size).

(** [MemoryExportEngine::new] and [MemoryExportEngine::from_descriptor]. *)
Definition MemoryExportEngine_new (meta : ExportRecord) : SResult (MemoryExportEngine * MemoryStorage) :=
  from_export_head (r_name meta) (r_block_size meta) (r_head meta).
Definition memory_from_descriptor (d : ActiveExportDescriptor) (head : ExportHead)
    : SResult (MemoryExportEngine * MemoryStorage) :=
  from_export_head (d_name (descriptor d)) (d_block_size (descriptor d)) head.

Section engine.
Variable e : MemoryExportEngine.

Definition memory_validate_range (operation : string) (offset length : Z) : SResult Z :=
  let error := OutOfBounds operation offset length (me_size_bytes e) in
  let? end_ := ok_or (u64_checked_add offset length) error in
  if me_size_bytes e <? end_ then Err error else Ok offset.

Definition memory_read (offset len : Z) : M MemoryStorage ServerError (list byte) := λ bytes,
  ((let? start := memory_validate_range "read" offset len in storage_read start len bytes), bytes).

Definition memory_write (offset : Z) (data : list byte) : M MemoryStorage ServerError unit := λ bytes,
  match (let? start := memory_validate_range "write" offset (zlen data) in storage_write start data bytes) with
  | Ok bytes' => (Ok tt, bytes')
  | Err err => (Err err, bytes)
  | Panic => (Panic, bytes)
  end.

Definition memory_flush : M MemoryStorage ServerError unit := mret tt.

Definition memory_execute (request : ExportRequest) : M MemoryStorage ServerError ExportReply :=
  match request with
  | ReqRead offset len => let! data := memory_read offset len in mret (ReplyRead data)
  | ReqWrite offset data => let! _ := memory_write offset data in mret ReplyDone
  | ReqFlush => let! _ := memory_flush in mret ReplyDone
  end.

(** [MemoryAdmissionPolicy::operation_for]. *)
Definition memory_operation_for (request : ExportRequest) : SResult AdmissionOp :=
  match request with
  | ReqRead offset len => Ok (ARead (mkRange offset len))
  | ReqWrite offset data =>
      let? len := ok_or (u32_try_from (zlen data)) (OutOfBounds "write" offset (zlen data) (me_size_bytes e)) in
      Ok (AWrite (mkRange offset len))
  | ReqFlush => Ok AFlush
  end.

(** The engine has no [close] of its own; the trait's does nothing. *)
Definition memory_engine : ExportEngine MemoryStorage :=
  mkExportEngine _ memory_operation_for memory_execute (mret tt).
End engine.

(** ** Shared storage

    A task is a request with its ticket: it waits for its permit, or it runs and has the bytes in
    [todo] still to copy.  The buffer is the vector of a read, or the data of a write. *)

Inductive MemoryTask : Type :=
| TaskWaiting (request : ExportRequest)
| TaskReading (offset len : Z) (todo : gset Z) (buffer : list byte)
| TaskWriting (offset : Z) (data : list byte) (todo : gset Z).

Definition task_request (t : MemoryTask) : ExportRequest :=
  match t with
  | TaskWaiting request => request
  | TaskReading offset len _ _ => ReqRead offset len
  | TaskWriting offset data _ => ReqWrite offset data
  end.

Definition task_running (t : MemoryTask) : bool :=
  match t with TaskWaiting _ => false | _ => true end.

(** The bytes a running task may touch. *)
Definition touches (t : MemoryTask) (x : Z) : Prop :=
  match t with
  | TaskWaiting _ => False
  | TaskReading offset len _ _ => offset ≤ x < offset + len
  | TaskWriting offset data _ => offset ≤ x < offset + zlen data
  end.

Definition task_writes (t : MemoryTask) : bool :=
  match t with TaskWriting _ _ _ => true | _ => false end.

Record MemoryWorld := mkMemoryWorld {
  mw_admission : AdmissionWorld;
  mw_bytes : MemoryStorage;
  mw_tasks : gmap Z MemoryTask;
}.

Definition MemoryWorld_new (e : MemoryExportEngine) : MemoryWorld :=
  mkMemoryWorld (AdmissionWorld_new (me_size_bytes e)) (MemoryStorage_new (me_size_bytes e)) ∅.

Definition indices (len : Z) : gset Z := list_to_set (seqZ 0 len).

(** One step of the tasks, with the request it answers, if any: submit a request; move in the controller
    (cancel, receive or drop a permit), where a running task keeps its permit; start with the range check,
    which may answer at once; copy one byte; and answer when all bytes are copied. *)
Inductive mem_step (e : MemoryExportEngine) : MemoryWorld → option (ExportRequest * SResult ExportReply) → MemoryWorld → Prop :=
| mem_submit adm bytes tasks racing request op ticket sent inner :
    request_typed request →
    memory_operation_for e request = Ok op →
    as_next_ticket (ai_state (w_inner adm)) < u64_max →
    register (world_env adm racing) op (w_inner adm) = (Ok (ticket, sent), inner) →
    mem_step e (mkMemoryWorld adm bytes tasks) None
      (mkMemoryWorld (post adm inner sent racing) bytes (<[ticket := TaskWaiting request]> tasks))
| mem_handles adm adm' bytes tasks :
    adm_step adm adm' →
    as_next_ticket (ai_state (w_inner adm')) = as_next_ticket (ai_state (w_inner adm)) →
    (∀ ticket t, tasks !! ticket = Some t → task_running t = true → ticket ∈ w_held adm') →
    mem_step e (mkMemoryWorld adm bytes tasks) None (mkMemoryWorld adm' bytes tasks)
| mem_refused adm bytes tasks ticket request operation offset length err :
    tasks !! ticket = Some (TaskWaiting request) → ticket ∈ w_held adm →
    match request with
    | ReqRead o len => operation = "read" ∧ offset = o ∧ length = len
    | ReqWrite o data => operation = "write" ∧ offset = o ∧ length = zlen data
    | ReqFlush => False
    end →
    memory_validate_range e operation offset length = Err err →
    mem_step e (mkMemoryWorld adm bytes tasks) (Some (request, Err err)) (mkMemoryWorld adm bytes (delete ticket tasks))
| mem_flushed adm bytes tasks ticket :
    tasks !! ticket = Some (TaskWaiting ReqFlush) → ticket ∈ w_held adm →
    mem_step e (mkMemoryWorld adm bytes tasks) (Some (ReqFlush, Ok ReplyDone)) (mkMemoryWorld adm bytes (delete ticket tasks))
| mem_start_read adm bytes tasks ticket offset len start :
    tasks !! ticket = Some (TaskWaiting (ReqRead offset len)) → ticket ∈ w_held adm →
    memory_validate_range e "read" offset len = Ok start →
    mem_step e (mkMemoryWorld adm bytes tasks) None
      (mkMemoryWorld adm bytes (<[ticket := TaskReading offset len (indices len) (zeros len)]> tasks))
| mem_start_write adm bytes tasks ticket offset data start :
    tasks !! ticket = Some (TaskWaiting (ReqWrite offset data)) → ticket ∈ w_held adm →
    memory_validate_range e "write" offset (zlen data) = Ok start →
    mem_step e (mkMemoryWorld adm bytes tasks) None
      (mkMemoryWorld adm bytes (<[ticket := TaskWriting offset data (indices (zlen data))]> tasks))
| mem_copy_read adm bytes tasks ticket offset len todo buffer j b buffer' :
    tasks !! ticket = Some (TaskReading offset len todo buffer) → j ∈ todo →
    zget bytes (offset + j) = Some b → splice buffer j [b] = Some buffer' →
    mem_step e (mkMemoryWorld adm bytes tasks) None
      (mkMemoryWorld adm bytes (<[ticket := TaskReading offset len (todo ∖ {[j]}) buffer']> tasks))
| mem_copy_write adm bytes tasks ticket offset data todo j b bytes' :
    tasks !! ticket = Some (TaskWriting offset data todo) → j ∈ todo →
    zget data j = Some b → splice bytes (offset + j) [b] = Some bytes' →
    mem_step e (mkMemoryWorld adm bytes tasks) None
      (mkMemoryWorld adm bytes' (<[ticket := TaskWriting offset data (todo ∖ {[j]})]> tasks))
| mem_done_read adm bytes tasks ticket offset len buffer :
    tasks !! ticket = Some (TaskReading offset len ∅ buffer) →
    mem_step e (mkMemoryWorld adm bytes tasks) (Some (ReqRead offset len, Ok (ReplyRead buffer)))
      (mkMemoryWorld adm bytes (delete ticket tasks))
| mem_done_write adm bytes tasks ticket offset data :
    tasks !! ticket = Some (TaskWriting offset data ∅) →
    mem_step e (mkMemoryWorld adm bytes tasks) (Some (ReqWrite offset data, Ok ReplyDone))
      (mkMemoryWorld adm bytes (delete ticket tasks)).

(** A run with its answers, in the order in which they are given. *)
Inductive mem_run (e : MemoryExportEngine) : list (ExportRequest * SResult ExportReply) → MemoryWorld → Prop :=
| mem_run_nil : mem_run e [] (MemoryWorld_new e)
| mem_run_snoc trace w answer w' :
    mem_run e trace w → mem_step e w answer w' → mem_run e (trace ++ match answer with Some x => [x] | None => [] end) w'.

(** The engine alone, one request after the other. *)
Definition memory_after (e : MemoryExportEngine) (trace : list (ExportRequest * SResult ExportReply)) : MemoryStorage :=
  foldl (λ bytes '(request, _), (memory_execute e request bytes).2) (MemoryStorage_new (me_size_bytes e)) trace.

(** ** The invariant of the shared storage *)

Section shared.
Variable e : MemoryExportEngine.
Hypothesis Hsize : 0 ≤ me_size_bytes e ≤ u64_max.
Implicit Types (a bytes : MemoryStorage) (w : MemoryWorld) (tasks : gmap Z MemoryTask) (ticket : Z).

(** A task has the permit it needs, stays in the export, and what it copied is right: a read has the
    bytes of [a], and a write is in the storage. *)
Definition task_ok (adm : AdmissionWorld) a bytes (ticket : Z) (task : MemoryTask) : Prop :=
  match task with
  | TaskWaiting _ => True
  | TaskReading offset len todo buffer =>
      ticket ∈ w_held adm ∧ offset + len ≤ me_size_bytes e ∧ zlen buffer = len ∧
      (∀ j, j ∈ todo → 0 ≤ j < len) ∧
      ∀ j, 0 ≤ j < len → j ∉ todo → zget buffer j = zget a (offset + j)
  | TaskWriting offset data todo =>
      ticket ∈ w_held adm ∧ offset + zlen data ≤ me_size_bytes e ∧
      (∀ j, j ∈ todo → 0 ≤ j < zlen data) ∧
      ∀ j, 0 ≤ j < zlen data → j ∉ todo → zget bytes (offset + j) = zget data j
  end.

Definition task_known (adm : AdmissionWorld) (ticket : Z) (task : MemoryTask) : Prop :=
  ticket < as_next_ticket (ai_state (w_inner adm)) ∧ request_typed (task_request task) ∧
  ∀ op, (ticket, op) ∈ entries (ai_state (w_inner adm)) → memory_operation_for e (task_request task) = Ok op.

(** No running write has put its byte at [x]. *)
Definition untouched (tasks : gmap Z MemoryTask) (x : Z) : Prop :=
  ∀ ticket offset data todo, tasks !! ticket = Some (TaskWriting offset data todo) →
    offset ≤ x < offset + zlen data → x - offset ∈ todo.

Record mem_inv a w : Prop := {
  mi_admission : world_ok (mw_admission w);
  mi_length : zlen (mw_bytes w) = me_size_bytes e;
  mi_array : zlen a = me_size_bytes e;
  mi_known : map_Forall (task_known (mw_admission w)) (mw_tasks w);
  mi_ok : map_Forall (task_ok (mw_admission w) a (mw_bytes w)) (mw_tasks w);
  mi_rest : ∀ x, untouched (mw_tasks w) x → zget (mw_bytes w) x = zget a x;
}.

Lemma validate_range_Ok operation offset length start :
  memory_validate_range e operation offset length = Ok start → start = offset ∧ offset + length ≤ me_size_bytes e.
Proof.
  unfold memory_validate_range. intros H. inv_ok. apply u64_checked_add_Some in Hx as [? ->].
  case_bool; inv_ok. split; [done|lia].
Qed.

Lemma validate_range_total operation offset length :
  memory_validate_range e operation offset length =
    if me_size_bytes e <? offset + length then Err (OutOfBounds operation offset length (me_size_bytes e)) else Ok offset.
Proof.
  unfold memory_validate_range. destruct (u64_checked_add offset length) as [end_|] eqn:Hc; cbn.
  - by apply u64_checked_add_Some in Hc as [_ ->].
  - apply u64_checked_add_None in Hc. by decide_cmp.
Qed.

(** A running task has an operation in the controller that names exactly its bytes. *)
Lemma running_operation a w ticket task :
  mem_inv a w → mw_tasks w !! ticket = Some task → task_running task = true →
  ∃ range, mkActive ticket (if task_writes task then AWrite range else ARead range)
             ∈ as_active (ai_state (w_inner (mw_admission w))) ∧
    range_ok range ∧ ∀ x, touches task x → in_byte_range range x.
Proof.
  intros Hi Ht Hrun. pose proof (mi_known _ _ Hi _ _ Ht) as (_ & Hty & Hop). pose proof (mi_ok _ _ Hi _ _ Ht) as Hok.
  destruct task as [|offset len todo buffer|offset data todo]; [done| |]; cbn in *.
  - destruct Hok as (Hheld & Hb & _). destruct (held_running _ _ (mi_admission _ _ Hi) Hheld) as (op & Hact & Hen).
    specialize (Hop _ Hen). inv_ok. exists (mkRange offset len). split; [done|]. destruct Hty as [[? ?] ?].
    split; [|done]. split; [done|]. split; [done|cbn; lia].
  - destruct Hok as (Hheld & Hb & _). destruct (held_running _ _ (mi_admission _ _ Hi) Hheld) as (op & Hact & Hen).
    specialize (Hop _ Hen). inv_ok. apply u32_try_from_Some in Hx as [? ->].
    exists (mkRange offset (zlen data)). split; [done|]. pose proof (zlen_nonneg data). destruct Hty.
    split; [|done]. split; [done|]. split; [unfold is_u32; cbn; lia|cbn; lia].
Qed.

(** No data race: two running tasks meet in a byte only to read it. *)
Lemma tasks_apart a w t1 t2 task1 task2 x :
  mem_inv a w → mw_tasks w !! t1 = Some task1 → mw_tasks w !! t2 = Some task2 → t1 ≠ t2 →
  touches task1 x → touches task2 x → task_writes task1 = false ∧ task_writes task2 = false.
Proof.
  intros Hi H1 H2 Hne Hx1 Hx2.
  assert (task_running task1 = true) as Hr1 by (by destruct task1).
  assert (task_running task2 = true) as Hr2 by (by destruct task2).
  destruct (running_operation _ _ _ _ Hi H1 Hr1) as (r1 & Ha1 & Hok1 & Hin1).
  destruct (running_operation _ _ _ _ Hi H2 Hr2) as (r2 & Ha2 & Hok2 & Hin2).
  pose proof (q_free _ _ _ (wo_queue _ (mi_admission _ _ Hi)) _ _ Ha1 Ha2 Hne) as Hc. cbn in Hc.
  pose proof (overlaps_false r1 r2 Hok1 Hok2) as Hno. specialize (Hin1 _ Hx1). specialize (Hin2 _ Hx2).
  destruct (task_writes task1), (task_writes task2); cbn in Hc; try done; exfalso; by eapply Hno.
Qed.

Lemma splice_one (l : list byte) i b r x :
  splice l i [b] = Some r → zget r x = if decide (x = i) then Some b else zget l x.
Proof.
  intros Hs. rewrite (splice_get _ _ _ _ x Hs). change (zlen [b]) with 1. destruct (decide (x = i)) as [->|].
  - decide_cmp. by rewrite Z.sub_diag.
  - by destruct (i <=? x) eqn:?, (x <? i + 1) eqn:?; cbn; try done; exfalso; lia.
Qed.

Lemma new_inv : mem_inv (MemoryStorage_new (me_size_bytes e)) (MemoryWorld_new e).
Proof.
  unfold MemoryStorage_new. split; cbn; [apply world_new_ok|by rewrite zeros_length by lia|by rewrite zeros_length by lia
    |apply map_Forall_empty|apply map_Forall_empty|done].
Qed.

(** The storage and the tasks of one task changed. *)
Lemma known_insert adm tasks ticket task task' :
  map_Forall (task_known adm) tasks → tasks !! ticket = Some task → task_request task' = task_request task →
  map_Forall (task_known adm) (<[ticket := task']> tasks).
Proof.
  intros Hk Ht Heq t' x [[-> <-]|[_ Hx]]%lookup_insert_Some; [|by apply Hk].
  destruct (Hk _ _ Ht) as (? & ? & ?). unfold task_known. by rewrite Heq.
Qed.

Lemma untouched_insert tasks ticket task task' x :
  tasks !! ticket = Some task → task_writes task = false → untouched (<[ticket := task']> tasks) x → untouched tasks x.
Proof.
  intros Ht Hw Hu t offset data todo Hin. apply (Hu t offset data todo).
  rewrite lookup_insert_ne; [done|]. intros <-. by simplify_eq.
Qed.

Lemma untouched_delete tasks ticket task x :
  tasks !! ticket = Some task → task_writes task = false → untouched (delete ticket tasks) x → untouched tasks x.
Proof.
  intros Ht Hw Hu t offset data todo Hin. apply (Hu t offset data todo).
  rewrite lookup_delete_ne; [done|]. intros <-. by simplify_eq.
Qed.

(** A task that leaves without a write changes nothing. *)
Lemma leave_inv a adm bytes tasks ticket task :
  mem_inv a (mkMemoryWorld adm bytes tasks) → tasks !! ticket = Some task → task_writes task = false →
  mem_inv a (mkMemoryWorld adm bytes (delete ticket tasks)).
Proof.
  intros [Ha Hl Hal Hk Ho Hr] Ht Hw; cbn in *. split; cbn; [done|done|done|by apply map_Forall_delete|by apply map_Forall_delete|].
  intros x Hu. apply Hr. by eapply untouched_delete.
Qed.

(** A task that only changes itself. *)
Lemma become_inv a adm bytes tasks ticket task task' :
  mem_inv a (mkMemoryWorld adm bytes tasks) → tasks !! ticket = Some task → task_writes task = false →
  task_request task' = task_request task → task_ok adm a bytes ticket task' →
  mem_inv a (mkMemoryWorld adm bytes (<[ticket := task']> tasks)).
Proof.
  intros [Ha Hl Hal Hk Ho Hr] Ht Hw Heq Hok; cbn in *. split; cbn; [done|done|done|by eapply known_insert| |].
  - by apply map_Forall_insert_2.
  - intros x Hu. apply Hr. by eapply untouched_insert.
Qed.

Lemma copy_read_inv a adm bytes tasks ticket offset len todo buffer j b buffer' :
  mem_inv a (mkMemoryWorld adm bytes tasks) → tasks !! ticket = Some (TaskReading offset len todo buffer) →
  j ∈ todo → zget bytes (offset + j) = Some b → splice buffer j [b] = Some buffer' →
  mem_inv a (mkMemoryWorld adm bytes (<[ticket := TaskReading offset len (todo ∖ {[j]}) buffer']> tasks)).
Proof.
  intros Hi Ht Hj Hb Hs. eapply become_inv; [done|done|done|done|].
  destruct (mi_ok _ _ Hi _ _ Ht) as (Hheld & Hbound & Hlen & Htodo & Hcopied).
  split; [done|]. split; [done|]. split; [by rewrite (splice_length _ _ _ _ Hs)|]. split; [set_solver|].
  intros i Hi' Hnot. rewrite (splice_one _ _ _ _ i Hs).
  destruct (decide (i = j)) as [->|Hne].
  - rewrite <-Hb. apply (mi_rest _ _ Hi). intros t o data td Hin Hx. cbn in Hin.
    destruct (decide (t = ticket)) as [->|Hne]; [by simplify_eq|].
    destruct (tasks_apart a _ t ticket _ _ (offset + j) Hi Hin Ht Hne) as [? _]; [done|cbn; specialize (Htodo _ Hj); lia|done].
  - apply Hcopied; [done|]. set_solver.
Qed.

Lemma copy_write_inv a adm bytes tasks ticket offset data todo j b bytes' :
  mem_inv a (mkMemoryWorld adm bytes tasks) → tasks !! ticket = Some (TaskWriting offset data todo) →
  j ∈ todo → zget data j = Some b → splice bytes (offset + j) [b] = Some bytes' →
  mem_inv a (mkMemoryWorld adm bytes' (<[ticket := TaskWriting offset data (todo ∖ {[j]})]> tasks)).
Proof.
  intros Hi Ht Hj Hb Hs. destruct (mi_ok _ _ Hi _ _ Ht) as (Hheld & Hbound & Htodo & Hcopied).
  assert (Hget : ∀ x, zget bytes' x = if decide (x = offset + j) then Some b else zget bytes x).
  { intros x. by apply splice_one. }
  specialize (Htodo _ Hj) as Hrange. split; cbn; [apply Hi|by rewrite (splice_length _ _ _ _ Hs); apply Hi|apply Hi
    |eapply known_insert; [apply Hi|done|done]| |].
  - intros t task [[<- <-]|[Hne Hin]]%lookup_insert_Some.
    + split; [done|]. split; [done|]. split; [set_solver|]. intros i Hi' Hnot. rewrite Hget.
      destruct (decide (i = j)) as [->|]; [by rewrite decide_True by done|]. rewrite decide_False by lia.
      apply Hcopied; [done|]. set_solver.
    + pose proof (mi_ok _ _ Hi _ _ Hin) as Hok. destruct task as [|o len td buf|o d td]; [done|done|].
      destruct Hok as (? & ? & ? & Hc). split; [done|]. split; [done|]. split; [done|].
      intros i Hi' Hnot. rewrite Hget. rewrite decide_False; [by apply Hc|]. intros Heq.
      destruct (tasks_apart a _ ticket t _ _ (offset + j) Hi Ht Hin Hne) as [? _]; [cbn; lia|cbn; lia|done].
  - intros x Hu. rewrite Hget. destruct (decide (x = offset + j)) as [->|Hne].
    + specialize (Hu ticket offset data _ (lookup_insert_eq _ _ _) ltac:(lia)). exfalso.
      replace (offset + j - offset) with j in Hu by lia. set_solver.
    + apply (mi_rest _ _ Hi). intros t o d td Hin Hx. cbn in Hin. destruct (decide (t = ticket)) as [->|Hnt].
      * simplify_eq. specialize (Hu ticket offset data _ (lookup_insert_eq _ _ _) Hx). set_solver.
      * apply (Hu t o d td); [by rewrite lookup_insert_ne|done].
Qed.

(** ** One request alone *)

Definition executes (request : ExportRequest) a (res : SResult ExportReply) a' : Prop :=
  zlen a' = me_size_bytes e ∧
  match request with
  | ReqRead offset len =>
      a' = a ∧
      if me_size_bytes e <? offset + len then res = Err (OutOfBounds "read" offset len (me_size_bytes e))
      else ∃ data, res = Ok (ReplyRead data) ∧ zlen data = len ∧
             ∀ j, 0 ≤ j < len → zget data j = zget a (offset + j)
  | ReqWrite offset data =>
      if me_size_bytes e <? offset + zlen data
      then a' = a ∧ res = Err (OutOfBounds "write" offset (zlen data) (me_size_bytes e))
      else res = Ok ReplyDone ∧
           ∀ x, zget a' x = if decide (offset ≤ x < offset + zlen data) then zget data (x - offset) else zget a x
  | ReqFlush => a' = a ∧ res = Ok ReplyDone
  end.

Lemma execute_spec request a :
  request_typed request → zlen a = me_size_bytes e →
  executes request a (memory_execute e request a).1 (memory_execute e request a).2.
Proof.
  intros Hty Hlen. destruct request as [offset len|offset data|]; cbn in Hty; [| |done].
  - destruct Hty as [[? ?] [? ?]]. cbn. unfold mseq, memory_read, executes. rewrite validate_range_total. cbn.
    destruct (Z.ltb_spec (me_size_bytes e) (offset + len)); cbn; [done|]. unfold storage_read.
    destruct (Z.eqb_spec len 0) as [->|]; cbn.
    + split; [done|]. split; [done|]. exists []. split; [done|]. split; [done|]. intros. lia.
    + destruct (slice_exists a offset (offset + len)) as [d Hd]; [lia|lia|]. rewrite Hd. cbn.
      split; [done|]. split; [done|]. exists d. split; [done|]. rewrite (slice_length _ _ _ _ Hd). split; [lia|].
      intros j Hj. apply (slice_get _ _ _ _ j Hd). lia.
  - destruct Hty as [? ?]. cbn. unfold mseq, memory_write, executes. rewrite validate_range_total. cbn.
    pose proof (zlen_nonneg data).
    destruct (Z.ltb_spec (me_size_bytes e) (offset + zlen data)); cbn; [done|]. unfold storage_write.
    destruct (Z.eqb_spec (zlen data) 0) as [Hz|]; cbn.
    + split; [done|]. split; [done|]. intros x. by rewrite decide_False by lia.
    + destruct (splice_exists a offset data) as [r Hr]; [lia|lia|]. rewrite Hr. cbn.
      split; [by rewrite (splice_length _ _ _ _ Hr)|]. split; [done|]. intros x. rewrite (splice_get _ _ _ _ x Hr).
      destruct (decide _); [by decide_cmp|]. destruct (_ <=? x) eqn:?, (x <? _) eqn:?; try done. exfalso. lia.
Qed.

(** ** Every step keeps the invariant *)

(** What a step does to the array of the invariant: an answer is the engine's answer on it. *)
Definition answered (answer : option (ExportRequest * SResult ExportReply)) a a' : Prop :=
  match answer with
  | None => a' = a
  | Some (request, res) => memory_execute e request a = (res, a')
  end.

Lemma task_ok_admission adm adm' a bytes ticket task :
  (task_running task = true → ticket ∈ w_held adm') → task_ok adm a bytes ticket task → task_ok adm' a bytes ticket task.
Proof. intros Hh. destruct task; cbn in *; [done| |]; intros (_ & ?); split; auto. Qed.

Lemma submit_inv a adm bytes tasks racing request op ticket sent inner :
  mem_inv a (mkMemoryWorld adm bytes tasks) → request_typed request → memory_operation_for e request = Ok op →
  as_next_ticket (ai_state (w_inner adm)) < u64_max →
  register (world_env adm racing) op (w_inner adm) = (Ok (ticket, sent), inner) →
  mem_inv a (mkMemoryWorld (post adm inner sent racing) bytes (<[ticket := TaskWaiting request]> tasks)).
Proof.
  intros [Ha Hl Hal Hk Ho Hr] Hty Hop Hlt Hreg; cbn in *.
  assert (Hw' : world_ok (post adm inner sent racing))
    by exact (world_ok_step _ _ (step_register adm racing op _ inner Hlt Hreg) Ha).
  destruct (register_entries _ _ _ _ _ _ Hreg) as [-> Hsub]. set (ticket := as_next_ticket _) in *.
  assert (Hnext : ticket < as_next_ticket (ai_state inner)).
  { subst ticket. destruct adm as [[p st] mb held closed]. pose proof (wo_lock _ Ha) as Hlock. cbn in Hlock. subst p.
    destruct (validate_cases st op) as [Hv|[err Hv]]; [|cbn [w_inner] in Hreg; by rewrite (register_rejects _ _ _ _ Hv) in Hreg].
    destruct (register_accepts (world_env (mkAdmissionWorld (mkInner false st) mb held closed) racing) op st)
      as (x & y & z & He & _); [pose proof (wo_next _ Ha); cbn in *; lia|apply Ha|done|].
    cbn [w_inner] in Hreg. rewrite He in Hreg. injection Hreg as <- <-. cbn. lia. }
  assert (Hfresh : tasks !! ticket = None).
  { destruct (tasks !! ticket) as [task|] eqn:Ht; [|done]. destruct (Hk _ _ Ht) as [? _]. unfold ticket in *. lia. }
  split; cbn; [done|done|done| | |].
  - intros t task [[<- <-]|[Hne Hin]]%lookup_insert_Some.
    + split; [done|]. split; [done|]. intros op' [Hen|Heq%list_elem_of_singleton]%Hsub%elem_of_app; [|by injection Heq as ->].
      destruct (entry_ticket _ _ _ Ha Hen). unfold ticket in *. lia.
    + destruct (Hk _ _ Hin) as (Hb & ? & Hops). split; [cbn; unfold ticket in *; lia|]. split; [done|].
      intros op' [Hen|Heq%list_elem_of_singleton]%Hsub%elem_of_app; [by apply Hops|]. injection Heq as -> _. done.
  - intros t task [[<- <-]|[Hne Hin]]%lookup_insert_Some; [done|].
    eapply task_ok_admission; [|by apply (Ho _ _ Hin)]. intros Hrun.
    specialize (Ho _ _ Hin). destruct task; [done|apply Ho|apply Ho].
  - intros x Hu. apply Hr. intros t o d td Hin. apply (Hu t o d td). rewrite lookup_insert_ne; [done|]. intros ->. by simplify_eq.
Qed.

Lemma handles_inv a adm adm' bytes tasks :
  mem_inv a (mkMemoryWorld adm bytes tasks) → adm_step adm adm' →
  as_next_ticket (ai_state (w_inner adm')) = as_next_ticket (ai_state (w_inner adm)) →
  (∀ ticket t, tasks !! ticket = Some t → task_running t = true → ticket ∈ w_held adm') →
  mem_inv a (mkMemoryWorld adm' bytes tasks).
Proof.
  intros [Ha Hl Hal Hk Ho Hr] Hstep Hnext Hheld; cbn in *.
  pose proof (adm_step_entries _ _ Hstep Ha Hnext) as Hsub.
  split; cbn; [by eapply world_ok_step|done|done| | |done].
  - intros t task Ht. destruct (Hk _ _ Ht) as (? & ? & Hops). split; [lia|]. split; [done|]. intros op Hen. by apply Hops, Hsub.
  - intros t task Ht. eapply task_ok_admission; [by eapply Hheld|by apply Ho].
Qed.

Lemma done_write_inv a a' adm bytes tasks ticket offset data :
  mem_inv a (mkMemoryWorld adm bytes tasks) → tasks !! ticket = Some (TaskWriting offset data ∅) →
  zlen a' = me_size_bytes e →
  (∀ x, zget a' x = if decide (offset ≤ x < offset + zlen data) then zget data (x - offset) else zget a x) →
  mem_inv a' (mkMemoryWorld adm bytes (delete ticket tasks)).
Proof.
  intros Hi Ht Hlen Hget. destruct (mi_ok _ _ Hi _ _ Ht) as (_ & _ & _ & Hcopied).
  split; cbn; [apply Hi|apply Hi|done|apply map_Forall_delete, Hi| |].
  - intros t task [Hne Hin]%lookup_delete_Some. pose proof (mi_ok _ _ Hi _ _ Hin) as Hok.
    destruct task as [|o len td buf|o d td]; [done| |done]. destruct Hok as (? & ? & ? & ? & Hc).
    split; [done|]. split; [done|]. split; [done|]. split; [done|]. intros j Hj Hnot. rewrite Hget, decide_False; [by apply Hc|].
    intros Hx. destruct (tasks_apart a _ ticket t _ _ (o + j) Hi Ht Hin Hne) as [? _]; [done|cbn; lia|done].
  - intros x Hu. rewrite Hget. destruct (decide (offset ≤ x < offset + zlen data)) as [Hx|Hx].
    + rewrite <-(Hcopied (x - offset)) by (lia || set_solver). cbn. f_equal. lia.
    + apply (mi_rest _ _ Hi). intros t o d td Hin Hx'. cbn in Hin. destruct (decide (t = ticket)) as [->|Hne]; [by simplify_eq|].
      apply (Hu t o d td); [by rewrite lookup_delete_ne by done|done].
Qed.

Lemma step_inv a w answer w' :
  mem_inv a w → mem_step e w answer w' → ∃ a', answered answer a a' ∧ mem_inv a' w'.
Proof.
  intros Hi Hstep. pose proof (λ t task H, proj1 (proj2 (mi_known _ _ Hi t task H))) as Htyped.
  pose proof (mi_array _ _ Hi) as Hlen.
  destruct Hstep as [adm bytes tasks racing request op ticket sent inner Hty Hop Hlt Hreg
    |adm adm' bytes tasks Hs Hn Hh|adm bytes tasks ticket request operation offset length err Ht _ Hreq Hval
    |adm bytes tasks ticket Ht _|adm bytes tasks ticket offset len start Ht Hh Hval|adm bytes tasks ticket offset data start Ht Hh Hval
    |adm bytes tasks ticket offset len todo buffer j b buffer' Ht Hj Hb Hs|adm bytes tasks ticket offset data todo j b bytes' Ht Hj Hb Hs
    |adm bytes tasks ticket offset len buffer Ht|adm bytes tasks ticket offset data Ht]; cbn [mw_tasks] in Htyped.
  - exists a. split; [done|]. by eapply submit_inv.
  - exists a. split; [done|]. by eapply handles_inv.
  - exists a. split; [|by eapply leave_inv]. rewrite validate_range_total in Hval.
    destruct request as [o len|o data|]; [destruct Hreq as (-> & -> & ->)..|done]; cbn; unfold mseq, memory_read, memory_write;
      rewrite validate_range_total; destruct (_ <? _); simplify_eq; done.
  - exists a. split; [done|]. by eapply leave_inv.
  - exists a. split; [done|]. apply validate_range_Ok in Hval as [-> Hb]. destruct (Htyped _ _ Ht) as [_ [? _]].
    eapply become_inv; [done|done|done|done|]. split; [done|]. split; [done|]. split; [by apply zeros_length|]. unfold indices. split.
    + intros j. rewrite elem_of_list_to_set, elem_of_seqZ. lia.
    + intros j Hj. rewrite elem_of_list_to_set, elem_of_seqZ. lia.
  - exists a. split; [done|]. apply validate_range_Ok in Hval as [-> Hb].
    eapply become_inv; [done|done|done|done|]. split; [done|]. split; [done|]. unfold indices. split.
    + intros j. rewrite elem_of_list_to_set, elem_of_seqZ. lia.
    + intros j Hj. rewrite elem_of_list_to_set, elem_of_seqZ. lia.
  - exists a. split; [done|]. by eapply copy_read_inv.
  - exists a. split; [done|]. by eapply copy_write_inv.
  - exists a. split; [|by eapply leave_inv]. destruct (mi_ok _ _ Hi _ _ Ht) as (_ & Hb & Hbl & _ & Hc).
    pose proof (execute_spec (ReqRead offset len) a (Htyped _ _ Ht) Hlen) as (_ & Ha & Hres). cbn [answered].
    destruct (memory_execute e _ a) as [res a']. cbn [fst snd] in *. subst a'. rewrite (proj2 (Z.ltb_ge _ _)) in Hres by lia.
    destruct Hres as (data & -> & Hdl & Hdata). do 3 f_equal. apply zget_ext; [lia|]. intros j Hj. rewrite Hdata, Hc by (lia || set_solver). done.
  - destruct (mi_ok _ _ Hi _ _ Ht) as (_ & Hb & _).
    pose proof (execute_spec (ReqWrite offset data) a (Htyped _ _ Ht) Hlen) as (Hl' & Hres). cbn [answered].
    destruct (memory_execute e _ a) as [res a']. cbn [fst snd] in *. rewrite (proj2 (Z.ltb_ge _ _)) in Hres by lia.
    destruct Hres as (-> & Hget). exists a'. split; [done|]. by eapply done_write_inv.
Qed.

Lemma run_inv trace w :
  mem_run e trace w →
  mem_inv (memory_after e trace) w ∧
  ∀ before request res after, trace = before ++ (request, res) :: after →
    (memory_execute e request (memory_after e before)).1 = res.
Proof.
  induction 1 as [|trace w answer w' Hrun [Hi Hans] Hstep].
  { split; [exact new_inv|]. intros [|] ? ? ?; discriminate. }
  destruct (step_inv _ _ _ _ Hi Hstep) as (a' & Ha & Hi'). destruct answer as [[request res]|]; cbn [answered] in Ha.
  2: { rewrite app_nil_r. subst a'. done. }
  unfold memory_after in *. rewrite foldl_app. cbn. rewrite Ha. split; [done|].
  intros before request' res' after Heq. destruct after as [|x after _] using rev_ind.
  - apply app_inj_tail in Heq as [<- [= <- <-]]. by rewrite Ha.
  - rewrite app_comm_cons, app_assoc in Heq. apply app_inj_tail in Heq as [-> _]. by eapply Hans.
Qed.
End shared.

(** ** Properties *)

(** C9: the unsafe shared storage is sound.  Whatever requests are submitted and however the admission
    controller, the dropped waiters and the byte-wise copies of the running requests interleave, every
    answer is the one the engine gives when it runs the request alone, in the order of the answers; no
    two running requests meet in a byte that one of them writes; each copy still to do stays inside the storage;
    and when no write runs, the storage is the one of the engine alone. *)
Theorem memory_linearizable e trace w :
  0 ≤ me_size_bytes e ≤ u64_max → mem_run e trace w →
  (∀ before request res after, trace = before ++ (request, res) :: after →
     (memory_execute e request (memory_after e before)).1 = res) ∧
  (∀ t1 t2 task1 task2 x, mw_tasks w !! t1 = Some task1 → mw_tasks w !! t2 = Some task2 → t1 ≠ t2 →
     touches task1 x → touches task2 x → task_writes task1 = false ∧ task_writes task2 = false) ∧
  (∀ t task x, mw_tasks w !! t = Some task → touches task x → 0 ≤ x < zlen (mw_bytes w)) ∧
  ((∀ t task, mw_tasks w !! t = Some task → task_writes task = false) → mw_bytes w = memory_after e trace).
Proof.
  intros Hs Hrun. destruct (run_inv e Hs trace w Hrun) as [Hi Hans]. split; [exact Hans|]. split; [|split].
  - intros t1 t2 task1 task2 x. by apply (tasks_apart e Hs (memory_after e trace)).
  - intros t task x Ht Hx. rewrite (mi_length _ _ _ Hi). pose proof (mi_ok _ _ _ Hi _ _ Ht) as Hok.
    destruct (mi_known _ _ _ Hi _ _ Ht) as (_ & Hty & _).
    destruct task as [|offset len todo buffer|offset data todo]; [done| |]; cbn in *; destruct Hok as (_ & ? & _);
      unfold is_u64 in Hty; lia.
  - intros Hq. apply zget_ext; [by rewrite (mi_length _ _ _ Hi), (mi_array _ _ _ Hi)|]. intros x _.
    apply (mi_rest _ _ _ Hi). intros t offset data todo Hin. by specialize (Hq _ _ Hin).
Qed.

Definition sample_engine : MemoryExportEngine := mkMemoryEngine "disk" 8 512.

Lemma submit_run trace w request op racing :
  request_typed request → memory_operation_for sample_engine request = Ok op →
  as_next_ticket (ai_state (w_inner (mw_admission w))) < u64_max →
  mem_run sample_engine trace w →
  match register (world_env (mw_admission w) racing) op (w_inner (mw_admission w)) with
  | (Ok (ticket, sent), inner) =>
      mem_run sample_engine trace (mkMemoryWorld (post (mw_admission w) inner sent racing) (mw_bytes w)
                                     (<[ticket := TaskWaiting request]> (mw_tasks w)))
  | _ => True
  end.
Proof.
  intros Hty Hop Hlt Hrun. destruct (register _ _ _) as [[[ticket sent]| |] inner] eqn:Hreg; [|done|done].
  rewrite <-(app_nil_r trace). apply (mem_run_snoc _ trace w None); [done|]. destruct w as [adm bytes tasks].
  by eapply mem_submit.
Qed.

(** A write is submitted, gets its permit, copies its byte and answers. *)
Lemma memory_linearizable_witness :
  let request := ReqWrite 2 (le_bytes 1 7) in
  ∃ w, mem_run sample_engine [(request, Ok ReplyDone)] w ∧
    (memory_execute sample_engine request (memory_after sample_engine [])).1 = Ok ReplyDone ∧
    mw_bytes w = memory_after sample_engine [(request, Ok ReplyDone)].
Proof.
  intros request.
  pose proof (submit_run [] (MemoryWorld_new sample_engine) request (AWrite (mkRange 2 1)) ∅
    ltac:(by_compute) eq_refl ltac:(by_compute) (mem_run_nil _)) as Hrun.
  match type of Hrun with match ?r with _ => _ end => destruct r as [[[ticket sent]| |] inner] eqn:Hreg end;
    [|by vm_compute in Hreg..].
  assert (ticket = 0 ∧ sent = [0]) as [-> ->] by (vm_compute in Hreg; by injection Hreg as <- <- _).
  cbn [mw_admission mw_bytes mw_tasks MemoryWorld_new] in Hrun. set (adm := post _ _ _ _) in Hrun.
  set (held := mkAdmissionWorld (w_inner adm) (w_mailbox adm ∖ {[0]}) (w_held adm ∪ {[0]}) (w_closed adm)).
  assert (Hwait : mem_run sample_engine [] (mkMemoryWorld held (zeros 8) {[0 := TaskWaiting request]})).
  { apply (mem_run_snoc _ [] _ None _ Hrun). apply mem_handles; [|done|].
    - apply step_wait. unfold adm, post. cbn. set_solver.
    - intros t task [_ <-]%lookup_singleton_Some. done. }
  assert (Hstart : mem_run sample_engine [] (mkMemoryWorld held (zeros 8)
    (<[0 := TaskWriting 2 (le_bytes 1 7) (indices 1)]> {[0 := TaskWaiting request]}))).
  { apply (mem_run_snoc _ [] _ None _ Hwait). apply (mem_start_write _ _ _ _ 0 2 (le_bytes 1 7) 2); [done| |done]. unfold held. cbn. set_solver. }
  destruct (splice (zeros 8) 2 (le_bytes 1 7)) as [bytes|] eqn:Hs; [|done].
  assert (Hcopy := mem_run_snoc _ [] _ None _ Hstart (mem_copy_write _ _ _ _ 0 2 (le_bytes 1 7) (indices 1) 0 (byte_of 7) bytes
    (lookup_insert_eq _ _ _) (proj1 (bool_decide_spec (0 ∈ indices 1)) I) eq_refl Hs)). cbn [app] in Hcopy.
  assert (indices 1 ∖ {[0]} = ∅) as Hnone by (vm_compute; reflexivity). rewrite Hnone in Hcopy.
  assert (Hdone := mem_run_snoc _ [] _ _ _ Hcopy (mem_done_write _ _ _ _ 0 2 _ (lookup_insert_eq _ _ _))).
  cbn [app] in Hdone. eexists. split; [exact Hdone|].
  destruct (memory_linearizable sample_engine _ _ ltac:(by_compute) Hdone) as (Hans & _ & _ & Hbytes).
  split; [exact (Hans [] _ _ [] eq_refl)|]. apply Hbytes. cbn [mw_tasks]. intros t task Ht.
  by rewrite !delete_insert_eq, delete_singleton_eq in Ht.
Defined.

(** The memory engine is a byte array: a read answers the bytes of its range, a write changes exactly
    the bytes of its range, and each is refused, without any change, exactly when its range leaves the export;
    no copy goes outside the storage. *)
Theorem memory_execute_exact e request bytes :
  0 ≤ me_size_bytes e ≤ u64_max → request_typed request → zlen bytes = me_size_bytes e →
  executes e request bytes (memory_execute e request bytes).1 (memory_execute e request bytes).2.
Proof. intros Hs. by apply execute_spec. Qed.

Lemma memory_execute_exact_witness :
  zget (memory_execute sample_engine (ReqWrite 2 (le_bytes 2 258)) (zeros 8)).2 3 = Some (byte_of 1) ∧
  executes sample_engine (ReqWrite 2 (le_bytes 2 258)) (zeros 8) (Ok ReplyDone)
    (memory_execute sample_engine (ReqWrite 2 (le_bytes 2 258)) (zeros 8)).2.
Proof.
  split; [reflexivity|].
  apply (memory_execute_exact sample_engine (ReqWrite 2 (le_bytes 2 258)) (zeros 8)); by_compute.
Defined.
