(* ===== verification/SimpleDurable.v ===== *)
(** * The simple durable engine

    [engines/simple_durable/mutable_tree.rs], [reader.rs] and [mod.rs]: an export whose chunks are
    mutable blobs.  A write replaces the blobs of the chunks it touches; for a chunk without a blob it
    stores one and adds leaves to the tree of the export in place.

    The state of the engine is the tree state behind its lock, the record store, the blob store and the
    number of random draws so far: [draw_keys n], [draw_temp n] and [draw_ids n] are what the [n]-th draw
    gives to a new blob, to the temporary file of an overwrite and to a commit.  The operations are
    the bodies of the async functions without interruption. *)

From S2P Require Import Prelude ControlPlane Server Geometry Admission Export Catalog Tree Storage Publication.

#[local] Open Scope string_scope.
#[local] Open Scope list_scope.
#[local] Open Scope Z_scope.

Definition simple_error (message : string) : ServerError := SCatalog message None.

(** ** The tree state *)

Record SimpleTreeState := mkSimpleTree {
  st_export_id : ExportId;
  st_size_bytes : Z;
  st_root_node_id : option NodeId;
  st_tree_format : TreeFormat;
  st_chunks : gmap ChunkIndex SimpleChunkRef;
}.

Definition st_export_head (st : SimpleTreeState) : CatalogResult ExportHead :=
  new_with_tree_format SimpleMutableTree (st_root_node_id st) (st_size_bytes st) WalSeq_zero
    (Some (st_tree_format st)).

Definition st_with_chunks (chunks : gmap ChunkIndex SimpleChunkRef) (st : SimpleTreeState) : SimpleTreeState :=
  mkSimpleTree (st_export_id st) (st_size_bytes st) (st_root_node_id st) (st_tree_format st) chunks.

Definition simple_tree_load (d : ActiveExportDescriptor) (head : ExportHead) : SResult SimpleTreeState :=
  if bool_decide (layout_kind head ≠ SimpleMutableTree) then
    Err (simple_error "simple durable export requires simple_mutable_tree head, got {}")
  else
    let? format := ok_or (tree_format head) (simple_error "simple durable head is missing tree format") in
    let? _ := TreeGeometry_new format (size_bytes head) in
    Ok (mkSimpleTree (d_id (descriptor d)) (size_bytes head) (root_node_id head) format ∅).

(** ** The commit planner *)

Record SimpleTreeCommitPlanner := mkCommitPlanner {
  cp_geometry : TreeGeometry;
  cp_factory : TreeRecordFactory;
  cp_root_node_id : option NodeId;
  cp_pending_nodes : gset string;
  cp_pending_edges : gmap (string * Z) NodeId;
  cp_records : TreeRecordBatch;
  cp_drawn : nat;
}.

Definition SimpleTreeCommitPlanner_new (geometry : TreeGeometry) (st : SimpleTreeState) : SimpleTreeCommitPlanner :=
  mkCommitPlanner geometry (mkFactory geometry SimpleMutableTree (Some (st_export_id st)))
    (st_root_node_id st) ∅ ∅ TreeRecordBatch_default 0.

(** The rows of a new node: itself, its leaf reference if it is a leaf, and the edge to it. *)
Definition cp_push (node : TreeNodeRecord) (leaf_refs : list TreeLeafRefRecord) (edges : list TreeEdgeRecord)
    (pl : SimpleTreeCommitPlanner) : SimpleTreeCommitPlanner :=
  let records := cp_records pl in
  mkCommitPlanner (cp_geometry pl) (cp_factory pl) (cp_root_node_id pl) (cp_pending_nodes pl ∪ {[tn_id node]})
    (foldl (λ m e, <[(te_parent_node_id e, te_slot e) := te_child_node_id e]> m) (cp_pending_edges pl) edges)
    (mkTreeBatch (tb_nodes records ++ [node]) (tb_edges records ++ edges) (tb_leaf_refs records ++ leaf_refs))
    (S (cp_drawn pl)).

Definition cp_set_root (root : NodeId) (pl : SimpleTreeCommitPlanner) : SimpleTreeCommitPlanner :=
  mkCommitPlanner (cp_geometry pl) (cp_factory pl) (Some root) (cp_pending_nodes pl) (cp_pending_edges pl)
    (cp_records pl) (cp_drawn pl).

Section planner.
Context {S : Type} `{!TreeRecordStore S} (ids : nat → string).
Implicit Types pl : SimpleTreeCommitPlanner.

(** The identifier of a generated text; an empty text panics where the code expects, and fails elsewhere. *)
Definition ensure_root pl : SResult (NodeId * SimpleTreeCommitPlanner) :=
  match cp_root_node_id pl with
  | Some root => Ok (root, pl)
  | None =>
      let? root := match NodeId_new (ids (cp_drawn pl)) with Ok id => Ok id | _ => Panic end in
      Ok (root, cp_set_root root (cp_push (root_node (cp_factory pl) root) [] [] pl))
  end.

Definition simple_load_child_edge (parent_node_id : NodeId) (slot : Z) : M S ServerError (option TreeEdgeRecord) :=
  let! edges := store_call (store_load_child_edges [mkEdgeLookup parent_node_id [slot]]) in
  if 1 <? zlen edges then
    mfail (simple_error "node `{parent_node_id}` has duplicate edge for slot {slot}")
  else
    match head edges with
    | Some edge =>
        if bool_decide (te_parent_node_id edge ≠ parent_node_id) || negb (te_slot edge =? slot) then
          mfail (simple_error "node `{parent_node_id}` slot {slot} returned mismatched edge row")
        else mret (Some edge)
    | None => mret None
    end.

Definition simple_load_required_node (node_id : NodeId) : M S ServerError TreeNodeRecord :=
  let! node := store_call (store_load_node node_id) in
  mlift (ok_or node (simple_error "tree node `{node_id}` is missing")).

Definition simple_validate_existing_node (node : TreeNodeRecord) (layout_kind : ExportLayoutKind)
    (span : TreeNodeSpan) (kind : TreeNodeKind) : SResult unit :=
  if bool_decide (tn_layout_kind node ≠ layout_kind) || bool_decide (tn_kind node ≠ kind)
     || negb (tn_level node =? span_level span) || negb (tn_span_start_bytes node =? span_start span)
     || negb (tn_span_len_bytes node =? span_len span) then
    Err (simple_error "tree node `{}` does not match simple tree geometry")
  else Ok tt.

(** The end of a round of the loop of [plan_chunk]: a new child. *)
Definition simple_new_child (chunk : SimpleChunkRef) (parent_id : NodeId) (slot : Z) (child_span : TreeNodeSpan) pl
    : SResult (NodeId * SimpleTreeCommitPlanner) :=
  let? child_id := map_err ServerError_catalog (NodeId_new (ids (cp_drawn pl))) in
  let factory := cp_factory pl in
  let edge := child_edge factory parent_id slot child_id in
  Ok (child_id,
      if span_level child_span =? 0
      then cp_push (leaf_node factory child_id child_span)
             [leaf_ref factory child_id MutableBlob (sc_blob_key chunk)] [edge] pl
      else cp_push (internal_node factory child_id child_span) [] [edge] pl).

(** The child that exists in the store, which is looked at only below a stored parent. *)
Definition simple_stored_child (parent_id : NodeId) (slot : Z) (child_span : TreeNodeSpan) pl
    : M S ServerError (option NodeId) :=
  if bool_decide (parent_id ∈ cp_pending_nodes pl) then mret None
  else
    let! edge := simple_load_child_edge parent_id slot in
    match edge with
    | None => mret None
    | Some edge =>
        if span_level child_span =? 0 then mfail (simple_error "chunk {} is already materialized")
        else
          let! child := simple_load_required_node (te_child_node_id edge) in
          let! _ := mlift (simple_validate_existing_node child SimpleMutableTree child_span Internal) in
          mret (Some (te_child_node_id edge))
    end.

(** The loop of [plan_chunk] over the slots of the path. *)
Fixpoint simple_plan_path (chunk : SimpleChunkRef) (slots : list Z) (parent_id : NodeId) (parent_span : TreeNodeSpan) pl
    : M S ServerError SimpleTreeCommitPlanner :=
  match slots with
  | [] => mret pl
  | slot :: slots =>
      let! span := mlift (child_span (cp_geometry pl) parent_span slot) in
      match cp_pending_edges pl !! (parent_id, slot) with
      | Some child_id =>
          if span_level span =? 0 then mfail (simple_error "chunk {} is already pending")
          else simple_plan_path chunk slots child_id span pl
      | None =>
          let! stored := simple_stored_child parent_id slot span pl in
          match stored with
          | Some child_id => simple_plan_path chunk slots child_id span pl
          | None =>
              let! (child_id, pl) := mlift (simple_new_child chunk parent_id slot span pl) in
              simple_plan_path chunk slots child_id span pl
          end
      end
  end.

Definition simple_plan_chunk (chunk : SimpleChunkRef) pl : M S ServerError SimpleTreeCommitPlanner :=
  let! path := mlift (path_for_chunk (cp_geometry pl) (sc_chunk_index chunk)) in
  let! (parent_id, pl) := mlift (ensure_root pl) in
  simple_plan_path chunk (tp_slots path) parent_id (root_span (cp_geometry pl)) pl.

Fixpoint simple_plan_chunks (chunks : list SimpleChunkRef) pl : M S ServerError SimpleTreeCommitPlanner :=
  match chunks with
  | [] => mret pl
  | chunk :: chunks =>
      let! pl := simple_plan_chunk chunk pl in
      simple_plan_chunks chunks pl
  end.
End planner.

(** ** The state of the engine *)

Record SimpleWorld (S B : Type) := mkSimpleWorld {
  sw_tree : SimpleTreeState;
  sw_store : S;
  sw_blobs : B;
  sw_draws : nat;
}.
Arguments mkSimpleWorld {S B} _ _ _ _.
Arguments sw_tree {S B} _.
Arguments sw_store {S B} _.
Arguments sw_blobs {S B} _.
Arguments sw_draws {S B} _.

(** The fields of the engine that do not change. *)
Record SimpleDurableEngine := mkSimpleEngine {
  se_name : ExportName;
  se_size_bytes : Z;
  se_block_size : Z;
}.

Definition simple_validate_range (operation : string) (offset length size_bytes : Z) : SResult unit :=
  let error := OutOfBounds operation offset length size_bytes in
  let? end_ := ok_or (u64_checked_add offset length) error in
  if size_bytes <? end_ then Err error else Ok tt.

Section engine.
Context {S B : Type} `{!TreeRecordStore S} `{!TreePublisher S} `{!BlobStore B} `{!MutableBlobStore B}.
Context (draw_keys : nat → nat → BlobKey) (draw_temp : nat → BlobKey) (draw_ids : nat → nat → string).
Abbreviation SM A := (M (SimpleWorld S B) ServerError A) (only parsing).

Definition on_tree_store {A} (m : M S ServerError A) : SM A :=
  zoom sw_store (λ s w, mkSimpleWorld (sw_tree w) s (sw_blobs w) (sw_draws w)) m.
Definition on_blobs {A} (m : M B ServerError A) : SM A :=
  zoom sw_blobs (λ b w, mkSimpleWorld (sw_tree w) (sw_store w) b (sw_draws w)) m.
Definition get_tree : SM SimpleTreeState := λ w, (Ok (sw_tree w), w).
Definition set_tree (st : SimpleTreeState) : SM unit :=
  mmodify (λ w, mkSimpleWorld st (sw_store w) (sw_blobs w) (sw_draws w)).
Definition next_draw : SM nat := λ w,
  (Ok (sw_draws w), mkSimpleWorld (sw_tree w) (sw_store w) (sw_blobs w) (Datatypes.S (sw_draws w))).

(** ** The mutable tree *)

Definition lookup_chunk (chunk_index : ChunkIndex) : SM (option BlobKey) :=
  let! st := get_tree in
  match st_chunks st !! chunk_index with
  | Some chunk => mret (Some (sc_blob_key chunk))
  | None =>
      let! geometry := mlift (TreeGeometry_new (st_tree_format st) (st_size_bytes st)) in
      let! leaf := on_tree_store (load_leaf (mkReader geometry SimpleMutableTree (st_root_node_id st)) chunk_index) in
      match leaf with
      | None => mret None
      | Some leaf =>
          if bool_decide (tl_storage_kind (ll_leaf_ref leaf) ≠ MutableBlob) then
            mfail (simple_error "simple tree chunk {chunk_index} has storage kind {}")
          else
            let! chunk := mlift (map_err ServerError_catalog
              (SimpleChunkRef_new chunk_index (tl_storage_key (ll_leaf_ref leaf)) (tl_len_bytes (ll_leaf_ref leaf)))) in
            let! st := get_tree in
            (** [entry(chunk_index).or_insert(chunk)]. *)
            let chunks := match st_chunks st !! chunk_index with
                          | Some _ => st_chunks st
                          | None => <[chunk_index := chunk]> (st_chunks st)
                          end in
            let! _ := set_tree (st_with_chunks chunks st) in
            mret (Some (sc_blob_key chunk))
      end
  end.

(** The checks of [commit_new_chunks] on the new chunks. *)
Fixpoint check_new_chunks (seen : gset ChunkIndex) (chunks : list SimpleChunkRef) : SM unit :=
  match chunks with
  | [] => mret tt
  | chunk :: chunks =>
      if bool_decide (sc_chunk_index chunk ∈ seen) then mfail (simple_error "duplicate chunk index {}")
      else
        let! key := lookup_chunk (sc_chunk_index chunk) in
        match key with
        | Some _ => mfail (simple_error "chunk {} is already materialized")
        | None => check_new_chunks ({[sc_chunk_index chunk]} ∪ seen) chunks
        end
  end.

Definition commit_new_chunks (chunks : list SimpleChunkRef) : SM unit :=
  match chunks with
  | [] => mret tt
  | _ =>
      let! st := get_tree in
      let export_id := st_export_id st in
      let! _ := check_new_chunks ∅ chunks in
      let! st := get_tree in
      let! geometry := mlift (TreeGeometry_new (st_tree_format st) (st_size_bytes st)) in
      let! n := next_draw in
      let! pl := on_tree_store (simple_plan_chunks (draw_ids n) chunks (SimpleTreeCommitPlanner_new geometry st)) in
      let! expected_head := mlift (map_err ServerError_catalog (st_export_head st)) in
      let! next_head := mlift (map_err ServerError_catalog
        (new_with_tree_format SimpleMutableTree (cp_root_node_id pl) (st_size_bytes st) WalSeq_zero
           (Some (st_tree_format st)))) in
      let! outcome := on_tree_store (store_call
        (store_publish (mkPublish export_id expected_head next_head (cp_records pl)))) in
      match outcome with
      | StaleHead _ => mfail (simple_error "simple tree publish lost stale head race; current root is {:?}")
      | Published _ =>
          let! st := get_tree in
          set_tree (mkSimpleTree (st_export_id st) (st_size_bytes st) (root_node_id next_head) (st_tree_format st)
            (foldl (λ m chunk, <[sc_chunk_index chunk := chunk]> m) (st_chunks st) chunks))
      end
  end.

(** ** Reads (reader.rs) *)

(** One round of the loop of [read_committed]. *)
Definition simple_part (chunk_index chunk_offset : Z) (part_range : ByteRange) : SM BlockPart :=
  let! key := lookup_chunk chunk_index in
  match key with
  | Some key =>
      let! chunk_data := on_blobs (get_blob key chunk_offset (br_len part_range)) in
      mret (BlockData part_range chunk_data)
  | None => mret (BlockZero part_range)
  end.

Fixpoint simple_read_parts (fuel : nat) (range : ByteRange) (copied : Z) : SM (list BlockPart) :=
  if copied <? br_len range then
    match fuel with
    | O => λ w, (Panic, w)
    | Datatypes.S fuel =>
        let current_offset := u64_add (br_start range) copied in
        let chunk_index := current_offset / SIMPLE_CHUNK_BYTES in
        let chunk_offset := current_offset mod SIMPLE_CHUNK_BYTES in
        let chunk_available := SIMPLE_CHUNK_BYTES - chunk_offset in
        let copy_len := as_u32 (Z.min chunk_available (br_len range - copied)) in
        let! part := simple_part chunk_index chunk_offset (mkRange current_offset copy_len) in
        let! parts := simple_read_parts fuel range (copied + copy_len) in
        mret (part :: parts)
    end
  else mret [].

Definition simple_fuel (len : Z) : nat := Z.to_nat (len / SIMPLE_CHUNK_BYTES + 2).

Definition simple_read_committed (range : ByteRange) : SM Block :=
  let! st := get_tree in
  let! _ := mlift (simple_validate_range "read" (br_start range) (br_len range) (st_size_bytes st)) in
  let! parts := simple_read_parts (simple_fuel (br_len range)) range 0 in
  mlift (Block_new range parts).

(** ** Requests (mod.rs) *)

Section requests.
Context (e : SimpleDurableEngine).

Definition simple_read (offset len : Z) : SM (list byte) :=
  let range := mkRange offset len in
  let! _ := mlift (simple_validate_range "read" offset len (se_size_bytes e)) in
  let! block := simple_read_committed range in
  mlift (materialize block).

(** One round of the loop of [write]: the new chunk to commit, if the chunk had no blob. *)
Definition simple_write_chunk (chunk_index chunk_offset : Z) (piece : list byte) : SM (list SimpleChunkRef) :=
  let! key := lookup_chunk chunk_index in
  match key with
  | Some key =>
      let! chunk := on_blobs (get_blob key 0 SIMPLE_CHUNK_BYTES) in
      let! chunk := mlift (or_panic (splice chunk chunk_offset piece)) in
      let! n := next_draw in
      let! _ := on_blobs (overwrite_blob (draw_temp n) key chunk) in
      mret []
  | None =>
      let! chunk := mlift (or_panic (splice (zeros SIMPLE_CHUNK_BYTES) chunk_offset piece)) in
      let! n := next_draw in
      let! key := on_blobs (put_random_blob (draw_keys n) chunk) in
      let! chunk := mlift (map_err ServerError_catalog (SimpleChunkRef_new chunk_index key SIMPLE_CHUNK_BYTES)) in
      mret [chunk]
  end.

Fixpoint simple_write_loop (fuel : nat) (offset : Z) (data : list byte) (copied : Z) (new_chunks : list SimpleChunkRef)
    : SM (list SimpleChunkRef) :=
  if copied <? zlen data then
    match fuel with
    | O => λ w, (Panic, w)
    | Datatypes.S fuel =>
        let current_offset := u64_add offset copied in
        let chunk_index := current_offset / SIMPLE_CHUNK_BYTES in
        let chunk_offset := current_offset mod SIMPLE_CHUNK_BYTES in
        let chunk_available := SIMPLE_CHUNK_BYTES - chunk_offset in
        let copy_len := Z.min chunk_available (zlen data - copied) in
        let! piece := mlift (or_panic (slice data copied (copied + copy_len))) in
        let! chunks := simple_write_chunk chunk_index chunk_offset piece in
        simple_write_loop fuel offset data (copied + copy_len) (new_chunks ++ chunks)
    end
  else mret new_chunks.

Definition simple_write (offset : Z) (data : list byte) : SM unit :=
  let! _ := mlift (simple_validate_range "write" offset (zlen data) (se_size_bytes e)) in
  match data with
  | [] => mret tt
  | _ =>
      let! new_chunks := simple_write_loop (simple_fuel (zlen data)) offset data 0 [] in
      commit_new_chunks new_chunks
  end.

Definition simple_flush : SResult unit := Ok tt.

Definition simple_execute (request : ExportRequest) : SM ExportReply :=
  match request with
  | ReqRead offset len => let! data := simple_read offset len in mret (ReplyRead data)
  | ReqWrite offset data => let! _ := simple_write offset data in mret ReplyDone
  | ReqFlush => let! _ := mlift simple_flush in mret ReplyDone
  end.

(** ** Admission *)

(** The range of whole chunks around a write. *)
Definition chunk_aligned_write (offset len : Z) : SResult ByteRange :=
  let? _ := simple_validate_range "write" offset len (se_size_bytes e) in
  if len =? 0 then Ok (mkRange offset 0)
  else
    let error := OutOfBounds "write" offset len (se_size_bytes e) in
    let request_end := u64_add offset len in
    let chunk_bytes := SIMPLE_CHUNK_BYTES in
    let start_chunk := offset / chunk_bytes in
    let end_chunk := u64_sub request_end 1 / chunk_bytes in
    let? start := ok_or (u64_checked_mul start_chunk chunk_bytes) error in
    let? next_chunk := ok_or (u64_checked_add end_chunk 1) error in
    let? unclamped_end := ok_or (u64_checked_mul next_chunk chunk_bytes) error in
    let end_ := Z.min unclamped_end (se_size_bytes e) in
    let? aligned_len := ok_or (u64_checked_sub end_ start) error in
    let? aligned_len := ok_or (u32_try_from aligned_len) (OutOfBounds "write" start aligned_len (se_size_bytes e)) in
    Ok (mkRange start aligned_len).

Definition simple_operation_for (request : ExportRequest) : SResult AdmissionOp :=
  match request with
  | ReqRead offset len => Ok (ARead (mkRange offset len))
  | ReqWrite offset data =>
      let? len := ok_or (usize_try_from (zlen data)) (OutOfBounds "write" offset u64_max (se_size_bytes e)) in
      let? range := chunk_aligned_write offset len in
      Ok (AWrite range)
  | ReqFlush => Ok AFlush
  end.

Definition simple_durable_engine : ExportEngine (SimpleWorld S B) :=
  mkExportEngine _ simple_operation_for simple_execute (mret tt).
End requests.

(** [SimpleDurableEngine::load]. *)
Definition simple_engine_load (d : ActiveExportDescriptor) (head : ExportHead) : SM SimpleDurableEngine :=
  let! st := mlift (simple_tree_load d head) in
  let! _ := set_tree st in
  mret (mkSimpleEngine (d_name (descriptor d)) (st_size_bytes st) (d_block_size (descriptor d))).
End engine.
