(* ===== verification/SimplePlan.v ===== *)
(** * Correctness of the commit planner of the simple durable engine

    The planner of [mutable_tree.rs] adds leaves to a tree in place.  Its invariant is stated on the
    rows that the store would show with the planned records on top: they are a tree of the
    geometry in which exactly the planned chunks have got a leaf.  That needs the drawn node
    identifiers to be new, which a publication that succeeds guarantees; the invariant is
    conditional on it. *)

From S2P Require Import Prelude ControlPlane Server Geometry Catalog Tree Storage Publication TreePaths SimpleDurable.

#[local] Open Scope string_scope.
#[local] Open Scope list_scope.
#[local] Open Scope Z_scope.

(** ** Runs that keep what a store shows *)

Section runs.
Context {S : Type} `{!TreeView S} (s0 : S).

(** The call keeps the view of [s0], does not panic, and what it returns satisfies [Q]. *)
Definition keeps {A} (m : M S ServerError A) (s : S) (Q : A → Prop) : Prop :=
  match m s with
  | (Ok a, s') => same_view s0 s' ∧ Q a
  | (Err _, s') => same_view s0 s'
  | (Panic, _) => False
  end.

Lemma keeps_ret {A} (a : A) s (Q : A → Prop) : same_view s0 s → Q a → keeps (mret a) s Q.
Proof. by split. Qed.

Lemma keeps_fail {A} e s (Q : A → Prop) : same_view s0 s → keeps (mfail e) s Q.
Proof. done. Qed.

Lemma keeps_bind {A B} (m : M S ServerError A) (f : A → M S ServerError B) s (Q : A → Prop) (R : B → Prop) :
  keeps m s Q → (∀ a s', same_view s0 s' → Q a → keeps (f a) s' R) → keeps (mseq m f) s R.
Proof.
  unfold keeps, mseq. intros Hm Hf. destruct (m s) as [[a|e|] s']; [|done|done]. destruct Hm. by apply Hf.
Qed.

Lemma keeps_lift {A} (o : SResult A) s (Q : A → Prop) :
  same_view s0 s → o ≠ Panic → (∀ a, o = Ok a → Q a) → keeps (mlift o) s Q.
Proof. unfold keeps, mlift. intros Hv Hp HQ. destruct o; [split; auto|done|done]. Qed.

Lemma keeps_shows {A} (m : M S ServerError A) s (a : A) :
  shows s0 m (Ok a) → same_view s0 s → keeps m s (λ a', a' = a).
Proof.
  intros Hm Hv. destruct (Hm s Hv) as (o' & s' & Hrun & Hv' & Ho). unfold keeps. rewrite Hrun.
  destruct Ho as [->|[_ [e ->]]]; [split; [|done]|]; by etrans.
Qed.
End runs.

Section plan.
Context {S : Type} `{!TreeRecordStore S} `{!TreeView S} `{!TreeRecordStoreLaws S} `{!TreePublisher S} `{!TreePublisherLaws S}.
Context (ids : nat → string) (g : TreeGeometry) (export_id : ExportId) (old_root : option NodeId) (s0 : S).
Context (ids_valid : ∀ k, NodeId_new (ids k) = Ok (ids k)) (ids_inj : Inj (=) (=) ids).
Context (Hg : geometry_ok g) (export_valid : ExportId_new export_id = Ok export_id).

Let rd := mkReader g SimpleMutableTree old_root.
Let depth := Z.to_nat (geo_root_level g).
Let factory := mkFactory g SimpleMutableTree (Some export_id).

Context (stored : ∀ id, old_root = Some id → subtree_ok rd s0 depth (root_span g) id).
Context (root_valid : ∀ id, old_root = Some id → NodeId_new id = Ok id).
Implicit Types (pl : SimpleTreeCommitPlanner) (D : gmap ChunkIndex BlobKey).

Definition chunk_in (i : ChunkIndex) : Prop := 0 ≤ i ∧ i * TREE_CHUNK_BYTES < geo_size_bytes g.

(** The rows with the planned records on top. *)
Definition planned pl : TreeRows := with_batch s0 (cp_records pl).

(** The drawn identifiers are new. *)
Definition fresh_nodes pl : Prop :=
  ∀ n, n ∈ tb_nodes (cp_records pl) → see_node s0 (tn_id n) = Ok None ∧ ∀ slot, see_edge s0 (tn_id n) slot = Ok None.

(** What is true whatever was drawn. *)
Record planner_ok pl : Prop := {
  po_geometry : cp_geometry pl = g;
  po_factory : cp_factory pl = factory;
  po_ids : tn_id <$> tb_nodes (cp_records pl) = ids <$> seq 0 (cp_drawn pl);
  po_pending : cp_pending_nodes pl = list_to_set (tn_id <$> tb_nodes (cp_records pl));
  po_edges : ∀ k, cp_pending_edges pl !! k =
    te_child_node_id <$> by_key edge_key k (tb_edges (cp_records pl));
  po_children : ∀ e, e ∈ tb_edges (cp_records pl) → te_child_node_id e ∈ tn_id <$> tb_nodes (cp_records pl);
  po_parents : ∀ e, e ∈ tb_edges (cp_records pl) →
    te_parent_node_id e ∈ tn_id <$> tb_nodes (cp_records pl) ∨ ∃ n, see_node s0 (te_parent_node_id e) = Ok (Some n);
  po_leaf_refs : ∀ l, l ∈ tb_leaf_refs (cp_records pl) → tl_node_id l ∈ tn_id <$> tb_nodes (cp_records pl);
  po_batch : batch_ok (cp_records pl);
  po_root : match cp_root_node_id pl with
            | None => old_root = None ∧ tb_nodes (cp_records pl) = []
            | Some r => old_root = Some r ∨ (old_root = None ∧ r ∈ tn_id <$> tb_nodes (cp_records pl))
            end;
}.

(** The leaf of a chunk: the old one, the planned one, or none. *)
Definition chunk_planned pl D (r : NodeId) (i : ChunkIndex) : Prop :=
  match old_at s0 old_root (chunk_slots g i), D !! i with
  | Some id, _ => find_node (planned pl) r (chunk_slots g i) = Some id ∧
                  rw_leaf_ref (planned pl) id = see_leaf_ref s0 id
  | None, Some key => ∃ id, find_node (planned pl) r (chunk_slots g i) = Some id ∧
                        rw_leaf_ref (planned pl) id = Ok (Some (leaf_ref factory id MutableBlob key))
  | None, None => find_node (planned pl) r (chunk_slots g i) = None
  end.

Definition tree_planned pl D : Prop :=
  match cp_root_node_id pl with
  | None => D = ∅
  | Some r => subtree_ok rd (planned pl) depth (root_span g) r ∧ ∀ i, chunk_in i → chunk_planned pl D r i
  end.

(** Where the walk of a path stands: at a planned node or at a node of the old tree. *)
Record walk_at pl (path : list Z) (id : NodeId) (span : TreeNodeSpan) : Prop := {
  wk_span : descend g (root_span g) path = Ok span;
  wk_valid : NodeId_new id = Ok id;
  wk_node : id ∈ tn_id <$> tb_nodes (cp_records pl) ∨ old_at s0 old_root path = Some id;
  wk_find : fresh_nodes pl → ∃ r, cp_root_node_id pl = Some r ∧ find_node (planned pl) r path = Some id;
}.

Lemma next_id_new pl : planner_ok pl → ids (cp_drawn pl) ∉ tn_id <$> tb_nodes (cp_records pl).
Proof.
  intros Hp. rewrite (po_ids _ Hp). intros (k & Heq & Hk%elem_of_seq)%list_elem_of_fmap. apply ids_inj in Heq. lia.
Qed.

Lemma pending_in pl id : planner_ok pl → id ∈ cp_pending_nodes pl ↔ id ∈ tn_id <$> tb_nodes (cp_records pl).
Proof. intros Hp. rewrite (po_pending _ Hp). apply elem_of_list_to_set. Qed.

(** A node of the old tree is shown. *)
Lemma simple_old_subtree path span id :
  (length path ≤ depth)%nat → descend g (root_span g) path = Ok span → old_at s0 old_root path = Some id →
  subtree_ok rd s0 (depth - length path) span id.
Proof.
  intros Hlen Hs Hold. unfold old_at in Hold. destruct old_root as [r|] eqn:Hr; [|done]. cbn in Hold.
  apply (subtree_ok_find rd s0 path _ (root_span g) r); [|done|done].
  replace (length path + (depth - length path))%nat with depth by lia. by apply stored.
Qed.

(** ** One more node *)

(** The records of a new child. *)
Record child_rows pl (parent : NodeId) (slot : Z) (node : TreeNodeRecord) (refs : list TreeLeafRefRecord) : Prop := {
  cr_id : tn_id node = ids (cp_drawn pl);
  cr_node : node_ok node;
  cr_refs : ∀ l, l ∈ refs → tl_node_id l = tn_id node ∧ leaf_ref_ok l;
  cr_parent : NodeId_new parent = Ok parent;
  cr_known : parent ∈ tn_id <$> tb_nodes (cp_records pl) ∨ ∃ n, see_node s0 parent = Ok (Some n);
  cr_slot : 0 ≤ slot < 32;
  cr_free : cp_pending_edges pl !! (parent, slot) = None;
}.

Definition add_child pl parent slot node refs : SimpleTreeCommitPlanner :=
  cp_push node refs [mkTreeEdge parent slot (tn_id node)] pl.

Lemma add_child_ok pl parent slot node refs :
  planner_ok pl → is_Some (cp_root_node_id pl) → child_rows pl parent slot node refs →
  planner_ok (add_child pl parent slot node refs).
Proof.
  intros [Hgeo Hfac Hids Hpend Hedges Hch Hpar Hleaf (Hb1 & Hb2 & Hb3) Hroot] [r Hr] [Cid Cn Cr Cp Ck Cs Cf].
  split; cbn [add_child cp_push cp_geometry cp_factory cp_records cp_pending_nodes cp_pending_edges cp_root_node_id cp_drawn
    tb_nodes tb_edges tb_leaf_refs foldl te_parent_node_id te_slot te_child_node_id].
  - done.
  - done.
  - rewrite fmap_app, Hids, seq_S, fmap_app. cbn. by rewrite Cid.
  - rewrite Hpend, fmap_app, list_to_set_app_L. cbn. set_solver.
  - intros k. rewrite by_key_snoc.
    pose proof (Hedges k) as Hk. destruct (decide ((parent, slot) = k)) as [<-|Hne].
    + rewrite lookup_insert_eq. rewrite Cf in Hk. revert Hk. destruct (by_key _ _ _); [done|]. by rewrite decide_True.
    + rewrite lookup_insert_ne by done. rewrite Hk. destruct (by_key _ _ _); [done|]. by rewrite decide_False.
  - intros e. rewrite fmap_app, !elem_of_app. cbn. rewrite !list_elem_of_singleton. intros [He| ->]; [left; auto|by right].
  - intros e. rewrite fmap_app, !elem_of_app, list_elem_of_singleton. intros [He| ->]; [|cbn; tauto].
    destruct (Hpar _ He); tauto.
  - intros l. rewrite fmap_app, !elem_of_app. cbn. rewrite list_elem_of_singleton. intros [Hl|Hl]; [left; auto|].
    right. by apply Cr.
  - split; [|split]; cbn.
    + intros n. rewrite elem_of_app, list_elem_of_singleton. intros [?| ->]; auto.
    + intros e. rewrite elem_of_app, list_elem_of_singleton. intros [?| ->]; [auto|]. split; [done|]. cbn. rewrite Cid.
      split; [unfold u16_max; lia|apply ids_valid].
    + intros l. rewrite elem_of_app. intros [?|?%Cr]; [auto|tauto].
  - rewrite Hr in *. rewrite fmap_app, elem_of_app. tauto.
Qed.

Lemma fresh_before pl parent slot node refs :
  fresh_nodes (add_child pl parent slot node refs) → fresh_nodes pl.
Proof. intros Hf n Hn. apply Hf. cbn. apply elem_of_app. by left. Qed.

(** The rows with the new child. *)
Lemma add_child_grows pl parent slot node refs span :
  planner_ok pl → child_rows pl parent slot node refs → fresh_nodes (add_child pl parent slot node refs) →
  (parent ∉ tn_id <$> tb_nodes (cp_records pl) → see_edge s0 parent slot = Ok None) →
  (∃ pnode pspan, rw_node (planned pl) parent = Ok (Some pnode) ∧
    tn_level pnode = span_level pspan ∧ tn_span_start_bytes pnode = span_start pspan ∧ tn_span_len_bytes pnode = span_len pspan ∧
    child_span g pspan slot = Ok span) →
  node_matches SimpleMutableTree (expected_kind span) span node →
  (tn_level node = 0 → ∃ l, refs = [l]) → (tn_level node ≠ 0 → refs = []) →
  grows g SimpleMutableTree parent slot node (planned pl) (planned (add_child pl parent slot node refs)).
Proof.
  intros Hp Hc Hfresh Hfree (pnode & pspan & Hpn & H1 & H2 & H3 & Hs) Hm Hl Hni.
  pose proof (next_id_new _ Hp) as Hnew. rewrite <-(cr_id _ _ _ _ _ Hc) in Hnew.
  destruct (Hfresh node) as [Hn0 He0]; [cbn; apply elem_of_app; right; by apply list_elem_of_singleton|].
  assert (Hbare : ∀ sl, by_key edge_key (tn_id node, sl) (tb_edges (cp_records pl)) = None).
  { intros sl. apply by_key_None. intros (e & Heq & He)%list_elem_of_fmap. injection Heq as Heq _.
    destruct (po_parents _ Hp e He) as [Hin|[n Hn]]; rewrite <-Heq in *; [done|]. by rewrite Hn0 in Hn. }
  assert (Hpe : by_key edge_key (parent, slot) (tb_edges (cp_records pl)) = None).
  { pose proof (cr_free _ _ _ _ _ Hc) as Hf. rewrite (po_edges _ Hp) in Hf. revert Hf. by destruct (by_key _ _ _). }
  assert (Hnl : by_key tl_node_id (tn_id node) (tb_leaf_refs (cp_records pl)) = None).
  { apply by_key_None. intros (l & Heq & Hin)%list_elem_of_fmap. rewrite Heq in Hnew. by apply Hnew, (po_leaf_refs _ Hp). }
  split.
  - cbn. by rewrite (proj2 (by_key_None tn_id _ _) Hnew).
  - intros sl. cbn. by rewrite Hbare.
  - cbn. rewrite Hpe. destruct (decide (parent ∈ tn_id <$> tb_nodes (cp_records pl))) as [Hin|Hout]; [|auto].
    apply list_elem_of_fmap in Hin as (n & -> & Hin). by apply (fresh_before _ _ _ _ _ Hfresh).
  - by exists pnode, pspan, span.
  - intros id. cbn. rewrite by_key_snoc. destruct (decide (id = tn_id node)) as [->|Hne].
    + rewrite (proj2 (by_key_None tn_id _ _) Hnew). by rewrite decide_True.
    + destruct (by_key tn_id _ _); [done|]. by rewrite decide_False by congruence.
  - intros p sl. cbn. rewrite by_key_snoc.
    destruct (decide (p = parent ∧ sl = slot)) as [[-> ->]|Hne].
    + rewrite Hpe. by rewrite decide_True.
    + destruct (by_key edge_key (p, sl) _); [done|]. rewrite decide_False; [done|]. intros [= -> ->]. by apply Hne.
  - intros Hlev. destruct (Hl Hlev) as [l ->]. destruct (cr_refs _ _ _ _ _ Hc l) as [Hid _]; [by left|].
    exists l. split; [|done]. cbn. rewrite by_key_snoc, Hnl. by rewrite decide_True.
  - intros id Hne. cbn. destruct (decide (tn_level node = 0)) as [Hlev|Hlev].
    + destruct (Hl Hlev) as [l ->]. destruct (cr_refs _ _ _ _ _ Hc l) as [Hid _]; [by left|].
      rewrite by_key_snoc. destruct (by_key tl_node_id id _); [done|]. by rewrite decide_False by congruence.
    + by rewrite (Hni Hlev), app_nil_r.
Qed.

Lemma simple_depth_level : Z.of_nat depth = geo_root_level g.
Proof. unfold depth. pose proof Hg as (_ & _ & _ & ? & _). lia. Qed.

Lemma chunk_path_length i : length (chunk_slots g i) = depth.
Proof. apply chunk_slots_length. Qed.

(** A chunk whose leaf is reached only with the new node is the chunk of that node. *)
Lemma grown_chunk pl pl' parent slot node r i found :
  grows g SimpleMutableTree parent slot node (planned pl) (planned pl') →
  subtree_ok rd (planned pl) depth (root_span g) r → chunk_in i →
  find_node (planned pl) r (chunk_slots g i) = None → find_node (planned pl') r (chunk_slots g i) = Some found →
  found = tn_id node ∧ tn_level node = 0 ∧ tn_span_start_bytes node = i * TREE_CHUNK_BYTES.
Proof.
  intros Hgrow Hsub [Hi1 Hi2] Hnone Hf. pose proof (descend_root g i Hg Hi1 Hi2) as Hd.
  assert (subtree_ok rd (planned pl) (length (chunk_slots g i) + 0) (root_span g) r) as Hsub0.
  { by rewrite chunk_path_length, Nat.add_0_r. }
  destruct (find_node_new rd parent slot node (planned pl) (planned pl') Hgrow (chunk_slots g i) 0 _ _ r found Hsub0 Hd Hnone Hf) as [-> _].
  split; [done|]. assert (subtree_ok rd (planned pl') (length (chunk_slots g i) + 0) (root_span g) r) as Hsub'.
  { rewrite chunk_path_length, Nat.add_0_r. eapply subtree_ok_grow; [exact Hgrow|cbn; symmetry; apply simple_depth_level|done]. }
  destruct (subtree_ok_find rd (planned pl') (chunk_slots g i) 0 _ _ _ _ Hsub' Hd Hf) as (x & Hx & _ & Hm & _).
  cbn in Hx. change (rw_node (planned pl') (tn_id node) = Ok (Some x)) in Hx.
  rewrite (gr_node _ _ _ _ _ _ _ Hgrow), decide_True in Hx by done. injection Hx as <-.
  destruct Hm as (_ & _ & -> & -> & _). cbn. by rewrite level_bytes_0.
Qed.

(** The tree with the new node: the same leaves, and the leaf of the chunk if the node is one. *)
Lemma grown_tree pl pl' D D' parent slot node r :
  cp_root_node_id pl = Some r → cp_root_node_id pl' = Some r →
  grows g SimpleMutableTree parent slot node (planned pl) (planned pl') → tree_planned pl D →
  (∀ i, chunk_in i → find_node (planned pl) r (chunk_slots g i) = None →
     match D' !! i with
     | Some key => find_node (planned pl') r (chunk_slots g i) = Some (tn_id node) ∧
                   rw_leaf_ref (planned pl') (tn_id node) = Ok (Some (leaf_ref factory (tn_id node) MutableBlob key))
     | None => tn_level node = 0 → tn_span_start_bytes node ≠ i * TREE_CHUNK_BYTES
     end) →
  (∀ i, chunk_in i → is_Some (find_node (planned pl) r (chunk_slots g i)) → D' !! i = D !! i) →
  tree_planned pl' D'.
Proof.
  unfold tree_planned. intros Hr Hr' Hgrow Ht Hnew Hold. rewrite Hr in Ht. rewrite Hr'. destruct Ht as [Hsub Hch].
  split; [eapply subtree_ok_grow; [exact Hgrow|cbn; symmetry; apply simple_depth_level|done]|]. intros i Hi.
  specialize (Hch i Hi). specialize (Hnew i Hi). specialize (Hold i Hi). unfold chunk_planned in *.
  assert (Hkeep : ∀ id, find_node (planned pl) r (chunk_slots g i) = Some id →
    find_node (planned pl') r (chunk_slots g i) = Some id ∧ rw_leaf_ref (planned pl') id = rw_leaf_ref (planned pl) id).
  { intros id Hid. split; [by apply (find_node_grow rd _ _ _ _ _ Hgrow)|]. apply (gr_leaf_ref _ _ _ _ _ _ _ Hgrow). intros ->.
    assert (subtree_ok rd (planned pl) (length (chunk_slots g i) + 0) (root_span g) r) as Hsub0
      by (by rewrite chunk_path_length, Nat.add_0_r).
    destruct Hi as [Hi1 Hi2].
    destruct (subtree_ok_find rd (planned pl) _ 0 _ _ _ _ Hsub0 (descend_root g i Hg Hi1 Hi2) Hid) as (x & Hx & _).
    cbn in Hx. change (rw_node (planned pl) (tn_id node) = Ok (Some x)) in Hx. by rewrite (gr_new _ _ _ _ _ _ _ Hgrow) in Hx. }
  destruct (old_at s0 old_root (chunk_slots g i)) as [id|].
  { destruct Hch as [Hf Hl]. destruct (Hkeep _ Hf) as [? Hl']. by rewrite Hl'. }
  destruct (find_node (planned pl) r (chunk_slots g i)) as [id|] eqn:Hf.
  - rewrite Hold by eauto. destruct (D !! i) as [key|]; [|done]. destruct Hch as (id' & [= <-] & Hl). exists id.
    destruct (Hkeep id eq_refl) as [? ->]. done.
  - destruct (D' !! i) as [key|]; [exists (tn_id node); by apply Hnew|].
    destruct (find_node (planned pl') r (chunk_slots g i)) as [found|] eqn:Hf'; [|done].
    destruct (grown_chunk _ _ _ _ _ _ _ _ Hgrow Hsub Hi Hf Hf') as (_ & Hlev & Hst). by destruct (Hnew eq_refl Hlev).
Qed.

(** ** The walk of a path *)

(** A chunk to plan. *)
Definition new_chunk_ok (chunk : SimpleChunkRef) : Prop :=
  chunk_in (sc_chunk_index chunk) ∧ BlobKey_new (sc_blob_key chunk) = Ok (sc_blob_key chunk).

Lemma unplanned_chunk pl D r i :
  cp_root_node_id pl = Some r → tree_planned pl D → chunk_in i →
  find_node (planned pl) r (chunk_slots g i) = None → D !! i = None.
Proof.
  unfold tree_planned. intros -> [_ Hch] Hi Hn. specialize (Hch i Hi). unfold chunk_planned in Hch. rewrite Hn in Hch.
  destruct (old_at _ _ _); [by destruct Hch|]. destruct (D !! i); [by destruct Hch as (? & ? & _)|done].
Qed.

Lemma walk_known pl path id span :
  (length path ≤ depth)%nat → walk_at pl path id span →
  id ∈ tn_id <$> tb_nodes (cp_records pl) ∨ ∃ n, see_node s0 id = Ok (Some n).
Proof.
  intros Hlen [Hs _ [?|Hold] _]; [by left|right]. pose proof (simple_old_subtree _ _ _ Hlen Hs Hold) as Hsub.
  destruct (depth - length path)%nat; destruct Hsub as (node & Hn & _); by exists node.
Qed.

(** The planned node at a place of the walk has the span of the place. *)
Lemma walk_planned pl D path id span :
  (length path ≤ depth)%nat → walk_at pl path id span → fresh_nodes pl → tree_planned pl D →
  ∃ r node, cp_root_node_id pl = Some r ∧ find_node (planned pl) r path = Some id ∧
    rw_node (planned pl) id = Ok (Some node) ∧ tn_level node = span_level span ∧
    tn_span_start_bytes node = span_start span ∧ tn_span_len_bytes node = span_len span.
Proof.
  intros Hlen [Hs _ _ Hf] Hfresh Ht. destruct (Hf Hfresh) as (r & Hr & Hfind). unfold tree_planned in Ht. rewrite Hr in Ht.
  destruct Ht as [Hsub _]. exists r. assert (subtree_ok rd (planned pl) (length path + (depth - length path)) (root_span g) r) as Hsub0
    by (by replace (length path + (depth - length path))%nat with depth by lia).
  pose proof (subtree_ok_find rd (planned pl) path _ _ _ _ _ Hsub0 Hs Hfind) as Hid.
  destruct (subtree_ok_node _ _ _ _ _ Hid) as (node & Hn & _ & (_ & _ & ? & ? & ?)). by exists node.
Qed.

(** The new node of a span, with its leaf reference. *)
Definition span_node pl (chunk : SimpleChunkRef) (span : TreeNodeSpan) : TreeNodeRecord :=
  node_record factory (expected_kind span) (ids (cp_drawn pl)) span.
Definition span_refs pl (chunk : SimpleChunkRef) (span : TreeNodeSpan) : list TreeLeafRefRecord :=
  if span_level span =? 0 then [leaf_ref factory (ids (cp_drawn pl)) MutableBlob (sc_blob_key chunk)] else [].

Lemma new_child_eq pl chunk parent slot span :
  planner_ok pl →
  simple_new_child ids chunk parent slot span pl =
    Ok (ids (cp_drawn pl), add_child pl parent slot (span_node pl chunk span) (span_refs pl chunk span)).
Proof.
  intros Hp. unfold simple_new_child. rewrite ids_valid. cbn [map_err obind]. rewrite (po_factory _ Hp).
  unfold span_node, span_refs, expected_kind. by destruct (span_level span =? 0).
Qed.

Lemma new_child_rows pl chunk path parent slot pspan span :
  planner_ok pl → walk_at pl path parent pspan → (length path ≤ depth)%nat → 0 ≤ slot < 32 → span_fine g span →
  BlobKey_new (sc_blob_key chunk) = Ok (sc_blob_key chunk) → cp_pending_edges pl !! (parent, slot) = None →
  child_rows pl parent slot (span_node pl chunk span) (span_refs pl chunk span).
Proof.
  intros Hp Hw Hlen Hslot (Hf1 & Hf2 & Hf3) Hkey Hfree. pose proof Hg as (_ & Hcb & _ & Hlev & _). split.
  - done.
  - split; [apply ids_valid|]. split; [cbn; by rewrite export_valid|]. cbn. unfold u16_max. lia.
  - intros l. unfold span_refs. destruct (_ =? _); [|by intros ?%not_elem_of_nil]. intros ->%list_elem_of_singleton.
    split; [done|]. split; [apply ids_valid|]. split; [done|]. cbn. rewrite Hcb. by_compute.
  - apply Hw.
  - by eapply walk_known.
  - done.
  - done.
Qed.

(** The step that adds a node. *)
Lemma new_child_spec pl D chunk path parent slot rest pspan span :
  planner_ok pl → (fresh_nodes pl → tree_planned pl D) → is_Some (cp_root_node_id pl) →
  walk_at pl path parent pspan → path ++ slot :: rest = chunk_slots g (sc_chunk_index chunk) → new_chunk_ok chunk →
  child_span g pspan slot = Ok span → cp_pending_edges pl !! (parent, slot) = None →
  (parent ∉ tn_id <$> tb_nodes (cp_records pl) → see_edge s0 parent slot = Ok None) →
  let pl' := add_child pl parent slot (span_node pl chunk span) (span_refs pl chunk span) in
  planner_ok pl' ∧ walk_at pl' (path ++ [slot]) (ids (cp_drawn pl)) span ∧
  (fresh_nodes pl' → tree_planned pl' (if decide (rest = []) then <[sc_chunk_index chunk := sc_blob_key chunk]> D else D)).
Proof.
  intros Hp Ht Hroot Hw Hpath [Hin Hkey] Hspan Hfree Hstored pl'. set (idx := sc_chunk_index chunk) in *.
  pose proof (chunk_slots_range g idx) as Hrange. rewrite <-Hpath in Hrange. apply Forall_app in Hrange as [Hr1 [Hslot _]%Forall_cons].
  assert (Hlen : (length path + Datatypes.S (length rest) = depth)%nat) by (rewrite <-(chunk_path_length idx), <-Hpath, length_app; done).
  pose proof (descend_snoc g _ _ slot _ _ (wk_span _ _ _ _ Hw) Hspan) as Hd.
  assert (Hfine : span_fine g span).
  { apply (root_descend_fine g Hg (path ++ [slot])); [|done]. apply Forall_app. split; [done|]. by constructor. }
  pose proof (new_child_rows pl chunk path parent slot pspan span Hp Hw ltac:(lia) Hslot Hfine Hkey Hfree) as Hrows.
  pose proof (add_child_ok pl parent slot _ _ Hp Hroot Hrows) as Hp'. fold pl' in Hp'.
  assert (Hlevel : span_level span = Z.of_nat (length rest)).
  { rewrite (descend_level _ _ _ _ Hd), length_app. cbn. pose proof simple_depth_level. lia. }
  assert (Hgrow : fresh_nodes pl' → grows g SimpleMutableTree parent slot (span_node pl chunk span) (planned pl) (planned pl')).
  { intros Hf. pose proof (fresh_before _ _ _ _ _ Hf) as Hf0.
    destruct (walk_planned pl D path parent pspan ltac:(lia) Hw Hf0 (Ht Hf0)) as (r & pnode & _ & _ & Hpn & H1 & H2 & H3).
    apply (add_child_grows pl parent slot _ _ span); [done|done|done|done|by exists pnode, pspan|done| |];
      unfold span_refs; cbn; intros Hz; destruct (Z.eqb_spec (span_level span) 0); (done || eauto). }
  assert (Hfind : ∀ r, fresh_nodes pl' → find_node (planned pl) r path = Some parent →
    find_node (planned pl) r (path ++ [slot]) = None ∧ find_node (planned pl') r (path ++ [slot]) = Some (ids (cp_drawn pl))).
  { intros r Hf Hfr. specialize (Hgrow Hf). rewrite !find_node_app, Hfr. rewrite (find_node_grow rd _ _ _ _ _ Hgrow _ _ _ Hfr).
    cbn [mbind option_bind]. rewrite !find_node_cons. unfold child_at. cbn [see_edge rows_view].
    rewrite (gr_edge _ _ _ _ _ _ _ Hgrow), decide_True, (gr_free _ _ _ _ _ _ _ Hgrow) by done. done. }
  split; [done|]. split.
  - split; [done|apply ids_valid| |].
    + left. cbn. rewrite fmap_app. apply elem_of_app. right. by left.
    + intros Hf. destruct (wk_find _ _ _ _ Hw (fresh_before _ _ _ _ _ Hf)) as (r & Hr & Hfr). exists r. split; [done|]. by apply Hfind.
  - intros Hf. pose proof (fresh_before _ _ _ _ _ Hf) as Hf0. destruct (wk_find _ _ _ _ Hw Hf0) as (r & Hr & Hfr).
    destruct (Hfind r Hf Hfr) as [Hnone Hsome]. specialize (Ht Hf0).
    apply (grown_tree pl pl' D _ parent slot _ r Hr Hr (Hgrow Hf) Ht).
    + intros i Hi Hn. pose proof (unplanned_chunk _ _ _ _ Hr Ht Hi Hn) as HD. destruct (decide (rest = [])) as [->|Hne].
      * destruct (decide (i = idx)) as [->|Hi'].
        -- rewrite lookup_insert_eq, <-Hpath. split; [done|]. cbn. unfold span_refs. rewrite Hlevel. change (Z.of_nat (length []) =? 0) with true. cbn iota.
           rewrite by_key_snoc. rewrite (proj2 (by_key_None tl_node_id _ _)); [by rewrite decide_True|].
           intros (l & Heq & Hl)%list_elem_of_fmap. apply (next_id_new _ Hp). rewrite Heq. by apply (po_leaf_refs _ Hp).
        -- rewrite lookup_insert_ne, HD by done. intros _. cbn. destruct Hin as [Hi1 Hi2].
           rewrite Hpath in Hd. rewrite (descend_root g idx Hg Hi1 Hi2) in Hd. injection Hd as <-. cbn. rewrite level_bytes_0.
           rewrite chunk_bytes_value. lia.
      * rewrite HD. cbn. rewrite Hlevel. destruct rest; [done|]. cbn. lia.
    + intros i Hi [id Hid]. destruct (decide (rest = [])) as [->|]; [|done]. rewrite lookup_insert_ne; [done|].
      intros <-. rewrite <-Hpath, Hnone in Hid. done.
Qed.

Lemma simple_load_child_edge_see s parent slot o :
  see_edge s parent slot = Ok o →
  (∀ edge, o = Some edge → te_parent_node_id edge = parent ∧ te_slot edge = slot) →
  shows s (simple_load_child_edge parent slot) (Ok o).
Proof.
  intros He Hm. pose proof (shows_call _ _ _ (load_edges_shows s parent [slot])) as Ha.
  cbn in Ha. rewrite He in Ha. cbn in Ha. rewrite app_nil_r in Ha.
  eapply shows_bind; [exact Ha|]. destruct o as [edge|]; cbn; [|apply shows_ret].
  destruct (Hm edge eq_refl) as [-> ->]. rewrite bool_decide_false, Z.eqb_refl by naive_solver. apply shows_ret.
Qed.

Lemma simple_load_required_node_see s id node :
  see_node s id = Ok (Some node) → shows s (simple_load_required_node id) (Ok node).
Proof.
  intros Hn. pose proof (shows_call _ _ _ (load_node_shows s id)) as Ha. rewrite Hn in Ha.
  eapply shows_bind; [exact Ha|]. apply (shows_lift (Ok node)).
Qed.

Lemma simple_validate_existing_ok node span kind :
  node_matches SimpleMutableTree kind span node → simple_validate_existing_node node SimpleMutableTree span kind = Ok tt.
Proof.
  unfold simple_validate_existing_node. intros (-> & -> & -> & -> & ->). rewrite !bool_decide_false by (by intros []).
  by rewrite !Z.eqb_refl.
Qed.

(** The stored child below a place of the walk. *)
Lemma stored_child_spec pl path parent slot (rest : list Z) pspan span s :
  planner_ok pl → walk_at pl path parent pspan → (length path + Datatypes.S (length rest) = depth)%nat →
  child_span g pspan slot = Ok span → span_level span = Z.of_nat (length rest) → same_view s0 s →
  keeps s0 (simple_stored_child parent slot span pl) s (λ o,
    match o with
    | None => parent ∉ tn_id <$> tb_nodes (cp_records pl) → see_edge s0 parent slot = Ok None
    | Some child => rest ≠ [] ∧ see_edge s0 parent slot = Ok (Some (mkTreeEdge parent slot child)) ∧
                    old_at s0 old_root (path ++ [slot]) = Some child
    end).
Proof.
  intros Hp Hw Hlen Hspan Hlevel Hv. unfold simple_stored_child. case_bool_decide as Hin.
  { apply keeps_ret; [done|]. intros Hn. by rewrite pending_in in Hin. }
  rewrite pending_in in Hin by done. destruct (wk_node _ _ _ _ Hw) as [?|Hold]; [done|].
  pose proof (simple_old_subtree path pspan parent ltac:(lia) (wk_span _ _ _ _ Hw) Hold) as Hsub.
  replace (depth - length path)%nat with (Datatypes.S (length rest)) in Hsub by lia.
  destruct Hsub as (pnode & _ & _ & _ & Hedges). destruct (Hedges slot) as [He|(child & He & Hsub)].
  - eapply keeps_bind; [apply keeps_shows; [by apply (simple_load_child_edge_see s0 parent slot None)|done]|].
    intros o s' Hv' ->. by apply keeps_ret.
  - eapply keeps_bind; [apply keeps_shows; [apply (simple_load_child_edge_see _ _ _ _ He); by intros ? [= <-]|done]|].
    intros o s' Hv' ->. rewrite Hlevel. destruct (Z.eqb_spec (Z.of_nat (length rest)) 0) as [|Hne]; [by apply keeps_fail|].
    specialize (Hsub _ Hspan). destruct (subtree_ok_node _ _ _ _ _ Hsub) as (node & Hn & _ & Hm).
    assert (expected_kind span = Internal) as Hk by (unfold expected_kind; rewrite Hlevel; by decide_cmp). rewrite Hk in Hm.
    cbn [te_child_node_id].
    eapply keeps_bind; [apply keeps_shows; [by apply simple_load_required_node_see|done]|]. intros n s1 Hv1 ->.
    eapply keeps_bind; [apply (keeps_lift s0 _ _ (λ _, True)); [done|by rewrite simple_validate_existing_ok|done]|].
    intros _ s2 Hv2 _. apply keeps_ret; [done|]. split; [by destruct rest|]. split; [done|].
    rewrite old_at_snoc, Hold. cbn. unfold child_at. by rewrite He.
Qed.

Lemma simple_plan_path_spec chunk rest : ∀ path parent pspan pl D s,
  planner_ok pl → (fresh_nodes pl → tree_planned pl D) → is_Some (cp_root_node_id pl) → walk_at pl path parent pspan →
  path ++ rest = chunk_slots g (sc_chunk_index chunk) → new_chunk_ok chunk →
  (rest = [] → D !! sc_chunk_index chunk = Some (sc_blob_key chunk)) → same_view s0 s →
  keeps s0 (simple_plan_path ids chunk rest parent pspan pl) s (λ pl',
    planner_ok pl' ∧ (fresh_nodes pl' → tree_planned pl' (<[sc_chunk_index chunk := sc_blob_key chunk]> D)) ∧
    is_Some (cp_root_node_id pl')).
Proof.
  induction rest as [|slot rest IH]; intros path parent pspan pl D s Hp Ht Hroot Hw Hpath Hchunk Hdone Hv; cbn [simple_plan_path].
  { apply keeps_ret; [done|]. rewrite insert_id by auto. done. }
  assert (Hlen : (length path + Datatypes.S (length rest) = depth)%nat)
    by (rewrite <-(chunk_path_length (sc_chunk_index chunk)), <-Hpath, length_app; done).
  pose proof Hchunk as [[Hi1 Hi2] _]. pose proof (descend_root g _ Hg Hi1 Hi2) as Hd. rewrite <-Hpath in Hd.
  destruct (descend_app _ _ _ _ _ Hd) as (mid & Hmid & Hd'). rewrite (wk_span _ _ _ _ Hw) in Hmid. injection Hmid as <-.
  cbn [descend] in Hd'. apply obind_ok in Hd' as (span & Hspan & _). rewrite (po_geometry _ Hp).
  eapply keeps_bind; [apply (keeps_lift s0 _ _ (λ sp, sp = span)); [done|by rewrite Hspan|intros a Ha; congruence]|].
  intros sp s1 Hv1 ->. pose proof (descend_snoc g _ _ slot _ _ (wk_span _ _ _ _ Hw) Hspan) as Hd1.
  assert (Hlevel : span_level span = Z.of_nat (length rest)).
  { rewrite (descend_level _ _ _ _ Hd1), length_app. cbn. pose proof simple_depth_level. lia. }
  assert (Hpath1 : (path ++ [slot]) ++ rest = chunk_slots g (sc_chunk_index chunk)) by (by rewrite <-app_assoc).
  destruct (cp_pending_edges pl !! (parent, slot)) as [child|] eqn:Hpend.
  - rewrite Hlevel. destruct (Z.eqb_spec (Z.of_nat (length rest)) 0) as [|Hne]; [by apply keeps_fail|].
    rewrite (po_edges _ Hp) in Hpend. destruct (by_key edge_key (parent, slot) _) as [edge|] eqn:Hk; [|done].
    injection Hpend as Hchild. destruct (by_key_Some _ _ _ _ Hk) as [Hin _]. pose proof (po_children _ Hp _ Hin) as Hcin.
    rewrite Hchild in Hcin. apply (IH (path ++ [slot]) child span pl D s1); [done|done|done| |done|done| |done].
    + split; [done| |by left|].
      * rewrite (po_ids _ Hp) in Hcin. apply list_elem_of_fmap in Hcin as (k & -> & _). apply ids_valid.
      * intros Hf. destruct (wk_find _ _ _ _ Hw Hf) as (r & Hr & Hfr). exists r. split; [done|].
        rewrite find_node_app, Hfr. cbn [mbind option_bind]. rewrite find_node_cons. unfold child_at. cbn [see_edge rows_view planned].
        cbn. rewrite Hk. by rewrite Hchild.
    + intros ->. done.
  - eapply keeps_bind; [by eapply (stored_child_spec pl path parent slot rest pspan span)|].
    intros [child|] s2 Hv2 Ho.
    + destruct Ho as (Hne & He & Hold). destruct (law_edge_child s0 parent slot _ He) as (_ & _ & Hcv).
      apply (IH (path ++ [slot]) child span pl D s2); [done|done|done| |done|done|done|done].
      split; [done|done|by right|]. intros Hf. destruct (wk_find _ _ _ _ Hw Hf) as (r & Hr & Hfr). exists r. split; [done|].
      rewrite find_node_app, Hfr. cbn [mbind option_bind]. rewrite find_node_cons. unfold child_at. cbn.
      rewrite (po_edges _ Hp) in Hpend. destruct (by_key edge_key (parent, slot) _); [done|]. by rewrite He.
    + destruct (new_child_spec pl D chunk path parent slot rest pspan span Hp Ht Hroot Hw Hpath Hchunk Hspan Hpend Ho) as (Hp' & Hw' & Ht').
      rewrite (new_child_eq _ _ _ _ _ Hp). eapply keeps_bind; [apply (keeps_lift s0 _ _ (λ x, x = (ids (cp_drawn pl),
        add_child pl parent slot (span_node pl chunk span) (span_refs pl chunk span)))); [done|done|by intros a [= ->]]|].
      intros x s3 Hv3 ->.
      eapply (IH (path ++ [slot])) in Hw'; [|exact Hp'|exact Ht'|done|done|done| |exact Hv3].
      * unfold keeps in *. destruct (simple_plan_path _ _ _ _ _ _ s3) as [[pl'|e|] s4]; [|done|done].
        destruct Hw' as (? & ? & Htree & ?). split; [done|]. split; [done|]. split; [|done]. intros Hf. specialize (Htree Hf).
        destruct (decide (rest = [])); [by rewrite insert_insert_eq in Htree|done].
      * intros ->. rewrite decide_True by done. apply lookup_insert_eq.
Qed.

(** ** Whole commits *)

Lemma no_nodes pl : planner_ok pl → tb_nodes (cp_records pl) = [] → cp_records pl = mkTreeBatch [] [] [] ∧ cp_drawn pl = 0%nat.
Proof.
  intros Hp Hn. pose proof (po_ids _ Hp) as Hids. rewrite Hn in Hids. split.
  - destruct (cp_records pl) as [nodes edges refs] eqn:Hr. cbn in Hn. subst nodes. f_equal.
    + destruct edges as [|e edges]; [done|]. pose proof (po_children _ Hp e) as He. rewrite Hr in He. cbn in He.
      by apply not_elem_of_nil in He; [|left].
    + destruct refs as [|l refs]; [done|]. pose proof (po_leaf_refs _ Hp l) as He. rewrite Hr in He. cbn in He.
      by apply not_elem_of_nil in He; [|left].
  - by destruct (cp_drawn pl).
Qed.

Lemma root_matches : node_matches SimpleMutableTree (expected_kind (root_span g)) (root_span g) (root_node factory (ids 0)).
Proof.
  assert (expected_kind (root_span g) = Internal) as -> by (unfold expected_kind; cbn; pose proof Hg as (_ & _ & _ & ? & _); by decide_cmp).
  done.
Qed.

Lemma ensure_root_spec pl D :
  planner_ok pl → (fresh_nodes pl → tree_planned pl D) →
  ∃ r pl', ensure_root ids pl = Ok (r, pl') ∧ planner_ok pl' ∧ (fresh_nodes pl' → tree_planned pl' D) ∧
    is_Some (cp_root_node_id pl') ∧ walk_at pl' [] r (root_span g).
Proof.
  intros Hp Ht. unfold ensure_root. pose proof (po_root _ Hp) as Hroot. destruct (cp_root_node_id pl) as [r|] eqn:Hr.
  { exists r, pl. split; [done|]. split; [done|]. split; [done|]. split; [by rewrite Hr|]. split; [done| | |].
    - destruct Hroot as [Hold|[_ Hin]]; [by apply root_valid|]. rewrite (po_ids _ Hp) in Hin.
      apply list_elem_of_fmap in Hin as (k & -> & _). apply ids_valid.
    - destruct Hroot as [Hold|[_ Hin]]; [right|by left]. unfold old_at. by rewrite Hold.
    - intros _. by exists r. }
  destruct Hroot as [Hold Hn]. destruct (no_nodes _ Hp Hn) as [Hrec Hdrawn]. rewrite ids_valid, Hdrawn. cbn [obind].
  set (pl' := cp_set_root _ _). exists (ids 0), pl'. split; [done|].
  assert (Hrec' : cp_records pl' = mkTreeBatch [root_node factory (ids 0)] [] []).
  { unfold pl'. cbn. by rewrite Hrec, (po_factory _ Hp). }
  assert (Hp' : planner_ok pl').
  { pose proof Hg as (_ & _ & Hsz & Hlev & _).
    split; rewrite ?Hrec'; unfold pl'; cbn [cp_set_root cp_push cp_geometry cp_factory cp_pending_nodes cp_pending_edges cp_drawn cp_root_node_id
      tb_nodes tb_edges tb_leaf_refs foldl].
    - apply Hp.
    - apply Hp.
    - by rewrite Hdrawn.
    - rewrite (po_pending _ Hp), Hn. cbn. set_solver.
    - intros k. rewrite (po_edges _ Hp), Hrec. done.
    - by intros e ?%not_elem_of_nil.
    - by intros e ?%not_elem_of_nil.
    - by intros e ?%not_elem_of_nil.
    - split; [|split]; cbn; [|by intros e ?%not_elem_of_nil|by intros e ?%not_elem_of_nil].
      intros n ->%list_elem_of_singleton. split; [apply ids_valid|]. split; [cbn; by rewrite export_valid|].
      cbn. unfold u16_max. lia.
    - right. split; [done|]. by left. }
  assert (Hr' : cp_root_node_id pl' = Some (ids 0)) by done. clearbody pl'.
  split; [done|]. split; [|split; [by exists (ids 0)|]].
  - intros Hf. assert (D = ∅) as ->.
    { assert (fresh_nodes pl) as Hf0 by (intros n Hin; rewrite Hn in Hin; by apply not_elem_of_nil in Hin).
      specialize (Ht Hf0). unfold tree_planned in Ht. by rewrite Hr in Ht. }
    assert (Hbare : ∀ slot, see_edge (planned pl') (ids 0) slot = Ok None).
    { intros slot. cbn. rewrite Hrec'. apply (Hf (root_node factory (ids 0))). rewrite Hrec'. by left. }
    assert (Hnode : see_node (planned pl') (ids 0) = Ok (Some (root_node factory (ids 0)))).
    { cbn. rewrite Hrec'. cbn. unfold by_key. cbn. by rewrite bool_decide_true. }
    unfold tree_planned. rewrite Hr'. pose proof simple_depth_level as Hdl. pose proof Hg as (_ & _ & _ & Hlev & _).
    destruct depth as [|d] eqn:Hdep; [lia|]. split.
    + exists (root_node factory (ids 0)). split; [done|]. split; [done|]. split; [apply root_matches|]. intros slot. by left.
    + intros i _. unfold chunk_planned, old_at. rewrite Hold, lookup_empty. cbn [mbind option_bind].
      pose proof (chunk_path_length i) as Hpl. rewrite Hdep in Hpl. destruct (chunk_slots g i) as [|slot slots]; [done|].
      rewrite find_node_cons. unfold child_at. by rewrite Hbare.
  - split; [done|apply ids_valid| |].
    + left. rewrite Hrec'. by left.
    + intros _. by exists (ids 0).
Qed.

Lemma simple_plan_chunk_spec chunk pl D s :
  planner_ok pl → (fresh_nodes pl → tree_planned pl D) → new_chunk_ok chunk → same_view s0 s →
  keeps s0 (simple_plan_chunk ids chunk pl) s (λ pl',
    planner_ok pl' ∧ (fresh_nodes pl' → tree_planned pl' (<[sc_chunk_index chunk := sc_blob_key chunk]> D)) ∧
    is_Some (cp_root_node_id pl')).
Proof.
  intros Hp Ht Hchunk Hv. unfold simple_plan_chunk. rewrite (po_geometry _ Hp). pose proof Hchunk as [[Hi1 Hi2] _].
  rewrite (path_for_chunk_ok g _ Hg Hi1 Hi2).
  eapply keeps_bind; [apply (keeps_lift s0 _ _ (λ p, p = mkTreePath (sc_chunk_index chunk) (chunk_slots g (sc_chunk_index chunk)))); [done|done|by intros a [= ->]]|].
  intros p s1 Hv1 ->. destruct (ensure_root_spec pl D Hp Ht) as (r & pl' & -> & Hp' & Ht' & Hr' & Hw').
  eapply keeps_bind; [apply (keeps_lift s0 _ _ (λ p, p = (r, pl'))); [done|done|by intros a [= ->]]|].
  intros p s2 Hv2 ->. rewrite (po_geometry _ Hp'). apply (simple_plan_path_spec chunk _ []); [done|done|done|done|done|done| |done].
  intros Heq. pose proof (chunk_path_length (sc_chunk_index chunk)) as Hlen. cbn [tp_slots] in Heq. rewrite Heq in Hlen. cbn in Hlen.
  pose proof simple_depth_level. pose proof Hg as (_ & _ & _ & ? & _). lia.
Qed.

Definition with_chunks (chunks : list SimpleChunkRef) D : gmap ChunkIndex BlobKey :=
  foldl (λ D chunk, <[sc_chunk_index chunk := sc_blob_key chunk]> D) D chunks.

Lemma simple_plan_chunks_spec chunks : ∀ pl D s,
  planner_ok pl → (fresh_nodes pl → tree_planned pl D) → Forall new_chunk_ok chunks → same_view s0 s →
  keeps s0 (simple_plan_chunks ids chunks pl) s (λ pl',
    planner_ok pl' ∧ (fresh_nodes pl' → tree_planned pl' (with_chunks chunks D)) ∧
    (chunks ≠ [] → is_Some (cp_root_node_id pl'))).
Proof.
  induction chunks as [|chunk chunks IH]; intros pl D s Hp Ht Hok Hv; cbn [simple_plan_chunks]; [by apply keeps_ret|].
  apply Forall_cons in Hok as [Hc Hok]. eapply keeps_bind; [by apply simple_plan_chunk_spec|].
  intros pl' s1 Hv1 (Hp' & Ht' & Hr'). destruct chunks as [|c2 chunks]; [by apply keeps_ret|].
  pose proof (IH pl' _ s1 Hp' Ht' Hok Hv1) as H. unfold keeps in *. destruct (simple_plan_chunks _ _ _ s1) as [[pl2|e|] s2]; [|done|done].
  destruct H as (? & ? & ? & Hr2). split; [done|]. split; [done|]. split; [done|]. intros _. by apply Hr2.
Qed.

Lemma new_planner_spec st :
  st_export_id st = export_id → st_root_node_id st = old_root →
  planner_ok (SimpleTreeCommitPlanner_new g st) ∧ tree_planned (SimpleTreeCommitPlanner_new g st) ∅.
Proof.
  intros Hid Hroot. split.
  - split; cbn; rewrite ?Hid; try done; try (by intros ? ?%not_elem_of_nil).
    + split; [|split]; by intros ? ?%not_elem_of_nil.
    + rewrite Hroot. destruct old_root; [by left|done].
  - unfold tree_planned. cbn [SimpleTreeCommitPlanner_new cp_root_node_id]. rewrite Hroot.
    destruct old_root as [r|] eqn:Hr; [|done]. assert (Hsame : same_rows s0 (planned (SimpleTreeCommitPlanner_new g st))) by (by split).
    split; [apply (subtree_ok_rows _ s0); [done|]; by apply stored|]. intros i _. unfold chunk_planned, old_at. rewrite lookup_empty, Hr.
    cbn [mbind option_bind]. rewrite (find_node_rows _ _ _ _ Hsame). by destruct (find_node s0 r (chunk_slots g i)).
Qed.
End plan.
