(* ===== verification/SimpleCorrect.v ===== *)
(** * Correctness of the simple durable engine

    The engine stands for a byte array: the chunks with a leaf have their bytes in the blob of the leaf,
    all others are zero.  Reads return the array.  A write that succeeds is in the array; a write
    that fails half way leaves every byte old or new. *)

From S2P Require Import Prelude ControlPlane Server ExtentMap Wal WalLocal Overlay ReadCache ReadCacheCorrect Geometry Admission Export Catalog Tree Storage.
From S2P Require Import ReadView TreeReaders Publication TreePaths CompactionPlan CompactionCorrect SimpleDurable SimplePlan.

#[local] Open Scope string_scope.
#[local] Open Scope list_scope.
#[local] Open Scope Z_scope.

Abbreviation C := SIMPLE_CHUNK_BYTES (only parsing).

Lemma simple_chunk_value : C = 33554432.
Proof. done. Qed.

(** ** The rounds of the loops over chunks *)

(** The piece of a request from position [p] on that lies in the chunk of [p]. *)
Lemma piece_step p left n :
  0 ≤ p → 0 < left → n = Z.min (C - p mod C) left →
  0 < n ≤ left ∧ n ≤ C ∧ p = p / C * C + p mod C ∧ 0 ≤ p mod C ∧ p mod C + n ≤ C ∧ (n < left → p + n = (p / C + 1) * C).
Proof.
  intros Hp Hl ->. pose proof simple_chunk_value. pose proof (Z.div_mod p C ltac:(lia)). pose proof (Z.mod_pos_bound p C ltac:(lia)).
  split; [lia|]. split; [lia|]. split; [lia|]. split; [lia|]. split; [lia|]. intros Hlt.
  lia.
Qed.

Lemma simple_fuel_enough lo len :
  0 ≤ lo → 0 < len → (lo + len - 1) / C - (lo + 0) / C < Z.of_nat (simple_fuel len).
Proof.
  intros Hlo Hl. pose proof simple_chunk_value as HC. unfold simple_fuel. rewrite Z.add_0_r.
  pose proof (Z.div_mod (lo + len - 1) C ltac:(lia)). pose proof (Z.mod_pos_bound (lo + len - 1) C ltac:(lia)).
  pose proof (Z.div_mod lo C ltac:(lia)). pose proof (Z.mod_pos_bound lo C ltac:(lia)).
  pose proof (Z.div_mod len C ltac:(lia)). pose proof (Z.mod_pos_bound len C ltac:(lia)).
  rewrite Z2Nat.id by (pose proof (Z.div_pos len C ltac:(lia) ltac:(lia)); lia). nia.
Qed.

(** One more round, and the fuel for the rounds after it. *)
Lemma fuel_step lo len done n fuel :
  0 ≤ lo → 0 ≤ done → n = Z.min (C - (lo + done) mod C) (len - done) →
  (done < len → (lo + len - 1) / C - (lo + done) / C < Z.of_nat (S fuel)) →
  done + n < len → (lo + len - 1) / C - (lo + (done + n)) / C < Z.of_nat fuel.
Proof.
  intros Hlo Hd Hn Hf Hlt. destruct (decide (done < len)) as [Hdl|]; [|pose proof simple_chunk_value; pose proof (Z.mod_pos_bound (lo + done) C ltac:(lia)); lia].
  destruct (piece_step (lo + done) (len - done) n) as (? & _ & _ & _ & _ & Hnext); [lia|lia|done|].
  rewrite Z.add_assoc, Hnext, Z.div_mul by (pose proof simple_chunk_value; lia). specialize (Hf Hdl). lia.
Qed.

Lemma fuel_positive lo len done :
  done < len → ¬ ((lo + len - 1) / C - (lo + done) / C < Z.of_nat 0).
Proof. intros Hd. pose proof simple_chunk_value. pose proof (Z.div_le_mono (lo + done) (lo + len - 1) C ltac:(lia) ltac:(lia)). lia. Qed.

Lemma chunk_position i off x : 0 ≤ off → off < C → x = i * C + off → x / C = i ∧ x mod C = off.
Proof.
  intros ? ? ->. pose proof simple_chunk_value. split.
  - rewrite Z.div_add_l, Z.div_small by lia. lia.
  - rewrite Z.add_comm, Z.mod_add, Z.mod_small by lia. done.
Qed.

Section engine.
Context {S B : Type} `{!TreeRecordStore S} `{!TreeView S} `{!TreeRecordStoreLaws S} `{!TreePublisher S} `{!TreePublisherLaws S}.
Context `{!BlobStore B} `{!BlobStoreLaws B} `{!MutableBlobStore B} `{!MutableBlobStoreLaws B}.
Context (draw_keys : nat → nat → BlobKey) (draw_temp : nat → BlobKey) (draw_ids : nat → nat → string).
Context (id : ExportId) (size : Z).
Implicit Types (w : SimpleWorld S B) (st : SimpleTreeState) (K : gmap ChunkIndex BlobKey) (a : Z → byte).

(** What the code relies on of its random texts: they are valid, and no two draws give the same key. *)
Record simple_supply : Prop := {
  su_keys : ∀ n k, BlobKey_new (draw_keys n k) = Ok (draw_keys n k);
  su_key_ok : ∀ n k, key_ok (draw_keys n k) = true;
  su_fresh : ∀ n m j k, draw_keys n j = draw_keys m k → n = m;
  su_temp : ∀ n m k, draw_keys m k ≠ temp_key (draw_temp n);
  su_ids : ∀ n k, NodeId_new (draw_ids n k) = Ok (draw_ids n k);
  su_ids_inj : ∀ n, Inj (=) (=) (draw_ids n);
  su_export : ExportId_new id = Ok id;
}.

(** The position is in the chunk and in the export. *)
Definition chunk_of (i x : Z) : Prop := 0 ≤ x < size ∧ x / C = i.

(** The records: [K] has the blob key of every chunk with a leaf, and the cache agrees with it. *)
Record tree_ok st (s : S) K (g : TreeGeometry) : Prop := {
  to_id : st_export_id st = id;
  to_size : st_size_bytes st = size ∧ is_u64 size;
  to_geometry : TreeGeometry_new (st_tree_format st) size = Ok g;
  to_head : ∃ head, st_export_head st = Ok head ∧ see_head s id = Ok head;
  to_valid : store_valid s;
  to_root_valid : ∀ r, st_root_node_id st = Some r → NodeId_new r = Ok r;
  to_stored : ∀ r, st_root_node_id st = Some r →
    subtree_ok (mkReader g SimpleMutableTree (st_root_node_id st)) s (Z.to_nat (geo_root_level g)) (root_span g) r;
  to_chunks : ∀ i, chunk_in g i →
    match K !! i with
    | None => old_at s (st_root_node_id st) (chunk_slots g i) = None
    | Some key => ∃ leaf, old_at s (st_root_node_id st) (chunk_slots g i) = Some leaf ∧
                    see_leaf_ref s leaf = Ok (Some (mkTreeLeafRef leaf MutableBlob key C))
    end;
  to_cache : ∀ i c, st_chunks st !! i = Some c → K !! i = Some (sc_blob_key c);
}.

(** The blobs: every key of [K] has a full chunk with the bytes of the array, and no two chunks share a key. *)
Record blobs_ok (bs : gmap BlobKey (list byte)) (draws : nat) K a : Prop := {
  bo_drawn : ∀ i key, K !! i = Some key → ∃ n k, (n < draws)%nat ∧ key = draw_keys n k;
  bo_inj : ∀ i j key, K !! i = Some key → K !! j = Some key → i = j;
  bo_bytes : ∀ i key, K !! i = Some key → ∃ blob, bs !! key = Some blob ∧ zlen blob = C ∧
    ∀ x, chunk_of i x → zget blob (x mod C) = Some (a x);
  bo_zero : ∀ i x, K !! i = None → chunk_of i x → a x = x00;
}.

Record stands w K a : Prop := {
  sd_tree : ∃ g, tree_ok (sw_tree w) (sw_store w) K g;
  sd_blobs : blobs_ok (blobs (sw_blobs w)) (sw_draws w) K a;
}.

(** The engine stands for the array [a]. *)
Definition simple_serves w a : Prop := ∃ K, stands w K a.

Lemma tree_ok_view st s s' K g : same_view s s' → tree_ok st s K g → tree_ok st s' K g.
Proof.
  intros Hv [? ? ? (head & ? & Hh) Hval ? Hst Hch ?]. split; try done.
  - exists head. split; [done|]. by rewrite (sv_head _ _ Hv).
  - by apply (sv_valid _ _ Hv).
  - intros r Hr. apply (subtree_ok_view _ s); [done|]. by apply Hst.
  - intros i Hi. specialize (Hch i Hi). unfold old_at in *.
    assert ((st_root_node_id st ≫= λ r, find_node s' r (chunk_slots g i)) =
            (st_root_node_id st ≫= λ r, find_node s r (chunk_slots g i))) as Heq.
    { destruct (st_root_node_id st) as [r|]; [|done]. cbn. by apply find_node_view. }
    rewrite Heq. destruct (K !! i); [|done]. by setoid_rewrite (sv_leaf_ref _ _ Hv).
Qed.

Lemma chunk_of_in st s K g i x : tree_ok st s K g → chunk_of i x → chunk_in g i.
Proof.
  intros Ht [Hx Hi]. destruct (to_size _ _ _ _ Ht) as [_ Hu]. destruct (new_geometry_inv _ _ _ Hu (to_geometry _ _ _ _ Ht)) as (_ & Hs & _).
  unfold chunk_in. rewrite Hs. pose proof simple_chunk_value as HC. unfold SIMPLE_CHUNK_BYTES in *.
  pose proof (Z.div_mod x TREE_CHUNK_BYTES ltac:(lia)). pose proof (Z.mod_pos_bound x TREE_CHUNK_BYTES ltac:(lia)).
  rewrite Hi in *. split; [|lia]. rewrite <-Hi. apply Z.div_pos; lia.
Qed.

(** ** Looking up a chunk *)

Definition ready w : Prop := store_ready (sw_store w) ∧ blob_ready (sw_blobs w).

(** A call that may fill the cache and read the stores; it fails only when a store does. *)
Definition looks {A} (m : M (SimpleWorld S B) ServerError A) w K a (Q : A → Prop) : Prop :=
  match m w with
  | (Ok x, w') => Q x ∧ stands w' K a ∧ blobs (sw_blobs w') = blobs (sw_blobs w) ∧ sw_draws w' = sw_draws w ∧ (ready w → ready w')
  | (Err _, w') => ¬ ready w ∧ stands w' K a ∧ blobs (sw_blobs w') = blobs (sw_blobs w) ∧ sw_draws w' = sw_draws w
  | (Panic, _) => False
  end.

Lemma looks_ret {A} (x : A) w K a (Q : A → Prop) : stands w K a → Q x → looks (mret x) w K a Q.
Proof. by split. Qed.

Lemma looks_bind {A A'} (m : M (SimpleWorld S B) ServerError A) (f : A → M (SimpleWorld S B) ServerError A') w K a
    (Q : A → Prop) (R : A' → Prop) :
  looks m w K a Q →
  (∀ x w', Q x → stands w' K a → blobs (sw_blobs w') = blobs (sw_blobs w) → sw_draws w' = sw_draws w → looks (f x) w' K a R) →
  looks (mseq m f) w K a R.
Proof.
  unfold looks, mseq. intros Hm Hf. destruct (m w) as [[x|e|] w1]; [|done|done]. destruct Hm as (HQ & Hs & Hb & Hd & Hr).
  specialize (Hf x w1 HQ Hs Hb Hd). destruct (f x w1) as [[y|e|] w2]; [| |done].
  - destruct Hf as (? & ? & ? & ? & ?). split; [done|]. split; [done|]. split; [congruence|]. split; [congruence|auto].
  - destruct Hf as (Hnr & ? & ? & ?). split; [auto|]. split; [done|]. split; congruence.
Qed.

Lemma looks_weaken {A} (m : M (SimpleWorld S B) ServerError A) w K a (Q R : A → Prop) :
  looks m w K a Q → (∀ x, Q x → R x) → looks m w K a R.
Proof. unfold looks. intros Hm HQR. destruct (m w) as [[x|e|] w']; [|done|done]. destruct Hm as (? & ?). auto. Qed.

Lemma lookup_chunk_spec w K a i :
  stands w K a → 0 ≤ i → i * C < size → looks (lookup_chunk i) w K a (λ o, o = K !! i).
Proof.
  intros [[g Ht] Hb] Hi1 Hi2. pose proof Ht as [Hid [Hs Hu] Hg Hh Hv Hrv Hst Hch Hca].
  destruct (new_geometry_inv _ _ _ Hu Hg) as (Hok & Hsz & _).
  unfold looks, lookup_chunk. unfold mseq at 1, get_tree at 1. cbn [fst snd].
  destruct (st_chunks (sw_tree w) !! i) as [c|] eqn:Hc.
  { cbn. rewrite (Hca _ _ Hc). split; [done|]. split; [by split; [exists g|]|]. done. }
  unfold mseq at 1, mlift at 1. rewrite Hs, Hg.
  assert (Hin : chunk_in g i) by (split; [done|by rewrite Hsz]). specialize (Hch i Hin).
  set (rd := mkReader g SimpleMutableTree (st_root_node_id (sw_tree w))).
  assert (Hleaf : ∃ o, shows (sw_store w) (load_leaf rd i) (Ok o) ∧
    match o with
    | None => K !! i = None
    | Some leaf => ∃ key, K !! i = Some key ∧ ll_leaf_ref leaf = mkTreeLeafRef (tl_node_id (ll_leaf_ref leaf)) MutableBlob key C
    end).
  { unfold old_at in Hch. destruct (st_root_node_id (sw_tree w)) as [r|] eqn:Hr; cbn [mbind option_bind] in Hch.
    2: { exists None. split; [apply shows_ret|]. by destruct (K !! i) as [key|]; [destruct Hch as (? & ? & _)|]. }
    pose proof (load_leaf_shows g SimpleMutableTree r i (sw_store w) Hok Hi1 ltac:(by rewrite Hsz) (Hst r eq_refl)) as Hl.
    destruct (find_node (sw_store w) r (chunk_slots g i)) as [lid|].
    - destruct Hl as (node & leaf & _ & Hlr & Hshow). exists (Some (mkLeaf i node leaf)). split; [done|].
      destruct (K !! i) as [key|]; [|done]. destruct Hch as (lid' & [= <-] & Hlr'). rewrite Hlr in Hlr'. injection Hlr' as ->. by exists key.
    - exists None. split; [done|]. by destruct (K !! i) as [key|]; [destruct Hch as (? & ? & _)|]. }
  destruct Hleaf as (o & Hshow & Ho). destruct (Hshow (sw_store w) ltac:(done)) as (o' & s' & Hrun & Hsv & Hres).
  unfold mseq at 1, on_tree_store at 1, zoom. fold rd. rewrite Hrun. cbn [fst snd].
  assert (Hstands : ∀ chunks, (∀ j c, chunks !! j = Some c → K !! j = Some (sc_blob_key c)) →
    stands (mkSimpleWorld (st_with_chunks chunks (sw_tree w)) s' (sw_blobs w) (sw_draws w)) K a).
  { intros chunks Hchunks. split; [|done]. exists g. pose proof (tree_ok_view _ _ _ _ _ Hsv Ht) as [? ? ? ? ? ? ? ? ?]. by split. }
  assert (Hsame : stands (mkSimpleWorld (sw_tree w) s' (sw_blobs w) (sw_draws w)) K a).
  { split; [|done]. exists g. by eapply tree_ok_view. }
  assert (Hready : ready w → store_ready s') by (intros [? _]; by apply (sv_ready _ _ Hsv)).
  destruct Hres as [->|[Hnr [e ->]]]; [|by split; [intros [? _]|]].
  destruct o as [leaf|].
  2: { cbn. split; [done|]. split; [done|]. split; [done|]. split; [done|]. intros Hr. split; [auto|apply Hr]. }
  destruct Ho as (key & HK & Hlr). rewrite Hlr. cbn [tl_storage_kind tl_storage_key tl_len_bytes].
  rewrite bool_decide_false by (by intros []). unfold mseq at 1, mlift at 1, SimpleChunkRef_new. rewrite Z.eqb_refl. cbn [negb map_err].
  unfold mseq, get_tree, set_tree, mmodify, mret. cbn [fst snd sw_tree sw_store sw_blobs sw_draws]. rewrite Hc. cbn [sc_blob_key].
  split; [done|]. split; [apply Hstands|].
  - intros j c [[<- <-]|[_ ?]]%lookup_insert_Some; [done|auto].
  - split; [done|]. split; [done|]. intros Hr. split; [auto|apply Hr].
Qed.

(** ** Reads *)

Section reads.
Context (Hsupply : simple_supply).

(** A slice of a chunk with a blob. *)
Lemma chunk_slice_spec w K a i key off n :
  stands w K a → K !! i = Some key → 0 ≤ off → 0 ≤ n → off + n ≤ C →
  looks (on_blobs (get_blob key off n)) w K a (λ data, ∃ blob, blobs (sw_blobs w) !! key = Some blob ∧ slice blob off (off + n) = Some data).
Proof.
  intros [Ht Hb] Hk Hoff Hn Hle. unfold looks, on_blobs, zoom.
  destruct (bo_bytes _ _ _ _ Hb i key Hk) as (blob & Hblob & Hlen & _).
  pose proof (law_get_blob (sw_blobs w) key off n Hoff Hn) as Hget.
  destruct (slice_exists blob off (off + n)) as [data Hs]; [lia|lia|].
  assert (Hrd : ready w → ∃ b', get_blob key off n (sw_blobs w) = (Ok data, b') ∧ blob_ready b').
  { intros [_ Hr]. destruct (bo_drawn _ _ _ _ Hb i key Hk) as (m & k & _ & ->).
    apply (law_get_ready _ _ _ _ blob); [done|apply Hsupply|done|done|done|]. pose proof simple_chunk_value. unfold u64_max. lia. }
  assert (Hst : ∀ b', blobs b' = blobs (sw_blobs w) → stands (mkSimpleWorld (sw_tree w) (sw_store w) b' (sw_draws w)) K a).
  { intros b' Heq. split; [done|]. cbn. by rewrite Heq. }
  destruct (get_blob key off n (sw_blobs w)) as [[d|e|] b'] eqn:Hg; [| |done]; cbn.
  - destruct Hget as [Heq Hdata]. split; [exists blob; split; [done|]; apply Hdata; [done|lia]|]. split; [auto|]. split; [done|]. split; [done|].
    intros Hr. destruct (Hrd Hr) as (? & [= <- <-] & ?). split; [apply Hr|done].
  - split; [|split; [auto|done]]. intros Hr. by destruct (Hrd Hr) as (? & ? & _).
Qed.

Lemma simple_part_spec w K a i off n :
  stands w K a → 0 ≤ i → 0 ≤ off → 0 < n → off + n ≤ C → i * C + off + n ≤ size →
  looks (simple_part i off (mkRange (i * C + off) n)) w K a
    (λ part, part_range part = mkRange (i * C + off) n ∧ part_well_formed part ∧ part_shows a part).
Proof.
  intros Hw Hi Hoff Hn Hle Hs. pose proof simple_chunk_value as HC. unfold simple_part.
  assert (Hu : is_u32 n) by (unfold is_u32, u32_max; lia).
  assert (Hpos : ∀ x, in_byte_range (mkRange (i * C + off) n) x → chunk_of i x ∧ x mod C = off + (x - (i * C + off))).
  { intros x [Hx1 Hx2]. cbn in Hx1, Hx2. destruct (chunk_position i (off + (x - (i * C + off))) x) as [Hd Hm]; [lia|lia|lia|].
    split; [|done]. split; [lia|done]. }
  eapply looks_bind; [apply lookup_chunk_spec; [done|done|lia]|]. intros o w1 -> Hw1 Hb1 _.
  destruct (K !! i) as [key|] eqn:HK.
  - cbn [br_len]. eapply looks_bind; [by apply (chunk_slice_spec w1 K a i); [| | |lia|]|]. intros data w2 (blob & Hblob & Hd) Hw2 _ _.
    apply looks_ret; [done|]. split; [done|]. split; [split_and!; [cbn; lia|done|]|].
    + cbn. rewrite (slice_length _ _ _ _ Hd). lia.
    + intros x Hx. destruct (Hpos x Hx) as [Hc Hm]. cbn. destruct Hx as [Hx1 Hx2]. cbn in Hx1, Hx2.
      rewrite (proj2 (Z.leb_le _ _)), (proj2 (Z.ltb_lt _ _)) by lia. cbn [andb].
      rewrite (slice_get _ _ _ _ _ Hd) by lia. rewrite <-Hm.
      destruct (bo_bytes _ _ _ _ (sd_blobs _ _ _ Hw1) i key HK) as (blob' & Hblob' & _ & Hby). rewrite Hblob in Hblob'. injection Hblob' as <-.
      by apply Hby.
  - apply looks_ret; [done|]. split; [done|]. split; [split_and!; [cbn; lia|done|]|].
    + cbn. rewrite zeros_length; lia.
    + intros x Hx. destruct (Hpos x Hx) as [Hc _]. cbn. destruct Hx as [Hx1 Hx2]. cbn in Hx1, Hx2.
      rewrite (proj2 (Z.leb_le _ _)), (proj2 (Z.ltb_lt _ _)) by lia. cbn [andb].
      by rewrite (bo_zero _ _ _ _ (sd_blobs _ _ _ Hw1) i x HK Hc).
Qed.

Lemma simple_read_parts_spec range K a :
  range_ok range → br_start range + br_len range ≤ size →
  ∀ fuel copied w, stands w K a → 0 ≤ copied ≤ br_len range →
  (copied < br_len range → (br_start range + br_len range - 1) / C - (br_start range + copied) / C < Z.of_nat fuel) →
  looks (simple_read_parts fuel range copied) w K a
    (λ parts, parts_show a (br_start range + copied) (br_start range + br_len range) parts).
Proof.
  intros (Hr1 & [Hr2 Hr3] & Hr4) Hs. pose proof simple_chunk_value as HC.
  induction fuel as [|fuel IH]; intros copied w Hw Hc Hf; cbn [simple_read_parts];
    (destruct (Z.ltb_spec copied (br_len range)) as [Hlt|Hge];
     [|apply looks_ret; [done|]; replace copied with (br_len range) by lia; split; [constructor|]; split; [done|lia]]).
  { by destruct (fuel_positive _ _ _ Hlt (Hf Hlt)). }
  rewrite u64_add_id by lia.
  destruct (piece_step (br_start range + copied) (br_len range - copied) _ ltac:(lia) ltac:(lia) eq_refl) as (Hn & HnC & Hp & Hm & Hmn & _).
  rewrite as_u32_id by (unfold is_u32, u32_max in *; lia).
  pose proof (fuel_step (br_start range) (br_len range) copied _ fuel Hr1 ltac:(lia) eq_refl Hf) as Hf'.
  set (p := br_start range + copied) in *. set (n := Z.min (C - p mod C) (br_len range - copied)) in *. clearbody n.
  rewrite Hp at 3. eapply looks_bind; [apply simple_part_spec; [done|apply Z.div_pos; lia|done|lia|done|lia]|]. rewrite <-Hp.
  intros part w1 (Hpr & Hwf & Hsh) Hw1 _ _.
  eapply looks_bind; [apply IH; [done|lia|done]|]. intros parts w2 Hparts Hw2 _ _. apply looks_ret; [done|].
  pose proof (parts_show_cons a (br_start range + br_len range) part parts Hwf Hsh) as Hcons. rewrite Hpr in Hcons. cbn [br_start br_len] in Hcons.
  apply Hcons; [lia|lia|]. unfold p. by rewrite <-Z.add_assoc.
Qed.

Definition read_shows a (offset len : Z) (data : list byte) : Prop :=
  zlen data = len ∧ ∀ x, offset ≤ x < offset + len → zget data (x - offset) = Some (a x).

(** The range checks pass exactly for ranges inside the export. *)
Lemma simple_validate_range_spec operation offset len :
  0 ≤ offset → 0 ≤ len → is_u64 size →
  simple_validate_range operation offset len size =
    if decide (offset + len ≤ size) then Ok tt else Err (OutOfBounds operation offset len size).
Proof.
  intros ? ? [? ?]. unfold simple_validate_range, u64_checked_add.
  destruct (Z.leb_spec (offset + len) u64_max); cbn.
  - destruct (Z.ltb_spec size (offset + len)); case_decide; (done || lia).
  - case_decide; [lia|done].
Qed.

Lemma simple_read_spec e w K a offset len :
  stands w K a → se_size_bytes e = size → 0 ≤ offset → is_u32 len → offset + len ≤ size →
  looks (simple_read e offset len) w K a (read_shows a offset len).
Proof.
  intros Hw He Ho [Hl1 Hl2] Hs. destruct Hw as [[g Ht] Hb]. destruct (to_size _ _ _ _ Ht) as [Hts Hu].
  assert (Hw : stands w K a) by (split; [by exists g|done]). assert (Hr : range_ok (mkRange offset len)).
  { destruct Hu. split_and!; [done|by split|cbn; lia]. }
  unfold looks, simple_read, mseq at 1, mlift at 1. rewrite He, simple_validate_range_spec, decide_True by (done || lia). cbn [fst snd].
  fold (looks (mseq (simple_read_committed (mkRange offset len)) (λ block, mlift (materialize block))) w K a (read_shows a offset len)).
  eapply (looks_bind _ _ _ _ _ (λ b, Block_new (mkRange offset len) (b_parts b) = Ok b ∧ parts_show a offset (offset + len) (b_parts b))).
  - unfold looks, simple_read_committed. unfold mseq at 1, get_tree at 1, mseq at 1, mlift at 1. cbn [br_start br_len fst snd].
    rewrite Hts, simple_validate_range_spec, decide_True by (done || lia). cbn [fst snd].
    match goal with |- context [(mseq ?m ?f w)] => change (looks (mseq m f) w K a (λ b, Block_new (mkRange offset len) (b_parts b) = Ok b ∧ parts_show a offset (offset + len) (b_parts b))) end.
    eapply looks_bind.
    + apply (simple_read_parts_spec (mkRange offset len)); [done|done|done|cbn; lia|]. cbn. intros. by apply simple_fuel_enough.
    + cbn [br_start br_len]. rewrite Z.add_0_r. intros parts w1 Hparts Hw1 _ _. pose proof Hparts as (Hp & Hv & _).
      assert (Hnew : Block_new (mkRange offset len) parts = Ok (mkBlock (mkRange offset len) parts)).
      { unfold Block_new, validate_block_parts, checked_range_end. cbn [br_start br_len].
        rewrite (proj2 (u64_checked_add_Some _ _ _)) by (destruct Hr as (? & ? & ?); cbn in *; split; [lia|done]). cbn. by rewrite Hv; cbn; rewrite Z.eqb_refl. }
      unfold mlift. rewrite Hnew. by apply looks_ret.
  - intros b w1 (Hnew & Hp & Hv & Hby) Hw1 _ _. destruct (materialize_bytes _ _ _ Hr Hp Hnew) as (data & Hm & Hlen & Hget).
    unfold mlift. rewrite Hm. apply looks_ret; [done|]. split; [done|]. intros x Hx. cbn [br_start br_len] in *.
    destruct (Hget (x - offset) ltac:(lia)) as [-> _]. rewrite <-Hby by lia. f_equal. lia.
Qed.
End reads.

(** ** Writes: the rounds *)

Section writes.
Context (Hsupply : simple_supply).

Lemma blobs_ok_keep bs bs' draws draws' K a :
  (∀ i key, K !! i = Some key → bs' !! key = bs !! key) → (draws ≤ draws')%nat →
  blobs_ok bs draws K a → blobs_ok bs' draws' K a.
Proof.
  intros Hbs Hd [Hdr Hinj Hby Hz]. split; [|done| |done].
  - intros i key HK. destruct (Hdr i key HK) as (n & k & ? & ->). exists n, k. split; [lia|done].
  - intros i key HK. destruct (Hby i key HK) as (blob & Hb & ?). exists blob. split; [|done]. by rewrite (Hbs i).
Qed.

Lemma blobs_ok_ext bs draws K a a' :
  (∀ x, 0 ≤ x < size → a' x = a x) → blobs_ok bs draws K a → blobs_ok bs draws K a'.
Proof.
  intros Ha [Hdr Hinj Hby Hz]. split; [done|done| |].
  - intros i key HK. destruct (Hby i key HK) as (blob & Hb & Hl & Hx). exists blob. split; [done|]. split; [done|].
    intros x Hc. rewrite Ha by apply Hc. auto.
  - intros i x HK Hc. rewrite Ha by apply Hc. eauto.
Qed.

Lemma stands_ext w K a a' : (∀ x, 0 ≤ x < size → a' x = a x) → stands w K a → stands w K a'.
Proof. intros Ha [Ht Hb]. split; [done|]. by eapply blobs_ok_ext. Qed.

(** One chunk has a new blob. *)
Lemma blobs_ok_update bs bs' draws draws' K a a' i key blob :
  K !! i = Some key → bs' !! key = Some blob → zlen blob = C →
  (∀ x, chunk_of i x → zget blob (x mod C) = Some (a' x)) →
  (∀ j key', j ≠ i → K !! j = Some key' → bs' !! key' = bs !! key') →
  (∀ x, 0 ≤ x < size → x / C ≠ i → a' x = a x) → (draws ≤ draws')%nat →
  blobs_ok bs draws K a → blobs_ok bs' draws' K a'.
Proof.
  intros HKi Hb' Hlen Hnew Hbs Ha Hd [Hdr Hinj Hby Hz]. split; [|done| |].
  - intros j key' HK. destruct (Hdr j key' HK) as (n & k & ? & ->). exists n, k. split; [lia|done].
  - intros j key' HK. destruct (decide (j = i)) as [->|Hne]; [rewrite HKi in HK; injection HK as <-; by exists blob|].
    destruct (Hby j key' HK) as (blob' & Hb & Hl & Hx). exists blob'. rewrite (Hbs j) by done. split; [done|]. split; [done|].
    intros x Hc. rewrite Ha; [auto|apply Hc|]. destruct Hc as [_ ->]. done.
  - intros j x HK Hc. rewrite Ha; [eauto|apply Hc|]. destruct Hc as [_ ->]. by intros ->; rewrite HKi in HK.
Qed.

(** The new bytes of a chunk. *)
Lemma chunk_spliced blob i off piece chunk a x :
  splice blob off piece = Some chunk → 0 ≤ off → off + zlen piece ≤ C → chunk_of i x →
  zget blob (x mod C) = Some (a x) → zget chunk (x mod C) = Some (written_over a (i * C + off) piece x).
Proof.
  intros Hs Ho Hl [Hx Hi] Hold. pose proof simple_chunk_value as HC. rewrite (splice_get _ _ _ _ _ Hs). unfold written_over.
  pose proof (Z.div_mod x C ltac:(lia)) as Hdm. rewrite Hi in Hdm.
  destruct (Z.leb_spec off (x mod C)), (Z.ltb_spec (x mod C) (off + zlen piece)); cbn [andb]; case_bool_decide; try lia; try done.
  replace (x - (i * C + off)) with (x mod C - off) by lia.
  destruct (zget piece (x mod C - off)) as [b|] eqn:Hg; [done|]. exfalso.
  unfold zget in Hg. destruct (Z.leb_spec 0 (x mod C - off)); [|lia]. apply lookup_ge_None in Hg. unfold zlen in *. lia.
Qed.

Lemma written_elsewhere a i off piece x :
  0 ≤ off → off + zlen piece ≤ C → 0 ≤ x → x / C ≠ i → written_over a (i * C + off) piece x = a x.
Proof.
  intros Ho Hl Hx Hi. unfold written_over. case_bool_decide as Hin; [|done]. destruct Hi. pose proof simple_chunk_value.
  apply (chunk_position i (x - i * C)); lia.
Qed.

(** Blobs that were drawn earlier and are not the blob of chunk [i] are as they were. *)
Definition others_kept w w' K (i : ChunkIndex) : Prop :=
  (sw_draws w ≤ sw_draws w')%nat ∧
  ∀ n j, (n < sw_draws w)%nat → K !! i ≠ Some (draw_keys n j) →
    blobs (sw_blobs w') !! draw_keys n j = blobs (sw_blobs w) !! draw_keys n j.

(** A chunk with the bytes of [a'] that is not in the tree yet. *)
Record pending_chunk w K a' (c : SimpleChunkRef) : Prop := {
  pc_none : K !! sc_chunk_index c = None;
  pc_drawn : ∃ n k, (n < sw_draws w)%nat ∧ sc_blob_key c = draw_keys n k;
  pc_new : ∀ i, K !! i ≠ Some (sc_blob_key c);
  pc_bytes : ∃ blob, blobs (sw_blobs w) !! sc_blob_key c = Some blob ∧ zlen blob = C ∧
    ∀ x, chunk_of (sc_chunk_index c) x → zget blob (x mod C) = Some (a' x);
}.

Definition round_done w w' K a a' (i : ChunkIndex) (news : list SimpleChunkRef) : Prop :=
  match K !! i with
  | Some _ => news = [] ∧ stands w' K a'
  | None => stands w' K a ∧ ∃ c, news = [c] ∧ sc_chunk_index c = i ∧ pending_chunk w' K a' c ∧ ∃ k, sc_blob_key c = draw_keys (sw_draws w) k
  end.

(** A draw. *)
Lemma stands_draw st s b n K a :
  stands (mkSimpleWorld st s b n) K a → stands (mkSimpleWorld st s b (Datatypes.S n)) K a.
Proof. intros [Ht Hb]. split; [done|]. eapply blobs_ok_keep; [done| |done]. cbn. lia. Qed.

Lemma overwrite_chunk_spec w K a i key blob off piece chunk :
  stands w K a → K !! i = Some key → blobs (sw_blobs w) !! key = Some blob → zlen blob = C →
  (∀ x, chunk_of i x → zget blob (x mod C) = Some (a x)) → 0 ≤ off → off + zlen piece ≤ C → splice blob off piece = Some chunk →
  let a' := written_over a (i * C + off) piece in
  match overwrite_blob (draw_temp (sw_draws w)) key chunk (sw_blobs w) with
  | (Ok _, b') => stands (mkSimpleWorld (sw_tree w) (sw_store w) b' (Datatypes.S (sw_draws w))) K a'
  | (Err _, b') =>
      let w' := mkSimpleWorld (sw_tree w) (sw_store w) b' (Datatypes.S (sw_draws w)) in stands w' K a ∨ stands w' K a'
  | (Panic, _) => False
  end ∧
  others_kept w (mkSimpleWorld (sw_tree w) (sw_store w) (overwrite_blob (draw_temp (sw_draws w)) key chunk (sw_blobs w)).2 (Datatypes.S (sw_draws w))) K i.
Proof.
  intros [Ht Hb] HK Hblob Hlen Hby Ho Hl Hsp a'.
  destruct (bo_drawn _ _ _ _ Hb i key HK) as (n0 & k0 & Hn0 & Hkey).
  destruct (law_overwrite_blob (sw_blobs w) (draw_temp (sw_draws w)) key chunk) as [Hov Hframe]; [rewrite Hkey; apply Hsupply|].
  assert (Hother : ∀ j key', j ≠ i → K !! j = Some key' →
    blobs (overwrite_blob (draw_temp (sw_draws w)) key chunk (sw_blobs w)).2 !! key' = blobs (sw_blobs w) !! key').
  { intros j key' Hne HKj. apply Hframe; [intros ->; by eapply Hne, (bo_inj _ _ _ _ Hb)|].
    destruct (bo_drawn _ _ _ _ Hb j key' HKj) as (n & k & _ & ->). apply Hsupply. }
  assert (Hnew : ∀ b', blobs b' !! key = Some chunk → (∀ j key', j ≠ i → K !! j = Some key' → blobs b' !! key' = blobs (sw_blobs w) !! key') →
    stands (mkSimpleWorld (sw_tree w) (sw_store w) b' (Datatypes.S (sw_draws w))) K a').
  { intros b' Hk' Hoth. split; [done|]. cbn. eapply (blobs_ok_update _ _ _ _ _ _ _ i key chunk); [done|done| | |done| | |done].
    - by rewrite (splice_length _ _ _ _ Hsp).
    - intros x Hx. eapply chunk_spliced; eauto.
    - intros x Hx Hi. apply written_elsewhere; [done|done|lia|done].
    - lia. }
  split.
  - destruct (overwrite_blob _ key chunk (sw_blobs w)) as [[u|e|] b']; cbn in Hother; [by apply Hnew| |done].
    destruct Hov as [Hold|Hk']; [left|right; by apply Hnew]. split; [done|]. eapply blobs_ok_keep; [| |exact Hb]; [|cbn; lia].
    intros j key' HKj. destruct (decide (j = i)) as [->|Hne]; [|by eapply Hother]. rewrite HK in HKj. by injection HKj as <-.
  - split; [cbn; lia|]. intros n j Hn Hne. apply Hframe; [intros <-; done|apply Hsupply].
Qed.

Lemma new_chunk_blob_spec w K a i off piece chunk :
  stands w K a → K !! i = None → 0 ≤ off → off + zlen piece ≤ C → splice (zeros C) off piece = Some chunk →
  match put_random_blob (draw_keys (sw_draws w)) chunk (sw_blobs w) with
  | (Ok key, b') =>
      let w' := mkSimpleWorld (sw_tree w) (sw_store w) b' (Datatypes.S (sw_draws w)) in
      stands w' K a ∧ pending_chunk w' K (written_over a (i * C + off) piece) (mkSimpleChunk i key C) ∧
      ∃ k, key = draw_keys (sw_draws w) k
  | (Err _, b') => stands (mkSimpleWorld (sw_tree w) (sw_store w) b' (Datatypes.S (sw_draws w))) K a
  | (Panic, _) => False
  end ∧
  others_kept w (mkSimpleWorld (sw_tree w) (sw_store w) (put_random_blob (draw_keys (sw_draws w)) chunk (sw_blobs w)).2 (Datatypes.S (sw_draws w))) K i.
Proof.
  intros [Ht Hb] HK Ho Hl Hsp. pose proof (put_random_blob_spec (draw_keys (sw_draws w)) chunk (sw_blobs w)) as Hput.
  pose proof simple_chunk_value as HC.
  assert (Hdiff : ∀ n j k, (n < sw_draws w)%nat → draw_keys n j ≠ draw_keys (sw_draws w) k).
  { intros n j k Hn Heq%(su_fresh Hsupply). lia. }
  assert (Hst : ∀ b', (∀ k, (∀ n, k ≠ draw_keys (sw_draws w) n) → blobs b' !! k = blobs (sw_blobs w) !! k) →
    stands (mkSimpleWorld (sw_tree w) (sw_store w) b' (Datatypes.S (sw_draws w))) K a).
  { intros b' Hk. split; [done|]. eapply blobs_ok_keep; [| |exact Hb]; [|cbn; lia]. intros j key HKj.
    destruct (bo_drawn _ _ _ _ Hb j key HKj) as (n & k & Hn & ->). apply Hk. auto. }
  destruct (put_random_blob _ chunk (sw_blobs w)) as [[key|e|] b']; [| |done]; cbn [snd].
  - destruct Hput as ((k & ->) & Hget & Hk). split; [|split; [cbn; lia|intros n j Hn _; apply Hk; auto]].
    split; [auto|]. split; [|by exists k]. split.
    + done.
    + exists (sw_draws w), k. cbn. split; [lia|done].
    + intros j HKj. destruct (bo_drawn _ _ _ _ Hb j _ HKj) as (n & k' & Hn & Heq). cbn in Heq. by eapply Hdiff.
    + exists chunk. cbn. split; [done|]. split; [rewrite (splice_length _ _ _ _ Hsp); apply zeros_length; lia|].
      intros x Hx. eapply chunk_spliced; [done|done|done|done|]. rewrite zeros_get by (apply Z.mod_pos_bound; lia).
      by rewrite (bo_zero _ _ _ _ Hb i x).
  - split; [auto|]. split; [cbn; lia|]. intros n j Hn _. apply Hput. auto.
Qed.

Lemma others_kept_same w w1 w2 K i :
  blobs (sw_blobs w1) = blobs (sw_blobs w) → sw_draws w1 = sw_draws w → others_kept w1 w2 K i → others_kept w w2 K i.
Proof. intros Hb Hd [Hle Hk]. split; [lia|]. intros n j Hn. rewrite <-Hb. apply Hk. lia. Qed.

Lemma others_kept_refl w w' K i :
  blobs (sw_blobs w') = blobs (sw_blobs w) → sw_draws w' = sw_draws w → others_kept w w' K i.
Proof. intros Hb Hd. split; [lia|]. intros. by rewrite Hb. Qed.

(** A round of the write loop. *)
Definition round_ok w K a a' (i : ChunkIndex) (r : SResult (list SimpleChunkRef) * SimpleWorld S B) : Prop :=
  match r with
  | (Ok news, w') => round_done w w' K a a' i news
  | (Err _, w') => stands w' K a ∨ is_Some (K !! i) ∧ stands w' K a'
  | (Panic, _) => False
  end ∧ others_kept w r.2 K i.

Lemma simple_write_chunk_spec w K a i off piece :
  stands w K a → 0 ≤ i → i * C < size → 0 ≤ off → off + zlen piece ≤ C →
  round_ok w K a (written_over a (i * C + off) piece) i (simple_write_chunk draw_keys draw_temp i off piece w).
Proof.
  intros Hw Hi1 Hi2 Ho Hl. pose proof simple_chunk_value as HC. pose proof (zlen_nonneg piece).
  pose proof (lookup_chunk_spec w K a i Hw Hi1 Hi2) as Hlook. unfold looks in Hlook.
  unfold simple_write_chunk. unfold mseq at 1. destruct (lookup_chunk i w) as [[o|e|] w1]; [| |done].
  2: { destruct Hlook as (_ & ? & ? & ?). split; [by left|]. by apply others_kept_refl. }
  destruct Hlook as (-> & Hw1 & Hb1 & Hd1 & _). destruct (K !! i) as [key|] eqn:HK.
  - pose proof (chunk_slice_spec Hsupply w1 K a i key 0 C Hw1 HK ltac:(lia) ltac:(lia) ltac:(lia)) as Hget. unfold looks in Hget.
    unfold mseq at 1. destruct (on_blobs (get_blob key 0 C) w1) as [[data|e|] w2]; [| |done].
    2: { destruct Hget as (_ & ? & ? & ?). split; [by left|]. apply others_kept_refl; cbn [snd]; congruence. }
    destruct Hget as ((blob & Hblob & Hs) & Hw2 & Hb2 & Hd2 & _).
    destruct (bo_bytes _ _ _ _ (sd_blobs _ _ _ Hw1) i key HK) as (blob' & Hblob' & Hlen & Hby). rewrite Hblob in Hblob'. injection Hblob' as <-.
    rewrite slice_full in Hs by lia. injection Hs as <-.
    destruct (splice_exists blob off piece) as [chunk Hsp]; [done|lia|].
    unfold mseq, mlift. rewrite Hsp. cbn [or_panic]. unfold next_draw, on_blobs, zoom. cbn [sw_draws sw_blobs sw_tree sw_store].
    rewrite <-Hb2 in Hblob.
    destruct (overwrite_chunk_spec w2 K a i key blob off piece chunk Hw2 HK Hblob Hlen Hby Ho Hl Hsp) as [Hov Hoth].
    apply (others_kept_same w) in Hoth; [|congruence|congruence].
    destruct (overwrite_blob _ key chunk (sw_blobs w2)) as [[u|e|] b']; [| |done].
    + split; [|exact Hoth]. unfold round_done. by rewrite HK.
    + split; [|exact Hoth]. destruct Hov as [?|?]; [by left|right; split; [by rewrite HK|done]].
  - destruct (splice_exists (zeros C) off piece) as [chunk Hsp]; [done|rewrite zeros_length; lia|].
    unfold mseq, mlift. rewrite Hsp. cbn [or_panic]. unfold next_draw, on_blobs, zoom. cbn [sw_draws sw_blobs sw_tree sw_store].
    destruct (new_chunk_blob_spec w1 K a i off piece chunk Hw1 HK Ho Hl Hsp) as [Hput Hoth].
    apply (others_kept_same w) in Hoth; [|done|done].
    destruct (put_random_blob _ chunk (sw_blobs w1)) as [[key|e|] b']; [| |done].
    + unfold SimpleChunkRef_new. rewrite Z.eqb_refl. cbn [negb map_err]. unfold mret. split; [|exact Hoth]. unfold round_done. rewrite HK.
      destruct Hput as (? & ? & k & Hk). split; [done|]. exists (mkSimpleChunk i key C). split; [done|]. split; [done|]. split; [done|].
      exists k. by rewrite Hk, Hd1.
    + split; [|exact Hoth]. by left.
Qed.

(** ** Writes: the loop *)

Section loop.
Context (K : gmap ChunkIndex BlobKey) (a0 : Z → byte) (offset : Z) (data : list byte).
Context (Hoffset : 0 ≤ offset) (Hsize : offset + zlen data ≤ size).

(** The array after [copied] bytes: only the chunks with a leaf show them. *)
Definition half (copied x : Z) : byte :=
  if bool_decide (offset ≤ x < offset + copied ∧ K !! (x / C) ≠ None) then written_over a0 offset data x else a0 x.

Record writing w (copied : Z) (news : list SimpleChunkRef) : Prop := {
  wr_stands : stands w K (half copied);
  wr_pending : Forall (pending_chunk w K (written_over a0 offset data)) news;
  wr_unique : NoDup (sc_chunk_index <$> news);
  wr_keys : ∀ c c', c ∈ news → c' ∈ news → sc_blob_key c = sc_blob_key c' → sc_chunk_index c = sc_chunk_index c';
  wr_in : Forall (λ c, 0 ≤ sc_chunk_index c ∧ sc_chunk_index c * C < size) news;
  wr_below : copied < zlen data → Forall (λ c, (sc_chunk_index c + 1) * C ≤ offset + copied) news;
  wr_aligned : copied = 0 ∨ copied = zlen data ∨ (offset + copied) mod C = 0;
  wr_touched : ∀ x, offset ≤ x < offset + copied → K !! (x / C) = None → x / C ∈ sc_chunk_index <$> news;
}.

(** Every byte is the old one or the new one. *)
Definition torn (a : Z → byte) : Prop := ∀ x, 0 ≤ x < size → a x = a0 x ∨ a x = written_over a0 offset data x.

Lemma half_torn copied : torn (half copied).
Proof. intros x _. unfold half. case_bool_decide; [by right|by left]. Qed.

Lemma written_piece copied n piece a x :
  slice data copied (copied + n) = Some piece → 0 ≤ copied → offset + copied ≤ x < offset + copied + n →
  written_over a (offset + copied) piece x = written_over a0 offset data x.
Proof.
  intros Hs Hc Hx. pose proof (slice_length _ _ _ _ Hs) as Hl. apply slice_Some in Hs as Hs'. destruct Hs' as (? & ? & _).
  unfold written_over. rewrite !bool_decide_true by lia. rewrite (slice_get _ _ _ _ _ Hs) by lia. do 2 f_equal. lia.
Qed.

(** What the round of [copied] does; [p] is its position. *)
Section round.
Context (copied n : Z) (piece : list byte).
Let p := offset + copied.
Context (Hc : 0 ≤ copied < zlen data) (Hn : n = Z.min (C - p mod C) (zlen data - copied)).
Context (Hs : slice data copied (copied + n) = Some piece).

Lemma round_chunk x : p ≤ x < p + n → x / C = p / C.
Proof.
  intros Hx. destruct (piece_step p (zlen data - copied) n) as (? & ? & Hp & Hm & Hmn & _); [unfold p; lia|lia|done|].
  apply (chunk_position (p / C) (x - p / C * C)); lia.
Qed.

Lemma outside_piece a x : ¬ (p ≤ x < p + n) → written_over a p piece x = a x.
Proof. intros Hx. unfold written_over. rewrite (slice_length _ _ _ _ Hs). rewrite bool_decide_false; [done|]. lia. Qed.

Lemma half_same x : ¬ (p ≤ x < p + n) → half copied x = half (copied + n) x.
Proof.
  intros Hx. destruct (piece_step p (zlen data - copied) n) as (? & _); [unfold p; lia|lia|done|]. unfold half, p in *.
  by rewrite (bool_decide_ext _ (offset ≤ x < offset + (copied + n) ∧ K !! (x / C) ≠ None))
    by (split; intros [? ?]; (split; [lia|done])).
Qed.

Lemma half_next x : K !! (p / C) ≠ None → written_over (half copied) p piece x = half (copied + n) x.
Proof.
  intros HK. destruct (decide (p ≤ x < p + n)) as [Hx|Hx].
  - unfold p at 1. rewrite (written_piece copied n) by (done || lia). unfold half. rewrite bool_decide_true; [done|].
    split; [unfold p in *; lia|]. by rewrite (round_chunk x Hx).
  - rewrite outside_piece by done. by apply half_same.
Qed.

Lemma half_skip x : K !! (p / C) = None → half copied x = half (copied + n) x.
Proof.
  intros HK. destruct (decide (p ≤ x < p + n)) as [Hx|Hx].
  - unfold half. rewrite !bool_decide_false; [done| |]; rewrite (round_chunk x Hx); naive_solver.
  - by apply half_same.
Qed.

Lemma half_new x :
  copied = 0 ∨ copied = zlen data ∨ p mod C = 0 → 0 ≤ x → x / C = p / C → K !! (p / C) = None →
  written_over (half copied) p piece x = written_over a0 offset data x.
Proof.
  intros Hal Hx0 Hxc HK. destruct (decide (p ≤ x < p + n)) as [Hx|Hx]; [by apply (written_piece copied n); [done|lia|]|].
  rewrite outside_piece by done. unfold half. rewrite Hxc, HK, bool_decide_false by naive_solver.
  unfold written_over. rewrite bool_decide_false; [done|]. intros Hin. pose proof simple_chunk_value.
  destruct (piece_step p (zlen data - copied) n) as (? & ? & Hp & Hm & Hmn & Hnext); [unfold p; lia|lia|done|].
  pose proof (Z.div_mod x C ltac:(lia)). pose proof (Z.mod_pos_bound x C ltac:(lia)). rewrite Hxc in *. unfold p in *.
  destruct (decide (n < zlen data - copied)) as [Hlt|]; [specialize (Hnext Hlt)|]; lia.
Qed.
End round.

Lemma pending_kept w w' i a c : others_kept w w' K i → pending_chunk w K a c → pending_chunk w' K a c.
Proof.
  intros [Hd Hk] [Hnone (n & k & Hn & Hkey) Hnew (blob & Hb & Hl)]. split; [done| |done|].
  - exists n, k. split; [lia|done].
  - exists blob. split; [|done]. rewrite Hkey in *. rewrite Hk; [done|done|]. apply Hnew.
Qed.

Lemma writing_next w w' copied n piece news chunks :
  let p := offset + copied in
  writing w copied news → 0 ≤ copied < zlen data → n = Z.min (C - p mod C) (zlen data - copied) →
  slice data copied (copied + n) = Some piece →
  round_done w w' K (half copied) (written_over (half copied) p piece) (p / C) chunks → others_kept w w' K (p / C) →
  writing w' (copied + n) (news ++ chunks).
Proof.
  intros p Hwr Hc Hn Hs Hround Hoth. pose proof simple_chunk_value as HC. pose proof Hwr as [Hst Hpend Huniq Hkeys Hin Hbelow Hal Htouch].
  destruct (piece_step p (zlen data - copied) n) as (Hn' & ? & Hp & Hm & Hmn & Hnext); [unfold p; lia|lia|done|].
  assert (Hal' : copied + n = 0 ∨ copied + n = zlen data ∨ (offset + (copied + n)) mod C = 0).
  { right. destruct (decide (n < zlen data - copied)) as [Hlt|]; [right|left; lia]. rewrite Z.add_assoc. fold p. rewrite (Hnext Hlt).
    apply Z.mod_mul. lia. }
  assert (Hpend' : Forall (pending_chunk w' K (written_over a0 offset data)) news).
  { eapply Forall_impl; [exact Hpend|]. intros c Hcc. by eapply pending_kept. }
  assert (Hp0 : 0 ≤ p / C ∧ p / C * C < size) by (split; [apply Z.div_pos; unfold p in *; lia|unfold p in *; lia]).
  unfold round_done in Hround. destruct (K !! (p / C)) as [key|] eqn:HK.
  - destruct Hround as [-> Hst']. rewrite app_nil_r. split; try done.
    + eapply stands_ext; [|exact Hst']. intros x _. symmetry. apply half_next; try done. unfold p in HK. by rewrite HK.
    + intros Hlt. eapply Forall_impl; [apply Hbelow; lia|]. cbn. lia.
    + intros x Hx HKx. destruct (decide (x < p)); [apply Htouch; [unfold p in *; lia|done]|].
      rewrite (round_chunk copied n) in HKx by (done || unfold p in *; lia). fold p in HKx. congruence.
  - destruct Hround as (Hst' & c & -> & Hci & Hcp & k & Hck). split.
    + eapply stands_ext; [|exact Hst']. intros x _. symmetry. by apply half_skip.
    + apply Forall_app. split; [done|]. constructor; [|done]. destruct Hcp as [? ? ? (blob & ? & ? & Hby)]. split; [done|done|done|].
      exists blob. split; [done|]. split; [done|]. intros x Hx. rewrite Hby by done. f_equal. rewrite Hci in Hx. destruct Hx as [? Hxc].
      apply (half_new copied n); try done. lia.
    + rewrite fmap_app. apply NoDup_app. split; [done|]. split; [|apply NoDup_singleton]. intros i (c' & -> & Hc')%list_elem_of_fmap Heq.
      apply list_elem_of_singleton in Heq. pose proof (proj1 (Forall_forall _ _) (Hbelow ltac:(lia)) c' Hc') as Hb. cbn in Hb. rewrite Heq, Hci in Hb.
      pose proof (Z.mod_pos_bound p C ltac:(lia)). unfold p in *. lia.
    + assert (Hold : ∀ c', c' ∈ news → sc_blob_key c' ≠ sc_blob_key c).
      { intros c' Hc' Heq. destruct (pc_drawn _ _ _ _ (proj1 (Forall_forall _ _) Hpend c' Hc')) as (m & j & Hm' & Hk').
        rewrite Hk', Hck in Heq. apply (su_fresh Hsupply) in Heq. lia. }
      intros c1 c2 [H1|H1%list_elem_of_singleton]%elem_of_app [H2|H2%list_elem_of_singleton]%elem_of_app Heq; subst; eauto.
      * by destruct (Hold c1 H1).
      * by destruct (Hold c2 H2).
    + apply Forall_app. split; [done|]. constructor; [|done]. by rewrite Hci.
    + intros Hlt. apply Forall_app. split; [eapply Forall_impl; [apply Hbelow; lia|]; cbn; lia|]. constructor; [|done]. rewrite Hci. lia.
    + done.
    + intros x Hx HKx. rewrite fmap_app, elem_of_app. destruct (decide (x < p)); [left; apply Htouch; [unfold p in *; lia|done]|].
      right. cbn. rewrite Hci, (round_chunk copied n) by (done || unfold p in *; lia). by left.
Qed.

Lemma simple_write_loop_spec : ∀ fuel copied w news,
  writing w copied news → 0 ≤ copied ≤ zlen data → offset + zlen data ≤ u64_max →
  (copied < zlen data → (offset + zlen data - 1) / C - (offset + copied) / C < Z.of_nat fuel) →
  match simple_write_loop draw_keys draw_temp fuel offset data copied news w with
  | (Ok news', w') => writing w' (zlen data) news'
  | (Err _, w') => ∃ a', stands w' K a' ∧ torn a'
  | (Panic, _) => False
  end.
Proof.
  pose proof simple_chunk_value as HC.
  induction fuel as [|fuel IH]; intros copied w news Hwr Hc Hu Hf; cbn [simple_write_loop];
    (destruct (Z.ltb_spec copied (zlen data)) as [Hlt|Hge]; [|by replace (zlen data) with copied by lia]).
  { by destruct (fuel_positive _ _ _ Hlt (Hf Hlt)). }
  rewrite u64_add_id by lia.
  destruct (piece_step (offset + copied) (zlen data - copied) _ ltac:(lia) ltac:(lia) eq_refl) as (Hn & HnC & Hp & Hm & Hmn & _).
  pose proof (fuel_step offset (zlen data) copied _ fuel Hoffset ltac:(lia) eq_refl Hf) as Hf'.
  remember (Z.min (C - (offset + copied) mod C) (zlen data - copied)) as n eqn:Heqn.
  destruct (slice_exists data copied (copied + n)) as [piece Hs]; [lia|lia|].
  unfold mseq at 1, mlift at 1. rewrite Hs. cbn [or_panic fst snd].
  pose proof (slice_length _ _ _ _ Hs) as Hpl.
  pose proof (simple_write_chunk_spec w K (half copied) ((offset + copied) / C) ((offset + copied) mod C) piece (wr_stands _ _ _ Hwr)
    ltac:(apply Z.div_pos; lia) ltac:(lia) Hm ltac:(lia)) as [Hround Hoth]. rewrite <-Hp in Hround.
  unfold mseq at 1. destruct (simple_write_chunk _ _ _ _ piece w) as [[chunks|e|] w1]; [| |done].
  - apply IH; [|lia|done|done]. apply (writing_next w w1 copied n piece); [done|lia|done..].
  - destruct Hround as [Hw1|[HK Hw1]]; [exists (half copied); split; [done|apply half_torn]|].
    exists (half (copied + n)). split; [|apply half_torn]. eapply stands_ext; [|exact Hw1]. intros x _. symmetry. apply half_next; [lia|done|done|].
    destruct HK as [? ->]. done.
Qed.

Lemma writing_start w : stands w K a0 → writing w 0 [].
Proof.
  intros Hw. split; try done.
  - eapply stands_ext; [|exact Hw]. intros x _. unfold half. rewrite bool_decide_false; [done|]. lia.
  - constructor.
  - by intros ? ? ?%not_elem_of_nil.
  - by left.
  - lia.
Qed.

(** The chunks of the tree after the commit. *)
Lemma with_chunks_lookup news : ∀ D i,
  NoDup (sc_chunk_index <$> news) → (∀ c, c ∈ news → D !! sc_chunk_index c = None) →
  match with_chunks news D !! i with
  | Some key => D !! i = Some key ∨ ∃ c, c ∈ news ∧ sc_chunk_index c = i ∧ sc_blob_key c = key
  | None => D !! i = None ∧ i ∉ sc_chunk_index <$> news
  end.
Proof.
  induction news as [|c news IH]; intros D i Hnd HD; cbn.
  - destruct (D !! i); [by left|]. split; [done|by apply not_elem_of_nil].
  - apply NoDup_cons in Hnd as [Hc Hnd]. specialize (IH (<[sc_chunk_index c := sc_blob_key c]> D) i Hnd).
    assert (Hfree : ∀ c', c' ∈ news → <[sc_chunk_index c := sc_blob_key c]> D !! sc_chunk_index c' = None).
    { intros c' Hc'. rewrite lookup_insert_ne; [apply HD; by right|]. intros Heq. apply Hc. rewrite Heq. by apply list_elem_of_fmap_2. }
    specialize (IH Hfree). unfold with_chunks in *. destruct (foldl _ _ news !! i) as [key|].
    + destruct IH as [[[<- <-]|[? ?]]%lookup_insert_Some|(c' & ? & ?)].
      * right. exists c. split; [by left|done].
      * by left.
      * right. exists c'. split; [by right|done].
    + destruct IH as [[? ?]%lookup_insert_None ?]. split; [done|]. rewrite not_elem_of_cons. naive_solver.
Qed.

(** The blobs after the loop, for the chunks after the commit. *)
Lemma writing_blobs w news :
  writing w (zlen data) news → blobs_ok (blobs (sw_blobs w)) (sw_draws w) (with_chunks news K) (written_over a0 offset data).
Proof.
  intros [Hst Hpend Huniq Hkeys Hin Hbelow Hal Htouch]. rewrite Forall_forall in Hpend. pose proof (sd_blobs _ _ _ Hst) as [Hdr Hinj Hby Hz].
  pose proof (λ i, with_chunks_lookup news K i Huniq (λ c Hc, pc_none _ _ _ _ (Hpend c Hc))) as HK'.
  assert (Hcase : ∀ i key, with_chunks news K !! i = Some key →
    K !! i = Some key ∨ ∃ c, c ∈ news ∧ sc_chunk_index c = i ∧ sc_blob_key c = key).
  { intros i key Hi. specialize (HK' i). by rewrite Hi in HK'. }
  split.
  - intros i key [Hi|(c & Hc & _ & <-)]%Hcase; [by eapply Hdr|]. apply (pc_drawn _ _ _ _ (Hpend c Hc)).
  - intros i j key [Hi|(c & Hc & <- & <-)]%Hcase [Hj|(c' & Hc' & <- & Heq)]%Hcase; eauto.
    + by destruct (pc_new _ _ _ _ (Hpend c' Hc') i); rewrite Heq.
    + by destruct (pc_new _ _ _ _ (Hpend c Hc) j).
  - intros i key [Hi|(c & Hc & <- & <-)]%Hcase.
    + destruct (Hby i key Hi) as (blob & Hb & Hl & Hx). exists blob. split; [done|]. split; [done|]. intros x Hxc. rewrite Hx by done. f_equal.
      unfold half. destruct Hxc as [_ ->]. rewrite Hi. case_bool_decide as Hd; [done|]. unfold written_over. rewrite bool_decide_false; [done|].
      intros ?. by apply Hd.
    + apply (pc_bytes _ _ _ _ (Hpend c Hc)).
  - intros i x Hi Hxc. specialize (HK' i). rewrite Hi in HK'. destruct HK' as [HKi Hnot]. rewrite <-(Hz i x HKi Hxc). destruct Hxc as [_ Hxi].
    unfold half. rewrite Hxi, HKi. rewrite (bool_decide_false (_ ∧ _)) by naive_solver. unfold written_over. rewrite bool_decide_false; [done|].
    intros Hxr. apply Hnot. rewrite <-Hxi. apply Htouch; [lia|]. by rewrite Hxi.
Qed.
End loop.

(** ** Writes: the commit *)

Lemma with_chunks_union news : ∀ D D', with_chunks news (D ∪ D') = with_chunks news D ∪ D'.
Proof. induction news as [|c news IH]; intros D D'; unfold with_chunks in *; cbn; [done|]. by rewrite insert_union_l, IH. Qed.

Lemma with_chunks_at news K i :
  with_chunks news K !! i = match with_chunks news ∅ !! i with Some key => Some key | None => K !! i end.
Proof.
  pose proof (with_chunks_union news ∅ K) as Hu. rewrite (left_id_L ∅ (∪)) in Hu. rewrite Hu, lookup_union. by destruct (with_chunks news ∅ !! i), (K !! i).
Qed.

Lemma with_chunks_index news D i key :
  with_chunks news D !! i = Some key → D !! i = Some key ∨ ∃ c, c ∈ news ∧ sc_chunk_index c = i.
Proof.
  revert D. induction news as [|c news IH]; intros D; cbn; [by left|]. intros [[[? ?]|[? ?]]%lookup_insert_Some|(c' & ? & ?)]%IH.
  - right. exists c. split; [by left|done].
  - by left.
  - right. exists c'. split; [by right|done].
Qed.

(** The cache after the commit agrees with the tree after the commit. *)
Lemma cache_with_chunks news : ∀ (m : gmap ChunkIndex SimpleChunkRef) D,
  (∀ i c, m !! i = Some c → D !! i = Some (sc_blob_key c)) →
  ∀ i c, foldl (λ m chunk, <[sc_chunk_index chunk := chunk]> m) m news !! i = Some c → with_chunks news D !! i = Some (sc_blob_key c).
Proof.
  induction news as [|c0 news IH]; intros m D Hm; cbn; [done|]. apply IH.
  intros i c [[<- <-]|[Hne Hc]]%lookup_insert_Some; [by rewrite lookup_insert_eq|]. rewrite lookup_insert_ne by done. auto.
Qed.

Lemma check_new_chunks_spec K a news : ∀ seen w,
  stands w K a → Forall (λ c, 0 ≤ sc_chunk_index c ∧ sc_chunk_index c * C < size) news → NoDup (sc_chunk_index <$> news) →
  (∀ c, c ∈ news → K !! sc_chunk_index c = None ∧ sc_chunk_index c ∉ seen) →
  looks (check_new_chunks seen news) w K a (λ _, True).
Proof.
  induction news as [|c news IH]; intros seen w Hw Hin Hnd HK; cbn [check_new_chunks]; [by apply looks_ret|].
  apply Forall_cons in Hin as [[? ?] Hin]. apply NoDup_cons in Hnd as [Hc Hnd]. destruct (HK c ltac:(by left)) as [HKc Hseen].
  rewrite bool_decide_false by done. eapply looks_bind; [by apply lookup_chunk_spec|]. intros o w1 -> Hw1 _ _. rewrite HKc.
  apply IH; [done|done|done|]. intros c' Hc'. destruct (HK c' ltac:(by right)) as [? ?]. split; [done|].
  rewrite elem_of_union, elem_of_singleton. intros [Heq|?]; [|done]. apply Hc. rewrite <-Heq. by apply list_elem_of_fmap_2.
Qed.

(** The heads of the commit. *)
Lemma simple_head_root root root' format h :
  new_with_tree_format SimpleMutableTree root size WalSeq_zero (Some format) = Ok h →
  new_with_tree_format SimpleMutableTree root' size WalSeq_zero (Some format) = Ok (HeadSimpleMutableTree (mkSimpleHead size root' format)).
Proof.
  cbn. unfold simple_mutable_tree_with_root_base_and_format, validate_non_zero. destruct (size =? 0); [done|]. cbn. done.
Qed.

(** The records of a published plan are the tree of the chunks. *)
Lemma published_tree_ok st s s1 s' K g pl n news request :
  tree_ok st s K g → same_view s s1 → Forall (λ c, 0 ≤ sc_chunk_index c ∧ sc_chunk_index c * C < size) news →
  (∀ c, c ∈ news → K !! sc_chunk_index c = None) →
  planner_ok (draw_ids n) g id (st_root_node_id st) s pl →
  (fresh_nodes s pl → tree_planned g id (st_root_node_id st) s pl (with_chunks news ∅)) → is_Some (cp_root_node_id pl) →
  pu_export_id request = id → pu_records request = cp_records pl →
  new_with_tree_format SimpleMutableTree (cp_root_node_id pl) size WalSeq_zero (Some (st_tree_format st)) = Ok (pu_next_head request) →
  store_valid s' → published_view s1 s' (pu_records request) → head_swapped s1 s' request →
  tree_ok (mkSimpleTree (st_export_id st) (st_size_bytes st) (cp_root_node_id pl) (st_tree_format st)
            (foldl (λ m chunk, <[sc_chunk_index chunk := chunk]> m) (st_chunks st) news)) s' (with_chunks news K) g.
Proof.
  intros Ht Hv Hin HK Hpl Hplan [r Hr] Hreq Hrec Hnext Hval Hpub Hswap. pose proof Ht as [Hid [Hs Hu] Hg Hh Hv0 Hrv Hst Hch Hca].
  destruct (new_geometry_inv _ _ _ Hu Hg) as (Hok & Hsz & _).
  apply (published_view_same s) in Hpub; [|done]. rewrite Hrec in Hpub. pose proof (published_rows _ _ _ Hpub) as Hrows.
  assert (Hfresh : fresh_nodes s pl).
  { intros nd Hnd. split; [by apply (pv_fresh_node _ _ _ Hpub)|]. intros slot. by apply (pv_fresh_edge _ _ _ Hpub). }
  specialize (Hplan Hfresh). unfold tree_planned in Hplan. rewrite Hr in Hplan. destruct Hplan as [Hsub Hchunks].
  split; cbn [st_export_id st_size_bytes st_root_node_id st_tree_format st_chunks]; try done.
  - exists (pu_next_head request). split; [|by destruct Hswap as (_ & <- & _); rewrite Hreq]. unfold st_export_head. cbn. by rewrite Hs.
  - intros r' [= <-]%(eq_trans (eq_sym Hr)). pose proof (po_root _ _ _ _ _ _ Hpl) as Hroot. rewrite Hr in Hroot.
    destruct Hroot as [Hold|[_ Hnew]]; [by apply Hrv|]. rewrite (po_ids _ _ _ _ _ _ Hpl) in Hnew.
    apply list_elem_of_fmap in Hnew as (k & -> & _). apply Hsupply.
  - intros r' [= <-]%(eq_trans (eq_sym Hr)). rewrite Hr. apply (subtree_ok_rows _ (planned s pl)); [done|].
    by apply (subtree_ok_reader (mkReader g SimpleMutableTree (st_root_node_id st))).
  - intros i Hi. specialize (Hchunks i Hi). specialize (Hch i Hi). rewrite with_chunks_at. unfold chunk_planned in Hchunks.
    rewrite Hr. unfold old_at at 1 2. cbn [mbind option_bind]. rewrite (find_node_rows _ _ _ _ Hrows).
    destruct (K !! i) as [key|] eqn:HKi.
    + destruct Hch as (leaf & Hold & Hlr). rewrite Hold in Hchunks. destruct Hchunks as [Hf Hl].
      destruct (with_chunks news ∅ !! i) as [key'|] eqn:Hwi.
      { apply with_chunks_index in Hwi as [?|(c & Hc & Hci)]; [done|]. specialize (HK c Hc). rewrite Hci in HK. congruence. }
      exists leaf. split; [exact Hf|]. rewrite (sr_leaf_ref _ _ Hrows). change (rw_leaf_ref (planned s pl) leaf = Ok (Some (mkTreeLeafRef leaf MutableBlob key C))).
      by rewrite Hl.
    + rewrite Hch in Hchunks. destruct (with_chunks news ∅ !! i) as [key'|].
      * destruct Hchunks as (leaf & Hf & Hl). exists leaf. split; [exact Hf|]. rewrite (sr_leaf_ref _ _ Hrows).
        change (rw_leaf_ref (planned s pl) leaf = Ok (Some (mkTreeLeafRef leaf MutableBlob key' C))). rewrite Hl.
        unfold leaf_ref. cbn [fa_geometry]. destruct Hok as (_ & -> & _). done.
      * exact Hchunks.
  - by apply cache_with_chunks.
Qed.

Lemma commit_new_chunks_spec w K a a' news :
  stands w K a → blobs_ok (blobs (sw_blobs w)) (sw_draws w) (with_chunks news K) a' →
  Forall (λ c, 0 ≤ sc_chunk_index c ∧ sc_chunk_index c * C < size) news → NoDup (sc_chunk_index <$> news) →
  (∀ c, c ∈ news → K !! sc_chunk_index c = None ∧ BlobKey_new (sc_blob_key c) = Ok (sc_blob_key c)) →
  match commit_new_chunks draw_ids news w with
  | (Ok _, w') => stands w' (with_chunks news K) a'
  | (Err _, w') => stands w' K a
  | (Panic, _) => False
  end.
Proof.
  intros Hw Hb' Hin Hnd HK. unfold commit_new_chunks. destruct news as [|c0 news0] eqn:Hnews.
  { cbn. split; [apply Hw|exact Hb']. }
  rewrite <-Hnews in *. assert (Hne : news ≠ []) by (by rewrite Hnews). clear c0 news0 Hnews.
  unfold mseq at 1, get_tree at 1. cbn [fst snd].
  pose proof (check_new_chunks_spec K a news ∅ w Hw Hin Hnd
    ltac:(intros c Hc; split; [by apply HK|apply not_elem_of_empty])) as Hcheck. unfold looks in Hcheck.
  unfold mseq at 1. destruct (check_new_chunks ∅ news w) as [[[]|e|] w1]; [|apply Hcheck|done].
  destruct Hcheck as (_ & Hw1 & Hb1 & Hd1 & _).
  destruct Hw1 as [[g Ht] Hbl1]. pose proof Ht as [Hid [Hs Hu] Hg (head & Hhead & Hsee) Hv0 Hrv Hst Hch Hca].
  destruct (new_geometry_inv _ _ _ Hu Hg) as (Hok & Hsz & _).
  rewrite <-Hb1, <-Hd1 in Hb'. unfold mseq at 1, get_tree at 1. cbn [fst snd].
  unfold mseq at 1, mlift at 1. rewrite Hs, Hg. unfold mseq at 1, next_draw at 1. cbn [fst snd].
  set (n := sw_draws w1) in *. assert (Hchunks : Forall (new_chunk_ok g) news).
  { apply Forall_forall. intros c Hc. pose proof (proj1 (Forall_forall _ _) Hin c Hc) as [? ?]. split; [split; [done|by rewrite Hsz]|by apply HK]. }
  destruct (new_planner_spec (draw_ids n) g id (st_root_node_id (sw_tree w1)) (sw_store w1) Hst Hrv (sw_tree w1) Hid eq_refl) as [Hpl0 Htp0].
  pose proof (simple_plan_chunks_spec (draw_ids n) g id (st_root_node_id (sw_tree w1)) (sw_store w1) (su_ids Hsupply n) (su_ids_inj Hsupply n)
    Hok (su_export Hsupply) Hst Hrv news _ ∅ (sw_store w1) Hpl0 (λ _, Htp0) Hchunks ltac:(done)) as Hplan.
  unfold keeps in Hplan. unfold mseq at 1, on_tree_store at 1, zoom at 1. cbn [sw_store sw_tree sw_blobs sw_draws].
  assert (Hdraw : ∀ s2, same_view (sw_store w1) s2 →
    stands (mkSimpleWorld (sw_tree w1) s2 (sw_blobs w1) (Datatypes.S n)) K a).
  { intros s2 Hv2. apply stands_draw. split; [exists g; by eapply tree_ok_view|done]. }
  destruct (simple_plan_chunks _ news _ (sw_store w1)) as [[pl|e|] s2]; [|by apply Hdraw|done].
  destruct Hplan as (Hv2 & Hpl & Htp & Hroot). specialize (Hroot Hne).
  unfold mseq at 1, mlift at 1. rewrite Hhead. cbn [map_err fst snd].
  pose proof Hhead as Hnh. unfold st_export_head in Hnh. rewrite Hs in Hnh. apply (simple_head_root _ (cp_root_node_id pl)) in Hnh.
  unfold mseq at 1, mlift at 1. rewrite Hnh. cbn [map_err fst snd].
  unfold mseq at 1, on_tree_store at 1, zoom at 1, store_call at 1. cbn [sw_store sw_tree sw_blobs sw_draws].
  match goal with |- context [store_publish ?q s2] => set (request := q) end.
  pose proof (law_publish s2 request (sv_valid _ _ Hv2 Hv0) (po_batch _ _ _ _ _ _ Hpl)) as Hpub.
  destruct (store_publish request s2) as [[[record|record]|e|] s3]; cbn [map_err fst snd]; [| | |done].
  - destruct Hpub as (_ & Hval3 & _ & Hpv & Hsw). unfold mseq, get_tree, set_tree, mmodify. cbn [fst snd sw_tree sw_store sw_blobs sw_draws].
    split; [|eapply blobs_ok_keep; [| |exact Hb']; [done|cbn; lia]]. exists g. cbn [sw_tree sw_store].
    change (root_node_id (HeadSimpleMutableTree (mkSimpleHead size (cp_root_node_id pl) (st_tree_format (sw_tree w1))))) with (cp_root_node_id pl).
    eapply (published_tree_ok _ (sw_store w1) s2 s3 K g pl n news request); try done.
    + intros c Hc. by apply HK.
    + destruct (sd_tree _ _ _ Hw) as [g0 Ht0]. apply (to_id _ _ _ _ Ht0).
  - apply Hdraw. by etrans.
  - apply Hdraw. by etrans.
Qed.

(** ** Requests *)

(** A write: the new array, or every byte old or new. *)
Lemma simple_write_spec e w K a offset data :
  stands w K a → se_size_bytes e = size → 0 ≤ offset → offset + zlen data ≤ size →
  match simple_write draw_keys draw_temp draw_ids e offset data w with
  | (Ok _, w') => ∃ K', stands w' K' (written_over a offset data)
  | (Err _, w') => ∃ a', stands w' K a' ∧ torn a offset data a'
  | (Panic, _) => False
  end.
Proof.
  intros Hw He Ho Hs. destruct (sd_tree _ _ _ Hw) as [g Ht]. destruct (to_size _ _ _ _ Ht) as [_ Hu]. pose proof (zlen_nonneg data).
  unfold simple_write, mseq at 1, mlift at 1. rewrite He, simple_validate_range_spec, decide_True by (done || lia). cbn [fst snd].
  destruct data as [|b0 data0] eqn:Hdata.
  { exists K. eapply stands_ext; [|exact Hw]. intros x _. unfold written_over. rewrite bool_decide_false; [done|]. unfold zlen. cbn. lia. }
  rewrite <-Hdata in *. assert (Hpos : 0 < zlen data) by (rewrite Hdata; unfold zlen; cbn; lia). clear b0 data0 Hdata. destruct Hu as [_ Hu].
  pose proof (simple_write_loop_spec K a offset data Ho Hs (simple_fuel (zlen data)) 0 w [] (writing_start K a offset data w Hw)
    ltac:(lia) ltac:(lia) ltac:(intros; by apply simple_fuel_enough)) as Hloop.
  unfold mseq at 1. destruct (simple_write_loop _ _ _ offset data 0 [] w) as [[news|err|] w1]; [|done|done].
  pose proof Hloop as [Hst Hpend Huniq _ Hin _ _ _]. rewrite Forall_forall in Hpend.
  assert (Hnew : ∀ c, c ∈ news → K !! sc_chunk_index c = None ∧ BlobKey_new (sc_blob_key c) = Ok (sc_blob_key c)).
  { intros c Hc. destruct (Hpend c Hc) as [? (n & k & _ & ->) _ _]. split; [done|apply Hsupply]. }
  pose proof (commit_new_chunks_spec w1 K _ _ news Hst (writing_blobs _ _ _ _ _ _ Hloop) Hin Huniq Hnew) as Hcommit.
  destruct (commit_new_chunks draw_ids news w1) as [[u|err|] w2]; [by exists (with_chunks news K)| |done].
  exists (half K a offset data (zlen data)). split; [done|apply half_torn].
Qed.

(** A restart: the engine is loaded again from the head in the catalog. *)
Lemma simple_load_spec d w K a head :
  stands w K a → d_id (descriptor d) = id → see_head (sw_store w) id = Ok head →
  match simple_engine_load d head w with
  | (Ok e', w') => se_size_bytes e' = size ∧ stands w' K a ∧ sw_store w' = sw_store w ∧ sw_blobs w' = sw_blobs w
  | _ => False
  end.
Proof.
  intros [[g Ht] Hb] Hd Hsee. pose proof Ht as [Hid [Hs Hu] Hg (head' & Hhead & Hsee') Hv0 Hrv Hst Hch Hca].
  rewrite Hsee in Hsee'. injection Hsee' as <-. unfold st_export_head in Hhead. rewrite Hs in Hhead.
  pose proof (simple_head_root _ (st_root_node_id (sw_tree w)) _ _ Hhead) as Hhead'. rewrite Hhead in Hhead'. injection Hhead' as ->.
  unfold simple_engine_load, simple_tree_load. rewrite bool_decide_false by (by intros []). cbn [tree_format size_bytes root_node_id sh_tree_format sh_size_bytes sh_root_node_id ok_or obind].
  unfold mseq, mlift. rewrite Hg. cbn. split; [done|]. split; [|done]. split; [|done]. exists g. cbn.
  split; cbn; try done. exists (HeadSimpleMutableTree (mkSimpleHead size (st_root_node_id (sw_tree w)) (st_tree_format (sw_tree w)))).
  split; [|done]. unfold st_export_head. cbn [st_root_node_id st_size_bytes st_tree_format]. done.
Qed.
End writes.

(** ** Runs of the engine *)

(** What happens to an engine: requests, and restarts from the catalog. *)
Inductive SimpleEvent : Type :=
| EvRequest (request : ExportRequest)
| EvRestart.

Context (d : ActiveExportDescriptor).

Definition simple_step (event : SimpleEvent) (e : SimpleDurableEngine) w
    : SResult ExportReply * (SimpleDurableEngine * SimpleWorld S B) :=
  match event with
  | EvRequest request =>
      let '(o, w') := simple_execute draw_keys draw_temp draw_ids e request w in (o, (e, w'))
  | EvRestart =>
      match see_head (sw_store w) id with
      | Ok head =>
          match simple_engine_load d head w with
          | (Ok e', w') => (Ok ReplyDone, (e', w'))
          | (Err err, w') => (Err err, (e, w'))
          | (Panic, w') => (Panic, (e, w'))
          end
      | Err err => (Err (ServerError_catalog err), (e, w))
      | Panic => (Panic, (e, w))
      end
  end.

(** What an array answers: [works] says that the stores answer.  A write that fails in the middle
    may leave every byte old or new. *)
Inductive array_step (works : Prop) (a : Z → byte) : SimpleEvent → SResult ExportReply → (Z → byte) → Prop :=
| array_read offset len data :
    offset + len ≤ size → read_shows a offset len data →
    array_step works a (EvRequest (ReqRead offset len)) (Ok (ReplyRead data)) a
| array_read_failed offset len err :
    offset + len ≤ size → ¬ works → array_step works a (EvRequest (ReqRead offset len)) (Err err) a
| array_read_outside offset len :
    size < offset + len →
    array_step works a (EvRequest (ReqRead offset len)) (Err (OutOfBounds "read" offset len size)) a
| array_write offset data :
    offset + zlen data ≤ size →
    array_step works a (EvRequest (ReqWrite offset data)) (Ok ReplyDone) (written_over a offset data)
| array_write_torn offset data err a' :
    offset + zlen data ≤ size → torn a offset data a' →
    array_step works a (EvRequest (ReqWrite offset data)) (Err err) a'
| array_write_outside offset data :
    size < offset + zlen data →
    array_step works a (EvRequest (ReqWrite offset data)) (Err (OutOfBounds "write" offset (zlen data) size)) a
| array_flush : array_step works a (EvRequest ReqFlush) (Ok ReplyDone) a
| array_restart : array_step works a EvRestart (Ok ReplyDone) a.

(** Every step of the run is a step of the array. *)
Fixpoint simulates (events : list SimpleEvent) (e : SimpleDurableEngine) w a : Prop :=
  match events with
  | [] => True
  | event :: events =>
      let '(o, (e', w')) := simple_step event e w in
      ∃ a', array_step (ready w) a event o a' ∧ simulates events e' w' a'
  end.

Definition event_typed (event : SimpleEvent) : Prop :=
  match event with EvRequest request => request_typed request | EvRestart => True end.

Lemma simple_step_spec event e w a :
  simple_supply → d_id (descriptor d) = id → se_size_bytes e = size → event_typed event → simple_serves w a →
  let '(o, (e', w')) := simple_step event e w in
  se_size_bytes e' = size ∧ ∃ a', array_step (ready w) a event o a' ∧ simple_serves w' a'.
Proof.
  intros Hsu Hd He Hty [K Hw]. destruct (sd_tree _ _ _ Hw) as [g Ht]. destruct (to_size _ _ _ _ Ht) as [_ Hu].
  destruct event as [[offset len|offset data|]|]; cbn [simple_step simple_execute].
  - destruct Hty as [[? _] Hl]. unfold mseq at 1. destruct (decide (offset + len ≤ size)) as [Hin|Hout].
    + pose proof (simple_read_spec Hsu e w K a offset len Hw He ltac:(done) Hl Hin) as Hr. unfold looks in Hr.
      destruct (simple_read e offset len w) as [[data|err|] w']; [| |done].
      * destruct Hr as (Hd' & Hw' & _). split; [done|]. exists a. split; [by constructor|by exists K].
      * destruct Hr as (Hnr & Hw' & _). split; [done|]. exists a. split; [by apply array_read_failed|by exists K].
    + destruct Hl. unfold simple_read, mseq at 1, mlift at 1. rewrite He, simple_validate_range_spec, decide_False by (done || lia). cbn.
      split; [done|]. exists a. split; [apply array_read_outside; lia|by exists K].
  - destruct Hty as [? _]. unfold mseq at 1. pose proof (zlen_nonneg data). destruct (decide (offset + zlen data ≤ size)) as [Hin|Hout].
    + pose proof (simple_write_spec Hsu e w K a offset data Hw He ltac:(done) Hin) as Hr.
      destruct (simple_write _ _ _ e offset data w) as [[[]|err|] w']; [| |done].
      * destruct Hr as [K' Hw']. split; [done|]. eexists. split; [by apply array_write|by exists K'].
      * destruct Hr as (a' & Hw' & Htorn). split; [done|]. exists a'. split; [by apply array_write_torn|by exists K].
    + unfold simple_write, mseq at 1, mlift at 1. rewrite He, simple_validate_range_spec, decide_False by (done || lia). cbn.
      split; [done|]. exists a. split; [apply array_write_outside; lia|by exists K].
  - cbn. split; [done|]. exists a. split; [constructor|by exists K].
  - destruct (to_head _ _ _ _ Ht) as (head & _ & Hsee). rewrite Hsee.
    pose proof (simple_load_spec d w K a head Hw Hd Hsee) as Hl.
    destruct (simple_engine_load d head w) as [[e'|err|] w']; [|done|done]. destruct Hl as (? & Hw' & _).
    split; [done|]. exists a. split; [constructor|by exists K].
Qed.

Lemma simple_run_spec events : ∀ e w a,
  simple_supply → d_id (descriptor d) = id → se_size_bytes e = size → Forall event_typed events → simple_serves w a →
  simulates events e w a.
Proof.
  induction events as [|event events IH]; intros e w a Hsu Hd He Hty Hw; [done|]. apply Forall_cons in Hty as [Hev Hty].
  cbn [simulates]. pose proof (simple_step_spec event e w a Hsu Hd He Hev Hw) as Hs.
  destruct (simple_step event e w) as [o [e' w']]. destruct Hs as (He' & a' & Hstep & Hw'). exists a'. split; [done|]. by apply IH.
Qed.
End engine.

(** ** Admission *)

(** The chunks a request touches. *)
Definition touches (request : ExportRequest) (i : ChunkIndex) : Prop :=
  match request with
  | ReqRead offset len => ∃ x, offset ≤ x < offset + len ∧ x / C = i
  | ReqWrite offset data => ∃ x, offset ≤ x < offset + zlen data ∧ x / C = i
  | ReqFlush => False
  end.

(** A request inside the export. *)
Definition request_inside (size : Z) (request : ExportRequest) : Prop :=
  match request with
  | ReqRead offset len => offset + len ≤ size
  | ReqWrite offset data => offset + zlen data ≤ size
  | ReqFlush => True
  end.

(** A write is admitted on the whole chunks around it, cut at the end of the export. *)
Lemma chunk_aligned_write_spec e offset len range :
  is_u64 (se_size_bytes e) → 0 ≤ offset → 0 ≤ len → chunk_aligned_write e offset len = Ok range →
  offset + len ≤ se_size_bytes e ∧ range_ok range ∧
  ∀ x y, offset ≤ x < offset + len → x / C = y / C → 0 ≤ y < se_size_bytes e → in_byte_range range y.
Proof.
  intros Hu Ho Hl H. pose proof simple_chunk_value as HC. unfold chunk_aligned_write in H.
  rewrite simple_validate_range_spec in H by done. case_decide as Hin; [|done]. cbn [obind] in H. destruct Hu as [_ Hu].
  destruct (Z.eqb_spec len 0) as [->|Hl0].
  { injection H as <-. split; [done|]. split; [|intros; lia]. split_and!; cbn; [lia|unfold is_u32, u32_max; lia|lia]. }
  rewrite u64_add_id in H by lia. rewrite u64_sub_id in H by lia. inv_ok.
  apply u64_checked_mul_Some in Hx as [_ ->]. apply u64_checked_add_Some in Hx0 as [_ ->].
  apply u64_checked_mul_Some in Hx1 as [_ ->]. apply u64_checked_sub_Some in Hx2 as [Hle ->]. apply u32_try_from_Some in Hx3 as [Hu3 ->].
  pose proof (Z.div_mod offset C ltac:(lia)). pose proof (Z.mod_pos_bound offset C ltac:(lia)). pose proof (Z.div_pos offset C Ho ltac:(lia)).
  split; [done|]. split; [split_and!; cbn [br_start br_len]; [lia|split; lia|lia]|].
  intros x y Hx Hxy Hy. unfold in_byte_range. cbn [br_start br_len].
  pose proof (Z.div_le_mono offset x C ltac:(lia) ltac:(lia)). pose proof (Z.div_le_mono x (offset + len - 1) C ltac:(lia) ltac:(lia)).
  pose proof (Z.div_mod y C ltac:(lia)). pose proof (Z.mod_pos_bound y C ltac:(lia)). nia.
Qed.

(** ** Properties *)

(** C10: the simple durable engine is a byte array.  Over any record store and blob store that
    keep their laws, let the engine serve an array and go through any sequence of reads, writes,
    flushes and restarts from the catalog.  Every read inside the export returns the bytes of the array of that
    moment, and fails only when a store does not answer; a write that succeeds replaces exactly its bytes, and
    one that fails half way leaves every byte of the export old or new; requests outside the
    export are refused and change nothing; restarts always succeed and keep the array; and nothing panics. *)
Theorem simple_refines_array {S B : Type} `{!TreeRecordStore S} `{!TreeView S} `{!TreeRecordStoreLaws S} `{!TreePublisher S} `{!TreePublisherLaws S}
    `{!BlobStore B} `{!BlobStoreLaws B} `{!MutableBlobStore B} `{!MutableBlobStoreLaws B}
    draw_keys draw_temp draw_ids id size d events e (w : SimpleWorld S B) a :
  simple_supply draw_keys draw_temp draw_ids id → d_id (descriptor d) = id → se_size_bytes e = size →
  Forall event_typed events → simple_serves draw_keys id size w a →
  simulates draw_keys draw_temp draw_ids id size d events e w a.
Proof. intros. by apply simple_run_spec. Qed.

(** Admission keeps the chunks of writes apart.  A write to this engine reads and replaces whole
    chunks, so it is admitted on the whole chunks around it: when the admission operations of a write and of
    another request inside the export do not conflict, no chunk is touched by both, whatever the
    offsets, also in the last chunk, which the end of the export may cut. *)
Theorem simple_admission_separates e offset data request op op' i :
  is_u64 (se_size_bytes e) → request_typed (ReqWrite offset data) → request_typed request →
  request_inside (se_size_bytes e) request →
  simple_operation_for e (ReqWrite offset data) = Ok op → simple_operation_for e request = Ok op' → conflicts op op' = false →
  touches (ReqWrite offset data) i → ¬ touches request i.
Proof.
  intros Hu [? _] Hty Hin Hop Hop' Hc (p & Hp & Hpi). cbn [simple_operation_for] in Hop. inv_ok.
  apply usize_try_from_Some in Hx as [_ ->].
  destruct (chunk_aligned_write_spec e offset (zlen data) _ Hu ltac:(done) (zlen_nonneg data) Hx0) as (_ & Hr & Hcover).
  destruct request as [o n|o bs|]; cbn [touches]; [| |by intros []]; intros (q & Hq & Hqi); cbn in Hin, Hty, Hop'.
  - injection Hop' as <-. cbn in Hc. destruct Hty as [[? _] ?].
    assert (Hr' : range_ok (mkRange o n)) by (split_and!; cbn; [lia|done|destruct Hu; lia]).
    apply (overlaps_false _ _ Hr Hr' Hc q); [|done].
    apply (Hcover p); [done|congruence|lia].
  - clear Hx0. inv_ok. apply usize_try_from_Some in Hx as [_ ->]. cbn in Hc.
    destruct (chunk_aligned_write_spec e o (zlen bs) _ Hu ltac:(apply Hty) (zlen_nonneg bs) Hx0) as (_ & Hr' & Hcover').
    destruct Hty as [? _]. apply (overlaps_false _ _ Hr Hr' Hc q).
    + apply (Hcover p); [done|congruence|lia].
    + apply (Hcover' q); [done|done|lia].
Qed.

(** A fresh export on the SQLite catalog and the local blobs. *)
#[local] Instance simple_publisher : TreePublisher SqliteDb := sqlite_publisher (Some 3%N).

Definition simple_draw_keys (n k : nat) : BlobKey := sample_id n.
Definition simple_draw_temp (n : nat) : BlobKey := sample_id n.
Definition simple_draw_ids (n k : nat) : string := sample_id (encode_nat (n, k)).
Definition simple_descriptor : ActiveExportDescriptor :=
  mkActiveDescriptor (mkDescriptor "id-1" "disk" 512 SimpleDurable Active "t" "t" None).
Definition simple_export : SimpleDurableEngine := mkSimpleEngine "disk" 4096 512.
Definition simple_world : SimpleWorld SqliteDb Fs :=
  mkSimpleWorld (mkSimpleTree "id-1" 4096 None Bounded32V1 ∅)
    (run_ops [OpCreate "id-1" (Some 1%N) (mkCreateExport "disk" 4096 512 SimpleDurable)] (mkDatabase Tables_empty [])) (mkFs ∅ []) 0.

Lemma sample_id_component k : single_component (sample_id k) = true.
Proof.
  unfold single_component. apply andb_true_iff. split; apply negb_true_iff, bool_decide_eq_false.
  - destruct k as [|[|[|k]]]; cbn; rewrite !elem_of_cons, elem_of_nil; naive_solver.
  - intros Hin. induction k as [|k IH]; cbn in Hin; apply elem_of_cons in Hin as [?|Hin]; [done|by apply not_elem_of_nil in Hin|done|auto].
Qed.

Lemma sample_simple_supply : simple_supply simple_draw_keys simple_draw_temp simple_draw_ids "id-1".
Proof.
  split.
  - intros n k. apply sample_key_valid.
  - intros n k. apply sample_id_component.
  - intros n m j k Heq. by apply sample_id_inj in Heq.
  - intros n m k Heq. destruct m; done.
  - intros n k. apply sample_id_valid.
  - intros n j k Heq%sample_id_inj%(inj encode_nat). by injection Heq.
  - done.
Qed.

Lemma simple_world_serves : simple_serves simple_draw_keys "id-1" 4096 simple_world (λ _, x00).
Proof.
  exists ∅. split.
  - exists one_chunk_geometry. split; try done.
    + eexists. split; [reflexivity|]. by vm_compute.
    + apply run_ops_ok, tables_empty_ok.
  - split; try done.
Qed.

(** A write, a restart and a read of the bytes that were written. *)
Lemma simple_refines_array_witness :
  simulates simple_draw_keys simple_draw_temp simple_draw_ids "id-1" 4096 simple_descriptor
    [EvRequest (ReqWrite 100 (le_bytes 4 258)); EvRestart; EvRequest (ReqRead 100 4)] simple_export simple_world (λ _, x00).
Proof.
  apply simple_refines_array; [exact sample_simple_supply|reflexivity|reflexivity| |exact simple_world_serves].
  repeat constructor; by_compute.
Defined.

(** A write of the last byte of the first chunk and a read of the second, in an export of 40 MiB. *)
Lemma simple_admission_separates_witness :
  let e := mkSimpleEngine "disk" 41943040 512 in
  ¬ touches (ReqRead 33554432 8) 0.
Proof.
  intros e Ht. apply (simple_admission_separates e 33554431 [x00] (ReqRead 33554432 8)
    (AWrite (mkRange 0 33554432)) (ARead (mkRange 33554432 8)) 0); [by_compute|by_compute|by_compute|by_compute|reflexivity|reflexivity|reflexivity| |exact Ht].
  exists 33554431. split; [by_compute|reflexivity].
Defined.
