(* ===== verification/Runtime.v ===== *)
(** * The export runtime

    [export/runtime.rs], with the jobs of [export/completion.rs] and the contexts of [export/request.rs]: a
    runtime gives out queue slots, accepts jobs, runs them on the engine under the admission
    controller, one at a time or concurrently, and closes the engine when the last accepted job
    has finished.

    The tasks of a runtime are a step relation: reservations, submissions, the worker or the spawned tasks,
    replies that are dropped, and any number of calls of [close].  A region under the lock of the
    lifecycle is one step, and so is a request on the engine.  The semaphore, the notifier, the cell
    and the channel of tokio are modelled as documented: a [Notified] is woken by any [notify_waiters]
    after its creation, [get_or_init] runs its future once, a closed semaphore or a channel without its
    receiver fails. *)

From S2P Require Import Prelude ControlPlane Server Admission Export Memory.

#[local] Open Scope string_scope.
#[local] Open Scope list_scope.
#[local] Open Scope Z_scope.

(** ** Jobs *)

Record ExportJobContext := mkJobContext {
  jc_connection_id : Z;
  jc_request_sequence : Z;
  jc_cookie : Z;
  jc_command : string;
  jc_offset : option Z;
  jc_length : option Z;
  jc_reply_kind : string;
}.

Definition ExportJobContext_internal (cookie : Z) (command : string) : ExportJobContext :=
  mkJobContext 0 0 cookie command None None "internal".

(** The completion and the queue slot of a job are its place in the world below. *)
Record ExportJob := mkJob { job_context : ExportJobContext; job_request : ExportRequest }.

Definition ExportJob_new (request : ExportRequest) : ExportJob :=
  mkJob (ExportJobContext_internal 0 (command_name request)) request.

(** ** The lifecycle *)

Inductive RuntimeKind : Type := Serial | Concurrent.

#[export] Instance RuntimeKind_eq_dec : EqDecision RuntimeKind.
Proof. solve_decision. Defined.

Definition runtime_resource (kind : RuntimeKind) : string :=
  match kind with Serial => "serial export runtime" | Concurrent => "concurrent export runtime" end.
Definition lifecycle_resource (kind : RuntimeKind) : string :=
  match kind with Serial => "serial export runtime lifecycle" | Concurrent => "concurrent export runtime lifecycle" end.

(** [SerialRuntimeState] and [ConcurrentRuntimeState]. *)
Record RuntimeState := mkRuntimeState { rs_closed : bool; rs_active_jobs : Z }.

(** The mutex, and the number of calls of [notify_waiters] so far. *)
Record Lifecycle := mkLifecycle { lc_poisoned : bool; lc_state : RuntimeState; lc_notified : nat }.

Definition Lifecycle_new : Lifecycle := mkLifecycle false (mkRuntimeState false 0) 0.

Section lifecycle.
Context (kind : RuntimeKind).

Definition lifecycle_state (lc : Lifecycle) : SResult RuntimeState :=
  if lc_poisoned lc then Err (LockPoisoned (lifecycle_resource kind)) else Ok (lc_state lc).

Definition ensure_open (lc : Lifecycle) : SResult unit :=
  let? state := lifecycle_state lc in
  if rs_closed state then Err (RuntimeClosed (runtime_resource kind)) else Ok tt.

Definition begin_submit (lc : Lifecycle) : SResult Lifecycle :=
  let? state := lifecycle_state lc in
  if rs_closed state then Err (RuntimeClosed (runtime_resource kind))
  else Ok (mkLifecycle false (mkRuntimeState false (u64_add (rs_active_jobs state) 1)) (lc_notified lc)).

(** [notify_waiters] when nothing is active. *)
Definition notify_empty (state : RuntimeState) (notified : nat) : nat :=
  if rs_active_jobs state =? 0 then S notified else notified.

(** A count of zero panics with the lock held; a poisoned lock is left alone. *)
Definition finish_job (lc : Lifecycle) : SResult Lifecycle :=
  if lc_poisoned lc then Ok lc
  else
    let? active := or_panic (u64_checked_sub (rs_active_jobs (lc_state lc)) 1) in
    let state := mkRuntimeState (rs_closed (lc_state lc)) active in
    Ok (mkLifecycle false state (notify_empty state (lc_notified lc))).

Definition lifecycle_close (lc : Lifecycle) : SResult Lifecycle :=
  let? state := lifecycle_state lc in
  let state := mkRuntimeState true (rs_active_jobs state) in
  Ok (mkLifecycle false state (notify_empty state (lc_notified lc))).

(** The check of a round of [wait_empty]. *)
Definition is_drained (lc : Lifecycle) : SResult bool :=
  let? state := lifecycle_state lc in Ok (rs_active_jobs state =? 0).
End lifecycle.

(** ** The tasks *)

(** Where a request stands, from [reserve] to the drop of its reply.  [JDone active slot]: completed, perhaps
    not yet counted off, perhaps with a reply that still has the slot; [JLost]: dropped by a worker that
    died, and never counted off. *)
Inductive JobPhase : Type :=
| JReserving
| JAcquired
| JReserved
| JSubmitted (job : ExportJob)
| JQueued (job : ExportJob)
| JStarting (job : ExportJob)
| JRegistered (job : ExportJob) (ticket : Z)
| JAdmitted (job : ExportJob) (ticket : Z)
| JResult (job : ExportJob) (result : SResult ExportReply)
| JDone (active slot : bool)
| JLost.

(** Counted in [active_jobs]. *)
Definition phase_active (p : JobPhase) : bool :=
  match p with
  | JReserving | JAcquired | JReserved => false
  | JDone active _ => active
  | _ => true
  end.

(** Holds a permit of the queue. *)
Definition phase_slot (p : JobPhase) : bool :=
  match p with
  | JReserving | JLost => false
  | JDone _ slot => slot
  | _ => true
  end.

Inductive Worker : Type := WorkerIdle | WorkerBusy (i : nat) | WorkerDead.

#[export] Instance Worker_eq_dec : EqDecision Worker.
Proof. solve_decision. Defined.

(** A call of [close]: the lifecycle is closed; the semaphore too; it has its [Notified]; it awaits it; nothing
    is active any more; it has returned. *)
Inductive CloserPhase : Type :=
| CClosed
| CDraining
| CListening (since : nat)
| CWaiting (since : nat)
| CDrained
| CReturned (result : SResult unit).

Record RuntimeWorld (St : Type) := mkRuntime {
  rw_lifecycle : Lifecycle;
  rw_free : nat;
  rw_queue_closed : bool;
  rw_admission : AdmissionWorld;
  rw_engine : St;
  rw_close_result : option (SResult unit);
  rw_jobs : gmap nat JobPhase;
  rw_channel : list nat;
  rw_worker : Worker;
  rw_closers : gmap nat CloserPhase;
}.
Arguments mkRuntime {St} _ _ _ _ _ _ _ _ _ _.
Arguments rw_lifecycle {St} _.
Arguments rw_free {St} _.
Arguments rw_queue_closed {St} _.
Arguments rw_admission {St} _.
Arguments rw_engine {St} _.
Arguments rw_close_result {St} _.
Arguments rw_jobs {St} _.
Arguments rw_channel {St} _.
Arguments rw_worker {St} _.
Arguments rw_closers {St} _.

(** [with_capacity]. *)
Definition ExportRuntime_new {St} (size_bytes : Z) (capacity : nat) (engine : St) : RuntimeWorld St :=
  mkRuntime Lifecycle_new capacity false (AdmissionWorld_new size_bytes) engine None ∅ [] WorkerIdle ∅.

(** What the others see: an answer handed to the connection, and the result of a [close]. *)
Inductive RuntimeEvent : Type :=
| EvAnswer (job : ExportJob) (result : SResult ExportReply)
| EvClosed (result : SResult unit).

Section runtime.
Context {St : Type} (kind : RuntimeKind) (engine : ExportEngine St) (capacity : nat).
Implicit Types w : RuntimeWorld St.

Definition set_job (i : nat) (p : JobPhase) w : RuntimeWorld St :=
  mkRuntime (rw_lifecycle w) (rw_free w) (rw_queue_closed w) (rw_admission w) (rw_engine w) (rw_close_result w)
    (<[i := p]> (rw_jobs w)) (rw_channel w) (rw_worker w) (rw_closers w).
Definition drop_job (i : nat) w : RuntimeWorld St :=
  mkRuntime (rw_lifecycle w) (rw_free w) (rw_queue_closed w) (rw_admission w) (rw_engine w) (rw_close_result w)
    (delete i (rw_jobs w)) (rw_channel w) (rw_worker w) (rw_closers w).
Definition set_lifecycle (lc : Lifecycle) w : RuntimeWorld St :=
  mkRuntime lc (rw_free w) (rw_queue_closed w) (rw_admission w) (rw_engine w) (rw_close_result w)
    (rw_jobs w) (rw_channel w) (rw_worker w) (rw_closers w).
Definition set_free (free : nat) w : RuntimeWorld St :=
  mkRuntime (rw_lifecycle w) free (rw_queue_closed w) (rw_admission w) (rw_engine w) (rw_close_result w)
    (rw_jobs w) (rw_channel w) (rw_worker w) (rw_closers w).
Definition close_queue w : RuntimeWorld St :=
  mkRuntime (rw_lifecycle w) (rw_free w) true (rw_admission w) (rw_engine w) (rw_close_result w)
    (rw_jobs w) (rw_channel w) (rw_worker w) (rw_closers w).
Definition set_admission (adm : AdmissionWorld) w : RuntimeWorld St :=
  mkRuntime (rw_lifecycle w) (rw_free w) (rw_queue_closed w) adm (rw_engine w) (rw_close_result w)
    (rw_jobs w) (rw_channel w) (rw_worker w) (rw_closers w).
Definition set_engine (s : St) w : RuntimeWorld St :=
  mkRuntime (rw_lifecycle w) (rw_free w) (rw_queue_closed w) (rw_admission w) s (rw_close_result w)
    (rw_jobs w) (rw_channel w) (rw_worker w) (rw_closers w).
Definition set_close_result (r : SResult unit) w : RuntimeWorld St :=
  mkRuntime (rw_lifecycle w) (rw_free w) (rw_queue_closed w) (rw_admission w) (rw_engine w) (Some r)
    (rw_jobs w) (rw_channel w) (rw_worker w) (rw_closers w).
Definition set_channel (channel : list nat) (worker : Worker) w : RuntimeWorld St :=
  mkRuntime (rw_lifecycle w) (rw_free w) (rw_queue_closed w) (rw_admission w) (rw_engine w) (rw_close_result w)
    (rw_jobs w) channel worker (rw_closers w).
Definition set_closer (c : nat) (p : CloserPhase) w : RuntimeWorld St :=
  mkRuntime (rw_lifecycle w) (rw_free w) (rw_queue_closed w) (rw_admission w) (rw_engine w) (rw_close_result w)
    (rw_jobs w) (rw_channel w) (rw_worker w) (<[c := p]> (rw_closers w)).

(** [prepare_admitted_job]: the ticket of the job, or the error of its rejection. *)
Definition prepare_admitted_job (job : ExportJob) (adm : AdmissionWorld) : SResult Z * AdmissionWorld :=
  match operation_for engine (job_request job) with
  | Ok op =>
      match register (world_env adm ∅) op (w_inner adm) with
      | (Ok (ticket, sent), inner) => (Ok ticket, post adm inner sent ∅)
      | (Err e, inner) => (Err e, post adm inner [] ∅)
      | (Panic, inner) => (Panic, post adm inner [] ∅)
      end
  | Err e => (Err e, adm)
  | Panic => (Panic, adm)
  end.

(** [release_admission_permit]: the permit of a request is dropped. *)
Definition release_admission_permit (ticket : Z) (adm : AdmissionWorld) : AdmissionWorld :=
  let '(res, inner) := release (world_env adm ∅) ticket (w_inner adm) in
  post (mkAdmissionWorld (w_inner adm) (w_mailbox adm) (w_held adm ∖ {[ticket]}) (w_closed adm)) inner
    (match res with Ok sent => sent | _ => [] end) ∅.

(** [AdmittedExportRequest] and [OwnedAdmittedExportRequest]: a request with its permit, which is its ticket. *)
Record AdmittedExportRequest := mkAdmitted {
  ar_request : option ExportRequest;
  ar_permit : option Z;
  ar_context : ExportJobContext;
}.

Definition AdmittedExportRequest_new (request : ExportRequest) (permit : Z) (context : ExportJobContext) : AdmittedExportRequest :=
  mkAdmitted (Some request) (Some permit) context.
Definition admitted_request (admitted : AdmittedExportRequest) : SResult ExportRequest := or_panic (ar_request admitted).
(** The owned form, and what is left to drop. *)
Definition into_owned (admitted : AdmittedExportRequest) : AdmittedExportRequest * AdmittedExportRequest :=
  (admitted, mkAdmitted None None (ar_context admitted)).
Definition take_request (owned : AdmittedExportRequest) : SResult ExportRequest * AdmittedExportRequest :=
  (or_panic (ar_request owned), mkAdmitted None (ar_permit owned) (ar_context owned)).
(** [Drop]. *)
Definition drop_admitted (admitted : AdmittedExportRequest) (adm : AdmissionWorld) : AdmissionWorld :=
  match ar_permit admitted with Some permit => release_admission_permit permit adm | None => adm end.

(** An engine that borrows its request, and one that takes the payload out of the owned form, see the request and release the
    permit once, at the end. *)
Lemma permit_released_once request permit context adm :
  let admitted := AdmittedExportRequest_new request permit context in
  let '(owned, left_over) := into_owned admitted in
  let '(taken, owned') := take_request owned in
  admitted_request admitted = Ok request ∧ taken = Ok request ∧
  drop_admitted admitted adm = release_admission_permit permit adm ∧
  drop_admitted owned' (drop_admitted left_over adm) = release_admission_permit permit adm.
Proof. done. Qed.

(** The permit of a job arrives. *)
Definition receive_permit (ticket : Z) (adm : AdmissionWorld) : AdmissionWorld :=
  mkAdmissionWorld (w_inner adm) (w_mailbox adm ∖ {[ticket]}) (w_held adm ∪ {[ticket]}) (w_closed adm).

(** The jobs a dead worker drops with its channel. *)
Definition lose_jobs (lost : list nat) (jobs : gmap nat JobPhase) : gmap nat JobPhase :=
  foldl (λ m i, <[i := JLost]> m) jobs lost.

(** One step of the tasks.  A process has fewer than 2^64 jobs and registrations.  A reservation ends without a
    slot when its future is dropped or the semaphore is closed.  After the guards, each step is what the code does between two points where other
    tasks can run.

    A step is the moment at which a wait is over, and a run may leave it out for as long as the wait lasts.  In particular [rt_complete] is the
    moment at which the completion has handed over its result: a job whose connection has a full reply queue stays in [JResult], holding its
    slot and its count.  A job in [JSubmitted] waits in [sender.send]; the channel has one place for each queue slot, so that there is
    room ([runtime_bounded]), and the relation has no step in which the submitting task is aborted at that point.  It can be, since tokio may suspend a
    task in a send that has room, and then the job stays counted. *)
Inductive rt_step : RuntimeWorld St → option RuntimeEvent → RuntimeWorld St → Prop :=
(* reserve *)
| rt_reserve w i :
    ensure_open kind (rw_lifecycle w) = Ok tt → rw_jobs w !! i = None →
    rt_step w None (set_job i JReserving w)
| rt_reserve_dropped w i :
    rw_jobs w !! i = Some JReserving → rt_step w None (drop_job i w)
| rt_acquire w i free :
    rw_jobs w !! i = Some JReserving → rw_queue_closed w = false → rw_free w = S free →
    rt_step w None (set_job i JAcquired (set_free free w))
| rt_reserved w i :
    rw_jobs w !! i = Some JAcquired → ensure_open kind (rw_lifecycle w) = Ok tt →
    rt_step w None (set_job i JReserved w)
| rt_reserve_refused w i e :
    rw_jobs w !! i = Some JAcquired → ensure_open kind (rw_lifecycle w) = Err e →
    rt_step w None (drop_job i (set_free (S (rw_free w)) w))
| rt_slot_dropped w i :
    rw_jobs w !! i = Some JReserved → rt_step w None (drop_job i (set_free (S (rw_free w)) w))
(* submit *)
| rt_submit w i job lc :
    rw_jobs w !! i = Some JReserved → rs_active_jobs (lc_state (rw_lifecycle w)) < u64_max →
    begin_submit kind (rw_lifecycle w) = Ok lc →
    rt_step w None (set_job i (match kind with Serial => JSubmitted job | Concurrent => JStarting job end) (set_lifecycle lc w))
| rt_submit_refused w i e :
    rw_jobs w !! i = Some JReserved → begin_submit kind (rw_lifecycle w) = Err e →
    rt_step w None (drop_job i (set_free (S (rw_free w)) w))
| rt_send w i job :
    rw_jobs w !! i = Some (JSubmitted job) → rw_worker w ≠ WorkerDead → (length (rw_channel w) < capacity)%nat →
    rt_step w None (set_job i (JQueued job) (set_channel (rw_channel w ++ [i]) (rw_worker w) w))
| rt_send_failed w i job lc :
    rw_jobs w !! i = Some (JSubmitted job) → rw_worker w = WorkerDead → finish_job (rw_lifecycle w) = Ok lc →
    rt_step w None (drop_job i (set_free (S (rw_free w)) (set_lifecycle lc w)))
| rt_receive w i job rest :
    rw_channel w = i :: rest → rw_jobs w !! i = Some (JQueued job) → rw_worker w = WorkerIdle →
    rt_step w None (set_job i (JStarting job) (set_channel rest (WorkerBusy i) w))
(* execute_admitted_job *)
| rt_prepare w i job ticket adm :
    rw_jobs w !! i = Some (JStarting job) → as_next_ticket (ai_state (w_inner (rw_admission w))) < u64_max →
    prepare_admitted_job job (rw_admission w) = (Ok ticket, adm) →
    rt_step w None (set_job i (JRegistered job ticket) (set_admission adm w))
| rt_reject w i job e adm :
    rw_jobs w !! i = Some (JStarting job) → as_next_ticket (ai_state (w_inner (rw_admission w))) < u64_max →
    prepare_admitted_job job (rw_admission w) = (Err e, adm) →
    rt_step w None (set_job i (JResult job (Err e)) (set_admission adm w))
| rt_admit w i job ticket :
    rw_jobs w !! i = Some (JRegistered job ticket) → ticket ∈ w_mailbox (rw_admission w) →
    rt_step w None (set_job i (JAdmitted job ticket) (set_admission (receive_permit ticket (rw_admission w)) w))
| rt_execute w i job ticket result s :
    rw_jobs w !! i = Some (JAdmitted job ticket) → result ≠ Panic →
    execute_admitted engine (job_request job) (rw_engine w) = (result, s) →
    rt_step w None
      (set_job i (JResult job result) (set_engine s (set_admission (release_admission_permit ticket (rw_admission w)) w)))
| rt_complete w i job result :
    rw_jobs w !! i = Some (JResult job result) →
    rt_step w (Some (EvAnswer job result)) (set_job i (JDone true true) w)
| rt_finish w i slot lc :
    rw_jobs w !! i = Some (JDone true slot) → finish_job (rw_lifecycle w) = Ok lc →
    rt_step w None
      (set_job i (JDone false slot) (set_lifecycle lc (set_channel (rw_channel w)
        (match kind with Serial => WorkerIdle | Concurrent => rw_worker w end) w)))
| rt_reply_dropped w i active :
    rw_jobs w !! i = Some (JDone active true) →
    rt_step w None (set_job i (JDone active false) (set_free (S (rw_free w)) w))
(* a panic of the engine unwinds the task *)
| rt_panic_concurrent w i job ticket s lc :
    kind = Concurrent → rw_jobs w !! i = Some (JAdmitted job ticket) →
    execute_admitted engine (job_request job) (rw_engine w) = (Panic, s) → finish_job (rw_lifecycle w) = Ok lc →
    rt_step w None
      (drop_job i (set_free (S (rw_free w)) (set_lifecycle lc (set_engine s
        (set_admission (release_admission_permit ticket (rw_admission w)) w)))))
| rt_panic_serial w i job ticket s :
    kind = Serial → rw_jobs w !! i = Some (JAdmitted job ticket) →
    execute_admitted engine (job_request job) (rw_engine w) = (Panic, s) →
    rt_step w None
      (mkRuntime (rw_lifecycle w) (S (length (rw_channel w) + rw_free w)) (rw_queue_closed w)
         (release_admission_permit ticket (rw_admission w)) s (rw_close_result w)
         (lose_jobs (i :: rw_channel w) (rw_jobs w)) [] WorkerDead (rw_closers w))
(* close *)
| rt_close w c lc :
    rw_closers w !! c = None → lifecycle_close kind (rw_lifecycle w) = Ok lc →
    rt_step w None (set_closer c CClosed (set_lifecycle lc w))
| rt_close_queue w c :
    rw_closers w !! c = Some CClosed → rt_step w None (set_closer c CDraining (close_queue w))
| rt_listen w c :
    rw_closers w !! c = Some CDraining →
    rt_step w None (set_closer c (CListening (lc_notified (rw_lifecycle w))) w)
| rt_check w c since empty :
    rw_closers w !! c = Some (CListening since) → is_drained kind (rw_lifecycle w) = Ok empty →
    rt_step w None (set_closer c (if empty then CDrained else CWaiting since) w)
| rt_wake w c since :
    rw_closers w !! c = Some (CWaiting since) → (since < lc_notified (rw_lifecycle w))%nat →
    rt_step w None (set_closer c CDraining w)
| rt_close_engine w c result s :
    rw_closers w !! c = Some CDrained → rw_close_result w = None → result ≠ Panic →
    engine_close engine (rw_engine w) = (result, s) →
    rt_step w (Some (EvClosed result))
      (set_closer c (CReturned result) (set_close_result result (set_engine s w)))
| rt_close_again w c result :
    rw_closers w !! c = Some CDrained → rw_close_result w = Some result →
    rt_step w (Some (EvClosed result)) (set_closer c (CReturned result) w).

Inductive rt_run (size_bytes : Z) (s0 : St) : list RuntimeEvent → RuntimeWorld St → Prop :=
| rt_run_start : rt_run size_bytes s0 [] (ExportRuntime_new size_bytes capacity s0)
| rt_run_step trace w event w' :
    rt_run size_bytes s0 trace w → rt_step w event w' →
    rt_run size_bytes s0 (trace ++ match event with Some x => [x] | None => [] end) w'.
End runtime.

#[global] Arguments lose_jobs : simpl never.

(** ** The invariant of the lifecycle *)

Section invariant.
Context {St : Type} (kind : RuntimeKind) (engine : ExportEngine St) (capacity : nat).
Implicit Types (w : RuntimeWorld St) (lc : Lifecycle).

Definition lc_active lc : Z := rs_active_jobs (lc_state lc).
Definition lc_closed lc : bool := rs_closed (lc_state lc).

(** What a call of [close] knows at each point. *)
Definition closer_ok w (p : CloserPhase) : Prop :=
  lc_closed (rw_lifecycle w) = true ∧
  match p with
  | CClosed => True
  | CDraining => rw_queue_closed w = true
  | CListening since => rw_queue_closed w = true ∧ (since ≤ lc_notified (rw_lifecycle w))%nat
  | CWaiting since =>
      rw_queue_closed w = true ∧ (since ≤ lc_notified (rw_lifecycle w))%nat ∧
      (since = lc_notified (rw_lifecycle w) → 0 < lc_active (rw_lifecycle w))
  | CDrained => rw_queue_closed w = true ∧ lc_active (rw_lifecycle w) = 0
  | CReturned result => rw_close_result w = Some result
  end.

Record life_inv w : Prop := {
  li_unpoisoned : lc_poisoned (rw_lifecycle w) = false;
  li_active : lc_active (rw_lifecycle w) = Z.of_nat (map_count phase_active (rw_jobs w));
  li_slots : (rw_free w + map_count phase_slot (rw_jobs w) = capacity)%nat;
  li_closers : map_Forall (λ _ p, closer_ok w p) (rw_closers w);
  li_result : ∀ r, rw_close_result w = Some r → lc_closed (rw_lifecycle w) = true ∧ lc_active (rw_lifecycle w) = 0;
}.

Lemma life_inv_new size_bytes s : life_inv (ExportRuntime_new size_bytes capacity s).
Proof. split; cbn; rewrite ?map_count_empty; [done|done|lia|apply map_Forall_empty|done]. Qed.

Lemma begin_submit_Ok lc lc' :
  begin_submit kind lc = Ok lc' → lc_active lc < u64_max → 0 ≤ lc_active lc →
  lc_closed lc = false ∧ lc_poisoned lc' = false ∧ lc_active lc' = lc_active lc + 1 ∧ lc_closed lc' = false ∧ lc_notified lc' = lc_notified lc.
Proof.
  unfold begin_submit, lifecycle_state, lc_active, lc_closed. intros H Hlt H0. destruct (lc_poisoned lc); [done|]. cbn in H.
  destruct (rs_closed (lc_state lc)); [done|]. injection H as <-. cbn. rewrite u64_add_id by lia. done.
Qed.

Lemma finish_job_Ok lc lc' :
  finish_job lc = Ok lc' → lc_poisoned lc = false →
  lc_poisoned lc' = false ∧ lc_active lc' = lc_active lc - 1 ∧ lc_closed lc' = lc_closed lc ∧
  lc_notified lc' = if lc_active lc =? 1 then S (lc_notified lc) else lc_notified lc.
Proof.
  unfold finish_job, lc_active, lc_closed. intros H Hp. rewrite Hp in H.
  apply obind_ok in H as (n & Hn%or_panic_ok & [= <-]). apply u64_checked_sub_Some in Hn as [Hle ->]. cbn.
  split; [done|]. split; [done|]. split; [done|]. unfold notify_empty. cbn.
  destruct (Z.eqb_spec (rs_active_jobs (lc_state lc) - 1) 0), (Z.eqb_spec (rs_active_jobs (lc_state lc)) 1); (done || lia).
Qed.


Lemma lifecycle_close_Ok lc lc' :
  lifecycle_close kind lc = Ok lc' →
  lc_poisoned lc' = false ∧ lc_active lc' = lc_active lc ∧ lc_closed lc' = true ∧
  lc_notified lc' = if lc_active lc =? 0 then S (lc_notified lc) else lc_notified lc.
Proof.
  unfold lifecycle_close, lifecycle_state. destruct (lc_poisoned lc); [done|]. cbn. intros [= <-]. done.
Qed.

(** What a step may do to the calls of [close] that do not move. *)
Record moves w w' : Prop := {
  mv_closed : lc_closed (rw_lifecycle w) = true → lc_closed (rw_lifecycle w') = true;
  mv_queue : rw_queue_closed w = true → rw_queue_closed w' = true;
  mv_notified : (lc_notified (rw_lifecycle w) ≤ lc_notified (rw_lifecycle w'))%nat;
  mv_awake : lc_notified (rw_lifecycle w') = lc_notified (rw_lifecycle w) →
    0 < lc_active (rw_lifecycle w) → 0 < lc_active (rw_lifecycle w');
  mv_drained : lc_closed (rw_lifecycle w) = true → lc_active (rw_lifecycle w) = 0 → lc_active (rw_lifecycle w') = 0;
  mv_result : ∀ r, rw_close_result w = Some r → rw_close_result w' = Some r;
}.

Lemma moves_lifecycle w w' :
  rw_lifecycle w' = rw_lifecycle w → (rw_queue_closed w = true → rw_queue_closed w' = true) →
  (∀ r, rw_close_result w = Some r → rw_close_result w' = Some r) → moves w w'.
Proof. intros H ? ?. split; rewrite ?H; done || lia. Qed.

Lemma closer_ok_moves w w' p : moves w w' → closer_ok w p → closer_ok w' p.
Proof.
  intros [Hc Hq Hn Ha Hd Hr] [Hcl Hp]. split; [auto|]. destruct p as [| |since|since| |r]; cbn in *; [done|auto| | | |auto].
  - destruct Hp. split; [auto|lia].
  - destruct Hp as (? & ? & Hpos). split; [auto|]. split; [lia|]. intros ->. apply Ha; [lia|]. apply Hpos. lia.
  - destruct Hp. split; [auto|]. auto.
Qed.

(** A step that does not touch the calls of [close]. *)
Lemma life_inv_jobs w w' :
  life_inv w → moves w w' → rw_closers w' = rw_closers w → rw_close_result w' = rw_close_result w →
  lc_poisoned (rw_lifecycle w') = false →
  (lc_active (rw_lifecycle w') - lc_active (rw_lifecycle w) =
     Z.of_nat (map_count phase_active (rw_jobs w')) - Z.of_nat (map_count phase_active (rw_jobs w))) →
  (rw_free w' + map_count phase_slot (rw_jobs w') = rw_free w + map_count phase_slot (rw_jobs w))%nat →
  life_inv w'.
Proof.
  intros [Hp Ha Hs Hc Hr] Hm Hcl Hres Hp' Hact Hsl. split; [done|lia|lia| |].
  - rewrite Hcl. intros c p Hcp. apply (closer_ok_moves w); [done|]. by apply (Hc c).
  - intros r Hr'. rewrite Hres in Hr'. destruct (Hr r Hr'). split; [by apply Hm|by apply Hm].
Qed.

Lemma lose_jobs_count f lost : ∀ jobs,
  NoDup lost → (∀ i, i ∈ lost → ∃ p, jobs !! i = Some p ∧ f p = true) →
  (map_count f (lose_jobs lost jobs) + length lost = map_count f jobs + length lost * b2n (f JLost))%nat.
Proof.
  unfold lose_jobs. induction lost as [|i lost IH]; intros jobs Hnd Hin; cbn [foldl length]; [lia|].
  apply NoDup_cons in Hnd as [Hi Hnd]. destruct (Hin i ltac:(by left)) as (p & Hp & Hf).
  pose proof (map_count_update f jobs i p JLost Hp) as Hu. rewrite Hf in Hu. cbn [b2n] in Hu.
  specialize (IH (<[i := JLost]> jobs) Hnd). cbn [Nat.mul] in *.
  enough (map_count f (foldl (λ m i, <[i := JLost]> m) (<[i := JLost]> jobs) lost) + length lost =
    map_count f (<[i := JLost]> jobs) + length lost * b2n (f JLost))%nat by lia.
  apply IH. intros j Hj. destruct (Hin j ltac:(by right)) as (q & Hq & ?). exists q. split; [|done].
  rewrite lookup_insert_ne; [done|]. by intros ->.
Qed.

(** ** The channel and the worker *)

Lemma kind_cases (k : RuntimeKind) : k = Serial ∨ k = Concurrent.
Proof. destruct k; auto. Qed.

Definition phase_queued (p : JobPhase) : bool := match p with JQueued _ => true | _ => false end.

(** In the hands of a worker or a spawned task. *)
Definition phase_running (p : JobPhase) : bool :=
  match p with
  | JStarting _ | JRegistered _ _ | JAdmitted _ _ | JResult _ _ | JDone true _ => true
  | _ => false
  end.

(** Only a serial runtime has these. *)
Definition phase_serial (p : JobPhase) : bool :=
  match p with JSubmitted _ | JQueued _ | JLost => true | _ => false end.

Record channel_inv w : Prop := {
  ch_nodup : NoDup (rw_channel w);
  ch_queued : ∀ i, i ∈ rw_channel w ↔ ∃ p, rw_jobs w !! i = Some p ∧ phase_queued p = true;
  ch_dead : rw_worker w = WorkerDead → rw_channel w = [];
  ch_concurrent : kind = Concurrent → rw_worker w = WorkerIdle ∧ map_Forall (λ _ p, phase_serial p = false) (rw_jobs w);
  ch_worker : kind = Serial → map_Forall (λ i p, phase_running p = true ↔ rw_worker w = WorkerBusy i) (rw_jobs w);
  ch_busy : ∀ i, rw_worker w = WorkerBusy i → is_Some (rw_jobs w !! i);
}.

(** A job that is neither queued nor running before and after. *)
Lemma channel_inv_set w w' i p :
  channel_inv w → rw_channel w' = rw_channel w → rw_worker w' = rw_worker w → rw_jobs w' = <[i := p]> (rw_jobs w) →
  phase_queued p = false → phase_serial p = false →
  match rw_jobs w !! i with
  | Some old => phase_queued old = false ∧ phase_running old = phase_running p
  | None => phase_running p = false
  end → channel_inv w'.
Proof.
  intros [Hnd Hq Hd Hc Hw Hb] Hch Hwo Hj Hpq Hps Hold. split; rewrite ?Hch, ?Hwo, ?Hj; [done| |done| | |].
  - intros j. rewrite Hq. destruct (decide (j = i)) as [->|Hne]; [|by setoid_rewrite lookup_insert_ne; [|done..]].
    rewrite lookup_insert_eq. split; intros (q & Hl & Hqq); [|injection Hl as <-; congruence].
    rewrite Hl in Hold. destruct Hold. congruence.
  - intros Hk. destruct (Hc Hk) as [? Hall]. split; [done|]. by apply map_Forall_insert_2.
  - intros Hk j q [[<- <-]|[Hne Hl]]%lookup_insert_Some; [|by apply (Hw Hk)]. specialize (Hw Hk i).
    destruct (rw_jobs w !! i) as [old|] eqn:Hi.
    + destruct Hold as [_ <-]. by apply Hw.
    + rewrite Hold. split; [done|]. intros Hbusy. destruct (Hb i Hbusy) as [? Hsome]. congruence.
  - intros j Hj'. destruct (decide (j = i)) as [->|Hne]; [by rewrite lookup_insert_eq|]. rewrite lookup_insert_ne by done. auto.
Qed.

Lemma channel_inv_drop w w' i old :
  channel_inv w → rw_channel w' = rw_channel w → rw_worker w' = rw_worker w → rw_jobs w' = delete i (rw_jobs w) →
  rw_jobs w !! i = Some old → phase_queued old = false → (kind = Serial → phase_running old = false) → channel_inv w'.
Proof.
  intros [Hnd Hq Hd Hc Hw Hb] Hch Hwo Hj Hi Hoq Hor. split; rewrite ?Hch, ?Hwo, ?Hj; [done| |done| | |].
  - intros j. rewrite Hq. destruct (decide (j = i)) as [->|Hne]; [|by setoid_rewrite lookup_delete_ne; [|done..]].
    rewrite lookup_delete_eq. split; intros (q & Hl & Hqq); congruence.
  - intros Hk. destruct (Hc Hk) as [? Hall]. split; [done|]. by apply map_Forall_delete.
  - intros Hk. apply map_Forall_delete. auto.
  - intros j Hj'. destruct (decide (j = i)) as [->|Hne]; [|rewrite lookup_delete_ne by done; auto].
    destruct (kind_cases kind) as [Hk|Hk]; [|destruct (Hc Hk); congruence]. apply (Hw Hk i old Hi) in Hj'. rewrite Hor in Hj'; done.
Qed.

Lemma channel_inv_same w w' :
  channel_inv w → rw_channel w' = rw_channel w → rw_worker w' = rw_worker w → rw_jobs w' = rw_jobs w → channel_inv w'.
Proof. intros [Hnd Hq Hd Hc Hw Hb] Hch Hwo Hj. split; rewrite ?Hch, ?Hwo, ?Hj; done. Qed.

Lemma lose_jobs_lookup lost : ∀ jobs i, lose_jobs lost jobs !! i = if decide (i ∈ lost) then Some JLost else jobs !! i.
Proof.
  unfold lose_jobs. induction lost as [|j lost IH]; intros jobs i; cbn [foldl]; [by rewrite decide_False by apply not_elem_of_nil|].
  rewrite IH. destruct (decide (i ∈ lost)); [by rewrite decide_True by (by right)|]. destruct (decide (i = j)) as [->|Hne].
  - rewrite decide_True by (by left). by rewrite lookup_insert_eq.
  - rewrite decide_False by (by intros [?|?]%elem_of_cons). by rewrite lookup_insert_ne.
Qed.

Lemma channel_inv_new size_bytes s : channel_inv (ExportRuntime_new size_bytes capacity s).
Proof.
  split; cbn; try done; [constructor|]. intros i. split; [by intros ?%elem_of_nil|]. intros (p & Hp & _). by rewrite lookup_empty in Hp.
Qed.

Lemma channel_inv_step w event w' : rt_step kind engine capacity w event w' → channel_inv w → channel_inv w'.
Proof.
  intros Hstep Hinv. pose proof Hinv as [Hnd Hq Hd Hc Hw Hb].
  destruct Hstep as [w i _ Hi|w i Hi|w i free Hi|w i Hi|w i e Hi|w i Hi|w i job lc Hi|w i e Hi|w i job Hi Hal Hlen|w i job lc Hi Hdead|w i job rest Hcha Hi Hidle
    |w i job ticket adm Hi|w i job e adm Hi|w i job ticket Hi|w i job ticket result s Hi|w i job result Hi|w i slot lc Hi|w i active Hi
    |w i job ticket s lc Hk Hi|w i job ticket s Hk Hi|w c lc|w c|w c|w c since empty|w c since|w c result s|w c result];
    try (by eapply channel_inv_same);
    try (by eapply (channel_inv_drop w _ i); [done|done|done|done|exact Hi|done|intros; solve [done|congruence]]);
    try (by eapply (channel_inv_set w _ i); [done|done|done|done|done|done|rewrite Hi; by cbn]).
  - (* submit *) destruct (kind_cases kind) as [Hk|Hk]; rewrite Hk.
    + split; cbn; try done; try (intros; congruence).
      * intros j. rewrite Hq. destruct (decide (j = i)) as [->|Hne]; [|by setoid_rewrite lookup_insert_ne; [|done..]].
        rewrite lookup_insert_eq, Hi. naive_solver.
      * intros _ j q [[<- <-]|[Hne Hl]]%lookup_insert_Some; [|by apply (Hw Hk)]. cbn. rewrite <-(Hw Hk i _ Hi). done.
      * intros j Hj. destruct (decide (j = i)) as [->|Hne]; [by rewrite lookup_insert_eq|rewrite lookup_insert_ne by done; auto].
    + destruct (Hc Hk) as [Hidle Hall]. split; cbn; try done; try (intros; congruence).
      * intros j. rewrite Hq. destruct (decide (j = i)) as [->|Hne]; [|by setoid_rewrite lookup_insert_ne; [|done..]].
        rewrite lookup_insert_eq, Hi. naive_solver.
      * intros _. split; [done|]. by apply map_Forall_insert_2.
  - (* send *) assert (kind = Serial) as Hk by (destruct (kind_cases kind) as [Hk|Hk]; [done|]; destruct (Hc Hk) as [_ Hall]; by specialize (Hall i _ Hi)).
    split; cbn; try done; try (intros; congruence).
    + apply NoDup_app. split; [done|]. split; [|apply NoDup_singleton]. intros j Hj ->%list_elem_of_singleton. apply Hq in Hj as (p & Hp & ?). naive_solver.
    + intros j. rewrite elem_of_app, list_elem_of_singleton, Hq. destruct (decide (j = i)) as [->|Hne].
      * rewrite lookup_insert_eq. naive_solver.
      * setoid_rewrite lookup_insert_ne; [|done..]. naive_solver.
    + intros _ j q [[<- <-]|[Hne Hl]]%lookup_insert_Some; [|by apply Hw]. cbn. by rewrite <-(Hw Hk i _ Hi).
    + intros j Hj. destruct (decide (j = i)) as [->|Hne]; [by rewrite lookup_insert_eq|rewrite lookup_insert_ne by done; auto].
  - (* receive *) assert (kind = Serial) as Hk by (destruct (kind_cases kind) as [Hk|Hk]; [done|]; destruct (Hc Hk) as [_ Hall]; by specialize (Hall i _ Hi)).
    rewrite Hcha in Hnd, Hq. apply NoDup_cons in Hnd as [Hni Hnd]. split; cbn; try done; try (intros; congruence).
    + intros j. destruct (decide (j = i)) as [->|Hne]; [rewrite lookup_insert_eq; naive_solver|].
      rewrite lookup_insert_ne by done. rewrite <-Hq, elem_of_cons. naive_solver.
    + intros _ j q [[<- <-]|[Hne Hl]]%lookup_insert_Some; [done|]. rewrite (Hw Hk j q Hl), Hidle. naive_solver.
    + intros j [= <-]. by rewrite lookup_insert_eq.
  - (* finish *) split; cbn; try done; try (intros; congruence).
    + intros j. rewrite Hq. destruct (decide (j = i)) as [->|Hne]; [|by setoid_rewrite lookup_insert_ne; [|done..]].
      rewrite lookup_insert_eq, Hi. naive_solver.
    + by destruct kind.
    + intros Hk. rewrite Hk. destruct (Hc Hk) as [Hidle Hall]. split; [done|]. by apply map_Forall_insert_2.
    + intros Hk. rewrite Hk. intros j q [[<- <-]|[Hne Hl]]%lookup_insert_Some; [done|]. rewrite (Hw Hk j q Hl).
      assert (rw_worker w = WorkerBusy i) as -> by (by apply (Hw Hk i _ Hi)). naive_solver.
    + intros j Hj. destruct (kind_cases kind) as [Hk|Hk]; rewrite Hk in Hj; [done|]. destruct (Hc Hk) as [Hidle _]. congruence.
  - (* serial panic *) assert (Hbusy : rw_worker w = WorkerBusy i) by (by apply (Hw Hk i _ Hi)). split; cbn; try done; try (intros; congruence).
    + constructor.
    + intros j. rewrite lose_jobs_lookup. split; [by intros ?%elem_of_nil|]. intros (p & Hp & Hpq). case_decide as Hin; [naive_solver|].
      exfalso. apply Hin. right. apply Hq. eauto.
    + intros _ j p. rewrite lose_jobs_lookup. case_decide as Hin; [by intros [= <-]|]. intros Hl. rewrite (Hw Hk j p Hl), Hbusy.
      split; [intros [= <-]; destruct Hin; by left|done].
Qed.

(** ** Steps keep the invariant of the lifecycle *)

(** A step on one job that leaves the lifecycle alone. *)
Lemma life_inv_job w w' i old p :
  life_inv w → rw_jobs w !! i = Some old → rw_jobs w' = <[i := p]> (rw_jobs w) → phase_active p = phase_active old →
  (rw_free w' + b2n (phase_slot p) = rw_free w + b2n (phase_slot old))%nat →
  rw_lifecycle w' = rw_lifecycle w → rw_queue_closed w' = rw_queue_closed w → rw_closers w' = rw_closers w →
  rw_close_result w' = rw_close_result w → life_inv w'.
Proof.
  intros Hl Hi Hj Ha Hs Hlc Hq Hc Hr. pose proof (map_count_update phase_active _ i old p Hi). pose proof (map_count_update phase_slot _ i old p Hi).
  apply (life_inv_jobs w); [done| |done|done| | |]; rewrite ?Hlc, ?Hj.
  - apply moves_lifecycle; [done|congruence|congruence].
  - apply Hl.
  - rewrite Ha in *. lia.
  - lia.
Qed.

Lemma life_inv_drop w w' i old :
  life_inv w → rw_jobs w !! i = Some old → rw_jobs w' = delete i (rw_jobs w) → phase_active old = false →
  (rw_free w' = rw_free w + b2n (phase_slot old))%nat →
  rw_lifecycle w' = rw_lifecycle w → rw_queue_closed w' = rw_queue_closed w → rw_closers w' = rw_closers w →
  rw_close_result w' = rw_close_result w → life_inv w'.
Proof.
  intros Hl Hi Hj Ha Hs Hlc Hq Hc Hr. pose proof (map_count_delete phase_active _ i old Hi) as Hca. pose proof (map_count_delete phase_slot _ i old Hi).
  apply (life_inv_jobs w); [done| |done|done| | |]; rewrite ?Hlc, ?Hj.
  - apply moves_lifecycle; [done|congruence|congruence].
  - apply Hl.
  - rewrite Ha in Hca. cbn in Hca. lia.
  - lia.
Qed.

(** A job is counted off. *)
Lemma finish_moves w w' lc :
  life_inv w → finish_job (rw_lifecycle w) = Ok lc → 0 < lc_active (rw_lifecycle w) →
  rw_lifecycle w' = lc → rw_queue_closed w' = rw_queue_closed w → rw_close_result w' = rw_close_result w →
  moves w w' ∧ lc_poisoned lc = false ∧ lc_active lc = lc_active (rw_lifecycle w) - 1.
Proof.
  intros Hl Hf Hpos Hlc Hq Hr. destruct (finish_job_Ok _ _ Hf (li_unpoisoned _ Hl)) as (Hp & Ha & Hc & Hn). split; [|done].
  split; rewrite ?Hlc; [congruence|congruence| | | |congruence]; rewrite ?Hn, ?Ha; destruct (Z.eqb_spec (lc_active (rw_lifecycle w)) 1); lia.
Qed.

Lemma active_positive w i p : life_inv w → rw_jobs w !! i = Some p → phase_active p = true → 0 < lc_active (rw_lifecycle w).
Proof.
  intros Hl Hi Hp. rewrite (li_active _ Hl). pose proof (map_count_delete phase_active _ i p Hi) as Hc. rewrite Hp in Hc. cbn in Hc. lia.
Qed.

(** A step of a call of [close]. *)
Lemma life_inv_closer w w' c p :
  life_inv w → moves w w' → rw_closers w' = <[c := p]> (rw_closers w) → closer_ok w' p →
  rw_jobs w' = rw_jobs w → rw_free w' = rw_free w → lc_poisoned (rw_lifecycle w') = false →
  lc_active (rw_lifecycle w') = lc_active (rw_lifecycle w) →
  (∀ r, rw_close_result w' = Some r → lc_closed (rw_lifecycle w') = true ∧ lc_active (rw_lifecycle w') = 0) → life_inv w'.
Proof.
  intros [Hp Ha Hs Hc Hr] Hm Hcl Hok Hj Hf Hp' Hact Hres. split; [done|congruence|congruence| |done].
  rewrite Hcl. apply map_Forall_insert_2; [done|]. intros c' q Hq. apply (closer_ok_moves w); [done|]. by apply (Hc c').
Qed.

Lemma life_inv_step w event w' :
  rt_step kind engine capacity w event w' → channel_inv w → life_inv w → life_inv w'.
Proof.
  intros Hstep Hch Hl. pose proof Hl as [Hp Ha Hs Hc Hr].
  destruct Hstep as [w i Ho Hi|w i Hi|w i free Hi Hqc Hfree|w i Hi|w i e Hi|w i Hi|w i job lc Hi Hlt Hb|w i e Hi|w i job Hi|w i job lc Hi Hdead Hf|w i job rest Hcha Hi
    |w i job ticket adm Hi|w i job e adm Hi|w i job ticket Hi|w i job ticket result s Hi|w i job result Hi|w i slot lc Hi Hf|w i active Hi
    |w i job ticket s lc Hk Hi He Hf|w i job ticket s Hk Hi He|w c lc Hc0 Hcl|w c Hcc|w c Hcc|w c since empty Hcc Hcheck|w c since Hcc Hlt|w c result s Hcc Hnone|w c result Hcc Hsome];
    try (eapply (life_inv_job w _ i); [exact Hl|exact Hi|reflexivity|reflexivity|cbn; lia|reflexivity..]);
    try (eapply (life_inv_drop w _ i); [exact Hl|exact Hi|reflexivity|reflexivity|cbn; lia|reflexivity..]).
  - (* reserve *) pose proof (map_count_fresh phase_active _ i JReserving Hi) as H1. pose proof (map_count_fresh phase_slot _ i JReserving Hi) as H2. cbn in H1, H2.
    apply (life_inv_jobs w); cbn; [done|by apply moves_lifecycle|done|done|done|lia|lia].
  - (* submit *) destruct (begin_submit_Ok _ _ Hb Hlt ltac:(rewrite Ha; lia)) as (Hopen & Hp' & Ha' & Hc' & Hn').
    set (p := match kind with Serial => _ | Concurrent => _ end).
    assert (phase_active p = true ∧ phase_slot p = true) as [Hpa Hps] by (unfold p; by destruct kind).
    pose proof (map_count_update phase_active _ i _ p Hi) as H1. pose proof (map_count_update phase_slot _ i _ p Hi) as H2. rewrite Hpa in H1. rewrite Hps in H2. cbn in H1, H2.
    apply (life_inv_jobs w); cbn [rw_lifecycle rw_closers rw_close_result rw_jobs rw_free set_job set_lifecycle]; [done| |done|done|done|lia|lia].
    split; cbn [rw_lifecycle rw_queue_closed rw_close_result set_job set_lifecycle]; try done; try lia; congruence.
  - (* a failed send *) pose proof (active_positive w i _ Hl Hi eq_refl) as Hpos.
    match goal with |- life_inv ?x => destruct (finish_moves w x lc Hl Hf Hpos) as (Hm & Hp' & Ha'); [reflexivity..|] end.
    pose proof (map_count_delete phase_active _ i _ Hi) as H1. pose proof (map_count_delete phase_slot _ i _ Hi) as H2. cbn in H1, H2.
    apply (life_inv_jobs w); cbn; [done|done|done|done|done|lia|lia].
  - (* finish *) pose proof (active_positive w i _ Hl Hi eq_refl) as Hpos.
    match goal with |- life_inv ?x => destruct (finish_moves w x lc Hl Hf Hpos) as (Hm & Hp' & Ha'); [reflexivity..|] end.
    pose proof (map_count_update phase_active _ i _ (JDone false slot) Hi) as H1. pose proof (map_count_update phase_slot _ i _ (JDone false slot) Hi) as H2. cbn in H1, H2.
    apply (life_inv_jobs w); cbn; [done|done|done|done|done|lia|lia].
  - (* a panic in a spawned task *) pose proof (active_positive w i _ Hl Hi eq_refl) as Hpos.
    match goal with |- life_inv ?x => destruct (finish_moves w x lc Hl Hf Hpos) as (Hm & Hp' & Ha'); [reflexivity..|] end.
    pose proof (map_count_delete phase_active _ i _ Hi) as H1. pose proof (map_count_delete phase_slot _ i _ Hi) as H2. cbn in H1, H2.
    apply (life_inv_jobs w); cbn; [done|done|done|done|done|lia|lia].
  - (* a panic of the worker *) destruct Hch as [Hnd Hq _ _ _ _].
    assert (Hni : i ∉ rw_channel w) by (intros (p & Hp' & Hpq)%Hq; naive_solver).
    assert (Hlost : ∀ f : JobPhase → bool, f (JAdmitted job ticket) = true → (∀ job, f (JQueued job) = true) →
      (map_count f (lose_jobs (i :: rw_channel w) (rw_jobs w)) + S (length (rw_channel w)) = map_count f (rw_jobs w) + S (length (rw_channel w)) * b2n (f JLost))%nat).
    { intros f Hfa Hfq. apply (lose_jobs_count f (i :: rw_channel w)); [by constructor|]. intros j [->|(p & Hp' & Hpq)%Hq]%elem_of_cons; [eauto|].
      exists p. split; [done|]. destruct p; try done. }
    pose proof (Hlost phase_active eq_refl (λ _, eq_refl)) as H1. pose proof (Hlost phase_slot eq_refl (λ _, eq_refl)) as H2. cbn [b2n phase_active phase_slot] in H1, H2.
    apply (life_inv_jobs w); cbn; [done|by apply moves_lifecycle|done|done|done|lia|lia].
  - (* close *) destruct (lifecycle_close_Ok _ _ Hcl) as (Hp' & Ha' & Hc' & Hn').
    match goal with |- life_inv ?x => assert (Hm : moves w x) end.
    { split; cbn; try done; try (rewrite Hn'; destruct (Z.eqb_spec (lc_active (rw_lifecycle w)) 0)); lia. }
    eapply (life_inv_closer w _ c CClosed); cbn; [done|done|done|by split|done|done|done|done|].
    intros r Hr'. split; [done|]. rewrite Ha'. by apply (Hr r).
  - eapply (life_inv_closer w _ c CDraining); cbn; [done|by apply moves_lifecycle|done| |done..]. split; [apply (Hc c _ Hcc)|done].
  - destruct (Hc c _ Hcc) as [Hcl Hq]. eapply (life_inv_closer w _ c (CListening _)); cbn; [done|by apply moves_lifecycle|done| |done..].
    split; [done|]. split; [done|cbn; lia].
  - destruct (Hc c _ Hcc) as [Hcl [Hq Hle]]. eapply (life_inv_closer w _ c); cbn; [done|by apply moves_lifecycle|reflexivity| |done..].
    unfold is_drained, lifecycle_state in Hcheck. rewrite Hp in Hcheck. cbn in Hcheck. injection Hcheck as <-.
    split; [done|]. fold (lc_active (rw_lifecycle w)). destruct (Z.eqb_spec (lc_active (rw_lifecycle w)) 0) as [H0|H0]; cbn; [done|].
    split; [done|]. split; [done|]. intros _. rewrite Ha in *. lia.
  - destruct (Hc c _ Hcc) as [Hcl [Hq _]]. eapply (life_inv_closer w _ c CDraining); cbn; [done|by apply moves_lifecycle|done|by split|done..].
  - destruct (Hc c _ Hcc) as [Hcl [Hq Hzero]]. eapply (life_inv_closer w _ c (CReturned result)); cbn; [done| |done|by split|done..|].
    + apply moves_lifecycle; cbn; [done|done|]. congruence.
    + intros r [= <-]. done.
  - destruct (Hc c _ Hcc) as [Hcl [Hq Hzero]]. eapply (life_inv_closer w _ c (CReturned result)); cbn; [done|by apply moves_lifecycle|done|by split|done..].
Qed.
End invariant.

(** ** The controller while every receiver lives *)

Section live.
Implicit Types st : AdmissionState.

Definition live_env (env : Env) : Prop := ∀ t, env_closed env t = false ∧ env_send_fails env t = false.

Lemma live_world adm : w_closed adm = ∅ → live_env (world_env adm ∅).
Proof. intros H t. unfold world_env. cbn. rewrite H. split; apply bool_decide_eq_false; set_solver. Qed.

(** Nothing leaves the controller in a promotion. *)
Lemma promote_loop_keeps fuel env : live_env env → ∀ index sent st st' sent',
  promote_loop fuel env index sent st = Ok (st', sent') → entries st ⊆ entries st'.
Proof.
  intros Henv. induction fuel as [|fuel IH]; intros index sent st st' sent'; cbn [promote_loop]; [done|].
  destruct (decide _); [|by intros [= -> _]]. intros H. inv_ok. destruct (negb _); [by eapply IH|].
  apply obind_ok in H as ([v rest] & Hr%or_panic_ok & H). destruct (Henv (wa_ticket v)) as [Hc Hs]. rewrite Hc, Hs in H.
  apply IH in H. etrans; [|exact H]. unfold remove_at in Hr. destruct (as_waiting st !! index) as [v'|] eqn:Hi; [|done]. injection Hr as -> <-.
  intros p. unfold entries. cbn. rewrite <-(take_drop_middle _ _ _ Hi) at 1. rewrite !fmap_app, !elem_of_app. cbn. rewrite elem_of_cons.
  rewrite list_elem_of_singleton. tauto.
Qed.

Lemma promote_exact env st st' sent :
  live_env env → promote env st = Ok (st', sent) → ∀ p, p ∈ entries st' ↔ p ∈ entries st.
Proof.
  intros Henv Hp p. split; [apply (promote_entries env st st' sent Hp)|]. apply (promote_loop_keeps _ _ Henv _ _ _ _ _ Hp).
Qed.

Lemma register_exact_entries adm op ticket sent inner :
  w_closed adm = ∅ → register (world_env adm ∅) op (w_inner adm) = (Ok (ticket, sent), inner) →
  ∀ p, p ∈ entries (ai_state inner) ↔ p ∈ entries (ai_state (w_inner adm)) ∨ p = (ticket, op).
Proof.
  intros Hlive. unfold register, locked. destruct (ai_poisoned (w_inner adm)); [done|].
  destruct (validate _ _); cbn [obind]; [|done|done]. unfold next_ticket.
  match goal with |- context [promote ?env ?st] => destruct (promote env st) as [[st' s]| |] eqn:Hp end; [|done|done].
  intros [= <- <- <-] p. cbn [ai_state]. rewrite (promote_exact _ _ _ _ (live_world adm Hlive) Hp).
  unfold entries, with_waiting. cbn. rewrite fmap_app, app_assoc, elem_of_app. cbn. by rewrite list_elem_of_singleton.
Qed.

Lemma release_exact_entries adm ticket res inner :
  world_ok adm → w_closed adm = ∅ → ticket ∈ w_held adm → release (world_env adm ∅) ticket (w_inner adm) = (res, inner) →
  ∀ p, p ∈ entries (ai_state inner) ↔ p ∈ entries (ai_state (w_inner adm)) ∧ p.1 ≠ ticket.
Proof.
  intros Hw Hlive Hheld Hrel. pose proof (wo_queue _ Hw) as Hq. pose proof (wo_lock _ Hw) as Hl.
  assert (Hact : ticket ∈ ac_ticket <$> as_active (ai_state (w_inner adm))).
  { rewrite <-(elem_of_list_to_set (C := gset Z)), (wo_permits _ Hw). set_solver. }
  unfold release, locked in Hrel. rewrite Hl in Hrel.
  match type of Hrel with context [promote ?env ?st] => destruct (promote env st) as [[st' s]| |] eqn:Hp end.
  2, 3: destruct (promote_ok (world_env adm ∅) (with_active (retain_active ticket (as_active (ai_state (w_inner adm)))) (ai_state (w_inner adm)))) as (? & ? & ? & Hp' & _);
    [eapply queue_ok_sublist; [apply sublist_filter|done|exact Hq]|congruence].
  injection Hrel as <- <-. intros p. cbn [ai_state]. rewrite (promote_exact _ _ _ _ (live_world adm Hlive) Hp).
  unfold entries. cbn. rewrite !elem_of_app, !list_elem_of_fmap. pose proof (q_nodup _ _ _ Hq) as Hnd. apply NoDup_app in Hnd as (_ & Hdis & _). split.
  - intros [(a & -> & [Hne Ha]%list_elem_of_filter)|(v & -> & Hv)]; (split; [eauto|]); [done|].
    cbn. intros <-. apply (Hdis _ Hact). by apply list_elem_of_fmap_2.
  - intros [[(a & -> & Ha)|(v & -> & Hv)] Hne]; [left|right; eauto]. exists a. split; [done|]. by apply list_elem_of_filter.
Qed.
End live.

(** ** Jobs and their tickets *)

Section tickets.
Context {St : Type} (kind : RuntimeKind) (engine : ExportEngine St) (capacity : nat).
Implicit Types (w : RuntimeWorld St) (jobs : gmap nat JobPhase).

Definition phase_ticket (p : JobPhase) : option (ExportJob * Z) :=
  match p with JRegistered job ticket | JAdmitted job ticket => Some (job, ticket) | _ => None end.
Definition phase_permit (p : JobPhase) : option Z :=
  match p with JAdmitted _ ticket => Some ticket | _ => None end.
Definition job_ticket jobs (i : nat) : option (ExportJob * Z) := jobs !! i ≫= phase_ticket.
Definition job_permit jobs (i : nat) : option Z := jobs !! i ≫= phase_permit.

(** Every operation in the controller is the one of a job that waits for its turn or has it. *)
Record ticket_inv w : Prop := {
  ti_ok : world_ok (rw_admission w);
  ti_live : w_closed (rw_admission w) = ∅;
  ti_entries : ∀ t op, (t, op) ∈ entries (ai_state (w_inner (rw_admission w))) ↔
    ∃ i job, job_ticket (rw_jobs w) i = Some (job, t) ∧ operation_for engine (job_request job) = Ok op;
  ti_op : ∀ i job t, job_ticket (rw_jobs w) i = Some (job, t) → ∃ op, operation_for engine (job_request job) = Ok op;
  ti_unique : ∀ i j job job' t, job_ticket (rw_jobs w) i = Some (job, t) → job_ticket (rw_jobs w) j = Some (job', t) → i = j;
  ti_held : ∀ t, t ∈ w_held (rw_admission w) ↔ ∃ i, job_permit (rw_jobs w) i = Some t;
}.

Lemma ticket_inv_new size_bytes s : ticket_inv (ExportRuntime_new size_bytes capacity s).
Proof.
  split; cbn; [apply world_new_ok|done| | | |]; unfold job_ticket, job_permit.
  - intros t op. split; [by intros ?%elem_of_nil|]. intros (i & job & H & _). by rewrite lookup_empty in H.
  - intros i job t H. by rewrite lookup_empty in H.
  - intros i j job job' t H. by rewrite lookup_empty in H.
  - intros t. split; [set_solver|]. intros (i & H). by rewrite lookup_empty in H.
Qed.

(** Steps that move no ticket. *)
Lemma ticket_inv_same w w' :
  ticket_inv w → rw_admission w' = rw_admission w →
  (∀ i, job_ticket (rw_jobs w') i = job_ticket (rw_jobs w) i) → (∀ i, job_permit (rw_jobs w') i = job_permit (rw_jobs w) i) →
  ticket_inv w'.
Proof.
  intros [Hok Hl He Hop Hu Hh] Ha Ht Hp. split; rewrite ?Ha; [done|done| | | |]; try setoid_rewrite Ht; try setoid_rewrite Hp; done.
Qed.

Lemma job_ticket_insert jobs i p j :
  job_ticket (<[i := p]> jobs) j = if decide (j = i) then phase_ticket p else job_ticket jobs j.
Proof. unfold job_ticket. case_decide as H; [subst; by rewrite lookup_insert_eq|by rewrite lookup_insert_ne]. Qed.

Lemma job_permit_insert jobs i p j :
  job_permit (<[i := p]> jobs) j = if decide (j = i) then phase_permit p else job_permit jobs j.
Proof. unfold job_permit. case_decide as H; [subst; by rewrite lookup_insert_eq|by rewrite lookup_insert_ne]. Qed.

Lemma ticket_inv_set w w' i p :
  ticket_inv w → rw_admission w' = rw_admission w → rw_jobs w' = <[i := p]> (rw_jobs w) →
  phase_ticket p = None → job_ticket (rw_jobs w) i = None → ticket_inv w'.
Proof.
  intros Hi Ha Hj Hp Ho. assert (phase_permit p = None) as Hpp by (by destruct p).
  assert (job_permit (rw_jobs w) i = None) as Hop by (unfold job_permit, job_ticket in *; by destruct (rw_jobs w !! i) as [[]|]).
  apply (ticket_inv_same w); [done|done| |]; intros j; rewrite Hj, ?job_ticket_insert, ?job_permit_insert; case_decide; congruence.
Qed.

Lemma ticket_inv_drop w w' i :
  ticket_inv w → rw_admission w' = rw_admission w → rw_jobs w' = delete i (rw_jobs w) → job_ticket (rw_jobs w) i = None → ticket_inv w'.
Proof.
  intros Hi Ha Hj Ho. unfold job_ticket in Ho.
  apply (ticket_inv_same w); [done|done| |]; intros j; rewrite Hj; unfold job_ticket, job_permit;
    (destruct (decide (j = i)) as [->|]; [rewrite lookup_delete_eq|by rewrite lookup_delete_ne]); [done|].
  by destruct (rw_jobs w !! i) as [[]|].
Qed.

Lemma ticket_below w i job t :
  ticket_inv w → job_ticket (rw_jobs w) i = Some (job, t) → t < as_next_ticket (ai_state (w_inner (rw_admission w))).
Proof.
  intros Hi Ht. destruct (ti_op _ Hi _ _ _ Ht) as [op Hop]. apply (entry_ticket _ t op (ti_ok _ Hi)). apply (ti_entries _ Hi). eauto.
Qed.

Lemma ticket_register w w' i job ticket adm :
  ticket_inv w → job_ticket (rw_jobs w) i = None → as_next_ticket (ai_state (w_inner (rw_admission w))) < u64_max →
  prepare_admitted_job engine job (rw_admission w) = (Ok ticket, adm) →
  rw_admission w' = adm → rw_jobs w' = <[i := JRegistered job ticket]> (rw_jobs w) → ticket_inv w'.
Proof.
  intros Hi Hnone Hlt Hprep Ha Hj. pose proof Hi as [Hok Hlive He Hop Hu Hh]. unfold prepare_admitted_job in Hprep.
  destruct (operation_for engine (job_request job)) as [op| |] eqn:Hopj; [|done|done].
  destruct (register (world_env (rw_admission w) ∅) op (w_inner (rw_admission w))) as [[[t sent]| |] inner] eqn:Hreg; [|done|done]. injection Hprep as -> <-.
  pose proof (register_exact_entries _ _ _ _ _ Hlive Hreg) as Hent. destruct (register_entries _ _ _ _ _ _ Hreg) as [Ht _].
  assert (Hperm : ∀ j, job_permit (rw_jobs w') j = job_permit (rw_jobs w) j).
  { intros j. rewrite Hj, job_permit_insert. case_decide as Heq; [|done]. subst j. cbn. unfold job_permit, job_ticket in *. by destruct (rw_jobs w !! i) as [[]|]. }
  split; rewrite ?Ha.
  - apply (world_ok_step (rw_admission w)); [|done]. pose proof (step_register (rw_admission w) ∅ op _ _ Hlt Hreg) as Hs. exact Hs.
  - cbn. rewrite Hlive. set_solver.
  - intros t' op'. cbn [post w_inner]. rewrite Hent, He. rewrite Hj. setoid_rewrite job_ticket_insert. split.
    + intros [(j & job' & Hjt & Hjo)|[= -> ->]].
      * exists j, job'. rewrite decide_False by (intros ->; congruence). done.
      * exists i, job. by rewrite decide_True.
    + intros (j & job' & Hjt & Hjo). case_decide as Heq; [|left; eauto]. right. injection Hjt as <- <-. congruence.
  - intros j job' t'. rewrite Hj, job_ticket_insert. case_decide; [|apply Hop]. intros [= <- <-]. eauto.
  - intros j j' job1 job2 t'. rewrite Hj, !job_ticket_insert. intros H1 H2.
    case_decide as Hd1; case_decide as Hd2; subst; [done| | |by eapply Hu].
    + injection H2 as _ <-. apply (ticket_below w) in H1; [|done]. lia.
    + injection H1 as _ <-. apply (ticket_below w) in H2; [|done]. lia.
  - intros t'. cbn. rewrite Hh. by setoid_rewrite Hperm.
Qed.

Lemma ticket_reject w w' i job e adm :
  ticket_inv w → job_ticket (rw_jobs w) i = None →
  prepare_admitted_job engine job (rw_admission w) = (Err e, adm) → as_next_ticket (ai_state (w_inner (rw_admission w))) < u64_max →
  rw_admission w' = adm → rw_jobs w' = <[i := JResult job (Err e)]> (rw_jobs w) → ticket_inv w'.
Proof.
  intros Hi Hnone Hprep Hlt Ha Hj. pose proof Hi as [Hok Hlive He Hop Hu Hh]. unfold prepare_admitted_job in Hprep.
  destruct (operation_for engine (job_request job)) as [op|e'|]; [|injection Hprep as <- <-; by apply (ticket_inv_set w w' i (JResult job (Err e')))|done].
  destruct (rw_admission w) as [[p st] mb held closed] eqn:Hadm. pose proof (wo_lock _ Hok) as Hl. cbn in Hl, Hlt, Hprep. subst p.
  destruct (validate_cases st op) as [Hv|[e' Hv]].
  - destruct (register_accepts (world_env (mkAdmissionWorld (mkInner false st) mb held closed) ∅) op st) as (? & ? & ? & Hacc & _); [|apply Hok|done|].
    + pose proof (wo_next _ Hok) as Hn. cbn in Hn. lia.
    + rewrite Hacc in Hprep. done.
  - rewrite (register_rejects _ _ _ _ Hv) in Hprep. injection Hprep as <- <-.
    apply (ticket_inv_set w w' i (JResult job (Err e'))); [done| |done|done|done]. rewrite Ha, Hadm. unfold post. cbn. f_equal; set_solver.
Qed.

Lemma ticket_admit w w' i job ticket :
  ticket_inv w → rw_jobs w !! i = Some (JRegistered job ticket) → ticket ∈ w_mailbox (rw_admission w) →
  rw_admission w' = receive_permit ticket (rw_admission w) → rw_jobs w' = <[i := JAdmitted job ticket]> (rw_jobs w) → ticket_inv w'.
Proof.
  intros Hi Hl Hin Ha Hj. pose proof Hi as [Hok Hlive He Hop Hu Hh].
  assert (Htick : ∀ j, job_ticket (rw_jobs w') j = job_ticket (rw_jobs w) j).
  { intros j. rewrite Hj, job_ticket_insert. case_decide as Heq; [|done]. subst j. unfold job_ticket. by rewrite Hl. }
  split; rewrite ?Ha.
  - apply (world_ok_step (rw_admission w)); [|done]. by apply step_wait.
  - done.
  - cbn. setoid_rewrite Htick. done.
  - by setoid_rewrite Htick.
  - by setoid_rewrite Htick.
  - intros t. cbn. rewrite elem_of_union, elem_of_singleton, Hh, Hj. setoid_rewrite job_permit_insert. split.
    + intros [(j & Hjp)| ->]; [|exists i; by rewrite decide_True]. exists j. rewrite decide_False; [done|]. intros ->. unfold job_permit in Hjp. by rewrite Hl in Hjp.
    + intros (j & Hjp). case_decide; [right; by injection Hjp as <-|left; eauto].
Qed.

Lemma ticket_release w w' i job ticket :
  ticket_inv w → rw_jobs w !! i = Some (JAdmitted job ticket) → rw_admission w' = release_admission_permit ticket (rw_admission w) →
  (∀ j, job_ticket (rw_jobs w') j = if decide (j = i) then None else job_ticket (rw_jobs w) j) →
  (∀ j, job_permit (rw_jobs w') j = if decide (j = i) then None else job_permit (rw_jobs w) j) → ticket_inv w'.
Proof.
  intros Hi Hl Ha Ht Hp. pose proof Hi as [Hok Hlive He Hop Hu Hh].
  assert (Hti : job_ticket (rw_jobs w) i = Some (job, ticket)) by (unfold job_ticket; by rewrite Hl).
  assert (Hheld : ticket ∈ w_held (rw_admission w)) by (apply Hh; exists i; unfold job_permit; by rewrite Hl).
  unfold release_admission_permit in Ha. destruct (release (world_env (rw_admission w) ∅) ticket (w_inner (rw_admission w))) as [res inner] eqn:Hrel.
  pose proof (release_exact_entries _ _ _ _ Hok Hlive Hheld Hrel) as Hent.
  assert (Huniq : ∀ j job' t, job_ticket (rw_jobs w) j = Some (job', t) → (j ≠ i ↔ t ≠ ticket)).
  { intros j job' t Hj. split; [intros Hne ->; by apply Hne, (Hu j i job' job ticket)|intros Hne ->; rewrite Hti in Hj; congruence]. }
  split; rewrite ?Ha.
  - apply (world_ok_step (rw_admission w)); [|done]. pose proof (step_release (rw_admission w) ∅ ticket _ _ Hheld Hrel) as Hs. exact Hs.
  - cbn. rewrite Hlive. set_solver.
  - intros t op. cbn [post w_inner]. rewrite Hent, He. cbn. setoid_rewrite Ht. split.
    + intros [(j & job' & Hj & Hjo) Hne]. exists j, job'. rewrite decide_False; [done|]. by apply (Huniq j job' t Hj).
    + intros (j & job' & Hj & Hjo). case_decide as Hd; [done|]. split; [eauto|]. by apply (Huniq j job' t Hj).
  - intros j job' t. rewrite Ht. case_decide; [done|]. apply Hop.
  - intros j j' job1 job2 t. rewrite !Ht. do 2 (case_decide; [done|]). apply Hu.
  - intros t. cbn. rewrite elem_of_difference, elem_of_singleton, Hh. setoid_rewrite Hp. split.
    + intros [(j & Hj) Hne]. exists j. rewrite decide_False; [done|]. intros ->. unfold job_permit in Hj. rewrite Hl in Hj. by injection Hj as <-.
    + intros (j & Hj). case_decide as Hd; [done|]. split; [eauto|]. intros ->. apply Hd.
      unfold job_permit in Hj. destruct (rw_jobs w !! j) as [[]|] eqn:Hlj; try done. injection Hj as ->.
      eapply (Hu j i); [|exact Hti]. unfold job_ticket. rewrite Hlj. reflexivity.
Qed.

Lemma ticket_inv_step w event w' : rt_step kind engine capacity w event w' → channel_inv kind w → ticket_inv w → ticket_inv w'.
Proof.
  intros Hstep Hch Hinv.
  destruct Hstep as [w i Ho Hi|w i Hi|w i free Hi Hqc Hfree|w i Hi|w i e Hi|w i Hi|w i job lc Hi Hlt Hb|w i e Hi|w i job Hi|w i job lc Hi Hdead Hf|w i job rest Hcha Hi
    |w i job ticket adm Hi Hlt Hp|w i job e adm Hi Hlt Hp|w i job ticket Hi Hm|w i job ticket result s Hi|w i job result Hi|w i slot lc Hi Hf|w i active Hi
    |w i job ticket s lc Hk Hi He Hf|w i job ticket s Hk Hi He|w c lc Hc0 Hcl|w c Hcc|w c Hcc|w c since empty Hcc Hcheck|w c since Hcc Hlt|w c result s Hcc Hnone|w c result Hcc Hsome];
    try (by apply (ticket_inv_same w));
    try (assert (job_ticket (rw_jobs w) i = None) by (unfold job_ticket; by rewrite Hi);
         solve [by eapply (ticket_inv_set w _ i)|by eapply (ticket_inv_drop w _ i)
               |by eapply ticket_register|by eapply ticket_reject
               |eapply (ticket_inv_set w _ i); [done|done|reflexivity|by destruct kind|done]]).
  - by eapply ticket_admit.
  - eapply ticket_release; [done|exact Hi|done| |]; intros j; cbn [rw_jobs set_job set_engine set_admission]; by rewrite ?job_ticket_insert, ?job_permit_insert.
  - eapply ticket_release; [done|exact Hi|done| |]; intros j; cbn [rw_jobs drop_job set_free set_lifecycle set_engine set_admission]; unfold job_ticket, job_permit;
      (case_decide as Hd; [subst; by rewrite lookup_delete_eq|by rewrite lookup_delete_ne]).
  - assert (Hq : ∀ j, j ∈ rw_channel w → ∃ job, rw_jobs w !! j = Some (JQueued job)).
    { intros j (p & Hp & Hpq)%(ch_queued _ _ Hch). destruct p; try done. eauto. }
    eapply ticket_release; [done|exact Hi|done| |]; intros j; cbn [rw_jobs]; unfold job_ticket, job_permit; rewrite lose_jobs_lookup;
      (destruct (decide (j = i)) as [->|Hne]; [by rewrite decide_True by (by left)|]);
      (destruct (decide (j ∈ i :: rw_channel w)) as [[?|[? Hl]%Hq]%elem_of_cons|]; [done|by rewrite Hl|done]).
Qed.
End tickets.

(** ** Runs *)

Section runs.
Context {St : Type} (kind : RuntimeKind) (engine : ExportEngine St) (capacity : nat).
Implicit Types (w : RuntimeWorld St) (jobs : gmap nat JobPhase).

Record rt_inv w : Prop := {
  inv_life : life_inv capacity w;
  inv_channel : channel_inv kind w;
  inv_tickets : ticket_inv engine w;
}.

Lemma rt_inv_new size_bytes s : rt_inv (ExportRuntime_new size_bytes capacity s).
Proof. split; [apply life_inv_new|apply channel_inv_new|apply ticket_inv_new]. Qed.

Lemma rt_inv_step w event w' : rt_step kind engine capacity w event w' → rt_inv w → rt_inv w'.
Proof.
  intros Hs [Hl Hc Ht]. split; [by eapply life_inv_step|by eapply channel_inv_step|by eapply ticket_inv_step].
Qed.

Lemma rt_run_inv size_bytes s trace w : rt_run kind engine capacity size_bytes s trace w → rt_inv w.
Proof. induction 1 as [|trace w event w' _ IH Hs]; [apply rt_inv_new|by eapply rt_inv_step]. Qed.

Lemma close_result_step w event w' r :
  rt_step kind engine capacity w event w' → rw_close_result w = Some r → rw_close_result w' = Some r.
Proof. intros Hs Hr. destruct Hs; cbn; congruence. Qed.

Lemma closed_answers size_bytes s trace w r :
  rt_run kind engine capacity size_bytes s trace w → EvClosed r ∈ trace → rw_close_result w = Some r.
Proof.
  induction 1 as [|trace w event w' Hrun IH Hs]; [by intros ?%elem_of_nil|]. intros [Hin|Hin]%elem_of_app; [by eapply close_result_step; eauto|].
  destruct event as [ev|]; [|by apply elem_of_nil in Hin]. apply list_elem_of_singleton in Hin as <-. by inversion Hs; subst; cbn.
Qed.

(** Only an admitted request and the close move the engine. *)
Lemma engine_step w event w' :
  rt_step kind engine capacity w event w' → rw_engine w' = rw_engine w ∨ rw_close_result w = None ∨
    ∃ i job ticket, rw_jobs w !! i = Some (JAdmitted job ticket).
Proof. intros Hs. destruct Hs; cbn; eauto 10. Qed.

Lemma drained_inactive w : life_inv capacity w → lc_active (rw_lifecycle w) = 0 → map_Forall (λ _ p, phase_active p = false) (rw_jobs w).
Proof. intros Hl H0 i p Hi. rewrite (li_active _ _ Hl) in H0. eapply map_count_zero; [|exact Hi]. lia. Qed.

(** ** Progress *)

(** The steps a job has in front of it. *)
Definition rank (p : JobPhase) : nat :=
  match p with
  | JSubmitted _ => 7 | JQueued _ => 6 | JStarting _ => 5 | JRegistered _ _ => 4 | JAdmitted _ _ => 3
  | JResult _ _ => 2 | JDone true _ => 1 | _ => 0
  end.

Definition weight jobs : nat := map_fold (λ _ p n, (rank p + n)%nat) 0%nat jobs.





Definition next_ticket_of w : Z := as_next_ticket (ai_state (w_inner (rw_admission w))).






Section progress.
Context (Hop : ∀ r, operation_for engine r ≠ Panic).
Context (Hexec : kind = Serial → ∀ r s, (execute_admitted engine r s).1 ≠ Panic).





(** The channel has room for every job that is about to enter it. *)
Lemma channel_room w i job :
  life_inv capacity w → channel_inv kind w → rw_jobs w !! i = Some (JSubmitted job) → (length (rw_channel w) < capacity)%nat.
Proof.
  intros Hl Hc Hi. pose proof (li_slots _ _ Hl) as Hs.
  assert (length (rw_channel w) ≤ map_count phase_queued (rw_jobs w))%nat as Hle.
  { unfold map_count. rewrite <-(size_list_to_set (C := gset nat) (rw_channel w) (ch_nodup _ _ Hc)), <-size_dom. apply subseteq_size.
    intros j (p & Hp & Hq)%elem_of_list_to_set%(ch_queued _ _ Hc). apply elem_of_dom. exists p. by apply map_lookup_filter_Some. }
  assert (S (map_count phase_queued (rw_jobs w)) ≤ map_count phase_slot (rw_jobs w))%nat as Hlt; [|lia].
  rewrite (map_count_delete phase_slot _ i _ Hi), (map_count_delete phase_queued _ i _ Hi). cbn.
  enough (map_count phase_queued (delete i (rw_jobs w)) ≤ map_count phase_slot (delete i (rw_jobs w)))%nat by lia.
  apply map_count_le. intros j p _. by destruct p.
Qed.


(** The runtime after some steps. *)
Definition rt_later : RuntimeWorld St → RuntimeWorld St → Prop := rtc (λ w w', ∃ event, rt_step kind engine capacity w event w').



Context (Hclose : ∀ s, (engine_close engine s).1 ≠ Panic).



End progress.


(** A job that a dead worker lost is never counted off. *)
Lemma lost_stays w event w' i : rt_step kind engine capacity w event w' → rw_jobs w !! i = Some JLost → rw_jobs w' !! i = Some JLost.
Proof.
  intros Hs Hi. destruct Hs; cbn; try done;
    try (match goal with |- <[?j := _]> _ !! _ = _ => rewrite lookup_insert_ne by (intros ->; congruence); done end);
    try (match goal with |- delete ?j _ !! _ = _ => rewrite lookup_delete_ne by (intros ->; congruence); done end).
  rewrite lose_jobs_lookup. by case_decide.
Qed.

Lemma lost_later w w' i : rt_later w w' → rw_jobs w !! i = Some JLost → rw_jobs w' !! i = Some JLost.
Proof. induction 1 as [|w w1 w' [ev Hs] _ IH]; [done|]. intros Hi. by eapply IH, lost_stays. Qed.

Lemma dead_lost size_bytes s trace w :
  rt_run kind engine capacity size_bytes s trace w → rw_worker w = WorkerDead → ∃ i, rw_jobs w !! i = Some JLost.
Proof.
  induction 1 as [|trace w event w' Hrun IH Hs]; [done|]. intros Hdead. destruct (decide (rw_worker w = WorkerDead)) as [Hd|Hd].
  - destruct (IH Hd) as [i Hi]. exists i. by eapply lost_stays.
  - destruct Hs; cbn in Hdead; try congruence.
    + destruct kind; congruence.
    + exists i. cbn. rewrite lose_jobs_lookup, decide_True; [done|by left].
Qed.

Lemma later_inv w w' : rt_later w w' → rt_inv w → rt_inv w'.
Proof. induction 1 as [|w w1 w' [ev Hs] _ IH]; [done|]. intros Hi. by eapply IH, rt_inv_step. Qed.
End runs.

(** ** Properties *)

(** C13: closing waits for the jobs and happens once.  In every run of a runtime, whatever calls of [reserve],
    [submit] and [close] overlap and whichever engine calls panic: all calls of [close] that returned gave the same result; once the engine
    is closed, no accepted job is queued, waiting, executing or uncounted, and no later step touches the
    engine or closes it again. *)
Theorem runtime_close_safe {St} kind (engine : ExportEngine St) capacity size_bytes s trace w :
  rt_run kind engine capacity size_bytes s trace w →
  (∀ r, EvClosed r ∈ trace → rw_close_result w = Some r) ∧
  ∀ r, rw_close_result w = Some r →
    map_Forall (λ _ p, phase_active p = false) (rw_jobs w) ∧
    ∀ event w', rt_step kind engine capacity w event w' → rw_engine w' = rw_engine w ∧ rw_close_result w' = Some r.
Proof.
  intros Hrun. pose proof (rt_run_inv _ _ _ _ _ _ _ Hrun) as Hinv. split; [intros r; by eapply closed_answers|]. intros r Hr.
  assert (Hin : map_Forall (λ _ p, phase_active p = false) (rw_jobs w)).
  { eapply drained_inactive; [apply Hinv|]. by apply (li_result _ _ (inv_life _ _ _ _ Hinv) r). }
  split; [done|]. intros event w' Hs. split; [|by eapply close_result_step].
  destruct (engine_step _ _ _ _ _ _ Hs) as [?|[?|(i & job & ticket & Hi)]]; [done|congruence|]. by specialize (Hin i _ Hi).
Qed.


(** The queue depth bounds the work.  In every run the free slots and the requests from the
    reservation to the drop of the reply add up to the capacity, the count of active jobs is the number of
    accepted unfinished jobs, and a serial [submit] always finds room in the channel, so that it never waits. *)
Theorem runtime_bounded {St} kind (engine : ExportEngine St) capacity size_bytes s trace w :
  rt_run kind engine capacity size_bytes s trace w →
  (rw_free w + map_count phase_slot (rw_jobs w) = capacity)%nat ∧
  rs_active_jobs (lc_state (rw_lifecycle w)) = Z.of_nat (map_count phase_active (rw_jobs w)) ∧
  ∀ i job, rw_jobs w !! i = Some (JSubmitted job) → (length (rw_channel w) < capacity)%nat.
Proof.
  intros Hrun. pose proof (rt_run_inv _ _ _ _ _ _ _ Hrun) as [Hl Hc _].
  split; [apply Hl|]. split; [apply Hl|]. intros i job Hi. by eapply channel_room.
Qed.

(** C15: requests reach the engine in an order that respects their conflicts.  In every run, two jobs that have
    their permits do not conflict, a job with its permit conflicts with no job that was registered before it and
    is still waiting, and a serial runtime runs one job at a time. *)
Theorem runtime_respects_conflicts {St} kind (engine : ExportEngine St) capacity size_bytes s trace w i j job job' t t' op op' :
  rt_run kind engine capacity size_bytes s trace w →
  rw_jobs w !! i = Some (JAdmitted job t) → operation_for engine (job_request job) = Ok op →
  job_ticket (rw_jobs w) j = Some (job', t') → operation_for engine (job_request job') = Ok op' → i ≠ j →
  (t' < t ∨ is_Some (job_permit (rw_jobs w) j) → conflicts op' op = false) ∧ kind ≠ Serial.
Proof.
  intros Hrun Hi Hop Hj Hop' Hne. pose proof (rt_run_inv _ _ _ _ _ _ _ Hrun) as [_ Hc Ht]. pose proof (ti_ok _ _ Ht) as Hok.
  assert (Hji : job_ticket (rw_jobs w) i = Some (job, t)) by (unfold job_ticket; by rewrite Hi).
  assert (Htt : t' ≠ t) by (intros ->; by apply Hne, (ti_unique _ _ Ht i j job job' t)).
  assert (Hrun' : ∀ k tk, job_permit (rw_jobs w) k = Some tk → tk ∈ w_held (rw_admission w)) by (intros k tk Hk; apply (ti_held _ _ Ht); eauto).
  assert (Hactive : ∀ k jobk tk opk, job_ticket (rw_jobs w) k = Some (jobk, tk) → job_permit (rw_jobs w) k = Some tk →
    operation_for engine (job_request jobk) = Ok opk → mkActive tk opk ∈ as_active (ai_state (w_inner (rw_admission w)))).
  { intros k jobk tk opk Hk Hpk Hopk. destruct (held_running _ tk Hok (Hrun' k tk Hpk)) as (op0 & Ha & He).
    apply (ti_entries _ _ Ht) in He as (k' & jobk' & Hk' & Hopk'). assert (k' = k) as -> by (by eapply (ti_unique _ _ Ht)).
    rewrite Hk in Hk'. injection Hk' as <-. congruence. }
  assert (Hai : mkActive t op ∈ as_active (ai_state (w_inner (rw_admission w)))).
  { eapply (Hactive i); [done|unfold job_permit; by rewrite Hi|done]. }
  pose proof (wo_queue _ Hok) as Hq. split.
  - intros Hcase. assert (Hent : (t', op') ∈ entries (ai_state (w_inner (rw_admission w)))) by (apply (ti_entries _ _ Ht); eauto).
    unfold entries in Hent. rewrite elem_of_app, !list_elem_of_fmap in Hent. destruct Hent as [([ta oa] & [= -> ->] & Ha)|([ta oa] & [= -> ->] & Ha)].
    + by apply (q_free _ _ _ Hq _ _ Ha Hai).
    + destruct Hcase as [Hlt|[tp Hp]]; [by apply (q_order _ _ _ Hq _ _ Ha Hai)|].
      assert (tp = ta) as ->.
      { unfold job_permit, job_ticket in *. destruct (rw_jobs w !! j) as [[]|]; try done. cbn in *. congruence. }
      pose proof (Hactive j _ _ _ Hj Hp Hop') as Ha'. pose proof (q_nodup _ _ _ Hq) as Hnd. apply NoDup_app in Hnd as (_ & Hdis & _).
      destruct (Hdis ta); [by apply (list_elem_of_fmap_2 ac_ticket _ _ Ha')|by apply (list_elem_of_fmap_2 wa_ticket _ _ Ha)].
  - intros Hk. unfold job_ticket in Hj. destruct (rw_jobs w !! j) as [p|] eqn:Hlj; [|done].
    assert (phase_running p = true) as Hr by (by destruct p). apply (ch_worker _ _ Hc Hk j _ Hlj) in Hr.
    pose proof (proj1 (ch_worker _ _ Hc Hk i _ Hi) eq_refl). congruence.
Qed.

(** C40: after a panic a serial runtime cannot be closed.  When a request panics in the engine, the worker
    of a serial runtime dies and drops its job and the queued ones without counting them off; from
    then on no call of [close] ever returns, neither an earlier one that waits nor a later one. *)
Theorem serial_panic_blocks_close {St} (engine : ExportEngine St) capacity size_bytes s trace w w' c r :
  rt_run Serial engine capacity size_bytes s trace w → rw_worker w = WorkerDead →
  rt_later Serial engine capacity w w' → rw_closers w' !! c = Some (CReturned r) → False.
Proof.
  intros Hrun Hdead Hl Hc. assert (∃ i, rw_jobs w !! i = Some JLost) as [i Hi] by (by eapply dead_lost).
  pose proof (later_inv _ _ _ _ _ Hl (rt_run_inv _ _ _ _ _ _ _ Hrun)) as Hinv. pose proof (inv_life _ _ _ _ Hinv) as Hli.
  pose proof (lost_later _ _ _ _ _ _ Hl Hi) as Hi'. destruct (li_closers _ _ Hli c _ Hc) as [_ Hres].
  destruct (li_result _ _ Hli r Hres) as [_ H0]. by specialize (drained_inactive _ _ Hli H0 i JLost Hi').
Qed.

(** Sample runs on the memory engine and on an engine that panics. *)
Abbreviation sample_runtime := (memory_engine sample_engine) (only parsing).
Definition sample_job (offset : Z) : ExportJob := ExportJob_new (ReqWrite offset (le_bytes 1 7)).

Definition panicking_engine : ExportEngine unit :=
  mkExportEngine _ (λ _, Ok AFlush) (λ _ s, (Panic, s)) (mret tt).

Lemma run_none {St} kind (engine : ExportEngine St) capacity size_bytes s trace w w' :
  rt_run kind engine capacity size_bytes s trace w → rt_step kind engine capacity w None w' →
  rt_run kind engine capacity size_bytes s trace w'.
Proof. intros Hr Hs. rewrite <-(app_nil_r trace). exact (rt_run_step _ _ _ _ _ _ _ _ _ Hr Hs). Qed.

(** One more step of a run; the guards are computed, and so is the new world. *)
Ltac compute_world H :=
  match type of H with
  | rt_run ?k ?e ?c ?z ?s ?t ?w =>
      let w' := eval vm_compute in w in
      let E := fresh in
      assert (w = w') as E by (vm_compute; reflexivity);
      apply (eq_ind w (rt_run k e c z s t) H) in E; clear H; rename E into H
  end.
Tactic Notation "run_on" hyp(H) "with" tactic(tac) :=
  match type of H with
  | rt_run ?k ?e ?c ?z ?s ?t ?w =>
      let H' := fresh in
      eassert (rt_run k e c z s t _) as H' by (eapply (run_none k e c z s t w _ H); tac; reflexivity);
      clear H; rename H' into H; compute_world H
  end.

(** A call of [close] on an idle runtime. *)
Lemma runtime_close_safe_witness :
  ∃ w, rt_run Concurrent sample_runtime 2 8 (zeros 8) [EvClosed (Ok tt)] w ∧ rw_close_result w = Some (Ok tt).
Proof.
  pose proof (rt_run_start Concurrent sample_runtime 2 8 (zeros 8)) as H.
  run_on H with (eapply (rt_close _ _ _ _ 0%nat _)).
  run_on H with (eapply (rt_close_queue _ _ _ _ 0%nat)).
  run_on H with (eapply (rt_listen _ _ _ _ 0%nat)).
  run_on H with (eapply (rt_check _ _ _ _ 0%nat _ true)).
  eassert (rt_run Concurrent sample_runtime 2 8 (zeros 8) [EvClosed (Ok tt)] _) as H5.
  { eapply (rt_run_step _ _ _ _ _ [] _ (Some (EvClosed (Ok tt))) _ H).
    eapply (rt_close_engine _ _ _ _ 0%nat); [reflexivity|reflexivity|done|reflexivity]. }
  eexists. split; [exact H5|]. apply (runtime_close_safe _ _ _ _ _ _ _ H5). by left.
Defined.

(** A job is accepted, and then the runtime is closed. *)
Lemma accepted_run :
  ∃ w, rt_run Concurrent sample_runtime 2 8 (zeros 8) [] w ∧ rw_closers w !! 0%nat = Some CClosed ∧
    rw_jobs w !! 0%nat = Some (JStarting (sample_job 0)) ∧ rw_free w = 1%nat ∧ next_ticket_of w = 0 ∧ weight (rw_jobs w) = 5%nat.
Proof.
  pose proof (rt_run_start Concurrent sample_runtime 2 8 (zeros 8)) as H.
  run_on H with (eapply (rt_reserve _ _ _ _ 0%nat)).
  run_on H with (eapply (rt_acquire _ _ _ _ 0%nat 1%nat)).
  run_on H with (eapply (rt_reserved _ _ _ _ 0%nat)).
  run_on H with (eapply (rt_submit _ _ _ _ 0%nat (sample_job 0) _)).
  run_on H with (eapply (rt_close _ _ _ _ 0%nat _)).
  eexists. split; [exact H|]. by repeat split.
Qed.


Lemma runtime_bounded_witness :
  ∃ w, rt_run Concurrent sample_runtime 2 8 (zeros 8) [] w ∧ rw_free w = 1%nat ∧ (1 + map_count phase_slot (rw_jobs w) = 2)%nat.
Proof.
  destruct accepted_run as (w & Hrun & _ & _ & Hf & _). exists w. split; [exact Hrun|]. split; [exact Hf|].
  destruct (runtime_bounded _ _ _ _ _ _ _ Hrun) as [Hb _]. by rewrite Hf in Hb.
Defined.

(** Two writes of different bytes, the later one with its permit. *)
Lemma two_jobs_run :
  ∃ w, rt_run Concurrent sample_runtime 2 8 (zeros 8) [] w ∧
    rw_jobs w !! 1%nat = Some (JAdmitted (sample_job 4) 1) ∧ job_ticket (rw_jobs w) 0 = Some (sample_job 0, 0).
Proof.
  pose proof (rt_run_start Concurrent sample_runtime 2 8 (zeros 8)) as H.
  run_on H with (eapply (rt_reserve _ _ _ _ 0%nat)).
  run_on H with (eapply (rt_acquire _ _ _ _ 0%nat 1%nat)).
  run_on H with (eapply (rt_reserved _ _ _ _ 0%nat)).
  run_on H with (eapply (rt_submit _ _ _ _ 0%nat (sample_job 0) _)).
  run_on H with (eapply (rt_prepare _ _ _ _ 0%nat (sample_job 0) _)).
  run_on H with (eapply (rt_reserve _ _ _ _ 1%nat)).
  run_on H with (eapply (rt_acquire _ _ _ _ 1%nat 0%nat)).
  run_on H with (eapply (rt_reserved _ _ _ _ 1%nat)).
  run_on H with (eapply (rt_submit _ _ _ _ 1%nat (sample_job 4) _)).
  run_on H with (eapply (rt_prepare _ _ _ _ 1%nat (sample_job 4) _)).
  eassert (rt_run Concurrent sample_runtime 2 8 (zeros 8) [] _) as H'.
  { eapply (run_none _ _ _ _ _ _ _ _ H). eapply (rt_admit _ _ _ _ 1%nat); [reflexivity|]. apply (bool_decide_unpack _). vm_compute. exact I. }
  compute_world H'. eexists. split; [exact H'|]. by split.
Qed.

Lemma runtime_respects_conflicts_witness :
  ∃ w, rt_run Concurrent sample_runtime 2 8 (zeros 8) [] w ∧ rw_jobs w !! 1%nat = Some (JAdmitted (sample_job 4) 1) ∧
    conflicts (AWrite (mkRange 0 1)) (AWrite (mkRange 4 1)) = false.
Proof.
  destruct two_jobs_run as (w & Hrun & H1 & H0). exists w. split; [exact Hrun|]. split; [exact H1|].
  apply (runtime_respects_conflicts _ _ _ _ _ _ _ 1 0 (sample_job 4) (sample_job 0) 1 0 (AWrite (mkRange 4 1)) (AWrite (mkRange 0 1)) Hrun);
    [exact H1|reflexivity|exact H0|reflexivity|done|by left].
Defined.

(** The only request of a run panics. *)
Lemma serial_panic_blocks_close_witness :
  ∃ w, rt_run Serial panicking_engine 1 8 tt [] w ∧
    ∀ w' c r, rt_later Serial panicking_engine 1 w w' → ¬ rw_closers w' !! c = Some (CReturned r).
Proof.
  pose proof (rt_run_start Serial panicking_engine 1 8 tt) as H.
  run_on H with (eapply (rt_reserve _ _ _ _ 0%nat)).
  run_on H with (eapply (rt_acquire _ _ _ _ 0%nat 0%nat)).
  run_on H with (eapply (rt_reserved _ _ _ _ 0%nat)).
  run_on H with (eapply (rt_submit _ _ _ _ 0%nat (sample_job 0) _)).
  eassert (rt_run Serial panicking_engine 1 8 tt [] _) as H1.
  { eapply (run_none _ _ _ _ _ _ _ _ H). eapply (rt_send _ _ _ _ 0%nat); [reflexivity|done|]. cbn. lia. }
  compute_world H1. run_on H1 with (eapply (rt_receive _ _ _ _ 0%nat)).
  run_on H1 with (eapply (rt_prepare _ _ _ _ 0%nat (sample_job 0) _)).
  eassert (rt_run Serial panicking_engine 1 8 tt [] _) as H2.
  { eapply (run_none _ _ _ _ _ _ _ _ H1). eapply (rt_admit _ _ _ _ 0%nat); [reflexivity|]. apply (bool_decide_unpack _). vm_compute. exact I. }
  compute_world H2. run_on H2 with (eapply (rt_panic_serial _ _ _ _ 0%nat)).
  eexists. split; [exact H2|]. intros w' c r Hl Hc. by eapply (serial_panic_blocks_close panicking_engine 1 8 tt [] _ w' c r H2).
Defined.

