(* ===== verification/Registry.v ===== *)
(** * The export registry

    [registry/mod.rs] and [registry/active.rs]: which exports are active, who owns them and how many connections
    use them.  The regions under the lock are functions on the map of active exports; opening and closing are two
    regions each with the creation or the close of a runtime between them, where other tasks run.

    A runtime is its number here; creating one (the catalog and the factory) and closing one succeed, fail or are
    dropped at any moment. *)

From S2P Require Import Prelude ControlPlane Server.

#[local] Open Scope string_scope.
#[local] Open Scope list_scope.
#[local] Open Scope Z_scope.

(** [ExportOwner::unique_connection] draws the owners from a counter. *)
Definition ExportOwner : Type := Z.
Definition RuntimeId : Type := nat.

Record ActiveExport := mkActiveExport {
  ae_owner : ExportOwner;
  ae_runtime : RuntimeId;
  ae_connections : Z;
}.

Inductive ActiveExportState : Type :=
| Opening (owner : ExportOwner)
| Open (export : ActiveExport)
| Closing (owner : ExportOwner).

Abbreviation ActiveMap := (gmap ExportName ActiveExportState) (only parsing).

(** ** The regions under the lock *)

(** [open] before the runtime is created: the runtime of an export this owner already has, or nothing when this
    call is to create it. *)
Definition open_begin (name : ExportName) (owner : ExportOwner) (active : ActiveMap)
    : SResult (option RuntimeId) * ActiveMap :=
  match active !! name with
  | Some (Open export) =>
      if ae_owner export =? owner then
        (Ok (Some (ae_runtime export)),
         <[name := Open (mkActiveExport (ae_owner export) (ae_runtime export) (u64_add (ae_connections export) 1))]> active)
      else (Err (ExportBusy name), active)
  | Some _ => (Err (ExportBusy name), active)
  | None => (Ok None, <[name := Opening owner]> active)
  end.

(** [open] after the runtime was created. *)
Definition open_finish (name : ExportName) (owner : ExportOwner) (runtime : RuntimeId) (active : ActiveMap) : ActiveMap :=
  <[name := Open (mkActiveExport owner runtime 1)]> active.

Definition remove_opening (name : ExportName) (owner : ExportOwner) (active : ActiveMap) : ActiveMap :=
  match active !! name with
  | Some (Opening active_owner) => if active_owner =? owner then delete name active else active
  | _ => active
  end.

(** [close] before the runtime is closed: the runtime to close, if this was its last connection. *)
Definition close_begin (name : ExportName) (owner : ExportOwner) (active : ActiveMap)
    : SResult (option RuntimeId) * ActiveMap :=
  match active !! name with
  | None => (Ok None, active)
  | Some (Open export) =>
      if ae_owner export =? owner then
        let connections := u64_sub (ae_connections export) 1 in
        if 0 <? connections then
          (Ok None, <[name := Open (mkActiveExport (ae_owner export) (ae_runtime export) connections)]> active)
        else (Ok (Some (ae_runtime export)), <[name := Closing owner]> active)
      else (Err (ExportOwnerMismatch name), active)
  | Some (Opening active_owner) | Some (Closing active_owner) =>
      if active_owner =? owner then (Ok None, active) else (Err (ExportOwnerMismatch name), active)
  end.

(** [close] after the runtime was closed. *)
Definition close_finish (name : ExportName) (owner : ExportOwner) (active : ActiveMap) : ActiveMap :=
  match active !! name with
  | Some (Closing active_owner) => if active_owner =? owner then delete name active else active
  | _ => active
  end.

(** ** The tasks *)

(** A connection task: it opens an export, has it, or closes it. *)
Inductive Connection : Type :=
| ConnOpening (name : ExportName) (owner : ExportOwner)
| ConnOpen (name : ExportName) (owner : ExportOwner) (runtime : RuntimeId)
| ConnClosing (name : ExportName) (owner : ExportOwner) (runtime : RuntimeId).

#[export] Instance Connection_eq_dec : EqDecision Connection.
Proof. solve_decision. Defined.

(** [rg_live]: the runtimes that were created and not closed, with their export. *)
Record RegistryWorld := mkRegistry {
  rg_active : ActiveMap;
  rg_connections : gmap nat Connection;
  rg_live : gmap RuntimeId ExportName;
}.

Definition LocalExportRegistry_new : RegistryWorld := mkRegistry ∅ ∅ ∅.

(** A step of the task [c] in the registry, with the result of the call that ends in it.  A process has fewer than 2^64
    connections. *)
Inductive rg_call (c : nat) : RegistryWorld → option (SResult unit) → RegistryWorld → Prop :=
| rg_open_refused w name owner e active :
    rg_connections w !! c = None → open_begin name owner (rg_active w) = (Err e, active) →
    rg_call c w (Some (Err e)) (mkRegistry active (rg_connections w) (rg_live w))
| rg_open_shared w name owner runtime active :
    rg_connections w !! c = None →
    (∀ export, rg_active w !! name = Some (Open export) → ae_connections export < u64_max) →
    open_begin name owner (rg_active w) = (Ok (Some runtime), active) →
    rg_call c w (Some (Ok tt)) (mkRegistry active (<[c := ConnOpen name owner runtime]> (rg_connections w)) (rg_live w))
| rg_open_start w name owner active :
    rg_connections w !! c = None → open_begin name owner (rg_active w) = (Ok None, active) →
    rg_call c w None (mkRegistry active (<[c := ConnOpening name owner]> (rg_connections w)) (rg_live w))
| rg_open_done w name owner runtime :
    rg_connections w !! c = Some (ConnOpening name owner) → rg_live w !! runtime = None →
    rg_call c w (Some (Ok tt))
      (mkRegistry (open_finish name owner runtime (rg_active w))
         (<[c := ConnOpen name owner runtime]> (rg_connections w)) (<[runtime := name]> (rg_live w)))
| rg_open_failed w name owner e :
    rg_connections w !! c = Some (ConnOpening name owner) →
    rg_call c w (Some (Err e))
      (mkRegistry (remove_opening name owner (rg_active w)) (delete c (rg_connections w)) (rg_live w))
| rg_close_shared w name owner runtime active :
    rg_connections w !! c = Some (ConnOpen name owner runtime) →
    close_begin name owner (rg_active w) = (Ok None, active) →
    rg_call c w (Some (Ok tt)) (mkRegistry active (delete c (rg_connections w)) (rg_live w))
| rg_close_refused w name owner runtime e active :
    rg_connections w !! c = Some (ConnOpen name owner runtime) →
    close_begin name owner (rg_active w) = (Err e, active) →
    rg_call c w (Some (Err e)) (mkRegistry active (delete c (rg_connections w)) (rg_live w))
| rg_close_start w name owner runtime runtime' active :
    rg_connections w !! c = Some (ConnOpen name owner runtime) →
    close_begin name owner (rg_active w) = (Ok (Some runtime'), active) →
    rg_call c w None (mkRegistry active (<[c := ConnClosing name owner runtime']> (rg_connections w)) (rg_live w))
| rg_close_done w name owner runtime result :
    rg_connections w !! c = Some (ConnClosing name owner runtime) →
    rg_call c w (Some result)
      (mkRegistry (close_finish name owner (rg_active w)) (delete c (rg_connections w)) (delete runtime (rg_live w))).

(** A task that is dropped in a call, whose runtime panics, or that dies without closing leaves its entry behind. *)
Inductive rg_quit (c : nat) : RegistryWorld → RegistryWorld → Prop :=
| rg_quits w conn :
    rg_connections w !! c = Some conn → rg_quit c w (mkRegistry (rg_active w) (delete c (rg_connections w)) (rg_live w)).

Definition rg_step (w : RegistryWorld) (r : option (SResult unit)) (w' : RegistryWorld) : Prop :=
  ∃ c, rg_call c w r w' ∨ (r = None ∧ rg_quit c w w').

Definition rg_reachable : RegistryWorld → Prop := rtc (λ w w', ∃ r, rg_step w r w') LocalExportRegistry_new.

(** ** The invariant *)

Definition conn_name (conn : Connection) : ExportName :=
  match conn with ConnOpening name _ | ConnOpen name _ _ | ConnClosing name _ _ => name end.

(** Uses the runtime of the export. *)
Definition conn_uses (name : ExportName) (conn : Connection) : bool :=
  match conn with ConnOpen name' _ _ => bool_decide (name' = name) | _ => false end.

(** Opens or closes the export. *)
Definition conn_moves (conn : Connection) : bool :=
  match conn with ConnOpen _ _ _ => false | _ => true end.

Definition users (name : ExportName) (conns : gmap nat Connection) : nat := map_count (conn_uses name) conns.

Definition conn_ok (active : ActiveMap) (live : gmap RuntimeId ExportName) (conn : Connection) : Prop :=
  match conn with
  | ConnOpening name owner => active !! name = Some (Opening owner)
  | ConnOpen name owner runtime => ∃ n, active !! name = Some (Open (mkActiveExport owner runtime n))
  | ConnClosing name owner runtime => active !! name = Some (Closing owner) ∧ live !! runtime = Some name
  end.

(** What the entry of an export says of its runtimes and connections. *)
Definition entry_ok (w : RegistryWorld) (name : ExportName) : Prop :=
  match rg_active w !! name with
  | Some (Open export) =>
      rg_live w !! ae_runtime export = Some name ∧ 1 ≤ ae_connections export ≤ u64_max ∧
      Z.of_nat (users name (rg_connections w)) ≤ ae_connections export
  | _ => True
  end.

Definition live_ok (active : ActiveMap) (runtime : RuntimeId) (name : ExportName) : Prop :=
  match active !! name with
  | Some (Open export) => ae_runtime export = runtime
  | Some (Closing _) => True
  | _ => False
  end.

Record rg_inv (w : RegistryWorld) : Prop := {
  rg_conns : map_Forall (λ _ conn, conn_ok (rg_active w) (rg_live w) conn) (rg_connections w);
  rg_movers : ∀ c c' conn conn', rg_connections w !! c = Some conn → rg_connections w !! c' = Some conn' →
    conn_moves conn = true → conn_moves conn' = true → conn_name conn = conn_name conn' → c = c';
  rg_entries : ∀ name, entry_ok w name;
  rg_lives : map_Forall (live_ok (rg_active w)) (rg_live w);
  rg_one : ∀ r r' name, rg_live w !! r = Some name → rg_live w !! r' = Some name → r = r';
}.

Section invariant.
Implicit Types (w : RegistryWorld) (name : ExportName) (active : ActiveMap).

Lemma rg_inv_new : rg_inv LocalExportRegistry_new.
Proof.
  split; cbn; [apply map_Forall_empty|intros ???? Hc; by rewrite lookup_empty in Hc|by intros name; unfold entry_ok; cbn; rewrite lookup_empty|apply map_Forall_empty|].
  intros r r' name Hr. by rewrite lookup_empty in Hr.
Qed.

(** The connections of other exports do not see the change of an entry. *)
Lemma conn_ok_other active active' live live' conn name :
  (∀ other, other ≠ name → active' !! other = active !! other) →
  (∀ r other, other ≠ name → live !! r = Some other → live' !! r = Some other) →
  conn_name conn ≠ name → conn_ok active live conn → conn_ok active' live' conn.
Proof.
  intros Ha Hl Hn. destruct conn as [n o|n o r|n o r]; cbn in *; rewrite ?(Ha n) by done; [done|done|]. intros [? ?]. auto.
Qed.

(** A step that touches only the entry of [name], the connection [c] and the runtimes of [name]. *)
Lemma rg_inv_entry w w' name c :
  rg_inv w →
  (∀ other, other ≠ name → rg_active w' !! other = rg_active w !! other) →
  (∀ c', c' ≠ c → rg_connections w' !! c' = rg_connections w !! c') →
  (∀ conn, rg_connections w !! c = Some conn → conn_name conn = name) →
  (∀ conn, rg_connections w' !! c = Some conn → conn_name conn = name) →
  (∀ r other, other ≠ name → rg_live w' !! r = Some other ↔ rg_live w !! r = Some other) →
  (* the entry of the name *)
  (∀ c' conn, rg_connections w' !! c' = Some conn → conn_name conn = name → conn_ok (rg_active w') (rg_live w') conn) →
  (∀ c1 c2 conn1 conn2, rg_connections w' !! c1 = Some conn1 → rg_connections w' !! c2 = Some conn2 →
     conn_moves conn1 = true → conn_moves conn2 = true → conn_name conn1 = name → conn_name conn2 = name → c1 = c2) →
  entry_ok w' name →
  (∀ r, rg_live w' !! r = Some name → live_ok (rg_active w') r name) →
  (∀ r r', rg_live w' !! r = Some name → rg_live w' !! r' = Some name → r = r') →
  rg_inv w'.
Proof.
  intros [Hc Hm He Hl Ho] Ha Hcs Hcn Hcn' Hli Hok Hmn Hen Hln Hon.
  assert (Hsame : ∀ c' conn, rg_connections w' !! c' = Some conn → conn_name conn ≠ name → rg_connections w !! c' = Some conn).
  { intros c' conn Hconn Hne. rewrite <-Hcs; [done|]. intros ->. by apply Hne, Hcn'. }
  split.
  - intros c' conn Hconn. destruct (decide (conn_name conn = name)) as [Heq|Hne]; [by apply (Hok c')|].
    apply (conn_ok_other (rg_active w) _ (rg_live w) _ _ name); [done| |done|by apply (Hc c'), Hsame].
    intros r other Hot Hr. by apply Hli.
  - intros c1 c2 conn1 conn2 H1 H2 Hm1 Hm2 Heq. destruct (decide (conn_name conn1 = name)) as [Hn|Hn].
    + apply (Hmn c1 c2 conn1 conn2); try done. congruence.
    + apply (Hm c1 c2 conn1 conn2); try done; apply Hsame; try done. congruence.
  - intros other. destruct (decide (other = name)) as [->|Hne]; [done|]. specialize (He other). unfold entry_ok in *. rewrite Ha by done.
    destruct (rg_active w !! other) as [[|e|]|]; [done| |done|done]. destruct He as (Hr & Hn & Hu). split; [by apply Hli|]. split; [done|].
    assert (users other (rg_connections w') ≤ users other (rg_connections w))%nat as Hle; [|lia].
    unfold users, map_count. apply map_subseteq_size, map_subseteq_spec. intros c' conn [Hconn Huse]%map_lookup_filter_Some. cbn in Huse.
    apply map_lookup_filter_Some. split; [|done]. apply Hsame; [done|]. destruct conn; try done. cbn in *. apply bool_decide_eq_true in Huse. congruence.
  - intros r other Hr. destruct (decide (other = name)) as [->|Hne]; [by apply Hln|]. unfold live_ok. rewrite Ha by done. apply (Hl r other). by apply Hli.
  - intros r r' other Hr Hr'. destruct (decide (other = name)) as [->|Hne]; [by eapply Hon|]. apply (Ho r r' other); by apply Hli.
Qed.

Lemma users_none name conns : (∀ c conn, conns !! c = Some conn → conn_uses name conn = false) → users name conns = 0%nat.
Proof.
  intros H. unfold users, map_count. apply map_size_empty_iff, map_empty. intros c. apply map_lookup_filter_None. right.
  intros conn Hc. cbn. by rewrite (H c conn Hc).
Qed.

Lemma users_other name conns c c' conn conn' :
  conns !! c = Some conn → conns !! c' = Some conn' → c ≠ c' → conn_uses name conn = true → conn_uses name conn' = true →
  (2 ≤ users name conns)%nat.
Proof.
  intros Hc Hc' Hne Hu Hu'. unfold users. rewrite (map_count_delete _ conns c conn Hc), Hu. cbn.
  pose proof (map_count_pos (conn_uses name) (delete c conns) c' conn' ltac:(by rewrite lookup_delete_ne) Hu'). lia.
Qed.

(** A connection is gone and nothing else changes. *)
Lemma rg_inv_drop w c : rg_inv w → rg_inv (mkRegistry (rg_active w) (delete c (rg_connections w)) (rg_live w)).
Proof.
  intros [Hc Hm He Hl Ho]. split; cbn; [by apply map_Forall_delete| | |done|done].
  - intros c1 c2 conn1 conn2 [_ H1]%lookup_delete_Some [_ H2]%lookup_delete_Some. by apply Hm.
  - intros name. specialize (He name). unfold entry_ok in *. cbn. destruct (rg_active w !! name) as [[|e|]|]; [done| |done|done].
    destruct He as (? & ? & Hu). split; [done|]. split; [done|]. etrans; [|exact Hu]. apply Nat2Z.inj_le. unfold users, map_count.
    apply map_subseteq_size, map_subseteq_spec. intros c' conn [[_ H1]%lookup_delete_Some H2]%map_lookup_filter_Some. by apply map_lookup_filter_Some.
Qed.

(** The connections of an export whose entry is known. *)
Lemma conns_of w name c conn :
  rg_inv w → rg_connections w !! c = Some conn → conn_name conn = name →
  match rg_active w !! name with
  | None => False
  | Some (Opening owner) => conn = ConnOpening name owner
  | Some (Open export) => conn = ConnOpen name (ae_owner export) (ae_runtime export)
  | Some (Closing owner) => ∃ runtime, conn = ConnClosing name owner runtime
  end.
Proof.
  intros Hinv Hc <-. pose proof (rg_conns _ Hinv c conn Hc) as Hok. destruct conn as [n o|n o r|n o r]; cbn in *.
  - by rewrite Hok.
  - destruct Hok as [k ->]. done.
  - destruct Hok as [-> _]. by exists r.
Qed.

Lemma live_of w name runtime :
  rg_inv w → rg_live w !! runtime = Some name →
  match rg_active w !! name with Some (Open export) => ae_runtime export = runtime | Some (Closing _) => True | _ => False end.
Proof. intros Hinv Hl. exact (rg_lives _ Hinv runtime name Hl). Qed.

Lemma rg_inv_step_open w c name owner :
  rg_inv w → rg_connections w !! c = None →
  (∀ export, rg_active w !! name = Some (Open export) → ae_connections export < u64_max) →
  match open_begin name owner (rg_active w) with
  | (Ok (Some runtime), active) => rg_inv (mkRegistry active (<[c := ConnOpen name owner runtime]> (rg_connections w)) (rg_live w))
  | (Ok None, active) => rg_inv (mkRegistry active (<[c := ConnOpening name owner]> (rg_connections w)) (rg_live w))
  | (Err _, active) => active = rg_active w
  | (Panic, _) => False
  end.
Proof.
  intros Hinv Hc Hroom. unfold open_begin. pose proof (λ c' conn H1, conns_of w name c' conn Hinv H1) as Hconns.
  pose proof (λ r, live_of w name r Hinv) as Hlive. pose proof (rg_entries _ Hinv name) as Hentry. unfold entry_ok in Hentry.
  destruct (rg_active w !! name) as [[o|export|o]|] eqn:Ha; [done| |done|].
  - destruct (Z.eqb_spec (ae_owner export) owner) as [<-|]; [|done]. destruct Hentry as (Hl & Hn & Hu).
    specialize (Hroom export eq_refl). rewrite u64_add_id by lia.
    apply (rg_inv_entry w _ name c); cbn; try done.
    + intros other Hne. by rewrite lookup_insert_ne.
    + intros c' Hne. by rewrite lookup_insert_ne.
    + by rewrite Hc.
    + rewrite lookup_insert_eq. by intros conn [= <-].
    + intros c' conn [[<- <-]|[Hne H1]]%lookup_insert_Some Hname; cbn; [rewrite lookup_insert_eq; eauto|].
      rewrite (Hconns c' conn H1 Hname). cbn. rewrite lookup_insert_eq. eauto.
    + intros c1 c2 conn1 conn2 [[<- <-]|[_ H1]]%lookup_insert_Some _ Hm1 _ Hn1 _; [done|]. by rewrite (Hconns c1 conn1 H1 Hn1) in Hm1.
    + unfold entry_ok. cbn. rewrite lookup_insert_eq. cbn. split; [done|]. split; [lia|]. unfold users in *.
      rewrite map_count_fresh by done. cbn. rewrite bool_decide_true by done. cbn. lia.
    + intros r Hr. unfold live_ok. rewrite lookup_insert_eq. cbn. by apply Hlive.
    + intros r r'. apply (rg_one _ Hinv).
  - apply (rg_inv_entry w _ name c); cbn; try done.
    + intros other Hne. by rewrite lookup_insert_ne.
    + intros c' Hne. by rewrite lookup_insert_ne.
    + by rewrite Hc.
    + rewrite lookup_insert_eq. by intros conn [= <-].
    + intros c' conn [[<- <-]|[Hne H1]]%lookup_insert_Some Hname; cbn; [by rewrite lookup_insert_eq|by destruct (Hconns c' conn H1 Hname)].
    + intros c1 c2 conn1 conn2 [[<- <-]|[_ H1]]%lookup_insert_Some [[<- <-]|[_ H2]]%lookup_insert_Some _ _ Hn1 Hn2; [done| | |].
      * by destruct (Hconns c2 conn2 H2 Hn2).
      * by destruct (Hconns c1 conn1 H1 Hn1).
      * by destruct (Hconns c1 conn1 H1 Hn1).
    + unfold entry_ok. cbn. by rewrite lookup_insert_eq.
    + intros r Hr. by destruct (Hlive r Hr).
    + intros r r' Hr. by destruct (Hlive r Hr).
Qed.

Lemma rg_inv_created w c name owner runtime :
  rg_inv w → rg_connections w !! c = Some (ConnOpening name owner) → rg_live w !! runtime = None →
  rg_inv (mkRegistry (open_finish name owner runtime (rg_active w))
    (<[c := ConnOpen name owner runtime]> (rg_connections w)) (<[runtime := name]> (rg_live w))).
Proof.
  intros Hinv Hc Hr. pose proof (rg_conns _ Hinv c _ Hc) as Ha. cbn in Ha.
  pose proof (λ c' conn H1, conns_of w name c' conn Hinv H1) as Hconns. pose proof (λ r, live_of w name r Hinv) as Hlive. rewrite Ha in Hconns, Hlive.
  assert (Honly : ∀ c' conn, rg_connections w !! c' = Some conn → conn_name conn = name → c' = c).
  { intros c' conn H1 Hn. pose proof (Hconns c' conn H1 Hn) as ->. by eapply (rg_movers _ Hinv c' c). }
  unfold open_finish. apply (rg_inv_entry w _ name c); cbn; try done.
  - intros other Hne. by rewrite lookup_insert_ne.
  - intros c' Hne. by rewrite lookup_insert_ne.
  - intros conn H1. rewrite Hc in H1. by injection H1 as <-.
  - rewrite lookup_insert_eq. by intros conn [= <-].
  - intros r other Hne. destruct (decide (r = runtime)) as [->|Hnr]; [|by rewrite lookup_insert_ne].
    rewrite lookup_insert_eq, Hr. split; [|done]. intros [= <-]. done.
  - intros c' conn [[<- <-]|[Hne H1]]%lookup_insert_Some Hname; [cbn; rewrite lookup_insert_eq; eauto|].
    destruct Hne. symmetry. by eapply Honly.
  - intros c1 c2 conn1 conn2 [[<- <-]|[Hne H1]]%lookup_insert_Some _ Hm1 _ Hn1 _; [done|]. destruct Hne. symmetry. by eapply Honly.
  - unfold entry_ok. cbn. rewrite !lookup_insert_eq. cbn. split; [done|]. split; [unfold u64_max; lia|].
    unfold users. pose proof (map_count_update (conn_uses name) _ c _ (ConnOpen name owner runtime) Hc) as Hcount.
    cbn in Hcount. rewrite bool_decide_true in Hcount by done. cbn in Hcount.
    pose proof (users_none name (rg_connections w)) as Hzero. unfold users in Hzero. rewrite Hzero in Hcount; [lia|].
    intros c' conn H1. destruct conn as [| name' |]; try done. cbn. apply bool_decide_eq_false. intros ->. by specialize (Hconns c' _ H1 eq_refl).
  - intros r [[<- _]|[Hne Hl]]%lookup_insert_Some; [unfold live_ok; by rewrite lookup_insert_eq|]. by destruct (Hlive r Hl).
  - intros r r' [[<- _]|[Hne Hl]]%lookup_insert_Some; [|by destruct (Hlive r Hl)].
    intros [[<- _]|[Hne' Hl']]%lookup_insert_Some; [done|]. by destruct (Hlive r' Hl').
Qed.

(** The entry of an export that nothing uses goes away. *)
Lemma rg_inv_removed w c name live conn :
  rg_inv w → rg_connections w !! c = Some conn → conn_name conn = name → conn_moves conn = true →
  (∀ r other, other ≠ name → live !! r = Some other ↔ rg_live w !! r = Some other) → (∀ r, live !! r ≠ Some name) →
  rg_inv (mkRegistry (delete name (rg_active w)) (delete c (rg_connections w)) live).
Proof.
  intros Hinv Hc Hn Hm Hlive Hnone. pose proof (λ c' conn H1, conns_of w name c' conn Hinv H1) as Hconns.
  assert (Honly : ∀ c' conn', rg_connections w !! c' = Some conn' → conn_name conn' = name → c' = c).
  { intros c' conn' H1 Hn1. eapply (rg_movers _ Hinv c' c); [exact H1|exact Hc| |done|congruence].
    pose proof (Hconns c' conn' H1 Hn1) as H2. pose proof (Hconns c conn Hc Hn) as H3.
    destruct (rg_active w !! name) as [[o|export|o]|]; [by rewrite H2|by rewrite H3 in Hm|by destruct H2 as [? ->]|done]. }
  apply (rg_inv_entry w _ name c); cbn; try done.
  - intros other Hne. by rewrite lookup_delete_ne.
  - intros c' Hne. by rewrite lookup_delete_ne.
  - intros conn' H1. congruence.
  - intros conn' H1. by rewrite lookup_delete_eq in H1.
  - intros c' conn' [Hne H1]%lookup_delete_Some Hname. destruct Hne. symmetry. by eapply Honly.
  - intros c1 c2 conn1 conn2 [Hne H1]%lookup_delete_Some _ _ _ Hn1 _. destruct Hne. symmetry. by eapply Honly.
  - unfold entry_ok. cbn. by rewrite lookup_delete_eq.
  - intros r Hr. by destruct (Hnone r).
  - intros r r' Hr. by destruct (Hnone r).
Qed.

(** The first region of a [close] by a connection that has the export open. *)
Lemma close_begin_spec w c name owner runtime :
  rg_inv w → rg_connections w !! c = Some (ConnOpen name owner runtime) →
  match close_begin name owner (rg_active w) with
  | (Ok None, active) => rg_inv (mkRegistry active (delete c (rg_connections w)) (rg_live w))
  | (Ok (Some runtime'), active) =>
      runtime' = runtime ∧ (∀ c' owner' r, rg_connections w !! c' = Some (ConnOpen name owner' r) → c' = c) ∧
      rg_inv (mkRegistry active (<[c := ConnClosing name owner runtime']> (rg_connections w)) (rg_live w))
  | _ => False
  end.
Proof.
  intros Hinv Hc. destruct (rg_conns _ Hinv c _ Hc) as [n Ha]. pose proof (λ c' conn H1, conns_of w name c' conn Hinv H1) as Hconns.
  pose proof (λ r, live_of w name r Hinv) as Hlive. pose proof (rg_entries _ Hinv name) as Hentry. unfold entry_ok in Hentry.
  rewrite Ha in Hconns, Hlive, Hentry. cbn in Hconns, Hlive, Hentry. destruct Hentry as (Hl & Hn & Hu).
  unfold close_begin. rewrite Ha. cbn [ae_owner ae_runtime ae_connections]. rewrite Z.eqb_refl, u64_sub_id by lia.
  destruct (Z.ltb_spec 0 (n - 1)) as [Hlt|Hge].
  - apply (rg_inv_entry w _ name c); cbn; try done.
    + intros other Hne. by rewrite lookup_insert_ne.
    + intros c' Hne. by rewrite lookup_delete_ne.
    + intros conn H1. rewrite Hc in H1. by injection H1 as <-.
    + intros conn H1. by rewrite lookup_delete_eq in H1.
    + intros c' conn [Hne H1]%lookup_delete_Some Hname. rewrite (Hconns c' conn H1 Hname). cbn. rewrite lookup_insert_eq. eauto.
    + intros c1 c2 conn1 conn2 [Hne H1]%lookup_delete_Some _ Hm1 _ Hn1 _. by rewrite (Hconns c1 conn1 H1 Hn1) in Hm1.
    + unfold entry_ok. cbn. rewrite lookup_insert_eq. cbn. split; [done|]. split; [lia|]. unfold users in *.
      rewrite (map_count_delete _ _ c _ Hc) in Hu. cbn in Hu. rewrite bool_decide_true in Hu by done. cbn in Hu. lia.
    + intros r Hr. unfold live_ok. rewrite lookup_insert_eq. cbn. by apply Hlive.
    + intros r r'. apply (rg_one _ Hinv).
  - assert (Honly : ∀ c' conn, rg_connections w !! c' = Some conn → conn_name conn = name → c' = c).
    { intros c' conn H1 Hname. destruct (decide (c' = c)) as [|Hne]; [done|]. exfalso. pose proof (Hconns c' conn H1 Hname) as ->.
      pose proof (users_other name _ c' c _ _ H1 Hc Hne ltac:(cbn; by apply bool_decide_eq_true) ltac:(cbn; by apply bool_decide_eq_true)). lia. }
    split; [done|]. split; [intros c' owner' r H1; by eapply Honly|].
    apply (rg_inv_entry w _ name c); cbn; try done.
    + intros other Hne. by rewrite lookup_insert_ne.
    + intros c' Hne. by rewrite lookup_insert_ne.
    + intros conn H1. rewrite Hc in H1. by injection H1 as <-.
    + rewrite lookup_insert_eq. by intros conn [= <-].
    + intros c' conn [[<- <-]|[Hne H1]]%lookup_insert_Some Hname; [cbn; by rewrite lookup_insert_eq|]. destruct Hne. symmetry. by eapply Honly.
    + intros c1 c2 conn1 conn2 [[<- <-]|[Hne H1]]%lookup_insert_Some [[<- <-]|[Hne2 H2]]%lookup_insert_Some _ _ Hn1 Hn2; [done| | |].
      * destruct Hne2. symmetry. by eapply Honly.
      * destruct Hne. symmetry. by eapply Honly.
      * destruct Hne. symmetry. by eapply Honly.
    + unfold entry_ok. cbn. by rewrite lookup_insert_eq.
    + intros r Hr. unfold live_ok. by rewrite lookup_insert_eq.
    + intros r r'. apply (rg_one _ Hinv).
Qed.

Lemma rg_inv_call c w r w' : rg_call c w r w' → rg_inv w → rg_inv w'.
Proof.
  intros Hs Hinv. destruct Hs as [w name owner e active Hc Hb|w name owner runtime active Hc Hroom Hb|w name owner active Hc Hb|w name owner runtime Hc Hr
    |w name owner e Hc|w name owner runtime active Hc Hb|w name owner runtime e active Hc Hb|w name owner runtime runtime' active Hc Hb
    |w name owner runtime result Hc].
  - assert (active = rg_active w) as ->; [|by destruct w].
    unfold open_begin in Hb. destruct (rg_active w !! name) as [[| |]|]; [| | |done]; repeat case_match; by injection Hb.
  - pose proof (rg_inv_step_open w c name owner Hinv Hc Hroom) as H. by rewrite Hb in H.
  - pose proof (rg_inv_step_open w c name owner Hinv Hc) as H. rewrite Hb in H. apply H.
    intros export Ha. unfold open_begin in Hb. rewrite Ha in Hb. by case_match.
  - by apply rg_inv_created.
  - pose proof (rg_conns _ Hinv c _ Hc) as Ha. cbn in Ha. unfold remove_opening. rewrite Ha, Z.eqb_refl.
    eapply rg_inv_removed; [done|exact Hc|done|done|done|]. intros r Hr. pose proof (live_of w name r Hinv Hr) as Hl. by rewrite Ha in Hl.
  - pose proof (close_begin_spec w c name owner runtime Hinv Hc) as H. by rewrite Hb in H.
  - pose proof (close_begin_spec w c name owner runtime Hinv Hc) as H. by rewrite Hb in H.
  - pose proof (close_begin_spec w c name owner runtime Hinv Hc) as H. rewrite Hb in H. apply H.
  - destruct (rg_conns _ Hinv c _ Hc) as [Ha Hl]. unfold close_finish. rewrite Ha, Z.eqb_refl.
    eapply rg_inv_removed; [done|exact Hc|done|done| |].
    + intros r other Hne. destruct (decide (r = runtime)) as [->|Hnr]; [|by rewrite lookup_delete_ne]. rewrite lookup_delete_eq, Hl. naive_solver.
    + intros r [Hne Hr]%lookup_delete_Some. apply Hne. by eapply (rg_one _ Hinv).
Qed.

Lemma rg_call_only c w r w' c' : rg_call c w r w' → c' ≠ c → rg_connections w' !! c' = rg_connections w !! c'.
Proof. intros [] Hne; cbn; rewrite ?lookup_insert_ne, ?lookup_delete_ne by done; done. Qed.

Lemma rg_inv_step w r w' : rg_step w r w' → rg_inv w → rg_inv w'.
Proof. intros [c [Hs|[_ Hs]]] Hinv; [by eapply rg_inv_call|]. destruct Hs. by apply rg_inv_drop. Qed.

Lemma rg_reachable_inv w : rg_reachable w → rg_inv w.
Proof.
  intros H. unfold rg_reachable in H. pose proof rg_inv_new as H0. induction H as [|w w1 w2 [r Hs] _ IH]; [done|]. by eapply IH, rg_inv_step.
Qed.
End invariant.

(** *** Entries that are in use *)

(** Every entry belongs to a task: without tasks that quit, the registry is as full as the tasks make it. *)
Definition entry_used (w : RegistryWorld) (name : ExportName) : Prop :=
  match rg_active w !! name with
  | None => True
  | Some (Opening owner) => ∃ c, rg_connections w !! c = Some (ConnOpening name owner)
  | Some (Open export) => ae_connections export = Z.of_nat (users name (rg_connections w))
  | Some (Closing owner) => ∃ c runtime, rg_connections w !! c = Some (ConnClosing name owner runtime)
  end.

Section used.
Implicit Types (w : RegistryWorld) (name : ExportName).

Lemma users_skip name c conns :
  (∀ conn, conns !! c = Some conn → conn_uses name conn = false) → users name conns = users name (delete c conns).
Proof.
  intros H. unfold users. destruct (conns !! c) as [conn|] eqn:Hc; [|by rewrite delete_id].
  rewrite (map_count_delete _ _ c conn Hc), (H conn eq_refl). cbn. lia.
Qed.

Lemma entry_used_other w w' name other c :
  other ≠ name → rg_active w' !! other = rg_active w !! other →
  (∀ c', c' ≠ c → rg_connections w' !! c' = rg_connections w !! c') →
  (∀ conn, rg_connections w !! c = Some conn → conn_name conn = name) →
  (∀ conn, rg_connections w' !! c = Some conn → conn_name conn = name) →
  entry_used w other → entry_used w' other.
Proof.
  intros Hne Ha Hcs Hc Hc' H. unfold entry_used in *. rewrite Ha.
  assert (Hkeep : ∀ c' conn, rg_connections w !! c' = Some conn → conn_name conn = other → rg_connections w' !! c' = Some conn).
  { intros c' conn Hconn Hname. rewrite Hcs; [done|]. intros ->. apply Hc in Hconn. congruence. }
  assert (Huse : ∀ conn, conn_name conn = name → conn_uses other conn = false).
  { intros [n o|n o r|n o r] Hn; cbn in *; [done| |done]. by apply bool_decide_eq_false; intros ->. }
  destruct (rg_active w !! other) as [[owner|export|owner]|]; [| | |done].
  - destruct H as [c' H]. exists c'. by apply Hkeep.
  - rewrite H. rewrite (users_skip other c (rg_connections w)), (users_skip other c (rg_connections w')); [|by eauto..].
    do 2 f_equal. apply map_eq. intros c'. destruct (decide (c' = c)) as [->|Hn]; [by rewrite !lookup_delete_eq|].
    rewrite !lookup_delete_ne by done. symmetry. by apply Hcs.
  - destruct H as (c' & r & H). exists c', r. by apply Hkeep.
Qed.

(** A step that touches the entry of [name] and the connection [c]. *)
Lemma entry_used_step w w' name c :
  (∀ other, other ≠ name → rg_active w' !! other = rg_active w !! other) →
  (∀ c', c' ≠ c → rg_connections w' !! c' = rg_connections w !! c') →
  (∀ conn, rg_connections w !! c = Some conn → conn_name conn = name) →
  (∀ conn, rg_connections w' !! c = Some conn → conn_name conn = name) →
  (∀ other, entry_used w other) → entry_used w' name → ∀ other, entry_used w' other.
Proof.
  intros Ha Hcs Hc Hc' Hu Hn other. destruct (decide (other = name)) as [->|Hne]; [done|].
  apply (entry_used_other w w' name other c); auto.
Qed.

(** The shape of the change of a step. *)
Ltac touches_entry w name c Hc :=
  apply (entry_used_step w _ name c); cbn;
    [intros other Hne; first [by rewrite lookup_insert_ne|by rewrite lookup_delete_ne]
    |intros c' Hne; first [by rewrite lookup_insert_ne|by rewrite lookup_delete_ne]
    |intros conn H1; rewrite Hc in H1; by simplify_eq
    |intros conn H1; rewrite ?lookup_insert_eq, ?lookup_delete_eq in H1; by simplify_eq
    |done|unfold entry_used; cbn; rewrite ?lookup_insert_eq, ?lookup_delete_eq].

Lemma entry_used_opens c w r w' name owner :
  rg_call c w r w' → rg_inv w → (∀ name, entry_used w name) →
  (rg_connections w !! c = None ∨ rg_connections w !! c = Some (ConnOpening name owner)) → ∀ name, entry_used w' name.
Proof.
  intros Hs Hinv Hu Hcase. destruct Hs as [w name' owner' e active Hc Hb|w name' owner' runtime active Hc Hroom Hb|w name' owner' active Hc Hb|w name' owner' runtime Hc Hr
    |w name' owner' e Hc|w name' owner' runtime active Hc _|w name' owner' runtime e active Hc _|w name' owner' runtime runtime' active Hc _
    |w name' owner' runtime result Hc]; try (destruct Hcase; congruence).
  - assert (active = rg_active w) as ->; [|by destruct w].
    unfold open_begin in Hb. destruct (rg_active w !! name') as [[| |]|]; [| | |done]; repeat case_match; by injection Hb.
  - unfold open_begin in Hb. destruct (rg_active w !! name') as [[|export|]|] eqn:Ha; [done| |done|done].
    destruct (ae_owner export =? owner'); [|done]. injection Hb as <- <-. specialize (Hroom export eq_refl).
    pose proof (rg_entries _ Hinv name') as He. unfold entry_ok in He. rewrite Ha in He. destruct He as (_ & Hn & _).
    touches_entry w name' c Hc. cbn. rewrite u64_add_id by lia. pose proof (Hu name') as Hun. unfold entry_used in Hun. rewrite Ha in Hun.
    unfold users in *. rewrite map_count_fresh by done. cbn. rewrite bool_decide_true by done. cbn. lia.
  - unfold open_begin in Hb. destruct (rg_active w !! name') as [[|export|]|] eqn:Ha; [done|by case_match|done|]. injection Hb as <-.
    touches_entry w name' c Hc. exists c. apply lookup_insert_eq.
  - pose proof (rg_conns _ Hinv c _ Hc) as Ha. cbn in Ha. unfold open_finish. touches_entry w name' c Hc. cbn. unfold users.
    pose proof (map_count_update (conn_uses name') _ c _ (ConnOpen name' owner' runtime) Hc) as Hcount. cbn in Hcount. rewrite bool_decide_true in Hcount by done. cbn in Hcount.
    pose proof (users_none name' (rg_connections w)) as Hzero. unfold users in Hzero. rewrite Hzero in Hcount; [lia|].
    intros c' conn H1. destruct conn as [| n |]; try done. cbn. apply bool_decide_eq_false. intros ->.
    pose proof (conns_of w name' c' _ Hinv H1 eq_refl) as H2. by rewrite Ha in H2.
  - pose proof (rg_conns _ Hinv c _ Hc) as Ha. cbn in Ha. unfold remove_opening. rewrite Ha, Z.eqb_refl. by touches_entry w name' c Hc.
Qed.

Lemma entry_used_call c w r w' : rg_call c w r w' → rg_inv w → (∀ name, entry_used w name) → ∀ name, entry_used w' name.
Proof.
  intros Hs Hinv Hu. pose proof Hs as Hcall. destruct Hs as [w name owner e active Hc _|w name owner runtime active Hc _ _|w name owner active Hc _|w name owner runtime Hc _
    |w name owner e Hc|w name owner runtime active Hc Hb|w name owner runtime e active Hc Hb|w name owner runtime runtime' active Hc Hb
    |w name owner runtime result Hc]; try (by eapply (entry_used_opens c w _ _ name owner); eauto).
  - destruct (rg_conns _ Hinv c _ Hc) as [n Ha]. pose proof (rg_entries _ Hinv name) as He. unfold entry_ok in He. rewrite Ha in He. destruct He as (_ & Hn & _). cbn in Hn.
    unfold close_begin in Hb. rewrite Ha in Hb. cbn in Hb. rewrite Z.eqb_refl, u64_sub_id in Hb by lia. destruct (Z.ltb_spec 0 (n - 1)); [|done]. injection Hb as <-.
    touches_entry w name c Hc. cbn. pose proof (Hu name) as Hun. unfold entry_used in Hun. rewrite Ha in Hun. cbn in Hun. unfold users in *.
    rewrite (map_count_delete _ _ c _ Hc) in Hun. cbn in Hun. rewrite bool_decide_true in Hun by done. cbn in Hun. lia.
  - pose proof (close_begin_spec w c name owner runtime Hinv Hc) as H. by rewrite Hb in H.
  - destruct (rg_conns _ Hinv c _ Hc) as [n Ha]. unfold close_begin in Hb. rewrite Ha in Hb. cbn in Hb. rewrite Z.eqb_refl in Hb. case_match; [done|].
    injection Hb as <- <-. touches_entry w name c Hc. exists c, runtime. apply lookup_insert_eq.
  - destruct (rg_conns _ Hinv c _ Hc) as [Ha Hl]. unfold close_finish. rewrite Ha, Z.eqb_refl. by touches_entry w name c Hc.
Qed.

(** Without tasks there is nothing. *)
Lemma registry_empty w : rg_inv w → (∀ name, entry_used w name) → rg_connections w = ∅ → rg_active w = ∅ ∧ rg_live w = ∅.
Proof.
  intros Hinv Hu He. assert (Ha : rg_active w = ∅).
  { apply map_empty. intros name. specialize (Hu name). pose proof (rg_entries _ Hinv name) as Hok. unfold entry_used, entry_ok, users in *. rewrite He in *.
    destruct (rg_active w !! name) as [[owner|export|owner]|]; [| | |done].
    - destruct Hu as [c Hu]. by rewrite lookup_empty in Hu.
    - rewrite map_count_empty in Hu. lia.
    - destruct Hu as (c & r & Hu). by rewrite lookup_empty in Hu. }
  split; [done|]. apply map_empty. intros r. destruct (rg_live w !! r) as [name|] eqn:Hr; [|done].
  pose proof (live_of w name r Hinv Hr) as Hl. by rewrite Ha, lookup_empty in Hl.
Qed.
End used.

(** ** Properties *)

(** C16: an export has one runtime and one owner.  However opens and closes of the connection tasks overlap, and
    whichever of them fail, are dropped or die: at no time are two runtimes of one export alive; two connections that
    have an export open have the same owner and the same runtime, which is alive; the close of a connection never fails
    for its owner; and it goes on to close the runtime only when no other connection uses it. *)
Theorem registry_exclusive w :
  rg_reachable w →
  (∀ r r' name, rg_live w !! r = Some name → rg_live w !! r' = Some name → r = r') ∧
  (∀ c c' name owner owner' r r', rg_connections w !! c = Some (ConnOpen name owner r) →
     rg_connections w !! c' = Some (ConnOpen name owner' r') → owner = owner' ∧ r = r' ∧ rg_live w !! r = Some name) ∧
  ∀ c name owner r, rg_connections w !! c = Some (ConnOpen name owner r) →
    match (close_begin name owner (rg_active w)).1 with
    | Ok None => True
    | Ok (Some r') => r' = r ∧ ∀ c' owner' r'', rg_connections w !! c' = Some (ConnOpen name owner' r'') → c' = c
    | _ => False
    end.
Proof.
  intros Hinv%rg_reachable_inv. split; [apply Hinv|]. split.
  - intros c c' name owner owner' r r' Hc Hc'. destruct (rg_conns _ Hinv c _ Hc) as [n Ha]. destruct (rg_conns _ Hinv c' _ Hc') as [n' Ha'].
    rewrite Ha in Ha'. injection Ha' as <- <- _. pose proof (rg_entries _ Hinv name) as He. unfold entry_ok in He. rewrite Ha in He.
    split; [done|]. split; [done|]. apply He.
  - intros c name owner r Hc. pose proof (close_begin_spec w c name owner r Hinv Hc) as H.
    destruct (close_begin name owner (rg_active w)) as [[[r'|]|e|] active]; cbn; [|done|done|done]. by destruct H as (? & ? & _).
Qed.

(** Two connections of one owner. *)
Lemma registry_exclusive_witness :
  ∃ w, rg_reachable w ∧ rg_connections w = {[ 0%nat := ConnOpen "disk" 1 7%nat; 1%nat := ConnOpen "disk" 1 7%nat ]} ∧
    rg_live w !! 7%nat = Some "disk".
Proof.
  set (w1 := mkRegistry {["disk" := Opening 1]} {[0%nat := ConnOpening "disk" 1]} ∅).
  set (w2 := mkRegistry {["disk" := Open (mkActiveExport 1 7%nat 1)]} {[0%nat := ConnOpen "disk" 1 7%nat]} {[7%nat := "disk"]}).
  set (w3 := mkRegistry {["disk" := Open (mkActiveExport 1 7%nat 2)]}
    {[0%nat := ConnOpen "disk" 1 7%nat; 1%nat := ConnOpen "disk" 1 7%nat]} {[7%nat := "disk"]}).
  assert (Hr : rg_reachable w3).
  { eapply rtc_l; [exists None, 0%nat; left; exact (rg_open_start 0%nat LocalExportRegistry_new "disk" 1 {["disk" := Opening 1]} eq_refl eq_refl)|].
    change (rtc (λ w w', ∃ r, rg_step w r w') w1 w3).
    eapply rtc_l; [exists (Some (Ok tt)), 0%nat; left; exact (rg_open_done 0%nat w1 "disk" 1 7%nat eq_refl eq_refl)|].
    change (rtc (λ w w', ∃ r, rg_step w r w') w2 w3).
    eapply rtc_l; [|apply rtc_refl]. exists (Some (Ok tt)), 1%nat. left.
    eapply (rg_open_shared 1%nat w2 "disk" 1 7%nat); [reflexivity| |reflexivity]. by intros export [= <-]. }
  exists w3. split; [exact Hr|]. split; [reflexivity|].
  apply (proj1 (proj2 (registry_exclusive w3 Hr)) 0%nat 1%nat "disk" 1 1 7%nat 7%nat eq_refl eq_refl).
Defined.
