(* ===== verification/Connection.v ===== *)
(** * Connections

    [connection/]: the handshake, the option negotiation, the request reader, the reply writer and the two tasks
    of the transmission phase, over a byte stream.

    Input and output are byte lists.  The [tokio] stream is modelled by the fate of each call: it goes through,
    it fails with some message, or the shutdown signal wins the [select!]; a call that does not go through has moved
    any number of bytes.  Handshake and negotiation are functions of the stream; the reader is one function per request;
    reader, writer, completions and the task that waits for both interleave in the step relation [cn_step]. *)

From Stdlib Require Import Strings.String.
From stdpp Require Import pretty.
From S2P Require Import Prelude ControlPlane ProtocolWire ProtocolOption ProtocolTransmission Server Admission Export Runtime Registry.

#[local] Open Scope string_scope.
#[local] Open Scope list_scope.
#[local] Open Scope Z_scope.

(** ** Errors as text *)

Definition hex_char (d : Z) : string :=
  match String.get (Z.to_nat d) "0123456789abcdef" with Some c => String c "" | None => "" end.

(** [{:0widthx}] of a value that has at most [width] digits. *)
Fixpoint to_hex (width : nat) (z : Z) : string :=
  match width with O => "" | S width => to_hex width (z / 16) +:+ hex_char (z mod 16) end.

Definition ProtocolError_display (e : ProtocolError) : string :=
  match e with
  | UnexpectedEof needed remaining =>
      "not enough bytes to decode NBD field: needed " +:+ pretty needed +:+ ", remaining " +:+ pretty remaining
  | TrailingBytes remaining => "NBD message has " +:+ pretty remaining +:+ " trailing byte(s)"
  | MissingClientFlag flag => "NBD client did not set required flag " +:+ flag
  | UnsupportedClientFlags raw unsupported =>
      "NBD client flags include unsupported bits: raw=0x" +:+ to_hex 8 raw +:+ ", unsupported=0x" +:+ to_hex 8 unsupported
  | InvalidMagic context expected actual =>
      "invalid NBD " +:+ context +:+ " magic: expected 0x" +:+ to_hex 16 expected +:+ ", got 0x" +:+ to_hex 16 actual
  | InvalidUtf8 field => "NBD " +:+ field +:+ " is not valid UTF-8"
  | InvalidString field reason => "invalid NBD " +:+ field +:+ ": " +:+ reason
  | LengthTooLarge field len max =>
      "NBD " +:+ field +:+ " length " +:+ pretty len +:+ " exceeds maximum supported length " +:+ pretty max
  | UnsupportedCommandFlags raw => "NBD command flags are unsupported: raw=0x" +:+ to_hex 4 raw
  | UnsupportedCommand command => "NBD command type " +:+ pretty command +:+ " is not supported"
  | InvalidRequest command reason => "invalid NBD " +:+ command +:+ " request: " +:+ reason
  | InvalidReply reply reason => "invalid NBD " +:+ reply +:+ " reply: " +:+ reason
  | LengthOverflow offset length =>
      "NBD request range overflows u64: offset=" +:+ pretty offset +:+ ", length=" +:+ pretty length
  end.

Definition ServerError_display (e : ServerError) : string :=
  match e with
  | ExportTooLarge name size_bytes max_size_bytes =>
      "export `" +:+ name +:+ "` size " +:+ pretty size_bytes +:+ " exceeds in-memory limit " +:+ pretty max_size_bytes
  | ExportBusy name => "export `" +:+ name +:+ "` is already active"
  | ExportOwnerMismatch name => "export `" +:+ name +:+ "` is owned by a different active owner"
  | OutOfBounds operation offset length size_bytes =>
      "export " +:+ operation +:+ " range is out of bounds: offset=" +:+ pretty offset +:+ ", length=" +:+ pretty length
        +:+ ", size=" +:+ pretty size_bytes
  | LockPoisoned resource => "lock poisoned for " +:+ resource
  | RuntimeClosed resource => resource +:+ " is closed"
  | BlobAlreadyExists context key => context +:+ ": blob `" +:+ key +:+ "` already exists"
  | SIo context message => context +:+ ": " +:+ message
  | SProtocol source => ProtocolError_display source
  | SCatalog message _ => message
  | SWal context message => context +:+ ": " +:+ message
  end.

(** ** Streams (io.rs, shutdown.rs) *)

(** What becomes of one call on the stream. *)
Inductive IoFate : Type :=
| IoDone
| IoFailed (moved : nat) (message : string)
| IoShutdown (moved : nat).

(** [st_input]: what the peer sends before it closes its side; [st_fates]: the fates of the next calls, and those
    after them go through. *)
Record Stream := mkStream { st_input : list byte; st_output : list byte; st_fates : list IoFate }.

Definition next_fate (st : Stream) : IoFate := default IoDone (head (st_fates st)).

(** A [read_exact] in a [select!] with the shutdown signal. *)
Inductive IoRead : Type := ReadDone (bytes : list byte) | ReadEof | ReadFailed (message : string) | ReadShutdown.

Definition read_exact (len : Z) (st : Stream) : IoRead * Stream :=
  let rest moved := mkStream (drop moved (st_input st)) (st_output st) (tail (st_fates st)) in
  match next_fate st with
  | IoDone =>
      if zlen (st_input st) <? len then (ReadEof, rest (length (st_input st)))
      else (ReadDone (take (Z.to_nat len) (st_input st)), rest (Z.to_nat len))
  | IoFailed moved message => (ReadFailed message, rest moved)
  | IoShutdown moved => (ReadShutdown, rest moved)
  end.

Section io.
(** The text of the error that [tokio] returns at the end of the input. *)
Context (eof_message : string).

(** [None]: the connection is shut down. *)
Definition read_exact_or_shutdown (len : Z) (context : string) : M Stream ServerError (option (list byte)) := λ st,
  match read_exact len st with
  | (ReadDone bytes, st') => (Ok (Some bytes), st')
  | (ReadEof, st') => (Err (ServerError_io context eof_message), st')
  | (ReadFailed message, st') => (Err (ServerError_io context message), st')
  | (ReadShutdown, st') => (Ok None, st')
  end.

Definition write_all_or_shutdown (bytes : list byte) (context : string) : M Stream ServerError bool := λ st,
  let wrote bytes := mkStream (st_input st) (st_output st ++ bytes) (tail (st_fates st)) in
  match next_fate st with
  | IoDone => (Ok true, wrote bytes)
  | IoFailed moved message => (Err (ServerError_io context message), wrote (take moved bytes))
  | IoShutdown moved => (Ok false, wrote (take moved bytes))
  end.

(** ** Handshake (handshake.rs) *)

(** The conversion of [?]. *)
Definition from_protocol {S A} (o : ProtoResult A) : M S ServerError A := mlift (map_err SProtocol o).

Definition write_handshake : M Stream ServerError bool :=
  let! written := write_all_or_shutdown encode_server_handshake "write NBD server handshake" in
  if negb written then mret false
  else
    let! client_flags := read_exact_or_shutdown 4 "read NBD client flags" in
    match client_flags with
    | None => mret false
    | Some bytes => let! _ := from_protocol (decode_client_flags bytes) in mret true
    end.

(** ** Negotiation (options.rs) *)

Definition SUPPORTED_TRANSMISSION_FLAGS : Z := Z.lor NBD_FLAG_HAS_FLAGS NBD_FLAG_SEND_FLUSH.

(** The runtime of the export, as far as the negotiation uses it: its record. *)
Record ConnectionExport := mkConnectionExport { ce_name : ExportName; ce_owner : ExportOwner; ce_meta : ExportRecord }.

(** The calls of the registry. *)
Inductive RegistryCall : Type :=
| CallOpen (name : ExportName) (owner : ExportOwner) (result : SResult ExportRecord)
| CallClose (name : ExportName) (owner : ExportOwner) (result : SResult unit).

Record ServeWorld := mkServe { sv_stream : Stream; sv_next_owner : Z; sv_calls : list RegistryCall }.

Definition on_stream {A} (m : M Stream ServerError A) : M ServeWorld ServerError A :=
  zoom sv_stream (λ st w, mkServe st (sv_next_owner w) (sv_calls w)) m.

Definition unique_connection : M ServeWorld ServerError ExportOwner := λ w,
  (Ok (sv_next_owner w), mkServe (sv_stream w) (u64_add (sv_next_owner w) 1) (sv_calls w)).

Definition read_option_request : M Stream ServerError (option OptionRequest) :=
  let! header_bytes := read_exact_or_shutdown OPTION_REQUEST_HEADER_BYTES "read NBD option request header" in
  match header_bytes with
  | None => mret None
  | Some bytes =>
      let! header := from_protocol (parse_option_request_header bytes) in
      let! payload_len := from_protocol (request_bounded_payload_len header) in
      let! payload := read_exact_or_shutdown payload_len "read NBD option request payload" in
      match payload with
      | None => mret None
      | Some payload => let! request := from_protocol (parse_option_request (bytes ++ payload)) in mret (Some request)
      end
  end.

Definition write_go_error (option : Z) (error : ServerError) : M Stream ServerError bool :=
  let message := list_byte_of_string (ServerError_display error) in
  let! reply := from_protocol
    match error with
    | ExportBusy _ | ExportTooLarge _ _ _ => encode_policy_option_reply option message
    | _ => encode_unknown_export_reply option message
    end in
  write_all_or_shutdown reply "write NBD_OPT_GO error".

Section negotiation.
(** What [open] and [close] of the registry return to this connection, which calls each at most once. *)
Context (registry_open : ExportName → ExportOwner → SResult ExportRecord)
  (registry_close : ExportName → ExportOwner → SResult unit).

Definition call_open (name : ExportName) (owner : ExportOwner) (w : ServeWorld) : SResult ExportRecord * ServeWorld :=
  (registry_open name owner,
   mkServe (sv_stream w) (sv_next_owner w) (sv_calls w ++ [CallOpen name owner (registry_open name owner)])).

Definition call_close (name : ExportName) (owner : ExportOwner) : M ServeWorld ServerError unit := λ w,
  (registry_close name owner,
   mkServe (sv_stream w) (sv_next_owner w) (sv_calls w ++ [CallClose name owner (registry_close name owner)])).

(** [let _ = registry.close(..).await]. *)
Definition close_ignored (name : ExportName) (owner : ExportOwner) : M ServeWorld ServerError unit := λ w,
  match call_close name owner w with
  | (Panic, w') => (Panic, w')
  | (_, w') => (Ok tt, w')
  end.

(** A write after the export was opened: when it does not go through, the export is closed again. *)
Definition write_or_close (name : ExportName) (owner : ExportOwner) (bytes : list byte) (context : string)
    : M ServeWorld ServerError bool := λ w,
  match on_stream (write_all_or_shutdown bytes context) w with
  | (Ok true, w') => (Ok true, w')
  | (Ok false, w') => (let! _ := close_ignored name owner in mret false) w'
  | (Err error, w') => (let! _ := close_ignored name owner in mfail error) w'
  | (Panic, w') => (Panic, w')
  end.

Definition negotiate_go (go : GoRequest) : M ServeWorld ServerError (option ConnectionExport) :=
  let! name := mlift (map_err ServerError_catalog (ExportName_new (go_export_name go))) in
  let! owner := unique_connection in
  λ w, match call_open name owner w with
  | (Panic, w') => (Panic, w')
  | (Err error, w') => (let! _ := on_stream (write_go_error NBD_OPT_GO error) in mret None) w'
  | (Ok meta, w') =>
      (let! export_info := from_protocol
         (encode_export_info_reply NBD_OPT_GO (size_bytes (r_head meta)) SUPPORTED_TRANSMISSION_FLAGS) in
       let! written := write_or_close name owner export_info "write NBD export info" in
       if negb written then mret None
       else
         let! ack := from_protocol (encode_ack_reply NBD_OPT_GO) in
         let! written := write_or_close name owner ack "write NBD_OPT_GO ack" in
         if negb written then mret None else mret (Some (mkConnectionExport name owner meta))) w'
  end.

(** The loop; each round consumes the header of an option. *)
Fixpoint negotiate_loop (fuel : nat) : M ServeWorld ServerError (option ConnectionExport) :=
  match fuel with
  | O => mlift Panic
  | S fuel =>
      let! request := on_stream read_option_request in
      match request with
      | None => mret None
      | Some (OptGo go) => negotiate_go go
      | Some (OptAbort _) =>
          let! ack := from_protocol (encode_ack_reply NBD_OPT_ABORT) in
          let! _ := on_stream (write_all_or_shutdown ack "write NBD_OPT_ABORT ack") in
          mret None
      | Some (OptUnknown code _) =>
          let! reply := from_protocol (encode_unsupported_option_reply code (list_byte_of_string "unsupported option")) in
          let! written := on_stream (write_all_or_shutdown reply "write unsupported option") in
          if negb written then mret None else negotiate_loop fuel
      end
  end.

Definition negotiate_options : M ServeWorld ServerError (option ConnectionExport) := λ w,
  negotiate_loop (S (length (st_input (sv_stream w)))) w.

(** [serve_with_shutdown]; [run] is the transmission phase, [run_with_shutdown]. *)
Definition serve_with_shutdown (run : ConnectionExport → M Stream ServerError unit) : M ServeWorld ServerError unit :=
  let! greeted := on_stream write_handshake in
  if negb greeted then mret tt
  else
    let! export := negotiate_options in
    match export with
    | None => mret tt
    | Some export =>
        λ w, let '(result, w) := on_stream (run export) w in
        match result with
        | Panic => (Panic, w)
        | _ =>
            let '(close_result, w) := call_close (ce_name export) (ce_owner export) w in
            (match result with Err error => Err error | _ => close_result end, w)
        end
    end.
End negotiation.
End io.

(** ** Replies (replies.rs) *)

Inductive ReplyKind : Type := KindRead | KindSimple.

#[export] Instance ReplyKind_eq_dec : EqDecision ReplyKind.
Proof. solve_decision. Defined.

Definition ReplyKind_as_str (kind : ReplyKind) : string := match kind with KindRead => "read" | KindSimple => "simple" end.

Inductive ConnectionReplyPayload : Type :=
| PayloadExport (context : ExportJobContext) (kind : ReplyKind) (result : SResult ExportReply)
| PayloadSimpleError (error : Z).

Record ConnectionReply := mkReply { cr_cookie : Z; cr_payload : ConnectionReplyPayload }.

(** [ConnectionReply::export_result] and [ConnectionReply::simple_error]. *)
Definition reply_export_result (context : ExportJobContext) (kind : ReplyKind) (result : SResult ExportReply) : ConnectionReply :=
  mkReply (jc_cookie context) (PayloadExport context kind result).
Definition reply_simple_error (cookie error : Z) : ConnectionReply := mkReply cookie (PayloadSimpleError error).

(** The bytes of [write_connection_reply]. *)
Definition reply_bytes (reply : ConnectionReply) : list byte :=
  match cr_payload reply with
  | PayloadExport _ kind result =>
      match kind, result with
      | KindRead, Ok (ReplyRead data) => encode_read_reply (cr_cookie reply) data
      | KindSimple, Ok ReplyDone => encode_simple_reply (cr_cookie reply) 0
      | _, _ => encode_simple_reply (cr_cookie reply) NBD_EINVAL
      end
  | PayloadSimpleError error => encode_simple_reply (cr_cookie reply) error
  end.

(** The context of its error, when the write fails. *)
Definition reply_context (reply : ConnectionReply) : string :=
  match cr_payload reply with
  | PayloadExport _ KindRead (Ok (ReplyRead _)) => "write NBD read reply"
  | PayloadExport _ KindSimple (Ok ReplyDone) => "write NBD simple reply"
  | _ => "write NBD error reply"
  end.

(** ** The request reader (transmission.rs) *)

Inductive ConnectionReplyDrain : Type := DropPending | DrainQueued.

Record RequestReaderExit := mkReaderExit { rx_result : SResult unit; rx_reply_drain : ConnectionReplyDrain }.

Definition exit_close (result : SResult unit) : RequestReaderExit := mkReaderExit result DropPending.
Definition exit_drain (result : SResult unit) : RequestReaderExit := mkReaderExit result DrainQueued.

(** The job of a decoded request: its kind of reply, its request, its offset and its length. *)
Definition decode_job (payload_len : Z) (request : TransmissionRequest)
    : option (Z * ReplyKind * ExportRequest * option Z * option Z) :=
  match request with
  | TReqRead cookie offset length => Some (cookie, KindRead, ReqRead offset length, Some offset, Some length)
  | TReqWrite cookie offset data => Some (cookie, KindSimple, ReqWrite offset data, Some offset, Some payload_len)
  | TReqFlush cookie => Some (cookie, KindSimple, ReqFlush, None, None)
  | TReqDisconnect _ => None
  end.

(** What the runtime answers to [reserve], unless the shutdown signal wins, and to [submit]. *)
Inductive ReserveFate : Type := ReserveDone (result : SResult unit) | ReserveShutdown.
Record ReaderEnv := mkReaderEnv { re_reserve : ReserveFate; re_submit : SResult unit }.

(** The end of a round of [read_requests]: a job was accepted; the reader is to send a simple error and then to
    exit with [error]; it exits; it panics. *)
Inductive ReaderStep : Type :=
| StepSubmitted (job : ExportJob) (kind : ReplyKind) (sequence : Z)
| StepReply (cookie : Z) (error : ServerError)
| StepExit (exit : RequestReaderExit)
| StepPanic.

Section reader.
Context (eof_message : string) (connection_id : Z).

(** The part of a round after the request was decoded. *)
Definition submit_request (env : ReaderEnv) (sequence payload_len : Z) (request : TransmissionRequest) : ReaderStep :=
  match decode_job payload_len request with
  | None => StepExit (exit_close (Ok tt))
  | Some (cookie, kind, request, offset, length) =>
      let '(number, sequence) := RequestSequenceGenerator_next sequence in
      let context := mkJobContext connection_id number cookie (command_name request) offset length (ReplyKind_as_str kind) in
      let job := mkJob context request in
      match re_submit env with
      | Ok _ => StepSubmitted job kind sequence
      | Err error => StepReply cookie error
      | Panic => StepPanic
      end
  end.

(** The part of a round after the header was decoded. *)
Definition read_payload (env : ReaderEnv) (sequence : Z) (bytes : list byte) (header : RequestHeader) (payload_len : Z)
    (st : Stream) : ReaderStep * Stream :=
  if rh_command header =? NBD_CMD_DISC then (StepExit (exit_close (Ok tt)), st)
  else
    match re_reserve env with
    | ReserveShutdown => (StepExit (exit_close (Ok tt)), st)
    | ReserveDone (Err error) => (StepReply (rh_cookie header) error, st)
    | ReserveDone Panic => (StepPanic, st)
    | ReserveDone (Ok _) =>
        match read_exact payload_len st with
        | (ReadShutdown, st) => (StepExit (exit_close (Ok tt)), st)
        | (ReadEof, st) => (StepExit (exit_close (Err (ServerError_io "read NBD transmission payload" eof_message))), st)
        | (ReadFailed message, st) => (StepExit (exit_close (Err (ServerError_io "read NBD transmission payload" message))), st)
        | (ReadDone payload, st) =>
            match parse_request (bytes ++ payload) MAX_IO_BYTES with
            | Ok request => (submit_request env sequence payload_len request, st)
            | Err error => (StepReply (rh_cookie header) (SProtocol error), st)
            | Panic => (StepPanic, st)
            end
        end
    end.

(** One round of the loop of [read_requests]. *)
Definition read_request (env : ReaderEnv) (sequence : Z) (st : Stream) : ReaderStep * Stream :=
  match read_exact REQUEST_HEADER_BYTES st with
  | (ReadShutdown, st) | (ReadEof, st) => (StepExit (exit_close (Ok tt)), st)
  | (ReadFailed message, st) => (StepExit (exit_close (Err (ServerError_io "read NBD transmission header" message))), st)
  | (ReadDone bytes, st) =>
      match parse_request_header bytes with
      | Err error => (StepExit (exit_close (Err (SProtocol error))), st)
      | Panic => (StepPanic, st)
      | Ok header =>
          match payload_len header MAX_IO_BYTES with
          | Err error => (StepReply (rh_cookie header) (SProtocol error), st)
          | Panic => (StepPanic, st)
          | Ok payload_len => read_payload env sequence bytes header payload_len st
          end
      end
  end.

(** [read_requests] run alone: the accepted jobs and how the reader ended.  [envs] are the answers of the
    runtime; after them it accepts everything. *)
Definition env_ok : ReaderEnv := mkReaderEnv (ReserveDone (Ok tt)) (Ok tt).

Fixpoint read_requests (fuel : nat) (envs : list ReaderEnv) (sequence : Z) (st : Stream)
    : option (list (ExportJob * ReplyKind) * ReaderStep) :=
  match fuel with
  | O => None
  | S fuel =>
      match read_request (default env_ok (head envs)) sequence st with
      | (StepSubmitted job kind sequence, st) =>
          '(jobs, step) ← read_requests fuel (tail envs) sequence st; Some ((job, kind) :: jobs, step)
      | (step, _) => Some ([], step)
      end
  end.
End reader.

(** ** The two tasks of the transmission phase (mod.rs) *)

(** The reader runs, waits for room in the queue for a simple error, or has ended; [None]: it panicked. *)
Inductive ReaderState : Type :=
| Reading
| Sending (cookie : Z) (error : ServerError)
| ReaderEnded (exit : option RequestReaderExit).

(** [write_replies] runs; the queue was closed and empty; it was shut down; it failed; it was aborted. *)
Inductive WriterState : Type :=
| Writing
| WriterDrained
| WriterShutdown
| WriterFailed (error : ServerError)
| WriterAborted.

(** [run_connection_tasks]: it waits for the first task; the reader has asked to write what is queued; it has
    returned. *)
Inductive MainState : Type :=
| Waiting
| Draining (result : SResult unit)
| Returned (result : SResult unit).

(** [cn_jobs]: the accepted jobs without a reply yet, by their request sequence.  The last three fields are history: the accepted
    jobs, the replies written in full, and the jobs the runtime dropped without completing them. *)
Record ConnWorld := mkConn {
  cn_input : list byte;
  cn_output : list byte;
  cn_sequence : Z;
  cn_reader : ReaderState;
  cn_jobs : gmap Z (ExportJob * ReplyKind);
  cn_queue : list ConnectionReply;
  cn_writer : WriterState;
  cn_main : MainState;
  cn_accepted : list (ExportJob * ReplyKind);
  cn_written : list ConnectionReply;
  cn_lost : list (ExportJob * ReplyKind);
}.

(** [run_io], after the negotiation has written [output] and left [input]. *)
Definition ConnWorld_new (input output : list byte) : ConnWorld :=
  mkConn input output RequestSequenceGenerator_new Reading ∅ [] Writing Waiting [] [] [].

Definition job_sequence (job : ExportJob) : Z := jc_request_sequence (job_context job).

(** The result of a task that ended by itself. *)
Definition writer_result (writer : WriterState) : option (SResult unit) :=
  match writer with
  | Writing | WriterAborted => None
  | WriterDrained | WriterShutdown => Some (Ok tt)
  | WriterFailed error => Some (Err error)
  end.

Section tasks.
Context (eof_message : string) (connection_id : Z) (reply_capacity : nat).
Implicit Types w : ConnWorld.

(** A reader that received [step]. *)
Definition reader_after (step : ReaderStep) (input : list byte) w : ConnWorld :=
  match step with
  | StepSubmitted job kind sequence =>
      mkConn input (cn_output w) sequence (cn_reader w) (<[job_sequence job := (job, kind)]> (cn_jobs w)) (cn_queue w)
        (cn_writer w) (cn_main w) (cn_accepted w ++ [(job, kind)]) (cn_written w) (cn_lost w)
  | StepReply cookie error =>
      mkConn input (cn_output w) (cn_sequence w) (Sending cookie error) (cn_jobs w) (cn_queue w) (cn_writer w) (cn_main w)
        (cn_accepted w) (cn_written w) (cn_lost w)
  | StepExit exit =>
      mkConn input (cn_output w) (cn_sequence w) (ReaderEnded (Some exit)) (cn_jobs w) (cn_queue w) (cn_writer w) (cn_main w)
        (cn_accepted w) (cn_written w) (cn_lost w)
  | StepPanic =>
      mkConn input (cn_output w) (cn_sequence w) (ReaderEnded None) (cn_jobs w) (cn_queue w) (cn_writer w) (cn_main w)
        (cn_accepted w) (cn_written w) (cn_lost w)
  end.

Definition set_reader (reader : ReaderState) w : ConnWorld :=
  mkConn (cn_input w) (cn_output w) (cn_sequence w) reader (cn_jobs w) (cn_queue w) (cn_writer w) (cn_main w) (cn_accepted w)
    (cn_written w) (cn_lost w).
Definition set_queue (queue : list ConnectionReply) w : ConnWorld :=
  mkConn (cn_input w) (cn_output w) (cn_sequence w) (cn_reader w) (cn_jobs w) queue (cn_writer w) (cn_main w) (cn_accepted w)
    (cn_written w) (cn_lost w).
Definition finish_request (sequence : Z) w : ConnWorld :=
  mkConn (cn_input w) (cn_output w) (cn_sequence w) (cn_reader w) (delete sequence (cn_jobs w)) (cn_queue w) (cn_writer w)
    (cn_main w) (cn_accepted w) (cn_written w) (cn_lost w).
Definition lose_request (job : ExportJob * ReplyKind) w : ConnWorld :=
  mkConn (cn_input w) (cn_output w) (cn_sequence w) (cn_reader w) (cn_jobs w) (cn_queue w) (cn_writer w) (cn_main w)
    (cn_accepted w) (cn_written w) (cn_lost w ++ [job]).
Definition write_out (reply : ConnectionReply) w : ConnWorld :=
  mkConn (cn_input w) (cn_output w ++ reply_bytes reply) (cn_sequence w) (cn_reader w) (cn_jobs w) (cn_queue w) (cn_writer w)
    (cn_main w) (cn_accepted w) (cn_written w ++ [reply]) (cn_lost w).
(** The writer ends and drops its queue, perhaps in the middle of a reply. *)
Definition end_writer (writer : WriterState) (moved : nat) w : ConnWorld :=
  mkConn (cn_input w) (cn_output w ++ take moved (from_option reply_bytes [] (head (cn_queue w)))) (cn_sequence w)
    (cn_reader w) (cn_jobs w) [] writer (cn_main w) (cn_accepted w) (cn_written w) (cn_lost w).
(** [writer_task.abort()]. *)
Definition abort_writer (moved : nat) w : ConnWorld :=
  match cn_writer w with Writing => end_writer WriterAborted moved w | _ => w end.
Definition set_main (main : MainState) w : ConnWorld :=
  mkConn (cn_input w) (cn_output w) (cn_sequence w) (cn_reader w) (cn_jobs w) (cn_queue w) (cn_writer w) main (cn_accepted w)
    (cn_written w) (cn_lost w).

(** One step of the tasks.  A connection has fewer than 2^64 requests.  The runtime completes an accepted job at any
    moment with any result, or drops it. *)
Inductive cn_step : ConnWorld → ConnWorld → Prop :=
(* read_requests *)
| cn_read w env fates step st :
    cn_reader w = Reading → cn_sequence w < u64_max →
    read_request eof_message connection_id env (cn_sequence w) (mkStream (cn_input w) [] fates) = (step, st) →
    cn_step w (reader_after step (st_input st) w)
| cn_send_error w cookie error :
    cn_reader w = Sending cookie error → cn_writer w = Writing → (length (cn_queue w) < reply_capacity)%nat →
    cn_step w (set_reader (ReaderEnded (Some (exit_drain (Err error))))
      (set_queue (cn_queue w ++ [reply_simple_error cookie NBD_EINVAL]) w))
| cn_send_error_failed w cookie error :
    cn_reader w = Sending cookie error → cn_writer w ≠ Writing →
    cn_step w (set_reader (ReaderEnded (Some (exit_drain (Err (RuntimeClosed "connection reply queue"))))) w)
(* ConnectionExportCompletion::complete *)
| cn_complete w sequence job kind result :
    cn_jobs w !! sequence = Some (job, kind) → cn_writer w = Writing → (length (cn_queue w) < reply_capacity)%nat →
    cn_step w (finish_request sequence (set_queue (cn_queue w ++ [reply_export_result (job_context job) kind result]) w))
| cn_complete_dropped w sequence job :
    cn_jobs w !! sequence = Some job → cn_writer w ≠ Writing → cn_step w (finish_request sequence w)
| cn_job_lost w sequence job :
    cn_jobs w !! sequence = Some job → cn_step w (finish_request sequence (lose_request job w))
(* write_replies *)
| cn_write w reply queue :
    cn_writer w = Writing → cn_queue w = reply :: queue → cn_step w (write_out reply (set_queue queue w))
| cn_write_failed w reply queue moved message :
    cn_writer w = Writing → cn_queue w = reply :: queue →
    cn_step w (end_writer (WriterFailed (ServerError_io (reply_context reply) message)) moved w)
| cn_write_shutdown w moved :
    cn_writer w = Writing → cn_step w (end_writer WriterShutdown moved w)
| cn_write_drained w exit :
    cn_writer w = Writing → cn_queue w = [] → cn_jobs w = ∅ → cn_reader w = ReaderEnded exit →
    cn_step w (end_writer WriterDrained 0 w)
(* run_connection_tasks *)
| cn_main_reader_panicked w moved :
    cn_main w = Waiting → cn_reader w = ReaderEnded None →
    cn_step w (set_main (Returned (Err (RuntimeClosed "connection request reader")))
      (abort_writer moved w))
| cn_main_close w result moved :
    cn_main w = Waiting → cn_reader w = ReaderEnded (Some (mkReaderExit result DropPending)) →
    cn_step w (set_main (Returned result) (abort_writer moved w))
| cn_main_drain w result :
    cn_main w = Waiting → cn_reader w = ReaderEnded (Some (mkReaderExit result DrainQueued)) →
    cn_step w (set_main (Draining result) w)
| cn_main_drained w result written :
    cn_main w = Draining result → writer_result (cn_writer w) = Some written →
    cn_step w (set_main (Returned (match written with Ok _ => result | _ => written end)) w)
| cn_main_writer w written :
    cn_main w = Waiting → (∀ exit, cn_reader w ≠ ReaderEnded exit) → writer_result (cn_writer w) = Some written →
    cn_step w (set_main (Returned written) (set_reader (ReaderEnded None) w)).

(** The runs of a connection whose negotiation left [input] and wrote [output]. *)
Definition cn_reachable (input output : list byte) : ConnWorld → Prop := rtc cn_step (ConnWorld_new input output).
End tasks.

(** ** The parsers the connection calls do not panic *)

Section totality.
Lemma decode_client_flags_no_panic input : zlen input ≤ u64_max → decode_client_flags input ≠ Panic.
Proof. intros Hl. apply run_reader_no_panic; [done|]. unfold read_u32. reader_total. Qed.

Lemma parse_option_request_header_no_panic input : zlen input ≤ u64_max → parse_option_request_header input ≠ Panic.
Proof. intros Hl. apply run_reader_no_panic; [done|]. unfold read_u32, read_u64. reader_total. Qed.

Lemma parse_request_header_no_panic input : zlen input ≤ u64_max → parse_request_header input ≠ Panic.
Proof.
  intros Hl. apply run_reader_no_panic; [done|]. apply total_mseq; [apply parse_header_total|]. intros h. unfold require_no_payload. reader_total.
Qed.

Lemma total_read_u16s n : reader_total (read_u16s n).
Proof.
  induction n as [|n IH]; cbn; [apply total_mret|]. apply total_mseq; [apply total_read_be|]. intros x.
  apply total_mseq; [done|]. intros xs. apply total_mret.
Qed.

Lemma parse_go_payload_no_panic payload : zlen payload ≤ u64_max → parse_go_payload payload ≠ Panic.
Proof.
  intros Hl. apply run_reader_no_panic; [done|].
  eapply total_mseq_post; [apply total_read_be|apply determines_read_be|]. intros n bs rest [Hn _]. cbv beta in *.
  apply total_if; [apply total_mfail|]. apply total_mseq; [apply total_read_bytes; lia|]. intros name.
  repeat apply total_if; [apply total_mfail..|]. apply total_mseq; [apply total_read_be|]. intros c.
  apply total_mseq; [apply total_read_u16s|]. intros xs. reader_total.
Qed.

Lemma parse_option_request_no_panic input : zlen input ≤ u64_max → parse_option_request input ≠ Panic.
Proof.
  intros Hl. apply run_reader_no_panic; [done|].
  eapply total_mseq_post; [by apply total_read_bytes|apply determines_read_bytes; by unfold OPTION_REQUEST_HEADER_BYTES|].
  intros hb bs rest [_ Hhb]. cbv beta in Hhb.
  assert (Hhl : zlen hb ≤ u64_max) by (rewrite Hhb; by_compute).
  eapply total_mseq_post; [by apply total_mlift, parse_option_request_header_no_panic|apply determines_mlift|].
  intros h bs' rest' [Hh _]. apply parse_option_request_header_sound in Hh as (_ & Hn & _); [|done].
  eapply total_mseq_post; [apply total_mlift; unfold request_bounded_payload_len, bounded_payload_len; by case_bool|apply determines_mlift|].
  intros n ? ? [Hb _]. apply bounded_payload_len_ok in Hb as [Hmax ->].
  eapply total_mseq_post; [apply total_read_bytes, Hn|apply determines_read_bytes, Hn|]. intros payload ? ? [_ Hp].
  apply total_mseq; [apply total_require_no_trailing|]. intros _. repeat apply total_if; [|apply total_mret..].
  apply total_mseq; [|intros go; apply total_mret]. apply total_mlift, parse_go_payload_no_panic.
  rewrite Hp. unfold MAX_OPTION_PAYLOAD_BYTES, u64_max in *. lia.
Qed.
End totality.

(** ** What the sequential part of a connection leaves behind *)

Section serve.
Context (eof_message : string).

(** [m] run from [s] ends in a result and a state with [Q]. *)
Definition ends {S A} (m : M S ServerError A) (s : S) (Q : outcome ServerError A → S → Prop) : Prop := Q (m s).1 (m s).2.

Lemma ends_seq {S A B} (m : M S ServerError A) (f : A → M S ServerError B) s Q :
  ends m s (λ r s', match r with Ok a => ends (f a) s' Q | Err e => Q (Err e) s' | Panic => Q Panic s' end) →
  ends (mseq m f) s Q.
Proof. unfold ends, mseq. by destruct (m s) as [[] ?]. Qed.

Lemma ends_weaken {S A} (m : M S ServerError A) s (P Q : outcome ServerError A → S → Prop) :
  ends m s P → (∀ r s', P r s' → Q r s') → ends m s Q.
Proof. unfold ends. eauto. Qed.

Lemma ends_protocol {S A} (o : ProtoResult A) (s : S) Q :
  o ≠ Panic → (∀ a, o = Ok a → Q (Ok a) s) → (∀ e, Q (Err e) s) → ends (from_protocol o) s Q.
Proof. unfold ends, from_protocol, mlift. destruct o; cbn; [eauto..|done]. Qed.

(** The input still to come. *)
Abbreviation ahead_of st := (length (st_input st)) (only parsing).

Lemma read_exact_ends len context st :
  0 ≤ len →
  ends (read_exact_or_shutdown eof_message len context) st (λ r st',
    r ≠ Panic ∧ (ahead_of st' ≤ ahead_of st)%nat ∧
    ∀ bytes, r = Ok (Some bytes) → zlen bytes = len ∧ (ahead_of st' + Z.to_nat len = ahead_of st)%nat).
Proof.
  intros Hlen. unfold ends, read_exact_or_shutdown, read_exact, zlen.
  destruct (next_fate st); [|cbn; rewrite length_drop; naive_solver lia..].
  destruct (Z.ltb_spec (Z.of_nat (ahead_of st)) len); cbn; rewrite length_drop; [naive_solver lia|].
  split; [done|]. split; [lia|]. intros bytes [= <-]. rewrite length_take. lia.
Qed.

Lemma write_all_ends bytes context st :
  ends (write_all_or_shutdown bytes context) st (λ r st', r ≠ Panic ∧ st_input st' = st_input st).
Proof. unfold ends, write_all_or_shutdown. by destruct (next_fate st). Qed.

Lemma write_handshake_ends st :
  ends (write_handshake eof_message) st (λ r st', r ≠ Panic ∧ (ahead_of st' ≤ ahead_of st)%nat).
Proof.
  apply ends_seq. eapply ends_weaken; [apply write_all_ends|]. intros r st' [Hp Hi]. rewrite <-Hi.
  destruct r as [[]|e|]; [|by split..|done]. cbn [negb]. apply ends_seq. eapply ends_weaken; [by apply read_exact_ends|].
  intros [[bytes|]|e|] st2 (Hp2 & Hle & Hb); [|by split..]. destruct (Hb bytes eq_refl) as [Hl _].
  apply ends_seq, ends_protocol; [|by split..]. apply decode_client_flags_no_panic. by rewrite Hl.
Qed.

(** Closes the goals of a step that ends the computation. *)
Ltac quiet := hnf; cbn; split; [done|]; split; [lia|]; let H := fresh in intros ? H; first [discriminate H | lia].

Lemma read_option_request_ends st :
  ends (read_option_request eof_message) st (λ r st', r ≠ Panic ∧ (ahead_of st' ≤ ahead_of st)%nat ∧
    ∀ q, r = Ok (Some q) → (ahead_of st' < ahead_of st)%nat).
Proof.
  apply ends_seq. eapply ends_weaken; [by apply read_exact_ends|].
  intros [[bytes|]|e|] st1 (Hp & Hle & Hb); [|quiet..]. destruct (Hb bytes eq_refl) as [Hl Hst1].
  change (Z.to_nat _) with 16%nat in Hst1.
  apply ends_seq, ends_protocol; [apply parse_option_request_header_no_panic; by rewrite Hl| |intros e; quiet].
  intros h Hh. apply parse_option_request_header_sound in Hh as (_ & Hn & _); [|by rewrite Hl].
  apply ends_seq, ends_protocol; [unfold request_bounded_payload_len, bounded_payload_len; by case_bool| |intros e; quiet].
  intros n Hb'. apply bounded_payload_len_ok in Hb' as [Hmax ->].
  apply ends_seq. eapply ends_weaken; [apply read_exact_ends, Hn|].
  intros [[payload|]|e|] st2 (Hp2 & Hle2 & Hb2); [|quiet..]. destruct (Hb2 payload eq_refl) as [Hl2 Hst2].
  apply ends_seq, ends_protocol; [|intros; quiet..]. apply parse_option_request_no_panic.
  rewrite zlen_app, Hl, Hl2. unfold OPTION_REQUEST_HEADER_BYTES, MAX_OPTION_PAYLOAD_BYTES, u64_max in *. lia.
Qed.

Lemma encode_option_reply_no_panic option t payload : encode_option_reply option t payload ≠ Panic.
Proof.
  unfold encode_option_reply, u32_try_from, bounded_payload_len. destruct (zlen payload <=? u32_max); cbn; [|done].
  by destruct (MAX_OPTION_PAYLOAD_BYTES <? zlen payload).
Qed.

(** Replies without a message of variable length are always encoded. *)
Lemma encode_short_reply option t payload :
  zlen payload ≤ MAX_OPTION_PAYLOAD_BYTES →
  encode_option_reply option t payload = Ok (option_reply_bytes option t (zlen payload) ++ payload).
Proof. intros H. by apply encode_option_reply_ok. Qed.

Lemma write_go_error_ends option error st :
  ends (write_go_error option error) st (λ r st', r ≠ Panic ∧ (ahead_of st' ≤ ahead_of st)%nat).
Proof.
  unfold write_go_error. apply ends_seq. generalize (list_byte_of_string (ServerError_display error)) as message. intros message.
  apply ends_protocol; [destruct error; unfold encode_policy_option_reply, encode_unknown_export_reply; apply encode_option_reply_no_panic| |intros e; split; [discriminate|lia]].
  intros reply _. eapply ends_weaken; [apply write_all_ends|]. intros r st' [? ->]. by split.
Qed.

(** ** The registry calls *)

Context (registry_open : ExportName → ExportOwner → SResult ExportRecord)
  (registry_close : ExportName → ExportOwner → SResult unit).
Hypothesis open_returns : ∀ name owner, registry_open name owner ≠ Panic.
Hypothesis close_returns : ∀ name owner, registry_close name owner ≠ Panic.

(** A connection that opened nothing, or closed what it opened. *)
Definition settled (calls : list RegistryCall) : Prop :=
  calls = [] ∨ (∃ name owner e, calls = [CallOpen name owner (Err e)]) ∨
  ∃ name owner meta r, calls = [CallOpen name owner (Ok meta); CallClose name owner r].

(** The calls after a negotiation: an export that is handed on is open, and anything else is settled. *)
Definition negotiated (r : SResult (option ConnectionExport)) (calls : list RegistryCall) : Prop :=
  r ≠ Panic ∧
  match r with
  | Ok (Some export) =>
      registry_open (ce_name export) (ce_owner export) = Ok (ce_meta export) ∧
      calls = [CallOpen (ce_name export) (ce_owner export) (Ok (ce_meta export))]
  | _ => settled calls
  end.

Lemma on_stream_ends {A} (m : M Stream ServerError A) w Q :
  ends m (sv_stream w) (λ r st, Q r (mkServe st (sv_next_owner w) (sv_calls w))) → ends (on_stream m) w Q.
Proof. unfold ends, on_stream, zoom. by destruct (m (sv_stream w)). Qed.

Lemma write_or_close_ends name owner bytes context w meta :
  sv_calls w = [CallOpen name owner (Ok meta)] →
  ends (write_or_close registry_close name owner bytes context) w (λ r w', r ≠ Panic ∧
    match r with Ok true => sv_calls w' = sv_calls w | _ => settled (sv_calls w') end).
Proof.
  intros Hw. pose proof (write_all_ends bytes context (sv_stream w)) as [Hp Hi]. pose proof (close_returns name owner) as Hc.
  unfold ends, write_or_close, on_stream, zoom in *. destruct (write_all_or_shutdown bytes context (sv_stream w)) as [[[]|e|] st]; cbn in *; [done| | |done].
  all: unfold mseq, close_ignored, call_close; cbn; destruct (registry_close name owner) eqn:Hr; cbn; [..|done]; (split; [done|]);
    right; right; rewrite Hw; by eexists _, _, _, _.
Qed.

Lemma negotiate_go_ends go w :
  sv_calls w = [] → ends (negotiate_go registry_open registry_close go) w (λ r w', negotiated r (sv_calls w')).
Proof.
  intros Hw. apply ends_seq. unfold ends at 1, mlift. cbn.
  assert (Hname : ExportName_new (go_export_name go) ≠ Panic) by (unfold ExportName_new; by case_match; [|case_match]).
  destruct (ExportName_new _) as [name|e|]; [|split; [done|by left]|done]. cbn. apply ends_seq. unfold ends at 1. cbn.
  set (owner := sv_next_owner w). unfold ends at 1, call_open. cbn. pose proof (open_returns name owner) as Ho.
  set (w1 := mkServe _ _ _). assert (Hc : sv_calls w1 = [CallOpen name owner (registry_open name owner)]) by (cbn; by rewrite Hw).
  clearbody w1. destruct (registry_open name owner) as [meta|error|] eqn:Hopen; [| |done].
  - change (ends (let! export_info := from_protocol (encode_export_info_reply NBD_OPT_GO (size_bytes (r_head meta)) SUPPORTED_TRANSMISSION_FLAGS) in
       let! written := write_or_close registry_close name owner export_info "write NBD export info" in
       if negb written then mret None
       else
         let! ack := from_protocol (encode_ack_reply NBD_OPT_GO) in
         let! written := write_or_close registry_close name owner ack "write NBD_OPT_GO ack" in
         if negb written then mret None else mret (Some (mkConnectionExport name owner meta))) w1 (λ r w', negotiated r (sv_calls w'))).
    rewrite encode_export_info_reply_eq, encode_short_reply by (unfold zlen; by rewrite !length_app, !length_be_bytes).
    apply ends_seq. unfold ends at 1. cbn. apply ends_seq. eapply ends_weaken; [by eapply write_or_close_ends|].
    intros [[]|e|] w2 [Hp Hw2]; [| by split | by split | done]. cbn [negb]. unfold encode_ack_reply. rewrite encode_short_reply by done.
    apply ends_seq. unfold ends at 1. cbn. apply ends_seq. eapply ends_weaken; [eapply write_or_close_ends; by rewrite Hw2|].
    intros [[]|e|] w3 [Hp3 Hw3]; [|by split..|done]. split; [done|]. cbn. split; [done|]. by rewrite Hw3, Hw2.
  - change (ends (let! _ := on_stream (write_go_error NBD_OPT_GO error) in mret (None : option ConnectionExport)) w1
      (λ r w', negotiated r (sv_calls w'))).
    apply ends_seq, on_stream_ends. eapply ends_weaken; [apply write_go_error_ends|].
    assert (Hs : settled (sv_calls w1)) by (right; left; rewrite Hc; by eexists _, _, _).
    intros [b|e|] st [Hp _]; [by split|by split|done].
Qed.

Lemma negotiate_loop_ends fuel w :
  (ahead_of (sv_stream w) < fuel)%nat → sv_calls w = [] →
  ends (negotiate_loop eof_message registry_open registry_close fuel) w (λ r w', negotiated r (sv_calls w')).
Proof.
  revert w. induction fuel as [|fuel IH]; intros w Hf Hw; [lia|].
  assert (Hs : settled []) by (by left).
  cbn [negotiate_loop]. apply ends_seq, on_stream_ends. eapply ends_weaken; [apply read_option_request_ends|].
  intros [[q|]|e|] st (Hp & Hle & Hq); [|by rewrite Hw..|done]. specialize (Hq q eq_refl). destruct q as [go|payload|code payload].
  - apply negotiate_go_ends. done.
  - unfold encode_ack_reply. rewrite encode_short_reply by done. apply ends_seq. unfold ends at 1. cbn. apply ends_seq, on_stream_ends.
    eapply ends_weaken; [apply write_all_ends|]. intros [b|e|] st' [Hp' _]; [| |done]; split; cbn; by rewrite ?Hw.
  - unfold encode_unsupported_option_reply. rewrite encode_short_reply by by_compute. apply ends_seq. unfold ends at 1. cbn.
    apply ends_seq, on_stream_ends. eapply ends_weaken; [apply write_all_ends|].
    intros [[]|e|] st' [Hp' Hi]; [|split; cbn; by rewrite ?Hw..|done]. apply IH; [|done]. cbn in *. rewrite Hi. lia.
Qed.

Lemma negotiate_options_ends w :
  sv_calls w = [] → ends (negotiate_options eof_message registry_open registry_close) w (λ r w', negotiated r (sv_calls w')).
Proof. intros Hw. apply (negotiate_loop_ends (S (ahead_of (sv_stream w))) w); [lia|done]. Qed.

Lemma serve_ends run w :
  (∀ export st, (run export st).1 ≠ Panic) → sv_calls w = [] →
  ends (serve_with_shutdown eof_message registry_open registry_close run) w (λ r w', r ≠ Panic ∧ settled (sv_calls w')).
Proof.
  intros Hrun Hw. assert (Hs : settled []) by (by left).
  apply ends_seq, on_stream_ends. eapply ends_weaken; [apply write_handshake_ends|].
  intros [[]|e|] st [Hp _]; [|split; cbn; by rewrite ?Hw..|done]. cbn [negb]. apply ends_seq.
  eapply ends_weaken; [by apply negotiate_options_ends|].
  intros [[export|]|e|] w1 [Hp1 Hn]; [|by split..|done]. destruct Hn as [_ Hc]. unfold ends, on_stream, zoom.
  specialize (Hrun export (sv_stream w1)). destruct (run export (sv_stream w1)) as [r st1]. cbn in *.
  pose proof (close_returns (ce_name export) (ce_owner export)) as Hclose.
  destruct r as [u|e|]; [| |done]; cbn; (split; [done|]); right; right; rewrite Hc; by eexists _, _, _, _.
Qed.
End serve.

(** ** The reader against the encoder of the client *)

Section reading.
Context (eof_message : string) (connection_id : Z).
Implicit Types (q : TransmissionRequest) (st : Stream).

(** The message of a request: what the client library sends for it. *)
Definition message q : list byte := encode_request_header (request_header q) ++ request_payload q.

(** The job of a request, with its number on the connection. *)
Definition request_job (number : Z) q : option (ExportJob * ReplyKind) :=
  match q with
  | TReqRead cookie offset length =>
      Some (mkJob (mkJobContext connection_id number cookie "read" (Some offset) (Some length) "read") (ReqRead offset length), KindRead)
  | TReqWrite cookie offset data =>
      Some (mkJob (mkJobContext connection_id number cookie "write" (Some offset) (Some (zlen data)) "simple") (ReqWrite offset data),
            KindSimple)
  | TReqFlush cookie => Some (mkJob (mkJobContext connection_id number cookie "flush" None None "simple") ReqFlush, KindSimple)
  | TReqDisconnect _ => None
  end.

(** The jobs of the requests up to a disconnect. *)
Fixpoint jobs_of (number : Z) (qs : list TransmissionRequest) : list (ExportJob * ReplyKind) :=
  match qs with
  | [] => []
  | q :: qs => match request_job number q with Some job => job :: jobs_of (number + 1) qs | None => [] end
  end.

(** What a client may send. *)
Definition sendable q : Prop := ProtocolTransmission.request_typed q ∧ request_admissible q MAX_IO_BYTES.

Lemma message_encoded q : sendable q → encode_request q = Ok (message q).
Proof. intros [_ H]. by apply encode_request_ok. Qed.

Lemma message_length q : zlen (message q) = REQUEST_HEADER_BYTES + zlen (request_payload q).
Proof. unfold message. by rewrite zlen_app, encode_request_header_length. Qed.

Lemma read_exact_inv len st bytes st' :
  0 ≤ len → read_exact len st = (ReadDone bytes, st') →
  zlen bytes = len ∧ st_input st = bytes ++ st_input st' ∧ st_fates st' = tail (st_fates st).
Proof.
  intros Hlen. unfold read_exact. destruct (next_fate st); [|done..]. destruct (Z.ltb_spec (zlen (st_input st)) len) as [|Hl]; [done|].
  intros [= <- <-]. cbn. unfold zlen in *. rewrite length_take, take_drop. split_and!; [lia|done|done].
Qed.

Lemma read_exact_ok len bytes rest output :
  zlen bytes = len → read_exact len (mkStream (bytes ++ rest) output []) = (ReadDone bytes, mkStream rest output []).
Proof.
  intros <-. unfold read_exact. cbn. rewrite zlen_app. pose proof (zlen_nonneg rest). destruct (Z.ltb_spec (zlen bytes + zlen rest) (zlen bytes)); [lia|].
  unfold zlen. by rewrite Nat2Z.id, take_app_length, drop_app_length.
Qed.

Lemma parse_request_header_sound bytes h :
  zlen bytes ≤ u64_max → parse_request_header bytes = Ok h → header_typed h ∧ bytes = encode_request_header h.
Proof.
  intros Hl (r & r' & Hr & <- & H)%run_reader_inv; [|done]. apply mseq_inv in H as (h0 & r1 & H1 & H).
  apply parse_header_determines in H1 as (Hr1 & bs & -> & Ht & ->); [|done].
  apply finish_inv in H as [-> ->]; [|done]. by rewrite app_nil_r.
Qed.

Lemma parse_request_header_accepts h : header_typed h → parse_request_header (encode_request_header h) = Ok h.
Proof.
  intros Ht. apply run_decodes; [rewrite encode_request_header_length; by_compute|].
  rewrite <-(app_nil_r (encode_request_header h)). eapply decodes_mseq; [by apply parse_header_decodes|].
  eapply (decodes_mseq _ _ [] []); [apply decodes_no_trailing|apply decodes_mret].
Qed.

(** The payload that a header announces. *)
Lemma payload_len_bounds h n : header_typed h → payload_len h MAX_IO_BYTES = Ok n → 0 ≤ n ≤ u32_max.
Proof.
  intros Ht Hn. pose proof (payload_len_nonneg _ _ _ Ht Hn). pose proof Hn as Hc. apply payload_len_cases in Hc.
  destruct Hc as [(_ & Hh)|[(_ & -> & _)|[(_ & Hh)|(_ & Hh)]]].
  2: { destruct Ht as (_ & _ & _ & _ & Hlen). split; [lia|apply Hlen]. }
  all: rewrite Hh in Hn; apply payload_len_request_inv in Hn; subst n; by_compute.
Qed.

Lemma decode_request_job env number q n :
  n = zlen (request_payload q) →
  submit_request connection_id env number n q =
    match request_job number q with
    | None => StepExit (exit_close (Ok tt))
    | Some (job, kind) =>
        match re_submit env with
        | Ok _ => StepSubmitted job kind (u64_add number 1)
        | Err error => StepReply (TransmissionRequest_cookie q) error
        | Panic => StepPanic
        end
    end.
Proof. intros ->. by destruct q. Qed.

(** An accepted job is the job of the request at the front of the input. *)
Lemma read_request_sound env number st job kind number' st' :
  read_request eof_message connection_id env number st = (StepSubmitted job kind number', st') →
  ∃ q, sendable q ∧ request_job number q = Some (job, kind) ∧ st_input st = message q ++ st_input st' ∧ number' = u64_add number 1.
Proof.
  unfold read_request. destruct (read_exact REQUEST_HEADER_BYTES st) as [[bytes| | |] st1] eqn:Hr; [|done..].
  apply read_exact_inv in Hr as (Hl & Hi & _); [|done].
  destruct (parse_request_header bytes) as [h|e|] eqn:Hh; [|done..]. apply parse_request_header_sound in Hh as [Ht Hb]; [|by rewrite Hl].
  destruct (payload_len h MAX_IO_BYTES) as [n|e|] eqn:Hn; [|done..]. pose proof (payload_len_bounds _ _ Ht Hn) as Hnb.
  unfold read_payload. destruct (rh_command h =? NBD_CMD_DISC); [done|]. destruct (re_reserve env) as [[[]|e|]|]; [|done..].
  destruct (read_exact n st1) as [[payload| | |] st2] eqn:Hr2; [|done..]. apply read_exact_inv in Hr2 as (Hl2 & Hi2 & _); [|lia].
  destruct (parse_request (bytes ++ payload) MAX_IO_BYTES) as [q|e|] eqn:Hq; [|done..].
  apply parse_request_sound in Hq as (Hqt & Hqa & Hqe).
  2: { rewrite zlen_app, Hl, Hl2. unfold REQUEST_HEADER_BYTES, u32_max, u64_max in *. lia. }
  assert (Hp : payload = request_payload q).
  { pose proof (encode_request_header_length (request_header q)) as Hhl. unfold zlen in *.
    apply app_inj_1 in Hqe as [_ ?]; [done|lia]. }
  rewrite decode_request_job by (by rewrite <-Hp, Hl2). destruct (request_job number q) as [[j k]|] eqn:Hj; [|done].
  destruct (re_submit env); [|done..]. intros [= <- <- <- <-]. exists q. split; [by split|]. split; [done|].
  split; [|done]. rewrite Hi, Hi2. unfold message. by rewrite <-Hqe, app_assoc.
Qed.

(** A request at the front of the input is accepted, if the runtime takes it. *)
Lemma read_request_accepts number q rest output :
  sendable q →
  read_request eof_message connection_id env_ok number (mkStream (message q ++ rest) output []) =
    match request_job number q with
    | Some (job, kind) => (StepSubmitted job kind (u64_add number 1), mkStream rest output [])
    | None => (StepExit (exit_close (Ok tt)), mkStream rest output [])
    end.
Proof.
  intros [Ht Ha]. unfold read_request, message. rewrite <-app_assoc, read_exact_ok by apply encode_request_header_length.
  rewrite parse_request_header_accepts by done. pose proof Ha as Hn. apply payload_len_request in Hn. rewrite Hn. unfold read_payload.
  destruct (Z.eqb_spec (rh_command (request_header q)) NBD_CMD_DISC) as [Hd|Hd]; [by destruct q|].
  cbn [env_ok re_reserve]. rewrite read_exact_ok by done. rewrite parse_request_accepts by done.
  rewrite decode_request_job by done. by destruct q.
Qed.

Lemma read_request_no_panic env number st :
  re_reserve env ≠ ReserveDone Panic → re_submit env ≠ Panic → (read_request eof_message connection_id env number st).1 ≠ StepPanic.
Proof.
  intros He1 He2. unfold read_request. destruct (read_exact REQUEST_HEADER_BYTES st) as [[bytes| | |] st1] eqn:Hr; [|done..].
  apply read_exact_inv in Hr as (Hl & _ & _); [|done].
  pose proof (parse_request_header_no_panic bytes ltac:(by rewrite Hl)).
  destruct (parse_request_header bytes) as [h|e|] eqn:Hh; [|done..]. apply parse_request_header_sound in Hh as [Ht Hb]; [|by rewrite Hl].
  pose proof (payload_len_not_panic h MAX_IO_BYTES).
  destruct (payload_len h MAX_IO_BYTES) as [n|e|] eqn:Hn; [|done..]. pose proof (payload_len_bounds _ _ Ht Hn) as Hnb.
  unfold read_payload. destruct (rh_command h =? NBD_CMD_DISC); [done|]. destruct (re_reserve env) as [[[]|e|]|]; [|done..].
  destruct (read_exact n st1) as [[payload| | |] st2] eqn:Hr2; [|done..]. apply read_exact_inv in Hr2 as (Hl2 & _ & _); [|lia].
  pose proof (parse_request_no_panic (bytes ++ payload) MAX_IO_BYTES) as Hpp.
  rewrite zlen_app, Hl, Hl2 in Hpp. specialize (Hpp ltac:(unfold REQUEST_HEADER_BYTES, u32_max, u64_max in *; lia)).
  destruct (parse_request (bytes ++ payload) MAX_IO_BYTES) as [q|e|]; [|done..]. unfold submit_request.
  destruct (decode_job n q) as [[[[[c k] r] o] l]|]; [|done]. cbn. by destruct (re_submit env).
Qed.
End reading.

Section reading_all.
Context (eof_message : string) (connection_id : Z).
Abbreviation read_all := (read_requests eof_message connection_id) (only parsing).
Abbreviation jobs_from := (jobs_of connection_id) (only parsing).

(** A runtime whose calls return. *)
Definition env_returns (env : ReaderEnv) : Prop := re_reserve env ≠ ReserveDone Panic ∧ re_submit env ≠ Panic.

(** The end of a session: the client disconnects, or closes its side of the stream. *)
Definition session_end (rest : list byte) : Prop :=
  zlen rest < REQUEST_HEADER_BYTES ∨ ∃ cookie rest', is_u64 cookie ∧ rest = message (TReqDisconnect cookie) ++ rest'.

Lemma read_all_sound fuel envs number st jobs step :
  0 ≤ number → number + zlen (st_input st) ≤ u64_max → read_all fuel envs number st = Some (jobs, step) →
  ∃ qs rest, Forall sendable qs ∧ st_input st = concat (message <$> qs) ++ rest ∧ jobs = jobs_from number qs ∧ length jobs = length qs.
Proof.
  revert envs number st jobs. induction fuel as [|fuel IH]; intros envs number st jobs H0 Hn; [done|]. cbn.
  destruct (read_request eof_message connection_id (default env_ok (head envs)) number st) as [[job kind number'|cookie e|exit|] st'] eqn:Hr.
  2-4: intros [= <- <-]; by exists [], (st_input st).
  apply read_request_sound in Hr as (q & Hq & Hj & Hi & ->).
  assert (Hlen : zlen (st_input st) = REQUEST_HEADER_BYTES + zlen (request_payload q) + zlen (st_input st')) by (by rewrite Hi, zlen_app, message_length).
  pose proof (zlen_nonneg (request_payload q)). pose proof (zlen_nonneg (st_input st')). unfold REQUEST_HEADER_BYTES in Hlen.
  rewrite u64_add_id by lia.
  destruct (read_all fuel (tail envs) (number + 1) st') as [[jobs' step']|] eqn:Hrec; [|done]. intros [= <- <-].
  apply IH in Hrec as (qs & rest & Hqs & Hi' & -> & Hl); [|lia|lia].
  exists (q :: qs), rest. split; [by constructor|]. split; [cbn; by rewrite Hi, Hi', app_assoc|]. cbn. rewrite Hj. cbn. by rewrite Hl.
Qed.

Lemma read_all_total fuel envs number st :
  (length (st_input st) < fuel)%nat → Forall env_returns envs →
  ∃ jobs step, read_all fuel envs number st = Some (jobs, step) ∧ step ≠ StepPanic ∧ ∀ job kind n, step ≠ StepSubmitted job kind n.
Proof.
  revert envs number st. induction fuel as [|fuel IH]; intros envs number st Hf He; [lia|]. cbn.
  assert (Hh : env_returns (default env_ok (head envs))) by (destruct He; [by split|done]).
  pose proof (read_request_no_panic eof_message connection_id _ number st (proj1 Hh) (proj2 Hh)) as Hp.
  destruct (read_request eof_message connection_id (default env_ok (head envs)) number st) as [[job kind number'|cookie e|exit|] st'] eqn:Hr.
  2-3: by eexists [], _. 2: done.
  apply read_request_sound in Hr as (q & _ & _ & Hi & _).
  destruct (IH (tail envs) number' st') as (jobs & step & -> & Hs); [|by destruct He|cbn; eauto].
  pose proof (message_length q) as Hm. pose proof (zlen_nonneg (request_payload q)). unfold zlen, REQUEST_HEADER_BYTES in *.
  rewrite Hi, length_app in Hf. lia.
Qed.

Lemma read_all_accepts qs number rest output fuel :
  0 ≤ number → number + zlen qs ≤ u64_max → Forall sendable qs → Forall (λ q, ∀ c, q ≠ TReqDisconnect c) qs → session_end rest →
  (length qs < fuel)%nat →
  read_all fuel [] number (mkStream (concat (message <$> qs) ++ rest) output []) = Some (jobs_from number qs, StepExit (exit_close (Ok tt))).
Proof.
  intros H0 Hn Hqs Hnd Hend. revert number fuel H0 Hn Hnd. induction Hqs as [|q qs Hq Hqs IH]; intros number [|fuel] H0 Hn Hnd Hf; cbn in Hf; try lia.
  - cbn. destruct Hend as [Hs|(cookie & rest' & Hc & ->)].
    + unfold read_request, read_exact. cbn. by rewrite (proj2 (Z.ltb_lt _ _) Hs).
    + rewrite read_request_accepts; [done|]. split; [|done]. by unfold ProtocolTransmission.request_typed, header_typed.
  - apply Forall_cons in Hnd as [Hd Hnd]. unfold zlen in Hn. cbn [length] in Hn.
    cbn [read_requests]. change (concat (message <$> q :: qs)) with (message q ++ concat (message <$> qs)). rewrite <-app_assoc. cbn [head default].
    rewrite read_request_accepts by done. cbn [jobs_of].
    destruct (request_job connection_id number q) as [[job kind]|] eqn:Hj; [|destruct q; try done; by destruct (Hd cookie)].
    rewrite u64_add_id by lia. cbn [tail]. rewrite IH; [done|lia|unfold zlen; lia|done|lia].
Qed.
End reading_all.

(** ** The invariant of the transmission phase *)

Section accounting.
Implicit Types (job : ExportJob * ReplyKind) (replies : list ConnectionReply).

(** What identifies a request of the connection: its context, with the request sequence and the cookie, and the
    kind of its reply. *)
Definition job_key job : ExportJobContext * ReplyKind := (job_context job.1, job.2).

Definition reply_key (reply : ConnectionReply) : option (ExportJobContext * ReplyKind) :=
  match cr_payload reply with PayloadExport context kind _ => Some (context, kind) | PayloadSimpleError _ => None end.

(** The requests that some replies answer, and how many of them are errors of the reader. *)
Definition answered replies : list (ExportJobContext * ReplyKind) := omap reply_key replies.
Definition reader_errors replies : nat := length (filter (λ reply, reply_key reply = None) replies).

(** A reply carries the cookie of the request it answers. *)
Definition reply_ok (reply : ConnectionReply) : Prop :=
  match cr_payload reply with PayloadExport context _ _ => cr_cookie reply = jc_cookie context | PayloadSimpleError error => error = NBD_EINVAL end.

Definition pending (jobs : gmap Z (ExportJob * ReplyKind)) : list (ExportJobContext * ReplyKind) :=
  (λ p, job_key p.2) <$> map_to_list jobs.

Lemma pending_insert jobs s job : jobs !! s = None → pending (<[s := job]> jobs) ≡ₚ job_key job :: pending jobs.
Proof. intros Hs. unfold pending. by rewrite map_to_list_insert. Qed.

Lemma pending_delete jobs s job : jobs !! s = Some job → pending jobs ≡ₚ job_key job :: pending (delete s jobs).
Proof. intros Hs. unfold pending. by rewrite <-(map_to_list_delete _ _ _ Hs). Qed.

Lemma pending_lookup jobs s job : jobs !! s = Some job → job_key job ∈ pending jobs.
Proof. intros Hs. rewrite (pending_delete _ _ _ Hs). by left. Qed.

Lemma answered_app r r' : answered (r ++ r') = answered r ++ answered r'.
Proof. apply omap_app. Qed.

Lemma reader_errors_app r r' : reader_errors (r ++ r') = (reader_errors r + reader_errors r')%nat.
Proof. unfold reader_errors. by rewrite filter_app, length_app. Qed.

Lemma answered_export context kind result : answered [reply_export_result context kind result] = [(context, kind)].
Proof. done. Qed.
Lemma errors_export context kind result : reader_errors [reply_export_result context kind result] = 0%nat.
Proof. unfold reader_errors. by rewrite filter_cons_False. Qed.
Lemma errors_simple cookie error : reader_errors [reply_simple_error cookie error] = 1%nat.
Proof. unfold reader_errors. by rewrite filter_cons_True. Qed.
End accounting.

Section transmission.
Context (eof_message : string) (connection_id : Z) (reply_capacity : nat) (input output : list byte).
Implicit Types w : ConnWorld.
Abbreviation step := (cn_step eof_message connection_id reply_capacity) (only parsing).

(** Where the accepted requests are, as long as none was dropped with the writer. *)
Definition accounted w : list (ExportJobContext * ReplyKind) :=
  pending (cn_jobs w) ++ answered (cn_queue w) ++ answered (cn_written w) ++ (job_key <$> cn_lost w).

Definition writer_intact (writer : WriterState) : Prop := writer = Writing ∨ writer = WriterDrained.

Record cn_inv w : Prop := {
  ci_requests : ∃ qs rest, Forall sendable qs ∧ input = concat (message <$> qs) ++ rest ∧
    cn_accepted w = jobs_of connection_id 1 qs ∧ length (cn_accepted w) = length qs ∧ (cn_reader w = Reading → rest = cn_input w);
  ci_sequence : cn_sequence w = 1 + zlen (cn_accepted w);
  ci_jobs : ∀ s job, cn_jobs w !! s = Some job → job_sequence job.1 = s;
  ci_accounted : accounted w ⊆+ (job_key <$> cn_accepted w);
  ci_intact : writer_intact (cn_writer w) → (job_key <$> cn_accepted w) ≡ₚ accounted w;
  ci_drained : cn_writer w = WriterDrained → cn_jobs w = ∅ ∧ cn_queue w = [] ∧ cn_reader w ≠ Reading;
  ci_output : ∃ torn, cn_output w = output ++ concat (reply_bytes <$> cn_written w) ++ torn ∧ (writer_intact (cn_writer w) → torn = []);
  ci_errors : (reader_errors (cn_queue w ++ cn_written w) ≤ match cn_reader w with ReaderEnded _ => 1 | _ => 0 end)%nat;
  ci_replies : Forall reply_ok (cn_queue w ++ cn_written w);
  ci_aborted : cn_writer w = WriterAborted → ∃ exit, cn_reader w = ReaderEnded exit ∧ ∀ x, exit = Some x → rx_reply_drain x = DropPending;
  ci_returned : ∀ r, cn_main w = Returned r → cn_writer w ≠ Writing;
}.

(** The requests on the connection are numbered from one. *)
Lemma jobs_of_sequences number qs :
  length (jobs_of connection_id number qs) = length qs →
  (λ job, job_sequence job.1) <$> jobs_of connection_id number qs = seqZ number (zlen qs).
Proof.
  revert number. induction qs as [|q qs IH]; intros number; [done|]. cbn [jobs_of].
  destruct (request_job connection_id number q) as [job|] eqn:Hj; [|done]. cbn. intros [= Hl].
  rewrite seqZ_cons by (unfold zlen; cbn; lia). rewrite (IH (number + 1)) by done. f_equal; [destruct q; by inversion Hj|].
  unfold zlen. cbn [length]. f_equal; lia.
Qed.

Lemma key_sequence job job' : job_key job = job_key job' → job_sequence job.1 = job_sequence job'.1.
Proof. destruct job as [[c r] k], job' as [[c' r'] k']. by intros [= -> ->]. Qed.

Lemma accepted_sequences w : cn_inv w → (λ job, job_sequence job.1) <$> cn_accepted w = seqZ 1 (zlen (cn_accepted w)).
Proof.
  intros Hi. destruct (ci_requests _ Hi) as (qs & rest & _ & _ & Ha & Hl & _). unfold zlen. rewrite Hl, Ha. apply jobs_of_sequences. by rewrite <-Ha.
Qed.

(** The next request sequence is not in use. *)
Lemma next_sequence_fresh w : cn_inv w → cn_jobs w !! cn_sequence w = None.
Proof.
  intros Hi. destruct (cn_jobs w !! cn_sequence w) as [job|] eqn:Hs; [|done]. exfalso.
  assert (Hin : job_key job ∈ job_key <$> cn_accepted w).
  { eapply elem_of_submseteq; [|apply (ci_accounted _ Hi)]. unfold accounted. apply elem_of_app. left. by eapply pending_lookup. }
  apply list_elem_of_fmap in Hin as (job' & Hk & Hin).
  assert (Hseq : job_sequence job'.1 ∈ (λ job, job_sequence job.1) <$> cn_accepted w) by (by apply (list_elem_of_fmap_2 (λ job, job_sequence job.1))).
  rewrite (accepted_sequences _ Hi), elem_of_seqZ in Hseq. rewrite <-(key_sequence _ _ Hk), (ci_jobs _ Hi _ _ Hs), (ci_sequence _ Hi) in Hseq. lia.
Qed.

Lemma cn_inv_new : cn_inv (ConnWorld_new input output).
Proof.
  split; cbn; try done.
  - exists [], input. by repeat split.
  - exists []. by rewrite !app_nil_r.
Qed.

Lemma jobs_of_app number qs q :
  length (jobs_of connection_id number qs) = length qs →
  jobs_of connection_id number (qs ++ [q]) = jobs_of connection_id number qs ++ option_list (request_job connection_id (number + zlen qs) q).
Proof.
  revert number. induction qs as [|p qs IH]; intros number; cbn [jobs_of app].
  - intros _. rewrite Z.add_0_r. by destruct (request_job connection_id number q).
  - destruct (request_job connection_id number p); [|done]. cbn. intros [= Hl]. rewrite IH by done. unfold zlen. cbn [length].
    by replace (number + 1 + Z.of_nat (length qs)) with (number + Z.of_nat (S (length qs))) by lia.
Qed.
End transmission.

#[local] Arguments reply_export_result : simpl never.
#[local] Arguments reply_simple_error : simpl never.
#[local] Arguments reply_bytes : simpl never.
#[local] Arguments reader_errors : simpl never.
#[local] Arguments answered : simpl never.
#[local] Arguments pending : simpl never.

Section transmission_steps.
Context (eof_message : string) (connection_id : Z) (reply_capacity : nat) (input output : list byte).
Implicit Types w : ConnWorld.
Abbreviation inv := (cn_inv connection_id input output) (only parsing).

Definition reader_ended (reader : ReaderState) : bool := match reader with ReaderEnded _ => true | _ => false end.

(** The reader stops reading, and leaves its input where it is. *)
Lemma inv_reader w reader rest :
  inv w → reader_ended (cn_reader w) = false → reader ≠ Reading →
  inv (mkConn rest (cn_output w) (cn_sequence w) reader (cn_jobs w) (cn_queue w) (cn_writer w) (cn_main w) (cn_accepted w) (cn_written w) (cn_lost w)).
Proof.
  intros [(qs & rest' & Hqs) Hs Hj Ha Hp Hd Ho He Hr Hab Hret] Hend Hne. split; cbn; try done.
  - exists qs, rest'. destruct Hqs as (? & ? & ? & ? & _). by repeat split.
  - intros Hw. destruct (Hd Hw) as (? & ? & _). done.
  - etrans; [exact He|]. destruct (cn_reader w); [|..|done]; lia.
  - intros Hw. destruct (Hab Hw) as (exit & Hx & _). by rewrite Hx in Hend.
Qed.

Lemma inv_main w main : inv w → (∀ r, main = Returned r → cn_writer w ≠ Writing) → inv (set_main main w).
Proof. intros [] Hm. split; done. Qed.

Lemma inv_submitted w job kind rest q :
  inv w → cn_reader w = Reading → cn_sequence w < u64_max → sendable q →
  request_job connection_id (cn_sequence w) q = Some (job, kind) → cn_input w = message q ++ rest →
  inv (reader_after (StepSubmitted job kind (u64_add (cn_sequence w) 1)) rest w).
Proof.
  intros Hi Hread Hlt Hq Hj Hin. pose proof (next_sequence_fresh _ _ _ _ Hi) as Hfresh. pose proof (ci_sequence _ _ _ _ Hi) as Hseq.
  assert (Hjs : job_sequence job = cn_sequence w) by (destruct q; by inversion Hj). pose proof (zlen_nonneg (cn_accepted w)).
  destruct Hi as [(qs & rest' & Hqs & Hin' & Hacc & Hl & Hrest) Hs Hjobs Ha Hp Hd Ho He Hr Hab Hret].
  assert (Hacc1 : pending (<[job_sequence job := (job, kind)]> (cn_jobs w)) ≡ₚ job_key (job, kind) :: pending (cn_jobs w)) by (apply pending_insert; by rewrite Hjs).
  split; cbn [reader_after cn_input cn_output cn_sequence cn_reader cn_jobs cn_queue cn_writer cn_main cn_accepted cn_written cn_lost]; try done.
  - exists (qs ++ [q]), rest. rewrite !length_app, fmap_app, concat_app. cbn. rewrite app_nil_r, <-app_assoc.
    split; [apply Forall_app_2; [done|by apply Forall_singleton]|]. split; [by rewrite Hin', (Hrest Hread), Hin|].
    split; [|split; [lia|done]]. rewrite jobs_of_app by (by rewrite <-Hacc).
    replace (1 + zlen qs) with (cn_sequence w) by (rewrite Hseq; unfold zlen; by rewrite Hl). by rewrite Hj, Hacc.
  - rewrite u64_add_id by lia. rewrite zlen_app. unfold zlen at 2. cbn. lia.
  - intros s job' [[<- <-]|[_ Hs']]%lookup_insert_Some; [done|by apply Hjobs].
  - unfold accounted in *. cbn. rewrite Hacc1, fmap_app. cbn. rewrite (comm app (job_key <$> cn_accepted w)). cbn. by apply submseteq_skip.
  - intros Hw. unfold accounted in *. cbn. rewrite Hacc1, fmap_app, (Hp Hw). cbn. by rewrite (comm app _ [_]).
  - intros Hw. destruct (Hd Hw) as (_ & _ & []). done.
Qed.

(** A job leaves the map for the queue, for the history of lost jobs, or for good after the writer has ended. *)
Lemma inv_complete w s job kind result :
  inv w → cn_jobs w !! s = Some (job, kind) → cn_writer w = Writing →
  inv (finish_request s (set_queue (cn_queue w ++ [reply_export_result (job_context job) kind result]) w)).
Proof.
  intros [Hq Hs Hj Ha Hp Hd Ho He Hr Hab Hret] Hs' Hw. pose proof (pending_delete _ _ _ Hs') as Hpd.
  assert (Hacc : accounted (finish_request s (set_queue (cn_queue w ++ [reply_export_result (job_context job) kind result]) w)) ≡ₚ accounted w).
  { unfold accounted. cbn. rewrite Hpd, answered_app, answered_export. cbn. rewrite <-!(assoc_L app). cbn. by rewrite <-Permutation_middle, <-Permutation_middle. }
  split; try done; cbn.
  - intros s2 job2 [_ H2]%lookup_delete_Some. by apply Hj.
  - by rewrite Hacc.
  - intros Hi. by rewrite Hacc, Hp.
  - intros Hw'. rewrite Hw in Hw'. done.
  - revert He. rewrite !reader_errors_app, errors_export. lia.
  - apply Forall_app in Hr as [? ?]. apply Forall_app. split; [|done]. apply Forall_app. split; [done|]. by repeat constructor.
Qed.

Lemma inv_finished w s job :
  inv w → cn_jobs w !! s = Some job → cn_writer w ≠ Writing → inv (finish_request s w).
Proof.
  intros [Hq Hs Hj Ha Hp Hd Ho He Hr Hab Hret] Hs' Hw. pose proof (pending_delete _ _ _ Hs') as Hpd.
  split; try done; cbn.
  - intros s2 job2 [_ H2]%lookup_delete_Some. by apply Hj.
  - etrans; [|exact Ha]. unfold accounted. cbn. rewrite Hpd. by apply submseteq_cons.
  - intros [Hwr|Hdr]; [done|]. destruct (Hd Hdr) as [H0 _]. rewrite H0 in Hs'. done.
  - intros Hdr. destruct (Hd Hdr) as [H0 _]. rewrite H0 in Hs'. done.
Qed.

Lemma inv_lost w s job : inv w → cn_jobs w !! s = Some job → inv (finish_request s (lose_request job w)).
Proof.
  intros [Hq Hs Hj Ha Hp Hd Ho He Hr Hab Hret] Hs'. pose proof (pending_delete _ _ _ Hs') as Hpd.
  assert (Hacc : accounted (finish_request s (lose_request job w)) ≡ₚ accounted w).
  { unfold accounted. cbn. rewrite Hpd, fmap_app. cbn. rewrite !(assoc_L app). rewrite <-Permutation_cons_append. by rewrite <-!(assoc_L app). }
  split; try done; cbn.
  - intros s2 job2 [_ H2]%lookup_delete_Some. by apply Hj.
  - by rewrite Hacc.
  - intros Hi. by rewrite Hacc, Hp.
  - intros Hdr. destruct (Hd Hdr) as [H0 _]. rewrite H0 in Hs'. done.
Qed.

Lemma inv_write w reply queue :
  inv w → cn_writer w = Writing → cn_queue w = reply :: queue → inv (write_out reply (set_queue queue w)).
Proof.
  intros [Hq Hs Hj Ha Hp Hd (torn & Ho & Ht) He Hr Hab Hret] Hw Hqueue.
  assert (Hans : answered (cn_queue w) ++ answered (cn_written w) ≡ₚ answered queue ++ answered (cn_written w ++ [reply])).
  { rewrite Hqueue, answered_app. change (reply :: queue) with ([reply] ++ queue). rewrite answered_app.
    rewrite (comm app (answered [reply])), <-!(assoc_L app). by rewrite (comm app (answered [reply])). }
  assert (Hacc : accounted (write_out reply (set_queue queue w)) ≡ₚ accounted w).
  { unfold accounted. cbn. apply Permutation_app_head. rewrite !(assoc_L app). apply Permutation_app_tail. by symmetry. }
  split; try done; cbn.
  - by rewrite Hacc.
  - intros Hi. by rewrite Hacc, Hp.
  - intros Hw'. by rewrite Hw in Hw'.
  - exists []. split; [|done]. rewrite Ho, (Ht (or_introl Hw)), fmap_app, concat_app. cbn. by rewrite !app_nil_r, <-!(assoc_L app).
  - etrans; [|exact He]. rewrite Hqueue. change (reply :: queue) with ([reply] ++ queue). rewrite !reader_errors_app. lia.
  - rewrite Hqueue in Hr. apply Forall_app in Hr as [[? ?]%Forall_cons ?]. rewrite !Forall_app. by repeat constructor.
Qed.
End transmission_steps.

Section transmission_inv.
Context (eof_message : string) (connection_id : Z) (reply_capacity : nat) (input output : list byte).
Implicit Types w : ConnWorld.
Abbreviation inv := (cn_inv connection_id input output) (only parsing).
Abbreviation step := (cn_step eof_message connection_id reply_capacity) (only parsing).

Lemma inv_send_error w cookie error exit :
  inv w → cn_reader w = Sending cookie error → cn_writer w = Writing →
  inv (set_reader (ReaderEnded (Some exit)) (set_queue (cn_queue w ++ [reply_simple_error cookie NBD_EINVAL]) w)).
Proof.
  intros [(qs & rest & Hqs) Hs Hj Ha Hp Hd Ho He Hr Hab Hret] Hread Hw.
  assert (Hacc : accounted (set_reader (ReaderEnded (Some exit)) (set_queue (cn_queue w ++ [reply_simple_error cookie NBD_EINVAL]) w)) = accounted w).
  { unfold accounted. cbn. rewrite answered_app. change (answered [_]) with (@nil (ExportJobContext * ReplyKind)). by rewrite app_nil_r. }
  split; try done; cbn.
  - exists qs, rest. destruct Hqs as (? & ? & ? & ? & _). by repeat split.
  - by rewrite Hacc.
  - rewrite Hacc. done.
  - intros Hw'. by rewrite Hw in Hw'.
  - revert He. rewrite Hread, !reader_errors_app, errors_simple. lia.
  - apply Forall_app in Hr as [? ?]. rewrite !Forall_app. split; [|done]. split; [done|]. by apply Forall_singleton.
  - intros Hw'. by rewrite Hw in Hw'.
Qed.

Lemma inv_end_writer w writer moved :
  inv w → cn_writer w = Writing → ¬ writer_intact writer →
  (writer = WriterAborted → ∃ exit, cn_reader w = ReaderEnded exit ∧ ∀ x, exit = Some x → rx_reply_drain x = DropPending) →
  inv (end_writer writer moved w).
Proof.
  intros [Hq Hs Hj Ha Hp Hd (torn & Ho & Ht) He Hr Hab Hret] Hw Hni Habort.
  split; try done; cbn.
  - etrans; [|exact Ha]. unfold accounted. cbn. apply submseteq_skips_l. change (answered [] ++ answered (cn_written w) ++ (job_key <$> cn_lost w)) with (answered (cn_written w) ++ (job_key <$> cn_lost w)). by apply submseteq_inserts_l.
  - intros ->. destruct Hni. by right.
  - exists (take moved (from_option reply_bytes [] (head (cn_queue w)))). split; [|done].
    by rewrite Ho, (Ht (or_introl Hw)), app_nil_r, <-(assoc_L app).
  - etrans; [|exact He]. rewrite reader_errors_app. lia.
  - by apply Forall_app in Hr as [_ ?].
  - intros r Hr' Heq. apply Hni. by left.
Qed.

Lemma inv_drained w exit :
  inv w → cn_writer w = Writing → cn_queue w = [] → cn_jobs w = ∅ → cn_reader w = ReaderEnded exit → inv (end_writer WriterDrained 0 w).
Proof.
  intros [Hq Hs Hj Ha Hp Hd (torn & Ho & Ht) He Hr Hab Hret] Hw Hqueue Hjobs Hread.
  assert (Hacc : accounted (end_writer WriterDrained 0 w) = accounted w) by (unfold accounted; cbn; by rewrite Hqueue).
  split; try done; cbn.
  - by rewrite Hacc.
  - intros _. rewrite Hacc. apply Hp. by left.
  - intros _. by rewrite Hread.
  - exists []. split; [|done]. by rewrite Ho, (Ht (or_introl Hw)), !app_nil_r.
  - by rewrite Hqueue in He.
  - by rewrite Hqueue in Hr.
Qed.

(** The writer is aborted with its queue, or had ended before. *)
Lemma inv_abort w exit moved :
  inv w → cn_reader w = ReaderEnded exit → (∀ x, exit = Some x → rx_reply_drain x = DropPending) →
  inv (abort_writer moved w) ∧ cn_writer (abort_writer moved w) ≠ Writing.
Proof.
  intros Hi Hread Hx. unfold abort_writer. destruct (cn_writer w) eqn:Hw; [|split; [done|by rewrite Hw]..].
  split; [|done]. apply inv_end_writer; [done|done|by intros []|]. intros _. by exists exit.
Qed.

Lemma inv_step w w' : inv w → step w w' → inv w'.
Proof.
  intros Hi Hs. destruct Hs as [w env fates stp st Hread Hlt Hr|w cookie error Hread Hw _|w cookie error Hread Hw|
    w s job kind result Hs Hw _|w s job Hs Hw|w s job Hs|w reply queue Hw Hq|w reply queue moved message Hw Hq|w moved Hw|
    w exit Hw Hq Hj Hread|w moved Hm Hread|w result moved Hm Hread|w result Hm Hread|w result written Hm Hw|w written Hm Hread Hw].
  - destruct stp as [job kind number|cookie e|exit|]; [|apply inv_reader; [done|by rewrite Hread|done]..].
    apply read_request_sound in Hr as (q & Hq & Hj & Hin & ->). by eapply inv_submitted.
  - by eapply inv_send_error.
  - apply (inv_reader _ _ _ w _ (cn_input w)); [done|by rewrite Hread|done].
  - by apply inv_complete.
  - by eapply inv_finished.
  - by apply inv_lost.
  - by apply inv_write.
  - apply inv_end_writer; [done|done|by intros []|done].
  - apply inv_end_writer; [done|done|by intros []|done].
  - by eapply inv_drained.
  - destruct (inv_abort w None moved Hi Hread) as [Hi' Hw]; [done|]. by apply inv_main.
  - destruct (inv_abort w (Some (mkReaderExit result DropPending)) moved Hi Hread) as [Hi' Hw]; [by intros x [= <-]|]. by apply inv_main.
  - by apply inv_main.
  - apply inv_main; [done|]. intros r _ Heq. by rewrite Heq in Hw.
  - apply inv_main; [|cbn; intros r _ Heq; by rewrite Heq in Hw].
    apply (inv_reader _ _ _ w _ (cn_input w)); [done| |done]. destruct (cn_reader w); [done..|]. by destruct (Hread exit).
Qed.

Lemma reachable_inv w : cn_reachable eof_message connection_id reply_capacity input output w → inv w.
Proof. unfold cn_reachable. pose proof (cn_inv_new connection_id input output) as H0. induction 1 as [|w w1 w2 Hs _ IH]; [done|]. by apply IH, (inv_step w w1). Qed.
End transmission_inv.

(** ** Properties *)

(** C20: a connection closes what it opens.  Whatever bytes the client sends, and whichever calls on the stream fail or
    are cut off by the shutdown signal, serving a connection ends, without a panic, and its calls of the registry are: none; one
    open that was refused; or one open that succeeded, followed by one close of the same export for the same owner. *)
Theorem serve_closes_what_it_opens eof_message registry_open registry_close run w :
  (∀ name owner, registry_open name owner ≠ Panic) → (∀ name owner, registry_close name owner ≠ Panic) →
  (∀ export st, (run export st).1 ≠ Panic) → sv_calls w = [] →
  let '(result, w') := serve_with_shutdown eof_message registry_open registry_close run w in
  result ≠ Panic ∧ settled (sv_calls w').
Proof.
  intros Ho Hc Hr Hw. pose proof (serve_ends eof_message registry_open registry_close Ho Hc run w Hr Hw) as H.
  unfold ends in H. by destruct (serve_with_shutdown eof_message registry_open registry_close run w).
Qed.

(** C19: the reader and the client agree on where requests begin and end.  For every input the reader stops; with
    every answer of the runtime and every fate of the stream, the jobs it has submitted are those of the requests whose
    encodings make up the front of the input, in order and numbered from one; and when nothing fails it submits every request that the
    client sent before it disconnected or closed its side, and then ends without an error. *)
Theorem reader_exact eof_message connection_id input :
  zlen input < u64_max →
  (∀ envs fates, Forall env_returns envs → ∃ jobs step qs rest,
     read_requests eof_message connection_id (S (length input)) envs RequestSequenceGenerator_new (mkStream input [] fates) = Some (jobs, step) ∧
     step ≠ StepPanic ∧ (∀ job kind number, step ≠ StepSubmitted job kind number) ∧
     Forall sendable qs ∧ input = concat (message <$> qs) ++ rest ∧ jobs = jobs_of connection_id 1 qs ∧ length jobs = length qs) ∧
  ∀ qs rest, Forall sendable qs → Forall (λ q, ∀ cookie, q ≠ TReqDisconnect cookie) qs → session_end rest →
    input = concat (message <$> qs) ++ rest →
    read_requests eof_message connection_id (S (length input)) [] RequestSequenceGenerator_new (mkStream input [] []) =
      Some (jobs_of connection_id 1 qs, StepExit (exit_close (Ok tt))).
Proof.
  intros Hl. unfold RequestSequenceGenerator_new. split.
  - intros envs fates He. set (st := mkStream input [] fates).
    destruct (read_all_total eof_message connection_id (S (length input)) envs 1 st) as (jobs & step & Hr & Hp & Hs); [cbn; lia|done|].
    destruct (read_all_sound eof_message connection_id (S (length input)) envs 1 st jobs step) as (qs & rest & Hq & Hi & Hj & Hlen); [lia|cbn; lia|done|].
    by exists jobs, step, qs, rest.
  - intros qs rest Hq Hd Hend Hi. assert (Hlen : (length qs ≤ length input)%nat).
    { rewrite Hi, length_app. clear -Hq. induction Hq as [|q qs Hq _ IH]; [cbn; lia|]. cbn [fmap list_fmap concat length]. rewrite length_app.
      pose proof (message_length q) as Hm. pose proof (zlen_nonneg (request_payload q)). unfold zlen, REQUEST_HEADER_BYTES in *. lia. }
    rewrite Hi at 2. apply read_all_accepts; try done; [|lia]. unfold zlen in *. lia.
Qed.

(** C18: every request is answered at most once, and every reply answers a request.  However reader, completions and writer interleave
    and fail: the accepted jobs are those of the requests at the front of the input; the output is the encodings of the
    replies written, followed by a torn reply only if the writer has failed or was cut off; each
    reply carries the cookie and the kind of an accepted request that no other reply answers, or is the only error of the
    reader; and when the reader has asked to write what is queued and the writer neither failed nor was shut down, the
    connection returns only after every accepted job that the runtime completed has been answered. *)
Theorem connection_answers_once eof_message connection_id reply_capacity input output w :
  cn_reachable eof_message connection_id reply_capacity input output w →
  (∃ qs rest, Forall sendable qs ∧ input = concat (message <$> qs) ++ rest ∧ cn_accepted w = jobs_of connection_id 1 qs) ∧
  (∃ torn, cn_output w = output ++ concat (reply_bytes <$> cn_written w) ++ torn ∧ (writer_intact (cn_writer w) → torn = [])) ∧
  Forall reply_ok (cn_written w) ∧ (reader_errors (cn_written w) ≤ 1)%nat ∧
  NoDup (job_key <$> cn_accepted w) ∧ answered (cn_written w) ++ (job_key <$> cn_lost w) ⊆+ (job_key <$> cn_accepted w) ∧
  (∀ r exit, cn_main w = Returned r → cn_reader w = ReaderEnded (Some exit) → rx_reply_drain exit = DrainQueued →
    cn_writer w ≠ WriterShutdown → (∀ e, cn_writer w ≠ WriterFailed e) →
    (job_key <$> cn_accepted w) ≡ₚ answered (cn_written w) ++ (job_key <$> cn_lost w)).
Proof.
  intros Hi%reachable_inv. pose proof (accepted_sequences _ _ _ _ Hi) as Hseq.
  destruct Hi as [(qs & rest & Hq & Hin & Hacc & _) Hs Hj Ha Hp Hd Ho He Hr Hab Hret].
  split; [by exists qs, rest|]. split; [done|]. split; [by apply Forall_app in Hr as [_ ?]|].
  split; [rewrite reader_errors_app in He; destruct (cn_reader w); lia|].
  assert (Hsplit : answered (cn_written w) ++ (job_key <$> cn_lost w) ⊆+ accounted w).
  { unfold accounted. by do 2 apply submseteq_inserts_l. }
  split; [|split; [by etrans|]].
  - apply (NoDup_fmap_1 (λ key, jc_request_sequence key.1)). rewrite <-list_fmap_compose.
    change ((λ key, jc_request_sequence key.1) ∘ job_key) with (λ job : ExportJob * ReplyKind, job_sequence job.1).
    rewrite Hseq. apply NoDup_seqZ.
  - intros r exit Hm Hread Hdrain Hns Hnf. pose proof (Hret _ Hm) as Hnw.
    assert (Hwd : cn_writer w = WriterDrained).
    { destruct (cn_writer w); [done|done|done|by destruct (Hnf error)|].
      destruct (Hab eq_refl) as (exit' & Hx & Hdrop). rewrite Hread in Hx. injection Hx as <-. by rewrite (Hdrop exit eq_refl) in Hdrain. }
    destruct (Hd Hwd) as (Hjobs & Hqueue & _). rewrite (Hp (or_intror Hwd)). unfold accounted. by rewrite Hjobs, Hqueue.
Qed.

(** ** Sample sessions *)

Definition sample_record : ExportRecord :=
  mkRecord "id-1" "vm" 4096 Memory Active (HeadMemoryEmpty (mkMemoryHead 1048576)) "t0" "t0" None.
Definition sample_open (name : ExportName) (owner : ExportOwner) : SResult ExportRecord :=
  if bool_decide (name = "vm") then Ok sample_record else Err (ExportBusy name).
Definition sample_go_bytes : list byte :=
  match encode_go_request "vm" [NBD_INFO_EXPORT] with Ok bytes => bytes | _ => [] end.

(** A client that asks for an unknown option, opens an export and is cut off by a shutdown before the acknowledgement. *)
Definition sample_negotiation : ServeWorld :=
  mkServe (mkStream (encode_client_flags true ++ option_request_bytes 99 0 ++ sample_go_bytes) []
    (replicate 8 IoDone ++ [IoShutdown 5])) 1 [].

Lemma serve_closes_what_it_opens_witness :
  let '(result, w') := serve_with_shutdown "early eof" sample_open (λ _ _, Ok tt) (λ _, mret tt) sample_negotiation in
  (result ≠ Panic ∧ settled (sv_calls w')) ∧ length (sv_calls w') = 2%nat.
Proof.
  pose proof (serve_closes_what_it_opens "early eof" sample_open (λ _ _, Ok tt) (λ _, mret tt) sample_negotiation
    ltac:(intros name owner; unfold sample_open; by case_bool_decide) ltac:(done) ltac:(done) eq_refl) as H.
  destruct (serve_with_shutdown _ _ _ _ _) as [r w'] eqn:E. split; [exact H|].
  apply (f_equal (λ p, length (sv_calls p.2))) in E. cbn [snd] in E. rewrite <-E. vm_compute. reflexivity.
Defined.

Definition sample_requests : list TransmissionRequest := [TReqWrite 7 4096 [x00; x00]; TReqFlush 8].

Lemma sample_sendable : Forall sendable (sample_requests ++ [TReqDisconnect 9]).
Proof. repeat constructor; by_compute. Qed.

Lemma reader_exact_witness :
  let input := concat (message <$> sample_requests) ++ message (TReqDisconnect 9) in
  read_requests "early eof" 3 (S (length input)) [] RequestSequenceGenerator_new (mkStream input [] []) =
  Some (jobs_of 3 1 sample_requests, StepExit (exit_close (Ok tt))).
Proof.
  intros input.
  pose proof sample_sendable as Hs. apply Forall_app in Hs as [Hs _].
  apply (proj2 (reader_exact "early eof" 3 input ltac:(by_compute)) sample_requests (message (TReqDisconnect 9))).
  - exact Hs.
  - repeat constructor; discriminate.
  - right. exists 9, []. split; [by_compute|]. by rewrite app_nil_r.
  - reflexivity.
Defined.

(** A flush is read, completed and answered. *)
Lemma connection_answers_once_witness :
  ∃ w, cn_reachable "early eof" 3 4 (message (TReqFlush 8)) [] w ∧
    cn_written w = [reply_export_result (mkJobContext 3 1 8 "flush" None None "simple") KindSimple (Ok ReplyDone)] ∧
    Forall reply_ok (cn_written w) ∧ NoDup (job_key <$> cn_accepted w).
Proof.
  set (w0 := ConnWorld_new (message (TReqFlush 8)) []).
  set (job := mkJob (mkJobContext 3 1 8 "flush" None None "simple") ReqFlush).
  set (w1 := reader_after (StepSubmitted job KindSimple 2) [] w0).
  set (w2 := finish_request 1 (set_queue (cn_queue w1 ++ [reply_export_result (job_context job) KindSimple (Ok ReplyDone)]) w1)).
  set (w3 := write_out (reply_export_result (job_context job) KindSimple (Ok ReplyDone)) (set_queue [] w2)).
  assert (Hr : cn_reachable "early eof" 3 4 (message (TReqFlush 8)) [] w3).
  { eapply rtc_l; [exact (cn_read "early eof" 3 4 w0 env_ok [] (StepSubmitted job KindSimple 2) (mkStream [] [] []) eq_refl eq_refl ltac:(vm_compute; reflexivity))|].
    eapply rtc_l; [exact (cn_complete "early eof" 3 4 w1 1 job KindSimple (Ok ReplyDone) ltac:(vm_compute; reflexivity) eq_refl ltac:(cbn; lia))|].
    eapply rtc_l; [exact (cn_write "early eof" 3 4 w2 (reply_export_result (job_context job) KindSimple (Ok ReplyDone)) [] eq_refl eq_refl)|].
    apply rtc_refl. }
  exists w3. split; [exact Hr|]. split; [reflexivity|].
  pose proof (connection_answers_once "early eof" 3 4 (message (TReqFlush 8)) [] w3 Hr) as (_ & _ & Hok & _ & Hnd & _).
  split; [exact Hok|exact Hnd].
Defined.
