(* ===== verification/Client.v ===== *)
(** * The user-space client

    [nbd-us-client/src]: connecting, reads, writes, flushes and disconnecting over a byte stream.  The theorems put
    the client against the connection of the server: what one side writes is what the other side reads. *)

From Stdlib Require Import Strings.String.
From S2P Require Import Prelude ControlPlane ProtocolWire ProtocolOption ProtocolTransmission Server Admission Export Runtime Registry Connection.

#[local] Open Scope string_scope.
#[local] Open Scope list_scope.
#[local] Open Scope Z_scope.

(** ** Errors and the stream *)

Inductive ClientError : Type :=
| ClientIo (context message : string)
| ClientProtocol (source : ProtocolError)
| UnsupportedServerFlags (flags : Z)
| OptionError (reply_type : Z) (message : list byte)
| CommandError (command : string) (error : Z)
| CookieMismatch (expected actual : Z)
| UnexpectedOptionReply (reply : string).

(** [cs_faults]: for each of the next calls, nothing or how many bytes it moves and the text of its error. *)
Record ClientStream := mkClientStream { cs_input : list byte; cs_output : list byte; cs_faults : list (option (nat * string)) }.

Definition next_fault (st : ClientStream) : option (nat * string) := default None (head (cs_faults st)).

Section client.
(** The text of the error that [tokio] returns at the end of the input. *)
Context (eof_message : string).

Definition client_read_exact (len : Z) (context : string) : M ClientStream ClientError (list byte) := λ st,
  let rest moved := mkClientStream (drop moved (cs_input st)) (cs_output st) (tail (cs_faults st)) in
  match next_fault st with
  | Some (moved, error) => (Err (ClientIo context error), rest moved)
  | None =>
      if zlen (cs_input st) <? len then (Err (ClientIo context eof_message), rest (length (cs_input st)))
      else (Ok (take (Z.to_nat len) (cs_input st)), rest (Z.to_nat len))
  end.

Definition client_write_all (bytes : list byte) (context : string) : M ClientStream ClientError unit := λ st,
  let wrote bytes := mkClientStream (cs_input st) (cs_output st ++ bytes) (tail (cs_faults st)) in
  match next_fault st with
  | Some (moved, error) => (Err (ClientIo context error), wrote (take moved bytes))
  | None => (Ok tt, wrote bytes)
  end.

Definition client_protocol {S A} (o : ProtoResult A) : M S ClientError A := mlift (map_err ClientProtocol o).

(** ** Connecting *)

(** The checks of [read_server_handshake] on the bytes it has read. *)
Definition parse_server_handshake (bytes : list byte) : outcome ClientError unit :=
  let? flags := map_err ClientProtocol (run_reader (
    let! init := read_u64 in
    if negb (init =? INIT_PASSWD) then mfail (InvalidMagic "server handshake" INIT_PASSWD init)
    else
      let! option_magic := read_u64 in
      if negb (option_magic =? IHAVEOPT_MAGIC) then mfail (InvalidMagic "server option handshake" IHAVEOPT_MAGIC option_magic)
      else read_u16) bytes) in
  if (Z.land flags NBD_FLAG_FIXED_NEWSTYLE =? 0) || (Z.land flags NBD_FLAG_NO_ZEROES =? 0) then Err (UnsupportedServerFlags flags)
  else Ok tt.

Definition read_server_handshake : M ClientStream ClientError unit :=
  let! bytes := client_read_exact 18 "read NBD server handshake" in
  mlift (parse_server_handshake bytes).

Definition read_option_reply : M ClientStream ClientError OptionReply :=
  let! header := client_read_exact OPTION_REPLY_HEADER_BYTES "read NBD option reply header" in
  let! parsed_header := client_protocol (parse_option_reply_header header) in
  let! payload_len := client_protocol (reply_bounded_payload_len parsed_header) in
  let! payload := client_read_exact payload_len "read NBD option reply payload" in
  client_protocol (parse_option_reply (header ++ payload)).

(** The loop of [read_go_replies]; each round consumes the header of a reply. *)
Fixpoint go_replies_loop (fuel : nat) (export_info : option (Z * Z)) : M ClientStream ClientError (Z * Z) :=
  match fuel with
  | O => mlift Panic
  | S fuel =>
      let! reply := read_option_reply in
      match reply with
      | RepInfoExport _ export_size_bytes transmission_flags => go_replies_loop fuel (Some (export_size_bytes, transmission_flags))
      | RepAck _ => mlift (ok_or export_info (UnexpectedOptionReply "NBD_REP_ACK before NBD_INFO_EXPORT"))
      | RepError _ reply_type message => mfail (OptionError reply_type message)
      | RepOther _ _ _ => go_replies_loop fuel export_info
      end
  end.

Definition read_go_replies : M ClientStream ClientError (Z * Z) := λ st, go_replies_loop (S (length (cs_input st))) None st.

Record NbdClient := mkClient {
  nc_stream : ClientStream;
  nc_export_size_bytes : Z;
  nc_transmission_flags : Z;
  nc_next_cookie : Z;
}.

(** [connect], on the stream of the TCP connection. *)
Definition connect (export_name : string) : M ClientStream ClientError NbdClient :=
  let! _ := read_server_handshake in
  let! _ := client_write_all (encode_client_flags true) "write NBD client flags" in
  let! go := client_protocol (encode_go_request export_name [NBD_INFO_EXPORT]) in
  let! _ := client_write_all go "write NBD_OPT_GO" in
  let! info := read_go_replies in
  λ st, (Ok (mkClient st info.1 info.2 1), st).

Definition has_transmission_flags (client : NbdClient) : bool :=
  negb (Z.land (nc_transmission_flags client) NBD_FLAG_HAS_FLAGS =? 0).

(** ** Requests *)

Definition on_client {A} (m : M ClientStream ClientError A) : M NbdClient ClientError A :=
  zoom nc_stream (λ st c, mkClient st (nc_export_size_bytes c) (nc_transmission_flags c) (nc_next_cookie c)) m.

Definition next_cookie : M NbdClient ClientError Z := λ c,
  (Ok (nc_next_cookie c),
   mkClient (nc_stream c) (nc_export_size_bytes c) (nc_transmission_flags c) (u64_add (nc_next_cookie c) 1)).

Definition read_simple_reply (expected_cookie : Z) : M NbdClient ClientError SimpleReply :=
  let! bytes := on_client (client_read_exact SIMPLE_REPLY_BYTES "read NBD simple reply") in
  let! reply := client_protocol (parse_simple_reply bytes) in
  if negb (sr_cookie reply =? expected_cookie) then mfail (CookieMismatch expected_cookie (sr_cookie reply)) else mret reply.

Definition expect_success (cookie : Z) (command : string) : M NbdClient ClientError unit :=
  let! reply := read_simple_reply cookie in
  if sr_error reply =? 0 then mret tt else mfail (CommandError command (sr_error reply)).

Definition client_read (offset len : Z) : M NbdClient ClientError (list byte) :=
  let! cookie := next_cookie in
  let! request := client_protocol (encode_read_request cookie offset len) in
  let! _ := on_client (client_write_all request "write NBD read request") in
  let! reply := read_simple_reply cookie in
  if negb (sr_error reply =? 0) then mfail (CommandError "READ" (sr_error reply))
  else on_client (client_read_exact len "read NBD read payload").

Definition client_write (offset : Z) (data : list byte) : M NbdClient ClientError unit :=
  let! cookie := next_cookie in
  let! request := client_protocol (encode_write_request cookie offset data) in
  let! _ := on_client (client_write_all request "write NBD write request") in
  expect_success cookie "WRITE".

Definition client_flush : M NbdClient ClientError unit :=
  let! cookie := next_cookie in
  let! request := client_protocol (encode_flush_request cookie) in
  let! _ := on_client (client_write_all request "write NBD flush request") in
  expect_success cookie "FLUSH".

(** [disconnect]; the shutdown of the socket is the last call, with no bytes. *)
Definition client_disconnect : M NbdClient ClientError unit :=
  let! cookie := next_cookie in
  let! request := client_protocol (encode_disconnect_request cookie) in
  let! _ := on_client (client_write_all request "write NBD disconnect request") in
  on_client (client_write_all [] "shutdown NBD client socket").
End client.

(** ** One side writes what the other reads *)

Section exchange.
Context (eof_message : string).

Lemma client_read_ok len context bytes rest sent :
  zlen bytes = len →
  client_read_exact eof_message len context (mkClientStream (bytes ++ rest) sent []) = (Ok bytes, mkClientStream rest sent []).
Proof.
  intros <-. unfold client_read_exact. cbn. rewrite zlen_app. pose proof (zlen_nonneg rest).
  rewrite (proj2 (Z.ltb_ge _ _)) by lia. unfold zlen. by rewrite Nat2Z.id, take_app_length, drop_app_length.
Qed.

Lemma server_read_ok len context bytes rest sent :
  zlen bytes = len →
  read_exact_or_shutdown eof_message len context (mkStream (bytes ++ rest) sent []) = (Ok (Some bytes), mkStream rest sent []).
Proof. intros H. unfold read_exact_or_shutdown. by rewrite read_exact_ok. Qed.

Lemma client_handshake_ok rest sent :
  read_server_handshake eof_message (mkClientStream (encode_server_handshake ++ rest) sent []) = (Ok tt, mkClientStream rest sent []).
Proof. unfold read_server_handshake. erewrite mseq_ok by (by apply client_read_ok). vm_compute. reflexivity. Qed.

Lemma server_handshake_ok flags rest sent :
  write_handshake eof_message (mkStream (encode_client_flags flags ++ rest) sent []) = (Ok true, mkStream rest (sent ++ encode_server_handshake) []).
Proof.
  unfold write_handshake. erewrite mseq_ok by reflexivity. cbv beta iota delta [negb].
  erewrite mseq_ok by (by apply server_read_ok). cbv beta iota.
  erewrite mseq_ok; [reflexivity|]. unfold from_protocol, mlift. by destruct flags.
Qed.

(** A reply of the negotiation as a frame. *)
Lemma encode_reply_framed r bytes :
  reply_typed r → encode_reply r = Ok bytes →
  ∃ o t p, is_u32 o ∧ is_u32 t ∧ zlen p ≤ MAX_OPTION_PAYLOAD_BYTES ∧ bytes = option_reply_bytes o t (zlen p) ++ p.
Proof.
  destruct r as [o s f|o|o t m|o t p]; cbn [encode_reply reply_typed]; rewrite ?encode_export_info_reply_eq; unfold encode_ack_reply;
    intros Ht He; apply encode_option_reply_ok in He as [Hp ->].
  - refine (ex_intro _ o (ex_intro _ NBD_REP_INFO (ex_intro _ _ (conj _ (conj _ (conj Hp eq_refl)))))); [apply Ht|by_compute].
  - refine (ex_intro _ o (ex_intro _ NBD_REP_ACK (ex_intro _ _ (conj _ (conj _ (conj Hp eq_refl)))))); [apply Ht|by_compute].
  - refine (ex_intro _ o (ex_intro _ t (ex_intro _ _ (conj _ (conj _ (conj Hp eq_refl)))))); apply Ht.
  - refine (ex_intro _ o (ex_intro _ t (ex_intro _ _ (conj _ (conj _ (conj Hp eq_refl)))))); apply Ht.
Qed.

Lemma client_reply_ok r bytes rest sent :
  reply_typed r → encode_reply r = Ok bytes →
  read_option_reply eof_message (mkClientStream (bytes ++ rest) sent []) = (Ok r, mkClientStream rest sent []).
Proof.
  intros Ht He. pose proof (encode_reply_framed r bytes Ht He) as (o & t & p & Ho & Htt & Hp & ->).
  pose proof (zlen_nonneg p) as Hp0. assert (Hp32 : is_u32 (zlen p)) by (unfold is_u32, u32_max, MAX_OPTION_PAYLOAD_BYTES in *; lia).
  unfold read_option_reply. rewrite <-app_assoc. erewrite mseq_ok by (apply client_read_ok, option_reply_bytes_length).
  unfold client_protocol. rewrite parse_option_reply_header_accepts by done. erewrite mseq_ok by reflexivity.
  unfold reply_bounded_payload_len. cbn [orp_payload_len]. rewrite (proj2 (bounded_payload_len_ok _ _ (zlen p))) by done. erewrite mseq_ok by reflexivity.
  erewrite mseq_ok by (by apply client_read_ok). unfold mlift.
  assert (Hl : zlen (option_reply_bytes o t (zlen p) ++ p) ≤ u64_max).
  { rewrite zlen_app, option_reply_bytes_length. unfold OPTION_REPLY_HEADER_BYTES, MAX_OPTION_PAYLOAD_BYTES, u64_max in *. lia. }
  by rewrite (proj2 (parse_option_reply_exact _ r Hl) (conj Ht He)).
Qed.

Lemma encode_option_framed q bytes :
  option_typed q → encode_option q = Ok bytes →
  ∃ code p, is_u32 code ∧ zlen p ≤ MAX_OPTION_PAYLOAD_BYTES ∧ bytes = option_request_bytes code (zlen p) ++ p.
Proof.
  destruct q as [go|p|code p]; cbn [encode_option option_typed]; intros Ht He.
  - apply encode_go_request_ok in He as (_ & _ & _ & [Hp ->]%encode_option_request_ok).
    refine (ex_intro _ NBD_OPT_GO (ex_intro _ _ (conj _ (conj Hp eq_refl)))). by_compute.
  - apply encode_option_request_ok in He as [Hp ->]. refine (ex_intro _ NBD_OPT_ABORT (ex_intro _ _ (conj _ (conj Hp eq_refl)))). by_compute.
  - apply encode_option_request_ok in He as [Hp ->]. refine (ex_intro _ code (ex_intro _ _ (conj _ (conj Hp eq_refl)))). apply Ht.
Qed.

Lemma server_option_ok q bytes rest sent :
  option_typed q → encode_option q = Ok bytes →
  read_option_request eof_message (mkStream (bytes ++ rest) sent []) = (Ok (Some q), mkStream rest sent []).
Proof.
  intros Ht He. pose proof (encode_option_framed q bytes Ht He) as (code & p & Hc & Hp & ->). pose proof (zlen_nonneg p) as Hp0.
  assert (Hp32 : is_u32 (zlen p)) by (unfold is_u32, u32_max, MAX_OPTION_PAYLOAD_BYTES in *; lia).
  unfold read_option_request. rewrite <-app_assoc. erewrite mseq_ok by (apply server_read_ok, option_request_bytes_length).
  unfold from_protocol. cbv beta iota. rewrite parse_option_request_header_accepts by done. erewrite mseq_ok by reflexivity.
  unfold request_bounded_payload_len. cbn [orq_payload_len]. rewrite (proj2 (bounded_payload_len_ok _ _ (zlen p))) by done. erewrite mseq_ok by reflexivity.
  erewrite mseq_ok by (by apply server_read_ok). cbv beta iota. by rewrite (parse_option_request_accepts _ q Ht He).
Qed.
End exchange.

Section session.
Context (eof_message : string) (registry_open : ExportName → ExportOwner → SResult ExportRecord)
  (registry_close : ExportName → ExportOwner → SResult unit).

(** The start of [serve_with_shutdown]. *)
Definition server_session : M ServeWorld ServerError (option ConnectionExport) :=
  let! greeted := on_stream (write_handshake eof_message) in
  if negb greeted then mret None else negotiate_options eof_message registry_open registry_close.

(** What the client reads of a session: the handshake, and the answer to its option. *)
Definition info_bytes (meta : ExportRecord) : list byte :=
  option_reply_bytes NBD_OPT_GO NBD_REP_INFO 12 ++
    (be_bytes 2 NBD_INFO_EXPORT ++ be_bytes 8 (size_bytes (r_head meta)) ++ be_bytes 2 SUPPORTED_TRANSMISSION_FLAGS ++ []).
Definition ack_bytes : list byte := option_reply_bytes NBD_OPT_GO NBD_REP_ACK 0.

(** How an error of the registry is reported. *)
Definition refusal_type (error : ServerError) : Z :=
  match error with ExportBusy _ | ExportTooLarge _ _ _ => NBD_REP_ERR_POLICY | _ => NBD_REP_ERR_UNKNOWN end.
Definition refusal_message (error : ServerError) : list byte := list_byte_of_string (ServerError_display error).
Definition refusal_bytes (error : ServerError) : list byte :=
  option_reply_bytes NBD_OPT_GO (refusal_type error) (zlen (refusal_message error)) ++ refusal_message error.

Lemma info_encoded meta :
  encode_export_info_reply NBD_OPT_GO (size_bytes (r_head meta)) SUPPORTED_TRANSMISSION_FLAGS = Ok (info_bytes meta).
Proof. rewrite encode_export_info_reply_eq, encode_short_reply; [done|by_compute]. Qed.

Lemma ack_encoded : encode_ack_reply NBD_OPT_GO = Ok ack_bytes.
Proof. unfold encode_ack_reply. rewrite encode_short_reply by done. by rewrite app_nil_r. Qed.

Lemma refusal_encoded error :
  zlen (refusal_message error) ≤ MAX_OPTION_PAYLOAD_BYTES →
  match error with
  | ExportBusy _ | ExportTooLarge _ _ _ => encode_policy_option_reply NBD_OPT_GO (refusal_message error)
  | _ => encode_unknown_export_reply NBD_OPT_GO (refusal_message error)
  end = Ok (refusal_bytes error).
Proof.
  intros H. unfold encode_policy_option_reply, encode_unknown_export_reply, refusal_bytes, refusal_type.
  generalize dependent (refusal_message error). intros message H. destruct error; by apply encode_short_reply.
Qed.

Lemma on_stream_ok {A} (m : M Stream ServerError A) w o st :
  m (sv_stream w) = (o, st) → on_stream m w = (o, mkServe st (sv_next_owner w) (sv_calls w)).
Proof. intros H. unfold on_stream, zoom. by rewrite H. Qed.

Lemma session_go name owner go rest :
  ExportName_new name = Ok name → utf8_valid (list_byte_of_string name) = true → encode_go_request name [NBD_INFO_EXPORT] = Ok go →
  server_session (mkServe (mkStream (encode_client_flags true ++ go ++ rest) [] []) owner []) =
    negotiate_go registry_open registry_close (mkGo name [NBD_INFO_EXPORT]) (mkServe (mkStream rest encode_server_handshake []) owner []).
Proof.
  intros Hn Hu Hgo. unfold server_session.
  erewrite mseq_ok by (apply on_stream_ok; cbn [sv_stream]; apply server_handshake_ok). cbn [negb sv_next_owner sv_calls].
  unfold negotiate_options. cbn [sv_stream st_input negotiate_loop]. rewrite app_nil_l.
  erewrite mseq_ok; [|apply on_stream_ok; cbn [sv_stream]; apply (server_option_ok _ (OptGo (mkGo name [NBD_INFO_EXPORT]))); [|exact Hgo]].
  - done.
  - split; [done|]. by repeat constructor.
Qed.

Lemma session_opened name owner meta st :
  registry_open name owner = Ok meta → ExportName_new name = Ok name → st_fates st = [] →
  negotiate_go registry_open registry_close (mkGo name [NBD_INFO_EXPORT]) (mkServe st owner []) =
    (Ok (Some (mkConnectionExport name owner meta)),
     mkServe (mkStream (st_input st) (st_output st ++ info_bytes meta ++ ack_bytes) []) (u64_add owner 1) [CallOpen name owner (Ok meta)]).
Proof.
  intros Ho Hn Hf. unfold negotiate_go. cbn [go_export_name]. rewrite Hn. erewrite mseq_ok by reflexivity. erewrite mseq_ok by reflexivity.
  unfold call_open. cbn [sv_next_owner sv_stream sv_calls]. rewrite Ho. cbn iota. rewrite info_encoded. erewrite mseq_ok by reflexivity.
  destruct st as [input sent fates]. cbn in Hf. subst fates. erewrite mseq_ok by reflexivity. cbn [negb].
  rewrite ack_encoded. erewrite mseq_ok by reflexivity. erewrite mseq_ok by reflexivity. cbn. by rewrite <-(assoc_L app).
Qed.

Lemma session_refused name owner error st :
  registry_open name owner = Err error → ExportName_new name = Ok name → st_fates st = [] →
  zlen (refusal_message error) ≤ MAX_OPTION_PAYLOAD_BYTES →
  negotiate_go registry_open registry_close (mkGo name [NBD_INFO_EXPORT]) (mkServe st owner []) =
    (Ok None, mkServe (mkStream (st_input st) (st_output st ++ refusal_bytes error) []) (u64_add owner 1) [CallOpen name owner (Err error)]).
Proof.
  intros Ho Hn Hf Hl. unfold negotiate_go. cbn [go_export_name]. rewrite Hn. erewrite mseq_ok by reflexivity. erewrite mseq_ok by reflexivity.
  unfold call_open. cbn [sv_next_owner sv_stream sv_calls]. rewrite Ho. cbn iota.
  destruct st as [input sent fates]. cbn in Hf. subst fates. erewrite mseq_ok; [reflexivity|]. apply on_stream_ok. cbn [sv_stream].
  unfold write_go_error. fold (refusal_message error). rewrite refusal_encoded by done. reflexivity.
Qed.

(** ** The client of a session *)

Abbreviation client_session name := (connect eof_message name) (only parsing).

Lemma client_start name go answer :
  encode_go_request name [NBD_INFO_EXPORT] = Ok go →
  client_session name (mkClientStream (encode_server_handshake ++ answer) [] []) =
    (let! info := read_go_replies eof_message in λ st, (Ok (mkClient st info.1 info.2 1), st))
      (mkClientStream answer (encode_client_flags true ++ go) []).
Proof.
  intros Hgo. unfold connect. erewrite mseq_ok by apply client_handshake_ok. erewrite mseq_ok by reflexivity. rewrite Hgo.
  erewrite mseq_ok by reflexivity. erewrite mseq_ok by reflexivity. done.
Qed.

Lemma client_accepted meta later sent :
  is_u64 (size_bytes (r_head meta)) →
  read_go_replies eof_message (mkClientStream ((info_bytes meta ++ ack_bytes) ++ later) sent []) =
    (Ok (size_bytes (r_head meta), SUPPORTED_TRANSMISSION_FLAGS), mkClientStream later sent []).
Proof.
  intros Hs. unfold read_go_replies. cbn [cs_input]. rewrite <-(assoc_L app).
  destruct (length (info_bytes meta ++ ack_bytes ++ later)) as [|fuel] eqn:Hl.
  { rewrite length_app in Hl. unfold info_bytes in Hl. by rewrite !length_app, !length_be_bytes in Hl. }
  cbn [go_replies_loop].
  erewrite mseq_ok by (apply (client_reply_ok _ (RepInfoExport NBD_OPT_GO (size_bytes (r_head meta)) SUPPORTED_TRANSMISSION_FLAGS));
    [split; [by_compute|]; split; [exact Hs|by_compute]|exact (info_encoded meta)]).
  cbn iota. erewrite mseq_ok by (apply (client_reply_ok _ (RepAck NBD_OPT_GO)); [by_compute|exact ack_encoded]). done.
Qed.

Lemma client_refused error later sent :
  zlen (refusal_message error) ≤ MAX_OPTION_PAYLOAD_BYTES →
  read_go_replies eof_message (mkClientStream (refusal_bytes error ++ later) sent []) =
    (Err (OptionError (refusal_type error) (refusal_message error)), mkClientStream later sent []).
Proof.
  intros Hl. unfold read_go_replies. cbn [cs_input go_replies_loop].
  erewrite mseq_ok; [|apply (client_reply_ok _ (RepError NBD_OPT_GO (refusal_type error) (refusal_message error)))].
  - done.
  - split; [by_compute|]. destruct error; split; by_compute.
  - by apply encode_short_reply.
Qed.
End session.

(** ** Requests of the client *)

Inductive ClientOp : Type := OpRead (offset len : Z) | OpWrite (offset : Z) (data : list byte) | OpFlush.

Definition op_message (cookie : Z) (op : ClientOp) : TransmissionRequest :=
  match op with
  | OpRead offset len => TReqRead cookie offset len
  | OpWrite offset data => TReqWrite cookie offset data
  | OpFlush => TReqFlush cookie
  end.
Definition op_request (op : ClientOp) : ExportRequest :=
  match op with OpRead offset len => ReqRead offset len | OpWrite offset data => ReqWrite offset data | OpFlush => ReqFlush end.

(** What the caller of the client gets for a result of the export. *)
Definition op_outcome (op : ClientOp) (result : SResult ExportReply) : outcome ClientError (list byte) :=
  match op, result with
  | OpRead _ _, Ok (ReplyRead data) => Ok data
  | OpRead _ _, _ => Err (CommandError "READ" NBD_EINVAL)
  | OpWrite _ _, Ok ReplyDone | OpFlush, Ok ReplyDone => Ok []
  | OpWrite _ _, _ => Err (CommandError "WRITE" NBD_EINVAL)
  | OpFlush, _ => Err (CommandError "FLUSH" NBD_EINVAL)
  end.

(** An engine answers a read with as many bytes as it was asked for. *)
Definition result_fits (op : ClientOp) (result : SResult ExportReply) : Prop :=
  match op, result with OpRead _ len, Ok (ReplyRead data) => zlen data = len | _, _ => True end.

Section requests.
Context (eof_message : string).

Definition client_run (op : ClientOp) : M NbdClient ClientError (list byte) :=
  match op with
  | OpRead offset len => client_read eof_message offset len
  | OpWrite offset data => let! _ := client_write eof_message offset data in mret []
  | OpFlush => let! _ := client_flush eof_message in mret []
  end.

Lemma on_client_ok {A} (m : M ClientStream ClientError A) c o st :
  m (nc_stream c) = (o, st) → on_client m c = (o, mkClient st (nc_export_size_bytes c) (nc_transmission_flags c) (nc_next_cookie c)).
Proof. intros H. unfold on_client, zoom. by rewrite H. Qed.

Lemma read_reply_ok cookie error rest sent size flags next :
  is_u64 cookie → is_u32 error →
  read_simple_reply eof_message cookie (mkClient (mkClientStream (encode_simple_reply cookie error ++ rest) sent []) size flags next) =
    (Ok (mkSimpleReply cookie error), mkClient (mkClientStream rest sent []) size flags next).
Proof.
  intros Hc He. unfold read_simple_reply.
  erewrite mseq_ok by (apply on_client_ok; cbn [nc_stream]; apply client_read_ok, encode_simple_reply_length).
  unfold client_protocol. rewrite parse_simple_reply_accepts by done. erewrite mseq_ok by reflexivity. cbn [sr_cookie]. by rewrite Z.eqb_refl.
Qed.

Lemma expect_success_ok cookie error command rest sent size flags next :
  is_u64 cookie → is_u32 error →
  expect_success eof_message cookie command (mkClient (mkClientStream (encode_simple_reply cookie error ++ rest) sent []) size flags next) =
    (if error =? 0 then Ok tt else Err (CommandError command error), mkClient (mkClientStream rest sent []) size flags next).
Proof.
  intros Hc He. unfold expect_success. erewrite mseq_ok by (by apply read_reply_ok). cbn [sr_error]. by destruct (error =? 0).
Qed.

(** A command whose reply has no payload. *)
Lemma simple_command_ok encode command context bytes cookie error later sent size flags :
  is_u64 cookie → is_u32 error → encode cookie = Ok bytes →
  (let! cookie := next_cookie in
   let! request := client_protocol (encode cookie) in
   let! _ := on_client (client_write_all request context) in
   expect_success eof_message cookie command)
    (mkClient (mkClientStream (encode_simple_reply cookie error ++ later) sent []) size flags cookie) =
  (if error =? 0 then Ok tt else Err (CommandError command error),
   mkClient (mkClientStream later (sent ++ bytes) []) size flags (u64_add cookie 1)).
Proof.
  intros Hc He Henc. erewrite mseq_ok by reflexivity. cbn [nc_next_cookie]. rewrite Henc.
  erewrite mseq_ok by reflexivity. erewrite mseq_ok by reflexivity. by apply expect_success_ok.
Qed.

(** A client that sends a request finds its outcome in the reply to it. *)
Lemma client_run_ok op context kind result later sent size flags cookie :
  sendable (op_message cookie op) → result_fits op result → jc_cookie context = cookie →
  kind = (match op with OpRead _ _ => KindRead | _ => KindSimple end) →
  client_run op (mkClient (mkClientStream (reply_bytes (reply_export_result context kind result) ++ later) sent []) size flags cookie) =
    (op_outcome op result,
     mkClient (mkClientStream later (sent ++ message (op_message cookie op)) []) size flags (u64_add cookie 1)).
Proof.
  intros Hs Hfit <- ->. pose proof (message_encoded _ Hs) as Henc. assert (Hc : is_u64 (jc_cookie context)).
  { destruct Hs as [(_ & _ & H & _) _]. by destruct op. }
  assert (He : is_u32 NBD_EINVAL) by by_compute. assert (H0 : is_u32 0) by by_compute. unfold reply_bytes. cbn [reply_export_result cr_payload cr_cookie].
  destruct op as [offset len|offset data|]; cbn [op_message encode_request client_run op_outcome] in *.
  - unfold client_read. erewrite mseq_ok by reflexivity. cbn [nc_next_cookie]. rewrite Henc. erewrite mseq_ok by reflexivity. erewrite mseq_ok by reflexivity.
    assert (Herr : ∀ rest sent' next, (let! reply := read_simple_reply eof_message (jc_cookie context) in
      if negb (sr_error reply =? 0) then mfail (CommandError "READ" (sr_error reply))
      else on_client (client_read_exact eof_message len "read NBD read payload"))
        (mkClient (mkClientStream (encode_simple_reply (jc_cookie context) NBD_EINVAL ++ rest) sent' []) size flags next) =
      (Err (CommandError "READ" NBD_EINVAL), mkClient (mkClientStream rest sent' []) size flags next)).
    { intros rest sent' next. erewrite mseq_ok by (by apply read_reply_ok). done. }
    destruct result as [[data|]|e|]; [cbn in Hfit|apply Herr..].
    cbn iota. unfold encode_read_reply, encode_success_reply. rewrite <-(assoc_L app). erewrite mseq_ok by (by apply read_reply_ok). cbn.
    apply on_client_ok. cbn [nc_stream]. by apply client_read_ok.
  - unfold mseq at 1. unfold client_write. destruct result as [[data'|]|e|]; cbn iota;
      first [by rewrite (simple_command_ok (λ cookie, encode_write_request cookie offset data) _ _ _ _ _ _ _ _ _ Hc He Henc)
        | by rewrite (simple_command_ok (λ cookie, encode_write_request cookie offset data) _ _ _ _ _ _ _ _ _ Hc H0 Henc)].
  - unfold mseq at 1. unfold client_flush. destruct result as [[data'|]|e|]; cbn iota;
      first [by rewrite (simple_command_ok encode_flush_request _ _ _ _ _ _ _ _ _ Hc He Henc)
        | by rewrite (simple_command_ok encode_flush_request _ _ _ _ _ _ _ _ _ Hc H0 Henc)].
Qed.
End requests.

(** ** Properties *)

(** C22: connecting works from both sides.  Without faults, the server reads exactly the bytes [connect] writes and
    [connect] reads exactly the bytes the server writes: an export that the registry opens is served, and the client has
    its size, the supported flags and the first cookie; a refusal of the registry reaches the client as an error of the
    option, with the type for policy errors exactly when the export is busy or too large, and with the text of the
    refusal. *)
Theorem client_connects eof_message registry_open registry_close name owner go rest later :
  ExportName_new name = Ok name → utf8_valid (list_byte_of_string name) = true → encode_go_request name [NBD_INFO_EXPORT] = Ok go →
  let world calls input sent owner := mkServe (mkStream input sent []) owner calls in
  let client answer := connect eof_message name (mkClientStream (encode_server_handshake ++ answer ++ later) [] []) in
  let left := mkClientStream later (encode_client_flags true ++ go) [] in
  let session := server_session eof_message registry_open registry_close (world [] (encode_client_flags true ++ go ++ rest) [] owner) in
  match registry_open name owner with
  | Ok meta => is_u64 (size_bytes (r_head meta)) → ∃ answer,
      session = (Ok (Some (mkConnectionExport name owner meta)),
        world [CallOpen name owner (Ok meta)] rest (encode_server_handshake ++ answer) (u64_add owner 1)) ∧
      client answer = (Ok (mkClient left (size_bytes (r_head meta)) SUPPORTED_TRANSMISSION_FLAGS 1), left)
  | Err error => zlen (list_byte_of_string (ServerError_display error)) ≤ MAX_OPTION_PAYLOAD_BYTES → ∃ answer,
      session = (Ok None, world [CallOpen name owner (Err error)] rest (encode_server_handshake ++ answer) (u64_add owner 1)) ∧
      client answer = (Err (OptionError
        (match error with ExportBusy _ | ExportTooLarge _ _ _ => NBD_REP_ERR_POLICY | _ => NBD_REP_ERR_UNKNOWN end)
        (list_byte_of_string (ServerError_display error))), left)
  | Panic => True
  end.
Proof.
  intros Hn Hu Hgo. cbv zeta. destruct (registry_open name owner) as [meta|error|] eqn:Ho; [| |done].
  - intros Hs. exists (info_bytes meta ++ ack_bytes). rewrite (session_go _ _ _ _ _ go) by done. split; [by eapply session_opened|].
    rewrite (client_start _ _ go) by done. erewrite mseq_ok by (by apply client_accepted). done.
  - intros Hl. exists (refusal_bytes error). rewrite (session_go _ _ _ _ _ go) by done. split; [by eapply session_refused|].
    rewrite (client_start _ _ go) by done. unfold mseq. rewrite client_refused by done. done.
Qed.

(** C21: a request makes the round trip.  Without faults, what the client writes for a read, write or flush is read by the
    server as that request, and left nothing behind; and whatever result the export gives, the reply that
    the server writes for it makes the client return the bytes read, success, or the error of its command, and leaves
    the rest of the stream for the next reply. *)
Theorem client_request_roundtrip eof_message connection_id number op rest later sent received size flags cookie :
  sendable (op_message cookie op) →
  ∃ job kind,
    read_request eof_message connection_id env_ok number (mkStream (message (op_message cookie op) ++ rest) sent []) =
      (StepSubmitted job kind (u64_add number 1), mkStream rest sent []) ∧
    job_request job = op_request op ∧ job_sequence job = number ∧
    ∀ result, result_fits op result →
      client_run eof_message op
        (mkClient (mkClientStream (reply_bytes (reply_export_result (job_context job) kind result) ++ later) received []) size flags cookie) =
      (op_outcome op result,
       mkClient (mkClientStream later (received ++ message (op_message cookie op)) []) size flags (u64_add cookie 1)).
Proof.
  intros Hs. rewrite read_request_accepts by done.
  destruct op as [offset len|offset data|]; cbn [op_message request_job]; eexists _, _; (split; [reflexivity|]); (split; [reflexivity|]); (split; [reflexivity|]);
    intros result Hfit; by apply client_run_ok.
Qed.

(** ** Sample sessions *)

Lemma client_connects_witness :
  ∃ answer, connect "early eof" "vm" (mkClientStream (encode_server_handshake ++ answer) [] []) =
    (Ok (mkClient (mkClientStream [] (encode_client_flags true ++ sample_go_bytes) []) 1048576 SUPPORTED_TRANSMISSION_FLAGS 1),
     mkClientStream [] (encode_client_flags true ++ sample_go_bytes) []).
Proof.
  destruct (client_connects "early eof" sample_open (λ _ _, Ok tt) "vm" 1 sample_go_bytes [] []
    ltac:(vm_compute; reflexivity) ltac:(vm_compute; reflexivity) ltac:(vm_compute; reflexivity) ltac:(by_compute)) as (answer & _ & H).
  exists answer. rewrite app_nil_r in H. exact H.
Defined.

Lemma client_request_roundtrip_witness :
  ∃ job kind,
    read_request "early eof" 3 env_ok 1 (mkStream (message (TReqRead 5 4096 2)) [] []) = (StepSubmitted job kind 2, mkStream [] [] []) ∧
    client_read "early eof" 4096 2
      (mkClient (mkClientStream (reply_bytes (reply_export_result (job_context job) kind (Ok (ReplyRead [x00; x00])))) [] []) 8192 5 5) =
    (Ok [x00; x00], mkClient (mkClientStream [] (message (TReqRead 5 4096 2)) []) 8192 5 6).
Proof.
  destruct (client_request_roundtrip "early eof" 3 1 (OpRead 4096 2) [] [] [] [] 8192 5 5) as (job & kind & Hr & _ & _ & Hc).
  { split; by_compute. }
  exists job, kind. rewrite app_nil_r in Hr. split; [exact Hr|].
  specialize (Hc (Ok (ReplyRead [x00; x00])) eq_refl). rewrite app_nil_r in Hc. exact Hc.
Defined.
