(* ===== verification/Config.v ===== *)
(** * Configuration and catalog URLs

    [nbd-config/src/lib.rs] with [default-config.toml], and [nbd-control-plane/src/catalog_url.rs].

    Paths are the byte strings of Unix.  The file system is a map from paths to contents with a list of faults, one per
    call.  The TOML library is a parser and a printer of documents, given as parameters; what [serde] makes of
    a document is written out: absent fields take their defaults, and a queue depth of zero is refused. *)

From Stdlib Require Import Strings.Ascii Strings.String Strings.Byte.
From stdpp Require Import pretty.
From S2P Require Import Prelude ControlPlane.

#[local] Open Scope string_scope.
#[local] Open Scope list_scope.
#[local] Open Scope Z_scope.

(** ** Catalog URLs (catalog_url.rs) *)

Abbreviation PathBuf := string (only parsing).

Inductive CatalogProvider : Type := Sqlite | Postgres.

Inductive CatalogUrl : Type :=
| UrlSqlite (raw : string) (path : PathBuf)
| UrlPostgres (raw : string).

Definition provider (url : CatalogUrl) : CatalogProvider := match url with UrlSqlite _ _ => Sqlite | UrlPostgres _ => Postgres end.
Definition CatalogUrl_as_str (url : CatalogUrl) : string := match url with UrlSqlite raw _ | UrlPostgres raw => raw end.
Definition CatalogProvider_as_str (p : CatalogProvider) : string := match p with Sqlite => "sqlite" | Postgres => "postgres" end.

Definition sqlite_path (url : CatalogUrl) : CatalogResult PathBuf :=
  match url with
  | UrlSqlite _ path => Ok path
  | UrlPostgres raw => Err (UnsupportedCatalogProvider raw "expected a file: SQLite catalog URL")
  end.

(** [str::split_once] at a character. *)
Fixpoint split_once (c : Ascii.ascii) (s : string) : option (string * string) :=
  match s with
  | EmptyString => None
  | String a s =>
      if Ascii.eqb a c then Some ("", s)
      else match split_once c s with Some (l, r) => Some (String a l, r) | None => None end
  end.

Definition CatalogUrl_from_str (raw : string) : CatalogResult CatalogUrl :=
  let? parts := ok_or (split_once ":"%char raw) (InvalidCatalogUrl raw "missing URL scheme") in
  let '(scheme, rest) := parts in
  if bool_decide (scheme = "file") then
    if bool_decide (rest = "") then Err (InvalidCatalogUrl raw "file: URL must include a database path")
    else Ok (UrlSqlite raw rest)
  else if bool_decide (scheme = "postgres") || bool_decide (scheme = "postgresql") then Ok (UrlPostgres raw)
  else Err (InvalidCatalogUrl raw ("unsupported catalog URL scheme `" +:+ scheme +:+ "`")).

(** ** Paths *)

Definition slash : byte := "/"%byte.

(** [Path::join]. *)
Definition path_join (path component : PathBuf) : PathBuf :=
  match list_byte_of_string component with
  | b :: _ => if Byte.eqb b slash then component
      else match last (list_byte_of_string path) with
           | None => component
           | Some e => if Byte.eqb e slash then path +:+ component else path +:+ "/" +:+ component
           end
  | [] =>
      match last (list_byte_of_string path) with
      | None => component
      | Some e => if Byte.eqb e slash then path else path +:+ "/"
      end
  end.

(** The offsets where the components of a path end: empty ones are none, nor is a dot that does not begin the path. *)
Fixpoint component_ends (first : bool) (segment : list byte) (pos : nat) (rest : list byte) : list nat :=
  let ends := if bool_decide (segment = []) || (bool_decide (segment = ["."%byte]) && negb first) then [] else [pos] in
  match rest with
  | [] => ends
  | b :: rest =>
      if Byte.eqb b slash then ends ++ component_ends false [] (S pos) rest
      else component_ends first (segment ++ [b]) (S pos) rest
  end.

(** [Path::parent]. *)
Definition path_parent (path : PathBuf) : option PathBuf :=
  let bytes := list_byte_of_string path in
  match rev (component_ends true [] 0 bytes) with
  | [] => None
  | [_] => Some (match bytes with b :: _ => if Byte.eqb b slash then "/" else "" | [] => "" end)
  | _ :: e :: _ => Some (string_of_list_byte (take e bytes))
  end.

(** ** The configuration *)

Inductive ExportRuntimeKind : Type := RuntimeSerial | RuntimeConcurrent.

Definition ExportRuntimeKind_as_str (kind : ExportRuntimeKind) : string :=
  match kind with RuntimeSerial => "serial" | RuntimeConcurrent => "concurrent" end.
Definition ExportRuntimeKind_default : ExportRuntimeKind := RuntimeConcurrent.

Record RuntimeConfig := mkRuntimeConfig { rc_state_dir : PathBuf; rc_blob_dir : PathBuf; rc_wal_dir : PathBuf }.
Record ServerConfig := mkServerConfig { sc_export_runtime : ExportRuntimeKind; sc_export_queue_depth : Z }.

Inductive BlobStoreConfig : Type :=
| BlobLocal
| BlobS3 (endpoint_url : option string) (region bucket access_key_id secret_access_key : string)
    (force_path_style : bool) (key_prefix : option string) (auto_create_bucket : bool).

(** [catalog.url] and [logging.file_path] are the only fields of their tables. *)
Record NbdConfig := mkNbdConfig {
  cfg_catalog_url : string;
  cfg_runtime : RuntimeConfig;
  cfg_blob_store : BlobStoreConfig;
  cfg_server : ServerConfig;
  cfg_logging_file_path : PathBuf;
}.

Definition blob_kind (c : BlobStoreConfig) : string := match c with BlobLocal => "local" | BlobS3 _ _ _ _ _ _ _ _ => "s3" end.
Definition endpoint_url (c : BlobStoreConfig) : option string := match c with BlobLocal => None | BlobS3 u _ _ _ _ _ _ _ => u end.
Definition region (c : BlobStoreConfig) : option string := match c with BlobLocal => None | BlobS3 _ r _ _ _ _ _ _ => Some r end.
Definition bucket (c : BlobStoreConfig) : option string := match c with BlobLocal => None | BlobS3 _ _ b _ _ _ _ _ => Some b end.
Definition access_key_id (c : BlobStoreConfig) : option string := match c with BlobLocal => None | BlobS3 _ _ _ a _ _ _ _ => Some a end.
Definition force_path_style (c : BlobStoreConfig) : bool := match c with BlobLocal => false | BlobS3 _ _ _ _ _ f _ _ => f end.
Definition key_prefix (c : BlobStoreConfig) : option string := match c with BlobLocal => None | BlobS3 _ _ _ _ _ _ p _ => p end.
Definition auto_create_bucket (c : BlobStoreConfig) : bool := match c with BlobLocal => false | BlobS3 _ _ _ _ _ _ _ a => a end.

Inductive ConfigError : Type :=
| MissingHomeDir
| NonUtf8Path (path : PathBuf)
| ReadConfig (path : PathBuf)
| WriteConfig (path : PathBuf)
| ConfigAlreadyExists (path : PathBuf)
| CreateConfigDir (path : PathBuf)
| ParseConfig (path : PathBuf)
| SerializeConfig
| InvalidConfigKey (key : string).

Abbreviation CfgResult A := (outcome ConfigError A) (only parsing).

(** *** Documents: the fields as they may be absent from a file *)

Record RuntimeConfigSource := mkRuntimeSource { rs_state_dir : PathBuf; rs_blob_dir : option PathBuf; rs_wal_dir : PathBuf }.

Inductive BlobStoreSource : Type :=
| SourceLocal
| SourceS3 (endpoint_url : option string) (region bucket access_key_id secret_access_key : string)
    (force_path_style : option bool) (key_prefix : option string) (auto_create_bucket : option bool).

Record ServerConfigSource := mkServerSource { ss_export_runtime : option ExportRuntimeKind; ss_export_queue_depth : option Z }.

Record NbdConfigSource := mkSource {
  src_catalog_url : string;
  src_runtime : RuntimeConfigSource;
  src_blob_store : option BlobStoreSource;
  src_server : option ServerConfigSource;
  src_logging : option (option PathBuf);
}.

#[export] Instance ExportRuntimeKind_eq_dec : EqDecision ExportRuntimeKind.
Proof. solve_decision. Defined.
#[export] Instance RuntimeConfigSource_eq_dec : EqDecision RuntimeConfigSource.
Proof. solve_decision. Defined.
#[export] Instance BlobStoreSource_eq_dec : EqDecision BlobStoreSource.
Proof. solve_decision. Defined.
#[export] Instance ServerConfigSource_eq_dec : EqDecision ServerConfigSource.
Proof. solve_decision. Defined.
#[export] Instance NbdConfigSource_eq_dec : EqDecision NbdConfigSource.
Proof. solve_decision. Defined.

(** [default-config.toml]. *)
Definition template_source : NbdConfigSource :=
  mkSource "{{catalog_url}}" (mkRuntimeSource "{{state_dir}}" (Some "{{blob_dir}}") "{{wal_dir}}") (Some SourceLocal)
    (Some (mkServerSource (Some RuntimeConcurrent) (Some 64))) (Some (Some "/tmp/nbd/current.log")).

Definition BLOB_DIR : string := "blobs".
Definition WAL_DIR : string := "wal".
Definition CONFIG_DIR : string := ".nbd".
Definition CACHE_DIR : string := ".cache".
Definition CONFIG_FILE : string := "config.toml".
Definition CATALOG_FILE : string := "catalog.db".

(** [impl Deserialize for RuntimeConfig]. *)
Definition RuntimeConfig_deserialize (source : RuntimeConfigSource) : RuntimeConfig :=
  mkRuntimeConfig (rs_state_dir source) (default (path_join (rs_state_dir source) BLOB_DIR) (rs_blob_dir source)) (rs_wal_dir source).

Definition BlobStoreConfig_deserialize (source : BlobStoreSource) : BlobStoreConfig :=
  match source with
  | SourceLocal => BlobLocal
  | SourceS3 endpoint_url region bucket access_key_id secret force_path_style key_prefix auto_create_bucket =>
      BlobS3 endpoint_url region bucket access_key_id secret (default false force_path_style) key_prefix
        (default false auto_create_bucket)
  end.

(** The defaults of [ServerConfig] and [LoggingConfig] are fields of the template; [None] is a field of the template that
    refers to itself. *)
Definition default_export_queue_depth : option Z := src_server template_source ≫= ss_export_queue_depth.
Definition default_log_file_path : option PathBuf := mjoin (src_logging template_source).

Definition ServerConfig_deserialize (source : ServerConfigSource) : option ServerConfig :=
  depth ← (match ss_export_queue_depth source with Some depth => Some depth | None => default_export_queue_depth end);
  if depth =? 0 then None else Some (mkServerConfig (default ExportRuntimeKind_default (ss_export_runtime source)) depth).

Definition NbdConfig_deserialize (source : NbdConfigSource) : option NbdConfig :=
  server ← ServerConfig_deserialize (default (mkServerSource None None) (src_server source));
  file_path ← (match mjoin (src_logging source) with Some path => Some path | None => default_log_file_path end);
  Some (mkNbdConfig (src_catalog_url source) (RuntimeConfig_deserialize (src_runtime source))
    (from_option BlobStoreConfig_deserialize BlobLocal (src_blob_store source)) server file_path).

Definition BlobStoreConfig_serialize (c : BlobStoreConfig) : BlobStoreSource :=
  match c with
  | BlobLocal => SourceLocal
  | BlobS3 endpoint_url region bucket access_key_id secret force_path_style key_prefix auto_create_bucket =>
      SourceS3 endpoint_url region bucket access_key_id secret (Some force_path_style) key_prefix (Some auto_create_bucket)
  end.

Definition NbdConfig_serialize (c : NbdConfig) : NbdConfigSource :=
  mkSource (cfg_catalog_url c)
    (mkRuntimeSource (rc_state_dir (cfg_runtime c)) (Some (rc_blob_dir (cfg_runtime c))) (rc_wal_dir (cfg_runtime c)))
    (Some (BlobStoreConfig_serialize (cfg_blob_store c)))
    (Some (mkServerSource (Some (sc_export_runtime (cfg_server c))) (Some (sc_export_queue_depth (cfg_server c)))))
    (Some (Some (cfg_logging_file_path c))).

(** [template_config]; [expect] panics if the template does not parse. *)
Definition template_config : CfgResult NbdConfig := or_panic (NbdConfig_deserialize template_source).

(** ** Default paths *)

Definition default_state_dir_for_home (home : PathBuf) : PathBuf := path_join home CONFIG_DIR.
Definition default_config_path_for_home (home : PathBuf) : PathBuf := path_join (default_state_dir_for_home home) CONFIG_FILE.
Definition default_blob_dir_for_home (home : PathBuf) : PathBuf := path_join (path_join (path_join home CACHE_DIR) "nbd") BLOB_DIR.
Definition default_wal_dir_for_home (home : PathBuf) : PathBuf := path_join (path_join (path_join home CACHE_DIR) "nbd") WAL_DIR.

Definition catalog_file_url_for_path (path : PathBuf) : CfgResult string :=
  if utf8_valid (list_byte_of_string path) then Ok ("file:" +:+ path) else Err (NonUtf8Path path).

Definition non_empty_parent (path : PathBuf) : option PathBuf :=
  match path_parent path with Some parent => if bool_decide (parent = "") then None else Some parent | None => None end.
Definition config_parent (path : PathBuf) : PathBuf := default "." (non_empty_parent path).

(** [HOME] and [USERPROFILE] of the environment. *)
Definition home_dir (home userprofile : option PathBuf) : CfgResult PathBuf :=
  match (match home with Some h => Some h | None => userprofile end) with
  | Some path => if bool_decide (path = "") then Err MissingHomeDir else Ok path
  | None => Err MissingHomeDir
  end.

Record ConfigDefaults := mkDefaults {
  cd_catalog_path : PathBuf;
  cd_state_dir : PathBuf;
  cd_blob_dir : PathBuf;
  cd_wal_dir : PathBuf;
}.

Definition ConfigDefaults_for_home (home : PathBuf) : ConfigDefaults :=
  let state_dir := default_state_dir_for_home home in
  mkDefaults (path_join state_dir CATALOG_FILE) state_dir (default_blob_dir_for_home home) (default_wal_dir_for_home home).

Definition ConfigDefaults_for_config_path (config_path : PathBuf) : ConfigDefaults :=
  let parent := config_parent config_path in
  mkDefaults (path_join parent CATALOG_FILE) parent (path_join parent BLOB_DIR) (path_join parent WAL_DIR).

Definition default_for_paths (defaults : ConfigDefaults) : CfgResult NbdConfig :=
  let? config := template_config in
  let? url := catalog_file_url_for_path (cd_catalog_path defaults) in
  Ok (mkNbdConfig url (mkRuntimeConfig (cd_state_dir defaults) (cd_blob_dir defaults) (cd_wal_dir defaults))
    (cfg_blob_store config) (cfg_server config) (cfg_logging_file_path config)).

Definition default_for_home (home : PathBuf) : CfgResult NbdConfig := default_for_paths (ConfigDefaults_for_home home).

(** ** Config files *)

(** A call that fails before it changes anything, or a write that fails after some bytes. *)
Inductive FsFault : Type := FaultBefore | FaultWrite (moved : nat).

Record ConfigFs := mkConfigFs { fs_files : gmap PathBuf string; fs_faults : list (option FsFault) }.

Definition next_fs_fault (fs : ConfigFs) : option FsFault := default None (head (fs_faults fs)).
Definition fs_after (files : gmap PathBuf string) (fs : ConfigFs) : ConfigFs := mkConfigFs files (tail (fs_faults fs)).

(** [Path::exists], which takes an error for no. *)
Definition path_exists (path : PathBuf) : M ConfigFs ConfigError bool := λ fs,
  (Ok (match next_fs_fault fs with None => bool_decide (is_Some (fs_files fs !! path)) | Some _ => false end), fs_after (fs_files fs) fs).

Definition read_to_string (path : PathBuf) : M ConfigFs ConfigError string := λ fs,
  (match next_fs_fault fs, fs_files fs !! path with
   | None, Some contents => if utf8_valid (list_byte_of_string contents) then Ok contents else Err (ReadConfig path)
   | _, _ => Err (ReadConfig path)
   end, fs_after (fs_files fs) fs).

Definition create_dir_all (path : PathBuf) : M ConfigFs ConfigError unit := λ fs,
  (match next_fs_fault fs with None => Ok tt | Some _ => Err (CreateConfigDir path) end, fs_after (fs_files fs) fs).

(** [fs::write]: truncates the file, or creates it. *)
Definition fs_write (path : PathBuf) (contents : string) : M ConfigFs ConfigError unit := λ fs,
  match next_fs_fault fs with
  | None => (Ok tt, fs_after (<[path := contents]> (fs_files fs)) fs)
  | Some FaultBefore => (Err (WriteConfig path), fs_after (fs_files fs) fs)
  | Some (FaultWrite moved) => (Err (WriteConfig path), fs_after (<[path := String.substring 0 moved contents]> (fs_files fs)) fs)
  end.

(** [OpenOptions::new().write(true).create_new(true).open]. *)
Definition open_create_new (path : PathBuf) : M ConfigFs ConfigError unit := λ fs,
  match next_fs_fault fs with
  | Some _ => (Err (WriteConfig path), fs_after (fs_files fs) fs)
  | None =>
      if bool_decide (is_Some (fs_files fs !! path)) then (Err (ConfigAlreadyExists path), fs_after (fs_files fs) fs)
      else (Ok tt, fs_after (<[path := ""]> (fs_files fs)) fs)
  end.

Record ConfigFile := mkConfigFile { cf_path : PathBuf; cf_defaults : ConfigDefaults }.
Record LoadedConfig := mkLoaded { lc_path : PathBuf; lc_config : NbdConfig; lc_existed : bool }.
Record InitializedConfig := mkInitialized { ic_path : PathBuf; ic_config : NbdConfig }.
Inductive ConfigSource : Type := ExplicitPath (path : PathBuf) | DefaultUserPath.

Definition ConfigFile_explicit (path : PathBuf) : ConfigFile := mkConfigFile path (ConfigDefaults_for_config_path path).
Definition ConfigFile_for_home (home : PathBuf) : ConfigFile :=
  mkConfigFile (default_config_path_for_home home) (ConfigDefaults_for_home home).
Definition ConfigFile_local (home userprofile : option PathBuf) : CfgResult ConfigFile :=
  let? home := home_dir home userprofile in Ok (ConfigFile_for_home home).

Definition default_config (file : ConfigFile) : CfgResult NbdConfig := default_for_paths (cf_defaults file).

Section files.
(** The TOML library. *)
Context (toml_parse : string → option NbdConfigSource) (toml_print : NbdConfigSource → option string).

Definition to_toml_string (config : NbdConfig) : CfgResult string := ok_or (toml_print (NbdConfig_serialize config)) SerializeConfig.

Definition load_file (path : PathBuf) : M ConfigFs ConfigError NbdConfig :=
  let! contents := read_to_string path in
  mlift (ok_or (toml_parse contents ≫= NbdConfig_deserialize) (ParseConfig path)).

Definition config_load (file : ConfigFile) : M ConfigFs ConfigError LoadedConfig :=
  let! config := load_file (cf_path file) in
  mret (mkLoaded (cf_path file) config true).

Definition load_or_default (file : ConfigFile) : M ConfigFs ConfigError LoadedConfig :=
  let! exists_ := path_exists (cf_path file) in
  if exists_ then config_load file
  else
    let! config := mlift (default_config file) in
    mret (mkLoaded (cf_path file) config false).

Definition create_parent (path : PathBuf) : M ConfigFs ConfigError unit :=
  match non_empty_parent path with Some parent => create_dir_all parent | None => mret tt end.

Definition load_or_bootstrap (file : ConfigFile) : M ConfigFs ConfigError LoadedConfig :=
  let! exists_ := path_exists (cf_path file) in
  if exists_ then config_load file
  else
    let! config := mlift (default_config file) in
    let! _ := create_parent (cf_path file) in
    let! contents := mlift (to_toml_string config) in
    let! _ := fs_write (cf_path file) contents in
    mret (mkLoaded (cf_path file) config false).

Definition config_init (file : ConfigFile) : M ConfigFs ConfigError InitializedConfig :=
  let! config := mlift (default_config file) in
  let! contents := mlift (to_toml_string config) in
  let! _ := create_parent (cf_path file) in
  let! _ := open_create_new (cf_path file) in
  let! _ := fs_write (cf_path file) contents in
  mret (mkInitialized (cf_path file) config).

Definition NbdConfig_load (source : ConfigSource) (home userprofile : option PathBuf) : M ConfigFs ConfigError NbdConfig :=
  let! loaded := (match source with
    | ExplicitPath path => config_load (ConfigFile_explicit path)
    | DefaultUserPath => let! file := mlift (ConfigFile_local home userprofile) in load_or_bootstrap file
    end) in
  mret (lc_config loaded).
End files.

(** ** Keys *)

Inductive ConfigKey : Type :=
| CatalogUrlKey | RuntimeStateDir | RuntimeBlobDir | RuntimeWalDir | BlobStoreKind | BlobStoreEndpointUrl | BlobStoreRegion
| BlobStoreBucket | BlobStoreAccessKeyId | BlobStoreForcePathStyle | BlobStoreKeyPrefix | BlobStoreAutoCreateBucket
| ServerExportRuntime | ServerExportQueueDepth | LoggingFilePath.

Definition SUPPORTED_KEYS : string :=
  "catalog.url, runtime.state_dir, runtime.blob_dir, runtime.wal_dir, " +:+
  "blob_store.kind, blob_store.endpoint_url, blob_store.region, " +:+
  "blob_store.bucket, blob_store.access_key_id, " +:+
  "blob_store.force_path_style, blob_store.key_prefix, " +:+
  "blob_store.auto_create_bucket, server.export_runtime, " +:+
  "server.export_queue_depth, logging.file_path".

Definition bool_display (b : bool) : string := if b then "true" else "false".

(** [path_display]: [Path::display], the text of a path. *)
Definition key_value (path_display : PathBuf → string) (key : ConfigKey) (config : NbdConfig) : string :=
  let blob := cfg_blob_store config in
  match key with
  | CatalogUrlKey => cfg_catalog_url config
  | RuntimeStateDir => path_display (rc_state_dir (cfg_runtime config))
  | RuntimeBlobDir => path_display (rc_blob_dir (cfg_runtime config))
  | RuntimeWalDir => path_display (rc_wal_dir (cfg_runtime config))
  | BlobStoreKind => blob_kind blob
  | BlobStoreEndpointUrl => default "" (endpoint_url blob)
  | BlobStoreRegion => default "" (region blob)
  | BlobStoreBucket => default "" (bucket blob)
  | BlobStoreAccessKeyId => default "" (access_key_id blob)
  | BlobStoreForcePathStyle => bool_display (force_path_style blob)
  | BlobStoreKeyPrefix => default "" (key_prefix blob)
  | BlobStoreAutoCreateBucket => bool_display (auto_create_bucket blob)
  | ServerExportRuntime => ExportRuntimeKind_as_str (sc_export_runtime (cfg_server config))
  | ServerExportQueueDepth => pretty (sc_export_queue_depth (cfg_server config))
  | LoggingFilePath => path_display (cfg_logging_file_path config)
  end.

Definition ConfigKey_from_str (value : string) : CfgResult ConfigKey :=
  if bool_decide (value = "catalog.url") then Ok CatalogUrlKey
  else if bool_decide (value = "runtime.state_dir") then Ok RuntimeStateDir
  else if bool_decide (value = "runtime.blob_dir") then Ok RuntimeBlobDir
  else if bool_decide (value = "runtime.wal_dir") then Ok RuntimeWalDir
  else if bool_decide (value = "blob_store.kind") then Ok BlobStoreKind
  else if bool_decide (value = "blob_store.endpoint_url") then Ok BlobStoreEndpointUrl
  else if bool_decide (value = "blob_store.region") then Ok BlobStoreRegion
  else if bool_decide (value = "blob_store.bucket") then Ok BlobStoreBucket
  else if bool_decide (value = "blob_store.access_key_id") then Ok BlobStoreAccessKeyId
  else if bool_decide (value = "blob_store.force_path_style") then Ok BlobStoreForcePathStyle
  else if bool_decide (value = "blob_store.key_prefix") then Ok BlobStoreKeyPrefix
  else if bool_decide (value = "blob_store.auto_create_bucket") then Ok BlobStoreAutoCreateBucket
  else if bool_decide (value = "server.export_runtime") then Ok ServerExportRuntime
  else if bool_decide (value = "server.export_queue_depth") then Ok ServerExportQueueDepth
  else if bool_decide (value = "logging.file_path") then Ok LoggingFilePath
  else Err (InvalidConfigKey value).

(** ** Lemmas *)

Section lemmas.
(** The template names every field that has its default in the template, so that the defaults are not circular. *)
Lemma template_config_ok :
  template_config = Ok (mkNbdConfig "{{catalog_url}}" (mkRuntimeConfig "{{state_dir}}" "{{blob_dir}}" "{{wal_dir}}") BlobLocal
    (mkServerConfig RuntimeConcurrent 64) "/tmp/nbd/current.log").
Proof. reflexivity. Qed.

(** A configuration that was deserialized, or generated. *)
Definition config_ok (config : NbdConfig) : Prop := sc_export_queue_depth (cfg_server config) ≠ 0.

Lemma deserialize_serialize config : config_ok config → NbdConfig_deserialize (NbdConfig_serialize config) = Some config.
Proof.
  destruct config as [url [state blob wal] store [kind depth] log]. unfold config_ok. cbn. intros Hd.
  unfold NbdConfig_deserialize, ServerConfig_deserialize. cbn. rewrite (proj2 (Z.eqb_neq _ _) Hd). by destruct store.
Qed.

Lemma deserialize_ok source config : NbdConfig_deserialize source = Some config → config_ok config.
Proof.
  unfold NbdConfig_deserialize. intros H. apply bind_Some in H as (server & Hs & (path & Hp & [= <-])%bind_Some).
  unfold ServerConfig_deserialize in Hs. apply bind_Some in Hs as (depth & _ & Hd).
  unfold config_ok. cbn. destruct (Z.eqb_spec depth 0); [done|]. by injection Hd as <-.
Qed.

Lemma default_for_paths_ok defaults :
  utf8_valid (list_byte_of_string (cd_catalog_path defaults)) = true →
  default_for_paths defaults = Ok (mkNbdConfig ("file:" +:+ cd_catalog_path defaults)
    (mkRuntimeConfig (cd_state_dir defaults) (cd_blob_dir defaults) (cd_wal_dir defaults)) BlobLocal
    (mkServerConfig RuntimeConcurrent 64) "/tmp/nbd/current.log").
Proof. intros Hu. unfold default_for_paths, catalog_file_url_for_path. by rewrite template_config_ok, Hu. Qed.

Lemma url_of_path path : path ≠ "" → CatalogUrl_from_str ("file:" +:+ path) = Ok (UrlSqlite ("file:" +:+ path) path).
Proof. intros Hp. unfold CatalogUrl_from_str. change (split_once _ _) with (Some ("file", path)). cbn [ok_or obind].
  rewrite bool_decide_eq_true_2 by done. by rewrite bool_decide_eq_false_2. Qed.

Lemma default_config_inv file config :
  default_config file = Ok config →
  config_ok config ∧ cfg_catalog_url config = "file:" +:+ cd_catalog_path (cf_defaults file).
Proof.
  unfold default_config. intros H. destruct (utf8_valid (list_byte_of_string (cd_catalog_path (cf_defaults file)))) eqn:Hu.
  - rewrite default_for_paths_ok in H by done. by injection H as <-.
  - unfold default_for_paths, catalog_file_url_for_path in H. by rewrite template_config_ok, Hu in H.
Qed.
End lemmas.

Section config_files.
Context (toml_parse : string → option NbdConfigSource) (toml_print : NbdConfigSource → option string).
(** The TOML library reads back what it prints, as UTF-8. *)
Hypothesis toml_roundtrip : ∀ source text, toml_print source = Some text →
  toml_parse text = Some source ∧ utf8_valid (list_byte_of_string text) = true.
Implicit Types fs : ConfigFs.

Lemma load_written file config text fs :
  config_ok config → toml_print (NbdConfig_serialize config) = Some text → fs_files fs !! cf_path file = Some text → fs_faults fs = [] →
  config_load toml_parse file fs = (Ok (mkLoaded (cf_path file) config true), mkConfigFs (fs_files fs) []).
Proof.
  intros Hok Hp Hf Hn. destruct (toml_roundtrip _ _ Hp) as [Hparse Hu]. destruct fs as [files faults]. cbn in *. subst faults.
  unfold config_load, load_file. erewrite mseq_ok; [|erewrite mseq_ok; [|unfold read_to_string; cbn; by rewrite Hf, Hu]]; [reflexivity|].
  unfold mlift. rewrite Hparse. cbn [mbind option_bind]. by rewrite deserialize_serialize.
Qed.
End config_files.

Section config_writes.
Context (toml_parse : string → option NbdConfigSource) (toml_print : NbdConfigSource → option string).
Hypothesis toml_roundtrip : ∀ source text, toml_print source = Some text →
  toml_parse text = Some source ∧ utf8_valid (list_byte_of_string text) = true.

Lemma create_parent_ok path files : create_parent path (mkConfigFs files []) = (Ok tt, mkConfigFs files []).
Proof. unfold create_parent. by destruct (non_empty_parent path). Qed.

Lemma create_parent_keeps path fs : fs_files (create_parent path fs).2 = fs_files fs ∧ (create_parent path fs).1 ≠ Panic.
Proof. unfold create_parent, create_dir_all. destruct (non_empty_parent path); [|done]. cbn. by destruct (next_fs_fault fs). Qed.

Lemma create_parent_faults path fs : fs_faults fs = [] → fs_faults (create_parent path fs).2 = [] ∧ (create_parent path fs).1 = Ok tt.
Proof. destruct fs as [files faults]. cbn. intros ->. by rewrite create_parent_ok. Qed.

Lemma default_config_no_panic file : default_config file ≠ Panic.
Proof. unfold default_config, default_for_paths. rewrite template_config_ok. cbn. unfold catalog_file_url_for_path. by case_match. Qed.

Lemma default_config_err file e : default_config file = Err e → e = NonUtf8Path (cd_catalog_path (cf_defaults file)).
Proof.
  unfold default_config, default_for_paths, catalog_file_url_for_path. rewrite template_config_ok. cbn.
  destruct (utf8_valid _); [done|]. by intros [= <-].
Qed.

Lemma path_exists_ok path files :
  path_exists path (mkConfigFs files []) = (Ok (bool_decide (is_Some (files !! path))), mkConfigFs files []).
Proof. done. Qed.

(** What a start without a config file does, whichever of its calls fail. *)
Lemma bootstrap_absent file fs :
  fs_files fs !! cf_path file = None →
  let '(result, fs') := load_or_bootstrap toml_parse toml_print file fs in
  match result with
  | Ok loaded =>
      ∃ config text, default_config file = Ok config ∧ toml_print (NbdConfig_serialize config) = Some text ∧
        loaded = mkLoaded (cf_path file) config false ∧ fs_files fs' = <[cf_path file := text]> (fs_files fs)
  | Err e =>
      (fs_files fs' = fs_files fs ∧ (fs_faults fs = [] → default_config file = Err e ∨ e = SerializeConfig)) ∨
      (∃ config text moved, default_config file = Ok config ∧ toml_print (NbdConfig_serialize config) = Some text ∧
         e = WriteConfig (cf_path file) ∧ fs_faults fs ≠ [] ∧ fs_files fs' = <[cf_path file := String.substring 0 moved text]> (fs_files fs))
  | Panic => False
  end.
Proof.
  intros Hn. unfold load_or_bootstrap, path_exists, mseq, mlift, mret. rewrite Hn.
  replace (match next_fs_fault fs with None => _ | Some _ => false end) with false
    by (destruct (next_fs_fault fs); [done|symmetry; apply bool_decide_eq_false_2; by intros []]).
  pose proof (default_config_no_panic file) as Hd. destruct (default_config file) as [config|e|]; [|by auto|done].
  set (fs1 := fs_after (fs_files fs) fs). pose proof (create_parent_keeps (cf_path file) fs1) as [Hk Hp].
  pose proof (create_parent_faults (cf_path file) fs1) as Hf.
  destruct (create_parent (cf_path file) fs1) as [[[]|e|] fs2]; cbn [fst snd] in *; [| |done].
  2: { left. split; [done|]. intros Hfs. destruct Hf as [_ Hf]; [by unfold fs1, fs_after; cbn; rewrite Hfs|]. done. }
  unfold to_toml_string. destruct (toml_print _) as [text|] eqn:Htext; cbn [ok_or]; [|by left; split; [|auto]].
  unfold fs_write. destruct (next_fs_fault fs2) as [[|moved]|] eqn:Hfault; cbn [fs_after fs_files]; rewrite ?Hk; cbn [fs_after fs_files fs1].
  1-2: assert (fs_faults fs ≠ []) as Hfs
    by (intros Hfs; destruct Hf as [Hf _]; [by unfold fs1, fs_after; cbn; rewrite Hfs|by unfold next_fs_fault in Hfault; rewrite Hf in Hfault]).
  - left. by split.
  - right. by eauto 10.
  - by eauto 10.
Qed.

Lemma bootstrap_present file files text :
  files !! cf_path file = Some text →
  load_or_bootstrap toml_parse toml_print file (mkConfigFs files []) = config_load toml_parse file (mkConfigFs files []).
Proof.
  intros Hf. unfold load_or_bootstrap. erewrite mseq_ok by apply path_exists_ok. rewrite Hf. by rewrite bool_decide_eq_true_2 by done.
Qed.

Lemma init_existing file fs text :
  fs_files fs !! cf_path file = Some text →
  fs_files (config_init toml_print file fs).2 = fs_files fs ∧ ∃ e, (config_init toml_print file fs).1 = Err e.
Proof.
  intros Hf. unfold config_init, mlift, mseq. pose proof (default_config_no_panic file).
  destruct (default_config file) as [config|e|]; [|by eauto|done].
  unfold to_toml_string. destruct (toml_print _) as [contents|]; cbn; [|by eauto].
  pose proof (create_parent_keeps (cf_path file) fs) as [Hk Hp].
  destruct (create_parent (cf_path file) fs) as [[[]|e|] fs1]; cbn in *; [|by eauto|done].
  unfold open_create_new. destruct (next_fs_fault fs1); cbn; [by eauto|]. rewrite Hk, Hf, bool_decide_eq_true_2 by done. cbn. by eauto.
Qed.
End config_writes.

(** ** Properties *)

(** C36: a configuration is generated once and read back.  With a TOML library that reads what it prints, and whichever calls to the
    file system fail: a start without a config file that succeeds wrote the default configuration; loading the file
    then gives that configuration, a later start reads it and writes nothing, and its catalog URL names the SQLite file of
    the defaults.  A start that fails changed no file, and without a failed call that is because a path is not UTF-8 or the
    configuration cannot be printed; or the write itself failed, and then the config file may have been left with
    a front part of the text, which the later starts have to read, and no other file has changed.  And
    [init] neither succeeds nor changes a file where a config file exists. *)
Theorem config_written_once toml_parse toml_print file fs :
  (∀ source text, toml_print source = Some text → toml_parse text = Some source ∧ utf8_valid (list_byte_of_string text) = true) →
  (fs_files fs !! cf_path file = None →
   let '(result, fs') := load_or_bootstrap toml_parse toml_print file fs in
   match result with
   | Ok loaded =>
       (∃ text, fs_files fs' = <[cf_path file := text]> (fs_files fs)) ∧ lc_existed loaded = false ∧
       default_config file = Ok (lc_config loaded) ∧
       (let later := mkConfigFs (fs_files fs') [] in
        config_load toml_parse file later = (Ok (mkLoaded (cf_path file) (lc_config loaded) true), later) ∧
        load_or_bootstrap toml_parse toml_print file later = (Ok (mkLoaded (cf_path file) (lc_config loaded) true), later)) ∧
       (cd_catalog_path (cf_defaults file) ≠ "" →
        (let? url := CatalogUrl_from_str (cfg_catalog_url (lc_config loaded)) in sqlite_path url) = Ok (cd_catalog_path (cf_defaults file)))
   | Err e =>
       (fs_files fs' = fs_files fs ∧
        (fs_faults fs = [] → e = NonUtf8Path (cd_catalog_path (cf_defaults file)) ∨ e = SerializeConfig)) ∨
       (e = WriteConfig (cf_path file) ∧ fs_faults fs ≠ [] ∧
        ∃ config text moved, default_config file = Ok config ∧ toml_print (NbdConfig_serialize config) = Some text ∧
          fs_files fs' = <[cf_path file := String.substring 0 moved text]> (fs_files fs))
   | Panic => False
   end) ∧
  ∀ text, fs_files fs !! cf_path file = Some text →
    fs_files (config_init toml_print file fs).2 = fs_files fs ∧ ∃ e, (config_init toml_print file fs).1 = Err e.
Proof.
  intros Hrt. split; [|intros text Hf; by eapply init_existing]. intros Hn.
  pose proof (bootstrap_absent toml_parse toml_print file fs Hn) as H.
  destruct (load_or_bootstrap toml_parse toml_print file fs) as [[loaded|e|] fs']; [| |done].
  - destruct H as (config & text & Hd & Hp & -> & Hfs). destruct (default_config_inv _ _ Hd) as [Hok Hurl].
    set (later := mkConfigFs (fs_files fs') []).
    assert (Hlook : fs_files fs' !! cf_path file = Some text) by (rewrite Hfs; apply lookup_insert_eq).
    assert (Hl : config_load toml_parse file later = (Ok (mkLoaded (cf_path file) config true), later))
      by (by apply (load_written toml_parse toml_print Hrt file config text later)).
    split; [by exists text|]. split; [done|]. split; [done|]. split.
    { split; [exact Hl|]. etrans; [by apply (bootstrap_present _ _ _ _ text)|exact Hl]. }
    intros Hne. cbn [lc_config]. rewrite Hurl, url_of_path by done. done.
  - destruct H as [[Hfs He]|(config & text & moved & Hd & Hp & -> & Hf & Hfs)]; [left|right; by eauto 10].
    split; [done|]. intros [Hd| ->]%He; [left; by apply default_config_err|by right].
Qed.

(** ** Samples *)

Definition sample_file : ConfigFile := ConfigFile_for_home "/home/op".
Definition sample_config_source : NbdConfigSource :=
  match default_config sample_file with Ok config => NbdConfig_serialize config | _ => template_source end.
(** A library for one document. *)
Definition sample_print (source : NbdConfigSource) : option string := if decide (source = sample_config_source) then Some "doc" else None.
Definition sample_parse (text : string) : option NbdConfigSource := if decide (text = "doc") then Some sample_config_source else None.

Lemma config_written_once_witness :
  ∃ loaded, load_or_bootstrap sample_parse sample_print sample_file (mkConfigFs ∅ []) =
      (Ok loaded, mkConfigFs {["/home/op/.nbd/config.toml" := "doc"]} []) ∧
    (let? url := CatalogUrl_from_str (cfg_catalog_url (lc_config loaded)) in sqlite_path url) = Ok "/home/op/.nbd/catalog.db".
Proof.
  assert (Hrt : ∀ source text, sample_print source = Some text → sample_parse text = Some source ∧ utf8_valid (list_byte_of_string text) = true).
  { intros source text. unfold sample_print. destruct (decide (source = sample_config_source)) as [->|]; [|discriminate].
    intros [= <-]. split; reflexivity. }
  pose proof (proj1 (config_written_once sample_parse sample_print sample_file (mkConfigFs ∅ []) Hrt) eq_refl) as H.
  assert (E : load_or_bootstrap sample_parse sample_print sample_file (mkConfigFs ∅ []) =
    (Ok (mkLoaded "/home/op/.nbd/config.toml" (mkNbdConfig "file:/home/op/.nbd/catalog.db"
       (mkRuntimeConfig "/home/op/.nbd" "/home/op/.cache/nbd/blobs" "/home/op/.cache/nbd/wal") BlobLocal
       (mkServerConfig RuntimeConcurrent 64) "/tmp/nbd/current.log") false), mkConfigFs {["/home/op/.nbd/config.toml" := "doc"]} [])).
  { vm_compute. reflexivity. }
  rewrite E in H. eexists. split; [exact E|]. apply H. discriminate.
Defined.

(** A write that stops after one byte: the start fails, and so does the next one, which now finds a file. *)
Lemma torn_config_refused :
  let path := "/home/op/.nbd/config.toml" in
  load_or_bootstrap sample_parse sample_print sample_file (mkConfigFs ∅ [None; None; Some (FaultWrite 1)]) =
    (Err (WriteConfig path), mkConfigFs {[path := "d"]} []) ∧
  load_or_bootstrap sample_parse sample_print sample_file (mkConfigFs {[path := "d"]} []) =
    (Err (ParseConfig path), mkConfigFs {[path := "d"]} []).
Proof. split; vm_compute; reflexivity. Qed.

(** An existence check that fails counts as no file: the configuration that was there is replaced. *)
Lemma unseen_config_replaced :
  let path := "/home/op/.nbd/config.toml" in
  fs_files (load_or_bootstrap sample_parse sample_print sample_file (mkConfigFs {[path := "mine"]} [Some FaultBefore])).2 !! path = Some "doc".
Proof. vm_compute. reflexivity. Qed.
