(* ===== verification/S3.v ===== *)
(** * The S3 blob store

    [storage/s3.rs]: blobs as objects of a bucket, under a key prefix.  The AWS client library is a parameter: the class
    [S3Sdk] has the calls the code makes, and [S3SdkLaws] what Amazon documents of them.  Against these laws
    the store is an instance of [BlobStoreLaws], so that the theorems on readers, compaction and the WAL-durable engine,
    which are proved against those, hold over S3.  A client of one bucket in memory shows that the laws can hold. *)

From Stdlib Require Import Strings.Ascii Strings.String Strings.Byte.
From stdpp Require Import pretty.
From S2P Require Import Prelude ControlPlane Server Storage Config.

#[local] Open Scope string_scope.
#[local] Open Scope list_scope.
#[local] Open Scope Z_scope.

(** ** The client library *)

(** What the builder is given. *)
Record S3ClientConf := mkS3Conf {
  conf_region : string;
  conf_access_key_id : string;
  conf_secret_access_key : string;
  conf_force_path_style : bool;
  conf_endpoint_url : option string;
}.

(** An error: the code of the answer when the service answered, and the text. *)
Record SdkError := mkSdkError { sdk_code : option string; sdk_text : string }.

(** [get_object] answers a stream, which [collect] reads to its end. *)
Class S3Sdk (Client C : Type) : Type := {
  from_conf : S3ClientConf → Client;
  create_bucket : Client → string → M C SdkError unit;
  head_bucket : Client → string → M C SdkError unit;
  put_object : Client → string → string → string → list byte → M C SdkError unit;
  get_object : Client → string → string → string → M C SdkError (M C string (list byte));
}.

(** [format!(bytes={offset}-{end})]. *)
Definition range_text (offset end_ : Z) : string := "bytes=" +:+ pretty offset +:+ "-" +:+ pretty end_.

(** The documented behaviour, for a bucket that nobody else changes.  [PutObject] with [If-None-Match: *] stores a new object
    or nothing: a conditional failure says that nothing was stored, after another error the object may be there.
    [GetObject] with a range answers the bytes of the object in the range, which ends where the object ends. *)
Class S3SdkLaws (Client C : Type) `{!S3Sdk Client C} : Type := {
  objects : C → gmap (string * string) (list byte);
  law_create_bucket client bucket s :
    objects (create_bucket client bucket s).2 = objects s ∧ (create_bucket client bucket s).1 ≠ Panic;
  law_head_bucket client bucket s :
    objects (head_bucket client bucket s).2 = objects s ∧ (head_bucket client bucket s).1 ≠ Panic;
  law_put_object client bucket key body s :
    match put_object client bucket key "*" body s with
    | (Ok _, s') => objects s !! (bucket, key) = None ∧ objects s' = <[(bucket, key) := body]> (objects s)
    | (Err e, s') =>
        objects s' = objects s ∨
        objects s !! (bucket, key) = None ∧ objects s' = <[(bucket, key) := body]> (objects s) ∧
        sdk_code e ≠ Some "PreconditionFailed" ∧ sdk_code e ≠ Some "ConditionalRequestConflict"
    | (Panic, _) => False
    end;
  law_get_object client bucket key first last s :
    0 ≤ first ≤ last → last ≤ u64_max →
    match get_object client bucket key (range_text first last) s with
    | (Ok body, s1) =>
        objects s1 = objects s ∧
        ∃ object, objects s !! (bucket, key) = Some object ∧ first < zlen object ∧
          match body s1 with
          | (Ok data, s2) => objects s2 = objects s ∧ slice object first (Z.min (last + 1) (zlen object)) = Some data
          | (Err _, s2) => objects s2 = objects s
          | (Panic, _) => False
          end
    | (Err _, s1) => objects s1 = objects s
    | (Panic, _) => False
    end;
  (** A service that is ready answers, for the keys it takes. *)
  service_ready : C → Prop;
  object_key_ok : string → bool;
  law_put_object_ready client bucket key body s :
    service_ready s → object_key_ok key = true → objects s !! (bucket, key) = None →
    ∃ s', put_object client bucket key "*" body s = (Ok tt, s') ∧ service_ready s';
  law_get_object_ready client bucket key first last object s :
    service_ready s → object_key_ok key = true → objects s !! (bucket, key) = Some object →
    0 ≤ first ≤ last → last ≤ u64_max → first < zlen object →
    ∃ body s1 data s2, get_object client bucket key (range_text first last) s = (Ok body, s1) ∧
      body s1 = (Ok data, s2) ∧ service_ready s2;
}.

(** ** Key prefixes *)

(** The encodings of the characters that [str::trim] takes for white space. *)
Definition white_space : list (list byte) :=
  [[x09]; [x0a]; [x0b]; [x0c]; [x0d]; [x20]; [xc2; x85]; [xc2; xa0]; [xe1; x9a; x80];
   [xe2; x80; x80]; [xe2; x80; x81]; [xe2; x80; x82]; [xe2; x80; x83]; [xe2; x80; x84]; [xe2; x80; x85];
   [xe2; x80; x86]; [xe2; x80; x87]; [xe2; x80; x88]; [xe2; x80; x89]; [xe2; x80; x8a];
   [xe2; x80; xa8]; [xe2; x80; xa9]; [xe2; x80; xaf]; [xe2; x81; x9f]; [xe3; x80; x80]]%byte.

Definition prefix_of (w l : list byte) : bool := bool_decide (take (length w) l = w).

(** The text without the characters of [spaces] at its front; every round drops a byte at least. *)
Fixpoint strip_front (fuel : nat) (spaces : list (list byte)) (l : list byte) : list byte :=
  match fuel with
  | O => l
  | S fuel =>
      match find (λ w, prefix_of w l) spaces with
      | Some w => strip_front fuel spaces (drop (length w) l)
      | None => l
      end
  end.

Definition trim_start (l : list byte) : list byte := strip_front (length l) white_space l.
Definition trim_end (l : list byte) : list byte := rev (strip_front (length l) ((@rev byte) <$> white_space) (rev l)).
Definition trim (l : list byte) : list byte := trim_end (trim_start l).

(** [str::split] at a slash. *)
Fixpoint split_slash (l : list byte) : list (list byte) :=
  match l with
  | [] => [[]]
  | b :: l =>
      if Byte.eqb b slash then [] :: split_slash l
      else match split_slash l with
           | segment :: segments => (b :: segment) :: segments
           | [] => [[b]]
           end
  end.

Definition bad_segment (segment : list byte) : bool :=
  bool_decide (segment = []) || bool_decide (segment = ["."]%byte) || bool_decide (segment = ["."; "."]%byte).

Definition invalid_prefix (prefix : string) : ServerError :=
  SIo "normalize S3 blob key prefix" ("invalid S3 blob key prefix `" +:+ prefix +:+ "`").

(** The loop over the segments. *)
Fixpoint push_segments (prefix : string) (normalized : list byte) (segments : list (list byte)) : SResult (list byte) :=
  match segments with
  | [] => Ok normalized
  | segment :: segments =>
      if bad_segment segment then Err (invalid_prefix prefix)
      else
        let normalized := if bool_decide (normalized = []) then normalized else normalized ++ [slash] in
        push_segments prefix (normalized ++ segment) segments
  end.

(** [strip_suffix('/').unwrap_or(trimmed)]. *)
Definition strip_slash (l : list byte) : list byte :=
  match last l with Some b => if Byte.eqb b slash then removelast l else l | None => l end.

Definition starts_with (b : byte) (l : list byte) : bool := bool_decide (head l = Some b).
Definition contains (b : byte) (l : list byte) : bool := bool_decide (b ∈ l).
Definition ends_with_slashes (l : list byte) : bool := prefix_of [slash; slash] (rev l).

Definition normalize_key_prefix (prefix : option string) : SResult string :=
  match prefix with
  | None => Ok ""
  | Some prefix =>
      let trimmed := trim (list_byte_of_string prefix) in
      if bool_decide (trimmed = []) then Ok ""
      else if starts_with slash trimmed || contains "\"%byte trimmed || contains x00 trimmed then Err (invalid_prefix prefix)
      else if ends_with_slashes trimmed then Err (invalid_prefix prefix)
      else
        let? normalized := push_segments prefix [] (split_slash (strip_slash trimmed)) in
        Ok (string_of_list_byte (normalized ++ [slash]))
  end.

Definition object_key_for_prefix (prefix : string) (key : BlobKey) : string := prefix +:+ key.

(** ** The store *)

Definition is_create_collision (e : SdkError) : bool :=
  bool_decide (sdk_code e = Some "PreconditionFailed") || bool_decide (sdk_code e = Some "ConditionalRequestConflict").

Definition is_bucket_already_exists (e : SdkError) : bool :=
  bool_decide (sdk_code e = Some "BucketAlreadyOwnedByYou") || bool_decide (sdk_code e = Some "BucketAlreadyExists").

Definition s3_error (context : string) (e : SdkError) : ServerError := SIo context (sdk_text e).

Record S3BlobStore (Client : Type) := mkS3Store {
  s3_client : Client;
  s3_bucket : string;
  s3_key_prefix : string;
}.
Arguments mkS3Store {Client} _ _ _.
Arguments s3_client {Client} _.
Arguments s3_bucket {Client} _.
Arguments s3_key_prefix {Client} _.

Section store.
Context {Client C : Type} `{!S3Sdk Client C}.
Implicit Types (store : S3BlobStore Client).

Definition object_key store (key : BlobKey) : string := object_key_for_prefix (s3_key_prefix store) key.

Definition create_bucket_if_needed store : M C ServerError unit := λ s,
  match create_bucket (s3_client store) (s3_bucket store) s with
  | (Ok _, s) => (Ok tt, s)
  | (Err e, s) => (if is_bucket_already_exists e then Ok tt else Err (s3_error "create S3 bucket" e), s)
  | (Panic, s) => (Panic, s)
  end.

Definition verify_bucket_exists store : M C ServerError unit := λ s,
  let '(o, s) := head_bucket (s3_client store) (s3_bucket store) s in
  (map_err (s3_error "verify S3 bucket") o, s).

Definition S3BlobStore_open (config : BlobStoreConfig) : M C ServerError (S3BlobStore Client) :=
  match config with
  | BlobLocal => mfail (SIo "open S3 blob store" "blob store config is not S3")
  | BlobS3 endpoint_url region bucket access_key_id secret_access_key force_path_style key_prefix auto_create_bucket =>
      let! key_prefix := mlift (normalize_key_prefix key_prefix) in
      let conf := mkS3Conf region access_key_id secret_access_key force_path_style endpoint_url in
      let store := mkS3Store (from_conf conf) bucket key_prefix in
      let! _ := if auto_create_bucket then create_bucket_if_needed store else verify_bucket_exists store in
      mret store
  end.

Definition s3_put_blob store (key : BlobKey) (data : list byte) : M C ServerError unit := λ s,
  match put_object (s3_client store) (s3_bucket store) (object_key store key) "*" data s with
  | (Ok _, s) => (Ok tt, s)
  | (Err e, s) =>
      (if is_create_collision e then Err (blob_already_exists "put blob" key) else Err (s3_error "put S3 blob" e), s)
  | (Panic, s) => (Panic, s)
  end.

Definition s3_get_blob store (key : BlobKey) (offset len : Z) : M C ServerError (list byte) :=
  if len =? 0 then mret []
  else
    let! end_ := mlift (ok_or (u64_checked_add offset (len - 1))
      (SIo "get S3 blob" "range offset={offset} length={len} overflows")) in
    λ s,
      match get_object (s3_client store) (s3_bucket store) (object_key store key) (range_text offset end_) s with
      | (Ok body, s) => let '(o, s) := body s in (map_err (SIo "read S3 blob body") o, s)
      | (Err e, s) => (Err (s3_error "get S3 blob" e), s)
      | (Panic, s) => (Panic, s)
      end.

(** [impl BlobStore for S3BlobStore]; there is no [MutableBlobStore]. *)
Definition s3_blob_store store : BlobStore C := {|
  get_blob := s3_get_blob store;
  put_blob := s3_put_blob store;
|}.
End store.

(** ** The laws of a blob store *)

(** [s] without the prefix [p]. *)
Fixpoint strip_text (p s : string) : option string :=
  match p, s with
  | EmptyString, _ => Some s
  | String a p, String b s => if Ascii.eqb a b then strip_text p s else None
  | String _ _, EmptyString => None
  end.

Lemma strip_text_Some p s k : strip_text p s = Some k ↔ s = p +:+ k.
Proof.
  revert s. induction p as [|a p IH]; intros s; cbn; [naive_solver|].
  destruct s as [|b s]; [done|]. destruct (Ascii.eqb_spec a b) as [->|Hne].
  - rewrite IH. split; [by intros ->|]. by intros [= ->].
  - split; [done|]. by intros [= -> _].
Qed.

(** The objects of the bucket under the prefix, by blob key. *)
Definition bucket_blobs (bucket prefix : string) (objs : gmap (string * string) (list byte)) : gmap BlobKey (list byte) :=
  map_fold (λ name object m,
    if bool_decide (name.1 = bucket) then
      match strip_text prefix name.2 with Some key => <[key := object]> m | None => m end
    else m) ∅ objs.

Lemma bucket_blobs_lookup bucket prefix objs key :
  bucket_blobs bucket prefix objs !! key = objs !! (bucket, prefix +:+ key).
Proof.
  unfold bucket_blobs. revert key.
  apply (map_fold_weak_ind (λ m (objs : gmap (string * string) (list byte)), ∀ key, m !! key = objs !! (bucket, prefix +:+ key))); [done|].
  intros [b name] object objs' m Hnone IH key. cbn [fst snd].
  destruct (decide (b = bucket)) as [->|Hb].
  - rewrite bool_decide_eq_true_2 by done. destruct (strip_text prefix name) as [k|] eqn:Hk.
    + apply strip_text_Some in Hk as ->. destruct (decide (k = key)) as [->|Hne]; [by rewrite !lookup_insert_eq|].
      rewrite !lookup_insert_ne; [done| |done]. intros [= Heq]. apply Hne. by apply (inj (String.append prefix)).
    + rewrite lookup_insert_ne; [done|]. intros [= ->]. by rewrite (proj2 (strip_text_Some _ _ _) eq_refl) in Hk.
  - rewrite bool_decide_eq_false_2 by done. rewrite lookup_insert_ne; [done|]. by intros [= ->].
Qed.

Lemma normalize_no_panic prefix : normalize_key_prefix prefix ≠ Panic.
Proof.
  destruct prefix as [prefix|]; [|done]. unfold normalize_key_prefix. case_match; [done|]. case_match; [done|]. case_match; [done|].
  assert (∀ segments acc, push_segments prefix acc segments ≠ Panic) as Hp.
  { induction segments as [|segment segments IH]; intros acc; cbn; [done|]. case_match; [done|]. apply IH. }
  specialize (Hp (split_slash (strip_slash (trim (list_byte_of_string prefix)))) []). by destruct (push_segments _ _ _).
Qed.

Section laws.
Context {Client C : Type} `{!S3Sdk Client C} `{!S3SdkLaws Client C}.
Implicit Types (store : S3BlobStore Client) (s : C).

Definition s3_blobs store s : gmap BlobKey (list byte) := bucket_blobs (s3_bucket store) (s3_key_prefix store) (objects s).

Lemma s3_blobs_lookup store s key : s3_blobs store s !! key = objects s !! (s3_bucket store, object_key store key).
Proof. apply bucket_blobs_lookup. Qed.

Lemma s3_blobs_same store s s' : objects s' = objects s → s3_blobs store s' = s3_blobs store s.
Proof. unfold s3_blobs. by intros ->. Qed.

Lemma s3_blobs_insert store s s' key data :
  objects s' = <[(s3_bucket store, object_key store key) := data]> (objects s) →
  s3_blobs store s' = <[key := data]> (s3_blobs store s).
Proof.
  intros Hs. apply map_eq. intros k. rewrite s3_blobs_lookup, Hs. destruct (decide (k = key)) as [->|Hne].
  - by rewrite !lookup_insert_eq.
  - rewrite !lookup_insert_ne; [by rewrite s3_blobs_lookup|done|]. intros [= Heq%(inj (String.append _))]. congruence.
Qed.

(** A put stores a new blob, or it fails and every other blob is as it was; when it says that the key is taken
    it has stored nothing. *)
Lemma s3_put_spec store key data s :
  match s3_put_blob store key data s with
  | (Ok _, s') => s3_blobs store s !! key = None ∧ s3_blobs store s' = <[key := data]> (s3_blobs store s)
  | (Err e, s') =>
      s3_blobs store s' = s3_blobs store s ∨
      s3_blobs store s !! key = None ∧ s3_blobs store s' = <[key := data]> (s3_blobs store s) ∧ is_blob_already_exists e = false
  | (Panic, _) => False
  end.
Proof.
  unfold s3_put_blob. pose proof (law_put_object (s3_client store) (s3_bucket store) (object_key store key) data s) as Hl.
  destruct (put_object _ _ _ _ _ s) as [[[]|e|] s']; [| |done].
  - rewrite s3_blobs_lookup. destruct Hl as [Hn Ho]. split; [done|]. by apply s3_blobs_insert.
  - destruct Hl as [Ho|(Hn & Ho & Hc1 & Hc2)]; [destruct (is_create_collision e); left; by apply s3_blobs_same|].
    unfold is_create_collision. rewrite !bool_decide_eq_false_2 by done. right. rewrite s3_blobs_lookup. split; [done|].
    split; [by apply s3_blobs_insert|done].
Qed.

(** A read gives the bytes of the range that the blob has. *)
Lemma s3_get_spec store key offset len s :
  0 ≤ offset → 0 < len →
  match s3_get_blob store key offset len s with
  | (Ok data, s') =>
      s3_blobs store s' = s3_blobs store s ∧
      ∃ blob, s3_blobs store s !! key = Some blob ∧ offset < zlen blob ∧
        slice blob offset (Z.min (offset + len) (zlen blob)) = Some data
  | (Err _, s') => s3_blobs store s' = s3_blobs store s
  | (Panic, _) => False
  end.
Proof.
  intros Ho Hl. unfold s3_get_blob. rewrite (proj2 (Z.eqb_neq len 0)) by lia. unfold mseq, mlift.
  destruct (u64_checked_add offset (len - 1)) as [last|] eqn:Hadd; cbn [ok_or]; [|done].
  apply u64_checked_add_Some in Hadd as [Hu ->].
  pose proof (law_get_object (s3_client store) (s3_bucket store) (object_key store key) offset (offset + (len - 1)) s ltac:(lia) ltac:(lia)) as Hg.
  destruct (get_object _ _ _ _ s) as [[body|e|] s1]; [|by apply s3_blobs_same|done].
  destruct Hg as (_ & object & Hobj & Hlt & Hb). destruct (body s1) as [[data|e|] s2]; cbn [map_err]; [|by apply s3_blobs_same|done].
  destruct Hb as [Hs Hsl]. split; [by apply s3_blobs_same|]. exists object. rewrite s3_blobs_lookup. split; [done|]. split; [done|].
  by replace (offset + len) with (offset + (len - 1) + 1) by lia.
Qed.

Lemma S3_open_spec config s :
  objects (S3BlobStore_open (Client := Client) config s).2 = objects s ∧ (S3BlobStore_open (Client := Client) config s).1 ≠ Panic.
Proof.
  destruct config as [|url region bucket access secret style prefix auto]; [done|]. unfold S3BlobStore_open, mseq, mlift.
  destruct (normalize_key_prefix prefix) as [q|e|] eqn:Hq; [|done|by destruct (normalize_no_panic prefix)]. destruct auto.
  - unfold create_bucket_if_needed. pose proof (law_create_bucket (from_conf (mkS3Conf region access secret style url)) bucket s) as Hl.
    cbn [s3_client s3_bucket]. destruct (create_bucket _ _ s) as [[[]|e|] s']; cbn in *; destruct Hl as [Hs Hp]; [by split| |done].
    by destruct (is_bucket_already_exists e).
  - unfold verify_bucket_exists. pose proof (law_head_bucket (from_conf (mkS3Conf region access secret style url)) bucket s) as Hl.
    cbn [s3_client s3_bucket]. by destruct (head_bucket _ _ s) as [[[]|e|] s']; cbn in *; destruct Hl as [Hs Hp].
Qed.

(** Readers, compaction and the engine see S3 through the laws of a blob store. *)
#[refine] Instance s3_blob_store_laws store : @BlobStoreLaws C (s3_blob_store store) := {
  blobs := s3_blobs store;
  blob_ready := service_ready;
  key_ok key := object_key_ok (object_key store key);
}.
Proof.
  - intros s key offset len Ho Hl. cbn [get_blob s3_blob_store]. destruct (decide (len = 0)) as [->|Hne].
    { split; [done|]. intros blob _ Hle. rewrite Z.add_0_r in *. unfold slice.
      rewrite !(proj2 (Z.leb_le _ _)) by lia. cbn [andb]. by rewrite Z.sub_diag. }
    pose proof (s3_get_spec store key offset len s Ho ltac:(lia)) as Hg.
    destruct (s3_get_blob store key offset len s) as [[data|e|] s']; [|done|done]. destruct Hg as (Hs & blob & Hb & _ & Hsl).
    split; [done|]. intros blob' Hb' Hle. rewrite Hb in Hb'. injection Hb' as <-. by rewrite Z.min_l in Hsl by lia.
  - intros s key data. cbn [put_blob s3_blob_store]. pose proof (s3_put_spec store key data s) as Hp.
    destruct (s3_put_blob store key data s) as [[[]|e|] s']; [done| |done].
    intros k Hk. destruct Hp as [->|(_ & -> & _)]; [done|]. by rewrite lookup_insert_ne.
  - intros s key offset len blob data Hr Hk Hb Hsl Hl Hu. rewrite s3_blobs_lookup in Hb. cbn [get_blob s3_blob_store]. unfold s3_get_blob.
    pose proof (slice_length _ _ _ _ Hsl) as Hlen. pose proof Hsl as (Hbounds & Hend & _)%slice_Some.
    destruct (Z.eqb_spec len 0) as [->|Hne].
    { exists s. split; [|done]. unfold mret. repeat f_equal. symmetry. apply zlen_nil. lia. }
    pose proof (s3_get_spec store key offset len s ltac:(lia) ltac:(lia)) as Hg. revert Hg. unfold s3_get_blob.
    rewrite (proj2 (Z.eqb_neq len 0)) by done. unfold mseq, mlift.
    assert (u64_checked_add offset (len - 1) = Some (offset + (len - 1))) as -> by (apply u64_checked_add_Some; split; [lia|done]). cbn [ok_or].
    destruct (law_get_object_ready (s3_client store) (s3_bucket store) (object_key store key) offset (offset + (len - 1)) blob s
      Hr Hk Hb ltac:(lia) ltac:(lia) ltac:(lia)) as (body & s1 & data' & s2 & -> & Hbody & Hr2). rewrite Hbody. cbn [map_err].
    intros (_ & blob' & Hb' & _ & Hsl'). rewrite s3_blobs_lookup, Hb in Hb'. injection Hb' as <-. rewrite Z.min_l in Hsl' by lia.
    exists s2. split; [|done]. congruence.
  - intros s key data Hr Hk Hn. rewrite s3_blobs_lookup in Hn. cbn [put_blob s3_blob_store]. unfold s3_put_blob.
    destruct (law_put_object_ready (s3_client store) (s3_bucket store) (object_key store key) data s Hr Hk Hn) as (s' & -> & Hr').
    by exists s'.
Defined.
End laws.

(** A read is answered only if its last offset fits 64 bits. *)
Lemma s3_get_range {Client C : Type} `{!S3Sdk Client C} (store : S3BlobStore Client) key offset len (s s' : C) bytes :
  0 < len → s3_get_blob store key offset len s = (Ok bytes, s') → offset + len ≤ u64_max + 1.
Proof.
  intros Hl. unfold s3_get_blob. rewrite (proj2 (Z.eqb_neq len 0)) by lia. unfold mseq, mlift.
  destruct (u64_checked_add offset (len - 1)) as [e|] eqn:Hadd; [|done]. apply u64_checked_add_Some in Hadd. lia.
Qed.

(** While the service answers, what was stored is read. *)
Lemma s3_reads_back {Client C : Type} `{!S3Sdk Client C} `{!S3SdkLaws Client C} (store : S3BlobStore Client) key data (s : C) :
  service_ready s → object_key_ok (object_key store key) = true → s3_blobs store s !! key = None → zlen data ≤ u64_max →
  ∃ s', s3_put_blob store key data s = (Ok tt, s') ∧
    (∀ offset len bytes, 0 ≤ len → slice data offset (offset + len) = Some bytes →
       ∃ s2, s3_get_blob store key offset len s' = (Ok bytes, s2)) ∧
    ∃ s2, s3_get_blob store key 0 (zlen data) s' = (Ok data, s2).
Proof.
  intros Hr Hk Hn Hu. pose proof (@law_put_ready _ _ (s3_blob_store_laws store) s key data Hr Hk Hn) as (s' & Hput & Hr').
  cbn [put_blob s3_blob_store] in Hput. exists s'. split; [done|]. pose proof (s3_put_spec store key data s) as Hp. rewrite Hput in Hp.
  assert (Hread : ∀ offset len bytes, 0 ≤ len → slice data offset (offset + len) = Some bytes →
    ∃ s2, s3_get_blob store key offset len s' = (Ok bytes, s2)).
  { intros offset len bytes Hl Hsl. pose proof Hsl as (_ & Hend & _)%slice_Some.
    destruct (@law_get_ready _ _ (s3_blob_store_laws store) s' key offset len data bytes) as (s2 & Hget & _); [done|done| |done|done|lia|by exists s2].
    cbn [blobs s3_blob_store_laws]. destruct Hp as [_ ->]. apply lookup_insert_eq. }
  split; [done|]. apply Hread; [apply zlen_nonneg|apply slice_all].
Qed.

(** ** Normalized prefixes *)

(** A prefix is made of segments, each with its slash. *)
Definition glue (segments : list (list byte)) : list byte := concat ((λ segment, segment ++ [slash]) <$> segments).

(** A segment that cannot be taken for another path, nor for several. *)
Definition segment_ok (segment : list byte) : Prop :=
  bad_segment segment = false ∧ (slash ∉ segment) ∧ ("\"%byte ∉ segment) ∧ (x00 ∉ segment).

(** A fact that evaluates. *)
Ltac by_decide := apply (bool_decide_unpack _); vm_compute; exact I.

Section prefixes.
Implicit Types (l segment : list byte).

Lemma prefix_of_spec (w l : list byte) : prefix_of w l = true ↔ w `prefix_of` l.
Proof.
  unfold prefix_of. rewrite bool_decide_eq_true. split.
  - intros <-. exists (drop (length w) l). by rewrite take_drop.
  - intros [k ->]. by rewrite take_app_length.
Qed.

Lemma find_none spaces l : find (λ w, prefix_of w l) spaces = None ↔ ∀ w, w ∈ spaces → ¬ w `prefix_of` l.
Proof.
  split.
  - intros Hf w Hw Hp%prefix_of_spec. apply list_elem_of_In in Hw. pose proof (find_none _ _ Hf w Hw) as Hn. cbn in Hn. congruence.
  - intros Hn. destruct (find _ spaces) as [w|] eqn:Hf; [|done]. apply find_some in Hf as [Hw%list_elem_of_In Hp%prefix_of_spec]. by destruct (Hn w Hw).
Qed.

Lemma strip_front_done n spaces l : (∀ w, w ∈ spaces → ¬ w `prefix_of` l) → strip_front n spaces l = l.
Proof. intros Hn%find_none. destruct n; cbn; [done|]. by rewrite Hn. Qed.

Lemma strip_front_none n spaces l :
  [] ∉ spaces → (length l ≤ n)%nat → ∀ w, w ∈ spaces → ¬ w `prefix_of` strip_front n spaces l.
Proof.
  intros Hne. revert l. induction n as [|n IH]; intros l Hl; cbn.
  - destruct l; cbn in Hl; [|lia]. intros w Hw Hp%prefix_nil_inv. by subst.
  - destruct (find _ spaces) as [w|] eqn:Hf; [|by apply find_none]. apply IH.
    apply find_some in Hf as [Hw%list_elem_of_In _]. destruct w as [|b w]; [done|]. rewrite length_drop. cbn. lia.
Qed.

Lemma strip_front_suffix n spaces l : ∃ k, l = k ++ strip_front n spaces l.
Proof.
  revert l. induction n as [|n IH]; intros l; cbn; [by exists []|]. destruct (find _ spaces) as [w|]; [|by exists []].
  destruct (IH (drop (length w) l)) as [k Hk]. exists (take (length w) l ++ k). by rewrite <-app_assoc, <-Hk, take_drop.
Qed.

(** No white space at the front of a trimmed text. *)
Lemma trim_front l w : w ∈ white_space → ¬ w `prefix_of` trim l.
Proof.
  intros Hw Hp. apply (strip_front_none (length l) white_space l ltac:(by_decide) ltac:(done) w Hw). fold (trim_start l). etrans; [exact Hp|].
  unfold trim, trim_end. destruct (strip_front_suffix (length (trim_start l)) ((@rev byte) <$> white_space) (rev (trim_start l))) as [k Hk].
  exists (rev k). rewrite <-rev_app_distr, <-Hk, rev_involutive. done.
Qed.

Lemma no_slash_in_spaces : Forall (λ w, slash ∉ w) white_space.
Proof. by_decide. Qed.

(** A text that starts without white space stays as it is when a slash follows it. *)
Lemma trim_slash l : (∀ w, w ∈ white_space → ¬ w `prefix_of` l) → trim (l ++ [slash]) = l ++ [slash].
Proof.
  intros Hl. assert (Hs : trim_start (l ++ [slash]) = l ++ [slash]).
  { apply strip_front_done. intros w Hw Hp. pose proof (proj1 (Forall_forall _ _) no_slash_in_spaces w Hw) as Hns.
    destruct Hp as [k Hk].
    destruct k as [|b k _] using rev_ind; [rewrite app_nil_r in Hk; rewrite <-Hk in Hns; set_solver|].
    rewrite app_assoc in Hk. apply app_inj_tail in Hk as [-> _]. apply (Hl w Hw). by exists k. }
  unfold trim. rewrite Hs. unfold trim_end. rewrite strip_front_done; [apply rev_involutive|].
  rewrite rev_app_distr. cbn [rev app]. intros w (w' & -> & Hw')%list_elem_of_fmap [k Hk].
  pose proof (proj1 (Forall_forall _ _) no_slash_in_spaces w' Hw') as Hns. destruct (rev w') as [|b r] eqn:Hr.
  - apply (f_equal (@rev byte)) in Hr. rewrite rev_involutive in Hr. subst w'. revert Hw'. by_decide.
  - injection Hk as <- _. apply Hns. apply list_elem_of_In, in_rev. rewrite Hr. by left.
Qed.

(** *** Segments *)

Lemma byte_eqb_spec (a b : byte) : reflect (a = b) (Byte.eqb a b).
Proof. apply iff_reflect. split; [apply Byte.byte_dec_lb|apply Byte.byte_dec_bl]. Qed.

Lemma split_slash_seg segment l : (slash ∉ segment) → split_slash (segment ++ slash :: l) = segment :: split_slash l.
Proof.
  induction segment as [|b segment IH]; intros Hn; cbn [app split_slash]; [done|].
  destruct (byte_eqb_spec b slash) as [->|]; [set_solver|]. rewrite IH by set_solver. done.
Qed.

Lemma split_slash_last segment : (slash ∉ segment) → split_slash segment = [segment].
Proof.
  induction segment as [|b segment IH]; intros Hn; cbn [split_slash]; [done|].
  destruct (byte_eqb_spec b slash) as [->|]; [set_solver|]. rewrite IH by set_solver. done.
Qed.

Lemma split_slash_spec l : glue (split_slash l) = l ++ [slash] ∧ Forall (λ s, slash ∉ s) (split_slash l) ∧ split_slash l ≠ [].
Proof.
  induction l as [|b l (IH & Hf & Hne)]; cbn [split_slash]; [repeat constructor; [set_solver|done]|].
  destruct (byte_eqb_spec b slash) as [->|Hb].
  - unfold glue in *. cbn. rewrite IH. split; [done|]. split; [|done]. constructor; [set_solver|done].
  - destruct (split_slash l) as [|segment segments]; [done|]. unfold glue in *. cbn in *. rewrite IH. split; [done|].
    apply Forall_cons in Hf as [Hs Hf]. split; [|done]. constructor; [set_solver|done].
Qed.

Lemma split_glue segments : segments ≠ [] → Forall (λ s, slash ∉ s) segments → ∃ l, glue segments = l ++ [slash] ∧ split_slash l = segments.
Proof.
  induction segments as [|segment segments IH]; [done|]. intros _ [Hs Hf]%Forall_cons. destruct segments as [|s segments].
  - exists segment. split; [unfold glue; cbn; by rewrite app_nil_r|by apply split_slash_last].
  - destruct (IH ltac:(done) Hf) as (l & Hg & Hl). exists (segment ++ slash :: l). split; [|by rewrite split_slash_seg, Hl].
    change (glue (segment :: s :: segments)) with ((segment ++ [slash]) ++ glue (s :: segments)). rewrite Hg. by rewrite <-!app_assoc.
Qed.

Lemma push_segments_spec prefix segments : ∀ acc,
  if forallb (λ s, negb (bad_segment s)) segments then
    ∃ r, push_segments prefix acc segments = Ok r ∧
      (segments ≠ [] → r ++ [slash] = (if bool_decide (acc = []) then [] else acc ++ [slash]) ++ glue segments)
  else push_segments prefix acc segments = Err (invalid_prefix prefix).
Proof.
  induction segments as [|segment segments IH]; intros acc; cbn [forallb push_segments]; [by exists acc|].
  destruct (bad_segment segment) eqn:Hbad; cbn [negb andb]; [done|].
  set (acc' := (if bool_decide (acc = []) then acc else acc ++ [slash]) ++ segment). specialize (IH acc').
  destruct (forallb _ segments); [|done]. destruct IH as (r & Hr & Hg). exists r. split; [done|]. intros _.
  assert (acc' ≠ []) as Hne. { unfold acc'. destruct segment; [by cbn in Hbad|]. by intros [_ ?]%app_eq_nil. }
  assert ((if bool_decide (acc = []) then acc else acc ++ [slash]) = if bool_decide (acc = []) then [] else acc ++ [slash]) as Hacc.
  { destruct acc; [done|]. by rewrite bool_decide_eq_false_2. }
  change (glue (segment :: segments)) with ((segment ++ [slash]) ++ glue segments).
  destruct segments as [|s segments].
  - cbn in Hr. injection Hr as <-. unfold acc'. rewrite Hacc. unfold glue. cbn. by rewrite app_nil_r, <-!app_assoc.
  - rewrite Hg by done. rewrite bool_decide_eq_false_2 by done. unfold acc'. rewrite Hacc. by rewrite <-!app_assoc.
Qed.
End prefixes.

(** What [normalize_key_prefix] answers, for a text that is not blank. *)
Lemma normalize_inv prefix q :
  normalize_key_prefix (Some prefix) = Ok q → trim (list_byte_of_string prefix) ≠ [] →
  ∃ l, (trim (list_byte_of_string prefix) = l ∨ trim (list_byte_of_string prefix) = l ++ [slash]) ∧
    Forall segment_ok (split_slash l) ∧ q = string_of_list_byte (l ++ [slash]).
Proof.
  intros H Hne. unfold normalize_key_prefix in H. set (t := trim (list_byte_of_string prefix)) in *.
  rewrite bool_decide_eq_false_2 in H by done. destruct (starts_with slash t || contains "\"%byte t || contains x00 t) eqn:Hc; [done|].
  destruct (ends_with_slashes t); [done|]. apply orb_false_iff in Hc as [[_ Hb]%orb_false_iff Hz].
  apply bool_decide_eq_false in Hb, Hz.
  assert (Hstrip : t = strip_slash t ∨ t = strip_slash t ++ [slash]).
  { unfold strip_slash. destruct t as [|b l _] using rev_ind; [done|]. rewrite last_snoc, removelast_last.
    destruct (byte_eqb_spec b slash) as [->|]; [by right|by left]. }
  exists (strip_slash t). split; [by destruct Hstrip as [Hs|Hs]; [left|right]|]. set (l := strip_slash t) in *.
  destruct (split_slash_spec l) as (Hglue & Hslash & Hnil). pose proof (push_segments_spec prefix (split_slash l) []) as Hp.
  destruct (forallb _ (split_slash l)) eqn:Hgood; [|by rewrite Hp in H]. destruct Hp as (r & Hr & Hg). rewrite Hr in H. cbn [obind] in H.
  specialize (Hg Hnil). cbn in Hg. rewrite Hglue in Hg. rewrite Hg in H. injection H as <-. split; [|done].
  apply Forall_forall. intros s Hs. rewrite forallb_forall in Hgood. specialize (Hgood s (proj1 (list_elem_of_In _ _) Hs)).
  assert (∀ b, b ∈ s → b ∈ t) as Hin.
  { intros b Hbs. assert (b ∈ glue (split_slash l)) as Hbg.
    { unfold glue. apply list_elem_of_In, in_concat. exists (s ++ [slash]). split; apply list_elem_of_In; [|set_solver].
      apply list_elem_of_fmap. by exists s. }
    rewrite Hglue in Hbg. destruct (decide (b = slash)) as [->|]; [by destruct (proj1 (Forall_forall _ _) Hslash s Hs)|].
    destruct Hstrip as [Hst|Hst]; rewrite Hst; set_solver. }
  split; [by destruct (bad_segment s)|]. split; [by apply (proj1 (Forall_forall _ _) Hslash s Hs)|]. split; auto.
Qed.

Lemma split_slash_snoc l : split_slash (l ++ [slash]) = split_slash l ++ [[]].
Proof.
  induction l as [|b l IH]; cbn [app split_slash]; [done|]. rewrite IH. destruct (byte_eqb_spec b slash); [done|].
  destruct (split_slash_spec l) as (_ & _ & ?). by destruct (split_slash l).
Qed.

Lemma normalize_glued l :
  (∀ w, w ∈ white_space → ¬ w `prefix_of` l) → Forall segment_ok (split_slash l) →
  normalize_key_prefix (Some (string_of_list_byte (l ++ [slash]))) = Ok (string_of_list_byte (l ++ [slash])).
Proof.
  intros Hw Hok. destruct (split_slash_spec l) as (Hglue & _ & Hnil). unfold normalize_key_prefix.
  rewrite list_byte_of_string_of_list_byte, trim_slash by done.
  assert (Hbad : ∀ b, b ∈ l ++ [slash] → b ≠ slash → ∃ s, segment_ok s ∧ b ∈ s).
  { intros b Hb Hne. rewrite <-Hglue in Hb. apply list_elem_of_In, in_concat in Hb as (s & Hs & Hbs).
    apply list_elem_of_In, list_elem_of_fmap in Hs as (s' & -> & Hs'). exists s'. split; [by apply (proj1 (Forall_forall _ _) Hok)|].
    apply list_elem_of_In in Hbs. set_solver. }
  assert (Hempty : ¬ segment_ok []) by (by intros [? _]).
  assert (Hslash : ∀ l', l ≠ slash :: l' ∧ l ≠ l' ++ [slash] ∧ l ≠ []).
  { intros l'. split; [|split]; intros ->; [cbn in Hok; by apply Forall_cons in Hok as [? _]| |cbn in Hok; by apply Forall_cons in Hok as [? _]].
    rewrite split_slash_snoc in Hok. by apply Forall_app in Hok as [_ [? _]%Forall_cons]. }
  rewrite bool_decide_eq_false_2 by (by destruct l).
  assert (starts_with slash (l ++ [slash]) = false) as ->.
  { apply bool_decide_eq_false. destruct l as [|b l']; [by destruct (Hslash []) as (_ & _ & ?)|]. intros [= ->]. by destruct (Hslash l') as [? _]. }
  assert (contains "\"%byte (l ++ [slash]) = false) as ->.
  { apply bool_decide_eq_false. intros (s & (_ & _ & ? & _) & ?)%Hbad; done. }
  assert (contains x00 (l ++ [slash]) = false) as ->.
  { apply bool_decide_eq_false. intros (s & (_ & _ & _ & ?) & ?)%Hbad; done. }
  assert (ends_with_slashes (l ++ [slash]) = false) as ->.
  { apply not_true_iff_false. unfold ends_with_slashes. rewrite rev_app_distr. intros [k Hk]%prefix_of_spec. injection Hk as Hk.
    apply (f_equal (@rev byte)) in Hk. rewrite rev_involutive in Hk. cbn in Hk. by destruct (Hslash (rev k)) as (_ & ? & _). }
  assert (strip_slash (l ++ [slash]) = l) as ->.
  { unfold strip_slash. by rewrite last_snoc, removelast_last. }
  cbn [orb]. pose proof (push_segments_spec (string_of_list_byte (l ++ [slash])) (split_slash l) []) as Hp.
  assert (forallb (λ s, negb (bad_segment s)) (split_slash l) = true) as Hgood.
  { apply forallb_forall. intros s Hs%list_elem_of_In. destruct (proj1 (Forall_forall _ _) Hok s Hs) as [-> _]. done. }
  rewrite Hgood in Hp. destruct Hp as (r & -> & Hg). cbn [obind]. rewrite (Hg Hnil). cbn. by rewrite Hglue.
Qed.

(** ** Properties *)

(** C38: key prefixes are normalized once and for all.  A prefix that is accepted is empty or a sequence of segments with a slash
    after each; no segment is empty, a dot or two dots, and none has a slash, a backslash or a NUL in it, so
    that keys under different prefixes do not run into each other.  The result is the configured text without the white space around it, with
    one slash at its end; without a prefix, or with a blank one, it is empty.  Normalizing the result changes nothing. *)
Theorem key_prefix_normal prefix q :
  normalize_key_prefix prefix = Ok q →
  (∃ segments, list_byte_of_string q = glue segments ∧ Forall segment_ok segments) ∧ normalize_key_prefix (Some q) = Ok q ∧
  match trim ∘ list_byte_of_string <$> prefix with
  | None | Some [] => q = ""
  | Some text => list_byte_of_string q = text ∨ list_byte_of_string q = text ++ [slash]
  end.
Proof.
  destruct prefix as [prefix|]; [|intros [= <-]; split; [by exists []|done]]. intros H.
  destruct (decide (trim (list_byte_of_string prefix) = [])) as [Ht|Ht].
  { unfold normalize_key_prefix in H. rewrite bool_decide_eq_true_2 in H by done. injection H as <-. split; [by exists []|].
    split; [done|]. cbn. by rewrite Ht. }
  destruct (normalize_inv _ _ H Ht) as (l & Hl & Hok & ->). destruct (split_slash_spec l) as (Hglue & Hslash & Hnil).
  rewrite list_byte_of_string_of_list_byte. split; [by exists (split_slash l)|]. split.
  - apply normalize_glued; [|done]. intros w Hw Hp. apply (trim_front (list_byte_of_string prefix) w Hw).
    destruct Hl as [->| ->]; [done|]. by apply prefix_app_r.
  - cbn. destruct (trim (list_byte_of_string prefix)) as [|b text]; [done|]. destruct Hl as [->| ->]; [by right|by left].
Qed.

(** C34: the S3 store creates a blob once and reads what it stored.  Over any client library with the documented behaviour: a put
    that succeeds created the blob with exactly its bytes; one that fails changes no other blob, and when it answers that the key is
    taken it stored nothing.  A read that succeeds gives all bytes of the range that the blob has, that is as many as were asked for or as
    there are after the offset, and no others; it never changes a blob, and a range whose end does not fit 64 bits is
    refused.  While the service answers, a new blob can be stored and every range of it then reads back with its bytes, the whole blob
    included.  Opening the store changes no object.  Nothing panics. *)
Theorem s3_store_sound {Client C : Type} `{!S3Sdk Client C} `{!S3SdkLaws Client C} (store : S3BlobStore Client) key data (s : C) :
  match s3_put_blob store key data s with
  | (Ok _, s') => s3_blobs store s !! key = None ∧ s3_blobs store s' = <[key := data]> (s3_blobs store s)
  | (Err e, s') =>
      (∀ k, k ≠ key → s3_blobs store s' !! k = s3_blobs store s !! k) ∧
      (is_blob_already_exists e = true → s3_blobs store s' = s3_blobs store s)
  | (Panic, _) => False
  end ∧
  (∀ offset len, 0 ≤ offset → 0 < len →
     match s3_get_blob store key offset len s with
     | (Ok bytes, s') =>
         s3_blobs store s' = s3_blobs store s ∧ offset + len ≤ u64_max + 1 ∧
         ∃ blob, s3_blobs store s !! key = Some blob ∧ offset < zlen blob ∧ zlen bytes = Z.min len (zlen blob - offset) ∧
           slice blob offset (offset + zlen bytes) = Some bytes
     | (Err _, s') => s3_blobs store s' = s3_blobs store s
     | (Panic, _) => False
     end) ∧
  (service_ready s → object_key_ok (object_key store key) = true → s3_blobs store s !! key = None → zlen data ≤ u64_max →
   ∃ s', s3_put_blob store key data s = (Ok tt, s') ∧
     (∀ offset len bytes, 0 ≤ len → slice data offset (offset + len) = Some bytes →
        ∃ s2, s3_get_blob store key offset len s' = (Ok bytes, s2)) ∧
     ∃ s2, s3_get_blob store key 0 (zlen data) s' = (Ok data, s2)) ∧
  ∀ config, let '(o, s') := S3BlobStore_open (Client := Client) config s in objects s' = objects s ∧ o ≠ Panic.
Proof.
  split; [|split; [|split]].
  - pose proof (s3_put_spec store key data s) as Hp. destruct (s3_put_blob store key data s) as [[[]|e|] s']; [done| |done].
    destruct Hp as [->|(_ & -> & ->)]; [done|]. split; [|done]. intros k Hk. by rewrite lookup_insert_ne.
  - intros offset len Ho Hl. pose proof (s3_get_spec store key offset len s Ho Hl) as Hg.
    destruct (s3_get_blob store key offset len s) as [[bytes|e|] s'] eqn:Hrun; [|done|done]. destruct Hg as (Hs & blob & Hb & Hlt & Hsl).
    split; [done|]. split; [by eapply s3_get_range|]. pose proof (slice_length _ _ _ _ Hsl) as Hlen.
    exists blob. split; [done|]. split; [done|]. split; [lia|]. rewrite Hlen. by replace (offset + _) with (Z.min (offset + len) (zlen blob)) by lia.
  - by apply s3_reads_back.
  - intros config. pose proof (S3_open_spec config s) as H. by destruct (S3BlobStore_open config s).
Qed.

(** ** A service in memory *)

(** The decimal number at the front of a text, and what follows it. *)
Fixpoint read_number (acc : N) (text : string) : N * string :=
  match text with
  | String c rest =>
      let d := (N_of_ascii c - 48)%N in
      if bool_decide (pretty_N_char d = c) then read_number (10 * acc + d) rest else (acc, text)
  | EmptyString => (acc, text)
  end.

Lemma read_digit d acc s : (d < 10)%N → read_number acc (String (pretty_N_char d) s) = read_number (10 * acc + d) s.
Proof.
  intros Hd. cbn. assert (N_of_ascii (pretty_N_char d) - 48 = d)%N as ->.
  { destruct d as [|p]; [done|]. do 4 (destruct p as [p|p|]; try done; try lia). }
  by rewrite bool_decide_eq_true_2.
Qed.

Lemma read_go x : ∀ s, read_number 0 (pretty_N_go x s) = read_number x s.
Proof.
  induction (N.lt_wf_0 x) as [x _ IH]. intros s. destruct (decide (x = 0)%N) as [->|Hx]; [done|].
  rewrite pretty_N_go_step by lia. rewrite IH by (apply N.div_lt; lia). rewrite read_digit by (by apply N.mod_lt).
  by rewrite <-N.div_mod'.
Qed.

Lemma pretty_go_app x rest : ∀ s, pretty_N_go x s +:+ rest = pretty_N_go x (s +:+ rest).
Proof.
  induction (N.lt_wf_0 x) as [x _ IH]. intros s. destruct (decide (x = 0)%N) as [->|Hx]; [done|].
  rewrite !(pretty_N_go_step x) by lia. rewrite IH by (apply N.div_lt; lia). done.
Qed.

Lemma read_pretty (x : N) rest : read_number 0 (pretty x +:+ rest) = read_number x rest.
Proof.
  unfold pretty, pretty_N. destruct (decide (x = 0)%N) as [->|Hx].
  - apply (read_digit 0 0 rest). lia.
  - rewrite pretty_go_app. apply read_go.
Qed.

Definition parse_range (text : string) : option (Z * Z) :=
  rest ← strip_text "bytes=" text;
  let '(first, rest) := read_number 0 rest in
  rest ← strip_text "-" rest;
  let '(last, rest) := read_number 0 rest in
  if bool_decide (rest = "") then Some (Z.of_N first, Z.of_N last) else None.

Lemma parse_range_text first last : 0 ≤ first → 0 ≤ last → parse_range (range_text first last) = Some (first, last).
Proof.
  intros Hf Hl. assert (∀ z, 0 ≤ z → pretty z = pretty (Z.to_N z)) as Hp by (by intros []).
  unfold parse_range, range_text. rewrite (proj2 (strip_text_Some "bytes=" _ _) eq_refl). cbn [mbind option_bind].
  rewrite !Hp by done. rewrite read_pretty. change (read_number (Z.to_N first) ("-" +:+ pretty (Z.to_N last))) with (Z.to_N first, "-" +:+ pretty (Z.to_N last)).
  cbn iota. rewrite (proj2 (strip_text_Some "-" _ _) eq_refl). cbn [mbind option_bind].
  assert (read_number 0 (pretty (Z.to_N last)) = (Z.to_N last, "")) as ->.
  { pose proof (read_pretty (Z.to_N last) "") as Hr. assert (∀ t, t +:+ "" = t) as Happ by (induction t as [|c t IH]; [done|change (String c (t +:+ "") = String c t); by rewrite IH]).
    rewrite Happ in Hr. exact Hr. }
  rewrite bool_decide_eq_true_2 by done. by rewrite !Z2N.id.
Qed.

(** One fault per call: a call that fails does nothing. *)
Record MemoryS3 := mkMemoryS3 { ms_objects : gmap (string * string) (list byte); ms_faults : list bool }.

Definition ms_step : M MemoryS3 SdkError unit := λ s,
  (if default false (head (ms_faults s)) then Err (mkSdkError None "timeout") else Ok tt, mkMemoryS3 (ms_objects s) (tail (ms_faults s))).

Definition ms_put (bucket key : string) (body : list byte) : M MemoryS3 SdkError unit :=
  let! _ := ms_step in
  let! s := mget in
  match ms_objects s !! (bucket, key) with
  | Some _ => mfail (mkSdkError (Some "PreconditionFailed") "412")
  | None => mput (mkMemoryS3 (<[(bucket, key) := body]> (ms_objects s)) (ms_faults s))
  end.

Definition ms_get (bucket key range : string) : M MemoryS3 SdkError (M MemoryS3 string (list byte)) :=
  let! _ := ms_step in
  let! s := mget in
  match ms_objects s !! (bucket, key), parse_range range with
  | Some object, Some (first, last) =>
      if first <? zlen object then mret (mlift (ok_or (slice object first (Z.min (last + 1) (zlen object))) "truncated"))
      else mfail (mkSdkError (Some "InvalidRange") "416")
  | _, _ => mfail (mkSdkError (Some "NoSuchKey") "404")
  end.

#[export] Instance memory_s3 : S3Sdk unit MemoryS3 := {
  from_conf _ := tt;
  create_bucket _ _ := ms_step;
  head_bucket _ _ := ms_step;
  put_object _ bucket key _ body := ms_put bucket key body;
  get_object _ bucket key range := ms_get bucket key range;
}.

Lemma ms_step_spec s : ∃ o, ms_step s = (o, mkMemoryS3 (ms_objects s) (tail (ms_faults s))) ∧ o ≠ Panic ∧ (ms_faults s = [] → o = Ok tt).
Proof. unfold ms_step. destruct (ms_faults s) as [|[] faults]; cbn; by eexists. Qed.

#[export, refine] Instance memory_s3_laws : S3SdkLaws unit MemoryS3 := {
  objects := ms_objects;
  service_ready s := ms_faults s = [];
  object_key_ok _ := true;
}.
Proof.
  - intros c bucket s. cbn [create_bucket head_bucket put_object get_object memory_s3]. destruct (ms_step_spec s) as (o & -> & ? & _). done.
  - intros c bucket s. cbn [create_bucket head_bucket put_object get_object memory_s3]. destruct (ms_step_spec s) as (o & -> & ? & _). done.
  - intros c bucket key body s. cbn [create_bucket head_bucket put_object get_object memory_s3]. unfold ms_put, mseq, mget, mput, mfail. destruct (ms_step_spec s) as (o & -> & Hp & _).
    destruct o as [[]|e|]; [|by left|done]. cbn [ms_objects ms_faults]. destruct (ms_objects s !! (bucket, key)); [by left|done].
  - intros c bucket key first last s Hf Hl. cbn [create_bucket head_bucket put_object get_object memory_s3]. unfold ms_get, mseq, mget, mret, mlift, mfail.
    destruct (ms_step_spec s) as (o & -> & Hp & _). destruct o as [[]|e|]; [|done|done]. cbn [ms_objects ms_faults].
    rewrite parse_range_text by lia. destruct (ms_objects s !! (bucket, key)) as [object|]; [|done].
    destruct (Z.ltb_spec first (zlen object)); [|done]. split; [done|]. exists object. split; [done|]. split; [done|].
    by destruct (slice object first _).
  - intros c bucket key body s Hr _ Hn. cbn [create_bucket head_bucket put_object get_object memory_s3]. unfold ms_put, mseq, mget, mput. destruct (ms_step_spec s) as (o & -> & _ & Ho).
    rewrite (Ho Hr). cbn [ms_objects ms_faults]. rewrite Hn. eexists. split; [done|]. cbn [ms_objects ms_faults]. by rewrite Hr.
  - intros c bucket key first last object s Hr _ Ho Hf Hl Hlt. cbn [create_bucket head_bucket put_object get_object memory_s3]. unfold ms_get, mseq, mget, mret, mlift.
    destruct (ms_step_spec s) as (o & -> & _ & Hok). rewrite (Hok Hr). cbn [ms_objects ms_faults]. rewrite Ho, parse_range_text by lia.
    rewrite (proj2 (Z.ltb_lt _ _)) by done.
    destruct (slice_exists object first (Z.min (last + 1) (zlen object))) as [data Hs]; [lia|lia|]. rewrite Hs.
    eexists _, _, data, _. split; [done|]. split; [done|]. cbn [ms_objects ms_faults]. by rewrite Hr.
Defined.

Definition sample_s3 : S3BlobStore unit := mkS3Store tt "everstore" "v0.1/blobs/".

(** A blob is stored and read, whole and with a read that is longer than what is left of it. *)
Lemma s3_store_sound_witness :
  let s := mkMemoryS3 ∅ [] in
  let '(o, s1) := s3_put_blob sample_s3 "k" (le_bytes 4 258) s in
  o = Ok tt ∧ s3_blobs sample_s3 s1 !! "k" = Some (le_bytes 4 258) ∧
  (∃ s2, s3_get_blob sample_s3 "k" 0 4 s1 = (Ok (le_bytes 4 258), s2)) ∧
  ∃ s2, s3_get_blob sample_s3 "k" 1 9 s1 = (Ok (tail (le_bytes 4 258)), s2) ∧ s3_blobs sample_s3 s2 = s3_blobs sample_s3 s1.
Proof.
  intros s. pose proof (s3_store_sound sample_s3 "k" (le_bytes 4 258) s) as (Hput & _ & Hback & _).
  set (s1 := mkMemoryS3 {[("everstore", "v0.1/blobs/k") := le_bytes 4 258]} []).
  assert (s3_put_blob sample_s3 "k" (le_bytes 4 258) s = (Ok tt, s1)) as Hrun by by vm_compute. rewrite Hrun in *.
  destruct Hput as [_ Hput]. split; [done|]. split; [by rewrite Hput, lookup_insert_eq|]. split.
  { destruct (Hback eq_refl eq_refl eq_refl ltac:(vm_compute; discriminate)) as (s' & Hs' & _ & Hall).
    injection Hs' as <-. exact Hall. }
  destruct (s3_store_sound sample_s3 "k" [] s1) as (_ & Hget & _).
  specialize (Hget 1 9 ltac:(lia) ltac:(lia)). assert (s3_get_blob sample_s3 "k" 1 9 s1 = (Ok (tail (le_bytes 4 258)), s1)) as E by by vm_compute.
  rewrite E in Hget. exists s1. split; [exact E|]. apply Hget.
Defined.

(** Spaces around the prefix and a missing slash. *)
Lemma key_prefix_normal_witness :
  normalize_key_prefix (Some "  v0.1/blobs ") = Ok "v0.1/blobs/" ∧ normalize_key_prefix (Some "v0.1/blobs/") = Ok "v0.1/blobs/".
Proof.
  split; [reflexivity|]. destruct (key_prefix_normal (Some "  v0.1/blobs ") "v0.1/blobs/" eq_refl) as (_ & Hagain & _). exact Hagain.
Defined.
