(* ===== verification/Factory.v ===== *)
(** * Opening exports

    [registry/factory.rs], the [create_runtime] of [registry/mod.rs], the [ConfiguredBlobStore] of [storage/mod.rs] and
    the provider of [wal/local.rs]: from the name of an export to a runtime over the engine that the catalog names.

    The stores are shared: a [Backend] holds the catalog, the directory and the bucket of the blobs, and the directory of
    the logs; an engine that was opened has its own state besides (its log, its view or its tree).  A log that was opened has its
    files with it from then on, since the registry opens an export once at a time.  [bk_draws] counts
    what was drawn at random.  Log output is left out. *)

From S2P Require Import Config S3.
From S2P Require Import Prelude ControlPlane Server Wal WalLocal WalRecovery WalInterface Geometry Admission Export Catalog Tree Storage.
From S2P Require Import ReadCache ReadCacheCorrect ReadView TreeReaders ReadViewCorrect Publication Compaction CompactionCorrect.
From S2P Require Import Engine EngineCorrect Memory SimpleDurable SimpleCorrect Runtime.

#[local] Open Scope string_scope.
#[local] Open Scope list_scope.
#[local] Open Scope Z_scope.

(** ** The configured blob store (storage/mod.rs) *)

Inductive ConfiguredBlobStore (Client : Type) : Type :=
| StoreLocal (root : PathBuf)
| StoreS3 (store : S3BlobStore Client).
Arguments StoreLocal {Client} _.
Arguments StoreS3 {Client} _.

(** What the stores act on: the files of the local root and the service. *)
Record BlobWorld (C : Type) := mkBlobWorld { bw_local : Fs; bw_s3 : C }.
Arguments mkBlobWorld {C} _ _.
Arguments bw_local {C} _.
Arguments bw_s3 {C} _.

(** A store on a part of a larger world. *)
Definition zoom_store {B B'} (get : B → B') (set : B' → B → B) (store : BlobStore B') : BlobStore B := {|
  get_blob key offset len := zoom get set (get_blob key offset len);
  put_blob key data := zoom get set (put_blob key data);
|}.
Definition zoom_mutable {B B'} (get : B → B') (set : B' → B → B) (store : MutableBlobStore B') : MutableBlobStore B := {|
  overwrite_blob random key data := zoom get set (overwrite_blob random key data);
|}.

Section blob_store.
Context {Client C : Type} `{!S3Sdk Client C}.

Definition on_s3 {A} (m : M C ServerError A) : M (BlobWorld C) ServerError A :=
  zoom bw_s3 (λ c w, mkBlobWorld (bw_local w) c) m.

(** [s3]: the build has the feature. *)
Definition ConfiguredBlobStore_open (s3 : bool) (config : NbdConfig) : M (BlobWorld C) ServerError (ConfiguredBlobStore Client) :=
  match cfg_blob_store config with
  | BlobLocal => mret (StoreLocal (rc_blob_dir (cfg_runtime config)))
  | BlobS3 _ _ _ _ _ _ _ _ =>
      if s3 then
        let! store := on_s3 (S3BlobStore_open (cfg_blob_store config)) in
        mret (StoreS3 store)
      else mfail (SIo "open blob store" "S3 blob store backend is not available in this build")
  end.

Definition blob_store (c : ConfiguredBlobStore Client) : BlobStore (BlobWorld C) :=
  match c with
  | StoreLocal _ => zoom_store bw_local (λ fs w, mkBlobWorld fs (bw_s3 w)) local_blob_store
  | StoreS3 store => zoom_store bw_s3 (λ c w, mkBlobWorld (bw_local w) c) (s3_blob_store store)
  end.

Definition mutable_blob_store (c : ConfiguredBlobStore Client) : option (MutableBlobStore (BlobWorld C)) :=
  match c with
  | StoreLocal _ => Some (zoom_mutable bw_local (λ fs w, mkBlobWorld fs (bw_s3 w)) local_mutable_blob_store)
  | StoreS3 _ => None
  end.

Definition local_root (c : ConfiguredBlobStore Client) : option PathBuf :=
  match c with StoreLocal root => Some root | StoreS3 _ => None end.
End blob_store.

(** ** The logs (wal/mod.rs, wal/local.rs) *)

Class WalProvider (P W : Type) : Type := {
  open_export_wal : ExportId → M P ServerError W;
}.

(** The root of the local provider: the files of the directory of each export, none where there is no directory. *)
Record WalRoot := mkWalRoot { wr_dirs : string → Fs; wr_faults : list fault }.

(** A call on one directory. *)
Definition in_dir {A} (dir : string) (m : M Fs ServerError A) : M WalRoot ServerError A :=
  zoom (λ root, wr_dirs root dir) (λ fs root, mkWalRoot (λ other, if decide (other = dir) then fs else wr_dirs root other) (wr_faults root)) m.

Definition local_open_export (crc : list byte → Z) (export_id : ExportId) : M WalRoot ServerError World :=
  let! _ := zoom (λ root, mkFs ∅ (wr_faults root)) (λ fs root, mkWalRoot (wr_dirs root) (fs_faults fs))
    (io_call "create WAL root directory") in
  let! dir := mlift (export_wal_dir export_id) in
  let! state := in_dir dir (wal_open crc) in
  let! root := mget in
  mret (mkWorld (wr_dirs root dir) state).

#[export] Instance local_wal_provider (crc : list byte → Z) : WalProvider WalRoot World := {
  open_export_wal := local_open_export crc;
}.

(** ** The catalog, as the factory uses it (service.rs) *)

Class ExportCatalog (S : Type) : Type := {
  catalog_descriptor : ExportName → M S CatalogError ActiveExportDescriptor;
  catalog_head : ExportId → M S CatalogError ExportHead;
}.

#[export] Instance sqlite_catalog : ExportCatalog SqliteDb := {
  catalog_descriptor := load_export_descriptor;
  catalog_head := load_export_head;
}.

(** ** The factory *)

Record ExportFactory (Client : Type) := mkExportFactory {
  ef_config : ServerConfig;
  ef_blob_store : ConfiguredBlobStore Client;
}.
Arguments mkExportFactory {Client} _ _.
Arguments ef_config {Client} _.
Arguments ef_blob_store {Client} _.

Record Backend (S P C : Type) := mkBackend {
  bk_store : S;
  bk_blobs : BlobWorld C;
  bk_wal : P;
  bk_draws : nat;
}.
Arguments mkBackend {S P C} _ _ _ _.
Arguments bk_store {S P C} _.
Arguments bk_blobs {S P C} _.
Arguments bk_wal {S P C} _.
Arguments bk_draws {S P C} _.

(** An engine and the state it does not share. *)
Inductive EngineHandle (W : Type) : Type :=
| HandleMemory (engine : MemoryExportEngine) (data : MemoryStorage)
| HandleSimple (engine : SimpleDurableEngine) (tree : SimpleTreeState)
| HandleWal (engine : WalDurableEngine) (wal : W) (view : ExportReadViewState).
Arguments HandleMemory {W} _ _.
Arguments HandleSimple {W} _ _.
Arguments HandleWal {W} _ _ _.

Record OpenedEngine (W : Type) := mkOpened { oe_meta : ExportRecord; oe_engine : EngineHandle W }.
Arguments mkOpened {W} _ _.
Arguments oe_meta {W} _.
Arguments oe_engine {W} _.

(** [SerialExportRuntime] or [ConcurrentExportRuntime], with its capacity. *)
Record ExportRuntimeHandle (W : Type) := mkRuntimeHandle {
  rh_kind : RuntimeKind;
  rh_capacity : Z;
  rh_meta : ExportRecord;
  rh_engine : EngineHandle W;
}.
Arguments mkRuntimeHandle {W} _ _ _ _.
Arguments rh_kind {W} _.
Arguments rh_capacity {W} _.
Arguments rh_meta {W} _.
Arguments rh_engine {W} _.

Definition runtime_kind_name (kind : ExportRuntimeKind) : string :=
  match kind with RuntimeSerial => "serial" | RuntimeConcurrent => "concurrent" end.

(** The runtime that [open_export] constructs. *)
Definition configured_runtime (config : ServerConfig) : RuntimeKind :=
  match sc_export_runtime config with RuntimeSerial => Serial | RuntimeConcurrent => Concurrent end.

Section factory.
Context {S P W Client C : Type} `{!ExportCatalog S} `{!TreeRecordStore S} `{!WalProvider P W} `{!ExportWal W} `{!S3Sdk Client C}.
Context (f : ExportFactory Client).
Abbreviation FM A := (M (Backend S P C) ServerError A) (only parsing).

(** [.map_err(ServerError::catalog)] of a call to the catalog. *)
Definition on_catalog {A} (m : M S CatalogError A) : FM A := λ b,
  let '(o, s) := m (bk_store b) in
  (map_err ServerError_catalog o, mkBackend s (bk_blobs b) (bk_wal b) (bk_draws b)).

Definition open_wal (export_id : ExportId) : FM W :=
  zoom bk_wal (λ p b, mkBackend (bk_store b) (bk_blobs b) p (bk_draws b)) (open_export_wal export_id).

(** What an engine is given of the stores: its log and its view, or its tree, start out as they are here. *)
Definition wal_state (wal : W) (view : ExportReadViewState) (b : Backend S P C) : EngineState W S (BlobWorld C) :=
  mkEngineState wal (bk_store b, bk_blobs b) view (bk_draws b).
Definition simple_state (tree : SimpleTreeState) (b : Backend S P C) : SimpleWorld S (BlobWorld C) :=
  mkSimpleWorld tree (bk_store b) (bk_blobs b) (bk_draws b).

(** [SimpleDurableEngine::load] makes its tree, [WalDurableEngine::open_with_cow_tree] its view. *)
Definition load_simple (d : ActiveExportDescriptor) (head : ExportHead) : FM (SimpleDurableEngine * SimpleTreeState) := λ b,
  let '(o, w) := simple_engine_load d head (simple_state (mkSimpleTree "" 0 None Bounded32V1 ∅) b) in
  (omapo (λ e, (e, sw_tree w)) o, mkBackend (sw_store w) (sw_blobs w) (bk_wal b) (sw_draws w)).

Definition open_wal_durable (d : ActiveExportDescriptor) (wal : W) (head : ExportHead) : FM (WalDurableEngine * (W * ExportReadViewState)) := λ b,
  let '(o, s) := open_with_cow_tree d head (wal_state wal (ExportReadView_new (mkRoot (BackingZero None 0 0))) b) in
  (omapo (λ e, (e, (es_wal s, es_view s))) o, mkBackend (es_store s).1 (es_store s).2 (bk_wal b) (es_compactions s)).

Definition open_engine (d : ActiveExportDescriptor) : FM (OpenedEngine W) :=
  let id := d_id (descriptor d) in
  match d_engine_kind (descriptor d) with
  | Memory =>
      let! head := on_catalog (catalog_head id) in
      let! engine := mlift (memory_from_descriptor d head) in
      let! meta := mlift (map_err ServerError_catalog (into_record (descriptor d) head)) in
      mret (mkOpened meta (HandleMemory engine.1 engine.2))
  | SimpleDurable =>
      let! _ := mlift (ok_or (mutable_blob_store (C := C) (ef_blob_store f))
        (SIo "open simple_durable export" "configured blob store does not support mutable blobs")) in
      let! head := on_catalog (catalog_head id) in
      let! engine := load_simple d head in
      let! head := mlift (map_err ServerError_catalog (st_export_head engine.2)) in
      let! meta := mlift (map_err ServerError_catalog (into_record (descriptor d) head)) in
      mret (mkOpened meta (HandleSimple engine.1 engine.2))
  | WalDurable =>
      let! wal := open_wal id in
      let! head := on_catalog (catalog_head id) in
      let! engine := open_wal_durable d wal head in
      let! head := mlift (view_export_head engine.2.2) in
      let! meta := mlift (map_err ServerError_catalog (into_record (descriptor d) head)) in
      mret (mkOpened meta (HandleWal engine.1 engine.2.1 engine.2.2))
  end.

Definition open_export (d : ActiveExportDescriptor) : FM (ExportRuntimeHandle W) :=
  let! opened := open_engine d in
  mret (mkRuntimeHandle (configured_runtime (ef_config f)) (sc_export_queue_depth (ef_config f)) (oe_meta opened) (oe_engine opened)).

(** [LocalExportRegistry::create_runtime]. *)
Definition create_runtime (name : ExportName) : FM (ExportRuntimeHandle W) :=
  let! d := on_catalog (catalog_descriptor name) in
  open_export d.
End factory.

(** ** The laws of the configured store *)

Section zoomed.
Context {B B' : Type} (get : B → B') (set : B' → B → B) (store : BlobStore B') (laws : @BlobStoreLaws B' store).
Hypothesis get_set : ∀ t w, get (set t w) = t.

#[local] Existing Instance store.
#[local] Existing Instance laws.

Lemma zoom_laws : @BlobStoreLaws B (zoom_store get set store).
Proof.
  refine {| blobs w := blobs (get w); blob_ready w := blob_ready (get w); key_ok := key_ok |};
    cbn [get_blob put_blob zoom_store]; unfold zoom.
  - intros w key offset len Ho Hl. pose proof (law_get_blob (get w) key offset len Ho Hl) as H.
    destruct (get_blob key offset len (get w)) as [[data|e|] t]; rewrite ?get_set; exact H.
  - intros w key data. pose proof (law_put_blob (get w) key data) as H.
    destruct (put_blob key data (get w)) as [[u|e|] t]; rewrite ?get_set; exact H.
  - intros w key offset len blob data Hr Hk Hb Hs Hl Hu.
    destruct (law_get_ready (get w) key offset len blob data Hr Hk Hb Hs Hl Hu) as (t & Hrun & Ht).
    rewrite Hrun. exists (set t w). by rewrite get_set.
  - intros w key data Hr Hk Hn. destruct (law_put_ready (get w) key data Hr Hk Hn) as (t & Hrun & Ht).
    rewrite Hrun. exists (set t w). by rewrite get_set.
Defined.
End zoomed.

Section configured_laws.
Context {Client C : Type} `{!S3Sdk Client C} `{!S3SdkLaws Client C}.

(** Both stores keep the laws, so that what is proved of readers and engines holds whichever is configured. *)
Definition blob_store_laws (c : ConfiguredBlobStore Client) : @BlobStoreLaws (BlobWorld C) (blob_store c).
Proof.
  destruct c as [root|store].
  - refine (zoom_laws bw_local (λ fs w, mkBlobWorld fs (bw_s3 w)) local_blob_store local_blob_store_laws _). done.
  - refine (zoom_laws bw_s3 (λ c w, mkBlobWorld (bw_local w) c) (s3_blob_store store) (s3_blob_store_laws store) _). done.
Defined.
End configured_laws.

(** ** The catalog without faults *)

Section catalog.
Implicit Types (t : Tables).

Lemma load_head_ok t id head :
  see_head (mkDatabase t []) id = Ok head → catalog_head id (mkDatabase t []) = (Ok head, mkDatabase t []).
Proof.
  cbn. unfold head_of, load_export_head, query, statement, sql_map_err, mseq, mlift. cbn.
  destruct (t_heads t !! id) as [r|]; cbn; [|done]. by intros ->.
Qed.
End catalog.

(** ** Opening what the stores hold *)

Section opening.
Context {P W Client C : Type} `{!WalProvider P W} `{!ExportWal W} `{!ExportWalLaws W} `{!S3Sdk Client C} `{!S3SdkLaws Client C}.
Context (f : ExportFactory Client).
Implicit Types (b : Backend SqliteDb P C) (d : ActiveExportDescriptor) (a : Z → byte).

#[local] Instance factory_store : BlobStore (BlobWorld C) := blob_store (ef_blob_store f).
#[local] Instance factory_store_laws : BlobStoreLaws (BlobWorld C) := blob_store_laws (ef_blob_store f).

(** The log, the catalog and the blobs stand for an array, an engine serves it, with the blob store that is configured. *)
Definition wal_durable_in id size (w : W) b a : Prop :=
  ∃ committed pruned records root, durable id size committed pruned records root w (bk_store b, bk_blobs b) a ∧
    pruned + zlen records ≤ u64_max ∧ records_bytes records ≤ u64_max.
Definition wal_serves_in (draw_keys : nat → nat → nat → BlobKey) id size (w : W) (view : ExportReadViewState) b a : Prop :=
  serves draw_keys id size (wal_state w view b) a.
Definition simple_serves_in (draw_keys : nat → nat → BlobKey) id size (tree : SimpleTreeState) b a : Prop :=
  simple_serves draw_keys id size (simple_state tree b) a.

(** No key that compactions draw from now on is in use. *)
Definition keys_unused (draw_keys : nat → nat → nat → BlobKey) b : Prop :=
  ∀ n j k, (bk_draws b ≤ n)%nat → blobs (bk_blobs b) !! draw_keys n j k = None.

Definition with_wal (p : P) b : Backend SqliteDb P C := mkBackend (bk_store b) (bk_blobs b) p (bk_draws b).

Lemma on_catalog_ok {A} (m : M SqliteDb CatalogError A) b x :
  m (bk_store b) = (Ok x, bk_store b) → on_catalog (C := C) m b = (Ok x, b).
Proof. intros H. unfold on_catalog. rewrite H. by destruct b. Qed.

Definition record_with d head : ExportRecord :=
  mkRecord (d_id (descriptor d)) (d_name (descriptor d)) (d_block_size (descriptor d)) (d_engine_kind (descriptor d))
    (d_state (descriptor d)) head (d_created_at (descriptor d)) (d_updated_at (descriptor d)) (d_deleted_at (descriptor d)).

Lemma into_record_ok d head : d_block_size (descriptor d) ≠ 0 → into_record (descriptor d) head = Ok (record_with d head).
Proof. intros Hb. unfold into_record, ExportRecord_new, validate_non_zero. by rewrite (proj2 (Z.eqb_neq _ _) Hb). Qed.

Lemma open_wal_engine draw_keys d b w p head size a :
  let id := d_id (descriptor d) in
  d_engine_kind (descriptor d) = WalDurable → d_block_size (descriptor d) ≠ 0 →
  db_faults (bk_store b) = [] → see_head (bk_store b) id = Ok head →
  open_export_wal id (bk_wal b) = (Ok w, p) → wal_durable_in id size w b a → keys_unused draw_keys b →
  ∃ e view, open_engine f d b = (Ok (mkOpened (record_with d head) (HandleWal e w view)), with_wal p b) ∧
    engine_ok id size e ∧ wal_serves_in draw_keys id size w view (with_wal p b) a.
Proof.
  intros id Hk Hblk Hdb Hsee Hw (committed & pruned & records & root & Hdu & Hp & Hr) Hfresh. subst id.
  set (s := wal_state w (ExportReadView_new (mkRoot (BackingZero None 0 0))) (with_wal p b)).
  destruct (open_spec draw_keys (d_id (descriptor d)) size committed pruned records root s a d (with_hard_threshold DEFAULT_WAL_DEBT_COMPACTION_THRESHOLD_BYTES)
    head Hdu Hk eq_refl Hsee Hp Hr Hfresh) as (v & Hrun & Hroot & Hse).
  set (e := mkEngine _ _ _ _ _ _) in Hrun. exists e, v.
  split; [|split; [by split; [|split; [|intros co [= <-]]]|by exists committed, pruned, records, root]].
  unfold open_engine. rewrite Hk. cbn zeta.
  rewrite (mseq_ok _ _ _ w (with_wal p b)) by (unfold open_wal, zoom; by rewrite Hw).
  rewrite (mseq_ok _ _ _ head (with_wal p b)).
  2: { apply on_catalog_ok. cbn. destruct (bk_store b) as [t faults]. cbn in Hdb. subst faults. by apply load_head_ok. }
  rewrite (mseq_ok _ _ _ (e, (w, v)) (with_wal p b)).
  2: { unfold open_wal_durable. fold s. unfold open_with_cow_tree, open_with_cow_tree_and_wal_debt_threshold. by rewrite Hrun. }
  destruct (du_head _ _ _ _ _ _ _ _ _ Hdu) as (head' & Hto & Hsee'). cbn [fst] in Hsee'. rewrite Hsee in Hsee'. injection Hsee' as <-.
  rewrite (mseq_ok _ _ _ head (with_wal p b)).
  2: { unfold mlift, view_export_head. cbn [snd]. by rewrite Hroot, Hto. }
  by rewrite into_record_ok.
Qed.

Lemma simple_load_eq d head tree b :
  simple_engine_load d head (simple_state tree b) =
    match simple_tree_load d head with
    | Ok st => (Ok (mkSimpleEngine (d_name (descriptor d)) (st_size_bytes st) (d_block_size (descriptor d))), simple_state st b)
    | Err e => (Err e, simple_state tree b)
    | Panic => (Panic, simple_state tree b)
    end.
Proof. unfold simple_engine_load, mseq, mlift. by destruct (simple_tree_load d head). Qed.

(** A tree is loaded from the head, whatever was in memory before. *)
Lemma open_simple_engine draw_keys d b head size tree a :
  let id := d_id (descriptor d) in
  d_engine_kind (descriptor d) = SimpleDurable → d_block_size (descriptor d) ≠ 0 →
  is_Some (mutable_blob_store (C := C) (ef_blob_store f)) → db_faults (bk_store b) = [] → see_head (bk_store b) id = Ok head →
  simple_serves_in draw_keys id size tree b a →
  ∃ e tree', open_engine f d b = (Ok (mkOpened (record_with d head) (HandleSimple e tree')), b) ∧
    se_size_bytes e = size ∧ simple_serves_in draw_keys id size tree' b a.
Proof.
  intros id Hk Hblk [m Hm] Hdb Hsee [K Hst]. subst id.
  pose proof (simple_load_spec draw_keys (d_id (descriptor d)) size d (simple_state tree b) K a head Hst eq_refl Hsee) as Hl. rewrite simple_load_eq in Hl.
  destruct (simple_tree_load d head) as [st|e|] eqn:Hload; [|done|done]. destruct Hl as (He & Hst' & _).
  eexists _, st. split; [|split; [exact He|by exists K]]. unfold open_engine. rewrite Hk, Hm. cbn zeta.
  rewrite (mseq_ok _ _ _ m b) by done. rewrite (mseq_ok _ _ _ head b).
  2: { apply on_catalog_ok. destruct (bk_store b) as [t faults]. cbn in Hdb. subst faults. by apply load_head_ok. }
  erewrite (mseq_ok _ _ _ (_, st) b).
  2: { unfold load_simple. rewrite simple_load_eq, Hload. cbn. by destruct b. }
  destruct (sd_tree _ _ _ _ _ _ Hst') as [g Ht]. destruct (to_head _ _ _ _ _ _ Ht) as (head' & Hto & Hsee').
  cbn [sw_store sw_tree simple_state] in Hsee', Hto. rewrite Hsee in Hsee'. injection Hsee' as <-.
  rewrite (mseq_ok _ _ _ head b) by (unfold mlift; cbn [snd]; by rewrite Hto). by rewrite into_record_ok.
Qed.

Lemma open_memory_engine d b head :
  let id := d_id (descriptor d) in
  d_engine_kind (descriptor d) = Memory → d_block_size (descriptor d) ≠ 0 →
  db_faults (bk_store b) = [] → see_head (bk_store b) id = Ok head → layout_kind head = MemoryEmpty →
  open_engine f d b =
    (if MAX_MEMORY_EXPORT_BYTES <? size_bytes head then
       Err (ExportTooLarge (d_name (descriptor d)) (size_bytes head) MAX_MEMORY_EXPORT_BYTES)
     else Ok (mkOpened (record_with d head)
       (HandleMemory (mkMemoryEngine (d_name (descriptor d)) (size_bytes head) (d_block_size (descriptor d))) (zeros (size_bytes head)))), b).
Proof.
  intros id Hk Hblk Hdb Hsee Hl. subst id. unfold open_engine. rewrite Hk. cbn zeta. rewrite (mseq_ok _ _ _ head b).
  2: { apply on_catalog_ok. destruct (bk_store b) as [t faults]. cbn in Hdb. subst faults. by apply load_head_ok. }
  unfold memory_from_descriptor, from_export_head. rewrite bool_decide_eq_true_2 by done. cbn [negb].
  destruct (MAX_MEMORY_EXPORT_BYTES <? size_bytes head); [done|].
  rewrite (mseq_ok _ _ _ (mkMemoryEngine (d_name (descriptor d)) (size_bytes head) (d_block_size (descriptor d)), zeros (size_bytes head)) b) by done.
  by rewrite into_record_ok.
Qed.

Lemma create_runtime_eq b name d :
  catalog_descriptor name (bk_store b) = (Ok d, bk_store b) →
  create_runtime f name b =
    (let! opened := open_engine f d in
     mret (mkRuntimeHandle (configured_runtime (ef_config f)) (sc_export_queue_depth (ef_config f)) (oe_meta opened) (oe_engine opened))) b.
Proof. intros Hd. unfold create_runtime. by rewrite (mseq_ok _ _ _ d b) by (by apply on_catalog_ok). Qed.
End opening.

(** ** What was just created *)

Section created.
Context (uuid : string) (clock : option N) (request : CreateExport) (db : SqliteDb) (record : ExportRecord) (db' : SqliteDb).
Hypothesis tables : tables_ok (db_tables db).
Hypothesis name_ok : ExportName_new (ce_name request) = Ok (ce_name request).
Hypothesis created : create_export uuid clock request db = (Ok record, db').

Lemma created_size : ce_size_bytes request ≤ i64_max.
Proof.
  pose proof created as H. unfold create_export in H. inv_sql. revert Ha1. unfold u64_to_i64.
  destruct (Z.leb_spec (ce_size_bytes request) i64_max); [done|discriminate].
Qed.

(** The catalog shows its descriptor and its head. *)
Lemma created_shown t :
  t = mkDatabase (db_tables db') [] →
  ∃ d head, catalog_descriptor (ce_name request) t = (Ok d, t) ∧ see_head t uuid = Ok head ∧ record = record_with d head ∧
    d_id (descriptor d) = uuid ∧ d_name (descriptor d) = ce_name request ∧ d_block_size (descriptor d) = ce_block_size request ∧
    d_engine_kind (descriptor d) = ce_engine_kind request ∧ ce_block_size request ≠ 0 ∧
    created_head request = Ok head ∧ 0 < ce_size_bytes request ∧ store_valid t.
Proof.
  intros ->. pose proof created as (now & head & t & Hid & Hclk & Hhead & Hblk & -> & He & Hh)%create_inv.
  pose proof (proj1 (proj2 (proj2 (insert_export_inv _ _ _ _ _ He)))) as Hce.
  pose proof (proj1 (proj2 (proj2 (insert_head_inv _ _ _ _ _ Hh)))) as Hch.
  destruct (add_export_ok _ _ _ _ _ _ _ _ tables He Hh) as (Hok & Ht & Hfresh & Hnames).
  apply export_check_block in Hce. apply head_check_size in Hch. cbn in Hce, Hch.
  pose proof (created_row_parses uuid request head now Hid name_ok ltac:(by eapply current_timestamp_inv) Hhead ltac:(lia) ltac:(lia)) as Hrow.
  unfold row_to_export_record in Hrow. cbn [fst snd] in Hrow.
  destruct (row_to_export_descriptor uuid (created_export request now)) as [desc| |] eqn:Hdesc; [|done|done]. cbn [obind] in Hrow.
  destruct (row_to_export_head _) as [head'| |] eqn:Hhr; [|done|done]. cbn [obind] in Hrow.
  destruct (created_head_fields _ _ Hhead) as [Hsize _]. unfold into_record, ExportRecord_new in Hrow.
  destruct (validate_non_zero _ _); [|done|done]. cbn [obind] in Hrow. injection Hrow as Hd1 Hd2 Hd3 Hd4 Hd5 -> Hd7 Hd8 Hd9.
  pose proof (exports_named_insert _ _ _ (<[uuid:=head_row head (size_bytes head) (base_wal_seq head) now]>
    (t_heads (db_tables db))) (t_nodes (db_tables db)) (t_edges (db_tables db)) (t_leaf_refs (db_tables db)) Hfresh Hnames) as Hlist.
  exists (mkActiveDescriptor desc), head. split_and!; try done; [..|lia].
  - cbn [catalog_descriptor sqlite_catalog]. unfold load_export_descriptor, fetch_descriptor_by_name, query, statement, sql_map_err, mseq, mlift.
    cbn [db_faults db_tables tail map_err]. rewrite Ht. change (er_name (created_export request now)) with (ce_name request) in Hlist. rewrite Hlist.
    cbn -[row_to_export_descriptor created_export]. rewrite Hdesc. unfold ActiveExportDescriptor_new. by rewrite Hd5, bool_decide_eq_false_2 by (by intros []).
  - cbn [see_head sqlite_view db_tables]. unfold head_of. rewrite Ht. cbn [t_heads]. by rewrite lookup_insert_eq.
  - unfold record_with. cbn [descriptor]. congruence.
Qed.

Lemma created_geometry : 0 < ce_size_bytes request → ∃ g, TreeGeometry_new Bounded32V1 (ce_size_bytes request) = Ok g.
Proof.
  intros Hs. pose proof created_size as Hm. unfold i64_max in Hm. pose proof chunk_bytes_value as HC.
  assert (is_u64 (ce_size_bytes request)) as Hu by (unfold is_u64, u64_max; lia).
  pose proof (new_geometry Bounded32V1 (ce_size_bytes request) Hu) as Hn. unfold u64_max in Hn. destruct (TreeGeometry_new _ _) as [g| |]; [by exists g|lia|done].
Qed.
End created.

(** The stores of an export without a tree and without records stand for zeros. *)
Section fresh.
Context {P W Client C : Type} `{!ExportWal W} `{!ExportWalLaws W} `{!S3Sdk Client C} `{!S3SdkLaws Client C}.
Context (f : ExportFactory Client) (b : Backend SqliteDb P C) (id : ExportId) (size : Z) (g : TreeGeometry).
Hypothesis size_ok : 0 < size ≤ i64_max.
Hypothesis valid : store_valid (bk_store b).
Hypothesis geometry : TreeGeometry_new Bounded32V1 size = Ok g.

Lemma fresh_wal_durable w :
  log_holds w 0 [] → see_head (bk_store b) id = Ok (HeadCowImmutableTree (mkCowHead size None 0 Bounded32V1)) →
  wal_durable_in f id size w b (λ _, x00).
Proof.
  intros Hlog Hsee. exists (λ _ _, x00), 0, [], (mkRoot (BackingCowHead None 0 size Bounded32V1)).
  assert (Hu : is_u64 size) by (unfold is_u64, u64_max, i64_max in *; lia).
  split; [|split; by_compute]. split.
  - split; [lia|]. unfold blocks_fit, CACHE_BLOCK_BYTES, u64_max, i64_max in *. dlia.
  - done.
  - by intros r Hr%not_elem_of_nil.
  - done.
  - eexists. split; [|exact Hsee]. unfold to_export_head. cbn. unfold cow_immutable_tree_with_root_and_format, validate_non_zero.
    by rewrite (proj2 (Z.eqb_neq size 0)) by lia.
  - done.
  - split; [done|]. exists g. split; [done|]. by split.
  - done.
  - cbn. by change (zlen []) with 0.
  - done.
Qed.

Lemma fresh_simple_serves draw_keys :
  see_head (bk_store b) id = Ok (HeadSimpleMutableTree (mkSimpleHead size None Bounded32V1)) →
  simple_serves_in f draw_keys id size (mkSimpleTree id size None Bounded32V1 ∅) b (λ _, x00).
Proof.
  intros Hsee. assert (Hu : is_u64 size) by (unfold is_u64, u64_max, i64_max in *; lia).
  exists ∅. split; [|by split]. exists g. split; try done. eexists. split; [|exact Hsee].
  unfold st_export_head. cbn. unfold simple_mutable_tree_with_root_base_and_format, validate_non_zero.
  by rewrite (proj2 (Z.eqb_neq size 0)) by lia.
Qed.
End fresh.

(** A WAL-durable export that was created, with a new log. *)
Lemma opened_created {P W Client C : Type} `{!WalProvider P W} `{!ExportWal W} `{!ExportWalLaws W} `{!S3Sdk Client C} `{!S3SdkLaws Client C}
    (f : ExportFactory Client) (b : Backend SqliteDb P C) uuid clock request db record db' w p draw_keys :
  tables_ok (db_tables db) → ExportName_new (ce_name request) = Ok (ce_name request) → ce_engine_kind request = WalDurable →
  create_export uuid clock request db = (Ok record, db') → bk_store b = mkDatabase (db_tables db') [] →
  open_export_wal uuid (bk_wal b) = (Ok w, p) → log_holds w 0 [] → keys_unused f draw_keys b →
  ∃ d e view, d_engine_kind (descriptor d) = WalDurable ∧ d_id (descriptor d) = uuid ∧
    catalog_descriptor (ce_name request) (bk_store b) = (Ok d, bk_store b) ∧
    create_runtime f (ce_name request) b =
      (Ok (mkRuntimeHandle (configured_runtime (ef_config f)) (sc_export_queue_depth (ef_config f)) record (HandleWal e w view)), with_wal p b) ∧
    engine_ok uuid (ce_size_bytes request) e ∧ wal_serves_in f draw_keys uuid (ce_size_bytes request) w view (with_wal p b) (λ _, x00).
Proof.
  intros Ht Hn Hkind Hc Hb Hw Hlog Hf. destruct (created_shown uuid clock request db record db' Ht Hn Hc (bk_store b) Hb)
    as (d & head & Hd & Hsee & -> & <- & Hname & Hblk & Hk & Hblk0 & Hhead & Hpos & Hvalid).
  rewrite <-Hblk in Hblk0. rewrite Hkind in Hk.
  pose proof (created_size _ _ _ _ _ _ Hc) as Hmax. destruct (created_geometry _ _ _ _ _ _ Hc Hpos) as [g Hg].
  unfold created_head, cow_immutable_tree, cow_immutable_tree_with_root, cow_immutable_tree_with_root_and_format in Hhead. rewrite Hkind in Hhead.
  rewrite validate_non_zero_ok in Hhead by lia. injection Hhead as <-.
  pose proof (fresh_wal_durable f b (d_id (descriptor d)) (ce_size_bytes request) g (conj Hpos Hmax) Hvalid Hg w Hlog Hsee) as Hdu.
  destruct (open_wal_engine f draw_keys d b w p _ _ _ Hk Hblk0 ltac:(by rewrite Hb) Hsee Hw Hdu Hf) as (e & view & Hrun & He & Hs).
  exists d, e, view. split; [done|]. split; [done|]. split; [done|]. split; [|done]. by rewrite (create_runtime_eq f b _ d Hd), (mseq_ok _ _ _ _ _ Hrun).
Qed.

(** ** Properties *)

(** C3: what was written before is there after an export is opened again.  When the catalog lists an active export and the
    stores stand for an array, then opening it by name succeeds, with the runtime and the queue depth of the configuration and the
    record of the catalog.  A WAL-durable export is opened over its log, on local blobs or S3, and serves that array; a simple durable export serves it
    too, and is refused where the blob store cannot replace blobs; a memory export always starts out with zeros,
    and is refused when it is too large.  The stores are as they were. *)
Theorem factory_reopens {P W Client C : Type} `{!WalProvider P W} `{!ExportWal W} `{!ExportWalLaws W} `{!S3Sdk Client C} `{!S3SdkLaws Client C}
    (f : ExportFactory Client) (b : Backend SqliteDb P C) name d head a :
  db_faults (bk_store b) = [] → catalog_descriptor name (bk_store b) = (Ok d, bk_store b) →
  see_head (bk_store b) (d_id (descriptor d)) = Ok head → d_block_size (descriptor d) ≠ 0 →
  let id := d_id (descriptor d) in
  let opened := mkRuntimeHandle (configured_runtime (ef_config f)) (sc_export_queue_depth (ef_config f)) (record_with d head) in
  match d_engine_kind (descriptor d) with
  | Memory =>
      layout_kind head = MemoryEmpty →
      create_runtime f name b =
        (if MAX_MEMORY_EXPORT_BYTES <? size_bytes head then
           Err (ExportTooLarge (d_name (descriptor d)) (size_bytes head) MAX_MEMORY_EXPORT_BYTES)
         else Ok (opened (HandleMemory (mkMemoryEngine (d_name (descriptor d)) (size_bytes head) (d_block_size (descriptor d)))
                            (zeros (size_bytes head)))), b)
  | SimpleDurable =>
      ∀ draw_keys size tree, simple_serves_in f draw_keys id size tree b a →
      match ef_blob_store f with
      | StoreLocal _ => ∃ e tree', create_runtime f name b = (Ok (opened (HandleSimple e tree')), b) ∧
          se_size_bytes e = size ∧ simple_serves_in f draw_keys id size tree' b a
      | StoreS3 _ => ∃ message, create_runtime f name b = (Err (SIo "open simple_durable export" message), b)
      end
  | WalDurable =>
      ∀ draw_keys size w p, open_export_wal id (bk_wal b) = (Ok w, p) → wal_durable_in f id size w b a → keys_unused f draw_keys b →
      ∃ e view, create_runtime f name b = (Ok (opened (HandleWal e w view)), with_wal p b) ∧
        engine_ok id size e ∧ wal_serves_in f draw_keys id size w view (with_wal p b) a
  end.
Proof.
  intros Hdb Hd Hsee Hblk id opened. rewrite (create_runtime_eq f b name d Hd). destruct (d_engine_kind (descriptor d)) eqn:Hk.
  - intros Hl. unfold mseq. rewrite (open_memory_engine f d b head Hk Hblk Hdb Hsee Hl). by destruct (MAX_MEMORY_EXPORT_BYTES <? size_bytes head).
  - intros draw_keys size tree Hs. destruct (ef_blob_store f) as [root|store] eqn:Hst.
    + destruct (open_simple_engine f draw_keys d b head size tree a Hk Hblk) as (e & tree' & Hrun & He & Hs'); [rewrite Hst; by eexists|done|done|done|].
      exists e, tree'. by rewrite (mseq_ok _ _ _ _ _ Hrun).
    + eexists. unfold mseq, open_engine. rewrite Hk, Hst. reflexivity.
  - intros draw_keys size w p Hw Hdu Hf. destruct (open_wal_engine f draw_keys d b w p head size a Hk Hblk Hdb Hsee Hw Hdu Hf) as (e & view & Hrun & ?).
    exists e, view. by rewrite (mseq_ok _ _ _ _ _ Hrun).
Qed.

(** An export that was created can be opened, and is all zeros.  After [create_export] answered a record, opening the export by
    name succeeds and the runtime has that very record: a WAL-durable export whose log is new, a simple durable export on a store that
    can replace blobs, and a memory export of at most 64 MiB all start out with zeros.  Otherwise a memory export is too large, a simple durable export
    is refused, and a log that cannot be opened passes on its error. *)
Theorem factory_opens_created {P W Client C : Type} `{!WalProvider P W} `{!ExportWal W} `{!ExportWalLaws W} `{!S3Sdk Client C} `{!S3SdkLaws Client C}
    (f : ExportFactory Client) (b : Backend SqliteDb P C) uuid clock request db record db' :
  tables_ok (db_tables db) → ExportName_new (ce_name request) = Ok (ce_name request) →
  create_export uuid clock request db = (Ok record, db') → bk_store b = mkDatabase (db_tables db') [] →
  let size := ce_size_bytes request in
  let opened := mkRuntimeHandle (configured_runtime (ef_config f)) (sc_export_queue_depth (ef_config f)) record in
  match ce_engine_kind request with
  | Memory =>
      create_runtime f (ce_name request) b =
        (if MAX_MEMORY_EXPORT_BYTES <? size then Err (ExportTooLarge (ce_name request) size MAX_MEMORY_EXPORT_BYTES)
         else Ok (opened (HandleMemory (mkMemoryEngine (ce_name request) size (ce_block_size request)) (zeros size))), b)
  | SimpleDurable =>
      match ef_blob_store f with
      | StoreLocal _ => ∃ e tree, create_runtime f (ce_name request) b = (Ok (opened (HandleSimple e tree)), b) ∧
          se_size_bytes e = size ∧ ∀ draw_keys, simple_serves_in f draw_keys uuid size tree b (λ _, x00)
      | StoreS3 _ => ∃ message, create_runtime f (ce_name request) b = (Err (SIo "open simple_durable export" message), b)
      end
  | WalDurable =>
      match open_export_wal uuid (bk_wal b) with
      | (Ok w, p) =>
          log_holds w 0 [] → ∀ draw_keys, keys_unused f draw_keys b →
          ∃ e view, create_runtime f (ce_name request) b = (Ok (opened (HandleWal e w view)), with_wal p b) ∧
            engine_ok uuid size e ∧ wal_serves_in f draw_keys uuid size w view (with_wal p b) (λ _, x00)
      | (Err e, p) => create_runtime f (ce_name request) b = (Err e, with_wal p b)
      | (Panic, p) => create_runtime f (ce_name request) b = (Panic, with_wal p b)
      end
  end.
Proof.
  intros Ht Hn Hc Hb size opened.
  destruct (created_shown uuid clock request db record db' Ht Hn Hc (bk_store b) Hb)
    as (d & head & Hd & Hsee & -> & <- & Hname & Hblk & Hk & Hblk0 & Hhead & Hpos & Hvalid).
  assert (Hdb : db_faults (bk_store b) = []) by (by rewrite Hb). rewrite <-Hblk in Hblk0.
  pose proof (created_size _ _ _ _ _ _ Hc) as Hmax. destruct (created_geometry _ _ _ _ _ _ Hc Hpos) as [g Hg].
  destruct (created_head_fields _ _ Hhead) as [Hsize Hz]. fold size in Hsize, Hpos, Hmax, Hg, Hz. rewrite (create_runtime_eq f b _ d Hd).
  unfold created_head, memory_empty, memory_empty_with_base, simple_mutable_tree, simple_mutable_tree_with_root,
    simple_mutable_tree_with_root_base_and_format, cow_immutable_tree, cow_immutable_tree_with_root, cow_immutable_tree_with_root_and_format in Hhead.
  fold size in Hhead. rewrite validate_non_zero_ok in Hhead by done. cbn [obind] in Hhead. rewrite <-Hname, <-Hblk.
  destruct (ce_engine_kind request) eqn:Hkind; cbn in Hhead; injection Hhead as <-.
  - unfold mseq. rewrite (open_memory_engine f d b _ Hk Hblk0 Hdb Hsee eq_refl). cbn [size_bytes mh_size_bytes].
    by destruct (MAX_MEMORY_EXPORT_BYTES <? size).
  - destruct (ef_blob_store f) as [root|store] eqn:Hst; [|eexists; unfold mseq, open_engine; rewrite Hk, Hst; reflexivity].
    assert (is_Some (mutable_blob_store (C := C) (ef_blob_store f))) as Hmut by (rewrite Hst; by eexists).
    pose proof (λ draw_keys, fresh_simple_serves f b (d_id (descriptor d)) size g (conj Hpos Hmax) Hvalid Hg draw_keys Hsee) as Hfresh.
    destruct (open_simple_engine f (λ _ _, "") d b _ size _ _ Hk Hblk0 Hmut Hdb Hsee (Hfresh _)) as (e & tree & Hrun & He & _).
    exists e, tree. split; [by rewrite (mseq_ok _ _ _ _ _ Hrun)|]. split; [done|]. intros draw_keys.
    destruct (open_simple_engine f draw_keys d b _ size _ _ Hk Hblk0 Hmut Hdb Hsee (Hfresh _)) as (e' & tree' & Hrun' & _ & Hs).
    rewrite Hrun in Hrun'. by injection Hrun' as <- <-.
  - destruct (open_export_wal (d_id (descriptor d)) (bk_wal b)) as [[w|e|] p] eqn:Hw.
    + intros Hlog draw_keys Hf. rewrite <-(create_runtime_eq f b _ d Hd).
      destruct (opened_created f b _ clock request db _ db' w p draw_keys Ht Hn Hkind Hc Hb Hw Hlog Hf) as (_ & e & view & _ & _ & _ & ?). by exists e, view.
    + unfold mseq, open_engine. rewrite Hk. unfold mseq, open_wal, zoom. by rewrite Hw.
    + unfold mseq, open_engine. rewrite Hk. unfold mseq, open_wal, zoom. by rewrite Hw.
Qed.



(** ** Samples *)

#[local] Instance factory_wal : ExportWal World := local_wal crc32c LOCAL_WAL_SEGMENT_TARGET_BYTES.
#[local] Instance factory_wal_laws : ExportWalLaws World :=
  local_wal_laws crc32c LOCAL_WAL_SEGMENT_TARGET_BYTES crc32c_u32 ltac:(by_compute).
#[local] Instance factory_provider : WalProvider WalRoot World := local_wal_provider crc32c.

Definition factory_request : CreateExport := mkCreateExport "disk" 4096 512 WalDurable.
Definition factory_db : SqliteDb := (create_export "id-1" (Some 1%N) factory_request (mkDatabase Tables_empty [])).2.
Definition sample_factory : ExportFactory unit := mkExportFactory (mkServerConfig RuntimeConcurrent 64) (StoreS3 sample_s3).
Definition factory_backend : Backend SqliteDb WalRoot MemoryS3 :=
  mkBackend (mkDatabase (db_tables factory_db) []) (mkBlobWorld (mkFs ∅ []) (mkMemoryS3 ∅ [])) (mkWalRoot (λ _, mkFs ∅ []) []) 0.
Definition factory_log : World := mkWorld (mkFs ∅ []) (mkWalState (mkWalBounds 0 0) None).

(** The log of an export without a directory is new. *)
Lemma factory_log_opened : ∃ p, open_export_wal "id-1" (bk_wal factory_backend) = (Ok factory_log, p).
Proof. eexists. vm_compute. reflexivity. Qed.

Lemma factory_log_new : log_holds factory_log 0 [].
Proof. exact fresh_log_holds. Qed.

Lemma factory_keys_unused : keys_unused sample_factory sample_draw_keys factory_backend.
Proof.
  intros n j k _. change (s3_blobs sample_s3 (mkMemoryS3 ∅ []) !! sample_draw_keys n j k = None). by rewrite s3_blobs_lookup.
Qed.

(** An export on S3, from its creation on. *)
Lemma factory_opens_created_witness :
  ∃ record e view b,
    create_export "id-1" (Some 1%N) factory_request (mkDatabase Tables_empty []) = (Ok record, factory_db) ∧
    create_runtime sample_factory "disk" factory_backend = (Ok (mkRuntimeHandle Concurrent 64 record (HandleWal e factory_log view)), b) ∧
    wal_serves_in sample_factory sample_draw_keys "id-1" 4096 factory_log view b (λ _, x00).
Proof.
  destruct (create_export "id-1" (Some 1%N) factory_request (mkDatabase Tables_empty [])) as [o db'] eqn:Hc.
  assert (db' = factory_db) as -> by (unfold factory_db; by rewrite Hc).
  assert (Ho : match o with Ok _ => True | _ => False end). { change o with (o, factory_db).1. rewrite <-Hc. vm_compute. exact I. }
  destruct o as [record|e|]; [|destruct Ho|destruct Ho].
  pose proof (factory_opens_created sample_factory factory_backend "id-1" (Some 1%N) factory_request (mkDatabase Tables_empty []) record factory_db
    tables_empty_ok eq_refl Hc eq_refl) as H. cbn iota zeta beta in H. destruct factory_log_opened as [p Hp].
  change (ce_engine_kind factory_request) with WalDurable in H. cbn iota in H. rewrite Hp in H.
  destruct (H factory_log_new sample_draw_keys factory_keys_unused) as (e & view & Hrun & _ & Hs).
  exists record, e, view, (with_wal p factory_backend). split; [reflexivity|]. split; [exact Hrun|exact Hs].
Defined.

Definition factory_descriptor : ActiveExportDescriptor :=
  mkActiveDescriptor (mkDescriptor "id-1" "disk" 512 WalDurable Active "unix_us:1" "unix_us:1" None).

Lemma factory_reopens_witness :
  ∃ e view b,
    create_runtime sample_factory "disk" factory_backend =
      (Ok (mkRuntimeHandle Concurrent 64 (record_with factory_descriptor (HeadCowImmutableTree (mkCowHead 4096 None 0 Bounded32V1)))
         (HandleWal e factory_log view)), b) ∧
    wal_serves_in sample_factory sample_draw_keys "id-1" 4096 factory_log view b (λ _, x00).
Proof.
  destruct factory_log_opened as [p Hp].
  assert (Hsee : see_head (bk_store factory_backend) "id-1" = Ok (HeadCowImmutableTree (mkCowHead 4096 None 0 Bounded32V1))) by (vm_compute; reflexivity).
  pose proof (run_ops_ok [OpCreate "id-1" (Some 1%N) factory_request] (mkDatabase Tables_empty []) tables_empty_ok) as Hok.
  assert (Hdu : wal_durable_in sample_factory "id-1" 4096 factory_log factory_backend (λ _, x00)).
  { apply (fresh_wal_durable sample_factory factory_backend "id-1" 4096 one_chunk_geometry);
      [by_compute|exact Hok|reflexivity|exact factory_log_new|exact Hsee]. }
  assert (Hd : catalog_descriptor "disk" (bk_store factory_backend) = (Ok factory_descriptor, bk_store factory_backend)) by (vm_compute; reflexivity).
  pose proof (factory_reopens sample_factory factory_backend "disk" factory_descriptor (HeadCowImmutableTree (mkCowHead 4096 None 0 Bounded32V1)) (λ _, x00)
    eq_refl Hd Hsee ltac:(discriminate)) as H.
  destruct (H sample_draw_keys 4096 factory_log p Hp Hdu factory_keys_unused) as (e & view & Hrun & _ & Hs).
  exists e, view, (with_wal p factory_backend). split; [exact Hrun|exact Hs].
Defined.

