(* ===== verification/Process.v ===== *)
(** * The server process

    [server.rs], with [open_catalog] of [nbd-control-plane/src/lib.rs]: starting the server, its accept loop and its shutdown.
    The loop is a step relation over the connection tasks and the registry they share; a [select!] takes any
    branch that is ready.  A task goes through the steps of its connection in the registry, and ends when its connection
    is closed; a task that panics, and one that is dropped in the middle of a call, leaves its entry of the registry behind.
    Connecting to the database and the calls of the listener are parameters.  Log output is left out. *)

From S2P Require Import Prelude ControlPlane Server Config S3 Catalog Factory Registry.

#[local] Open Scope string_scope.
#[local] Open Scope list_scope.
#[local] Open Scope Z_scope.

(** ** Starting *)

Section start.
Context {S Client C : Type} `{!S3Sdk Client C}.
(** [SQLiteExportCatalog::connect_path]. *)
Context (connect_path : PathBuf → CatalogResult S).
Abbreviation SocketAddr := string (only parsing).

Definition open_catalog (url : CatalogUrl) : CatalogResult S :=
  match provider url with
  | Sqlite => let? path := sqlite_path url in connect_path path
  | Postgres => Err (UnsupportedCatalogProvider (CatalogUrl_as_str url) "Postgres catalog is not implemented")
  end.

(** What [start_on] makes before it spawns the accept loop. *)
Record Started := mkStarted {
  su_addr : SocketAddr;
  su_catalog : S;
  su_factory : ExportFactory Client;
  su_reply_capacity : Z;
}.

(** [bind] and [local_addr] are what the listener answers. *)
Definition start_on (s3 : bool) (config : NbdConfig) (bind : outcome string unit) (local_addr : outcome string SocketAddr)
    : M (BlobWorld C) ServerError Started :=
  let! url := mlift (map_err ServerError_catalog (CatalogUrl_from_str (cfg_catalog_url config))) in
  let! catalog := mlift (map_err ServerError_catalog (open_catalog url)) in
  let! blob_store := ConfiguredBlobStore_open s3 config in
  let factory := mkExportFactory (cfg_server config) blob_store in
  let! _ := mlift (map_err (ServerError_io "bind NBD server") bind) in
  let! addr := mlift (map_err (ServerError_io "read NBD server address") local_addr) in
  mret (mkStarted addr catalog factory (sc_export_queue_depth (cfg_server config))).
End start.

(** ** The accept loop *)

(** A connection task: it runs, or it has ended with a result, or without one because it panicked. *)
Inductive ConnectionTask : Type :=
| TaskRunning
| TaskEnded (result : SResult unit)
| TaskPanicked.

(** In the loop, joining the connections after it, or done. *)
Inductive ServerPhase : Type := Accepting | Draining | Stopped.

(** [ps_signalled]: the shutdown sender was used or dropped.  [ps_told]: the connections were told to shut down.  [ps_next]: [NEXT_CONNECTION_ID].
    [ps_abandoned]: a task was lost in the middle of a call. *)
Record ServerState := mkServerState {
  ps_phase : ServerPhase;
  ps_signalled : bool;
  ps_told : bool;
  ps_next : nat;
  ps_tasks : gmap nat ConnectionTask;
  ps_registry : RegistryWorld;
  ps_abandoned : bool;
}.


(** [NbdServer::shutdown] and [drop] send the signal. *)
Definition signal_shutdown (w : ServerState) : ServerState :=
  mkServerState (ps_phase w) true (ps_told w) (ps_next w) (ps_tasks w) (ps_registry w) (ps_abandoned w).

(** [ConnectionId::next] and [connections.spawn]. *)
Definition spawn_connection (w : ServerState) : ServerState :=
  mkServerState (ps_phase w) (ps_signalled w) (ps_told w) (S (ps_next w)) (<[ps_next w := TaskRunning]> (ps_tasks w)) (ps_registry w) (ps_abandoned w).

(** The end of the loop: [connection_shutdown.shutdown()]. *)
Definition leave_loop (w : ServerState) : ServerState :=
  mkServerState Draining (ps_signalled w) true (ps_next w) (ps_tasks w) (ps_registry w) (ps_abandoned w).

(** [join_next] of a task that has ended; its result is only logged. *)
Definition join_task (c : nat) (w : ServerState) : ServerState :=
  mkServerState (ps_phase w) (ps_signalled w) (ps_told w) (ps_next w) (delete c (ps_tasks w)) (ps_registry w) (ps_abandoned w).

Definition server_done (w : ServerState) : ServerState :=
  mkServerState Stopped (ps_signalled w) (ps_told w) (ps_next w) (ps_tasks w) (ps_registry w) (ps_abandoned w).

Definition set_task (c : nat) (task : ConnectionTask) (w : ServerState) : ServerState :=
  mkServerState (ps_phase w) (ps_signalled w) (ps_told w) (ps_next w) (<[c := task]> (ps_tasks w)) (ps_registry w) (ps_abandoned w).

Definition set_registry (registry : RegistryWorld) (abandoned : bool) (w : ServerState) : ServerState :=
  mkServerState (ps_phase w) (ps_signalled w) (ps_told w) (ps_next w) (ps_tasks w) registry (ps_abandoned w || abandoned).

(** The accept loop and the tasks.  A task makes calls on the registry, and it ends when it has closed what it opened, which
    [Connection] shows of the code of a connection, or it is lost.  That the tasks were told to shut down ([ps_told]) is
    recorded, and does not force a task to end: the tasks may end at any time, told or not. *)
Inductive server_step : ServerState → ServerState → Prop :=
| ss_signal w : server_step w (signal_shutdown w)
| ss_accept w : ps_phase w = Accepting → server_step w (spawn_connection w)
| ss_accept_failed w : ps_phase w = Accepting → server_step w (leave_loop w)
| ss_shutdown w : ps_phase w = Accepting → ps_signalled w = true → server_step w (leave_loop w)
| ss_join w c task :
    ps_phase w ≠ Stopped → ps_tasks w !! c = Some task → task ≠ TaskRunning → server_step w (join_task c w)
| ss_done w : ps_phase w = Draining → ps_tasks w = ∅ → server_step w (server_done w)
| ss_call w c r registry :
    ps_tasks w !! c = Some TaskRunning → rg_call c (ps_registry w) r registry → server_step w (set_registry registry false w)
| ss_end w c result :
    ps_tasks w !! c = Some TaskRunning → rg_connections (ps_registry w) !! c = None → server_step w (set_task c (TaskEnded result) w)
| ss_panic w c registry :
    ps_tasks w !! c = Some TaskRunning → rg_quit c (ps_registry w) registry →
    server_step w (set_registry registry true (set_task c TaskPanicked w))
| ss_panic_idle w c :
    ps_tasks w !! c = Some TaskRunning → rg_connections (ps_registry w) !! c = None → server_step w (set_task c TaskPanicked w).


(** ** The invariant *)


Section invariant.
Implicit Types (w : ServerState).




End invariant.

(** ** Stopping *)

Section stopping.
Implicit Types (w : ServerState).

(** Steps that take no connection in and abandon none. *)
Definition winds_down w w' : Prop :=
  rtc server_step w w' ∧ ps_next w' = ps_next w ∧ ps_abandoned w' = ps_abandoned w ∧ ps_phase w' = ps_phase w ∧ ps_signalled w' = ps_signalled w.

#[local] Instance winds_down_preorder : PreOrder winds_down.
Proof.
  split; [by intros w|]. intros w1 w2 w3 (? & ? & ? & ? & ?) (? & ? & ? & ? & ?). split; [by etrans|]. repeat split; congruence.
Qed.






End stopping.

(** ** Properties *)


(** ** Samples *)



