(* ===== verification/Doctor.v ===== *)
(** * Diagnostics

    [nbd-control-plane-core/src/diagnostics.rs], [doctor_catalog] of [nbd-control-plane/src/lib.rs], [doctor_path] of the SQLite
    adapter, and the two [doctor] commands: [nbd-server/src/doctor.rs] and [nbdcli/src/doctor.rs], which has the
    same report types.

    The world of the command-line tools is the file system of the configuration, the kinds of the other paths, and the SQLite
    files; a file without the tables of the migrations fails the first statement of every operation.  What comes from outside, the TOML
    and SQLite libraries, the texts of paths and of the sources of errors, and the environment, is the class [ToolEnv]. *)

From S2P Require Import Prelude ControlPlane Catalog Config Process.

#[local] Open Scope string_scope.
#[local] Open Scope list_scope.
#[local] Open Scope Z_scope.

(** ** The world of the tools *)

Inductive Json : Type :=
| JNull
| JBool (b : bool)
| JNumber (n : Z)
| JString (s : string)
| JArray (l : list Json)
| JObject (fields : list (string * Json)).

Class ToolEnv := {
  te_toml_parse : string → option NbdConfigSource;
  te_toml_print : NbdConfigSource → option string;
  (** [Path::display]. *)
  te_path_display : PathBuf → string;
  (** The text of the error behind a configuration error. *)
  te_source_text : ConfigError → string;
  (** [SqlitePoolOptions::connect_with] of a file that is not created if it is missing. *)
  te_connect : PathBuf → outcome SqlError unit;
  (** [HOME] and [USERPROFILE]. *)
  te_home : option PathBuf;
  te_userprofile : option PathBuf;
  (** [serde_json::to_string_pretty]. *)
  te_json : Json → option string;
}.

Inductive FileKind : Type := RegularFile | Directory | OtherFile.

(** [tw_kinds]: the paths that exist.  [tw_dbs]: the tables of the files that have them.  [tw_out]: what was written to the standard output.
    [tw_err]: to the standard error. *)
Record ToolWorld := mkToolWorld {
  tw_config : ConfigFs;
  tw_kinds : gmap PathBuf FileKind;
  tw_dbs : gmap PathBuf SqliteDb;
  tw_out : list string;
  tw_err : list string;
}.

Definition on_config {E A} (m : M ConfigFs E A) : M ToolWorld E A :=
  zoom tw_config (λ fs w, mkToolWorld fs (tw_kinds w) (tw_dbs w) (tw_out w) (tw_err w)) m.

(** A database without tables. *)
Definition unmigrated : SqliteDb := mkDatabase Tables_empty [true].

Definition on_db {E A} (path : PathBuf) (m : M SqliteDb E A) : M ToolWorld E A := λ w,
  match tw_dbs w !! path with
  | Some db => let '(o, db) := m db in (o, mkToolWorld (tw_config w) (tw_kinds w) (<[path := db]> (tw_dbs w)) (tw_out w) (tw_err w))
  | None => ((m unmigrated).1, w)
  end.

(** [Path::exists], [is_file] and [is_dir]. *)
Definition tool_exists (path : PathBuf) (w : ToolWorld) : bool := bool_decide (is_Some (tw_kinds w !! path)).
Definition is_file (path : PathBuf) (w : ToolWorld) : bool := match tw_kinds w !! path with Some RegularFile => true | _ => false end.
Definition is_dir (path : PathBuf) (w : ToolWorld) : bool := match tw_kinds w !! path with Some Directory => true | _ => false end.

(** ** Catalog diagnostics (diagnostics.rs, adapter.rs, lib.rs) *)

Inductive CatalogDoctorStatus : Type := CatOk | CatWarning | CatFailed.

Record CatalogDoctorCheck := mkCatalogCheck {
  cc_name : string;
  cc_status : CatalogDoctorStatus;
  cc_detail : option string;
  cc_remediation : option string;
}.

Definition CatalogDoctorCheck_ok (name detail : string) : CatalogDoctorCheck := mkCatalogCheck name CatOk (Some detail) None.
Definition CatalogDoctorCheck_failed (name detail remediation : string) : CatalogDoctorCheck :=
  mkCatalogCheck name CatFailed (Some detail) (Some remediation).

Definition CatalogDoctorStatus_as_str (status : CatalogDoctorStatus) : string :=
  match status with CatOk => "ok" | CatWarning => "warning" | CatFailed => "failed" end.

(** ** Reports (doctor.rs) *)

Inductive DoctorStatus : Type := DoctorOk | DoctorWarning | DoctorFailed.

#[export] Instance DoctorStatus_eq_dec : EqDecision DoctorStatus.
Proof. solve_decision. Defined.

Record DoctorCheck := mkCheck {
  dc_name : string;
  dc_status : DoctorStatus;
  dc_detail : option string;
  dc_remediation : option string;
}.

Record DoctorReport := mkReport { dr_status : DoctorStatus; dr_checks : list DoctorCheck }.

Definition has_status (status : DoctorStatus) (checks : list DoctorCheck) : bool :=
  existsb (λ check, bool_decide (dc_status check = status)) checks.

Definition DoctorReport_new (checks : list DoctorCheck) : DoctorReport :=
  let status :=
    if has_status DoctorFailed checks then DoctorFailed
    else if has_status DoctorWarning checks then DoctorWarning
    else DoctorOk in
  mkReport status checks.

Definition DoctorCheck_ok (name detail : string) : DoctorCheck := mkCheck name DoctorOk (Some detail) None.
Definition DoctorCheck_warning (name detail remediation : string) : DoctorCheck :=
  mkCheck name DoctorWarning (Some detail) (Some remediation).
Definition DoctorCheck_failed (name detail remediation : string) : DoctorCheck :=
  mkCheck name DoctorFailed (Some detail) (Some remediation).

Definition DoctorStatus_from_catalog (status : CatalogDoctorStatus) : DoctorStatus :=
  match status with CatOk => DoctorOk | CatWarning => DoctorWarning | CatFailed => DoctorFailed end.

Definition DoctorCheck_from_catalog (check : CatalogDoctorCheck) : DoctorCheck :=
  mkCheck (cc_name check) (DoctorStatus_from_catalog (cc_status check)) (cc_detail check) (cc_remediation check).

Definition DoctorStatus_display (status : DoctorStatus) : string :=
  match status with DoctorOk => "ok" | DoctorWarning => "warning" | DoctorFailed => "failed" end.

Section doctor.
Context `{!ToolEnv}.

(** The [#[error(...)]] display strings of configuration errors. *)
Definition ConfigError_display (e : ConfigError) : string :=
  let source := te_source_text e in
  match e with
  | MissingHomeDir => "could not determine user home directory"
  | NonUtf8Path path => "path is not valid UTF-8: " +:+ te_path_display path
  | ReadConfig path => "failed to read config " +:+ te_path_display path +:+ ": " +:+ source
  | WriteConfig path => "failed to write config " +:+ te_path_display path +:+ ": " +:+ source
  | ConfigAlreadyExists path => "config already exists: " +:+ te_path_display path
  | CreateConfigDir path => "failed to create config directory " +:+ te_path_display path +:+ ": " +:+ source
  | ParseConfig path => "failed to parse config " +:+ te_path_display path +:+ ": " +:+ source
  | SerializeConfig => "failed to serialize config: " +:+ source
  | InvalidConfigKey key => "unknown config key `" +:+ key +:+ "`; supported keys: " +:+ SUPPORTED_KEYS
  end.

(** [SQLiteExportCatalog::connect_path]; a connected catalog is the path of its file. *)
Definition connect_path (path : PathBuf) : CatalogResult PathBuf :=
  let? _ := map_err map_sqlx_error (te_connect path) in Ok path.

Definition doctor_path {E} (path : PathBuf) : M ToolWorld E (list CatalogDoctorCheck) := λ w,
  if negb (tool_exists path w) then
    (Ok [CatalogDoctorCheck_failed "catalog_file" (te_path_display path +:+ " is missing") "create and migrate the SQLite catalog"], w)
  else if negb (is_file path w) then
    (Ok [CatalogDoctorCheck_failed "catalog_file" (te_path_display path +:+ " is not a regular file") "set catalog.url to a SQLite database file"], w)
  else
    (let! catalog := mtry (mlift (connect_path path)) in
     match catalog with
     | inl error =>
         mret [CatalogDoctorCheck_ok "catalog_file" (te_path_display path);
               CatalogDoctorCheck_failed "catalog_open" (CatalogError_display error) "check catalog.url and SQLite file permissions"]
     | inr catalog =>
         let! listed := mtry (on_db catalog (list_exports false)) in
         mret ([CatalogDoctorCheck_ok "catalog_file" (te_path_display path); CatalogDoctorCheck_ok "catalog_open" "ready"] ++
               match listed with
               | inr _ => [CatalogDoctorCheck_ok "catalog_schema" "ready"]
               | inl error => [CatalogDoctorCheck_failed "catalog_schema" (CatalogError_display error) "apply the catalog migrations"]
               end)
     end) w.

Definition doctor_catalog {E} (url : CatalogUrl) : M ToolWorld E (list CatalogDoctorCheck) :=
  match provider url with
  | Sqlite =>
      let! path := mtry (mlift (sqlite_path url)) in
      match path with
      | inr path => let! checks := doctor_path path in mret (CatalogDoctorCheck_ok "catalog_provider" "sqlite" :: checks)
      | inl error =>
          mret [CatalogDoctorCheck_ok "catalog_provider" "sqlite";
                CatalogDoctorCheck_failed "catalog_open" (CatalogError_display error) "set catalog.url to a file-backed SQLite catalog"]
      end
  | Postgres =>
      mret [CatalogDoctorCheck_failed "catalog_provider" (CatalogProvider_as_str (provider url)) "Postgres catalog is not implemented"]
  end.

(** ** Checks of both tools *)

Definition check_catalog_url (config : NbdConfig) : list DoctorCheck * option CatalogUrl :=
  match CatalogUrl_from_str (cfg_catalog_url config) with
  | Ok url => ([DoctorCheck_ok "catalog_url" (CatalogUrl_as_str url)], Some url)
  | Err error => ([DoctorCheck_failed "catalog_url" (CatalogError_display error) "set catalog.url to a valid file: URL"], None)
  | Panic => ([], None)
  end.

Definition check_catalog {E} (url : CatalogUrl) : M ToolWorld E (list DoctorCheck) :=
  let! checks := doctor_catalog url in mret (DoctorCheck_from_catalog <$> checks).

(** ** The server's doctor *)

Definition parent_is_directory (path : PathBuf) (w : ToolWorld) : bool :=
  match path_parent path with None => true | Some parent => is_dir parent w end.
Definition parent_is_creatable (path : PathBuf) (w : ToolWorld) : bool :=
  match path_parent path with None => false | Some parent => is_dir parent w end.

Definition check_directory_location (name : string) (path : PathBuf) (w : ToolWorld) : DoctorCheck :=
  if tool_exists path w then
    if is_dir path w then DoctorCheck_ok name (te_path_display path)
    else DoctorCheck_failed name (te_path_display path +:+ " is not a directory") "choose a directory path"
  else if parent_is_directory path w then DoctorCheck_ok name (te_path_display path +:+ " is missing; parent exists")
  else DoctorCheck_failed name (te_path_display path +:+ " is missing and parent is not available")
         "create the parent directory or choose another path".

Definition check_file_location (name : string) (path : PathBuf) (w : ToolWorld) : DoctorCheck :=
  if tool_exists path w then
    if is_file path w then DoctorCheck_ok name (te_path_display path)
    else DoctorCheck_failed name (te_path_display path +:+ " is not a regular file") "choose a file path"
  else if parent_is_directory path w || match path_parent path with Some parent => parent_is_creatable parent w | None => false end then
    DoctorCheck_ok name (te_path_display path +:+ " is missing; parent can be created")
  else DoctorCheck_failed name (te_path_display path +:+ " parent is not available")
         "create the parent directory or choose another path".

Definition check_blob_store (c : BlobStoreConfig) : DoctorCheck :=
  match c with
  | BlobLocal => DoctorCheck_ok "blob_store" "local"
  | BlobS3 _ _ bucket _ _ _ _ _ => DoctorCheck_ok "blob_store" ("s3 bucket " +:+ bucket +:+ "; network reachability not checked")
  end.

Definition check_configured_paths (config : NbdConfig) (w : ToolWorld) : list DoctorCheck :=
  [check_directory_location "runtime.state_dir" (rc_state_dir (cfg_runtime config)) w;
   check_directory_location "runtime.blob_dir" (rc_blob_dir (cfg_runtime config)) w;
   check_directory_location "runtime.wal_dir" (rc_wal_dir (cfg_runtime config)) w;
   check_file_location "logging.file_path" (cfg_logging_file_path config) w;
   check_blob_store (cfg_blob_store config)].

(** [load_config] of the server: the checks and, if it goes on, the file and its configuration. *)
Definition doctor_load_config {E} (config_path : option PathBuf)
    : M ToolWorld E (list DoctorCheck * option (ConfigFile * NbdConfig)) :=
  let loaded_text (loaded : LoadedConfig) := "loaded " +:+ te_path_display (lc_path loaded) in
  match config_path with
  | Some path =>
      let file := ConfigFile_explicit path in
      let! result := mtry (on_config (config_load te_toml_parse file)) in
      mret match result with
           | inr loaded => ([DoctorCheck_ok "config" (loaded_text loaded)], Some (file, lc_config loaded))
           | inl error =>
               ([DoctorCheck_failed "config" (ConfigError_display error) "create the config or pass a valid --config path"], None)
           end
  | None =>
      let! file := mtry (mlift (ConfigFile_local te_home te_userprofile)) in
      match file with
      | inl error => mret ([DoctorCheck_failed "config" (ConfigError_display error) "set HOME or pass --config <path>"], None)
      | inr file =>
          let! result := mtry (on_config (load_or_default te_toml_parse file)) in
          mret match result with
               | inr loaded =>
                   ([if lc_existed loaded then DoctorCheck_ok "config" (loaded_text loaded)
                     else DoctorCheck_warning "config" (te_path_display (lc_path loaded) +:+ " is missing")
                            "run `nbd-server config init` or let `nbd-server serve` bootstrap it"],
                    Some (file, lc_config loaded))
               | inl error =>
                   ([DoctorCheck_failed "config" (ConfigError_display error) "fix the config path or default config template"], None)
               end
      end
  end.

(** [doctor::check] of the server. *)
Definition server_doctor {E} (config_path : option PathBuf) : M ToolWorld E DoctorReport :=
  let! loaded := doctor_load_config config_path in
  match loaded with
  | (checks, None) => mret (DoctorReport_new checks)
  | (checks, Some (file, config)) =>
      match check_catalog_url config with
      | (url_checks, None) =>
          let! w := mget in
          mret (DoctorReport_new (checks ++ url_checks ++ check_configured_paths config w))
      | (url_checks, Some url) =>
          let! catalog_checks := check_catalog url in
          let! w := mget in
          mret (DoctorReport_new (checks ++ url_checks ++ catalog_checks ++ check_configured_paths config w ++
            [DoctorCheck_ok "config_path" (te_path_display (cf_path file))]))
      end
  end.

(** ** The doctor of [nbdcli] *)

(** [ConfigFile::explicit] or [ConfigFile::local], as both tools choose it. *)
Definition config_file (path : option PathBuf) : CfgResult ConfigFile :=
  match path with Some path => Ok (ConfigFile_explicit path) | None => ConfigFile_local te_home te_userprofile end.

Definition cli_doctor_load_config {E} (config_path : option PathBuf) : M ToolWorld E (list DoctorCheck * option NbdConfig) :=
  let! file := mtry (mlift (config_file config_path)) in
  match file with
  | inl error => mret ([DoctorCheck_failed "config" (ConfigError_display error) "set HOME or pass --config <path>"], None)
  | inr file =>
      let! result := mtry (on_config (config_load te_toml_parse file)) in
      mret match result with
           | inr loaded => ([DoctorCheck_ok "config" ("loaded " +:+ te_path_display (lc_path loaded))], Some (lc_config loaded))
           | inl error =>
               ([DoctorCheck_failed "config" (ConfigError_display error)
                   "create the config with `nbd-server config init` or pass --config <path>"], None)
           end
  end.

(** [doctor::check] of [nbdcli]. *)
Definition cli_doctor {E} (config_path : option PathBuf) : M ToolWorld E DoctorReport :=
  let! loaded := cli_doctor_load_config config_path in
  match loaded with
  | (checks, None) => mret (DoctorReport_new checks)
  | (checks, Some config) =>
      match check_catalog_url config with
      | (url_checks, None) => mret (DoctorReport_new (checks ++ url_checks))
      | (url_checks, Some url) =>
          let! catalog_checks := check_catalog url in
          mret (DoctorReport_new (checks ++ url_checks ++ catalog_checks))
      end
  end.
End doctor.
