(* ===== verification/Cli.v ===== *)
(** * Command lines

    [nbdcli] ([main.rs], [cli.rs], [output.rs]): the commands on the export catalog and what they print; and [nbd-server]
    ([main.rs], [cli.rs], [output.rs], [logging.rs]): configuration, diagnostics and the start of the server.  The parsing of the arguments
    belongs to a library; commands begin with the parsed values.  A process ends with its exit code. *)

From stdpp Require Import pretty.
From S2P Require Import Prelude ControlPlane Server Catalog WalLocal Storage Config S3 Factory Process Doctor.

#[local] Open Scope string_scope.
#[local] Open Scope list_scope.
#[local] Open Scope Z_scope.

(** ** Errors and output *)

(** [LoggingError], without the texts of its sources. *)
Inductive LoggingError : Type :=
| CreateLogDir (path : PathBuf)
| OpenLogFile (path : PathBuf)
| ParseFilter (filter : string)
| SetGlobalDefault.

(** The errors behind [Box<dyn Error>]. *)
Inductive ToolError : Type :=
| ToolConfig (e : ConfigError)
| ToolCatalog (e : CatalogError)
| ToolServer (e : ServerError)
| ToolLogging (e : LoggingError)
| ToolJson
| ToolMessage (message : string).

Abbreviation Tool A := (M ToolWorld ToolError A) (only parsing).

Definition newline : string := String.String (Ascii.ascii_of_nat 10) "".
Definition with_out (texts : list string) (w : ToolWorld) : ToolWorld :=
  mkToolWorld (tw_config w) (tw_kinds w) (tw_dbs w) (tw_out w ++ texts) (tw_err w).

(** [print!], [println!] and [eprintln!]. *)
Definition print_text (text : string) : Tool unit := mmodify (with_out [text]).
Definition println (line : string) : Tool unit := print_text (line +:+ newline).
Definition eprintln (line : string) : Tool unit :=
  mmodify (λ w, mkToolWorld (tw_config w) (tw_kinds w) (tw_dbs w) (tw_out w) (tw_err w ++ [line +:+ newline])).

(** *** [nbdcli]: cli.rs *)

Definition DEFAULT_BLOCK_SIZE : Z := 4096.

Inductive Command : Type :=
| CmdCreate (name : string) (size block_size : Z) (engine : ExportEngineKind)
| CmdList (include_deleted : bool)
| CmdInspect (name : string)
| CmdClone (source destination : string)
| CmdDelete (name : string)
| CmdDoctor.

Record Cli := mkCli { cli_config : option PathBuf; cli_json : bool; cli_command : Command }.

(** *** [nbdcli]: output.rs *)

Inductive OutputMode : Type := Human | JsonMode.

Definition OutputMode_from_json (json : bool) : OutputMode := if json then JsonMode else Human.

Record ErrorContext := mkErrorContext { ec_operation : option string; ec_resource : option string }.

Definition ErrorContext_new (operation : string) (resource : option string) : ErrorContext := mkErrorContext (Some operation) resource.

Definition ErrorContext_from_command (command : Command) : ErrorContext :=
  match command with
  | CmdCreate name _ _ _ => ErrorContext_new "create" (Some name)
  | CmdList _ => ErrorContext_new "list" None
  | CmdInspect name => ErrorContext_new "inspect" (Some name)
  | CmdClone source destination => ErrorContext_new "clone" (Some (source +:+ " -> " +:+ destination))
  | CmdDelete name => ErrorContext_new "delete" (Some name)
  | CmdDoctor => ErrorContext_new "doctor" None
  end.

Definition json_option (o : option string) : Json := match o with Some s => JString s | None => JNull end.

(** [derive(Serialize)] of [TreeFormat]: [snake_case] breaks the name at its capitals only, so that the name is not the one that
    [from_str] reads. *)
Definition TreeFormat_json (f : TreeFormat) : Json := match f with Bounded32V1 => JString "bounded32_v1" end.

Lemma tree_format_json_refused f : match TreeFormat_json f with JString name => ∃ e, TreeFormat_from_str name = Err e | _ => False end.
Proof. destruct f. by eexists. Qed.

(** [derive(Serialize)] of [ExportHead] and [ExportRecord]. *)
Definition head_json (h : ExportHead) : Json :=
  let kind := ("layout_kind", JString (ExportLayoutKind_display (layout_kind h))) in
  match h with
  | HeadMemoryEmpty h => JObject [kind; ("size_bytes", JNumber (mh_size_bytes h))]
  | HeadSimpleMutableTree h =>
      JObject [kind; ("size_bytes", JNumber (sh_size_bytes h)); ("root_node_id", json_option (sh_root_node_id h)); ("tree_format", TreeFormat_json (sh_tree_format h))]
  | HeadCowImmutableTree h =>
      JObject [kind; ("size_bytes", JNumber (ch_size_bytes h)); ("root_node_id", json_option (ch_root_node_id h)); ("base_wal_seq", JNumber (ch_base_wal_seq h));
        ("tree_format", TreeFormat_json (ch_tree_format h))]
  end.

Definition record_json (r : ExportRecord) : Json :=
  JObject [("id", JString (r_id r)); ("name", JString (r_name r)); ("block_size", JNumber (r_block_size r));
    ("engine_kind", JString (ExportEngineKind_display (r_engine_kind r))); ("state", JString (ExportState_display (r_state r)));
    ("head", head_json (r_head r)); ("created_at", JString (r_created_at r)); ("updated_at", JString (r_updated_at r));
    ("deleted_at", json_option (r_deleted_at r))].

Definition format_tree_format (export : ExportRecord) : string := default "<none>" (TreeFormat_display <$> tree_format (r_head export)).

(** The lines that the human mode prints. *)
Definition created_line (export : ExportRecord) : string :=
  "created export " +:+ r_name export +:+ " size=" +:+ pretty (size_bytes (r_head export)) +:+ " block_size=" +:+ pretty (r_block_size export) +:+
  " engine=" +:+ ExportEngineKind_display (r_engine_kind export) +:+ " tree_format=" +:+ format_tree_format export.

Definition tab : string := String.String (Ascii.ascii_of_nat 9) "".

Definition list_line (export : ExportRecord) : string :=
  r_name export +:+ tab +:+ ExportState_display (r_state export) +:+ tab +:+ "size=" +:+ pretty (size_bytes (r_head export)) +:+
  tab +:+ "block_size=" +:+ pretty (r_block_size export) +:+ tab +:+ "engine=" +:+ ExportEngineKind_display (r_engine_kind export) +:+
  tab +:+ "layout=" +:+ ExportLayoutKind_display (layout_kind (r_head export)) +:+ tab +:+ "tree_format=" +:+ format_tree_format export.

Definition export_lines (export : ExportRecord) : list string :=
  ["name: " +:+ r_name export; "state: " +:+ ExportState_display (r_state export); "size: " +:+ pretty (size_bytes (r_head export));
   "block_size: " +:+ pretty (r_block_size export); "engine: " +:+ ExportEngineKind_display (r_engine_kind export);
   "layout: " +:+ ExportLayoutKind_display (layout_kind (r_head export)); "tree_format: " +:+ format_tree_format export;
   "base_wal_seq: " +:+ pretty (base_wal_seq (r_head export));
   match root_node_id (r_head export) with Some root => "root_node_id: " +:+ root | None => "root_node_id: <empty>" end].

Definition check_line (check : DoctorCheck) : string :=
  dc_name check +:+ ": " +:+ DoctorStatus_display (dc_status check) +:+
  match dc_detail check, dc_remediation check with
  | Some detail, Some remediation => " (" +:+ detail +:+ "; remediation: " +:+ remediation +:+ ")"
  | Some detail, None => " (" +:+ detail +:+ ")"
  | None, Some remediation => " (remediation: " +:+ remediation +:+ ")"
  | None, None => ""
  end.

(** [doctor_report_json], and [derive(Serialize)] of the server's report. *)
Definition doctor_report_json (report : DoctorReport) : Json :=
  JObject [("status", JString (DoctorStatus_display (dr_status report)));
    ("checks", JArray ((λ check, JObject [("name", JString (dc_name check)); ("status", JString (DoctorStatus_display (dc_status check)));
      ("detail", json_option (dc_detail check)); ("remediation", json_option (dc_remediation check))]) <$> dr_checks report))].

Definition doctor_failed (report : DoctorReport) : bool := bool_decide (dr_status report = DoctorFailed).

Definition error_code (error : ToolError) : string :=
  match error with ToolConfig _ => "config_error" | ToolCatalog _ => "catalog_error" | _ => "runtime_error" end.

Section cli.
Context `{!ToolEnv}.
(** The text of an error that is neither of the configuration nor of the catalog. *)
Context (other_error_text : ToolError → string).

Definition print_json_value (value : Json) : Tool unit :=
  let! text := mlift (ok_or (te_json value) ToolJson) in println text.

Definition print_created (export : ExportRecord) (mode : OutputMode) : Tool unit :=
  match mode with
  | Human => println (created_line export)
  | JsonMode => print_json_value (JObject [("status", JString "created"); ("export", record_json export)])
  end.

Definition print_export_list (exports : list ExportRecord) (mode : OutputMode) : Tool unit :=
  match mode with
  | Human => mfor exports (λ export, println (list_line export))
  | JsonMode => print_json_value (JArray (record_json <$> exports))
  end.

Definition print_export (export : ExportRecord) (mode : OutputMode) : Tool unit :=
  match mode with
  | Human => mfor (export_lines export) println
  | JsonMode => print_json_value (record_json export)
  end.

Definition print_cloned (source destination : ExportRecord) (mode : OutputMode) : Tool unit :=
  match mode with
  | Human =>
      let! _ := println ("cloned export " +:+ r_name destination +:+ " from " +:+ r_name source +:+ " source_base_wal_seq=" +:+
        pretty (base_wal_seq (r_head source)) +:+ " destination_base_wal_seq=" +:+ pretty (base_wal_seq (r_head destination))) in
      println "note: copied committed checkpoint only; source WAL was not cloned"
  | JsonMode =>
      print_json_value (JObject [("status", JString "cloned"); ("source", record_json source); ("destination", record_json destination);
        ("source_wal_cloned", JBool false)])
  end.

Definition print_deleted (name : ExportName) (mode : OutputMode) : Tool unit :=
  match mode with
  | Human => println ("deleted export " +:+ name)
  | JsonMode => print_json_value (JObject [("status", JString "deleted"); ("name", JString name)])
  end.

Definition print_doctor_report (report : DoctorReport) (mode : OutputMode) : Tool unit :=
  match mode with
  | Human =>
      let! _ := println ("status: " +:+ DoctorStatus_display (dr_status report)) in
      mfor (dr_checks report) (λ check, println (check_line check))
  | JsonMode => print_json_value (doctor_report_json report)
  end.

Definition error_text (error : ToolError) : string :=
  match error with
  | ToolConfig e => ConfigError_display e
  | ToolCatalog e => CatalogError_display e
  | ToolMessage message => message
  | _ => other_error_text error
  end.

(** [expect] panics if the report does not print. *)
Definition print_error (error : ToolError) (mode : OutputMode) (context : ErrorContext) : Tool unit :=
  match mode with
  | Human => eprintln ("error: " +:+ error_text error)
  | JsonMode =>
      let report := JObject [("status", JString "error"); ("code", JString (error_code error)); ("message", JString (error_text error));
        ("operation", json_option (ec_operation context)); ("resource", json_option (ec_resource context))] in
      let! text := mlift (or_panic (te_json report)) in eprintln text
  end.

(** *** [nbdcli]: main.rs *)

Definition cli_load_config (path : option PathBuf) : Tool NbdConfig :=
  let! file := mlift (map_err ToolConfig (config_file path)) in
  let! loaded := mmap_err ToolConfig (on_config (config_load te_toml_parse file)) in
  mret (lc_config loaded).

(** The [match] of [run_catalog_command].  [uuid] and [clock]: the random identifier of a new export, and the system clock. *)
Definition catalog_command (uuid : string) (clock : option N) (command : Command) (mode : OutputMode) (catalog : PathBuf) : Tool unit :=
  match command with
  | CmdCreate name size block_size engine =>
      let! name := mlift (map_err ToolCatalog (ExportName_new name)) in
      let! request := mlift (map_err ToolCatalog (CreateExport_new name size block_size engine)) in
      let! meta := mmap_err ToolCatalog (on_db catalog (create_export uuid clock request)) in
      print_created meta mode
  | CmdList include_deleted =>
      let! exports := mmap_err ToolCatalog (on_db catalog (list_exports include_deleted)) in
      print_export_list exports mode
  | CmdInspect name =>
      let! name := mlift (map_err ToolCatalog (ExportName_new name)) in
      let! meta := mmap_err ToolCatalog (on_db catalog (inspect_export name)) in
      print_export meta mode
  | CmdClone source destination =>
      let! source := mlift (map_err ToolCatalog (ExportName_new source)) in
      let! destination := mlift (map_err ToolCatalog (ExportName_new destination)) in
      let! request := mlift (map_err ToolCatalog (CloneExport_new source destination)) in
      let! cloned := mmap_err ToolCatalog (on_db catalog (clone_export uuid clock request)) in
      print_cloned cloned.1 cloned.2 mode
  | CmdDelete name =>
      let! name := mlift (map_err ToolCatalog (ExportName_new name)) in
      let! _ := mmap_err ToolCatalog (on_db catalog (delete_export clock name)) in
      print_deleted name mode
  | CmdDoctor => mlift Panic
  end.

Definition run_catalog_command (uuid : string) (clock : option N) (command : Command) (config : NbdConfig) (mode : OutputMode) : Tool unit :=
  let! url := mlift (map_err ToolCatalog (CatalogUrl_from_str (cfg_catalog_url config))) in
  let! catalog := mlift (map_err ToolCatalog (open_catalog connect_path url)) in
  catalog_command uuid clock command mode catalog.

Definition cli_run (uuid : string) (clock : option N) (cli : Cli) : Tool unit :=
  let mode := OutputMode_from_json (cli_json cli) in
  match cli_command cli with
  | CmdDoctor =>
      let! report := cli_doctor (cli_config cli) in
      let! _ := print_doctor_report report mode in
      if doctor_failed report then mfail (ToolMessage "doctor checks failed") else mret tt
  | command =>
      let! config := cli_load_config (cli_config cli) in
      run_catalog_command uuid clock command config mode
  end.

(** [main]: the exit code. *)
Definition cli_main (uuid : string) (clock : option N) (cli : Cli) : Tool Z :=
  let! result := mtry (cli_run uuid clock cli) in
  match result with
  | inr _ => mret 0
  | inl error =>
      let! _ := print_error error (OutputMode_from_json (cli_json cli)) (ErrorContext_from_command (cli_command cli)) in
      mret 1
  end.
End cli.

(** ** [nbd-server]: logging.rs *)

Definition DEFAULT_LOG_FILTER : string :=
  "info,nbd_server::request=warn,nbd_server::admission=warn,nbd_server::storage=warn".

Record LoggingOptions := mkLoggingOptions { lo_file_path : PathBuf; lo_log_stdout : bool; lo_env_filter : option string }.
Inductive LogFormat : Type := JsonLines.
Inductive LogDestination : Type := LogFile (path : PathBuf) | LogStdout.
Inductive LogWriterQueuePolicy : Type := Lossless.

Record LoggingPolicy := mkLoggingPolicy {
  lp_destinations : list LogDestination;
  lp_format : LogFormat;
  lp_filter : string;
  lp_append : bool;
  lp_writer_queue_policy : LogWriterQueuePolicy;
}.

Definition LoggingPolicy_from_options (options : LoggingOptions) : LoggingPolicy :=
  mkLoggingPolicy (LogFile (lo_file_path options) :: (if lo_log_stdout options then [LogStdout] else []))
    JsonLines (default DEFAULT_LOG_FILTER (lo_env_filter options)) true Lossless.

(** The open of the log file: created if it is missing, appended to or truncated. *)
Definition open_log (path : PathBuf) (append : bool) : M ConfigFs LoggingError unit := λ fs,
  match next_fs_fault fs with
  | Some _ => (Err (OpenLogFile path), fs_after (fs_files fs) fs)
  | None =>
      let text := if append then default "" (fs_files fs !! path) else "" in
      (Ok tt, fs_after (<[path := text]> (fs_files fs)) fs)
  end.

Definition file_log_writer (path : PathBuf) (append : bool) : M ConfigFs LoggingError unit :=
  let! _ := (match path_parent path with
    | Some parent => mmap_err (λ _, CreateLogDir parent) (create_dir_all parent)
    | None => mret tt
    end) in
  open_log path append.

(** The writers that the destinations open, in order: the last file, whether there is the standard output, and the guards. *)
Fixpoint open_destinations (append : bool) (destinations : list LogDestination) (file : option PathBuf) (stdout : bool) (guards : list LogDestination)
    : M ConfigFs LoggingError (option PathBuf * bool * list LogDestination) :=
  match destinations with
  | [] => mret (file, stdout, guards)
  | LogFile path :: destinations =>
      let! _ := file_log_writer path append in
      open_destinations append destinations (Some path) stdout (guards ++ [LogFile path])
  | LogStdout :: destinations => open_destinations append destinations file true (guards ++ [LogStdout])
  end.

Record LogDispatch := mkDispatch { ld_filter : string; ld_file : PathBuf; ld_stdout : bool }.

Section logging.
(** [EnvFilter::try_new] accepts the filter. *)
Context (filter_ok : string → bool).

Definition build_dispatch (policy : LoggingPolicy) : M ConfigFs LoggingError (LogDispatch * list LogDestination) :=
  if filter_ok (lp_filter policy) then
    let! writers := open_destinations (lp_append policy) (lp_destinations policy) None false [] in
    let '(file, stdout, guards) := writers in
    let! file := mlift (or_panic file) in
    mret (mkDispatch (lp_filter policy) file stdout, guards)
  else mfail (ParseFilter (lp_filter policy)).

(** [default_free]: no global dispatcher was set before. *)
Definition init_logging (default_free : bool) (policy : LoggingPolicy) : M ConfigFs LoggingError (list LogDestination) :=
  let! built := build_dispatch policy in
  if default_free then mret built.2 else mfail SetGlobalDefault.
End logging.

(** ** [nbd-server]: main.rs, cli.rs and output.rs *)

Record ServeArgs := mkServeArgs { sa_listen : string; sa_log_stdout : bool }.
Inductive ConfigAction : Type := ActionGet (key : ConfigKey) | ActionInit.
Record ConfigArgs := mkConfigArgs { ca_path : bool; ca_action : option ConfigAction }.

Definition config_source (path : option PathBuf) : ConfigSource :=
  match path with Some path => ExplicitPath path | None => DefaultUserPath end.

Section server_main.
Context `{!ToolEnv} {Client C : Type} `{!S3Sdk Client C}.
Context (filter_ok : string → bool) (default_free : bool) (rust_log : option string).
Abbreviation Serve A := (M (ToolWorld * BlobWorld C) ToolError A) (only parsing).

Definition run_config (config_path : option PathBuf) (args : ConfigArgs) : Tool unit :=
  let! file := mlift (map_err ToolConfig (config_file config_path)) in
  if ca_path args then
    match ca_action args with
    | Some _ => mfail (ToolMessage "config --path cannot be combined with a subcommand")
    | None => println (te_path_display (cf_path file))
    end
  else
    match ca_action args with
    | Some (ActionGet key) =>
        let! loaded := mmap_err ToolConfig (on_config (load_or_default te_toml_parse file)) in
        println (key_value te_path_display key (lc_config loaded))
    | Some ActionInit =>
        let! initialized := mmap_err ToolConfig (on_config (config_init te_toml_print file)) in
        println ("initialized config " +:+ te_path_display (ic_path initialized))
    | None =>
        let! loaded := mmap_err ToolConfig (on_config (load_or_default te_toml_parse file)) in
        let! text := mlift (map_err ToolConfig (to_toml_string te_toml_print (lc_config loaded))) in
        print_text text
    end.

Definition run_doctor (config_path : option PathBuf) (json : bool) : Tool unit :=
  let! report := server_doctor config_path in
  let! _ := print_doctor_report report (OutputMode_from_json json) in
  if doctor_failed report then mfail (ToolMessage "doctor checks failed") else mret tt.

Definition on_tools {A} (m : Tool A) : Serve A := zoom fst (λ t w, (t, w.2)) m.
Definition on_blobs {A} (m : M (BlobWorld C) ServerError A) : Serve A := mmap_err ToolServer (zoom snd (λ b w, (w.1, b)) m).

(** [run_serve] up to the wait for the interrupt; [s3], [bind] and [local_addr] as for [start_on]. *)
Definition run_serve (s3 : bool) (config_path : option PathBuf) (args : ServeArgs) (bind : outcome string unit)
    (local_addr : outcome string string) : Serve (@Started PathBuf Client) :=
  let! config := on_tools (mmap_err ToolConfig (on_config
    (NbdConfig_load te_toml_parse te_toml_print (config_source config_path) te_home te_userprofile))) in
  let policy := LoggingPolicy_from_options (mkLoggingOptions (cfg_logging_file_path config) (sa_log_stdout args) rust_log) in
  let! _ := on_tools (mmap_err ToolLogging (on_config (init_logging filter_ok default_free policy))) in
  on_blobs (start_on connect_path s3 config bind local_addr).
End server_main.

(** ** What the tools leave as it is *)

(** The same files, paths and tables; calls may have failed in between. *)
Record same_files (w w' : ToolWorld) : Prop := {
  sf_config : fs_files (tw_config w') = fs_files (tw_config w);
  sf_kinds : tw_kinds w' = tw_kinds w;
  sf_tables : db_tables <$> tw_dbs w' = db_tables <$> tw_dbs w;
}.

#[export] Instance same_files_preorder : PreOrder same_files.
Proof. split; [by intros w|]. intros w1 w2 w3 [] []. split; congruence. Qed.

Section reading.
Implicit Types (w : ToolWorld).

Lemma same_files_out texts w : same_files w (with_out texts w).
Proof. done. Qed.

(** An operation that leaves its tables alone. *)
Lemma on_db_reads {E A} path (m : M SqliteDb E A) w :
  (∀ db, db_tables (m db).2 = db_tables db) → same_files w (on_db path m w).2.
Proof.
  intros Hm. unfold on_db. destruct (tw_dbs w !! path) as [db|] eqn:Hdb; [|done]. specialize (Hm db).
  destruct (m db) as [o db']. cbn in *. split; cbn; [done..|]. rewrite fmap_insert. apply insert_id. by rewrite lookup_fmap, Hdb, Hm.
Qed.

Lemma list_exports_reads include_deleted db : db_tables (list_exports include_deleted db).2 = db_tables db.
Proof.
  unfold list_exports, mseq. destruct (query _ db) as [[rows|e|] db1] eqn:Hq; apply query_tables in Hq; done.
Qed.

Lemma inspect_reads name db : db_tables (inspect_export name db).2 = db_tables db.
Proof. destruct (inspect_export name db) as [o db'] eqn:H. by apply fetch_by_name_tables in H. Qed.

Lemma config_load_reads toml file fs : fs_files (config_load toml file fs).2 = fs_files fs.
Proof.
  unfold config_load, load_file, read_to_string, mseq, mlift.
  by repeat (case_match; simplify_eq/=).
Qed.

Lemma load_or_default_reads toml file fs : fs_files (load_or_default toml file fs).2 = fs_files fs.
Proof.
  unfold load_or_default. unfold mseq at 1. unfold path_exists. cbn zeta.
  match goal with |- context [if ?b then _ else _] => destruct b end; [by rewrite config_load_reads|]. unfold mlift, mseq. by destruct (default_config file).
Qed.

Lemma on_config_reads {E A} (m : M ConfigFs E A) w :
  fs_files (m (tw_config w)).2 = fs_files (tw_config w) → same_files w (on_config m w).2.
Proof. intros Hm. unfold on_config, zoom. by destruct (m (tw_config w)). Qed.
End reading.

Section printing.
Context `{!ToolEnv}.
(** Every JSON value prints. *)
Hypothesis json_prints : ∀ value, is_Some (te_json value).
Implicit Types (w : ToolWorld).

Lemma with_out_app a b w : with_out b (with_out a w) = with_out (a ++ b) w.
Proof. unfold with_out. cbn. by rewrite (assoc_L (++)). Qed.

(** A printer writes and does nothing else. *)
Definition prints (m : Tool unit) : Prop := ∀ w, ∃ texts, m w = (Ok tt, with_out texts w).

Lemma prints_println line : prints (println line).
Proof. intros w. by exists [line +:+ newline]. Qed.

Lemma prints_seq m1 m2 : prints m1 → prints m2 → prints (let! _ := m1 in m2).
Proof.
  intros H1 H2 w. destruct (H1 w) as [a Ha], (H2 (with_out a w)) as [b Hb].
  exists (a ++ b). by rewrite (mseq_ok _ _ _ _ _ Ha), Hb, with_out_app.
Qed.

Lemma prints_for {A} (l : list A) f : (∀ x, prints (f x)) → prints (mfor l f).
Proof.
  intros Hf. induction l as [|x l IH]; [|by apply prints_seq].
  intros w. exists []. unfold with_out. rewrite (right_id_L [] (++)). by destruct w.
Qed.

Lemma prints_json value : prints (print_json_value value).
Proof. destruct (json_prints value) as [text Ht]. intros w. exists [text +:+ newline]. unfold print_json_value. by rewrite Ht. Qed.

Lemma prints_doctor report mode : prints (print_doctor_report report mode).
Proof. destruct mode; [apply prints_seq; [apply prints_println|apply prints_for; intros; apply prints_println]|apply prints_json]. Qed.

Lemma prints_created export mode : prints (print_created export mode).
Proof. destruct mode; [apply prints_println|apply prints_json]. Qed.
Lemma prints_list exports mode : prints (print_export_list exports mode).
Proof. destruct mode; [apply prints_for; intros; apply prints_println|apply prints_json]. Qed.
Lemma prints_export export mode : prints (print_export export mode).
Proof. destruct mode; [apply prints_for; intros; apply prints_println|apply prints_json]. Qed.
Lemma prints_cloned source destination mode : prints (print_cloned source destination mode).
Proof. destruct mode; [apply prints_seq; apply prints_println|apply prints_json]. Qed.
Lemma prints_deleted name mode : prints (print_deleted name mode).
Proof. destruct mode; [apply prints_println|apply prints_json]. Qed.
End printing.

(** ** Diagnosis and use *)

Section diagnosis.
Context `{!ToolEnv}.
Implicit Types (w : ToolWorld).

(** What [nbdcli list] asks of the catalog. *)
Definition list_catalog (path : PathBuf) : M ToolWorld CatalogError (list ExportRecord) :=
  let! catalog := mlift (connect_path path) in on_db catalog (list_exports false).

Definition catalog_fails (checks : list CatalogDoctorCheck) : bool :=
  existsb (λ check, match cc_status check with CatFailed => true | _ => false end) checks.

(** The checks of a catalog find no failure exactly if it is a regular file and can be listed. *)
Lemma doctor_path_spec {E} path w :
  match doctor_path (E := E) path w with
  | (Ok checks, w') =>
      same_files w w' ∧
      (catalog_fails checks = false ↔ is_file path w = true ∧ is_ok (list_catalog path w).1 = true)
  | (Err _, _) => False
  | (Panic, w') => same_files w w' ∧ is_ok (list_catalog path w).1 = false
  end.
Proof.
  unfold doctor_path. destruct (tool_exists path w) eqn:He; cbn [negb].
  2: { split; [done|]. split; [done|]. unfold tool_exists, is_file in *. apply bool_decide_eq_false in He.
       destruct (tw_kinds w !! path); [by destruct He|by intros []]. }
  destruct (is_file path w) eqn:Hf; cbn [negb]; [|by split; [done|split; [done|by intros []]]].
  unfold list_catalog, mtry, mlift. unfold mseq. destruct (connect_path path) as [catalog|e|].
  2: { split; [done|]. split; [done|by intros []]. }
  2: { done. }
  pose proof (on_db_reads catalog (list_exports false) w (list_exports_reads false)) as Hs.
  destruct (on_db catalog (list_exports false) w) as [[exports|e|] w']; cbn in *; naive_solver.
Qed.
End diagnosis.

Section nbdcli.
Context `{!ToolEnv}.
Hypothesis json_prints : ∀ value, is_Some (te_json value).
Implicit Types (w : ToolWorld).

Lemma config_file_no_panic path : config_file path ≠ Panic.
Proof. destruct path; [done|]. cbn. unfold ConfigFile_local, home_dir. by repeat case_match. Qed.

Lemma url_no_panic raw : CatalogUrl_from_str raw ≠ Panic.
Proof. unfold CatalogUrl_from_str. destruct (split_once _ raw) as [[scheme rest]|]; [|done]. cbn. by repeat case_match. Qed.

Lemma has_status_app status a b : has_status status (a ++ b) = has_status status a || has_status status b.
Proof. apply existsb_app. Qed.

Lemma report_failed checks : doctor_failed (DoctorReport_new checks) = has_status DoctorFailed checks.
Proof. unfold doctor_failed, DoctorReport_new. cbn. by destruct (has_status DoctorFailed checks), (has_status DoctorWarning checks). Qed.

Lemma catalog_fails_status checks : has_status DoctorFailed (DoctorCheck_from_catalog <$> checks) = catalog_fails checks.
Proof. unfold has_status, catalog_fails. induction checks as [|[? [] ? ?] checks IH]; cbn; by rewrite ?IH. Qed.

(** The checks of a catalog URL. *)
Lemma check_catalog_spec {E} url w :
  let listed := (let! path := mlift (open_catalog connect_path url) in on_db path (list_exports false)) w in
  match check_catalog (E := E) url w with
  | (Ok checks, w') =>
      same_files w w' ∧
      (has_status DoctorFailed checks = false → is_ok (open_catalog connect_path url) = true ∧ is_ok listed.1 = true) ∧
      ((∀ path, sqlite_path url = Ok path → is_file path w = true ∨ is_ok (te_connect path) = false) →
       is_ok listed.1 = true → has_status DoctorFailed checks = false)
  | (Err _, _) => False
  | (Panic, w') => same_files w w' ∧ is_ok listed.1 = false
  end.
Proof.
  intros listed. subst listed. unfold check_catalog, doctor_catalog. destruct url as [raw path|raw]; cbn [provider sqlite_path].
  2: { cbn. split; [done|]. split; [done|]. done. }
  pose proof (doctor_path_spec (E := E) path w) as Hdp. unfold mtry, mlift, mseq, mret. cbn [open_catalog provider sqlite_path obind].
  unfold list_catalog, mseq, mlift in Hdp. destruct (doctor_path path w) as [[checks|e|] w']; [|done|done].
  destruct Hdp as [Hs Hiff]. split; [done|]. cbn -[has_status]. change (has_status DoctorFailed (?c :: ?l)) with (bool_decide (dc_status c = DoctorFailed) || has_status DoctorFailed l).
  rewrite catalog_fails_status. cbn [dc_status DoctorCheck_from_catalog CatalogDoctorCheck_ok cc_status DoctorStatus_from_catalog].
  rewrite bool_decide_eq_false_2 by done. cbn [orb]. split.
  - intros [Hf Hl]%Hiff. split; [|done]. by destruct (connect_path path).
  - intros Hlaw Hl. apply Hiff. destruct (Hlaw path eq_refl) as [Hf|Hc]; [done|]. unfold connect_path in Hl. by destruct (te_connect path).
Qed.
End nbdcli.

(** ** The errors of a start *)

Section errors.
(** The errors that a computation can end with. *)
Definition errs_in {S E A} (P : E → Prop) (m : M S E A) : Prop := ∀ s e, (m s).1 = Err e → P e.

Lemma errs_seq {S E A B} P (m : M S E A) (f : A → M S E B) : errs_in P m → (∀ a, errs_in P (f a)) → errs_in P (let! x := m in f x).
Proof. intros Hm Hf s e. unfold mseq. specialize (Hm s). destruct (m s) as [[a|e'|] s']; [apply Hf| |done]. cbn in *. intros [= <-]. by apply Hm. Qed.

Lemma errs_lift {S E A} (P : E → Prop) (o : outcome E A) : (∀ e, o = Err e → P e) → errs_in (S := S) P (mlift o).
Proof. intros Ho s e He. by apply Ho. Qed.

Lemma errs_ret {S E A} (P : E → Prop) (a : A) : errs_in (S := S) P (mret a).
Proof. done. Qed.

Lemma errs_zoom {S T E A} P (get : S → T) set (m : M T E A) : errs_in P m → errs_in P (zoom get set m).
Proof. intros Hm s e. unfold zoom. specialize (Hm (get s)). destruct (m (get s)) as [o t]. apply Hm. Qed.

Lemma errs_map {S E F A} (P : E → Prop) (Q : F → Prop) (f : E → F) (m : M S E A) :
  errs_in P m → (∀ e, P e → Q (f e)) → errs_in Q (mmap_err f m).
Proof.
  intros Hm Hf s e. unfold mmap_err. specialize (Hm s). destruct (m s) as [[a|e'|] s']; cbn in *; [done| |done].
  intros [= <-]. by apply Hf, Hm.
Qed.

Context `{!ToolEnv} {Client C : Type} `{!S3Sdk Client C}.

Definition is_write_error (e : ConfigError) : Prop :=
  match e with SerializeConfig | CreateConfigDir _ | WriteConfig _ => True | _ => False end.

(** Why logging does not start: the filter of the environment, a dispatcher that was set before, or the log file. *)
Definition logging_error (filter_ok : string → bool) (default_free : bool) (rust_log : option string) (path : PathBuf) (e : LoggingError) : Prop :=
  match e with
  | ParseFilter filter => filter = default DEFAULT_LOG_FILTER rust_log ∧ filter_ok filter = false
  | SetGlobalDefault => default_free = false
  | OpenLogFile file => file = path
  | CreateLogDir parent => path_parent path = Some parent
  end.

(** Why a blob store does not open.  A local one opens; S3 needs a build with S3, a prefix that is accepted and its bucket. *)
Definition store_error (s3 : bool) (config : BlobStoreConfig) (e : ServerError) : Prop :=
  match config with
  | BlobLocal => False
  | BlobS3 _ _ _ _ _ _ prefix auto =>
      if s3 then normalize_key_prefix prefix = Err e ∨ ∃ sdk, e = s3_error (if auto then "create S3 bucket" else "verify S3 bucket") sdk
      else e = SIo "open blob store" "S3 blob store backend is not available in this build"
  end.

Definition address_error (bind : outcome string unit) (addr : outcome string string) (e : ServerError) : Prop :=
  (∃ text, bind = Err text ∧ e = SIo "bind NBD server" text) ∨ (∃ text, addr = Err text ∧ e = SIo "read NBD server address" text).

(** What may still stop a server that the doctor finds fine; [loaded] is the configuration that it loads. *)
Definition start_error filter_ok default_free rust_log s3 bind addr (loaded : CfgResult NbdConfig) (e : ToolError) : Prop :=
  match loaded, e with
  | Err e', ToolConfig e => e = e' ∧ is_write_error e
  | Ok config, ToolLogging e => logging_error filter_ok default_free rust_log (cfg_logging_file_path config) e
  | Ok config, ToolServer e => store_error s3 (cfg_blob_store config) e ∨ address_error bind addr e
  | _, _ => False
  end.

Lemma blob_store_errs s3 config : errs_in (store_error s3 (cfg_blob_store config)) (ConfiguredBlobStore_open (Client := Client) s3 config).
Proof.
  unfold ConfiguredBlobStore_open. destruct (cfg_blob_store config) as [|u r b a s f p auto]; [done|]. destruct s3; [|by intros ? ? [= <-]].
  apply errs_seq; [|done]. apply errs_zoom. unfold S3BlobStore_open. apply errs_seq; [apply errs_lift; by left|]. intros key_prefix.
  apply errs_seq; [|done]. intros c e. destruct auto.
  - unfold create_bucket_if_needed. destruct (create_bucket _ _ c) as [[?|e'|] ?]; [done| |done].
    destruct (is_bucket_already_exists e'); [done|]. intros [= <-]. right. by exists e'.
  - unfold verify_bucket_exists. destruct (head_bucket _ _ c) as [[?|e'|] ?]; [done| |done]. intros [= <-]. right. by exists e'.
Qed.

Lemma logging_errs filter_ok default_free rust_log path stdout :
  errs_in (logging_error filter_ok default_free rust_log path)
    (init_logging filter_ok default_free (LoggingPolicy_from_options (mkLoggingOptions path stdout rust_log))).
Proof.
  unfold init_logging, build_dispatch. cbn [LoggingPolicy_from_options lp_filter lp_append lp_destinations lo_file_path lo_log_stdout lo_env_filter].
  destruct (filter_ok (default DEFAULT_LOG_FILTER rust_log)) eqn:Hf; [|by intros fs e [= <-]].
  apply errs_seq; [|by intros [d g]; destruct default_free; [|intros fs e [= <-]]].
  apply errs_seq; [|intros [[file out] guards]; apply errs_seq; [apply errs_lift; by destruct file|done]].
  cbn [open_destinations]. apply errs_seq; [|by destruct stdout]. unfold file_log_writer. apply errs_seq.
  - destruct (path_parent path) as [parent|] eqn:Hp; [|done]. by apply (errs_map (λ _, True)).
  - intros _ fs e. unfold open_log. by case_match; intros [= <-].
Qed.

(** A server whose catalog opens. *)
Lemma start_on_errs s3 config bind addr url :
  CatalogUrl_from_str (cfg_catalog_url config) = Ok url → is_ok (open_catalog connect_path url) = true →
  errs_in (λ e, store_error s3 (cfg_blob_store config) e ∨ address_error bind addr e)
    (start_on (Client := Client) (C := C) connect_path s3 config bind addr).
Proof.
  intros Hurl Hopen. destruct (open_catalog connect_path url) as [catalog|e|] eqn:Hc; [|done|done]. unfold start_on. rewrite Hurl.
  intros s. rewrite (mseq_ok _ _ _ url s) by done. rewrite (mseq_ok _ _ _ catalog s) by (unfold mlift; by rewrite Hc). revert s.
  apply errs_seq; [intros s e He; left; by eapply blob_store_errs|]. intros store. apply errs_seq.
  { apply errs_lift. destruct bind as [|text|]; intros e [= <-]. right. left. by exists text. }
  intros _. apply errs_seq; [|done]. apply errs_lift. destruct addr as [|text|]; intros e [= <-]. right. right. by exists text.
Qed.

(** The file that a start writes when there is none. *)
Definition write_config (file : ConfigFile) (config : NbdConfig) : M ConfigFs ConfigError LoadedConfig :=
  let! _ := create_parent (cf_path file) in
  let! contents := mlift (to_toml_string te_toml_print config) in
  let! _ := fs_write (cf_path file) contents in
  mret (mkLoaded (cf_path file) config false).

Lemma write_config_errs file config : errs_in is_write_error (write_config file config).
Proof.
  apply errs_seq; [|intros _; apply errs_seq; [|intros contents; apply errs_seq; [|done]]].
  - unfold create_parent, create_dir_all. case_match; [|done]. intros fs e. cbn. by case_match; intros [= <-].
  - apply errs_lift. unfold to_toml_string. by destruct (te_toml_print _); intros e [= <-].
  - intros fs e. unfold fs_write. by repeat case_match; intros [= <-].
Qed.

Lemma write_config_value file config fs loaded : (write_config file config fs).1 = Ok loaded → lc_config loaded = config.
Proof.
  destruct (write_config file config fs) as [o fs'] eqn:Hw. cbn. intros ->. unfold write_config in Hw.
  apply mseq_inv in Hw as (? & ? & _ & Hw). apply mseq_inv in Hw as (? & ? & _ & Hw). apply mseq_inv in Hw as (? & ? & _ & Hw).
  by injection Hw as <- <-.
Qed.

(** A start goes on from the configuration that the diagnosis has seen, or cannot write it. *)
Lemma bootstrap_agrees file fs :
  match (load_or_bootstrap te_toml_parse te_toml_print file fs).1 with
  | Ok loaded => ∃ seen, (load_or_default te_toml_parse file fs).1 = Ok seen ∧ lc_config seen = lc_config loaded
  | Err e => is_write_error e ∨ (load_or_default te_toml_parse file fs).1 = Err e
  | Panic => True
  end.
Proof.
  unfold load_or_bootstrap, load_or_default. destruct (path_exists (cf_path file) fs) as [o fs1] eqn:Hpe.
  assert (∃ b, o = Ok b) as [b ->] by (injection Hpe as <- _; by eexists). rewrite !(mseq_ok _ _ _ _ _ Hpe). destruct b.
  { destruct (config_load te_toml_parse file fs1) as [[loaded|e|] fs2]; cbn; [by exists loaded|by right|done]. }
  destruct (default_config file) as [config|e'|]; [|by right|done]. rewrite !(mseq_ok _ _ _ config fs1) by done.
  change (match (write_config file config fs1).1 with
    | Ok loaded => ∃ seen, Ok (E := ConfigError) (mkLoaded (cf_path file) config false) = Ok seen ∧ lc_config seen = lc_config loaded
    | Err e => is_write_error e ∨ Ok (mkLoaded (cf_path file) config false) = Err e
    | Panic => True
    end).
  pose proof (write_config_errs file config fs1) as He. pose proof (write_config_value file config fs1) as Hv.
  destruct (write_config file config fs1).1 as [loaded|e|]; [|by left; apply He|done].
  eexists. split; [done|]. by rewrite (Hv loaded).
Qed.

(** What the server's diagnosis has seen of the configuration, if it finds no failure. *)
Lemma doctor_load_spec {E} path w :
  match doctor_load_config (E := E) path w with
  | (Ok (checks, loaded), w') =>
      same_files w w' ∧
      match loaded with
      | None => has_status DoctorFailed checks = true
      | Some (_, config) =>
          match (NbdConfig_load te_toml_parse te_toml_print (config_source path) te_home te_userprofile (tw_config w)).1 with
          | Ok config' => config' = config
          | Err e => is_write_error e
          | Panic => True
          end
      end
  | (Err _, _) => False
  | (Panic, w') => same_files w w'
  end.
Proof.
  unfold doctor_load_config, NbdConfig_load, config_source. destruct path as [path|].
  - cbn zeta. pose proof (on_config_reads (config_load te_toml_parse (ConfigFile_explicit path)) w (config_load_reads _ _ _)) as Hs.
    unfold mtry, mseq, on_config, zoom in *. destruct (config_load te_toml_parse (ConfigFile_explicit path) (tw_config w)) as [[loaded|e|] fs]; cbn in *; done.
  - unfold mtry at 1, mlift. unfold mseq at 1. destruct (ConfigFile_local te_home te_userprofile) as [file|e|]; [|by split|done].
    pose proof (bootstrap_agrees file (tw_config w)) as Hb.
    pose proof (on_config_reads (load_or_default te_toml_parse file) w (load_or_default_reads _ _ _)) as Hs.
    unfold mtry, mseq, on_config, zoom in *.
    destruct (load_or_default te_toml_parse file (tw_config w)) as [[seen|e|] fs]; cbn [fst snd] in *; [|by split|done].
    split; [done|]. destruct (load_or_bootstrap te_toml_parse te_toml_print file (tw_config w)) as [[loaded|e|] fs']; cbn [fst snd] in *; [|by destruct Hb|done].
    destruct Hb as (? & [= <-] & ->). done.
Qed.
End errors.

(** ** Both diagnoses *)

Section doctors.
Context `{!ToolEnv}.
Implicit Types (w : ToolWorld).

(** [nbdcli list], up to its output. *)
Definition listed (path : option PathBuf) (include_deleted : bool) : Tool (list ExportRecord) :=
  let! config := cli_load_config path in
  let! url := mlift (map_err ToolCatalog (CatalogUrl_from_str (cfg_catalog_url config))) in
  let! catalog := mlift (map_err ToolCatalog (open_catalog connect_path url)) in
  mmap_err ToolCatalog (on_db catalog (list_exports include_deleted)).

Lemma listed_catalog url w :
  is_ok ((let! catalog := mlift (map_err ToolCatalog (open_catalog connect_path url)) in
          mmap_err ToolCatalog (on_db catalog (list_exports false))) w).1 =
  is_ok ((let! catalog := mlift (open_catalog connect_path url) in on_db catalog (list_exports false)) w).1.
Proof.
  unfold mseq, mlift, mmap_err. destruct (open_catalog connect_path url) as [catalog|e|]; [|done|done]. cbn.
  by destruct (on_db catalog (list_exports false) w) as [[]].
Qed.

Lemma cli_load_spec {E} path w :
  let '(loaded, w') := cli_load_config path w in
  same_files w w' ∧
  match loaded with
  | Ok config => ∃ checks, cli_doctor_load_config (E := E) path w = (Ok (checks, Some config), w') ∧ has_status DoctorFailed checks = false
  | Err _ => ∃ checks, cli_doctor_load_config (E := E) path w = (Ok (checks, None), w') ∧ has_status DoctorFailed checks = true
  | Panic => cli_doctor_load_config (E := E) path w = (Panic, w')
  end.
Proof.
  unfold cli_load_config, cli_doctor_load_config. pose proof (config_file_no_panic path) as Hnp.
  destruct (config_file path) as [file|e|]; [|by split; [|eexists]|done].
  rewrite !(mseq_ok _ _ w file w), (mseq_ok _ _ w (inr file) w) by done.
  pose proof (on_config_reads (config_load te_toml_parse file) w (config_load_reads _ _ _)) as Hs.
  unfold mmap_err, mtry, mseq. destruct (on_config (config_load te_toml_parse file) w) as [[loaded|e|] w']; cbn in *; [..|done];
    (split; [done|]; eexists; done).
Qed.

Lemma cli_doctor_spec {E} path w :
  match cli_doctor (E := E) path w with
  | (Ok report, w') =>
      same_files w w' ∧
      (doctor_failed report = false → is_ok (listed path false w).1 = true) ∧
      ((∀ file, is_file file w = true ∨ is_ok (te_connect file) = false) → is_ok (listed path false w).1 = true → doctor_failed report = false)
  | (Err _, _) => False
  | (Panic, w') => same_files w w' ∧ is_ok (listed path false w).1 = false
  end.
Proof.
  unfold cli_doctor, listed. pose proof (cli_load_spec (E := E) path w) as Hl.
  destruct (cli_load_config path w) as [[config|e|] w1] eqn:Hc; destruct Hl as [Hs Hl].
  2: { destruct Hl as (checks & Hd & Hf). rewrite (mseq_ok _ _ _ _ _ Hd). unfold mret, mseq. rewrite Hc, report_failed, Hf. done. }
  2: { unfold mseq. rewrite Hl, Hc. done. }
  destruct Hl as (checks & Hd & Hf). rewrite (mseq_ok _ _ _ _ _ Hd), (mseq_ok _ _ _ _ _ Hc). unfold check_catalog_url.
  pose proof (url_no_panic (cfg_catalog_url config)) as Hnp. destruct (CatalogUrl_from_str (cfg_catalog_url config)) as [url|e|]; [|by cbn; rewrite report_failed, has_status_app, orb_true_r|done].
  rewrite !(mseq_ok _ _ w1 url w1) by done. pose proof (check_catalog_spec (E := E) url w1) as Hcat.
  rewrite listed_catalog. unfold mseq at 1. destruct (check_catalog url w1) as [[cat|e|] w2]; [|done|by destruct Hcat; split; [by etrans|]].
  destruct Hcat as (Hs2 & H1 & H2). split; [by etrans|]. rewrite report_failed, !has_status_app, Hf. cbn [orb has_status existsb DoctorCheck_ok dc_status].
  rewrite (bool_decide_eq_false_2 (DoctorOk = DoctorFailed)) by done. cbn [orb]. split; [intros H3; by apply H1|].
  intros Hlaw. apply H2. intros p _. destruct (Hlaw p) as [Hp|Hp]; [left|by right]. unfold is_file in *. by rewrite (sf_kinds _ _ Hs).
Qed.

(** The configuration that a start of the server loads. *)
Definition server_config (path : option PathBuf) w : CfgResult NbdConfig :=
  (NbdConfig_load te_toml_parse te_toml_print (config_source path) te_home te_userprofile (tw_config w)).1.

(** A start of the server after a diagnosis without failures: its configuration is the one that was seen, or cannot be written, and its catalog opens. *)
Definition ready_to_start (path : option PathBuf) w : Prop :=
  match server_config path w with
  | Ok config => ∃ url, CatalogUrl_from_str (cfg_catalog_url config) = Ok url ∧ is_ok (open_catalog connect_path url) = true
  | Err e => is_write_error e
  | Panic => True
  end.

Lemma server_doctor_spec {E} path w :
  match server_doctor (E := E) path w with
  | (Ok report, w') => same_files w w' ∧ (doctor_failed report = false → ready_to_start path w)
  | (Err _, _) => False
  | (Panic, w') => same_files w w'
  end.
Proof.
  unfold server_doctor. pose proof (doctor_load_spec (E := E) path w) as Hl. unfold mseq at 1.
  destruct (doctor_load_config path w) as [[[checks loaded]|e|] w1]; [|done|done]. destruct Hl as [Hs Hl].
  destruct loaded as [[file config]|]; [|split; [done|]; cbn -[doctor_failed]; by rewrite report_failed, Hl].
  unfold check_catalog_url. destruct (CatalogUrl_from_str (cfg_catalog_url config)) as [url|e|] eqn:Hurl.
  2: { cbn -[doctor_failed DoctorReport_new]. split; [done|]. rewrite report_failed, has_status_app. cbn. by rewrite orb_true_r. }
  2: { by apply url_no_panic in Hurl. }
  pose proof (check_catalog_spec (E := E) url w1) as Hcat. unfold mseq at 1.
  destruct (check_catalog url w1) as [[cat|e|] w2]; [|done|by destruct Hcat; etrans].
  destruct Hcat as (Hs2 & H1 & _). cbn -[doctor_failed DoctorReport_new check_configured_paths app]. split; [by etrans|].
  rewrite report_failed, !has_status_app. intros (_ & (_ & (Hcat & _)%orb_false_iff)%orb_false_iff)%orb_false_iff.
  unfold ready_to_start, server_config. destruct (NbdConfig_load _ _ _ _ _ _).1 as [config'|e|]; [subst config'|done|done].
  exists url. split; [done|]. by apply H1.
Qed.
End doctors.

Section commands.
Context `{!ToolEnv}.
Hypothesis json_prints : ∀ value, is_Some (te_json value).
Implicit Types (w : ToolWorld).

Lemma cli_list_run uuid clock path json include_deleted w :
  let '(result, w') := cli_run uuid clock (mkCli path json (CmdList include_deleted)) w in
  is_ok result = is_ok (listed path include_deleted w).1 ∧ same_files w w'.
Proof.
  unfold cli_run, listed, run_catalog_command, catalog_command. cbn [cli_command cli_config cli_json].
  pose proof (cli_load_spec (E := ToolError) path w) as Hl. destruct (cli_load_config path w) as [[config|e|] w1] eqn:Hc; destruct Hl as [Hs _]; [|by unfold mseq; rewrite Hc..].
  rewrite !(mseq_ok _ _ _ _ _ Hc).
  destruct (CatalogUrl_from_str (cfg_catalog_url config)) as [url|e|]; [|by cbn..]. rewrite !(mseq_ok _ _ w1 url w1) by done.
  destruct (open_catalog connect_path url) as [catalog|e|]; [|by cbn..]. rewrite !(mseq_ok _ _ w1 catalog w1) by done.
  pose proof (on_db_reads catalog (list_exports include_deleted) w1 (list_exports_reads include_deleted)) as Hs2. unfold mmap_err, mseq.
  destruct (on_db catalog (list_exports include_deleted) w1) as [[exports|e|] w2]; cbn in *; [|by split; [|etrans]..].
  destruct (prints_list json_prints exports (OutputMode_from_json json) w2) as [texts Ht]. rewrite Ht. split; [done|].
  etrans; [exact Hs|]. etrans; [exact Hs2|apply same_files_out].
Qed.

(** A diagnosis, printed: it succeeds exactly if the report has no failure. *)
Lemma report_run (doctor : Tool DoctorReport) mode w o w1 :
  doctor w = (o, w1) → match o with Err _ => False | _ => same_files w w1 end →
  let '(result, w') := (let! report := doctor in
    let! _ := print_doctor_report report mode in
    if doctor_failed report then mfail (ToolMessage "doctor checks failed") else mret tt) w in
  same_files w w' ∧ is_ok result = match o with Ok report => negb (doctor_failed report) | _ => false end.
Proof.
  intros Hd Hs. unfold mseq at 1. rewrite Hd. destruct o as [report|e|]; [|done|done].
  destruct (prints_doctor json_prints report mode w1) as [texts Ht]. rewrite (mseq_ok _ _ _ _ _ Ht).
  by destruct (doctor_failed report); (split; [etrans; [exact Hs|apply same_files_out]|]).
Qed.
End commands.

Section serving.
Context `{!ToolEnv} {Client C : Type} `{!S3Sdk Client C}.

Lemma serve_errors filter_ok default_free rust_log s3 path args bind addr w (blobs : BlobWorld C) e :
  ready_to_start path w →
  (run_serve (Client := Client) filter_ok default_free rust_log s3 path args bind addr (w, blobs)).1 = Err e →
  start_error filter_ok default_free rust_log s3 bind addr (server_config path w) e.
Proof.
  unfold run_serve, ready_to_start, server_config. unfold mseq at 1. unfold on_tools at 1, mmap_err at 1, on_config at 1, zoom at 1 2. cbn [fst snd].
  destruct (NbdConfig_load _ _ _ _ _ (tw_config w)) as [[config|e'|] fs]; cbn [fst snd map_err]; [|by intros ? [= <-]|done].
  intros (url & Hurl & Hopen). generalize (mkToolWorld fs (tw_kinds w) (tw_dbs w) (tw_out w) (tw_err w), blobs). intros s. revert s e.
  change (errs_in (start_error filter_ok default_free rust_log s3 bind addr (Ok config))
    (let! _ := on_tools (mmap_err ToolLogging (on_config (init_logging filter_ok default_free (LoggingPolicy_from_options
       (mkLoggingOptions (cfg_logging_file_path config) (sa_log_stdout args) rust_log))))) in
     on_blobs (start_on (Client := Client) (C := C) connect_path s3 config bind addr))).
  apply errs_seq; [eapply errs_zoom, errs_map; [apply errs_zoom, logging_errs|done]|]. intros _.
  eapply errs_map; [by eapply errs_zoom, start_on_errs|done].
Qed.
End serving.


Section effects.
Context `{!ToolEnv}.
Hypothesis json_prints : ∀ value, is_Some (te_json value).
Implicit Types (w : ToolWorld).

Lemma cli_inspect_run uuid clock path json name w : same_files w (cli_run uuid clock (mkCli path json (CmdInspect name)) w).2.
Proof.
  change (same_files w ((let! config := cli_load_config path in run_catalog_command uuid clock (CmdInspect name) config (OutputMode_from_json json)) w).2).
  unfold run_catalog_command, catalog_command, mseq, mlift, mmap_err.
  pose proof (cli_load_spec (E := ToolError) path w) as Hl. destruct (cli_load_config path w) as [[config|e|] w1]; destruct Hl as [Hs _]; [|done|done].
  destruct (CatalogUrl_from_str (cfg_catalog_url config)) as [url|e|]; [|done|done]. cbn [map_err].
  destruct (open_catalog connect_path url) as [catalog|e|]; [|done|done]. cbn [map_err]. destruct (ExportName_new name) as [n|e|]; [|done|done]. cbn [map_err].
  pose proof (on_db_reads catalog (inspect_export n) w1 (inspect_reads n)) as Hs2.
  destruct (on_db catalog (inspect_export n) w1) as [[meta|e|] w2]; cbn [map_err snd] in *; [|by etrans..].
  destruct (prints_export json_prints meta (OutputMode_from_json json) w2) as [texts ->].
  etrans; [exact Hs|]. etrans; [exact Hs2|apply same_files_out].
Qed.

(** Nothing was changed and nothing was printed. *)
Definition quiet w w' : Prop := same_files w w' ∧ tw_out w' = tw_out w ∧ tw_err w' = tw_err w.

#[local] Instance quiet_preorder : PreOrder quiet.
Proof. split; [by intros w|]. intros w1 w2 w3 (? & ? & ?) (? & ? & ?). split; [by etrans|]. split; congruence. Qed.

Lemma config_quiet path w : quiet w (cli_load_config path w).2.
Proof.
  pose proof (cli_load_spec (E := ToolError) path w) as Hl. destruct (cli_load_config path w) as [o w'] eqn:Hc. destruct Hl as [Hs _]. split; [done|].
  unfold cli_load_config in Hc. destruct (config_file path) as [file|e|]; [|by injection Hc as _ <-..].
  unfold mseq, mlift, mmap_err, on_config, zoom in Hc. cbn in Hc. destruct (config_load te_toml_parse file (tw_config w)) as [[]]; by injection Hc as _ <-.
Qed.

(** The catalog that a command works on. *)
Definition opened (path : option PathBuf) : Tool PathBuf :=
  let! config := cli_load_config path in
  let! url := mlift (map_err ToolCatalog (CatalogUrl_from_str (cfg_catalog_url config))) in
  mlift (map_err ToolCatalog (open_catalog connect_path url)).

Lemma opened_quiet path w : quiet w (opened path w).2.
Proof.
  unfold opened, mseq. pose proof (config_quiet path w) as Hq. destruct (cli_load_config path w) as [[config|e|] w1]; [|done|done].
  unfold mlift. by destruct (CatalogUrl_from_str (cfg_catalog_url config)).
Qed.

Lemma cli_run_eq uuid clock path json command w :
  command ≠ CmdDoctor →
  cli_run uuid clock (mkCli path json command) w = (let! catalog := opened path in catalog_command uuid clock command (OutputMode_from_json json) catalog) w.
Proof.
  intros Hne. transitivity ((let! config := cli_load_config path in
    run_catalog_command uuid clock command config (OutputMode_from_json json)) w); [by destruct command|].
  unfold opened, run_catalog_command, mseq, mlift. destruct (cli_load_config path w) as [[config|e|] w1]; [|done|done].
  by destruct (CatalogUrl_from_str (cfg_catalog_url config)).
Qed.

(** An operation that fails without a trace. *)
Lemma on_db_fails {A} path (m : M SqliteDb CatalogError A) w o w' :
  (∀ db o db', m db = (o, db') → is_ok o = false → db_tables db' = db_tables db) →
  mmap_err ToolCatalog (on_db path m) w = (o, w') → is_ok o = false → quiet w w'.
Proof.
  intros Hm Hr Ho. unfold mmap_err, on_db in Hr. destruct (tw_dbs w !! path) as [db|] eqn:Hdb; [|by injection Hr as _ <-].
  destruct (m db) as [o1 db1] eqn:Hrun. injection Hr as <- <-. split; [|done]. split; cbn; [done..|]. rewrite fmap_insert. apply insert_id.
  rewrite lookup_fmap, Hdb. cbn. by rewrite (Hm _ _ _ Hrun) by (by destruct o1).
Qed.

(** A command fails before it prints. *)
Lemma op_then_print {A} path (m : M SqliteDb CatalogError A) (print : A → Tool unit) w o w' :
  (∀ db o db', m db = (o, db') → is_ok o = false → db_tables db' = db_tables db) → (∀ a, prints (print a)) →
  (let! a := mmap_err ToolCatalog (on_db path m) in print a) w = (o, w') → is_ok o = false → quiet w w'.
Proof.
  intros Hm Hp Hr Ho. unfold mseq in Hr. destruct (mmap_err ToolCatalog (on_db path m) w) as [o1 w1] eqn:Hop.
  destruct o1 as [a|e|]; [destruct (Hp a w1) as [texts Ht]; rewrite Ht in Hr; by injection Hr as <- <-| |];
    injection Hr as <- <-; by eapply on_db_fails.
Qed.

Lemma lift_then {A} (r : outcome ToolError A) (f : A → Tool unit) w o w' :
  (let! a := mlift r in f a) w = (o, w') → is_ok o = false → (∀ a, r = Ok a → f a w = (o, w') → quiet w w') → quiet w w'.
Proof. unfold mseq, mlift. destruct r; intros Hr Ho Hf; [by eapply Hf|by injection Hr as _ <-..]. Qed.

Lemma catalog_command_fails uuid clock command mode catalog w o w' :
  catalog_command uuid clock command mode catalog w = (o, w') → is_ok o = false → quiet w w'.
Proof.
  intros Hr Ho. destruct command as [name size block engine|deleted|name|source destination|name|]; cbn [catalog_command] in Hr;
    repeat (eapply lift_then; [exact Hr|done|]; clear Hr; intros ? ? Hr); [..|by injection Hr as _ <-];
    (eapply op_then_print; [| |exact Hr|done]); intros.
  - by eapply create_error.
  - by apply prints_created.
  - match goal with Hl : list_exports _ ?db = _ |- _ => pose proof (list_exports_reads deleted db) as Hk; by rewrite Hl in Hk end.
  - by apply prints_list.
  - by eapply fetch_by_name_tables.
  - by apply prints_export.
  - by eapply clone_error.
  - by apply prints_cloned.
  - by eapply delete_error.
  - by apply prints_deleted.
Qed.

(** Nothing is written to the standard error. *)
Definition keeps_err {A} (m : Tool A) : Prop := ∀ w, tw_err (m w).2 = tw_err w.

Lemma keeps_err_seq {A B} (m : Tool A) (f : A → Tool B) : keeps_err m → (∀ a, keeps_err (f a)) → keeps_err (let! a := m in f a).
Proof. intros Hm Hf w. unfold mseq. specialize (Hm w). destruct (m w) as [[a|e|] w1]; [by rewrite Hf|done|done]. Qed.

Lemma keeps_err_prints m : prints m → keeps_err m.
Proof. intros Hp w. by destruct (Hp w) as [texts ->]. Qed.

Lemma keeps_err_db {A} path (m : M SqliteDb CatalogError A) : keeps_err (mmap_err ToolCatalog (on_db path m)).
Proof. intros w. unfold mmap_err, on_db. destruct (tw_dbs w !! path) as [db|]; [|done]. by destruct (m db). Qed.

Lemma catalog_command_err uuid clock command mode catalog : keeps_err (catalog_command uuid clock command mode catalog).
Proof.
  destruct command; cbn [catalog_command]; [..|done]; repeat (apply keeps_err_seq; [first [done|apply keeps_err_db]|intros ?]);
    apply keeps_err_prints; auto using prints_created, prints_list, prints_export, prints_cloned, prints_deleted.
Qed.

(** Nothing fails from now on. *)
Definition calm w : Prop := fs_faults (tw_config w) = [] ∧ ∀ path db, tw_dbs w !! path = Some db → db_faults db = [].

Lemma config_load_again file fs loaded fs' fs2 :
  config_load te_toml_parse file fs = (Ok loaded, fs') → fs_files fs2 = fs_files fs → fs_faults fs2 = [] →
  config_load te_toml_parse file fs2 = (Ok loaded, fs2).
Proof.
  unfold config_load, load_file, read_to_string, mseq, mlift, next_fs_fault, fs_after. destruct fs2 as [files2 faults2]. cbn.
  intros Hl -> ->. cbn. destruct (fs_files fs !! cf_path file) as [text|]; [|by repeat case_match].
  destruct (default None (head (fs_faults fs))); [done|]. destruct (utf8_valid _); [|done].
  destruct (ok_or _ _) as [config|e|]; [|done|done]. by injection Hl as <- _.
Qed.

Lemma opened_again path w catalog w1 w2 :
  opened path w = (Ok catalog, w1) → fs_files (tw_config w2) = fs_files (tw_config w) → calm w2 → opened path w2 = (Ok catalog, w2).
Proof.
  intros Ho Hf [Hc _]. unfold opened in *. apply mseq_inv in Ho as (config & wa & Hl & Ho). unfold cli_load_config in *.
  apply mseq_inv in Hl as (file & wb & Hfile & Hl). apply mlift_inv in Hfile as [Hfile ->]. apply mseq_inv in Hl as (loaded & wc & Hl & Hret).
  injection Hret as <- <-. unfold mmap_err, on_config, zoom in Hl.
  destruct (config_load te_toml_parse file (tw_config w)) as [[l|e|] fs'] eqn:Hload; [|done|done]. cbn in Hl. injection Hl as -> <-.
  rewrite (mseq_ok _ _ w2 (lc_config loaded) w2).
  - apply mseq_inv in Ho as (url & wd & Hu & Ho). apply mlift_inv in Hu as [Hu ->]. apply mlift_inv in Ho as [Ho ->].
    rewrite (mseq_ok _ _ w2 url w2) by (unfold mlift; by rewrite Hu). unfold mlift. by rewrite Ho.
  - rewrite (mseq_ok _ _ w2 file w2) by (unfold mlift; by rewrite Hfile). rewrite (mseq_ok _ _ w2 loaded w2); [done|].
    unfold mmap_err, on_config, zoom. rewrite (config_load_again _ _ _ _ _ Hload Hf Hc). cbn. by destruct w2.
Qed.

(** A query of a calm world changes nothing at all. *)
Lemma inspect_calm catalog name w t record :
  calm w → db_tables <$> tw_dbs w !! catalog = Some t →
  load_export name (mkDatabase t []) = (Ok record, mkDatabase t []) →
  on_db catalog (inspect_export name) w = (Ok record, w).
Proof.
  intros [_ Hc] Ht Hl. unfold on_db. destruct (tw_dbs w !! catalog) as [[t' faults]|] eqn:Hdb; [|done]. injection Ht as ->. apply Hc in Hdb as Hf. cbn in Hf. subst faults.
  assert (inspect_export name (mkDatabase t []) = (Ok record, mkDatabase t [])) as ->.
  { unfold load_export in Hl. apply mseq_inv in Hl as (meta & db1 & Hfetch & Hl). unfold inspect_export. rewrite Hfetch. case_bool_decide; [done|]. exact Hl. }
  rewrite insert_id by done. by destruct w.
Qed.

Lemma export_lines_printed export w : mfor (export_lines export) println w = (Ok tt, with_out ((λ line, line +:+ newline) <$> export_lines export) w).
Proof.
  revert w. generalize (export_lines export). intros lines. induction lines as [|line lines IH]; intros w.
  - unfold with_out. cbn [fmap list_fmap]. rewrite app_nil_r. by destruct w.
  - cbn [mfor]. rewrite (mseq_ok _ _ _ tt (with_out [line +:+ newline] w)) by done. rewrite IH, with_out_app. done.
Qed.

Lemma create_unmigrated uuid clock request : is_ok (create_export uuid clock request unmigrated).1 = false.
Proof.
  destruct (create_export uuid clock request unmigrated) as [[record|e|] db'] eqn:Hc; [|done|done].
  unfold create_export in Hc. inv_sql. discriminate.
Qed.

(** A created export is what an inspection shows. *)
Lemma create_then_inspect uuid clock path json name size block engine w w' :
  (∀ file db, tw_dbs w !! file = Some db → tables_ok (db_tables db)) →
  cli_run uuid clock (mkCli path json (CmdCreate name size block engine)) w = (Ok tt, w') →
  ∃ record, r_name record = name ∧ size_bytes (r_head record) = size ∧ r_block_size record = block ∧ r_engine_kind record = engine ∧
    r_state record = Active ∧
    ∀ uuid' clock' w2, same_files w' w2 → calm w2 →
      cli_run uuid' clock' (mkCli path false (CmdInspect name)) w2 = (Ok tt, with_out ((λ line, line +:+ newline) <$> export_lines record) w2).
Proof.
  intros Hok Hr. rewrite cli_run_eq in Hr by done. apply mseq_inv in Hr as (catalog & w1 & Ho & Hr).
  pose proof (opened_quiet path w) as Hq. rewrite Ho in Hq. destruct Hq as [Hs1 _]. cbn [snd] in Hs1.
  cbn [catalog_command] in Hr. apply mseq_inv in Hr as (n & ? & [Hn ->]%mlift_inv & Hr). apply mseq_inv in Hr as (request & ? & [Hreq ->]%mlift_inv & Hr).
  apply mseq_inv in Hr as (record & w3 & Hcreate & Hprint). destruct (prints_created json_prints record (OutputMode_from_json json) w3) as [texts Ht].
  rewrite Ht in Hprint. injection Hprint as <-.
  assert (ExportName_new name = Ok name ∧ n = name) as [Hname ->].
  { unfold ExportName_new in Hn |- *. repeat (case_match; [done|]). cbn in Hn. by injection Hn as <-. }
  assert (request = mkCreateExport name size block engine) as ->.
  { unfold CreateExport_new in Hreq. destruct (validate_non_zero "size_bytes" size), (validate_non_zero "block_size" block); try done. cbn in Hreq. by injection Hreq as <-. }
  unfold mmap_err, on_db in Hcreate. destruct (tw_dbs w1 !! catalog) as [db|] eqn:Hdb.
  2: { pose proof (create_unmigrated uuid clock (mkCreateExport name size block engine)) as Hu.
       by destruct (create_export uuid clock _ unmigrated) as [[]]. }
  destruct (create_export uuid clock (mkCreateExport name size block engine) db) as [[r|e|] db'] eqn:Hcr; [|done|done]. cbn in Hcreate. injection Hcreate as -> <-.
  destruct (create_then_load uuid clock (mkCreateExport name size block engine) db record db') as [_ Hload]; [|done|done|].
  { pose proof (f_equal (.!! catalog) (sf_tables _ _ Hs1)) as Ht1. cbn in Ht1. rewrite !lookup_fmap, Hdb in Ht1. cbn in Ht1.
    destruct (tw_dbs w !! catalog) as [db0|] eqn:Hdb0; [|done]. injection Ht1 as ->. by eapply Hok. }
  exists record. pose proof Hcr as (now & head & t & _ & _ & Hhead & _ & -> & _)%create_inv. destruct (created_head_fields _ _ Hhead) as [Hsize _].
  split_and!; [done..|]. intros uuid' clock' w2 Hs2 Hcalm. rewrite cli_run_eq by done. rewrite (mseq_ok _ _ w2 catalog w2).
  2: { eapply opened_again; [exact Ho| |done]. rewrite (sf_config _ _ Hs2). cbn. by rewrite (sf_config _ _ Hs1). }
  cbn [catalog_command OutputMode_from_json]. rewrite (mseq_ok _ _ w2 name w2) by (unfold mlift; by rewrite Hname).
  erewrite mseq_ok; [apply export_lines_printed|]. unfold mmap_err. erewrite inspect_calm; [done|done| |exact Hload].
  pose proof (f_equal (.!! catalog) (sf_tables _ _ Hs2)) as Ht2. cbn in Ht2. rewrite !lookup_fmap, lookup_insert_eq in Ht2. exact Ht2.
Qed.

Lemma cli_run_fails uuid clock path json command w e w' :
  command ≠ CmdDoctor → cli_run uuid clock (mkCli path json command) w = (Err e, w') → quiet w w'.
Proof.
  intros Hne Hr. rewrite cli_run_eq in Hr by done. pose proof (opened_quiet path w) as Hq. unfold mseq in Hr.
  destruct (opened path w) as [[catalog|e'|] w1]; [|by injection Hr as _ <-|done]. etrans; [exact Hq|]. by eapply catalog_command_fails.
Qed.

Lemma cli_run_err uuid clock path json command w w' :
  command ≠ CmdDoctor → cli_run uuid clock (mkCli path json command) w = (Ok tt, w') → tw_err w' = tw_err w.
Proof.
  intros Hne Hr. rewrite cli_run_eq in Hr by done. apply mseq_inv in Hr as (catalog & w1 & Ho & Hr).
  pose proof (opened_quiet path w) as (_ & _ & Hq). rewrite Ho in Hq. pose proof (catalog_command_err uuid clock command (OutputMode_from_json json) catalog w1) as Hk.
  rewrite Hr in Hk. cbn in *. congruence.
Qed.

Lemma print_error_ok other_error_text e mode context w :
  ∃ text, print_error other_error_text e mode context w =
    (Ok tt, mkToolWorld (tw_config w) (tw_kinds w) (tw_dbs w) (tw_out w) (tw_err w ++ [text])).
Proof.
  destruct mode; [by eexists|]. unfold print_error. cbn zeta.
  match goal with |- context [te_json ?j] => destruct (json_prints j) as [text Ht] end.
  exists (text +:+ newline). erewrite mseq_ok; [reflexivity|]. by rewrite Ht.
Qed.
End effects.
(** ** Properties *)

(** C37: the diagnoses tell the truth and change nothing.  Where JSON values print, and from the same world, failing calls included: [nbdcli doctor], [nbdcli list]
    and [nbd-server doctor] leave configuration files, paths and catalog tables as they are.  If [nbdcli doctor] succeeds, [nbdcli list] does; the
    converse holds if the database library connects only to regular files.  And if [nbd-server doctor] succeeds, a server that is started instead can
    fail only in these ways: it cannot write the missing configuration file; logging does not
    start, for the filter of the environment, the log file or a dispatcher that was set before; its address cannot be bound or read; or, if
    the configuration says S3, the build has no S3, the key prefix is not accepted, or the bucket does not answer.  The doctor does not look at these S3 settings.  A
    configuration that cannot be read, a catalog that does not open and local blobs are not among the causes. *)
Theorem doctors_truthful `{!ToolEnv} {Client C : Type} `{!S3Sdk Client C} uuid clock path json w :
  (∀ value, is_Some (te_json value)) →
  let doctor := cli_run uuid clock (mkCli path json CmdDoctor) w in
  let listing := cli_run uuid clock (mkCli path json (CmdList false)) w in
  let server := run_doctor path json w in
  (same_files w doctor.2 ∧ same_files w listing.2 ∧ same_files w server.2) ∧
  (is_ok doctor.1 = true → is_ok listing.1 = true) ∧
  ((∀ file, is_file file w = true ∨ is_ok (te_connect file) = false) → is_ok listing.1 = true → is_ok doctor.1 = true) ∧
  (is_ok server.1 = true →
   ∀ filter_ok default_free rust_log s3 args bind addr (blobs : BlobWorld C) e,
     (run_serve (Client := Client) filter_ok default_free rust_log s3 path args bind addr (w, blobs)).1 = Err e →
     start_error filter_ok default_free rust_log s3 bind addr (server_config path w) e).
Proof.
  intros Hj doctor listing server. subst doctor listing server.
  pose proof (cli_list_run Hj uuid clock path json false w) as Hlist. destruct (cli_run uuid clock (mkCli path json (CmdList false)) w) as [lr lw].
  destruct Hlist as [Hlok Hls]. pose proof (cli_doctor_spec (E := ToolError) path w) as Hd.
  pose proof (server_doctor_spec (E := ToolError) path w) as Hsd. unfold cli_run, run_doctor. cbn [cli_command cli_config cli_json fst snd].
  destruct (cli_doctor path w) as [od wd] eqn:Hdoc, (server_doctor path w) as [os ws] eqn:Hsrv.
  pose proof (report_run Hj _ (OutputMode_from_json json) _ _ _ Hdoc) as Hrd.
  pose proof (report_run Hj _ (OutputMode_from_json json) _ _ _ Hsrv) as Hrs.
  destruct (mseq (cli_doctor path) _ w) as [rd wd'], (mseq (server_doctor path) _ w) as [rs ws']. cbn [fst snd] in *.
  destruct Hrd as [Hsd1 ->]; [by destruct od; naive_solver|]. destruct Hrs as [Hss1 ->]; [by destruct os; naive_solver|].
  split; [done|]. rewrite Hlok. split; [|split].
  - destruct od as [report|e|]; [|done|done]. intros Hf%negb_true_iff. by apply Hd.
  - intros Hlaw Hl. destruct od as [report|e|]; [|done|]; [|destruct Hd; congruence]. apply negb_true_iff. by apply Hd.
  - destruct os as [report|e|]; [|done|done]. intros Hf%negb_true_iff. apply Hsd in Hf. intros. by eapply serve_errors.
Qed.

(** C33: a command of [nbdcli] on the catalog does what its exit code says.  Where JSON values print and the catalogs satisfy their schema: a command
    other than [doctor] that does not panic exits with 0 or 1; with 1 it has changed no file and no table, printed nothing on the
    standard output and one text on the standard error; with 0 it has printed nothing on the standard error, and [list] and [inspect] have changed
    nothing.  After a [create] that exits with 0, [inspect] of that name shows, at any later time at which the files and tables are the same and no call fails, an active
    export with the given name, size, block size and engine. *)
Theorem cli_commands_sound `{!ToolEnv} other_error_text uuid clock path json command w code w' :
  (∀ value, is_Some (te_json value)) → (∀ file db, tw_dbs w !! file = Some db → tables_ok (db_tables db)) →
  command ≠ CmdDoctor → cli_main other_error_text uuid clock (mkCli path json command) w = (Ok code, w') →
  (code = 1 ∧ same_files w w' ∧ tw_out w' = tw_out w ∧ ∃ text, tw_err w' = tw_err w ++ [text]) ∨
  (code = 0 ∧ tw_err w' = tw_err w ∧
   match command with
   | CmdList _ | CmdInspect _ => same_files w w'
   | CmdCreate name size block engine =>
       ∃ record, r_name record = name ∧ size_bytes (r_head record) = size ∧ r_block_size record = block ∧
         r_engine_kind record = engine ∧ r_state record = Active ∧
         ∀ uuid' clock' w2, same_files w' w2 → calm w2 →
           cli_run uuid' clock' (mkCli path false (CmdInspect name)) w2 = (Ok tt, with_out ((λ line, line +:+ newline) <$> export_lines record) w2)
   | _ => True
   end).
Proof.
  intros Hj Hok Hne Hrun. unfold cli_main, mtry in Hrun. unfold mseq at 1 in Hrun.
  destruct (cli_run uuid clock (mkCli path json command) w) as [[[]|e|] w1] eqn:Hr; [right|left|done].
  - injection Hrun as <- <-. split; [done|]. split; [by eapply cli_run_err|]. destruct command as [name size block engine|deleted|name|?|?|]; try done.
    + by eapply create_then_inspect.
    + pose proof (cli_list_run Hj uuid clock path json deleted w) as Hl. rewrite Hr in Hl. apply Hl.
    + pose proof (cli_inspect_run Hj uuid clock path json name w) as Hl. by rewrite Hr in Hl.
  - destruct (cli_run_fails Hj _ _ _ _ _ _ _ _ Hne Hr) as (Hs & Hout & Herr).
    destruct (print_error_ok Hj other_error_text e (OutputMode_from_json json) (ErrorContext_from_command command) w1) as [text Ht].
    cbn [cli_json cli_command] in Hrun. rewrite (mseq_ok _ _ _ _ _ Ht) in Hrun. injection Hrun as <- <-. split; [done|]. split; [by etrans; [exact Hs|]|].
    split; [done|]. exists text. cbn. by rewrite Herr.
Qed.

(** ** Samples *)

(** One document, one database file, and a printer of JSON values. *)
Definition sample_source : NbdConfigSource :=
  mkSource "file:/nbd/catalog.db" (mkRuntimeSource "/nbd" (Some "/nbd/blobs") "/nbd/wal") None None (Some (Some "/nbd/log")).

#[local] Instance sample_env : ToolEnv := {|
  te_toml_parse text := if decide (text = "doc") then Some sample_source else None;
  te_toml_print source := if decide (source = sample_source) then Some "doc" else None;
  te_path_display path := path;
  te_source_text _ := "";
  te_connect path := if decide (path = "/nbd/catalog.db") then Ok tt else Err DatabaseFault;
  te_home := Some "/home/op";
  te_userprofile := None;
  te_json value := match value with JString s => Some s | _ => Some "{}" end;
|}.

Definition sample_tools : ToolWorld :=
  mkToolWorld (mkConfigFs {["/nbd/config.toml" := "doc"]} [])
    {["/nbd" := Directory; "/nbd/catalog.db" := RegularFile]} {["/nbd/catalog.db" := mkDatabase Tables_empty []]} [] [].

Lemma sample_json : ∀ value, is_Some (te_json value).
Proof. intros []; by eexists. Qed.

Definition sample_args : ServeArgs := mkServeArgs "127.0.0.1:10809" false.

(** The diagnoses of the sample are fine; a server fails at its address. *)
Lemma doctors_truthful_witness :
  is_ok (cli_run "" None (mkCli (Some "/nbd/config.toml") false (CmdList false)) sample_tools).1 = true ∧
  ∃ e, (run_serve (Client := unit) (C := MemoryS3) (λ _, true) true None false (Some "/nbd/config.toml") sample_args (Err "in use") (Ok "")
    (sample_tools, mkBlobWorld (mkFs ∅ []) (mkMemoryS3 ∅ []))).1 = Err e ∧
    start_error (λ _, true) true None false (Err "in use") (Ok "") (server_config (Some "/nbd/config.toml") sample_tools) e.
Proof.
  destruct (doctors_truthful (Client := unit) (C := MemoryS3) "" None (Some "/nbd/config.toml") false sample_tools sample_json) as (_ & Hl & _ & Hs).
  split.
  - apply Hl. vm_compute. reflexivity.
  - exists (ToolServer (SIo "bind NBD server" "in use")).
    assert (Hrun : (run_serve (Client := unit) (C := MemoryS3) (λ _, true) true None false (Some "/nbd/config.toml") sample_args (Err "in use") (Ok "")
      (sample_tools, mkBlobWorld (mkFs ∅ []) (mkMemoryS3 ∅ []))).1 = Err (ToolServer (SIo "bind NBD server" "in use"))) by (vm_compute; reflexivity).
    split; [exact Hrun|]. eapply Hs; [vm_compute; reflexivity|exact Hrun].
Defined.

(** The same tools with S3 blobs under an absolute prefix. *)
Definition s3_source : NbdConfigSource :=
  mkSource (src_catalog_url sample_source) (src_runtime sample_source)
    (Some (SourceS3 None "r" "b" "a" "k" None (Some "/abs") None)) None (src_logging sample_source).

Definition s3_env : ToolEnv := {|
  te_toml_parse text := if decide (text = "doc") then Some s3_source else None;
  te_toml_print _ := None;
  te_path_display path := path;
  te_source_text _ := "";
  te_connect path := if decide (path = "/nbd/catalog.db") then Ok tt else Err DatabaseFault;
  te_home := Some "/home/op";
  te_userprofile := None;
  te_json value := match value with JString s => Some s | _ => Some "{}" end;
|}.

(** The doctor of the server accepts a key prefix that stops the server. *)
Lemma doctor_accepts_bad_prefix :
  is_ok (@run_doctor s3_env (Some "/nbd/config.toml") false sample_tools).1 = true ∧
  (@run_serve s3_env unit MemoryS3 _ (λ _, true) true None true (Some "/nbd/config.toml") sample_args (Ok tt) (Ok "")
    (sample_tools, mkBlobWorld (mkFs ∅ []) (mkMemoryS3 ∅ []))).1 = Err (ToolServer (invalid_prefix "/abs")).
Proof. split; vm_compute; reflexivity. Qed.

(** An export that is created and inspected. *)
Lemma cli_commands_sound_witness :
  ∃ w record, cli_main (λ _, "") "id-1" (Some 1%N) (mkCli (Some "/nbd/config.toml") false (CmdCreate "disk" 4096 512 WalDurable)) sample_tools = (Ok 0, w) ∧
    r_name record = "disk" ∧
    cli_run "" None (mkCli (Some "/nbd/config.toml") false (CmdInspect "disk")) w =
      (Ok tt, with_out ((λ line, line +:+ newline) <$> export_lines record) w).
Proof.
  destruct (cli_main (λ _, "") "id-1" (Some 1%N) (mkCli (Some "/nbd/config.toml") false (CmdCreate "disk" 4096 512 WalDurable)) sample_tools) as [o w] eqn:Hm.
  assert (Ho : o = Ok 0) by (change o with ((o, w).1); rewrite <-Hm; vm_compute; reflexivity). subst o.
  destruct (cli_commands_sound (λ _, "") "id-1" (Some 1%N) (Some "/nbd/config.toml") false (CmdCreate "disk" 4096 512 WalDurable) sample_tools 0 w sample_json)
    as [(Hc & _)|(_ & _ & record & Hn & _ & _ & _ & _ & Hi)]; [|discriminate|exact Hm|discriminate|].
  - intros file db Hdb. change (tw_dbs sample_tools) with ({["/nbd/catalog.db" := mkDatabase Tables_empty []]} : gmap string SqliteDb) in Hdb.
    apply lookup_singleton_Some in Hdb as [_ <-]. exact tables_empty_ok.
  - exists w, record. split; [reflexivity|]. split; [exact Hn|]. apply Hi; [reflexivity|]. split.
    + change w with ((Ok (E := ToolError) 0, w).2). rewrite <-Hm. vm_compute. reflexivity.
    + intros path db Hdb. assert (Hw : tw_dbs w = {["/nbd/catalog.db" := mkDatabase (db_tables (default (mkDatabase Tables_empty []) (tw_dbs w !! "/nbd/catalog.db"))) []]}).
      { change w with ((Ok (E := ToolError) 0, w).2). rewrite <-Hm. vm_compute. reflexivity. }
      rewrite Hw in Hdb. apply lookup_singleton_Some in Hdb as [_ <-]. reflexivity.
Defined.
